(* ===== verification/_CoqProject ===== *)
-Q . S2P
Prelude.v
Iofs.v
WalCodec.v
WalReplay.v
Wal.v
WalLog.v
SstFormat.v
SstBlock.v
SstOptions.v
Bloom.v
Cache.v
SstReader.v
SstWriter.v
SstTable.v
SstRange.v
SstFlush.v
SstPublish.v
Heap.v
SkipList.v
Arena.v
Memtable.v
Merge.v
TableIter.v
TableSet.v
Compaction.v
Handle.v
Manifest.v
CompactionRun.v
LsmTree.v
CompactionService.v
ViewMerge.v
Engine.v
EngineSpec.v
Bootstrap.v
Durable.v
Recovery.v
GoStrings.v
ControlPlane.v
ControlSpec.v
ControlNode.v
ControlClaims.v
RaftLog.v
RaftSpec.v
Cdc.v
Replica.v
ReplicaSpec.v
ReplicaClaims.v
Base64.v
Server.v
ServerSpec.v
Gateway.v
GatewaySpec.v
RaftTransport.v
Rejection.v
