(* ===== verification/Prelude.v ===== *)
(** * LSMEngine in Rocq

    A model of LSMEngine, a log-structured key-value engine in Go with a
    replicated mode, and the theorems that make it correct.  The code is
    translated into functions: a call that may fail returns a [result]
    (a value, an error, a panic, or the end of the model's fuel), stateful
    code is a state monad [SE] over the record of its fields, goroutines are
    steps that interleave, and every call to the file system takes the next
    element of a list of faults, so that error paths are ordinary runs.

    ** The program and its parts

    A write is validated and given a number by the commit log, appended to
    the write-ahead log, and put into a memtable.  A full memtable is frozen,
    queued, and flushed into an SSTable that the manifest names; compactions
    merge tables of one level into the next.  Reads look into the memtables
    from new to old and then into the tables.  After a crash the tables come
    from the manifest and the rest from the write-ahead log.  The control
    plane divides the keys into shards with leaders.  In the replicated mode
    the commit log is raft's: data and control mutations are proposed to it
    and applied from it in order, and change events are recorded.  A server
    offers a node over HTTP, a gateway sends writes to the leader of a key,
    and raft messages travel between servers.

    ** Files

    - [Prelude]: errors, results, the monad with its proof rules, machine
      integers, bytes and their order, checksums and hashes, slices, sorting
      and searching, entries and sorted runs.
    - [Iofs]: directories and faults (internal/lsm/iofs).
    - [WalCodec], [WalReplay], [Wal], [WalLog]: the write-ahead log
      (internal/lsm/wal): frames, replay with resynchronisation and repair,
      the writer with rotation and batches, and the log it stands for.
    - [SstFormat], [SstBlock], [SstOptions], [Bloom], [Cache], [SstReader],
      [SstWriter], [SstTable], [SstRange], [SstFlush], [SstPublish]: SSTables
      (internal/lsm/sstable): wire format, data blocks, options, filters,
      caches, reading, writing, and that what is written is read back.
    - [Heap], [SkipList], [Arena], [Memtable]: container/heap, the skip list,
      the memory entries are copied into (internal/lsm/memory) and the three
      memtables (internal/lsm/memtable).
    - [Merge], [TableIter], [ViewMerge]: iterators and range scans
      (compaction/runner, pkg/lsm/engine/view_iterator.go).
    - [TableSet], [Handle], [Manifest]: the tables in memory and on disk
      (internal/lsm/tableset, metadata, manifest).
    - [Compaction], [CompactionRun], [LsmTree], [CompactionService]: merges,
      the planner, table edits, the levels as a tree, and the goroutines
      around them with the event bus (internal/lsm/compaction, tableedit,
      dispatch, pkg/lsm/bus).
    - [Engine], [EngineSpec]: writes, freezing, flushing, reads and snapshots
      (pkg/lsm/engine, internal/lsm/commitlog/local.go).
    - [Bootstrap], [Durable], [Recovery]: starts from files
      (internal/lsm/bootstrap, engine/new.go, replay.go) and crashes.
    - [GoStrings], [ControlPlane], [ControlSpec], [ControlNode],
      [ControlClaims]: the control plane (engine/control_plane.go,
      control_payload.go) with its state file.
    - [RaftLog], [RaftSpec]: the commit log over raft
      (internal/lsm/commitlog).
    - [Cdc]: change events (engine/cdc.go).
    - [Replica], [ReplicaSpec], [ReplicaClaims]: a node with the replicated
      commit log (engine/commitlog*.go, write_service.go).
    - [Base64], [Server], [ServerSpec]: encoding/base64, the handlers of the
      server and its table of write requests (pkg/lsm/server/server.go,
      read.go).
    - [Gateway], [GatewaySpec]: routing, discovery and retries
      (server/router.go), over a network and over a cluster of servers.
    - [RaftTransport]: delivery of raft messages (server/raft_transport.go).
    - [Rejection]: which errors a node returns, and what a rejection before
      proposal means, from the server down to raft.

    ** Interfaces

    Components meet at classes: [RecordDecoder] (WalReplay), [EntryIterator]
    (Merge), [MemTable] with [MemTableLaws] (Memtable), [TableHandle] with
    [TableHandleLaws] (Handle), [Storage] with [StorageLaws] (CompactionRun,
    LsmTree), [WriteAheadLog] with its laws (Engine, EngineSpec),
    [DurableStorage], [BootLaws], [DurableLog] (Durable), [Consensus]
    (ControlPlane), [RaftLib] with [RaftLaws] (RaftLog, RaftSpec), [Network]
    with [NetworkLaws] (Gateway, GatewaySpec) and [CertifiedWriter]
    (GatewaySpec).  The clients are proved against the laws; the
    implementations are instances.

    ** What the theorems show

    - Storage formats: encoders and decoders are inverse, decoders accept
      only what was framed, and no input makes them run forever.
    - Write-ahead log: what was acknowledged is replayed, in order, after any
      number of rotations, batches and restarts; a segment cut anywhere
      replays its complete blocks; repair loses nothing that was delivered.
    - Tables: a flushed table is a finite map for point reads and scans
      whatever the caches hold, and appears completely or not at all.
    - Memtables, table set, manifest, merges: each refines its abstract
      contract (sorted runs, pins, atomic updates, overlays).
    - The tree and the engine: reads return the last acknowledged write over
      any interleaving of writes, flushes, compactions and snapshots of the
      tables, and after any crashes and restarts; compactions come to rest.
    - Control plane: requests act on ranges of keys with leaders, are applied
      once per operation id, and survive restarts.
    - Replication: a proposal is answered with its own entry; a node reads as
      a prefix of the committed log; nodes with equal prefixes agree.
    - Server and gateway: the status of a write request is its outcome over
      any interleaving; an answer that says a write is safe to retry is given
      only if the node is unchanged; a write through the gateway is submitted
      at most once; gateway and nodes agree on leaders; raft messages that are
      not reported as failed were taken in order.
    - Arenas: entries copied into one keep their bytes until it is reset.
    Where the code does not keep what it promises, an example proves it (for
    instance [dropped_tombstone_resurrects], [snapshot_loses_queued_memtable],
    [late_event_lost], [reader_sees_reused_memory]).

    ** Bounds and fuel

    Loops of the code that are not structural take fuel, and theorems show
    that the fuel given is enough, mostly the length of the remaining input:
    replay and resynchronisation (one more than the bytes left), record and
    block decoders (the bytes left), searches in the skip list (the number of
    nodes), merges and compactions (more than the entries that were ever
    flushed), planning (one more than the number of levels).  Integers are
    kept at their width where the code can overflow.  Lengths of slices in
    memory and sums of them are unbounded integers.

    ** Parameters

    Code outside the repository is a parameter with named laws: snappy (its
    round trip and length), [encoding/json] (marshalling functions, round
    trips where a theorem needs them), the etcd raft library ([RaftLib]),
    peers' transports, the HTTP client of the gateway and of the raft
    transport, URL parsing, and the growth of slices ([growslice]).
    [CertifiedWriter] is not proved for a replicated node: what is proved of
    one is that a rejection before proposal leaves it unchanged.

    ** Not modelled

    - internal/lsm/iofs/internal/iouring and the asynchronous file systems:
      system calls and memory shared with the kernel; the model has the
      synchronous calls of the interface.
    - The HTTP listener and multiplexer, unix sockets, webhooks, the command
      line tool, logging, metrics and statistics: input and output around the
      engine, or counters nobody in the engine reads.
    - The trash directory: where files go that no manifest names.
    - Buffer and reader pools.  The memtable models hold the bytes of entries
      and not their place in an arena; [Arena] shows what that relies on.
    - Prefetch workers: they only fill caches, whose contents the theorems on
      tables leave open.
    - Snapshots of the engine are modelled with their operations; the
      refinement of the engine excludes them, because two examples show that
      they break it. *)

From Stdlib Require Import ZArith Lia Strings.Ascii Strings.Byte Structures.Orders Floats.SpecFloat.
From stdpp Require Import base countable list sorting strings pretty gmap.
Local Open Scope Z_scope.

(** ** Outcomes of fallible Go code *)

(** The sentinel errors of [pkg/lsm/errs] and of [io], and one constructor for
    every error built with [errors.New] or [fmt.Errorf] in the modelled code
    (its text identifies it). *)
Inductive error :=
| ErrNotLeader
| commitLogNotLeader
| ErrWALCorrupt
| ErrWALCorruptSegment
| ErrWALMissingSegment
| ErrWALClosed
| ErrWALEmptyKey
| ErrWALEmptyValue
| ErrBackpressure
| ErrWALRecordTooLarge
| ErrRangeUnsupported
| ErrSSTableBadMagic
| ErrSSTableBadFooter
| ErrSSTableBadBlock
| ErrSSTableBadMeta
| ErrSSTableBadIndex
| ErrSSTableUnknownCompression
| ErrClosed
| ErrShardNotFound
| ErrControlRevisionConflict
| ErrControlOperationConflict
| ErrControlWriteOptionsUnsupported
| EOF
| ErrUnexpectedEOF
| ErrNew (msg : string).

#[export] Instance error_eq_dec : EqDecision error.
Proof. solve_decision. Defined.

(** A call returns a value, returns an error, or panics (an index or a slice
    bound out of range).  [NoFuel] is the value of a modelled loop whose fuel
    ran out; the theorems show it is never reached. *)
Inductive result (A : Type) :=
| Ok (a : A)
| Err (e : error)
| Panic
| NoFuel.
Arguments Ok {A} _.
Arguments Err {A} _.
Arguments Panic {A}.
Arguments NoFuel {A}.

(** The operation returned: it did not panic and did not run out of fuel. *)
Definition returned {A} (r : result A) : Prop := match r with Ok _ | Err _ => True | _ => False end.

#[export] Instance result_eq_dec {A} `{EqDecision A} : EqDecision (result A).
Proof. solve_decision. Defined.

#[export] Instance result_ret : MRet result := fun A a => Ok a.
#[export] Instance result_bind : MBind result := fun A B f m =>
  match m with Ok a => f a | Err e => Err e | Panic => Panic | NoFuel => NoFuel end.
#[export] Instance result_fmap : FMap result := fun A B f m =>
  match m with Ok a => Ok (f a) | Err e => Err e | Panic => Panic | NoFuel => NoFuel end.

Lemma result_bind_Ok {A B} (m : result A) (f : A -> result B) a : m = Ok a -> (x ← m; f x) = f a.
Proof. by intros ->. Qed.

(** Stateful code: the state survives an error, as it does in Go. *)
Definition SE (S A : Type) : Type := S -> result A * S.

#[export] Instance SE_ret {S} : MRet (SE S) := fun A a s => (Ok a, s).
#[export] Instance SE_bind {S} : MBind (SE S) := fun A B f m s =>
  match m s with
  | (Ok a, s) => f a s
  | (Err e, s) => (Err e, s)
  | (Panic, s) => (Panic, s)
  | (NoFuel, s) => (NoFuel, s)
  end.

Definition throw {S A} (e : error) : SE S A := fun s => (Err e, s).
Definition get {S} : SE S S := fun s => (Ok s, s).
Definition put {S} (s : S) : SE S unit := fun _ => (Ok tt, s).
Definition modify {S} (f : S -> S) : SE S unit := fun s => (Ok tt, f s).
Definition lift {S A} (m : result A) : SE S A := fun s => (m, s).

(** The error of a call as a value: [err := m; if err != nil ...]. *)
Definition catch {S A} (m : SE S A) : SE S (option error) := fun s =>
  match m s with
  | (Ok _, s) => (Ok None, s)
  | (Err e, s) => (Ok (Some e), s)
  | (Panic, s) => (Panic, s)
  | (NoFuel, s) => (NoFuel, s)
  end.

Lemma SE_bind_Ok {S A B} (m : SE S A) (f : A -> SE S B) s a s' :
  m s = (Ok a, s') -> (m ≫= f) s = f a s'.
Proof. unfold mbind, SE_bind. now intros ->. Qed.

Lemma SE_get_bind {S A} (f : S -> SE S A) s : (get ≫= f) s = f s s.
Proof. reflexivity. Qed.

(** [m] never fails from a state in [I], ends in [I] and returns a value in [Q]. *)
Definition runs {S A} (I : S -> Prop) (m : SE S A) (Q : A -> Prop) : Prop :=
  forall s, I s -> exists a s', m s = (Ok a, s') /\ I s' /\ Q a.

Lemma runs_ret {S A} (I : S -> Prop) (a : A) (Q : A -> Prop) : Q a -> runs I (mret a) Q.
Proof. intros H s Hs. by exists a, s. Qed.

Lemma runs_lift {S A} (I : S -> Prop) (m : result A) a (Q : A -> Prop) : m = Ok a -> Q a -> runs I (lift m) Q.
Proof. intros -> H s Hs. by exists a, s. Qed.

Lemma runs_bind {S A B} (I : S -> Prop) (m : SE S A) (f : A -> SE S B) (Q : A -> Prop) (R : B -> Prop) :
  runs I m Q -> (forall a, Q a -> runs I (f a) R) -> runs I (a ← m; f a) R.
Proof.
  intros Hm Hf s Hs. destruct (Hm s Hs) as (a & s1 & E & Hs1 & Ha).
  destruct (Hf a Ha s1 Hs1) as (b & s2 & E2 & Hs2 & Hb). exists b, s2.
  by rewrite (SE_bind_Ok _ _ _ _ _ E).
Qed.

Lemma runs_impl {S A} (I : S -> Prop) (m : SE S A) (Q R : A -> Prop) :
  runs I m Q -> (forall a, Q a -> R a) -> runs I m R.
Proof. intros Hm H s Hs. destruct (Hm s Hs) as (a & s' & E & Hs' & Ha). eauto 6. Qed.

(** Every value that [m] returns is in [P]. *)
Definition ensures {S A} (m : SE S A) (P : A -> Prop) : Prop := forall s a s', m s = (Ok a, s') -> P a.

Lemma ensures_ret {S A} (a : A) (P : A -> Prop) : P a -> ensures (S := S) (mret a) P.
Proof. intros H s b s' E. injection E as <- _. exact H. Qed.

Lemma ensures_any {S A} (m : SE S A) : ensures m (fun _ => True).
Proof. by intros s a s' _. Qed.

Lemma ensures_bind {S A B} (m : SE S A) (f : A -> SE S B) (Q : A -> Prop) (P : B -> Prop) :
  ensures m Q -> (forall a, Q a -> ensures (f a) P) -> ensures (a ← m; f a) P.
Proof.
  intros Hm Hf s b s' E. unfold mbind, SE_bind in E. destruct (m s) as [[a| | |] s1] eqn:E1; try done.
  exact (Hf a (Hm s a s1 E1) s1 b s' E).
Qed.

(** [m] succeeds from [s] with a value and a state in [Q]. *)
Definition wp {S A} (m : SE S A) (Q : A -> S -> Prop) (s : S) : Prop :=
  exists a s', m s = (Ok a, s') /\ Q a s'.

Lemma wp_ret {S A} (a : A) (Q : A -> S -> Prop) s : Q a s -> wp (mret a) Q s.
Proof. intros H. by exists a, s. Qed.

Lemma wp_lift {S A} (m : result A) a (Q : A -> S -> Prop) s : m = Ok a -> Q a s -> wp (lift m) Q s.
Proof. intros -> H. by exists a, s. Qed.

Lemma wp_bind {S A B} (m : SE S A) (f : A -> SE S B) (Q : B -> S -> Prop) s :
  wp m (fun a s => wp (f a) Q s) s -> wp (a ← m; f a) Q s.
Proof.
  intros (a & s1 & E & b & s2 & E2 & H). exists b, s2. by rewrite (SE_bind_Ok _ _ _ _ _ E).
Qed.

Lemma wp_mono {S A} (m : SE S A) (Q R : A -> S -> Prop) s :
  wp m Q s -> (forall a s, Q a s -> R a s) -> wp m R s.
Proof. intros (a & s' & E & H) HQ. exists a, s'. auto. Qed.

(** [m] ends from [s] in [Q] if it succeeds and in [E] if it fails; it does
    neither panic nor run out of fuel. *)
Definition wpe {S A} (m : SE S A) (Q : A -> S -> Prop) (E : S -> Prop) (s : S) : Prop :=
  match m s with
  | (Ok a, s') => Q a s'
  | (Err _, s') => E s'
  | _ => False
  end.

Lemma wpe_ret {S A} (a : A) (Q : A -> S -> Prop) E s : Q a s -> wpe (mret a) Q E s.
Proof. done. Qed.

Lemma wpe_bind {S A B} (m : SE S A) (f : A -> SE S B) (Q : B -> S -> Prop) E s :
  wpe m (fun a s => wpe (f a) Q E s) E s -> wpe (a ← m; f a) Q E s.
Proof. unfold wpe, mbind, SE_bind. by destruct (m s) as [[a| | |] s1]. Qed.

Lemma wpe_get {S B} (f : S -> SE S B) (Q : B -> S -> Prop) E s : wpe (f s) Q E s -> wpe (x ← get; f x) Q E s.
Proof. done. Qed.

Lemma wpe_modify {S} (f : S -> S) (Q : unit -> S -> Prop) E s : Q tt (f s) -> wpe (modify f) Q E s.
Proof. done. Qed.

Lemma wpe_mono {S A} (m : SE S A) (Q R : A -> S -> Prop) (E F : S -> Prop) s :
  wpe m Q E s -> (forall a s, Q a s -> R a s) -> (forall s, E s -> F s) -> wpe m R F s.
Proof. unfold wpe. destruct (m s) as [[a| | |] s1]; auto. Qed.

Lemma wpe_and {S A} (m : SE S A) (Q R : A -> S -> Prop) (E F : S -> Prop) s :
  wpe m Q E s -> wpe m R F s -> wpe m (fun a s => Q a s /\ R a s) (fun s => E s /\ F s) s.
Proof. unfold wpe. destruct (m s) as [[a| | |] s1]; auto. Qed.

Lemma wpe_lift {S A} (m : result A) (Q : A -> S -> Prop) (E : S -> Prop) s :
  (exists a, m = Ok a /\ Q a s) \/ (exists e, m = Err e /\ E s) -> wpe (lift m) Q E s.
Proof. by intros [(a & -> & HQ)|(e & -> & HE)]. Qed.

Lemma wpe_catch {S A} (m : SE S A) (Q : option error -> S -> Prop) (E : S -> Prop) s :
  wpe m (fun _ s => Q None s) (fun s => forall e, Q (Some e) s) s -> wpe (catch m) Q E s.
Proof. unfold wpe, catch. destruct (m s) as [[a| | |] s1]; auto. Qed.

(** The same with the error. *)
Definition wpx {S A} (m : SE S A) (Q : A -> S -> Prop) (E : error -> S -> Prop) (s : S) : Prop :=
  match m s with
  | (Ok a, s') => Q a s'
  | (Err e, s') => E e s'
  | _ => False
  end.

Lemma wpx_ret {S A} (a : A) (Q : A -> S -> Prop) E s : Q a s -> wpx (mret a) Q E s.
Proof. done. Qed.

Lemma wpx_bind {S A B} (m : SE S A) (f : A -> SE S B) (Q : B -> S -> Prop) E s :
  wpx m (fun a s => wpx (f a) Q E s) E s -> wpx (a ← m; f a) Q E s.
Proof. unfold wpx, mbind, SE_bind. by destruct (m s) as [[a| | |] s1]. Qed.

Lemma wpx_get {S B} (f : S -> SE S B) (Q : B -> S -> Prop) E s : wpx (f s) Q E s -> wpx (x ← get; f x) Q E s.
Proof. done. Qed.

Lemma wpx_mono {S A} (m : SE S A) (Q R : A -> S -> Prop) (E F : error -> S -> Prop) s :
  wpx m Q E s -> (forall a s, Q a s -> R a s) -> (forall e s, E e s -> F e s) -> wpx m R F s.
Proof. unfold wpx. destruct (m s) as [[a| | |] s1]; auto. Qed.

Lemma wpx_catch {S A} (m : SE S A) (Q : option error -> S -> Prop) E s :
  wpx m (fun _ s => Q None s) (fun e s => Q (Some e) s) s -> wpx (catch m) Q E s.
Proof. unfold wpx, catch. by destruct (m s) as [[a| | |] s1]. Qed.

(** From a statement that leaves the error open. *)
Lemma wpx_errs {S A} (m : SE S A) (Q : A -> S -> Prop) (E : S -> Prop) s :
  wpe m Q E s -> wpx m Q (fun e s' => E s' /\ m s = (Err e, s')) s.
Proof. unfold wpe, wpx. by destruct (m s) as [[a| | |] s1]. Qed.

Lemma wpx_safe {S A} (m : SE S A) (Q : A -> S -> Prop) E s : wpe m Q (fun _ => False) s -> wpx m Q E s.
Proof. unfold wpe, wpx. by destruct (m s) as [[a| | |] s1]. Qed.

(** ** Machine integers *)

Definition u8 (z : Z) : Z := z mod 2 ^ 8.
Definition u32 (z : Z) : Z := z mod 2 ^ 32.
Definition u64 (z : Z) : Z := z mod 2 ^ 64.
Definition i64 (z : Z) : Z := (z + 2 ^ 63) mod 2 ^ 64 - 2 ^ 63.

Definition is_u32 (z : Z) : Prop := 0 <= z < 2 ^ 32.
Definition is_u64 (z : Z) : Prop := 0 <= z < 2 ^ 64.

Lemma u32_id z : is_u32 z -> u32 z = z.
Proof. intros; now apply Z.mod_small. Qed.

Lemma i64_id z : - 2 ^ 63 <= z < 2 ^ 63 -> i64 z = z.
Proof. intros. unfold i64. rewrite Z.mod_small by lia. lia. Qed.

Lemma u64_id z : is_u64 z -> u64 z = z.
Proof. intros; now apply Z.mod_small. Qed.

Lemma u32_range z : is_u32 (u32 z).
Proof. apply Z.mod_pos_bound; lia. Qed.

Lemma u64_range z : is_u64 (u64 z).
Proof. apply Z.mod_pos_bound; lia. Qed.

(** ** Bytes *)

Abbreviation bytes := (list byte).
Abbreviation bytes_of_string := String.list_byte_of_string.

#[export] Instance byte_eq_dec : EqDecision byte := Byte.byte_eq_dec.

#[export] Instance byte_countable : Countable byte.
Proof. apply (inj_countable Byte.to_N Byte.of_N), Byte.of_to_N. Defined.

(** A codec that can stand for JSON where an example needs one: a byte for
    each bit of the number of a value. *)
Fixpoint pos_bytes (p : positive) : bytes :=
  match p with xH => [] | xO p => Byte.x00 :: pos_bytes p | xI p => Byte.x01 :: pos_bytes p end.
Fixpoint bytes_pos (bs : bytes) : positive :=
  match bs with [] => xH | Byte.x00 :: bs => xO (bytes_pos bs) | _ :: bs => xI (bytes_pos bs) end.

Lemma bytes_pos_bytes p : bytes_pos (pos_bytes p) = p.
Proof. induction p as [p IH|p IH|]; cbn; by rewrite ?IH. Qed.

Definition count_marshal `{Countable A} (a : A) : bytes := pos_bytes (encode a).
Definition count_unmarshal `{Countable A} (bs : bytes) : result A :=
  match decode (bytes_pos bs) with Some a => Ok a | None => Err (ErrNew "invalid encoding") end.

Lemma count_codec `{Countable A} (a : A) : count_unmarshal (count_marshal a) = Ok a.
Proof. unfold count_unmarshal, count_marshal. by rewrite bytes_pos_bytes, decode_encode. Qed.

Definition byte_to_Z (b : byte) : Z := Z.of_N (Byte.to_N b).

(** The conversion [byte(z)]: truncation to eight bits. *)
Definition byte_of_Z (z : Z) : byte :=
  match Byte.of_N (Z.to_N (u8 z)) with Some b => b | None => Byte.x00 end.

Lemma byte_to_Z_range b : 0 <= byte_to_Z b < 256.
Proof. unfold byte_to_Z. pose proof (Byte.to_N_bounded b). lia. Qed.

Lemma byte_of_to_Z b : byte_of_Z (byte_to_Z b) = b.
Proof.
  unfold byte_of_Z, u8. rewrite Z.mod_small by apply byte_to_Z_range.
  unfold byte_to_Z. now rewrite N2Z.id, Byte.of_to_N.
Qed.

Lemma byte_to_of_Z z : byte_to_Z (byte_of_Z z) = z mod 256.
Proof.
  unfold byte_of_Z, u8. change (2 ^ 8) with 256.
  pose proof (Z.mod_pos_bound z 256 ltac:(lia)) as Hb.
  destruct (Byte.of_N (Z.to_N (z mod 256))) as [b|] eqn:E.
  - apply Byte.to_of_N in E. unfold byte_to_Z. rewrite E. lia.
  - apply Byte.of_N_None_iff in E. lia.
Qed.

#[export] Instance byte_to_Z_inj : Inj (=) (=) byte_to_Z.
Proof. intros a b H. now rewrite <- (byte_of_to_Z a), H, byte_of_to_Z. Qed.

(** [encoding/binary]'s little-endian integers of [n] bytes. *)
Fixpoint le_encode (n : nat) (z : Z) : bytes :=
  match n with
  | O => []
  | S n => byte_of_Z z :: le_encode n (z / 256)
  end.

Fixpoint le_decode (bs : bytes) : Z :=
  match bs with
  | [] => 0
  | b :: bs => byte_to_Z b + 256 * le_decode bs
  end.

Abbreviation PutUint16 := (le_encode 2).
Abbreviation PutUint32 := (le_encode 4).
Abbreviation PutUint64 := (le_encode 8).

Lemma le_encode_length n z : length (le_encode n z) = n.
Proof. revert z; induction n; simpl; auto. Qed.

Lemma le_decode_range bs : 0 <= le_decode bs < 256 ^ Z.of_nat (length bs).
Proof.
  induction bs as [|b bs IH]; [simpl; lia|].
  cbn [le_decode length]. rewrite Nat2Z.inj_succ, Z.pow_succ_r by lia.
  pose proof (byte_to_Z_range b). nia.
Qed.

Lemma le_decode_encode n z : le_decode (le_encode n z) = z mod 256 ^ Z.of_nat n.
Proof.
  revert z; induction n as [|n IH]; intros z.
  - simpl. now rewrite Z.mod_1_r.
  - cbn [le_encode le_decode]. rewrite IH, byte_to_of_Z.
    rewrite Nat2Z.inj_succ, Z.pow_succ_r by lia.
    rewrite Z.rem_mul_r by lia. lia.
Qed.

Lemma le_encode_decode bs : le_encode (length bs) (le_decode bs) = bs.
Proof.
  induction bs as [|b bs IH]; [done|].
  cbn [le_encode le_decode length].
  pose proof (byte_to_Z_range b).
  f_equal.
  - transitivity (byte_of_Z (byte_to_Z b)); [|apply byte_of_to_Z].
    unfold byte_of_Z, u8. do 2 f_equal.
    change (2 ^ 8) with 256. replace (256 * le_decode bs) with (le_decode bs * 256) by lia.
    now rewrite Z_mod_plus_full.
  - transitivity (le_encode (length bs) (le_decode bs)); [f_equal|exact IH].
    replace (256 * le_decode bs) with (le_decode bs * 256) by lia.
    rewrite Z.div_add by lia. rewrite Z.div_small by lia. lia.
Qed.

Arguments le_encode : simpl never.
Arguments le_decode : simpl never.
Arguments byte_of_Z : simpl never.
Arguments byte_to_Z : simpl never.

Lemma le_decode_put32 z : is_u32 z -> le_decode (PutUint32 z) = z.
Proof. intros. rewrite le_decode_encode. now apply Z.mod_small. Qed.

Lemma le_decode_put64 z : is_u64 z -> le_decode (PutUint64 z) = z.
Proof. intros. rewrite le_decode_encode. now apply Z.mod_small. Qed.

Lemma le_decode_u32 bs : length bs = 4%nat -> is_u32 (le_decode bs).
Proof. intros H. pose proof (le_decode_range bs) as R. now rewrite H in R. Qed.

Lemma le_decode_u64 bs : length bs = 8%nat -> is_u64 (le_decode bs).
Proof. intros H. pose proof (le_decode_range bs) as R. now rewrite H in R. Qed.

(** ** Slices *)

Definition zlen {A} (l : list A) : Z := Z.of_nat (length l).

(** [s[lo:hi]] for a slice whose capacity is its length. *)
Definition slice {A} (s : list A) (lo hi : Z) : result (list A) :=
  if bool_decide (0 <= lo /\ lo <= hi /\ hi <= zlen s)
  then Ok (take (Z.to_nat (hi - lo)) (drop (Z.to_nat lo) s))
  else Panic.

(** [s[i]]. *)
Definition index {A} (s : list A) (i : Z) : result A :=
  if bool_decide (0 <= i)
  then match s !! Z.to_nat i with Some x => Ok x | None => Panic end
  else Panic.

Arguments slice : simpl never.
Arguments index : simpl never.

Lemma zlen_nonneg {A} (l : list A) : 0 <= zlen l.
Proof. unfold zlen; lia. Qed.

Lemma zlen_nil {A} : zlen (@nil A) = 0.
Proof. reflexivity. Qed.

Lemma zlen_cons {A} (x : A) l : zlen (x :: l) = 1 + zlen l.
Proof. unfold zlen; cbn [length]; lia. Qed.

Lemma zlen_app {A} (l k : list A) : zlen (l ++ k) = zlen l + zlen k.
Proof. unfold zlen; rewrite length_app; lia. Qed.

Lemma zlen_0_inv {A} (l : list A) : zlen l = 0 -> l = [].
Proof. destruct l; [done|]. rewrite zlen_cons. pose proof (zlen_nonneg l). lia. Qed.

Lemma zlen_le_encode n z : zlen (le_encode n z) = Z.of_nat n.
Proof. unfold zlen; now rewrite le_encode_length. Qed.

Lemma zlen_to_nat {A} (l : list A) : Z.to_nat (zlen l) = length l.
Proof. apply Nat2Z.id. Qed.

Lemma slice_app {A} (a b c : list A) lo hi :
  lo = zlen a -> hi = zlen a + zlen b -> slice (a ++ b ++ c) lo hi = Ok b.
Proof.
  intros -> ->. unfold slice. rewrite bool_decide_true.
  - f_equal. rewrite zlen_to_nat, drop_app_length.
    replace (Z.to_nat (zlen a + zlen b - zlen a)) with (length b) by (unfold zlen; lia).
    apply take_app_length.
  - rewrite !zlen_app. pose proof (zlen_nonneg a). pose proof (zlen_nonneg b).
    pose proof (zlen_nonneg c). lia.
Qed.

Lemma slice_mid {A} (s a b c : list A) lo hi :
  s = a ++ b ++ c -> lo = zlen a -> hi = zlen a + zlen b -> slice s lo hi = Ok b.
Proof. intros ->. apply slice_app. Qed.

Lemma slice_Ok {A} (s : list A) lo hi r :
  slice s lo hi = Ok r ->
  0 <= lo <= hi /\ hi <= zlen s /\ zlen r = hi - lo /\
  s = take (Z.to_nat lo) s ++ r ++ drop (Z.to_nat hi) s.
Proof.
  unfold slice. case_bool_decide as H; [|done]. intros [= <-].
  unfold zlen in *. rewrite length_take, length_drop.
  repeat split; try lia.
  rewrite <- (take_drop (Z.to_nat lo) s) at 1. f_equal.
  rewrite <- (take_drop (Z.to_nat (hi - lo)) (drop (Z.to_nat lo) s)) at 1. f_equal.
  rewrite drop_drop. f_equal. lia.
Qed.

Lemma slice_total {A} (s : list A) lo hi :
  0 <= lo <= hi -> hi <= zlen s -> exists r, slice s lo hi = Ok r /\ zlen r = hi - lo.
Proof.
  intros. unfold slice. rewrite bool_decide_true by lia.
  eexists; split; [reflexivity|]. unfold zlen in *.
  rewrite length_take, length_drop. lia.
Qed.

Lemma split_at {A} (l : list A) n :
  0 <= n <= zlen l -> exists a b, l = a ++ b /\ zlen a = n.
Proof.
  intros H. exists (take (Z.to_nat n) l), (drop (Z.to_nat n) l).
  rewrite take_drop. split; [done|]. unfold zlen in *. rewrite length_take. lia.
Qed.

Lemma index_total {A} (s : list A) i :
  0 <= i < zlen s -> exists x, index s i = Ok x /\ s !! Z.to_nat i = Some x.
Proof.
  intros Hi. unfold index. rewrite bool_decide_true by lia.
  destruct (lookup_lt_is_Some_2 s (Z.to_nat i)) as [x Hx]; [unfold zlen in Hi; lia|].
  rewrite Hx. eauto.
Qed.

Lemma slice_Panic {A} (s : list A) lo hi :
  slice s lo hi = Panic <-> ~ (0 <= lo /\ lo <= hi /\ hi <= zlen s).
Proof. unfold slice. case_bool_decide; split; (done || congruence). Qed.

Lemma slice_cases {A} (s : list A) lo hi :
  (exists r, slice s lo hi = Ok r) \/ slice s lo hi = Panic.
Proof. unfold slice. case_bool_decide; eauto. Qed.

(** ** The order of [bytes.Compare] *)

Fixpoint bytes_compare (a b : bytes) : comparison :=
  match a, b with
  | [], [] => Eq
  | [], _ :: _ => Lt
  | _ :: _, [] => Gt
  | x :: a, y :: b =>
      match byte_to_Z x ?= byte_to_Z y with
      | Eq => bytes_compare a b
      | c => c
      end
  end.

Module BytesOT <: OrderedTypeFull.
Definition t := bytes.
Definition eq := @eq bytes.
Definition eq_equiv : Equivalence eq := _.
Definition lt (a b : bytes) := bytes_compare a b = Lt.
Definition le (a b : bytes) := bytes_compare a b <> Gt.
Definition compare := bytes_compare.

Lemma compare_Eq a b : bytes_compare a b = Eq <-> a = b.
Proof.
  revert b; induction a as [|x a IH]; intros [|y b]; simpl; try (split; congruence).
  destruct (Z.compare_spec (byte_to_Z x) (byte_to_Z y)) as [E|E|E].
  - rewrite IH. apply (inj _) in E. split; congruence.
  - split; [congruence|]. intros [= -> ->]. lia.
  - split; [congruence|]. intros [= -> ->]. lia.
Qed.

Lemma compare_antisym a b : bytes_compare b a = CompOpp (bytes_compare a b).
Proof.
  revert b; induction a as [|x a IH]; intros [|y b]; simpl; auto.
  rewrite (Z.compare_antisym (byte_to_Z x)).
  destruct (byte_to_Z x ?= byte_to_Z y); simpl; auto.
Qed.

Instance lt_strorder : StrictOrder lt.
Proof.
  split.
  - intros a H. unfold lt in H. now rewrite (proj2 (compare_Eq a a)) in H.
  - unfold lt. intros a b c; revert b c.
    induction a as [|x a IH]; intros [|y b] [|z c]; simpl; try congruence.
    destruct (Z.compare_spec (byte_to_Z x) (byte_to_Z y)) as [E|E|E]; try congruence;
    destruct (Z.compare_spec (byte_to_Z y) (byte_to_Z z)) as [E'|E'|E']; try congruence;
    destruct (Z.compare_spec (byte_to_Z x) (byte_to_Z z)); try lia; try congruence.
    eauto.
Qed.

Instance lt_compat : Proper (eq ==> eq ==> iff) lt.
Proof. intros a b -> c d ->. reflexivity. Qed.

Lemma le_lteq a b : le a b <-> lt a b \/ eq a b.
Proof.
  unfold le, lt, eq. rewrite <- compare_Eq.
  destruct (bytes_compare a b); split; try tauto; try congruence; intros [|]; congruence.
Qed.

Lemma compare_spec a b : CompareSpec (eq a b) (lt a b) (lt b a) (compare a b).
Proof.
  unfold compare. destruct (bytes_compare a b) eqn:E; constructor; auto.
  - now apply compare_Eq.
  - unfold lt. rewrite compare_antisym, E. reflexivity.
Qed.

Definition eq_dec (a b : bytes) : {eq a b} + {~ eq a b} := decide (a = b).
End BytesOT.

Declare Scope lsm_scope.
Delimit Scope lsm_scope with lsm.
Open Scope lsm_scope.

Notation "a ≺ b" := (BytesOT.lt a b) (at level 70) : lsm_scope.
Notation "a ⪯ b" := (BytesOT.le a b) (at level 70) : lsm_scope.

#[export] Instance bytes_lt_dec a b : Decision (a ≺ b).
Proof. unfold BytesOT.lt. apply _. Defined.

#[export] Instance bytes_le_dec a b : Decision (a ⪯ b).
Proof. unfold BytesOT.le. apply _. Defined.

#[export] Existing Instance BytesOT.lt_strorder.

Section byte_order.
Implicit Types a b c : bytes.

Lemma bytes_lt_irrefl a : ~ a ≺ a.
Proof. apply irreflexivity, _. Qed.

Lemma bytes_lt_trans a b c : a ≺ b -> b ≺ c -> a ≺ c.
Proof. apply transitivity. Qed.

Lemma bytes_lt_le a b : a ≺ b -> a ⪯ b.
Proof. rewrite BytesOT.le_lteq; auto. Qed.

Lemma bytes_le_refl a : a ⪯ a.
Proof. rewrite BytesOT.le_lteq; now right. Qed.

Lemma bytes_not_lt a b : ~ a ≺ b <-> b ⪯ a.
Proof.
  rewrite BytesOT.le_lteq. destruct (BytesOT.compare_spec a b) as [E|E|E].
  - rewrite E. split; [now right|]. intros _. apply bytes_lt_irrefl.
  - split; [tauto|]. intros [H|H] _.
    + now apply (bytes_lt_irrefl a), (bytes_lt_trans _ b).
    + rewrite H in E. now apply bytes_lt_irrefl in E.
  - split; [tauto|]. intros _ H. now apply (bytes_lt_irrefl a), (bytes_lt_trans _ b).
Qed.

Lemma bytes_not_le a b : ~ a ⪯ b <-> b ≺ a.
Proof. rewrite <- bytes_not_lt. destruct (decide (b ≺ a)); tauto. Qed.

Lemma bytes_lt_le_trans a b c : a ≺ b -> b ⪯ c -> a ≺ c.
Proof. intros H. rewrite BytesOT.le_lteq. intros [?| <-]; eauto using bytes_lt_trans. Qed.

Lemma bytes_le_lt_trans a b c : a ⪯ b -> b ≺ c -> a ≺ c.
Proof. rewrite BytesOT.le_lteq. intros [?| ->]; eauto using bytes_lt_trans. Qed.

Lemma bytes_le_trans a b c : a ⪯ b -> b ⪯ c -> a ⪯ c.
Proof. rewrite !BytesOT.le_lteq. intros [?| ->] [?| <-]; unfold BytesOT.eq; eauto using bytes_lt_trans. Qed.

Lemma bytes_le_antisym a b : a ⪯ b -> b ⪯ a -> a = b.
Proof. rewrite <- (bytes_not_lt b a), (BytesOT.le_lteq b a). intros ? [?|E]; [done|]. now symmetry. Qed.

#[export] Instance bytes_le_Transitive : Transitive BytesOT.le.
Proof. intros a b c. apply bytes_le_trans. Qed.

#[export] Instance bytes_le_AntiSymm : AntiSymm eq BytesOT.le.
Proof. intros a b. apply bytes_le_antisym. Qed.

#[export] Instance bytes_le_Total : Total BytesOT.le.
Proof. intros a b. destruct (decide (a ⪯ b)) as [|H]; [by left|right]. rewrite bytes_not_le in H. by apply bytes_lt_le. Qed.


Lemma bytes_le_or a b : a ⪯ b \/ b ≺ a.
Proof. rewrite <- bytes_not_lt. destruct (decide (b ≺ a)); tauto. Qed.

Lemma bytes_compare_Eq a b : bytes_compare a b = Eq <-> a = b.
Proof. apply BytesOT.compare_Eq. Qed.

Lemma bytes_compare_Lt a b : bytes_compare a b = Lt <-> a ≺ b.
Proof. reflexivity. Qed.

Lemma bytes_compare_Gt a b : bytes_compare a b = Gt <-> b ≺ a.
Proof. unfold BytesOT.lt. rewrite (BytesOT.compare_antisym a b). destruct (bytes_compare a b); simpl; split; congruence. Qed.

Lemma bytes_le_nil a : [] ⪯ a.
Proof. destruct a; done. Qed.
End byte_order.

(** Decides goals on the byte order from the order facts in the context, by
    negating the goal and saturating with transitivity. *)
Ltac bytes_step :=
  match goal with
  | H : ?a ≺ ?a |- _ => destruct (bytes_lt_irrefl a H)
  | H : ?a ≠ ?a |- _ => destruct (H eq_refl)
  | H : ?a ⪯ ?b, H' : ?a ≠ ?b |- _ =>
      apply BytesOT.le_lteq in H; destruct H as [H|H]; [|destruct (H' H)]
  | H : ?a ⪯ ?b, H' : ?b ≠ ?a |- _ =>
      apply BytesOT.le_lteq in H; destruct H as [H|H]; [|symmetry in H; destruct (H' H)]
  | H : ?a ≺ ?b, H' : ?b ≺ ?c |- _ => learn_new (a ≺ c) (bytes_lt_trans a b c H H')
  | H : ?a ≺ ?b, H' : ?b ⪯ ?c |- _ => learn_new (a ≺ c) (bytes_lt_le_trans a b c H H')
  | H : ?a ⪯ ?b, H' : ?b ≺ ?c |- _ => learn_new (a ≺ c) (bytes_le_lt_trans a b c H H')
  | H : ?a ⪯ ?b, H' : ?b ⪯ ?a |- _ =>
      tryif constr_eq a b then fail else
      (let E := fresh in pose proof (bytes_le_antisym a b H H') as E; first [subst a|subst b|rewrite E in *]; clear H)
  | H : ?a ⪯ ?b, H' : ?b ⪯ ?c |- _ => learn_new (a ⪯ c) (bytes_le_trans a b c H H')
  end
with learn_new P pf :=
  match goal with
  | _ : P |- _ => fail 1
  | _ => pose proof pf
  end.

Ltac bytes_norm :=
  repeat match goal with
  | H : bytes_compare _ _ = Eq |- _ => apply bytes_compare_Eq in H
  | H : bytes_compare _ _ = Lt |- _ => apply bytes_compare_Lt in H
  | H : bytes_compare _ _ = Gt |- _ => apply bytes_compare_Gt in H
  | H : ~ (_ ≺ _) |- _ => apply bytes_not_lt in H
  | H : ~ (_ ⪯ _) |- _ => apply bytes_not_le in H
  end.

Ltac bytes_order :=
  bytes_norm; subst;
  match goal with
  | |- ?a ≺ ?b => destruct (decide (a ≺ b)) as [?|?]; [assumption|exfalso]
  | |- ?a ⪯ ?b => destruct (decide (a ⪯ b)) as [?|?]; [assumption|exfalso]
  | |- ~ _ => intros ?; exfalso
  | |- @eq bytes ?a ?b => destruct (decide (a = b)) as [?|?]; [assumption|exfalso];
      let H := fresh in destruct (bytes_le_or a b) as [H|H]
  | |- False => idtac
  end;
  bytes_norm; subst; repeat bytes_step; try congruence; fail.

(** ** Checksums *)

(** [hash/crc32]: the reflected CRC-32 of a polynomial, one bit at a time. *)
Definition crc32_bit (poly c : Z) : Z :=
  if Z.testbit c 0 then Z.lxor (Z.shiftr c 1) poly else Z.shiftr c 1.

Definition crc32_byte (poly c : Z) (b : byte) : Z :=
  Nat.iter 8 (crc32_bit poly) (Z.lxor c (byte_to_Z b)).

Definition ones32 : Z := 0xFFFFFFFF.

(** [crc32.Update]: also what [Write] does to a [hash.Hash32] digest. *)
Definition crc32_Update (poly crc : Z) (bs : bytes) : Z :=
  Z.lxor (fold_left (crc32_byte poly) bs (Z.lxor crc ones32)) ones32.

Definition poly_IEEE : Z := 0xEDB88320.
Definition poly_Castagnoli : Z := 0x82F63B78.

Definition ChecksumIEEE (bs : bytes) : Z := crc32_Update poly_IEEE 0 bs.
Definition ChecksumCastagnoli (bs : bytes) : Z := crc32_Update poly_Castagnoli 0 bs.

Lemma u32_lxor a b : is_u32 a -> is_u32 b -> is_u32 (Z.lxor a b).
Proof.
  unfold is_u32. intros Ha Hb.
  assert (Hn : 0 <= Z.lxor a b) by (apply Z.lxor_nonneg; lia).
  split; [exact Hn|].
  destruct (Z.eq_dec (Z.lxor a b) 0) as [->|Hne]; [lia|].
  apply Z.log2_lt_pow2; [lia|].
  assert (Hlog : forall z, 0 <= z < 2 ^ 32 -> Z.log2 z < 32).
  { intros z Hz. destruct (Z.eq_dec z 0) as [->|]; [simpl; lia|]. apply Z.log2_lt_pow2; lia. }
  pose proof (Z.log2_lxor a b ltac:(lia) ltac:(lia)).
  pose proof (Hlog a Ha). pose proof (Hlog b Hb). lia.
Qed.

Lemma u32_shiftr a n : 0 <= n -> is_u32 a -> is_u32 (Z.shiftr a n).
Proof.
  unfold is_u32. intros Hn Ha. rewrite Z.shiftr_div_pow2 by lia.
  pose proof (Z.pow_pos_nonneg 2 n). split; [apply Z.div_pos; lia|].
  apply Z.le_lt_trans with a; [apply Z.div_le_upper_bound; nia|lia].
Qed.

Lemma crc32_byte_range poly c b : is_u32 poly -> is_u32 c -> is_u32 (crc32_byte poly c b).
Proof.
  intros Hp Hc. unfold crc32_byte.
  assert (H : is_u32 (Z.lxor c (byte_to_Z b))).
  { apply u32_lxor; [done|]. pose proof (byte_to_Z_range b). unfold is_u32; lia. }
  revert H. generalize (Z.lxor c (byte_to_Z b)) as x. generalize 8%nat as n.
  induction n as [|n IH]; intros x Hx; simpl; [done|].
  specialize (IH x Hx). unfold crc32_bit at 1.
  case_match; [apply u32_lxor; [|done]|]; apply u32_shiftr; (done || lia).
Qed.

Lemma crc32_Update_range poly crc bs :
  is_u32 poly -> is_u32 crc -> is_u32 (crc32_Update poly crc bs).
Proof.
  intros Hp Hc. unfold crc32_Update. apply u32_lxor; [|done].
  assert (H : is_u32 (Z.lxor crc ones32)) by now apply u32_lxor.
  revert H. generalize (Z.lxor crc ones32).
  induction bs as [|b bs IH]; intros x Hx; simpl; [done|].
  apply IH, crc32_byte_range; done.
Qed.

(** Writing to a digest in pieces checksums their concatenation. *)
Lemma crc32_Update_app poly crc a b :
  crc32_Update poly (crc32_Update poly crc a) b = crc32_Update poly crc (a ++ b).
Proof.
  unfold crc32_Update. rewrite fold_left_app, Z.lxor_assoc, Z.lxor_nilpotent, Z.lxor_0_r.
  reflexivity.
Qed.

Lemma ChecksumIEEE_Update bs : ChecksumIEEE bs = crc32_Update poly_IEEE 0 bs.
Proof. reflexivity. Qed.

Lemma crc32_Update_nil poly crc : crc32_Update poly crc [] = crc.
Proof. unfold crc32_Update; simpl. now rewrite Z.lxor_assoc, Z.lxor_nilpotent, Z.lxor_0_r. Qed.

Lemma ChecksumIEEE_range bs : is_u32 (ChecksumIEEE bs).
Proof. now apply crc32_Update_range. Qed.

Lemma ChecksumCastagnoli_range bs : is_u32 (ChecksumCastagnoli bs).
Proof. now apply crc32_Update_range. Qed.

Lemma crc_roundtrip_IEEE bs : le_decode (PutUint32 (ChecksumIEEE bs)) = ChecksumIEEE bs.
Proof. apply le_decode_put32, ChecksumIEEE_range. Qed.

Lemma crc_roundtrip_Castagnoli bs :
  le_decode (PutUint32 (ChecksumCastagnoli bs)) = ChecksumCastagnoli bs.
Proof. apply le_decode_put32, ChecksumCastagnoli_range. Qed.

Lemma crc32_check_value :
  ChecksumIEEE (String.list_byte_of_string "123456789") = 0xCBF43926.
Proof. vm_compute. reflexivity. Qed.

Lemma crc32c_check_value :
  ChecksumCastagnoli (String.list_byte_of_string "123456789") = 0xE3069283.
Proof. vm_compute. reflexivity. Qed.

#[global] Opaque crc32_Update ChecksumIEEE ChecksumCastagnoli.

(** [hash/fnv]: FNV-1a, 64 bits. *)
Definition fnv64a_byte (h : Z) (b : byte) : Z :=
  u64 (Z.lxor h (byte_to_Z b) * 1099511628211).

Definition fnv64a (bs : bytes) : Z := fold_left fnv64a_byte bs 14695981039346656037.

Lemma fnv64a_range bs : is_u64 (fnv64a bs).
Proof.
  unfold fnv64a. assert (H : is_u64 14695981039346656037) by done.
  revert H. generalize 14695981039346656037.
  induction bs as [|b bs IH]; intros x Hx; simpl; [done|]. apply IH, u64_range.
Qed.

(** ** IEEE doubles *)

(** [float64(z)], [/], [*] and the conversion to [int] of IEEE doubles. *)
Definition float64 (z : Z) : spec_float := binary_normalize 53 1024 z 0 false.
Definition fdiv : spec_float -> spec_float -> spec_float := SFdiv 53 1024.
Definition fmul : spec_float -> spec_float -> spec_float := SFmul 53 1024.
Definition int_of_float (f : spec_float) : Z :=
  match f with
  | S754_finite s m e =>
      let v := if bool_decide (0 <= e) then Z.pos m * 2 ^ e else Z.pos m / 2 ^ (- e) in
      if s then - v else v
  | _ => 0
  end.

(** ** [sort.Search] *)

(** Binary search on [i, j); the interval halves, so its length is enough
    fuel. *)
Fixpoint search_loop (fuel : nat) (f : nat -> bool) (i j : nat) : nat :=
  match fuel with
  | O => i
  | S fuel =>
      if bool_decide (i < j)%nat then
        let h := ((i + j) / 2)%nat in
        if negb (f h) then search_loop fuel f (S h) j else search_loop fuel f i h
      else i
  end.

Definition sort_Search (n : nat) (f : nat -> bool) : nat := search_loop n f 0 n.

Lemma search_loop_spec fuel f i j :
  (i <= j)%nat -> (j - i <= fuel)%nat ->
  (forall a b, (i <= a <= b)%nat -> (b < j)%nat -> f a = true -> f b = true) ->
  let r := search_loop fuel f i j in
  (i <= r <= j)%nat /\ (forall k, (i <= k < r)%nat -> f k = false) /\
  (forall k, (r <= k < j)%nat -> f k = true).
Proof.
  revert i j. induction fuel as [|fuel IH]; intros i j Hij Hf Hmono; cbn [search_loop].
  { split; [lia|]. split; intros; lia. }
  case_bool_decide as Hlt; [|split; [lia|]; split; intros; lia].
  pose proof (Nat.div_mod_eq (i + j) 2). pose proof (Nat.mod_upper_bound (i + j) 2 ltac:(lia)).
  set (h := ((i + j) / 2)%nat) in *.
  destruct (f h) eqn:E; cbn [negb].
  - destruct (IH i h ltac:(lia) ltac:(lia)) as (H1 & H2 & H3).
    { intros a b Hab Hb. apply Hmono; lia. }
    split; [lia|]. split; [done|]. intros k Hk.
    destruct (decide (k < h)%nat); [apply H3; lia|]. apply (Hmono h k); [lia|lia|done].
  - destruct (IH (S h) j ltac:(lia) ltac:(lia)) as (H1 & H2 & H3).
    { intros a b Hab Hb. apply Hmono; lia. }
    split; [lia|]. split; [|done]. intros k Hk.
    destruct (decide (S h <= k)%nat); [apply H2; lia|].
    destruct (f k) eqn:Ek; [|done]. rewrite (Hmono k h) in E; [done|lia|lia|done].
Qed.

(** For a predicate that stays true once it is true, the search returns the
    first index where it holds. *)
Lemma sort_Search_spec n f :
  (forall a b, (a <= b < n)%nat -> f a = true -> f b = true) ->
  let r := sort_Search n f in
  (r <= n)%nat /\ (forall k, (k < r)%nat -> f k = false) /\ (forall k, (r <= k < n)%nat -> f k = true).
Proof.
  intros H. unfold sort_Search. destruct (search_loop_spec n f 0 n) as (H1 & H2 & H3); [lia|lia|intros a b Hab Hb; apply (H a b); lia|].
  cbv zeta in *. split; [apply H1|]. split; intros k Hk; [apply H2|apply H3]; lia.
Qed.

Lemma list_filter_all {A} (P : A -> Prop) `{!forall x, Decision (P x)} (l : list A) :
  (forall x, x ∈ l -> P x) -> filter P l = l.
Proof.
  induction l as [|x l IH]; intros HP; [done|]. rewrite filter_cons_True by (apply HP; by left).
  f_equal. apply IH. intros y Hy. apply HP. by right.
Qed.

Lemma filter_split {A} (P : A -> Prop) `{!forall x, Decision (P x)} (l : list A) : filter P l ++ filter (fun x => ~ P x) l ≡ₚ l.
Proof.
  induction l as [|x l IH]; [done|]. rewrite !filter_cons. destruct (decide (P x)) as [Hp|Hp].
  - rewrite decide_False by tauto. cbn. by rewrite IH.
  - rewrite decide_True by done. by rewrite <- Permutation_middle, IH.
Qed.

Lemma NoDup_map_inj {A B} (f : A -> B) l a b : NoDup (map f l) -> a ∈ l -> b ∈ l -> f a = f b -> a = b.
Proof.
  intros Hn Ha Hb E. apply list_elem_of_split in Ha as (l1 & l2 & ->). rewrite map_app in Hn. cbn [map] in Hn.
  apply NoDup_app in Hn as (_ & H1 & H2). apply NoDup_cons in H2 as [H2 _].
  apply elem_of_app in Hb as [Hb|[->|Hb]%elem_of_cons]; [|done|].
  - destruct (H1 (f b)); [by apply list_elem_of_fmap_2|]. rewrite <- E. by left.
  - destruct H2. rewrite E. by apply list_elem_of_fmap_2.
Qed.

Lemma list_filter_none {A} (P : A -> Prop) `{!forall x, Decision (P x)} (l : list A) :
  (forall x, x ∈ l -> ~ P x) -> filter P l = [].
Proof.
  induction l as [|x l IH]; intros HP; [done|]. rewrite filter_cons_False by (apply HP; by left).
  apply IH. intros y Hy. apply HP. by right.
Qed.

Lemma elem_of_concat {A} (x : A) (ls : list (list A)) : x ∈ concat ls <-> exists l, l ∈ ls /\ x ∈ l.
Proof.
  induction ls as [|l ls IH]; cbn [concat].
  - split; [by intros ?%elem_of_nil|by intros (l & ?%elem_of_nil & _)].
  - rewrite elem_of_app, IH. setoid_rewrite elem_of_cons. naive_solver.
Qed.

Lemma StronglySorted_lookup {A} (R : A -> A -> Prop) (l : list A) i j x y :
  StronglySorted R l -> (i < j)%nat -> l !! i = Some x -> l !! j = Some y -> R x y.
Proof.
  intros H. revert i j. induction H as [|a l Hs IH Hf]; intros i j Hij Hi Hj; [done|].
  destruct j as [|j]; [lia|]. destruct i as [|i]; cbn in *.
  - injection Hi as <-. eapply Forall_lookup_1; eauto.
  - apply (IH i j); [lia|done|done].
Qed.

(** ** Readers *)

(** [io.ReadFull] of [n] bytes from a reader with the bytes [r] left: the
    buffer or the error, and what is left afterwards. *)
Definition ReadFull (r : bytes) (n : Z) : result bytes * bytes :=
  if bool_decide (n <= zlen r) then (Ok (take (Z.to_nat n) r), drop (Z.to_nat n) r)
  else (Err (if bool_decide (r = []) then EOF else ErrUnexpectedEOF), []).

Lemma ReadFull_app a r n : n = zlen a -> ReadFull (a ++ r) n = (Ok a, r).
Proof.
  intros ->. unfold ReadFull. rewrite zlen_app, bool_decide_true by (pose proof (zlen_nonneg r); lia).
  now rewrite zlen_to_nat, take_app_length, drop_app_length.
Qed.

Lemma ReadFull_Ok r n a r' : 0 <= n -> ReadFull r n = (Ok a, r') -> r = a ++ r' /\ zlen a = n.
Proof.
  unfold ReadFull. case_bool_decide; [|congruence]. intros Hn [= <- <-].
  rewrite take_drop. split; [done|]. unfold zlen in *. rewrite length_take. lia.
Qed.

Lemma ReadFull_shrinks r n a r' : ReadFull r n = (a, r') -> (length r' <= length r)%nat.
Proof. unfold ReadFull. case_bool_decide; intros [= <- <-]; rewrite ?length_drop; simpl; lia. Qed.

(** ** Decimal numbers: [strconv.Atoi] and the [%d] verb *)

Definition digit_of (c : Ascii.ascii) : option Z :=
  let n := Z.of_N (Ascii.N_of_ascii c) in
  if bool_decide (48 <= n <= 57) then Some (n - 48) else None.

Fixpoint parse_digits (s : string) (acc : Z) : option Z :=
  match s with
  | EmptyString => Some acc
  | String c s => d ← digit_of c; parse_digits s (10 * acc + d)
  end.

Definition parse_unsigned (s : string) : option Z :=
  match s with EmptyString => None | _ => parse_digits s 0 end.

(** A sign, digits, and a value in the range of a 64-bit [int]. *)
Definition Atoi (s : string) : option Z :=
  n ← match s with
      | String "-"%char s => Z.opp <$> parse_unsigned s
      | String "+"%char s => parse_unsigned s
      | s => parse_unsigned s
      end;
  if bool_decide (- 2 ^ 63 <= n < 2 ^ 63) then Some n else None.

Lemma digit_of_char x : (x < 10)%N -> digit_of (pretty_N_char x) = Some (Z.of_N x).
Proof.
  intros H.
  assert (x = 0 \/ x = 1 \/ x = 2 \/ x = 3 \/ x = 4 \/ x = 5 \/ x = 6 \/ x = 7 \/ x = 8 \/ x = 9)%N by lia.
  destruct_or!; subst; reflexivity.
Qed.

Lemma parse_digits_pretty_go x s : parse_digits (pretty_N_go x s) 0 = parse_digits s (Z.of_N x).
Proof.
  revert s. induction (N.lt_wf_0 x) as [x _ IH]; intros s.
  destruct (decide (0 < x)%N) as [Hx|Hx].
  - rewrite pretty_N_go_step by done. rewrite IH by (apply N.div_lt; lia).
    cbn [parse_digits]. rewrite digit_of_char by (apply N.mod_lt; lia). cbn.
    f_equal. rewrite N2Z.inj_div, N2Z.inj_mod. pose proof (Z.div_mod (Z.of_N x) 10). lia.
  - replace x with 0%N by lia. now rewrite pretty_N_go_0.
Qed.

Lemma pretty_Z_nonneg n : 0 <= n -> pretty n = pretty (Z.to_N n).
Proof. destruct n; simpl; try done; lia. Qed.

Lemma parse_digits_pretty_N x : parse_digits (pretty x) 0 = Some (Z.of_N x) /\ pretty x <> EmptyString.
Proof.
  unfold pretty, pretty_N. case_decide as Hx; [subst; done|].
  pose proof (parse_digits_pretty_go x "") as E. split; [exact E|].
  intros Hnil. rewrite Hnil in E. simpl in E. injection E as E. lia.
Qed.

Lemma Atoi_pretty n : 0 <= n < 2 ^ 63 -> Atoi (pretty n) = Some n.
Proof.
  intros Hn. rewrite pretty_Z_nonneg by lia.
  destruct (parse_digits_pretty_N (Z.to_N n)) as [E Hne]. rewrite Z2N.id in E by lia.
  unfold Atoi. destruct (pretty (Z.to_N n)) as [|c s]; [done|].
  assert (Hd : is_Some (digit_of c)) by (cbn in E; destruct (digit_of c); [eauto|done]).
  assert (Hb : bool_decide (- 2 ^ 63 <= n < 2 ^ 63) = true) by (apply bool_decide_true; lia).
  assert (c <> "-"%char /\ c <> "+"%char) as [Hm Hp]
    by (split; intros ->; vm_compute in Hd; destruct Hd; discriminate).
  transitivity (n ← parse_unsigned (String c s);
    if bool_decide (- 2 ^ 63 <= n < 2 ^ 63) then Some n else None).
  2:{ cbn [parse_unsigned]. rewrite E. cbn [mbind option_bind]. now rewrite Hb. }
  do 2 f_equal. destruct c as [[] [] [] [] [] [] [] []]; try reflexivity; done.
Qed.

(** ** Entries ([pkg/lsm/types]) *)

Record Entry := mkEntry {
  Key : bytes;
  Value : bytes;
  Tombstone : bool;
  Seq : Z
}.

#[export] Instance Entry_eq_dec : EqDecision Entry.
Proof. solve_decision. Defined.

(** [memory.EntryView]: an entry that borrows its key and value. *)
Record EntryView := mkEntryView {
  View_Key : bytes;
  View_Value : bytes;
  View_Tombstone : bool;
  View_Seq : Z
}.

Definition EntryView_Entry (v : EntryView) : Entry :=
  mkEntry (View_Key v) (View_Value v) (View_Tombstone v) (View_Seq v).

(** Owned copy: equal to [Entry()] on immutable byte strings. *)
Definition EntryView_ToEntry (v : EntryView) : Entry :=
  mkEntry ([] ++ View_Key v) ([] ++ View_Value v) (View_Tombstone v) (View_Seq v).

Definition EntryView_of (e : Entry) : EntryView :=
  mkEntryView (Key e) (Value e) (Tombstone e) (Seq e).

Lemma EntryView_of_Entry e : EntryView_Entry (EntryView_of e) = e.
Proof. now destruct e. Qed.

(** Lengths and sequence numbers fit the fields that carry them: what every
    value of the Go type [types.Entry] that can be framed satisfies. *)
Definition Entry_wf (e : Entry) : Prop :=
  is_u64 (Seq e) /\ is_u32 (zlen (Key e) + zlen (Value e)).

#[export] Instance Entry_wf_dec e : Decision (Entry_wf e).
Proof. unfold Entry_wf, is_u64, is_u32. apply _. Defined.

Lemma Entry_wf_lengths e :
  Entry_wf e -> is_u32 (zlen (Key e)) /\ is_u32 (zlen (Value e)).
Proof.
  unfold Entry_wf, is_u32. pose proof (zlen_nonneg (Key e)). pose proof (zlen_nonneg (Value e)). lia.
Qed.

(** The first entry for a key in a run of entries. *)
Fixpoint lookup_entry (key : bytes) (es : list Entry) : option Entry :=
  match es with
  | [] => None
  | e :: es => if bool_decide (Key e = key) then Some e else lookup_entry key es
  end.

(** Runs with strictly ascending keys: what memtables drain and tables store. *)
Definition key_lt (a b : Entry) : Prop := Key a ≺ Key b.
Definition sorted_run (es : list Entry) : Prop := StronglySorted key_lt es.

Lemma lookup_entry_elem key es e :
  sorted_run es -> e ∈ es -> Key e = key -> lookup_entry key es = Some e.
Proof.
  induction 1 as [|x es Hs IH Hx]; intros Hin Hk; [by apply elem_of_nil in Hin|].
  cbn [lookup_entry]. apply elem_of_cons in Hin as [->|Hin]; [by rewrite bool_decide_true|].
  rewrite bool_decide_false; [by apply IH|]. intros E.
  rewrite Forall_forall in Hx. specialize (Hx e Hin). unfold key_lt in Hx.
  rewrite E, Hk in Hx. by apply bytes_lt_irrefl in Hx.
Qed.

Lemma lookup_entry_Some key es e : lookup_entry key es = Some e -> e ∈ es /\ Key e = key.
Proof.
  induction es as [|x es IH]; [done|]. cbn [lookup_entry]. case_bool_decide.
  - intros [= <-]. split; [by left|done].
  - intros H'. destruct (IH H'). split; [by right|done].
Qed.

Lemma lookup_entry_None key es : lookup_entry key es = None <-> Forall (fun e => Key e <> key) es.
Proof.
  induction es as [|x es IH]; cbn [lookup_entry]; [split; [constructor|done]|].
  rewrite Forall_cons. case_bool_decide; [split; [done|tauto]|]. rewrite IH. tauto.
Qed.

Lemma sorted_run_app a b :
  sorted_run (a ++ b) <-> sorted_run a /\ sorted_run b /\ (forall x y, x ∈ a -> y ∈ b -> Key x ≺ Key y).
Proof. unfold sorted_run. rewrite StronglySorted_app. unfold key_lt. tauto. Qed.

Lemma lookup_entry_app key a b :
  lookup_entry key (a ++ b) = match lookup_entry key a with Some e => Some e | None => lookup_entry key b end.
Proof. induction a as [|x a IH]; cbn [app lookup_entry]; [done|]. case_bool_decide; [done|exact IH]. Qed.

Lemma lookup_entry_below key es : Forall (fun e => Key e ≺ key) es -> lookup_entry key es = None.
Proof.
  intros H. apply lookup_entry_None. eapply Forall_impl; [exact H|]. intros e He E. cbv beta in He.
  rewrite E in He. by apply bytes_lt_irrefl in He.
Qed.

Lemma lookup_entry_above key es : Forall (fun e => key ≺ Key e) es -> lookup_entry key es = None.
Proof.
  intros H. apply lookup_entry_None. eapply Forall_impl; [exact H|]. intros e He E. cbv beta in He.
  rewrite E in He. by apply bytes_lt_irrefl in He.
Qed.

Lemma nodup_split {A} (a b a' b' : list A) x : NoDup (a ++ x :: b) -> a ++ x :: b = a' ++ x :: b' -> a = a' /\ b = b'.
Proof.
  intros Hn E. revert a' E. induction a as [|y a IH]; intros a' E.
  - destruct a' as [|z a']; [by injection E as ->|]. injection E as <- ->. apply NoDup_cons in Hn as [Hn _].
    destruct Hn. apply elem_of_app. right. by left.
  - apply NoDup_cons in Hn as [Hy Hn]. destruct a' as [|z a']; injection E as -> E.
    + destruct Hy. apply elem_of_app. right. by left.
    + destruct (IH Hn a' E) as [-> ->]. done.
Qed.

(** Setting an entry of a run. *)
Fixpoint upsert (e : Entry) (es : list Entry) : list Entry :=
  match es with
  | [] => [e]
  | x :: es' =>
      match bytes_compare (Key e) (Key x) with
      | Lt => e :: x :: es'
      | Eq => e :: es'
      | Gt => x :: upsert e es'
      end
  end.

Lemma upsert_below e lo hi : Forall (fun x => Key x ≺ Key e) lo -> upsert e (lo ++ hi) = lo ++ upsert e hi.
Proof.
  induction 1 as [|x lo Hx _ IH]; cbn [app upsert]; [done|]. by rewrite (proj2 (bytes_compare_Gt _ _) Hx), IH.
Qed.

Lemma upsert_above e hi : Forall (fun x => Key e ≺ Key x) hi -> upsert e hi = e :: hi.
Proof. destruct 1 as [|x hi Hx _]; cbn [upsert]; [done|]. by rewrite (proj2 (bytes_compare_Lt _ _) Hx). Qed.

Lemma upsert_elem e es x : x ∈ upsert e es -> x = e \/ x ∈ es.
Proof.
  induction es as [|y es IH]; cbn [upsert]; [rewrite list_elem_of_singleton; auto|].
  destruct (bytes_compare (Key e) (Key y)); rewrite !elem_of_cons; naive_solver.
Qed.

Lemma upsert_self e es : e ∈ upsert e es.
Proof.
  induction es as [|y es IH]; cbn [upsert]; [by left|].
  destruct (bytes_compare (Key e) (Key y)); [by left|by left|by right].
Qed.

Lemma upsert_keep e es x : x ∈ es -> Key x <> Key e -> x ∈ upsert e es.
Proof.
  induction es as [|y es IH]; cbn [upsert]; [by intros ?%elem_of_nil|]. intros Hx Hk. destruct (bytes_compare (Key e) (Key y)) eqn:E.
  - rewrite bytes_compare_Eq in E. apply elem_of_cons in Hx as [->|Hx]; [done|by right].
  - by right.
  - apply elem_of_cons in Hx as [->|Hx]; [by left|]. right. auto.
Qed.

Lemma upsert_length_le e es : (length (upsert e es) <= S (length es))%nat.
Proof.
  induction es as [|y es IH]; cbn [upsert]; [done|]. destruct (bytes_compare (Key e) (Key y)); cbn [length]; lia.
Qed.

Lemma upsert_sorted e es : sorted_run es -> sorted_run (upsert e es).
Proof.
  induction 1 as [|x es Hs IH Hf]; cbn [upsert]; [by repeat constructor|].
  destruct (bytes_compare (Key e) (Key x)) eqn:E.
  - rewrite bytes_compare_Eq in E. constructor; [done|]. unfold key_lt in *. by rewrite E.
  - rewrite bytes_compare_Lt in E. constructor; [by constructor|]. constructor; [exact E|].
    eapply Forall_impl; [exact Hf|]. intros y Hy. unfold key_lt in *. bytes_order.
  - rewrite bytes_compare_Gt in E. constructor; [done|]. rewrite Forall_forall in Hf |- *.
    intros y [->|Hy]%upsert_elem; [exact E|by apply Hf].
Qed.

Lemma lookup_upsert k e es :
  sorted_run es -> lookup_entry k (upsert e es) = if bool_decide (Key e = k) then Some e else lookup_entry k es.
Proof.
  induction 1 as [|x es Hs IH Hf]; cbn [upsert lookup_entry]; [done|].
  destruct (bytes_compare (Key e) (Key x)) eqn:E; cbn [lookup_entry]; [| |rewrite IH].
  - rewrite bytes_compare_Eq in E. rewrite <- E. by case_bool_decide.
  - done.
  - rewrite bytes_compare_Gt in E. destruct (decide (Key e = k)) as [H|H].
    + rewrite (bool_decide_true (Key e = k)) by done. rewrite bool_decide_false; [done|]. intros H'.
      rewrite H, H' in E. by apply bytes_lt_irrefl in E.
    + by rewrite (bool_decide_false (Key e = k)).
Qed.

(** A run is determined by its lookups. *)
Lemma sorted_run_ext a b :
  sorted_run a -> sorted_run b -> (forall k, lookup_entry k a = lookup_entry k b) -> a = b.
Proof.
  intros Ha Hb. revert b Hb. induction Ha as [|x a Ha IH Hf]; intros b Hb H.
  { destruct b as [|y b]; [done|]. specialize (H (Key y)). cbn [lookup_entry] in H. by rewrite bool_decide_true in H. }
  destruct Hb as [|y b Hb Hg]; [specialize (H (Key x)); cbn [lookup_entry] in H; by rewrite bool_decide_true in H|].
  assert (Hx : y = x).
  { pose proof (H (Key x)) as Hx. pose proof (H (Key y)) as Hy. cbn [lookup_entry] in Hx, Hy.
    rewrite bool_decide_true in Hx by done. rewrite (bool_decide_true (Key y = Key y)) in Hy by done.
    destruct (decide (Key y = Key x)) as [E1|E1]; [rewrite bool_decide_true in Hx by done; by injection Hx|].
    rewrite bool_decide_false in Hx by done. rewrite bool_decide_false in Hy by congruence.
    symmetry in Hx. apply lookup_entry_Some in Hx as [Hx _]. apply lookup_entry_Some in Hy as [Hy _].
    rewrite Forall_forall in Hf, Hg. specialize (Hf y Hy). specialize (Hg x Hx). unfold key_lt in *. exfalso. bytes_order. }
  subst y. f_equal. apply IH; [done|]. intros k. specialize (H k). cbn [lookup_entry] in H. case_bool_decide as E; [|done].
  subst k. rewrite !lookup_entry_above by (eapply Forall_impl; [eassumption|done]). done.
Qed.




(** The entries from a key on: what a range scan that starts at [key] reads. *)
Definition entries_from (key : bytes) (es : list Entry) : list Entry :=
  filter (fun e => key ⪯ Key e) es.

Lemma entries_from_split key a b :
  Forall (fun e => Key e ≺ key) a -> sorted_run b -> (forall e, head b = Some e -> key ⪯ Key e) ->
  entries_from key (a ++ b) = b.
Proof.
  intros Ha Hs Hb. unfold entries_from. rewrite filter_app.
  replace (filter (fun e => key ⪯ Key e) a) with (@nil Entry).
  2:{ symmetry. induction Ha as [|e a He Ha IH]; [done|].
      rewrite filter_cons_False; [done|]. rewrite bytes_not_le. done. }
  cbn [app]. destruct Hs as [|e b Hs Hf]; [done|]. specialize (Hb e eq_refl).
  rewrite filter_cons_True by done. f_equal. induction Hf as [|x b Hx Hf IH]; [done|].
  apply StronglySorted_inv in Hs as [Hs _]. unfold key_lt in Hx.
  rewrite filter_cons_True by bytes_order. f_equal. by apply IH.
Qed.

(** The entries of a key range; an empty end is no end. *)
Definition entries_between (start stop : bytes) (es : list Entry) : list Entry :=
  filter (fun e => start ⪯ Key e /\ (stop = [] \/ Key e ≺ stop)) es.

(** [len(end) > 0 && bytes.Compare(key, end) >= 0]. *)
Definition range_ends (stop key : bytes) : bool := bool_decide (stop <> [] /\ bytes_compare key stop <> Lt).

(** The loop that reads entries up to the end of a range. *)
Fixpoint collect_until (stop : bytes) (es : list Entry) : list Entry :=
  match es with
  | [] => []
  | e :: es => if range_ends stop (Key e) then [] else e :: collect_until stop es
  end.

Lemma collect_between start stop es :
  sorted_run es -> collect_until stop (entries_from start es) = entries_between start stop es.
Proof.
  intros Hs. unfold entries_from, entries_between. induction Hs as [|e es Hs IH Hf]; [done|].
  destruct (decide (start ⪯ Key e)) as [H1|H1].
  - rewrite (filter_cons_True (fun e => start ⪯ Key e)) by done. cbn [collect_until]. unfold range_ends.
    destruct (decide (stop = [] \/ Key e ≺ stop)) as [H2|H2].
    + rewrite filter_cons_True by done. rewrite bool_decide_false; [by rewrite IH|].
      intros [H3 H4]. destruct H2 as [H2|H2]; [done|]. by rewrite bytes_compare_Lt in H4.
    + rewrite filter_cons_False by naive_solver. rewrite bool_decide_true.
      2:{ split; [naive_solver|]. rewrite bytes_compare_Lt. naive_solver. }
      symmetry. apply list_filter_none. intros x Hx [_ H3]. rewrite Forall_forall in Hf. specialize (Hf x Hx).
      unfold key_lt in Hf. apply H2. destruct H3 as [H3|H3]; [by left|right]. bytes_order.
  - rewrite filter_cons_False by done. rewrite filter_cons_False by naive_solver. exact IH.
Qed.

Lemma entries_between_empty start stop es :
  start <> [] -> stop <> [] -> bytes_compare start stop <> Lt -> entries_between start stop es = [].
Proof.
  intros H1 H2 H3. apply list_filter_none. intros e _ [H4 [H5|H5]]; [done|]. rewrite bytes_compare_Lt in H3. bytes_order.
Qed.

Lemma entries_between_all es : entries_between [] [] es = es.
Proof. apply list_filter_all. intros e _. split; [apply bytes_le_nil|by left]. Qed.

Lemma StronglySorted_filter {A} (R : A -> A -> Prop) (P : A -> Prop) `{!forall x, Decision (P x)} l :
  StronglySorted R l -> StronglySorted R (filter P l).
Proof.
  induction 1 as [|x l Hs IH Hf]; [constructor|]. rewrite filter_cons. case_decide; [|done]. constructor; [done|].
  rewrite Forall_forall in Hf |- *. intros y [_ Hy]%list_elem_of_filter. by apply Hf.
Qed.

Lemma entries_between_sorted start stop es : sorted_run es -> sorted_run (entries_between start stop es).
Proof. apply StronglySorted_filter. Qed.

(** Lookups in the entries whose keys satisfy a predicate. *)
Lemma lookup_filter_key (P : bytes -> Prop) `{!forall x, Decision (P x)} k es :
  lookup_entry k (filter (fun e => P (Key e)) es) = if decide (P k) then lookup_entry k es else None.
Proof.
  induction es as [|e es IH]; [by case_decide|]. rewrite filter_cons. cbn [lookup_entry].
  destruct (decide (P (Key e))) as [HP|HP]; cbn [lookup_entry]; case_bool_decide as E; subst.
  - by rewrite decide_True.
  - exact IH.
  - rewrite IH. by rewrite !decide_False by done.
  - exact IH.
Qed.

(** Entries in the order of their keys, by a permutation. *)
Lemma sorted_run_keys es : sorted_run es -> NoDup (map Key es).
Proof.
  induction 1 as [|e es Hs IH Hf]; cbn [map]; constructor; [|done]. intros (x & E & Hx)%list_elem_of_fmap.
  rewrite Forall_forall in Hf. specialize (Hf x Hx). unfold key_lt in Hf. rewrite E in Hf. by apply bytes_lt_irrefl in Hf.
Qed.

Lemma lookup_entry_spec key es e : NoDup (map Key es) -> lookup_entry key es = Some e <-> e ∈ es /\ Key e = key.
Proof.
  induction es as [|x es IH]; cbn [lookup_entry map]; intros Hn; [split; [done|by intros [?%elem_of_nil _]]|].
  apply NoDup_cons in Hn as [Hin Hn]. rewrite elem_of_cons. case_bool_decide as E.
  - split; [intros [= <-]; auto|]. intros [[->|H] He]; [done|]. destruct Hin. rewrite E, <- He. by apply list_elem_of_fmap_2.
  - rewrite (IH Hn). naive_solver.
Qed.

Lemma lookup_entry_perm key es es' : NoDup (map Key es) -> es ≡ₚ es' -> lookup_entry key es = lookup_entry key es'.
Proof.
  intros Hn Hp. apply option_eq. intros e. rewrite !lookup_entry_spec; [by rewrite Hp|by rewrite <- Hp|done].
Qed.

Lemma sorted_run_perm a b : sorted_run a -> sorted_run b -> a ≡ₚ b -> a = b.
Proof. intros Ha Hb P. apply sorted_run_ext; [done|done|]. intros k. apply lookup_entry_perm; [by apply sorted_run_keys|done]. Qed.

Lemma concat_perm {X} (l l' : list (list X)) : l ≡ₚ l' -> concat l ≡ₚ concat l'.
Proof.
  induction 1 as [|x l l' _ IH|x y l|l1 l2 l3 _ IH1 _ IH2]; cbn [concat].
  - done.
  - by rewrite IH.
  - rewrite !app_assoc. by rewrite (Permutation_app_comm y x).
  - by transitivity (concat l2).
Qed.

Create HintDb lsm discriminated.
Create Rewrite HintDb zlen.
#[export] Hint Resolve u32_range u64_range ChecksumIEEE_range ChecksumCastagnoli_range
  zlen_nonneg le_decode_u32 le_decode_u64 bytes_le_refl bytes_lt_le bytes_le_nil : lsm.
#[export] Hint Rewrite @zlen_app @zlen_nil @zlen_cons zlen_le_encode : zlen.
Create HintDb zconst.

(** Closed decidable goals, by evaluation. *)
Ltac decided := refine (bool_decide_unpack _ _); vm_compute; exact I.

(** Length goals on concatenations of encoded fields. *)
Ltac zlen_solve :=
  repeat match goal with x := _ : bytes |- _ => subst x end;
  autorewrite with zlen in *; autounfold with zconst in *; lia.

(** Reads the field [b] of [a ++ b ++ c]. *)
Ltac slice_rewrite lo hi a b c :=
  rewrite (slice_mid _ a b c lo hi);
    [|simpl; rewrite ?app_nil_r, <- ?app_assoc; reflexivity|zlen_solve|zlen_solve].
