(* ===== verification/Iofs.v ===== *)
(** * The file system ([internal/lsm/iofs])

    What the engine uses of a directory: files by name, appending writes,
    renames, and calls that only report success.  Every call takes the next
    element of a list of injected faults, so that error paths are ordinary
    executions; an empty list is a file system that never fails. *)

From Stdlib Require Import ZArith Lia Strings.Byte.
From stdpp Require Import base list strings gmap.
From S2P Require Import Prelude.
Local Open Scope Z_scope.

(** The files of a directory, by name. *)
Abbreviation Dir := (gmap string bytes).

(** [Some n]: the next call fails, a write after [n] bytes. *)
Record FS := mkFS {
  fs_dir : Dir;
  fs_faults : list (option Z);
  fs_now : Z
}.

Definition fs_pop (fs : FS) : option Z * FS :=
  match fs_faults fs with
  | [] => (None, fs)
  | o :: rest => (o, mkFS (fs_dir fs) rest (fs_now fs))
  end.

Definition with_dir (d : Dir) (fs : FS) : FS := mkFS d (fs_faults fs) (fs_now fs).

(** Append to the named file, creating it if needed; the number of bytes
    written and whether the call succeeded. *)
Definition fs_write (name : string) (data : bytes) (fs : FS) : (Z * bool) * FS :=
  let '(fault, fs) := fs_pop fs in
  let old := default [] (fs_dir fs !! name) in
  match fault with
  | None => ((zlen data, true), with_dir (<[name := old ++ data]> (fs_dir fs)) fs)
  | Some n =>
      let part := take (Z.to_nat n) data in
      ((zlen part, false), with_dir (<[name := old ++ part]> (fs_dir fs)) fs)
  end.

Definition fs_rename (old new : string) (d : Dir) : Dir :=
  match d !! old with
  | Some f => <[new := f]> (delete old d)
  | None => d
  end.

(** A call without an effect on the files that may fail with [e]. *)
Definition fs_may_fail (e : error) : SE FS unit := fun fs =>
  match fs_pop fs with
  | (None, fs) => (Ok tt, fs)
  | (Some _, fs) => (Err e, fs)
  end.

(** [OpenFile] with [O_CREATE|O_TRUNC]. *)
Definition fs_create (name : string) (e : error) : SE FS unit :=
  _ ← fs_may_fail e;
  modify (fun fs => with_dir (<[name := []]> (fs_dir fs)) fs).

(** [f.Write]: the number of bytes, or [e] after a prefix was written. *)
Definition file_write (name : string) (data : bytes) (e : error) : SE FS Z := fun fs =>
  let '((n, ok), fs) := fs_write name data fs in
  if (ok : bool) then (Ok n, fs) else (Err e, fs).

Definition fs_rename_file (old new : string) (e : error) : SE FS unit :=
  _ ← fs_may_fail e;
  modify (fun fs => with_dir (fs_rename old new (fs_dir fs)) fs).

Definition fs_remove (name : string) (e : error) : SE FS unit :=
  _ ← fs_may_fail e;
  modify (fun fs => with_dir (delete name (fs_dir fs)) fs).

(** ** A file system that does not fail *)

Lemma fs_pop_ok fs : fs_faults fs = [] -> fs_pop fs = (None, fs).
Proof. unfold fs_pop. now intros ->. Qed.

Lemma fs_write_ok name data fs old :
  fs_faults fs = [] -> fs_dir fs !! name = Some old ->
  fs_write name data fs = ((zlen data, true), with_dir (<[name := old ++ data]> (fs_dir fs)) fs).
Proof. intros H E. unfold fs_write. rewrite fs_pop_ok by done. now rewrite E. Qed.

Lemma fs_may_fail_ok e fs : fs_faults fs = [] -> fs_may_fail e fs = (Ok tt, fs).
Proof. intros H. unfold fs_may_fail. now rewrite fs_pop_ok. Qed.

Lemma fs_create_ok name e fs :
  fs_faults fs = [] -> fs_create name e fs = (Ok tt, with_dir (<[name := []]> (fs_dir fs)) fs).
Proof. intros H. unfold fs_create. by erewrite SE_bind_Ok by (by apply fs_may_fail_ok). Qed.

Lemma file_write_ok name data e fs old :
  fs_faults fs = [] -> fs_dir fs !! name = Some old ->
  file_write name data e fs = (Ok (zlen data), with_dir (<[name := old ++ data]> (fs_dir fs)) fs).
Proof. intros H E. unfold file_write. now rewrite (fs_write_ok _ _ _ old). Qed.

Lemma fs_rename_file_ok old new e fs :
  fs_faults fs = [] -> fs_rename_file old new e fs = (Ok tt, with_dir (fs_rename old new (fs_dir fs)) fs).
Proof. intros H. unfold fs_rename_file. by erewrite SE_bind_Ok by (by apply fs_may_fail_ok). Qed.

(** ** Any file system: what each call may do *)

Lemma fs_pop_dir fs : fs_dir (snd (fs_pop fs)) = fs_dir fs.
Proof. unfold fs_pop. by destruct (fs_faults fs). Qed.

Lemma fs_may_fail_cases e fs : exists fs', fs_dir fs' = fs_dir fs /\ (fs_may_fail e fs = (Ok tt, fs') \/ fs_may_fail e fs = (Err e, fs')).
Proof.
  unfold fs_may_fail. pose proof (fs_pop_dir fs) as D. destruct (fs_pop fs) as [[n|] fs']; exists fs'; (split; [exact D|]); auto.
Qed.

Lemma fs_create_cases name e fs : exists fs',
  (fs_create name e fs = (Ok tt, fs') /\ fs_dir fs' = <[name := []]> (fs_dir fs)) \/ (fs_create name e fs = (Err e, fs') /\ fs_dir fs' = fs_dir fs).
Proof.
  unfold fs_create, mbind, SE_bind. destruct (fs_may_fail_cases e fs) as (fs' & D & [E|E]); rewrite E; eexists; [left|by right].
  split; [done|]. cbn. by rewrite D.
Qed.

Lemma file_write_cases name data e fs : exists fs',
  (file_write name data e fs = (Ok (zlen data), fs') /\ fs_dir fs' = <[name := default [] (fs_dir fs !! name) ++ data]> (fs_dir fs)) \/
  (exists part, file_write name data e fs = (Err e, fs') /\ fs_dir fs' = <[name := default [] (fs_dir fs !! name) ++ part]> (fs_dir fs) /\
     part `prefix_of` data).
Proof.
  unfold file_write, fs_write. pose proof (fs_pop_dir fs) as D. destruct (fs_pop fs) as [[n|] fs'] eqn:E; cbn [snd] in D; eexists.
  - right. exists (take (Z.to_nat n) data). split; [done|]. cbn. rewrite D. split; [done|]. apply prefix_take.
  - left. split; [done|]. cbn. by rewrite D.
Qed.

Lemma fs_rename_file_cases old new e fs : exists fs',
  (fs_rename_file old new e fs = (Ok tt, fs') /\ fs_dir fs' = fs_rename old new (fs_dir fs)) \/
  (fs_rename_file old new e fs = (Err e, fs') /\ fs_dir fs' = fs_dir fs).
Proof.
  unfold fs_rename_file, mbind, SE_bind. destruct (fs_may_fail_cases e fs) as (fs' & D & [E|E]); rewrite E; eexists; [left|by right].
  split; [done|]. cbn. by rewrite D.
Qed.
