(* ===== verification/WalCodec.v ===== *)
(** * WAL framing ([internal/lsm/wal/codec])

    Segment headers, blocks and records as byte strings, their decoders as
    functions on the bytes a reader has left, and the round trips between
    them.  A buffer built with [make] has capacity equal to its length, so a
    slice expression past its end panics. *)

From Stdlib Require Import ZArith Lia Strings.Byte.
From stdpp Require Import base list.
From S2P Require Import Prelude.
Local Open Scope Z_scope.

(** ** Format constants *)

Definition segmentMagic : bytes := [x4c; x53; x4d; x57].
Definition blockMagic : bytes := [x4c; x53; x4d; x42].
Definition recordVersion : byte := x01.

Definition SegmentHeaderSize : Z := 4 + 1 + 4 + 8 + 8 + 4.
Definition BlockHeaderSize : Z := 4 + 4 + 4.
Definition RecordCRCSize : Z := 4.
Definition RecordHeaderSize : Z := 1 + 8 + 4 + 4.
Definition MinBlockSize : Z := RecordHeaderSize + RecordCRCSize + 1.

(** ** Segment headers *)

Record SegmentHeader := mkSegmentHeader {
  Version : byte;
  BlockSize : Z;
  SegmentID : Z;
  CreatedAt : Z
}.

(** The bytes [WriteSegmentHeader] hands to the writer; [now] is the clock. *)
Definition WriteSegmentHeader (blockSize segmentID now : Z) : bytes :=
  let body := recordVersion :: PutUint32 blockSize ++ PutUint64 segmentID ++ PutUint64 (u64 now) in
  segmentMagic ++ body ++ PutUint32 (ChecksumIEEE body).

(** The checks of [ReadSegmentHeader] on the bytes it has read. *)
Definition parse_segment_header (buf : bytes) : result SegmentHeader :=
  magic ← slice buf 0 4;
  if bool_decide (magic ≠ segmentMagic) then Err ErrWALCorrupt else
  ver ← index buf 4;
  if bool_decide (ver ≠ recordVersion) then Err ErrWALCorrupt else
  blockSize ← slice buf 5 9;
  segmentID ← slice buf 9 17;
  createdAt ← slice buf 17 25;
  gotCRC ← slice buf 25 29;
  body ← slice buf 4 25;
  if bool_decide (ChecksumIEEE body ≠ le_decode gotCRC) then Err ErrWALCorrupt else
  Ok (mkSegmentHeader ver (le_decode blockSize) (le_decode segmentID) (le_decode createdAt)).

Definition ReadSegmentHeader (r : bytes) : result SegmentHeader * bytes :=
  let '(buf, r) := ReadFull r SegmentHeaderSize in
  (buf ← buf; parse_segment_header buf, r).

(** ** Records *)

Record RecordBuffer := mkRecordBuffer {
  rb_header : bytes;
  rb_key : bytes;
  rb_val : bytes;
  rb_crc : bytes;
  Total : Z
}.

Definition record_header (e : Entry) : bytes :=
  byte_of_Z (if Tombstone e then Z.lor 0 1 else 0)
    :: PutUint64 (Seq e)
    ++ PutUint32 (u32 (zlen (Key e)))
    ++ PutUint32 (u32 (zlen (Value e))).

(** The digest over header, key and value written one after the other. *)
Definition record_crc (header key val : bytes) : Z :=
  crc32_Update poly_IEEE (crc32_Update poly_IEEE (crc32_Update poly_IEEE 0 header) key) val.

Definition NewRecordBuffer (e : Entry) : RecordBuffer :=
  let header := record_header e in
  let crc := PutUint32 (record_crc header (Key e) (Value e)) in
  mkRecordBuffer header (Key e) (Value e) crc
    (zlen header + zlen (Key e) + zlen (Value e) + zlen crc).

Definition buffers (rb : RecordBuffer) : bytes :=
  rb_header rb ++ rb_key rb ++ rb_val rb ++ rb_crc rb.

Definition EncodeEntry (e : Entry) : bytes := buffers (NewRecordBuffer e).

(** One iteration of the loop of [DecodeRecords]: the record at [offset] and
    the offset behind it.  [keyLen+valLen] is a [uint32] sum. *)
Definition decode_record (payload : bytes) (offset : Z) : result (Entry * Z) :=
  if bool_decide (zlen payload - offset < RecordHeaderSize + RecordCRCSize)
  then Err ErrWALCorrupt else
  header ← slice payload offset (offset + RecordHeaderSize);
  flags ← index header 0;
  seq ← slice header 1 9;
  keyLen ← slice header 9 13;
  valLen ← slice header 13 17;
  let keyLen := le_decode keyLen in
  let valLen := le_decode valLen in
  let offset := offset + RecordHeaderSize in
  if bool_decide (zlen payload - offset < u32 (keyLen + valLen) + RecordCRCSize)
  then Err ErrWALCorrupt else
  key ← slice payload offset (offset + keyLen);
  let offset := offset + keyLen in
  val ← slice payload offset (offset + valLen);
  let offset := offset + valLen in
  crcBytes ← slice payload offset (offset + RecordCRCSize);
  let offset := offset + RecordCRCSize in
  if bool_decide (le_decode crcBytes ≠ record_crc header key val)
  then Err ErrWALCorrupt else
  Ok (mkEntry key val (bool_decide (Z.land (byte_to_Z flags) 1 = 1)) (le_decode seq), offset).

Fixpoint DecodeRecords_loop (fuel : nat) (payload : bytes) (offset : Z) (entries : list Entry)
  : result (list Entry * option error) :=
  if bool_decide (offset < zlen payload) then
    match fuel with
    | O => NoFuel
    | S fuel =>
        match decode_record payload offset with
        | Ok (e, offset) => DecodeRecords_loop fuel payload offset (entries ++ [e])
        | Err err => Ok (entries, Some err)
        | Panic => Panic
        | NoFuel => NoFuel
        end
    end
  else Ok (entries, None).

(** The entries decoded so far are returned beside the error.  A record takes
    at least 21 bytes, so one unit of fuel per byte is enough. *)
Definition DecodeRecords (payload : bytes) : result (list Entry * option error) :=
  DecodeRecords_loop (length payload) payload 0 [].

Definition decode_record_view (payload : bytes) (offset : Z) : result (EntryView * Z) :=
  if bool_decide (zlen payload - offset < RecordHeaderSize + RecordCRCSize)
  then Err ErrWALCorrupt else
  header ← slice payload offset (offset + RecordHeaderSize);
  flags ← index header 0;
  seq ← slice header 1 9;
  keyLen ← slice header 9 13;
  valLen ← slice header 13 17;
  let keyLen := le_decode keyLen in
  let valLen := le_decode valLen in
  let offset := offset + RecordHeaderSize in
  if bool_decide (zlen payload - offset < u32 (keyLen + valLen) + RecordCRCSize)
  then Err ErrWALCorrupt else
  key ← slice payload offset (offset + keyLen);
  let offset := offset + keyLen in
  val ← slice payload offset (offset + valLen);
  let offset := offset + valLen in
  crcBytes ← slice payload offset (offset + RecordCRCSize);
  let offset := offset + RecordCRCSize in
  if bool_decide (le_decode crcBytes ≠ record_crc header key val)
  then Err ErrWALCorrupt else
  Ok (mkEntryView key val (bool_decide (Z.land (byte_to_Z flags) 1 = 1)) (le_decode seq), offset).

Fixpoint DecodeRecordViews_loop (fuel : nat) (payload : bytes) (offset : Z) (entries : list EntryView)
  : result (list EntryView * option error) :=
  if bool_decide (offset < zlen payload) then
    match fuel with
    | O => NoFuel
    | S fuel =>
        match decode_record_view payload offset with
        | Ok (e, offset) => DecodeRecordViews_loop fuel payload offset (entries ++ [e])
        | Err err => Ok (entries, Some err)
        | Panic => Panic
        | NoFuel => NoFuel
        end
    end
  else Ok (entries, None).

Definition DecodeRecordViews (payload : bytes) : result (list EntryView * option error) :=
  DecodeRecordViews_loop (length payload) payload 0 [].

(** ** Blocks *)

Definition WriteBlock (records : list RecordBuffer) : bytes :=
  match records with
  | [] => []
  | _ =>
      let payloadLen := fold_left (fun n r => n + Total r) records 0 in
      let blockCRC :=
        fold_left (fun c r =>
          crc32_Update poly_IEEE (crc32_Update poly_IEEE (crc32_Update poly_IEEE
            (crc32_Update poly_IEEE c (rb_header r)) (rb_key r)) (rb_val r)) (rb_crc r))
          records 0 in
      blockMagic ++ PutUint32 (u32 payloadLen) ++ PutUint32 blockCRC
        ++ concat (map buffers records)
  end.

(** A short read inside a block is corruption. *)
Definition eof_is_corrupt {A} (m : result A) : result A :=
  match m with
  | Err EOF | Err ErrUnexpectedEOF => Err ErrWALCorrupt
  | m => m
  end.

Definition DecodeBlockAfterMagic (r : bytes) (maxPayload : Z) : result (option bytes) * bytes :=
  let '(lenBuf, r) := ReadFull r 4 in
  match eof_is_corrupt lenBuf with
  | Ok lenBuf =>
      let '(crcBuf, r) := ReadFull r 4 in
      match eof_is_corrupt crcBuf with
      | Ok crcBuf =>
          let payloadLen := le_decode lenBuf in
          if bool_decide (0 < maxPayload /\ maxPayload < payloadLen)
          then (Err ErrWALCorrupt, r) else
          let '(payload, r) := ReadFull r payloadLen in
          (payload ← eof_is_corrupt payload;
           if bool_decide (ChecksumIEEE payload ≠ le_decode crcBuf) then Err ErrWALCorrupt
           else Ok (Some payload), r)
      | Err e => (Err e, r) | Panic => (Panic, r) | NoFuel => (NoFuel, r)
      end
  | Err e => (Err e, r) | Panic => (Panic, r) | NoFuel => (NoFuel, r)
  end.

(** [Ok None] is [ok = false] without an error: the clean end of the file. *)
Definition DecodeBlock (r : bytes) (maxPayload : Z) : result (option bytes) * bytes :=
  let '(magic, r) := ReadFull r 4 in
  match magic with
  | Ok magic =>
      if bool_decide (magic ≠ blockMagic) then (Err ErrWALCorrupt, r)
      else DecodeBlockAfterMagic r maxPayload
  | Err EOF => (Ok None, r)
  | Err ErrUnexpectedEOF => (Err ErrWALCorrupt, r)
  | Err e => (Err e, r) | Panic => (Panic, r) | NoFuel => (NoFuel, r)
  end.

(** The sliding window of [ResyncBlock]. *)
Fixpoint ResyncBlock_loop (window r : bytes) : bool * bytes :=
  match r with
  | [] => (false, [])
  | b :: r =>
      let window :=
        if bool_decide (length window < length blockMagic)%nat then window ++ [b]
        else drop 1 window ++ [b] in
      if bool_decide (length window = length blockMagic /\ window = blockMagic)
      then (true, r) else ResyncBlock_loop window r
  end.

Definition ResyncBlock (r : bytes) : bool * bytes := ResyncBlock_loop [] r.

(** ** Tactics for framed data *)

Lemma zlen_segmentMagic : zlen segmentMagic = 4.
Proof. reflexivity. Qed.

Lemma zlen_blockMagic : zlen blockMagic = 4.
Proof. reflexivity. Qed.

#[export] Hint Rewrite zlen_segmentMagic zlen_blockMagic : zlen.

#[export] Hint Unfold SegmentHeaderSize BlockHeaderSize RecordHeaderSize RecordCRCSize MinBlockSize : zconst.

(** ** Segment headers: round trip *)

Lemma ReadSegmentHeader_Write blockSize segmentID now rest :
  is_u32 blockSize -> is_u64 segmentID ->
  ReadSegmentHeader (WriteSegmentHeader blockSize segmentID now ++ rest)
  = (Ok (mkSegmentHeader recordVersion blockSize segmentID (u64 now)), rest).
Proof.
  intros Hb Hs. unfold ReadSegmentHeader, WriteSegmentHeader, parse_segment_header.
  set (fields := PutUint32 blockSize ++ _).
  set (crc := PutUint32 (ChecksumIEEE (recordVersion :: fields))).
  rewrite ReadFull_app by zlen_solve.
  cbn [mbind result_bind]. f_equal.
  slice_rewrite 0 4 (@nil byte) segmentMagic (recordVersion :: fields ++ crc).
  cbn [mbind result_bind]. rewrite bool_decide_false by (intros H; now apply H).
  change (index _ 4) with (Ok recordVersion).
  cbn [mbind result_bind]. rewrite bool_decide_false by (intros H; now apply H).
  slice_rewrite 5 9 (segmentMagic ++ [recordVersion]) (PutUint32 blockSize)
    (PutUint64 segmentID ++ PutUint64 (u64 now) ++ crc).
  slice_rewrite 9 17 (segmentMagic ++ recordVersion :: PutUint32 blockSize) (PutUint64 segmentID)
    (PutUint64 (u64 now) ++ crc).
  slice_rewrite 17 25 (segmentMagic ++ recordVersion :: PutUint32 blockSize ++ PutUint64 segmentID)
    (PutUint64 (u64 now)) crc.
  slice_rewrite 25 29 (segmentMagic ++ recordVersion :: fields) crc (@nil byte).
  slice_rewrite 4 25 segmentMagic (recordVersion :: fields) crc.
  cbn [mbind result_bind]. subst crc. rewrite crc_roundtrip_IEEE.
  rewrite bool_decide_false by (intros H; now apply H).
  rewrite le_decode_put32, !le_decode_put64; auto with lsm.
Qed.

(** On a full buffer the header parser returns a header or an error. *)
Lemma parse_segment_header_total buf :
  zlen buf = SegmentHeaderSize ->
  (exists hdr, parse_segment_header buf = Ok hdr) \/
  parse_segment_header buf = Err ErrWALCorrupt.
Proof.
  unfold SegmentHeaderSize. intros Hl. unfold parse_segment_header.
  destruct (slice_total buf 0 4) as (? & -> & _); [lia..|]. cbn [mbind result_bind].
  case_bool_decide; [auto|].
  destruct (index_total buf 4) as (? & -> & _); [lia|]. cbn [mbind result_bind].
  case_bool_decide; [auto|].
  destruct (slice_total buf 5 9) as (? & -> & _); [lia..|].
  destruct (slice_total buf 9 17) as (? & -> & _); [lia..|].
  destruct (slice_total buf 17 25) as (? & -> & _); [lia..|].
  destruct (slice_total buf 25 29) as (? & -> & _); [lia..|].
  destruct (slice_total buf 4 25) as (? & -> & _); [lia..|].
  cbn [mbind result_bind]. case_bool_decide; eauto.
Qed.

Lemma ReadSegmentHeader_cases r :
  (exists buf rest hdr, r = buf ++ rest /\ zlen buf = SegmentHeaderSize /\
     ReadSegmentHeader r = (Ok hdr, rest) /\
     forall rest', ReadSegmentHeader (buf ++ rest') = (Ok hdr, rest')) \/
  (exists e rest, ReadSegmentHeader r = (Err e, rest)).
Proof.
  unfold ReadSegmentHeader.
  destruct (decide (SegmentHeaderSize <= zlen r)) as [Hl|Hl].
  - destruct (split_at r SegmentHeaderSize) as (buf & rest & -> & Hb); [done|].
    rewrite ReadFull_app by done. cbn [mbind result_bind].
    destruct (parse_segment_header_total buf Hb) as [[hdr E]|E]; [left|right]; rewrite E.
    + exists buf, rest, hdr. do 3 (split; [done|]).
      intros rest'. rewrite ReadFull_app by done. cbn [mbind result_bind]. now rewrite E.
    + eauto.
  - right. unfold ReadFull. rewrite bool_decide_false by lia. cbn [mbind result_bind]. eauto.
Qed.

(** ** Records: round trip *)

Lemma zlen_record_header e : zlen (record_header e) = RecordHeaderSize.
Proof. unfold record_header. zlen_solve. Qed.

Lemma zlen_buffers e : zlen (buffers (NewRecordBuffer e)) = Total (NewRecordBuffer e).
Proof. unfold buffers, NewRecordBuffer; cbn [rb_header rb_key rb_val rb_crc Total]. zlen_solve. Qed.

Lemma EncodeEntry_Total e :
  Total (NewRecordBuffer e) = RecordHeaderSize + zlen (Key e) + zlen (Value e) + RecordCRCSize.
Proof.
  unfold NewRecordBuffer; cbn [rb_header rb_key rb_val rb_crc Total]. rewrite zlen_record_header. zlen_solve.
Qed.

#[export] Hint Rewrite zlen_record_header : zlen.

(** The fields of a record header are where the decoder reads them. *)
Lemma record_header_fields (f : byte) (s k v : bytes) :
  zlen s = 8 -> zlen k = 4 -> zlen v = 4 ->
  let header := f :: s ++ k ++ v in
  index header 0 = Ok f /\ slice header 1 9 = Ok s /\
  slice header 9 13 = Ok k /\ slice header 13 17 = Ok v.
Proof.
  intros Hs Hk Hv header. repeat split.
  - slice_rewrite 1 9 [f] s (k ++ v). done.
  - slice_rewrite 9 13 (f :: s) k v. done.
  - slice_rewrite 13 17 (f :: s ++ k) v (@nil byte). done.
Qed.

(** What [decode_record] does on a complete record, whatever its checksum. *)
Lemma decode_record_layout (pre : bytes) (f : byte) (s k v key val crc suf : bytes) :
  zlen s = 8 -> zlen k = 4 -> zlen v = 4 -> zlen crc = 4 ->
  le_decode k = zlen key -> le_decode v = zlen val -> is_u32 (zlen key + zlen val) ->
  let header := f :: s ++ k ++ v in
  decode_record (pre ++ header ++ key ++ val ++ crc ++ suf) (zlen pre) =
  if bool_decide (le_decode crc ≠ record_crc header key val) then Err ErrWALCorrupt
  else Ok (mkEntry key val (bool_decide (Z.land (byte_to_Z f) 1 = 1)) (le_decode s),
           zlen pre + RecordHeaderSize + zlen key + zlen val + RecordCRCSize).
Proof.
  intros Hs Hk Hv Hc Hkl Hvl Hu header.
  assert (Hh : zlen header = 17) by (subst header; zlen_solve).
  pose proof (zlen_nonneg key). pose proof (zlen_nonneg val). pose proof (zlen_nonneg suf).
  destruct (record_header_fields f s k v Hs Hk Hv) as (F1 & F2 & F3 & F4).
  fold header in F1, F2, F3, F4. clearbody header.
  unfold decode_record. rewrite bool_decide_false by zlen_solve.
  rewrite (slice_mid _ pre header (key ++ val ++ crc ++ suf)) by (done || zlen_solve).
  cbn [mbind result_bind]. rewrite F1, F2, F3, F4. cbn [mbind result_bind].
  rewrite Hkl, Hvl, (u32_id _ Hu). rewrite bool_decide_false by zlen_solve.
  rewrite (slice_mid _ (pre ++ header) key (val ++ crc ++ suf) (zlen pre + _))
    by (rewrite <- ?app_assoc; done || zlen_solve).
  rewrite (slice_mid _ (pre ++ header ++ key) val (crc ++ suf) (_ + zlen key) (_ + zlen val))
    by (rewrite <- ?app_assoc; done || zlen_solve).
  rewrite (slice_mid _ (pre ++ header ++ key ++ val) crc suf)
    by (rewrite <- ?app_assoc; done || zlen_solve).
  reflexivity.
Qed.

Lemma record_crc_range h k v : is_u32 (record_crc h k v).
Proof. repeat apply crc32_Update_range; done. Qed.

Lemma decode_record_encoded pre e suf :
  Entry_wf e ->
  decode_record (pre ++ EncodeEntry e ++ suf) (zlen pre) = Ok (e, zlen (pre ++ EncodeEntry e)).
Proof.
  intros Hwf. destruct (Entry_wf_lengths e Hwf) as [Hk Hv]. destruct Hwf as [Hseq Hsum].
  unfold EncodeEntry, buffers, NewRecordBuffer. cbn [rb_header rb_key rb_val rb_crc].
  rewrite <- !app_assoc.
  pose proof (decode_record_layout pre (byte_of_Z (if Tombstone e then Z.lor 0 1 else 0))
    (PutUint64 (Seq e)) (PutUint32 (u32 (zlen (Key e)))) (PutUint32 (u32 (zlen (Value e))))
    (Key e) (Value e) (PutUint32 (record_crc (record_header e) (Key e) (Value e))) suf) as L.
  cbv zeta in L. fold (record_header e) in L.
  rewrite !u32_id, !le_decode_put32, le_decode_put64 in L by auto using record_crc_range.
  rewrite L by (done || zlen_solve). clear L.
  rewrite bool_decide_false by (intros H; now apply H).
  do 2 f_equal; [|zlen_solve].
  destruct e as [key val t s]; simpl. f_equal.
  rewrite byte_to_of_Z. now destruct t.
Qed.

Lemma EncodeEntry_length e : (RecordHeaderSize + RecordCRCSize <= zlen (EncodeEntry e)).
Proof.
  unfold EncodeEntry. rewrite zlen_buffers, EncodeEntry_Total.
  pose proof (zlen_nonneg (Key e)). pose proof (zlen_nonneg (Value e)). lia.
Qed.

Lemma DecodeRecords_loop_encoded es :
  Forall Entry_wf es ->
  forall fuel pre suf acc,
  (length (concat (map EncodeEntry es)) <= fuel)%nat ->
  exists fuel', (fuel' >= fuel - length (concat (map EncodeEntry es)))%nat /\
  DecodeRecords_loop fuel (pre ++ concat (map EncodeEntry es) ++ suf) (zlen pre) acc
  = DecodeRecords_loop fuel' (pre ++ concat (map EncodeEntry es) ++ suf)
      (zlen (pre ++ concat (map EncodeEntry es))) (acc ++ es).
Proof.
  induction 1 as [|e es He Hes IH]; intros fuel pre suf acc Hf.
  - exists fuel. simpl. rewrite !app_nil_r. split; [lia|done].
  - cbn [map concat] in *. rewrite <- !app_assoc. rewrite length_app in *.
    pose proof (EncodeEntry_length e) as Hlen.
    assert (Hpos : (21 <= length (EncodeEntry e))%nat) by (unfold zlen, RecordHeaderSize, RecordCRCSize in Hlen; lia).
    destruct fuel as [|fuel]; [lia|].
    destruct (IH fuel (pre ++ EncodeEntry e) suf (acc ++ [e]) ltac:(lia)) as (fuel' & Hf' & E).
    rewrite <- !app_assoc in E. change ([e] ++ es) with (e :: es) in E.
    exists fuel'. split; [lia|].
    rewrite <- E. cbn [DecodeRecords_loop].
    rewrite bool_decide_true by (autorewrite with zlen; unfold zlen; lia).
    rewrite decode_record_encoded by done. reflexivity.
Qed.

(** Decoding what was encoded gives the entries back. *)
Lemma DecodeRecords_encoded es :
  Forall Entry_wf es -> DecodeRecords (concat (map EncodeEntry es)) = Ok (es, None).
Proof.
  intros H. unfold DecodeRecords.
  destruct (DecodeRecords_loop_encoded es H (length (concat (map EncodeEntry es))) [] [] [])
    as (fuel' & _ & E); [lia|].
  rewrite zlen_nil, !app_nil_r in E. cbn [app] in E. rewrite E.
  destruct fuel'; cbn [DecodeRecords_loop]; rewrite bool_decide_false by lia; reflexivity.
Qed.

(** *** What the decoder does on arbitrary bytes *)

(** A payload with room for a header at [offset] has the shape of a record. *)
Lemma record_shape payload offset :
  0 <= offset -> RecordHeaderSize + RecordCRCSize <= zlen payload - offset ->
  exists pre (f : byte) s k v rest,
    payload = pre ++ (f :: s ++ k ++ v) ++ rest /\ zlen pre = offset /\
    zlen s = 8 /\ zlen k = 4 /\ zlen v = 4 /\ 4 <= zlen rest.
Proof.
  unfold RecordHeaderSize, RecordCRCSize. intros Ho Hl.
  destruct (split_at payload offset ltac:(lia)) as (pre & p1 & -> & Hpre).
  autorewrite with zlen in Hl.
  destruct p1 as [|f p1]; [rewrite zlen_nil in Hl; lia|]. rewrite zlen_cons in Hl.
  destruct (split_at p1 8 ltac:(lia)) as (s & p2 & -> & Hs). rewrite zlen_app in Hl.
  destruct (split_at p2 4 ltac:(lia)) as (k & p3 & -> & Hk). rewrite zlen_app in Hl.
  destruct (split_at p3 4 ltac:(lia)) as (v & rest & -> & Hv). rewrite zlen_app in Hl.
  exists pre, f, s, k, v, rest. repeat split; try done; [|lia].
  cbn [app]. rewrite <- !app_assoc. done.
Qed.

(** The three outcomes of [decode_record] at a record header: the wrapped
    length is refused, the true length runs past the buffer (panic), or the
    record is read and its checksum decides. *)
Lemma decode_record_cases (pre : bytes) (f : byte) (s k v rest : bytes) :
  zlen s = 8 -> zlen k = 4 -> zlen v = 4 -> 4 <= zlen rest ->
  let header := f :: s ++ k ++ v in
  let n := le_decode k + le_decode v in
  let payload := pre ++ header ++ rest in
  if bool_decide (zlen rest < u32 n + 4) then decode_record payload (zlen pre) = Err ErrWALCorrupt
  else if bool_decide (zlen rest < n + 4) then decode_record payload (zlen pre) = Panic
  else exists key val crc suf,
    rest = key ++ val ++ crc ++ suf /\
    zlen key = le_decode k /\ zlen val = le_decode v /\ zlen crc = 4 /\
    decode_record payload (zlen pre) =
      if bool_decide (le_decode crc ≠ record_crc header key val) then Err ErrWALCorrupt
      else Ok (mkEntry key val (bool_decide (Z.land (byte_to_Z f) 1 = 1)) (le_decode s),
               zlen pre + 17 + n + 4).
Proof.
  intros Hs Hk Hv Hr header n payload.
  pose proof (le_decode_u32 k ltac:(unfold zlen in *; lia)) as Uk.
  pose proof (le_decode_u32 v ltac:(unfold zlen in *; lia)) as Uv.
  unfold is_u32 in Uk, Uv.
  assert (Hh : zlen header = 17) by (subst header; zlen_solve).
  pose proof (zlen_nonneg pre) as Hp.
  assert (Hlen : zlen payload = zlen pre + 17 + zlen rest) by (subst payload; zlen_solve).
  destruct (record_header_fields f s k v Hs Hk Hv) as (F1 & F2 & F3 & F4).
  fold header in F1, F2, F3, F4. clearbody header.
  remember (decode_record payload (zlen pre)) as R eqn:ER.
  unfold decode_record, RecordHeaderSize, RecordCRCSize in ER.
  change (1 + 8 + 4 + 4) with 17 in ER.
  rewrite bool_decide_false in ER by lia.
  rewrite (slice_mid payload pre header rest) in ER by (done || zlen_solve).
  cbn [mbind result_bind] in ER. rewrite F1, F2, F3, F4 in ER. cbn [mbind result_bind] in ER.
  fold n in ER. rewrite Hlen in ER.
  replace (zlen pre + 17 + zlen rest - _) with (zlen rest) in ER by lia.
  case_bool_decide as C1; [done|]. subst R.
  case_bool_decide as C2.
  - destruct (slice_cases payload (zlen pre + 17) (zlen pre + 17 + le_decode k))
      as [[key ->]| ->]; [|done]. cbn [mbind result_bind].
    destruct (slice_cases payload (zlen pre + 17 + le_decode k)
      (zlen pre + 17 + le_decode k + le_decode v)) as [[val ->]| ->]; [|done].
    cbn [mbind result_bind]. rewrite (proj2 (slice_Panic _ _ _)); [done|lia].
  - destruct (split_at rest (le_decode k) ltac:(lia)) as (key & r1 & -> & Hkey).
    rewrite zlen_app in *.
    destruct (split_at r1 (le_decode v) ltac:(lia)) as (val & r2 & -> & Hval).
    rewrite zlen_app in *.
    destruct (split_at r2 4 ltac:(lia)) as (crc & suf & -> & Hcrc).
    exists key, val, crc, suf. do 4 (split; [done|]). subst payload.
    rewrite (slice_mid _ (pre ++ header) key (val ++ crc ++ suf) (zlen pre + _))
      by (rewrite <- ?app_assoc; done || zlen_solve).
    rewrite (slice_mid _ (pre ++ header ++ key) val (crc ++ suf) (_ + le_decode k) (_ + le_decode v))
      by (rewrite <- ?app_assoc; done || zlen_solve).
    rewrite (slice_mid _ (pre ++ header ++ key ++ val) crc suf)
      by (rewrite <- ?app_assoc; done || zlen_solve).
    cbn [mbind result_bind]. case_bool_decide; [done|]. do 2 f_equal. lia.
Qed.

Lemma decode_record_progress payload offset e offset' :
  0 <= offset -> decode_record payload offset = Ok (e, offset') ->
  offset + 21 <= offset' <= zlen payload /\
  offset' = offset + zlen (EncodeEntry e) /\
  (zlen payload < 2 ^ 32 -> Entry_wf e).
Proof.
  intros Ho E.
  destruct (decide (RecordHeaderSize + RecordCRCSize <= zlen payload - offset)) as [Hl|Hl].
  2:{ unfold decode_record in E. rewrite bool_decide_true in E by lia. done. }
  destruct (record_shape payload offset Ho Hl) as (pre & f & s & k & v & rest & -> & <- & Hs & Hk & Hv & Hr).
  pose proof (decode_record_cases pre f s k v rest Hs Hk Hv Hr) as C. cbv zeta in C.
  case_bool_decide; [congruence|]. case_bool_decide; [congruence|].
  destruct C as (key & val & crc & suf & -> & Hkey & Hval & Hcrc & C).
  rewrite C in E. case_bool_decide; [done|]. injection E as <- <-.
  pose proof (zlen_nonneg key). pose proof (zlen_nonneg val). pose proof (zlen_nonneg suf).
  pose proof (le_decode_u64 s ltac:(unfold zlen in *; lia)).
  unfold EncodeEntry. rewrite zlen_buffers, EncodeEntry_Total; cbn [Key Value].
  autorewrite with zlen in *. repeat split; try lia; try zlen_solve; cbn; unfold is_u64 in *; lia.
Qed.

Lemma decode_record_errors payload offset :
  0 <= offset ->
  decode_record payload offset <> NoFuel /\
  forall e, decode_record payload offset = Err e -> e = ErrWALCorrupt.
Proof.
  intros Ho.
  destruct (decide (RecordHeaderSize + RecordCRCSize <= zlen payload - offset)) as [Hl|Hl].
  2:{ unfold decode_record. rewrite bool_decide_true by lia. split; congruence. }
  destruct (record_shape payload offset Ho Hl) as (pre & f & s & k & v & rest & -> & <- & Hs & Hk & Hv & Hr).
  pose proof (decode_record_cases pre f s k v rest Hs Hk Hv Hr) as C. cbv zeta in C.
  case_bool_decide; [rewrite C; split; congruence|].
  case_bool_decide; [rewrite C; split; congruence|].
  destruct C as (key & val & crc & suf & _ & _ & _ & _ & ->).
  case_bool_decide; split; congruence.
Qed.

(** The decoder panics at a record exactly when the [uint32] sum of its two
    lengths wraps around and the wrapped sum passes the length check while
    the lengths themselves run past the payload. *)
Lemma decode_record_panic (pre : bytes) (f : byte) (s k v rest : bytes) :
  zlen s = 8 -> zlen k = 4 -> zlen v = 4 -> 4 <= zlen rest ->
  let n := le_decode k + le_decode v in
  decode_record (pre ++ (f :: s ++ k ++ v) ++ rest) (zlen pre) = Panic <->
  2 ^ 32 <= n /\ n - 2 ^ 32 + 4 <= zlen rest < n + 4.
Proof.
  intros Hs Hk Hv Hr n.
  pose proof (le_decode_u32 k ltac:(unfold zlen in *; lia)) as Uk.
  pose proof (le_decode_u32 v ltac:(unfold zlen in *; lia)) as Uv.
  assert (Hn : 0 <= n < 2 * 2 ^ 32) by (unfold is_u32 in *; lia).
  assert (Hw : (n < 2 ^ 32 /\ u32 n = n) \/ (2 ^ 32 <= n /\ u32 n = n - 2 ^ 32)).
  { destruct (decide (n < 2 ^ 32)); [left|right]; (split; [lia|]).
    - apply u32_id. unfold is_u32. lia.
    - unfold u32. rewrite <- (Z.mod_small (n - 2 ^ 32) (2 ^ 32)) by lia.
      rewrite <- (Z_mod_plus_full (n - 2 ^ 32) 1). f_equal. lia. }
  pose proof (decode_record_cases pre f s k v rest Hs Hk Hv Hr) as C. cbv zeta in C. fold n in C.
  case_bool_decide; [rewrite C; split; [done|lia]|].
  case_bool_decide; [rewrite C; split; [lia|done]|].
  destruct C as (key & val & crc & suf & _ & _ & _ & _ & ->).
  case_bool_decide; (split; [done|lia]).
Qed.

Lemma DecodeRecords_loop_total fuel payload offset acc :
  0 <= offset -> zlen payload - offset <= Z.of_nat fuel ->
  DecodeRecords_loop fuel payload offset acc = Panic \/
  exists es err, DecodeRecords_loop fuel payload offset acc = Ok (acc ++ es, err) /\
    (err = None \/ err = Some ErrWALCorrupt) /\
    (zlen payload < 2 ^ 32 -> Forall Entry_wf es).
Proof.
  revert offset acc. induction fuel as [|fuel IH]; intros offset acc Ho Hf.
  - cbn [DecodeRecords_loop]. rewrite bool_decide_false by lia.
    right. exists [], None. rewrite app_nil_r. auto.
  - cbn [DecodeRecords_loop]. case_bool_decide as Hlt.
    2:{ right. exists [], None. rewrite app_nil_r. auto. }
    pose proof (decode_record_errors payload offset Ho) as [Hnf Herr].
    destruct (decode_record payload offset) as [[e offset']|err| |] eqn:E; [| |auto|done].
    2:{ right. exists [], (Some err). rewrite app_nil_r. rewrite (Herr err eq_refl). auto. }
    destruct (decode_record_progress _ _ _ _ Ho E) as (Hp & _ & Hwf).
    destruct (IH offset' (acc ++ [e]) ltac:(lia) ltac:(lia)) as [->|(es & er & -> & Her & Hes)]; [auto|].
    right. exists (e :: es), er. rewrite <- app_assoc. auto.
Qed.

(** ** Blocks *)

Definition payload_of (records : list RecordBuffer) : bytes := concat (map buffers records).

Lemma block_crc_fold records c :
  fold_left (fun c r =>
    crc32_Update poly_IEEE (crc32_Update poly_IEEE (crc32_Update poly_IEEE
      (crc32_Update poly_IEEE c (rb_header r)) (rb_key r)) (rb_val r)) (rb_crc r)) records c
  = crc32_Update poly_IEEE c (payload_of records).
Proof.
  revert c; induction records as [|r records IH]; intros c; simpl.
  - now rewrite crc32_Update_nil.
  - rewrite IH, !crc32_Update_app. unfold payload_of; simpl. unfold buffers.
    now rewrite !app_assoc.
Qed.

Lemma block_len_fold es n :
  fold_left (fun n r => n + Total r) (map NewRecordBuffer es) n
  = n + zlen (payload_of (map NewRecordBuffer es)).
Proof.
  revert n; induction es as [|e es IH]; intros n; cbn [map fold_left].
  - change (zlen (payload_of [])) with 0. lia.
  - rewrite IH, <- zlen_buffers. unfold payload_of; cbn [map concat]. rewrite zlen_app. lia.
Qed.

(** A block is its header followed by the payload whose length and checksum
    the header carries. *)
Lemma WriteBlock_layout es :
  es <> [] ->
  WriteBlock (map NewRecordBuffer es) =
  let payload := payload_of (map NewRecordBuffer es) in
  blockMagic ++ PutUint32 (u32 (zlen payload)) ++ PutUint32 (ChecksumIEEE payload) ++ payload.
Proof.
  intros Hne. unfold WriteBlock. destruct es as [|e es]; [done|].
  rewrite block_crc_fold, <- ChecksumIEEE_Update, (block_len_fold (e :: es) 0).
  reflexivity.
Qed.

Lemma payload_of_encoded es :
  payload_of (map NewRecordBuffer es) = concat (map EncodeEntry es).
Proof. unfold payload_of. rewrite map_map. reflexivity. Qed.

Definition fits_block (maxPayload : Z) (es : list Entry) : Prop :=
  Forall Entry_wf es /\ es <> [] /\
  is_u32 (zlen (concat (map EncodeEntry es))) /\
  (maxPayload = 0 \/ zlen (concat (map EncodeEntry es)) <= maxPayload).

Lemma DecodeBlockAfterMagic_frame payload rest maxPayload :
  is_u32 (zlen payload) -> maxPayload = 0 \/ zlen payload <= maxPayload ->
  DecodeBlockAfterMagic
    (PutUint32 (u32 (zlen payload)) ++ PutUint32 (ChecksumIEEE payload) ++ payload ++ rest) maxPayload
  = (Ok (Some payload), rest).
Proof.
  intros Hu Hm. unfold DecodeBlockAfterMagic.
  rewrite ReadFull_app by zlen_solve. cbn [eof_is_corrupt].
  rewrite ReadFull_app by zlen_solve. cbn [eof_is_corrupt].
  rewrite le_decode_put32, u32_id by auto with lsm.
  rewrite bool_decide_false by lia.
  rewrite ReadFull_app by done. cbn [eof_is_corrupt mbind result_bind].
  rewrite crc_roundtrip_IEEE, bool_decide_false by (intros H; now apply H).
  reflexivity.
Qed.

(** A block that was written is read back, and the reader stands behind it. *)
Lemma DecodeBlock_WriteBlock es rest maxPayload :
  fits_block maxPayload es ->
  DecodeBlock (WriteBlock (map NewRecordBuffer es) ++ rest) maxPayload
  = (Ok (Some (concat (map EncodeEntry es))), rest).
Proof.
  intros (Hwf & Hne & Hu & Hm). rewrite WriteBlock_layout by done. cbv zeta.
  rewrite payload_of_encoded. unfold DecodeBlock. rewrite <- !app_assoc.
  rewrite ReadFull_app by zlen_solve.
  rewrite bool_decide_false by (intros H; now apply H).
  now apply DecodeBlockAfterMagic_frame.
Qed.

(** A decoded block is the magic, a length, a checksum and a payload with
    that length and checksum: nothing else is accepted. *)
Lemma DecodeBlock_sound r maxPayload payload rest :
  DecodeBlock r maxPayload = (Ok (Some payload), rest) ->
  r = blockMagic ++ PutUint32 (zlen payload) ++ PutUint32 (ChecksumIEEE payload) ++ payload ++ rest
  /\ is_u32 (zlen payload) /\ (maxPayload <= 0 \/ zlen payload <= maxPayload).
Proof.
  unfold DecodeBlock, DecodeBlockAfterMagic. intros H.
  destruct (ReadFull r 4) as [[magic|e| |] r1] eqn:E1; try done; [|destruct e; done].
  apply ReadFull_Ok in E1 as [-> Hmag]; [|lia].
  case_bool_decide as Hm; [done|].
  assert (magic = blockMagic) as -> by (destruct (decide (magic = blockMagic)); tauto).
  destruct (ReadFull r1 4) as [[lenBuf|e| |] r2] eqn:E2; cbn [eof_is_corrupt] in H;
    try done; [|destruct e; done].
  apply ReadFull_Ok in E2 as [-> Hl]; [|lia].
  destruct (ReadFull r2 4) as [[crcBuf|e| |] r3] eqn:E3; cbn [eof_is_corrupt] in H;
    try done; [|destruct e; done].
  apply ReadFull_Ok in E3 as [-> Hc]; [|lia].
  case_bool_decide as Hmax; [done|].
  pose proof (le_decode_u32 lenBuf ltac:(unfold zlen in *; lia)) as Ul.
  destruct (ReadFull r3 (le_decode lenBuf)) as [[pl|e| |] r4] eqn:E4;
    cbn [eof_is_corrupt mbind result_bind] in H; try done; [|destruct e; done].
  apply ReadFull_Ok in E4 as [-> Hpl]; [|unfold is_u32 in *; lia].
  case_bool_decide as Hcrc; [done|]. injection H as <- <-.
  rewrite Hpl. split; [|split; [done|lia]].
  assert (ChecksumIEEE pl = le_decode crcBuf) as ->
    by (destruct (decide (ChecksumIEEE pl = le_decode crcBuf)); tauto).
  replace 4%nat with (length lenBuf) at 1 by (unfold zlen in *; lia).
  replace 4%nat with (length crcBuf) by (unfold zlen in *; lia).
  now rewrite !le_encode_decode.
Qed.

(** ** Resynchronisation *)

Definition has_magic (s : bytes) : Prop := exists pre suf, s = pre ++ blockMagic ++ suf.

Definition last4 (s : bytes) : bytes := drop (length s - 4) s.

Lemma last4_snoc seen b :
  (if bool_decide (length (last4 seen) < length blockMagic)%nat then last4 seen ++ [b]
   else drop 1 (last4 seen) ++ [b]) = last4 (seen ++ [b]).
Proof.
  unfold last4. rewrite length_app, length_drop. cbn [length blockMagic].
  case_bool_decide.
  - rewrite drop_app_le by (simpl; lia). f_equal. f_equal. simpl; lia.
  - rewrite drop_drop, drop_app_le by (simpl; lia). f_equal. f_equal. simpl; lia.
Qed.

Lemma has_magic_snoc seen b :
  has_magic (seen ++ [b]) <-> has_magic seen \/ last4 (seen ++ [b]) = blockMagic.
Proof.
  split.
  - intros (pre & suf & E). destruct suf as [|x suf _] using rev_ind.
    + right. rewrite E, app_nil_r. unfold last4. rewrite length_app.
      replace (length pre + length blockMagic - 4)%nat with (length pre) by (simpl; lia).
      apply drop_app_length.
    + left. rewrite !app_assoc in E. apply app_inj_tail in E as [-> _].
      exists pre, suf. now rewrite app_assoc.
  - intros [(pre & suf & ->)|E].
    + exists pre, (suf ++ [b]). now rewrite <- !app_assoc.
    + exists (take (length (seen ++ [b]) - 4) (seen ++ [b])), [].
      rewrite <- E, app_nil_r. unfold last4. symmetry; apply take_drop.
Qed.

Lemma ResyncBlock_loop_spec r : forall seen,
  ~ has_magic seen ->
  match ResyncBlock_loop (last4 seen) r with
  | (true, rest) => exists pre, seen ++ r = pre ++ blockMagic ++ rest /\
      forall pre' suf', seen ++ r = pre' ++ blockMagic ++ suf' -> (length pre <= length pre')%nat
  | (false, rest) => rest = [] /\ ~ has_magic (seen ++ r)
  end.
Proof.
  induction r as [|b r IH]; intros seen Hno; cbn [ResyncBlock_loop].
  - rewrite app_nil_r. auto.
  - rewrite last4_snoc. case_bool_decide as Hm.
    + destruct Hm as [_ Hm].
      exists (take (length (seen ++ [b]) - 4) (seen ++ [b])).
      assert (E : seen ++ [b] = take (length (seen ++ [b]) - 4) (seen ++ [b]) ++ blockMagic)
        by (rewrite <- Hm; unfold last4; symmetry; apply take_drop).
      split.
      * rewrite app_assoc, <- E, <- app_assoc. reflexivity.
      * intros pre' suf' E'. apply Nat.nlt_ge. intros Hlt. apply Hno.
        assert (Hl := f_equal length E). rewrite !length_app in Hl. simpl in Hl.
        rewrite length_take in Hlt, Hl. rewrite length_app in Hlt, Hl. simpl in Hlt, Hl.
        rewrite app_assoc in E'. apply app_eq_inv in E' as [(x & -> & _)|(x & Hx & _)].
        { exists pre', x. now rewrite <- app_assoc. }
        pose proof (f_equal length Hx) as Hx'. rewrite !length_app in Hx'. simpl in Hx'.
        assert (x = []) as -> by (destruct x; [done|simpl in Hx'; lia]).
        exists pre', []. now rewrite !app_nil_r in *.
    + replace (seen ++ b :: r) with ((seen ++ [b]) ++ r) by now rewrite <- app_assoc.
      apply IH. rewrite has_magic_snoc. intros [|E]; [done|]. apply Hm. now rewrite E.
Qed.

(** [ResyncBlock] stops right behind the first block magic left in the
    reader, and reports failure only when there is none. *)
Lemma ResyncBlock_spec r :
  match ResyncBlock r with
  | (true, rest) => exists pre, r = pre ++ blockMagic ++ rest /\
      forall pre' suf', r = pre' ++ blockMagic ++ suf' -> (length pre <= length pre')%nat
  | (false, rest) => rest = [] /\ ~ has_magic r
  end.
Proof.
  apply (ResyncBlock_loop_spec r []). intros (pre & suf & E). now destruct pre.
Qed.

Lemma ResyncBlock_shrinks r rest : ResyncBlock r = (true, rest) -> (length rest + 4 <= length r)%nat.
Proof.
  intros E. pose proof (ResyncBlock_spec r) as H. rewrite E in H.
  destruct H as (pre & -> & _). rewrite !length_app. simpl. lia.
Qed.

(** ** Views *)

Lemma decode_record_view_eq payload offset :
  decode_record_view payload offset
  = (fun p => (EntryView_of (fst p), snd p)) <$> decode_record payload offset.
Proof.
  unfold decode_record_view, decode_record. case_bool_decide; [done|].
  repeat match goal with
  | |- context [slice ?s ?a ?b ≫= _] =>
      destruct (slice s a b); cbn [mbind result_bind fmap result_fmap]; try done
  | |- context [index ?s ?a ≫= _] =>
      destruct (index s a); cbn [mbind result_bind fmap result_fmap]; try done
  | |- context [bool_decide ?P] => case_bool_decide; try done
  end.
Qed.

(** Borrowed and owned decoding see the same records. *)
Lemma DecodeRecordViews_eq payload :
  DecodeRecordViews payload
  = (fun p => (map EntryView_of (fst p), snd p)) <$> DecodeRecords payload.
Proof.
  unfold DecodeRecordViews, DecodeRecords.
  change (@nil EntryView) with (map EntryView_of []) at 1.
  generalize (@nil Entry) as acc. generalize 0 as offset.
  generalize (length payload) as fuel.
  induction fuel as [|fuel IH]; intros offset acc;
    cbn [DecodeRecordViews_loop DecodeRecords_loop]; case_bool_decide; try done.
  rewrite decode_record_view_eq.
  destruct (decode_record payload offset) as [[e o]|er| |]; try done.
  cbn [fmap result_fmap fst snd]. rewrite <- IH, map_app. reflexivity.
Qed.

(** ** Properties *)

Definition sample_entries : list Entry :=
  [mkEntry [x6b] [x76; x31] false 7; mkEntry [x6b] [] true (2 ^ 64 - 1)].

(** C23. Any batch of entries that fits a block is written as one block from
    which the block reader recovers the payload, leaving the bytes behind the
    block unread, and the record decoder recovers exactly the entries. *)
Theorem block_roundtrip maxPayload es rest :
  fits_block maxPayload es ->
  exists payload,
    DecodeBlock (WriteBlock (map NewRecordBuffer es) ++ rest) maxPayload = (Ok (Some payload), rest) /\
    DecodeRecords payload = Ok (es, None) /\
    DecodeRecordViews payload = Ok (map EntryView_of es, None).
Proof.
  intros H. exists (concat (map EncodeEntry es)).
  rewrite DecodeBlock_WriteBlock, DecodeRecordViews_eq, DecodeRecords_encoded by (done || apply H).
  done.
Qed.

Lemma sample_fits : fits_block 64 sample_entries.
Proof.
  split; [repeat constructor; vm_compute; congruence|].
  split; [done|]. split; [split|right]; vm_compute; congruence.
Defined.

Lemma block_roundtrip_witness :
  exists payload,
    DecodeBlock (WriteBlock (map NewRecordBuffer sample_entries) ++ [x00]) 64 = (Ok (Some payload), [x00]) /\
    DecodeRecords payload = Ok (sample_entries, None) /\
    DecodeRecordViews payload = Ok (map EntryView_of sample_entries, None).
Proof. exact (block_roundtrip 64 sample_entries [x00] sample_fits). Defined.


(** A payload with a valid block checksum that makes the decoder panic: key
    length [2^32 - 1], value length [1], and room for a checksum only. *)
Lemma DecodeRecords_panics :
  DecodeRecords (x00 :: PutUint64 1 ++ PutUint32 (2 ^ 32 - 1) ++ PutUint32 1 ++ PutUint32 0) = Panic.
Proof. vm_compute. reflexivity. Qed.

(** C24. A block is accepted only if it consists of the magic, the length of
    its payload, the checksum of its payload and the payload, within the
    configured limit: the reader accepts nothing but framed payloads. *)
Theorem DecodeBlock_accepts_only_frames r maxPayload payload rest :
  DecodeBlock r maxPayload = (Ok (Some payload), rest) ->
  r = blockMagic ++ PutUint32 (zlen payload) ++ PutUint32 (ChecksumIEEE payload) ++ payload ++ rest
  /\ is_u32 (zlen payload) /\ (maxPayload <= 0 \/ zlen payload <= maxPayload).
Proof. apply DecodeBlock_sound. Qed.

Lemma DecodeBlock_accepts_only_frames_witness :
  let r := WriteBlock (map NewRecordBuffer sample_entries) in
  let payload := concat (map EncodeEntry sample_entries) in
  r = blockMagic ++ PutUint32 (zlen payload) ++ PutUint32 (ChecksumIEEE payload) ++ payload ++ []
  /\ is_u32 (zlen payload) /\ (64 <= 0 \/ zlen payload <= 64).
Proof.
  intros r payload. apply (DecodeBlock_accepts_only_frames r 64 payload []).
  rewrite <- (app_nil_r r). exact (DecodeBlock_WriteBlock sample_entries [] 64 sample_fits).
Defined.

(** Resynchronisation stops right behind the first block magic left in
    the reader, and reports failure only when there is none. *)
Theorem ResyncBlock_finds_first_magic r :
  match ResyncBlock r with
  | (true, rest) => exists pre, r = pre ++ blockMagic ++ rest /\
      forall pre' suf', r = pre' ++ blockMagic ++ suf' -> (length pre <= length pre')%nat
  | (false, rest) => rest = [] /\ ~ has_magic r
  end.
Proof. apply ResyncBlock_spec. Qed.
