(* ===== verification/WalReplay.v ===== *)
(** * WAL replay ([internal/lsm/wal/wal_replay.go], [internal/lsm/wal/segment])

    Segment discovery, the replay of one segment with its resynchronisation,
    the replay of all segments and the truncation repair.  A file is its
    bytes; the callback is a function on a state that may fail; the reader is
    the bytes that are left, so that [readerOffset] is the file size minus
    their number.  Failures of the file system calls themselves are not
    modelled here. *)

From Stdlib Require Import ZArith Lia Strings.Byte.
From stdpp Require Import base list strings pretty gmap sorting.
From S2P Require Import Prelude Iofs WalCodec.
Local Open Scope Z_scope.

Section Replay.
Context {E St : Type}.
Context (decode : bytes -> result (list E * option error)).
Context (fn : St -> E -> St * option error).

Fixpoint apply_entries (es : list E) (st : St) : St * option error :=
  match es with
  | [] => (st, None)
  | e :: es =>
      match fn st e with
      | (st, Some err) => (st, Some err)
      | (st, None) => apply_entries es st
      end
  end.

Definition applyPayload_with (payload : bytes) : SE St unit := fun st =>
  match decode payload with
  | Ok (_, Some _) | Err _ => (Err ErrWALCorrupt, st)
  | Ok (entries, None) =>
      match apply_entries entries st with
      | (st, Some err) => (Err err, st)
      | (st, None) => (Ok tt, st)
      end
  | Panic => (Panic, st)
  | NoFuel => (NoFuel, st)
  end.

(** The reader is part of the state; the fuel bounds the number of block
    magics the loop can find in it. *)
Fixpoint replayFromResync_with (fuel : nat) (blockSize : Z) (r : bytes) (st : St)
  : result bool * (bytes * St) :=
  match fuel with
  | O => (NoFuel, (r, st))
  | S fuel =>
      let '(found, r) := ResyncBlock r in
      if negb found then (Ok false, (r, st)) else
      let '(blk, r) := DecodeBlockAfterMagic r blockSize in
      match blk with
      | Err ErrWALCorrupt => replayFromResync_with fuel blockSize r st
      | Err err => (Err err, (r, st))
      | Ok None => (Ok true, (r, st))
      | Ok (Some payload) =>
          match applyPayload_with payload st with
          | (Ok _, st) => (Ok true, (r, st))
          | (Err err, st) => (Err err, (r, st))
          | (Panic, st) => (Panic, (r, st))
          | (NoFuel, st) => (NoFuel, (r, st))
          end
      | Panic => (Panic, (r, st))
      | NoFuel => (NoFuel, (r, st))
      end
  end.

(** The block loop of [replaySegment]; [size] is the file size. *)
Fixpoint replay_loop (fuel : nat) (size blockSize lastGood : Z) (corrupt : bool)
    (r : bytes) (st : St) : result (Z * option error) * St :=
  match fuel with
  | O => (NoFuel, st)
  | S fuel =>
      let resync r st :=
        match replayFromResync_with (S (length r)) blockSize r st with
        | (Ok true, (r, st)) => replay_loop fuel size blockSize (size - zlen r) true r st
        | (Ok false, (r, st)) => (Ok (lastGood, Some ErrWALCorruptSegment), st)
        | (Err err, (r, st)) => (Ok (lastGood, Some err), st)
        | (Panic, (r, st)) => (Panic, st)
        | (NoFuel, (r, st)) => (NoFuel, st)
        end in
      match DecodeBlock r blockSize with
      | (Err ErrWALCorrupt, r) => resync r st
      | (Err err, r) => (Ok (lastGood, Some err), st)
      | (Ok None, r) =>
          (Ok (lastGood, if corrupt then Some ErrWALCorruptSegment else None), st)
      | (Ok (Some payload), r) =>
          match applyPayload_with payload st with
          | (Ok _, st) => replay_loop fuel size blockSize (size - zlen r) corrupt r st
          | (Err ErrWALCorrupt, st) => resync r st
          | (Err err, st) => (Ok (lastGood, Some err), st)
          | (Panic, st) => (Panic, st)
          | (NoFuel, st) => (NoFuel, st)
          end
      | (Panic, r) => (Panic, st)
      | (NoFuel, r) => (NoFuel, st)
      end
  end.

(** [lastGood] and the error, and the state the callback was left in.  A
    missing file is an empty one. *)
Definition replaySegment_with (file : option bytes) (st : St)
  : result (Z * option error) * St :=
  match file with
  | None => (Ok (0, None), st)
  | Some f =>
      match ReadSegmentHeader f with
      | (Ok hdr, r) =>
          replay_loop (S (length f)) (zlen f) (BlockSize hdr) (zlen f - zlen r) false r st
      | (Err _, _) => (Ok (0, Some ErrWALCorruptSegment), st)
      | (Panic, _) => (Panic, st)
      | (NoFuel, _) => (NoFuel, st)
      end
  end.
End Replay.

Definition applyPayload {St} := @applyPayload_with Entry St DecodeRecords.
Definition applyPayloadViews {St} := @applyPayload_with EntryView St DecodeRecordViews.
Definition replayFromResync {St} := @replayFromResync_with Entry St DecodeRecords.
Definition replayFromResyncViews {St} := @replayFromResync_with EntryView St DecodeRecordViews.
Definition replaySegment {St} := @replaySegment_with Entry St DecodeRecords.
Definition replaySegmentViews {St} := @replaySegment_with EntryView St DecodeRecordViews.

(** ** Segment discovery *)

Definition seg_name (base : string) (n : Z) : string := base +:+ "." +:+ pretty n.

Fixpoint strip_prefix (p s : string) : option string :=
  match p, s with
  | EmptyString, s => Some s
  | String a p, String b s => if bool_decide (a = b) then strip_prefix p s else None
  | String _ _, EmptyString => None
  end.

(** The number of a rotated segment, from its file name. *)
Definition seg_number (base name : string) : option Z :=
  part ← strip_prefix (base +:+ ".") name;
  Atoi part.

Definition seg_numbers (base : string) (dir : Dir) : list Z :=
  omap (seg_number base) (map fst (map_to_list dir)).

Fixpoint has_gap (nums : list Z) (i : Z) : bool :=
  match nums with
  | [] => false
  | n :: nums => if bool_decide (n ≠ i) then true else has_gap nums (i + 1)
  end.

Definition ListSegments (base : string) (dir : Dir) : list string * bool :=
  let nums := merge_sort Z.le (seg_numbers base dir) in
  (map (seg_name base) nums, has_gap nums 1).

Definition NextSegmentID (base : string) (dir : Dir) : Z :=
  u64 (fold_left (fun max n => if bool_decide (max < n) then n else max) (seg_numbers base dir) 0 + 1).

(** ** Replay of the whole log *)

Definition repairSegment (dir : Dir) (path : string) (offset : Z) : Dir :=
  if bool_decide (offset <= 0) then dir
  else match dir !! path with
       | Some f => <[path := take (Z.to_nat offset) f]> dir
       | None => dir
       end.

Section ReplayAll.
Context {E St : Type}.
Context (decode : bytes -> result (list E * option error)).
Context (fn : St -> E -> St * option error).

(** The rotated segments, oldest first; [corrupt] is sticky. *)
Fixpoint replay_rotated (dir : Dir) (segs : list string) (corrupt : bool) (st : St)
  : result bool * St :=
  match segs with
  | [] => (Ok corrupt, st)
  | seg :: segs =>
      match replaySegment_with decode fn (dir !! seg) st with
      | (Ok (_, None), st) => replay_rotated dir segs corrupt st
      | (Ok (_, Some ErrWALCorruptSegment), st) => replay_rotated dir segs true st
      | (Ok (_, Some err), st) => (Err err, st)
      | (Err err, st) => (Err err, st)
      | (Panic, st) => (Panic, st)
      | (NoFuel, st) => (NoFuel, st)
      end
  end.

Definition replay_result (missing corrupt : bool) : option error :=
  if missing then Some ErrWALMissingSegment
  else if corrupt then Some ErrWALCorruptSegment else None.

(** The error, the directory after a repair and the callback's state. *)
Definition Replay_with (path : string) (repairOnReplay : bool) (dir : Dir) (st : St)
  : result (option error) * (Dir * St) :=
  let '(segs, missing) := ListSegments path dir in
  match replay_rotated dir segs false st with
  | (Ok corrupt, st) =>
      match replaySegment_with decode fn (dir !! path) st with
      | (Ok (_, None), st) => (Ok (replay_result missing corrupt), (dir, st))
      | (Ok (lastGood, Some ErrWALCorruptSegment), st) =>
          let dir := if bool_decide (repairOnReplay = true /\ 0 < lastGood)
                     then repairSegment dir path lastGood else dir in
          (Ok (replay_result missing true), (dir, st))
      | (Ok (_, Some err), st) => (Ok (Some err), (dir, st))
      | (Err err, st) => (Ok (Some err), (dir, st))
      | (Panic, st) => (Panic, (dir, st))
      | (NoFuel, st) => (NoFuel, (dir, st))
      end
  | (Err err, st) => (Ok (Some err), (dir, st))
  | (Panic, st) => (Panic, (dir, st))
  | (NoFuel, st) => (NoFuel, (dir, st))
  end.
End ReplayAll.

Definition Replay {St} := @Replay_with Entry St DecodeRecords.
Definition ReplayViews {St} := @Replay_with EntryView St DecodeRecordViews.

(** ** What replay relies on in a record decoder *)

Class RecordDecoder {E : Type} (decode : bytes -> result (list E * option error)) := {
  rd_view : Entry -> E;
  rd_encoded es : Forall Entry_wf es ->
    decode (concat (map EncodeEntry es)) = Ok (map rd_view es, None);
  rd_total payload : decode payload = Panic \/ exists es err, decode payload = Ok (es, err)
}.

#[export] Instance DecodeRecords_decoder : RecordDecoder DecodeRecords.
Proof.
  refine {| rd_view := fun e => e |}.
  - intros es H. rewrite map_id. now apply DecodeRecords_encoded.
  - intros payload. destruct (DecodeRecords_loop_total (length payload) payload 0 [])
      as [H|(es & err & H & _)]; [lia|unfold zlen; lia|left; exact H|].
    right. exists es, err. exact H.
Defined.

#[export] Instance DecodeRecordViews_decoder : RecordDecoder DecodeRecordViews.
Proof.
  refine {| rd_view := EntryView_of |}.
  - intros es H. now rewrite DecodeRecordViews_eq, DecodeRecords_encoded.
  - intros payload. rewrite DecodeRecordViews_eq.
    destruct (rd_total (decode := DecodeRecords) payload) as [->|(es & err & ->)]; [now left|].
    right. eexists _, _. reflexivity.
Defined.

(** ** Readers only move forward, and only look at what they consume *)

Definition suffix_of (r' r : bytes) : Prop := exists w, r = w ++ r'.

#[export] Instance suffix_of_preorder : PreOrder suffix_of.
Proof.
  split.
  - intros r. now exists [].
  - intros a b c [w ->] [w' ->]. exists (w' ++ w). now rewrite app_assoc.
Qed.

Lemma suffix_of_length a b : suffix_of a b -> (length a <= length b)%nat.
Proof. intros [w ->]. rewrite length_app. lia. Qed.

Lemma ReadFull_suffix r n a r' : ReadFull r n = (a, r') -> suffix_of r' r.
Proof.
  unfold ReadFull. case_bool_decide; intros [= <- <-].
  - exists (take (Z.to_nat n) r). now rewrite take_drop.
  - exists r. now rewrite app_nil_r.
Qed.

Lemma ReadFull_cases r n :
  0 <= n ->
  (exists a r', r = a ++ r' /\ zlen a = n /\ ReadFull r n = (Ok a, r')) \/
  (exists e, ReadFull r n = (Err e, []) /\ (e = EOF /\ r = [] \/ e = ErrUnexpectedEOF)).
Proof.
  intros Hn. destruct (ReadFull r n) as [[a|e| |] r'] eqn:E.
  - left. exists a, r'. apply ReadFull_Ok in E as [-> ?]; auto.
  - right. unfold ReadFull in E. case_bool_decide; [done|]. injection E as <- <-.
    case_bool_decide; eauto 6.
  - unfold ReadFull in E. case_bool_decide; done.
  - unfold ReadFull in E. case_bool_decide; done.
Qed.

(** A read that leaves [z ++ suf] did not look at [suf]. *)
Lemma ReadFull_local y suf z n res r' :
  0 <= n -> suf <> [] -> ReadFull (y ++ suf) n = (res, r') -> suffix_of (z ++ suf) r' ->
  exists y', r' = y' ++ suf /\ ReadFull y n = (res, y').
Proof.
  intros Hn Hs E [w ->].
  destruct (ReadFull_cases (y ++ suf) n Hn) as [(a & r1 & Ha & Hz & E')|(e & E' & _)];
    rewrite E in E'; injection E' as -> E2.
  - subst r1. exists (w ++ z). rewrite app_assoc in *. split; [done|].
    rewrite !app_assoc in Ha. apply app_inv_tail in Ha as ->.
    rewrite <- app_assoc. now apply ReadFull_app.
  - destruct w; [|done]. destruct z; [|done]. by destruct suf.
Qed.

Lemma DecodeBlockAfterMagic_result r max res rest :
  DecodeBlockAfterMagic r max = (res, rest) ->
  res = Err ErrWALCorrupt \/ exists payload, res = Ok (Some payload).
Proof.
  unfold DecodeBlockAfterMagic. intros E.
  destruct (ReadFull_cases r 4) as [(a & r1 & -> & Ha & E1)|(e & E1 & [[-> _]| ->])]; [lia| | |];
    rewrite E1 in E; cbn [eof_is_corrupt] in E; [|injection E as <- <-; auto..].
  destruct (ReadFull_cases r1 4) as [(c & r2 & -> & Hc & E2)|(e & E2 & [[-> _]| ->])]; [lia| | |];
    rewrite E2 in E; cbn [eof_is_corrupt] in E; [|injection E as <- <-; auto..].
  case_bool_decide; [injection E as <- <-; auto|].
  destruct (ReadFull_cases r2 (le_decode a)) as [(p & r3 & -> & Hp & E3)|(e & E3 & [[-> _]| ->])];
    [apply le_decode_range| | |]; rewrite E3 in E; cbn [eof_is_corrupt mbind result_bind] in E;
    [|injection E as <- <-; auto..].
  case_bool_decide; injection E as <- <-; eauto.
Qed.

Lemma DecodeBlockAfterMagic_suffix r max res rest :
  DecodeBlockAfterMagic r max = (res, rest) -> suffix_of rest r.
Proof.
  unfold DecodeBlockAfterMagic. intros E.
  destruct (ReadFull r 4) as [b1 r1] eqn:E1. apply ReadFull_suffix in E1.
  destruct (eof_is_corrupt b1); try (injection E as <- <-; done).
  destruct (ReadFull r1 4) as [b2 r2] eqn:E2. apply ReadFull_suffix in E2.
  assert (H12 : suffix_of r2 r) by (etransitivity; eauto).
  destruct (eof_is_corrupt b2); try (injection E as <- <-; done).
  case_bool_decide; [injection E as <- <-; done|].
  destruct (ReadFull r2 (le_decode a)) as [b3 r3] eqn:E3. apply ReadFull_suffix in E3.
  injection E as <- <-. etransitivity; eauto.
Qed.

Lemma DecodeBlockAfterMagic_local y suf z max res :
  suf <> [] -> DecodeBlockAfterMagic (y ++ suf) max = (res, z ++ suf) ->
  DecodeBlockAfterMagic y max = (res, z).
Proof.
  intros Hs. unfold DecodeBlockAfterMagic. intros E.
  assert (R : forall z', z' ++ suf = z ++ suf -> z' = z) by (intros z'; apply app_inv_tail).
  destruct (ReadFull (y ++ suf) 4) as [b1 r1] eqn:E1.
  assert (S1 : suffix_of (z ++ suf) r1).
  { destruct (eof_is_corrupt b1); try (injection E as <- <-; reflexivity).
    destruct (ReadFull r1 4) as [b2 r2] eqn:E2. apply ReadFull_suffix in E2.
    destruct (eof_is_corrupt b2); try (injection E as <- <-; done).
    case_bool_decide; [injection E as <- <-; done|].
    destruct (ReadFull r2 (le_decode a)) as [b3 r3] eqn:E3. apply ReadFull_suffix in E3.
    injection E as <- <-. etransitivity; eauto. }
  destruct (ReadFull_local y suf z 4 b1 r1 ltac:(lia) Hs E1 S1) as (y1 & -> & ->).
  destruct (eof_is_corrupt b1) as [lenBuf|e| |];
    try (injection E as <- E; apply R in E as ->; done).
  destruct (ReadFull (y1 ++ suf) 4) as [b2 r2] eqn:E2.
  assert (S2 : suffix_of (z ++ suf) r2).
  { destruct (eof_is_corrupt b2); try (injection E as <- <-; reflexivity).
    case_bool_decide; [injection E as <- <-; reflexivity|].
    destruct (ReadFull r2 (le_decode lenBuf)) as [b3 r3] eqn:E3. apply ReadFull_suffix in E3.
    injection E as <- <-. done. }
  destruct (ReadFull_local y1 suf z 4 b2 r2 ltac:(lia) Hs E2 S2) as (y2 & -> & ->).
  destruct (eof_is_corrupt b2) as [crcBuf|e| |];
    try (injection E as <- E; apply R in E as ->; done).
  case_bool_decide; [injection E as <- E; apply R in E as ->; done|].
  destruct (ReadFull (y2 ++ suf) (le_decode lenBuf)) as [b3 r3] eqn:E3.
  injection E as <- ->.
  destruct (ReadFull_local _ _ z _ _ _ (proj1 (le_decode_range lenBuf)) Hs E3) as (y3 & E4 & ->);
    [reflexivity|]. now apply app_inv_tail in E4 as ->.
Qed.

Lemma DecodeBlock_result r max res rest :
  DecodeBlock r max = (res, rest) ->
  (res = Ok None /\ r = [] /\ rest = []) \/ res = Err ErrWALCorrupt \/
  exists payload, res = Ok (Some payload).
Proof.
  unfold DecodeBlock. intros E.
  destruct (ReadFull_cases r 4) as [(a & r1 & -> & Ha & E1)|(e & E1 & [[-> H]| ->])]; [lia| | |];
    rewrite E1 in E; [|injection E as <- <-; auto..].
  case_bool_decide; [injection E as <- <-; auto|].
  apply DecodeBlockAfterMagic_result in E as [|]; auto.
Qed.

Lemma DecodeBlock_suffix r max res rest : DecodeBlock r max = (res, rest) -> suffix_of rest r.
Proof.
  unfold DecodeBlock. intros E.
  destruct (ReadFull r 4) as [b1 r1] eqn:E1. apply ReadFull_suffix in E1.
  destruct b1 as [magic|e| |]; try (injection E as <- <-; done).
  - case_bool_decide; [injection E as <- <-; done|].
    apply DecodeBlockAfterMagic_suffix in E. etransitivity; eauto.
  - destruct e; injection E as <- <-; done.
Qed.

Lemma DecodeBlock_local y suf z max res :
  suf <> [] -> DecodeBlock (y ++ suf) max = (res, z ++ suf) -> DecodeBlock y max = (res, z).
Proof.
  intros Hs. unfold DecodeBlock. intros E.
  destruct (ReadFull (y ++ suf) 4) as [b1 r1] eqn:E1.
  assert (S1 : suffix_of (z ++ suf) r1).
  { destruct b1 as [magic|e| |]; try (injection E as <- <-; reflexivity).
    - case_bool_decide; [injection E as <- <-; reflexivity|].
      now apply DecodeBlockAfterMagic_suffix in E.
    - destruct e; injection E as <- <-; reflexivity. }
  destruct (ReadFull_local y suf z 4 b1 r1 ltac:(lia) Hs E1 S1) as (y1 & -> & ->).
  destruct b1 as [magic|e| |]; try (injection E as <- E; apply app_inv_tail in E as ->; done).
  - case_bool_decide; [injection E as <- E; apply app_inv_tail in E as ->; done|].
    now apply DecodeBlockAfterMagic_local in E.
  - destruct e; injection E as <- E; apply app_inv_tail in E as ->; done.
Qed.

Lemma ResyncBlock_loop_local y suf z window :
  ResyncBlock_loop window (y ++ suf) = (true, z ++ suf) ->
  ResyncBlock_loop window y = (true, z).
Proof.
  assert (H : forall w r rest, ResyncBlock_loop w r = (true, rest) -> (length rest < length r)%nat).
  { intros w r; revert w. induction r as [|b r IH]; intros w rest; cbn [ResyncBlock_loop]; [done|].
    case_bool_decide; [intros [= <-]; simpl; lia|]. intros E. apply IH in E. simpl; lia. }
  revert window. induction y as [|b y IH]; intros window E.
  - apply H in E. simpl in E. rewrite length_app in E. lia.
  - cbn [app ResyncBlock_loop] in *. case_bool_decide.
    + injection E as E. now apply app_inv_tail in E as ->.
    + now apply IH.
Qed.

Lemma ResyncBlock_local y suf z :
  ResyncBlock (y ++ suf) = (true, z ++ suf) -> ResyncBlock y = (true, z).
Proof. apply ResyncBlock_loop_local. Qed.

Lemma ResyncBlock_suffix r found rest : ResyncBlock r = (found, rest) -> suffix_of rest r.
Proof.
  intros E. pose proof (ResyncBlock_spec r) as H. rewrite E in H. destruct found.
  - destruct H as (pre & -> & _). exists (pre ++ blockMagic). now rewrite <- app_assoc.
  - destruct H as [-> _]. exists r. now rewrite app_nil_r.
Qed.

(** ** Segment files *)

Definition encode_blocks (blocks : list (list Entry)) : bytes :=
  concat (map (fun es => WriteBlock (map NewRecordBuffer es)) blocks).

(** The bytes of a segment holding [blocks]. *)
Definition segment_file (blockSize segmentID now : Z) (blocks : list (list Entry)) : bytes :=
  WriteSegmentHeader blockSize segmentID now ++ encode_blocks blocks.

(** A read from a prefix of [a ++ b]. *)
Lemma ReadFull_take n (a b : bytes) :
  (exists e, (n < length a)%nat /\ ReadFull (take n (a ++ b)) (zlen a) = (Err e, []) /\
     (e = EOF /\ n = 0%nat \/ e = ErrUnexpectedEOF /\ n <> 0%nat)) \/
  ((length a <= n)%nat /\ ReadFull (take n (a ++ b)) (zlen a) = (Ok a, take (n - length a) b)).
Proof.
  destruct (decide (length a <= n)%nat) as [H|H]; [right|left].
  - split; [done|]. rewrite take_app_ge by done. now apply ReadFull_app.
  - rewrite take_app_le by lia. unfold ReadFull.
    rewrite bool_decide_false by (unfold zlen; rewrite length_take; lia).
    eexists; split; [lia|]. split; [done|].
    destruct a as [|x a]; [simpl in H; lia|]. destruct n; case_bool_decide; auto; done.
Qed.

(** A torn block is corrupt, and reading it exhausts the reader. *)
Lemma DecodeBlock_torn max es n :
  fits_block max es ->
  let block := WriteBlock (map NewRecordBuffer es) in
  (0 < n < length block)%nat -> DecodeBlock (take n block) max = (Err ErrWALCorrupt, []).
Proof.
  intros (_ & Hne & Hu & Hm) block [Hn0 Hn]. subst block. revert Hn.
  rewrite WriteBlock_layout by done. cbv zeta. rewrite payload_of_encoded.
  set (payload := concat (map EncodeEntry es)) in *. intros Hn.
  unfold DecodeBlock, DecodeBlockAfterMagic.
  assert (L1 : forall z, zlen (PutUint32 z) = 4) by (intros; apply zlen_le_encode).
  assert (L2 : forall z, length (PutUint32 z) = 4%nat) by (intros; apply le_encode_length).
  rewrite !length_app, !L2 in Hn. simpl in Hn.
  destruct (ReadFull_take n blockMagic (PutUint32 (u32 (zlen payload)) ++
    PutUint32 (ChecksumIEEE payload) ++ payload)) as [(e & _ & E1 & [[-> ?]|[-> ?]])|[Hn1 E1]];
    change (zlen blockMagic) with 4 in E1; rewrite E1; [lia|done|].
  rewrite bool_decide_false by (intros H; now apply H). clear E1. simpl in Hn1.
  destruct (ReadFull_take (n - length blockMagic) (PutUint32 (u32 (zlen payload)))
    (PutUint32 (ChecksumIEEE payload) ++ payload)) as [(e & _ & E1 & [[-> ?]|[-> ?]])|[Hn2 E1]];
    rewrite L1 in E1; rewrite E1; cbn [eof_is_corrupt]; [done..|]. clear E1.
  rewrite L2 in *.
  destruct (ReadFull_take (n - length blockMagic - 4) (PutUint32 (ChecksumIEEE payload)) payload)
    as [(e & _ & E1 & [[-> ?]|[-> ?]])|[Hn3 E1]];
    rewrite L1 in E1; rewrite E1; cbn [eof_is_corrupt]; [done..|]. clear E1.
  rewrite L2 in *.
  rewrite le_decode_put32, u32_id by auto with lsm. rewrite bool_decide_false by lia.
  destruct (ReadFull_take (n - length blockMagic - 4 - 4) payload []) as
    [(e & _ & E1 & [[-> ?]|[-> ?]])|[Hn4 E1]]; rewrite app_nil_r in E1; rewrite E1; [done..|].
  change (length blockMagic) with 4%nat in *. lia.
Qed.

(** ** Replay of one segment *)

Section ReplayFacts.
Context {E St : Type} (decode : bytes -> result (list E * option error)) `{!RecordDecoder decode}.
Context (fn : St -> E -> St * option error).

Local Abbreviation resync := (replayFromResync_with decode fn).
Local Abbreviation loop := (replay_loop decode fn).

Lemma applyPayload_no_fuel payload st : fst (applyPayload_with decode fn payload st) <> NoFuel.
Proof.
  unfold applyPayload_with. destruct (rd_total payload) as [->|(es & [err|] & ->)]; try done.
  destruct (apply_entries fn es st) as [st' [err|]]; done.
Qed.

Lemma resync_suffix fuel bs r st res r' st' :
  resync fuel bs r st = (res, (r', st')) -> suffix_of r' r.
Proof.
  revert r st. induction fuel as [|fuel IH]; intros r st H; cbn in H.
  { injection H as <- <- <-. reflexivity. }
  destruct (ResyncBlock r) as [found r1] eqn:E1. apply ResyncBlock_suffix in E1.
  destruct found; cbn [negb] in H; [|injection H as <- <- <-; done].
  destruct (DecodeBlockAfterMagic r1 bs) as [blk r2] eqn:E2.
  pose proof (DecodeBlockAfterMagic_suffix _ _ _ _ E2) as S2.
  assert (S02 : suffix_of r2 r) by (etransitivity; eauto).
  apply DecodeBlockAfterMagic_result in E2 as [->|[payload ->]].
  - etransitivity; [eapply IH; eauto|done].
  - destruct (applyPayload_with decode fn payload st) as [[| | |] st1]; injection H as <- <- <-; done.
Qed.

Lemma resync_progress fuel bs r st r' st' :
  resync fuel bs r st = (Ok true, (r', st')) -> (length r' + 4 <= length r)%nat.
Proof.
  revert r st. induction fuel as [|fuel IH]; intros r st H; cbn in H; [done|].
  destruct (ResyncBlock r) as [found r1] eqn:E1.
  destruct found; cbn [negb] in H; [|done]. apply ResyncBlock_shrinks in E1.
  destruct (DecodeBlockAfterMagic r1 bs) as [blk r2] eqn:E2.
  pose proof (suffix_of_length _ _ (DecodeBlockAfterMagic_suffix _ _ _ _ E2)) as S2.
  apply DecodeBlockAfterMagic_result in E2 as [->|[payload ->]].
  - apply IH in H. lia.
  - destruct (applyPayload_with decode fn payload st) as [[| | |] st1]; try done.
    injection H as <- <-. lia.
Qed.

Lemma resync_total fuel bs r st :
  (length r < fuel)%nat -> fst (resync fuel bs r st) <> NoFuel.
Proof.
  revert r st. induction fuel as [|fuel IH]; intros r st H; cbn; [lia|].
  destruct (ResyncBlock r) as [found r1] eqn:E1.
  destruct found; cbn [negb]; [|done]. apply ResyncBlock_shrinks in E1.
  destruct (DecodeBlockAfterMagic r1 bs) as [blk r2] eqn:E2.
  pose proof (suffix_of_length _ _ (DecodeBlockAfterMagic_suffix _ _ _ _ E2)) as S2.
  apply DecodeBlockAfterMagic_result in E2 as [->|[payload ->]].
  - apply IH. lia.
  - pose proof (applyPayload_no_fuel payload st).
    destruct (applyPayload_with decode fn payload st) as [[| | |] st1]; done.
Qed.

Lemma resync_more_fuel fuel k bs r st :
  fst (resync fuel bs r st) <> NoFuel -> resync (fuel + k) bs r st = resync fuel bs r st.
Proof.
  revert r st. induction fuel as [|fuel IH]; intros r st H; cbn in *; [done|].
  destruct (ResyncBlock r) as [[|] r1]; cbn [negb] in *; [|done].
  destruct (DecodeBlockAfterMagic r1 bs) as [blk r2] eqn:E2.
  apply DecodeBlockAfterMagic_result in E2 as [->|[payload ->]]; [|done].
  now apply IH.
Qed.

(** Resynchronisation does not depend on what lies behind the block it
    finds. *)
Lemma resync_local fuel bs y suf z st st' :
  suf <> [] -> resync fuel bs (y ++ suf) st = (Ok true, (z ++ suf, st')) ->
  resync fuel bs y st = (Ok true, (z, st')).
Proof.
  intros Hs. revert y st. induction fuel as [|fuel IH]; intros y st H; cbn in *; [done|].
  destruct (ResyncBlock (y ++ suf)) as [found r1] eqn:E1.
  destruct found; cbn [negb] in H; [|done].
  destruct (DecodeBlockAfterMagic r1 bs) as [blk r2] eqn:E2.
  assert (S2 : suffix_of (z ++ suf) r2).
  { destruct (DecodeBlockAfterMagic_result _ _ _ _ E2) as [->|[payload ->]].
    - now apply resync_suffix in H.
    - destruct (applyPayload_with decode fn payload st) as [[| | |] st1]; try done.
      injection H as -> _. reflexivity. }
  destruct S2 as [w2 ->]. rewrite app_assoc in E2.
  destruct (DecodeBlockAfterMagic_suffix _ _ _ _ E2) as [w1 ->].
  rewrite app_assoc in E1, E2. rewrite (ResyncBlock_local _ _ _ E1). cbn [negb].
  rewrite (DecodeBlockAfterMagic_local _ _ _ _ _ Hs E2).
  apply DecodeBlockAfterMagic_result in E2 as [->|[payload ->]].
  - apply IH. now rewrite <- app_assoc.
  - destruct (applyPayload_with decode fn payload st) as [[| | |] st1]; try done.
    injection H as H ->. rewrite app_assoc in H. now apply app_inv_tail in H as ->.
Qed.

Lemma DecodeBlock_progress r bs payload rest :
  DecodeBlock r bs = (Ok (Some payload), rest) -> (length rest + 12 <= length r)%nat.
Proof.
  intros H. apply DecodeBlock_sound in H as [-> _].
  rewrite !length_app, !le_encode_length. simpl. lia.
Qed.

(** Every iteration consumes input: the fuel of [replaySegment] is enough. *)
Lemma loop_total fuel size bs lastGood corrupt r st :
  (length r < fuel)%nat -> fst (loop fuel size bs lastGood corrupt r st) <> NoFuel.
Proof.
  revert lastGood corrupt r st. induction fuel as [|fuel IH]; intros lg c r st H; [lia|].
  assert (R : forall r1 st1, (length r1 <= length r)%nat ->
    fst (match resync (S (length r1)) bs r1 st1 with
         | (Ok true, (r, st)) => loop fuel size bs (size - zlen r) true r st
         | (Ok false, (r, st)) => (Ok (lg, Some ErrWALCorruptSegment), st)
         | (Err err, (r, st)) => (Ok (lg, Some err), st)
         | (Panic, (r, st)) => (Panic, st)
         | (NoFuel, (r, st)) => (NoFuel, st)
         end) <> NoFuel).
  { intros r1 st1 Hr1. pose proof (resync_total (S (length r1)) bs r1 st1 ltac:(lia)) as T.
    destruct (resync (S (length r1)) bs r1 st1) as [[[|]| | |] [r2 st2]] eqn:E2; try done.
    apply resync_progress in E2. apply IH. lia. }
  cbn [replay_loop].
  destruct (DecodeBlock r bs) as [res r1] eqn:E1.
  pose proof (suffix_of_length _ _ (DecodeBlock_suffix _ _ _ _ E1)).
  destruct (DecodeBlock_result _ _ _ _ E1) as [(-> & _)|[->|[payload ->]]]; [done|now apply R|].
  pose proof (applyPayload_no_fuel payload st) as T.
  destruct (applyPayload_with decode fn payload st) as [[|e| |] st1]; try done.
  - apply IH. apply DecodeBlock_progress in E1. lia.
  - destruct e; try done. now apply R.
Qed.

(** [replaySegment] always returns (or panics in the record decoder). *)
Lemma replaySegment_total file st : fst (replaySegment_with decode fn file st) <> NoFuel.
Proof.
  destruct file as [f|]; [|done]. cbn [replaySegment_with].
  destruct (ReadSegmentHeader_cases f) as [(buf & rest & hdr & -> & _ & -> & _)|(e & rest & ->)]; [|done].
  apply loop_total. rewrite length_app. lia.
Qed.

Lemma applyPayload_encoded es st :
  Forall Entry_wf es ->
  applyPayload_with decode fn (concat (map EncodeEntry es)) st =
  match apply_entries fn (map rd_view es) st with
  | (st, Some err) => (Err err, st)
  | (st, None) => (Ok tt, st)
  end.
Proof. intros H. unfold applyPayload_with. now rewrite rd_encoded. Qed.

Lemma apply_entries_app l1 l2 st :
  apply_entries fn (l1 ++ l2) st =
  match apply_entries fn l1 st with
  | (st, Some err) => (st, Some err)
  | (st, None) => apply_entries fn l2 st
  end.
Proof.
  revert st; induction l1 as [|e l1 IH]; intros st; simpl; [done|].
  destruct (fn st e) as [st1 [err|]]; auto.
Qed.

(** Intact blocks are applied one after the other. *)
Lemma loop_blocks blocks : forall fuel size bs c st st' rest,
  Forall (fits_block bs) blocks ->
  apply_entries fn (map rd_view (concat blocks)) st = (st', None) ->
  loop (length blocks + fuel) size bs (size - zlen (encode_blocks blocks ++ rest)) c
    (encode_blocks blocks ++ rest) st
  = loop fuel size bs (size - zlen rest) c rest st'.
Proof.
  induction blocks as [|es blocks IH]; intros fuel size bs c st st' rest Hf Ha.
  - cbn in *. now injection Ha as ->.
  - apply Forall_cons in Hf as [He Hf].
    cbn [concat] in Ha. rewrite map_app, apply_entries_app in Ha.
    destruct (apply_entries fn (map rd_view es) st) as [st1 [err|]] eqn:E1; [done|].
    change (encode_blocks (es :: blocks))
      with (WriteBlock (map NewRecordBuffer es) ++ encode_blocks blocks).
    rewrite <- app_assoc. cbn [length Nat.add replay_loop].
    rewrite DecodeBlock_WriteBlock by done.
    rewrite applyPayload_encoded, E1 by apply He. now apply IH.
Qed.

Lemma loop_end fuel size bs lastGood c st :
  loop (S fuel) size bs lastGood c [] st
  = (Ok (lastGood, if c then Some ErrWALCorruptSegment else None), st).
Proof. reflexivity. Qed.

Lemma loop_torn fuel size bs lastGood c es n st :
  fits_block bs es -> (0 < n < length (WriteBlock (map NewRecordBuffer es)))%nat ->
  loop (S fuel) size bs lastGood c (take n (WriteBlock (map NewRecordBuffer es))) st
  = (Ok (lastGood, Some ErrWALCorruptSegment), st).
Proof. intros Hf Hn. cbn [replay_loop]. rewrite DecodeBlock_torn by done. reflexivity. Qed.

Lemma cut_blocks blocks : forall m,
  exists k tail, take m (encode_blocks blocks) = encode_blocks (take k blocks) ++ tail /\
    (k <= length blocks)%nat /\ (length (encode_blocks (take k blocks)) <= m)%nat /\
    ((tail = [] /\ (k = length blocks \/ length (encode_blocks (take k blocks)) = m)) \/
     exists es j, blocks !! k = Some es /\
       (0 < j < length (WriteBlock (map NewRecordBuffer es)))%nat /\
       (length (encode_blocks (take k blocks)) + j = m)%nat /\
       tail = take j (WriteBlock (map NewRecordBuffer es))).
Proof.
  induction blocks as [|es blocks IH]; intros m.
  { exists 0%nat, []. split; [now destruct m|]. simpl. split; [lia|]. split; [lia|]. auto. }
  change (encode_blocks (es :: blocks))
    with (WriteBlock (map NewRecordBuffer es) ++ encode_blocks blocks).
  destruct (decide (length (WriteBlock (map NewRecordBuffer es)) <= m)%nat) as [H|H].
  - destruct (IH (m - length (WriteBlock (map NewRecordBuffer es)))%nat) as (k & tail & E1 & Hk & Hl & Ht).
    exists (S k), tail. rewrite take_app_ge, E1 by done. cbn [take].
    change (encode_blocks (es :: take k blocks))
      with (WriteBlock (map NewRecordBuffer es) ++ encode_blocks (take k blocks)).
    rewrite app_assoc, length_app. split; [done|]. cbn [length]. split; [lia|]. split; [lia|].
    destruct Ht as [[-> Ht]|(es' & j & Hes & Hj & Hm & ->)]; [left|right].
    + split; [done|]. lia.
    + exists es', j. repeat split; try done; lia.
  - rewrite take_app_le by lia. destruct m as [|m].
    + exists 0%nat, []. cbn. split; [done|]. split; [lia|]. split; [lia|]. auto.
    + exists 0%nat, (take (S m) (WriteBlock (map NewRecordBuffer es))). cbn [take encode_blocks map concat].
      split; [done|]. split; [lia|]. split; [simpl; lia|]. right.
      exists es, (S m). repeat split; try done; simpl; lia.
Qed.

(** *** Truncation at the last good offset *)

Context (Hfn : forall st e, snd (fn st e) = None).

Lemma apply_entries_ok es st : snd (apply_entries fn es st) = None.
Proof.
  revert st; induction es as [|e es IH]; intros st; simpl; [done|].
  pose proof (Hfn st e). destruct (fn st e) as [st1 [err|]]; simpl in *; auto; done.
Qed.

Lemma applyPayload_ok payload st res st' :
  applyPayload_with decode fn payload st = (res, st') ->
  res = Ok tt \/ res = Panic \/ res = Err ErrWALCorrupt /\ st' = st.
Proof.
  unfold applyPayload_with. destruct (rd_total payload) as [->|(es & [err|] & ->)].
  - intros [= <- <-]; auto.
  - intros [= <- <-]; auto.
  - pose proof (apply_entries_ok es st).
    destruct (apply_entries fn es st) as [st1 [err|]]; [done|]. intros [= <- <-]. auto.
Qed.

Lemma resync_not_found fuel bs r st r' st' :
  resync fuel bs r st = (Ok false, (r', st')) -> st' = st.
Proof.
  revert r. induction fuel as [|fuel IH]; intros r H; cbn in H; [done|].
  destruct (ResyncBlock r) as [[|] r1]; cbn [negb] in H; [|now injection H].
  destruct (DecodeBlockAfterMagic r1 bs) as [blk r2] eqn:E2.
  apply DecodeBlockAfterMagic_result in E2 as [->|[payload ->]]; [eauto|].
  destruct (applyPayload_with decode fn payload st) as [[| | |] st1]; done.
Qed.

Lemma DecodeBlock_local' y suf z bs res :
  DecodeBlock (y ++ suf) bs = (res, z ++ suf) -> DecodeBlock y bs = (res, z).
Proof.
  destruct (decide (suf = [])) as [->|]; [now rewrite !app_nil_r|now apply DecodeBlock_local].
Qed.

(** The resynchronisation that found a block finds it again, with its own
    fuel, when the bytes behind the block change. *)
Lemma resync_local' bs y suf z st st' :
  resync (S (length (y ++ suf))) bs (y ++ suf) st = (Ok true, (z ++ suf, st')) ->
  resync (S (length y)) bs y st = (Ok true, (z, st')).
Proof.
  destruct (decide (suf = [])) as [->|Hs]; [now rewrite !app_nil_r|].
  intros H. apply resync_local in H; [|done].
  rewrite <- (resync_more_fuel _ (length suf)) by (apply resync_total; lia).
  rewrite <- H. f_equal. rewrite length_app. lia.
Qed.

(** One iteration of the block loop that reaches the loop head again. *)
Inductive good_step (bs : Z) (r : bytes) (st : St) (c : bool) : bytes -> St -> bool -> Prop :=
| good_block payload r' st' :
    DecodeBlock r bs = (Ok (Some payload), r') ->
    applyPayload_with decode fn payload st = (Ok tt, st') ->
    good_step bs r st c r' st' c
| good_after_bad_block r1 r' st' :
    DecodeBlock r bs = (Err ErrWALCorrupt, r1) ->
    resync (S (length r1)) bs r1 st = (Ok true, (r', st')) ->
    good_step bs r st c r' st' true
| good_after_bad_records payload r1 r' st' :
    DecodeBlock r bs = (Ok (Some payload), r1) ->
    applyPayload_with decode fn payload st = (Err ErrWALCorrupt, st) ->
    resync (S (length r1)) bs r1 st = (Ok true, (r', st')) ->
    good_step bs r st c r' st' true.

Lemma good_step_loop bs r st c r' st' c' fuel size lastGood :
  good_step bs r st c r' st' c' ->
  loop (S fuel) size bs lastGood c r st = loop fuel size bs (size - zlen r') c' r' st'.
Proof.
  destruct 1 as [p r' st' E1 E2|r1 r' st' E1 E2|p r1 r' st' E1 E2 E3];
    cbn [replay_loop]; rewrite E1, E2; [done|done|]. now rewrite E3.
Qed.

Lemma good_step_local bs r st c r' st' c' :
  good_step bs r st c r' st' c' ->
  exists w, r = w ++ r' /\ (0 < length w)%nat /\
    forall q suf, r' = q ++ suf -> good_step bs (w ++ q) st c q st' c'.
Proof.
  destruct 1 as [p r' st' E1 E2|r1 r' st' E1 E2|p r1 r' st' E1 E2 E3].
  - pose proof (DecodeBlock_progress _ _ _ _ E1) as Hp.
    destruct (DecodeBlock_suffix _ _ _ _ E1) as [w ->]. rewrite length_app in Hp.
    exists w. split; [done|]. split; [lia|]. intros q suf ->.
    rewrite app_assoc in E1. econstructor; eauto using DecodeBlock_local'.
  - pose proof (resync_progress _ _ _ _ _ _ E2) as Hp.
    destruct (DecodeBlock_suffix _ _ _ _ E1) as [w ->].
    destruct (resync_suffix _ _ _ _ _ _ _ E2) as [w' ->]. rewrite length_app in Hp.
    exists (w ++ w'). rewrite length_app, <- app_assoc. split; [done|]. split; [lia|].
    intros q suf ->. rewrite (app_assoc w' q suf) in E1, E2. rewrite app_assoc in E1.
    rewrite <- app_assoc. eapply good_after_bad_block;
      [eapply DecodeBlock_local'; eauto|eapply resync_local'; eauto].
  - pose proof (resync_progress _ _ _ _ _ _ E3) as Hp.
    destruct (DecodeBlock_suffix _ _ _ _ E1) as [w ->].
    destruct (resync_suffix _ _ _ _ _ _ _ E3) as [w' ->]. rewrite length_app in Hp.
    exists (w ++ w'). rewrite length_app, <- app_assoc. split; [done|]. split; [lia|].
    intros q suf ->. rewrite (app_assoc w' q suf) in E1, E3. rewrite app_assoc in E1.
    rewrite <- app_assoc. eapply good_after_bad_records;
      [eapply DecodeBlock_local'; eauto|eauto|eapply resync_local'; eauto].
Qed.

Lemma resync_error fuel bs r st e r' st' :
  resync fuel bs r st = (Err e, (r', st')) -> e = ErrWALCorrupt.
Proof.
  revert r st. induction fuel as [|fuel IH]; intros r st H; cbn in H; [done|].
  destruct (ResyncBlock r) as [[|] r1]; cbn [negb] in H; [|done].
  destruct (DecodeBlockAfterMagic r1 bs) as [blk r2] eqn:E2.
  apply DecodeBlockAfterMagic_result in E2 as [->|[payload ->]]; [eauto|].
  destruct (applyPayload_with decode fn payload st) as [res st1] eqn:E3.
  destruct (applyPayload_ok _ _ _ _ E3) as [->|[->|[-> _]]]; congruence.
Qed.

(** An iteration either reaches the loop head again or ends the replay
    without having applied anything. *)
Lemma loop_step_or_stop fuel size bs r c st lastGood err st' :
  loop (S fuel) size bs (size - zlen r) c r st = (Ok (lastGood, err), st') ->
  err = None \/ err = Some ErrWALCorruptSegment ->
  (exists r2 st2 c2, good_step bs r st c r2 st2 c2 /\
     loop fuel size bs (size - zlen r2) c2 r2 st2 = (Ok (lastGood, err), st')) \/
  (lastGood = size - zlen r /\ st' = st).
Proof.
  cbn [replay_loop]. intros H Herr.
  destruct (DecodeBlock r bs) as [res r1] eqn:E1.
  destruct (DecodeBlock_result _ _ _ _ E1) as [(-> & _)|[->|[payload ->]]].
  - injection H as <- _ <-. auto.
  - destruct (resync (S (length r1)) bs r1 st) as [[[|]|e| |] [r2 st2]] eqn:E2; try done.
    + left. eauto 10 using good_step.
    + apply resync_not_found in E2 as ->. injection H as <- _ <-. auto.
    + apply resync_error in E2 as ->. injection H as _ <- _. destruct Herr; done.
  - destruct (applyPayload_with decode fn payload st) as [res st1] eqn:E2.
    destruct (applyPayload_ok _ _ _ _ E2) as [->|[->|[-> ->]]]; [|done|].
    + left. eauto 10 using good_step.
    + destruct (resync (S (length r1)) bs r1 st) as [[[|]|e| |] [r2 st2]] eqn:E3; try done.
      * left. eauto 10 using good_step.
      * apply resync_not_found in E3 as ->. injection H as <- _ <-. auto.
      * apply resync_error in E3 as ->. injection H as _ <- _. destruct Herr; done.
Qed.

(** The replay that stopped at [lastGood] delivers the same entries when
    everything behind [lastGood] is cut off. *)
Lemma loop_truncate fuel size bs : forall r c st lastGood err st',
  loop fuel size bs (size - zlen r) c r st = (Ok (lastGood, err), st') ->
  err = None \/ err = Some ErrWALCorruptSegment ->
  exists (q suf : bytes) (c' : bool), r = q ++ suf /\ lastGood = size - zlen suf /\
    forall fuel', (length q < fuel')%nat ->
    loop fuel' lastGood bs (lastGood - zlen q) c q st
    = (Ok (lastGood, if c' then Some ErrWALCorruptSegment else None), st').
Proof.
  induction fuel as [|fuel IH]; intros r c st lg err st' H Herr; [done|].
  destruct (loop_step_or_stop _ _ _ _ _ _ _ _ _ H Herr) as [(r2 & st2 & c2 & Hs & H2)|[-> ->]].
  - destruct (IH _ _ _ _ _ _ H2 Herr) as (q2 & suf & c' & -> & -> & Hq).
    destruct (good_step_local _ _ _ _ _ _ _ Hs) as (w & -> & Hw & Hl).
    exists (w ++ q2), suf, c'. rewrite app_assoc. do 2 (split; [done|]).
    rewrite length_app. intros [|fuel'] Hf; [lia|].
    rewrite (good_step_loop _ _ _ _ _ _ _ _ _ _ (Hl q2 suf eq_refl)). apply Hq. lia.
  - exists [], r, c. do 2 (split; [done|]).
    intros [|fuel'] Hf; [simpl in Hf; lia|]. now rewrite loop_end, zlen_nil, Z.sub_0_r.
Qed.
End ReplayFacts.

(** ** Segments on disk *)

(** The callback that keeps every entry it is given. *)
Definition collect {E} (st : list E) (e : E) : list E * option error := (st ++ [e], None).

Lemma apply_collect {E} (es st : list E) : apply_entries collect es st = (st ++ es, None).
Proof.
  revert st; induction es as [|e es IH]; intros st; simpl; [now rewrite app_nil_r|].
  rewrite IH, <- app_assoc. done.
Qed.

Lemma zlen_WriteSegmentHeader bs id now : zlen (WriteSegmentHeader bs id now) = SegmentHeaderSize.
Proof. unfold WriteSegmentHeader. zlen_solve. Qed.

Lemma segment_file_header bs id now rest :
  is_u32 bs -> is_u64 id ->
  ReadSegmentHeader (WriteSegmentHeader bs id now ++ rest)
  = (Ok (mkSegmentHeader recordVersion bs id (u64 now)), rest).
Proof. apply ReadSegmentHeader_Write. Qed.

Lemma encode_blocks_length blocks :
  Forall (fun es => es <> []) blocks -> (length blocks <= length (encode_blocks blocks))%nat.
Proof.
  induction 1 as [|es blocks He Hes IH]; [simpl; lia|].
  change (encode_blocks (es :: blocks))
    with (WriteBlock (map NewRecordBuffer es) ++ encode_blocks blocks).
  rewrite length_app, WriteBlock_layout by done. cbv zeta. rewrite !length_app. simpl. lia.
Qed.

Lemma fits_blocks_nonempty bs blocks :
  Forall (fits_block bs) blocks -> Forall (fun es => es <> []) blocks.
Proof. intros H. eapply Forall_impl; [exact H|]. intros es (_ & Hne & _). exact Hne. Qed.

Lemma encode_blocks_snoc blocks k es :
  blocks !! k = Some es ->
  encode_blocks (take (S k) blocks)
  = encode_blocks (take k blocks) ++ WriteBlock (map NewRecordBuffer es).
Proof.
  intros H. rewrite (take_S_r _ _ _ H). unfold encode_blocks.
  rewrite map_app, concat_app. simpl. now rewrite app_nil_r.
Qed.

(** Replay of a segment cut off at any byte behind its header. *)
Lemma replaySegment_cut bs id now blocks n (st : list Entry) :
  is_u32 bs -> is_u64 id -> Forall (fits_block bs) blocks -> SegmentHeaderSize <= Z.of_nat n ->
  exists k err,
    let file := segment_file bs id now blocks in
    let intact := segment_file bs id now (take k blocks) in
    replaySegment collect (Some (take n file)) st
    = (Ok (zlen intact, err), st ++ concat (take k blocks)) /\
    (length intact <= n)%nat /\
    (k = length blocks \/ n < length (segment_file bs id now (take (S k) blocks)))%nat /\
    (take n file = intact /\ err = None \/ take n file <> intact /\ err = Some ErrWALCorruptSegment).
Proof.
  intros Hb Hid Hf Hn.
  assert (Hh : length (WriteSegmentHeader bs id now) = 29%nat)
    by (pose proof (zlen_WriteSegmentHeader bs id now) as L; unfold zlen, SegmentHeaderSize in L; lia).
  unfold SegmentHeaderSize in Hn. unfold segment_file. cbv zeta.
  destruct (cut_blocks blocks (n - 29)) as (k & tail & E & Hk & Hl & Ht).
  rewrite take_app_ge by lia. rewrite Hh, E.
  set (front := take k blocks) in *.
  assert (Hff : Forall (fits_block bs) front) by now apply Forall_take.
  pose proof (encode_blocks_length front (fits_blocks_nonempty _ _ Hff)) as Hfuel.
  unfold replaySegment. cbn [replaySegment_with]. rewrite segment_file_header by done.
  cbn [BlockSize]. set (size := zlen (WriteSegmentHeader bs id now ++ encode_blocks front ++ tail)).
  replace (S (length _)) with (length front + S (length (WriteSegmentHeader bs id now ++ encode_blocks front ++ tail) - length front))%nat
    by (rewrite !length_app; lia).
  rewrite (loop_blocks DecodeRecords collect front _ size bs false st (st ++ concat front) tail Hff)
    by (cbn; rewrite map_id; apply apply_collect).
  assert (Hsz : size - zlen tail = zlen (WriteSegmentHeader bs id now ++ encode_blocks front))
    by (subst size; autorewrite with zlen; lia).
  rewrite Hsz. clear Hsz.
  destruct Ht as [[-> Ht]|(es & j & Hes & Hj & Hm & ->)].
  - rewrite loop_end, app_nil_r. exists k, None. fold front. split; [done|]. rewrite length_app, Hh.
    split; [lia|]. split; [|auto].
    destruct Ht as [->|Ht]; [auto|].
    destruct (decide (k = length blocks)) as [|Hne]; [auto|right].
    destruct (lookup_lt_is_Some_2 blocks k) as [es Hes]; [lia|].
    rewrite (encode_blocks_snoc _ _ _ Hes), !length_app, Hh. fold front. rewrite Ht.
    assert (fits_block bs es) as (_ & Hne' & _) by exact (Forall_lookup_1 _ _ _ _ Hf Hes).
    rewrite WriteBlock_layout by done. cbv zeta. rewrite length_app. simpl. lia.
  - rewrite loop_torn by (done || exact (Forall_lookup_1 _ _ _ _ Hf Hes)).
    exists k, (Some ErrWALCorruptSegment). fold front. split; [done|]. rewrite length_app, Hh.
    split; [lia|]. split.
    + right. rewrite (encode_blocks_snoc _ _ _ Hes), !length_app, Hh. fold front. lia.
    + right. split; [|done]. rewrite app_assoc. intros Heq.
      apply (f_equal length) in Heq. rewrite length_app, length_take in Heq. lia.
Qed.

(** Replay of an intact segment. *)
Lemma replaySegment_intact bs id now blocks (st : list Entry) :
  is_u32 bs -> is_u64 id -> Forall (fits_block bs) blocks ->
  let file := segment_file bs id now blocks in
  replaySegment collect (Some file) st = (Ok (zlen file, None), st ++ concat blocks).
Proof.
  intros Hb Hid Hf file. unfold file, segment_file, replaySegment. cbn [replaySegment_with].
  rewrite segment_file_header by done. cbn [BlockSize].
  pose proof (encode_blocks_length blocks (fits_blocks_nonempty _ _ Hf)) as Hfuel.
  set (size := zlen (WriteSegmentHeader bs id now ++ encode_blocks blocks)).
  replace (S (length _)) with (length blocks + S (length (WriteSegmentHeader bs id now ++ encode_blocks blocks) - length blocks))%nat
    by (rewrite !length_app; lia).
  pose proof (fun fuel => loop_blocks DecodeRecords collect blocks fuel size bs false st (st ++ concat blocks) [] Hf) as L.
  rewrite app_nil_r in L. rewrite L by (cbn; rewrite map_id; apply apply_collect).
  rewrite loop_end, zlen_nil, Z.sub_0_r. reflexivity.
Qed.

(** *** Repair *)

(** Replay, truncate at the reported offset, replay again: the same entries,
    and the second replay ends exactly at the end of the file. *)
Lemma replaySegment_truncate {St} (fn : St -> Entry -> St * option error) f st lastGood st' :
  (forall st e, snd (fn st e) = None) -> 0 < lastGood ->
  replaySegment fn (Some f) st = (Ok (lastGood, Some ErrWALCorruptSegment), st') ->
  let f' := take (Z.to_nat lastGood) f in
  zlen f' = lastGood /\
  exists err, replaySegment fn (Some f') st = (Ok (lastGood, err), st') /\
    (err = None \/ err = Some ErrWALCorruptSegment).
Proof.
  intros Hfn Hpos. unfold replaySegment. cbn [replaySegment_with].
  destruct (ReadSegmentHeader_cases f) as [(buf & rest & hdr & -> & Hbuf & -> & Hhdr)|(e & rest & ->)];
    [|intros [= <- _]; lia].
  intros H.
  apply loop_truncate in H as (q & suf & c' & -> & -> & Hq); [|apply _|done|auto].
  set (lg := zlen (buf ++ q ++ suf) - zlen suf) in *.
  assert (Hlg : lg = zlen (buf ++ q)) by (subst lg; autorewrite with zlen; lia).
  clearbody lg. rewrite Hlg, zlen_to_nat, app_assoc, take_app_length.
  split; [done|]. cbn [replaySegment_with]. rewrite Hhdr.
  rewrite Hlg in Hq. exists (if c' then Some ErrWALCorruptSegment else None).
  split; [|destruct c'; auto]. apply Hq. rewrite length_app. lia.
Qed.

(** *** Corruption inside a resynchronised block *)

Definition bad_record_block : bytes :=
  let payload := x00 :: PutUint64 1 ++ PutUint32 1 ++ PutUint32 1 ++ [x6b; x76] ++ PutUint32 0 in
  blockMagic ++ PutUint32 (zlen payload) ++ PutUint32 (ChecksumIEEE payload) ++ payload.

(** A well-framed block with a bad record is skipped when the reader reaches
    it in step, but aborts the replay of the whole log when it is reached by
    resynchronisation: the second file holds a good block the callback never
    sees, and the error is not the one that means "segment corrupt". *)
Lemma resynced_bad_record_aborts :
  let good := WriteBlock [NewRecordBuffer (mkEntry [x6b] [x76] false 1)] in
  let hdr := WriteSegmentHeader 4096 1 0 in
  snd (replaySegment collect (Some (hdr ++ bad_record_block ++ good)) [])
    = [mkEntry [x6b] [x76] false 1] /\
  fst (replaySegment collect (Some (hdr ++ [x00; x00; x00; x00] ++ bad_record_block ++ good)) [])
    = Ok (zlen hdr, Some ErrWALCorrupt) /\
  snd (replaySegment collect (Some (hdr ++ [x00; x00; x00; x00] ++ bad_record_block ++ good)) []) = [].
Proof. vm_compute. repeat split; reflexivity. Qed.

(** ** Properties *)

Definition sample_blocks : list (list Entry) :=
  [[mkEntry [x61] [x31] false 1]; [mkEntry [x62] [] true 2; mkEntry [x63] [x33] false 3]].

Lemma sample_blocks_fit : Forall (fits_block 64) sample_blocks.
Proof.
  repeat (apply Forall_cons_2 || apply Forall_nil_2); (split; [repeat constructor; vm_compute; congruence|]);
    (split; [done|]); (split; [split|right]; vm_compute; congruence).
Defined.

(** C8. Crash safety of a segment: cut off at any byte behind its header, a
    segment replays exactly the entries of the blocks that are complete, in
    order; the last good offset is the end of those blocks; and corruption
    is reported exactly when a torn block follows them. *)
Theorem segment_crash_safety bs id now blocks n (st : list Entry) :
  is_u32 bs -> is_u64 id -> Forall (fits_block bs) blocks -> SegmentHeaderSize <= Z.of_nat n ->
  exists k err,
    let file := segment_file bs id now blocks in
    let intact := segment_file bs id now (take k blocks) in
    replaySegment collect (Some (take n file)) st
    = (Ok (zlen intact, err), st ++ concat (take k blocks)) /\
    (length intact <= n)%nat /\
    (k = length blocks \/ n < length (segment_file bs id now (take (S k) blocks)))%nat /\
    (take n file = intact /\ err = None \/ take n file <> intact /\ err = Some ErrWALCorruptSegment).
Proof. apply replaySegment_cut. Qed.

Lemma segment_crash_safety_witness :
  exists k err,
    let file := segment_file 64 1 0 sample_blocks in
    let intact := segment_file 64 1 0 (take k sample_blocks) in
    replaySegment collect (Some (take 80 file)) []
    = (Ok (zlen intact, err), [] ++ concat (take k sample_blocks)) /\
    (length intact <= 80)%nat /\
    (k = length sample_blocks \/ 80 < length (segment_file 64 1 0 (take (S k) sample_blocks)))%nat /\
    (take 80 file = intact /\ err = None \/ take 80 file <> intact /\ err = Some ErrWALCorruptSegment).
Proof.
  apply (segment_crash_safety 64 1 0 sample_blocks 80 []);
    [split; vm_compute; congruence|split; vm_compute; congruence|exact sample_blocks_fit|vm_compute; congruence].
Defined.

(** C10. Repairing a corrupt segment by truncating it at the last good offset
    loses nothing that replay delivered: replaying the truncated file
    delivers the same entries to any callback that does not fail, and its
    last good offset is its end, so a second repair changes nothing. *)
Theorem repair_preserves_entries {St} (fn : St -> Entry -> St * option error) f st lastGood st' :
  (forall st e, snd (fn st e) = None) -> 0 < lastGood ->
  replaySegment fn (Some f) st = (Ok (lastGood, Some ErrWALCorruptSegment), st') ->
  let f' := take (Z.to_nat lastGood) f in
  zlen f' = lastGood /\
  exists err, replaySegment fn (Some f') st = (Ok (lastGood, err), st') /\
    (err = None \/ err = Some ErrWALCorruptSegment).
Proof. apply replaySegment_truncate. Qed.

Lemma repair_preserves_entries_witness :
  let f := segment_file 64 1 0 (take 1 sample_blocks) ++ [x4c; x53] in
  let lastGood := zlen f - 2 in
  let f' := take (Z.to_nat lastGood) f in
  zlen f' = lastGood /\
  exists err, replaySegment collect (Some f') [] = (Ok (lastGood, err), [mkEntry [x61] [x31] false 1]) /\
    (err = None \/ err = Some ErrWALCorruptSegment).
Proof.
  apply (repair_preserves_entries collect); [reflexivity|vm_compute; reflexivity|vm_compute; reflexivity].
Defined.

(** C28. Replaying a segment terminates for every file content and every
    callback, whether entries are decoded into owned entries or views. *)
Theorem replaySegment_terminates {St} (fn : St -> Entry -> St * option error)
    (fnv : St -> EntryView -> St * option error) file st :
  fst (replaySegment fn file st) <> NoFuel /\ fst (replaySegmentViews fnv file st) <> NoFuel.
Proof. split; apply replaySegment_total; apply _. Qed.
