(* ===== verification/Wal.v ===== *)
(** * WAL appends ([internal/lsm/wal/wal.go], [wal_append.go])

    The writer's state, the file-system calls it makes, and the append,
    batching, rotation and close paths.  Every call to the file system takes
    the next element of a list of injected faults, so that the error paths
    are ordinary executions; an empty list is a file system that never
    fails.  The files are those of the WAL's directory, by name. *)

From Stdlib Require Import ZArith Lia Strings.Byte.
From stdpp Require Import base list strings pretty gmap sorting.
From S2P Require Import Prelude Iofs WalCodec WalReplay.
Local Open Scope Z_scope.

(** ** State *)

(** The handle [w.f]: [nil], open, or closed but not [nil]. *)
Inductive handle := FileNil | FileOpen | FileClosed.

#[export] Instance handle_eq_dec : EqDecision handle.
Proof. solve_decision. Defined.

Record WAL := mkWAL {
  w_f : handle;
  w_path : string;
  w_sync : bool;
  w_maxBytes : Z;
  w_sizeBytes : Z;
  w_maxRecord : Z;
  w_blockSize : Z;
  w_segmentID : Z;
  w_records : list RecordBuffer;
  w_blockLen : Z;
  w_async : bool;
  w_batchMax : Z;
  w_repairOnReplay : bool
}.

Record Options := mkOptions {
  opt_Path : string;
  opt_Sync : bool;
  opt_MaxSegment : Z;
  opt_MaxRecordBytes : Z;
  opt_BlockSize : Z;
  opt_Async : bool;
  opt_BatchMax : Z;
  opt_RepairOnReplay : bool
}.

Abbreviation M := (SE (WAL * FS)).

Definition with_f (h : handle) (w : WAL) : WAL :=
  mkWAL h (w_path w) (w_sync w) (w_maxBytes w) (w_sizeBytes w) (w_maxRecord w) (w_blockSize w)
    (w_segmentID w) (w_records w) (w_blockLen w) (w_async w) (w_batchMax w) (w_repairOnReplay w).
Definition with_size (n : Z) (w : WAL) : WAL :=
  mkWAL (w_f w) (w_path w) (w_sync w) (w_maxBytes w) n (w_maxRecord w) (w_blockSize w)
    (w_segmentID w) (w_records w) (w_blockLen w) (w_async w) (w_batchMax w) (w_repairOnReplay w).
Definition with_segmentID (n : Z) (w : WAL) : WAL :=
  mkWAL (w_f w) (w_path w) (w_sync w) (w_maxBytes w) (w_sizeBytes w) (w_maxRecord w) (w_blockSize w)
    n (w_records w) (w_blockLen w) (w_async w) (w_batchMax w) (w_repairOnReplay w).
Definition with_records (rs : list RecordBuffer) (n : Z) (w : WAL) : WAL :=
  mkWAL (w_f w) (w_path w) (w_sync w) (w_maxBytes w) (w_sizeBytes w) (w_maxRecord w) (w_blockSize w)
    (w_segmentID w) rs n (w_async w) (w_batchMax w) (w_repairOnReplay w).

(** ** File-system calls *)

(** A call without an effect on the files that may fail with [e]. *)
Definition io_may_fail (e : error) : M unit := fun '(w, fs) =>
  match fs_pop fs with
  | (None, fs) => (Ok tt, (w, fs))
  | (Some _, fs) => (Err e, (w, fs))
  end.

Definition err_write_block := ErrNew "write block".
Definition err_sync := ErrNew "wal sync".
Definition err_close := ErrNew "close wal".
Definition err_close_rotate := ErrNew "close wal before rotate".
Definition err_rename := ErrNew "rename wal segment".
Definition err_open_new := ErrNew "open new wal".
Definition err_header := ErrNew "write segment header".

(** [w.f.Sync()]. *)
Definition file_sync : M unit := '(w, fs) ← get;
  if bool_decide (w_f w = FileOpen) then io_may_fail err_sync else throw err_sync.

(** [w.f.Close()]: the handle is closed whatever the outcome. *)
Definition file_close (e : error) : M unit :=
  '(w, fs) ← get;
  if bool_decide (w_f w = FileOpen) then
    _ ← put (with_f FileClosed w, fs);
    io_may_fail e
  else throw e.

(** ** Rotation *)

Definition rotate : M unit :=
  '(w, _) ← get;
  if bool_decide (w_f w = FileNil) then throw ErrWALClosed else
  let seg := seg_name (w_path w) (w_segmentID w) in
  _ ← file_close err_close_rotate;
  _ ← io_may_fail err_rename;
  _ ← modify (fun '(w, fs) =>
        (with_segmentID (u64 (w_segmentID w + 1)) w,
         with_dir (fs_rename (w_path w) seg (fs_dir fs)) fs));
  _ ← io_may_fail err_open_new;
  _ ← modify (fun '(w, fs) => (w, with_dir (<[w_path w := []]> (fs_dir fs)) fs));
  '(w, fs) ← get;
  let '((_, ok), fs) :=
    fs_write (w_path w) (WriteSegmentHeader (w_blockSize w) (w_segmentID w) (fs_now fs)) fs in
  _ ← put (w, fs);
  if negb ok then
    _ ← io_may_fail err_header;
    throw err_header
  else put (with_size SegmentHeaderSize (with_f FileOpen w), fs).

(** ** Appends *)

Definition flushBlock : M unit :=
  '(w, fs) ← get;
  if bool_decide (w_blockLen w = 0) then mret tt else
  if bool_decide (w_f w = FileOpen) then
    let '((n, ok), fs) := fs_write (w_path w) (WriteBlock (w_records w)) fs in
    _ ← put (w, fs);
    if negb ok then throw err_write_block else
    let w := with_records [] 0 (with_size (u64 (w_sizeBytes w + n)) w) in
    _ ← put (w, fs);
    if bool_decide (0 < w_maxBytes w /\ w_maxBytes w <= w_sizeBytes w) then rotate else mret tt
  else throw err_write_block.

Definition ValidateEntry (w : WAL) (e : Entry) : result unit :=
  if bool_decide (zlen (Key e) = 0) then Err ErrWALEmptyKey else
  if bool_decide (zlen (Value e) = 0 /\ Tombstone e = false) then Err ErrWALEmptyValue else
  let rb := NewRecordBuffer e in
  if bool_decide (w_blockSize w < Total rb) then Err ErrWALRecordTooLarge else
  if bool_decide (0 < w_maxRecord w /\ w_maxRecord w < Total rb) then Err ErrWALRecordTooLarge else
  Ok tt.

Definition appendLocked (e : Entry) : M unit :=
  '(w, _) ← get;
  if bool_decide (w_f w = FileNil) then throw ErrWALClosed else
  _ ← lift (ValidateEntry w e);
  let rb := NewRecordBuffer e in
  _ ← (if bool_decide (0 < w_blockLen w /\ w_blockSize w < w_blockLen w + Total rb)
       then flushBlock else mret tt);
  modify (fun '(w, fs) => (with_records (w_records w ++ [rb]) (w_blockLen w + Total rb) w, fs)).

(** The synchronous [append]. *)
Definition append (e : Entry) : M unit :=
  _ ← appendLocked e;
  _ ← flushBlock;
  '(w, _) ← get;
  if w_sync w then file_sync else mret tt.

Definition Close : M unit :=
  '(w, _) ← get;
  if bool_decide (w_f w = FileNil) then mret tt else
  _ ← flushBlock;
  err ← catch (file_close err_close);
  _ ← modify (fun '(w, fs) => (with_f FileNil w, fs));
  match err with Some e => throw e | None => mret tt end.

(** ** The asynchronous writer *)

Definition isFatalAppendError (e : error) : bool :=
  negb (bool_decide (e = ErrWALEmptyKey \/ e = ErrWALEmptyValue \/ e = ErrWALRecordTooLarge)).

(** The first request and what the queue holds, up to [batchMax] requests:
    the batch and the queue that is left. *)
Fixpoint collect_from (batchMax : Z) (batch queue : list Entry) : list Entry * list Entry :=
  match queue with
  | [] => (batch, [])
  | e :: rest =>
      if bool_decide (batchMax = 0 \/ zlen batch < batchMax)
      then collect_from batchMax (batch ++ [e]) rest
      else (batch, queue)
  end.

Definition collectBatch (w : WAL) (first : Entry) (queue : list Entry) : list Entry * list Entry :=
  collect_from (w_batchMax w) [first] queue.

(** The appends of a batch: each request's error, and the fatal error. *)
Fixpoint append_batch (batch : list Entry) (fatal : option error)
  : M (list (option error) * option error) :=
  match batch with
  | [] => mret ([], fatal)
  | e :: batch =>
      match fatal with
      | Some err =>
          '(errs, fatal) ← append_batch batch fatal;
          mret (Some err :: errs, fatal)
      | None =>
          err ← catch (appendLocked e);
          let fatal := match err with
                       | Some e => if isFatalAppendError e then Some e else None
                       | None => None
                       end in
          '(errs, fatal) ← append_batch batch fatal;
          mret (err :: errs, fatal)
      end
  end.

(** What each request is answered, and the fatal error. *)
Definition processBatch (batch : list Entry) (syncNow : bool)
  : M (list (option error) * option error) :=
  '(errs, fatal) ← append_batch batch None;
  fatal ← match fatal with
          | Some e => mret (Some e)
          | None =>
              err ← catch flushBlock;
              match err with
              | Some e => mret (Some e)
              | None => if syncNow then catch file_sync else mret None
              end
          end;
  let errs := match fatal with
              | Some f => map (fun err => match err with Some e => Some e | None => Some f end) errs
              | None => errs
              end in
  mret (errs, fatal).

Definition closeFile : M unit :=
  '(w, _) ← get;
  if bool_decide (w_f w = FileNil) then mret tt else
  err ← catch (file_close err_close);
  _ ← modify (fun '(w, fs) => (with_f FileNil w, fs));
  match err with Some e => throw e | None => mret tt end.

(** One round of [runWriter] on the request it received. *)
Definition writer_round (first : Entry) (queue : list Entry)
  : M (list (option error) * list Entry) :=
  '(w, _) ← get;
  let '(batch, queue) := collectBatch w first queue in
  '(errs, _) ← processBatch batch (w_sync w);
  mret (errs, queue).

(** The batches [drainAndClose] forms from the requests still queued. *)
Fixpoint drain_batches (batchMax : Z) (pending queue : list Entry) : list (list Entry) :=
  match queue with
  | [] => match pending with [] => [] | _ => [pending] end
  | e :: queue =>
      let pending := pending ++ [e] in
      if bool_decide (0 < batchMax /\ batchMax <= zlen pending)
      then pending :: drain_batches batchMax [] queue
      else drain_batches batchMax pending queue
  end.

(** Processes the batches; the answers, and the error that stopped it. *)
Fixpoint drain_process (batches : list (list Entry)) : M (list (option error) * option error) :=
  match batches with
  | [] => mret ([], None)
  | batch :: batches =>
      '(errs, fatal) ← processBatch batch false;
      match fatal with
      | Some e => mret (errs, Some e)
      | None =>
          '(errs', fatal) ← drain_process batches;
          mret (errs ++ errs', fatal)
      end
  end.

(** The answers to the drained requests and the error [Close] returns. *)
Definition drainAndClose (queue : list Entry) : M (list (option error) * option error) :=
  '(w, _) ← get;
  '(errs, fatal) ← drain_process (drain_batches (w_batchMax w) [] queue);
  match fatal with
  | Some e => _ ← catch closeFile; mret (errs, Some e)
  | None =>
      err ← catch flushBlock;
      '(w, _) ← get;
      err ← match err with
            | None => if w_sync w then catch file_sync else mret None
            | Some e => mret (Some e)
            end;
      cerr ← catch closeFile;
      mret (errs, match err with None => cerr | Some e => Some e end)
  end.

(** ** Opening *)

Definition err_path := ErrNew "wal path required".
Definition err_block_size := ErrNew "wal block size too small".
Definition err_mkdir := ErrNew "mkdir wal dir".
Definition err_open := ErrNew "open wal".
Definition err_stat := ErrNew "stat wal".
Definition err_max_record := ErrNew "wal max record bytes exceeds block size".

(** An unreadable header of a non-empty file is skipped over: the block size
    and segment number stay those of the options and the directory. *)
Definition NewWAL (opts : Options) : SE FS WAL :=
  if bool_decide (opt_Path opts = EmptyString) then throw err_path else
  let path := opt_Path opts in
  let blockSize := if bool_decide (opt_BlockSize opts = 0) then 64 * 1024 else opt_BlockSize opts in
  if bool_decide (blockSize < MinBlockSize) then throw err_block_size else
  _ ← fs_may_fail err_mkdir;
  _ ← fs_may_fail err_open;
  _ ← modify (fun fs => with_dir (<[path := default [] (fs_dir fs !! path)]> (fs_dir fs)) fs);
  _ ← fs_may_fail err_stat;
  fs ← get;
  let f := default [] (fs_dir fs !! path) in
  let segmentID := NextSegmentID path (fs_dir fs) in
  '(blockSize, segmentID) ←
    (if bool_decide (zlen f = 0) then
       let '((_, ok), fs) := fs_write path (WriteSegmentHeader blockSize segmentID (fs_now fs)) fs in
       _ ← put fs;
       if negb ok then throw err_header else mret (blockSize, segmentID)
     else
       let '(blockSize, segmentID) :=
         match ReadSegmentHeader f with
         | (Ok hdr, _) => (BlockSize hdr, SegmentID hdr)
         | _ => (blockSize, segmentID)
         end in
       if bool_decide (blockSize < MinBlockSize) then throw err_block_size
       else mret (blockSize, segmentID));
  if bool_decide (0 < opt_MaxRecordBytes opts /\ blockSize < opt_MaxRecordBytes opts)
  then throw err_max_record else
  fs ← get;
  mret (mkWAL FileOpen path (opt_Sync opts) (opt_MaxSegment opts)
          (zlen (default [] (fs_dir fs !! path))) (opt_MaxRecordBytes opts) blockSize segmentID
          [] 0 (opt_Async opts) (opt_BatchMax opts) (opt_RepairOnReplay opts)).
