(* ===== verification/WalLog.v ===== *)
(** * The WAL as an append-only log

    The abstract log a WAL directory stands for, the representation
    invariant of the writer, and the refinement: every operation of the
    writer acts on the abstract log as its contract says, and replay returns
    the abstract log. *)

From Stdlib Require Import ZArith Lia Strings.Byte.
From stdpp Require Import base list strings pretty gmap sorting.
From S2P Require Import Prelude Iofs WalCodec WalReplay Wal.
Local Open Scope Z_scope.

(** ** Segment directories *)

Record seg := mkSeg {
  sg_blockSize : Z;
  sg_created : Z;
  sg_blocks : list (list Entry)
}.

Definition seg_ok (s : seg) : Prop :=
  is_u32 (sg_blockSize s) /\ Forall (fits_block (sg_blockSize s)) (sg_blocks s).

Definition seg_bytes (id : Z) (s : seg) : bytes :=
  segment_file (sg_blockSize s) id (sg_created s) (sg_blocks s).

Definition seg_entries (s : seg) : list Entry := concat (sg_blocks s).

(** The directory holds the rotated segments [1..n] and the active one, and
    no other file that looks like a segment. *)
Record dir_rep (path : string) (dir : Dir) (rot : list seg) (act : seg) : Prop := {
  dr_active : dir !! path = Some (seg_bytes (1 + zlen rot) act);
  dr_rotated i s : rot !! i = Some s ->
    dir !! seg_name path (1 + Z.of_nat i) = Some (seg_bytes (1 + Z.of_nat i) s);
  dr_only name n : is_Some (dir !! name) -> seg_number path name = Some n ->
    1 <= n <= zlen rot /\ name = seg_name path n;
  dr_ok : Forall seg_ok (rot ++ [act]);
  dr_count : 1 + zlen rot < 2 ^ 63
}.

(** The abstract log. *)
Definition log_of (rot : list seg) (act : seg) : list Entry :=
  concat (map seg_entries rot) ++ seg_entries act.

Lemma strip_prefix_app p s : strip_prefix p (p +:+ s) = Some s.
Proof. induction p as [|a p IH]; simpl; [done|]. now rewrite bool_decide_true. Qed.

Lemma strip_prefix_sound p s t : strip_prefix p s = Some t -> s = p +:+ t.
Proof.
  revert s. induction p as [|a p IH]; intros s; [now intros [= ->]|].
  destruct s as [|b s]; cbn [strip_prefix]; [done|].
  case_bool_decide; [subst|done]. intros H. now rewrite (IH _ H).
Qed.

Lemma string_app_assoc (a b c : string) : a +:+ (b +:+ c) = (a +:+ b) +:+ c.
Proof. induction a as [|x a IH]; [reflexivity|exact (f_equal (String x) IH)]. Qed.

Lemma seg_number_name path n : 0 <= n < 2 ^ 63 -> seg_number path (seg_name path n) = Some n.
Proof.
  intros Hn. unfold seg_number, seg_name.
  rewrite string_app_assoc, strip_prefix_app. cbn. now apply Atoi_pretty.
Qed.

Lemma string_app_length a b : String.length (a +:+ b) = (String.length a + String.length b)%nat.
Proof. induction a as [|c a IH]; simpl; [done|now rewrite IH]. Qed.

Lemma seg_number_path path : seg_number path path = None.
Proof.
  unfold seg_number. destruct (strip_prefix (path +:+ ".") path) as [t|] eqn:E; [|done].
  apply strip_prefix_sound in E. apply (f_equal String.length) in E.
  rewrite !string_app_length in E. simpl in E. lia.
Qed.

Lemma seg_name_inj path n m :
  0 <= n < 2 ^ 63 -> 0 <= m < 2 ^ 63 -> seg_name path n = seg_name path m -> n = m.
Proof.
  intros Hn Hm E. apply (f_equal (seg_number path)) in E.
  rewrite !seg_number_name in E by done. congruence.
Qed.

Lemma seg_name_ne_path path n : 0 <= n < 2 ^ 63 -> seg_name path n <> path.
Proof.
  intros Hn E. pose proof (seg_number_name path n Hn) as H. rewrite E, seg_number_path in H. done.
Qed.

Lemma NoDup_omap_inj {A B} (f : A -> option B) (l : list A) :
  NoDup l -> (forall x y b, x ∈ l -> y ∈ l -> f x = Some b -> f y = Some b -> x = y) ->
  NoDup (omap f l).
Proof.
  induction 1 as [|x l Hx Hl IH]; intros Hinj; cbn; [constructor|].
  destruct (f x) as [b|] eqn:E.
  - constructor.
    + rewrite list_elem_of_omap. intros (y & Hy & Ey). apply Hx.
      rewrite (Hinj x y b); auto using list_elem_of_here, list_elem_of_further.
    + apply IH. intros. eapply Hinj; eauto using list_elem_of_further.
  - apply IH. intros. eapply Hinj; eauto using list_elem_of_further.
Qed.

Section DirFacts.
Context (path : string) (dir : Dir) (rot : list seg) (act : seg).
Context (R : dir_rep path dir rot act).

Lemma dir_segment i s : rot !! i = Some s -> 0 <= 1 + Z.of_nat i < 2 ^ 63.
Proof.
  intros H. pose proof (lookup_lt_Some _ _ _ H). pose proof (dr_count _ _ _ _ R).
  unfold zlen in *. lia.
Qed.

Lemma seg_numbers_perm : seg_numbers path dir ≡ₚ seqZ 1 (zlen rot).
Proof.
  apply NoDup_Permutation; [|apply NoDup_seqZ|].
  - apply NoDup_omap_inj; [apply (NoDup_fst_map_to_list dir)|].
    intros x y n Hx Hy Ex Ey.
    assert (D : forall z, z ∈ map fst (map_to_list dir) -> is_Some (dir !! z)).
    { intros z Hz. apply list_elem_of_fmap in Hz as ([k v] & -> & Hk).
      apply elem_of_map_to_list in Hk. simpl. eauto. }
    destruct (dr_only _ _ _ _ R x n (D x Hx) Ex) as [_ ->].
    now destruct (dr_only _ _ _ _ R y n (D y Hy) Ey) as [_ ->].
  - intros n. unfold seg_numbers. rewrite list_elem_of_omap, elem_of_seqZ. split.
    + intros (x & Hx & Ex). apply list_elem_of_fmap in Hx as ([k v] & -> & Hk).
      apply elem_of_map_to_list in Hk. simpl in Ex.
      destruct (dr_only _ _ _ _ R k n) as [? _]; [eauto|done|lia].
    + intros Hn. destruct (lookup_lt_is_Some_2 rot (Z.to_nat (n - 1))) as [s Hs];
        [unfold zlen in Hn; lia|].
      pose proof (dir_segment _ _ Hs). pose proof (dr_rotated _ _ _ _ R _ _ Hs) as Hd.
      replace (1 + Z.of_nat (Z.to_nat (n - 1))) with n in * by lia.
      exists (seg_name path n). split; [|now apply seg_number_name].
      apply list_elem_of_fmap. exists (seg_name path n, seg_bytes n s). split; [done|].
      now apply elem_of_map_to_list.
Qed.

Lemma has_gap_seqZ n k : has_gap (seqZ k (Z.of_nat n)) k = false.
Proof.
  revert k. induction n as [|n IH]; intros k; [done|].
  rewrite seqZ_cons by lia. cbn [has_gap]. rewrite bool_decide_false by (intros H; now apply H).
  replace (Z.pred (Z.of_nat (S n))) with (Z.of_nat n) by lia.
  replace (Z.succ k) with (k + 1) by lia. apply IH.
Qed.

Lemma StronglySorted_seqZ n k : StronglySorted Z.le (seqZ k (Z.of_nat n)).
Proof.
  revert k. induction n as [|n IH]; intros k; [constructor|].
  rewrite seqZ_cons by lia. replace (Z.pred (Z.of_nat (S n))) with (Z.of_nat n) by lia.
  constructor; [apply IH|]. apply Forall_seqZ. lia.
Qed.

(** Discovery finds the rotated segments in order and reports no gap. *)
Lemma ListSegments_rep :
  ListSegments path dir = (map (seg_name path) (seqZ 1 (zlen rot)), false).
Proof.
  unfold ListSegments.
  assert (merge_sort Z.le (seg_numbers path dir) = seqZ 1 (zlen rot)) as ->.
  { apply (StronglySorted_unique Z.le).
    - apply StronglySorted_merge_sort; apply _.
    - apply StronglySorted_seqZ.
    - rewrite merge_sort_Permutation. apply seg_numbers_perm. }
  unfold zlen. now rewrite has_gap_seqZ.
Qed.

Lemma NextSegmentID_rep : NextSegmentID path dir = 1 + zlen rot.
Proof.
  unfold NextSegmentID.
  assert (H : forall l acc, let r := fold_left (fun max n => if bool_decide (max < n) then n else max) l acc in
    acc <= r /\ (forall n, n ∈ l -> n <= r) /\ (r = acc \/ r ∈ l)).
  { induction l as [|n l IH]; intros acc; cbn [fold_left].
    - split; [lia|]. split; [|auto]. intros ? []%elem_of_nil.
    - destruct (IH (if bool_decide (acc < n) then n else acc)) as (H1 & H2 & H3).
      case_bool_decide; (split; [lia|]); split.
      1,3: intros m [->|Hm]%elem_of_cons; [lia|auto].
      + right. destruct H3 as [->|]; [left|right]; done.
      + destruct H3 as [->|]; [auto|]. right. now right. }
  destruct (H (seg_numbers path dir) 0) as (H1 & H2 & H3). cbv zeta in *.
  set (r := fold_left _ _ _) in *. setoid_rewrite seg_numbers_perm in H2.
  rewrite seg_numbers_perm in H3. setoid_rewrite elem_of_seqZ in H2. rewrite elem_of_seqZ in H3.
  pose proof (dr_count _ _ _ _ R). pose proof (zlen_nonneg rot).
  assert (r = zlen rot) as ->.
  { destruct (decide (zlen rot = 0)) as [E|E]; [lia|].
    specialize (H2 (zlen rot)). lia. }
  rewrite u64_id by (unfold is_u64; lia). lia.
Qed.

Lemma dir_seg_ok i s : rot !! i = Some s -> seg_ok s.
Proof.
  intros H. pose proof (dr_ok _ _ _ _ R) as F. apply Forall_app in F as [F _].
  exact (Forall_lookup_1 _ _ _ _ F H).
Qed.

Lemma dir_act_ok : seg_ok act.
Proof. pose proof (dr_ok _ _ _ _ R) as F. apply Forall_app in F as [_ F]. now inversion F. Qed.
End DirFacts.

Lemma replaySegment_seg id s (st : list Entry) :
  seg_ok s -> is_u64 id ->
  replaySegment collect (Some (seg_bytes id s)) st
  = (Ok (zlen (seg_bytes id s), None), st ++ seg_entries s).
Proof. intros [Hb Hf] Hid. now apply replaySegment_intact. Qed.

Lemma replay_rotated_segs path dir l : forall j c (st : list Entry),
  (forall i s, l !! i = Some s -> dir !! seg_name path (j + Z.of_nat i) = Some (seg_bytes (j + Z.of_nat i) s)) ->
  Forall seg_ok l -> 0 <= j -> j + zlen l < 2 ^ 64 ->
  replay_rotated DecodeRecords collect dir (map (seg_name path) (seqZ j (zlen l))) c st
  = (Ok c, st ++ concat (map seg_entries l)).
Proof.
  induction l as [|s l IH]; intros j c st Hd Hok Hj Hb.
  - cbn. now rewrite app_nil_r.
  - apply Forall_cons in Hok as [Hs Hok]. pose proof (zlen_nonneg l). rewrite zlen_cons in *.
    rewrite seqZ_cons by lia. cbn [map replay_rotated concat].
    pose proof (Hd 0%nat s eq_refl) as H0. rewrite Z.add_0_r in H0. rewrite H0.
    change (@replaySegment_with Entry _ DecodeRecords collect) with (replaySegment (@collect Entry)).
    rewrite replaySegment_seg by (unfold is_u64; done || lia).
    replace (Z.pred (1 + zlen l)) with (zlen l) by lia.
    rewrite IH; [now rewrite app_assoc| |done|lia|lia].
    intros i s' Hi. specialize (Hd (S i) s' Hi).
    replace (j + Z.of_nat (S i)) with (Z.succ j + Z.of_nat i) in Hd by lia. done.
Qed.

(** Replay of a well-formed directory returns the abstract log, reports no
    error and repairs nothing. *)
Lemma Replay_rep path dir rot act repair (st : list Entry) :
  dir_rep path dir rot act ->
  Replay collect path repair dir st = (Ok None, (dir, st ++ log_of rot act)).
Proof.
  intros R. unfold Replay, Replay_with. rewrite (ListSegments_rep _ _ _ _ R).
  pose proof (dr_count _ _ _ _ R). pose proof (zlen_nonneg rot).
  pose proof (dr_ok _ _ _ _ R) as F. apply Forall_app in F as [F _].
  rewrite replay_rotated_segs by (try lia; try done; apply (dr_rotated _ _ _ _ R)).
  rewrite (dr_active _ _ _ _ R).
  change (@replaySegment_with Entry _ DecodeRecords collect) with (replaySegment (@collect Entry)).
  rewrite replaySegment_seg by (try apply (dir_act_ok _ _ _ _ R); unfold is_u64; lia).
  unfold log_of. now rewrite app_assoc.
Qed.

(** ** The writer *)

(** The writer stands on a well-formed directory, its buffered records
    encode [pend], and the file system does not fail. *)
Record wal_rep (w : WAL) (fs : FS) (rot : list seg) (act : seg) (pend : list Entry) : Prop := {
  wr_dir : dir_rep (w_path w) (fs_dir fs) rot act;
  wr_open : w_f w = FileOpen;
  wr_faults : fs_faults fs = [];
  wr_blockSize : w_blockSize w = sg_blockSize act;
  wr_segmentID : w_segmentID w = 1 + zlen rot;
  wr_records : w_records w = map NewRecordBuffer pend;
  wr_blockLen : w_blockLen w = zlen (concat (map EncodeEntry pend));
  wr_fits : zlen (concat (map EncodeEntry pend)) <= w_blockSize w;
  wr_pend : Forall Entry_wf pend
}.

(** The configuration operations never change. *)
Definition same_config (w w' : WAL) : Prop :=
  w_path w' = w_path w /\ w_sync w' = w_sync w /\ w_maxBytes w' = w_maxBytes w /\
  w_maxRecord w' = w_maxRecord w /\ w_blockSize w' = w_blockSize w /\
  w_async w' = w_async w /\ w_batchMax w' = w_batchMax w /\ w_repairOnReplay w' = w_repairOnReplay w.

#[export] Instance same_config_preorder : PreOrder same_config.
Proof. split; unfold same_config; [done|]. intros a b c; intuition congruence. Qed.

Definition add_block (es : list Entry) (s : seg) : seg :=
  mkSeg (sg_blockSize s) (sg_created s) (sg_blocks s ++ [es]).

Lemma seg_bytes_add_block id s es :
  seg_bytes id (add_block es s) = seg_bytes id s ++ WriteBlock (map NewRecordBuffer es).
Proof.
  unfold seg_bytes, segment_file, add_block, encode_blocks. cbn [sg_blockSize sg_created sg_blocks].
  rewrite map_app, concat_app, <- app_assoc. cbn. now rewrite app_nil_r.
Qed.

Lemma log_of_add_block rot s es : log_of rot (add_block es s) = log_of rot s ++ es.
Proof.
  unfold log_of, seg_entries, add_block; cbn [sg_blocks].
  rewrite concat_app. cbn. now rewrite app_nil_r, app_assoc.
Qed.

Lemma dir_rep_write path dir rot act es :
  dir_rep path dir rot act -> fits_block (sg_blockSize act) es ->
  dir_rep path (<[path := seg_bytes (1 + zlen rot) act ++ WriteBlock (map NewRecordBuffer es)]> dir)
    rot (add_block es act).
Proof.
  intros R Hf. split.
  - now rewrite lookup_insert_eq, seg_bytes_add_block.
  - intros i s Hi. rewrite lookup_insert_ne; [now apply (dr_rotated _ _ _ _ R)|].
    apply not_eq_sym, seg_name_ne_path, (dir_segment _ _ _ _ R _ _ Hi).
  - intros name n Hn E. destruct (decide (name = path)) as [->|].
    + now rewrite seg_number_path in E.
    + rewrite lookup_insert_ne in Hn by done. now apply (dr_only _ _ _ _ R).
  - pose proof (dr_ok _ _ _ _ R) as F. apply Forall_app in F as [F Fa].
    apply Forall_app. split; [done|]. inversion Fa as [|? ? [Hb Hbl]]; subst.
    constructor; [|constructor]. split; [exact Hb|]. apply Forall_app. auto.
  - apply (dr_count _ _ _ _ R).
Qed.

(** Rotation renames the active file and starts an empty one. *)
Lemma dir_rep_rotate path dir rot act bs now :
  dir_rep path dir rot act -> is_u32 bs -> 2 + zlen rot < 2 ^ 63 ->
  dir_rep path
    (<[path := WriteSegmentHeader bs (2 + zlen rot) now]>
       (<[seg_name path (1 + zlen rot) := seg_bytes (1 + zlen rot) act]> (delete path dir)))
    (rot ++ [act]) (mkSeg bs now []).
Proof.
  intros R Hb Hc. pose proof (zlen_nonneg rot).
  assert (Hne : seg_name path (1 + zlen rot) <> path) by (apply seg_name_ne_path; lia).
  split.
  - rewrite lookup_insert_eq. unfold seg_bytes, segment_file. cbn [sg_blockSize sg_created sg_blocks].
    change (encode_blocks []) with (@nil byte). rewrite app_nil_r, zlen_app, zlen_cons, zlen_nil.
    replace (1 + (zlen rot + (1 + 0))) with (2 + zlen rot) by lia. reflexivity.
  - intros i s Hi. apply lookup_app_Some in Hi as [Hi|[Hge Hi]].
    + pose proof (dir_segment _ _ _ _ R _ _ Hi). pose proof (lookup_lt_Some _ _ _ Hi).
      rewrite lookup_insert_ne by (apply not_eq_sym, seg_name_ne_path; lia).
      rewrite lookup_insert_ne.
      2:{ intros E. apply seg_name_inj in E; unfold zlen in *; lia. }
      rewrite lookup_delete_ne by (apply not_eq_sym, seg_name_ne_path; lia).
      now apply (dr_rotated _ _ _ _ R).
    + destruct (i - length rot)%nat eqn:Ei; [|done]. cbn in Hi. injection Hi as <-.
      assert (Z.of_nat i = zlen rot) as -> by (unfold zlen; lia).
      rewrite lookup_insert_ne by done. now rewrite lookup_insert_eq.
  - intros name n Hn E. rewrite zlen_app, zlen_cons, zlen_nil.
    destruct (decide (name = path)) as [->|]; [now rewrite seg_number_path in E|].
    rewrite lookup_insert_ne in Hn by done.
    destruct (decide (name = seg_name path (1 + zlen rot))) as [->|].
    + rewrite seg_number_name in E by lia. injection E as <-. split; [lia|done].
    + rewrite lookup_insert_ne, lookup_delete_ne in Hn by done.
      destruct (dr_only _ _ _ _ R _ _ Hn E). split; [lia|done].
  - apply Forall_app. split; [apply (dr_ok _ _ _ _ R)|]. constructor; [|constructor].
    split; [done|constructor].
  - rewrite zlen_app, zlen_cons, zlen_nil. lia.
Qed.

Lemma log_of_rotate rot act bs now : log_of (rot ++ [act]) (mkSeg bs now []) = log_of rot act.
Proof.
  unfold log_of, seg_entries. rewrite map_app, concat_app. cbn. now rewrite !app_nil_r.
Qed.

Lemma io_may_fail_ok e w fs : fs_faults fs = [] -> io_may_fail e (w, fs) = (Ok tt, (w, fs)).
Proof. intros H. unfold io_may_fail. now rewrite fs_pop_ok. Qed.

Lemma file_close_ok e w fs :
  w_f w = FileOpen -> fs_faults fs = [] ->
  file_close e (w, fs) = (Ok tt, (with_f FileClosed w, fs)).
Proof.
  intros Ho Hf. unfold file_close. rewrite SE_get_bind; cbv beta iota. rewrite Ho, bool_decide_true by done.
  now apply io_may_fail_ok.
Qed.

Lemma file_sync_ok w fs :
  w_f w = FileOpen -> fs_faults fs = [] -> file_sync (w, fs) = (Ok tt, (w, fs)).
Proof.
  intros Ho Hf. unfold file_sync. rewrite SE_get_bind; cbv beta iota. rewrite Ho, bool_decide_true by done. now apply io_may_fail_ok.
Qed.

(** The configuration and the representation after a rotation. *)
Lemma rotate_ok w fs f :
  w_f w = FileOpen -> fs_faults fs = [] -> fs_dir fs !! w_path w = Some f ->
  rotate (w, fs) =
  (Ok tt,
   (with_size SegmentHeaderSize (with_f FileOpen
      (with_segmentID (u64 (w_segmentID w + 1)) (with_f FileClosed w))),
    with_dir
      (<[w_path w := WriteSegmentHeader (w_blockSize w) (u64 (w_segmentID w + 1)) (fs_now fs)]>
         (<[seg_name (w_path w) (w_segmentID w) := f]> (delete (w_path w) (fs_dir fs)))) fs)).
Proof.
  intros Ho Hf Hd. unfold rotate.
  rewrite SE_get_bind; cbv beta iota. rewrite Ho, bool_decide_false by done.
  rewrite (SE_bind_Ok _ _ _ _ _ (file_close_ok _ _ _ Ho Hf)).
  rewrite (SE_bind_Ok _ _ _ _ _ (io_may_fail_ok _ _ _ Hf)).
  erewrite SE_bind_Ok by reflexivity. cbn [w_path with_f with_segmentID].
  unfold fs_rename. rewrite Hd.
  set (w1 := with_segmentID _ _). set (fs1 := with_dir _ fs).
  assert (Hf1 : fs_faults fs1 = []) by done.
  rewrite (SE_bind_Ok _ _ _ _ _ (io_may_fail_ok _ _ _ Hf1)).
  erewrite SE_bind_Ok by reflexivity.
  rewrite SE_get_bind; cbv beta iota.
  rewrite (fs_write_ok _ _ _ []) by (done || apply lookup_insert_eq).
  cbn [app]. erewrite SE_bind_Ok by reflexivity. cbn [negb].
  subst fs1 w1. unfold with_dir; cbn. rewrite insert_insert_eq. reflexivity.
Qed.

Definition segment_room (rot : list seg) (k : Z) : Prop := k + zlen rot < 2 ^ 63.

Lemma rotate_rep w fs rot act :
  wal_rep w fs rot act [] -> segment_room rot 2 ->
  exists w' fs' act', rotate (w, fs) = (Ok tt, (w', fs')) /\
    wal_rep w' fs' (rot ++ [act]) act' [] /\ same_config w w' /\
    log_of (rot ++ [act]) act' = log_of rot act.
Proof.
  intros W Hroom. pose proof (wr_dir _ _ _ _ _ W) as R. pose proof (zlen_nonneg rot).
  destruct (dir_act_ok _ _ _ _ R) as [Hb _]. unfold segment_room in Hroom.
  pose proof (wr_segmentID _ _ _ _ _ W) as Hid.
  assert (Hid' : u64 (w_segmentID w + 1) = 2 + zlen rot)
    by (rewrite Hid, u64_id; unfold is_u64; lia).
  rewrite (rotate_ok w fs _ (wr_open _ _ _ _ _ W) (wr_faults _ _ _ _ _ W) (dr_active _ _ _ _ R)).
  eexists _, _, (mkSeg (w_blockSize w) (fs_now fs) []). split; [reflexivity|].
  split; [|split; [done|apply log_of_rotate]].
  split; cbn; try done; try apply W.
  - rewrite Hid', Hid. apply dir_rep_rotate; [done| |lia].
    now rewrite (wr_blockSize _ _ _ _ _ W).
  - rewrite zlen_app, zlen_cons, zlen_nil. lia.
Qed.

(** Flushing makes the pending entries part of the log. *)
Lemma flushBlock_rep w fs rot act pend :
  wal_rep w fs rot act pend -> segment_room rot 2 ->
  exists w' fs' rot' act', flushBlock (w, fs) = (Ok tt, (w', fs')) /\
    wal_rep w' fs' rot' act' [] /\ same_config w w' /\
    log_of rot' act' = log_of rot act ++ pend /\ zlen rot' <= zlen rot + 1.
Proof.
  intros W Hroom. unfold flushBlock. rewrite SE_get_bind; cbv beta iota.
  pose proof (wr_dir _ _ _ _ _ W) as R. destruct (dir_act_ok _ _ _ _ R) as [Hb _].
  destruct (decide (pend = [])) as [->|Hne].
  { rewrite bool_decide_true by apply W. exists w, fs, rot, act.
    rewrite app_nil_r. split; [done|]. split; [done|]. split; [reflexivity|]. split; [done|lia]. }
  assert (Hfit : fits_block (sg_blockSize act) pend).
  { split; [apply W|]. split; [done|]. rewrite <- (wr_blockSize _ _ _ _ _ W).
    pose proof (wr_fits _ _ _ _ _ W). pose proof (zlen_nonneg (concat (map EncodeEntry pend))).
    rewrite <- (wr_blockSize _ _ _ _ _ W) in Hb. unfold is_u32 in *. lia. }
  rewrite bool_decide_false.
  2:{ rewrite (wr_blockLen _ _ _ _ _ W). destruct pend as [|e pend]; [done|].
      cbn [map concat]. rewrite zlen_app. pose proof (EncodeEntry_length e).
      pose proof (zlen_nonneg (concat (map EncodeEntry pend))).
      unfold RecordHeaderSize, RecordCRCSize in *. lia. }
  rewrite bool_decide_true by apply W.
  rewrite (fs_write_ok _ _ _ _ (wr_faults _ _ _ _ _ W) (dr_active _ _ _ _ R)).
  rewrite (wr_records _ _ _ _ _ W).
  erewrite SE_bind_Ok by reflexivity. cbn [negb]. erewrite SE_bind_Ok by reflexivity.
  set (w1 := with_records _ _ _). set (fs1 := with_dir _ _).
  assert (W1 : wal_rep w1 fs1 rot (add_block pend act) []).
  { split; try done; try apply W.
    - now apply dir_rep_write.
    - change (0 <= w_blockSize w). rewrite (wr_blockSize _ _ _ _ _ W). apply Hb. }
  assert (C1 : same_config w w1) by done.
  case_bool_decide.
  - destruct (rotate_rep _ _ _ _ W1 Hroom) as (w2 & fs2 & act2 & -> & W2 & C2 & L2).
    exists w2, fs2, (rot ++ [add_block pend act]), act2. split; [reflexivity|]. split; [exact W2|].
    split; [exact (transitivity C1 C2)|].
    rewrite L2, log_of_add_block, zlen_app, zlen_cons, zlen_nil. split; [done|lia].
  - exists w1, fs1, rot, (add_block pend act). split; [reflexivity|]. split; [exact W1|]. split; [done|].
    rewrite log_of_add_block. split; [done|lia].
Qed.

(** ** What is accepted *)

Lemma ValidateEntry_config w w' e : same_config w w' -> ValidateEntry w' e = ValidateEntry w e.
Proof. intros (_ & _ & _ & H1 & H2 & _). unfold ValidateEntry. now rewrite H1, H2. Qed.

(** An accepted entry with a 64-bit sequence number can be framed. *)
Lemma ValidateEntry_wf w e :
  ValidateEntry w e = Ok tt -> is_u64 (Seq e) -> is_u32 (w_blockSize w) ->
  Entry_wf e /\ zlen (EncodeEntry e) <= w_blockSize w.
Proof.
  unfold ValidateEntry. intros H Hs Hb.
  do 2 (case_bool_decide; [done|]). case_bool_decide as Ht; [done|].
  unfold EncodeEntry. rewrite zlen_buffers. rewrite EncodeEntry_Total in *.
  pose proof (zlen_nonneg (Key e)). pose proof (zlen_nonneg (Value e)).
  unfold Entry_wf, is_u32, RecordHeaderSize, RecordCRCSize in *. repeat split; lia || apply Hs.
Qed.

Lemma ValidateEntry_errors w e :
  ValidateEntry w e = Ok tt \/ exists err, ValidateEntry w e = Err err /\ isFatalAppendError err = false.
Proof.
  unfold ValidateEntry. repeat (case_bool_decide; [right; eexists; split; [reflexivity|reflexivity]|]).
  auto.
Qed.

(** ** The writer refines an append-only log *)

(** The log on disk and the buffered entries, with at most [k] rotated
    segments. *)
Definition wal_state (w : WAL) (fs : FS) (log pend : list Entry) (k : Z) : Prop :=
  exists rot act, wal_rep w fs rot act pend /\ log = log_of rot act /\ zlen rot <= k.

Lemma wal_state_le w fs log pend k k' :
  k <= k' -> wal_state w fs log pend k -> wal_state w fs log pend k'.
Proof. intros Hk (rot & act & W & L & H). exists rot, act. split; [done|]. split; [done|lia]. Qed.

Lemma flushBlock_state w fs log pend k :
  wal_state w fs log pend k -> k + 2 < 2 ^ 63 ->
  exists w' fs', flushBlock (w, fs) = (Ok tt, (w', fs')) /\
    wal_state w' fs' (log ++ pend) [] (k + 1) /\ same_config w w'.
Proof.
  intros (rot & act & W & -> & Hk) Hroom.
  destruct (flushBlock_rep w fs rot act pend W) as (w' & fs' & rot' & act' & E & W' & C & L & Hr);
    [unfold segment_room; lia|].
  exists w', fs'. split; [done|]. split; [|done]. exists rot', act'. rewrite L. split; [done|].
  split; [done|lia].
Qed.

Lemma wal_state_blockSize w fs log pend k : wal_state w fs log pend k -> is_u32 (w_blockSize w).
Proof.
  intros (rot & act & W & _ & _). rewrite (wr_blockSize _ _ _ _ _ W).
  apply (dir_act_ok _ _ _ _ (wr_dir _ _ _ _ _ W)).
Qed.

Lemma buffer_state w fs log pend k e :
  wal_state w fs log pend k -> Entry_wf e ->
  w_blockLen w + Total (NewRecordBuffer e) <= w_blockSize w ->
  wal_state (with_records (w_records w ++ [NewRecordBuffer e])
               (w_blockLen w + Total (NewRecordBuffer e)) w) fs log (pend ++ [e]) k.
Proof.
  intros (rot & act & W & -> & Hk) He Hfit. exists rot, act.
  assert (Hlen : zlen (concat (map EncodeEntry (pend ++ [e])))
                 = w_blockLen w + Total (NewRecordBuffer e)).
  { rewrite map_app, concat_app, zlen_app, (wr_blockLen _ _ _ _ _ W). cbn [map concat].
    rewrite app_nil_r. unfold EncodeEntry. now rewrite zlen_buffers. }
  split; [|done]. split; try apply W.
  - cbn [w_records with_records]. now rewrite (wr_records _ _ _ _ _ W), map_app.
  - now rewrite Hlen.
  - now rewrite Hlen.
  - apply Forall_app. split; [apply W|auto].
Qed.

Lemma appendLocked_rejects w fs log pend k e err :
  wal_state w fs log pend k -> ValidateEntry w e = Err err ->
  appendLocked e (w, fs) = (Err err, (w, fs)).
Proof.
  intros (rot & act & W & _) Hv. unfold appendLocked. rewrite SE_get_bind; cbv beta iota.
  rewrite (wr_open _ _ _ _ _ W), bool_decide_false by done. rewrite Hv. reflexivity.
Qed.

Lemma appendLocked_state w fs log pend k e :
  wal_state w fs log pend k -> k + 2 < 2 ^ 63 -> is_u64 (Seq e) -> ValidateEntry w e = Ok tt ->
  exists w' fs' log' pend', appendLocked e (w, fs) = (Ok tt, (w', fs')) /\
    wal_state w' fs' log' pend' (k + 1) /\ same_config w w' /\ log' ++ pend' = log ++ pend ++ [e].
Proof.
  intros S Hk Hs Hv. pose proof (wal_state_blockSize _ _ _ _ _ S) as Hb.
  destruct (ValidateEntry_wf w e Hv Hs Hb) as [Hwf Hlen].
  unfold EncodeEntry in Hlen. rewrite zlen_buffers in Hlen.
  assert (Hopen : w_f w = FileOpen) by (destruct S as (? & ? & W & _); apply W).
  assert (Hbl : w_blockLen w = zlen (concat (map EncodeEntry pend)))
    by (destruct S as (? & ? & W & _); apply W).
  pose proof (zlen_nonneg (concat (map EncodeEntry pend))).
  unfold appendLocked. rewrite SE_get_bind; cbv beta iota.
  rewrite Hopen, bool_decide_false by done. rewrite Hv.
  erewrite SE_bind_Ok by reflexivity.
  case_bool_decide as Hfull.
  - destruct (flushBlock_state _ _ _ _ _ S Hk) as (w1 & fs1 & E1 & S1 & C1).
    rewrite (SE_bind_Ok _ _ _ _ _ E1). unfold modify.
    assert (Hbl1 : w_blockLen w1 = 0) by (destruct S1 as (? & ? & W & _); apply W).
    eexists _, _, (log ++ pend), ([] ++ [e]). split; [reflexivity|]. split.
    + apply buffer_state; [done|done|]. destruct C1 as (_ & _ & _ & _ & -> & _). lia.
    + split; [exact C1|]. now rewrite app_nil_l, <- app_assoc.
  - erewrite SE_bind_Ok by reflexivity. unfold modify.
    eexists _, _, log, (pend ++ [e]). split; [reflexivity|]. split; [|done].
    eapply wal_state_le; [|apply buffer_state; [exact S|done|]]; lia.
Qed.

Lemma append_rejects w fs log k e err :
  wal_state w fs log [] k -> ValidateEntry w e = Err err ->
  append e (w, fs) = (Err err, (w, fs)).
Proof.
  intros S Hv. unfold append. unfold mbind at 1, SE_bind at 1.
  now rewrite (appendLocked_rejects _ _ _ _ _ _ _ S Hv).
Qed.

Lemma append_accepts w fs log k e :
  wal_state w fs log [] k -> k + 3 < 2 ^ 63 -> is_u64 (Seq e) -> ValidateEntry w e = Ok tt ->
  exists w' fs', append e (w, fs) = (Ok tt, (w', fs')) /\
    wal_state w' fs' (log ++ [e]) [] (k + 2) /\ same_config w w'.
Proof.
  intros S Hk Hs Hv. unfold append.
  destruct (appendLocked_state _ _ _ _ _ _ S ltac:(lia) Hs Hv)
    as (w1 & fs1 & log1 & pend1 & E1 & S1 & C1 & L1).
  rewrite (SE_bind_Ok _ _ _ _ _ E1).
  destruct (flushBlock_state _ _ _ _ _ S1 ltac:(lia)) as (w2 & fs2 & E2 & S2 & C2).
  rewrite (SE_bind_Ok _ _ _ _ _ E2), SE_get_bind; cbv beta iota.
  exists w2, fs2. split.
  - destruct (w_sync w2); [|done]. destruct S2 as (rot & act & W & _).
    apply file_sync_ok; apply W.
  - rewrite L1 in S2. split; [|exact (transitivity C1 C2)].
    eapply wal_state_le; [|exact S2]. lia.
Qed.

(** ** Batches *)

Definition verdict (w : WAL) (e : Entry) : option error :=
  match ValidateEntry w e with Err err => Some err | _ => None end.

Definition accepted (w : WAL) (batch : list Entry) : list Entry :=
  filter (fun e => verdict w e = None) batch.

Lemma verdict_config w w' e : same_config w w' -> verdict w' e = verdict w e.
Proof. intros C. unfold verdict. now rewrite (ValidateEntry_config _ _ _ C). Qed.

Lemma accepted_config w w' batch : same_config w w' -> accepted w' batch = accepted w batch.
Proof.
  intros C. unfold accepted. apply list_filter_iff. intros e. now rewrite (verdict_config _ _ _ C).
Qed.

Lemma append_batch_state batch : forall w fs log pend k,
  wal_state w fs log pend k -> k + zlen batch + 2 < 2 ^ 63 -> Forall (fun e => is_u64 (Seq e)) batch ->
  exists w' fs' log' pend',
    append_batch batch None (w, fs) = (Ok (map (verdict w) batch, None), (w', fs')) /\
    wal_state w' fs' log' pend' (k + zlen batch) /\ same_config w w' /\
    log' ++ pend' = log ++ pend ++ accepted w batch.
Proof.
  induction batch as [|e batch IH]; intros w fs log pend k S Hk Hs.
  - exists w, fs, log, pend. split; [done|]. rewrite zlen_nil, Z.add_0_r.
    split; [done|]. split; [reflexivity|]. now rewrite app_nil_r.
  - apply Forall_cons in Hs as [He Hs]. rewrite zlen_cons in *. pose proof (zlen_nonneg batch).
    cbn [append_batch].
    destruct (ValidateEntry_errors w e) as [Hv|(err & Hv & Hnf)].
    + destruct (appendLocked_state _ _ _ _ _ _ S ltac:(lia) He Hv)
        as (w1 & fs1 & log1 & pend1 & E1 & S1 & C1 & L1).
      rewrite (SE_bind_Ok _ _ _ None (w1, fs1)) by (unfold catch; now rewrite E1).
      destruct (IH _ _ _ _ _ S1 ltac:(lia) Hs) as (w2 & fs2 & log2 & pend2 & E2 & S2 & C2 & L2).
      rewrite (SE_bind_Ok _ _ _ _ _ E2). exists w2, fs2, log2, pend2.
      assert (Hve : verdict w e = None) by (unfold verdict; now rewrite Hv).
      split; [|split; [eapply wal_state_le; [|exact S2]; lia|split; [exact (transitivity C1 C2)|]]].
      * cbn [map]. rewrite Hve.
        rewrite (map_ext (verdict w1) (verdict w)) by (intros; apply verdict_config, C1). done.
      * rewrite L2, (accepted_config _ _ _ C1). unfold accepted.
        rewrite filter_cons_True by done. rewrite app_assoc, L1, <- !app_assoc. reflexivity.
    + rewrite (SE_bind_Ok _ _ _ (Some err) (w, fs))
        by (unfold catch; now rewrite (appendLocked_rejects _ _ _ _ _ _ _ S Hv)).
      rewrite Hnf.
      destruct (IH _ _ _ _ _ S ltac:(lia) Hs) as (w2 & fs2 & log2 & pend2 & E2 & S2 & C2 & L2).
      rewrite (SE_bind_Ok _ _ _ _ _ E2). exists w2, fs2, log2, pend2.
      assert (Hve : verdict w e = Some err) by (unfold verdict; now rewrite Hv).
      split; [cbn [map]; now rewrite Hve|].
      split; [eapply wal_state_le; [|exact S2]; lia|]. split; [done|].
      rewrite L2. unfold accepted. rewrite filter_cons_False by congruence. done.
Qed.

Lemma processBatch_state batch sync w fs log k :
  wal_state w fs log [] k -> k + zlen batch + 3 < 2 ^ 63 -> Forall (fun e => is_u64 (Seq e)) batch ->
  exists w' fs',
    processBatch batch sync (w, fs) = (Ok (map (verdict w) batch, None), (w', fs')) /\
    wal_state w' fs' (log ++ accepted w batch) [] (k + zlen batch + 1) /\ same_config w w'.
Proof.
  intros S Hk Hs. pose proof (zlen_nonneg batch). unfold processBatch.
  destruct (append_batch_state batch _ _ _ _ _ S ltac:(lia) Hs)
    as (w1 & fs1 & log1 & pend1 & E1 & S1 & C1 & L1).
  rewrite (SE_bind_Ok _ _ _ _ _ E1).
  destruct (flushBlock_state _ _ _ _ _ S1 ltac:(lia)) as (w2 & fs2 & E2 & S2 & C2).
  exists w2, fs2. rewrite L1 in S2. split; [|split; [done|exact (transitivity C1 C2)]].
  assert (F : fs_faults fs2 = [] /\ w_f w2 = FileOpen)
    by (destruct S2 as (? & ? & W & _); split; apply W).
  rewrite (SE_bind_Ok _ _ _ None (w2, fs2)); [done|].
  rewrite (SE_bind_Ok _ _ _ None (w2, fs2)) by (unfold catch; now rewrite E2).
  destruct sync; [|done]. unfold catch. now rewrite file_sync_ok by apply F.
Qed.

(** Replay gives back the log. *)
Lemma Replay_state w fs log k repair st :
  wal_state w fs log [] k ->
  Replay collect (w_path w) repair (fs_dir fs) st = (Ok None, (fs_dir fs, st ++ log)).
Proof. intros (rot & act & W & -> & _). apply Replay_rep, W. Qed.

(** ** Opening *)

Definition no_wal_files (path : string) (dir : Dir) : Prop :=
  dir !! path = None /\
  forall name, is_Some (dir !! name) -> seg_number path name = None.

Lemma no_wal_files_numbers path dir f :
  no_wal_files path dir -> seg_numbers path (<[path := f]> dir) = [].
Proof.
  intros [_ Hno]. apply elem_of_nil_inv. intros n Hn.
  apply list_elem_of_omap in Hn as (x & Hx & Ex).
  apply list_elem_of_fmap in Hx as ([k v] & -> & Hk). apply elem_of_map_to_list in Hk. simpl in Ex.
  destruct (decide (k = path)) as [->|Hne]; [now rewrite seg_number_path in Ex|].
  rewrite lookup_insert_ne in Hk by done. rewrite Hno in Ex by eauto. done.
Qed.

Lemma dir_rep_fresh path dir bs now :
  no_wal_files path dir -> is_u32 bs ->
  dir_rep path (<[path := WriteSegmentHeader bs 1 now]> dir) [] (mkSeg bs now []).
Proof.
  intros [_ Hno] Hb. split.
  - rewrite lookup_insert_eq. unfold seg_bytes, segment_file. cbn [sg_blockSize sg_created sg_blocks].
    change (encode_blocks []) with (@nil byte). now rewrite app_nil_r.
  - intros i s Hi. now rewrite lookup_nil in Hi.
  - intros name n Hn E. destruct (decide (name = path)) as [->|]; [now rewrite seg_number_path in E|].
    rewrite lookup_insert_ne in Hn by done. now rewrite Hno in E.
  - constructor; [|constructor]. split; [done|constructor].
  - done.
Qed.

(** What [NewWAL] does when no call fails: the header decision on the file
    found, everything else from the options. *)
Lemma NewWAL_opens opts fs :
  fs_faults fs = [] -> opt_Path opts <> EmptyString -> MinBlockSize <= opt_BlockSize opts ->
  let path := opt_Path opts in
  let f := default [] (fs_dir fs !! path) in
  let dir := <[path := f]> (fs_dir fs) in
  let id := NextSegmentID path dir in
  let mk bs id f' := mkWAL FileOpen path (opt_Sync opts) (opt_MaxSegment opts) (zlen f')
    (opt_MaxRecordBytes opts) bs id [] 0 (opt_Async opts) (opt_BatchMax opts) (opt_RepairOnReplay opts) in
  NewWAL opts fs =
  let '(bs, id, f', ok) :=
    if bool_decide (zlen f = 0)
    then (opt_BlockSize opts, id, WriteSegmentHeader (opt_BlockSize opts) id (fs_now fs), true)
    else let '(bs, id) := match ReadSegmentHeader f with
                          | (Ok hdr, _) => (BlockSize hdr, SegmentID hdr)
                          | _ => (opt_BlockSize opts, id)
                          end in (bs, id, f, bool_decide (MinBlockSize <= bs)) in
  let fs' := with_dir (<[path := f']> (fs_dir fs)) fs in
  if negb ok then (Err err_block_size, fs')
  else if bool_decide (0 < opt_MaxRecordBytes opts /\ bs < opt_MaxRecordBytes opts)
  then (Err err_max_record, fs') else (Ok (mk bs id f'), fs').
Proof.
  intros Hf Hp Hmin path f dir id mk. unfold MinBlockSize, RecordHeaderSize, RecordCRCSize in Hmin.
  unfold NewWAL. rewrite bool_decide_false by done. fold path.
  rewrite (bool_decide_false (opt_BlockSize opts = 0)) by lia.
  rewrite bool_decide_false by (unfold MinBlockSize, RecordHeaderSize, RecordCRCSize; lia).
  do 2 rewrite (SE_bind_Ok _ _ _ _ _ (fs_may_fail_ok _ fs Hf)).
  erewrite SE_bind_Ok by reflexivity. fold f dir.
  set (fs1 := with_dir dir fs). assert (Hf1 : fs_faults fs1 = []) by done.
  rewrite (SE_bind_Ok _ _ _ _ _ (fs_may_fail_ok _ fs1 Hf1)), SE_get_bind.
  assert (Hl : fs_dir fs1 !! path = Some f) by apply lookup_insert_eq.
  rewrite Hl. cbn [default from_option]. change (fs_dir fs1) with dir. fold id.
  case_bool_decide as Hz.
  - pose proof (zlen_0_inv f Hz) as Hnil.
    rewrite (fs_write_ok path _ fs1 f Hf1 Hl), Hnil. cbn [app].
    erewrite SE_bind_Ok by (erewrite SE_bind_Ok by reflexivity; reflexivity). cbv beta iota. cbn [negb].
    change (fs_dir fs1) with dir. unfold dir. unfold with_dir at 1 2. cbn [fs_dir fs_faults fs_now fs1 with_dir].
    rewrite !insert_insert_eq, (bool_decide_true (zlen [] = 0)) by done. cbv beta iota. cbn [negb].
    case_bool_decide; [done|]. rewrite SE_get_bind. cbn [fs_dir]. now rewrite lookup_insert_eq.
  - change (Datatypes.id f) with f in *. rewrite (bool_decide_false (zlen f = 0)) by done.
    destruct (match ReadSegmentHeader f with (Ok hdr, _) => _ | _ => _ end) as [bs id'].
    rewrite (bool_decide_ext (MinBlockSize <= bs) (~ bs < MinBlockSize)) by lia.
    destruct (decide (bs < MinBlockSize)) as [Hlt|Hge].
    + rewrite (bool_decide_true (bs < _)), (bool_decide_false (~ _)) by tauto. done.
    + rewrite (bool_decide_false (bs < _)), (bool_decide_true (~ _)) by tauto. cbn [negb].
      erewrite SE_bind_Ok by reflexivity. cbv beta iota.
      case_bool_decide; [done|]. rewrite SE_get_bind. now rewrite Hl.
Qed.

(** Opening in a directory without WAL files starts an empty log. *)
Lemma NewWAL_fresh opts fs :
  fs_faults fs = [] -> opt_Path opts <> EmptyString -> no_wal_files (opt_Path opts) (fs_dir fs) ->
  MinBlockSize <= opt_BlockSize opts -> is_u32 (opt_BlockSize opts) ->
  opt_MaxRecordBytes opts <= opt_BlockSize opts ->
  exists w fs', NewWAL opts fs = (Ok w, fs') /\ wal_state w fs' [] [] 0 /\
    w_path w = opt_Path opts /\ w_blockSize w = opt_BlockSize opts.
Proof.
  intros Hf Hp Hno Hmin Hbs Hmax. rewrite NewWAL_opens by done. cbv zeta.
  rewrite (proj1 Hno). cbn [default from_option]. rewrite (bool_decide_true (zlen [] = 0)) by done.
  cbn [negb]. rewrite bool_decide_false by lia.
  assert (NextSegmentID (opt_Path opts) (<[opt_Path opts := []]> (fs_dir fs)) = 1) as ->
    by (unfold NextSegmentID; now rewrite no_wal_files_numbers).
  eexists _, _. split; [reflexivity|]. split; [|done].
  exists [], (mkSeg (opt_BlockSize opts) (fs_now fs) []).
  split; [|done]. split; try done; [now apply dir_rep_fresh|].
  change (0 <= opt_BlockSize opts). apply Hbs.
Qed.

Lemma ReadSegmentHeader_seg id s :
  is_u32 (sg_blockSize s) -> is_u64 id ->
  ReadSegmentHeader (seg_bytes id s)
  = (Ok (mkSegmentHeader recordVersion (sg_blockSize s) id (u64 (sg_created s))),
     encode_blocks (sg_blocks s)).
Proof. intros. now apply segment_file_header. Qed.

(** Reopening an existing log keeps it, and the block size of its header. *)
Lemma NewWAL_reopen opts fs rot act :
  fs_faults fs = [] -> opt_Path opts <> EmptyString -> MinBlockSize <= opt_BlockSize opts ->
  dir_rep (opt_Path opts) (fs_dir fs) rot act -> MinBlockSize <= sg_blockSize act ->
  opt_MaxRecordBytes opts <= sg_blockSize act ->
  exists w fs', NewWAL opts fs = (Ok w, fs') /\
    wal_state w fs' (log_of rot act) [] (zlen rot) /\
    w_path w = opt_Path opts /\ w_blockSize w = sg_blockSize act.
Proof.
  intros Hf Hp Hmin R Hbs Hmax. rewrite NewWAL_opens by done. cbv zeta.
  pose proof (dr_count _ _ _ _ R). pose proof (zlen_nonneg rot).
  destruct (dir_act_ok _ _ _ _ R) as [Hb _].
  rewrite (dr_active _ _ _ _ R). cbn [default from_option].
  assert (Hz : zlen (seg_bytes (1 + zlen rot) act) <> 0).
  { unfold seg_bytes, segment_file. rewrite zlen_app, zlen_WriteSegmentHeader.
    pose proof (zlen_nonneg (encode_blocks (sg_blocks act))). unfold SegmentHeaderSize. lia. }
  rewrite (bool_decide_false (_ = 0)) by done.
  unfold Datatypes.id.
  rewrite ReadSegmentHeader_seg by (unfold is_u64; done || lia).
  cbn [BlockSize SegmentID]. rewrite (bool_decide_true (MinBlockSize <= _)) by done. cbn [negb].
  rewrite bool_decide_false by lia.
  eexists _, _. split; [reflexivity|]. split; [|done]. exists rot, act. split; [|split; [done|lia]].
  split; try done; cbn [w_path fs_dir with_dir w_blockSize].
  - now rewrite insert_id by apply R.
  - change (zlen (concat (map EncodeEntry []))) with 0. unfold is_u32 in Hb. lia.
Qed.

(** ** Sessions *)

(** A client that appends entries one by one and keeps every answer. *)
Fixpoint append_all (es : list Entry) : M (list (option error)) :=
  match es with
  | [] => mret []
  | e :: es =>
      err ← catch (append e);
      errs ← append_all es;
      mret (err :: errs)
  end.

Lemma append_all_state es : forall w fs log k,
  wal_state w fs log [] k -> k + 2 * zlen es + 3 < 2 ^ 63 -> Forall (fun e => is_u64 (Seq e)) es ->
  exists w' fs', append_all es (w, fs) = (Ok (map (verdict w) es), (w', fs')) /\
    wal_state w' fs' (log ++ accepted w es) [] (k + 2 * zlen es) /\ same_config w w'.
Proof.
  induction es as [|e es IH]; intros w fs log k S Hk Hs.
  - exists w, fs. split; [done|]. rewrite (@zlen_nil Entry), app_nil_r. split; [|reflexivity].
    eapply wal_state_le; [|exact S]. lia.
  - apply Forall_cons in Hs as [He Hs]. rewrite zlen_cons in *. pose proof (zlen_nonneg es).
    cbn [append_all map].
    destruct (ValidateEntry_errors w e) as [Hv|(err & Hv & _)].
    + destruct (append_accepts _ _ _ _ _ S ltac:(lia) He Hv) as (w1 & fs1 & E1 & S1 & C1).
      rewrite (SE_bind_Ok _ _ _ None (w1, fs1)) by (unfold catch; now rewrite E1).
      destruct (IH _ _ _ _ S1 ltac:(lia) Hs) as (w2 & fs2 & E2 & S2 & C2).
      rewrite (SE_bind_Ok _ _ _ _ _ E2). exists w2, fs2.
      assert (Hve : verdict w e = None) by (unfold verdict; now rewrite Hv). rewrite Hve.
      rewrite (map_ext (verdict w1) (verdict w)) by (intros; apply verdict_config, C1).
      split; [done|]. split; [|exact (transitivity C1 C2)].
      rewrite (accepted_config _ _ _ C1), <- app_assoc in S2. unfold accepted in *.
      rewrite filter_cons_True by done. eapply wal_state_le; [|exact S2]. lia.
    + rewrite (SE_bind_Ok _ _ _ (Some err) (w, fs))
        by (unfold catch; now rewrite (append_rejects _ _ _ _ _ _ S Hv)).
      destruct (IH _ _ _ _ S ltac:(lia) Hs) as (w2 & fs2 & E2 & S2 & C2).
      rewrite (SE_bind_Ok _ _ _ _ _ E2). exists w2, fs2.
      assert (Hve : verdict w e = Some err) by (unfold verdict; now rewrite Hv). rewrite Hve.
      split; [done|]. split; [|done]. unfold accepted in *.
      rewrite filter_cons_False by congruence. eapply wal_state_le; [|exact S2]. lia.
Qed.

(** ** Executions with faults *)

Definition demo_opts : Options := mkOptions "wal" true 0 0 4096 false 0 true.
Definition demo_entry (k v : byte) (seq : Z) : Entry := mkEntry [k] [v] false seq.

Definition run {A} (m : SE FS WAL) (k : M A) (fs : FS) : result A * FS :=
  match m fs with
  | (Ok w, fs) => let '(a, (_, fs)) := k (w, fs) in (a, fs)
  | (Err e, fs) => (Err e, fs)
  | (Panic, fs) => (Panic, fs)
  | (NoFuel, fs) => (NoFuel, fs)
  end.

(** A write that stops 20 bytes into a block fails its append; the next
    append is acknowledged, and replay loses it: the length in the torn
    block header makes the reader swallow the magic of the block behind. *)
Lemma short_write_loses_acknowledged :
  let '(answers, fs) :=
    run (NewWAL demo_opts)
      (append_all [demo_entry x61 x31 1; demo_entry x62 x32 2])
      (mkFS ∅ [None; None; None; None; Some 20] 0) in
  answers = Ok [Some err_write_block; None] /\
  Replay collect "wal" true (fs_dir fs) []
  = (Ok (Some ErrWALCorruptSegment),
     ({["wal" := WriteSegmentHeader 4096 1 0]}, [])).
Proof. vm_compute. split; reflexivity. Qed.

(** Opening over a torn segment header is accepted, and so are appends; none
    of them can be replayed. *)
Lemma torn_header_loses_acknowledged :
  let torn := take 10 (WriteSegmentHeader 4096 1 0) in
  let '(answers, fs) :=
    run (NewWAL demo_opts) (append_all [demo_entry x61 x31 1])
      (mkFS {["wal" := torn]} [] 0) in
  answers = Ok [None] /\
  Replay collect "wal" true (fs_dir fs) []
  = (Ok (Some ErrWALCorruptSegment), (fs_dir fs, [])).
Proof. vm_compute. split; reflexivity. Qed.

(** ** Properties *)

Definition sample_session : list Entry :=
  [demo_entry x61 x31 1; mkEntry [] [x31] false 2; mkEntry [x62] [] true 3].

(** C6. A WAL opened in a directory without WAL files is a faithful log when
    the file system does not fail: every entry is answered by the verdict of
    ValidateEntry, and replaying the directory afterwards succeeds and
    returns exactly the accepted entries in order, across block boundaries
    and segment rotations. *)
Theorem wal_session_replays opts fs es repair :
  fs_faults fs = [] -> opt_Path opts <> EmptyString -> no_wal_files (opt_Path opts) (fs_dir fs) ->
  MinBlockSize <= opt_BlockSize opts -> is_u32 (opt_BlockSize opts) ->
  opt_MaxRecordBytes opts <= opt_BlockSize opts ->
  2 * zlen es + 3 < 2 ^ 63 -> Forall (fun e => is_u64 (Seq e)) es ->
  exists w fs1 w' fs', NewWAL opts fs = (Ok w, fs1) /\
    append_all es (w, fs1) = (Ok (map (verdict w) es), (w', fs')) /\
    Replay collect (opt_Path opts) repair (fs_dir fs') []
    = (Ok None, (fs_dir fs', accepted w es)).
Proof.
  intros Hf Hp Hno Hmin Hbs Hmax Hlen Hs.
  destruct (NewWAL_fresh opts fs Hf Hp Hno Hmin Hbs Hmax) as (w & fs1 & E1 & S1 & P1 & _).
  destruct (append_all_state es w fs1 [] 0 S1 ltac:(lia) Hs) as (w' & fs' & E2 & S2 & C).
  exists w, fs1, w', fs'. split; [done|]. split; [done|].
  replace (opt_Path opts) with (w_path w') by (destruct C as (-> & _); done).
  exact (Replay_state _ _ _ _ repair [] S2).
Qed.

Lemma wal_session_replays_witness :
  exists w fs1 w' fs', NewWAL demo_opts (mkFS ∅ [] 0) = (Ok w, fs1) /\
    append_all sample_session (w, fs1) = (Ok (map (verdict w) sample_session), (w', fs')) /\
    Replay collect (opt_Path demo_opts) true (fs_dir fs') []
    = (Ok None, (fs_dir fs', accepted w sample_session)).
Proof.
  apply (wal_session_replays demo_opts (mkFS ∅ [] 0) sample_session true); try done.
  - split; [done|]. intros name [x Hx]. done.
  - repeat constructor; vm_compute; congruence.
Defined.

(** C21. A batch of the asynchronous writer refines the log: every request is
    answered by its own verdict, no request makes another one fail, and
    exactly the accepted requests are appended, in order and flushed. *)
Theorem wal_batch_refines_log batch syncNow w fs log k repair st :
  wal_state w fs log [] k -> k + zlen batch + 3 < 2 ^ 63 ->
  Forall (fun e => is_u64 (Seq e)) batch ->
  exists w' fs',
    processBatch batch syncNow (w, fs) = (Ok (map (verdict w) batch, None), (w', fs')) /\
    wal_state w' fs' (log ++ accepted w batch) [] (k + zlen batch + 1) /\
    Replay collect (w_path w') repair (fs_dir fs') st
    = (Ok None, (fs_dir fs', st ++ log ++ accepted w batch)).
Proof.
  intros S Hk Hs. destruct (processBatch_state batch syncNow _ _ _ _ S Hk Hs) as (w' & fs' & E & S' & _).
  exists w', fs'. split; [done|]. split; [done|]. exact (Replay_state _ _ _ _ _ _ S').
Qed.

Definition sample_wal : WAL := mkWAL FileOpen "wal" true 60 29 0 64 1 [] 0 true 0 true.
Definition sample_fs : FS := mkFS {["wal" := WriteSegmentHeader 64 1 0]} [] 0.

Lemma sample_wal_state : wal_state sample_wal sample_fs [] [] 0.
Proof.
  exists [], (mkSeg 64 0 []). split; [|done]. split; try done.
  apply (dir_rep_fresh "wal" ∅ 64 0); [|done]. split; [done|]. intros name [x Hx]. done.
Defined.

Lemma wal_batch_refines_log_witness :
  exists w' fs',
    processBatch sample_session true (sample_wal, sample_fs)
      = (Ok (map (verdict sample_wal) sample_session, None), (w', fs')) /\
    wal_state w' fs' ([] ++ accepted sample_wal sample_session) [] (0 + zlen sample_session + 1) /\
    Replay collect (w_path w') true (fs_dir fs') []
    = (Ok None, (fs_dir fs', [] ++ [] ++ accepted sample_wal sample_session)).
Proof.
  apply (wal_batch_refines_log sample_session true sample_wal sample_fs [] 0 true []).
  - exact sample_wal_state.
  - vm_compute. reflexivity.
  - repeat constructor; vm_compute; congruence.
Defined.

(** C22. Reopening a log that was written before keeps it: the handle continues
    the same abstract log, with the block size of the file's own header, and
    replay returns it unchanged. *)
Theorem wal_reopen_keeps_log opts fs rot act repair :
  fs_faults fs = [] -> opt_Path opts <> EmptyString -> MinBlockSize <= opt_BlockSize opts ->
  dir_rep (opt_Path opts) (fs_dir fs) rot act -> MinBlockSize <= sg_blockSize act ->
  opt_MaxRecordBytes opts <= sg_blockSize act ->
  exists w fs', NewWAL opts fs = (Ok w, fs') /\
    wal_state w fs' (log_of rot act) [] (zlen rot) /\ w_blockSize w = sg_blockSize act /\
    Replay collect (w_path w) repair (fs_dir fs') [] = (Ok None, (fs_dir fs', log_of rot act)).
Proof.
  intros Hf Hp Hmin R Hbs Hmax.
  destruct (NewWAL_reopen opts fs rot act Hf Hp Hmin R Hbs Hmax) as (w & fs' & E & S & P & B).
  exists w, fs'. split; [done|]. split; [done|]. split; [done|]. exact (Replay_state _ _ _ _ repair [] S).
Qed.

Lemma wal_reopen_keeps_log_witness :
  exists w fs', NewWAL demo_opts sample_fs = (Ok w, fs') /\
    wal_state w fs' (log_of [] (mkSeg 64 0 [])) [] (@zlen seg []) /\ w_blockSize w = 64 /\
    Replay collect (w_path w) true (fs_dir fs') [] = (Ok None, (fs_dir fs', log_of [] (mkSeg 64 0 []))).
Proof.
  apply (wal_reopen_keeps_log demo_opts sample_fs [] (mkSeg 64 0 []) true); try done.
  apply (dir_rep_fresh "wal" ∅ 64 0); [|done]. split; [done|]. intros name [x Hx]. done.
Defined.
