(* ===== verification/SstFormat.v ===== *)
(** * SSTable wire format ([internal/lsm/sstable/format])

    Framed blocks with compression and checksum, footers, index blocks and
    meta blocks: encoders, decoders and their round trips.  The snappy codec
    is a parameter with its documented round trip. *)

From Stdlib Require Import ZArith Lia Strings.Byte.
From stdpp Require Import base list strings.
From S2P Require Import Prelude.
Local Open Scope Z_scope.

(** ** Framed blocks *)

(** [config.Compression] is a string; every value but two is treated alike. *)
Inductive Compression :=
| CompressionNone
| CompressionSnappy
| CompressionOther (name : string).

#[export] Instance Compression_eq_dec : EqDecision Compression.
Proof. solve_decision. Defined.

Inductive BlockType := BlockTypeData | BlockTypeIndex | BlockTypeMeta | BlockTypeFilter.

#[export] Instance BlockType_eq_dec : EqDecision BlockType.
Proof. solve_decision. Defined.

Definition BlockType_byte (t : BlockType) : byte :=
  match t with
  | BlockTypeData => x00 | BlockTypeIndex => x01 | BlockTypeMeta => x02 | BlockTypeFilter => x03
  end.

Definition fileMagic : bytes := [x4c; x53; x4d; x31].
Definition fileVersion : byte := x01.
Definition FooterSizeBytes : Z := 36.
Definition sstBlockMagic : bytes := [x4c; x53; x4d; x42].
Definition BlockHeaderSizeLegacy : Z := 1 + 4.
Definition BlockMagicSize : Z := 4.
Definition SstBlockHeaderSize : Z := BlockMagicSize + 1 + 4.
Definition BlockCRCLen : Z := 4.
Definition BlockTypeSize : Z := 1.

Definition CompressionID (c : Compression) : byte :=
  match c with CompressionSnappy => x01 | _ => x00 end.

Definition CompressionFromID (id : byte) : result Compression :=
  match id with
  | x00 => Ok CompressionNone
  | x01 => Ok CompressionSnappy
  | _ => Err ErrSSTableUnknownCompression
  end.

Definition EncodeBlock (payload : bytes) (typ : BlockType) (compression : Compression)
    (uncompressedLen : Z) : bytes :=
  let out := sstBlockMagic ++ [CompressionID compression] ++ PutUint32 uncompressedLen
               ++ payload ++ [BlockType_byte typ] in
  out ++ PutUint32 (ChecksumCastagnoli out).

Section Snappy.
(** [snappy.Encode] and [snappy.Decode]. *)
Context (snappy_Encode : bytes -> bytes) (snappy_Decode : bytes -> option bytes).

Definition CompressPayload (payload : bytes) (compression : Compression) : bytes * Z :=
  match compression with
  | CompressionSnappy => (snappy_Encode payload, u32 (zlen payload))
  | _ => (payload, u32 (zlen payload))
  end.

Definition err_snappy : error := ErrNew "snappy: corrupt input".

Definition decompressPayload (payload : bytes) (compression : Compression) (uncompressedLen : Z)
  : result bytes :=
  match compression with
  | CompressionSnappy =>
      match snappy_Decode payload with
      | None => Err err_snappy
      | Some out =>
          if bool_decide (0 < uncompressedLen /\ u32 (zlen out) ≠ uncompressedLen)
          then Err ErrSSTableBadBlock else Ok out
      end
  | _ => Ok payload
  end.

(** The header: its length, the compression and the uncompressed length.
    Blocks without the magic are the older format, which framed data blocks
    only. *)
Definition block_header (data : bytes) (typ : BlockType) : result (Z * Compression * Z) :=
  if bool_decide (SstBlockHeaderSize <= zlen data /\ take 4 data = sstBlockMagic) then
    id ← index data BlockMagicSize;
    comp ← CompressionFromID id;
    len ← slice data (BlockMagicSize + 1) (BlockMagicSize + 5);
    Ok (SstBlockHeaderSize, comp, le_decode len)
  else if bool_decide (typ = BlockTypeData /\ BlockHeaderSizeLegacy <= zlen data) then
    id ← index data 0;
    comp ← CompressionFromID id;
    len ← slice data 1 5;
    Ok (BlockHeaderSizeLegacy, comp, le_decode len)
  else Ok (0, CompressionNone, 0).

Definition DecodeBlockPayload (data : bytes) (typ : BlockType) (errChecksum : option error)
  : result bytes :=
  let errChecksum := default ErrSSTableBadBlock errChecksum in
  if bool_decide (zlen data < BlockTypeSize + BlockCRCLen) then Err errChecksum else
  let blockTypeOffset := zlen data - BlockTypeSize - BlockCRCLen in
  t ← index data blockTypeOffset;
  if bool_decide (t ≠ BlockType_byte typ) then Err errChecksum else
  expected ← slice data (zlen data - BlockCRCLen) (zlen data);
  body ← slice data 0 (zlen data - BlockCRCLen);
  if bool_decide (ChecksumCastagnoli body ≠ le_decode expected) then Err errChecksum else
  '(headerLen, comp, uncompressedLen) ← block_header data typ;
  if bool_decide (blockTypeOffset < headerLen) then Err errChecksum else
  payload ← slice data headerLen blockTypeOffset;
  if bool_decide (comp = CompressionNone) then
    if bool_decide (0 < headerLen /\ 0 < uncompressedLen /\ u32 (zlen payload) ≠ uncompressedLen)
    then Err errChecksum else Ok payload
  else decompressPayload payload comp uncompressedLen.
End Snappy.

(** ** Footers *)

Record Footer := mkFooter {
  Flags : byte;
  IndexOffset : Z;
  IndexLen : Z;
  MetaOffset : Z;
  MetaLen : Z
}.

Definition FooterFlagIndexPartitioned : Z := 1.
Definition FooterFlagFilterPartitioned : Z := 2.

Definition EncodeFooter (f : Footer) : bytes :=
  let body := fileMagic ++ [fileVersion; Flags f] ++ PutUint16 0 ++ PutUint64 (IndexOffset f)
                ++ PutUint32 (IndexLen f) ++ PutUint64 (MetaOffset f) ++ PutUint32 (MetaLen f) in
  body ++ PutUint32 (ChecksumCastagnoli body).

Definition DecodeFooter (buf : bytes) : result Footer :=
  if bool_decide (zlen buf ≠ FooterSizeBytes) then Err ErrSSTableBadFooter else
  magic ← slice buf 0 4;
  if bool_decide (magic ≠ fileMagic) then Err ErrSSTableBadMagic else
  expected ← slice buf 32 36;
  body ← slice buf 0 32;
  if bool_decide (ChecksumCastagnoli body ≠ le_decode expected) then Err ErrSSTableBadFooter else
  flags ← index buf 5;
  io ← slice buf 8 16;
  il ← slice buf 16 20;
  mo ← slice buf 20 28;
  ml ← slice buf 28 32;
  Ok (mkFooter flags (le_decode io) (le_decode il) (le_decode mo) (le_decode ml)).

(** ** Index blocks *)

Record IndexEntry := mkIndexEntry {
  ie_Key : bytes;
  ie_Offset : Z;
  ie_Length : Z
}.

Definition IndexHeaderSize : Z := 4 + 8 + 4.

Definition encode_index_entry (e : IndexEntry) : bytes :=
  PutUint32 (u32 (zlen (ie_Key e))) ++ PutUint64 (ie_Offset e) ++ PutUint32 (ie_Length e) ++ ie_Key e.

Definition EncodeIndex (entries : list IndexEntry) : bytes := concat (map encode_index_entry entries).

Definition decode_index_entry (data : bytes) (pos : Z) : result (IndexEntry * Z) :=
  if bool_decide (zlen data - pos < IndexHeaderSize) then Err ErrSSTableBadIndex else
  keyLen ← slice data pos (pos + 4);
  offset ← slice data (pos + 4) (pos + 12);
  length ← slice data (pos + 12) (pos + 16);
  let pos := pos + IndexHeaderSize in
  let keyLen := le_decode keyLen in
  if bool_decide (zlen data - pos < keyLen) then Err ErrSSTableBadIndex else
  key ← slice data pos (pos + keyLen);
  Ok (mkIndexEntry key (le_decode offset) (le_decode length), pos + keyLen).

Fixpoint DecodeIndex_loop (fuel : nat) (data : bytes) (pos : Z) (entries : list IndexEntry)
  : result (list IndexEntry) :=
  if bool_decide (pos < zlen data) then
    match fuel with
    | O => NoFuel
    | S fuel =>
        '(e, pos) ← decode_index_entry data pos;
        DecodeIndex_loop fuel data pos (entries ++ [e])
    end
  else Ok entries.

(** An entry takes at least 16 bytes. *)
Definition DecodeIndex (data : bytes) : result (list IndexEntry) :=
  DecodeIndex_loop (length data) data 0 [].

(** ** Meta blocks *)

Record Meta := mkMeta {
  MinKey : bytes;
  MaxKey : bytes;
  EntryCount : Z;
  SeqMin : Z;
  SeqMax : Z;
  MetaCompression : Compression;
  BloomBits : Z;
  BloomK : byte;
  BloomOffset : Z;
  BloomLen : Z
}.

Definition MetaHeaderSize : Z := 4 + 4 + 8 + 8 + 8 + 1 + 2 + 1 + 8 + 4.

Definition EncodeMeta (m : Meta) : bytes :=
  PutUint32 (u32 (zlen (MinKey m))) ++ PutUint32 (u32 (zlen (MaxKey m)))
    ++ PutUint64 (EntryCount m) ++ PutUint64 (SeqMin m) ++ PutUint64 (SeqMax m)
    ++ [CompressionID (MetaCompression m)] ++ PutUint16 (BloomBits m) ++ [BloomK m]
    ++ PutUint64 (BloomOffset m) ++ PutUint32 (BloomLen m)
    ++ MinKey m ++ MaxKey m.

(** [spare] are the bytes behind [data] within the capacity of its backing
    array: a slice expression may reach into them. *)
Definition DecodeMeta (data spare : bytes) : result Meta :=
  if bool_decide (zlen data < MetaHeaderSize) then Err ErrSSTableBadMeta else
  minLen ← slice data 0 4;
  maxLen ← slice data 4 8;
  entryCount ← slice data 8 16;
  seqMin ← slice data 16 24;
  seqMax ← slice data 24 32;
  id ← index data 32;
  match CompressionFromID id with
  | Ok comp =>
      bloomBits ← slice data 33 35;
      bloomK ← index data 35;
      bloomOffset ← slice data 36 44;
      bloomLen ← slice data 44 48;
      let pos := MetaHeaderSize in
      let minLen := le_decode minLen in
      let maxLen := le_decode maxLen in
      if bool_decide (zlen data - pos < u32 (minLen + maxLen)) then Err ErrSSTableBadMeta else
      minKey ← slice (data ++ spare) pos (pos + minLen);
      let pos := pos + minLen in
      maxKey ← slice (data ++ spare) pos (pos + maxLen);
      Ok (mkMeta minKey maxKey (le_decode entryCount) (le_decode seqMin) (le_decode seqMax) comp
            (le_decode bloomBits) bloomK (le_decode bloomOffset) (le_decode bloomLen))
  | _ => Err ErrSSTableBadMeta
  end.

#[export] Hint Unfold FooterSizeBytes BlockHeaderSizeLegacy BlockMagicSize SstBlockHeaderSize
  BlockCRCLen BlockTypeSize IndexHeaderSize MetaHeaderSize : zconst.

Lemma zlen_sstBlockMagic : zlen sstBlockMagic = 4.
Proof. reflexivity. Qed.

Lemma zlen_fileMagic : zlen fileMagic = 4.
Proof. reflexivity. Qed.

#[export] Hint Rewrite zlen_sstBlockMagic zlen_fileMagic : zlen.

Lemma CompressionFromID_ID c :
  CompressionFromID (CompressionID c) = Ok (match c with CompressionSnappy => CompressionSnappy | _ => CompressionNone end).
Proof. now destruct c. Qed.

(** ** Framed blocks: round trip *)

Lemma index_mid {A} (s a c : list A) (x : A) i :
  s = a ++ x :: c -> i = zlen a -> index s i = Ok x.
Proof.
  intros -> ->. unfold index. rewrite bool_decide_true by apply zlen_nonneg.
  now rewrite zlen_to_nat, list_lookup_middle.
Qed.

Section SnappyFacts.
Context (snappy_Encode : bytes -> bytes) (snappy_Decode : bytes -> option bytes).
(** What the code relies on in the snappy package: decoding undoes encoding,
    for inputs within its size limit. *)
Context (snappy_roundtrip : forall b, zlen b < 2 ^ 31 -> snappy_Decode (snappy_Encode b) = Some b).

(** The frame around a stored payload is recognised and taken apart. *)
Lemma DecodeBlockPayload_frame payload typ comp ulen errc :
  is_u32 ulen ->
  DecodeBlockPayload snappy_Decode (EncodeBlock payload typ comp ulen) typ errc =
  match comp with
  | CompressionSnappy => decompressPayload snappy_Decode payload CompressionSnappy ulen
  | _ => if bool_decide (0 < ulen /\ u32 (zlen payload) ≠ ulen)
         then Err (default ErrSSTableBadBlock errc) else Ok payload
  end.
Proof.
  intros Hu. unfold EncodeBlock.
  set (body := sstBlockMagic ++ _). set (crc := PutUint32 (ChecksumCastagnoli body)).
  assert (Hc : zlen crc = 4) by apply zlen_le_encode.
  set (fields := [CompressionID comp] ++ PutUint32 ulen).
  assert (Hf : zlen fields = 5) by (subst fields; autorewrite with zlen; lia).
  assert (Hbody : body = sstBlockMagic ++ fields ++ payload ++ [BlockType_byte typ])
    by (subst body fields; now rewrite <- app_assoc).
  assert (Hl : zlen (body ++ crc) = 14 + zlen payload)
    by (rewrite Hbody; autorewrite with zlen; rewrite Hf, Hc; lia).
  pose proof (zlen_nonneg payload).
  unfold DecodeBlockPayload. rewrite Hl. unfold BlockTypeSize, BlockCRCLen.
  rewrite bool_decide_false by lia.
  rewrite (index_mid _ (sstBlockMagic ++ fields ++ payload) crc (BlockType_byte typ))
    by (rewrite ?Hbody, <- ?app_assoc; done || (autorewrite with zlen; lia)).
  cbn [mbind result_bind]. rewrite bool_decide_false by (intros H'; now apply H').
  rewrite (slice_mid _ body crc [] (14 + zlen payload - 4))
    by (rewrite ?app_nil_r, ?Hbody; autorewrite with zlen; done || lia).
  rewrite (slice_mid _ [] body crc 0)
    by (rewrite ?Hbody; autorewrite with zlen; done || lia).
  cbn [mbind result_bind]. subst crc. rewrite crc_roundtrip_Castagnoli.
  rewrite bool_decide_false by (intros H'; now apply H').
  set (crc := PutUint32 (ChecksumCastagnoli body)) in *.
  unfold block_header. rewrite Hl, bool_decide_true.
  2:{ split; [unfold SstBlockHeaderSize, BlockMagicSize; lia|]. now rewrite Hbody, <- !app_assoc. }
  rewrite (index_mid _ sstBlockMagic (PutUint32 ulen ++ payload ++ [BlockType_byte typ] ++ crc) (CompressionID comp))
    by (rewrite ?Hbody; subst fields; rewrite <- ?app_assoc; done).
  cbn [mbind result_bind]. rewrite CompressionFromID_ID. cbn [mbind result_bind].
  rewrite (slice_mid _ (sstBlockMagic ++ [CompressionID comp]) (PutUint32 ulen)
    (payload ++ [BlockType_byte typ] ++ crc) (BlockMagicSize + 1))
    by (rewrite ?Hbody; subst fields; rewrite <- ?app_assoc; done).
  cbn [mbind result_bind]. rewrite le_decode_put32 by done.
  unfold SstBlockHeaderSize, BlockMagicSize. rewrite bool_decide_false by lia.
  rewrite (slice_mid _ (sstBlockMagic ++ fields) payload ([BlockType_byte typ] ++ crc))
    by (rewrite ?Hbody, <- ?app_assoc; done || (autorewrite with zlen; lia)).
  cbn [mbind result_bind].
  assert (Hext : bool_decide (0 < 4 + 1 + 4 /\ 0 < ulen /\ u32 (zlen payload) ≠ ulen)
                 = bool_decide (0 < ulen /\ u32 (zlen payload) ≠ ulen)) by (apply bool_decide_ext; lia).
  destruct comp; [rewrite bool_decide_true, Hext by done|rewrite bool_decide_false by done|
    rewrite bool_decide_true, Hext by done]; reflexivity.
Qed.

(** A payload that is compressed, framed, unframed and decompressed comes
    back, whatever the compression setting. *)
Lemma DecodeBlockPayload_EncodeBlock raw typ comp errc :
  zlen raw < 2 ^ 31 ->
  let '(stored, ulen) := CompressPayload snappy_Encode raw comp in
  DecodeBlockPayload snappy_Decode (EncodeBlock stored typ comp ulen) typ errc = Ok raw.
Proof.
  intros Hl. pose proof (zlen_nonneg raw).
  assert (Hu : u32 (zlen raw) = zlen raw) by (apply u32_id; unfold is_u32; lia).
  destruct comp; cbn [CompressPayload]; rewrite DecodeBlockPayload_frame by auto with lsm.
  - rewrite bool_decide_false by tauto. done.
  - unfold decompressPayload. rewrite snappy_roundtrip by done.
    rewrite bool_decide_false by tauto. done.
  - rewrite bool_decide_false by tauto. done.
Qed.
End SnappyFacts.

(** ** Footers: round trip *)

Definition Footer_wf (f : Footer) : Prop :=
  is_u64 (IndexOffset f) /\ is_u32 (IndexLen f) /\ is_u64 (MetaOffset f) /\ is_u32 (MetaLen f).

Lemma zlen_EncodeFooter f : zlen (EncodeFooter f) = FooterSizeBytes.
Proof. unfold EncodeFooter. zlen_solve. Qed.

Lemma DecodeFooter_EncodeFooter f : Footer_wf f -> DecodeFooter (EncodeFooter f) = Ok f.
Proof.
  intros (H1 & H2 & H3 & H4). unfold DecodeFooter.
  rewrite zlen_EncodeFooter, bool_decide_false by (intros H; now apply H).
  unfold EncodeFooter.
  set (a := PutUint64 (IndexOffset f)). set (b := PutUint32 (IndexLen f)).
  set (c := PutUint64 (MetaOffset f)). set (d := PutUint32 (MetaLen f)).
  set (pre := fileMagic ++ [fileVersion; Flags f] ++ PutUint16 0).
  set (body := fileMagic ++ _). set (crc := PutUint32 (ChecksumCastagnoli body)).
  assert (Hbody : body = pre ++ a ++ b ++ c ++ d) by (subst body pre; now rewrite <- !app_assoc).
  slice_rewrite 0 4 (@nil byte) fileMagic (drop 4 body ++ crc).
  cbn [mbind result_bind]. rewrite bool_decide_false by (intros H; now apply H).
  slice_rewrite 32 36 body crc (@nil byte).
  slice_rewrite 0 32 (@nil byte) body crc.
  cbn [mbind result_bind]. subst crc. rewrite crc_roundtrip_Castagnoli.
  rewrite bool_decide_false by (intros H; now apply H).
  set (crc := PutUint32 (ChecksumCastagnoli body)).
  change (index (body ++ crc) 5) with (Ok (Flags f)). cbn [mbind result_bind].
  rewrite Hbody.
  rewrite (slice_mid _ pre a (b ++ c ++ d ++ crc) 8) by (rewrite <- ?app_assoc; done || zlen_solve).
  rewrite (slice_mid _ (pre ++ a) b (c ++ d ++ crc) 16) by (rewrite <- ?app_assoc; done || zlen_solve).
  rewrite (slice_mid _ (pre ++ a ++ b) c (d ++ crc) 20) by (rewrite <- ?app_assoc; done || zlen_solve).
  rewrite (slice_mid _ (pre ++ a ++ b ++ c) d crc 28) by (rewrite <- ?app_assoc; done || zlen_solve).
  cbn [mbind result_bind]. subst a b c d. rewrite !le_decode_put64, !le_decode_put32 by done.
  now destruct f.
Qed.

(** ** Index blocks: round trip *)

Definition IndexEntry_wf (e : IndexEntry) : Prop :=
  is_u32 (zlen (ie_Key e)) /\ is_u64 (ie_Offset e) /\ is_u32 (ie_Length e).

Lemma zlen_encode_index_entry e :
  zlen (encode_index_entry e) = IndexHeaderSize + zlen (ie_Key e).
Proof. unfold encode_index_entry. zlen_solve. Qed.

Lemma decode_index_entry_encoded pre e suf :
  IndexEntry_wf e ->
  decode_index_entry (pre ++ encode_index_entry e ++ suf) (zlen pre)
  = Ok (e, zlen (pre ++ encode_index_entry e)).
Proof.
  intros (Hk & Ho & Hl). unfold decode_index_entry.
  pose proof (zlen_nonneg (ie_Key e)). pose proof (zlen_nonneg suf).
  rewrite bool_decide_false
    by (autorewrite with zlen; rewrite zlen_encode_index_entry; lia).
  unfold encode_index_entry. rewrite (u32_id _ Hk).
  set (k := PutUint32 (zlen (ie_Key e))). set (o := PutUint64 (ie_Offset e)).
  set (l := PutUint32 (ie_Length e)).
  rewrite (slice_mid _ pre k (o ++ l ++ ie_Key e ++ suf) (zlen pre)) by (rewrite <- ?app_assoc; done || zlen_solve).
  rewrite (slice_mid _ (pre ++ k) o (l ++ ie_Key e ++ suf) (zlen pre + 4)) by (rewrite <- ?app_assoc; done || zlen_solve).
  rewrite (slice_mid _ (pre ++ k ++ o) l (ie_Key e ++ suf) (zlen pre + 12)) by (rewrite <- ?app_assoc; done || zlen_solve).
  cbn [mbind result_bind]. subst k o l. rewrite !le_decode_put32, !le_decode_put64 by done.
  rewrite bool_decide_false by zlen_solve.
  rewrite (slice_mid _ (pre ++ PutUint32 (zlen (ie_Key e)) ++ PutUint64 (ie_Offset e) ++ PutUint32 (ie_Length e)) (ie_Key e) suf)
    by (rewrite <- ?app_assoc; done || zlen_solve).
  cbn [mbind result_bind]. do 2 f_equal; [now destruct e|zlen_solve].
Qed.

Lemma DecodeIndex_loop_encoded es : forall fuel pre acc,
  Forall IndexEntry_wf es -> (length es <= fuel)%nat ->
  DecodeIndex_loop fuel (pre ++ EncodeIndex es) (zlen pre) acc = Ok (acc ++ es).
Proof.
  induction es as [|e es IH]; intros fuel pre acc Hwf Hf.
  - unfold EncodeIndex; cbn [map concat]. rewrite app_nil_r.
    destruct fuel; cbn [DecodeIndex_loop]; rewrite bool_decide_false by lia; now rewrite app_nil_r.
  - apply Forall_cons in Hwf as [He Hes]. cbn [length] in Hf. destruct fuel as [|fuel]; [lia|].
    change (EncodeIndex (e :: es)) with (encode_index_entry e ++ EncodeIndex es).
    cbn [DecodeIndex_loop].
    rewrite bool_decide_true.
    2:{ autorewrite with zlen. rewrite zlen_encode_index_entry. unfold IndexHeaderSize.
        pose proof (zlen_nonneg (ie_Key e)). pose proof (zlen_nonneg (EncodeIndex es)). lia. }
    rewrite decode_index_entry_encoded by done. cbn [mbind result_bind].
    rewrite app_assoc, IH by (done || lia). now rewrite <- app_assoc.
Qed.

Lemma EncodeIndex_length es : (length es <= length (EncodeIndex es))%nat.
Proof.
  induction es as [|e es IH]; [simpl; lia|].
  change (EncodeIndex (e :: es)) with (encode_index_entry e ++ EncodeIndex es).
  pose proof (zlen_encode_index_entry e) as Hz. pose proof (zlen_nonneg (ie_Key e)).
  unfold zlen, IndexHeaderSize in *. rewrite length_app. simpl. lia.
Qed.

Lemma DecodeIndex_EncodeIndex es : Forall IndexEntry_wf es -> DecodeIndex (EncodeIndex es) = Ok es.
Proof. intros H. exact (DecodeIndex_loop_encoded es _ [] [] H (EncodeIndex_length es)). Qed.

(** ** Meta blocks: round trip *)

Definition Meta_wf (m : Meta) : Prop :=
  is_u32 (zlen (MinKey m) + zlen (MaxKey m)) /\ is_u64 (EntryCount m) /\
  is_u64 (SeqMin m) /\ is_u64 (SeqMax m) /\ 0 <= BloomBits m < 2 ^ 16 /\
  is_u64 (BloomOffset m) /\ is_u32 (BloomLen m) /\
  (MetaCompression m = CompressionNone \/ MetaCompression m = CompressionSnappy).

Lemma DecodeMeta_EncodeMeta m spare : Meta_wf m -> DecodeMeta (EncodeMeta m) spare = Ok m.
Proof.
  intros (Hk & Hn & Hs1 & Hs2 & Hb & Hbo & Hbl & Hc).
  pose proof (zlen_nonneg (MinKey m)). pose proof (zlen_nonneg (MaxKey m)).
  assert (Hk1 : is_u32 (zlen (MinKey m))) by (unfold is_u32 in *; lia).
  assert (Hk2 : is_u32 (zlen (MaxKey m))) by (unfold is_u32 in *; lia).
  unfold DecodeMeta.
  rewrite bool_decide_false by (unfold EncodeMeta; zlen_solve).
  unfold EncodeMeta. rewrite (u32_id _ Hk1), (u32_id _ Hk2).
  set (f1 := PutUint32 (zlen (MinKey m))). set (f2 := PutUint32 (zlen (MaxKey m))).
  set (f3 := PutUint64 (EntryCount m)). set (f4 := PutUint64 (SeqMin m)). set (f5 := PutUint64 (SeqMax m)).
  set (f6 := CompressionID (MetaCompression m)). set (f7 := PutUint16 (BloomBits m)).
  set (f9 := PutUint64 (BloomOffset m)). set (f10 := PutUint32 (BloomLen m)).
  set (tail := MinKey m ++ MaxKey m).
  slice_rewrite 0 4 (@nil byte) f1 (f2 ++ f3 ++ f4 ++ f5 ++ [f6] ++ f7 ++ [BloomK m] ++ f9 ++ f10 ++ tail).
  slice_rewrite 4 8 f1 f2 (f3 ++ f4 ++ f5 ++ [f6] ++ f7 ++ [BloomK m] ++ f9 ++ f10 ++ tail).
  slice_rewrite 8 16 (f1 ++ f2) f3 (f4 ++ f5 ++ [f6] ++ f7 ++ [BloomK m] ++ f9 ++ f10 ++ tail).
  slice_rewrite 16 24 (f1 ++ f2 ++ f3) f4 (f5 ++ [f6] ++ f7 ++ [BloomK m] ++ f9 ++ f10 ++ tail).
  slice_rewrite 24 32 (f1 ++ f2 ++ f3 ++ f4) f5 ([f6] ++ f7 ++ [BloomK m] ++ f9 ++ f10 ++ tail).
  cbn [mbind result_bind].
  rewrite (index_mid _ (f1 ++ f2 ++ f3 ++ f4 ++ f5) (f7 ++ [BloomK m] ++ f9 ++ f10 ++ tail) f6 32)
    by (rewrite <- ?app_assoc; done || zlen_solve).
  cbn [mbind result_bind]. subst f6. rewrite CompressionFromID_ID. set (f6 := CompressionID _).
  slice_rewrite 33 35 (f1 ++ f2 ++ f3 ++ f4 ++ f5 ++ [f6]) f7 ([BloomK m] ++ f9 ++ f10 ++ tail).
  rewrite (index_mid _ (f1 ++ f2 ++ f3 ++ f4 ++ f5 ++ [f6] ++ f7) (f9 ++ f10 ++ tail) (BloomK m) 35)
    by (rewrite <- ?app_assoc; done || zlen_solve).
  slice_rewrite 36 44 (f1 ++ f2 ++ f3 ++ f4 ++ f5 ++ [f6] ++ f7 ++ [BloomK m]) f9 (f10 ++ tail).
  slice_rewrite 44 48 (f1 ++ f2 ++ f3 ++ f4 ++ f5 ++ [f6] ++ f7 ++ [BloomK m] ++ f9) f10 tail.
  cbn [mbind result_bind].
  set (hdr := f1 ++ f2 ++ f3 ++ f4 ++ f5 ++ [f6] ++ f7 ++ [BloomK m] ++ f9 ++ f10).
  assert (Hall : f1 ++ f2 ++ f3 ++ f4 ++ f5 ++ [f6] ++ f7 ++ [BloomK m] ++ f9 ++ f10 ++ tail = hdr ++ tail)
    by (subst hdr; now rewrite <- !app_assoc).
  assert (Hhdr : zlen hdr = 48) by (subst hdr; zlen_solve).
  rewrite Hall. clearbody hdr.
  assert (Hd : le_decode f7 = BloomBits m)
    by (subst f7; rewrite le_decode_encode; apply Z.mod_small; exact Hb).
  rewrite Hd. subst f1 f2 f3 f4 f5 f9 f10.
  rewrite !le_decode_put32, !le_decode_put64, (u32_id _ Hk) by done.
  rewrite bool_decide_false by zlen_solve.
  rewrite (slice_mid _ hdr (MinKey m) (MaxKey m ++ spare) MetaHeaderSize)
    by (subst tail; rewrite <- ?app_assoc; done || zlen_solve).
  cbn [mbind result_bind].
  rewrite (slice_mid _ (hdr ++ MinKey m) (MaxKey m) spare)
    by (subst tail; rewrite <- ?app_assoc; done || zlen_solve).
  cbn [mbind result_bind]. destruct m as [? ? ? ? ? c]; simpl in *. now destruct Hc as [->| ->].
Qed.

(** ** Decoders on arbitrary bytes *)

Definition returns {A} (m : result A) : Prop := (exists a, m = Ok a) \/ exists e, m = Err e.

Lemma returns_Ok {A} (a : A) : returns (Ok a).
Proof. left; eauto. Qed.

Lemma returns_Err {A} e : returns (@Err A e).
Proof. right; eauto. Qed.

Lemma returns_slice {A B} (s : list A) lo hi (k : list A -> result B) :
  0 <= lo <= hi -> hi <= zlen s -> (forall r, zlen r = hi - lo -> returns (k r)) ->
  returns (slice s lo hi ≫= k).
Proof. intros H1 H2 Hk. destruct (slice_total s lo hi H1 H2) as (r & -> & Hr). now apply Hk. Qed.

Lemma returns_index {A B} (s : list A) i (k : A -> result B) :
  0 <= i < zlen s -> (forall x, returns (k x)) -> returns (index s i ≫= k).
Proof. intros H Hk. destruct (index_total s i H) as (x & -> & _). apply Hk. Qed.

Lemma returns_bind {A B} (m : result A) (k : A -> result B) :
  returns m -> (forall a, m = Ok a -> returns (k a)) -> returns (m ≫= k).
Proof. intros [[a ->]|[e ->]] Hk; [now apply Hk|apply returns_Err]. Qed.

Lemma returns_if {A} (P : Prop) `{Decision P} (a b : result A) :
  (P -> returns a) -> (~ P -> returns b) -> returns (if bool_decide P then a else b).
Proof. intros. case_bool_decide; auto. Qed.

Create HintDb returns discriminated.
#[export] Hint Resolve returns_Ok returns_Err : returns.

Lemma CompressionFromID_returns id : returns (CompressionFromID id).
Proof. destruct id; cbn; auto with returns. Qed.

Lemma DecodeFooter_returns buf : returns (DecodeFooter buf).
Proof.
  unfold DecodeFooter, FooterSizeBytes. apply returns_if; [auto with returns|]. intros Hn.
  assert (Hl : zlen buf = 36) by (destruct (decide (zlen buf = 36)); tauto).
  apply returns_slice; [lia..|]. intros. apply returns_if; [auto with returns|]. intros.
  do 2 (apply returns_slice; [lia..|]; intros). apply returns_if; [auto with returns|]. intros.
  apply returns_index; [lia|]. intros. do 4 (apply returns_slice; [lia..|]; intros). auto with returns.
Qed.

Lemma block_header_returns data typ :
  returns (block_header data typ) /\
  forall h c u, block_header data typ = Ok (h, c, u) -> 0 <= h.
Proof.
  unfold block_header, SstBlockHeaderSize, BlockHeaderSizeLegacy, BlockMagicSize. split.
  - apply returns_if; intros H1.
    + apply returns_index; [lia|]. intros id. apply returns_bind; [apply CompressionFromID_returns|].
      intros comp _. apply returns_slice; [lia..|]. auto with returns.
    + apply returns_if; intros H2; [|auto with returns].
      apply returns_index; [lia|]. intros id. apply returns_bind; [apply CompressionFromID_returns|].
      intros comp _. apply returns_slice; [lia..|]. auto with returns.
  - intros h c u. case_bool_decide; [|case_bool_decide; [|intros [= <- _ _]; lia]].
    + destruct (index _ _) as [id| | |]; cbn [mbind result_bind]; try done.
      destruct (CompressionFromID id); cbn [mbind result_bind]; try done.
      destruct (slice _ _ _); cbn [mbind result_bind]; try done. intros [= <- _ _]; lia.
    + destruct (index _ _) as [id| | |]; cbn [mbind result_bind]; try done.
      destruct (CompressionFromID id); cbn [mbind result_bind]; try done.
      destruct (slice _ _ _); cbn [mbind result_bind]; try done. intros [= <- _ _]; lia.
Qed.

Lemma DecodeBlockPayload_returns dec data typ errc : returns (DecodeBlockPayload dec data typ errc).
Proof.
  unfold DecodeBlockPayload, BlockTypeSize, BlockCRCLen. cbv zeta.
  apply returns_if; [auto with returns|]. intros Hl.
  apply returns_index; [lia|]. intros t. apply returns_if; [auto with returns|]. intros _.
  apply returns_slice; [lia..|]. intros expected _. apply returns_slice; [lia..|]. intros body _.
  apply returns_if; [auto with returns|]. intros _.
  destruct (block_header_returns data typ) as [Hr Hh].
  apply returns_bind; [done|]. intros [[h c] u] E. apply Hh in E.
  apply returns_if; [auto with returns|]. intros Hle.
  apply returns_slice; [lia..|]. intros payload _.
  apply returns_if; intros _; [apply returns_if; auto with returns|].
  unfold decompressPayload. destruct c; auto with returns.
  destruct (dec payload); auto with returns. apply returns_if; auto with returns.
Qed.

Lemma decode_index_entry_returns data pos :
  0 <= pos -> returns (decode_index_entry data pos) /\
  forall e pos', decode_index_entry data pos = Ok (e, pos') -> pos < pos'.
Proof.
  intros Hp. unfold decode_index_entry, IndexHeaderSize. cbv zeta.
  case_bool_decide; [split; [auto with returns|done]|].
  destruct (slice_total data pos (pos + 4)) as (a & -> & Ha); [lia..|]. cbn [mbind result_bind].
  destruct (slice_total data (pos + 4) (pos + 12)) as (b & -> & Hb); [lia..|].
  destruct (slice_total data (pos + 12) (pos + 16)) as (c & -> & Hc); [lia..|]. cbn [mbind result_bind].
  pose proof (le_decode_range a) as Hr.
  case_bool_decide; [split; [auto with returns|done]|].
  match goal with |- context [slice data ?lo ?hi] =>
    destruct (slice_total data lo hi) as (k & -> & Hk); [lia..|] end.
  cbn [mbind result_bind]. split; [auto with returns|]. intros e pos' [= _ <-]. lia.
Qed.

Lemma DecodeIndex_returns data : returns (DecodeIndex data).
Proof.
  unfold DecodeIndex.
  assert (H : forall fuel pos acc, 0 <= pos -> zlen data - pos <= Z.of_nat fuel ->
    returns (DecodeIndex_loop fuel data pos acc)).
  { induction fuel as [|fuel IH]; intros pos acc Hp Hf; cbn [DecodeIndex_loop];
      (apply returns_if; intros Hlt; [|auto with returns]); [lia|].
    destruct (decode_index_entry_returns data pos Hp) as [Hr Hg].
    apply returns_bind; [done|]. intros [e pos'] E. apply Hg in E. apply IH; lia. }
  apply H; unfold zlen; lia.
Qed.

(** ** Properties *)

(** With a snappy codec that decodes what it encodes, every payload
    below 2 GiB that is compressed and framed as a block of some type is
    recovered by the block decoder for that type, for every compression
    setting. *)
Theorem framed_block_roundtrip (snappy_Encode : bytes -> bytes) (snappy_Decode : bytes -> option bytes)
    raw typ comp errc :
  (forall b, zlen b < 2 ^ 31 -> snappy_Decode (snappy_Encode b) = Some b) ->
  zlen raw < 2 ^ 31 ->
  let '(stored, ulen) := CompressPayload snappy_Encode raw comp in
  DecodeBlockPayload snappy_Decode (EncodeBlock stored typ comp ulen) typ errc = Ok raw.
Proof. intros H. now apply DecodeBlockPayload_EncodeBlock. Qed.

(** An instance of the snappy parameter: a codec that stores its input. *)
Definition stored_encode (b : bytes) : bytes := x73 :: b.
Definition stored_decode (b : bytes) : option bytes :=
  match b with x73 :: b => Some b | _ => None end.

Lemma framed_block_roundtrip_witness :
  let '(stored, ulen) := CompressPayload stored_encode [x01; x02; x03] CompressionSnappy in
  DecodeBlockPayload stored_decode (EncodeBlock stored BlockTypeData CompressionSnappy ulen)
    BlockTypeData None = Ok [x01; x02; x03].
Proof.
  apply (framed_block_roundtrip stored_encode stored_decode [x01; x02; x03] BlockTypeData CompressionSnappy None);
    [reflexivity|vm_compute; reflexivity].
Defined.

(** C29. Footers, index blocks and meta blocks whose fields fit their widths
    are decoded to what was encoded. *)
Theorem table_metadata_roundtrip f entries m spare :
  Footer_wf f -> Forall IndexEntry_wf entries -> Meta_wf m ->
  DecodeFooter (EncodeFooter f) = Ok f /\
  DecodeIndex (EncodeIndex entries) = Ok entries /\
  DecodeMeta (EncodeMeta m) spare = Ok m.
Proof.
  intros Hf He Hm.
  now rewrite DecodeFooter_EncodeFooter, DecodeIndex_EncodeIndex, DecodeMeta_EncodeMeta.
Qed.

Definition sample_footer : Footer := mkFooter x03 4096 77 4173 64.
Definition sample_index : list IndexEntry := [mkIndexEntry [x61] 0 4096; mkIndexEntry [x7a; x7a] 4096 100].
Definition sample_meta : Meta := mkMeta [x61] [x7a; x7a] 12 1 (2 ^ 64 - 1) CompressionSnappy 10 x06 4000 96.

Lemma table_metadata_roundtrip_witness :
  DecodeFooter (EncodeFooter sample_footer) = Ok sample_footer /\
  DecodeIndex (EncodeIndex sample_index) = Ok sample_index /\
  DecodeMeta (EncodeMeta sample_meta) [] = Ok sample_meta.
Proof.
  apply (table_metadata_roundtrip sample_footer sample_index sample_meta []).
  - repeat split; vm_compute; congruence.
  - repeat (constructor; [repeat split; vm_compute; congruence|]). constructor.
  - repeat split; try (vm_compute; congruence). now right.
Defined.

(** On arbitrary bytes the footer, index and block decoders return a
    value or an error: they neither panic nor loop. *)
Theorem table_decoders_total snappy_Decode data typ errc :
  returns (DecodeFooter data) /\ returns (DecodeIndex data) /\
  returns (DecodeBlockPayload snappy_Decode data typ errc).
Proof.
  auto using DecodeFooter_returns, DecodeIndex_returns, DecodeBlockPayload_returns.
Qed.

(** The meta decoder is not among them: the [uint32] sum of the two key
    lengths wraps around, and the slice that follows panics. *)
Lemma DecodeMeta_panics :
  DecodeMeta (PutUint32 (2 ^ 32 - 1) ++ PutUint32 1 ++ le_encode 40 0) [x02; x00; x00; x00; x00] = Panic.
Proof. vm_compute. reflexivity. Qed.
