(* ===== verification/SstBlock.v ===== *)
(** * SSTable data blocks ([internal/lsm/sstable/format/block.go])

    The prefix-compressing block builder with its restart points and adaptive
    restart interval, the block decoder, and the cursor with its point and
    range lookups. *)

From Stdlib Require Import ZArith Lia Strings.Byte.
From stdpp Require Import base list sorting strings.
From S2P Require Import Prelude SstFormat.
Local Open Scope Z_scope.

(** ** The builder *)

Record Builder := mkBuilder {
  b_buf : bytes;
  b_restartOffsets : list Z;
  b_restartInterval : Z;
  b_baseRestart : Z;
  b_minRestart : Z;
  b_maxRestart : Z;
  b_adaptive : bool;
  b_entryCount : Z;
  b_first : bytes;
  b_lastKey : bytes;
  b_sharedSum : Z;
  b_keySum : Z
}.

Definition entryHeaderSize : Z := 4 + 4 + 4 + 8 + 1.
Definition blockOffsetSize : Z := 4.
Definition blockCountSize : Z := 4.
Definition defaultRestartInterval : Z := 16.

Definition NewBuilder (restartInterval : Z) (adaptive : bool) (minRestart maxRestart : Z) : Builder :=
  let restartInterval := if bool_decide (restartInterval <= 0) then defaultRestartInterval else restartInterval in
  let minRestart := if bool_decide (minRestart <= 0) then restartInterval else minRestart in
  let maxRestart := if bool_decide (maxRestart <= 0) then restartInterval else maxRestart in
  let minRestart := if bool_decide (maxRestart < minRestart) then maxRestart else minRestart in
  let restartInterval := if bool_decide (restartInterval < minRestart) then minRestart else restartInterval in
  let restartInterval := if bool_decide (maxRestart < restartInterval) then maxRestart else restartInterval in
  mkBuilder [] [] restartInterval restartInterval minRestart maxRestart adaptive 0 [] [] 0 0.

Fixpoint commonPrefixLen (a b : bytes) : Z :=
  match a, b with
  | x :: a, y :: b => if bool_decide (x = y) then 1 + commonPrefixLen a b else 0
  | _, _ => 0
  end.

Definition with_interval (n : Z) (b : Builder) : Builder :=
  mkBuilder (b_buf b) (b_restartOffsets b) n (b_baseRestart b) (b_minRestart b) (b_maxRestart b)
    (b_adaptive b) (b_entryCount b) (b_first b) (b_lastKey b) (b_sharedSum b) (b_keySum b).

Definition with_sums (s k : Z) (b : Builder) : Builder :=
  mkBuilder (b_buf b) (b_restartOffsets b) (b_restartInterval b) (b_baseRestart b) (b_minRestart b)
    (b_maxRestart b) (b_adaptive b) (b_entryCount b) (b_first b) (b_lastKey b) s k.

(** The sharing of the next entry, its rest, and whether it is a restart
    point; a non-positive interval is replaced first. *)
Definition nextEntrySizing (b : Builder) (e : Entry) : (Z * Z * bool) * Builder :=
  let b := if bool_decide (b_restartInterval b <= 0) then with_interval defaultRestartInterval b else b in
  let restart := bool_decide (Z.rem (b_entryCount b) (b_restartInterval b) = 0) in
  let shared := if bool_decide (restart = false /\ 0 < zlen (b_lastKey b))
                then commonPrefixLen (b_lastKey b) (Key e) else 0 in
  let shared := if bool_decide (zlen (Key e) < shared) then zlen (Key e) else shared in
  ((shared, zlen (Key e) - shared, restart), b).

Definition adaptRestartInterval (b : Builder) : Builder :=
  if bool_decide (b_keySum b <= 0 \/ b_maxRestart b = b_minRestart b) then with_sums 0 0 b else
  let ratio := fdiv (float64 (b_sharedSum b)) (float64 (b_keySum b)) in
  let target := b_minRestart b + int_of_float (fmul ratio (float64 (b_maxRestart b - b_minRestart b))) in
  let target := if bool_decide (target < b_minRestart b) then b_minRestart b else target in
  let target := if bool_decide (b_maxRestart b < target) then b_maxRestart b else target in
  with_sums 0 0 (with_interval target b).

(** [entry.Key[shared:]] with [shared <= len(entry.Key)]. *)
Definition appendEntry (dst : bytes) (shared unshared : Z) (e : Entry) : bytes :=
  dst ++ PutUint32 (u32 shared) ++ PutUint32 (u32 unshared) ++ PutUint32 (u32 (zlen (Value e)))
    ++ PutUint64 (Seq e) ++ [byte_of_Z (if Tombstone e then Z.lor 0 1 else 0)]
    ++ drop (Z.to_nat shared) (Key e) ++ Value e.

Definition Add (b : Builder) (e : Entry) : Builder :=
  let '((shared, unshared, restart), b) := nextEntrySizing b e in
  let b := mkBuilder
    (appendEntry (b_buf b) shared unshared e)
    (if (restart : bool) then b_restartOffsets b ++ [u32 (zlen (b_buf b))] else b_restartOffsets b)
    (b_restartInterval b) (b_baseRestart b) (b_minRestart b) (b_maxRestart b) (b_adaptive b)
    (b_entryCount b + 1)
    (if bool_decide (b_first b = []) then Key e else b_first b)
    (Key e)
    (b_sharedSum b + shared)
    (b_keySum b + (shared + unshared)) in
  if bool_decide (b_adaptive b = true /\ Z.rem (b_entryCount b) (b_restartInterval b) = 0)
  then adaptRestartInterval b else b.

Definition Reset (b : Builder) : Builder :=
  mkBuilder [] [] (b_baseRestart b) (b_baseRestart b) (b_minRestart b) (b_maxRestart b)
    (b_adaptive b) 0 [] [] 0 0.

Definition SizeBytes (b : Builder) : Z :=
  if bool_decide (b_entryCount b = 0) then 0
  else zlen (b_buf b) + zlen (b_restartOffsets b) * blockOffsetSize + blockCountSize.

Definition entryEncodedSize (unshared valLen : Z) : Z := entryHeaderSize + unshared + valLen.

Definition EstimatedSizeAfter (b : Builder) (e : Entry) : Z * Builder :=
  let '((_, unshared, restart), b) := nextEntrySizing b e in
  let restarts := zlen (b_restartOffsets b) + (if (restart : bool) then 1 else 0) in
  (zlen (b_buf b) + entryEncodedSize unshared (zlen (Value e)) + restarts * blockOffsetSize + blockCountSize, b).

Definition Finish (b : Builder) : bytes :=
  b_buf b ++ concat (map (fun off => PutUint32 off) (b_restartOffsets b))
    ++ PutUint32 (u32 (zlen (b_restartOffsets b))).

(** ** The block *)

Record Block := mkBlock {
  bk_data : bytes;
  bk_restarts : list Z;
  bk_restartKeys : list bytes
}.

Definition err_block_small := ErrNew "sstable: block too small".
Definition err_restarts_truncated := ErrNew "sstable: block restarts truncated".
Definition err_missing_restarts := ErrNew "sstable: block missing restart points".
Definition err_restart_range := ErrNew "sstable: block restart offset out of range".
Definition err_restart_truncated := ErrNew "sstable: restart entry truncated".
Definition err_restart_shared := ErrNew "sstable: restart entry has shared prefix".
Definition err_entry_truncated := ErrNew "sstable: entry truncated".
Definition err_shared_invalid := ErrNew "sstable: entry shared prefix invalid".

(** The restart offsets from index [i] on, [n] of them. *)
Fixpoint decode_restarts (payload : bytes) (offsetStart dataLen : Z) (i : Z) (n : nat)
  : result (list Z) :=
  match n with
  | O => Ok []
  | S n =>
      let pos := offsetStart + i * blockOffsetSize in
      off ← slice payload pos (pos + blockOffsetSize);
      let off := le_decode off in
      if bool_decide (u32 dataLen <= off) then Err err_restart_range else
      rest ← decode_restarts payload offsetStart dataLen (i + 1) n;
      Ok (off :: rest)
  end.

Definition restart_key (data : bytes) (off : Z) : result bytes :=
  let pos := off in
  if bool_decide (zlen data - pos < entryHeaderSize) then Err err_restart_truncated else
  shared ← slice data pos (pos + 4);
  unshared ← slice data (pos + 4) (pos + 8);
  valLen ← slice data (pos + 8) (pos + 12);
  if bool_decide (le_decode shared ≠ 0) then Err err_restart_shared else
  let keyStart := pos + entryHeaderSize in
  let keyEnd := keyStart + le_decode unshared in
  let valEnd := keyEnd + le_decode valLen in
  if bool_decide (keyStart < 0 \/ zlen data < valEnd) then Err err_restart_truncated else
  slice data keyStart keyEnd.

Fixpoint restart_keys (data : bytes) (restarts : list Z) : result (list bytes) :=
  match restarts with
  | [] => Ok []
  | off :: restarts =>
      k ← restart_key data off;
      ks ← restart_keys data restarts;
      Ok (k :: ks)
  end.

Definition Decode (payload : bytes) : result Block :=
  if bool_decide (zlen payload < blockCountSize) then Err err_block_small else
  count ← slice payload (zlen payload - blockCountSize) (zlen payload);
  let count := le_decode count in
  let offsetsLen := count * blockOffsetSize in
  if bool_decide (zlen payload < blockCountSize + offsetsLen) then Err err_restarts_truncated else
  let offsetStart := zlen payload - blockCountSize - offsetsLen in
  data ← slice payload 0 offsetStart;
  if bool_decide (count = 0 /\ 0 < zlen data) then Err err_missing_restarts else
  restarts ← decode_restarts payload offsetStart (zlen data) 0 (Z.to_nat count);
  restartKeys ← restart_keys data restarts;
  Ok (mkBlock data restarts restartKeys).

(** ** Cursors *)

Record Cursor := mkCursor {
  c_block : Block;
  c_offset : Z;
  c_limit : Z;
  c_lastKey : bytes
}.

Definition NewCursor (b : Block) (offset limit : Z) : Cursor :=
  let limit := if bool_decide (limit <= 0 \/ zlen (bk_data b) < limit) then zlen (bk_data b) else limit in
  let offset := if bool_decide (offset < 0) then 0 else offset in
  let offset := if bool_decide (limit < offset) then limit else offset in
  mkCursor b offset limit [].

(** The next entry, [None] at the limit.  The key of the view lives in the
    cursor's scratch buffer until the next call. *)
Definition Cursor_Next (c : Cursor) : result (option EntryView) * Cursor :=
  if bool_decide (c_limit c <= c_offset c) then (Ok None, c) else
  let data := bk_data (c_block c) in
  let o := c_offset c in
  if bool_decide (c_limit c - o < entryHeaderSize) then (Err err_entry_truncated, c) else
  match (shared ← slice data o (o + 4);
         unshared ← slice data (o + 4) (o + 8);
         valLen ← slice data (o + 8) (o + 12);
         seq ← slice data (o + 12) (o + 20);
         flags ← index data (o + 20);
         let shared := le_decode shared in
         let keyStart := o + entryHeaderSize in
         let keyEnd := keyStart + le_decode unshared in
         let valEnd := keyEnd + le_decode valLen in
         if bool_decide (keyStart < 0 \/ c_limit c < valEnd) then Err err_entry_truncated else
         if bool_decide (zlen (c_lastKey c) < shared) then Err err_shared_invalid else
         prefix ← slice (c_lastKey c) 0 shared;
         suffix ← slice data keyStart keyEnd;
         value ← slice data keyEnd valEnd;
         Ok (mkEntryView (prefix ++ suffix) value (bool_decide (Z.land (byte_to_Z flags) 1 = 1))
               (le_decode seq), valEnd)) with
  | Ok (view, valEnd) => (Ok (Some view), mkCursor (c_block c) valEnd (c_limit c) (View_Key view))
  | Err e => (Err e, c)
  | Panic => (Panic, c)
  | NoFuel => (NoFuel, c)
  end.

(** The restart point from which [key] is searched. *)
Definition restart_index (b : Block) (key : bytes) : nat :=
  let idx := sort_Search (length (bk_restartKeys b))
    (fun i => match bk_restartKeys b !! i with
              | Some k => bool_decide (bytes_compare k key = Gt)
              | None => false
              end) in
  Nat.pred idx.

(** Every entry takes at least [entryHeaderSize] bytes of the block. *)
Definition scan_fuel (b : Block) : nat := S (length (bk_data b)).

Fixpoint find_loop (fuel : nat) (c : Cursor) (key : bytes) : result (option EntryView) :=
  match fuel with
  | O => NoFuel
  | S fuel =>
      match Cursor_Next c with
      | (Ok None, _) => Ok None
      | (Ok (Some entry), c) =>
          match bytes_compare (View_Key entry) key with
          | Eq => Ok (Some entry)
          | Gt => Ok None
          | Lt => find_loop fuel c key
          end
      | (Err e, _) => Err e
      | (Panic, _) => Panic
      | (NoFuel, _) => NoFuel
      end
  end.

Definition FindView (b : Block) (key : bytes) : result (option EntryView) :=
  if bool_decide (length (bk_restarts b) = 0%nat) then Ok None else
  let idx := restart_index b key in
  start ← index (bk_restarts b) (Z.of_nat idx);
  let limit := match bk_restarts b !! S idx with Some off => off | None => zlen (bk_data b) end in
  find_loop (scan_fuel b) (NewCursor b start limit) key.

Definition Find (b : Block) (key : bytes) : result (option Entry) :=
  v ← FindView b key;
  Ok (option_map EntryView_ToEntry v).

Fixpoint seek_loop (fuel : nat) (c : Cursor) (key : bytes) : result (option (Cursor * EntryView)) :=
  match fuel with
  | O => NoFuel
  | S fuel =>
      match Cursor_Next c with
      | (Ok None, _) => Ok None
      | (Ok (Some entry), c) =>
          match bytes_compare (View_Key entry) key with
          | Lt => seek_loop fuel c key
          | _ => Ok (Some (c, entry))
          end
      | (Err e, _) => Err e
      | (Panic, _) => Panic
      | (NoFuel, _) => NoFuel
      end
  end.

(** The first entry not below [key], and the cursor behind it. *)
Definition Seek (b : Block) (key : bytes) : result (option (Cursor * EntryView)) :=
  if bool_decide (length (bk_restarts b) = 0%nat) then Ok None else
  start ← index (bk_restarts b) (Z.of_nat (restart_index b key));
  seek_loop (scan_fuel b) (NewCursor b start (zlen (bk_data b))) key.

(** Reading a cursor to its end. *)
Fixpoint cursor_entries (fuel : nat) (c : Cursor) : result (list EntryView) :=
  match fuel with
  | O => NoFuel
  | S fuel =>
      match Cursor_Next c with
      | (Ok None, _) => Ok []
      | (Ok (Some entry), c) => rest ← cursor_entries fuel c; Ok (entry :: rest)
      | (Err e, _) => Err e
      | (Panic, _) => Panic
      | (NoFuel, _) => NoFuel
      end
  end.

(** ** The layout of a block's data *)

(** An encoded entry: whether it is a restart point, and how many bytes it
    shares with the key before it. *)
Record item := mkItem {
  it_restart : bool;
  it_shared : nat;
  it_entry : Entry
}.

Definition it_key (it : item) : bytes := Key (it_entry it).

Definition enc (it : item) : bytes :=
  appendEntry [] (Z.of_nat (it_shared it)) (zlen (it_key it) - Z.of_nat (it_shared it)) (it_entry it).

Definition enc_all (items : list item) : bytes := concat (map enc items).

(** What the cursor needs of the key before an item. *)
Definition shares (prev : bytes) (it : item) : Prop :=
  (it_shared it <= length prev)%nat /\ (it_shared it <= length (it_key it))%nat /\
  take (it_shared it) prev = take (it_shared it) (it_key it).

Definition item_ok (it : item) : Prop :=
  Entry_wf (it_entry it) /\ (it_restart it = true -> it_shared it = 0%nat) /\
  (it_shared it <= length (it_key it))%nat.

Fixpoint chain (prev : bytes) (items : list item) : Prop :=
  match items with
  | [] => True
  | it :: items => shares prev it /\ chain (it_key it) items
  end.

Definition last_key (items : list item) : bytes :=
  match last items with Some it => it_key it | None => [] end.

Fixpoint restart_offsets (start : Z) (items : list item) : list Z :=
  match items with
  | [] => []
  | it :: items =>
      let rest := restart_offsets (start + zlen (enc it)) items in
      if it_restart it then u32 start :: rest else rest
  end.

Fixpoint keys_of_restarts (items : list item) : list bytes :=
  match items with
  | [] => []
  | it :: items => if it_restart it then it_key it :: keys_of_restarts items else keys_of_restarts items
  end.

#[export] Hint Unfold entryHeaderSize blockOffsetSize blockCountSize : zconst.

Lemma appendEntry_app dst s u e : appendEntry dst s u e = dst ++ appendEntry [] s u e.
Proof. reflexivity. Qed.

Lemma zlen_drop {A} (l : list A) n : (n <= length l)%nat -> zlen (drop n l) = zlen l - Z.of_nat n.
Proof. intros. unfold zlen. rewrite length_drop. lia. Qed.

Lemma zlen_enc it :
  item_ok it ->
  zlen (enc it) = entryHeaderSize + (zlen (it_key it) - Z.of_nat (it_shared it)) + zlen (Value (it_entry it)).
Proof.
  intros (_ & _ & H). unfold enc, appendEntry. rewrite app_nil_l.
  autorewrite with zlen. rewrite Nat2Z.id. fold (it_key it). rewrite zlen_drop by done.
  autounfold with zconst. lia.
Qed.

Lemma enc_all_app a b : enc_all (a ++ b) = enc_all a ++ enc_all b.
Proof. unfold enc_all. now rewrite map_app, concat_app. Qed.

Lemma enc_all_cons it items : enc_all (it :: items) = enc it ++ enc_all items.
Proof. reflexivity. Qed.

Lemma restart_offsets_app start a b :
  restart_offsets start (a ++ b) = restart_offsets start a ++ restart_offsets (start + zlen (enc_all a)) b.
Proof.
  revert start. induction a as [|it a IH]; intros start; cbn [app restart_offsets].
  - change (zlen (enc_all [])) with 0. now rewrite Z.add_0_r.
  - rewrite IH, enc_all_cons, zlen_app, Z.add_assoc. now destruct (it_restart it).
Qed.

Lemma last_key_snoc items it : last_key (items ++ [it]) = it_key it.
Proof. unfold last_key. now rewrite last_snoc. Qed.

Lemma chain_app prev a b :
  chain prev (a ++ b) <-> chain prev a /\ chain (match last a with Some it => it_key it | None => prev end) b.
Proof.
  revert prev. induction a as [|it a IH]; intros prev; cbn [app chain]; [tauto|].
  rewrite IH, last_cons. destruct (last a); tauto.
Qed.

(** The fields of an encoded entry behind [pre]. *)
Lemma enc_fields pre it suf :
  item_ok it ->
  let data := pre ++ enc it ++ suf in
  let o := zlen pre in
  let u := zlen (it_key it) - Z.of_nat (it_shared it) in
  let e := it_entry it in
  slice data o (o + 4) = Ok (PutUint32 (Z.of_nat (it_shared it))) /\
  slice data (o + 4) (o + 8) = Ok (PutUint32 u) /\
  slice data (o + 8) (o + 12) = Ok (PutUint32 (zlen (Value e))) /\
  slice data (o + 12) (o + 20) = Ok (PutUint64 (Seq e)) /\
  index data (o + 20) = Ok (byte_of_Z (if Tombstone e then Z.lor 0 1 else 0)) /\
  slice data (o + entryHeaderSize) (o + entryHeaderSize + u) = Ok (drop (it_shared it) (it_key it)) /\
  slice data (o + entryHeaderSize + u) (o + entryHeaderSize + u + zlen (Value e)) = Ok (Value e).
Proof.
  intros (Hwf & _ & Hs) data o u e.
  destruct (Entry_wf_lengths e Hwf) as [Hk Hv].
  change (Key e) with (it_key it) in Hk.
  assert (Hu : is_u32 u) by (subst u; unfold is_u32, zlen in *; lia).
  assert (Hsh : is_u32 (Z.of_nat (it_shared it))) by (unfold is_u32, zlen in *; lia).
  assert (Hd : zlen (drop (it_shared it) (it_key it)) = u) by (subst u; now apply zlen_drop).
  subst data. unfold enc, appendEntry. rewrite app_nil_l, Nat2Z.id. fold (it_key it) u e.
  rewrite (u32_id _ Hu), (u32_id _ Hsh), (u32_id _ Hv).
  set (f1 := PutUint32 (Z.of_nat (it_shared it))). set (f2 := PutUint32 u).
  set (f3 := PutUint32 (zlen (Value e))). set (f4 := PutUint64 (Seq e)).
  set (f5 := byte_of_Z _). set (k := drop (it_shared it) (it_key it)) in *.
  rewrite <- !app_assoc. repeat split.
  - apply (slice_mid _ pre f1 (f2 ++ f3 ++ f4 ++ [f5] ++ k ++ Value e ++ suf)); done || zlen_solve.
  - apply (slice_mid _ (pre ++ f1) f2 (f3 ++ f4 ++ [f5] ++ k ++ Value e ++ suf)); rewrite <- ?app_assoc; done || zlen_solve.
  - apply (slice_mid _ (pre ++ f1 ++ f2) f3 (f4 ++ [f5] ++ k ++ Value e ++ suf)); rewrite <- ?app_assoc; done || zlen_solve.
  - apply (slice_mid _ (pre ++ f1 ++ f2 ++ f3) f4 ([f5] ++ k ++ Value e ++ suf)); rewrite <- ?app_assoc; done || zlen_solve.
  - apply (index_mid _ (pre ++ f1 ++ f2 ++ f3 ++ f4) (k ++ Value e ++ suf)); rewrite <- ?app_assoc; done || zlen_solve.
  - apply (slice_mid _ (pre ++ f1 ++ f2 ++ f3 ++ f4 ++ [f5]) k (Value e ++ suf));
      rewrite <- ?app_assoc; [done|zlen_solve|]. rewrite Hd. zlen_solve.
  - apply (slice_mid _ (pre ++ f1 ++ f2 ++ f3 ++ f4 ++ [f5] ++ k) (Value e) suf);
      rewrite <- ?app_assoc; [done| |]; autorewrite with zlen; rewrite Hd; zlen_solve.
Qed.

(** ** The cursor *)

Lemma enc_fields_decoded it :
  item_ok it ->
  le_decode (PutUint32 (Z.of_nat (it_shared it))) = Z.of_nat (it_shared it) /\
  le_decode (PutUint32 (zlen (it_key it) - Z.of_nat (it_shared it)))
    = zlen (it_key it) - Z.of_nat (it_shared it) /\
  le_decode (PutUint32 (zlen (Value (it_entry it)))) = zlen (Value (it_entry it)) /\
  le_decode (PutUint64 (Seq (it_entry it))) = Seq (it_entry it).
Proof.
  intros (Hwf & _ & Hs). destruct (Entry_wf_lengths _ Hwf) as [Hk Hv].
  change (Key (it_entry it)) with (it_key it) in Hk.
  rewrite !le_decode_put32, le_decode_put64; auto; try apply Hwf;
    unfold is_u32, zlen in *; lia.
Qed.

(** A cursor in front of an item, with a last key that covers what the item
    shares, returns the item's entry and moves behind it. *)
Lemma Cursor_Next_item b pre it suf limit lastKey :
  bk_data b = pre ++ enc it ++ suf -> item_ok it -> shares lastKey it ->
  zlen pre + zlen (enc it) <= limit <= zlen (bk_data b) ->
  Cursor_Next (mkCursor b (zlen pre) limit lastKey)
  = (Ok (Some (EntryView_of (it_entry it))), mkCursor b (zlen (pre ++ enc it)) limit (it_key it)).
Proof.
  intros Hb Hok (Hl & Hs & Htake) Hlim. rewrite (zlen_enc _ Hok) in Hlim.
  pose proof (zlen_nonneg (Value (it_entry it))). pose proof (zlen_nonneg pre).
  assert (0 <= zlen (it_key it) - Z.of_nat (it_shared it)) by (unfold zlen; lia).
  unfold Cursor_Next. cbn [c_block c_offset c_limit c_lastKey].
  rewrite bool_decide_false by zlen_solve. rewrite bool_decide_false by zlen_solve.
  destruct (enc_fields pre it suf Hok) as (F1 & F2 & F3 & F4 & F5 & F6 & F7).
  destruct (enc_fields_decoded it Hok) as (D1 & D2 & D3 & D4).
  rewrite Hb, F1, F2, F3, F4. cbn [mbind result_bind]. rewrite F5. cbn [mbind result_bind].
  rewrite D1, D2, D3, D4.
  rewrite bool_decide_false by (autounfold with zconst in *; lia).
  rewrite bool_decide_false by (unfold zlen; lia).
  rewrite (slice_mid lastKey [] (take (it_shared it) lastKey) (drop (it_shared it) lastKey) 0)
    by (rewrite ?app_nil_l, ?take_drop, ?zlen_nil; try done; unfold zlen; rewrite length_take; lia).
  cbn [mbind result_bind]. rewrite F6. cbn [mbind result_bind]. rewrite F7. cbn [mbind result_bind View_Key].
  rewrite Htake, take_drop. rewrite zlen_app, (zlen_enc _ Hok), byte_to_of_Z.
  replace (zlen pre + (_ + _ + _)) with (zlen pre + entryHeaderSize
    + (zlen (it_key it) - Z.of_nat (it_shared it)) + zlen (Value (it_entry it))) by lia.
  unfold EntryView_of, it_key. now destruct (Tombstone (it_entry it)).
Qed.

(** What a scan of the items in front of the cursor finds. *)
Fixpoint find_items (key : bytes) (items : list item) : option Entry :=
  match items with
  | [] => None
  | it :: items =>
      match bytes_compare (it_key it) key with
      | Eq => Some (it_entry it)
      | Gt => None
      | Lt => find_items key items
      end
  end.

Lemma scan_fuel_enough b (pre : bytes) seg :
  Forall item_ok seg -> (length pre + length (enc_all seg) <= length (bk_data b))%nat ->
  (length seg < scan_fuel b)%nat.
Proof.
  intros Hok Hl. unfold scan_fuel.
  assert (length seg <= length (enc_all seg))%nat; [|lia].
  clear Hl. induction Hok as [|it seg Hit Hseg IH]; [simpl; lia|].
  rewrite enc_all_cons, length_app. pose proof (zlen_enc it Hit) as Hz.
  destruct Hit as (_ & _ & Hs). pose proof (zlen_nonneg (Value (it_entry it))).
  unfold zlen, entryHeaderSize in *. simpl. lia.
Qed.

Lemma find_loop_items b key seg : forall fuel pre suf lastKey,
  bk_data b = pre ++ enc_all seg ++ suf -> Forall item_ok seg -> chain lastKey seg ->
  (length seg < fuel)%nat ->
  find_loop fuel (mkCursor b (zlen pre) (zlen (pre ++ enc_all seg)) lastKey) key
  = Ok (EntryView_of <$> find_items key seg).
Proof.
  induction seg as [|it seg IH]; intros fuel pre suf lastKey Hb Hok Hch Hf;
    destruct fuel as [|fuel]; cbn [length] in Hf; try lia; cbn [find_loop find_items].
  - change (enc_all []) with (@nil byte). rewrite app_nil_r. unfold Cursor_Next; cbn [c_limit c_offset].
    rewrite bool_decide_true by lia. done.
  - apply Forall_cons in Hok as [Hit Hok]. destruct Hch as [Hs Hch].
    rewrite enc_all_cons in *. rewrite <- app_assoc in Hb.
    rewrite (Cursor_Next_item b pre it (enc_all seg ++ suf)); try done.
    2:{ rewrite Hb. autorewrite with zlen. pose proof (zlen_nonneg (enc_all seg)).
        pose proof (zlen_nonneg suf). lia. }
    cbn [View_Key EntryView_of]. fold (it_key it).
    destruct (bytes_compare (it_key it) key); [done| |done].
    rewrite app_assoc. apply (IH fuel _ suf); auto; [|lia]. now rewrite Hb, <- app_assoc.
Qed.

Fixpoint seek_items (key : bytes) (items : list item) : option (list item * item * list item) :=
  match items with
  | [] => None
  | it :: items =>
      match bytes_compare (it_key it) key with
      | Lt => match seek_items key items with
              | Some (skipped, hit, rest) => Some (it :: skipped, hit, rest)
              | None => None
              end
      | _ => Some ([], it, items)
      end
  end.

Lemma seek_loop_items b key seg : forall fuel pre lastKey,
  bk_data b = pre ++ enc_all seg -> Forall item_ok seg -> chain lastKey seg ->
  (length seg < fuel)%nat ->
  seek_loop fuel (mkCursor b (zlen pre) (zlen (bk_data b)) lastKey) key
  = Ok (match seek_items key seg with
        | Some (skipped, hit, rest) =>
            Some (mkCursor b (zlen (pre ++ enc_all (skipped ++ [hit]))) (zlen (bk_data b)) (it_key hit),
                  EntryView_of (it_entry hit))
        | None => None
        end).
Proof.
  induction seg as [|it seg IH]; intros fuel pre lastKey Hb Hok Hch Hf;
    destruct fuel as [|fuel]; cbn [length] in Hf; try lia; cbn [seek_loop seek_items].
  - rewrite Hb. change (enc_all []) with (@nil byte). rewrite app_nil_r. unfold Cursor_Next; cbn [c_limit c_offset].
    rewrite bool_decide_true by lia. done.
  - apply Forall_cons in Hok as [Hit Hok]. destruct Hch as [Hs Hch].
    rewrite enc_all_cons in *.
    rewrite (Cursor_Next_item b pre it (enc_all seg)); try done.
    2:{ rewrite Hb. autorewrite with zlen. pose proof (zlen_nonneg (enc_all seg)). lia. }
    cbn [View_Key EntryView_of]. fold (it_key it).
    destruct (bytes_compare (it_key it) key).
    1,3: unfold enc_all; cbn [app map concat]; now rewrite app_nil_r.
    rewrite (IH fuel (pre ++ enc it)); [|now rewrite Hb, app_assoc|done|done|lia].
    destruct (seek_items key seg) as [[[sk hit] rest]|]; [|done].
    cbn [app]. rewrite enc_all_cons, app_assoc. done.
Qed.

Lemma cursor_entries_items b seg : forall fuel pre suf lastKey,
  bk_data b = pre ++ enc_all seg ++ suf -> Forall item_ok seg -> chain lastKey seg ->
  (length seg < fuel)%nat ->
  cursor_entries fuel (mkCursor b (zlen pre) (zlen (pre ++ enc_all seg)) lastKey)
  = Ok (map (fun it => EntryView_of (it_entry it)) seg).
Proof.
  induction seg as [|it seg IH]; intros fuel pre suf lastKey Hb Hok Hch Hf;
    destruct fuel as [|fuel]; cbn [length] in Hf; try lia; cbn [cursor_entries map].
  - change (enc_all []) with (@nil byte). rewrite app_nil_r. unfold Cursor_Next; cbn [c_limit c_offset].
    rewrite bool_decide_true by lia. done.
  - apply Forall_cons in Hok as [Hit Hok]. destruct Hch as [Hs Hch].
    rewrite enc_all_cons in *. rewrite <- app_assoc in Hb.
    rewrite (Cursor_Next_item b pre it (enc_all seg ++ suf)); try done.
    2:{ rewrite Hb. autorewrite with zlen. pose proof (zlen_nonneg (enc_all seg)).
        pose proof (zlen_nonneg suf). lia. }
    rewrite app_assoc. rewrite (IH fuel _ suf); [done|now rewrite Hb, <- app_assoc|done|done|lia].
Qed.

(** ** The builder keeps the layout *)

Lemma commonPrefixLen_spec a b :
  0 <= commonPrefixLen a b /\
  (Z.to_nat (commonPrefixLen a b) <= length a)%nat /\
  (Z.to_nat (commonPrefixLen a b) <= length b)%nat /\
  take (Z.to_nat (commonPrefixLen a b)) a = take (Z.to_nat (commonPrefixLen a b)) b.
Proof.
  revert b. induction a as [|x a IH]; intros [|y b]; cbn [commonPrefixLen]; try (simpl; repeat split; lia || done).
  case_bool_decide as E; [|simpl; repeat split; lia || done]. subst y.
  destruct (IH b) as (H0 & H1 & H2 & H3).
  replace (Z.to_nat (1 + commonPrefixLen a b)) with (S (Z.to_nat (commonPrefixLen a b))) by lia.
  cbn [take length]. rewrite H3. repeat split; lia || done.
Qed.

(** The restart interval stays within its bounds. *)
Definition interval_ok (b : Builder) : Prop :=
  1 <= b_minRestart b <= b_maxRestart b /\
  b_minRestart b <= b_restartInterval b <= b_maxRestart b /\
  b_minRestart b <= b_baseRestart b <= b_maxRestart b.

Record builder_rep (b : Builder) (items : list item) : Prop := {
  br_buf : b_buf b = enc_all items;
  br_restarts : b_restartOffsets b = restart_offsets 0 items;
  br_lastKey : b_lastKey b = last_key items;
  br_count : b_entryCount b = zlen items;
  br_items : Forall item_ok items;
  br_chain : chain [] items;
  br_head it : head items = Some it -> it_restart it = true;
  br_interval : interval_ok b
}.

Lemma NewBuilder_rep interval adaptive min max :
  builder_rep (NewBuilder interval adaptive min max) [].
Proof.
  split; try done. unfold interval_ok, NewBuilder, defaultRestartInterval; cbn.
  repeat case_bool_decide; lia.
Qed.

Lemma Reset_rep b items : builder_rep b items -> builder_rep (Reset b) [].
Proof.
  intros R. split; try done. destruct (br_interval _ _ R) as (H1 & H2 & H3).
  unfold interval_ok; cbn. lia.
Qed.

Lemma adaptRestartInterval_keeps b :
  let b' := adaptRestartInterval b in
  b_buf b' = b_buf b /\ b_restartOffsets b' = b_restartOffsets b /\ b_lastKey b' = b_lastKey b /\
  b_entryCount b' = b_entryCount b /\ b_first b' = b_first b /\ (interval_ok b -> interval_ok b').
Proof.
  unfold adaptRestartInterval. case_bool_decide; [done|].
  do 5 (split; [done|]). unfold interval_ok. cbn [b_minRestart b_maxRestart b_restartInterval b_baseRestart with_sums with_interval].
  intros (H1 & H2 & H3). repeat case_bool_decide; lia.
Qed.

(** The sharing the builder chooses is sound, and the first entry is a
    restart point. *)
Lemma nextEntrySizing_ok b items e :
  builder_rep b items -> Entry_wf e ->
  exists it, it_entry it = e /\ item_ok it /\ shares (last_key items) it /\
    (items = [] -> it_restart it = true) /\
    nextEntrySizing b e
    = ((Z.of_nat (it_shared it), zlen (Key e) - Z.of_nat (it_shared it), it_restart it), b).
Proof.
  intros R He. destruct (br_interval _ _ R) as (H1 & H2 & _).
  unfold nextEntrySizing. rewrite (bool_decide_false (b_restartInterval b <= 0)) by lia.
  rewrite (br_lastKey _ _ R), (br_count _ _ R).
  set (restart := bool_decide (Z.rem (zlen items) (b_restartInterval b) = 0)).
  set (shared := if bool_decide (restart = false /\ _) then _ else 0).
  assert (Hsh : 0 <= shared /\ (Z.to_nat shared <= length (last_key items))%nat /\
    (Z.to_nat shared <= length (Key e))%nat /\
    take (Z.to_nat shared) (last_key items) = take (Z.to_nat shared) (Key e) /\
    (restart = true -> shared = 0)).
  { subst shared. case_bool_decide as Hc.
    - pose proof (commonPrefixLen_spec (last_key items) (Key e)) as (? & ? & ? & ?).
      repeat split; try done. destruct Hc as [-> _]. done.
    - simpl. repeat split; lia || done. }
  destruct Hsh as (Hs0 & Hs1 & Hs2 & Hs3 & Hs4).
  rewrite bool_decide_false by (unfold zlen; lia).
  exists (mkItem restart (Z.to_nat shared) e). cbn [it_entry it_shared it_restart].
  rewrite Z2Nat.id by done. split; [done|]. split; [|split; [|split; [|done]]].
  - split; [done|]. split; [|exact Hs2]. cbn. intros Hr. now rewrite (Hs4 Hr).
  - split; [exact Hs1|]. split; [exact Hs2|exact Hs3].
  - intros ->. unfold restart. apply bool_decide_true. now rewrite Z.rem_0_l by lia.
Qed.

Lemma Add_rep b items e :
  builder_rep b items -> Entry_wf e ->
  exists it, it_entry it = e /\ builder_rep (Add b e) (items ++ [it]) /\
    b_first (Add b e) = (if bool_decide (b_first b = []) then Key e else b_first b).
Proof.
  intros R He. destruct (nextEntrySizing_ok b items e R He) as (it & <- & Hok & Hsh & Hhd & E).
  exists it. split; [done|]. unfold Add. rewrite E.
  set (b1 := mkBuilder _ _ _ _ _ _ _ _ _ _ _ _).
  assert (R1 : builder_rep b1 (items ++ [it])).
  { split; cbn [b_buf b_restartOffsets b_lastKey b_entryCount b1].
    - rewrite enc_all_app, appendEntry_app, (br_buf _ _ R). unfold enc_all at 3. cbn [map concat].
      now rewrite app_nil_r.
    - rewrite restart_offsets_app, (br_restarts _ _ R), (br_buf _ _ R). cbn [restart_offsets].
      rewrite Z.add_0_l. destruct (it_restart it); [done|now rewrite app_nil_r].
    - now rewrite last_key_snoc.
    - rewrite (br_count _ _ R), zlen_app, zlen_cons, zlen_nil. lia.
    - apply Forall_app. split; [apply R|auto].
    - rewrite chain_app. split; [apply R|]. cbn. split; [|done].
      unfold last_key in Hsh. now destruct (last items).
    - intros it' Hh. destruct items as [|it0 items']; cbn in Hh.
      + injection Hh as <-. auto.
      + apply (br_head _ _ R it'). done.
    - destruct (br_interval _ _ R) as (H1 & H2 & H3). split; [|split]; done. }
  case_bool_decide as Hc.
  - destruct (adaptRestartInterval_keeps b1) as (K1 & K2 & K3 & K4 & K5 & K6).
    split; [|now rewrite K5]. destruct R1. split; try congruence; auto.
  - split; [exact R1|done].
Qed.

Definition add_all (b : Builder) (es : list Entry) : Builder := fold_left Add es b.

Lemma add_all_rep es : forall b items,
  builder_rep b items -> Forall Entry_wf es ->
  exists its, map it_entry its = es /\ builder_rep (add_all b es) (items ++ its).
Proof.
  induction es as [|e es IH]; intros b items R Hwf.
  - exists []. rewrite app_nil_r. done.
  - apply Forall_cons in Hwf as [He Hwf].
    destruct (Add_rep b items e R He) as (it & <- & R1 & _).
    destruct (IH _ _ R1 Hwf) as (its & <- & R2).
    exists (it :: its). rewrite <- app_assoc in R2. done.
Qed.

(** ** Decoding a finished block *)

Lemma restart_offsets_length start items : length (restart_offsets start items) = length (keys_of_restarts items).
Proof.
  revert start; induction items as [|it items IH]; intros start; cbn; [done|].
  destruct (it_restart it); cbn; now rewrite IH.
Qed.

Lemma zlen_put32s offs : zlen (concat (map (fun off => PutUint32 off) offs)) = 4 * zlen offs.
Proof.
  induction offs as [|o offs IH]; [done|]. cbn [map concat]. rewrite zlen_app, IH, zlen_le_encode, zlen_cons. lia.
Qed.

Lemma decode_restarts_encoded dataLen offs : forall pre i suf payload,
  payload = pre ++ concat (map (fun off => PutUint32 off) offs) ++ suf ->
  Forall (fun off => 0 <= off < u32 dataLen) offs ->
  decode_restarts payload (zlen pre - i * blockOffsetSize) dataLen i (length offs) = Ok offs.
Proof.
  induction offs as [|o offs IH]; intros pre i suf payload Hp Ho; [done|].
  apply Forall_cons in Ho as [Hlt Ho]. cbn [length decode_restarts].
  cbn [map concat] in Hp. rewrite <- app_assoc in Hp.
  replace (zlen pre - i * blockOffsetSize + i * blockOffsetSize) with (zlen pre) by lia.
  rewrite (slice_mid payload pre (PutUint32 o) (concat (map (fun off => PutUint32 off) offs) ++ suf))
    by (done || (unfold blockOffsetSize; now rewrite zlen_le_encode)).
  cbn [mbind result_bind]. pose proof (u32_range dataLen). unfold is_u32 in *.
  rewrite le_decode_put32 by (unfold is_u32; lia). rewrite bool_decide_false by lia.
  specialize (IH (pre ++ PutUint32 o) (i + 1) suf payload).
  rewrite zlen_app, zlen_le_encode in IH.
  replace (zlen pre + Z.of_nat 4 - (i + 1) * blockOffsetSize) with (zlen pre - i * blockOffsetSize) in IH
    by (unfold blockOffsetSize; lia).
  rewrite IH by (done || now rewrite <- app_assoc). done.
Qed.

Lemma restart_keys_encoded items : forall pre,
  Forall item_ok items -> zlen (pre ++ enc_all items) < 2 ^ 32 ->
  restart_keys (pre ++ enc_all items) (restart_offsets (zlen pre) items) = Ok (keys_of_restarts items).
Proof.
  induction items as [|it items IH]; intros pre Hok Hl; [done|].
  apply Forall_cons in Hok as [Hit Hok]. cbn [restart_offsets keys_of_restarts].
  rewrite enc_all_cons in *.
  specialize (IH (pre ++ enc it) Hok). rewrite <- app_assoc in IH. specialize (IH Hl).
  rewrite zlen_app in IH.
  destruct (it_restart it) eqn:Hr; [|exact IH].
  cbn [restart_keys]. pose proof (zlen_nonneg pre). pose proof (zlen_nonneg (enc_all items)).
  pose proof (zlen_enc it Hit) as Hz. pose proof (zlen_nonneg (Value (it_entry it))).
  autorewrite with zlen in Hl.
  assert (Hsh : it_shared it = 0%nat) by (now apply Hit).
  assert (Hlp : zlen pre < 2 ^ 32) by (pose proof (zlen_nonneg (enc it)); lia).
  rewrite u32_id by (unfold is_u32; lia).
  destruct (enc_fields pre it (enc_all items) Hit) as (F1 & F2 & F3 & _ & _ & F6 & _).
  destruct (enc_fields_decoded it Hit) as (D1 & D2 & D3 & _).
  pose proof (zlen_nonneg (it_key it)). rewrite Hsh in *.
  unfold restart_key. rewrite bool_decide_false by (autorewrite with zlen; rewrite Hz; autounfold with zconst; lia).
  rewrite F1, F2, F3. cbn [mbind result_bind]. rewrite D1, D2, D3.
  rewrite bool_decide_false by (intros Hx; now apply Hx).
  rewrite bool_decide_false by (autorewrite with zlen; rewrite Hz; autounfold with zconst; lia).
  rewrite F6. cbn [mbind result_bind]. rewrite drop_0, IH. done.
Qed.

Lemma restart_offsets_range items : forall start,
  0 <= start -> start + zlen (enc_all items) < 2 ^ 32 -> Forall item_ok items ->
  Forall (fun off => start <= off < start + zlen (enc_all items)) (restart_offsets start items).
Proof.
  induction items as [|it items IH]; intros start Hs Hl Hok; [constructor|].
  apply Forall_cons in Hok as [Hit Hok]. rewrite enc_all_cons, zlen_app in *.
  pose proof (zlen_enc it Hit). pose proof (zlen_nonneg (enc_all items)).
  pose proof (zlen_nonneg (Value (it_entry it))). destruct Hit as (_ & _ & Hsh).
  assert (0 < zlen (enc it)) by (autounfold with zconst in *; unfold zlen in *; lia).
  cbn [restart_offsets].
  assert (F : Forall (fun off => start <= off < start + (zlen (enc it) + zlen (enc_all items)))
    (restart_offsets (start + zlen (enc it)) items)).
  { eapply Forall_impl; [apply IH; auto; lia|]. intros off; cbv beta; lia. }
  destruct (it_restart it); [|done]. constructor; [|done]. rewrite u32_id by (unfold is_u32; lia). lia.
Qed.

Lemma restart_offsets_le items : forall start, zlen (restart_offsets start items) <= zlen items.
Proof.
  induction items as [|it items IH]; intros start; cbn [restart_offsets]; [done|].
  specialize (IH (start + zlen (enc it))). rewrite zlen_cons.
  destruct (it_restart it); rewrite ?zlen_cons; lia.
Qed.

Lemma items_le_bytes items : Forall item_ok items -> zlen items <= zlen (enc_all items).
Proof.
  induction 1 as [|it items Hit Hok IH]; [done|]. rewrite enc_all_cons, zlen_app, zlen_cons.
  pose proof (zlen_enc it Hit). pose proof (zlen_nonneg (Value (it_entry it))).
  destruct Hit as (_ & _ & Hsh). autounfold with zconst in *. unfold zlen in *. lia.
Qed.

(** Decoding a finished block gives its data, restart offsets and keys. *)
Lemma Decode_Finish b items :
  builder_rep b items -> zlen (b_buf b) < 2 ^ 32 ->
  Decode (Finish b) = Ok (mkBlock (enc_all items) (restart_offsets 0 items) (keys_of_restarts items)).
Proof.
  intros R Hl. unfold Finish. rewrite (br_buf _ _ R), (br_restarts _ _ R) in *.
  pose proof (br_items _ _ R) as Hok. pose proof (items_le_bytes _ Hok).
  pose proof (restart_offsets_le items 0). set (offs := restart_offsets 0 items) in *.
  set (os := concat (map (fun off => PutUint32 off) offs)). pose proof (zlen_nonneg offs).
  assert (Hos : zlen os = 4 * zlen offs) by apply zlen_put32s.
  assert (Hc : is_u32 (zlen offs)) by (unfold is_u32; lia). rewrite (u32_id _ Hc).
  pose proof (zlen_nonneg (enc_all items)).
  assert (Hlen : zlen (enc_all items ++ os ++ PutUint32 (zlen offs)) = zlen (enc_all items) + 4 * zlen offs + 4)
    by (rewrite !zlen_app, Hos, zlen_le_encode; lia).
  unfold Decode. rewrite Hlen. unfold blockCountSize.
  rewrite bool_decide_false by lia.
  rewrite (slice_mid _ (enc_all items ++ os) (PutUint32 (zlen offs)) [])
    by (rewrite ?app_nil_r, <- ?app_assoc; try done; rewrite ?zlen_app, ?Hos, ?zlen_le_encode; lia).
  cbn [mbind result_bind]. rewrite le_decode_put32 by done. unfold blockOffsetSize.
  rewrite bool_decide_false by lia.
  replace (zlen (enc_all items) + 4 * zlen offs + 4 - 4 - zlen offs * 4) with (zlen (enc_all items)) by lia.
  rewrite (slice_mid _ [] (enc_all items) (os ++ PutUint32 (zlen offs)) 0)
    by (rewrite ?zlen_nil; try done; lia).
  cbn [mbind result_bind]. rewrite bool_decide_false.
  2:{ intros [Hz Hp]. destruct items as [|it items']; [done|].
      pose proof (br_head _ _ R it eq_refl) as Hr. subst offs. cbn [restart_offsets] in Hz.
      rewrite Hr, zlen_cons in Hz. pose proof (zlen_nonneg (restart_offsets (0 + zlen (enc it)) items')). lia. }
  rewrite zlen_to_nat.
  pose proof (decode_restarts_encoded (zlen (enc_all items)) offs (enc_all items) 0 (PutUint32 (zlen offs)) _ eq_refl) as D.
  rewrite Z.mul_0_l, Z.sub_0_r in D. fold os in D. rewrite D.
  2:{ rewrite u32_id by (unfold is_u32; lia).
      eapply Forall_impl; [apply restart_offsets_range; done || lia|]. intros off; cbv beta; lia. }
  cbn [mbind result_bind].
  pose proof (restart_keys_encoded items [] Hok ltac:(done)) as K. rewrite zlen_nil in K. cbn [app] in K.
  fold offs in K. rewrite K. done.
Qed.

(** ** Lookups *)

Definition items_sorted (items : list item) : Prop :=
  StronglySorted (fun a b => it_key a ≺ it_key b) items.

Lemma keys_of_restarts_app a b : keys_of_restarts (a ++ b) = keys_of_restarts a ++ keys_of_restarts b.
Proof. induction a as [|it a IH]; cbn; [done|]. destruct (it_restart it); cbn; now rewrite IH. Qed.

Lemma keys_of_restarts_elem items k :
  k ∈ keys_of_restarts items -> exists it, it ∈ items /\ it_key it = k.
Proof.
  induction items as [|it items IH]; cbn; [by intros []%elem_of_nil|].
  destruct (it_restart it); [intros [->|H]%elem_of_cons|intros H]; [exists it; split; [by left|done]| |];
    destruct (IH H) as (it' & ? & ?); exists it'; (split; [by right|done]).
Qed.

Lemma keys_of_restarts_sorted items :
  items_sorted items -> StronglySorted BytesOT.lt (keys_of_restarts items).
Proof.
  induction 1 as [|it items Hs IH Hf]; cbn; [constructor|].
  destruct (it_restart it); [|done]. constructor; [done|].
  apply Forall_forall. intros k Hk. destruct (keys_of_restarts_elem _ _ Hk) as (it' & Hin & <-).
  rewrite Forall_forall in Hf. by apply Hf.
Qed.

(** The [i]-th restart point splits the items in front of it. *)
Lemma restart_split items : forall i k,
  keys_of_restarts items !! i = Some k ->
  exists pre it post, items = pre ++ it :: post /\ it_restart it = true /\ it_key it = k /\
    length (keys_of_restarts pre) = i /\
    forall start, restart_offsets start items !! i = Some (u32 (start + zlen (enc_all pre))).
Proof.
  induction items as [|it items IH]; intros i k H; cbn in H; [done|].
  destruct (it_restart it) eqn:Hr.
  - destruct i as [|i]; cbn in H.
    + injection H as <-. exists [], it, items. do 4 (split; [done|]).
      intros start. cbn [restart_offsets]. rewrite Hr. cbn. now rewrite Z.add_0_r.
    + destruct (IH i k H) as (pre & it' & post & -> & H1 & H2 & H3 & H4).
      exists (it :: pre), it', post. split; [done|]. do 2 (split; [done|]).
      split; [cbn; rewrite Hr; cbn; now rewrite H3|].
      intros start. cbn [restart_offsets]. rewrite Hr. cbn [lookup list_lookup].
      rewrite H4, enc_all_cons, zlen_app, Z.add_assoc. done.
  - destruct (IH i k H) as (pre & it' & post & -> & H1 & H2 & H3 & H4).
    exists (it :: pre), it', post. split; [done|]. do 2 (split; [done|]).
    split; [cbn; now rewrite Hr|].
    intros start. cbn [restart_offsets]. rewrite Hr, H4, enc_all_cons, zlen_app, Z.add_assoc. done.
Qed.

Lemma find_items_skip key pre l :
  Forall (fun it => it_key it ≺ key) pre -> find_items key (pre ++ l) = find_items key l.
Proof.
  induction 1 as [|it pre Hit Hpre IH]; [done|]. cbn [app find_items].
  unfold BytesOT.lt in Hit. now rewrite Hit.
Qed.

Lemma find_items_stop key seg suf :
  Forall (fun it => key ≺ it_key it) suf -> find_items key (seg ++ suf) = find_items key seg.
Proof.
  intros Hs. induction seg as [|it seg IH]; cbn [app find_items].
  - destruct Hs as [|it suf Hit _]; [done|]. cbn [find_items].
    now rewrite (proj2 (bytes_compare_Gt _ _) Hit).
  - now rewrite IH.
Qed.

Lemma seek_items_skip key pre l :
  Forall (fun it => it_key it ≺ key) pre ->
  seek_items key (pre ++ l) = match seek_items key l with
                              | Some (sk, hit, rest) => Some (pre ++ sk, hit, rest)
                              | None => None
                              end.
Proof.
  induction 1 as [|it pre Hit Hpre IH]; cbn [app seek_items].
  - destruct (seek_items key l) as [[[? ?] ?]|]; done.
  - unfold BytesOT.lt in Hit. rewrite Hit, IH. destruct (seek_items key l) as [[[? ?] ?]|]; done.
Qed.

(** On sorted items the scan is the lookup of the key. *)
Lemma find_items_lookup key items :
  items_sorted items -> find_items key items = lookup_entry key (map it_entry items).
Proof.
  induction 1 as [|it items Hs IH Hf]; [done|]. cbn [find_items map lookup_entry].
  change (Key (it_entry it)) with (it_key it).
  destruct (BytesOT.compare_spec (it_key it) key) as [E|E|E]; unfold BytesOT.compare.
  - rewrite (proj2 (bytes_compare_Eq _ _) E), bool_decide_true by done. done.
  - rewrite (proj2 (bytes_compare_Lt _ _) E), bool_decide_false by (intros Heq; rewrite Heq in E; by apply bytes_lt_irrefl in E).
    exact IH.
  - rewrite (proj2 (bytes_compare_Gt _ _) E), bool_decide_false by (intros Heq; rewrite Heq in E; by apply bytes_lt_irrefl in E).
    symmetry. apply lookup_entry_None. apply Forall_map. eapply Forall_impl; [exact Hf|].
    intros x Hx. cbn in *. change (Key (it_entry x)) with (it_key x). intros Heq. subst key. bytes_order.
Qed.

Lemma NewCursor_at b off lim :
  0 <= off <= lim -> 0 < lim <= zlen (bk_data b) -> NewCursor b off lim = mkCursor b off lim [].
Proof.
  intros. unfold NewCursor. cbv zeta.
  rewrite (bool_decide_false (lim <= 0 \/ _)), (bool_decide_false (off < 0)), (bool_decide_false (lim < off)) by lia.
  done.
Qed.

Lemma enc_all_nonempty it seg : item_ok it -> 0 < zlen (enc_all (it :: seg)).
Proof.
  intros H. rewrite enc_all_cons, zlen_app, (zlen_enc it H). destruct H as (_ & _ & H).
  pose proof (zlen_nonneg (enc_all seg)). pose proof (zlen_nonneg (Value (it_entry it))).
  unfold entryHeaderSize, zlen in *. lia.
Qed.

Section BlockLookups.
Context (items : list item) (Hok : Forall item_ok items) (Hchain : chain [] items).
Context (Hhead : forall it, head items = Some it -> it_restart it = true).
Context (Hsize : zlen (enc_all items) < 2 ^ 32) (Hsorted : items_sorted items).

Local Abbreviation blk := (mkBlock (enc_all items) (restart_offsets 0 items) (keys_of_restarts items)).

Lemma chain_from_restart pre it post :
  items = pre ++ it :: post -> it_restart it = true -> chain [] (it :: post).
Proof.
  intros E Hr. pose proof Hchain as C. rewrite E, chain_app in C. destruct C as [_ [Hs Hp]].
  split; [|exact Hp].
  assert (it_shared it = 0%nat) as H0.
  { rewrite E in Hok. apply Forall_app in Hok as [_ Hok']. apply Forall_cons in Hok' as [Hit _]. now apply Hit. }
  unfold shares. rewrite H0. split; [simpl; lia|]. split; [lia|done].
Qed.

(** The search starts at a restart point with only smaller keys in front of
    it, and the next restart point, if any, has only greater keys behind. *)
Lemma restart_index_spec key :
  items <> [] ->
  exists pre it post, items = pre ++ it :: post /\ it_restart it = true /\
    length (keys_of_restarts pre) = restart_index blk key /\
    restart_offsets 0 items !! restart_index blk key = Some (zlen (enc_all pre)) /\
    Forall (fun x => it_key x ≺ key) pre /\
    forall k, keys_of_restarts items !! S (restart_index blk key) = Some k -> key ≺ k.
Proof.
  intros Hne. pose proof (keys_of_restarts_sorted _ Hsorted) as Hks.
  set (ks := keys_of_restarts items) in *.
  assert (Hks0 : (0 < length ks)%nat).
  { subst ks. destruct items as [|it its]; [done|]. cbn. rewrite (Hhead it eq_refl). cbn. lia. }
  unfold restart_index. cbn [bk_restartKeys]. fold ks.
  set (f := fun i => match ks !! i with Some k => bool_decide (bytes_compare k key = Gt) | None => false end).
  destruct (sort_Search_spec (length ks) f) as (Hr & Hlo & Hhi).
  { intros a b Hab. unfold f.
    destruct (ks !! a) as [ka|] eqn:Ea; [|done]. destruct (lookup_lt_is_Some_2 ks b ltac:(lia)) as [kb Eb].
    rewrite Eb, !bool_decide_eq_true, !bytes_compare_Gt. intros Ha.
    destruct (decide (a = b)) as [->|]; [congruence|].
    assert (ka ≺ kb) by (apply (StronglySorted_lookup _ ks a b); [done|lia|done|done]). bytes_order. }
  cbv zeta in Hr, Hlo, Hhi. set (r := sort_Search (length ks) f) in *.
  destruct (lookup_lt_is_Some_2 ks (Nat.pred r) ltac:(lia)) as [k Ek].
  destruct (restart_split items (Nat.pred r) k Ek) as (pre & it & post & E & Hres & Hk & Hl & Ho).
  exists pre, it, post. split; [done|]. split; [done|]. split; [done|].
  assert (Hpl : zlen (enc_all pre) < 2 ^ 32).
  { rewrite E, enc_all_app, zlen_app in Hsize. pose proof (zlen_nonneg (enc_all (it :: post))). lia. }
  split; [rewrite Ho, Z.add_0_l, u32_id; [done|]; pose proof (zlen_nonneg (enc_all pre)); unfold is_u32; lia|].
  split.
  - destruct r as [|r'].
    + cbn [Nat.pred] in Hl. destruct pre as [|x pre]; [constructor|].
      exfalso. cbn in Hl. rewrite (Hhead x) in Hl by (rewrite E; done). done.
    + cbn [Nat.pred] in *. pose proof (Hlo r' ltac:(lia)) as Hf. unfold f in Hf. rewrite Ek in Hf.
      apply bool_decide_eq_false in Hf. rewrite bytes_compare_Gt in Hf.
      pose proof Hsorted as S. rewrite E in S. apply StronglySorted_app in S as [S _].
      apply Forall_forall. intros x Hx. specialize (S x it Hx ltac:(by left)). cbv beta in S. subst k. bytes_order.
  - intros k2 Ek2. assert (Hlt : (S (Nat.pred r) < length ks)%nat) by (by apply lookup_lt_Some in Ek2).
    pose proof (Hhi (S (Nat.pred r)) ltac:(lia)) as Hf. unfold f in Hf. rewrite Ek2 in Hf.
    apply bool_decide_eq_true in Hf. now apply bytes_compare_Gt.
Qed.

Lemma enc_all_prefix_u32 pre post : items = pre ++ post -> u32 (0 + zlen (enc_all pre)) = zlen (enc_all pre).
Proof.
  intros E. pose proof Hsize as Hs. rewrite E, enc_all_app, zlen_app in Hs. rewrite Z.add_0_l. apply u32_id.
  pose proof (zlen_nonneg (enc_all pre)). pose proof (zlen_nonneg (enc_all post)). unfold is_u32. lia.
Qed.

(** The restart interval that [FindView] scans: smaller keys in front of it,
    greater ones behind. *)
Lemma interval_split key :
  items <> [] ->
  exists pre it seg suf, items = pre ++ (it :: seg) ++ suf /\ chain [] (it :: seg) /\
    Forall (fun x => it_key x ≺ key) pre /\ Forall (fun x => key ≺ it_key x) suf /\
    restart_offsets 0 items !! restart_index blk key = Some (zlen (enc_all pre)) /\
    (match restart_offsets 0 items !! S (restart_index blk key) with Some off => off | None => zlen (enc_all items) end)
    = zlen (enc_all (pre ++ it :: seg)).
Proof.
  intros Hne. destruct (restart_index_spec key Hne) as (pre & it & post & E & Hr & Hl & Ho & Hpre & Hnext).
  set (idx := restart_index blk key) in *.
  pose proof (chain_from_restart _ _ _ E Hr) as Hc.
  destruct (keys_of_restarts items !! S idx) as [k|] eqn:Ek.
  - destruct (restart_split _ _ _ Ek) as (pre2 & it2 & post2 & E2 & Hr2 & Hk2 & Hl2 & Ho2).
    rewrite E in E2. apply app_eq_inv in E2 as [(l & -> & E2)|(l & -> & E2)].
    1:{ rewrite keys_of_restarts_app, length_app in Hl. lia. }
    destruct l as [|x seg]; [rewrite app_nil_r in Hl2; lia|].
    injection E2 as <- ->. exists pre, it, seg, (it2 :: post2).
    split; [done|]. split; [change (it :: seg ++ it2 :: post2) with ((it :: seg) ++ it2 :: post2) in Hc; apply chain_app in Hc; apply Hc|].
    split; [done|]. split; [|split; [done|]].
    + pose proof Hsorted as S. rewrite E in S.
      change (it :: seg ++ it2 :: post2) with ((it :: seg) ++ it2 :: post2) in S. rewrite app_assoc in S.
      apply StronglySorted_app in S as (_ & _ & S). apply StronglySorted_inv in S as [_ S].
      specialize (Hnext k eq_refl). subst k. constructor; [done|].
      eapply Forall_impl; [exact S|]. intros x Hx. cbv beta in Hx. bytes_order.
    + rewrite Ho2. apply enc_all_prefix_u32 with (post := it2 :: post2). rewrite E, <- app_assoc. done.
  - exists pre, it, post, []. rewrite app_nil_r. do 5 (split; [done|]).
    replace (restart_offsets 0 items !! S idx) with (@None Z); [by rewrite E|].
    symmetry. apply lookup_ge_None. rewrite restart_offsets_length. by apply lookup_ge_None in Ek.
Qed.

(** The scan of one restart interval is the scan of the whole block. *)
Lemma FindView_items key : FindView blk key = Ok (EntryView_of <$> find_items key items).
Proof.
  unfold FindView. cbn [bk_restarts bk_data].
  destruct (decide (items = [])) as [->|Hne]; [done|].
  destruct (interval_split key Hne) as (pre & it & seg & suf & E & Hc & Hpre & Hsuf & Ho & Hlim).
  rewrite bool_decide_false by (apply lookup_lt_Some in Ho; lia).
  unfold index. rewrite bool_decide_true by lia. rewrite Nat2Z.id, Ho. cbn [mbind result_bind].
  rewrite Hlim. pose proof Hok as Hok'. rewrite E in Hok'. apply Forall_app in Hok' as [_ Hok'].
  apply Forall_app in Hok' as [Hseg _]. pose proof (enc_all_nonempty it seg (Forall_inv Hseg)).
  pose proof (zlen_nonneg (enc_all pre)). pose proof (zlen_nonneg (enc_all suf)).
  assert (Ed : enc_all items = enc_all pre ++ enc_all (it :: seg) ++ enc_all suf) by (now rewrite E, !enc_all_app).
  rewrite NewCursor_at by (cbn [bk_data]; rewrite ?Ed, ?enc_all_app, ?zlen_app; lia).
  rewrite enc_all_app. rewrite (find_loop_items blk key (it :: seg) _ (enc_all pre) (enc_all suf)); auto.
  - rewrite E, find_items_skip, find_items_stop by done. done.
  - apply (scan_fuel_enough blk (enc_all pre)); [done|]. cbn [bk_data]. rewrite Ed, !length_app. lia.
Qed.

(** [Seek] reads on from the restart point to the end of the block. *)
Lemma Seek_items key :
  Seek blk key
  = Ok (match seek_items key items with
        | Some (skipped, hit, rest) =>
            Some (mkCursor blk (zlen (enc_all (skipped ++ [hit]))) (zlen (enc_all items)) (it_key hit),
                  EntryView_of (it_entry hit))
        | None => None
        end).
Proof.
  unfold Seek. cbn [bk_restarts bk_data].
  destruct (decide (items = [])) as [->|Hne]; [done|].
  destruct (restart_index_spec key Hne) as (pre & it & post & E & Hr & Hl & Ho & Hpre & _).
  rewrite bool_decide_false by (apply lookup_lt_Some in Ho; lia).
  unfold index. rewrite bool_decide_true by lia. rewrite Nat2Z.id, Ho. cbn [mbind result_bind].
  pose proof Hok as Hok'. rewrite E in Hok'. apply Forall_app in Hok' as [_ Hseg].
  pose proof (enc_all_nonempty it post (Forall_inv Hseg)).
  pose proof (zlen_nonneg (enc_all pre)).
  assert (Ed : enc_all items = enc_all pre ++ enc_all (it :: post)) by (now rewrite E, !enc_all_app).
  rewrite NewCursor_at by (cbn [bk_data]; rewrite ?Ed, ?enc_all_app, ?zlen_app; lia).
  change (zlen (enc_all items)) with (zlen (bk_data blk)).
  rewrite (seek_loop_items blk key (it :: post) _ (enc_all pre)); auto.
  - replace (seek_items key items) with (seek_items key (pre ++ it :: post)) by (now rewrite <- E).
    rewrite seek_items_skip by done.
    destruct (seek_items key (it :: post)) as [[[sk hit] rest]|]; [|done].
    rewrite <- app_assoc, (enc_all_app pre). done.
  - by apply chain_from_restart with (pre := pre).
  - apply (scan_fuel_enough blk (enc_all pre)); [done|]. cbn [bk_data]. rewrite Ed, !length_app. lia.
Qed.
End BlockLookups.

Lemma Add_lengths b items e :
  builder_rep b items -> Entry_wf e ->
  exists shared restart,
    nextEntrySizing b e = ((shared, zlen (Key e) - shared, restart), b) /\ 0 <= shared /\
    zlen (b_buf (Add b e)) = zlen (b_buf b) + entryEncodedSize (zlen (Key e) - shared) (zlen (Value e)) /\
    zlen (b_restartOffsets (Add b e)) = zlen (b_restartOffsets b) + (if (restart : bool) then 1 else 0).
Proof.
  intros R He. destruct (nextEntrySizing_ok b items e R He) as (it & <- & Hok & _ & _ & E).
  exists (Z.of_nat (it_shared it)), (it_restart it). split; [done|]. split; [lia|].
  unfold Add. rewrite E. set (b1 := mkBuilder _ _ _ _ _ _ _ _ _ _ _ _).
  assert (H : zlen (b_buf b1) = zlen (b_buf b) + entryEncodedSize (zlen (it_key it) - Z.of_nat (it_shared it)) (zlen (Value (it_entry it))) /\
    zlen (b_restartOffsets b1) = zlen (b_restartOffsets b) + (if it_restart it then 1 else 0)).
  { cbn [b1 b_buf b_restartOffsets]. split.
    - rewrite appendEntry_app, zlen_app. fold (it_key it). fold (enc it). rewrite (zlen_enc it Hok).
      unfold entryEncodedSize. lia.
    - destruct (it_restart it); rewrite ?zlen_app, ?zlen_cons, ?zlen_nil; lia. }
  case_bool_decide; [|exact H].
  destruct (adaptRestartInterval_keeps b1) as (K1 & K2 & _). now rewrite K1, K2.
Qed.

(** The sizes around an [Add], for a builder that holds some items. *)
Lemma builder_Add_sizes b items e :
  builder_rep b items -> Entry_wf e ->
  fst (EstimatedSizeAfter b e) = SizeBytes (Add b e) /\ SizeBytes (Add b e) = zlen (Finish (Add b e)) /\
  snd (EstimatedSizeAfter b e) = b /\
  zlen (Finish (Add b e)) <= zlen (Finish b) + 25 + zlen (Key e) + zlen (Value e).
Proof.
  intros R He. destruct (Add_rep b items e R He) as (it & _ & R1 & _).
  assert (Hs : SizeBytes (Add b e) = zlen (Finish (Add b e))).
  { unfold SizeBytes. rewrite (br_count _ _ R1), bool_decide_false.
    - unfold Finish. rewrite !zlen_app, zlen_put32s. autorewrite with zlen. autounfold with zconst. lia.
    - rewrite zlen_app, zlen_cons, zlen_nil. pose proof (zlen_nonneg items). lia. }
  destruct (Add_lengths b items e R He) as (shared & restart & En & Hsh & Hb & Hr).
  unfold EstimatedSizeAfter. rewrite En. cbn [fst snd]. rewrite Hs. unfold Finish.
  rewrite !zlen_app, !zlen_put32s, Hb, Hr. autorewrite with zlen. unfold entryEncodedSize.
  autounfold with zconst. destruct restart; repeat split; lia.
Qed.

(** ** What the table code relies on *)

(** [blk] is the decoded form of a block that holds the entries [es]. *)
Definition block_of (es : list Entry) (blk : Block) : Prop :=
  exists items, map it_entry items = es /\ Forall item_ok items /\ chain [] items /\
    (forall it, head items = Some it -> it_restart it = true) /\ zlen (enc_all items) < 2 ^ 32 /\
    blk = mkBlock (enc_all items) (restart_offsets 0 items) (keys_of_restarts items).

Lemma items_sorted_run items : sorted_run (map it_entry items) -> items_sorted items.
Proof.
  induction items as [|it items IH]; cbn [map]; intros H; [constructor|].
  apply StronglySorted_inv in H as [H Hf]. constructor; [by apply IH|].
  apply (proj1 (Forall_map _ _ _)) in Hf. exact Hf.
Qed.

Lemma Decode_rep b items :
  builder_rep b items -> zlen (b_buf b) < 2 ^ 32 ->
  exists blk, Decode (Finish b) = Ok blk /\ block_of (map it_entry items) blk.
Proof.
  intros R Hl. eexists. split; [by apply Decode_Finish|]. exists items. rewrite (br_buf _ _ R) in Hl.
  split; [done|]. destruct R. auto.
Qed.

Lemma zlen_Finish b : zlen (Finish b) = zlen (b_buf b) + 4 * zlen (b_restartOffsets b) + 4.
Proof. unfold Finish. rewrite !zlen_app, zlen_put32s. autorewrite with zlen. lia. Qed.

Lemma Decode_block_of interval adaptive min max es :
  Forall Entry_wf es -> zlen (b_buf (add_all (NewBuilder interval adaptive min max) es)) < 2 ^ 32 ->
  exists blk, Decode (Finish (add_all (NewBuilder interval adaptive min max) es)) = Ok blk /\ block_of es blk.
Proof.
  intros Hwf Hl. destruct (add_all_rep es _ _ (NewBuilder_rep interval adaptive min max) Hwf) as (its & E & R).
  cbn [app] in R. destruct (Decode_rep _ _ R Hl) as (blk & H & Hb). rewrite E in Hb. by exists blk.
Qed.

Lemma FindView_block_of es blk key :
  block_of es blk -> sorted_run es -> FindView blk key = Ok (EntryView_of <$> lookup_entry key es).
Proof.
  intros (items & <- & Hok & Hc & Hh & Hl & ->) Hs. apply items_sorted_run in Hs.
  rewrite FindView_items by done. by rewrite find_items_lookup.
Qed.

Lemma cursor_block_of es blk :
  block_of es blk -> cursor_entries (scan_fuel blk) (NewCursor blk 0 (zlen (bk_data blk))) = Ok (map EntryView_of es).
Proof.
  intros (items & <- & Hok & Hc & Hh & Hl & ->).
  destruct items as [|it items]; [done|].
  pose proof (enc_all_nonempty it items (Forall_inv Hok)).
  rewrite NewCursor_at by (cbn [bk_data]; lia).
  rewrite map_map. apply (cursor_entries_items _ (it :: items) _ [] []); auto.
  - cbn [bk_data]. now rewrite app_nil_r.
  - apply (scan_fuel_enough _ []); [done|]. cbn [bk_data length]. lia.
Qed.

Lemma seek_items_spec key items :
  match seek_items key items with
  | Some (sk, hit, rest) => items = sk ++ hit :: rest /\ Forall (fun it => it_key it ≺ key) sk /\ key ⪯ it_key hit
  | None => Forall (fun it => it_key it ≺ key) items
  end.
Proof.
  induction items as [|it items IH]; cbn [seek_items]; [constructor|].
  destruct (bytes_compare (it_key it) key) eqn:E.
  - apply bytes_compare_Eq in E. repeat split; [constructor|]. rewrite E. apply bytes_le_refl.
  - apply bytes_compare_Lt in E. destruct (seek_items key items) as [[[sk hit] rest]|].
    + destruct IH as (-> & H1 & H2). repeat split; auto.
    + auto.
  - apply bytes_compare_Gt in E. repeat split; [constructor|]. by apply bytes_lt_le.
Qed.

Lemma Seek_block_of es blk key :
  block_of es blk -> sorted_run es ->
  match entries_from key es with
  | [] => Seek blk key = Ok None
  | e :: rest => exists c, Seek blk key = Ok (Some (c, EntryView_of e)) /\
                   cursor_entries (scan_fuel blk) c = Ok (map EntryView_of rest)
  end.
Proof.
  intros (items & <- & Hok & Hc & Hh & Hl & ->) Hs. pose proof Hs as Hs'. apply items_sorted_run in Hs'.
  rewrite Seek_items by done. pose proof (seek_items_spec key items) as Hspec.
  destruct (seek_items key items) as [[[sk hit] rest]|].
  - destruct Hspec as (-> & Hsk & Hhit). rewrite map_app in *. cbn [map] in *.
    apply StronglySorted_app in Hs as (_ & _ & Hs).
    rewrite entries_from_split; [|by apply Forall_map|done|by intros e [= <-]].
    eexists. split; [done|]. change (sk ++ hit :: rest) with (sk ++ [hit] ++ rest) in *.
    rewrite (app_assoc sk) in *. apply Forall_app in Hok as [_ Hok]. rewrite enc_all_app in *.
    rewrite map_map. apply (cursor_entries_items _ rest _ (enc_all (sk ++ [hit])) []); auto.
    + cbn [bk_data]. now rewrite app_nil_r.
    + apply chain_app in Hc as [_ Hc]. by rewrite last_snoc in Hc.
    + apply (scan_fuel_enough _ (enc_all (sk ++ [hit]))); [done|]. cbn [bk_data]. rewrite length_app. lia.
  - rewrite <- (app_nil_r (map it_entry items)), entries_from_split; [done|by apply Forall_map|constructor|done].
Qed.

(** ** Properties *)

Definition sample_block_entries : list Entry :=
  [mkEntry (bytes_of_string "app") (bytes_of_string "1") false 7;
   mkEntry (bytes_of_string "apple") (bytes_of_string "22") false 8;
   mkEntry (bytes_of_string "apply") [] true 9;
   mkEntry (bytes_of_string "bat") (bytes_of_string "x") false 3].

(** C30. A data block is a faithful sorted map.  Whatever the restart interval
    and its adaptation, a block built from entries with ascending keys decodes
    without error, a point lookup through the binary search on restart keys
    finds exactly the entry of the key (tombstones and sequence numbers
    included, nothing for an absent key), and a cursor reads all entries back
    in order. *)
Theorem block_is_sorted_map interval adaptive min max es :
  Forall Entry_wf es -> sorted_run es ->
  zlen (b_buf (add_all (NewBuilder interval adaptive min max) es)) < 2 ^ 32 ->
  exists blk, Decode (Finish (add_all (NewBuilder interval adaptive min max) es)) = Ok blk /\
    (forall key, FindView blk key = Ok (EntryView_of <$> lookup_entry key es)) /\
    cursor_entries (scan_fuel blk) (NewCursor blk 0 (zlen (bk_data blk))) = Ok (map EntryView_of es).
Proof.
  intros Hwf Hs Hl. destruct (Decode_block_of _ _ _ _ _ Hwf Hl) as (blk & E & Hb).
  exists blk. split; [done|]. split; [intros key; by apply FindView_block_of|by apply cursor_block_of].
Qed.

Lemma block_is_sorted_map_witness :
  exists blk, Decode (Finish (add_all (NewBuilder 2 true 1 4) sample_block_entries)) = Ok blk /\
    FindView blk (bytes_of_string "apply") = Ok (Some (mkEntryView (bytes_of_string "apply") [] true 9)) /\
    FindView blk (bytes_of_string "apq") = Ok None.
Proof.
  destruct (block_is_sorted_map 2 true 1 4 sample_block_entries) as (blk & E & F & _).
  - decided.
  - repeat constructor.
  - vm_compute. done.
  - exists blk. split; [exact E|]. rewrite !F. split; reflexivity.
Defined.

(** Range positioning.  [Seek] on such a block stops at the first entry
    whose key is not below the target and leaves the cursor so that reading on
    gives exactly the rest of the block; when every key is smaller it reports
    no position. *)
Theorem block_seek_positions interval adaptive min max es key :
  Forall Entry_wf es -> sorted_run es ->
  zlen (b_buf (add_all (NewBuilder interval adaptive min max) es)) < 2 ^ 32 ->
  exists blk, Decode (Finish (add_all (NewBuilder interval adaptive min max) es)) = Ok blk /\
    match entries_from key es with
    | [] => Seek blk key = Ok None
    | e :: rest => exists c, Seek blk key = Ok (Some (c, EntryView_of e)) /\
                     cursor_entries (scan_fuel blk) c = Ok (map EntryView_of rest)
    end.
Proof.
  intros Hwf Hs Hl. destruct (Decode_block_of _ _ _ _ _ Hwf Hl) as (blk & E & Hb).
  exists blk. split; [done|by apply Seek_block_of].
Qed.

Lemma block_seek_positions_witness :
  exists blk, Decode (Finish (add_all (NewBuilder 2 true 1 4) sample_block_entries)) = Ok blk /\
    exists c, Seek blk (bytes_of_string "applz") =
              Ok (Some (c, mkEntryView (bytes_of_string "bat") (bytes_of_string "x") false 3)) /\
              cursor_entries (scan_fuel blk) c = Ok [].
Proof.
  destruct (block_seek_positions 2 true 1 4 sample_block_entries (bytes_of_string "applz")) as (blk & E & F).
  - decided.
  - repeat constructor.
  - vm_compute. done.
  - exists blk. split; [exact E|exact F].
Defined.

(** The size a writer plans with is exact: the estimate for adding an
    entry is the size after adding it, which is the length of the finished
    block, and planning leaves the builder's contents alone.  The adaptive
    restart interval never leaves its configured bounds. *)
Theorem builder_size_exact interval adaptive min max es e :
  Forall Entry_wf es -> Entry_wf e ->
  let b := add_all (NewBuilder interval adaptive min max) es in
  fst (EstimatedSizeAfter b e) = SizeBytes (Add b e) /\
  SizeBytes (Add b e) = zlen (Finish (Add b e)) /\
  snd (EstimatedSizeAfter b e) = b /\ interval_ok (Add b e).
Proof.
  intros Hwf He b. destruct (add_all_rep es _ _ (NewBuilder_rep interval adaptive min max) Hwf) as (its & E & R).
  cbn [app] in R. fold b in R. destruct (Add_rep b its e R He) as (it & _ & R1 & _).
  destruct (builder_Add_sizes b its e R He) as (H1 & H2 & H3 & _).
  split; [done|]. split; [done|]. split; [done|]. apply R1.
Qed.

Lemma builder_size_exact_witness :
  let b := add_all (NewBuilder 2 true 1 4) sample_block_entries in
  let e := mkEntry (bytes_of_string "bath") (bytes_of_string "y") false 4 in
  fst (EstimatedSizeAfter b e) = SizeBytes (Add b e) /\
  SizeBytes (Add b e) = zlen (Finish (Add b e)) /\
  snd (EstimatedSizeAfter b e) = b /\ interval_ok (Add b e).
Proof.
  apply builder_size_exact.
  - decided.
  - decided.
Defined.
