(* ===== verification/SstOptions.v ===== *)
(** * SSTable options ([internal/lsm/sstable/config/options.go])

    Normalisation and validation of the table options, and the policy
    snapshot the read pipeline works with.  The file system, the metrics
    observer and the directory name carry no data and are left out. *)

From Stdlib Require Import ZArith Lia Strings.Byte.
From stdpp Require Import base list strings.
From S2P Require Import Prelude SstFormat.
Local Open Scope Z_scope.

(** Go string types; the constants and every other value. *)
Inductive Checksum := ChecksumCRC32C | ChecksumOther (name : string).
Inductive CorruptionPolicy :=
| CorruptionFailFast
| CorruptionSkipBlock
| CorruptionDropTable
| CorruptionOther (name : string).

#[export] Instance Checksum_eq_dec : EqDecision Checksum.
Proof. solve_decision. Defined.
#[export] Instance CorruptionPolicy_eq_dec : EqDecision CorruptionPolicy.
Proof. solve_decision. Defined.

Record PolicySnapshot := mkPolicy {
  UsePrefetch : bool;
  pol_PrefetchBudgetBytes : Z;
  pol_PrefetchBudgetBlocks : Z;
  pol_PrefetchAsync : bool;
  pol_PrefetchQueueDepth : Z;
  pol_PrefetchWorkers : Z;
  UsePartitionedIndex : bool;
  UsePartitionedFilter : bool;
  pol_UseMmap : bool;
  pol_ReadBufferMaxBytes : Z;
  pol_ReadBlockMaxBytes : Z;
  pol_CorruptionPolicy : CorruptionPolicy
}.

Record Options := mkOptions {
  BlockTargetBytes : Z;
  BlockMaxBytes : Z;
  RestartInterval : Z;
  IndexPartitionEntries : Z;
  FilterPartitioned : bool;
  ReadBlockMaxBytes : Z;
  ReadBufferMaxBytes : Z;
  UseMmap : bool;
  opt_Compression : Compression;
  BloomBitsPerKey : Z;
  BlockCacheBytes : Z;
  IndexCacheBytes : Z;
  FilterCacheBytes : Z;
  PrefetchBlocks : Z;
  PrefetchBytes : Z;
  PrefetchBudgetBlocks : Z;
  PrefetchBudgetBytes : Z;
  PrefetchAsync : bool;
  PrefetchQueueDepth : Z;
  PrefetchWorkers : Z;
  opt_Checksum : Checksum;
  opt_CorruptionPolicy : CorruptionPolicy;
  RestartIntervalAdaptive : bool;
  RestartIntervalMin : Z;
  RestartIntervalMax : Z;
  PolicyOverride : option PolicySnapshot
}.

Definition DefaultOptions : Options := {|
  BlockTargetBytes := 64 * 1024;
  BlockMaxBytes := 256 * 1024;
  RestartInterval := 16;
  IndexPartitionEntries := 256;
  FilterPartitioned := true;
  ReadBlockMaxBytes := 0;
  ReadBufferMaxBytes := 0;
  UseMmap := false;
  opt_Compression := CompressionSnappy;
  BloomBitsPerKey := 10;
  BlockCacheBytes := 64 * 1024 * 1024;
  IndexCacheBytes := 0;
  FilterCacheBytes := 0;
  PrefetchBlocks := 2;
  PrefetchBytes := 0;
  PrefetchBudgetBlocks := 0;
  PrefetchBudgetBytes := 0;
  PrefetchAsync := false;
  PrefetchQueueDepth := 64;
  PrefetchWorkers := 1;
  opt_Checksum := ChecksumCRC32C;
  opt_CorruptionPolicy := CorruptionFailFast;
  RestartIntervalAdaptive := false;
  RestartIntervalMin := 0;
  RestartIntervalMax := 0;
  PolicyOverride := None
|}.

(** [if x <= 0 { x = d }], and [if x < 0 { x = 0 }]. *)
Definition or_default (x d : Z) : Z := if bool_decide (x <= 0) then d else x.
Definition nonneg (x : Z) : Z := if bool_decide (x < 0) then 0 else x.

(** [BlockMaxBytes] and [ReadBlockMaxBytes] after their defaults. *)
Definition norm_block_max (o : Options) : Z :=
  let bmax := or_default (BlockMaxBytes o) (256 * 1024) in
  let target := or_default (BlockTargetBytes o) (64 * 1024) in
  if bool_decide (bmax < target) then target else bmax.

Definition norm_read_max (o : Options) : Z :=
  let bmax := norm_block_max o in
  let rblock := ReadBlockMaxBytes o in
  let rblock := if bool_decide (rblock <= 0 /\ 0 < bmax) then i64 (bmax * 4) else rblock in
  if bool_decide (0 < rblock /\ rblock < bmax) then bmax else rblock.

Definition Normalize (o : Options) : Options :=
  let indexCacheDisabled := bool_decide (IndexCacheBytes o < 0) in
  let filterCacheDisabled := bool_decide (FilterCacheBytes o < 0) in
  let readBufferDisabled := bool_decide (ReadBufferMaxBytes o < 0) in
  let target := or_default (BlockTargetBytes o) (64 * 1024) in
  let bmax := norm_block_max o in
  let interval := or_default (RestartInterval o) 16 in
  let rmin := or_default (RestartIntervalMin o) interval in
  let rmax := or_default (RestartIntervalMax o) interval in
  let rmin := if bool_decide (rmax < rmin) then rmax else rmin in
  let interval := if bool_decide (interval < rmin) then rmin else interval in
  let interval := if bool_decide (rmax < interval) then rmax else interval in
  let rblock := norm_read_max o in
  let rbuf := if readBufferDisabled then 0
              else if bool_decide (ReadBufferMaxBytes o = 0) then rblock else ReadBufferMaxBytes o in
  let icache := if indexCacheDisabled then 0 else IndexCacheBytes o in
  let fcache := if filterCacheDisabled then 0 else FilterCacheBytes o in
  let icache := if bool_decide (0 < BlockCacheBytes o /\ icache = 0 /\ indexCacheDisabled = false)
                then Z.quot (BlockCacheBytes o) 8 else icache in
  let fcache := if bool_decide (0 < BlockCacheBytes o /\ fcache = 0 /\ filterCacheDisabled = false)
                then Z.quot (BlockCacheBytes o) 8 else fcache in
  {|
    BlockTargetBytes := target;
    BlockMaxBytes := bmax;
    RestartInterval := interval;
    IndexPartitionEntries := nonneg (IndexPartitionEntries o);
    FilterPartitioned := FilterPartitioned o;
    ReadBlockMaxBytes := rblock;
    ReadBufferMaxBytes := rbuf;
    UseMmap := UseMmap o;
    opt_Compression := if bool_decide (opt_Compression o = CompressionOther "") then CompressionSnappy
                       else opt_Compression o;
    BloomBitsPerKey := BloomBitsPerKey o;
    BlockCacheBytes := BlockCacheBytes o;
    IndexCacheBytes := icache;
    FilterCacheBytes := fcache;
    PrefetchBlocks := nonneg (PrefetchBlocks o);
    PrefetchBytes := nonneg (PrefetchBytes o);
    PrefetchBudgetBlocks := nonneg (PrefetchBudgetBlocks o);
    PrefetchBudgetBytes := nonneg (PrefetchBudgetBytes o);
    PrefetchAsync := PrefetchAsync o;
    PrefetchQueueDepth := or_default (PrefetchQueueDepth o) 64;
    PrefetchWorkers := or_default (PrefetchWorkers o) 1;
    opt_Checksum := if bool_decide (opt_Checksum o = ChecksumOther "") then ChecksumCRC32C else opt_Checksum o;
    opt_CorruptionPolicy := if bool_decide (opt_CorruptionPolicy o = CorruptionOther "") then CorruptionFailFast
                            else opt_CorruptionPolicy o;
    RestartIntervalAdaptive := RestartIntervalAdaptive o;
    RestartIntervalMin := rmin;
    RestartIntervalMax := rmax;
    PolicyOverride := PolicyOverride o
  |}.

Definition err_compression := ErrNew "unsupported compression".
Definition err_checksum := ErrNew "unsupported checksum".
Definition err_corruption_policy := ErrNew "unsupported corruption policy".

Definition Validate (o : Options) : result unit :=
  match opt_Compression o with
  | CompressionNone | CompressionSnappy =>
      match opt_Checksum o with
      | ChecksumCRC32C =>
          match opt_CorruptionPolicy o with
          | CorruptionFailFast | CorruptionSkipBlock | CorruptionDropTable => Ok tt
          | CorruptionOther _ => Err err_corruption_policy
          end
      | ChecksumOther _ => Err err_checksum
      end
  | CompressionOther _ => Err err_compression
  end.

Definition SnapshotFromOptions (o : Options) (partitionedIndex partitionedFilter : bool) : PolicySnapshot :=
  let budgetBytes := if bool_decide (PrefetchBudgetBytes o = 0 /\ 0 < PrefetchBytes o)
                     then PrefetchBytes o else PrefetchBudgetBytes o in
  let budgetBlocks := if bool_decide (PrefetchBudgetBlocks o = 0 /\ 0 < PrefetchBlocks o)
                      then PrefetchBlocks o else PrefetchBudgetBlocks o in
  match PolicyOverride o with
  | Some p => p
  | None => {|
      UsePrefetch := bool_decide (0 < budgetBytes) || bool_decide (0 < budgetBlocks) || PrefetchAsync o;
      pol_PrefetchBudgetBytes := budgetBytes;
      pol_PrefetchBudgetBlocks := budgetBlocks;
      pol_PrefetchAsync := PrefetchAsync o;
      pol_PrefetchQueueDepth := PrefetchQueueDepth o;
      pol_PrefetchWorkers := PrefetchWorkers o;
      UsePartitionedIndex := partitionedIndex;
      UsePartitionedFilter := partitionedFilter;
      pol_UseMmap := UseMmap o;
      pol_ReadBufferMaxBytes := ReadBufferMaxBytes o;
      pol_ReadBlockMaxBytes := ReadBlockMaxBytes o;
      pol_CorruptionPolicy := opt_CorruptionPolicy o
    |}
  end.

(** ** What normalised options satisfy *)

Record normal (o : Options) : Prop := {
  no_target : 0 < BlockTargetBytes o <= BlockMaxBytes o;
  no_rblock : BlockMaxBytes o < 2 ^ 60 -> BlockMaxBytes o <= ReadBlockMaxBytes o;
  no_restart : 1 <= RestartIntervalMin o <= RestartIntervalMax o /\
               RestartIntervalMin o <= RestartInterval o <= RestartIntervalMax o;
  no_partition : 0 <= IndexPartitionEntries o;
  no_budget : 0 <= PrefetchBudgetBlocks o /\ 0 <= PrefetchBudgetBytes o /\ 0 < PrefetchWorkers o
              /\ 0 < PrefetchQueueDepth o;
  no_caches : 0 <= IndexCacheBytes o /\ 0 <= FilterCacheBytes o /\ 0 <= ReadBufferMaxBytes o \/
              2 ^ 60 <= BlockMaxBytes o
}.

Lemma norm_block_max_pos o : or_default (BlockTargetBytes o) (64 * 1024) <= norm_block_max o /\ 0 < norm_block_max o.
Proof. unfold norm_block_max, or_default. repeat case_bool_decide; lia. Qed.

Lemma norm_read_max_ge o : norm_block_max o < 2 ^ 60 -> norm_block_max o <= norm_read_max o.
Proof.
  pose proof (norm_block_max_pos o) as [_ H]. intros Hb. unfold norm_read_max.
  rewrite (i64_id (norm_block_max o * 4)) by lia. repeat case_bool_decide; lia.
Qed.

Lemma Normalize_normal o : normal (Normalize o).
Proof.
  pose proof (norm_block_max_pos o) as [Ht Hb]. pose proof (norm_read_max_ge o) as Hr.
  assert (0 < or_default (BlockTargetBytes o) (64 * 1024)) by (unfold or_default; case_bool_decide; lia).
  unfold Normalize. split; cbn [BlockTargetBytes BlockMaxBytes ReadBlockMaxBytes RestartInterval RestartIntervalMin
    RestartIntervalMax IndexPartitionEntries PrefetchBudgetBlocks PrefetchBudgetBytes PrefetchWorkers
    PrefetchQueueDepth IndexCacheBytes FilterCacheBytes ReadBufferMaxBytes].
  1,2: lia.
  1-3: unfold or_default, nonneg; repeat case_bool_decide; lia.
  destruct (decide (2 ^ 60 <= norm_block_max o)); [by right|left].
  pose proof (Z.quot_pos (BlockCacheBytes o) 8) as Hq. repeat split; repeat case_bool_decide; lia.
Qed.

(** Disabled caches and buffers are enabled again by a second normalisation:
    [NewSSTableWriter] normalises the options and the reader that [Flush] opens
    normalises them once more. *)
Lemma Normalize_twice_enables_cache :
  let o := {| BlockTargetBytes := 0; BlockMaxBytes := 0; RestartInterval := 0; IndexPartitionEntries := 1;
              FilterPartitioned := true; ReadBlockMaxBytes := 0; ReadBufferMaxBytes := -1; UseMmap := false;
              opt_Compression := CompressionNone; BloomBitsPerKey := 10; BlockCacheBytes := 1024;
              IndexCacheBytes := -1; FilterCacheBytes := -1; PrefetchBlocks := 0; PrefetchBytes := 0;
              PrefetchBudgetBlocks := 0; PrefetchBudgetBytes := 0; PrefetchAsync := false;
              PrefetchQueueDepth := 0; PrefetchWorkers := 0; opt_Checksum := ChecksumCRC32C;
              opt_CorruptionPolicy := CorruptionFailFast; RestartIntervalAdaptive := false;
              RestartIntervalMin := 0; RestartIntervalMax := 0; PolicyOverride := None |} in
  (IndexCacheBytes (Normalize o), FilterCacheBytes (Normalize o), ReadBufferMaxBytes (Normalize o)) = (0, 0, 0) /\
  (IndexCacheBytes (Normalize (Normalize o)), FilterCacheBytes (Normalize (Normalize o)),
   ReadBufferMaxBytes (Normalize (Normalize o))) = (128, 128, 4 * 256 * 1024).
Proof. split; vm_compute; reflexivity. Qed.

(** The read limit of normalised options is stable, also where it overflows. *)
Lemma norm_read_max_again o o' :
  norm_block_max o' = norm_block_max o -> ReadBlockMaxBytes o' = norm_read_max o ->
  norm_read_max o' = norm_read_max o.
Proof.
  intros H1 H2. pose proof (norm_block_max_pos o) as [_ Hb].
  unfold norm_read_max at 1. rewrite H1, H2. unfold norm_read_max. repeat case_bool_decide; lia.
Qed.

Lemma norm_block_max_again o : norm_block_max (Normalize o) = norm_block_max o.
Proof.
  pose proof (norm_block_max_pos o) as [Ht Hb]. unfold norm_block_max at 1.
  cbn [Normalize BlockMaxBytes BlockTargetBytes]. unfold or_default in *. repeat case_bool_decide; lia.
Qed.

(** Options that normalisation leaves alone. *)
Lemma Normalize_fixed o :
  0 < BlockTargetBytes o -> norm_block_max o = BlockMaxBytes o -> norm_read_max o = ReadBlockMaxBytes o ->
  1 <= RestartIntervalMin o <= RestartIntervalMax o ->
  RestartIntervalMin o <= RestartInterval o <= RestartIntervalMax o ->
  0 <= IndexPartitionEntries o -> 0 <= PrefetchBlocks o -> 0 <= PrefetchBytes o ->
  0 <= PrefetchBudgetBlocks o -> 0 <= PrefetchBudgetBytes o -> 0 < PrefetchWorkers o -> 0 < PrefetchQueueDepth o ->
  opt_Compression o <> CompressionOther "" -> opt_Checksum o <> ChecksumOther "" ->
  opt_CorruptionPolicy o <> CorruptionOther "" ->
  (if bool_decide (ReadBufferMaxBytes o < 0) then 0
   else if bool_decide (ReadBufferMaxBytes o = 0) then norm_read_max o else ReadBufferMaxBytes o)
  = ReadBufferMaxBytes o ->
  0 <= IndexCacheBytes o -> (0 < BlockCacheBytes o -> IndexCacheBytes o = 0 -> Z.quot (BlockCacheBytes o) 8 = 0) ->
  0 <= FilterCacheBytes o -> (0 < BlockCacheBytes o -> FilterCacheBytes o = 0 -> Z.quot (BlockCacheBytes o) 8 = 0) ->
  Normalize o = o.
Proof.
  intros H1 H2 H3 H4 H5 H6 H7 H8 H9 H10 H11 H12 H13 H14 H15 H16 H17 H18 H19 H20.
  unfold Normalize. cbv zeta. rewrite H16, H3, H2. unfold or_default, nonneg.
  rewrite (bool_decide_false (IndexCacheBytes o < 0)), (bool_decide_false (FilterCacheBytes o < 0)) by lia.
  assert (Hc : forall x, (0 < BlockCacheBytes o -> x = 0 -> Z.quot (BlockCacheBytes o) 8 = 0) ->
    (if bool_decide (0 < BlockCacheBytes o /\ x = 0 /\ false = false) then Z.quot (BlockCacheBytes o) 8 else x) = x)
    by (intros x Hx; clear -Hx; case_bool_decide as C; [destruct C as (? & ? & _); rewrite Hx; lia|done]).
  rewrite !Hc by done.
  destruct o; cbn in *.
  repeat match goal with
  | |- context[bool_decide ?P] => rewrite (bool_decide_false P) by (lia || congruence)
  end.
  reflexivity.
Qed.

(** Normalisation puts every option into its range whatever the caller
    set: block target at most block maximum at most the read limit, ordered
    positive restart intervals, no negative size; and it is idempotent on
    option sets that disable none of the caches and buffers and whose block
    size does not overflow the read limit. *)
Theorem Normalize_ranges_and_idempotence o :
  normal (Normalize o) /\
  (0 <= IndexCacheBytes o -> 0 <= FilterCacheBytes o -> 0 <= ReadBufferMaxBytes o ->
   BlockMaxBytes (Normalize o) < 2 ^ 60 -> Normalize (Normalize o) = Normalize o).
Proof.
  split; [apply Normalize_normal|]. intros Hi Hf Hr Hs.
  pose proof (norm_read_max_ge o Hs) as Hp. pose proof (norm_block_max_pos o) as [_ Hp0].
  pose proof (norm_block_max_again o) as Hb.
  pose proof (norm_read_max_again o (Normalize o) Hb eq_refl) as Hm.
  pose proof (Normalize_normal o) as [N1 _ [N3 N4] N5 (N6 & N7 & N8 & N9) _].
  apply Normalize_fixed; try done.
  1: lia.
  all: cbn [Normalize PrefetchBlocks PrefetchBytes opt_Compression opt_Checksum opt_CorruptionPolicy
         IndexCacheBytes FilterCacheBytes BlockCacheBytes ReadBufferMaxBytes]; rewrite ?Hm;
    unfold nonneg; clear -Hi Hf Hr Hm Hp Hp0; pose proof (Z.quot_pos (BlockCacheBytes o) 8);
    repeat case_bool_decide; (lia || congruence).
Qed.

Lemma Normalize_ranges_and_idempotence_witness :
  normal (Normalize DefaultOptions) /\ Normalize (Normalize DefaultOptions) = Normalize DefaultOptions.
Proof. split; apply Normalize_ranges_and_idempotence; vm_compute; congruence. Defined.
