(* ===== verification/Bloom.v ===== *)
(** * Bloom filters ([internal/lsm/sstable/bloom])

    The filter with double hashing on FNV-1a, its encoding, and the writers
    of the whole-table and of the partitioned filter blocks.  A [nil] filter
    is [None]; indexing out of range and a modulus of zero are panics. *)

From Stdlib Require Import ZArith Lia Strings.Byte Floats.SpecFloat.
From stdpp Require Import base list strings gmap.
From S2P Require Import Prelude Iofs SstFormat.
Local Open Scope Z_scope.

Record Filter := mkFilter {
  f_bits : bytes;
  f_k : Z
}.

(** The double next to 0.69. *)
Definition float_0_69 : spec_float := S754_finite false 6214967485771284 (-53).

Definition NewFilter (keys bitsPerKey : Z) : option Filter :=
  if bool_decide (keys <= 0 \/ bitsPerKey <= 0) then None else
  let m := i64 (keys * bitsPerKey) in
  let m := if bool_decide (m < 64) then 64 else m in
  let byteLen := Z.quot (m + 7) 8 in
  let k := int_of_float (fmul (float64 bitsPerKey) float_0_69) in
  let k := if bool_decide (k < 1) then 1 else k in
  let k := if bool_decide (30 < k) then 30 else k in
  Some (mkFilter (replicate (Z.to_nat byteLen) x00) (u8 k)).

Definition hashKey (key : bytes) : Z * Z :=
  let sum := fnv64a key in
  let h2 := Z.lxor (Z.lxor sum (Z.shiftr sum 33)) (u64 (Z.shiftl sum 11)) in
  (sum, if bool_decide (h2 = 0) then le_decode [x9e; x37; x79; xb9; x7f; x4a; x7c; x15] else h2).

(** [uint32((h1 + uint64(i)*h2) % uint64(n))]. *)
Definition probe (h1 h2 n i : Z) : result Z :=
  if bool_decide (n = 0) then Panic else Ok (u32 (u64 (h1 + u64 (i * h2)) mod n)).

Definition filter_n (f : Filter) : Z := u32 (zlen (f_bits f) * 8).

Fixpoint add_loop (h1 h2 n i : Z) (todo : nat) (bits : bytes) : result bytes :=
  match todo with
  | O => Ok bits
  | S todo =>
      bit ← probe h1 h2 n i;
      b ← index bits (bit / 8);
      add_loop h1 h2 n (i + 1) todo
        (<[Z.to_nat (bit / 8) := byte_of_Z (Z.lor (byte_to_Z b) (Z.shiftl 1 (bit mod 8)))]> bits)
  end.

Definition Filter_Add (b : option Filter) (key : bytes) : result (option Filter) :=
  match b with
  | None => Ok None
  | Some f =>
      let '(h1, h2) := hashKey key in
      bits ← add_loop h1 h2 (filter_n f) 0 (Z.to_nat (f_k f)) (f_bits f);
      Ok (Some (mkFilter bits (f_k f)))
  end.

Fixpoint contains_loop (h1 h2 n i : Z) (todo : nat) (bits : bytes) : result bool :=
  match todo with
  | O => Ok true
  | S todo =>
      bit ← probe h1 h2 n i;
      b ← index bits (bit / 8);
      if bool_decide (Z.land (byte_to_Z b) (Z.shiftl 1 (bit mod 8)) = 0) then Ok false
      else contains_loop h1 h2 n (i + 1) todo bits
  end.

Definition MayContain (b : option Filter) (key : bytes) : result bool :=
  match b with
  | None => Ok true
  | Some f =>
      let '(h1, h2) := hashKey key in
      contains_loop h1 h2 (filter_n f) 0 (Z.to_nat (f_k f)) (f_bits f)
  end.

Definition Filter_Encode (b : option Filter) : bytes :=
  match b with
  | None => []
  | Some f => byte_of_Z (f_k f) :: f_bits f
  end.

Definition Filter_Decode (data : bytes) : option Filter :=
  match data with
  | k :: b :: bits => Some (mkFilter (b :: bits) (byte_to_Z k))
  | _ => None
  end.

Definition Filter_K (b : option Filter) : Z := match b with None => 0 | Some f => f_k f end.

(** ** Writers *)

Definition err_write_filter := ErrNew "write filter".

(** The offset is a [uint64] that the caller shares: its new value is part
    of the result. *)
Definition WriteBloomBlock (name : string) (filter : option Filter) (offset : Z) : SE FS (Z * Z * Z) :=
  match filter with
  | None => mret (0, 0, offset)
  | Some _ =>
      let payload := Filter_Encode filter in
      let block := EncodeBlock payload BlockTypeFilter CompressionNone (u32 (zlen payload)) in
      n ← file_write name block err_write_filter;
      mret (offset, u32 n, u64 (offset + n))
  end.

Fixpoint Filter_AddAll (b : option Filter) (keys : list bytes) : result (option Filter) :=
  match keys with
  | [] => Ok b
  | key :: keys => b ← Filter_Add b key; Filter_AddAll b keys
  end.

Fixpoint add_entry_keys (entries : list Entry) (entryIdx : Z) (n : nat) (f : option Filter)
  : result (Z * option Filter) :=
  match n with
  | O => Ok (entryIdx, f)
  | S n =>
      e ← index entries entryIdx;
      f ← Filter_Add f (Key e);
      add_entry_keys entries (entryIdx + 1) n f
  end.

Fixpoint add_block_keys (entries : list Entry) (entryIdx : Z) (counts : list Z) (f : option Filter)
  : result (Z * option Filter) :=
  match counts with
  | [] => Ok (entryIdx, f)
  | c :: counts =>
      '(entryIdx, f) ← add_entry_keys entries entryIdx (Z.to_nat c) f;
      add_block_keys entries entryIdx counts f
  end.

Definition sum_Z (l : list Z) : Z := fold_right Z.add 0 l.

(** One round of the loop per partition of at least one block. *)
Fixpoint filter_partitions (fuel : nat) (name : string) (entries : list Entry) (blocks : list IndexEntry)
    (counts : list Z) (partition bitsPerKey : Z) (i entryIdx offset : Z) : SE FS (list IndexEntry * Z) :=
  match fuel with
  | O => lift NoFuel
  | S fuel =>
      if bool_decide (zlen counts <= i) then mret ([], offset) else
      let stop := Z.min (i + partition) (zlen counts) in
      part ← lift (slice counts i stop);
      '(entryIdx, f) ← lift (add_block_keys entries entryIdx part (NewFilter (sum_Z part) bitsPerKey));
      let payload := Filter_Encode f in
      let block := EncodeBlock payload BlockTypeFilter CompressionNone (u32 (zlen payload)) in
      n ← file_write name block err_write_filter;
      first ← lift (index blocks i);
      '(rest, offset') ← filter_partitions fuel name entries blocks counts partition bitsPerKey stop entryIdx
                           (u64 (offset + n));
      mret (mkIndexEntry (ie_Key first) offset (u32 n) :: rest, offset')
  end.

Definition WritePartitionedBloomFilters (name : string) (entries : list Entry) (blocks : list IndexEntry)
    (counts : list Z) (partition bitsPerKey offset : Z) : SE FS (list IndexEntry * Z) :=
  if bool_decide (blocks = [] \/ counts = [] \/ partition <= 0) then mret ([], offset)
  else filter_partitions (S (length counts)) name entries blocks counts partition bitsPerKey 0 0 offset.

(** ** No false negatives *)

(** The filter has a usable number of bits: [uint32] does not wrap to zero. *)
Definition filter_ok (f : Filter) : Prop := filter_n f <> 0.

Definition bit_on (bits : bytes) (bit : Z) : Prop :=
  exists b, bits !! Z.to_nat (bit / 8) = Some b /\ Z.testbit (byte_to_Z b) (bit mod 8) = true.

Lemma land_pow2 x j : 0 <= j -> Z.land x (Z.shiftl 1 j) = 0 <-> Z.testbit x j = false.
Proof.
  intros Hj. rewrite Z.shiftl_1_l. split.
  - intros H. apply (f_equal (fun z => Z.testbit z j)) in H.
    rewrite Z.land_spec, Z.pow2_bits_true, andb_true_r, Z.bits_0 in H by done. done.
  - intros H. apply Z.bits_inj'. intros n Hn. rewrite Z.land_spec, Z.bits_0.
    destruct (decide (n = j)) as [->|Hne]; [now rewrite H|].
    rewrite (Z.pow2_bits_false j n) by lia. apply andb_false_r.
Qed.

Lemma testbit_set_byte b j i :
  0 <= j < 8 -> 0 <= i < 8 ->
  Z.testbit (byte_to_Z (byte_of_Z (Z.lor (byte_to_Z b) (Z.shiftl 1 j)))) i
  = Z.testbit (byte_to_Z b) i || bool_decide (i = j).
Proof.
  intros Hj Hi. rewrite byte_to_of_Z. change 256 with (2 ^ 8).
  rewrite Z.mod_pow2_bits_low by lia. rewrite Z.lor_spec, Z.shiftl_1_l. f_equal.
  case_bool_decide as E; [subst; apply Z.pow2_bits_true; lia|apply Z.pow2_bits_false; lia].
Qed.

Lemma set_bit_on bits bit b bit' :
  0 <= bit -> 0 <= bit' -> bits !! Z.to_nat (bit / 8) = Some b ->
  (bit_on bits bit' \/ bit' = bit) ->
  bit_on (<[Z.to_nat (bit / 8) := byte_of_Z (Z.lor (byte_to_Z b) (Z.shiftl 1 (bit mod 8)))]> bits) bit'.
Proof.
  intros H0 H0' Hb Hon. unfold bit_on.
  pose proof (Z.mod_pos_bound bit 8 ltac:(lia)). pose proof (Z.mod_pos_bound bit' 8 ltac:(lia)).
  destruct (decide (Z.to_nat (bit' / 8) = Z.to_nat (bit / 8))) as [E|E].
  - rewrite E, list_lookup_insert_eq by (by apply lookup_lt_Some in Hb). eexists. split; [done|].
    rewrite testbit_set_byte by lia. apply orb_true_iff. destruct Hon as [(b' & Hb' & Ht)| ->].
    + left. rewrite E, Hb in Hb'. by injection Hb' as <-.
    + right. by apply bool_decide_true.
  - rewrite list_lookup_insert_ne by done. destruct Hon as [?| ->]; done.
Qed.

Section Loops.
Context (h1 h2 n : Z).

(** The bit that round [i] visits. *)
Definition bit_at (i : Z) : Z := u64 (h1 + u64 (i * h2)) mod n.

Context (Hn : 0 < n < 2 ^ 32).

Lemma probe_bit_at i : probe h1 h2 n i = Ok (bit_at i) /\ 0 <= bit_at i < n.
Proof.
  pose proof (Z.mod_pos_bound (u64 (h1 + u64 (i * h2))) n ltac:(lia)).
  unfold probe, bit_at. rewrite bool_decide_false by lia. rewrite u32_id by (unfold is_u32; lia). done.
Qed.

Lemma bit_index (bits : bytes) i :
  n <= 8 * zlen bits -> exists b, bits !! Z.to_nat (bit_at i / 8) = Some b /\ index bits (bit_at i / 8) = Ok b.
Proof.
  intros Hl. destruct (probe_bit_at i) as [_ Hb].
  assert (0 <= bit_at i / 8 < zlen bits) as Hr by (split; [apply Z.div_pos; lia|apply Z.div_lt_upper_bound; lia]).
  destruct (lookup_lt_is_Some_2 bits (Z.to_nat (bit_at i / 8))) as [b Eb]; [unfold zlen in *; lia|].
  exists b. split; [done|]. unfold index. rewrite bool_decide_true by lia. now rewrite Eb.
Qed.

Lemma add_loop_spec todo : forall i bits,
  n <= 8 * zlen bits ->
  exists bits', add_loop h1 h2 n i todo bits = Ok bits' /\ zlen bits' = zlen bits /\
    (forall bit, 0 <= bit -> bit_on bits bit -> bit_on bits' bit) /\
    (forall j, i <= j < i + Z.of_nat todo -> bit_on bits' (bit_at j)).
Proof.
  induction todo as [|todo IH]; intros i bits Hl; cbn [add_loop].
  { exists bits. repeat split; auto. intros j Hj. lia. }
  destruct (probe_bit_at i) as [-> Hb]. destruct (bit_index bits i Hl) as (b & Eb & Ei).
  cbn [mbind result_bind]. rewrite Ei. cbn [mbind result_bind].
  set (bits1 := <[_:=_]> bits).
  assert (Hl1 : zlen bits1 = zlen bits) by (unfold zlen, bits1; by rewrite length_insert).
  destruct (IH (i + 1) bits1) as (bits' & -> & Hlen & Hmono & Hset); [lia|].
  exists bits'. split; [done|]. split; [lia|]. split.
  - intros bit H0 Hon. apply Hmono; [done|]. apply set_bit_on; [lia|done|done|by left].
  - intros j Hj. destruct (decide (j = i)) as [->|]; [|apply Hset; lia].
    apply Hmono; [lia|]. apply set_bit_on; [lia|lia|done|by right].
Qed.

Lemma contains_loop_true todo : forall i bits,
  n <= 8 * zlen bits ->
  contains_loop h1 h2 n i todo bits = Ok true <-> forall j, i <= j < i + Z.of_nat todo -> bit_on bits (bit_at j).
Proof.
  induction todo as [|todo IH]; intros i bits Hl; cbn [contains_loop].
  { split; [intros _ j Hj; lia|done]. }
  destruct (probe_bit_at i) as [-> Hb]. destruct (bit_index bits i Hl) as (b & Eb & Ei).
  cbn [mbind result_bind]. rewrite Ei. cbn [mbind result_bind].
  pose proof (Z.mod_pos_bound (bit_at i) 8 ltac:(lia)).
  case_bool_decide as Hz; rewrite land_pow2 in Hz by lia.
  - split; [done|]. intros Hall. destruct (Hall i ltac:(lia)) as (b' & Eb' & Ht). congruence.
  - rewrite IH by done. split; intros Hall j Hj.
    + destruct (decide (j = i)) as [->|]; [|apply Hall; lia].
      exists b. split; [done|]. by apply not_false_is_true.
    + apply Hall. lia.
Qed.

Lemma contains_loop_total todo : forall i bits,
  n <= 8 * zlen bits -> exists b, contains_loop h1 h2 n i todo bits = Ok b.
Proof.
  induction todo as [|todo IH]; intros i bits Hl; cbn [contains_loop]; [by exists true|].
  destruct (probe_bit_at i) as [-> _]. destruct (bit_index bits i Hl) as (b & _ & Ei).
  cbn [mbind result_bind]. rewrite Ei. cbn [mbind result_bind]. case_bool_decide; [by exists false|auto].
Qed.
End Loops.

Lemma filter_n_range f : filter_ok f -> 0 < filter_n f < 2 ^ 32 /\ filter_n f <= 8 * zlen (f_bits f).
Proof.
  unfold filter_ok, filter_n. pose proof (zlen_nonneg (f_bits f)).
  pose proof (Z.mod_pos_bound (zlen (f_bits f) * 8) (2 ^ 32) ltac:(lia)).
  pose proof (Z.mod_le (zlen (f_bits f) * 8) (2 ^ 32) ltac:(lia) ltac:(lia)). unfold u32. lia.
Qed.

(** Adding a key never fails, makes the key visible and hides no key. *)
Lemma Filter_Add_spec f key :
  filter_ok f ->
  exists f', Filter_Add (Some f) key = Ok (Some f') /\ filter_ok f' /\ f_k f' = f_k f /\
    zlen (f_bits f') = zlen (f_bits f) /\ MayContain (Some f') key = Ok true /\
    forall key', MayContain (Some f) key' = Ok true -> MayContain (Some f') key' = Ok true.
Proof.
  intros Hok. destruct (filter_n_range f Hok) as [Hn Hl].
  unfold Filter_Add, MayContain. destruct (hashKey key) as [h1 h2] eqn:Eh.
  destruct (add_loop_spec h1 h2 (filter_n f) Hn (Z.to_nat (f_k f)) 0 (f_bits f) Hl) as (bits' & -> & Hlen & Hmono & Hset).
  cbn [mbind result_bind]. exists (mkFilter bits' (f_k f)). cbn [f_bits f_k].
  assert (En : filter_n (mkFilter bits' (f_k f)) = filter_n f) by (unfold filter_n; cbn [f_bits]; by rewrite Hlen).
  split; [done|]. split; [unfold filter_ok; by rewrite En|]. do 2 (split; [done|]). rewrite En. split.
  - apply contains_loop_true; [done|lia|exact Hset].
  - intros key'. destruct (hashKey key') as [g1 g2]. rewrite !contains_loop_true by lia.
    intros Hall j Hj. apply Hmono; [|by apply Hall]. by apply probe_bit_at.
Qed.

Lemma Filter_AddAll_spec keys : forall f,
  filter_ok f ->
  exists f', Filter_AddAll (Some f) keys = Ok (Some f') /\ filter_ok f' /\ f_k f' = f_k f /\
    zlen (f_bits f') = zlen (f_bits f) /\ (forall key, key ∈ keys -> MayContain (Some f') key = Ok true) /\
    forall key, MayContain (Some f) key = Ok true -> MayContain (Some f') key = Ok true.
Proof.
  induction keys as [|key keys IH]; intros f Hok; cbn [Filter_AddAll].
  { exists f. repeat split; auto. by intros key ?%elem_of_nil. }
  destruct (Filter_Add_spec f key Hok) as (f1 & -> & Hok1 & Hk1 & Hl1 & Hc1 & Hm1). cbn [mbind result_bind].
  destruct (IH f1 Hok1) as (f2 & -> & Hok2 & Hk2 & Hl2 & Hc2 & Hm2).
  exists f2. split; [done|]. split; [done|]. split; [congruence|]. split; [congruence|]. split; [|auto].
  intros key' [->|Hin]%elem_of_cons; auto.
Qed.

Lemma MayContain_total f key : filter_ok f -> exists b, MayContain (Some f) key = Ok b.
Proof.
  intros Hok. destruct (filter_n_range f Hok) as [Hn Hl]. unfold MayContain. destruct (hashKey key).
  by apply contains_loop_total.
Qed.

(** Filters as [NewFilter] makes them. *)
Record filter_wf (f : Filter) : Prop := {
  fw_ok : filter_ok f;
  fw_k : 0 <= f_k f < 256;
  fw_bits : 0 < zlen (f_bits f)
}.

Lemma Filter_Decode_Encode f : filter_wf f -> Filter_Decode (Filter_Encode (Some f)) = Some f.
Proof.
  intros [_ Hk Hb]. destruct f as [[|b bits] k]; cbn [f_bits f_k] in *; [by vm_compute in Hb|].
  cbn [Filter_Encode Filter_Decode f_bits f_k]. rewrite byte_to_of_Z, Z.mod_small by lia. done.
Qed.

Lemma NewFilter_spec keys bpk :
  0 < keys -> 0 < bpk -> keys * bpk <= 2 ^ 32 - 8 ->
  exists f, NewFilter keys bpk = Some f /\ filter_wf f /\ zlen (f_bits f) <= 8 + keys * bpk.
Proof.
  intros Hk Hb Hm. unfold NewFilter. rewrite bool_decide_false by lia. rewrite i64_id by nia.
  set (m := if bool_decide (keys * bpk < 64) then 64 else keys * bpk).
  assert (Hmr : 64 <= m <= 2 ^ 32 - 8 /\ m <= 64 + keys * bpk) by (subst m; case_bool_decide; nia).
  set (k := if bool_decide (30 < _) then _ else _).
  assert (Hkr : 1 <= k <= 30) by (subst k; repeat case_bool_decide; lia).
  eexists. split; [done|].
  assert (Hq : 8 <= Z.quot (m + 7) 8 <= 2 ^ 29 - 1 /\ Z.quot (m + 7) 8 <= 8 + keys * bpk).
  { rewrite Z.quot_div_nonneg by lia. pose proof (Z.div_mod (m + 7) 8 ltac:(lia)).
    pose proof (Z.mod_pos_bound (m + 7) 8 ltac:(lia)). nia. }
  assert (Hl : zlen (replicate (Z.to_nat (Z.quot (m + 7) 8)) x00) = Z.quot (m + 7) 8)
    by (unfold zlen; rewrite length_replicate; lia).
  split; [split|]; unfold filter_ok, filter_n; cbn [f_bits f_k]; rewrite ?Hl.
  - rewrite u32_id by (unfold is_u32; lia). lia.
  - unfold u8. rewrite Z.mod_small by lia. lia.
  - lia.
  - lia.
Qed.

(** Building a filter for some keys: nothing fails, and every key is found. *)
Lemma build_filter_spec keys n bpk :
  0 < n -> 0 < bpk -> n * bpk <= 2 ^ 32 - 8 ->
  exists f, Filter_AddAll (NewFilter n bpk) keys = Ok (Some f) /\ filter_wf f /\
    zlen (f_bits f) <= 8 + n * bpk /\ forall key, key ∈ keys -> MayContain (Some f) key = Ok true.
Proof.
  intros Hn Hb Hm. destruct (NewFilter_spec _ _ Hn Hb Hm) as (f & -> & [Hok Hk Hbits] & Hsz).
  destruct (Filter_AddAll_spec keys f Hok) as (f' & -> & Hok' & Hk' & Hl' & Hc & _).
  exists f'. split; [done|]. split; [split; [done|by rewrite Hk'|by rewrite Hl']|].
  rewrite Hl'. done.
Qed.

(** C32. Bloom filters have no false negatives and never panic.  A filter
    sized for its keys, filled with them, encoded and decoded again answers
    true for every one of them, and answers without a panic for any key. *)
Theorem bloom_no_false_negatives keys n bpk :
  0 < n -> 0 < bpk -> n * bpk <= 2 ^ 32 - 8 ->
  exists f, Filter_AddAll (NewFilter n bpk) keys = Ok f /\
    (forall key, key ∈ keys -> MayContain (Filter_Decode (Filter_Encode f)) key = Ok true) /\
    (forall key, exists b, MayContain (Filter_Decode (Filter_Encode f)) key = Ok b).
Proof.
  intros Hn Hb Hm. destruct (build_filter_spec keys _ _ Hn Hb Hm) as (f & E & Hwf & _ & Hc).
  exists (Some f). rewrite Filter_Decode_Encode by done. split; [done|]. split; [done|].
  intros key. apply MayContain_total, Hwf.
Qed.

Lemma bloom_no_false_negatives_witness :
  exists f, Filter_AddAll (NewFilter 2 10) [bytes_of_string "a"; bytes_of_string "b"] = Ok f /\
    MayContain (Filter_Decode (Filter_Encode f)) (bytes_of_string "b") = Ok true.
Proof.
  destruct (bloom_no_false_negatives [bytes_of_string "a"; bytes_of_string "b"] 2 10) as (f & E & F & _); [lia..|].
  exists f. split; [exact E|]. apply F. by right; left.
Defined.
