(* ===== verification/Cache.v ===== *)
(** * LRU caches ([internal/lsm/sstable/cache/cache.go])

    The block, index and filter caches are one structure: a list with the
    most recently used element in front and a map from keys to its elements.
    They differ in how a value is measured and in what happens to the size of
    a key that is added again, which the block cache leaves as it was. *)

From Stdlib Require Import ZArith Lia Strings.Byte.
From stdpp Require Import base list gmap sets.
From S2P Require Import Prelude SstFormat SstBlock Bloom.
Local Open Scope Z_scope.

Section Lru.
Context {V : Type} (size_of : V -> Z) (resize : bool).

Record centry := mkCentry { ce_key : Z; ce_value : V; ce_size : Z }.

(** [items] maps the keys of the list's elements to them. *)
Record lru := mkLru {
  lru_cap : Z;
  lru_size : Z;
  lru_ll : list centry;
  lru_items : gset Z
}.

Definition NewCache (capBytes : Z) : option lru :=
  if bool_decide (capBytes <= 0) then None else Some (mkLru capBytes 0 [] ∅).

Fixpoint ll_find (key : Z) (ll : list centry) : option centry :=
  match ll with
  | [] => None
  | e :: ll => if bool_decide (ce_key e = key) then Some e else ll_find key ll
  end.

Definition ll_remove (key : Z) (ll : list centry) : list centry :=
  filter (fun e => ce_key e <> key) ll.

(** The element [c.items[key]], if the map has one. *)
Definition items_lookup (c : lru) (key : Z) : option centry :=
  if bool_decide (key ∈ lru_items c) then ll_find key (lru_ll c) else None.

Definition cache_Get (c : option lru) (key : Z) : option V * option lru :=
  match c with
  | None => (None, None)
  | Some c =>
      match items_lookup c key with
      | Some e => (Some (ce_value e),
                   Some (mkLru (lru_cap c) (lru_size c) (e :: ll_remove key (lru_ll c)) (lru_items c)))
      | None => (None, Some c)
      end
  end.

(** Drops elements from the back while the cache is too large. *)
Fixpoint evict_loop (fuel : nat) (c : lru) : lru :=
  match fuel with
  | O => c
  | S fuel =>
      if bool_decide (lru_cap c < lru_size c) then
        match last (lru_ll c) with
        | None => c
        | Some e =>
            evict_loop fuel
              (mkLru (lru_cap c) (lru_size c - ce_size e) (take (length (lru_ll c) - 1) (lru_ll c))
                 (lru_items c ∖ {[ce_key e]}))
        end
      else c
  end.

Definition evict (c : lru) : lru := evict_loop (length (lru_ll c)) c.

Definition cache_Add (c : option lru) (key : Z) (v : V) : option lru :=
  match c with
  | None => None
  | Some c =>
      match items_lookup c key with
      | Some e =>
          let n := if resize then size_of v else ce_size e in
          let c := mkLru (lru_cap c) (lru_size c - ce_size e + n)
                     (mkCentry key v n :: ll_remove key (lru_ll c)) (lru_items c) in
          Some (if resize then evict c else c)
      | None =>
          Some (evict (mkLru (lru_cap c) (lru_size c + size_of v)
                         (mkCentry key v (size_of v) :: lru_ll c) (lru_items c ∪ {[key]})))
      end
  end.

(** ** Invariant *)

Definition sizes (ll : list centry) : Z := fold_right (fun e n => ce_size e + n) 0 ll.

Record lru_inv (c : lru) : Prop := {
  li_keys : NoDup (ce_key <$> lru_ll c);
  li_items : lru_items c = list_to_set (ce_key <$> lru_ll c);
  li_size : lru_size c = sizes (lru_ll c);
  li_nonneg : Forall (fun e => 0 <= ce_size e) (lru_ll c)
}.

Lemma ll_find_Some key ll e : ll_find key ll = Some e -> e ∈ ll /\ ce_key e = key.
Proof.
  induction ll as [|x ll IH]; [done|]. cbn [ll_find]. case_bool_decide.
  - intros [= <-]. split; [by left|done].
  - intros E. destruct (IH E). split; [by right|done].
Qed.

Lemma ll_find_None key ll : ll_find key ll = None <-> key ∉ (ce_key <$> ll).
Proof.
  induction ll as [|x ll IH]; cbn [ll_find fmap list_fmap]; [split; [intros _; apply not_elem_of_nil|done]|].
  rewrite not_elem_of_cons. case_bool_decide; [split; [done|intuition congruence]|]. rewrite IH. intuition congruence.
Qed.

Lemma items_lookup_find c key : lru_inv c -> items_lookup c key = ll_find key (lru_ll c).
Proof.
  intros H. unfold items_lookup. case_bool_decide as E; [done|]. symmetry. apply ll_find_None.
  rewrite (li_items _ H) in E. by rewrite elem_of_list_to_set in E.
Qed.

Lemma sizes_app a b : sizes (a ++ b) = sizes a + sizes b.
Proof. induction a as [|x a IH]; cbn [app sizes fold_right]; [done|]. fold (sizes (a ++ b)) (sizes a). lia. Qed.

Lemma sizes_nonneg ll : Forall (fun e => 0 <= ce_size e) ll -> 0 <= sizes ll.
Proof. induction 1 as [|x ll Hx H IH]; cbn [sizes fold_right]; [done|]. fold (sizes ll). lia. Qed.

(** Moving the element of a key to the front. *)
Lemma list_snoc_case {A} (l : list A) : l = [] \/ exists a x, l = a ++ [x].
Proof. destruct l as [|x l] using rev_ind; [by left|right; eauto]. Qed.

Lemma ll_remove_split key ll e :
  NoDup (ce_key <$> ll) -> ll_find key ll = Some e ->
  e :: ll_remove key ll ≡ₚ ll /\ sizes (ll_remove key ll) = sizes ll - ce_size e /\
  key ∉ (ce_key <$> ll_remove key ll).
Proof.
  induction ll as [|x ll IH]; [done|]. cbn [ll_find fmap list_fmap]. intros [Hx Hnd]%NoDup_cons.
  unfold ll_remove. cbn [sizes fold_right]. fold (sizes ll). case_bool_decide as E.
  - intros [= ->]. rewrite filter_cons_False by (rewrite E; auto).
    assert (filter (fun e => ce_key e <> key) ll = ll) as ->.
    { clear IH Hnd. induction ll as [|y ll IH]; [done|]. cbn in Hx. rewrite not_elem_of_cons in Hx.
      destruct Hx as [Hxy Hx]. rewrite filter_cons_True by congruence. f_equal. by apply IH. }
    split; [done|]. split; [lia|congruence].
  - intros Hf. rewrite filter_cons_True by done. destruct (IH Hnd Hf) as (Hp & Hs & Hk).
    unfold ll_remove in *. split; [|split].
    + rewrite <- Hp at 2. apply Permutation_swap.
    + cbn [sizes fold_right]. fold (sizes (filter (fun e => ce_key e <> key) ll)). lia.
    + cbn [fmap list_fmap]. rewrite not_elem_of_cons. done.
Qed.

(** ** Eviction *)

(** The longest prefix of the recency list that fits. *)
Fixpoint keep (cap : Z) (ll : list centry) : list centry :=
  match ll with
  | [] => []
  | e :: ll => if bool_decide (ce_size e <= cap) then e :: keep (cap - ce_size e) ll else []
  end.

Lemma keep_all cap ll : Forall (fun e => 0 <= ce_size e) ll -> sizes ll <= cap -> keep cap ll = ll.
Proof.
  intros H. revert cap. induction H as [|x ll Hx H IH]; intros cap Hc; [done|]. cbn [keep sizes fold_right] in *.
  fold (sizes ll) in Hc. pose proof (sizes_nonneg ll H). rewrite bool_decide_true by lia. f_equal. apply IH. lia.
Qed.

Lemma keep_drop_last cap ll e :
  Forall (fun e => 0 <= ce_size e) (ll ++ [e]) -> cap < sizes (ll ++ [e]) -> keep cap (ll ++ [e]) = keep cap ll.
Proof.
  revert cap. induction ll as [|x ll IH]; intros cap H Hc; cbn [app keep sizes fold_right] in *.
  - rewrite bool_decide_false by lia. done.
  - fold (sizes (ll ++ [e])) in Hc. apply Forall_cons in H as [Hx H]. case_bool_decide; [|done].
    f_equal. apply IH; [done|lia].
Qed.

Lemma keep_prefix cap ll : exists dropped, ll = keep cap ll ++ dropped.
Proof.
  revert cap. induction ll as [|x ll IH]; intros cap; cbn [keep]; [by exists []|].
  case_bool_decide; [|by exists (x :: ll)]. destruct (IH (cap - ce_size x)) as [d E]. exists d. cbn. by rewrite <- E.
Qed.

Lemma keep_fits cap ll : 0 <= cap -> sizes (keep cap ll) <= cap.
Proof.
  revert cap. induction ll as [|x ll IH]; intros cap Hc; cbn [keep]; [done|].
  case_bool_decide; [|done]. cbn [sizes fold_right]. fold (sizes (keep (cap - ce_size x) ll)).
  specialize (IH (cap - ce_size x) ltac:(lia)). lia.
Qed.

Lemma evict_loop_spec fuel : forall c,
  lru_inv c -> (length (lru_ll c) <= fuel)%nat ->
  lru_ll (evict_loop fuel c) = keep (lru_cap c) (lru_ll c) /\ lru_inv (evict_loop fuel c) /\
  lru_cap (evict_loop fuel c) = lru_cap c.
Proof.
  induction fuel as [|fuel IH]; intros c Hi Hf; cbn [evict_loop].
  { destruct (lru_ll c) eqn:E; [done|cbn in Hf; lia]. }
  case_bool_decide as Hc.
  2:{ split; [|done]. symmetry. apply keep_all; [apply Hi|]. rewrite <- (li_size _ Hi). lia. }
  destruct (list_snoc_case (lru_ll c)) as [E|(ll & e & E)].
  all: rewrite E.
  1:{ cbn. by rewrite E. }
  rewrite last_snoc, length_app. cbn [length]. rewrite Nat.add_sub, take_app_length.
  destruct Hi as [Hk Hit Hs Hn]. rewrite E in *. rewrite fmap_app in Hk, Hit. cbn [fmap list_fmap] in Hk, Hit.
  apply NoDup_app in Hk as (Hk & Hd & _). rewrite length_app in Hf. cbn [length] in Hf.
  assert (Hi' : lru_inv (mkLru (lru_cap c) (lru_size c - ce_size e) ll (lru_items c ∖ {[ce_key e]}))).
  { split; cbn [lru_ll lru_items lru_size].
    - done.
    - rewrite Hit, list_to_set_app_L. specialize (Hd (ce_key e)). clear -Hd. set_solver.
    - rewrite sizes_app in Hs. cbn in Hs. lia.
    - by apply Forall_app in Hn as [Hn _]. }
  destruct (IH _ Hi') as (E1 & E2 & E3); cbn [lru_ll lru_cap] in *; [lia|].
  rewrite E1. split; [|done]. rewrite keep_drop_last; [done|done|]. rewrite <- Hs. lia.
Qed.

Lemma evict_spec c :
  lru_inv c ->
  lru_ll (evict c) = keep (lru_cap c) (lru_ll c) /\ lru_inv (evict c) /\ lru_cap (evict c) = lru_cap c.
Proof. intros H. by apply evict_loop_spec. Qed.

(** ** Operations keep the invariant and the values of the cache *)

Lemma lru_inv_front c key e v n :
  lru_inv c -> ll_find key (lru_ll c) = Some e -> 0 <= n ->
  lru_inv (mkLru (lru_cap c) (lru_size c - ce_size e + n) (mkCentry key v n :: ll_remove key (lru_ll c)) (lru_items c)).
Proof.
  intros [Hk Hit Hs Hn] Hf H0. destruct (ll_remove_split _ _ _ Hk Hf) as (Hp & Hsz & Hnk).
  destruct (ll_find_Some _ _ _ Hf) as [_ Hek].
  assert (Hkp : (ce_key <$> mkCentry key v n :: ll_remove key (lru_ll c)) ≡ₚ (ce_key <$> lru_ll c)).
  { apply (fmap_Permutation ce_key) in Hp. cbn [fmap list_fmap ce_key] in *. by rewrite Hek in Hp. }
  split; cbn [lru_ll lru_items lru_size].
  - by rewrite Hkp.
  - rewrite Hit. apply leibniz_equiv. by rewrite Hkp.
  - cbn [sizes fold_right ce_size]. fold (sizes (ll_remove key (lru_ll c))). lia.
  - constructor; [done|]. apply Forall_forall. intros x Hx. rewrite Forall_forall in Hn. apply Hn.
    rewrite <- Hp. by right.
Qed.

Definition inv_opt (c : option lru) : Prop := from_option lru_inv True c.

(** Every cached value is a right one for its key. *)
Definition coherent (P : Z -> V -> Prop) (c : option lru) : Prop :=
  from_option (fun c => Forall (fun e => P (ce_key e) (ce_value e)) (lru_ll c)) True c.

Lemma NewCache_spec P cap : inv_opt (NewCache cap) /\ coherent P (NewCache cap).
Proof. unfold NewCache. case_bool_decide; [done|]. split; [|constructor]. split; try done; constructor. Qed.

Lemma cache_Get_spec P c key :
  inv_opt c -> coherent P c ->
  let '(r, c') := cache_Get c key in
  inv_opt c' /\ coherent P c' /\ (forall v, r = Some v -> P key v).
Proof.
  intros Hi Hc. destruct c as [c|]; cbn [cache_Get]; [|done]. cbn in Hi, Hc. rewrite items_lookup_find by done.
  destruct (ll_find key (lru_ll c)) as [e|] eqn:Hf; [|done].
  destruct (ll_find_Some _ _ _ Hf) as [Hin Hek].
  destruct (ll_remove_split _ _ _ (li_keys _ Hi) Hf) as (Hp & _ & _).
  split; [|split].
  - pose proof (lru_inv_front c key e (ce_value e) (ce_size e) Hi Hf) as H.
    replace (lru_size c - ce_size e + ce_size e) with (lru_size c) in H by lia.
    destruct e; cbn in *; subst. apply H. pose proof (li_nonneg _ Hi) as Hn. rewrite Forall_forall in Hn. by apply (Hn _ Hin).
  - cbn. by rewrite Hp.
  - intros v [= <-]. rewrite Forall_forall in Hc. specialize (Hc e Hin). by rewrite Hek in Hc.
Qed.

Lemma Forall_keep (Q : centry -> Prop) cap ll : Forall Q ll -> Forall Q (keep cap ll).
Proof. intros H. destruct (keep_prefix cap ll) as [d E]. rewrite E in H. by apply Forall_app in H as [H _]. Qed.

Context (size_nonneg : forall v, 0 <= size_of v).

Lemma lru_inv_new c key v :
  lru_inv c -> ll_find key (lru_ll c) = None ->
  lru_inv (mkLru (lru_cap c) (lru_size c + size_of v) (mkCentry key v (size_of v) :: lru_ll c) (lru_items c ∪ {[key]})).
Proof.
  intros [Hk Hit Hs Hn] Hf%ll_find_None. split; cbn [lru_ll lru_items lru_size].
  - cbn [fmap list_fmap ce_key]. by constructor.
  - rewrite Hit. cbn [fmap list_fmap ce_key list_to_set]. set_solver.
  - cbn [sizes fold_right ce_size]. fold (sizes (lru_ll c)). lia.
  - constructor; [apply size_nonneg|done].
Qed.

Lemma cache_Add_spec P c key v :
  inv_opt c -> coherent P c -> P key v -> inv_opt (cache_Add c key v) /\ coherent P (cache_Add c key v).
Proof.
  intros Hi Hc Hv. destruct c as [c|]; cbn [cache_Add]; [|done]. cbn in Hi, Hc. rewrite items_lookup_find by done.
  destruct (ll_find key (lru_ll c)) as [e|] eqn:Hf; [|].
  - assert (Hn : 0 <= if resize then size_of v else ce_size e).
    { destruct resize; [done|]. pose proof (li_nonneg _ Hi) as Hn. rewrite Forall_forall in Hn.
      apply (Hn e). apply (ll_find_Some _ _ _ Hf). }
    pose proof (lru_inv_front c key e v _ Hi Hf Hn) as H. set (c1 := mkLru _ _ _ _) in *.
    assert (Hc1 : Forall (fun e => P (ce_key e) (ce_value e)) (lru_ll c1)).
    { cbn. constructor; [done|]. destruct (ll_remove_split _ _ _ (li_keys _ Hi) Hf) as (Hp & _ & _).
      rewrite <- Hp in Hc. by apply Forall_cons in Hc as [_ Hc]. }
    destruct resize; [|done]. destruct (evict_spec c1 H) as (E & Hi1 & _). unfold inv_opt, coherent. cbn [from_option]. rewrite E.
    split; [done|by apply Forall_keep].
  - pose proof (lru_inv_new c key v Hi Hf) as H. set (c1 := mkLru _ _ _ _) in *.
    destruct (evict_spec c1 H) as (E & Hi1 & _). unfold inv_opt, coherent. cbn [from_option]. rewrite E. split; [done|]. apply Forall_keep. by constructor.
Qed.
(** ** The recency list as a specification *)

Inductive cache_op := OpGet (key : Z) | OpAdd (key : Z) (v : V).

Definition cache_step (c : option lru) (op : cache_op) : option V * option lru :=
  match op with
  | OpGet key => cache_Get c key
  | OpAdd key v => (None, cache_Add c key v)
  end.

Fixpoint cache_run (c : option lru) (ops : list cache_op) : list (option V) * option lru :=
  match ops with
  | [] => ([], c)
  | op :: ops =>
      let '(r, c) := cache_step c op in
      let '(rs, c) := cache_run c ops in (r :: rs, c)
  end.

Definition spec_step (cap : Z) (ll : list centry) (op : cache_op) : option V * list centry :=
  match op with
  | OpGet key =>
      match ll_find key ll with
      | Some e => (Some (ce_value e), e :: ll_remove key ll)
      | None => (None, ll)
      end
  | OpAdd key v => (None, keep cap (mkCentry key v (size_of v) :: ll_remove key ll))
  end.

Fixpoint spec_run (cap : Z) (ll : list centry) (ops : list cache_op) : list (option V) * list centry :=
  match ops with
  | [] => ([], ll)
  | op :: ops =>
      let '(r, ll) := spec_step cap ll op in
      let '(rs, ll) := spec_run cap ll ops in (r :: rs, ll)
  end.

Lemma ll_remove_absent key ll : ll_find key ll = None -> ll_remove key ll = ll.
Proof.
  intros H%ll_find_None. unfold ll_remove. induction ll as [|x ll IH]; [done|].
  cbn in H. rewrite not_elem_of_cons in H. rewrite filter_cons_True by (destruct H; congruence).
  f_equal. apply IH. tauto.
Qed.

Lemma cache_step_refines c op :
  resize = true -> lru_inv c -> lru_size c <= lru_cap c ->
  exists c', cache_step (Some c) op = (fst (spec_step (lru_cap c) (lru_ll c) op), Some c') /\
    lru_ll c' = snd (spec_step (lru_cap c) (lru_ll c) op) /\ lru_inv c' /\ lru_cap c' = lru_cap c /\
    (0 <= lru_cap c -> lru_size c' <= lru_cap c').
Proof.
  intros Hres Hi Hc. destruct op as [key|key v]; cbn [cache_step spec_step cache_Get cache_Add].
  - rewrite items_lookup_find by done. destruct (ll_find key (lru_ll c)) as [e|] eqn:Hf.
    + eexists. split; [done|]. split; [done|]. split; [|done].
      pose proof (lru_inv_front c key e (ce_value e) (ce_size e) Hi Hf) as Hfr.
      replace (lru_size c - ce_size e + ce_size e) with (lru_size c) in Hfr by lia.
      destruct (ll_find_Some _ _ _ Hf) as [Hin Hek]. destruct e; cbn in *; subst. apply Hfr.
      pose proof (li_nonneg _ Hi) as Hn. rewrite Forall_forall in Hn. by apply (Hn _ Hin).
    + exists c. done.
  - rewrite items_lookup_find by done. destruct (ll_find key (lru_ll c)) as [e|] eqn:Hf; rewrite ?Hres.
    + pose proof (lru_inv_front c key e v _ Hi Hf (size_nonneg v)) as Hfr.
      destruct (evict_spec _ Hfr) as (E & Hi1 & Ecap). eexists. split; [done|]. split; [exact E|]. split; [done|].
      split; [done|]. intros H0. rewrite (li_size _ Hi1), E, Ecap. by apply keep_fits.
    + pose proof (lru_inv_new c key v Hi Hf) as Hfr.
      destruct (evict_spec _ Hfr) as (E & Hi1 & Ecap). eexists. split; [done|].
      rewrite ll_remove_absent by done. split; [exact E|]. split; [done|].
      split; [done|]. intros H0. rewrite (li_size _ Hi1), E, Ecap. by apply keep_fits.
Qed.

Lemma cache_run_refines ops : forall c,
  resize = true -> lru_inv c -> 0 <= lru_cap c -> lru_size c <= lru_cap c ->
  exists c', cache_run (Some c) ops = (fst (spec_run (lru_cap c) (lru_ll c) ops), Some c') /\
    lru_ll c' = snd (spec_run (lru_cap c) (lru_ll c) ops) /\ lru_inv c' /\ lru_size c' <= lru_cap c.
Proof.
  induction ops as [|op ops IH]; intros c Hr Hi H0 Hs; cbn [cache_run spec_run].
  { by exists c. }
  destruct (cache_step_refines c op Hr Hi Hs) as (c1 & E & El & Hi1 & Ec & Hs1). rewrite E.
  destruct (spec_step (lru_cap c) (lru_ll c) op) as [r ll]; cbn [fst snd] in *. subst ll.
  destruct (IH c1 Hr Hi1) as (c2 & E2 & El2 & Hi2 & Hs2); [by rewrite Ec|by apply Hs1|].
  rewrite E2. rewrite Ec in *. exists c2.
  destruct (spec_run (lru_cap c) (lru_ll c1) ops) as [rs ll2]; done.
Qed.
End Lru.

(** ** The three caches *)

Abbreviation BlockCache := (option (lru (V := Block))).
Abbreviation IndexCache := (option (lru (V := list IndexEntry))).
Abbreviation FilterCache := (option (lru (V := Filter))).

Definition block_size (b : Block) : Z := zlen (bk_data b).
Definition indexEntriesSize (es : list IndexEntry) : Z :=
  fold_right (fun e n => IndexHeaderSize + zlen (ie_Key e) + n) 0 es.
Definition bloomFilterSize (f : Filter) : Z := zlen (f_bits f).

Definition BlockCache_Add := cache_Add block_size false.
Definition IndexCache_Add := cache_Add indexEntriesSize true.
Definition FilterCache_Add := cache_Add bloomFilterSize true.

Lemma block_size_nonneg b : 0 <= block_size b.
Proof. apply zlen_nonneg. Qed.
Lemma indexEntriesSize_nonneg es : 0 <= indexEntriesSize es.
Proof.
  induction es as [|e es IH]; cbn [indexEntriesSize fold_right]; [done|]. fold (indexEntriesSize es).
  pose proof (zlen_nonneg (ie_Key e)). unfold IndexHeaderSize. lia.
Qed.
Lemma bloomFilterSize_nonneg f : 0 <= bloomFilterSize f.
Proof. apply zlen_nonneg. Qed.

(** C33. The index cache is a least-recently-used cache of bounded size: after
    any sequence of lookups and insertions its map, list and size counter
    agree, it answers like the recency list that keeps the longest prefix of
    the most recently used entries that fits the capacity, and the bytes it
    accounts for never exceed the capacity. *)
Theorem index_cache_is_lru cap ops :
  0 < cap ->
  exists c, cache_run indexEntriesSize true (NewCache cap) ops = (fst (spec_run indexEntriesSize cap [] ops), Some c) /\
    lru_ll c = snd (spec_run indexEntriesSize cap [] ops) /\ lru_inv c /\ lru_size c <= cap.
Proof.
  intros Hc. unfold NewCache. rewrite bool_decide_false by lia.
  apply (cache_run_refines _ true indexEntriesSize_nonneg ops (mkLru cap 0 [] ∅)); [done| |cbn [lru_cap]; lia|cbn [lru_size lru_cap]; lia].
  split; try done. constructor.
Qed.

Lemma index_cache_is_lru_witness :
  exists c, cache_run indexEntriesSize true (NewCache 40)
    [OpAdd 0 [mkIndexEntry [x61] 0 1]; OpAdd 9 [mkIndexEntry [x62] 9 1]; OpGet 0;
     OpAdd 18 [mkIndexEntry [x63] 18 1]; OpGet 9; OpGet 0]
  = ([None; None; Some [mkIndexEntry [x61] 0 1]; None; None; Some [mkIndexEntry [x61] 0 1]], Some c) /\
  lru_size c <= 40.
Proof.
  destruct (index_cache_is_lru 40 [OpAdd 0 [mkIndexEntry [x61] 0 1]; OpAdd 9 [mkIndexEntry [x62] 9 1]; OpGet 0;
     OpAdd 18 [mkIndexEntry [x63] 18 1]; OpGet 9; OpGet 0]) as (c & E & _ & _ & H); [lia|].
  exists c. split; [exact E|exact H].
Defined.
