(* ===== verification/SstReader.v ===== *)
(** * Reading tables ([sstable/flow_pipeline.go], [reader.go], [storage/source.go])

    Opening a table file, the point-read pipeline (filter, index, data and
    decode nodes) with its three caches and the node registry, prefetching
    and the range iterator with its corruption policies.  A table file is its
    bytes; memory mapping and buffered reads give the same bytes.  Contexts,
    observers and the asynchronous prefetch queue are left out: they do not
    change what is read, only what is cached. *)

From Stdlib Require Import ZArith Lia Strings.Byte.
From stdpp Require Import base list strings gmap.
From S2P Require Import Prelude Iofs SstFormat SstBlock SstOptions Bloom Cache.
Local Open Scope Z_scope.

(** ** The block source *)

Record BlockDescriptor := mkDesc {
  d_Offset : Z;
  d_Length : Z
}.

Definition source_Read (file : bytes) (desc : BlockDescriptor) : result bytes :=
  if bool_decide (d_Length desc = 0) then Err EOF else
  let stop := i64 (d_Offset desc) + d_Length desc in
  if bool_decide (zlen file < d_Offset desc \/ zlen file < stop) then Err EOF
  else slice file (d_Offset desc) (d_Offset desc + d_Length desc).

(** [err == io.EOF] is replaced by the caller's error. *)
Definition eof_as {A} (e : error) (r : result A) : result A :=
  match r with
  | Err EOF => Err e
  | r => r
  end.

(** ** Index search *)

Fixpoint step_back (entries : list IndexEntry) (key : bytes) (idx : nat) : nat :=
  match idx with
  | O => O
  | S i => match entries !! i with
           | Some e => if bool_decide (ie_Key e = key) then step_back entries key i else idx
           | None => idx
           end
  end.

(** The last block whose first key is not above [key], [None] for -1. *)
Definition findBlock (entries : list IndexEntry) (key : bytes) : option nat :=
  match entries with
  | [] => None
  | e0 :: _ =>
      if bool_decide (bytes_compare key (ie_Key e0) = Lt) then None else
      let i := sort_Search (length entries)
        (fun i => match entries !! i with
                  | Some e => bool_decide (bytes_compare (ie_Key e) key = Gt)
                  | None => false
                  end) in
      match i with
      | O => None
      | S idx =>
          match entries !! idx with
          | Some e => Some (if bool_decide (ie_Key e = key) then step_back entries key idx else idx)
          | None => Some idx
          end
      end
  end.

(** ** The pipeline *)

(** The immutable parts of the pipeline and of its nodes. *)
Record Pipeline := mkPipeline {
  p_source : bytes;
  p_size : Z;
  p_policy : PolicySnapshot;
  p_top : list IndexEntry;
  p_partitioned : bool;
  p_filter : option Filter;
  p_filterIndex : list IndexEntry;
  p_filterPartitioned : bool
}.

(** The registry keeps, by offset, the length of the node made last. *)
Record nodeRegistry := mkRegistry {
  n_data : gmap Z Z;
  n_index : gmap Z Z;
  n_filter : gmap Z Z
}.

(** What a read may change. *)
Record pstate := mkPstate {
  ps_block : BlockCache;
  ps_index : IndexCache;
  ps_filter : FilterCache;
  ps_nodes : nodeRegistry
}.

Definition registry_node (m : gmap Z Z) (desc : BlockDescriptor) : BlockDescriptor * gmap Z Z :=
  match m !! d_Offset desc with
  | Some len => if bool_decide (len = d_Length desc) then (mkDesc (d_Offset desc) len, m)
                else (desc, <[d_Offset desc := d_Length desc]> m)
  | None => (desc, <[d_Offset desc := d_Length desc]> m)
  end.

Definition entry_desc (e : IndexEntry) : BlockDescriptor := mkDesc (ie_Offset e) (ie_Length e).

Section Snappy.
Context (snappy_Decode : bytes -> option bytes).

Definition read_block (file : bytes) (desc : BlockDescriptor) (typ : BlockType) (errBad : error) : result bytes :=
  view ← eof_as errBad (source_Read file desc);
  DecodeBlockPayload snappy_Decode view typ (Some errBad).

Definition ReadBlockPayload := read_block.

Definition with_block_cache (c : BlockCache) (s : pstate) : pstate := mkPstate c (ps_index s) (ps_filter s) (ps_nodes s).
Definition with_index_cache (c : IndexCache) (s : pstate) : pstate := mkPstate (ps_block s) c (ps_filter s) (ps_nodes s).
Definition with_filter_cache (c : FilterCache) (s : pstate) : pstate := mkPstate (ps_block s) (ps_index s) c (ps_nodes s).
Definition with_nodes (n : nodeRegistry) (s : pstate) : pstate := mkPstate (ps_block s) (ps_index s) (ps_filter s) n.

(** [dataNode.fetch]: the registry's node, then [dataBlockNode.Fetch]. *)
Definition fetch_data (p : Pipeline) (e : IndexEntry) : SE pstate Block :=
  s ← get;
  let '(desc, m) := registry_node (n_data (ps_nodes s)) (entry_desc e) in
  _ ← put (with_nodes (mkRegistry m (n_index (ps_nodes s)) (n_filter (ps_nodes s))) s);
  s ← get;
  let '(hit, c) := cache_Get (ps_block s) (d_Offset desc) in
  _ ← put (with_block_cache c s);
  match hit with
  | Some blk => mret blk
  | None =>
      payload ← lift (read_block (p_source p) desc BlockTypeData ErrSSTableBadBlock);
      blk ← lift (Decode payload);
      _ ← modify (fun s => with_block_cache (BlockCache_Add (ps_block s) (d_Offset desc) blk) s);
      mret blk
  end.

(** [indexNode.readPartition]. *)
Definition readPartition (p : Pipeline) (e : IndexEntry) : SE pstate (list IndexEntry) :=
  s ← get;
  let '(desc, m) := registry_node (n_index (ps_nodes s)) (entry_desc e) in
  _ ← put (with_nodes (mkRegistry (n_data (ps_nodes s)) m (n_filter (ps_nodes s))) s);
  s ← get;
  let '(hit, c) := cache_Get (ps_index s) (d_Offset desc) in
  _ ← put (with_index_cache c s);
  match hit with
  | Some es => mret es
  | None =>
      payload ← lift (read_block (p_source p) desc BlockTypeIndex ErrSSTableBadIndex);
      es ← lift (DecodeIndex payload);
      (* a decoded empty partition is a nil slice, which the cache ignores *)
      _ ← modify (fun s => if bool_decide (es = []) then s
                           else with_index_cache (IndexCache_Add (ps_index s) (d_Offset desc) es) s);
      mret es
  end.

Definition fetch_filter (p : Pipeline) (e : IndexEntry) : SE pstate Filter :=
  s ← get;
  let '(desc, m) := registry_node (n_filter (ps_nodes s)) (entry_desc e) in
  _ ← put (with_nodes (mkRegistry (n_data (ps_nodes s)) (n_index (ps_nodes s)) m) s);
  s ← get;
  let '(hit, c) := cache_Get (ps_filter s) (d_Offset desc) in
  _ ← put (with_filter_cache c s);
  match hit with
  | Some f => mret f
  | None =>
      payload ← lift (read_block (p_source p) desc BlockTypeFilter ErrSSTableBadMeta);
      match Filter_Decode payload with
      | None => throw ErrSSTableBadMeta
      | Some f =>
          _ ← modify (fun s => with_filter_cache (FilterCache_Add (ps_filter s) (d_Offset desc) f) s);
          mret f
      end
  end.

(** [indexNode.Find]. *)
Definition index_Find (p : Pipeline) (key : bytes) : SE pstate (option IndexEntry) :=
  match findBlock (p_top p) key with
  | None => mret None
  | Some i =>
      e ← lift (index (p_top p) (Z.of_nat i));
      if p_partitioned p then
        part ← readPartition p e;
        match findBlock part key with
        | None => mret None
        | Some j => e ← lift (index part (Z.of_nat j)); mret (Some e)
        end
      else mret (Some e)
  end.

(** [filterNode.MayContain]. *)
Definition filter_MayContain (p : Pipeline) (key : bytes) : SE pstate bool :=
  if p_filterPartitioned p then
    match findBlock (p_filterIndex p) key with
    | None => mret true
    | Some i =>
        e ← lift (index (p_filterIndex p) (Z.of_nat i));
        f ← fetch_filter p e;
        lift (MayContain (Some f) key)
    end
  else lift (MayContain (p_filter p) key).

(** [dataNode.validateEntry]. *)
Definition validateEntry (p : Pipeline) (e : IndexEntry) (errBad : error) : result unit :=
  if bool_decide (ie_Length e = 0) then Err errBad else
  let rmax := pol_ReadBlockMaxBytes (p_policy p) in
  if bool_decide (0 < rmax /\ rmax < ie_Length e) then Err errBad else
  if bool_decide (0 < p_size p /\ p_size p < i64 (i64 (ie_Offset e) + ie_Length e)) then Err errBad else Ok tt.

(** The message passed through the nodes, and the nodes. *)
Record FlowItem := mkItem' {
  fi_Key : bytes;
  fi_Index : IndexEntry;
  fi_Block : option Block;
  fi_Entry : option EntryView;
  fi_Done : bool
}.

Inductive Node := FilterNode | IndexNode | DataNode | DecodeNode.

(** [Process]: the item, the next node and [Done]. *)
Definition Process (p : Pipeline) (n : Node) (item : FlowItem) : SE pstate (FlowItem * option Node * bool) :=
  match n with
  | FilterNode =>
      ok ← filter_MayContain p (fi_Key item);
      if (ok : bool) then mret (item, Some IndexNode, false)
      else mret (mkItem' (fi_Key item) (fi_Index item) (fi_Block item) (fi_Entry item) true, None, true)
  | IndexNode =>
      r ← index_Find p (fi_Key item);
      match r with
      | Some e => mret (mkItem' (fi_Key item) e (fi_Block item) (fi_Entry item) (fi_Done item), Some DataNode, false)
      | None => mret (mkItem' (fi_Key item) (fi_Index item) (fi_Block item) (fi_Entry item) true, None, true)
      end
  | DataNode =>
      _ ← lift (validateEntry p (fi_Index item) ErrSSTableBadBlock);
      blk ← fetch_data p (fi_Index item);
      mret (mkItem' (fi_Key item) (fi_Index item) (Some blk) (fi_Entry item) (fi_Done item), Some DecodeNode, false)
  | DecodeNode =>
      match fi_Block item with
      | None => mret (item, None, true)
      | Some blk =>
          r ← lift (FindView blk (fi_Key item));
          mret (mkItem' (fi_Key item) (fi_Index item) (fi_Block item) r true, None, true)
      end
  end.

(** The driver loop of [Pipeline.Get]; four nodes in a row at most. *)
Fixpoint run_nodes (fuel : nat) (p : Pipeline) (n : option Node) (item : FlowItem) : SE pstate (option EntryView) :=
  match n with
  | None => mret (fi_Entry item)
  | Some n =>
      match fuel with
      | O => lift NoFuel
      | S fuel =>
          '(item, next, finished) ← Process p n item;
          if bool_decide (finished = true \/ fi_Done item = true) then mret (fi_Entry item)
          else run_nodes fuel p next item
      end
  end.

Definition Pipeline_Get (p : Pipeline) (key : bytes) : SE pstate (option EntryView) :=
  run_nodes 4 p (Some FilterNode) (mkItem' key (mkIndexEntry [] 0 0) None None false).

Definition ReadBlockEntry (p : Pipeline) (e : IndexEntry) : SE pstate Block :=
  _ ← lift (validateEntry p e ErrSSTableBadBlock);
  fetch_data p e.

(** ** Prefetching *)

Record PrefetchBudget := mkBudget { pb_bytes : Z; pb_blocks : Z }.

Definition NewPrefetchBudget (policy : PolicySnapshot) : option PrefetchBudget :=
  if bool_decide (0 < pol_PrefetchBudgetBytes policy) then Some (mkBudget (pol_PrefetchBudgetBytes policy) 0)
  else if bool_decide (0 < pol_PrefetchBudgetBlocks policy) then Some (mkBudget 0 (pol_PrefetchBudgetBlocks policy))
  else None.

Definition prefetchEntryCandidate (p : Pipeline) (e : IndexEntry) : SE pstate bool :=
  if bool_decide (ie_Length e = 0) then mret false else
  let rmax := pol_ReadBlockMaxBytes (p_policy p) in
  if bool_decide (0 < rmax /\ rmax < ie_Length e) then mret false else
  s ← get;
  let '(hit, c) := cache_Get (ps_block s) (ie_Offset e) in
  _ ← put (with_block_cache c s);
  mret (bool_decide (hit = None)).

(** The loop over the entries behind [start]; [out] are the targets chosen so
    far, [remaining] the bytes left of a byte budget. *)
Fixpoint prefetch_loop (p : Pipeline) (budget : PrefetchBudget) (rest : list IndexEntry)
    (remaining : Z) (out : list IndexEntry) : SE pstate (list IndexEntry) :=
  match rest with
  | [] => mret out
  | e :: rest =>
      ok ← prefetchEntryCandidate p e;
      if (ok : bool) then
        if bool_decide (0 < pb_blocks budget /\ pb_blocks budget <= zlen out) then mret out else
        if bool_decide (0 < pb_bytes budget) then
          if bool_decide (remaining <= 0 /\ 0 < zlen out) then mret out else
          if bool_decide (remaining < ie_Length e /\ 0 < zlen out) then mret out else
          prefetch_loop p budget rest (remaining - ie_Length e) (out ++ [e])
        else prefetch_loop p budget rest remaining (out ++ [e])
      else prefetch_loop p budget rest remaining out
  end.

Definition prefetchTargets (p : Pipeline) (entries : list IndexEntry) (start : nat)
    (budget : option PrefetchBudget) : SE pstate (list IndexEntry) :=
  match entries, budget with
  | [], _ | _, None => mret []
  | _, Some b => prefetch_loop p b (drop (S start) entries) (pb_bytes b) []
  end.

(** The errors of a prefetch are dropped; a panic is not. *)
Definition prefetchEntry (p : Pipeline) (e : IndexEntry) : SE pstate unit :=
  if bool_decide (ie_Length e = 0) then mret tt else
  s ← get;
  let '(hit, c) := cache_Get (ps_block s) (ie_Offset e) in
  _ ← put (with_block_cache c s);
  if bool_decide (hit = None) then _ ← catch (_ ← fetch_data p e; mret tt); mret tt else mret tt.

Fixpoint prefetch_all (p : Pipeline) (targets : list IndexEntry) : SE pstate unit :=
  match targets with
  | [] => mret tt
  | e :: targets => _ ← prefetchEntry p e; prefetch_all p targets
  end.

(** There is a prefetch node only with a block cache; with [PrefetchAsync] the
    targets are queued for other goroutines. *)
Definition Prefetch (p : Pipeline) (entries : list IndexEntry) (start : nat) (budget : option PrefetchBudget)
  : SE pstate unit :=
  s ← get;
  if bool_decide (UsePrefetch (p_policy p) = false \/ ps_block s = None) then mret tt else
  targets ← prefetchTargets p entries start budget;
  if pol_PrefetchAsync (p_policy p) then mret tt else prefetch_all p targets.

(** ** Opening a table *)

Record Reader := mkReader {
  r_size : Z;
  r_meta : Meta;
  r_policy : CorruptionPolicy;
  r_pipe : Pipeline
}.

Definition empty_registry : nodeRegistry := mkRegistry ∅ ∅ ∅.

Definition flag_set (flags : byte) (flag : Z) : bool := bool_decide (Z.land (byte_to_Z flags) flag <> 0).

(** The reader and its fresh caches, from the bytes of the file; [spare] are
    the bytes behind the meta block in the read buffer. *)
Definition openReader (file : bytes) (opts : Options) (spare : bytes) : result (Reader * pstate) :=
  let opts := Normalize opts in
  _ ← Validate opts;
  if bool_decide (zlen file < FooterSizeBytes) then Err ErrSSTableBadFooter else
  footerBuf ← source_Read file (mkDesc (zlen file - FooterSizeBytes) FooterSizeBytes);
  ft ← DecodeFooter footerBuf;
  metaPayload ← ReadBlockPayload file (mkDesc (MetaOffset ft) (MetaLen ft)) BlockTypeMeta ErrSSTableBadMeta;
  m ← DecodeMeta metaPayload spare;
  indexPayload ← ReadBlockPayload file (mkDesc (IndexOffset ft) (IndexLen ft)) BlockTypeIndex ErrSSTableBadIndex;
  indexEntries ← DecodeIndex indexPayload;
  let filterPartitioned := flag_set (Flags ft) FooterFlagFilterPartitioned in
  '(filter, filterIndex) ←
    (if bool_decide (0 < BloomLen m /\ 0 < BloomOffset m) then
       filterPayload ← ReadBlockPayload file (mkDesc (BloomOffset m) (BloomLen m)) BlockTypeFilter ErrSSTableBadMeta;
       if filterPartitioned then
         filterIndex ← DecodeIndex filterPayload;
         Ok (None, filterIndex)
       else match Filter_Decode filterPayload with
            | None => Err ErrSSTableBadMeta
            | Some f => Ok (Some f, [])
            end
     else Ok (None, []));
  let partitioned := flag_set (Flags ft) FooterFlagIndexPartitioned in
  let policy := SnapshotFromOptions opts partitioned filterPartitioned in
  let pipe := mkPipeline file (zlen file) policy indexEntries partitioned filter filterIndex filterPartitioned in
  Ok (mkReader (zlen file) m (opt_CorruptionPolicy opts) pipe,
      mkPstate (NewCache (BlockCacheBytes opts))
        (if partitioned then NewCache (IndexCacheBytes opts) else None)
        (if filterPartitioned then NewCache (FilterCacheBytes opts) else None)
        empty_registry).

(** ** Point reads *)

(** [bytes.Compare] against the key range of the table; an empty bound is
    none. *)
Definition out_of_range (m : Meta) (key : bytes) : bool :=
  bool_decide (MinKey m <> [] /\ bytes_compare key (MinKey m) = Lt) ||
  bool_decide (MaxKey m <> [] /\ bytes_compare key (MaxKey m) = Gt).

Definition GetViewContext (r : Reader) (key : bytes) : SE pstate (option EntryView) :=
  if out_of_range (r_meta r) key then mret None else Pipeline_Get (r_pipe r) key.

(** The state of a reader: its caches and whether it dropped the table. *)
Record rstate := mkRstate { rs_pipe : pstate; rs_dropped : bool }.

Definition in_pipe {A} (m : SE pstate A) : SE rstate A := fun s =>
  let '(r, ps) := m (rs_pipe s) in (r, mkRstate ps (rs_dropped s)).

Definition GetView (r : Reader) (key : bytes) : SE rstate (option EntryView) := fun s =>
  if rs_dropped s then (Ok None, s) else
  if out_of_range (r_meta r) key then (Ok None, s) else
  match in_pipe (Pipeline_Get (r_pipe r) key) s with
  | (Err _, s) => (Ok None, if bool_decide (r_policy r = CorruptionDropTable) then mkRstate (rs_pipe s) true else s)
  | x => x
  end.

(** ** Range iteration *)

Record IndexRangePlan := mkPlan {
  pl_topIndexI : nat;
  pl_done : bool;
  pl_started : bool
}.

Record RangeIterator := mkIter {
  it_block : option Block;
  it_blockI : nat;
  it_partIndex : list IndexEntry;
  it_plan : IndexRangePlan;
  it_cursor : option Cursor;
  it_pending : option EntryView;
  it_startApplied : bool;
  it_curr : option EntryView;
  it_err : option error
}.

Definition newRangeIterator : RangeIterator :=
  mkIter None 0 [] (mkPlan 0 false false) None None false None None.

Definition with_pos (blk : option Block) (i : nat) (cur : option Cursor) (pending : option EntryView)
    (it : RangeIterator) : RangeIterator :=
  mkIter blk i (it_partIndex it) (it_plan it) cur pending (it_startApplied it) (it_curr it) (it_err it).
Definition with_part (part : list IndexEntry) (it : RangeIterator) : RangeIterator :=
  mkIter (it_block it) (it_blockI it) part (it_plan it) (it_cursor it) (it_pending it) (it_startApplied it)
    (it_curr it) (it_err it).
Definition with_plan (pl : IndexRangePlan) (it : RangeIterator) : RangeIterator :=
  mkIter (it_block it) (it_blockI it) (it_partIndex it) pl (it_cursor it) (it_pending it) (it_startApplied it)
    (it_curr it) (it_err it).
Definition set_startApplied (it : RangeIterator) : RangeIterator :=
  mkIter (it_block it) (it_blockI it) (it_partIndex it) (it_plan it) (it_cursor it) (it_pending it) true
    (it_curr it) (it_err it).
Definition with_curr (v : EntryView) (it : RangeIterator) : RangeIterator :=
  mkIter (it_block it) (it_blockI it) (it_partIndex it) (it_plan it) (it_cursor it) (it_pending it)
    (it_startApplied it) (Some v) (it_err it).
Definition with_err (e : error) (it : RangeIterator) : RangeIterator :=
  mkIter (it_block it) (it_blockI it) (it_partIndex it) (it_plan it) (it_cursor it) (it_pending it)
    (it_startApplied it) (it_curr it) (Some e).

Section Range.
Context (r : Reader) (start stop : bytes).
Local Abbreviation p := (r_pipe r).

(** The next partition of the top index that is not empty, and the position
    behind it; a partition that cannot be read is passed over, too. *)
Fixpoint plan_partitions (todo : list IndexEntry) (i : nat) (s : pstate)
  : (result (option (list IndexEntry)) * nat) * pstate :=
  match todo with
  | [] => ((Ok None, i), s)
  | e :: todo =>
      match readPartition p e s with
      | (Ok [], s) => plan_partitions todo (S i) s
      | (Ok part, s) => ((Ok (Some part), S i), s)
      | (Err e, s) => ((Err e, S i), s)
      | (Panic, s) => ((Panic, S i), s)
      | (NoFuel, s) => ((NoFuel, S i), s)
      end
  end.

(** [IndexRangePlan.Next]: [None] is [io.EOF]. *)
Definition plan_Next (pl : IndexRangePlan) (s : pstate)
  : (result (option (list IndexEntry)) * IndexRangePlan) * pstate :=
  if pl_done pl then ((Ok None, pl), s) else
  let i := if pl_started pl then pl_topIndexI pl
           else if bool_decide (p_partitioned p = true /\ start <> []) then default O (findBlock (p_top p) start)
           else pl_topIndexI pl in
  if p_partitioned p then
    let '((res, j), s) := plan_partitions (drop i (p_top p)) i s in
    ((res, mkPlan j (match res with Ok None => true | _ => false end) true), s)
  else ((Ok (if bool_decide (p_top p = []) then None else Some (p_top p)), mkPlan i true true), s).

(** The reader's state and the iterator. *)
Abbreviation IS := (rstate * RangeIterator)%type.

Definition get_it : SE IS RangeIterator := fun s => (Ok (snd s), s).
Definition upd_it (f : RangeIterator -> RangeIterator) : SE IS unit := fun s => (Ok tt, (fst s, f (snd s))).
Definition in_reader {A} (m : SE pstate A) : SE IS A := fun s =>
  let '(x, rs) := in_pipe m (fst s) in (x, (rs, snd s)).
Definition drop_table : SE IS unit := fun s => (Ok tt, (mkRstate (rs_pipe (fst s)) true, snd s)).

Definition handleCorruption (e : error) : SE IS bool :=
  match r_policy r with
  | CorruptionSkipBlock => _ ← upd_it (fun it => with_pos None (S (it_blockI it)) None None it); mret true
  | CorruptionDropTable => _ ← drop_table; mret false
  | _ => _ ← upd_it (with_err e); mret false
  end.

Definition handleIndexCorruption (e : error) : SE IS bool :=
  match r_policy r with
  | CorruptionSkipBlock => _ ← upd_it (fun it => with_part [] (with_pos None (it_blockI it) None None it)); mret true
  | CorruptionDropTable => _ ← drop_table; mret false
  | _ => _ ← upd_it (with_err e); mret false
  end.

(** [loadPartition]: each round passes over at least one partition. *)
Fixpoint loadPartition (fuel : nat) : SE IS bool :=
  match fuel with
  | O => lift NoFuel
  | S fuel =>
      it ← get_it;
      '(res, pl) ← in_reader (fun s => let '(x, s) := plan_Next (it_plan it) s in (Ok x, s));
      _ ← upd_it (with_plan pl);
      match res with
      | Ok None => mret false
      | Ok (Some part) =>
          _ ← upd_it (fun it =>
                let i := if bool_decide (it_startApplied it = false /\ start <> [])
                         then default O (findBlock part start) else O in
                with_part part (mkIter (it_block it) i (it_partIndex it) (it_plan it) (it_cursor it)
                                  (it_pending it) (it_startApplied it) (it_curr it) (it_err it)));
          mret true
      | Err e => again ← handleIndexCorruption e; if (again : bool) then loadPartition fuel else mret false
      | Panic => lift Panic
      | NoFuel => lift NoFuel
      end
  end.

(** [m], with an error handled by the corruption policy: [None] stands for
    the error path, with whether the loop goes on. *)
Definition or_corrupt {A} (m : SE IS A) : SE IS (A + bool) := fun s =>
  match m s with
  | (Err e, s) => (b ← handleCorruption e; mret (inr b)) s
  | (Ok a, s) => (Ok (inl a), s)
  | (Panic, s) => (Panic, s)
  | (NoFuel, s) => (NoFuel, s)
  end.

Definition past_end (v : EntryView) : bool := bool_decide (stop <> [] /\ bytes_compare (View_Key v) stop <> Lt).

(** Reading the block at the iterator's position; [inr] ends the round. *)
Definition next_block : SE IS (Block + bool) :=
  it ← get_it;
  match it_block it with
  | Some blk => mret (inl blk)
  | None =>
      more ← (if bool_decide (length (it_partIndex it) <= it_blockI it)%nat
              then loadPartition (S (length (p_top p))) else mret true);
      if (more : bool) then
        it ← get_it;
        e ← lift (index (it_partIndex it) (Z.of_nat (it_blockI it)));
        res ← or_corrupt (in_reader (ReadBlockEntry p e));
        match res with
        | inr again => mret (inr again)
        | inl blk =>
            _ ← in_reader (Prefetch p (it_partIndex it) (it_blockI it) (NewPrefetchBudget (p_policy p)));
            _ ← upd_it (with_pos (Some blk) (it_blockI it) None None);
            mret (inl blk)
        end
      else mret (inr false)
  end.

(** Positioning in the block: [Seek] in the first block read, a cursor over
    the whole block later on. *)
Definition next_cursor (blk : Block) : SE IS (unit + bool) :=
  it ← get_it;
  match it_cursor it with
  | Some _ => mret (inl tt)
  | None =>
      if bool_decide (it_startApplied it = false /\ start <> []) then
        _ ← upd_it set_startApplied;
        res ← or_corrupt (lift (Seek blk start));
        match res with
        | inr again => mret (inr again)
        | inl None => _ ← upd_it (fun it => with_pos None (S (it_blockI it)) None (it_pending it) it); mret (inr true)
        | inl (Some (cur, v)) =>
            if past_end v then mret (inr false) else
            _ ← upd_it (fun it => with_pos (it_block it) (it_blockI it) (Some cur) (Some v) it);
            mret (inl tt)
        end
      else
        _ ← upd_it (fun it => with_pos (it_block it) (it_blockI it) (Some (NewCursor blk 0 (zlen (bk_data blk))))
                                (it_pending it) (set_startApplied it));
        mret (inl tt)
  end.

(** [Cursor.Next] on the iterator's cursor. *)
Definition cursor_step : SE IS (option EntryView) := fun s =>
  match it_cursor (snd s) with
  | None => (Panic, s)
  | Some c =>
      let '(x, c') := Cursor_Next c in
      (x, (fst s, with_pos (it_block (snd s)) (it_blockI (snd s)) (Some c') (it_pending (snd s)) (snd s)))
  end.

Definition next_entry : SE IS (bool + bool) :=
  it ← get_it;
  match it_pending it with
  | Some v =>
      _ ← upd_it (fun it => with_curr v (with_pos (it_block it) (it_blockI it) (it_cursor it) None it));
      mret (inl true)
  | None =>
      res ← or_corrupt cursor_step;
      match res with
      | inr again => mret (inr again)
      | inl None => _ ← upd_it (fun it => with_pos None (S (it_blockI it)) None (it_pending it) it); mret (inr true)
      | inl (Some v) =>
          if past_end v then mret (inr false) else
          _ ← upd_it (with_curr v); mret (inl true)
      end
  end.

(** The loop of [RangeIterator.Next]; a round that neither returns nor moves
    on to the next block does not exist. *)
Fixpoint Next_loop (fuel : nat) : SE IS bool :=
  match fuel with
  | O => lift NoFuel
  | S fuel =>
      b ← next_block;
      match b with
      | inr again => if (again : bool) then Next_loop fuel else mret false
      | inl blk =>
          c ← next_cursor blk;
          match c with
          | inr again => if (again : bool) then Next_loop fuel else mret false
          | inl _ =>
              e ← next_entry;
              match e with
              | inl found => mret found
              | inr again => if (again : bool) then Next_loop fuel else mret false
              end
          end
      end
  end.

Definition RangeIterator_Next (fuel : nat) : SE IS bool := fun s =>
  if rs_dropped (fst s) then (Ok false, s) else Next_loop fuel s.

(** Reading an iterator to its end. *)
Fixpoint range_entries (steps fuel : nat) : SE IS (list EntryView) :=
  match steps with
  | O => lift NoFuel
  | S steps =>
      more ← RangeIterator_Next fuel;
      if (more : bool) then
        it ← get_it;
        rest ← range_entries steps fuel;
        mret (match it_curr it with Some v => v :: rest | None => rest end)
      else mret []
  end.
End Range.
End Snappy.
