(* ===== verification/SstWriter.v ===== *)
(** * Writing tables ([sstable/writer.go])

    [Flush]: sorting, cutting into blocks, filters, index partitions, meta
    block and footer, and the publication of the file by a rename.  The file
    system is that of [Iofs]; the name of the file is made of the last
    sequence number and the clock. *)

From Stdlib Require Import ZArith Lia Strings.Byte.
From stdpp Require Import base list strings pretty gmap sorting.
From S2P Require Import Prelude Iofs SstFormat SstBlock SstOptions Bloom Cache SstReader.
Local Open Scope Z_scope.

Definition err_no_entries := ErrNew "no entries to write".
Definition err_create_sst := ErrNew "create sstable".
Definition err_write_data := ErrNew "write block".
Definition err_write_partition := ErrNew "write index partition".
Definition err_write_index := ErrNew "write index".
Definition err_write_meta := ErrNew "write meta".
Definition err_write_footer := ErrNew "write footer".
Definition err_sync_sst := ErrNew "sync sstable".
Definition err_close_sst := ErrNew "close sstable".
Definition err_rename_sst := ErrNew "rename sstable".
Definition err_sync_dir := ErrNew "sync sstable dir".
Definition err_open_sst := ErrNew "open sstable".
Definition err_stat_sst := ErrNew "stat sstable".

(** ** The order of the entries *)

(** The comparison function given to [sort.Slice]. *)
Definition flush_less (a b : Entry) : bool :=
  match bytes_compare (Key a) (Key b) with
  | Lt => true
  | Gt => false
  | Eq =>
      if bool_decide (Seq a <> Seq b) then bool_decide (Seq b < Seq a)
      else if bool_decide (Tombstone a <> Tombstone b) then Tombstone a
      else false
  end.

Definition flush_le (a b : Entry) : Prop := flush_less b a = false.

#[export] Instance flush_le_dec : RelDecision flush_le.
Proof. intros a b. unfold flush_le. apply _. Defined.

(** One of the orders [sort.Slice] may produce; it is the only one when no
    two entries compare equal. *)
Definition flush_sort (entries : list Entry) : list Entry := merge_sort flush_le entries.

(** ** Data blocks *)

Record WriterState := mkWriterState {
  ws_builder : Builder;
  ws_offset : Z;
  ws_index : list IndexEntry;
  ws_counts : list Z;
  ws_filter : option Filter;
  ws_seqMin : Z;
  ws_seqMax : Z
}.

Section Writer.
Context (snappy_Encode : bytes -> bytes) (snappy_Decode : bytes -> option bytes).
Context (name : string) (o : Options).

Definition flushBlock (w : WriterState) : SE FS WriterState :=
  let b := ws_builder w in
  let count := b_entryCount b in
  let payload := Finish b in
  let '(compressed, uncompressedLen) := CompressPayload snappy_Encode payload (opt_Compression o) in
  let block := EncodeBlock compressed BlockTypeData (opt_Compression o) uncompressedLen in
  n ← file_write name block err_write_data;
  let index := if bool_decide (0 < zlen (b_first b))
               then ws_index w ++ [mkIndexEntry (b_first b) (ws_offset w) (u32 n)] else ws_index w in
  mret (mkWriterState (Reset b) (u64 (ws_offset w + n)) index (ws_counts w ++ [count])
          (ws_filter w) (ws_seqMin w) (ws_seqMax w)).

Definition with_builder (b : Builder) (w : WriterState) : WriterState :=
  mkWriterState b (ws_offset w) (ws_index w) (ws_counts w) (ws_filter w) (ws_seqMin w) (ws_seqMax w).

(** [builder.EstimatedSizeAfter(e) > limit], guarded by [guard]. *)
Definition estimate_above (guard : bool) (e : Entry) (limit : Z) (w : WriterState) : bool * WriterState :=
  if guard then
    let '(n, b) := EstimatedSizeAfter (ws_builder w) e in (bool_decide (limit < n), with_builder b w)
  else (false, w).

(** One round of the loop over the entries. *)
Definition add_entry (w : WriterState) (e : Entry) : SE FS WriterState :=
  f ← lift (Filter_Add (ws_filter w) (Key e));
  let w := mkWriterState (ws_builder w) (ws_offset w) (ws_index w) (ws_counts w) f
             (Z.min (Seq e) (ws_seqMin w)) (Z.max (Seq e) (ws_seqMax w)) in
  let '(full, w) := estimate_above (bool_decide (0 < SizeBytes (ws_builder w))) e (BlockTargetBytes o) w in
  w ← (if (full : bool) then flushBlock w else mret w);
  let '(large, w) := estimate_above (bool_decide (SizeBytes (ws_builder w) = 0)) e (BlockMaxBytes o) w in
  let w := with_builder (Add (ws_builder w) e) w in
  if (large : bool) then flushBlock w
  else if bool_decide (BlockMaxBytes o <= SizeBytes (ws_builder w)) then flushBlock w
  else mret w.

Fixpoint add_entries (w : WriterState) (es : list Entry) : SE FS WriterState :=
  match es with
  | [] => mret w
  | e :: es => w ← add_entry w e; add_entries w es
  end.

Definition write_blocks (entries : list Entry) (seqMin seqMax : Z) : SE FS WriterState :=
  let builder := NewBuilder (RestartInterval o) (RestartIntervalAdaptive o) (RestartIntervalMin o)
                   (RestartIntervalMax o) in
  let filter := NewFilter (zlen entries) (BloomBitsPerKey o) in
  w ← add_entries (mkWriterState builder 0 [] [] filter seqMin seqMax) entries;
  if bool_decide (0 < SizeBytes (ws_builder w)) then flushBlock w else mret w.

(** ** Index, meta block and footer *)

Definition write_framed (payload : bytes) (typ : BlockType) (e : error) : SE FS Z :=
  file_write name (EncodeBlock payload typ CompressionNone (u32 (zlen payload))) e.

(** The partitions of the index; one round per partition. *)
Fixpoint index_partitions (fuel : nat) (entries : list IndexEntry) (offset : Z) : SE FS (list IndexEntry * Z) :=
  match fuel with
  | O => lift NoFuel
  | S fuel =>
      let part := take (Z.to_nat (IndexPartitionEntries o)) entries in
      match part with
      | [] => mret ([], offset)
      | e :: _ =>
          n ← write_framed (EncodeIndex part) BlockTypeIndex err_write_partition;
          '(rest, offset') ← index_partitions fuel (drop (Z.to_nat (IndexPartitionEntries o)) entries)
                               (u64 (offset + n));
          mret (mkIndexEntry (ie_Key e) offset (u32 n) :: rest, offset')
      end
  end.

(** Everything between opening and closing the file. *)
Definition write_table (entries : list Entry) (minKey maxKey : bytes) (seqMin seqMax : Z) : SE FS unit :=
  w ← write_blocks entries seqMin seqMax;
  let filter := ws_filter w in
  let index := ws_index w in
  let partitioned := bool_decide (0 < IndexPartitionEntries o /\ IndexPartitionEntries o < zlen index) in
  let filterPartitioned := bool_decide (partitioned = true /\ filter <> None /\ FilterPartitioned o = true) in
  '(bloomOffset, bloomLen, filterIndex, offset) ←
    (match filter with
     | None => mret (0, 0, [], ws_offset w)
     | Some _ =>
         if filterPartitioned then
           '(fi, offset) ← WritePartitionedBloomFilters name entries index (ws_counts w)
                             (IndexPartitionEntries o) (BloomBitsPerKey o) (ws_offset w);
           mret (0, 0, fi, offset)
         else
           '(bo, bl, offset) ← WriteBloomBlock name filter (ws_offset w);
           mret (bo, bl, [], offset)
     end);
  '(topIndex, offset) ←
    (if partitioned then index_partitions (S (length index)) index offset else mret (index, offset));
  let indexOffset := offset in
  let indexPayload := EncodeIndex topIndex in
  n ← write_framed indexPayload BlockTypeIndex err_write_index;
  let indexLen := u32 n in
  let offset := u64 (offset + n) in
  '(bloomOffset, bloomLen, offset) ←
    (if bool_decide (filterPartitioned = true /\ 0 < zlen filterIndex) then
       n ← write_framed (EncodeIndex filterIndex) BlockTypeFilter err_write_filter;
       mret (offset, u32 n, u64 (offset + n))
     else mret (bloomOffset, bloomLen, offset));
  let metaOffset := offset in
  let meta := mkMeta minKey maxKey (u64 (zlen entries)) (ws_seqMin w) (ws_seqMax w) (opt_Compression o)
                (BloomBitsPerKey o mod 2 ^ 16) (byte_of_Z (Filter_K filter)) bloomOffset bloomLen in
  n ← write_framed (EncodeMeta meta) BlockTypeMeta err_write_meta;
  let flags := Z.lor (if partitioned then FooterFlagIndexPartitioned else 0)
                 (if filterPartitioned then FooterFlagFilterPartitioned else 0) in
  _ ← file_write name (EncodeFooter (mkFooter (byte_of_Z flags) indexOffset indexLen metaOffset (u32 n)))
        err_write_footer;
  fs_may_fail err_sync_sst.

(** [defer f.Close()] on the error paths: the close may fail, too, and its
    error is joined to the first one. *)
Definition close_on_error {A} (m : SE FS A) : SE FS A := fun fs =>
  match m fs with
  | (Ok a, fs) => (Ok a, fs)
  | (r, fs) => (r, snd (fs_may_fail err_close_sst fs))
  end.
End Writer.

(** [syncDir]: open, sync and close; the directory is closed also when the
    sync fails. *)
Definition syncDir : SE FS unit :=
  _ ← fs_may_fail err_sync_dir;
  err ← catch (fs_may_fail err_sync_dir);
  match err with
  | Some e => _ ← catch (fs_may_fail err_sync_dir); throw e
  | None => fs_may_fail err_sync_dir
  end.

Record SSTable := mkSSTable {
  st_Path : string;
  st_Seq : Z;
  st_reader : Reader;
  st_state : pstate
}.

Definition LoadSSTable (snappy_Decode : bytes -> option bytes) (path : string) (o : Options) (spare : bytes)
  : SE FS SSTable :=
  _ ← lift (Validate (Normalize o));
  _ ← fs_may_fail err_open_sst;
  fs ← get;
  match fs_dir fs !! path with
  | None => throw err_open_sst
  | Some file =>
      _ ← fs_may_fail err_stat_sst;
      '(r, ps) ← lift (openReader snappy_Decode file o spare);
      mret (mkSSTable path (SeqMax (r_meta r)) r ps)
  end.

Definition table_name (seq now : Z) : string := "sstable-" +:+ pretty seq +:+ "-" +:+ pretty now +:+ ".sst".
Definition temp_name (seq now : Z) : string := table_name seq now +:+ ".tmp".

Definition Flush (snappy_Encode : bytes -> bytes) (snappy_Decode : bytes -> option bytes) (o : Options)
    (spare : bytes) (entries : list Entry) : SE FS SSTable :=
  let entries := flush_sort entries in
  match head entries, last entries with
  | Some first, Some final =>
      fs ← get;
      let tempPath := temp_name (Seq final) (fs_now fs) in
      let finalPath := table_name (Seq final) (fs_now fs) in
      _ ← fs_create tempPath err_create_sst;
      _ ← close_on_error (write_table snappy_Encode tempPath o entries (Key first) (Key final) (Seq first) (Seq final));
      _ ← fs_may_fail err_close_sst;
      _ ← fs_rename_file tempPath finalPath err_rename_sst;
      _ ← syncDir;
      LoadSSTable snappy_Decode finalPath o spare
  | _, _ => throw err_no_entries
  end.
