(* ===== verification/SstTable.v ===== *)
(** * Tables as sorted maps: the writer and the reader together

    What the reader needs of a table file ([table_rep]) and that point reads
    and range scans on such a file are lookups in the entries it holds, for
    every state of the caches; that [Flush] writes such files; and that a
    table becomes visible completely or not at all. *)

From Stdlib Require Import ZArith Lia Strings.Byte.
From stdpp Require Import base list strings pretty gmap sorting.
From S2P Require Import Prelude Iofs SstFormat SstBlock SstOptions Bloom Cache SstReader SstWriter.
Local Open Scope Z_scope.

(** ** Index search on segments *)

(** Index entries with the entries they lead to: each is keyed by its first
    entry. *)
Abbreviation seg := (IndexEntry * list Entry)%type.

(** A partition of the index: its entry and the segments behind it. *)
Abbreviation part := (IndexEntry * list seg)%type.

Definition seg_entries (segs : list seg) : list Entry := concat (map snd segs).

Definition seg_keyed (s : seg) : Prop := exists e, head (snd s) = Some e /\ Key e = ie_Key (fst s).

Lemma seg_entries_app a b : seg_entries (a ++ b) = seg_entries a ++ seg_entries b.
Proof. unfold seg_entries. by rewrite map_app, concat_app. Qed.

Lemma seg_entries_cons s segs : seg_entries (s :: segs) = snd s ++ seg_entries segs.
Proof. done. Qed.

Lemma seg_elem_key segs s e :
  Forall seg_keyed segs -> sorted_run (seg_entries segs) -> s ∈ segs -> e ∈ snd s -> ie_Key (fst s) ⪯ Key e.
Proof.
  intros Hk Hs [a [b ->]]%list_elem_of_split He. apply Forall_app in Hk as [_ [(e0 & Hh & Hk0) _]%Forall_cons].
  rewrite seg_entries_app, seg_entries_cons in Hs. apply sorted_run_app in Hs as (_ & Hs & _).
  apply sorted_run_app in Hs as (Hs & _ & _). destruct (snd s) as [|x es]; [done|]. injection Hh as ->.
  rewrite <- Hk0. apply elem_of_cons in He as [->|He]; [apply bytes_le_refl|].
  apply StronglySorted_inv in Hs as [_ Hf]. rewrite Forall_forall in Hf. by apply bytes_lt_le, Hf.
Qed.

Lemma seg_keys_sorted segs :
  Forall seg_keyed segs -> sorted_run (seg_entries segs) ->
  StronglySorted (fun a b => ie_Key a ≺ ie_Key b) (map fst segs).
Proof.
  induction segs as [|s segs IH]; intros Hk Hs; cbn [map]; [constructor|].
  apply Forall_cons in Hk as [(e0 & Hh & Hk0) Hk]. rewrite seg_entries_cons in Hs.
  apply sorted_run_app in Hs as (_ & Hs & Hlt). constructor; [by apply IH|].
  apply Forall_forall. intros ie (s' & -> & Hin)%list_elem_of_fmap.
  rewrite Forall_forall in Hk. destruct (Hk s' Hin) as (e & Hh' & <-). rewrite <- Hk0.
  apply Hlt; [by apply head_Some_elem_of|]. apply elem_of_concat.
  exists (snd s'). split; [by apply (list_elem_of_fmap_2 snd)|by apply head_Some_elem_of].
Qed.

Lemma step_back_distinct entries key idx e :
  StronglySorted (fun a b => ie_Key a ≺ ie_Key b) entries ->
  entries !! idx = Some e -> ie_Key e = key -> step_back entries key idx = idx.
Proof.
  intros Hs He Hk. destruct idx as [|i]; [done|]. cbn [step_back].
  destruct (entries !! i) as [e'|] eqn:Ei; [|done]. rewrite bool_decide_false; [done|].
  intros E. pose proof (StronglySorted_lookup _ entries i (S i) _ _ Hs ltac:(lia) Ei He) as Hlt. cbv beta in Hlt.
  rewrite E, Hk in Hlt. by apply bytes_lt_irrefl in Hlt.
Qed.

(** [findBlock] on ascending keys. *)
Lemma findBlock_spec entries key :
  StronglySorted (fun a b => ie_Key a ≺ ie_Key b) entries ->
  match findBlock entries key with
  | None => Forall (fun e => key ≺ ie_Key e) entries
  | Some i => (exists e, entries !! i = Some e /\ ie_Key e ⪯ key) /\
              forall j e, (i < j)%nat -> entries !! j = Some e -> key ≺ ie_Key e
  end.
Proof.
  intros Hs. unfold findBlock. destruct entries as [|e0 rest]; [constructor|].
  set (es := e0 :: rest) in *. case_bool_decide as H0.
  { rewrite bytes_compare_Lt in H0. constructor; [done|]. apply StronglySorted_inv in Hs as [_ Hf].
    eapply Forall_impl; [exact Hf|]. intros e He. cbv beta in He. 
    bytes_order. }
  set (f := fun i => match es !! i with Some e => bool_decide (bytes_compare (ie_Key e) key = Gt) | None => false end).
  destruct (sort_Search_spec (length es) f) as (Hr & Hlo & Hhi).
  { intros a b Hab. unfold f. destruct (es !! a) as [ea|] eqn:Ea; [|done].
    destruct (lookup_lt_is_Some_2 es b ltac:(lia)) as [eb Eb]. rewrite Eb, !bool_decide_eq_true, !bytes_compare_Gt.
    intros Ha. destruct (decide (a = b)) as [->|]; [congruence|].
    pose proof (StronglySorted_lookup _ es a b _ _ Hs ltac:(lia) Ea Eb) as Hlt. cbv beta in Hlt. bytes_order. }
  cbv zeta in Hr, Hlo, Hhi. set (r := sort_Search (length es) f) in *.
  assert (Hr0 : r <> O).
  { intros E. assert (f 0%nat = true) as Hf by (apply Hhi; rewrite E; cbn; lia).
    unfold f, es in Hf. cbn in Hf. apply bool_decide_eq_true, bytes_compare_Gt in Hf.
    rewrite bytes_compare_Lt in H0. done. }
  destruct r as [|idx]; [done|]. destruct (lookup_lt_is_Some_2 es idx ltac:(lia)) as [e Ee]. rewrite Ee.
  assert (Hle : ie_Key e ⪯ key).
  { specialize (Hlo idx ltac:(lia)). unfold f in Hlo. rewrite Ee in Hlo. apply bool_decide_eq_false in Hlo.
    rewrite bytes_compare_Gt in Hlo. by apply bytes_not_lt. }
  assert (Hgt : forall j e', (idx < j)%nat -> es !! j = Some e' -> key ≺ ie_Key e').
  { intros j e' Hj Ej. specialize (Hhi j). unfold f in Hhi. rewrite Ej in Hhi. apply lookup_lt_Some in Ej.
    apply bytes_compare_Gt. eapply bool_decide_eq_true, Hhi. lia. }
  case_bool_decide as Hk; [rewrite (step_back_distinct es key idx e) by done|]; eauto.
Qed.

(** The segment that [findBlock] chooses, with the entries in front of it
    and behind it. *)
Lemma findBlock_segs segs key :
  Forall seg_keyed segs -> sorted_run (seg_entries segs) ->
  match findBlock (map fst segs) key with
  | None => Forall (fun e => key ≺ Key e) (seg_entries segs)
  | Some i => exists s, segs !! i = Some s /\ segs = take i segs ++ s :: drop (S i) segs /\
                Forall (fun e => Key e ≺ key) (seg_entries (take i segs)) /\
                Forall (fun e => key ≺ Key e) (seg_entries (drop (S i) segs))
  end.
Proof.
  intros Hk Hs. pose proof (findBlock_spec _ key (seg_keys_sorted _ Hk Hs)) as H.
  destruct (findBlock (map fst segs) key) as [i|].
  - destruct H as ((e & He & Hle) & Hgt).
    rewrite list_lookup_fmap in He. destruct (segs !! i) as [s|] eqn:Ei; [|done]. injection He as <-.
    pose proof (take_drop_middle segs i s Ei) as Hsplit.
    exists s. split; [done|]. split; [done|].
    rewrite <- Hsplit in Hs, Hk. rewrite seg_entries_app, seg_entries_cons in Hs.
    apply Forall_app in Hk as [_ Hk]. apply Forall_cons in Hk as [(e0 & Hh & Hk0) Hk2].
    apply sorted_run_app in Hs as (_ & Hs2 & Hlt). apply sorted_run_app in Hs2 as (_ & Hs2 & _). split.
    + apply Forall_forall. intros x Hx. specialize (Hlt x e0 Hx). rewrite Hk0 in Hlt.
      specialize (Hlt ltac:(apply elem_of_app; left; by apply head_Some_elem_of)). bytes_order.
    + apply Forall_forall. intros x (l & Hl & Hx)%elem_of_concat.
      apply list_elem_of_fmap in Hl as (s' & -> & Hs').
      pose proof (seg_elem_key _ s' x Hk2 Hs2 Hs' Hx) as Hge.
      apply list_elem_of_lookup in Hs' as (j & Hj). rewrite lookup_drop in Hj.
      specialize (Hgt (S i + j)%nat (fst s') ltac:(lia)). rewrite list_lookup_fmap, Hj in Hgt.
      specialize (Hgt eq_refl). bytes_order.
  - apply Forall_forall. intros x (l & Hl & Hx)%elem_of_concat.
    apply list_elem_of_fmap in Hl as (s' & -> & Hs').
    pose proof (seg_elem_key _ s' x Hk Hs Hs' Hx) as Hge.
    rewrite Forall_forall in H. specialize (H (fst s')).
    specialize (H ltac:(by apply (list_elem_of_fmap_2 fst))). bytes_order.
Qed.

(** Point lookups need one segment only. *)
Lemma findBlock_lookup segs key :
  Forall seg_keyed segs -> sorted_run (seg_entries segs) ->
  match findBlock (map fst segs) key with
  | None => lookup_entry key (seg_entries segs) = None
  | Some i => exists s, segs !! i = Some s /\ lookup_entry key (seg_entries segs) = lookup_entry key (snd s)
  end.
Proof.
  intros Hk Hs. pose proof (findBlock_segs segs key Hk Hs) as H.
  destruct (findBlock (map fst segs) key) as [i|]; [|by apply lookup_entry_above].
  destruct H as (s & Ei & E & Hlo & Hhi). exists s. split; [done|].
  rewrite E, seg_entries_app, seg_entries_cons, !lookup_entry_app.
  rewrite (lookup_entry_below key _ Hlo), (lookup_entry_above key _ Hhi). by destruct (lookup_entry key s.2).
Qed.

(** ** What a table file holds *)

Section Reads.
Context (snappy_Decode : bytes -> option bytes).

Definition part_keyed (q : part) : Prop := exists g, head (snd q) = Some g /\ ie_Key (fst g) = ie_Key (fst q).

Definition block_at (p : Pipeline) (g : seg) : Prop :=
  exists payload blk, read_block snappy_Decode (p_source p) (entry_desc (fst g)) BlockTypeData ErrSSTableBadBlock = Ok payload /\
    Decode payload = Ok blk /\ block_of (snd g) blk.

Definition part_at (p : Pipeline) (q : part) : Prop :=
  exists payload, read_block snappy_Decode (p_source p) (entry_desc (fst q)) BlockTypeIndex ErrSSTableBadIndex = Ok payload /\
    DecodeIndex payload = Ok (map fst (snd q)).

(** A usable filter for some entries. *)
Definition filter_for (es : list Entry) (f : Filter) : Prop :=
  filter_ok f /\ forall e, e ∈ es -> MayContain (Some f) (Key e) = Ok true.

Definition filter_at (p : Pipeline) (g : seg) : Prop :=
  exists payload f, read_block snappy_Decode (p_source p) (entry_desc (fst g)) BlockTypeFilter ErrSSTableBadMeta = Ok payload /\
    Filter_Decode payload = Some f /\ filter_for (snd g) f.

Definition offsets_distinct {A} (l : list (IndexEntry * A)) : Prop :=
  forall g g', g ∈ l -> g' ∈ l -> ie_Offset (fst g) = ie_Offset (fst g') -> g = g'.

Record table_rep (p : Pipeline) (groups : list seg) (parts : list part) (fsegs : list seg) : Prop := {
  tr_keyed : Forall seg_keyed groups;
  tr_sorted : sorted_run (seg_entries groups);
  tr_valid : Forall (fun g => validateEntry p (fst g) ErrSSTableBadBlock = Ok tt) groups;
  tr_blocks : Forall (block_at p) groups;
  tr_offsets : offsets_distinct groups;
  tr_top : if p_partitioned p then p_top p = map fst parts /\ groups = concat (map snd parts) /\
             Forall part_keyed parts /\ Forall (part_at p) parts /\ offsets_distinct parts
           else p_top p = map fst groups;
  tr_filter : if p_filterPartitioned p then p_filterIndex p = map fst fsegs /\
                seg_entries fsegs = seg_entries groups /\ Forall seg_keyed fsegs /\
                Forall (filter_at p) fsegs /\ offsets_distinct fsegs
              else from_option (filter_for (seg_entries groups)) True (p_filter p)
}.

(** The caches hold what the file holds. *)
Record pinv (groups : list seg) (parts : list part) (fsegs : list seg) (s : pstate) : Prop := {
  pi_block_inv : inv_opt (ps_block s);
  pi_block : coherent (fun off blk => forall g, g ∈ groups -> ie_Offset (fst g) = off -> block_of (snd g) blk) (ps_block s);
  pi_index_inv : inv_opt (ps_index s);
  pi_index : coherent (fun off es => forall q, q ∈ parts -> ie_Offset (fst q) = off -> es = map fst (snd q)) (ps_index s);
  pi_filter_inv : inv_opt (ps_filter s);
  pi_filter : coherent (fun off f => forall g, g ∈ fsegs -> ie_Offset (fst g) = off -> filter_for (snd g) f) (ps_filter s)
}.

Lemma registry_node_same m desc : fst (registry_node m desc) = desc.
Proof.
  unfold registry_node. destruct (m !! d_Offset desc) as [len|]; [|done].
  case_bool_decide as E; [subst; by destruct desc|done].
Qed.

(** A partition as one segment. *)
Definition part_seg (q : part) : seg := (fst q, seg_entries (snd q)).

Lemma part_seg_index parts : map fst (map part_seg parts) = map fst parts.
Proof. by rewrite map_map. Qed.

Lemma part_seg_entries parts : seg_entries (map part_seg parts) = seg_entries (concat (map snd parts)).
Proof.
  induction parts as [|q parts IH]; [done|]. cbn [map concat]. by rewrite seg_entries_cons, seg_entries_app, IH.
Qed.

Lemma part_seg_keyed q : part_keyed q -> Forall seg_keyed (snd q) -> seg_keyed (part_seg q).
Proof.
  intros (g & Hh & Hk) Hg. unfold seg_keyed, part_seg. cbn [fst snd].
  destruct (snd q) as [|g' gs]; [done|]. injection Hh as ->. apply Forall_cons in Hg as [(e & He & Hke) _].
  exists e. rewrite seg_entries_cons. destruct (snd g); [done|]. injection He as ->. split; [done|congruence].
Qed.

Lemma Forall_concat {A} (P : A -> Prop) ls : Forall P (concat ls) <-> Forall (Forall P) ls.
Proof. induction ls as [|l ls IH]; cbn [concat]; [done|]. by rewrite Forall_app, Forall_cons, IH. Qed.

(** The common start of the three fetches: the registry's node and the cache
    lookup, up to the case of a hit. *)
Ltac fetch_start Hs P inv coh :=
  let desc := fresh "desc" in let m' := fresh "m'" in let Hd := fresh "Hd" in
  let s1 := fresh "s1" in let Hs1 := fresh "Hs1" in let Hget := fresh "Hget" in
  let s2 := fresh "s2'" in let Hs2 := fresh "Hs2" in
  let hit := fresh "hit" in let c := fresh "c" in let Hc1 := fresh "Hc" in let Hc2 := fresh "Hc" in
  let Hhit := fresh "Hhit" in let v := fresh "v" in
  rewrite SE_get_bind;
  match goal with
  | |- context[registry_node ?m ?d] =>
      pose proof (registry_node_same m d) as Hd;
      destruct (registry_node m d) as [desc m']; cbn [fst] in Hd; subst desc
  end;
  cbn [d_Offset entry_desc];
  match goal with
  | |- context[put ?x] => assert (Hs1 : P x) by (destruct Hs; by split); set (s1 := x) in *
  end;
  rewrite (SE_bind_Ok _ _ _ tt s1), SE_get_bind by done;
  match goal with
  | |- context[cache_Get ?x ?k] =>
      pose proof (cache_Get_spec _ x k (inv _ _ _ _ Hs1) (coh _ _ _ _ Hs1)) as Hget;
      destruct (cache_Get x k) as [hit c]; destruct Hget as (Hc1 & Hc2 & Hhit)
  end;
  match goal with
  | |- context[put ?x] => assert (Hs2 : P x) by (destruct Hs1; by split); set (s2 := x) in *
  end;
  rewrite (SE_bind_Ok _ _ _ tt s2) by done; destruct hit as [v|].

Section Rep.
Context (p : Pipeline) (groups : list seg) (parts : list part) (fsegs : list seg).
Context (T : table_rep p groups parts fsegs).
Local Abbreviation I := (pinv groups parts fsegs).

Lemma fetch_data_runs g : g ∈ groups -> runs I (fetch_data snappy_Decode p (fst g)) (block_of (snd g)).
Proof.
  intros Hg s Hs. unfold fetch_data. fetch_start Hs (pinv groups parts fsegs) @pi_block_inv @pi_block.
  - exists v, s2'. split; [done|]. split; [done|]. by apply (Hhit v eq_refl g).
  - pose proof (tr_blocks _ _ _ _ T) as Hb. rewrite Forall_forall in Hb.
    destruct (Hb g Hg) as (payload & blk & Er & Ed & Hblk). change (mkDesc _ _) with (entry_desc (fst g)).
    rewrite (SE_bind_Ok _ _ _ payload s2') by (unfold lift; by rewrite Er).
    rewrite (SE_bind_Ok _ _ _ blk s2') by (unfold lift; by rewrite Ed).
    eexists blk, _. split; [done|]. split; [|done].
    destruct (cache_Add_spec block_size false block_size_nonneg _ _ (ie_Offset (fst g)) blk
      (pi_block_inv _ _ _ _ Hs2) (pi_block _ _ _ _ Hs2)) as [H1 H2].
    { intros g' Hg' E. by rewrite (tr_offsets _ _ _ _ T g' g Hg' Hg E). }
    destruct Hs2. by split.
Qed.

Lemma readPartition_runs q :
  p_partitioned p = true -> q ∈ parts ->
  runs I (readPartition snappy_Decode p (fst q)) (fun es => es = map fst (snd q)).
Proof.
  intros Hp Hq s Hs. unfold readPartition. fetch_start Hs (pinv groups parts fsegs) @pi_index_inv @pi_index.
  - exists v, s2'. split; [done|]. split; [done|]. by apply (Hhit v eq_refl q).
  - pose proof (tr_top _ _ _ _ T) as Ht. rewrite Hp in Ht. destruct Ht as (_ & _ & _ & Hat & Hoff).
    rewrite Forall_forall in Hat. destruct (Hat q Hq) as (payload & Er & Ed).
    change (mkDesc _ _) with (entry_desc (fst q)).
    rewrite (SE_bind_Ok _ _ _ payload s2') by (unfold lift; by rewrite Er).
    rewrite (SE_bind_Ok _ _ _ (map fst (snd q)) s2') by (unfold lift; by rewrite Ed).
    eexists _, _. split; [done|]. split; [|done]. case_bool_decide; [done|].
    destruct (cache_Add_spec indexEntriesSize true indexEntriesSize_nonneg _ _ (ie_Offset (fst q)) (map fst (snd q))
      (pi_index_inv _ _ _ _ Hs2) (pi_index _ _ _ _ Hs2)) as [H1 H2].
    { intros q' Hq' E. by rewrite (Hoff q' q Hq' Hq E). }
    destruct Hs2. by split.
Qed.

Lemma fetch_filter_runs g :
  p_filterPartitioned p = true -> g ∈ fsegs -> runs I (fetch_filter snappy_Decode p (fst g)) (filter_for (snd g)).
Proof.
  intros Hp Hg s Hs. unfold fetch_filter. fetch_start Hs (pinv groups parts fsegs) @pi_filter_inv @pi_filter.
  - exists v, s2'. split; [done|]. split; [done|]. by apply (Hhit v eq_refl g).
  - pose proof (tr_filter _ _ _ _ T) as Ht. rewrite Hp in Ht. destruct Ht as (_ & _ & _ & Hat & Hoff).
    rewrite Forall_forall in Hat. destruct (Hat g Hg) as (payload & f & Er & Ed & Hf).
    change (mkDesc _ _) with (entry_desc (fst g)).
    rewrite (SE_bind_Ok _ _ _ payload s2') by (unfold lift; by rewrite Er). rewrite Ed.
    eexists _, _. split; [done|]. split; [|done].
    destruct (cache_Add_spec bloomFilterSize true bloomFilterSize_nonneg _ _ (ie_Offset (fst g)) f
      (pi_filter_inv _ _ _ _ Hs2) (pi_filter _ _ _ _ Hs2)) as [H1 H2].
    { intros g' Hg' E. by rewrite (Hoff g' g Hg' Hg E). }
    destruct Hs2. by split.
Qed.

(** What a lookup in the index may answer. *)
Definition found_block (key : bytes) (r : option IndexEntry) : Prop :=
  match r with
  | None => lookup_entry key (seg_entries groups) = None
  | Some ie => exists g, g ∈ groups /\ ie = fst g /\
                 lookup_entry key (seg_entries groups) = lookup_entry key (snd g)
  end.

Lemma index_lookup_nat {A} (l : list A) i x : l !! i = Some x -> index l (Z.of_nat i) = Ok x.
Proof. intros H. unfold index. rewrite bool_decide_true by lia. by rewrite Nat2Z.id, H. Qed.

(** The partitions, as segments, cover the table. *)
Lemma parts_segs :
  p_partitioned p = true ->
  Forall seg_keyed (map part_seg parts) /\ seg_entries (map part_seg parts) = seg_entries groups /\
  p_top p = map fst (map part_seg parts) /\
  forall q, q ∈ parts -> Forall seg_keyed (snd q) /\ sorted_run (seg_entries (snd q)) /\ forall g, g ∈ snd q -> g ∈ groups.
Proof.
  intros Hp. pose proof (tr_top _ _ _ _ T) as Ht. rewrite Hp in Ht. destruct Ht as (Htop & Hcat & Hkey & _ & _).
  assert (Hsub : forall q g, q ∈ parts -> g ∈ snd q -> g ∈ groups).
  { intros q g Hq Hg. rewrite Hcat. apply elem_of_concat. exists (snd q). split; [by apply (list_elem_of_fmap_2 snd)|done]. }
  pose proof (tr_keyed _ _ _ _ T) as Hk. rewrite part_seg_index, part_seg_entries, <- Hcat.
  rewrite Forall_forall in Hk. rewrite Forall_forall in Hkey.
  assert (Hq : forall q, q ∈ parts -> Forall seg_keyed (snd q)).
  { intros q Hq. apply Forall_forall. intros g Hg. apply Hk. by apply (Hsub q). }
  split; [|split; [done|split; [done|]]].
  - apply Forall_map, Forall_forall. intros q Hin. apply part_seg_keyed; auto.
  - intros q Hin. split; [auto|]. split; [|eauto]. pose proof (tr_sorted _ _ _ _ T) as Hs. rewrite Hcat in Hs.
    clear -Hs Hin. apply list_elem_of_split in Hin as (a & b & ->).
    rewrite map_app, concat_app in Hs. cbn [map concat] in Hs. rewrite !seg_entries_app in Hs.
    apply sorted_run_app in Hs as (_ & Hs & _). by apply sorted_run_app in Hs as (Hs & _ & _).
Qed.

(** The entry of a segment found by [findBlock]. *)
Lemma lift_index_runs (segs : list seg) i g :
  segs !! i = Some g -> runs I (lift (index (map fst segs) (Z.of_nat i))) (fun e => e = fst g).
Proof. intros H. eapply runs_lift; [|done]. apply index_lookup_nat. by rewrite list_lookup_fmap, H. Qed.

Lemma index_Find_runs key : runs I (index_Find snappy_Decode p key) (found_block key).
Proof.
  unfold index_Find. destruct (p_partitioned p) eqn:Hp.
  - destruct (parts_segs Hp) as (Hks & Hse & Htop & Hparts).
    pose proof (findBlock_lookup _ key Hks ltac:(rewrite Hse; apply T)) as Hfb.
    rewrite Hse, <- Htop in Hfb. destruct (findBlock (p_top p) key) as [i|]; [|by apply runs_ret].
    destruct Hfb as (s & Hs & Hl). eapply runs_bind; [rewrite Htop; by apply lift_index_runs|].
    rewrite list_lookup_fmap in Hs. destruct (parts !! i) as [q|] eqn:Hq; [|done]. injection Hs as <-.
    apply list_elem_of_lookup_2 in Hq. destruct (Hparts q Hq) as (Hk2 & Hs2 & Hsub).
    intros ? ->. eapply runs_bind; [by apply (readPartition_runs q)|]. intros ? ->.
    pose proof (findBlock_lookup (snd q) key Hk2 Hs2) as Hfb. cbn [part_seg snd] in Hl.
    destruct (findBlock (map fst (snd q)) key) as [j|]; [|apply runs_ret; cbn; congruence].
    destruct Hfb as (g & Hg & Hl2). eapply runs_bind; [by apply lift_index_runs|].
    intros ? ->. apply runs_ret. exists g. apply list_elem_of_lookup_2 in Hg. split; [auto|]. split; [done|congruence].
  - pose proof (tr_top _ _ _ _ T) as Ht. rewrite Hp in Ht.
    pose proof (findBlock_lookup groups key (tr_keyed _ _ _ _ T) (tr_sorted _ _ _ _ T)) as Hfb.
    rewrite <- Ht in Hfb. destruct (findBlock (p_top p) key) as [i|]; [|by apply runs_ret].
    destruct Hfb as (g & Hg & Hl). eapply runs_bind; [rewrite Ht; by apply lift_index_runs|].
    intros ? ->. apply runs_ret. exists g. by apply list_elem_of_lookup_2 in Hg.
Qed.

(** A filter that says no is right. *)
Lemma filter_MayContain_runs key :
  runs I (filter_MayContain snappy_Decode p key)
    (fun b => b = false -> lookup_entry key (seg_entries groups) = None).
Proof.
  assert (Hsound : forall es f, filter_for es f ->
    exists b, MayContain (Some f) key = Ok b /\ (b = false -> lookup_entry key es = None)).
  { intros es f [Hok Hc]. destruct (MayContain_total f key Hok) as [b Hb]. exists b. split; [done|]. intros ->.
    apply lookup_entry_None, Forall_forall. intros e He <-. rewrite (Hc e He) in Hb. done. }
  unfold filter_MayContain. pose proof (tr_filter _ _ _ _ T) as Ht. destruct (p_filterPartitioned p) eqn:Hp.
  - destruct Ht as (Hi & Hse & Hk & Hat & _).
    pose proof (findBlock_lookup fsegs key Hk ltac:(rewrite Hse; apply T)) as Hfb.
    rewrite Hse, <- Hi in Hfb. destruct (findBlock (p_filterIndex p) key) as [i|]; [|by apply runs_ret].
    destruct Hfb as (g & Hg & Hl). eapply runs_bind; [rewrite Hi; by apply lift_index_runs|].
    intros ? ->. apply list_elem_of_lookup_2 in Hg. eapply runs_bind; [by apply fetch_filter_runs|].
    intros f Hf. destruct (Hsound _ _ Hf) as (b & Hb & Hn). eapply runs_lift; [done|]. rewrite Hl. done.
  - destruct (p_filter p) as [f|]; cbn in Ht.
    + destruct (Hsound _ _ Ht) as (b & Hb & Hn). by eapply runs_lift.
    + by eapply runs_lift.
Qed.

Lemma run_nodes_step fuel n item (Q : FlowItem * option Node * bool -> Prop) R :
  runs I (Process snappy_Decode p n item) Q ->
  (forall item' next finished, Q (item', next, finished) ->
     if bool_decide (finished = true \/ fi_Done item' = true) then R (fi_Entry item')
     else runs I (run_nodes snappy_Decode fuel p next item') R) ->
  runs I (run_nodes snappy_Decode (S fuel) p (Some n) item) R.
Proof.
  intros Hp Hn. cbn [run_nodes]. eapply runs_bind; [exact Hp|]. intros [[item' next] finished] HQ.
  specialize (Hn _ _ _ HQ). case_bool_decide; [by apply runs_ret|done].
Qed.

(** The four nodes compute the lookup of the key. *)
Lemma Pipeline_Get_runs key :
  runs I (Pipeline_Get snappy_Decode p key) (fun r => r = EntryView_of <$> lookup_entry key (seg_entries groups)).
Proof.
  unfold Pipeline_Get. set (item := mkItem' _ _ _ _ _).
  apply run_nodes_step with (Q := fun '(it, next, finished) =>
    fi_Entry it = None /\ fi_Done it = finished /\
    (if (finished : bool) then lookup_entry key (seg_entries groups) = None else it = item /\ next = Some IndexNode)).
  { cbn [Process]. eapply runs_bind; [apply filter_MayContain_runs|]. intros [] Hb; apply runs_ret; [done|]. auto. }
  intros it next finished (He & Hd & Hf). destruct finished.
  { rewrite bool_decide_true by auto. by rewrite He, Hf. }
  rewrite bool_decide_false by (rewrite Hd; naive_solver). destruct Hf as [-> ->].
  apply run_nodes_step with (Q := fun '(it, next, finished) =>
    fi_Entry it = None /\ fi_Done it = finished /\
    (if (finished : bool) then lookup_entry key (seg_entries groups) = None
     else exists g, g ∈ groups /\ it = mkItem' key (fst g) None None false /\ next = Some DataNode /\
            lookup_entry key (seg_entries groups) = lookup_entry key (snd g))).
  { cbn [Process]. eapply runs_bind; [apply index_Find_runs|]. intros [ie|] Hb; apply runs_ret; [|done].
    destruct Hb as (g & Hg & -> & Hl). repeat split. eauto. }
  intros it next finished (He' & Hd' & Hf). destruct finished.
  { rewrite bool_decide_true by auto. by rewrite He', Hf. }
  rewrite bool_decide_false by (rewrite Hd'; naive_solver). destruct Hf as (g & Hg & -> & -> & Hl).
  apply run_nodes_step with (Q := fun '(it, next, finished) => exists blk, block_of (snd g) blk /\
    it = mkItem' key (fst g) (Some blk) None false /\ next = Some DecodeNode /\ finished = false).
  { cbn [Process fi_Index]. pose proof (tr_valid _ _ _ _ T) as Hv. rewrite Forall_forall in Hv.
    eapply runs_bind; [eapply (runs_lift _ _ tt (fun _ => True)); auto|]. intros _ _.
    eapply runs_bind; [by apply fetch_data_runs|]. intros blk Hblk. apply runs_ret. eauto 6. }
  intros it next finished (blk & Hblk & -> & -> & ->). rewrite bool_decide_false by (cbn; naive_solver).
  apply run_nodes_step with (Q := fun '(it, next, finished) =>
    finished = true /\ fi_Entry it = EntryView_of <$> lookup_entry key (snd g)).
  { cbn [Process fi_Block fi_Key]. assert (Hs : sorted_run (snd g)).
    { pose proof (tr_sorted _ _ _ _ T) as Hs. clear -Hs Hg. apply list_elem_of_split in Hg as (a & b & ->).
      rewrite seg_entries_app, seg_entries_cons in Hs. apply sorted_run_app in Hs as (_ & Hs & _).
      by apply sorted_run_app in Hs as (Hs & _ & _). }
    eapply runs_bind; [eapply (runs_lift _ _ _ (fun r => r = EntryView_of <$> lookup_entry key (snd g)));
                       [by apply FindView_block_of|done]|].
    intros r ->. by apply runs_ret. }
  intros it next finished (-> & He''). rewrite bool_decide_true by auto. congruence.
Qed.

(** ** Prefetching only fills caches *)

Lemma cache_lookup_runs (off : Z) {A} (k : option Block -> SE pstate A) Q :
  (forall hit, runs I (k hit) Q) ->
  runs I (s ← get; let '(hit, c) := cache_Get (ps_block s) off in _ ← put (with_block_cache c s); k hit) Q.
Proof.
  intros Hk s Hs. rewrite SE_get_bind.
  pose proof (cache_Get_spec _ _ off (pi_block_inv _ _ _ _ Hs) (pi_block _ _ _ _ Hs)) as Hget.
  destruct (cache_Get (ps_block s) off) as [hit c]. destruct Hget as (H1 & H2 & _).
  rewrite (SE_bind_Ok _ _ _ tt (with_block_cache c s)) by done. apply Hk. destruct Hs. by split.
Qed.

Lemma prefetchEntryCandidate_runs e : runs I (prefetchEntryCandidate p e) (fun _ => True).
Proof.
  unfold prefetchEntryCandidate. case_bool_decide; [by apply runs_ret|]. case_bool_decide; [by apply runs_ret|].
  apply (cache_lookup_runs _ (fun hit => mret (bool_decide (hit = None)))). intros hit. by apply runs_ret.
Qed.

Lemma prefetch_loop_runs budget (gs : list seg) : forall remaining (out : list seg),
  (forall g, g ∈ gs ++ out -> g ∈ groups) ->
  runs I (prefetch_loop p budget (map fst gs) remaining (map fst out))
    (fun l => exists gs, l = map fst gs /\ forall g, g ∈ gs -> g ∈ groups).
Proof.
  induction gs as [|g gs IH]; intros remaining out Hin; cbn [map prefetch_loop].
  { apply runs_ret. eauto. }
  assert (Hret : runs I (mret (map fst out)) (fun l => exists gs, l = map fst gs /\ forall g, g ∈ gs -> g ∈ groups)).
  { apply runs_ret. exists out. split; [done|]. intros x Hx. apply Hin. set_solver. }
  assert (Hsnoc : forall x, x ∈ gs ++ out ++ [g] -> x ∈ groups) by (intros x Hx; apply Hin; set_solver).
  eapply runs_bind; [apply prefetchEntryCandidate_runs|]. intros [] _.
  - case_bool_decide; [done|]. change [fst g] with (map fst [g]). rewrite <- map_app.
    case_bool_decide; [|by apply IH]. case_bool_decide; [done|]. case_bool_decide; [done|]. by apply IH.
  - apply IH. intros x Hx. apply Hin. set_solver.
Qed.

Lemma prefetchEntry_runs g : g ∈ groups -> runs I (prefetchEntry snappy_Decode p (fst g)) (fun _ => True).
Proof.
  intros Hg. unfold prefetchEntry. case_bool_decide; [by apply runs_ret|].
  apply (cache_lookup_runs _ (fun hit =>
    if bool_decide (hit = None) then _ ← catch (_ ← fetch_data snappy_Decode p (fst g); mret tt); mret tt else mret tt)).
  intros hit. case_bool_decide; [|by apply runs_ret]. eapply runs_bind with (Q := fun _ => True); [|intros; by apply runs_ret].
  intros s Hs. destruct (fetch_data_runs g Hg s Hs) as (blk & s' & E & Hs' & _).
  exists None, s'. split; [|by split]. unfold catch. by rewrite (SE_bind_Ok _ _ _ _ _ E).
Qed.

Lemma prefetch_all_runs gs :
  (forall g, g ∈ gs -> g ∈ groups) -> runs I (prefetch_all snappy_Decode p (map fst gs)) (fun _ => True).
Proof.
  induction gs as [|g gs IH]; intros Hin; cbn [map prefetch_all]; [by apply runs_ret|].
  eapply runs_bind; [apply prefetchEntry_runs; set_solver|]. intros _ _. apply IH. set_solver.
Qed.

Lemma Prefetch_runs gs start budget :
  (forall g, g ∈ gs -> g ∈ groups) -> runs I (Prefetch snappy_Decode p (map fst gs) start budget) (fun _ => True).
Proof.
  intros Hin.
  assert (Hk : runs I (targets ← prefetchTargets p (map fst gs) start budget;
    if pol_PrefetchAsync (p_policy p) then mret tt else prefetch_all snappy_Decode p targets) (fun _ => True)).
  { apply runs_bind with (Q := fun l => exists gs, l = map fst gs /\ forall g, g ∈ gs -> g ∈ groups).
    - unfold prefetchTargets. destruct gs as [|g gs]; cbn [map].
      { apply runs_ret. exists []. split; [done|by intros ? ?%elem_of_nil]. }
      destruct budget as [b|]; [|apply runs_ret; exists []; split; [done|by intros ? ?%elem_of_nil]].
      change (fst g :: map fst gs) with (map fst (g :: gs)). rewrite skipn_map. apply (prefetch_loop_runs b _ _ []).
      intros x Hx. rewrite app_nil_r in Hx. apply Hin. by apply (subseteq_drop _ _ _ Hx).
    - intros l (gs' & -> & Hgs'). destruct (pol_PrefetchAsync (p_policy p)); [by apply runs_ret|by apply prefetch_all_runs]. }
  intros s Hs. unfold Prefetch. rewrite SE_get_bind. case_bool_decide; [by apply runs_ret|by apply Hk].
Qed.
End Rep.
End Reads.
