(* ===== verification/SstRange.v ===== *)
(** * Range scans on a table

    On a file that represents a table, the range iterator reads the entries
    from the start key on up to the end key, in order, whatever the caches
    hold and however the index is partitioned. *)

From Stdlib Require Import ZArith Lia Strings.Byte.
From stdpp Require Import base list strings gmap.
From S2P Require Import Prelude Iofs SstFormat SstBlock SstOptions Bloom Cache SstReader SstTable.
Local Open Scope Z_scope.

(** ** Positioning *)

Lemma entries_from_app key a b : entries_from key (a ++ b) = entries_from key a ++ entries_from key b.
Proof. apply filter_app. Qed.

Lemma entries_from_below key es : Forall (fun e => Key e ≺ key) es -> entries_from key es = [].
Proof.
  unfold entries_from. induction 1 as [|e es He H IH]; [done|].
  rewrite filter_cons_False; [done|]. by rewrite bytes_not_le.
Qed.

Lemma entries_from_above key es : Forall (fun e => key ≺ Key e) es -> entries_from key es = es.
Proof.
  unfold entries_from. induction 1 as [|e es He H IH]; [done|].
  rewrite filter_cons_True by (by apply bytes_lt_le). by rewrite IH.
Qed.

(** The scan may start at the segment that [findBlock] chooses, or at the
    first one when it chooses none. *)
Lemma findBlock_from segs key :
  Forall seg_keyed segs -> sorted_run (seg_entries segs) ->
  let i := default O (findBlock (map fst segs) key) in
  match segs !! i with
  | None => segs = []
  | Some s => entries_from key (seg_entries segs) = entries_from key (snd s) ++ seg_entries (drop (S i) segs)
  end.
Proof.
  intros Hk Hs i. pose proof (findBlock_segs segs key Hk Hs) as H. subst i.
  destruct (findBlock (map fst segs) key) as [i|]; cbn [from_option id].
  - destruct H as (s & Hi & E & Hlo & Hhi). rewrite Hi.
    replace (seg_entries segs) with (seg_entries (take i segs ++ s :: drop (S i) segs)) by (by rewrite <- E).
    rewrite seg_entries_app, seg_entries_cons, !entries_from_app.
    by rewrite (entries_from_below key _ Hlo), (entries_from_above key (seg_entries (drop _ _)) Hhi).
  - destruct segs as [|s segs]; cbn [lookup list_lookup]; [done|].
    rewrite seg_entries_cons in *. apply Forall_app in H as [H1 H2].
    cbn [drop]. rewrite entries_from_app. by rewrite (entries_from_above key (seg_entries segs) H2).
Qed.

(** ** Cursors as lists *)

(** The entries that a cursor still reads. *)
Definition cursor_yields (c : Cursor) (es : list Entry) : Prop :=
  exists fuel, cursor_entries fuel c = Ok (map EntryView_of es).

Lemma cursor_yields_step c es :
  cursor_yields c es ->
  match es with
  | [] => exists c', Cursor_Next c = (Ok None, c')
  | e :: es => exists c', Cursor_Next c = (Ok (Some (EntryView_of e)), c') /\ cursor_yields c' es
  end.
Proof.
  intros [fuel H]. destruct fuel as [|fuel]; [done|]. cbn [cursor_entries] in H.
  destruct (Cursor_Next c) as [[[v|]| | |] c']; try done.
  - destruct (cursor_entries fuel c') as [l| | |] eqn:E; cbn [mbind result_bind] in H; try done.
    destruct es as [|e es]; [done|]. cbn [map] in H. injection H as -> ->.
    exists c'. split; [done|]. by exists fuel.
  - destruct es as [|e es]; [|done]. by exists c'.
Qed.

Section Scan.
Context (snappy_Decode : bytes -> option bytes) (r : Reader) (start stop : bytes).
Context (groups : list seg) (parts : list (IndexEntry * list seg)) (fsegs : list seg).
Context (T : table_rep snappy_Decode (r_pipe r) groups parts fsegs).
Local Abbreviation I := (pinv groups parts fsegs).
Local Abbreviation p := (r_pipe r).

(** The reader's part of the iterator's state. *)
Definition reader_ok (rs : rstate) : Prop := I (rs_pipe rs) /\ rs_dropped rs = false.

(** The partitions of the table: one, if the index has none. *)
Definition all_parts : list (list seg) :=
  if p_partitioned p then map snd parts else if bool_decide (groups = []) then [] else [groups].

Lemma all_parts_groups : concat all_parts = groups.
Proof.
  unfold all_parts. pose proof (tr_top _ _ _ _ _ T) as Ht. destruct (p_partitioned p); [by destruct Ht as (_ & <- & _)|].
  case_bool_decide; [done|]. cbn. apply app_nil_r.
Qed.

Lemma all_parts_ok gs :
  gs ∈ all_parts -> gs <> [] /\ Forall seg_keyed gs /\ sorted_run (seg_entries gs) /\ forall g, g ∈ gs -> g ∈ groups.
Proof.
  unfold all_parts. destruct (p_partitioned p) eqn:Hp.
  - intros (q & -> & Hq)%list_elem_of_fmap.
    destruct (parts_segs _ _ _ _ _ T Hp) as (_ & _ & _ & H). destruct (H q Hq) as (H1 & H2 & H3).
    split; [|done]. pose proof (tr_top _ _ _ _ _ T) as Ht. rewrite Hp in Ht. destruct Ht as (_ & _ & Hk & _).
    rewrite Forall_forall in Hk. destruct (Hk q Hq) as (g & Hh & _). by destruct (snd q).
  - case_bool_decide; [by intros ?%elem_of_nil|]. intros ->%list_elem_of_singleton.
    split; [done|]. split; [apply T|]. split; [apply T|done].
Qed.

(** The partition at which a scan starts. *)
Definition start_part : nat :=
  if bool_decide (p_partitioned p = true /\ start <> []) then default O (findBlock (p_top p) start) else O.

(** What the plan will deliver: nothing more, the partitions behind its
    position, or, before it is started, those from the start key on. *)
Definition plan_rep (pl : IndexRangePlan) (qs : list (list seg)) : Prop :=
  (pl_done pl = true /\ qs = []) \/
  (pl_done pl = false /\ pl_started pl = true /\ p_partitioned p = true /\ qs = drop (pl_topIndexI pl) all_parts) \/
  (pl = mkPlan 0 false false /\ qs = drop start_part all_parts).

(** One step of the plan delivers the next partition. *)
Definition plan_step (res : result (option (list IndexEntry))) (pl : IndexRangePlan) (qs : list (list seg)) : Prop :=
  match qs with
  | [] => res = Ok None /\ plan_rep pl []
  | gs :: qs => res = Ok (Some (map fst gs)) /\ plan_rep pl qs
  end.

Lemma plan_partitions_rep i s :
  p_partitioned p = true -> I s ->
  exists res j s', plan_partitions snappy_Decode r (drop i (p_top p)) i s = ((res, j), s') /\ I s' /\
    plan_step res (mkPlan j (match res with Ok None => true | _ => false end) true) (drop i all_parts).
Proof.
  intros Hp Hs. unfold all_parts. rewrite Hp.
  pose proof (tr_top _ _ _ _ _ T) as Ht. rewrite Hp in Ht. destruct Ht as (-> & _ & Hk & _ & _).
  rewrite !skipn_map. destruct (drop i parts) as [|q qs] eqn:Ed; cbn [map plan_partitions].
  { exists (Ok None), i, s. split; [done|]. split; [done|]. split; [done|]. by left. }
  assert (Hq : q ∈ parts) by (apply (subseteq_drop i); rewrite Ed; by left).
  destruct (readPartition_runs _ _ _ _ _ T q Hp Hq s Hs) as (es & s' & E & Hs' & ->). rewrite E.
  rewrite Forall_forall in Hk. destruct (Hk q Hq) as (g & Hh & _).
  destruct (map fst (snd q)) as [|e es] eqn:Em; [by destruct (snd q)|].
  exists (Ok (Some (e :: es))), (S i), s'. split; [done|]. split; [done|]. cbn [plan_step]. rewrite Em.
  split; [done|]. right; left. cbn [pl_done pl_started pl_topIndexI]. split; [done|]. split; [done|]. split; [done|].
  unfold all_parts. rewrite Hp, skipn_map. f_equal.
  replace (S i) with (i + 1)%nat by lia. by rewrite <- drop_drop, Ed.
Qed.

Lemma plan_Next_rep pl qs s :
  plan_rep pl qs -> I s ->
  exists res pl' s', plan_Next snappy_Decode r start pl s = ((res, pl'), s') /\ I s' /\ plan_step res pl' qs.
Proof.
  intros Hpl Hs. unfold plan_Next.
  destruct Hpl as [[Hd ->]|[(Hd & Hst & Hp & ->)|[-> ->]]]; [rewrite Hd|rewrite Hd, Hst, Hp|cbn [pl_done pl_started pl_topIndexI]].
  - exists (Ok None), pl, s. split; [done|]. split; [done|]. split; [done|]. by left.
  - destruct (plan_partitions_rep (pl_topIndexI pl) s Hp Hs) as (res & j & s' & E & Hs' & Hstep).
    rewrite E. eauto 6.
  - fold start_part. destruct (p_partitioned p) eqn:Hp.
    + destruct (plan_partitions_rep start_part s Hp Hs) as (res & j & s' & E & Hs' & Hstep). rewrite E. eauto 6.
    + eexists _, _, s. split; [done|]. split; [done|].
      pose proof (tr_top _ _ _ _ _ T) as Ht. rewrite Hp in Ht. rewrite Ht. unfold all_parts, start_part. rewrite Hp.
      rewrite (bool_decide_false (false = true /\ _)) by naive_solver. cbn [drop].
      rewrite (bool_decide_ext (map fst groups = []) (groups = [])) by (by destruct groups).
      case_bool_decide; (split; [done|]); by left.
Qed.

(** ** Steps of the iterator *)

Local Abbreviation IS := (rstate * RangeIterator)%type.

Lemma in_reader_wp {A} (m : SE pstate A) (Q : A -> Prop) (R : A -> IS -> Prop) rs it :
  runs I m Q -> reader_ok rs -> (forall a rs', Q a -> reader_ok rs' -> R a (rs', it)) ->
  wp (in_reader m) R (rs, it).
Proof.
  intros Hm [Hrs Hd] HR. destruct (Hm _ Hrs) as (a & s' & E & Hs' & Ha).
  exists a, (mkRstate s' (rs_dropped rs), it). split; [|apply HR; [done|by split]].
  unfold in_reader, in_pipe. cbn [fst snd]. by rewrite E.
Qed.

Lemma or_corrupt_wp {A} (m : SE IS A) (R : A + bool -> IS -> Prop) s :
  wp m (fun a s => R (inl a) s) s -> wp (or_corrupt r m) R s.
Proof.
  intros (a & s' & E & H). exists (inl a), s'. split; [|done]. unfold or_corrupt. by rewrite E.
Qed.

Lemma get_it_wp (R : RangeIterator -> IS -> Prop) rs it : R it (rs, it) -> wp get_it R (rs, it).
Proof. intros H. by exists it, (rs, it). Qed.

Lemma upd_it_wp f (R : unit -> IS -> Prop) rs it : R tt (rs, f it) -> wp (upd_it f) R (rs, it).
Proof. intros H. by exists tt, (rs, f it). Qed.

(** Whether the start key still has to be applied. *)
Definition fresh (it : RangeIterator) : Prop := it_startApplied it = false /\ start <> [].

#[local] Instance fresh_dec it : Decision (fresh it).
Proof. unfold fresh. apply _. Defined.

(** The block at which the iterator enters a partition. *)
Definition enter_at (it : RangeIterator) (gs : list seg) : nat :=
  if bool_decide (fresh it) then default O (findBlock (map fst gs) start) else O.

Lemma loadPartition_wp fuel it rs qs (R : bool -> IS -> Prop) :
  plan_rep (it_plan it) qs -> reader_ok rs ->
  match qs with
  | [] => forall rs' it', reader_ok rs' -> it_err it' = it_err it -> R false (rs', it')
  | gs :: qs => forall rs' pl, reader_ok rs' -> plan_rep pl qs ->
      R true (rs', mkIter (it_block it) (enter_at it gs) (map fst gs) pl (it_cursor it) (it_pending it)
                     (it_startApplied it) (it_curr it) (it_err it))
  end ->
  wp (loadPartition snappy_Decode r start (S fuel)) R (rs, it).
Proof.
  intros Hpl Hrs HR. cbn [loadPartition]. apply wp_bind, get_it_wp, wp_bind.
  apply in_reader_wp with (Q := fun '(res, pl) => plan_step res pl qs); [|done|].
  { intros s Hs. destruct (plan_Next_rep _ _ _ Hpl Hs) as (res & pl' & s' & E & Hs' & Hstep).
    exists (res, pl'), s'. by rewrite E. }
  intros [res pl] rs' Hstep Hrs'. apply wp_bind, upd_it_wp. destruct qs as [|gs qs]; cbn [plan_step] in Hstep.
  - destruct Hstep as [-> _]. apply wp_ret. by apply HR.
  - destruct Hstep as [-> Hpl']. apply wp_bind, upd_it_wp, wp_ret. by apply HR.
Qed.

(** The iterator between two blocks: the rest of a partition and the
    partitions behind it. *)
Record between (it : RangeIterator) (gs : list seg) (qs : list (list seg)) : Prop := {
  bw_block : it_block it = None;
  bw_cursor : it_cursor it = None;
  bw_pending : it_pending it = None;
  bw_part : it_partIndex it = map fst gs;
  bw_sub : forall g, g ∈ gs -> g ∈ groups;
  bw_plan : plan_rep (it_plan it) qs;
  bw_err : it_err it = None
}.

(** A block is open, without a cursor yet. *)
Record opened (it : RangeIterator) (blk : Block) (g : seg) (gs : list seg) (qs : list (list seg)) : Prop := {
  op_block : it_block it = Some blk;
  op_cursor : it_cursor it = None;
  op_pending : it_pending it = None;
  op_part : it_partIndex it = map fst gs;
  op_sub : forall g, g ∈ gs -> g ∈ groups;
  op_plan : plan_rep (it_plan it) qs;
  op_at : gs !! it_blockI it = Some g;
  op_blk : block_of (snd g) blk;
  op_err : it_err it = None
}.

(** Reading the block at the position. *)
Definition read_at (it : RangeIterator) : SE IS (Block + bool) :=
  e ← lift (index (it_partIndex it) (Z.of_nat (it_blockI it)));
  res ← or_corrupt r (in_reader (ReadBlockEntry snappy_Decode p e));
  match res with
  | inr again => mret (inr again)
  | inl blk =>
      _ ← in_reader (Prefetch snappy_Decode p (it_partIndex it) (it_blockI it) (NewPrefetchBudget (p_policy p)));
      _ ← upd_it (with_pos (Some blk) (it_blockI it) None None);
      mret (inl blk)
  end.

Lemma read_at_wp it rs gs qs g :
  between it gs qs -> reader_ok rs -> gs !! it_blockI it = Some g ->
  wp (read_at it) (fun res '(rs', it') => reader_ok rs' /\ exists blk, res = inl blk /\ opened it' blk g gs qs /\
      it_startApplied it' = it_startApplied it /\ it_blockI it' = it_blockI it) (rs, it).
Proof.
  intros [B1 B2 B3 B4 B5 B6 B7] Hrs Hg. unfold read_at. rewrite B4.
  assert (Hin : g ∈ groups) by (apply B5; by apply list_elem_of_lookup_2 in Hg).
  apply wp_bind. eapply wp_lift; [apply index_lookup_nat; by rewrite list_lookup_fmap, Hg|].
  apply wp_bind, or_corrupt_wp. apply in_reader_wp with (Q := block_of (snd g)); [|done|].
  { unfold ReadBlockEntry. pose proof (tr_valid _ _ _ _ _ T) as Hv. rewrite Forall_forall in Hv.
    eapply runs_bind; [eapply (runs_lift _ _ tt (fun _ => True)); [by apply Hv|done]|].
    intros _ _. by eapply fetch_data_runs. }
  intros blk rs1 Hblk Hrs1. apply wp_bind.
  apply in_reader_wp with (Q := fun _ => True); [by eapply Prefetch_runs|done|]. intros _ rs2 _ Hrs2.
  apply wp_bind, upd_it_wp, wp_ret. split; [done|]. exists blk. split; [done|]. split; [|done].
  by split.
Qed.

Lemma plan_rep_sub pl qs gs : plan_rep pl qs -> gs ∈ qs -> gs ∈ all_parts.
Proof.
  intros [[_ ->]|[(_ & _ & _ & ->)|[_ ->]]] H; [by apply elem_of_nil in H|..]; by apply (subseteq_drop _ _ _ H).
Qed.

Lemma enter_at_lookup it gs : gs ∈ all_parts -> exists g, gs !! enter_at it gs = Some g.
Proof.
  intros Hin. destruct (all_parts_ok gs Hin) as (Hne & Hk & Hs & _). unfold enter_at. case_bool_decide.
  - pose proof (findBlock_from gs start Hk Hs) as H'. cbv zeta in H'.
    destruct (gs !! default O (findBlock (map fst gs) start)) as [g|]; [by exists g|done].
  - destruct gs as [|g gs]; [done|]. by exists g.
Qed.

(** Opening the next block: in the partition at hand, or in the next one. *)
Lemma next_block_wp it rs gs qs :
  between it gs qs -> reader_ok rs ->
  wp (next_block snappy_Decode r start) (fun res '(rs', it') => reader_ok rs' /\
    match gs !! it_blockI it, qs with
    | Some g, _ => exists blk, res = inl blk /\ opened it' blk g gs qs /\
        it_startApplied it' = it_startApplied it /\ it_blockI it' = it_blockI it
    | None, [] => res = inr false /\ it_err it' = None
    | None, gs' :: qs' => exists g blk, gs' !! enter_at it gs' = Some g /\ res = inl blk /\ opened it' blk g gs' qs' /\
        it_startApplied it' = it_startApplied it /\ it_blockI it' = enter_at it gs'
    end) (rs, it).
Proof.
  intros B Hrs. pose proof B as [B1 B2 B3 B4 B5 B6 B7]. unfold next_block. apply wp_bind, get_it_wp. rewrite B1.
  replace (length (it_partIndex it)) with (length gs) by (by rewrite B4, length_map). apply wp_bind.
  destruct (gs !! it_blockI it) as [g|] eqn:Hg.
  - rewrite bool_decide_false by (apply lookup_lt_Some in Hg; lia). apply wp_ret, wp_bind, get_it_wp.
    exact (read_at_wp it rs gs qs g B Hrs Hg).
  - rewrite bool_decide_true by (by apply lookup_ge_None in Hg).
    apply (loadPartition_wp _ _ _ _ _ B6 Hrs). destruct qs as [|gs' qs'].
    + intros rs' it' Hrs' E'. apply wp_ret. split; [done|]. split; [done|]. by rewrite E'.
    + intros rs' pl Hrs' Hpl. apply wp_bind, get_it_wp.
      assert (Hgs' : gs' ∈ all_parts) by (apply (plan_rep_sub _ _ _ B6); by left).
      destruct (enter_at_lookup it gs' Hgs') as (g' & Hg'). set (it1 := mkIter _ _ _ _ _ _ _ _ _).
      assert (Bt : between it1 gs' qs') by (split; try done; apply (all_parts_ok gs' Hgs')).
      eapply wp_mono; [exact (read_at_wp it1 rs' gs' qs' g' Bt Hrs' Hg')|].
      intros res [rs2 it2] (H1 & blk & H2 & H3 & H4 & H5). split; [done|]. exists g', blk. done.
Qed.

(** ** The entries an iterator still has *)

(** The iterator reads a block. *)
Record reading (it : RangeIterator) (cur : list Entry) (gs : list seg) (qs : list (list seg)) : Prop := {
  rd_block : exists blk, it_block it = Some blk;
  rd_cursor : exists c, it_cursor it = Some c /\ cursor_yields c cur;
  rd_pending : it_pending it = None;
  rd_fresh : ~ fresh it;
  rd_part : it_partIndex it = map fst gs;
  rd_sub : forall g, g ∈ gs -> g ∈ groups;
  rd_plan : plan_rep (it_plan it) qs;
  rd_err : it_err it = None
}.

Definition behind (n : nat) (gs : list seg) (qs : list (list seg)) : list Entry :=
  seg_entries (drop n gs) ++ seg_entries (concat qs).

Inductive iter_rep (it : RangeIterator) : list Entry -> Prop :=
| iter_start : between it [] (drop start_part all_parts) -> fresh it ->
    iter_rep it (entries_from start (seg_entries groups))
| iter_between gs qs : between it gs qs -> ~ fresh it -> iter_rep it (behind (it_blockI it) gs qs)
| iter_reading cur gs qs : reading it cur gs qs -> iter_rep it (cur ++ behind (S (it_blockI it)) gs qs).

(** What [Next] does when the entries [rem] are left. *)
Definition next_post (rem : list Entry) (more : bool) (s : IS) : Prop :=
  reader_ok (fst s) /\ it_err (snd s) = None /\
  match rem with
  | [] => more = false
  | e :: rem => if past_end stop (EntryView_of e) then more = false
                else more = true /\ it_curr (snd s) = Some (EntryView_of e) /\ iter_rep (snd s) rem
  end.

Definition tail_loop (again : SE IS bool) (blk : Block) : SE IS bool :=
  c ← next_cursor r start stop blk;
  match c with
  | inr b => if (b : bool) then again else mret false
  | inl _ =>
      e ← next_entry r stop;
      match e with
      | inl found => mret found
      | inr b => if (b : bool) then again else mret false
      end
  end.

Lemma Next_loop_unfold fuel :
  Next_loop snappy_Decode r start stop (S fuel) =
  (b ← next_block snappy_Decode r start;
   match b with
   | inr again => if (again : bool) then Next_loop snappy_Decode r start stop fuel else mret false
   | inl blk => tail_loop (Next_loop snappy_Decode r start stop fuel) blk
   end).
Proof. reflexivity. Qed.

(** Reading on in a block; at its end the loop goes on behind it. *)
Lemma next_entry_wp it rs cur gs qs again :
  reading it cur gs qs -> reader_ok rs ->
  (cur = [] -> forall it', between it' gs qs -> ~ fresh it' -> it_blockI it' = S (it_blockI it) ->
     wp again (next_post (behind (S (it_blockI it)) gs qs)) (rs, it')) ->
  wp (e ← next_entry r stop;
      match e with
      | inl found => mret found
      | inr b => if (b : bool) then again else mret false
      end) (next_post (cur ++ behind (S (it_blockI it)) gs qs)) (rs, it).
Proof.
  intros [(blk & R1) (c & R2 & Hy) R3 R4 R5 R6 R7 R8] Hrs Hagain. unfold next_entry.
  apply wp_bind, wp_bind, get_it_wp. rewrite R3. apply wp_bind, or_corrupt_wp.
  apply cursor_yields_step in Hy. destruct cur as [|e cur].
  - destruct Hy as (c' & E). eexists _, _. split; [unfold cursor_step; cbn [snd fst]; by rewrite R2, E|].
    apply wp_bind, upd_it_wp, wp_ret. apply Hagain; [done| |done|done]. by split.
  - destruct Hy as (c' & E & Hy). eexists _, _. split; [unfold cursor_step; cbn [snd fst]; by rewrite R2, E|].
    cbn [app]. destruct (past_end stop (EntryView_of e)) eqn:Hp.
    + apply wp_ret, wp_ret. split; [done|]. split; [done|]. by rewrite Hp.
    + apply wp_bind, upd_it_wp, wp_ret, wp_ret. split; [done|]. split; [done|]. rewrite Hp. split; [done|]. split; [done|].
      refine (iter_reading _ cur gs qs _). split; try done; eauto.
Qed.

Lemma tail_opened it rs blk g gs qs again :
  opened it blk g gs qs -> ~ fresh it -> reader_ok rs ->
  (snd g = [] -> forall it', between it' gs qs -> ~ fresh it' -> it_blockI it' = S (it_blockI it) ->
     wp again (next_post (behind (S (it_blockI it)) gs qs)) (rs, it')) ->
  wp (tail_loop again blk) (next_post (snd g ++ behind (S (it_blockI it)) gs qs)) (rs, it).
Proof.
  intros [O1 O2 O3 O4 O5 O6 O7 O8 O9] Hf Hrs Hagain. unfold tail_loop, next_cursor.
  apply wp_bind, wp_bind, get_it_wp. rewrite O2, bool_decide_false by done.
  apply wp_bind, upd_it_wp, wp_ret. set (it1 := with_pos _ _ _ _ _).
  change (it_blockI it) with (it_blockI it1). apply next_entry_wp; [|done|exact Hagain].
  split; try done.
  - by exists blk.
  - eexists. split; [done|]. eexists. apply (cursor_block_of _ _ O8).
  - intros [? _]. done.
Qed.

Lemma tail_seek it rs blk g gs qs again :
  opened it blk g gs qs -> fresh it -> reader_ok rs -> sorted_run (snd g) ->
  (forall it', between it' gs qs -> ~ fresh it' -> it_blockI it' = S (it_blockI it) ->
     wp again (next_post (behind (S (it_blockI it)) gs qs)) (rs, it')) ->
  wp (tail_loop again blk) (next_post (entries_from start (snd g) ++ behind (S (it_blockI it)) gs qs)) (rs, it).
Proof.
  intros [O1 O2 O3 O4 O5 O6 O7 O8 O9] Hf Hrs Hs Hagain. unfold tail_loop, next_cursor.
  apply wp_bind, wp_bind, get_it_wp. rewrite O2, bool_decide_true by done.
  apply wp_bind, upd_it_wp, wp_bind, or_corrupt_wp.
  pose proof (Seek_block_of (snd g) blk start O8 Hs) as Hseek.
  destruct (entries_from start (snd g)) as [|e es].
  - eapply wp_lift; [exact Hseek|]. apply wp_bind, upd_it_wp, wp_ret. apply Hagain; [|by intros [? _]|done]. by split.
  - destruct Hseek as (c & E & Hc). eapply wp_lift; [exact E|]. cbn [app].
    destruct (past_end stop (EntryView_of e)) eqn:Hp.
    + apply wp_ret, wp_ret. split; [done|]. split; [done|]. by rewrite Hp.
    + apply wp_bind, upd_it_wp, wp_ret. unfold next_entry. apply wp_bind, wp_bind, get_it_wp.
      apply wp_bind, upd_it_wp, wp_ret, wp_ret. split; [done|]. split; [done|]. rewrite Hp. split; [done|]. split; [done|].
      refine (iter_reading _ es gs qs _). split; try done.
      * by exists blk.
      * exists c. split; [done|]. by eexists.
      * by intros [? _].
Qed.

Lemma group_sorted g : g ∈ groups -> sorted_run (snd g).
Proof.
  intros Hg. pose proof (tr_sorted _ _ _ _ _ T) as Hs. clear -Hs Hg. apply list_elem_of_split in Hg as (a & b & ->).
  rewrite seg_entries_app, seg_entries_cons in Hs. apply sorted_run_app in Hs as (_ & Hs & _).
  by apply sorted_run_app in Hs as (Hs & _ & _).
Qed.

Lemma behind_here n gs qs g : gs !! n = Some g -> behind n gs qs = snd g ++ behind (S n) gs qs.
Proof. intros H. unfold behind. by rewrite (drop_S gs g n H), seg_entries_cons, app_assoc. Qed.

Lemma behind_next n gs gs' qs : gs !! n = None -> behind n gs (gs' :: qs) = behind 0 gs' qs.
Proof.
  intros H%lookup_ge_None. unfold behind. rewrite drop_ge by done. cbn [drop concat]. by rewrite seg_entries_app.
Qed.

(** From a position between two blocks one round suffices. *)
Lemma Next_between it rs gs qs fuel :
  between it gs qs -> ~ fresh it -> reader_ok rs ->
  wp (Next_loop snappy_Decode r start stop (S fuel)) (next_post (behind (it_blockI it) gs qs)) (rs, it).
Proof.
  intros B Hf Hrs. rewrite Next_loop_unfold. apply wp_bind.
  assert (Hopen : forall it' rs' blk g gs qs, opened it' blk g gs qs ->
    it_startApplied it' = it_startApplied it -> reader_ok rs' ->
    wp (tail_loop (Next_loop snappy_Decode r start stop fuel) blk)
      (next_post (snd g ++ behind (S (it_blockI it')) gs qs)) (rs', it')).
  { intros it' rs' blk g gs' qs' O Hsa Hrs'. eapply tail_opened; [done|unfold fresh in *; by rewrite Hsa|done|].
    intros Hnil. exfalso. pose proof (tr_keyed _ _ _ _ _ T) as Hk. rewrite Forall_forall in Hk.
    destruct (Hk g) as (e & He & _); [|by rewrite Hnil in He].
    apply (op_sub _ _ _ _ _ O). apply (list_elem_of_lookup_2 _ _ _ (op_at _ _ _ _ _ O)). }
  eapply wp_mono; [exact (next_block_wp it rs gs qs B Hrs)|]. intros res [rs' it'] [Hrs' H].
  destruct (gs !! it_blockI it) as [g|] eqn:Hg; [|destruct qs as [|gs' qs']].
  - destruct H as (blk & -> & O & Hsa & Hi). rewrite (behind_here _ _ _ _ Hg), <- Hi. by apply Hopen.
  - destruct H as [-> H]. apply wp_ret. split; [done|]. split; [done|]. apply lookup_ge_None in Hg.
    unfold behind. rewrite drop_ge by done. done.
  - destruct H as (g & blk & Hg' & -> & O & Hsa & Hi). rewrite (behind_next _ _ _ _ Hg).
    assert (E : enter_at it gs' = 0%nat) by (unfold enter_at; by rewrite bool_decide_false).
    rewrite E in *. rewrite (behind_here _ _ _ _ Hg'), <- Hi. by apply Hopen.
Qed.

(** Where a scan with a start key enters a partition, and the table. *)
Lemma enter_split it g gs :
  gs ∈ all_parts -> fresh it -> gs !! enter_at it gs = Some g ->
  entries_from start (seg_entries gs) = entries_from start (snd g) ++ seg_entries (drop (S (enter_at it gs)) gs).
Proof.
  intros Hin Hf Hg. destruct (all_parts_ok gs Hin) as (_ & Hk & Hs & _).
  pose proof (findBlock_from gs start Hk Hs) as H. cbv zeta in H.
  unfold enter_at in *. rewrite bool_decide_true in * by done. by rewrite Hg in H.
Qed.

Lemma start_part_split :
  start <> [] ->
  match drop start_part all_parts with
  | [] => groups = []
  | gs :: qs => gs ∈ all_parts /\
      entries_from start (seg_entries groups) = entries_from start (seg_entries gs) ++ seg_entries (concat qs)
  end.
Proof.
  intros Hst. unfold start_part, all_parts. destruct (p_partitioned p) eqn:Hp.
  - rewrite bool_decide_true by done.
    destruct (parts_segs _ _ _ _ _ T Hp) as (Hk & Hse & Htop & _).
    pose proof (findBlock_from _ start Hk ltac:(rewrite Hse; apply T)) as H. cbv zeta in H.
    rewrite Hse, <- Htop, list_lookup_fmap in H. rewrite skipn_map.
    set (i := default O (findBlock (p_top p) start)) in *. destruct (parts !! i) as [q|] eqn:Hq; cbn [fmap option_fmap option_map] in H.
    + rewrite (drop_S _ _ _ Hq). cbn [map]. split; [apply (list_elem_of_fmap_2 snd); by apply list_elem_of_lookup_2 in Hq|].
      rewrite H. cbn [part_seg snd]. by rewrite skipn_map, part_seg_entries.
    + apply lookup_ge_None in Hq. rewrite drop_ge by done. cbn [map].
      pose proof (tr_top _ _ _ _ _ T) as Ht. rewrite Hp in Ht. destruct Ht as (_ & -> & _).
      by apply map_eq_nil in H as ->.
  - rewrite bool_decide_false by naive_solver. cbn [drop]. case_bool_decide as Hg; [done|].
    split; [by left|]. cbn [concat]. apply eq_sym, app_nil_r.
Qed.

Lemma start_split :
  match drop start_part all_parts with
  | [] => entries_from start (seg_entries groups) = []
  | gs :: qs => forall it g, fresh it -> gs !! enter_at it gs = Some g ->
      entries_from start (seg_entries groups) = entries_from start (snd g) ++ behind (S (enter_at it gs)) gs qs
  end.
Proof.
  destruct (decide (start = [])) as [Hst|Hst].
  - destruct (drop start_part all_parts) as [|gs qs] eqn:Ed; [|by intros ? ? [_ ?]].
    unfold start_part in Ed. rewrite bool_decide_false in Ed by naive_solver. change (drop 0 all_parts) with all_parts in Ed.
    rewrite <- all_parts_groups, Ed. done.
  - pose proof (start_part_split Hst) as H. destruct (drop start_part all_parts) as [|gs qs]; [by rewrite H|].
    destruct H as [Hin E]. intros it g Hf Hg. rewrite E, (enter_split it g gs Hin Hf Hg). unfold behind.
    by rewrite app_assoc.
Qed.

(** Two rounds suffice everywhere: the end of a block, or a first block
    without an entry from the start key on, costs one. *)
Lemma Next_loop_wp it rs rem fuel :
  iter_rep it rem -> reader_ok rs ->
  wp (Next_loop snappy_Decode r start stop (S (S fuel))) (next_post rem) (rs, it).
Proof.
  intros Hit Hrs. destruct Hit as [B Hf|gs qs B Hf|cur gs qs Hrd].
  - rewrite Next_loop_unfold. apply wp_bind. eapply wp_mono; [exact (next_block_wp it rs _ _ B Hrs)|].
    intros res [rs' it'] [Hrs' H].
    pose proof start_split as Hss. destruct (drop start_part all_parts) as [|gs' qs'] eqn:Ed.
    { cbn [lookup list_lookup] in H. destruct H as [-> H]. apply wp_ret. rewrite Hss. by split. }
    cbn [lookup list_lookup] in H. destruct H as (g & blk & Hg & -> & O & Hsa & Hi).
    specialize (Hss it g Hf Hg). rewrite Hss, <- Hi. eapply tail_seek; [done|unfold fresh in *; by rewrite Hsa|done| |].
    { apply group_sorted, (op_sub _ _ _ _ _ O), (list_elem_of_lookup_2 _ _ _ (op_at _ _ _ _ _ O)). }
    intros it2 B2 Hf2 <-. by apply Next_between.
  - by apply Next_between.
  - rewrite Next_loop_unfold. apply wp_bind. destruct (rd_block _ _ _ _ Hrd) as [blk Hb].
    unfold next_block. apply wp_bind, get_it_wp. rewrite Hb. apply wp_ret.
    unfold tail_loop, next_cursor. destruct (rd_cursor _ _ _ _ Hrd) as (c & Hc & _).
    apply wp_bind, wp_bind, get_it_wp. rewrite Hc. apply wp_ret. apply next_entry_wp; [done|done|].
    intros _ it2 B2 Hf2 <-. by apply Next_between.
Qed.

(** ** Whole scans *)

Fixpoint until (es : list Entry) : list Entry :=
  match es with
  | [] => []
  | e :: es => if past_end stop (EntryView_of e) then [] else e :: until es
  end.

Lemma range_entries_wp rem : forall it rs steps fuel,
  iter_rep it rem -> reader_ok rs -> (length rem < steps)%nat ->
  wp (range_entries snappy_Decode r start stop steps (S (S fuel)))
    (fun vs s => vs = map EntryView_of (until rem) /\ reader_ok (fst s)) (rs, it).
Proof.
  induction rem as [|e rem IH]; intros it rs steps fuel Hit Hrs Hsteps; (destruct steps as [|steps]; [cbn in Hsteps; lia|]);
    cbn [range_entries until]; apply wp_bind.
  all: assert (Hn : forall R, wp (Next_loop snappy_Decode r start stop (S (S fuel))) R (rs, it) ->
         wp (RangeIterator_Next snappy_Decode r start stop (S (S fuel))) R (rs, it))
         by (intros R (a & s' & E & HR); exists a, s'; unfold RangeIterator_Next; cbn [fst]; by rewrite (proj2 Hrs)).
  all: apply Hn; eapply wp_mono; [exact (Next_loop_wp it rs _ fuel Hit Hrs)|]; intros more [rs' it'] (Hrs' & _ & H).
  - rewrite H. by apply wp_ret.
  - destruct (past_end stop (EntryView_of e)); [rewrite H; by apply wp_ret|].
    destruct H as (-> & Hcurr & Hit'). cbn [fst snd] in *. apply wp_bind, get_it_wp, wp_bind.
    eapply wp_mono; [apply (IH it' rs' steps fuel Hit' Hrs'); cbn in Hsteps; lia|].
    intros vs s [-> Hs]. apply wp_ret. rewrite Hcurr. done.
Qed.

Lemma new_iter_rep : iter_rep newRangeIterator (entries_from start (seg_entries groups)).
Proof.
  assert (B : between newRangeIterator [] (drop start_part all_parts)).
  { split; try done; [by intros ? ?%elem_of_nil|]. right; right. done. }
  destruct (decide (start = [])) as [Hst|Hst]; [|by apply iter_start].
  assert (E : entries_from start (seg_entries groups) = behind (it_blockI newRangeIterator) [] (drop start_part all_parts)).
  { unfold start_part. rewrite bool_decide_false by naive_solver.
    change (drop 0 all_parts) with all_parts. unfold behind. rewrite all_parts_groups. cbn [app].
    unfold entries_from. apply list_filter_all. intros x Hx. rewrite Hst. apply bytes_le_nil. }
  rewrite E. apply iter_between; [exact B|]. by intros [_ ?].
Qed.
End Scan.

Lemma until_between start stop es :
  sorted_run es -> until stop (entries_from start es) = entries_between start stop es.
Proof.
  intros Hs. rewrite <- collect_between by done. generalize (entries_from start es). clear.
  induction l as [|e l IH]; [done|]. cbn [until collect_until]. by rewrite IH.
Qed.
