(* ===== verification/SstFlush.v ===== *)
(** * [Flush] writes tables

    The bytes that the writer appends, block by block, and that the finished
    file represents the sorted entries ([table_rep]), whatever the block
    sizes, the compression and the partitioning; and what is visible in the
    directory when calls to the file system fail. *)

From Stdlib Require Import ZArith Lia Strings.Byte.
From stdpp Require Import base list strings pretty gmap sorting.
From S2P Require Import Prelude Iofs SstFormat SstBlock SstOptions Bloom Cache SstReader SstWriter SstTable SstRange.
Local Open Scope Z_scope.

(** ** Appending to one file *)

Lemma with_dir_id fs : with_dir (fs_dir fs) fs = fs.
Proof. by destruct fs. Qed.

Section Writes.
Context (name : string).

(** Without faults, [m] appends [out] to the file and returns [a]. *)
Definition writes {A} (m : SE FS A) (out : bytes) (a : A) : Prop :=
  forall fs cur, fs_faults fs = [] -> fs_dir fs !! name = Some cur ->
    m fs = (Ok a, with_dir (<[name := cur ++ out]> (fs_dir fs)) fs).

Lemma writes_nothing {A} (m : SE FS A) a : (forall fs, fs_faults fs = [] -> m fs = (Ok a, fs)) -> writes m [] a.
Proof.
  intros H fs cur Hf Hc. rewrite app_nil_r, insert_id by done. rewrite with_dir_id. by apply H.
Qed.

Lemma writes_ret {A} (a : A) : writes (mret a) [] a.
Proof. by apply writes_nothing. Qed.

Lemma writes_lift {A} (m : result A) a : m = Ok a -> writes (lift m) [] a.
Proof. intros ->. by apply writes_nothing. Qed.

Lemma writes_bind {A B} (m : SE FS A) (f : A -> SE FS B) o1 o2 a b :
  writes m o1 a -> writes (f a) o2 b -> writes (x ← m; f x) (o1 ++ o2) b.
Proof.
  intros Hm Hf fs cur Hfs Hc. rewrite (SE_bind_Ok _ _ _ _ _ (Hm fs cur Hfs Hc)).
  rewrite (Hf _ (cur ++ o1)); [|done|apply lookup_insert_eq].
  f_equal. unfold with_dir. cbn [fs_dir fs_faults fs_now]. by rewrite insert_insert_eq, app_assoc.
Qed.

Lemma writes_file data e : writes (file_write name data e) data (zlen data).
Proof. intros fs cur Hf Hc. by apply file_write_ok. Qed.

(** Steps that append nothing in front of the rest. *)
Lemma writes_bind_nil {A B} (m : SE FS A) (f : A -> SE FS B) out a b :
  writes m [] a -> writes (f a) out b -> writes (x ← m; f x) out b.
Proof. apply (writes_bind m f [] out). Qed.

Lemma writes_bind_last {A B} (m : SE FS A) (f : A -> SE FS B) out a b :
  writes m out a -> writes (f a) [] b -> writes (x ← m; f x) out b.
Proof. intros H1 H2. rewrite <- (app_nil_r out). by apply (writes_bind m f out [] a b). Qed.
End Writes.

(** ** Sizes *)

Definition entry_bytes (e : Entry) : Z := 25 + zlen (Key e) + zlen (Value e).
Definition run_bytes (es : list Entry) : Z := fold_right (fun e n => entry_bytes e + n) 0 es.

Lemma entry_bytes_ge e : 25 <= entry_bytes e.
Proof. unfold entry_bytes. pose proof (zlen_nonneg (Key e)). pose proof (zlen_nonneg (Value e)). lia. Qed.

Lemma run_bytes_app a b : run_bytes (a ++ b) = run_bytes a + run_bytes b.
Proof. induction a as [|e a IH]; cbn [app run_bytes fold_right]; [done|]. fold (run_bytes (a ++ b)) (run_bytes a). lia. Qed.

Lemma run_bytes_ge es : 25 * zlen es <= run_bytes es.
Proof.
  induction es as [|e es IH]; cbn [run_bytes fold_right]; [done|]. fold (run_bytes es).
  rewrite zlen_cons. pose proof (entry_bytes_ge e). lia.
Qed.

Lemma zlen_EncodeBlock payload typ comp n : zlen (EncodeBlock payload typ comp n) = 14 + zlen payload.
Proof. unfold EncodeBlock. rewrite !zlen_app. unfold sstBlockMagic. autorewrite with zlen. lia. Qed.

Lemma zlen_pos {A} (l : list A) : l <> [] -> 0 < zlen l.
Proof. destruct l as [|x l]; [done|]. intros _. rewrite zlen_cons. pose proof (zlen_nonneg l). lia. Qed.

(** ** Blocks in a row *)

(** The index entries of blocks that are written one after the other from
    [off] on. *)
Fixpoint index_of {A} (frame key : A -> bytes) (off : Z) (l : list A) : list IndexEntry :=
  match l with
  | [] => []
  | a :: l => mkIndexEntry (key a) off (zlen (frame a)) :: index_of frame key (off + zlen (frame a)) l
  end.

Definition frames {A} (frame : A -> bytes) (l : list A) : bytes := concat (map frame l).

Lemma frames_cons {A} (frame : A -> bytes) a l : frames frame (a :: l) = frame a ++ frames frame l.
Proof. done. Qed.

Lemma index_of_app {A} (frame key : A -> bytes) l1 l2 : forall off,
  index_of frame key off (l1 ++ l2)
  = index_of frame key off l1 ++ index_of frame key (off + zlen (frames frame l1)) l2.
Proof.
  induction l1 as [|a l1 IH]; intros off; cbn [app index_of].
  - change (zlen (frames frame [])) with 0. by rewrite Z.add_0_r.
  - rewrite IH, frames_cons, zlen_app, Z.add_assoc. done.
Qed.

Lemma index_of_length {A} (frame key : A -> bytes) l : forall off, length (index_of frame key off l) = length l.
Proof. induction l as [|a l IH]; intros off; cbn [index_of length]; [done|]. by rewrite IH. Qed.

(** Reading an entry of such an index gives its frame. *)
Lemma index_of_read {A} (frame key : A -> bytes) l : forall pre post,
  Forall (fun a => frame a <> []) l -> zlen (pre ++ frames frame l ++ post) < 2 ^ 63 ->
  Forall2 (fun ie a => source_Read (pre ++ frames frame l ++ post) (entry_desc ie) = Ok (frame a) /\ ie_Key ie = key a /\
             ie_Length ie = zlen (frame a) /\ zlen pre <= ie_Offset ie /\
             ie_Offset ie + ie_Length ie <= zlen pre + zlen (frames frame l))
    (index_of frame key (zlen pre) l) l.
Proof.
  induction l as [|a l IH]; intros pre post Hne Hl; cbn [index_of]; [constructor|].
  apply Forall_cons in Hne as [Ha Hne]. rewrite frames_cons, <- app_assoc in *.
  pose proof (zlen_nonneg pre). pose proof (zlen_nonneg (frames frame l)). pose proof (zlen_nonneg post).
  pose proof (zlen_pos _ Ha) as Hfa.
  rewrite !zlen_app in Hl. constructor.
  - cbn [entry_desc ie_Offset ie_Length ie_Key]. split; [|split; [done|]; split; [done|]; split; [lia|]; rewrite zlen_app; lia].
    unfold source_Read, entry_desc. cbn [d_Offset d_Length ie_Offset ie_Length]. rewrite bool_decide_false by lia. rewrite i64_id by lia.
    rewrite !zlen_app, bool_decide_false by lia. by apply (slice_mid _ pre (frame a) (frames frame l ++ post)).
  - replace (zlen pre + zlen (frame a)) with (zlen (pre ++ frame a)) by apply zlen_app.
    rewrite (app_assoc pre). eapply Forall2_impl; [apply (IH (pre ++ frame a) post); [done|]|].
    + rewrite !zlen_app. lia.
    + intros ie x (? & ? & ? & ? & ?). rewrite zlen_app in *. repeat split; auto; lia.
Qed.

(** The offsets of such an index ascend. *)
Lemma index_of_ascending {A} (frame key : A -> bytes) l : forall off,
  Forall (fun a => frame a <> []) l ->
  StronglySorted (fun a b => ie_Offset a < ie_Offset b) (index_of frame key off l) /\
  Forall (fun ie => off <= ie_Offset ie) (index_of frame key off l).
Proof.
  induction l as [|a l IH]; intros off Hne; cbn [index_of]; [split; constructor|].
  apply Forall_cons in Hne as [Ha Hne]. pose proof (zlen_pos _ Ha). destruct (IH (off + zlen (frame a)) Hne) as [H1 H2].
  split; constructor; cbn [ie_Offset]; [done| |lia|]; (eapply Forall_impl; [exact H2|]); intros ie Hie; cbv beta in Hie; lia.
Qed.

Lemma ascending_distinct {A} (l : list (IndexEntry * A)) :
  StronglySorted (fun a b => ie_Offset a < ie_Offset b) (map fst l) -> offsets_distinct l.
Proof.
  intros Hs g g' Hg Hg' E. apply list_elem_of_lookup in Hg as [i Hi]. apply list_elem_of_lookup in Hg' as [j Hj].
  assert (Hf : forall k x, l !! k = Some x -> map fst l !! k = Some (fst x)) by (intros k x Hk; by rewrite list_lookup_fmap, Hk).
  destruct (decide (i = j)) as [->|Hij]; [congruence|]. exfalso.
  destruct (decide (i < j)%nat) as [Hlt|Hge].
  - pose proof (StronglySorted_lookup _ _ i j _ _ Hs Hlt (Hf _ _ Hi) (Hf _ _ Hj)) as H. cbv beta in H. lia.
  - pose proof (StronglySorted_lookup _ _ j i _ _ Hs ltac:(lia) (Hf _ _ Hj) (Hf _ _ Hi)) as H. cbv beta in H. lia.
Qed.

Section Flush.
Context (snappy_Encode : bytes -> bytes) (snappy_Decode : bytes -> option bytes).
Context (snappy_roundtrip : forall b, zlen b < 2 ^ 31 -> snappy_Decode (snappy_Encode b) = Some b).
(** [snappy.MaxEncodedLen]. *)
Context (snappy_length : forall b, zlen (snappy_Encode b) <= 32 + zlen b + zlen b / 6).
Context (name : string) (o : Options).

(** ** Data blocks *)

(** A block on its way to the file: its entries and its finished payload. *)
Abbreviation grp := (list Entry * bytes)%type.

Definition frame_data (payload : bytes) : bytes :=
  let '(stored, ulen) := CompressPayload snappy_Encode payload (opt_Compression o) in
  EncodeBlock stored BlockTypeData (opt_Compression o) ulen.

Definition first_key (es : list Entry) : bytes := match es with [] => [] | e :: _ => Key e end.

Record grp_ok (g : grp) : Prop := {
  go_first : first_key (fst g) <> [];
  go_block : exists blk, Decode (snd g) = Ok blk /\ block_of (fst g) blk;
  go_size : 0 <= zlen (snd g) <= run_bytes (fst g) + 4;
  go_small : zlen (snd g) <= BlockTargetBytes o \/ exists e, fst g = [e]
}.

Definition grp_frames (gs : list grp) : bytes := concat (map (fun g => frame_data (snd g)) gs).
Definition grp_entries (gs : list grp) : list Entry := concat (map fst gs).

Definition index_from : Z -> list grp -> list IndexEntry :=
  index_of (fun g => frame_data (snd g)) (fun g => first_key (fst g)).

Lemma zlen_frame_data payload : 14 <= zlen (frame_data payload) <= 46 + 2 * zlen payload.
Proof.
  unfold frame_data. pose proof (zlen_nonneg payload). pose proof (Z.div_mod (zlen payload) 6 ltac:(lia)).
  pose proof (Z.mod_pos_bound (zlen payload) 6 ltac:(lia)). pose proof (snappy_length payload).
  pose proof (zlen_nonneg (snappy_Encode payload)).
  destruct (opt_Compression o); cbn [CompressPayload]; rewrite zlen_EncodeBlock; lia.
Qed.

Lemma grp_entries_app a b : grp_entries (a ++ b) = grp_entries a ++ grp_entries b.
Proof. unfold grp_entries. by rewrite map_app, concat_app. Qed.
Lemma grp_frames_app a b : grp_frames (a ++ b) = grp_frames a ++ grp_frames b.
Proof. unfold grp_frames. by rewrite map_app, concat_app. Qed.

Lemma index_from_snoc gs g off :
  index_from off (gs ++ [g])
  = index_from off gs ++ [mkIndexEntry (first_key (fst g)) (off + zlen (grp_frames gs)) (zlen (frame_data (snd g)))].
Proof. unfold index_from. rewrite index_of_app. done. Qed.

(** The frames of some blocks take at most five times the size of their
    entries. *)
Lemma grp_frames_size gs : Forall grp_ok gs -> zlen (grp_frames gs) <= 5 * run_bytes (grp_entries gs).
Proof.
  induction 1 as [|g gs [Hf _ Hs _] H IH]; [done|].
  change (grp_frames (g :: gs)) with (frame_data (snd g) ++ grp_frames gs).
  change (grp_entries (g :: gs)) with (fst g ++ grp_entries gs). rewrite zlen_app, run_bytes_app.
  pose proof (zlen_frame_data (snd g)). pose proof (run_bytes_ge (fst g)).
  assert (1 <= zlen (fst g)).
  { destruct (fst g) as [|e es]; [done|]. rewrite zlen_cons. pose proof (zlen_nonneg es). lia. }
  lia.
Qed.

(** ** The loop over the entries *)

(** What the filter has seen, if there is one. *)
Definition filter_seen (n : Z) (seen : list Entry) (f : option Filter) : Prop :=
  match f with
  | None => BloomBitsPerKey o <= 0
  | Some f => 0 < BloomBitsPerKey o /\ filter_wf f /\ zlen (f_bits f) <= 8 + n * BloomBitsPerKey o /\
              forall e, e ∈ seen -> MayContain (Some f) (Key e) = Ok true
  end.

Record winv (n : Z) (w : WriterState) (gs : list grp) (pending seen : list Entry) : Prop := {
  wi_offset : ws_offset w = zlen (grp_frames gs);
  wi_index : ws_index w = index_from 0 gs;
  wi_counts : ws_counts w = map (fun g => zlen (fst g)) gs;
  wi_groups : Forall grp_ok gs;
  wi_builder : exists items, builder_rep (ws_builder w) items /\ map it_entry items = pending;
  wi_first : b_first (ws_builder w) = first_key pending;
  wi_payload : zlen (Finish (ws_builder w)) <= run_bytes pending + 4;
  wi_small : SizeBytes (ws_builder w) <= BlockTargetBytes o \/ exists e, pending = [e];
  wi_size : SizeBytes (ws_builder w) = if bool_decide (pending = []) then 0 else zlen (Finish (ws_builder w));
  wi_filter : filter_seen n seen (ws_filter w);
  wi_seqs : is_u64 (ws_seqMin w) /\ is_u64 (ws_seqMax w)
}.

Definition small_run (es : list Entry) : Prop :=
  Forall Entry_wf es /\ Forall (fun e => Key e <> []) es /\ run_bytes es < 2 ^ 28.

Lemma flushBlock_frame w :
  flushBlock snappy_Encode name o w =
  (n ← file_write name (frame_data (Finish (ws_builder w))) err_write_data;
   mret (mkWriterState (Reset (ws_builder w)) (u64 (ws_offset w + n))
     (if bool_decide (0 < zlen (b_first (ws_builder w)))
      then ws_index w ++ [mkIndexEntry (b_first (ws_builder w)) (ws_offset w) (u32 n)] else ws_index w)
     (ws_counts w ++ [b_entryCount (ws_builder w)]) (ws_filter w) (ws_seqMin w) (ws_seqMax w))).
Proof. unfold flushBlock, frame_data. by destruct (CompressPayload _ _ _). Qed.

Lemma flushBlock_writes n w gs pending seen :
  winv n w gs pending seen -> pending <> [] -> small_run (grp_entries gs ++ pending) -> 0 <= BlockTargetBytes o ->
  exists w', writes name (flushBlock snappy_Encode name o w) (frame_data (Finish (ws_builder w))) w' /\
    winv n w' (gs ++ [(pending, Finish (ws_builder w))]) [] seen.
Proof.
  intros W Hne (Hwf & Hkey & Hsz) Ht. destruct W as [W1 W2 W3 W4 (items & W5 & W6) W7 W8 W9 W10 W11 W12].
  set (b := ws_builder w) in *. rewrite run_bytes_app in Hsz. apply Forall_app in Hkey as [_ Hkey].
  pose proof (grp_frames_size gs W4) as Hgs. pose proof (zlen_frame_data (Finish b)) as Hfr.
  assert (Hrp : 0 <= run_bytes pending) by (pose proof (run_bytes_ge pending); pose proof (zlen_nonneg pending); lia).
  assert (Hrg : 0 <= run_bytes (grp_entries gs))
    by (pose proof (run_bytes_ge (grp_entries gs)); pose proof (zlen_nonneg (grp_entries gs)); lia).
  pose proof (zlen_nonneg (grp_frames gs)). pose proof (zlen_nonneg (Finish b)).
  assert (Hfk : first_key pending <> []).
  { destruct pending as [|e es]; [done|]. by apply Forall_cons in Hkey as [Hk _]. }
  rewrite bool_decide_false in W10 by done.
  assert (Hz : 0 < zlen (b_first b)).
  { rewrite W7. destruct (first_key pending) as [|x l]; [done|]. rewrite zlen_cons. pose proof (zlen_nonneg l). lia. }
  eexists. split; [rewrite flushBlock_frame; eapply writes_bind_last; [apply writes_file|apply writes_ret]|].
  fold b. rewrite bool_decide_true by done.
  rewrite (u32_id (zlen (frame_data (Finish b)))) by (unfold is_u32; lia).
  rewrite W1, u64_id by (unfold is_u64; lia).
  assert (Hgrp : grp_ok (pending, Finish b)).
  { split; cbn [fst snd]; [done| |lia|rewrite <- W10; exact W9]. rewrite <- W6. apply Decode_rep; [exact W5|].
    rewrite zlen_Finish in W8. pose proof (zlen_nonneg (b_restartOffsets b)). lia. }
  split; cbn [ws_offset ws_index ws_counts ws_builder ws_filter ws_seqMin ws_seqMax].
  - rewrite grp_frames_app, zlen_app. unfold grp_frames at 3. cbn [map concat snd]. by rewrite app_nil_r.
  - rewrite index_from_snoc, W2, W7, Z.add_0_l. done.
  - rewrite map_app, W3. cbn [map fst]. rewrite (br_count _ _ W5), <- W6. unfold zlen. by rewrite length_map.
  - apply Forall_app. split; [done|]. by constructor.
  - exists []. split; [by eapply Reset_rep|done].
  - done.
  - done.
  - left. change (SizeBytes (Reset b)) with 0. lia.
  - done.
  - done.
  - done.
Qed.

Lemma filter_seen_add n seen f e :
  filter_seen n seen f -> exists f', Filter_Add f (Key e) = Ok f' /\ filter_seen n (seen ++ [e]) f'.
Proof.
  destruct f as [f|]; cbn [filter_seen].
  - intros (Hb & [Hok Hk Hbits] & Hsz & Hc).
    destruct (Filter_Add_spec f (Key e) Hok) as (f' & E & Hok' & Hk' & Hl' & Hnew & Hold).
    exists (Some f'). split; [done|]. cbn [filter_seen]. split; [done|].
    split; [split; [done|by rewrite Hk'|by rewrite Hl']|]. split; [by rewrite Hl'|].
    intros x [Hx| ->%list_elem_of_singleton]%elem_of_app; auto.
  - intros Hb. by exists None.
Qed.

Lemma first_key_snoc es e : first_key (es ++ [e]) = if bool_decide (es = []) then Key e else first_key es.
Proof. by destruct es. Qed.

(** Adding an entry to the builder. *)
Lemma add_builder_winv n w gs pending seen e :
  winv n w gs pending seen -> Entry_wf e -> Forall (fun e => Key e <> []) (pending ++ [e]) ->
  (pending = [] \/ SizeBytes (Add (ws_builder w) e) <= BlockTargetBytes o) ->
  winv n (with_builder (Add (ws_builder w) e) w) gs (pending ++ [e]) seen.
Proof.
  intros [W1 W2 W3 W4 (items & W5 & W6) W7 W8 W9 W10 W11 W12] He Hkey Hfit.
  destruct (Add_rep _ _ e W5 He) as (it & Hit & R & Hfirst).
  destruct (builder_Add_sizes _ _ e W5 He) as (_ & Hsz & _ & Hle).
  split; cbn [ws_offset ws_index ws_counts ws_builder ws_filter ws_seqMin ws_seqMax with_builder]; try done.
  - exists (items ++ [it]). split; [done|]. rewrite map_app, W6. cbn [map]. by rewrite Hit.
  - rewrite Hfirst, W7, first_key_snoc. destruct pending as [|x es]; [done|].
    rewrite (bool_decide_false (x :: es = [])) by done. cbn [first_key] in *.
    apply Forall_app in Hkey as [Hk _]. apply Forall_cons in Hk as [Hk _]. by rewrite bool_decide_false.
  - rewrite run_bytes_app. cbn [run_bytes fold_right]. unfold entry_bytes. lia.
  - destruct Hfit as [->|Hfit]; [right; by exists e|by left].
  - rewrite bool_decide_false by (by destruct pending). done.
Qed.

(** A progress of the writer: it appends some bytes, and the blocks and the
    pending entries afterwards hold the entries [all]. *)
Definition progress (n : Z) (m : SE FS WriterState) (gs : list grp) (all seen : list Entry)
    (P : WriterState -> list grp -> list Entry -> Prop) : Prop :=
  exists out w' gs' pending', writes name m out w' /\ winv n w' gs' pending' seen /\
    grp_entries gs' ++ pending' = all /\ grp_frames gs' = grp_frames gs ++ out /\ P w' gs' pending'.

Lemma flush_if n w gs pending seen (c : bool) :
  winv n w gs pending seen -> (c = true -> pending <> []) -> small_run (grp_entries gs ++ pending) ->
  0 <= BlockTargetBytes o ->
  progress n (if c then flushBlock snappy_Encode name o w else mret w) gs (grp_entries gs ++ pending) seen
    (fun w' gs' pending' => if c then pending' = [] else w' = w /\ gs' = gs /\ pending' = pending).
Proof.
  intros W Hc Hs Ht. destruct c.
  - destruct (flushBlock_writes n w gs pending seen W (Hc eq_refl) Hs Ht) as (w' & Hw & W').
    eexists _, w', _, []. split; [exact Hw|]. split; [exact W'|]. split; [|split; [|done]].
    + rewrite grp_entries_app, app_nil_r. unfold grp_entries at 2. cbn [map concat fst]. by rewrite app_nil_r.
    + rewrite grp_frames_app. unfold grp_frames at 2. cbn [map concat snd]. by rewrite app_nil_r.
  - exists [], w, gs, pending. split; [apply writes_ret|]. rewrite app_nil_r. done.
Qed.

Lemma estimate_above_eq (guard : bool) e limit w items :
  builder_rep (ws_builder w) items -> Entry_wf e ->
  estimate_above guard e limit w
  = (guard && bool_decide (limit < SizeBytes (Add (ws_builder w) e)), w).
Proof.
  intros R He. destruct (builder_Add_sizes _ _ e R He) as (H1 & _ & H3 & _). unfold estimate_above.
  destruct guard; [|done]. destruct (EstimatedSizeAfter (ws_builder w) e) as [n b]. cbn [fst snd] in *. subst.
  by destruct w.
Qed.

Lemma small_run_app a b : small_run (a ++ b) -> small_run a.
Proof.
  intros (H1 & H2 & H3). apply Forall_app in H1 as [H1 _]. apply Forall_app in H2 as [H2 _].
  rewrite run_bytes_app in H3. pose proof (run_bytes_ge b). pose proof (zlen_nonneg b). repeat split; [done|done|lia].
Qed.

Lemma add_entry_progress n w gs pending e :
  winv n w gs pending (grp_entries gs ++ pending) -> small_run (grp_entries gs ++ pending ++ [e]) ->
  0 <= BlockTargetBytes o ->
  progress n (add_entry snappy_Encode name o w e) gs (grp_entries gs ++ pending ++ [e])
    (grp_entries gs ++ pending ++ [e]) (fun _ _ _ => True).
Proof.
  intros W Hs Ht. pose proof Hs as (Hwf & Hkey & _). rewrite app_assoc in Hwf, Hkey.
  apply Forall_app in Hwf as [_ He]. apply Forall_inv in He.
  apply Forall_app in Hkey as [Hkeys Hk]. apply Forall_app in Hkeys as [_ Hkp].
  destruct (filter_seen_add n _ _ e (wi_filter _ _ _ _ _ W)) as (f & Ef & Hf). rewrite <- app_assoc in Hf.
  set (w1 := mkWriterState (ws_builder w) (ws_offset w) (ws_index w) (ws_counts w) f
               (Z.min (Seq e) (ws_seqMin w)) (Z.max (Seq e) (ws_seqMax w))).
  assert (W1 : winv n w1 gs pending (grp_entries gs ++ pending ++ [e])).
  { destruct W. split; try done. destruct He as [He _]. unfold is_u64 in *. cbn [w1 ws_seqMin ws_seqMax]. lia. }
  destruct (wi_builder _ _ _ _ _ W1) as (items & R1 & Hi1). set (b := ws_builder w1) in *.
  set (full := bool_decide (0 < SizeBytes b) && bool_decide (BlockTargetBytes o < SizeBytes (Add b e))).
  assert (Hpend : 0 < SizeBytes b <-> pending <> []).
  { pose proof (wi_size _ _ _ _ _ W1) as Hz. fold b in Hz. rewrite Hz. rewrite zlen_Finish.
    pose proof (zlen_nonneg (b_buf b)). pose proof (zlen_nonneg (b_restartOffsets b)).
    case_bool_decide as Hp; [split; [lia|done]|split; [done|lia]]. }
  rewrite app_assoc in Hs. pose proof (small_run_app _ _ Hs) as Hs1. rewrite <- app_assoc in Hs.
  destruct (flush_if n w1 gs pending _ full W1) as (out1 & w2 & gs2 & pend2 & Hw1 & W2 & E2 & F2 & P2); [|done|done|].
  { unfold full. intros [H _]%andb_true_iff. apply bool_decide_eq_true in H. by apply Hpend. }
  assert (Hfit : pend2 = [] \/ SizeBytes (Add (ws_builder w2) e) <= BlockTargetBytes o).
  { destruct full eqn:Hfull; [by left|]. destruct P2 as (-> & -> & ->). fold b. unfold full in Hfull.
    destruct (decide (pending = [])) as [?|Hp]; [by left|right]. apply andb_false_iff in Hfull as [H|H];
    apply bool_decide_eq_false in H; [apply Hpend in Hp; lia|lia]. }
  assert (Hk2 : Forall (fun e => Key e <> []) (pend2 ++ [e])).
  { apply Forall_app. split; [|done]. destruct full; [by rewrite P2|by destruct P2 as (_ & _ & ->)]. }
  pose proof (add_builder_winv n w2 gs2 pend2 _ e W2 He Hk2 Hfit) as W3.
  destruct (wi_builder _ _ _ _ _ W2) as (items2 & R2 & Hi2).
  set (large := bool_decide (SizeBytes (ws_builder w2) = 0) && bool_decide (BlockMaxBytes o < SizeBytes (Add (ws_builder w2) e))).
  set (w3 := with_builder (Add (ws_builder w2) e) w2) in *.
  assert (Hs3 : small_run (grp_entries gs2 ++ pend2 ++ [e])) by (rewrite app_assoc, E2, <- app_assoc; exact Hs).
  destruct (flush_if n w3 gs2 (pend2 ++ [e]) _ (large || bool_decide (BlockMaxBytes o <= SizeBytes (ws_builder w3))) W3)
    as (out2 & w4 & gs4 & pend4 & Hw2 & W4 & E4 & F4 & _); [intros _; by destruct pend2|done|done|].
  exists (out1 ++ out2), w4, gs4, pend4. split; [|split; [done|split; [|split; [|done]]]].
  - unfold add_entry. eapply writes_bind_nil; [by apply writes_lift|]. fold w1. fold b.
    rewrite (estimate_above_eq _ e _ w1 items R1 He). fold full. eapply writes_bind; [exact Hw1|].
    rewrite (estimate_above_eq _ e _ w2 items2 R2 He). fold large w3.
    destruct large; [exact Hw2|]. cbn [orb] in Hw2. case_bool_decide; exact Hw2.
  - rewrite E4, app_assoc, E2. by rewrite <- app_assoc.
  - rewrite F4, F2. by rewrite app_assoc.
Qed.

Lemma add_entries_progress n es : forall w gs pending,
  winv n w gs pending (grp_entries gs ++ pending) -> small_run (grp_entries gs ++ pending ++ es) ->
  0 <= BlockTargetBytes o ->
  progress n (add_entries snappy_Encode name o w es) gs (grp_entries gs ++ pending ++ es)
    (grp_entries gs ++ pending ++ es) (fun _ _ _ => True).
Proof.
  induction es as [|e es IH]; intros w gs pending W Hs Ht; cbn [add_entries].
  { rewrite app_nil_r. exists [], w, gs, pending. split; [apply writes_ret|]. by rewrite app_nil_r. }
  change (e :: es) with ([e] ++ es) in *. rewrite (app_assoc pending), (app_assoc (grp_entries gs)) in Hs.
  destruct (add_entry_progress n w gs pending e W (small_run_app _ _ Hs) Ht)
    as (out1 & w1 & gs1 & pend1 & Hw1 & W1 & E1 & F1 & _).
  rewrite <- E1 in W1, Hs. rewrite <- app_assoc in Hs.
  destruct (IH w1 gs1 pend1 W1 Hs Ht) as (out2 & w2 & gs2 & pend2 & Hw2 & W2 & E2 & F2 & _).
  assert (Eall : grp_entries gs1 ++ pend1 ++ es = grp_entries gs ++ pending ++ [e] ++ es)
    by (by rewrite (app_assoc (grp_entries gs1)), E1, <- !app_assoc).
  rewrite Eall in W2, E2. exists (out1 ++ out2), w2, gs2, pend2.
  split; [by eapply writes_bind|]. split; [done|]. split; [done|]. split; [|done].
  by rewrite F2, F1, app_assoc.
Qed.

Definition filter_fits (n : Z) : Prop := n * BloomBitsPerKey o <= 2 ^ 28.

Lemma write_blocks_writes es seqMin seqMax :
  es <> [] -> small_run es -> 0 <= BlockTargetBytes o -> filter_fits (zlen es) -> is_u64 seqMin -> is_u64 seqMax ->
  exists w gs, writes name (write_blocks snappy_Encode name o es seqMin seqMax) (grp_frames gs) w /\
    winv (zlen es) w gs [] es /\ grp_entries gs = es.
Proof.
  intros Hne Hs Ht Hf Hmin Hmax. unfold write_blocks.
  set (w0 := mkWriterState _ _ _ _ _ _ _).
  assert (W0 : winv (zlen es) w0 [] [] []).
  { split; try done.
    - exists []. split; [apply NewBuilder_rep|done].
    - left. change (SizeBytes (ws_builder w0)) with 0. done.
    - cbn [w0 ws_filter]. destruct (decide (BloomBitsPerKey o <= 0)) as [Hb|Hb].
      + unfold NewFilter. rewrite bool_decide_true by auto. done.
      + destruct (NewFilter_spec (zlen es) (BloomBitsPerKey o)) as (f & -> & Hwf & Hsz); [|lia|unfold filter_fits in Hf; lia|].
        { destruct es; [done|]. rewrite zlen_cons. pose proof (zlen_nonneg es). lia. }
        cbn [filter_seen]. split; [lia|]. split; [done|]. split; [done|]. by intros x ?%elem_of_nil. }
  destruct (add_entries_progress (zlen es) es w0 [] [] W0 Hs Ht) as (out1 & w1 & gs1 & pend1 & Hw1 & W1 & E1 & F1 & _).
  cbn [app] in E1, W1. change (grp_entries []) with (@nil Entry) in E1, W1. cbn [app] in E1, W1.
  destruct (flush_if (zlen es) w1 gs1 pend1 es (bool_decide (0 < SizeBytes (ws_builder w1))) W1)
    as (out2 & w2 & gs2 & pend2 & Hw2 & W2 & E2 & F2 & P2); [|by rewrite E1|done|].
  { intros H%bool_decide_eq_true. intros ->. rewrite (wi_size _ _ _ _ _ W1), bool_decide_true in H by done. lia. }
  assert (pend2 = []) as ->.
  { case_bool_decide as H; [done|]. destruct P2 as (_ & _ & ->). rewrite (wi_size _ _ _ _ _ W1), zlen_Finish in H.
    pose proof (zlen_nonneg (b_buf (ws_builder w1))). pose proof (zlen_nonneg (b_restartOffsets (ws_builder w1))).
    case_bool_decide; [done|lia]. }
  rewrite app_nil_r in E2. exists w2, gs2. split; [|split; [done|congruence]].
  rewrite F2, F1. change (grp_frames []) with (@nil byte). cbn [app]. eapply writes_bind; [exact Hw1|].
  case_bool_decide; exact Hw2.
Qed.

(** ** Partitions of the index *)

Definition plain_frame (typ : BlockType) (payload : bytes) : bytes :=
  EncodeBlock payload typ CompressionNone (u32 (zlen payload)).

Lemma zlen_plain_frame typ payload : zlen (plain_frame typ payload) = 14 + zlen payload.
Proof. apply zlen_EncodeBlock. Qed.

Definition index_frame (es : list IndexEntry) : bytes := plain_frame BlockTypeIndex (EncodeIndex es).
Definition index_key (es : list IndexEntry) : bytes := match es with [] => [] | e :: _ => ie_Key e end.

(** A bound on what an index takes, however it is partitioned. *)
Definition index_bytes (es : list IndexEntry) : Z := fold_right (fun e n => 30 + zlen (ie_Key e) + n) 0 es.

Lemma index_bytes_app a b : index_bytes (a ++ b) = index_bytes a + index_bytes b.
Proof.
  induction a as [|e a IH]; cbn [app index_bytes fold_right]; [done|]. fold (index_bytes (a ++ b)) (index_bytes a). lia.
Qed.

Lemma zlen_EncodeIndex es : es <> [] -> 14 + zlen (EncodeIndex es) <= index_bytes es /\ 0 <= zlen (EncodeIndex es).
Proof.
  intros H. split; [|apply zlen_nonneg]. destruct es as [|e es]; [done|]. clear H.
  revert e. induction es as [|x es IH]; intros e; unfold EncodeIndex; cbn [map concat index_bytes fold_right].
  - rewrite app_nil_r, zlen_encode_index_entry. unfold IndexHeaderSize. lia.
  - rewrite zlen_app, zlen_encode_index_entry. specialize (IH x). unfold EncodeIndex in IH.
    cbn [map concat index_bytes fold_right] in IH. unfold IndexHeaderSize. lia.
Qed.

Lemma zlen_index_frames cs :
  Forall (fun c => c <> []) cs -> 0 <= zlen (frames index_frame cs) <= index_bytes (concat cs).
Proof.
  induction 1 as [|c cs Hc H IH]; [done|]. rewrite frames_cons, zlen_app. cbn [concat]. rewrite index_bytes_app.
  unfold index_frame at 1 3. rewrite zlen_plain_frame. pose proof (zlen_EncodeIndex c Hc). lia.
Qed.

Lemma index_partitions_writes fuel : forall entries off,
  (length entries < fuel)%nat -> 0 < IndexPartitionEntries o -> 0 <= off -> off + index_bytes entries < 2 ^ 32 ->
  exists cs, concat cs = entries /\ Forall (fun c => c <> []) cs /\
    writes name (index_partitions name o fuel entries off) (frames index_frame cs)
      (index_of index_frame index_key off cs, off + zlen (frames index_frame cs)).
Proof.
  induction fuel as [|fuel IH]; intros entries off Hl Hp H0 Hoff; [lia|]. cbn [index_partitions].
  set (n := Z.to_nat (IndexPartitionEntries o)).
  destruct entries as [|e0 rest].
  { exists []. split; [done|]. split; [constructor|]. rewrite take_nil.
    change (frames index_frame []) with (@nil byte). rewrite zlen_nil, Z.add_0_r. apply writes_ret. }
  set (entries := e0 :: rest) in *. pose proof (take_drop n entries) as Htd.
  assert (Htake : exists c, take n entries = e0 :: c) by (subst n entries; destruct (Z.to_nat _) eqn:En; [lia|]; by eexists).
  destruct Htake as [c Hc]. rewrite Hc in *. set (part := e0 :: c) in *.
  rewrite <- Htd, index_bytes_app in Hoff. pose proof (zlen_EncodeIndex part ltac:(done)) as Hpart.
  assert (Hdrop : (length (drop n entries) < fuel)%nat).
  { rewrite length_drop. subst entries n. cbn [length] in *. lia. }
  assert (Hib : 0 <= index_bytes (drop n entries)).
  { clear. induction (drop n entries) as [|x l IH]; cbn [index_bytes fold_right]; [done|]. fold (index_bytes l).
    pose proof (zlen_nonneg (ie_Key x)). lia. }
  pose proof (zlen_plain_frame BlockTypeIndex (EncodeIndex part)) as Hfr. fold (index_frame part) in Hfr.
  destruct (IH (drop n entries) (off + zlen (index_frame part)) Hdrop Hp) as (cs & Ecs & Hne & Hw); [lia|lia|].
  exists (part :: cs). split; [cbn [concat]; by rewrite Ecs|]. split; [by constructor|].
  rewrite frames_cons. cbn [index_of]. eapply writes_bind; [apply writes_file|].
  fold (plain_frame BlockTypeIndex (EncodeIndex part)). fold (index_frame part).
  rewrite u64_id, u32_id by (unfold is_u64, is_u32; lia).
  eapply writes_bind_last; [exact Hw|]. rewrite zlen_app, Z.add_assoc. apply writes_ret.
Qed.

(** ** Partitions of the filter *)

Definition filter_frame (f : Filter) : bytes := plain_frame BlockTypeFilter (Filter_Encode (Some f)).

Lemma add_entry_keys_spec es : forall pre post f,
  add_entry_keys (pre ++ es ++ post) (zlen pre) (length es) f
  = (f' ← Filter_AddAll f (map Key es); Ok (zlen (pre ++ es), f')).
Proof.
  induction es as [|e es IH]; intros pre post f; cbn [length add_entry_keys map Filter_AddAll].
  { by rewrite app_nil_r. }
  replace (index (pre ++ (e :: es) ++ post) (zlen pre)) with (Ok e).
  2:{ unfold index, zlen. rewrite bool_decide_true by lia. rewrite Nat2Z.id. cbn [app]. by rewrite list_lookup_middle. }
  cbn [mbind result_bind]. destruct (Filter_Add f (Key e)) as [f1| | |]; cbn [mbind result_bind]; [|done..].
  specialize (IH (pre ++ [e]) post f1). rewrite <- !app_assoc in IH. cbn [app] in IH.
  rewrite zlen_app, zlen_cons, zlen_nil in IH. rewrite Z.add_0_r in IH. cbn [app]. rewrite IH. done.
Qed.

Lemma Filter_AddAll_app f a b : Filter_AddAll f (a ++ b) = (f' ← Filter_AddAll f a; Filter_AddAll f' b).
Proof.
  revert f. induction a as [|k a IH]; intros f; cbn [app Filter_AddAll]; [done|].
  destruct (Filter_Add f k); cbn [mbind result_bind]; [apply IH|done..].
Qed.

Lemma add_block_keys_spec gs : forall pre post f,
  add_block_keys (pre ++ grp_entries gs ++ post) (zlen pre) (map (fun g => zlen (fst g)) gs) f
  = (f' ← Filter_AddAll f (map Key (grp_entries gs)); Ok (zlen (pre ++ grp_entries gs), f')).
Proof.
  induction gs as [|g gs IH]; intros pre post f; cbn [map add_block_keys].
  { change (grp_entries []) with (@nil Entry). by rewrite app_nil_r. }
  change (grp_entries (g :: gs)) with (fst g ++ grp_entries gs). rewrite <- app_assoc, map_app, Filter_AddAll_app.
  replace (Z.to_nat (zlen (fst g))) with (length (fst g)) by (unfold zlen; lia). rewrite add_entry_keys_spec.
  destruct (Filter_AddAll f (map Key (fst g))) as [f1| | |]; cbn [mbind result_bind]; [|done..].
  specialize (IH (pre ++ fst g) post f1). rewrite <- !app_assoc in IH. rewrite IH. done.
Qed.

Lemma sum_Z_entries gs : sum_Z (map (fun g : grp => zlen (fst g)) gs) = zlen (grp_entries gs).
Proof.
  induction gs as [|g gs IH]; [done|]. cbn [map sum_Z fold_right]. fold (sum_Z (map (fun g : grp => zlen (fst g)) gs)).
  change (grp_entries (g :: gs)) with (fst g ++ grp_entries gs). rewrite zlen_app. lia.
Qed.

(** The blocks a partial filter covers, and the filter. *)
Abbreviation fpart := (list grp * Filter)%type.
Definition fpart_frame (c : fpart) : bytes := filter_frame (snd c).
Definition fpart_key (c : fpart) : bytes := match fst c with [] => [] | g :: _ => first_key (fst g) end.
Definition fpart_ok (c : fpart) : Prop :=
  fst c <> [] /\ filter_wf (snd c) /\ forall e, e ∈ grp_entries (fst c) -> MayContain (Some (snd c)) (Key e) = Ok true.

Definition filter_bytes (gs : list grp) : Z :=
  fold_right (fun g n => 23 + zlen (fst g) * BloomBitsPerKey o + n) 0 gs.

Lemma filter_bytes_app a b : filter_bytes (a ++ b) = filter_bytes a + filter_bytes b.
Proof.
  induction a as [|g a IH]; cbn [app filter_bytes fold_right]; [done|]. fold (filter_bytes (a ++ b)) (filter_bytes a). lia.
Qed.

Lemma filter_bytes_entries gs : filter_bytes gs = 23 * zlen gs + zlen (grp_entries gs) * BloomBitsPerKey o.
Proof.
  induction gs as [|g gs IH]; [done|]. cbn [filter_bytes fold_right]. fold (filter_bytes gs).
  change (grp_entries (g :: gs)) with (fst g ++ grp_entries gs). rewrite zlen_cons, zlen_app. lia.
Qed.

Lemma zlen_filter_frame f n :
  zlen (f_bits f) <= 8 + n * BloomBitsPerKey o -> zlen (filter_frame f) <= 23 + n * BloomBitsPerKey o.
Proof. intros H. unfold filter_frame. rewrite zlen_plain_frame. cbn [Filter_Encode]. rewrite zlen_cons. lia. Qed.

(** The filter of one partition. *)
Lemma part_filter dn c post :
  c <> [] -> Forall grp_ok c -> 0 < BloomBitsPerKey o -> filter_bytes c <= 2 ^ 31 ->
  exists f, add_block_keys (grp_entries dn ++ grp_entries c ++ post) (zlen (grp_entries dn))
              (map (fun g => zlen (fst g)) c) (NewFilter (sum_Z (map (fun g : grp => zlen (fst g)) c)) (BloomBitsPerKey o))
            = Ok (zlen (grp_entries (dn ++ c)), Some f) /\
    fpart_ok (c, f) /\ zlen (filter_frame f) <= filter_bytes c.
Proof.
  intros Hc Hok Hb Hsz. rewrite sum_Z_entries, add_block_keys_spec. rewrite filter_bytes_entries in *.
  assert (Hn : 0 < zlen (grp_entries c)).
  { destruct c as [|g c]; [done|]. apply Forall_inv in Hok. destruct (fst g) as [|e es] eqn:Eg.
    - destruct (go_first _ Hok). by rewrite Eg.
    - change (grp_entries (g :: c)) with (fst g ++ grp_entries c). rewrite Eg. cbn [app]. rewrite zlen_cons.
      pose proof (zlen_nonneg (es ++ grp_entries c)). lia. }
  pose proof (zlen_pos _ Hc).
  destruct (build_filter_spec (map Key (grp_entries c)) (zlen (grp_entries c)) (BloomBitsPerKey o))
    as (f & -> & Hwf & Hl & Hm); [done|done|lia|].
  exists f. rewrite grp_entries_app. split; [done|]. split; [split; [done|split; [done|]]|].
  - intros e He. apply Hm. by apply (list_elem_of_fmap_2 Key).
  - pose proof (zlen_filter_frame f _ Hl). lia.
Qed.

Lemma filter_partitions_writes fuel gs : forall dn todo off,
  gs = dn ++ todo -> (length todo < fuel)%nat -> Forall grp_ok gs -> 0 < IndexPartitionEntries o ->
  0 < BloomBitsPerKey o -> 0 <= off -> off + filter_bytes todo <= 2 ^ 31 ->
  exists cs, concat (map fst cs) = todo /\ Forall fpart_ok cs /\ zlen (frames fpart_frame cs) <= filter_bytes todo /\
    writes name (filter_partitions fuel name (grp_entries gs) (index_from 0 gs) (map (fun g => zlen (fst g)) gs)
                   (IndexPartitionEntries o) (BloomBitsPerKey o) (zlen dn) (zlen (grp_entries dn)) off)
      (frames fpart_frame cs) (index_of fpart_frame fpart_key off cs, off + zlen (frames fpart_frame cs)).
Proof.
  induction fuel as [|fuel IH]; intros dn todo off E Hl Hok Hp Hb H0 Hoff; [lia|]. cbn [filter_partitions].
  assert (Ez : zlen (map (fun g : grp => zlen (fst g)) gs) = zlen dn + zlen todo).
  { rewrite E. unfold zlen. rewrite length_map, length_app. lia. }
  rewrite Ez. destruct (decide (todo = [])) as [->|Hne].
  { exists []. change (zlen (@nil grp)) with 0. rewrite bool_decide_true by lia.
    split; [done|]. split; [constructor|]. split; [done|].
    change (frames fpart_frame []) with (@nil byte). rewrite zlen_nil, Z.add_0_r. apply writes_ret. }
  pose proof (zlen_pos _ Hne). rewrite bool_decide_false by lia.
  set (n := Z.to_nat (IndexPartitionEntries o)). set (c := take n todo). set (rest := drop n todo).
  assert (Etodo : todo = c ++ rest) by (symmetry; apply take_drop).
  assert (Hc : c <> []) by (subst c n; destruct todo; [done|]; destruct (Z.to_nat _) eqn:?; [lia|done]).
  assert (Hstop : Z.min (zlen dn + IndexPartitionEntries o) (zlen dn + zlen todo) = zlen (dn ++ c)).
  { rewrite zlen_app. subst c n. unfold zlen. rewrite length_take. lia. }
  rewrite Hstop. rewrite Etodo, filter_bytes_app in Hoff.
  assert (Hokt : Forall grp_ok c /\ Forall grp_ok rest) by (rewrite E, Etodo, !Forall_app in Hok; tauto).
  assert (Hfb : forall l : list grp, 0 <= filter_bytes l)
    by (intros l; rewrite filter_bytes_entries; pose proof (zlen_nonneg l); pose proof (zlen_nonneg (grp_entries l)); nia).
  destruct (part_filter dn c (grp_entries rest) Hc (proj1 Hokt) Hb) as (f & Ef & Hf & Hfl); [specialize (Hfb rest); lia|].
  pose proof (zlen_plain_frame BlockTypeFilter (Filter_Encode (Some f))) as Hfr. fold (filter_frame f) in Hfr.
  pose proof (zlen_nonneg (Filter_Encode (Some f))) as Hfe. pose proof (Hfb rest) as Hrest.
  destruct (IH (dn ++ c) rest (off + zlen (filter_frame f))) as (cs & Ecs & Hcs & Hfl2 & Hw); auto; [..|lia|lia|].
  { by rewrite <- app_assoc, <- Etodo. }
  { subst rest. rewrite length_drop. subst n. destruct todo; [done|]. cbn [length] in *. lia. }
  exists ((c, f) :: cs). split; [cbn [map concat fst]; congruence|]. split; [by constructor|].
  rewrite frames_cons, zlen_app. change (fpart_frame (c, f)) with (filter_frame f).
  split; [rewrite Etodo, filter_bytes_app; lia|].
  eapply writes_bind_nil; [apply writes_lift|].
  { rewrite E, Etodo, !map_app. rewrite zlen_app.
    apply (slice_mid _ (map (fun g => zlen (fst g)) dn) (map (fun g => zlen (fst g)) c) (map (fun g => zlen (fst g)) rest));
      [done|unfold zlen; by rewrite length_map|unfold zlen; by rewrite !length_map]. }
  eapply writes_bind_nil; [apply writes_lift|].
  { rewrite E, Etodo at 1. rewrite !grp_entries_app. exact Ef. }
  cbv beta iota. eapply writes_bind; [apply writes_file|].
  fold (plain_frame BlockTypeFilter (Filter_Encode (Some f))). fold (filter_frame f).
  destruct c as [|g c'] eqn:Ec; [done|].
  eapply writes_bind_nil; [apply writes_lift|].
  { rewrite E, Etodo. cbn [app]. unfold index_from. rewrite index_of_app. cbn [index_of]. unfold index, zlen.
    rewrite bool_decide_true by lia. rewrite Nat2Z.id.
    rewrite list_lookup_middle by (by rewrite index_of_length). reflexivity. }
  rewrite u64_id, u32_id by (unfold is_u64, is_u32; lia).
  eapply writes_bind_last; [exact Hw|]. cbn [index_of fpart_key fst]. rewrite Z.add_assoc. apply writes_ret.
Qed.

(** ** The file *)

(** How the filter and the index are stored. *)
Inductive filter_plan := NoFilter | WholeFilter (f : Filter) | PartFilter (cs : list fpart).
Inductive index_plan := WholeIndex | PartIndex (cs : list (list IndexEntry)).

Record plans_ok (gs : list grp) (fp : filter_plan) (ip : index_plan) : Prop := {
  po_filter : match fp with
              | NoFilter => True
              | WholeFilter f => filter_wf f /\ forall e, e ∈ grp_entries gs -> MayContain (Some f) (Key e) = Ok true
              | PartFilter cs => concat (map fst cs) = gs /\ Forall fpart_ok cs
              end;
  po_index : match ip with
             | WholeIndex => True
             | PartIndex cs => concat cs = index_from 0 gs /\ Forall (fun c => c <> []) cs
             end
}.

Definition filter_section (fp : filter_plan) : bytes :=
  match fp with NoFilter => [] | WholeFilter f => filter_frame f | PartFilter cs => frames fpart_frame cs end.
Definition index_section (ip : index_plan) : bytes :=
  match ip with WholeIndex => [] | PartIndex cs => frames index_frame cs end.

Section Layout.
Context (gs : list grp) (fp : filter_plan) (ip : index_plan).

Definition off_filter : Z := zlen (grp_frames gs).
Definition off_parts : Z := off_filter + zlen (filter_section fp).
Definition top_index : list IndexEntry :=
  match ip with WholeIndex => index_from 0 gs | PartIndex cs => index_of index_frame index_key off_parts cs end.
Definition off_index : Z := off_parts + zlen (index_section ip).
Definition off_findex : Z := off_index + zlen (index_frame top_index).
Definition filter_index : list IndexEntry :=
  match fp with PartFilter cs => index_of fpart_frame fpart_key off_filter cs | _ => [] end.
Definition findex_section : bytes :=
  match fp with PartFilter _ => plain_frame BlockTypeFilter (EncodeIndex filter_index) | _ => [] end.
Definition off_meta : Z := off_findex + zlen findex_section.
Definition bloom_ref : Z * Z :=
  match fp with
  | NoFilter => (0, 0)
  | WholeFilter f => (off_filter, zlen (filter_frame f))
  | PartFilter _ => (off_findex, zlen findex_section)
  end.
Definition footer_flags : byte :=
  byte_of_Z (Z.lor (match ip with PartIndex _ => FooterFlagIndexPartitioned | WholeIndex => 0 end)
                   (match fp with PartFilter _ => FooterFlagFilterPartitioned | _ => 0 end)).

(** The meta block has the bloom reference of the plan. *)
Definition table_file (m : Meta) : bytes :=
  grp_frames gs ++ filter_section fp ++ index_section ip ++ index_frame top_index ++ findex_section ++
  plain_frame BlockTypeMeta (EncodeMeta m) ++
  EncodeFooter (mkFooter footer_flags off_index (zlen (index_frame top_index)) off_meta
                  (zlen (plain_frame BlockTypeMeta (EncodeMeta m)))).
End Layout.

(** ** Bounds *)

Lemma index_bytes_nonneg es : 0 <= index_bytes es.
Proof.
  induction es as [|e es IH]; cbn [index_bytes fold_right]; [done|]. fold (index_bytes es).
  pose proof (zlen_nonneg (ie_Key e)). lia.
Qed.

Lemma index_bytes_gs gs : forall off, Forall grp_ok gs -> index_bytes (index_from off gs) <= 2 * run_bytes (grp_entries gs).
Proof.
  unfold index_from. induction gs as [|g gs IH]; intros off Hok; [done|]. apply Forall_cons in Hok as [Hg Hok].
  cbn [index_of index_bytes fold_right ie_Key]. change (grp_entries (g :: gs)) with (fst g ++ grp_entries gs).
  rewrite run_bytes_app. specialize (IH (off + zlen (frame_data (snd g))) Hok). unfold index_bytes in IH.
  pose proof (go_first _ Hg) as Hf. destruct (fst g) as [|e es]; [done|].
  cbn [first_key run_bytes fold_right] in *. fold (run_bytes es).
  pose proof (run_bytes_ge es). pose proof (zlen_nonneg es). unfold entry_bytes.
  pose proof (zlen_nonneg (Key e)). pose proof (zlen_nonneg (Value e)). lia.
Qed.

Lemma index_bytes_parts cs : forall off,
  Forall (fun c => c <> []) cs -> index_bytes (index_of index_frame index_key off cs) <= index_bytes (concat cs).
Proof.
  induction cs as [|c cs IH]; intros off Hne; [done|]. apply Forall_cons in Hne as [Hc Hne].
  cbn [index_of index_bytes fold_right ie_Key concat]. fold (index_bytes (index_of index_frame index_key (off + zlen (index_frame c)) cs)).
  rewrite index_bytes_app. specialize (IH (off + zlen (index_frame c)) Hne).
  destruct c as [|e c]; [done|]. cbn [index_key index_bytes fold_right]. fold (index_bytes c).
  pose proof (index_bytes_nonneg c). lia.
Qed.

Lemma index_from_key_bytes gs off off' : index_bytes (index_from off gs) = index_bytes (index_from off' gs).
Proof.
  unfold index_from. revert off off'. induction gs as [|g gs IH]; intros off off'; [done|].
  cbn [index_of index_bytes fold_right ie_Key]. f_equal. apply IH.
Qed.

Lemma index_bytes_fparts cs : forall off,
  Forall fpart_ok cs -> index_bytes (index_of fpart_frame fpart_key off cs) <= index_bytes (index_from 0 (concat (map fst cs))).
Proof.
  induction cs as [|c cs IH]; intros off Hok; [done|]. apply Forall_cons in Hok as [(Hc & _) Hok].
  cbn [index_of map concat]. unfold index_from. rewrite index_of_app, index_bytes_app. fold index_from.
  rewrite (index_from_key_bytes (concat (map fst cs)) _ 0). cbn [index_bytes fold_right ie_Key].
  fold (index_bytes (index_of fpart_frame fpart_key (off + zlen (fpart_frame c)) cs)).
  specialize (IH (off + zlen (fpart_frame c)) Hok).
  assert (Hk : exists g l, fst c = g :: l /\ fpart_key c = first_key (fst g))
    by (unfold fpart_key; destruct (fst c); [done|eauto]).
  destruct Hk as (g & l & -> & ->).
  assert (Hcons : index_bytes (index_from 0 (g :: l))
    = 30 + zlen (first_key (fst g)) + index_bytes (index_from (0 + zlen (frame_data (snd g))) l)) by done.
  pose proof (index_bytes_nonneg (index_from (0 + zlen (frame_data (snd g))) l)).
  lia.
Qed.

Record sizes_ok (gs : list grp) (fp : filter_plan) : Prop := {
  so_run : run_bytes (grp_entries gs) < 2 ^ 28;
  so_filter : zlen (filter_section fp) <= 2 ^ 29;
  so_nonempty : gs <> []
}.

(** Every section of the file and every offset is small. *)
Lemma layout_sizes gs fp ip :
  Forall grp_ok gs -> plans_ok gs fp ip -> sizes_ok gs fp ->
  0 <= off_filter gs <= 5 * 2 ^ 28 /\ off_filter gs <= off_parts gs fp <= 7 * 2 ^ 28 /\
  off_parts gs fp <= off_index gs fp ip <= 9 * 2 ^ 28 /\
  off_index gs fp ip + 14 <= off_findex gs fp ip <= 11 * 2 ^ 28 /\
  off_findex gs fp ip <= off_meta gs fp ip <= 13 * 2 ^ 28 /\
  zlen (index_frame (top_index gs fp ip)) <= 2 * 2 ^ 28 /\ zlen (findex_section gs fp) <= 2 * 2 ^ 28.
Proof.
  intros Hg [Pf Pi] [S1 S2 S3]. pose proof (grp_frames_size gs Hg) as HD. pose proof (index_bytes_gs gs 0 Hg) as HI.
  unfold off_meta, off_findex, off_index, off_parts, off_filter.
  pose proof (zlen_nonneg (grp_frames gs)). pose proof (zlen_nonneg (filter_section fp)).
  assert (Hne : index_from 0 gs <> []) by (by destruct gs).
  assert (Hsec : 0 <= zlen (index_section ip) <= 2 * 2 ^ 28).
  { destruct ip as [|cs]; cbn [index_section]; [by split|]. destruct Pi as [Ec Hc].
    pose proof (zlen_index_frames cs Hc). rewrite Ec in *. lia. }
  assert (Htop : 14 <= zlen (index_frame (top_index gs fp ip)) <= 2 * 2 ^ 28).
  { unfold index_frame. rewrite zlen_plain_frame. unfold top_index. destruct ip as [|cs].
    - pose proof (zlen_EncodeIndex _ Hne). lia.
    - destruct Pi as [Ec Hc]. pose proof (index_bytes_parts cs (off_parts gs fp) Hc). rewrite Ec in *.
      assert (Hcs : index_of index_frame index_key (off_parts gs fp) cs <> []) by (destruct cs; [cbn in Ec; congruence|done]).
      pose proof (zlen_EncodeIndex _ Hcs). lia. }
  assert (Hfi : 0 <= zlen (findex_section gs fp) <= 2 * 2 ^ 28).
  { unfold findex_section. destruct fp as [|f|cs]; [by split..|]. destruct Pf as [Ec Hc].
    rewrite zlen_plain_frame. cbn [filter_index]. pose proof (index_bytes_fparts cs (off_filter gs) Hc) as Hb. rewrite Ec in Hb.
    assert (Hcs : index_of fpart_frame fpart_key (off_filter gs) cs <> []) by (destruct cs; [cbn in Ec; congruence|done]).
    pose proof (zlen_EncodeIndex _ Hcs). lia. }
  lia.
Qed.

(** ** Writing the file *)

(** The filter blocks: what is written, the reference for the meta block as
    far as it is known, and the index of the parts. *)
Lemma write_filters gs w (partitioned : bool) :
  winv (zlen (grp_entries gs)) w gs [] (grp_entries gs) -> gs <> [] -> run_bytes (grp_entries gs) < 2 ^ 28 ->
  filter_fits (zlen (grp_entries gs)) -> (partitioned = true -> 0 < IndexPartitionEntries o) ->
  let fparted := bool_decide (partitioned = true /\ ws_filter w <> None /\ FilterPartitioned o = true) in
  exists fp bo bl,
    writes name
      (match ws_filter w with
       | None => mret (0, 0, [], ws_offset w)
       | Some _ =>
           if fparted then
             '(fi, offset) ← WritePartitionedBloomFilters name (grp_entries gs) (ws_index w) (ws_counts w)
                               (IndexPartitionEntries o) (BloomBitsPerKey o) (ws_offset w);
             mret (0, 0, fi, offset)
           else
             '(bo, bl, offset) ← WriteBloomBlock name (ws_filter w) (ws_offset w);
             mret (bo, bl, [], offset)
       end) (filter_section fp) (bo, bl, filter_index gs fp, off_parts gs fp) /\
    plans_ok gs fp WholeIndex /\ zlen (filter_section fp) <= 2 ^ 29 /\
    (if fparted then exists cs, fp = PartFilter cs else (forall cs, fp <> PartFilter cs) /\ (bo, bl) = bloom_ref gs fp WholeIndex).
Proof.
  intros W Hne Hr Hf Hp fparted. pose proof (wi_filter _ _ _ _ _ W) as HF.
  pose proof (grp_frames_size gs (wi_groups _ _ _ _ _ W)) as HD. pose proof (zlen_nonneg (grp_frames gs)).
  pose proof (wi_offset _ _ _ _ _ W) as Ho. fold (off_filter gs) in Ho.
  destruct (ws_filter w) as [f|] eqn:Ef; cbn [filter_seen] in HF.
  - destruct HF as (Hb & Hwf & Hl & Hc). destruct fparted eqn:Hfp.
    + unfold fparted in Hfp. apply bool_decide_eq_true in Hfp as (Hpt & _ & _). specialize (Hp Hpt).
      unfold WritePartitionedBloomFilters. rewrite (wi_index _ _ _ _ _ W), (wi_counts _ _ _ _ _ W).
      rewrite bool_decide_false by (destruct gs; [done|]; intros [?|[?|?]]; [done|done|lia]).
      assert (Hsz : filter_bytes gs <= 2 ^ 29).
      { rewrite filter_bytes_entries. unfold filter_fits in Hf.
        assert (zlen gs <= zlen (grp_entries gs)).
        { pose proof (wi_groups _ _ _ _ _ W) as Hg. clear -Hg. induction Hg as [|g gs Hg1 Hg IH]; [done|].
          change (grp_entries (g :: gs)) with (fst g ++ grp_entries gs). rewrite zlen_cons, zlen_app.
          pose proof (go_first _ Hg1). destruct (fst g); [done|]. rewrite zlen_cons. pose proof (zlen_nonneg l). lia. }
        pose proof (run_bytes_ge (grp_entries gs)). lia. }
      destruct (filter_partitions_writes (S (length (map (fun g : grp => zlen (fst g)) gs))) gs [] gs (ws_offset w))
        as (cs & Ecs & Hcs & Hsz2 & Hw); auto; [rewrite length_map; lia|apply (wi_groups _ _ _ _ _ W)|..].
      { rewrite Ho. unfold off_filter. lia. }
      { rewrite Ho. unfold off_filter. lia. }
      exists (PartFilter cs), 0, 0. cbn [filter_section filter_index]. split; [|split; [by split|split; [lia|eauto]]].
      eapply writes_bind_last; [exact Hw|]. unfold off_parts. rewrite Ho. apply writes_ret.
    + exists (WholeFilter f), (off_filter gs), (zlen (filter_frame f)). cbn [filter_section filter_index].
      pose proof (zlen_filter_frame f _ Hl) as Hfl. unfold filter_fits in Hf.
      pose proof (zlen_nonneg (Filter_Encode (Some f))) as Hfe.
      pose proof (zlen_plain_frame BlockTypeFilter (Filter_Encode (Some f))) as Hfr. fold (filter_frame f) in Hfr.
      split; [|split; [by split|split; [lia|by split]]].
      unfold WriteBloomBlock. eapply writes_bind_last.
      * eapply writes_bind_last; [apply writes_file|apply writes_ret].
      * fold (plain_frame BlockTypeFilter (Filter_Encode (Some f))). fold (filter_frame f).
        rewrite Ho, u32_id, u64_id by (unfold is_u32, is_u64, off_filter; lia). apply writes_ret.
  - exists NoFilter, 0, 0. cbn [filter_section filter_index].
    assert (fparted = false) as -> by (unfold fparted; apply bool_decide_false; naive_solver).
    split; [|split; [by split|split; [done|by split]]].
    unfold off_parts. cbn [filter_section]. change (zlen (@nil byte)) with 0. rewrite Z.add_0_r, Ho. apply writes_ret.
Qed.

(** The meta block of a table. *)
Record meta_ok (gs : list grp) (fp : filter_plan) (ip : index_plan) (minKey maxKey : bytes) (m : Meta) : Prop := {
  mo_min : MinKey m = minKey;
  mo_max : MaxKey m = maxKey;
  mo_count : EntryCount m = u64 (zlen (grp_entries gs));
  mo_seqs : is_u64 (SeqMin m) /\ is_u64 (SeqMax m);
  mo_comp : MetaCompression m = opt_Compression o;
  mo_bits : 0 <= BloomBits m < 2 ^ 16;
  mo_bloom : (BloomOffset m, BloomLen m) = bloom_ref gs fp ip
}.

Lemma plans_ok_index gs fp cs :
  plans_ok gs fp WholeIndex -> concat cs = index_from 0 gs -> Forall (fun c => c <> []) cs -> plans_ok gs fp (PartIndex cs).
Proof. intros [H _] H1 H2. by split. Qed.

(** The index partitions, if there are any. *)
Lemma write_index_parts gs fp (partitioned : bool) :
  Forall grp_ok gs -> plans_ok gs fp WholeIndex -> sizes_ok gs fp -> (partitioned = true -> 0 < IndexPartitionEntries o) ->
  exists ip, plans_ok gs fp ip /\ (ip = WholeIndex <-> partitioned = false) /\
    writes name (if partitioned then index_partitions name o (S (length (index_from 0 gs))) (index_from 0 gs) (off_parts gs fp)
                 else mret (index_from 0 gs, off_parts gs fp)) (index_section ip) (top_index gs fp ip, off_index gs fp ip).
Proof.
  intros Hg Hpl Hso Hp. pose proof (index_bytes_gs gs 0 Hg) as HI.
  destruct (layout_sizes gs fp WholeIndex Hg Hpl Hso) as (L1 & L2 & _). destruct Hso as [Hr _ _].
  destruct partitioned.
  - destruct (index_partitions_writes (S (length (index_from 0 gs))) (index_from 0 gs) (off_parts gs fp))
      as (cs & Ecs & Hcs & Hwi); [lia|by apply Hp|lia|lia|].
    exists (PartIndex cs). split; [by apply plans_ok_index|]. split; [done|exact Hwi].
  - exists WholeIndex. split; [done|]. split; [done|]. unfold off_index. cbn [index_section].
    change (zlen (@nil byte)) with 0. rewrite Z.add_0_r. apply writes_ret.
Qed.

(** The index of the filter parts, and the reference to the filter. *)
Lemma write_findex gs fp ip (fparted : bool) bo bl :
  Forall grp_ok gs -> plans_ok gs fp ip -> sizes_ok gs fp ->
  (if fparted then exists cs, fp = PartFilter cs else (forall cs, fp <> PartFilter cs) /\ (bo, bl) = bloom_ref gs fp WholeIndex) ->
  writes name
    (if bool_decide (fparted = true /\ 0 < zlen (filter_index gs fp)) then
       n ← write_framed name (EncodeIndex (filter_index gs fp)) BlockTypeFilter err_write_filter;
       mret (off_findex gs fp ip, u32 n, u64 (off_findex gs fp ip + n))
     else mret (bo, bl, off_findex gs fp ip)) (findex_section gs fp)
    (fst (bloom_ref gs fp ip), snd (bloom_ref gs fp ip), off_meta gs fp ip).
Proof.
  intros Hg Hpl Hso Hfpt. destruct (layout_sizes gs fp ip Hg Hpl Hso) as (L1 & L2 & L3 & L4 & L5).
  unfold off_meta in *. destruct fparted.
  - destruct Hfpt as [cs ->]. destruct Hpl as [[Ec Hc] _]. destruct Hso as [_ _ Hgs].
    assert (Hcs : filter_index gs (PartFilter cs) <> []) by (cbn [filter_index]; destruct cs; [cbn in Ec; congruence|done]).
    rewrite bool_decide_true by (split; [done|by apply zlen_pos]). cbn [findex_section bloom_ref fst snd] in *.
    eapply writes_bind_last; [apply writes_file|].
    fold (plain_frame BlockTypeFilter (EncodeIndex (filter_index gs (PartFilter cs)))).
    rewrite zlen_plain_frame in *. pose proof (zlen_nonneg (EncodeIndex (filter_index gs (PartFilter cs)))).
    rewrite u32_id, u64_id by (unfold is_u32, is_u64; lia). apply writes_ret.
  - destruct Hfpt as [Hnp Hbl]. rewrite bool_decide_false by naive_solver.
    assert (findex_section gs fp = []) as -> by (destruct fp; [done|done|by destruct (Hnp cs)]).
    assert (bloom_ref gs fp ip = (bo, bl)) as -> by (rewrite Hbl; destruct fp; [done|done|by destruct (Hnp cs)]).
    change (zlen (@nil byte)) with 0. rewrite Z.add_0_r. apply writes_ret.
Qed.

(** The sequence numbers of a table: [lo] and [hi] are where the loop over
    the entries starts. *)
Definition seq_low (lo : Z) (es : list Entry) : Z := fold_left (fun a e => Z.min (Seq e) a) es lo.
Definition seq_high (hi : Z) (es : list Entry) : Z := fold_left (fun a e => Z.max (Seq e) a) es hi.

Definition seqs_are (lo hi : Z) (w : WriterState) : Prop := ws_seqMin w = lo /\ ws_seqMax w = hi.

Lemma flushBlock_seqs lo hi w : seqs_are lo hi w -> ensures (flushBlock snappy_Encode name o w) (seqs_are lo hi).
Proof.
  intros H. unfold flushBlock. destruct (CompressPayload _ _ _) as [c u]. cbv zeta.
  eapply ensures_bind; [apply ensures_any|]. intros n _. by apply ensures_ret.
Qed.

Lemma estimate_seqs lo hi guard e limit w : seqs_are lo hi w -> seqs_are lo hi (snd (estimate_above guard e limit w)).
Proof. intros H. unfold estimate_above. destruct guard; [|done]. by destruct (EstimatedSizeAfter (ws_builder w) e). Qed.

Lemma add_entry_seqs lo hi w e :
  seqs_are lo hi w -> ensures (add_entry snappy_Encode name o w e) (seqs_are (Z.min (Seq e) lo) (Z.max (Seq e) hi)).
Proof.
  intros [<- <-]. unfold add_entry. eapply ensures_bind; [apply ensures_any|]. intros f _. cbv zeta. set (w1 := mkWriterState _ _ _ _ _ _ _).
  assert (H1 : seqs_are (Z.min (Seq e) (ws_seqMin w)) (Z.max (Seq e) (ws_seqMax w)) w1) by done. clearbody w1.
  pose proof (estimate_seqs _ _ (bool_decide (0 < SizeBytes (ws_builder w1))) e (BlockTargetBytes o) w1 H1) as H2.
  destruct (estimate_above _ e (BlockTargetBytes o) w1) as [full w2]. cbn [snd] in H2.
  eapply ensures_bind; [destruct full; [by apply flushBlock_seqs|by apply ensures_ret]|]. intros w3 H3. cbv beta.
  pose proof (estimate_seqs _ _ (bool_decide (SizeBytes (ws_builder w3) = 0)) e (BlockMaxBytes o) w3 H3) as H4.
  destruct (estimate_above _ e (BlockMaxBytes o) w3) as [large w4]. cbn [snd] in H4.
  destruct large; [by apply flushBlock_seqs|]. case_bool_decide; [by apply flushBlock_seqs|by apply ensures_ret].
Qed.

Lemma add_entries_seqs es : forall lo hi w,
  seqs_are lo hi w -> ensures (add_entries snappy_Encode name o w es) (seqs_are (seq_low lo es) (seq_high hi es)).
Proof.
  induction es as [|e es IH]; intros lo hi w H; cbn [add_entries]; [by apply ensures_ret|].
  eapply ensures_bind; [by apply (add_entry_seqs lo hi)|]. intros w' H'. by apply IH.
Qed.

Lemma write_blocks_seqs es lo hi :
  ensures (write_blocks snappy_Encode name o es lo hi) (seqs_are (seq_low lo es) (seq_high hi es)).
Proof.
  unfold write_blocks. eapply ensures_bind; [by apply (add_entries_seqs es lo hi)|]. intros w H.
  case_bool_decide; [by apply flushBlock_seqs|by apply ensures_ret].
Qed.

Lemma writes_ensures {A} (m : SE FS A) out a (P : A -> Prop) : writes name m out a -> ensures m P -> P a.
Proof. intros Hw Hr. exact (Hr _ _ _ (Hw (mkFS {[name := []]} [] 0) [] eq_refl (lookup_singleton_eq _ _))). Qed.

Lemma write_table_writes es minKey maxKey seqMin seqMax :
  es <> [] -> small_run es -> 0 <= BlockTargetBytes o -> filter_fits (zlen es) -> is_u64 seqMin -> is_u64 seqMax ->
  zlen minKey + zlen maxKey < 2 ^ 28 ->
  exists gs fp ip m, grp_entries gs = es /\ Forall grp_ok gs /\ plans_ok gs fp ip /\ sizes_ok gs fp /\
    meta_ok gs fp ip minKey maxKey m /\ SeqMin m = seq_low seqMin es /\ SeqMax m = seq_high seqMax es /\
    writes name (write_table snappy_Encode name o es minKey maxKey seqMin seqMax) (table_file gs fp ip m) tt.
Proof.
  intros Hne Hs Ht Hf Hmin Hmax Hkeys.
  destruct (write_blocks_writes es seqMin seqMax Hne Hs Ht Hf Hmin Hmax) as (w & gs & Hw & W & <-).
  assert (Hgs : gs <> []) by (intros ->; by apply Hne).
  destruct Hs as (_ & _ & Hr). set (index := index_from 0 gs).
  set (partitioned := bool_decide (0 < IndexPartitionEntries o /\ IndexPartitionEntries o < zlen index)).
  destruct (write_filters gs w partitioned W Hgs Hr Hf) as (fp & bo & bl & Hwf & Hpl & Hfs & Hfpt).
  { unfold partitioned. intros H%bool_decide_eq_true. tauto. }
  set (fparted := bool_decide (partitioned = true /\ ws_filter w <> None /\ FilterPartitioned o = true)) in *.
  assert (Hso : sizes_ok gs fp) by (by split).
  destruct (write_index_parts gs fp partitioned (wi_groups _ _ _ _ _ W) Hpl Hso) as (ip & Hpl2 & Hipt & Hwi).
  { unfold partitioned. intros H%bool_decide_eq_true. tauto. }
  destruct (layout_sizes gs fp ip (wi_groups _ _ _ _ _ W) Hpl2 Hso) as (L1 & L2 & L3 & L4 & L5).
  set (m := mkMeta minKey maxKey (u64 (zlen (grp_entries gs))) (ws_seqMin w) (ws_seqMax w) (opt_Compression o)
    (BloomBitsPerKey o mod 2 ^ 16) (byte_of_Z (Filter_K (ws_filter w))) (fst (bloom_ref gs fp ip)) (snd (bloom_ref gs fp ip))).
  exists gs, fp, ip, m. split; [done|]. split; [apply W|]. split; [done|]. split; [done|]. split.
  { split; try done; [apply (wi_seqs _ _ _ _ _ W)|cbn [m BloomBits]; apply Z.mod_pos_bound; lia|].
    cbn [m BloomOffset BloomLen]. by destruct (bloom_ref gs fp ip). }
  destruct (writes_ensures _ _ _ _ Hw (write_blocks_seqs (grp_entries gs) seqMin seqMax)) as [Hlo Hhi].
  split; [exact Hlo|]. split; [exact Hhi|]. clear Hlo Hhi.
  unfold write_table, table_file. eapply writes_bind; [exact Hw|]. cbv zeta. rewrite (wi_index _ _ _ _ _ W).
  fold index. fold partitioned. fold fparted. eapply writes_bind; [rewrite (wi_index _ _ _ _ _ W) in Hwf; exact Hwf|]. cbv beta iota.
  eapply writes_bind; [exact Hwi|]. cbv beta iota.
  eapply writes_bind; [apply writes_file|]. fold (plain_frame BlockTypeIndex (EncodeIndex (top_index gs fp ip))).
  fold (index_frame (top_index gs fp ip)).
  assert (Hix : 14 <= zlen (index_frame (top_index gs fp ip))) by (unfold off_findex in L4; lia).
  rewrite (u32_id (zlen (index_frame (top_index gs fp ip)))) by (unfold off_findex in L4; unfold is_u32; lia).
  rewrite (u64_id (off_index gs fp ip + _)) by (unfold off_findex in L4; unfold is_u64; lia). fold (off_findex gs fp ip).
  eapply writes_bind; [by apply (write_findex gs fp ip fparted bo bl (wi_groups _ _ _ _ _ W))|]. cbv beta iota. fold m.
  eapply writes_bind; [apply writes_file|]. fold (plain_frame BlockTypeMeta (EncodeMeta m)).
  assert (Hflags : byte_of_Z (Z.lor (if partitioned then FooterFlagIndexPartitioned else 0)
                     (if fparted then FooterFlagFilterPartitioned else 0)) = footer_flags fp ip).
  { unfold footer_flags. f_equal. f_equal.
    - destruct ip as [|cs]; [by rewrite (proj1 Hipt)|]. destruct partitioned; [done|]. by pose proof (proj2 Hipt eq_refl).
    - destruct fparted; [by destruct Hfpt as [cs ->]|]. destruct Hfpt as [Hnp _]. destruct fp; [done|done|by destruct (Hnp cs)]. }
  rewrite Hflags. rewrite (u32_id (zlen (plain_frame BlockTypeMeta (EncodeMeta m)))).
  2:{ rewrite zlen_plain_frame. unfold EncodeMeta. rewrite !zlen_app. autorewrite with zlen. cbn [m MinKey MaxKey].
      pose proof (zlen_nonneg minKey). pose proof (zlen_nonneg maxKey). unfold is_u32. lia. }
  eapply writes_bind_last; [apply writes_file|]. apply writes_nothing. intros fs Hfs0. by apply fs_may_fail_ok.
Qed.

(** ** Reading the file back *)

(** A block framed without compression, anywhere in a file. *)
Lemma read_plain file typ payload e pre post off len :
  file = pre ++ plain_frame typ payload ++ post -> off = zlen pre -> len = zlen (plain_frame typ payload) ->
  zlen payload < 2 ^ 31 -> zlen file < 2 ^ 63 ->
  read_block snappy_Decode file (mkDesc off len) typ e = Ok payload.
Proof.
  intros -> -> -> Hp Hf. pose proof (zlen_plain_frame typ payload) as Hl. pose proof (zlen_nonneg payload).
  pose proof (index_of_read (fun x : unit => plain_frame typ payload) (fun _ => []) [tt] pre post) as H1.
  cbn [frames map concat index_of] in H1. rewrite app_nil_r in H1.
  assert (Hne : plain_frame typ payload <> []) by (intros E; rewrite E in Hl; change (zlen (@nil byte)) with 0 in Hl; lia).
  specialize (H1 ltac:(by constructor) Hf). apply Forall2_cons_1 in H1 as [(Hr & _) _].
  unfold read_block. unfold entry_desc in Hr. cbn [ie_Offset ie_Length] in Hr. rewrite Hr. cbn [eof_as mbind result_bind].
  apply (DecodeBlockPayload_EncodeBlock snappy_Encode snappy_Decode snappy_roundtrip payload typ CompressionNone (Some e) Hp).
Qed.

Lemma frame_data_nonempty payload : frame_data payload <> [].
Proof. intros E. pose proof (zlen_frame_data payload) as H. rewrite E in H. change (zlen (@nil byte)) with 0 in H. lia. Qed.

Lemma read_data file payload e ie :
  source_Read file (entry_desc ie) = Ok (frame_data payload) -> zlen payload < 2 ^ 31 ->
  read_block snappy_Decode file (entry_desc ie) BlockTypeData e = Ok payload.
Proof.
  intros Hr Hp. unfold read_block. rewrite Hr. cbn [eof_as mbind result_bind]. unfold frame_data.
  pose proof (DecodeBlockPayload_EncodeBlock snappy_Encode snappy_Decode snappy_roundtrip payload BlockTypeData
    (opt_Compression o) (Some e) Hp) as H. by destruct (CompressPayload snappy_Encode payload (opt_Compression o)).
Qed.

Lemma Forall2_with_r {A B} (P : A -> B -> Prop) l k : Forall2 P l k -> Forall2 (fun x y => y ∈ k /\ P x y) l k.
Proof.
  induction 1 as [|x y l k H H2 IH]; constructor; [by split; [left|]|].
  eapply Forall2_impl; [exact IH|]. intros ? ? [? ?]. split; [by right|done].
Qed.

Lemma Forall2_zip {A B} (P : A -> B -> Prop) l k : Forall2 P l k -> Forall (fun x => P (fst x) (snd x)) (zip l k).
Proof. induction 1; cbn; constructor; auto. Qed.

(** The blocks as segments. *)
Definition segs_of (gs : list grp) : list seg := zip (index_from 0 gs) (map fst gs).

Lemma segs_of_index gs : map fst (segs_of gs) = index_from 0 gs.
Proof.
  unfold segs_of. rewrite <- (fst_zip (index_from 0 gs) (map fst gs)) at 2; [done|].
  unfold index_from. by rewrite index_of_length, length_map.
Qed.

Lemma segs_of_entries gs : seg_entries (segs_of gs) = grp_entries gs.
Proof.
  unfold segs_of, seg_entries, grp_entries. f_equal. rewrite <- (snd_zip (index_from 0 gs) (map fst gs)) at 2; [done|].
  unfold index_from. by rewrite index_of_length, length_map.
Qed.

(** What reading the data blocks gives. *)
Lemma segs_of_read gs post :
  zlen (grp_frames gs ++ post) < 2 ^ 63 ->
  Forall2 (fun s g => source_Read (grp_frames gs ++ post) (entry_desc (fst s)) = Ok (frame_data (snd g)) /\
      snd s = fst g /\ ie_Key (fst s) = first_key (fst g) /\ ie_Length (fst s) = zlen (frame_data (snd g)) /\
      0 <= ie_Offset (fst s) /\ ie_Offset (fst s) + ie_Length (fst s) <= zlen (grp_frames gs))
    (segs_of gs) gs.
Proof.
  intros Hl. pose proof (index_of_read (fun g : grp => frame_data (snd g)) (fun g => first_key (fst g)) gs [] post) as H.
  cbn [app] in H. specialize (H ltac:(apply Forall_forall; intros; apply frame_data_nonempty) Hl).
  change (zlen (@nil byte)) with 0 in H. change (frames (fun g : grp => frame_data (snd g)) gs) with (grp_frames gs) in H.
  fold index_from in H.
  unfold segs_of. remember (index_from 0 gs) as idx eqn:E. clear E. remember (grp_frames gs) as fr eqn:E. clear E Hl.
  induction H as [|ie g idx' gs' (H1 & H2 & H3 & H4 & H5) H IH]; cbn [map zip zip_with]; constructor; [|exact IH].
  cbn [fst snd]. repeat split; auto; lia.
Qed.

(** A row of plain blocks. *)
Lemma read_plain_row {A} typ (enc key : A -> bytes) l pre post e :
  Forall (fun a => zlen (enc a) < 2 ^ 31) l ->
  zlen (pre ++ frames (fun a => plain_frame typ (enc a)) l ++ post) < 2 ^ 63 ->
  Forall2 (fun ie a => read_block snappy_Decode (pre ++ frames (fun a => plain_frame typ (enc a)) l ++ post)
                         (entry_desc ie) typ e = Ok (enc a) /\ ie_Key ie = key a)
    (index_of (fun a => plain_frame typ (enc a)) key (zlen pre) l) l.
Proof.
  intros Hs Hl. set (file := pre ++ _ ++ post) in *.
  assert (Hne : Forall (fun a => plain_frame typ (enc a) <> []) l).
  { apply Forall_forall. intros a _ E. pose proof (zlen_plain_frame typ (enc a)) as H. rewrite E in H.
    pose proof (zlen_nonneg (enc a)). change (zlen (@nil byte)) with 0 in H. lia. }
  pose proof (index_of_read _ key l pre post Hne Hl) as H. fold file in H.
  apply Forall2_same_length_lookup in H as [Hlen H]. apply Forall2_same_length_lookup. split; [done|].
  intros i ie a Hi Ha. destruct (H i ie a Hi Ha) as (Hr & Hk & _). split; [|done].
  unfold read_block. rewrite Hr. cbn [eof_as mbind result_bind]. rewrite Forall_lookup in Hs.
  apply (DecodeBlockPayload_EncodeBlock snappy_Encode snappy_Decode snappy_roundtrip (enc a) typ CompressionNone (Some e)).
  by apply (Hs i).
Qed.

(** Cutting segments along a cut of their index. *)
Lemma cut_segs (cs : list (list IndexEntry)) : forall groups : list seg,
  map fst groups = concat cs -> exists css, concat css = groups /\ map (map fst) css = cs.
Proof.
  induction cs as [|c cs IH]; intros groups H; cbn [concat] in H.
  { apply map_eq_nil in H as ->. by exists []. }
  apply map_eq_app in H as (a & b & -> & Ha & Hb). destruct (IH b Hb) as (css & <- & E).
  exists (a :: css). cbn [concat map]. by rewrite Ha, E.
Qed.

Lemma run_bytes_nonneg es : 0 <= run_bytes es.
Proof. pose proof (run_bytes_ge es). pose proof (zlen_nonneg es). lia. Qed.

Lemma grp_run_le gs g : g ∈ gs -> run_bytes (fst g) <= run_bytes (grp_entries gs).
Proof.
  intros (a & b & ->)%list_elem_of_split. rewrite grp_entries_app.
  change (grp_entries (g :: b)) with (fst g ++ grp_entries b). rewrite !run_bytes_app.
  pose proof (run_bytes_nonneg (grp_entries a)). pose proof (run_bytes_nonneg (grp_entries b)). lia.
Qed.

Lemma first_key_le es : zlen (first_key es) <= run_bytes es.
Proof.
  destruct es as [|e es]; [done|]. cbn [first_key run_bytes fold_right]. fold (run_bytes es).
  pose proof (run_bytes_nonneg es). unfold entry_bytes. pose proof (zlen_nonneg (Value e)). lia.
Qed.

Lemma index_wf gs :
  Forall grp_ok gs -> run_bytes (grp_entries gs) < 2 ^ 28 -> Forall IndexEntry_wf (index_from 0 gs).
Proof.
  intros Hg Hr. pose proof (grp_frames_size gs Hg) as HD.
  pose proof (segs_of_read gs []) as H. rewrite app_nil_r in H. specialize (H ltac:(lia)).
  rewrite <- segs_of_index. apply Forall_map. eapply Forall2_Forall_l; [exact H|].
  apply Forall_forall. intros g Hin s (_ & _ & Hk & Hlen & H0 & H1).
  pose proof (grp_run_le gs g Hin). pose proof (first_key_le (fst g)). pose proof (zlen_frame_data (snd g)).
  pose proof (zlen_nonneg (first_key (fst g))).
  unfold IndexEntry_wf, is_u32, is_u64. rewrite Hk. lia.
Qed.

(** ** The table of a file *)

Definition block_limit (limit : Z) (es : list Entry) : Prop :=
  46 + 2 * BlockTargetBytes o <= limit /\ Forall (fun e => 54 + 2 * entry_bytes e <= limit) es.

(** Blocks stay below the limit of the reader. *)
Lemma frame_within limit gs g :
  block_limit limit (grp_entries gs) -> grp_ok g -> g ∈ gs -> zlen (frame_data (snd g)) <= limit.
Proof.
  intros [Hl He] [_ _ Hsz Hsm] Hin. pose proof (zlen_frame_data (snd g)).
  destruct Hsm as [Hsm|[e Eg]]; [lia|]. rewrite Forall_forall in He.
  assert (e ∈ grp_entries gs) as He'.
  { apply elem_of_concat. exists (fst g). split; [by apply (list_elem_of_fmap_2 fst)|rewrite Eg; by left]. }
  specialize (He e He'). rewrite Eg in Hsz. cbn [run_bytes fold_right] in Hsz. lia.
Qed.

Section Table.
Context (gs : list grp) (fp : filter_plan) (ip : index_plan) (m : Meta) (policy : PolicySnapshot).
Context (Hgs : Forall grp_ok gs) (Hpl : plans_ok gs fp ip) (Hso : sizes_ok gs fp).
Context (Hsorted : sorted_run (grp_entries gs)).
Context (Hkeys : zlen (MinKey m) + zlen (MaxKey m) < 2 ^ 28).
Context (Hlimit : block_limit (pol_ReadBlockMaxBytes policy) (grp_entries gs)).

Local Abbreviation file := (table_file gs fp ip m).

Definition table_pipe : Pipeline :=
  mkPipeline file (zlen file) policy (top_index gs fp ip)
    (match ip with PartIndex _ => true | WholeIndex => false end)
    (match fp with WholeFilter f => Some f | _ => None end)
    (filter_index gs fp)
    (match fp with PartFilter _ => true | _ => false end).

Lemma zlen_table_file :
  zlen file = off_meta gs fp ip + zlen (plain_frame BlockTypeMeta (EncodeMeta m)) + 36 /\ zlen file < 2 ^ 32.
Proof.
  destruct (layout_sizes gs fp ip Hgs Hpl Hso) as (L1 & L2 & L3 & L4 & L5).
  assert (E : zlen file = off_meta gs fp ip + zlen (plain_frame BlockTypeMeta (EncodeMeta m)) + 36).
  { unfold table_file. rewrite !zlen_app, zlen_EncodeFooter. unfold FooterSizeBytes.
    unfold off_meta, off_findex, off_index, off_parts, off_filter. lia. }
  split; [done|]. rewrite E, zlen_plain_frame. unfold EncodeMeta. rewrite !zlen_app. autorewrite with zlen. lia.
Qed.

Lemma groups_ok :
  Forall (fun s => validateEntry table_pipe (fst s) ErrSSTableBadBlock = Ok tt /\
                   block_at snappy_Decode table_pipe s /\ seg_keyed s) (segs_of gs).
Proof.
  destruct zlen_table_file as [E Hz]. destruct (layout_sizes gs fp ip Hgs Hpl Hso) as (L1 & L2 & L3 & L4 & L5).
  unfold off_filter in *.
  assert (exists post, file = grp_frames gs ++ post) as [post Ep] by (unfold table_file; eauto).
  pose proof (segs_of_read gs post ltac:(rewrite <- Ep; lia)) as H. rewrite <- Ep in H.
  eapply Forall2_Forall_l; [exact H|].
  apply Forall_forall. intros g Hin s (Hr & Hs & Hk & Hlen & H0 & H1).
  rewrite Forall_forall in Hgs. pose proof (Hgs g Hin) as Hg. pose proof (zlen_frame_data (snd g)) as Hfl.
  pose proof (frame_within _ gs g Hlimit Hg Hin) as Hfw. destruct Hg as [Hf (blk & Ed & Hb) Hsz _].
  pose proof (grp_run_le gs g Hin). pose proof (so_run _ _ Hso). unfold off_filter in *.
  pose proof (zlen_nonneg (plain_frame BlockTypeMeta (EncodeMeta m))).
  split; [|split].
  - unfold validateEntry. cbn [p_policy p_size table_pipe]. rewrite !bool_decide_false; try lia; [done|].
    rewrite (i64_id (ie_Offset _)) by lia. rewrite i64_id by lia. lia.
  - exists (snd g), blk. rewrite Hs. split; [|done]. apply read_data; [exact Hr|lia].
  - unfold seg_keyed. rewrite Hs, Hk. destruct (fst g) as [|e es]; [done|]. by exists e.
Qed.

Lemma groups_distinct : offsets_distinct (segs_of gs).
Proof.
  apply ascending_distinct. rewrite segs_of_index. apply index_of_ascending. apply Forall_forall.
  intros; apply frame_data_nonempty.
Qed.

(** The entries of an index fit its encoding. *)
Lemma index_of_wf {A} (frame key : A -> bytes) l : forall off,
  Forall (fun a => zlen (key a) < 2 ^ 32) l -> 0 <= off -> off + zlen (frames frame l) < 2 ^ 32 ->
  Forall IndexEntry_wf (index_of frame key off l).
Proof.
  induction l as [|a l IH]; intros off Hk H0 Hl; cbn [index_of]; [constructor|].
  apply Forall_cons in Hk as [Ha Hk]. rewrite frames_cons, zlen_app in Hl.
  pose proof (zlen_nonneg (frame a)). pose proof (zlen_nonneg (frames frame l)). pose proof (zlen_nonneg (key a)).
  constructor; [|apply IH; [done|lia|lia]]. unfold IndexEntry_wf, is_u32, is_u64. cbn [ie_Key ie_Offset ie_Length]. lia.
Qed.

Lemma plain_nonempty typ payload : plain_frame typ payload <> [].
Proof.
  intros E. pose proof (zlen_plain_frame typ payload) as H. rewrite E in H. pose proof (zlen_nonneg payload).
  change (zlen (@nil byte)) with 0 in H. lia.
Qed.

Lemma zlen_chunk_index cs c : Forall (fun c => c <> []) cs -> c ∈ cs -> zlen (EncodeIndex c) <= index_bytes (concat cs).
Proof.
  intros Hne Hin. rewrite Forall_forall in Hne. pose proof (zlen_EncodeIndex c (Hne c Hin)).
  apply list_elem_of_split in Hin as (a & b & ->). rewrite concat_app. cbn [concat]. rewrite !index_bytes_app.
  pose proof (index_bytes_nonneg (concat a)). pose proof (index_bytes_nonneg (concat b)). lia.
Qed.

Lemma parts_ok cs : ip = PartIndex cs ->
  exists parts : list part, top_index gs fp ip = map fst parts /\ segs_of gs = concat (map snd parts) /\
    Forall part_keyed parts /\ Forall (part_at snappy_Decode table_pipe) parts /\ offsets_distinct parts.
Proof.
  intros Eip. destruct zlen_table_file as [E Hz]. pose proof (po_index _ _ _ Hpl) as Hi. rewrite Eip in Hi. destruct Hi as [Ec Hc].
  pose proof (index_bytes_gs gs 0 Hgs) as HI. pose proof (so_run _ _ Hso) as Hr. pose proof (index_wf gs Hgs Hr) as Hwf.
  destruct (cut_segs cs (segs_of gs)) as (css & Ecs & Em); [by rewrite segs_of_index|].
  assert (Hlen : length (top_index gs fp ip) = length css).
  { rewrite Eip. cbn [top_index]. by rewrite index_of_length, <- Em, length_map. }
  exists (zip (top_index gs fp ip) css). split; [symmetry; apply fst_zip; lia|].
  assert (Esnd : map snd (zip (top_index gs fp ip) css) = css) by (apply snd_zip; lia).
  rewrite Esnd. split; [done|].
  assert (H : Forall2 (fun ie c => read_block snappy_Decode file (entry_desc ie) BlockTypeIndex ErrSSTableBadIndex
                = Ok (EncodeIndex c) /\ ie_Key ie = index_key c) (top_index gs fp ip) cs).
  { assert (exists post, file = (grp_frames gs ++ filter_section fp) ++ frames index_frame cs ++ post) as [post Ep].
    { eexists. rewrite <- app_assoc. replace (frames index_frame cs) with (index_section ip) by (by rewrite Eip). reflexivity. }
    assert (Et : top_index gs fp ip = index_of index_frame index_key (zlen (grp_frames gs ++ filter_section fp)) cs).
    { by rewrite Eip, zlen_app. }
    rewrite Ep, Et. apply (read_plain_row BlockTypeIndex EncodeIndex); [|unfold index_frame in Ep; rewrite <- Ep; lia].
    apply Forall_forall. intros c Hin. pose proof (zlen_chunk_index cs c Hc Hin) as Hcb. rewrite Ec in Hcb. lia. }
  rewrite <- Em in H. apply Forall2_fmap_r, Forall2_zip in H.
  assert (Hd : offsets_distinct (zip (top_index gs fp ip) css)).
  { apply ascending_distinct. rewrite fst_zip by lia. rewrite Eip. apply index_of_ascending. apply Forall_forall.
    intros; apply plain_nonempty. }
  split; [|split; [|exact Hd]].
  - rewrite Forall_forall in H |- *. intros q Hq. destruct (H q Hq) as [_ Hk]. unfold part_keyed. rewrite Hk.
    assert (map fst (snd q) <> []).
    { rewrite Forall_forall in Hc. apply Hc. rewrite <- Em. apply list_elem_of_fmap_2. rewrite <- Esnd.
      by apply (list_elem_of_fmap_2 snd). }
    destruct (snd q) as [|g l]; [done|]. by exists g.
  - rewrite Forall_forall in H |- *. intros q Hq. destruct (H q Hq) as [Hread _]. eexists. split; [exact Hread|].
    apply DecodeIndex_EncodeIndex. rewrite <- Ec in Hwf. apply Forall_concat in Hwf. rewrite Forall_forall in Hwf.
    apply Hwf. rewrite <- Em. apply list_elem_of_fmap_2. rewrite <- Esnd. by apply (list_elem_of_fmap_2 snd).
Qed.

Lemma frame_le {A} (frame : A -> bytes) l a : a ∈ l -> zlen (frame a) <= zlen (frames frame l).
Proof.
  intros (x & y & ->)%list_elem_of_split. unfold frames. rewrite map_app, concat_app. cbn [map concat]. rewrite !zlen_app.
  pose proof (zlen_nonneg (concat (map frame x))). pose proof (zlen_nonneg (concat (map frame y))). lia.
Qed.

Lemma fparts_entries (cs : list fpart) :
  concat (map (fun c => grp_entries (fst c)) cs) = grp_entries (concat (map fst cs)).
Proof. induction cs as [|c cs IH]; cbn [map concat]; [done|]. by rewrite grp_entries_app, IH. Qed.

Lemma fpart_head (cs : list fpart) c :
  concat (map fst cs) = gs -> fpart_ok c -> c ∈ cs -> exists e, head (grp_entries (fst c)) = Some e /\ Key e = fpart_key c.
Proof.
  intros Ec (Hne & _) Hin. unfold fpart_key. destruct (fst c) as [|g l] eqn:El; [done|].
  assert (Hg : grp_ok g).
  { rewrite Forall_forall in Hgs. apply Hgs. rewrite <- Ec. apply elem_of_concat. exists (fst c).
    split; [by apply (list_elem_of_fmap_2 fst)|rewrite El; by left]. }
  change (grp_entries (g :: l)) with (fst g ++ grp_entries l). pose proof (go_first _ Hg).
  destruct (fst g) as [|e es]; [done|]. by exists e.
Qed.

Lemma fsegs_ok cs : fp = PartFilter cs ->
  exists fsegs : list seg, filter_index gs fp = map fst fsegs /\ seg_entries fsegs = seg_entries (segs_of gs) /\
    Forall seg_keyed fsegs /\ Forall (filter_at snappy_Decode table_pipe) fsegs /\ offsets_distinct fsegs.
Proof.
  intros Efp. destruct zlen_table_file as [E Hz]. pose proof (po_filter _ _ _ Hpl) as Hf. rewrite Efp in Hf. destruct Hf as [Ec Hc].
  pose proof (so_filter _ _ Hso) as Hfs. rewrite Efp in Hfs. cbn [filter_section] in Hfs.
  set (ess := map (fun c : fpart => grp_entries (fst c)) cs).
  assert (Hlen : length (filter_index gs fp) = length ess).
  { rewrite Efp. cbn [filter_index]. unfold ess. by rewrite index_of_length, length_map. }
  exists (zip (filter_index gs fp) ess). split; [symmetry; apply fst_zip; lia|].
  assert (Esnd : map snd (zip (filter_index gs fp) ess) = ess) by (apply snd_zip; lia).
  split. { unfold seg_entries at 1. rewrite Esnd. unfold ess. by rewrite fparts_entries, Ec, segs_of_entries. }
  assert (H : Forall2 (fun ie c => read_block snappy_Decode file (entry_desc ie) BlockTypeFilter ErrSSTableBadMeta
                = Ok (Filter_Encode (Some (snd c))) /\ ie_Key ie = fpart_key c) (filter_index gs fp) cs).
  { assert (exists post, file = grp_frames gs ++ frames fpart_frame cs ++ post) as [post Ep].
    { eexists. replace (frames fpart_frame cs) with (filter_section fp) by (by rewrite Efp). reflexivity. }
    rewrite Ep. rewrite Efp. cbn [filter_index]. unfold off_filter.
    apply (read_plain_row BlockTypeFilter (fun c : fpart => Filter_Encode (Some (snd c)))).
    - apply Forall_forall. intros c Hin. pose proof (frame_le fpart_frame cs c Hin) as Hl.
      change (fpart_frame c) with (plain_frame BlockTypeFilter (Filter_Encode (Some (snd c)))) in Hl.
      rewrite zlen_plain_frame in Hl. lia.
    - unfold fpart_frame, filter_frame in Ep. rewrite <- Ep. lia. }
  assert (Hd : offsets_distinct (zip (filter_index gs fp) ess)).
  { apply ascending_distinct. rewrite fst_zip by lia. rewrite Efp. apply index_of_ascending. apply Forall_forall.
    intros; apply plain_nonempty. }
  assert (H2 : Forall (fun s => seg_keyed s /\ filter_at snappy_Decode table_pipe s) (zip (filter_index gs fp) ess)).
  { eapply Forall_impl; [apply (Forall2_zip (fun ie es => seg_keyed (ie, es) /\ filter_at snappy_Decode table_pipe (ie, es)))|].
    - apply Forall2_fmap_r. eapply Forall2_impl; [exact (Forall2_with_r _ _ _ H)|]. intros ie c [Hin [Hr Hk]]. cbv beta.
      rewrite Forall_forall in Hc. pose proof (Hc c Hin) as Hok. split.
      + destruct (fpart_head cs c Ec Hok Hin) as (e & Hh & He). exists e. split; [exact Hh|]. by rewrite He.
      + destruct Hok as (_ & Hwf & Hin'). eexists _, (snd c). split; [exact Hr|].
        split; [by apply Filter_Decode_Encode|]. split; [apply Hwf|done].
    - by intros [ie es]. }
  split; [|split; [|exact Hd]]; (eapply Forall_impl; [exact H2|]); by intros s [? ?].
Qed.

Lemma table_file_rep : exists parts fsegs, table_rep snappy_Decode table_pipe (segs_of gs) parts fsegs.
Proof.
  pose proof groups_ok as H.
  assert (exists parts : list part, match ip with
      | PartIndex _ => top_index gs fp ip = map fst parts /\ segs_of gs = concat (map snd parts) /\
          Forall part_keyed parts /\ Forall (part_at snappy_Decode table_pipe) parts /\ offsets_distinct parts
      | WholeIndex => top_index gs fp ip = map fst (segs_of gs)
      end) as [parts Hp].
  { assert (ip = WholeIndex \/ exists cs, ip = PartIndex cs) as [E|[cs E]] by (destruct ip; eauto).
    - rewrite E. exists []. by rewrite segs_of_index.
    - destruct (parts_ok cs E) as [parts Hp]. exists parts. rewrite E in Hp |- *. exact Hp. }
  assert (exists fsegs : list seg, match fp with
      | PartFilter _ => filter_index gs fp = map fst fsegs /\ seg_entries fsegs = seg_entries (segs_of gs) /\
          Forall seg_keyed fsegs /\ Forall (filter_at snappy_Decode table_pipe) fsegs /\ offsets_distinct fsegs
      | WholeFilter f => filter_for (seg_entries (segs_of gs)) f
      | NoFilter => True
      end) as [fsegs Hf].
  { pose proof (po_filter _ _ _ Hpl) as Hf.
    assert (fp = NoFilter \/ (exists f, fp = WholeFilter f) \/ exists cs, fp = PartFilter cs) as [E|[[f E]|[cs E]]]
      by (destruct fp; eauto).
    - rewrite E. by exists [].
    - exists []. rewrite E in Hf |- *. destruct Hf as [Hf Hm]. rewrite segs_of_entries. split; [apply Hf|done].
    - destruct (fsegs_ok cs E) as [fsegs H1]. exists fsegs. rewrite E in H1 |- *. exact H1. }
  exists parts, fsegs. split.
  - eapply Forall_impl; [exact H|]. by intros s (? & ? & ?).
  - by rewrite segs_of_entries.
  - eapply Forall_impl; [exact H|]. by intros s (? & ? & ?).
  - eapply Forall_impl; [exact H|]. by intros s (? & ? & ?).
  - apply groups_distinct.
  - change (p_partitioned table_pipe) with (match ip with PartIndex _ => true | WholeIndex => false end).
    change (p_top table_pipe) with (top_index gs fp ip). revert Hp. generalize table_pipe. by destruct ip.
  - change (p_filterPartitioned table_pipe) with (match fp with PartFilter _ => true | _ => false end).
    change (p_filterIndex table_pipe) with (filter_index gs fp).
    change (p_filter table_pipe) with (match fp with WholeFilter f => Some f | _ => None end).
    revert Hf. generalize table_pipe. by destruct fp.
Qed.

(** ** Opening the file *)

Context (minKey maxKey : bytes) (Hmeta : meta_ok gs fp ip minKey maxKey m).
Context (Hcomp : opt_Compression o = CompressionNone \/ opt_Compression o = CompressionSnappy).

Definition the_footer : Footer :=
  mkFooter (footer_flags fp ip) (off_index gs fp ip) (zlen (index_frame (top_index gs fp ip)))
    (off_meta gs fp ip) (zlen (plain_frame BlockTypeMeta (EncodeMeta m))).

Lemma read_footer :
  source_Read file (mkDesc (zlen file - FooterSizeBytes) FooterSizeBytes) = Ok (EncodeFooter the_footer).
Proof.
  destruct zlen_table_file as [_ Hz].
  assert (exists pre, file = pre ++ EncodeFooter the_footer ++ []) as [pre Ep].
  { rewrite app_nil_r. unfold table_file. rewrite !app_assoc. by eexists. }
  assert (El : zlen file = zlen pre + FooterSizeBytes) by (rewrite Ep, !zlen_app, zlen_EncodeFooter; change (zlen (@nil byte)) with 0; lia).
  unfold source_Read. cbn [d_Offset d_Length]. unfold FooterSizeBytes in *. rewrite bool_decide_false by lia.
  pose proof (zlen_nonneg pre). rewrite i64_id by lia. rewrite bool_decide_false by lia. rewrite Ep.
  apply (slice_mid _ pre (EncodeFooter the_footer) []); [done|rewrite <- Ep; lia|]. rewrite <- Ep, zlen_EncodeFooter. unfold FooterSizeBytes. lia.
Qed.

Lemma read_meta :
  read_block snappy_Decode file (mkDesc (MetaOffset the_footer) (MetaLen the_footer)) BlockTypeMeta ErrSSTableBadMeta
  = Ok (EncodeMeta m).
Proof.
  destruct zlen_table_file as [_ Hz].
  eapply (read_plain file _ _ _ (grp_frames gs ++ filter_section fp ++ index_section ip ++ index_frame (top_index gs fp ip) ++ findex_section gs fp)).
  - unfold table_file. by rewrite <- !app_assoc.
  - cbn [the_footer MetaOffset]. unfold off_meta, off_findex, off_index, off_parts, off_filter. rewrite !zlen_app. lia.
  - done.
  - unfold EncodeMeta. rewrite !zlen_app. autorewrite with zlen. lia.
  - lia.
Qed.

Lemma read_index :
  read_block snappy_Decode file (mkDesc (IndexOffset the_footer) (IndexLen the_footer)) BlockTypeIndex ErrSSTableBadIndex
  = Ok (EncodeIndex (top_index gs fp ip)).
Proof.
  destruct zlen_table_file as [_ Hz]. destruct (layout_sizes gs fp ip Hgs Hpl Hso) as (_ & _ & _ & _ & _ & L & _).
  eapply (read_plain file _ _ _ (grp_frames gs ++ filter_section fp ++ index_section ip)).
  - unfold table_file. by rewrite <- !app_assoc.
  - cbn [the_footer IndexOffset]. unfold off_index, off_parts, off_filter. rewrite !zlen_app. lia.
  - done.
  - unfold index_frame in L. rewrite zlen_plain_frame in L. lia.
  - lia.
Qed.

Lemma read_bloom payload :
  (exists f, fp = WholeFilter f /\ payload = Filter_Encode (Some f)) \/
  (exists cs, fp = PartFilter cs /\ payload = EncodeIndex (filter_index gs fp)) ->
  read_block snappy_Decode file (mkDesc (BloomOffset m) (BloomLen m)) BlockTypeFilter ErrSSTableBadMeta = Ok payload.
Proof.
  intros H. destruct zlen_table_file as [_ Hz]. destruct (layout_sizes gs fp ip Hgs Hpl Hso) as (_ & _ & _ & _ & _ & _ & L).
  pose proof (mo_bloom _ _ _ _ _ _ Hmeta) as Hb. pose proof (so_filter _ _ Hso) as Hf.
  destruct H as [(f & E & ->)|(cs & E & ->)].
  - rewrite E in Hb, Hf. cbn [bloom_ref filter_section] in Hb, Hf. injection Hb as -> ->.
    unfold filter_frame in Hf. rewrite zlen_plain_frame in Hf.
    eapply (read_plain file _ _ _ (grp_frames gs)); [|done|done|lia|lia].
    unfold table_file. by rewrite E at 1.
  - assert (Es : findex_section gs fp = plain_frame BlockTypeFilter (EncodeIndex (filter_index gs fp))) by (by rewrite E).
    assert (Hb2 : bloom_ref gs fp ip = (off_findex gs fp ip, zlen (findex_section gs fp))) by (by rewrite E).
    rewrite Hb2, Es in Hb. injection Hb as -> ->. rewrite Es, zlen_plain_frame in L.
    eapply (read_plain file _ _ _ (grp_frames gs ++ filter_section fp ++ index_section ip ++ index_frame (top_index gs fp ip)));
      [|unfold off_findex, off_index, off_parts, off_filter; rewrite !zlen_app; lia|done|lia|lia].
    unfold table_file. rewrite Es. by rewrite <- !app_assoc.
Qed.

Lemma top_index_wf : Forall IndexEntry_wf (top_index gs fp ip).
Proof.
  destruct (layout_sizes gs fp ip Hgs Hpl Hso) as (L1 & L2 & L3 & _). pose proof (po_index _ _ _ Hpl) as Hi.
  pose proof (index_wf gs Hgs (so_run _ _ Hso)) as Hwf. unfold off_index in L3.
  assert (H : match ip with WholeIndex => True | PartIndex cs => Forall (fun c => zlen (index_key c) < 2 ^ 32) cs end).
  { destruct ip as [|cs]; [done|]. destruct Hi as [Ec Hne]. rewrite <- Ec in Hwf. apply Forall_concat in Hwf.
    eapply Forall_impl; [exact Hwf|]. intros c Hc. destruct c as [|e c]; [done|]. apply Forall_inv in Hc.
    unfold index_key. destruct Hc as (Hk & _). unfold is_u32 in Hk. lia. }
  revert H L3. clear Hmeta Hi. unfold top_index. destruct ip as [|cs]; intros H L3; [done|].
  cbn [index_section] in L3. apply index_of_wf; [done|lia|lia].
Qed.

Lemma filter_index_wf : Forall IndexEntry_wf (filter_index gs fp).
Proof.
  destruct (layout_sizes gs fp ip Hgs Hpl Hso) as (L1 & L2 & _). pose proof (po_filter _ _ _ Hpl) as Hf.
  pose proof (so_run _ _ Hso) as Hr. unfold off_parts in L2.
  assert (H : match fp with PartFilter cs => Forall (fun c => zlen (fpart_key c) < 2 ^ 32) cs | _ => True end).
  { destruct fp as [| |cs]; [done|done|]. destruct Hf as [Ec _]. apply Forall_forall. intros c Hin. unfold fpart_key.
    destruct (fst c) as [|g l] eqn:El; [done|]. pose proof (first_key_le (fst g)).
    assert (g ∈ gs) as Hg. { rewrite <- Ec. apply elem_of_concat. exists (fst c).
      split; [by apply (list_elem_of_fmap_2 fst)|rewrite El; by left]. }
    pose proof (grp_run_le gs g Hg). lia. }
  revert H L2. clear Hmeta Hf. unfold filter_index. destruct fp as [| |cs]; intros H L2; [constructor..|].
  cbn [filter_section] in L2. apply index_of_wf; [done|lia|lia].
Qed.

Lemma footer_wf : Footer_wf the_footer.
Proof.
  destruct zlen_table_file as [E Hz]. destruct (layout_sizes gs fp ip Hgs Hpl Hso) as (L1 & L2 & L3 & L4 & L5 & L6 & L7).
  pose proof (zlen_nonneg (index_frame (top_index gs fp ip))).
  pose proof (zlen_nonneg (plain_frame BlockTypeMeta (EncodeMeta m))).
  unfold Footer_wf, the_footer, is_u32, is_u64. cbn [IndexOffset IndexLen MetaOffset MetaLen]. lia.
Qed.

Lemma bloom_ref_range :
  0 <= BloomOffset m < 2 ^ 32 /\ 0 <= BloomLen m < 2 ^ 32 /\
  (fp = NoFilter <-> ~ (0 < BloomLen m /\ 0 < BloomOffset m)).
Proof.
  destruct (layout_sizes gs fp ip Hgs Hpl Hso) as (L1 & L2 & L3 & L4 & L5 & L6 & L7).
  pose proof (mo_bloom _ _ _ _ _ _ Hmeta) as Hb. pose proof (so_filter _ _ Hso) as Hf. pose proof (so_nonempty _ _ Hso) as Hne.
  assert (H0 : 14 <= off_filter gs).
  { unfold off_filter. destruct gs as [|g gs']; [done|]. unfold grp_frames. cbn [map concat]. rewrite zlen_app.
    pose proof (zlen_frame_data (snd g)). pose proof (zlen_nonneg (concat (map (fun g => frame_data (snd g)) gs'))). lia. }
  revert L2 L3 L4 L5 L6 L7 Hf. generalize (BloomOffset m) (BloomLen m) Hb. clear Hmeta Hb. unfold bloom_ref.
  destruct fp as [|f|cs]; intros bo bl [= -> ->] L2 L3 L4 L5 L6 L7 Hf; cbn [filter_section] in Hf.
  - split; [done|]. split; [done|]. split; [lia|done].
  - unfold filter_frame in *. rewrite zlen_plain_frame in *. pose proof (zlen_nonneg (Filter_Encode (Some f))).
    split; [lia|]. split; [lia|]. split; [done|lia].
  - change (index_of fpart_frame fpart_key (off_filter gs) cs) with (filter_index gs (PartFilter cs)) in *.
    change (findex_section gs (PartFilter cs)) with (plain_frame BlockTypeFilter (EncodeIndex (filter_index gs (PartFilter cs)))) in *.
    rewrite zlen_plain_frame in *. pose proof (zlen_nonneg (EncodeIndex (filter_index gs (PartFilter cs)))).
    split; [lia|]. split; [lia|]. split; [done|lia].
Qed.

Lemma table_meta_wf : Meta_wf m.
Proof.
  destruct bloom_ref_range as (B1 & B2 & _). destruct Hmeta as [M1 M2 M3 [M4 M5] M6 M7 M8].
  pose proof (zlen_nonneg (MinKey m)). pose proof (zlen_nonneg (MaxKey m)).
  unfold Meta_wf. rewrite M6, M3. unfold is_u32, is_u64 in *. pose proof (Z.mod_pos_bound (zlen (grp_entries gs)) (2 ^ 64)).
  unfold u64. repeat split; try lia. done.
Qed.

Lemma flags_index : flag_set (footer_flags fp ip) FooterFlagIndexPartitioned
  = match ip with PartIndex _ => true | WholeIndex => false end.
Proof. clear. destruct ip, fp; reflexivity. Qed.

Lemma flags_filter : flag_set (footer_flags fp ip) FooterFlagFilterPartitioned
  = match fp with PartFilter _ => true | _ => false end.
Proof. clear. destruct ip, fp; reflexivity. Qed.

Context (opts : Options) (spare : bytes) (Hval : Validate (Normalize opts) = Ok tt).
Context (Hpol : policy = SnapshotFromOptions (Normalize opts)
  (match ip with PartIndex _ => true | WholeIndex => false end)
  (match fp with PartFilter _ => true | _ => false end)).

Definition fresh_caches : pstate :=
  mkPstate (NewCache (BlockCacheBytes (Normalize opts)))
    (match ip with PartIndex _ => NewCache (IndexCacheBytes (Normalize opts)) | WholeIndex => None end)
    (match fp with PartFilter _ => NewCache (FilterCacheBytes (Normalize opts)) | _ => None end)
    empty_registry.

Lemma open_filter :
  (if bool_decide (0 < BloomLen m /\ 0 < BloomOffset m) then
     filterPayload ← read_block snappy_Decode file (mkDesc (BloomOffset m) (BloomLen m)) BlockTypeFilter ErrSSTableBadMeta;
     if match fp with PartFilter _ => true | _ => false end then
       filterIndex ← DecodeIndex filterPayload;
       Ok (None, filterIndex)
     else match Filter_Decode filterPayload with
          | None => Err ErrSSTableBadMeta
          | Some f => Ok (Some f, [])
          end
   else Ok (None, []))
  = Ok (p_filter table_pipe, p_filterIndex table_pipe).
Proof.
  destruct bloom_ref_range as (_ & _ & Hnone). pose proof (po_filter _ _ _ Hpl) as Hf.
  cbn [p_filter p_filterIndex table_pipe].
  assert (fp = NoFilter \/ (exists f, fp = WholeFilter f) \/ exists cs, fp = PartFilter cs) as [E|[[f E]|[cs E]]]
    by (destruct fp; eauto).
  - rewrite bool_decide_false by (by apply Hnone). by rewrite E.
  - rewrite bool_decide_true by (destruct (decide (0 < BloomLen m /\ 0 < BloomOffset m)) as [|H]; [done|]; apply Hnone in H; congruence).
    rewrite (read_bloom (Filter_Encode (Some f))) by eauto. cbn [mbind result_bind]. rewrite E in Hf |- *.
    destruct Hf as [Hwf _]. by rewrite Filter_Decode_Encode.
  - rewrite bool_decide_true by (destruct (decide (0 < BloomLen m /\ 0 < BloomOffset m)) as [|H]; [done|]; apply Hnone in H; congruence).
    rewrite (read_bloom (EncodeIndex (filter_index gs fp))) by eauto. cbn [mbind result_bind].
    rewrite DecodeIndex_EncodeIndex by apply filter_index_wf. by rewrite E.
Qed.

Lemma openReader_table_file :
  openReader snappy_Decode file opts spare
  = Ok (mkReader (zlen file) m (opt_CorruptionPolicy (Normalize opts)) table_pipe, fresh_caches).
Proof.
  destruct zlen_table_file as [Ez Hz]. destruct (layout_sizes gs fp ip Hgs Hpl Hso) as (L1 & L2 & L3 & L4 & L5 & _).
  pose proof (zlen_nonneg (plain_frame BlockTypeMeta (EncodeMeta m))).
  unfold openReader, ReadBlockPayload. rewrite (result_bind_Ok _ _ _ Hval).
  assert (Hb : bool_decide (zlen file < FooterSizeBytes) = false) by (apply bool_decide_false; unfold FooterSizeBytes; lia).
  rewrite Hb. clear Hb Ez Hz L1 L2 L3 L4 L5 H.
  rewrite (result_bind_Ok _ _ _ read_footer).
  rewrite (result_bind_Ok _ _ _ (DecodeFooter_EncodeFooter _ footer_wf)).
  rewrite (result_bind_Ok _ _ _ read_meta).
  rewrite (result_bind_Ok _ _ _ (DecodeMeta_EncodeMeta _ _ table_meta_wf)).
  rewrite (result_bind_Ok _ _ _ read_index).
  rewrite (result_bind_Ok _ _ _ (DecodeIndex_EncodeIndex _ top_index_wf)).
  change (Flags the_footer) with (footer_flags fp ip). rewrite flags_index, flags_filter.
  rewrite (result_bind_Ok _ _ _ open_filter).
  unfold table_pipe, fresh_caches. rewrite <- Hpol. cbn [p_filter p_filterIndex].
  clear. by destruct ip, fp.
Qed.
End Table.
End Flush.
