(* ===== verification/SstPublish.v ===== *)
(** * Flushed tables are read back

    [Flush] followed by any sequence of point reads and range scans: the
    table is a finite map and its caches do not show.  A table appears in
    the directory completely or not at all, whatever calls to the file
    system fail.  And what a reader's block limit does to large values. *)

From Stdlib Require Import ZArith Lia Strings.Byte.
From stdpp Require Import base list strings pretty gmap sorting.
From S2P Require Import Prelude Iofs SstFormat SstBlock SstOptions Bloom Cache SstReader SstWriter SstTable SstRange SstFlush.
Local Open Scope Z_scope.

(** ** Sorting *)

Lemma flush_le_iff a b :
  flush_le a b <-> Key a ≺ Key b \/
    (Key a = Key b /\ (Seq b < Seq a \/ (Seq a = Seq b /\ (Tombstone b = true -> Tombstone a = true)))).
Proof.
  unfold flush_le, flush_less. destruct (bytes_compare (Key b) (Key a)) eqn:E.
  - rewrite bytes_compare_Eq in E. rewrite E. split.
    + intros H. right. split; [done|]. case_bool_decide; [case_bool_decide; [done|left; lia]|]. right. split; [lia|].
      destruct (Tombstone a), (Tombstone b); try done; by rewrite bool_decide_true in H.
    + intros [H|[_ H]]; [destruct (bytes_lt_irrefl _ H)|]. case_bool_decide; [case_bool_decide; [lia|done]|].
      destruct H as [H|[_ H]]; [lia|]. destruct (Tombstone a), (Tombstone b); try done. naive_solver.
  - rewrite bytes_compare_Lt in E. split; [done|]. intros [H|[H _]]; [exfalso; bytes_order|].
    rewrite H in E. destruct (bytes_lt_irrefl _ E).
  - rewrite bytes_compare_Gt in E. naive_solver.
Qed.

#[export] Instance flush_le_trans : Transitive flush_le.
Proof.
  intros a b c. rewrite !flush_le_iff. intros [H1|[H1 H1']] [H2|[H2 H2']].
  - left. bytes_order.
  - left. by rewrite <- H2.
  - left. by rewrite H1.
  - right. split; [congruence|]. destruct H1' as [|[? ?]], H2' as [|[? ?]]; [left; lia..|]. right. split; [lia|auto].
Qed.

#[export] Instance flush_le_total : Total flush_le.
Proof.
  intros a b. rewrite !flush_le_iff. destruct (bytes_compare (Key a) (Key b)) eqn:E.
  - rewrite bytes_compare_Eq in E. destruct (Z.lt_trichotomy (Seq a) (Seq b)) as [|[|]]; [naive_solver| |naive_solver].
    destruct (Tombstone a) eqn:Ea; [left|right]; right; (split; [done|]); right; (split; [done|]); naive_solver.
  - rewrite bytes_compare_Lt in E. naive_solver.
  - rewrite bytes_compare_Gt in E. naive_solver.
Qed.

Lemma flush_sort_perm es : flush_sort es ≡ₚ es.
Proof. apply merge_sort_Permutation. Qed.

(** Entries with distinct keys come out in the order of their keys. *)
Lemma flush_sort_run es : NoDup (map Key es) -> sorted_run (flush_sort es).
Proof.
  intros Hn. assert (Hs : StronglySorted flush_le (flush_sort es)) by (apply StronglySorted_merge_sort; apply _).
  assert (Hn' : NoDup (map Key (flush_sort es))) by (by rewrite flush_sort_perm). clear Hn.
  induction Hs as [|e l Hs IH Hf]; [constructor|]. cbn [map] in Hn'. apply NoDup_cons in Hn' as [Hin Hn'].
  constructor; [by apply IH|]. apply Forall_forall. intros x Hx. rewrite Forall_forall in Hf.
  destruct (proj1 (flush_le_iff e x) (Hf x Hx)) as [|[E _]]; [done|]. destruct Hin. rewrite E. by apply list_elem_of_fmap_2.
Qed.

Section Reads.
Context (snappy_Decode : bytes -> option bytes).

(** A client's reads. *)
Inductive read_op := ReadGet (key : bytes) | ReadRange (start stop : bytes).

(** [steps] bounds the calls of [Next], [fuel] the rounds of one call. *)
Definition do_read (r : Reader) (steps fuel : nat) (op : read_op) : SE rstate (list EntryView) :=
  match op with
  | ReadGet key => v ← GetView snappy_Decode r key; mret (option_list v)
  | ReadRange start stop => fun s =>
      let '(vs, (s, _)) := range_entries snappy_Decode r start stop steps fuel (s, newRangeIterator) in (vs, s)
  end.

Fixpoint do_reads (r : Reader) (steps fuel : nat) (ops : list read_op) : SE rstate (list (list EntryView)) :=
  match ops with
  | [] => mret []
  | op :: ops => x ← do_read r steps fuel op; xs ← do_reads r steps fuel ops; mret (x :: xs)
  end.

(** What they are on the entries themselves. *)
Definition answer (es : list Entry) (op : read_op) : list Entry :=
  match op with
  | ReadGet key => option_list (lookup_entry key es)
  | ReadRange start stop => entries_between start stop es
  end.

(** ** Reads of a table *)

Section Table.
Context (r : Reader) (groups : list seg) (parts : list part) (fsegs : list seg).
Context (T : table_rep snappy_Decode (r_pipe r) groups parts fsegs).
Context (Hrange : forall key, out_of_range (r_meta r) key = true -> lookup_entry key (seg_entries groups) = None).

Lemma GetView_wp key s :
  reader_ok groups parts fsegs s ->
  wp (GetView snappy_Decode r key)
    (fun v s => v = EntryView_of <$> lookup_entry key (seg_entries groups) /\ reader_ok groups parts fsegs s) s.
Proof.
  intros [Hi Hd]. unfold wp, GetView. rewrite Hd. destruct (out_of_range (r_meta r) key) eqn:E.
  { exists None, s. rewrite (Hrange key E). split; [done|]. split; [done|]. by split. }
  destruct (Pipeline_Get_runs snappy_Decode _ _ _ _ T key (rs_pipe s) Hi) as (v & ps & Ev & Hi' & ->).
  unfold in_pipe. rewrite Ev. eexists _, _. split; [done|]. split; [done|]. by split.
Qed.

Lemma do_read_wp steps fuel op s :
  reader_ok groups parts fsegs s -> (length (seg_entries groups) < steps)%nat ->
  wp (do_read r steps (S (S fuel)) op)
    (fun vs s => vs = map EntryView_of (answer (seg_entries groups) op) /\ reader_ok groups parts fsegs s) s.
Proof.
  intros Hs Hn. destruct op as [key|start stop]; cbn [do_read answer].
  - apply wp_bind. eapply wp_mono; [by apply GetView_wp|]. intros v s' [-> Hs']. apply wp_ret. split; [|done].
    by destruct (lookup_entry key (seg_entries groups)).
  - destruct (range_entries_wp snappy_Decode r start stop groups parts fsegs T (entries_from start (seg_entries groups))
      newRangeIterator s steps fuel) as (vs & [s' it'] & E & -> & Hs').
    + by apply (new_iter_rep snappy_Decode r start groups parts fsegs).
    + done.
    + unfold entries_from. pose proof (length_filter (fun e => start ⪯ Key e) (seg_entries groups)). lia.
    + eexists _, s'. rewrite E. split; [done|]. split; [|done]. by rewrite until_between by apply T.
Qed.

Lemma do_reads_wp steps fuel ops : forall s,
  reader_ok groups parts fsegs s -> (length (seg_entries groups) < steps)%nat ->
  wp (do_reads r steps (S (S fuel)) ops)
    (fun xs s => xs = map (fun op => map EntryView_of (answer (seg_entries groups) op)) ops) s.
Proof.
  induction ops as [|op ops IH]; intros s Hs Hn; cbn [do_reads map]; [by apply wp_ret|].
  apply wp_bind. eapply wp_mono; [by apply do_read_wp|]. intros x s' [-> Hs'].
  apply wp_bind. eapply wp_mono; [by apply IH|]. intros xs s'' ->. by apply wp_ret.
Qed.
End Table.
End Reads.

(** ** Flushing *)

Lemma valid_compression o : Validate o = Ok tt -> opt_Compression o = CompressionNone \/ opt_Compression o = CompressionSnappy.
Proof. unfold Validate. destruct (opt_Compression o); auto. discriminate. Qed.

Lemma Validate_again o : Validate o = Ok tt -> Validate (Normalize o) = Ok tt.
Proof.
  unfold Validate, Normalize. cbn [opt_Compression opt_Checksum opt_CorruptionPolicy].
  destruct (opt_Compression o), (opt_Checksum o), (opt_CorruptionPolicy o); done.
Qed.

Section Flush.
Context (snappy_Encode : bytes -> bytes) (snappy_Decode : bytes -> option bytes).
Context (snappy_roundtrip : forall b, zlen b < 2 ^ 31 -> snappy_Decode (snappy_Encode b) = Some b).
Context (snappy_length : forall b, zlen (snappy_Encode b) <= 32 + zlen b + zlen b / 6).
Context (o0 : Options) (spare : bytes).

(** The options of a writer. *)
Local Abbreviation o := (Normalize o0).
Context (Hvalid : Validate o = Ok tt) (Hoverride : PolicyOverride o0 = None).

(** What a run needs to be written and read: one entry per key, no empty
    key, sizes far from the widths of the format, and blocks within the
    reader's limit. *)
Record flushable (es : list Entry) : Prop := {
  fl_nonempty : es <> [];
  fl_keys : NoDup (map Key es);
  fl_small : small_run es /\ run_bytes es < 2 ^ 27;
  fl_filter : filter_fits o (zlen es);
  fl_limit : block_limit o (ReadBlockMaxBytes o) es
}.

Lemma run_bytes_perm es es' : es ≡ₚ es' -> run_bytes es = run_bytes es'.
Proof. unfold run_bytes. induction 1; cbn [fold_right] in *; congruence || lia. Qed.

Lemma flushable_sort es : flushable es -> flushable (flush_sort es).
Proof.
  intros [H1 H2 [(S1 & S2 & S3) S4] H4 [L1 L2]]. pose proof (flush_sort_perm es) as P. split.
  - intros E. rewrite E in P. by apply Permutation_nil_l in P.
  - by rewrite P.
  - unfold small_run. rewrite (run_bytes_perm _ _ P), P. done.
  - unfold zlen in *. by rewrite P.
  - split; [done|]. by rewrite P.
Qed.

Lemma read_limit_again a b : pol_ReadBlockMaxBytes (SnapshotFromOptions (Normalize o) a b) = ReadBlockMaxBytes o.
Proof.
  unfold SnapshotFromOptions. cbn [Normalize PolicyOverride]. rewrite Hoverride. cbn [pol_ReadBlockMaxBytes].
  change (norm_read_max (Normalize o0) = norm_read_max o0).
  apply norm_read_max_again; [apply norm_block_max_again|done].
Qed.

Lemma fresh_caches_pinv fp ip groups parts fsegs : pinv groups parts fsegs (fresh_caches fp ip o).
Proof.
  unfold fresh_caches. split; cbn [ps_block ps_index ps_filter]; try (destruct ip); try (destruct fp);
    try done; first [apply (NewCache_spec (fun _ _ => True))|apply NewCache_spec].
Qed.

Lemma syncDir_ok fs : fs_faults fs = [] -> syncDir fs = (Ok tt, fs).
Proof.
  intros H. unfold syncDir. rewrite (SE_bind_Ok _ _ _ tt fs) by (by apply fs_may_fail_ok).
  rewrite (SE_bind_Ok _ _ _ None fs) by (unfold catch; by rewrite fs_may_fail_ok). by apply fs_may_fail_ok.
Qed.

Lemma LoadSSTable_ok path fs file r ps :
  fs_faults fs = [] -> fs_dir fs !! path = Some file -> Validate (Normalize o) = Ok tt ->
  openReader snappy_Decode file o spare = Ok (r, ps) ->
  LoadSSTable snappy_Decode path o spare fs = (Ok (mkSSTable path (SeqMax (r_meta r)) r ps), fs).
Proof.
  intros Hf Hp Hv Ho. unfold LoadSSTable. rewrite (SE_bind_Ok _ _ _ tt fs) by (unfold lift; by rewrite Hv).
  rewrite (SE_bind_Ok _ _ _ tt fs) by (by apply fs_may_fail_ok). rewrite SE_get_bind, Hp.
  rewrite (SE_bind_Ok _ _ _ tt fs) by (by apply fs_may_fail_ok).
  by rewrite (SE_bind_Ok _ _ _ (r, ps) fs) by (unfold lift; by rewrite Ho).
Qed.

(** The sorted run that [Flush] writes, and its files. *)
Definition final_path (es : list Entry) (fs : FS) : string :=
  table_name (from_option Seq 0 (last (flush_sort es))) (fs_now fs).
Definition temp_path (es : list Entry) (fs : FS) : string :=
  temp_name (from_option Seq 0 (last (flush_sort es))) (fs_now fs).

Lemma Flush_writes es first final fs file r ps :
  head (flush_sort es) = Some first -> last (flush_sort es) = Some final -> fs_faults fs = [] ->
  writes (temp_path es fs) (write_table snappy_Encode (temp_path es fs) o (flush_sort es) (Key first) (Key final) (Seq first) (Seq final))
    file tt ->
  openReader snappy_Decode file o spare = Ok (r, ps) ->
  Flush snappy_Encode snappy_Decode o spare es fs
  = (Ok (mkSSTable (final_path es fs) (SeqMax (r_meta r)) r ps),
     with_dir (<[final_path es fs := file]> (delete (temp_path es fs) (fs_dir fs))) fs).
Proof.
  intros Hh Hl Hfs Hw Ho. unfold Flush. unfold final_path, temp_path in *. rewrite Hh, Hl in *. cbn [from_option] in *.
  rewrite SE_get_bind. set (temp := temp_name (Seq final) (fs_now fs)) in *. set (path := table_name (Seq final) (fs_now fs)).
  rewrite (SE_bind_Ok _ _ _ tt _ (fs_create_ok temp err_create_sst fs Hfs)).
  set (fs1 := with_dir (<[temp := []]> (fs_dir fs)) fs).
  pose proof (Hw fs1 [] Hfs (lookup_insert_eq _ _ _)) as Hw1. cbn [app] in Hw1.
  set (fs2 := mkFS (<[temp := file]> (fs_dir fs)) (fs_faults fs) (fs_now fs)).
  replace (with_dir (<[temp:=file]> (fs_dir fs1)) fs1) with fs2 in Hw1
    by (unfold fs1, fs2, with_dir; cbn [fs_dir fs_faults fs_now]; by rewrite insert_insert_eq).
  rewrite (SE_bind_Ok _ _ _ tt fs2) by (unfold close_on_error; by rewrite Hw1).
  rewrite (SE_bind_Ok _ _ _ tt fs2) by (by apply fs_may_fail_ok).
  rewrite (SE_bind_Ok _ _ _ tt _ (fs_rename_file_ok temp path err_rename_sst fs2 Hfs)).
  rewrite (SE_bind_Ok _ _ _ tt _ (syncDir_ok (with_dir (fs_rename temp path (fs_dir fs2)) fs2) Hfs)).
  assert (Er : fs_rename temp path (fs_dir fs2) = <[path := file]> (delete temp (fs_dir fs))).
  { unfold fs_rename, fs2. cbn [fs_dir]. rewrite lookup_insert_eq. f_equal. by rewrite delete_insert_eq. }
  rewrite Er. change (with_dir (<[path:=file]> (delete temp (fs_dir fs))) fs2) with (with_dir (<[path:=file]> (delete temp (fs_dir fs))) fs).
  apply (LoadSSTable_ok path (with_dir _ fs) file r ps Hfs (lookup_insert_eq _ _ _) (Validate_again _ Hvalid) Ho).
Qed.

Lemma run_key_le es e : e ∈ es -> zlen (Key e) <= run_bytes es.
Proof.
  intros (a & b & ->)%list_elem_of_split. rewrite run_bytes_app. cbn [run_bytes fold_right]. fold (run_bytes b).
  pose proof (run_bytes_nonneg a). pose proof (run_bytes_nonneg b). pose proof (zlen_nonneg (Value e)).
  unfold entry_bytes. lia.
Qed.

(** Keys outside of a run's first and last one are not in it. *)
Lemma out_of_run m es first final key :
  sorted_run es -> head es = Some first -> last es = Some final -> MinKey m = Key first -> MaxKey m = Key final ->
  out_of_range m key = true -> lookup_entry key es = None.
Proof.
  intros Hs Hh Hl E1 E2 Ho. unfold out_of_range in Ho. rewrite E1, E2 in Ho.
  destruct (lookup_entry key es) as [e|] eqn:E; [|done]. exfalso. apply lookup_entry_Some in E as [He <-].
  apply list_elem_of_lookup in He as [i Hi]. pose proof (lookup_lt_Some _ _ _ Hi) as Hlt.
  rewrite head_lookup in Hh. rewrite last_lookup in Hl.
  assert (B1 : Key first ⪯ Key e).
  { destruct (decide (i = 0%nat)) as [->|]; [rewrite Hh in Hi; injection Hi as ->; apply bytes_le_refl|].
    apply bytes_lt_le. exact (StronglySorted_lookup _ _ 0 i _ _ Hs ltac:(lia) Hh Hi). }
  assert (B2 : Key e ⪯ Key final).
  { destruct (decide (i = pred (length es))) as [->|]; [rewrite Hl in Hi; injection Hi as ->; apply bytes_le_refl|].
    apply bytes_lt_le. exact (StronglySorted_lookup _ _ i (pred (length es)) _ _ Hs ltac:(lia) Hi Hl). }
  apply orb_true_iff in Ho as [[_ H]%bool_decide_eq_true|[_ H]%bool_decide_eq_true].
  - rewrite bytes_compare_Lt in H. bytes_order.
  - rewrite bytes_compare_Gt in H. bytes_order.
Qed.

(** What the meta block says of the run of a table. *)
Record run_meta (m : Meta) (es : list Entry) : Prop := {
  rm_min : exists first, head es = Some first /\ MinKey m = Key first;
  rm_max : exists final, last es = Some final /\ MaxKey m = Key final;
  rm_low : (forall e, e ∈ es -> SeqMin m <= Seq e) /\ exists e, e ∈ es /\ Seq e = SeqMin m;
  rm_high : (forall e, e ∈ es -> Seq e <= SeqMax m) /\ exists e, e ∈ es /\ Seq e = SeqMax m
}.

Lemma seq_low_spec es : forall lo,
  seq_low lo es <= lo /\ (forall e, e ∈ es -> seq_low lo es <= Seq e) /\ (seq_low lo es = lo \/ exists e, e ∈ es /\ Seq e = seq_low lo es).
Proof.
  unfold seq_low. induction es as [|x es IH]; intros lo; cbn [fold_left].
  { split; [lia|]. split; [by intros e ?%elem_of_nil|by left]. }
  destruct (IH (Z.min (Seq x) lo)) as (H1 & H2 & H3). split; [lia|]. split.
  - intros e [->|He]%elem_of_cons; [lia|auto].
  - destruct H3 as [H3|(e & He & E)]; [|right; exists e; split; [by right|done]].
    destruct (Z.min_spec (Seq x) lo) as [[_ Hm]|[_ Hm]]; [right; exists x; split; [by left|congruence]|left; congruence].
Qed.

Lemma seq_high_spec es : forall hi,
  hi <= seq_high hi es /\ (forall e, e ∈ es -> Seq e <= seq_high hi es) /\ (seq_high hi es = hi \/ exists e, e ∈ es /\ Seq e = seq_high hi es).
Proof.
  unfold seq_high. induction es as [|x es IH]; intros hi; cbn [fold_left].
  { split; [lia|]. split; [by intros e ?%elem_of_nil|by left]. }
  destruct (IH (Z.max (Seq x) hi)) as (H1 & H2 & H3). split; [lia|]. split.
  - intros e [->|He]%elem_of_cons; [lia|auto].
  - destruct H3 as [H3|(e & He & E)]; [|right; exists e; split; [by right|done]].
    destruct (Z.max_spec (Seq x) hi) as [[_ Hm]|[_ Hm]]; [left; congruence|right; exists x; split; [by left|congruence]].
Qed.

Lemma run_meta_intro m es first final :
  head es = Some first -> last es = Some final -> MinKey m = Key first -> MaxKey m = Key final ->
  SeqMin m = seq_low (Seq first) es -> SeqMax m = seq_high (Seq final) es -> run_meta m es.
Proof.
  intros Hh Hl E1 E2 E3 E4. destruct (seq_low_spec es (Seq first)) as (_ & A1 & A2). destruct (seq_high_spec es (Seq final)) as (_ & B1 & B2).
  split; [by exists first|by exists final|rewrite E3|rewrite E4].
  - split; [done|]. destruct A2 as [->|A2]; [|done]. exists first. split; [by apply head_Some_elem_of|done].
  - split; [done|]. destruct B2 as [->|B2]; [|done]. exists final. split; [by apply last_Some_elem_of|done].
Qed.

Lemma Flush_table es fs :
  flushable es -> fs_faults fs = [] ->
  exists file r ps groups parts fsegs,
    Flush snappy_Encode snappy_Decode o spare es fs
    = (Ok (mkSSTable (final_path es fs) (SeqMax (r_meta r)) r ps),
       with_dir (<[final_path es fs := file]> (delete (temp_path es fs) (fs_dir fs))) fs) /\
    seg_entries groups = flush_sort es /\ table_rep snappy_Decode (r_pipe r) groups parts fsegs /\
    pinv groups parts fsegs ps /\ run_meta (r_meta r) (flush_sort es) /\
    (forall key, out_of_range (r_meta r) key = true -> lookup_entry key (flush_sort es) = None).
Proof.
  intros Hfl0 Hfs. pose proof (flush_sort_run es (fl_keys _ Hfl0)) as Hsr.
  destruct (flushable_sort es Hfl0) as [Hne _ [Hsm Hb] Hff Hlim]. clear Hfl0.
  destruct (head (flush_sort es)) as [first|] eqn:Hh; [|by destruct (flush_sort es)].
  destruct (last (flush_sort es)) as [final|] eqn:Hl; [|by apply last_None in Hl].
  assert (Hin1 : first ∈ flush_sort es) by (by apply head_Some_elem_of).
  assert (Hin2 : final ∈ flush_sort es) by (by apply last_Some_elem_of).
  pose proof (run_key_le _ _ Hin1). pose proof (run_key_le _ _ Hin2).
  destruct Hsm as (Hwf & Hk & Hb2). pose proof Hwf as Hwf'. rewrite Forall_forall in Hwf'.
  pose proof (no_target _ (Normalize_normal o0)) as Ht.
  destruct (write_table_writes snappy_Encode snappy_length (temp_path es fs) o (flush_sort es) (Key first) (Key final) (Seq first) (Seq final))
    as (gs & fp & ip & m & Egs & Hgs & Hpl & Hso & Hm & Hlo & Hhi & Hw); try done; [lia|by apply Hwf'|by apply Hwf'|lia|].
  pose (policy := SnapshotFromOptions (Normalize o) (match ip with PartIndex _ => true | WholeIndex => false end)
    (match fp with PartFilter _ => true | _ => false end)).
  assert (Hkeys : zlen (MinKey m) + zlen (MaxKey m) < 2 ^ 28) by (rewrite (mo_min _ _ _ _ _ _ _ _ Hm), (mo_max _ _ _ _ _ _ _ _ Hm); lia).
  rewrite <- Egs in Hsr, Hlim.
  assert (Hlim' : block_limit o (pol_ReadBlockMaxBytes policy) (grp_entries gs)) by (unfold policy; by rewrite read_limit_again).
  destruct (table_file_rep snappy_Encode snappy_Decode snappy_roundtrip snappy_length o gs fp ip m policy) as (parts & fsegs & T); try done.
  pose proof (openReader_table_file snappy_Encode snappy_Decode snappy_roundtrip snappy_length o gs fp ip m policy Hgs Hpl Hso Hsr
    Hkeys Hlim' _ _ Hm (valid_compression _ Hvalid) o spare (Validate_again _ Hvalid) eq_refl) as Ho.
  eexists _, _, _, (segs_of snappy_Encode o gs), parts, fsegs.
  split; [eapply Flush_writes; [done|done|done|exact Hw|exact Ho]|]. split; [|split; [exact T|split]].
  - by rewrite segs_of_entries.
  - apply fresh_caches_pinv.
  - split; [cbn [r_meta]; apply (run_meta_intro m _ first final); try done; apply Hm|].
    intros key Hout. rewrite <- Egs. cbn [r_meta] in Hout.
    apply (out_of_run m _ first final); rewrite ?Egs; try done; [by rewrite <- Egs|apply Hm|apply Hm].
Qed.
End Flush.


Definition sample_entries : list Entry :=
  [ mkEntry (bytes_of_string "pear") (bytes_of_string "green") false 7;
    mkEntry (bytes_of_string "apple") [] true 9;
    mkEntry (bytes_of_string "plum") (bytes_of_string "blue") false 8 ].


(** ** Faults *)

Definition clear (fs : FS) : FS := mkFS (fs_dir fs) [] (fs_now fs).

(** Whatever calls fail, [m] touches no file but [name], and unless it
    returns an error it does what it does without faults. *)
Definition robust {A} (name : string) (m : SE FS A) : Prop := forall fs,
  let '(r, fs') := m fs in
  (forall p, p <> name -> fs_dir fs' !! p = fs_dir fs !! p) /\ fs_now fs' = fs_now fs /\
  ((exists e, r = Err e) \/ m (clear fs) = (r, clear fs')).

Lemma robust_pure {A} name (r : result A) : robust name (lift r).
Proof. intros fs. cbn. split; [done|]. split; [done|]. by right. Qed.

Lemma robust_bind {A B} name (m : SE FS A) (f : A -> SE FS B) :
  robust name m -> (forall a, robust name (f a)) -> robust name (x ← m; f x).
Proof.
  intros Hm Hf fs. specialize (Hm fs). unfold mbind, SE_bind. destruct (m fs) as [r fs1]. destruct Hm as (D1 & N1 & Hm).
  destruct r as [a|e| |]; cbv beta iota.
  2-4: split; [done|]; split; [done|].
  2: left; by eexists.
  2-3: destruct Hm as [[e' He]|Hm]; [done|right; by rewrite Hm].
  destruct Hm as [[e He]|Hm]; [done|]. specialize (Hf a fs1). destruct (f a fs1) as [r fs2]. destruct Hf as (D2 & N2 & Hf).
  split; [intros p Hp; by rewrite D2, D1|]. split; [congruence|]. rewrite Hm. by destruct Hf as [?|Hf]; [left|right].
Qed.

Lemma robust_may_fail name e : robust name (fs_may_fail e).
Proof.
  intros fs. unfold fs_may_fail, fs_pop. destruct (fs_faults fs) as [|[n|] l] eqn:E; cbn.
  - split; [done|]. split; [done|]. by right.
  - split; [done|]. split; [done|]. left. eauto.
  - split; [done|]. split; [done|]. by right.
Qed.

Lemma robust_write name data e : robust name (file_write name data e).
Proof.
  intros fs. unfold file_write, fs_write, fs_pop. destruct (fs_faults fs) as [|[n|] l] eqn:E; cbn;
    (split; [intros p Hp; by rewrite lookup_insert_ne|]; split; [done|]; eauto).
Qed.

Lemma robust_create name e : robust name (fs_create name e).
Proof.
  apply robust_bind; [apply robust_may_fail|]. intros _ fs. cbn.
  split; [intros p Hp; by rewrite lookup_insert_ne|]. split; [done|]. by right.
Qed.

Lemma may_fail_same e fs : clear (snd (fs_may_fail e fs)) = clear fs.
Proof. unfold fs_may_fail, fs_pop. by destruct (fs_faults fs) as [|[n|] l]. Qed.

Lemma robust_close {A} name (m : SE FS A) : robust name m -> robust name (close_on_error m).
Proof.
  intros Hm fs. specialize (Hm fs). unfold close_on_error. destruct (m fs) as [r fs1]. destruct Hm as (D & N & Hm).
  pose proof (may_fail_same err_close_sst fs1) as Hc. set (fs2 := snd (fs_may_fail err_close_sst fs1)) in *.
  assert (Hd : fs_dir fs2 = fs_dir fs1 /\ fs_now fs2 = fs_now fs1) by (by injection Hc).
  destruct r as [a|e| |]; cbn [snd].
  1: split; [done|]; split; [done|]; destruct Hm as [[e He]|Hm]; [done|right; by rewrite Hm].
  all: split; [by rewrite (proj1 Hd)|]; split; [by rewrite (proj2 Hd)|].
  - left. eauto.
  - destruct Hm as [[e He]|Hm]; [done|]. right. rewrite Hm, Hc. done.
  - destruct Hm as [[e He]|Hm]; [done|]. right. rewrite Hm, Hc. done.
Qed.

Create HintDb robust.
#[export] Hint Resolve robust_may_fail robust_write robust_create robust_close robust_pure : robust.

(** Code made of robust calls is robust. *)
Ltac robust :=
  repeat first
    [ progress (cbv zeta)
    | apply robust_bind; [|intros ?]
    | solve [auto with robust]
    | match goal with
      | |- robust _ (mret ?a) => apply (robust_pure _ (Ok a))
      | |- robust _ (let '(_, _) := ?x in _) => destruct x
      | |- robust _ (if ?b then _ else _) => destruct b
      | |- robust _ (match ?x with _ => _ end) => destruct x
      end ].

Section Robust.
Context (snappy_Encode : bytes -> bytes) (name : string) (o : Options).

Lemma robust_flushBlock w : robust name (flushBlock snappy_Encode name o w).
Proof. unfold flushBlock. robust. Qed.
#[local] Hint Resolve robust_flushBlock : robust.

Lemma robust_add_entry w e : robust name (add_entry snappy_Encode name o w e).
Proof. unfold add_entry. robust. Qed.
#[local] Hint Resolve robust_add_entry : robust.

Lemma robust_add_entries es : forall w, robust name (add_entries snappy_Encode name o w es).
Proof. induction es as [|e es IH]; intros w; cbn [add_entries]; robust. Qed.
#[local] Hint Resolve robust_add_entries : robust.

Lemma robust_index_partitions fuel : forall entries offset, robust name (index_partitions name o fuel entries offset).
Proof. induction fuel as [|fuel IH]; intros entries offset; cbn [index_partitions]; unfold write_framed; robust. Qed.

Lemma robust_filter_partitions fuel entries blocks counts partition bpk : forall i j offset,
  robust name (filter_partitions fuel name entries blocks counts partition bpk i j offset).
Proof. induction fuel as [|fuel IH]; intros i j offset; cbn [filter_partitions]; robust. Qed.
#[local] Hint Resolve robust_index_partitions robust_filter_partitions : robust.

Lemma robust_write_table es k1 k2 s1 s2 : robust name (write_table snappy_Encode name o es k1 k2 s1 s2).
Proof. unfold write_table, write_blocks, WriteBloomBlock, WritePartitionedBloomFilters, write_framed. robust. Qed.
End Robust.

Lemma robust_get {A} name (f : FS -> SE FS A) :
  (forall fs, f (clear fs) = f fs) -> (forall fs, robust name (f fs)) -> robust name (fs ← get; f fs).
Proof.
  intros Hc Hf fs. rewrite SE_get_bind. specialize (Hf fs fs). destruct (f fs fs) as [r fs']. destruct Hf as (D & N & Hf).
  split; [done|]. split; [done|]. by rewrite SE_get_bind, Hc.
Qed.

Lemma robust_syncDir name : robust name syncDir.
Proof.
  apply robust_bind; [auto with robust|]. intros _ [d faults now]. unfold mbind, SE_bind, catch, fs_may_fail, fs_pop, throw.
  destruct faults as [|[n|] [|[n'|] l]]; cbn -[lookup]; (split; [done|]); (split; [done|]); eauto.
Qed.

Lemma robust_LoadSSTable name snappy_Decode path o spare : robust name (LoadSSTable snappy_Decode path o spare).
Proof.
  unfold LoadSSTable. apply robust_bind; [auto with robust|]. intros _. apply robust_bind; [auto with robust|]. intros _.
  apply robust_get; [done|]. intros fs. destruct (fs_dir fs !! path); [robust|apply (robust_pure _ (Err err_open_sst))].
Qed.

Lemma string_length_app s t : String.length (s +:+ t) = (String.length s + String.length t)%nat.
Proof. induction s as [|a s IH]; [done|]. exact (f_equal S IH). Qed.

(** Calls that are robust for every name leave the directory alone. *)
Lemma robust_keeps {A} (m : SE FS A) : (forall name, robust name m) -> forall fs, fs_dir (snd (m fs)) = fs_dir fs.
Proof.
  intros Hm fs. apply map_eq. intros p. destruct (m fs) as [r fs'] eqn:E.
  pose proof (Hm (String.append p "x") fs) as H. rewrite E in H. apply H. intros Ep.
  apply (f_equal String.length) in Ep. rewrite string_length_app in Ep. cbn in Ep. lia.
Qed.

Lemma temp_not_final seq now : temp_name seq now <> table_name seq now.
Proof.
  unfold temp_name. intros E. apply (f_equal String.length) in E. rewrite string_length_app in E. cbn in E. lia.
Qed.

Section Atomic.
Context (snappy_Encode : bytes -> bytes) (snappy_Decode : bytes -> option bytes) (o : Options) (spare : bytes).

(** The two halves of [Flush]: the temporary file, and publishing it. *)
Definition write_temp (temp : string) (es : list Entry) (first final : Entry) : SE FS unit :=
  _ ← fs_create temp err_create_sst;
  _ ← close_on_error (write_table snappy_Encode temp o es (Key first) (Key final) (Seq first) (Seq final));
  fs_may_fail err_close_sst.

Definition publish (temp path : string) : SE FS SSTable :=
  _ ← fs_rename_file temp path err_rename_sst;
  _ ← syncDir;
  LoadSSTable snappy_Decode path o spare.

Lemma Flush_halves es first final fs :
  head (flush_sort es) = Some first -> last (flush_sort es) = Some final ->
  Flush snappy_Encode snappy_Decode o spare es fs
  = (_ ← write_temp (temp_path es fs) (flush_sort es) first final; publish (temp_path es fs) (final_path es fs)) fs.
Proof.
  intros Hh Hl. unfold Flush, temp_path, final_path, write_temp, publish. rewrite Hh, Hl. rewrite SE_get_bind. cbn [from_option].
  unfold mbind, SE_bind. repeat (match goal with |- context[match ?x with _ => _ end] => destruct x as [[] ?] end; try done).
Qed.

Lemma robust_write_temp temp es first final : robust temp (write_temp temp es first final).
Proof.
  unfold write_temp. apply robust_bind; [auto with robust|intros _].
  apply robust_bind; [apply robust_close, robust_write_table|auto with robust].
Qed.

(** Publishing does nothing, or what it does without faults. *)
Lemma publish_atomic temp path fs :
  let '(r, fs') := publish temp path fs in
  (fs_dir fs' = fs_dir fs \/ fs_dir fs' = fs_dir (snd (publish temp path (clear fs)))) /\
  ((exists e, r = Err e) \/ publish temp path (clear fs) = (r, clear fs')).
Proof.
  set (tail := _ ← syncDir; LoadSSTable snappy_Decode path o spare).
  assert (Ht : forall name, robust name tail).
  { intros name. apply robust_bind; [apply robust_syncDir|]. intros _. apply robust_LoadSSTable. }
  change (publish temp path) with (_ ← fs_rename_file temp path err_rename_sst; tail).
  rewrite (SE_bind_Ok _ _ (clear fs) tt _ (fs_rename_file_ok temp path err_rename_sst (clear fs) eq_refl)).
  assert (Hr : (exists fs1, fs_rename_file temp path err_rename_sst fs = (Err err_rename_sst, fs1) /\ fs_dir fs1 = fs_dir fs) \/
     exists fs1, fs_rename_file temp path err_rename_sst fs = (Ok tt, fs1) /\
       clear fs1 = with_dir (fs_rename temp path (fs_dir (clear fs))) (clear fs)).
  { unfold fs_rename_file, fs_may_fail, fs_pop, mbind, SE_bind. destruct (fs_faults fs) as [|[n|] l]; cbn; eauto. }
  destruct Hr as [(fs1 & E & Ed)|(fs1 & E & <-)].
  - unfold mbind at 1, SE_bind. rewrite E. split; [by left|]. left. eauto.
  - rewrite (SE_bind_Ok _ _ _ _ _ E). rewrite (robust_keeps tail Ht (clear fs1)).
    pose proof (robust_keeps tail Ht fs1) as Hk. specialize (Ht "x"%string fs1). destruct (tail fs1) as [r fs'].
    cbn [snd] in Hk. split; [right; by rewrite Hk|]. apply Ht.
Qed.
End Atomic.

(** C9. Publication is atomic.  Whatever calls to the file system fail, and
    after however many bytes a failing write stops, [Flush] leaves every file
    but its temporary one as it was, or leaves the directory that it leaves
    without faults, where the complete table has replaced the temporary file.
    A result that is not an error is the one of the run without faults. *)
Theorem flush_is_atomic snappy_Encode snappy_Decode o spare es fs :
  let '(r, fs') := Flush snappy_Encode snappy_Decode o spare es fs in
  let '(r0, fs0) := Flush snappy_Encode snappy_Decode o spare es (clear fs) in
  ((forall p, p <> temp_path es fs -> fs_dir fs' !! p = fs_dir fs !! p) \/ fs_dir fs' = fs_dir fs0) /\
  ((exists e, r = Err e) \/ (r = r0 /\ fs_dir fs' = fs_dir fs0)).
Proof.
  destruct (head (flush_sort es)) as [first|] eqn:Hh.
  2:{ unfold Flush. rewrite Hh. cbn. split; [by left|]. left. eauto. }
  destruct (last (flush_sort es)) as [final|] eqn:Hl; [|apply last_None in Hl; by rewrite Hl in Hh].
  rewrite !(Flush_halves _ _ _ _ _ first final) by done.
  change (temp_path es (clear fs)) with (temp_path es fs). change (final_path es (clear fs)) with (final_path es fs).
  set (temp := temp_path es fs). set (path := final_path es fs).
  pose proof (robust_write_temp snappy_Encode o temp (flush_sort es) first final fs) as Hw.
  unfold mbind, SE_bind. destruct (write_temp snappy_Encode o temp (flush_sort es) first final fs) as [r fs1].
  destruct Hw as (D & N & Hw). destruct r as [a|e| |].
  2:{ match goal with |- let '(_, _) := ?x in _ => destruct x end. split; [by left|]. left. eauto. }
  2-3: destruct Hw as [[e He]|Hw]; [done|]; rewrite Hw; cbv beta iota; split; [by left|right; done].
  destruct Hw as [[e He]|Hw]; [done|]. rewrite Hw. cbv beta iota.
  pose proof (publish_atomic snappy_Decode o spare temp path fs1) as Hp.
  destruct (publish snappy_Decode o spare temp path fs1) as [r fs2], (publish snappy_Decode o spare temp path (clear fs1)) as [r0 fs0].
  destruct Hp as [[Hd|Hd] Hp]; cbn [snd] in *.
  - split; [left; intros p Hne; rewrite Hd; by apply D|]. destruct Hp as [?|[= -> ->]]; [by left|]. by right.
  - split; [by right|]. destruct Hp as [?|[= -> ->]]; [by left|]. by right.
Qed.

(** ** Values above the read limit *)

(** [ReadBlockMaxBytes] defaults to four times [BlockMaxBytes]; the writer
    gives a larger entry a block of its own. *)
Definition small_blocks : Options := {|
  BlockTargetBytes := 64; BlockMaxBytes := 64; RestartInterval := 16; IndexPartitionEntries := 0;
  FilterPartitioned := false; ReadBlockMaxBytes := 0; ReadBufferMaxBytes := 0; UseMmap := false;
  opt_Compression := CompressionNone; BloomBitsPerKey := 0; BlockCacheBytes := 0; IndexCacheBytes := 0;
  FilterCacheBytes := 0; PrefetchBlocks := 0; PrefetchBytes := 0; PrefetchBudgetBlocks := 0; PrefetchBudgetBytes := 0;
  PrefetchAsync := false; PrefetchQueueDepth := 0; PrefetchWorkers := 0; opt_Checksum := ChecksumCRC32C;
  opt_CorruptionPolicy := CorruptionFailFast; RestartIntervalAdaptive := false; RestartIntervalMin := 0;
  RestartIntervalMax := 0; PolicyOverride := None |}.

Definition large_entry : Entry := mkEntry (bytes_of_string "k") (replicate 300 x61) false 1.

(** A value larger than the reader's block limit is flushed without an
    error and cannot be read: the context variant of the point read reports a
    bad block and the plain one reports that the key is absent. *)
Theorem large_value_unreadable :
  exists t fs',
    Flush stored_encode stored_decode (Normalize small_blocks) [] [large_entry] (mkFS ∅ [] 1) = (Ok t, fs') /\
    fst (GetViewContext stored_decode (st_reader t) (bytes_of_string "k") (st_state t)) = Err ErrSSTableBadBlock /\
    fst (GetView stored_decode (st_reader t) (bytes_of_string "k") (mkRstate (st_state t) false)) = Ok None.
Proof.
  destruct (Flush stored_encode stored_decode (Normalize small_blocks) [] [large_entry] (mkFS ∅ [] 1)) as [r fs'] eqn:E.
  vm_compute in E. injection E as <- <-. eexists _, _. split; [reflexivity|]. by vm_compute.
Qed.
