(* ===== verification/Heap.v ===== *)
(** * Heaps

    [container/heap] as the merges use it: a heap is a slice ordered by the
    caller's [Less].  The generic facts about it — [Init], [Push] and [Pop]
    keep the heap order and the elements, and [Pop] returns a least one — and
    the loop that merges sorted sequences with it. *)

From Stdlib Require Import ZArith Lia.
From stdpp Require Import base list sorting.
From S2P Require Import Prelude.

Section Heap.
Context {A : Type} (less : A -> A -> bool).

Definition less_at (l : list A) (i j : nat) : bool :=
  match l !! i, l !! j with Some a, Some b => less a b | _, _ => false end.

Definition swap (l : list A) (i j : nat) : list A :=
  match l !! i, l !! j with Some a, Some b => <[j := a]> (<[i := b]> l) | _, _ => l end.

(** [up]: [(j-1)/2] is [0] for [j = 0], where the loop stops. *)
Fixpoint up (fuel : nat) (l : list A) (j : nat) : list A :=
  match fuel with
  | O => l
  | S fuel =>
      let i := Nat.div2 (j - 1) in
      if bool_decide (i = j) || negb (less_at l j i) then l
      else up fuel (swap l i j) i
  end.

Fixpoint down (fuel : nat) (l : list A) (i n : nat) : list A :=
  match fuel with
  | O => l
  | S fuel =>
      let j1 := 2 * i + 1 in
      if bool_decide (n <= j1) then l else
      let j2 := j1 + 1 in
      let j := if bool_decide (j2 < n) && less_at l j2 j1 then j2 else j1 in
      if negb (less_at l j i) then l
      else down fuel (swap l i j) j n
  end.

(** [for i := n/2 - 1; i >= 0; i--]: [todo] is [i + 1]. *)
Fixpoint init_loop (l : list A) (n todo : nat) : list A :=
  match todo with
  | O => l
  | S i => init_loop (down n l i n) n i
  end.

Definition Init (l : list A) : list A := init_loop l (length l) (Nat.div2 (length l)).

Definition Push (l : list A) (x : A) : list A := up (S (length l)) (l ++ [x]) (length l).

(** [Pop] moves the root behind the others; the caller's [Pop] cuts it off. *)
Definition Pop (l : list A) : option (A * list A) :=
  let n := length l - 1 in
  let l := down n (swap l 0 n) 0 n in
  x ← last l; Some (x, take n l).

(** ** The heap order *)

Definition le (a b : A) : Prop := less b a = false.
Context (le_trans : Transitive le) (less_le : forall a b, less a b = true -> le a b).

Definition parent (j : nat) : nat := Nat.div2 (j - 1).

(** The edge from the parent of [j] to [j] is in order. *)
Definition edge (l : list A) (j : nat) : Prop :=
  forall a b, l !! parent j = Some a -> l !! j = Some b -> le a b.

(** In order for all edges from [lo] on, among the first [n]. *)
Definition heap_from (l : list A) (lo n : nat) : Prop :=
  forall j, 0 < j < n -> lo <= parent j -> edge l j.

Definition heap (l : list A) : Prop := heap_from l 0 (length l).

Lemma le_refl a : le a a.
Proof. destruct (less a a) eqn:E; [|done]. exact (less_le _ _ E). Qed.

Lemma length_swap l i j : length (swap l i j) = length l.
Proof. unfold swap. destruct (l !! i), (l !! j); by rewrite ?length_insert. Qed.

Lemma lookup_swap l i j k a b :
  l !! i = Some a -> l !! j = Some b ->
  swap l i j !! k = if decide (k = j) then Some a else if decide (k = i) then Some b else l !! k.
Proof.
  intros Hi Hj. unfold swap. rewrite Hi, Hj. pose proof (lookup_lt_Some _ _ _ Hi). pose proof (lookup_lt_Some _ _ _ Hj).
  destruct (decide (k = j)) as [->|]; [by rewrite list_lookup_insert_eq by (rewrite length_insert; lia)|].
  rewrite list_lookup_insert_ne by done.
  destruct (decide (k = i)) as [->|]; [by rewrite list_lookup_insert_eq by lia|by rewrite list_lookup_insert_ne].
Qed.

Lemma swap_perm l i j : swap l i j ≡ₚ l.
Proof.
  unfold swap. destruct (l !! i) as [a|] eqn:Hi; [|done]. destruct (l !! j) as [b|] eqn:Hj; [|done].
  destruct (decide (i = j)) as [->|Hij].
  { rewrite Hi in Hj. injection Hj as ->. by rewrite !list_insert_id by (rewrite ?list_insert_id; done). }
  apply Permutation_inj. split; [by rewrite !length_insert|].
  exists (fun k => if decide (k = i) then j else if decide (k = j) then i else k). split.
  - intros x y. repeat case_decide; congruence.
  - intros k. pose proof (lookup_swap l i j k a b Hi Hj) as H. unfold swap in H. rewrite Hi, Hj in H. rewrite H.
    repeat case_decide; subst; congruence.
Qed.

Lemma parent_lt j : 0 < j -> parent j < j.
Proof. unfold parent. intros H. rewrite Nat.div2_div. pose proof (Nat.Div0.div_lt_upper_bound (j - 1) 2 j). lia. Qed.

Lemma parent_child j i : 0 < j -> parent j = i <-> j = 2 * i + 1 \/ j = 2 * i + 2.
Proof.
  unfold parent. intros H. rewrite Nat.div2_div. split.
  - intros <-. pose proof (Nat.div_mod_eq (j - 1) 2). pose proof (Nat.mod_upper_bound (j - 1) 2). lia.
  - intros [->| ->].
    + replace (2 * i + 1 - 1) with (i * 2) by lia. by rewrite Nat.div_mul.
    + replace (2 * i + 2 - 1) with (1 + i * 2) by lia. by rewrite Nat.div_add.
Qed.

(** The smaller child. *)
Lemma least_child l i n :
  n <= length l -> 2 * i + 1 < n ->
  let j := if bool_decide (2 * i + 1 + 1 < n) && less_at l (2 * i + 1 + 1) (2 * i + 1) then 2 * i + 1 + 1 else 2 * i + 1 in
  (j = 2 * i + 1 \/ j = 2 * i + 2) /\ j < n /\ parent j = i /\
  exists b, l !! j = Some b /\ forall k c, 0 < k < n -> parent k = i -> l !! k = Some c -> le b c.
Proof.
  intros Hn Hi. cbv zeta. destruct (lookup_lt_is_Some_2 l (2 * i + 1) ltac:(lia)) as [b1 E1].
  assert (K : forall k c, 0 < k < n -> parent k = i -> l !! k = Some c ->
     (k = 2 * i + 1 /\ c = b1) \/ (k = 2 * i + 1 + 1 /\ 2 * i + 1 + 1 < n)).
  { intros k c Hk Hp Hc. apply parent_child in Hp as [->| ->]; [left|right|lia].
    - split; [done|congruence].
    - split; lia. }
  case_bool_decide as H2; cbn [andb].
  2:{ split; [by left|]. split; [lia|]. split; [apply parent_child; lia|]. exists b1. split; [done|].
      intros k c Hk Hp Hc. destruct (K k c Hk Hp Hc) as [[_ ->]|[_ ?]]; [apply le_refl|lia]. }
  destruct (lookup_lt_is_Some_2 l (2 * i + 1 + 1) ltac:(lia)) as [b2 E2]. unfold less_at. rewrite E1, E2.
  destruct (less b2 b1) eqn:Hl.
  - split; [right; lia|]. split; [lia|]. split; [apply parent_child; lia|]. exists b2. split; [done|].
    intros k c Hk Hp Hc. destruct (K k c Hk Hp Hc) as [[_ ->]|[-> _]]; [by apply less_le|].
    rewrite E2 in Hc. injection Hc as ->. apply le_refl.
  - split; [by left|]. split; [lia|]. split; [apply parent_child; lia|]. exists b1. split; [done|].
    intros k c Hk Hp Hc. destruct (K k c Hk Hp Hc) as [[_ ->]|[-> _]]; [apply le_refl|].
    rewrite E2 in Hc. by injection Hc as ->.
Qed.

Lemma down_heap fuel : forall l i n lo,
  n <= length l -> lo <= i -> n <= i + fuel ->
  (forall j, 0 < j < n -> lo <= parent j -> parent j <> i -> edge l j) ->
  (forall j a b, 0 < j < n -> parent j = i -> 0 < i -> lo <= parent i -> l !! parent i = Some a -> l !! j = Some b -> le a b) ->
  heap_from (down fuel l i n) lo n.
Proof.
  induction fuel as [|fuel IH]; intros l i n lo Hn Hlo Hf He Hg; cbn [down].
  { intros j Hj Hp. destruct (decide (parent j = i)) as [E|]; [|by apply He]. pose proof (parent_lt j). lia. }
  case_bool_decide as H1.
  { intros j Hj Hp. destruct (decide (parent j = i)) as [E|]; [|by apply He]. apply parent_child in E; lia. }
  destruct (least_child l i n Hn ltac:(lia)) as (Hj & Hjn & Hpj & b & Eb & Hb).
  set (j := if _ && _ then _ else _) in *. destruct (lookup_lt_is_Some_2 l i ltac:(lia)) as [a Ea].
  unfold less_at. rewrite Eb, Ea. destruct (less b a) eqn:Hl; cbn [negb].
  2:{ intros k Hk Hp. destruct (decide (parent k = i)) as [E|]; [|by apply He]. intros x y Hx Hy.
      rewrite E, Ea in Hx. injection Hx as <-. apply (le_trans _ b); [exact Hl|by apply (Hb k)]. }
  pose proof (lookup_swap l i j) as Hs.
  apply IH; [by rewrite length_swap|lia|lia|..].
  - intros k Hk Hp Hkj x y Hx Hy. rewrite (Hs _ a b Ea Eb) in Hx. rewrite (Hs _ a b Ea Eb) in Hy.
    destruct (decide (parent k = j)) as [|]; [lia|].
    destruct (decide (k = j)) as [->|Hne]; [injection Hy as <-|].
    { rewrite decide_True in Hx by done. injection Hx as <-. by apply less_le. }
    destruct (decide (k = i)) as [->|].
    { rewrite decide_False in Hx by (pose proof (parent_lt i); lia). injection Hy as <-. apply (Hg j x b); [lia|done|lia|lia|done|done]. }
    destruct (decide (parent k = i)) as [E|]; [injection Hx as <-; by apply (Hb k)|]. by apply (He k Hk Hp).
  - intros k x y Hk Hpk H0 Hpp Hx Hy. rewrite (Hs _ a b Ea Eb) in Hx. rewrite (Hs _ a b Ea Eb) in Hy. rewrite Hpj in Hx, Hpp.
    rewrite decide_False in Hx by lia. rewrite decide_True in Hx by done. injection Hx as <-.
    pose proof (parent_lt k). rewrite !decide_False in Hy by lia.
    apply (He k Hk ltac:(lia) ltac:(lia)); [by rewrite Hpk|done].
Qed.

Lemma down_perm fuel : forall l i n, down fuel l i n ≡ₚ l.
Proof.
  induction fuel as [|fuel IH]; intros l i n; cbn [down]; [done|].
  case_bool_decide; [done|]. destruct (negb _); [done|]. by rewrite IH, swap_perm.
Qed.

Lemma length_down fuel l i n : length (down fuel l i n) = length l.
Proof. by rewrite down_perm. Qed.

(** [down] stays below [n]. *)
Lemma down_above fuel : forall l i n k, n <= length l -> n <= k -> down fuel l i n !! k = l !! k.
Proof.
  induction fuel as [|fuel IH]; intros l i n k Hn Hk; cbn [down]; [done|]. case_bool_decide; [done|].
  destruct (least_child l i n Hn ltac:(lia)) as (Hj & Hjn & Hpj & b & Eb & _). set (j := if _ && _ then _ else _) in *.
  destruct (negb _); [done|]. rewrite IH; [|by rewrite length_swap|done].
  destruct (lookup_lt_is_Some_2 l i ltac:(lia)) as [a Ea]. rewrite (lookup_swap l i j k a b Ea Eb).
  by rewrite !decide_False by lia.
Qed.

Lemma init_loop_heap n todo : forall l, n <= length l -> heap_from l todo n -> heap_from (init_loop l n todo) 0 n.
Proof.
  induction todo as [|i IH]; intros l Hn Hh; cbn [init_loop]; [done|]. apply IH; [by rewrite length_down|].
  apply down_heap; [done|done|lia|..].
  - intros j Hj Hp Hne. apply Hh; [done|lia].
  - intros j a b Hj Hp H0 Hlo. pose proof (parent_lt i). lia.
Qed.

Lemma init_loop_perm n todo : forall l, init_loop l n todo ≡ₚ l.
Proof. induction todo as [|i IH]; intros l; cbn [init_loop]; [done|]. by rewrite IH, down_perm. Qed.

Lemma Init_spec l : heap (Init l) /\ Init l ≡ₚ l.
Proof.
  assert (P : Init l ≡ₚ l) by apply init_loop_perm. split; [|done]. unfold heap.
  replace (length (Init l)) with (length l) by (by rewrite P). apply init_loop_heap; [done|]. intros j Hj Hp. pose proof (parent_lt j). exfalso.
  assert (2 * parent j + 1 <= j) by (pose proof (proj1 (parent_child j (parent j) ltac:(lia)) eq_refl); lia).
  rewrite Nat.div2_div in Hp. pose proof (Nat.div_mod_eq (length l) 2). pose proof (Nat.mod_upper_bound (length l) 2). lia.
Qed.

Lemma up_heap fuel : forall l j,
  j < length l -> j < fuel ->
  (forall k, 0 < k < length l -> k <> j -> edge l k) ->
  (forall k a b, 0 < k < length l -> parent k = j -> 0 < j -> l !! parent j = Some a -> l !! k = Some b -> le a b) ->
  heap (up fuel l j).
Proof.
  induction fuel as [|fuel IH]; intros l j Hj Hf He Hg; [lia|]. cbn [up]. fold (parent j).
  case_bool_decide as H0; cbn [orb].
  { intros k Hk _. apply He; [done|]. intros ->. pose proof (parent_lt j). lia. }
  assert (0 < j) as Hj0 by (destruct j; [by destruct H0|lia]). pose proof (parent_lt j Hj0) as Hpj. set (i := parent j) in *.
  destruct (lookup_lt_is_Some_2 l i ltac:(lia)) as [a Ea]. destruct (lookup_lt_is_Some_2 l j ltac:(lia)) as [b Eb].
  unfold less_at. rewrite Eb, Ea. destruct (less b a) eqn:Hl; cbn [negb].
  2:{ intros k Hk _. destruct (decide (k = j)) as [->|]; [|by apply He]. intros x y Hx Hy.
      fold i in Hx. congruence. }
  pose proof (lookup_swap l i j) as Hs. pose proof (less_le _ _ Hl) as Hba.
  apply IH; rewrite ?length_swap; [lia|lia|..].
  - intros k Hk Hki x y Hx Hy. rewrite (Hs _ a b Ea Eb) in Hx. rewrite (Hs _ a b Ea Eb) in Hy.
    rewrite (decide_False (P := k = i)) in Hy by done. destruct (decide (k = j)) as [->|Hne].
    { injection Hy as <-. fold i in Hx. rewrite decide_False, decide_True in Hx by (done || lia). by injection Hx as <-. }
    destruct (decide (parent k = j)) as [E|]; [injection Hx as <-; by apply (Hg k)|].
    destruct (decide (parent k = i)) as [E|]; [injection Hx as <-|by apply (He k)].
    apply (le_trans _ a); [done|]. apply (He k Hk Hne); [by rewrite E|done].
  - intros k x y Hk Hpk Hi0 Hx Hy. pose proof (parent_lt i Hi0). pose proof (parent_lt k ltac:(lia)).
    rewrite (Hs _ a b Ea Eb) in Hx. rewrite (Hs _ a b Ea Eb) in Hy. rewrite !decide_False in Hx by lia.
    rewrite (decide_False (P := k = i)) in Hy by lia.
    assert (Hxa : le x a) by (apply (He i); [lia|lia|done|done]).
    destruct (decide (k = j)) as [->|Hne]; [by injection Hy as <-|].
    apply (le_trans _ a); [done|]. apply (He k Hk Hne); [by rewrite Hpk|done].
Qed.

Lemma up_perm fuel : forall l j, up fuel l j ≡ₚ l.
Proof.
  induction fuel as [|fuel IH]; intros l j; cbn [up]; [done|]. destruct (_ || _); [done|]. by rewrite IH, swap_perm.
Qed.

Lemma Push_spec l x : heap l -> heap (Push l x) /\ Push l x ≡ₚ x :: l.
Proof.
  intros Hh. split; [|unfold Push; rewrite up_perm; by rewrite Permutation_app_comm].
  apply up_heap; rewrite ?length_app; cbn [length]; [lia|lia|..].
  - intros k Hk Hne a b Ha Hb. rewrite lookup_app_l in Hb by lia. pose proof (parent_lt k ltac:(lia)).
    rewrite lookup_app_l in Ha by lia. apply (Hh k); [lia|lia|done|done].
  - intros k a b Hk Hp _ _ _. apply parent_child in Hp; lia.
Qed.

Lemma heap_root l a : heap l -> l !! 0 = Some a -> Forall (le a) l.
Proof.
  intros Hh Ha. apply Forall_lookup. intros j. induction (lt_wf j) as [j _ IH]. intros b Hb.
  destruct (decide (j = 0)) as [->|]; [rewrite Ha in Hb; injection Hb as ->; apply le_refl|].
  pose proof (lookup_lt_Some _ _ _ Hb). pose proof (parent_lt j ltac:(lia)).
  destruct (lookup_lt_is_Some_2 l (parent j) ltac:(lia)) as [c Hc].
  apply (le_trans _ c); [by apply (IH (parent j))|]. apply (Hh j); [lia|lia|done|done].
Qed.

Lemma Pop_spec l : heap l -> l <> [] -> exists x l', Pop l = Some (x, l') /\ l ≡ₚ x :: l' /\ heap l' /\ Forall (le x) l' /\ l !! 0 = Some x.
Proof.
  intros Hh Hne. set (n := length l - 1). assert (Hn : length l = S n) by (subst n; destruct l; [done|cbn; lia]).
  destruct (lookup_lt_is_Some_2 l 0 ltac:(lia)) as [x Hx]. destruct (lookup_lt_is_Some_2 l n ltac:(lia)) as [y Hy].
  set (l1 := swap l 0 n). set (l2 := down n l1 0 n).
  assert (Hl1 : length l1 = S n) by (subst l1; by rewrite length_swap). assert (Hl2 : length l2 = S n) by (subst l2; by rewrite length_down).
  assert (E2 : l2 !! n = Some x).
  { subst l2. rewrite down_above by lia. subst l1. rewrite (lookup_swap l 0 n n x y Hx Hy). by rewrite decide_True. }
  assert (Hd : heap_from l2 0 n).
  { apply down_heap; [lia|lia|lia| |intros; lia]. intros j Hj _ Hp a b Ha Hb. pose proof (parent_lt j ltac:(lia)).
    subst l1. rewrite (lookup_swap l 0 n _ x y Hx Hy) in Ha. rewrite (lookup_swap l 0 n _ x y Hx Hy) in Hb.
    rewrite !decide_False in Ha by lia. rewrite !decide_False in Hb by lia. apply (Hh j); [lia|lia|done|done]. }
  assert (Es : l2 = take n l2 ++ [x]).
  { rewrite <- (take_drop n l2) at 1. f_equal. rewrite (drop_S _ x n E2), drop_ge by lia. done. }
  assert (P : l ≡ₚ x :: take n l2).
  { transitivity l2; [subst l2 l1; by rewrite down_perm, swap_perm|]. rewrite Es at 1. by rewrite Permutation_app_comm. }
  exists x, (take n l2). split; [|split; [exact P|split; [|split; [|done]]]].
  - unfold Pop. fold n. fold l1. fold l2. replace (last l2) with (Some x); [done|]. by rewrite Es, last_snoc.
  - intros j Hj _ a b Ha Hb. rewrite length_take in Hj. pose proof (parent_lt j ltac:(lia)).
    rewrite lookup_take_lt in Ha by lia. rewrite lookup_take_lt in Hb by lia. apply (Hd j); [lia|lia|done|done].
  - pose proof (heap_root l x Hh Hx) as Hf. rewrite P in Hf. by apply Forall_cons in Hf as [_ Hf].
Qed.

Lemma Pop_nil : Pop [] = None.
Proof. done. Qed.
End Heap.

(** ** Merging sorted sequences *)

Section Merge.
Context {E : Type} (less : E -> E -> bool).

(** A cursor: the element it is at and those behind it. *)
Definition cursor_less (a b : E * list E) : bool := less (fst a) (fst b).

(** Pop the cursor with the least element, emit the element, advance the
    cursor and push it back unless it is at its end. *)
Fixpoint kmerge (fuel : nat) (h : list (E * list E)) : list E :=
  match fuel with
  | O => []
  | S fuel =>
      match Pop cursor_less h with
      | None => []
      | Some ((e, rest), h) =>
          e :: kmerge fuel (match rest with [] => h | e' :: rest' => Push cursor_less h (e', rest') end)
      end
  end.

Definition cursor_seq (c : E * list E) : list E := fst c :: snd c.

Context (less_trans : Transitive (le less)) (less_le : forall a b, less a b = true -> le less a b).

Lemma cursor_trans : Transitive (le cursor_less).
Proof. intros a b c. unfold le, cursor_less. apply less_trans. Qed.

Lemma cursor_le a b : cursor_less a b = true -> le cursor_less a b.
Proof. apply less_le. Qed.

Lemma kmerge_spec fuel : forall h,
  heap cursor_less h -> Forall (fun c => StronglySorted (le less) (cursor_seq c)) h ->
  length (concat (map cursor_seq h)) <= fuel ->
  kmerge fuel h ≡ₚ concat (map cursor_seq h) /\ StronglySorted (le less) (kmerge fuel h).
Proof.
  induction fuel as [|fuel IH]; intros h Hh Hs Hf.
  { destruct h as [|c h]; [split; [done|constructor]|]. cbn in Hf. lia. }
  cbn [kmerge]. destruct (decide (h = [])) as [->|Hne]; [rewrite Pop_nil; split; [done|constructor]|].
  destruct (Pop_spec _ cursor_trans cursor_le h Hh Hne) as ([e rest] & h' & -> & P & Hh' & Hmin & _).
  assert (P2 : concat (map cursor_seq h) ≡ₚ e :: rest ++ concat (map cursor_seq h')).
  { rewrite (concat_perm _ _ (fmap_Permutation cursor_seq _ _ P)). done. }
  rewrite P in Hs. apply Forall_cons in Hs as [Hs1 Hs]. cbn [cursor_seq fst snd] in Hs1. apply StronglySorted_inv in Hs1 as [Hs1 Hr].
  set (h2 := match rest with [] => h' | e' :: rest' => Push cursor_less h' (e', rest') end).
  assert (H2 : heap cursor_less h2 /\ concat (map cursor_seq h2) ≡ₚ rest ++ concat (map cursor_seq h') /\
    Forall (fun c => StronglySorted (le less) (cursor_seq c)) h2).
  { subst h2. destruct rest as [|e' rest']; [done|].
    destruct (Push_spec _ cursor_trans cursor_le h' (e', rest') Hh') as [Hp Pp]. split; [done|]. split.
    - by rewrite (concat_perm _ _ (fmap_Permutation cursor_seq _ _ Pp)).
    - rewrite Pp. by constructor. }
  destruct H2 as (Hh2 & P3 & Hs2). destruct (IH h2 Hh2 Hs2) as [IH1 IH2].
  { rewrite P3. rewrite P2 in Hf. cbn [length] in Hf. lia. }
  split; [by rewrite IH1, P3, P2|]. constructor; [done|]. rewrite IH1, P3. apply Forall_app. split; [done|].
  apply Forall_forall. intros x (l & Hl & Hx)%elem_of_concat. apply list_elem_of_fmap in Hl as (c & -> & Hc).
  rewrite Forall_forall in Hmin, Hs. specialize (Hmin c Hc). specialize (Hs c Hc).
  apply elem_of_cons in Hx as [->|Hx]; [exact Hmin|]. apply StronglySorted_inv in Hs as [_ Hs].
  rewrite Forall_forall in Hs. by apply (less_trans _ (fst c)); [exact Hmin|apply Hs].
Qed.
End Merge.
