(* ===== verification/SkipList.v ===== *)
(** * Skip lists

    The skip list of the memtables (internal/lsm/memtable/skiplist): nodes
    with pointers to the next node of every level, levels drawn from an
    xorshift generator.  A list of nodes stands for the heap, a pointer is an
    index into it, and index 0 is the head node.  For every sequence of
    levels that the generator may give, the list refines a run of entries
    that is sorted by key, and no search runs out of its fuel, which is the
    number of nodes. *)

From Stdlib Require Import ZArith Lia Strings.Byte.
From stdpp Require Import base list sorting.
From S2P Require Import Prelude.
Local Open Scope Z_scope.

Record node := mkNode {
  n_key : bytes;
  n_entry : Entry;
  n_next : list (option nat)
}.

(** [skiplistRNG], as its state. *)
Definition newSkiplistRNG (seed : Z) : Z := if bool_decide (seed = 0) then 1 else seed.

Definition rng_next (state : Z) : Z :=
  let x := state in
  let x := Z.lxor x (u64 (Z.shiftl x 13)) in
  let x := Z.lxor x (Z.shiftr x 7) in
  Z.lxor x (u64 (Z.shiftl x 17)).

Definition skiplistMaxLevel : nat := 18.

Record SkipList := mkSkipList {
  sl_nodes : list node;
  sl_level : nat;
  sl_length : Z;
  sl_rng : Z
}.

Definition zero_entry : Entry := mkEntry [] [] false 0.

Definition SkipList_New : SkipList :=
  mkSkipList [mkNode [] zero_entry (replicate skiplistMaxLevel None)] 1 0 (newSkiplistRNG 3737844653).

Definition node_at (ns : list node) (x : nat) : result node :=
  match ns !! x with Some n => Ok n | None => Panic end.

(** [x.next[i]]. *)
Definition next_at (ns : list node) (x i : nat) : result (option nat) :=
  n ← node_at ns x;
  match n_next n !! i with Some p => Ok p | None => Panic end.

(** The inner loop of [findPrev]. *)
Fixpoint walk (fuel : nat) (ns : list node) (key : bytes) (i x : nat) : result nat :=
  match fuel with
  | O => NoFuel
  | S fuel =>
      p ← next_at ns x i;
      match p with
      | None => Ok x
      | Some y =>
          n ← node_at ns y;
          match bytes_compare (n_key n) key with
          | Lt => walk fuel ns key i y
          | _ => Ok x
          end
      end
  end.

(** The outer loop: [todo] is [i + 1]; [update[i]] is set for every level. *)
Fixpoint find_levels (ns : list node) (key : bytes) (todo x : nat) (update : list (option nat))
  : result (nat * list (option nat)) :=
  match todo with
  | O => Ok (x, update)
  | S i =>
      x ← walk (S (length ns)) ns key i x;
      find_levels ns key i x (<[i := Some x]> update)
  end.

Definition findPrev (s : SkipList) (key : bytes) : result (nat * list (option nat)) :=
  find_levels (sl_nodes s) key (sl_level s) 0 (replicate skiplistMaxLevel None).

Definition SkipList_Get (s : SkipList) (key : bytes) : result (option Entry) :=
  '(x, _) ← findPrev s key;
  p ← next_at (sl_nodes s) x 0;
  match p with
  | None => Ok None
  | Some y =>
      n ← node_at (sl_nodes s) y;
      if bool_decide (bytes_compare (n_key n) key = Eq) then Ok (Some (n_entry n)) else Ok None
  end.

(** [level] counts up to the maximum while the generator gives odd numbers. *)
Fixpoint random_level (fuel level : nat) (rng : Z) : nat * Z :=
  match fuel with
  | O => (level, rng)
  | S fuel =>
      let rng := rng_next rng in
      if bool_decide (Z.land rng 1 = 1) then random_level fuel (S level) rng else (level, rng)
  end.
Definition randomLevel (rng : Z) : nat * Z := random_level (skiplistMaxLevel - 1) 1 rng.

Definition set_next (i : nat) (p : option nat) (n : node) : node :=
  mkNode (n_key n) (n_entry n) (<[i := p]> (n_next n)).

(** [node.next[i] = update[i].next[i]; update[i].next[i] = node]. *)
Fixpoint link (ns : list node) (n : nat) (update : list (option nat)) (i todo : nat) : result (list node) :=
  match todo with
  | O => Ok ns
  | S todo =>
      match update !! i with
      | Some (Some u) =>
          p ← next_at ns u i;
          let ns := alter (set_next i p) n ns in
          link (alter (set_next i (Some n)) u ns) n update (S i) todo
      | _ => Panic
      end
  end.

(** [for i := s.level; i < lvl; i++ { update[i] = s.head }]. *)
Fixpoint raise (update : list (option nat)) (i todo : nat) : list (option nat) :=
  match todo with
  | O => update
  | S todo => raise (<[i := Some 0%nat]> update) (S i) todo
  end.

(** [Upsert]: whether the key is new, and the entry that was replaced. *)
Definition Upsert (s : SkipList) (entry : Entry) : result ((bool * option Entry) * SkipList) :=
  let ns := sl_nodes s in
  '(x, update) ← findPrev s (Key entry);
  p ← next_at ns x 0;
  found ← (match p with
           | None => Ok None
           | Some y => n ← node_at ns y; Ok (if bool_decide (bytes_compare (n_key n) (Key entry) = Eq) then Some (y, n) else None)
           end);
  match found with
  | Some (y, n) =>
      Ok ((false, Some (n_entry n)),
          mkSkipList (<[y := mkNode (n_key n) entry (n_next n)]> ns) (sl_level s) (sl_length s) (sl_rng s))
  | None =>
      let '(lvl, rng) := randomLevel (sl_rng s) in
      let update := if bool_decide (sl_level s < lvl)%nat then raise update (sl_level s) (lvl - sl_level s) else update in
      ns ← link (ns ++ [mkNode (Key entry) entry (replicate lvl None)]) (length ns) update 0 lvl;
      Ok ((true, None), mkSkipList ns (Nat.max (sl_level s) lvl) (sl_length s + 1) rng)
  end.

(** [SkipListIter]: the entries behind a node, in the order of [Next]. *)
Fixpoint iter_entries (fuel : nat) (ns : list node) (curr : nat) : result (list Entry) :=
  match fuel with
  | O => NoFuel
  | S fuel =>
      p ← next_at ns curr 0;
      match p with
      | None => Ok []
      | Some y =>
          n ← node_at ns y;
          rest ← iter_entries fuel ns y;
          Ok (n_entry n :: rest)
      end
  end.

Definition SkipList_Iter (s : SkipList) : result (list Entry) := iter_entries (S (length (sl_nodes s))) (sl_nodes s) 0.

Definition SkipList_IterFrom (s : SkipList) (start : bytes) : result (list Entry) :=
  '(x, _) ← findPrev s start;
  iter_entries (S (length (sl_nodes s))) (sl_nodes s) x.

(** ** The shape of a skip list *)

Definition key_at (ns : list node) (x : nat) : bytes := from_option n_key [] (ns !! x).
Definition entry_at (ns : list node) (x : nat) : Entry := from_option n_entry zero_entry (ns !! x).
Definition height (ns : list node) (x : nat) : nat := from_option (fun n => length (n_next n)) 0%nat (ns !! x).
Definition nxt (ns : list node) (x i : nat) : option (option nat) := n ← ns !! x; n_next n !! i.

(** The nodes of [l] that have a pointer of level [i]. *)
Definition tall (ns : list node) (i : nat) (l : list nat) : list nat := filter (fun x => (i < height ns x)%nat) l.

(** [order] are the nodes in the order of their keys: every pointer leads to
    the next node that is tall enough. *)
Record shape (s : SkipList) (order : list nat) : Prop := {
  sh_nodes : 0%nat :: order ≡ₚ seq 0 (length (sl_nodes s));
  sh_head : height (sl_nodes s) 0 = skiplistMaxLevel;
  sh_height : Forall (fun x => (1 <= height (sl_nodes s) x <= sl_level s)%nat) order;
  sh_level : (1 <= sl_level s <= skiplistMaxLevel)%nat;
  sh_keys : Forall (fun x => key_at (sl_nodes s) x = Key (entry_at (sl_nodes s) x)) order;
  sh_sorted : sorted_run (map (entry_at (sl_nodes s)) order);
  sh_next : forall pre x post i, 0%nat :: order = pre ++ x :: post -> (i < height (sl_nodes s) x)%nat ->
    nxt (sl_nodes s) x i = Some (head (tall (sl_nodes s) i post));
  sh_length : sl_length s = zlen order
}.

Definition contents (s : SkipList) (order : list nat) : list Entry := map (entry_at (sl_nodes s)) order.

Lemma next_at_nxt ns x i p : nxt ns x i = Some p -> next_at ns x i = Ok p.
Proof. unfold nxt, next_at, node_at. destruct (ns !! x); [|done]. cbn. by intros ->. Qed.

Lemma tall_app ns i a b : tall ns i (a ++ b) = tall ns i a ++ tall ns i b.
Proof. apply filter_app. Qed.

Lemma head_tall ns i l y : head (tall ns i l) = Some y -> exists a b, l = a ++ y :: b /\ tall ns i a = [] /\ (i < height ns y)%nat.
Proof.
  induction l as [|x l IH]; [done|]. unfold tall. rewrite filter_cons. case_decide as E.
  - intros [= ->]. exists [], l. done.
  - intros (a & b & -> & Ha & Hy)%IH. exists (x :: a), b. split; [done|]. split; [|done].
    unfold tall. by rewrite filter_cons_False.
Qed.

(** A key splits the order. *)
Lemma key_split key (l : list Entry) :
  sorted_run l -> exists lo hi, l = lo ++ hi /\ Forall (fun e => Key e ≺ key) lo /\ Forall (fun e => key ⪯ Key e) hi.
Proof.
  induction 1 as [|e l Hs (lo & hi & -> & Hlo & Hhi) Hf]; [by exists [], []|].
  destruct (decide (Key e ≺ key)) as [H|H].
  - exists (e :: lo), hi. by repeat constructor.
  - exists [], (e :: lo ++ hi). assert (H' : key ⪯ Key e) by bytes_order. repeat constructor; [done|].
    eapply Forall_impl; [exact Hf|]. intros x Hx. unfold key_lt in Hx. bytes_order.
Qed.

Section Search.
Context (s : SkipList) (order : list nat) (Hs : shape s order) (key : bytes) (lo hi : list nat).
Context (Ho : order = lo ++ hi).
Context (Hlo : Forall (fun x => key_at (sl_nodes s) x ≺ key) lo) (Hhi : Forall (fun x => key ⪯ key_at (sl_nodes s) x) hi).
Local Abbreviation ns := (sl_nodes s).

(** The last node below the key on level [i]. *)
Definition last_at (i u : nat) : Prop :=
  exists a b, 0%nat :: lo = a ++ u :: b /\ (i < height ns u)%nat /\ tall ns i b = [].

Lemma order_node x : x ∈ 0%nat :: order -> exists n, ns !! x = Some n.
Proof.
  intros H. rewrite (sh_nodes _ _ Hs), elem_of_seq in H. apply lookup_lt_is_Some_2. lia.
Qed.

Lemma lo_order a u b : 0%nat :: lo = a ++ u :: b -> 0%nat :: order = a ++ u :: b ++ hi.
Proof. intros E. rewrite Ho. change (0%nat :: lo ++ hi) with ((0%nat :: lo) ++ hi). rewrite E, <- app_assoc. done. Qed.

Lemma walk_spec fuel : forall a x b i,
  0%nat :: lo = a ++ x :: b -> (i < height ns x)%nat -> (length b < fuel)%nat ->
  exists u, walk fuel ns key i x = Ok u /\ last_at i u.
Proof.
  induction fuel as [|fuel IH]; intros a x b i Ea Hi Hf; [lia|]. cbn [walk].
  rewrite (next_at_nxt _ _ _ _ (sh_next _ _ Hs _ _ _ i (lo_order _ _ _ Ea) Hi)). cbn [mbind result_bind].
  rewrite tall_app. destruct (head (tall ns i b)) as [y|] eqn:Eb.
  - assert (head (tall ns i b ++ tall ns i hi) = Some y) as -> by (destruct (tall ns i b); [done|exact Eb]).
    apply head_tall in Eb as (b1 & b2 & -> & Hb1 & Hy).
    assert (Hin : y ∈ lo).
    { destruct a as [|z a]; injection Ea as _ E; rewrite E; [apply elem_of_app; right; by left|].
      apply elem_of_app. right. right. apply elem_of_app. right. by left. }
    destruct (order_node y) as [n En]; [right; rewrite Ho; apply elem_of_app; by left|].
    unfold node_at. rewrite En. cbn [mbind result_bind]. rewrite Forall_forall in Hlo. specialize (Hlo y Hin).
    unfold key_at in Hlo. rewrite En in Hlo. cbn [from_option] in Hlo. rewrite (proj2 (bytes_compare_Lt _ _) Hlo).
    apply (IH (a ++ x :: b1) y b2); [by rewrite <- app_assoc|done|]. rewrite length_app in Hf. cbn in Hf. lia.
  - assert (tall ns i b = []) as Hb by (by destruct (tall ns i b)). rewrite Hb. cbn [app].
    assert (Hl : last_at i x) by (by exists a, b).
    destruct (head (tall ns i hi)) as [y|] eqn:Eh; [|by exists x].
    apply head_tall in Eh as (h1 & h2 & Eh & _ & _).
    assert (Hin : y ∈ hi) by (rewrite Eh; apply elem_of_app; right; by left).
    destruct (order_node y) as [n En]; [right; rewrite Ho; apply elem_of_app; by right|].
    unfold node_at. rewrite En. cbn [mbind result_bind]. rewrite Forall_forall in Hhi. specialize (Hhi y Hin).
    unfold key_at in Hhi. rewrite En in Hhi. cbn [from_option] in Hhi.
    destruct (bytes_compare (n_key n) key) eqn:Ec; [by exists x| |by exists x]. rewrite bytes_compare_Lt in Ec. exfalso. bytes_order.
Qed.

Lemma length_lo : (length lo < length ns)%nat.
Proof.
  pose proof (Permutation_length (sh_nodes _ _ Hs)) as H. rewrite length_seq in H. cbn [length] in H.
  rewrite Ho, length_app in H. lia.
Qed.

Lemma find_levels_spec todo : forall x update,
  (exists a b, 0%nat :: lo = a ++ x :: b /\ (todo <= height ns x)%nat) -> (todo <= length update)%nat ->
  exists u update', find_levels ns key todo x update = Ok (u, update') /\
    length update' = length update /\
    (forall i, (i < todo)%nat -> exists v, update' !! i = Some (Some v) /\ last_at i v) /\
    (forall i, (todo <= i)%nat -> update' !! i = update !! i) /\
    (if decide (todo = 0%nat) then u = x else last_at 0 u).
Proof.
  induction todo as [|i IH]; intros x update (a & b & Ea & Hx) Hl; cbn [find_levels].
  { exists x, update. split; [done|]. split; [done|]. split; [intros; lia|]. split; [done|]. by rewrite decide_True. }
  assert (Hb : (length b < S (length ns))%nat).
  { pose proof length_lo. apply (f_equal length) in Ea. rewrite length_app in Ea. cbn in Ea. lia. }
  destruct (walk_spec _ a x b i Ea ltac:(lia) Hb) as (v & -> & Hv). cbn [mbind result_bind].
  destruct (IH v (<[i := Some v]> update)) as (u & up & E & Hlen & H1 & H2 & H3).
  - destruct Hv as (a' & b' & Ea' & Hh & _). exists a', b'. split; [done|lia].
  - rewrite length_insert. lia.
  - exists u, up. rewrite length_insert in Hlen. split; [done|]. split; [done|]. split; [|split].
    + intros j Hj. destruct (decide (j = i)) as [->|]; [|apply H1; lia]. exists v. split; [|done].
      rewrite H2 by lia. apply list_lookup_insert_eq. lia.
    + intros j Hj. rewrite H2 by lia. apply list_lookup_insert_ne. lia.
    + rewrite decide_False by lia. destruct (decide (i = 0%nat)) as [->|]; [by subst|done].
Qed.
End Search.

Lemma tall_all ns i l : Forall (fun x => (i < height ns x)%nat) l -> tall ns i l = l.
Proof. intros H. apply list_filter_all. by apply Forall_forall. Qed.

Lemma tall_none ns i l : Forall (fun x => (height ns x <= i)%nat) l -> tall ns i l = [].
Proof. intros H. apply list_filter_none. intros x Hx Hi. rewrite Forall_forall in H. specialize (H x Hx). lia. Qed.

Lemma order_split s order key :
  shape s order -> exists lo hi, order = lo ++ hi /\
    Forall (fun x => key_at (sl_nodes s) x ≺ key) lo /\ Forall (fun x => key ⪯ key_at (sl_nodes s) x) hi.
Proof.
  intros Hs. destruct (key_split key _ (sh_sorted _ _ Hs)) as (l1 & l2 & E & H1 & H2).
  apply map_eq_app in E as (lo & hi & -> & <- & <-). exists lo, hi. split; [done|].
  pose proof (sh_keys _ _ Hs) as Hk. apply Forall_app in Hk as [Hk1 Hk2]. rewrite Forall_map in H1. rewrite Forall_map in H2.
  rewrite !Forall_forall in *. split; intros x Hx; [rewrite Hk1 by done; by apply H1|rewrite Hk2 by done; by apply H2].
Qed.

Lemma findPrev_spec s order key :
  shape s order -> exists lo hi x update, order = lo ++ hi /\
    Forall (fun x => key_at (sl_nodes s) x ≺ key) lo /\ Forall (fun x => key ⪯ key_at (sl_nodes s) x) hi /\
    findPrev s key = Ok (x, update) /\ length update = skiplistMaxLevel /\
    (forall i, (i < sl_level s)%nat -> exists v, update !! i = Some (Some v) /\ last_at s lo i v) /\
    (exists a, 0%nat :: lo = a ++ [x]) /\ next_at (sl_nodes s) x 0 = Ok (head hi).
Proof.
  intros Hs. destruct (order_split s order key Hs) as (lo & hi & Ho & H1 & H2). exists lo, hi.
  pose proof (sh_level _ _ Hs) as Hl. pose proof (sh_head _ _ Hs) as Hh.
  destruct (find_levels_spec s order Hs key lo hi Ho H1 H2 (sl_level s) 0 (replicate skiplistMaxLevel None))
    as (x & up & E & Hlen & Hup & _ & Hx).
  { exists [], lo. split; [done|]. lia. }
  { rewrite length_replicate. lia. }
  rewrite length_replicate in Hlen. rewrite decide_False in Hx by lia. exists x, up.
  split; [done|]. split; [done|]. split; [done|]. split; [exact E|]. split; [done|]. split; [done|].
  destruct Hx as (a & b & Ea & Hx & Hb). pose proof (sh_height _ _ Hs) as Hh2. rewrite Ho in Hh2. apply Forall_app in Hh2 as [Hh2 Hh3].
  assert (Hbn : b = []).
  { rewrite tall_all in Hb; [done|]. rewrite Forall_forall in Hh2 |- *. intros y Hy. apply Hh2.
    destruct a as [|z a]; injection Ea as _ ->; [done|]. apply elem_of_app. right. by right. }
  subst b. split; [by exists a|]. erewrite next_at_nxt; [reflexivity|].
  rewrite (sh_next _ _ Hs a x hi 0); [|exact (lo_order order lo hi Ho a x [] Ea)|done]. f_equal. f_equal. apply tall_all.
  eapply Forall_impl; [exact Hh3|]. intros y Hy. cbv beta in Hy. lia.
Qed.

Lemma node_at_order s order y :
  shape s order -> y ∈ order -> exists n, node_at (sl_nodes s) y = Ok n /\ sl_nodes s !! y = Some n /\
    n_key n = key_at (sl_nodes s) y /\ n_entry n = entry_at (sl_nodes s) y /\ n_key n = Key (n_entry n).
Proof.
  intros Hs Hy. destruct (order_node s order Hs y) as [n E]; [by right|]. pose proof (sh_keys _ _ Hs) as Hk.
  rewrite Forall_forall in Hk. specialize (Hk y Hy). unfold node_at, key_at, entry_at in *. rewrite E in *.
  by exists n.
Qed.

(** What [Get] and [Upsert] look at: the first node that is not below the key. *)
Lemma found_spec s order lo hi key :
  shape s order -> order = lo ++ hi -> Forall (fun x => key_at (sl_nodes s) x ≺ key) lo ->
  Forall (fun x => key ⪯ key_at (sl_nodes s) x) hi ->
  match lookup_entry key (contents s order) with
  | Some e => exists y hi' n, hi = y :: hi' /\ sl_nodes s !! y = Some n /\ n_key n = key /\ n_entry n = e
  | None => forall y, head hi = Some y -> exists n, sl_nodes s !! y = Some n /\ key ≺ n_key n
  end.
Proof.
  intros Hs Ho H1 H2. pose proof (sh_sorted _ _ Hs) as Hsort. unfold contents. rewrite Ho in Hsort |- *.
  rewrite map_app, lookup_entry_app. rewrite map_app in Hsort. apply sorted_run_app in Hsort as (_ & Hsort & _).
  rewrite lookup_entry_below.
  2:{ rewrite Forall_map. rewrite Forall_forall in H1 |- *. intros x Hx. destruct (node_at_order s order x Hs) as (n & _ & E & Ek & Ee & E2).
      - rewrite Ho. apply elem_of_app. by left.
      - rewrite <- Ee, <- E2, Ek. by apply H1. }
  destruct hi as [|y hi]; [done|]. cbn [map] in *.
  destruct (node_at_order s order y Hs) as (n & _ & E & Ek & Ee & E2); [rewrite Ho; apply elem_of_app; right; by left|].
  rewrite <- Ee in *. apply Forall_cons in H2 as [Hy _]. rewrite <- Ek, E2 in Hy. cbn [lookup_entry]. case_bool_decide as Hc.
  - exists y, hi, n. split; [done|]. split; [done|]. split; [congruence|done].
  - rewrite lookup_entry_above; [|]. 
    + intros y' [= <-]. exists n. split; [done|]. rewrite E2. bytes_order.
    + apply StronglySorted_inv in Hsort as [_ Hf]. eapply Forall_impl; [exact Hf|]. intros x Hx. unfold key_lt in Hx. bytes_order.
Qed.

Lemma SkipList_Get_spec s order key : shape s order -> SkipList_Get s key = Ok (lookup_entry key (contents s order)).
Proof.
  intros Hs. destruct (findPrev_spec s order key Hs) as (lo & hi & x & up & Ho & H1 & H2 & E & _ & _ & _ & En).
  unfold SkipList_Get. rewrite E. cbn [mbind result_bind]. rewrite En. cbn [mbind result_bind].
  pose proof (found_spec s order lo hi key Hs Ho H1 H2) as Hf. destruct (lookup_entry key (contents s order)) as [e|].
  - destruct Hf as (y & hi' & n & -> & Ey & Hk & He). cbn [head]. unfold node_at. rewrite Ey. cbn [mbind result_bind].
    rewrite bool_decide_true by (by apply bytes_compare_Eq). by rewrite He.
  - destruct (head hi) as [y|]; [|done]. destruct (Hf y eq_refl) as (n & Ey & Hk). unfold node_at. rewrite Ey. cbn [mbind result_bind].
    rewrite bool_decide_false; [done|]. rewrite bytes_compare_Eq. intros Ek. rewrite Ek in Hk. by apply bytes_lt_irrefl in Hk.
Qed.

(** ** Linking a node *)

Record same_nodes (ns ns' : list node) : Prop := {
  sn_length : length ns' = length ns;
  sn_key : forall x, key_at ns' x = key_at ns x;
  sn_entry : forall x, entry_at ns' x = entry_at ns x;
  sn_height : forall x, height ns' x = height ns x
}.

#[local] Instance same_nodes_trans : Transitive same_nodes.
Proof. intros a b c [H1 H2 H3 H4] [G1 G2 G3 G4]. split; intros; congruence. Qed.

Lemma same_set ns u i p : same_nodes ns (alter (set_next i p) u ns).
Proof.
  split; [by rewrite length_alter| | |]; intros x; unfold key_at, entry_at, height;
    (destruct (decide (x = u)) as [->|Hne]; [rewrite list_lookup_alter_eq|by rewrite list_lookup_alter_ne]);
    destruct (ns !! u); cbn; rewrite ?length_insert; done.
Qed.

Lemma nxt_set ns u i p x j :
  (i < height ns u)%nat ->
  nxt (alter (set_next i p) u ns) x j = if decide (x = u /\ j = i) then Some p else nxt ns x j.
Proof.
  intros Hi. unfold nxt, height in *. destruct (decide (x = u)) as [->|Hne].
  - rewrite list_lookup_alter_eq. destruct (ns !! u) as [n|]; cbn in *; [|lia]. case_decide as E.
    + destruct E as [_ ->]. by rewrite list_lookup_insert_eq.
    + rewrite list_lookup_insert_ne; [done|]. naive_solver.
  - rewrite list_lookup_alter_ne by done. by rewrite decide_False by naive_solver.
Qed.

Lemma nxt_some ns x i : (i < height ns x)%nat -> exists p, nxt ns x i = Some p.
Proof.
  unfold nxt, height. destruct (ns !! x) as [n|]; cbn; [|lia]. intros H. by apply lookup_lt_is_Some_2.
Qed.

(** What the loop leaves: the new node takes over the pointers of [update]. *)
Definition linked (ns : list node) (n : nat) (update : list (option nat)) (i k x j : nat) : option (option nat) :=
  match update !! j with
  | Some (Some u) =>
      if decide (i <= j < k)%nat then
        if decide (x = n) then nxt ns u j else if decide (x = u) then Some (Some n) else nxt ns x j
      else nxt ns x j
  | _ => nxt ns x j
  end.

Lemma link_spec n update todo : forall ns i,
  (forall k, (i <= k < i + todo)%nat -> exists u, update !! k = Some (Some u) /\ u <> n /\ (k < height ns u)%nat) ->
  (i + todo <= height ns n)%nat ->
  exists ns', link ns n update i todo = Ok ns' /\ same_nodes ns ns' /\
    forall x j, nxt ns' x j = linked ns n update i (i + todo) x j.
Proof.
  induction todo as [|todo IH]; intros ns i Hu Hn; cbn [link].
  { exists ns. split; [done|]. split; [done|]. intros x j. unfold linked. repeat case_match; try done; lia. }
  destruct (Hu i ltac:(lia)) as (u & Eu & Hun & Hiu). rewrite Eu. destruct (nxt_some ns u i Hiu) as [p Ep].
  rewrite (next_at_nxt _ _ _ _ Ep). cbn [mbind result_bind].
  set (ns1 := alter (set_next i p) n ns). set (ns2 := alter (set_next i (Some n)) u ns1).
  pose proof (same_set ns n i p) as S1. fold ns1 in S1. pose proof (same_set ns1 u i (Some n)) as S2. fold ns2 in S2.
  assert (S3 : same_nodes ns ns2) by (by transitivity ns1).
  destruct (IH ns2 (S i)) as (ns' & E & S4 & H).
  { intros k Hk. destruct (Hu k ltac:(lia)) as (v & ? & ? & ?). exists v. rewrite (sn_height _ _ S3). done. }
  { rewrite (sn_height _ _ S3). lia. }
  exists ns'. split; [exact E|]. split; [by transitivity ns2|]. intros x j. rewrite H.
  assert (N : forall y k, nxt ns2 y k = if decide (y = u /\ k = i) then Some (Some n) else if decide (y = n /\ k = i) then Some p else nxt ns y k).
  { intros y k. unfold ns2. rewrite nxt_set by (rewrite (sn_height _ _ S1); done). case_decide; [done|].
    unfold ns1. by rewrite nxt_set by lia. }
  unfold linked. rewrite !N. destruct (decide (j = i)) as [->|Hji].
  - rewrite Eu. rewrite (decide_False (P := (S i <= i < S i + todo)%nat)) by lia.
    rewrite (decide_True (P := (i <= i < i + S todo)%nat)) by lia.
    destruct (decide (x = n)) as [->|]; [rewrite decide_False by naive_solver; by rewrite decide_True|].
    destruct (decide (x = u)) as [->|]; [by rewrite decide_True|]. by rewrite !decide_False by naive_solver.
  - rewrite !(decide_False (P := x = u /\ j = i)) by naive_solver. rewrite !(decide_False (P := x = n /\ j = i)) by naive_solver.
    destruct (update !! j) as [[v|]|]; [|done|done].
    rewrite N. rewrite (decide_False (P := v = u /\ j = i)), (decide_False (P := v = n /\ j = i)) by naive_solver.
    destruct (decide (S i <= j < S i + todo)%nat), (decide (i <= j < i + S todo)%nat); done || lia.
Qed.

Lemma raise_spec todo : forall update i,
  (i + todo <= length update)%nat -> length (raise update i todo) = length update /\
  forall j, raise update i todo !! j = if decide (i <= j < i + todo)%nat then Some (Some 0%nat) else update !! j.
Proof.
  induction todo as [|todo IH]; intros update i Hl; cbn [raise].
  { split; [done|]. intros j. by rewrite decide_False by lia. }
  destruct (IH (<[i := Some 0%nat]> update) (S i)) as [H1 H2]; [rewrite length_insert; lia|]. rewrite length_insert in H1.
  split; [done|]. intros j. rewrite H2. destruct (decide (j = i)) as [->|].
  - rewrite decide_False, decide_True by lia. apply list_lookup_insert_eq. lia.
  - rewrite list_lookup_insert_ne by done. destruct (decide (S i <= j < S i + todo)%nat), (decide (i <= j < i + S todo)%nat); done || lia.
Qed.

Lemma random_level_range fuel : forall level rng, (level <= fst (random_level fuel level rng) <= level + fuel)%nat.
Proof.
  induction fuel as [|fuel IH]; intros level rng; cbn [random_level]; [cbn; lia|]. case_bool_decide; [|cbn; lia].
  specialize (IH (S level) (rng_next rng)). lia.
Qed.

(** ** [Upsert] *)

(** Replacing the entry of a node. *)
Lemma shape_replace s order y n e :
  shape s order -> y ∈ order -> sl_nodes s !! y = Some n -> n_key n = Key e ->
  let s' := mkSkipList (<[y := mkNode (n_key n) e (n_next n)]> (sl_nodes s)) (sl_level s) (sl_length s) (sl_rng s) in
  shape s' order /\ (forall x, entry_at (sl_nodes s') x = if decide (x = y) then e else entry_at (sl_nodes s) x).
Proof.
  intros Hs Hy Ey Hk s'. pose proof (lookup_lt_Some _ _ _ Ey) as Hlt.
  assert (L : forall x, sl_nodes s' !! x = if decide (x = y) then Some (mkNode (n_key n) e (n_next n)) else sl_nodes s !! x).
  { intros x. cbn [s' sl_nodes]. destruct (decide (x = y)) as [->|]; [by rewrite list_lookup_insert_eq|by rewrite list_lookup_insert_ne]. }
  assert (H1 : forall x, height (sl_nodes s') x = height (sl_nodes s) x).
  { intros x. unfold height. rewrite L. case_decide as E; [subst; by rewrite Ey|done]. }
  assert (H2 : forall x, key_at (sl_nodes s') x = key_at (sl_nodes s) x).
  { intros x. unfold key_at. rewrite L. case_decide as E; [subst; by rewrite Ey|done]. }
  assert (H3 : forall x, entry_at (sl_nodes s') x = if decide (x = y) then e else entry_at (sl_nodes s) x).
  { intros x. unfold entry_at. rewrite L. by case_decide. }
  assert (H4 : forall x i, nxt (sl_nodes s') x i = nxt (sl_nodes s) x i).
  { intros x i. unfold nxt. rewrite L. case_decide as E; [subst; by rewrite Ey|done]. }
  assert (Hkey : forall x, x ∈ order -> Key (entry_at (sl_nodes s') x) = Key (entry_at (sl_nodes s) x)).
  { intros x Hx. rewrite H3. case_decide as E; [|done]. subst x. pose proof (sh_keys _ _ Hs) as K. rewrite Forall_forall in K.
    rewrite <- (K y Hy), <- Hk. unfold key_at. by rewrite Ey. }
  destruct Hs as [S1 S2 S3 S4 S5 S6 S7 S8]. split; [|done]. split; cbn [s' sl_level sl_length]; try done.
  - cbn [s' sl_nodes]. by rewrite length_insert.
  - by rewrite H1.
  - eapply Forall_impl; [exact S3|]. intros x Hx. cbv beta. by rewrite H1.
  - rewrite Forall_forall in S5 |- *. intros x Hx. rewrite H2, (Hkey x Hx). by apply S5.
  - revert S6 Hkey. clear. intros S6 Hkey. unfold sorted_run in *. induction order as [|x l IH]; [constructor|].
    cbn [map] in *. apply StronglySorted_inv in S6 as [S6 Hf]. constructor; [apply IH; [done|intros; apply Hkey; by right]|].
    rewrite Forall_map in Hf |- *. rewrite Forall_forall in Hf |- *. intros z Hz. unfold key_lt in *.
    rewrite (Hkey x) by (by left). rewrite (Hkey z) by (by right). by apply Hf.
  - intros pre x post i E Hi. rewrite H4. rewrite H1 in Hi. rewrite (S7 pre x post i E Hi). do 2 f_equal.
    unfold tall. apply list_filter_iff. intros z. by rewrite H1.
Qed.

Section Insert.
Context (s : SkipList) (order lo hi : list nat) (Hs : shape s order) (Ho : order = lo ++ hi) (e : Entry).
Context (Hlo : Forall (fun x => key_at (sl_nodes s) x ≺ Key e) lo) (Hhi : Forall (fun x => Key e ≺ key_at (sl_nodes s) x) hi).
Context (update : list (option nat)) (lvl : nat) (Hlvl : (1 <= lvl <= skiplistMaxLevel)%nat).
Context (Hup : forall i, (i < lvl)%nat -> exists v, update !! i = Some (Some v) /\ last_at s lo i v).
Local Abbreviation ns := (sl_nodes s).
Local Abbreviation n := (length (sl_nodes s)).
Local Abbreviation ns1 := (sl_nodes s ++ [mkNode (Key e) e (replicate lvl None)]).

Lemma order_lt x : x ∈ 0%nat :: order -> (x < n)%nat.
Proof. intros H. rewrite (sh_nodes _ _ Hs), elem_of_seq in H. exact (proj2 H). Qed.

Lemma lo_elem x : x ∈ 0%nat :: lo -> x ∈ 0%nat :: order.
Proof. rewrite Ho, !elem_of_cons, elem_of_app. intros [H|H]; [by left|right; by left]. Qed.

Lemma order_nodup : NoDup (0%nat :: order).
Proof. rewrite (sh_nodes _ _ Hs). apply NoDup_seq. Qed.

Lemma ns1_old x : (x < n)%nat -> ns1 !! x = ns !! x.
Proof. intros H. by rewrite lookup_app_l. Qed.

Lemma ns1_new : ns1 !! n = Some (mkNode (Key e) e (replicate lvl None)).
Proof. by apply list_lookup_middle. Qed.

Lemma old_view x : (x < n)%nat ->
  key_at ns1 x = key_at ns x /\ entry_at ns1 x = entry_at ns x /\ height ns1 x = height ns x /\ forall i, nxt ns1 x i = nxt ns x i.
Proof. intros H. unfold key_at, entry_at, height, nxt. by rewrite ns1_old. Qed.

Lemma height_new : height ns1 n = lvl.
Proof. unfold height. rewrite ns1_new. cbn. apply length_replicate. Qed.

Lemma tall_old i l : Forall (fun x => (x < n)%nat) l -> tall ns1 i l = tall ns i l.
Proof.
  induction 1 as [|x l Hx _ IH]; [done|]. unfold tall in *. rewrite !filter_cons, IH.
  by rewrite (proj1 (proj2 (proj2 (old_view x Hx)))).
Qed.

(** The last tall node in front of the key is unique. *)
Lemma last_at_unique i a x b v : 0%nat :: lo = a ++ x :: b -> (i < height ns x)%nat -> tall ns i b = [] -> last_at s lo i v -> v = x.
Proof.
  intros E Hx Hb (a' & b' & E' & Hv & Hb'). rewrite E in E'.
  apply app_eq_inv in E' as [(k & -> & E2)|(k & -> & E2)].
  - destruct k as [|z k]; injection E2 as -> ->; [done|]. exfalso. rewrite tall_app in Hb'. apply app_eq_nil in Hb' as [_ Hb'].
    unfold tall in Hb'. by rewrite filter_cons_True in Hb'.
  - destruct k as [|z k]; injection E2 as -> ->; [done|]. exfalso. rewrite tall_app in Hb. apply app_eq_nil in Hb as [_ Hb].
    unfold tall in Hb. by rewrite filter_cons_True in Hb.
Qed.

Lemma lo_lt : Forall (fun x => (x < n)%nat) lo /\ Forall (fun x => (x < n)%nat) hi.
Proof. rewrite <- Forall_app, <- Ho. apply Forall_forall. intros x Hx. apply order_lt. by right. Qed.

Lemma last_at_lt i v : last_at s lo i v -> (v < n)%nat /\ (i < height ns v)%nat.
Proof.
  intros (a & b & E & Hv & _). split; [|done]. apply order_lt, lo_elem. rewrite E. apply elem_of_app. right. by left.
Qed.

(** The pointers of the new node. *)
Lemma next_new i : (i < height ns1 n)%nat -> linked ns1 n update 0 lvl n i = Some (head (tall ns1 i hi)).
Proof.
  rewrite height_new. intros Hi. destruct (Hup i Hi) as (v & Ev & Hl). unfold linked. rewrite Ev.
  rewrite decide_True, decide_True by (done || lia). destruct (last_at_lt i v Hl) as [Hv Hh].
  rewrite (proj2 (proj2 (proj2 (old_view v Hv)))). destruct Hl as (a & b & El & _ & Hb).
  rewrite (sh_next _ _ Hs a v (b ++ hi) i); [|exact (lo_order order lo hi Ho a v b El)|done].
  rewrite tall_app, Hb. rewrite tall_old; [done|apply lo_lt].
Qed.

(** The pointers of the nodes in front of it. *)
Lemma next_front pre x k i :
  0%nat :: lo = pre ++ x :: k -> (i < height ns1 x)%nat ->
  linked ns1 n update 0 lvl x i = Some (head (tall ns1 i (k ++ n :: hi))).
Proof.
  intros E Hi. assert (Hx : (x < n)%nat) by (apply order_lt, lo_elem; rewrite E; apply elem_of_app; right; by left).
  pose proof (old_view x Hx) as (_ & _ & Hh & Hv). rewrite Hh in Hi. destruct lo_lt as [Hlt1 Hlt2].
  assert (Hk : Forall (fun x => (x < n)%nat) k).
  { rewrite Forall_forall in Hlt1 |- *. intros y Hy. apply Hlt1. destruct pre; injection E as _ ->; [done|].
    apply elem_of_app. right. by right. }
  rewrite tall_app, tall_old by done. unfold linked. rewrite Hv.
  rewrite (sh_next _ _ Hs pre x (k ++ hi) i); [|exact (lo_order order lo hi Ho pre x k E)|done]. rewrite tall_app.
  assert (Hn : tall ns1 i (n :: hi) = if decide (i < lvl)%nat then n :: tall ns i hi else tall ns i hi).
  { unfold tall. rewrite filter_cons, height_new. fold (tall ns1 i hi). rewrite tall_old by done. done. }
  rewrite Hn. destruct (tall ns i k) as [|y l] eqn:Ek; cbn [app head].
  - destruct (decide (i < lvl)%nat) as [Hil|Hil].
    + destruct (Hup i Hil) as (v & Ev & Hl). rewrite Ev, (decide_True (P := (0 <= i < lvl)%nat)) by lia.
      rewrite (last_at_unique i pre x k v E Hi Ek Hl). rewrite decide_False by lia. by rewrite decide_True.
    + destruct (update !! i) as [[u|]|]; [|done|done]. by rewrite decide_False by lia.
  - destruct (update !! i) as [[u|]|] eqn:Eu; [|done|done]. destruct (decide (0 <= i < lvl)%nat) as [Hil|]; [|done].
    destruct (Hup i ltac:(lia)) as (v & Ev & Hl). rewrite Eu in Ev. injection Ev as <-.
    rewrite !decide_False; [done| |lia]. intros <-. destruct Hl as (a & b & El & _ & Hb). rewrite E in El.
    pose proof order_nodup as Hnd. rewrite (lo_order order lo hi Ho pre x k E) in Hnd.
    assert (k = b) as ->; [|congruence]. rewrite app_comm_cons, app_assoc, <- E in Hnd. apply NoDup_app in Hnd as (Hnd & _ & _).
    rewrite E in Hnd. exact (proj2 (nodup_split _ _ _ _ _ Hnd El)).
Qed.

Lemma insert_next ns2 pre x post i :
  (forall y j, nxt ns2 y j = linked ns1 n update 0 lvl y j) ->
  0%nat :: lo ++ n :: hi = pre ++ x :: post -> (i < height ns1 x)%nat -> nxt ns2 x i = Some (head (tall ns1 i post)).
Proof.
  intros Hn E Hi. rewrite Hn. destruct lo_lt as [Hlt1 Hlt2]. unfold linked.
  rewrite app_comm_cons in E. apply app_eq_inv in E as [(k & E1 & E2)|(k & E1 & E2)].
  - destruct k as [|z k]; injection E2 as -> ->; [by apply next_new|]. by apply (next_front pre).
  - destruct k as [|z k]; injection E2 as E2 E3; [subst x post; by apply next_new|]. subst z.
    assert (E : 0%nat :: order = (0%nat :: lo ++ k) ++ x :: post) by (rewrite Ho, E3; cbn [app]; by rewrite <- app_assoc).
    assert (Hx : x ∈ hi) by (rewrite E3; apply elem_of_app; right; by left).
    rewrite Forall_forall in Hlt2. pose proof (old_view x (Hlt2 x Hx)) as (_ & _ & Hh & Hv). rewrite Hh in Hi.
    rewrite tall_old by (apply Forall_forall; intros y Hy; apply Hlt2; rewrite E3; apply elem_of_app; right; by right).
    rewrite <- (sh_next _ _ Hs _ _ _ i E Hi). rewrite Hv.
    destruct (update !! i) as [[u|]|] eqn:Eu; [|done|done]. destruct (decide (0 <= i < lvl)%nat) as [Hil|]; [|done].
    destruct (Hup i ltac:(lia)) as (v & Ev & Hl). rewrite Eu in Ev. injection Ev as <-.
    rewrite !decide_False; [done| |specialize (Hlt2 x Hx); lia].
    intros <-. pose proof order_nodup as Hnd. rewrite Ho, app_comm_cons in Hnd. apply NoDup_app in Hnd as (_ & Hnd & _).
    destruct Hl as (a & b & El & _). apply (Hnd x); [rewrite El; apply elem_of_app; right; by left|done].
Qed.

Lemma lo_below : Forall (fun x => Key x ≺ Key e) (map (entry_at ns) lo).
Proof.
  rewrite Forall_map. pose proof (sh_keys _ _ Hs) as Hk. rewrite Ho in Hk. apply Forall_app in Hk as [Hk _].
  rewrite Forall_forall in Hk, Hlo |- *. intros x Hx. rewrite <- (Hk x Hx). by apply Hlo.
Qed.

Lemma hi_above : Forall (fun x => Key e ≺ Key x) (map (entry_at ns) hi).
Proof.
  rewrite Forall_map. pose proof (sh_keys _ _ Hs) as Hk. rewrite Ho in Hk. apply Forall_app in Hk as [_ Hk].
  rewrite Forall_forall in Hk, Hhi |- *. intros x Hx. rewrite <- (Hk x Hx). by apply Hhi.
Qed.

Lemma insert_shape ns2 rng :
  link ns1 n update 0 lvl = Ok ns2 -> same_nodes ns1 ns2 -> (forall y j, nxt ns2 y j = linked ns1 n update 0 lvl y j) ->
  let s' := mkSkipList ns2 (Nat.max (sl_level s) lvl) (sl_length s + 1) rng in
  shape s' (lo ++ n :: hi) /\ contents s' (lo ++ n :: hi) = upsert e (contents s order).
Proof.
  intros _ S Hn s'. destruct lo_lt as [Hlt1 Hlt2]. pose proof (sh_head _ _ Hs) as Hh0. pose proof (sh_level _ _ Hs) as Hl0.
  assert (H0 : (0 < n)%nat) by (apply order_lt; by left).
  assert (En : entry_at ns2 n = e) by (rewrite (sn_entry _ _ S); unfold entry_at; by rewrite ns1_new).
  assert (Eo : forall l, Forall (fun x => (x < n)%nat) l -> map (entry_at ns2) l = map (entry_at ns) l).
  { intros l Hl. apply map_ext_Forall. eapply Forall_impl; [exact Hl|]. intros x Hx. cbv beta.
    by rewrite (sn_entry _ _ S), (proj1 (proj2 (old_view x Hx))). }
  assert (Ec : contents s' (lo ++ n :: hi) = map (entry_at ns) lo ++ e :: map (entry_at ns) hi).
  { unfold contents. cbn [s' sl_nodes]. rewrite map_app. cbn [map]. by rewrite En, !Eo. }
  assert (Eu : contents s' (lo ++ n :: hi) = upsert e (contents s order)).
  { rewrite Ec. unfold contents. rewrite Ho, map_app. rewrite upsert_below, upsert_above; [done|apply hi_above|apply lo_below]. }
  split; [|exact Eu].
  pose proof (sh_keys _ _ Hs) as Hkeys. pose proof (sh_height _ _ Hs) as Hheight.
  rewrite Ho in Hkeys, Hheight. apply Forall_app in Hkeys as [Hk1 Hk2]. apply Forall_app in Hheight as [Hg1 Hg2].
  split; cbn [s' sl_nodes sl_level sl_length].
  - rewrite (sn_length _ _ S), length_app. cbn [length]. rewrite seq_app. cbn [seq].
    rewrite <- (sh_nodes _ _ Hs), Ho. cbn [app]. rewrite <- app_assoc. by rewrite (Permutation_app_comm hi [_]).
  - rewrite (sn_height _ _ S). by rewrite (proj1 (proj2 (proj2 (old_view 0 H0)))).
  - apply Forall_app. split; [|constructor].
    + rewrite Forall_forall in *. intros x Hx. rewrite (sn_height _ _ S), (proj1 (proj2 (proj2 (old_view x (Hlt1 x Hx))))). specialize (Hg1 x Hx). lia.
    + rewrite (sn_height _ _ S), height_new. lia.
    + rewrite Forall_forall in *. intros x Hx. rewrite (sn_height _ _ S), (proj1 (proj2 (proj2 (old_view x (Hlt2 x Hx))))). specialize (Hg2 x Hx). lia.
  - lia.
  - apply Forall_app. split; [|constructor].
    + rewrite Forall_forall in *. intros x Hx. rewrite (sn_key _ _ S), (sn_entry _ _ S). destruct (old_view x (Hlt1 x Hx)) as (-> & -> & _). by apply Hk1.
    + rewrite (sn_key _ _ S), En. unfold key_at. by rewrite ns1_new.
    + rewrite Forall_forall in *. intros x Hx. rewrite (sn_key _ _ S), (sn_entry _ _ S). destruct (old_view x (Hlt2 x Hx)) as (-> & -> & _). by apply Hk2.
  - change (sorted_run (contents s' (lo ++ n :: hi))). rewrite Eu. apply upsert_sorted, Hs.
  - intros pre x post i E Hi. rewrite (sn_height _ _ S) in Hi. rewrite (insert_next ns2 pre x post i Hn E Hi).
    do 2 f_equal. unfold tall. apply list_filter_iff. intros y. by rewrite (sn_height _ _ S).
  - rewrite (sh_length _ _ Hs), Ho. unfold zlen. rewrite !length_app. cbn [length]. lia.
Qed.
End Insert.

(** Replacing the entry of the key that is there. *)
Lemma replace_contents s order lo y hi n e :
  shape s order -> order = lo ++ y :: hi -> Forall (fun x => key_at (sl_nodes s) x ≺ Key e) lo ->
  sl_nodes s !! y = Some n -> n_key n = Key e ->
  let s' := mkSkipList (<[y := mkNode (n_key n) e (n_next n)]> (sl_nodes s)) (sl_level s) (sl_length s) (sl_rng s) in
  shape s' order /\ contents s' order = upsert e (contents s order).
Proof.
  intros Hs Ho H1 Ey Hk s'. assert (Hy : y ∈ order) by (rewrite Ho; apply elem_of_app; right; by left).
  destruct (shape_replace s order y n e Hs Hy Ey Hk) as [Hs' He']. split; [exact Hs'|]. unfold contents. rewrite (map_ext _ _ He').
  pose proof (order_nodup s order Hs) as Hnd. apply NoDup_cons in Hnd as [_ Hnd]. rewrite Ho in Hnd |- *.
  apply NoDup_app in Hnd as (_ & Hnd1 & Hnd2). apply NoDup_cons in Hnd2 as [Hnd2 _].
  rewrite !map_app. cbn [map]. rewrite decide_True by done.
  assert (Hsame : forall l, y ∉ l -> map (fun x => if decide (x = y) then e else entry_at (sl_nodes s) x) l = map (entry_at (sl_nodes s)) l).
  { intros l Hnl. apply map_ext_in. intros z Hz. apply list_elem_of_In in Hz. rewrite decide_False; [done|]. by intros ->. }
  rewrite (Hsame lo) by (intros Hin; apply (Hnd1 y Hin); by left). rewrite (Hsame hi) by done.
  rewrite (upsert_below e (map (entry_at (sl_nodes s)) lo)); [|exact (lo_below s order lo (y :: hi) Hs Ho e H1)]. f_equal. cbn [upsert].
  destruct (node_at_order s order y Hs Hy) as (n' & _ & Ey' & _ & <- & E2). rewrite Ey in Ey'. injection Ey' as <-.
  assert (Ek : Key e = Key (n_entry n)) by congruence. by rewrite (proj2 (bytes_compare_Eq _ _) Ek).
Qed.

(** Adding a node of any level. *)
Lemma insert_new s order lo hi e up lvl rng :
  shape s order -> order = lo ++ hi -> Forall (fun x => key_at (sl_nodes s) x ≺ Key e) lo ->
  Forall (fun x => Key e ≺ key_at (sl_nodes s) x) hi -> (1 <= lvl <= skiplistMaxLevel)%nat -> length up = skiplistMaxLevel ->
  (forall i, (i < sl_level s)%nat -> exists v, up !! i = Some (Some v) /\ last_at s lo i v) ->
  let up' := if bool_decide (sl_level s < lvl)%nat then raise up (sl_level s) (lvl - sl_level s) else up in
  exists ns2, link (sl_nodes s ++ [mkNode (Key e) e (replicate lvl None)]) (length (sl_nodes s)) up' 0 lvl = Ok ns2 /\
    let s' := mkSkipList ns2 (Nat.max (sl_level s) lvl) (sl_length s + 1) rng in
    shape s' (lo ++ length (sl_nodes s) :: hi) /\ contents s' (lo ++ length (sl_nodes s) :: hi) = upsert e (contents s order).
Proof.
  intros Hs Ho H1 H2 Hlvl Hlen Hup up'. pose proof (sh_level _ _ Hs) as Hl. pose proof (sh_head _ _ Hs) as Hh.
  assert (Hup' : forall i, (i < lvl)%nat -> exists v, up' !! i = Some (Some v) /\ last_at s lo i v).
  { intros i Hi. unfold up'. case_bool_decide as Hb; [|apply Hup; lia].
    destruct (raise_spec (lvl - sl_level s) up (sl_level s) ltac:(lia)) as [_ Hr]. rewrite Hr. case_decide as Hd; [|apply Hup; lia].
    exists 0%nat. split; [done|]. exists [], lo. split; [done|]. split; [lia|]. apply tall_none.
    pose proof (sh_height _ _ Hs) as Hg. rewrite Ho in Hg. apply Forall_app in Hg as [Hg _].
    eapply Forall_impl; [exact Hg|]. intros x Hx. cbv beta in *. lia. }
  destruct (link_spec (length (sl_nodes s)) up' lvl (sl_nodes s ++ [mkNode (Key e) e (replicate lvl None)]) 0) as (ns2 & E & S & Hn).
  - intros k Hk. destruct (Hup' k ltac:(lia)) as (v & Ev & Hv). destruct (last_at_lt s order lo hi Hs Ho k v Hv) as [Hvn Hvh].
    exists v. split; [done|]. split; [lia|]. by rewrite (proj1 (proj2 (proj2 (old_view s e lvl v Hvn)))).
  - rewrite height_new. lia.
  - exists ns2. split; [exact E|]. by apply (insert_shape s order lo hi Hs Ho e H1 H2 up' lvl Hlvl Hup' ns2 rng).
Qed.

(** [Upsert] sets the entry of the key. *)
Lemma Upsert_spec s order e :
  shape s order -> exists s' order',
    Upsert s e = Ok ((bool_decide (lookup_entry (Key e) (contents s order) = None), lookup_entry (Key e) (contents s order)), s') /\
    shape s' order' /\ contents s' order' = upsert e (contents s order).
Proof.
  intros Hs. destruct (findPrev_spec s order (Key e) Hs) as (lo & hi & x & up & Ho & H1 & H2 & E & Hlen & Hup & _ & En).
  pose proof (found_spec s order lo hi (Key e) Hs Ho H1 H2) as Hf. unfold Upsert. rewrite E. cbn [mbind result_bind].
  rewrite En. cbn [mbind result_bind].
  destruct (lookup_entry (Key e) (contents s order)) as [old|] eqn:El.
  - destruct Hf as (y & hi' & n & Eh & Ey & Hk & He). rewrite Eh in *. cbn [head]. unfold node_at. rewrite Ey. cbn [mbind result_bind].
    rewrite bool_decide_true by (by apply bytes_compare_Eq). cbn [mbind result_bind].
    destruct (replace_contents s order lo y hi' n e Hs Ho H1 Ey Hk) as [Hs' Hc]. eexists _, order. rewrite <- He. by split.
  - replace (match head hi with None => Ok None | Some y => _ end) with (@Ok (option (nat * node)) None).
    2:{ destruct (head hi) as [y|]; [|done]. destruct (Hf y eq_refl) as (n & Ey & Hk). unfold node_at. rewrite Ey. cbn [mbind result_bind].
        rewrite bool_decide_false; [done|]. rewrite bytes_compare_Eq. intros Ek. rewrite Ek in Hk. by apply bytes_lt_irrefl in Hk. }
    cbn [mbind result_bind]. destruct (randomLevel (sl_rng s)) as [lvl rng] eqn:Er.
    assert (Hlvl : (1 <= lvl <= skiplistMaxLevel)%nat).
    { pose proof (random_level_range (skiplistMaxLevel - 1) 1 (sl_rng s)) as H. unfold randomLevel in Er. rewrite Er in H.
      unfold skiplistMaxLevel in *. cbn [fst] in H. lia. }
    destruct (insert_new s order lo hi e up lvl rng Hs Ho H1) as (ns2 & El2 & Hs' & Hc); [|done|done|done|].
    + rewrite Forall_forall in H2 |- *. intros y Hy. specialize (H2 y Hy). apply lookup_entry_None in El.
      unfold contents in El. rewrite Ho, map_app, Forall_app in El. destruct El as [_ El]. rewrite Forall_map, Forall_forall in El.
      specialize (El y Hy). destruct (node_at_order s order y Hs) as (n & _ & _ & Ek & Ee & E2);
        [rewrite Ho; apply elem_of_app; by right|]. rewrite <- Ee, <- E2, Ek in El. bytes_order.
    + rewrite El2. cbn [mbind result_bind]. eexists _, _. by split.
Qed.

(** ** Iteration *)

Lemma iter_entries_spec s order post : forall fuel pre x,
  shape s order -> 0%nat :: order = pre ++ x :: post -> (length post < fuel)%nat ->
  iter_entries fuel (sl_nodes s) x = Ok (map (entry_at (sl_nodes s)) post).
Proof.
  induction post as [|y post IH]; intros fuel pre x Hs E Hf; (destruct fuel as [|fuel]; [lia|]); cbn [iter_entries].
  all: assert (Hx : (0 < height (sl_nodes s) x)%nat)
    by (destruct pre as [|z pre]; injection E as ? Eo; [subst x; pose proof (sh_head _ _ Hs) as Hh; unfold skiplistMaxLevel in Hh; lia|];
        pose proof (sh_height _ _ Hs) as Hg; rewrite Forall_forall in Hg; specialize (Hg x); rewrite Eo in Hg;
        specialize (Hg ltac:(apply elem_of_app; right; by left)); lia).
  all: rewrite (next_at_nxt _ _ _ _ (sh_next _ _ Hs pre x _ 0 E Hx)); cbn [mbind result_bind].
  - done.
  - assert (Hy : y ∈ order).
    { destruct pre as [|z pre]; injection E as _ ->; [by left|]. apply elem_of_app. right. right. by left. }
    assert (Ht : head (tall (sl_nodes s) 0 (y :: post)) = Some y).
    { unfold tall. rewrite filter_cons_True; [done|]. pose proof (sh_height _ _ Hs) as Hg. rewrite Forall_forall in Hg. specialize (Hg y Hy). lia. }
    rewrite Ht. destruct (node_at_order s order y Hs Hy) as (n & En & _ & _ & Ee & _). rewrite En. cbn [mbind result_bind].
    rewrite (IH fuel (pre ++ [x]) y Hs); [|by rewrite <- app_assoc|cbn in Hf; lia]. cbn [mbind result_bind map]. by rewrite Ee.
Qed.

Lemma length_order s order : shape s order -> length (sl_nodes s) = S (length order).
Proof. intros Hs. pose proof (Permutation_length (sh_nodes _ _ Hs)) as H. rewrite length_seq in H. cbn in H. lia. Qed.

Lemma SkipList_Iter_spec s order : shape s order -> SkipList_Iter s = Ok (contents s order).
Proof.
  intros Hs. unfold SkipList_Iter. rewrite (iter_entries_spec s order order _ [] 0 Hs); [done|done|].
  rewrite (length_order s order Hs). lia.
Qed.

Lemma SkipList_IterFrom_spec s order start :
  shape s order -> SkipList_IterFrom s start = Ok (entries_from start (contents s order)).
Proof.
  intros Hs. destruct (findPrev_spec s order start Hs) as (lo & hi & x & up & Ho & H1 & H2 & E & _ & _ & [a Ea] & _).
  unfold SkipList_IterFrom. rewrite E. cbn [mbind result_bind].
  rewrite (iter_entries_spec s order hi _ a x Hs).
  - f_equal. unfold contents, entries_from. rewrite Ho, map_app, filter_app. rewrite list_filter_none, list_filter_all; [done|..].
    + intros e (y & -> & Hy)%list_elem_of_fmap. destruct (node_at_order s order y Hs) as (n & _ & _ & Ek & Ee & E2);
        [rewrite Ho; apply elem_of_app; by right|]. rewrite <- Ee, <- E2, Ek. rewrite Forall_forall in H2. by apply H2.
    + intros e (y & -> & Hy)%list_elem_of_fmap Hle. destruct (node_at_order s order y Hs) as (n & _ & _ & Ek & Ee & E2);
        [rewrite Ho; apply elem_of_app; by left|]. rewrite <- Ee, <- E2, Ek in Hle. rewrite Forall_forall in H1. specialize (H1 y Hy). bytes_order.
  - rewrite Ho. change (0%nat :: lo ++ hi) with ((0%nat :: lo) ++ hi). by rewrite Ea, <- app_assoc.
  - rewrite (length_order s order Hs), Ho, length_app. lia.
Qed.

Lemma New_shape : shape SkipList_New [] /\ contents SkipList_New [] = [].
Proof.
  split; [|done]. split; try done; try constructor; try (cbn; unfold skiplistMaxLevel; lia).
  intros pre x post i E Hi. destruct pre as [|z pre]; injection E as <- E; [subst post|by destruct pre].
  unfold nxt. cbn [SkipList_New sl_nodes] in *. cbn [lookup list_lookup mbind option_bind n_next].
  rewrite lookup_replicate_2; [done|]. exact Hi.
Qed.
