(* ===== verification/Arena.v ===== *)
(** * Arenas ([memory/arena/arena.go], [memory/builder.go])

    The bump allocator that memtables copy keys and values into.  Blocks are
    shared memory: a slice names a part of a block, so what it reads can change.
    The invariant says that copies do not disturb each other until a reset;
    the example at the end shows what a reset does to a reader. *)

From Stdlib Require Import ZArith Lia Strings.Byte.
From stdpp Require Import base list strings.
From S2P Require Import Prelude.
Local Open Scope Z_scope.

(** ** Memory *)

(** Blocks by their number; a slice of one. *)
Abbreviation memory := (list bytes).
Record slice := mkSlice { sl_block : nat; sl_off : nat; sl_len : nat }.

Definition read (m : memory) (s : slice) : bytes := take (sl_len s) (drop (sl_off s) (default [] (m !! sl_block s))).

(** [copy(dst, src)] for as many bytes as there are in both. *)
Definition copy_into (dst : slice) (src : bytes) (m : memory) : memory :=
  alter (list_inserts (sl_off dst) (take (sl_len dst) src)) (sl_block dst) m.

(** ** The arena *)

Definition DefaultArenaBlockSize : Z := 256 * 1024.
Record ArenaOptions := mkArenaOptions { ao_BlockSize : Z; SoftLimitBytes : Z; HardLimitBytes : Z }.

(** [ar_cur] is the number of the current block. *)
Record Arena := mkArena {
  ar_opt : ArenaOptions;
  ar_blocks : list nat;
  ar_cur : option nat;
  ar_off : Z;
  usedBytes : Z;
  reservedBytes : Z;
  hardDenied : Z
}.

Definition NewArenaWithOptions (opt : ArenaOptions) : Arena :=
  mkArena (if bool_decide (ao_BlockSize opt <= 0) then mkArenaOptions DefaultArenaBlockSize (SoftLimitBytes opt) (HardLimitBytes opt) else opt) [] None 0 0 0 0.
Definition NewArena (blockSize : Z) : Arena := NewArenaWithOptions (mkArenaOptions blockSize 0 0).

Definition make_block (n : Z) : bytes := replicate (Z.to_nat n) Byte.x00.
Definition block_len (m : memory) (i : nat) : Z := zlen (default [] (m !! i)).

(** A bump in the current block. *)
Definition bump (cur : nat) (n : Z) (a : Arena) : slice * Arena :=
  (mkSlice cur (Z.to_nat (ar_off a)) (Z.to_nat n),
   mkArena (ar_opt a) (ar_blocks a) (Some cur) (ar_off a + n) (usedBytes a + n) (reservedBytes a) (hardDenied a)).

Definition Alloc (n : Z) (s : Arena * memory) : option slice * (Arena * memory) :=
  let '(a, m) := s in
  if bool_decide (n <= 0) then (None, s)
  else if bool_decide (0 < HardLimitBytes (ar_opt a) /\ HardLimitBytes (ar_opt a) < usedBytes a + n) then
    (None, (mkArena (ar_opt a) (ar_blocks a) (ar_cur a) (ar_off a) (usedBytes a) (reservedBytes a) (hardDenied a + 1), m))
  else if bool_decide (ao_BlockSize (ar_opt a) < n) then
    (Some (mkSlice (length m) 0 (Z.to_nat n)),
     (mkArena (ar_opt a) (ar_blocks a ++ [length m]) (ar_cur a) (ar_off a) (usedBytes a + n) (reservedBytes a + n) (hardDenied a), m ++ [make_block n]))
  else match (cur ← ar_cur a; if bool_decide (block_len m cur < ar_off a + n) then None else Some cur) with
  | Some cur => let '(sl, a) := bump cur n a in (Some sl, (a, m))
  | None =>
      let size := ao_BlockSize (ar_opt a) in
      let '(sl, a) := bump (length m) n (mkArena (ar_opt a) (ar_blocks a ++ [length m]) (Some (length m)) 0 (usedBytes a) (reservedBytes a + size) (hardDenied a)) in
      (Some sl, (a, m ++ [make_block size]))
  end.

Definition AllocCopy (src : bytes) (s : Arena * memory) : option slice * (Arena * memory) :=
  if bool_decide (src = []) then (None, s)
  else match Alloc (zlen src) s with
  | (None, s) => (None, s)
  | (Some dst, (a, m)) => (Some dst, (a, copy_into dst src m))
  end.

Definition SoftLimitExceeded (a : Arena) : bool := bool_decide (0 < SoftLimitBytes (ar_opt a) /\ SoftLimitBytes (ar_opt a) <= usedBytes a).

Definition Arena_Reset (s : Arena * memory) : Arena * memory :=
  let '(a, m) := s in
  match list_find (fun i => block_len m i = ao_BlockSize (ar_opt a)) (ar_blocks a) with
  | Some (_, keep) => (mkArena (ar_opt a) [keep] (Some keep) 0 0 (block_len m keep) 0, m)
  | None => (mkArena (ar_opt a) [] None 0 0 0 0, m)
  end.

(** ** Entries (builder.go) *)

(** A copied field: nothing, or a slice of the arena or of a block of its own. *)
Definition CopyBytes (src : bytes) (s : Arena * memory) : option slice * (Arena * memory) :=
  if bool_decide (src = []) then (None, s)
  else match AllocCopy src s with
  | (Some dst, s) => (Some dst, s)
  | (None, (a, m)) => (Some (mkSlice (length m) 0 (length src)), (a, m ++ [src]))
  end.

Record heapEntry := mkHeapEntry { he_Key : option slice; he_Value : option slice; he_Tombstone : bool; he_Seq : Z }.
Definition field (m : memory) (s : option slice) : bytes := from_option (read m) [] s.
Definition entry_at (m : memory) (e : heapEntry) : Entry := mkEntry (field m (he_Key e)) (field m (he_Value e)) (he_Tombstone e) (he_Seq e).

Definition CopyEntry (entry : Entry) (s : Arena * memory) : heapEntry * (Arena * memory) :=
  let '(key, s) := CopyBytes (Key entry) s in
  let '(value, s) := CopyBytes (Value entry) s in
  (mkHeapEntry key value (Tombstone entry) (Seq entry), s).

(** ** The invariant *)

(** A slice that later allocations do not touch: it lies in a block that
    exists, and below the mark if that is the current one. *)
Definition live (s : Arena * memory) (sl : slice) : Prop :=
  (sl_off sl + sl_len sl <= length (default [] (snd s !! sl_block sl)))%nat /\ (sl_block sl < length (snd s))%nat /\
  (ar_cur (fst s) = Some (sl_block sl) -> (sl_off sl + sl_len sl <= Z.to_nat (ar_off (fst s)))%nat).

Record arena_ok (s : Arena * memory) : Prop := mkArenaOk {
  ok_size : 0 < ao_BlockSize (ar_opt (fst s));
  ok_off : 0 <= ar_off (fst s);
  ok_cur : forall i, ar_cur (fst s) = Some i -> (i < length (snd s))%nat /\ block_len (snd s) i = ao_BlockSize (ar_opt (fst s)) /\ ar_off (fst s) <= block_len (snd s) i;
  ok_used : 0 <= usedBytes (fst s);
  ok_limit : 0 < HardLimitBytes (ar_opt (fst s)) -> usedBytes (fst s) <= HardLimitBytes (ar_opt (fst s));
  ok_blocks : Forall (fun i => i < length (snd s))%nat (ar_blocks (fst s))
}.

(** What an operation leaves: the invariant, and the slices there were. *)
Definition keeps_slices (s s' : Arena * memory) : Prop := arena_ok s' /\ forall sl, live s sl -> live s' sl /\ read (snd s') sl = read (snd s) sl.

Lemma keeps_trans s1 s2 s3 : keeps_slices s1 s2 -> keeps_slices s2 s3 -> keeps_slices s1 s3.
Proof. intros [A1 A2] [B1 B2]. split; [done|]. intros sl Hl. destruct (A2 sl Hl) as [C1 C2]. destruct (B2 sl C1) as [D1 D2]. split; [done|congruence]. Qed.

(** ** Reads and writes *)

Abbreviation block_of m sl := (default (@nil Byte.byte) (m !! sl_block sl)).

Lemma read_lookup m sl i : read m sl !! i = if decide (i < sl_len sl)%nat then block_of m sl !! (sl_off sl + i)%nat else None.
Proof. unfold read. case_decide; [by rewrite lookup_take_lt, lookup_drop|apply lookup_take_ge; lia]. Qed.

Lemma read_grows m b sl : (sl_block sl < length m)%nat -> block_of (m ++ [b]) sl = block_of m sl.
Proof. intros Hl. by rewrite lookup_app_l. Qed.

(** Two slices with no byte in common. *)
Definition apart (x y : slice) : Prop := sl_block x <> sl_block y \/ (sl_off x + sl_len x <= sl_off y)%nat \/ (sl_off y + sl_len y <= sl_off x)%nat.

Lemma copy_block m dst src i : default [] (copy_into dst src m !! i) = if decide (i = sl_block dst) then list_inserts (sl_off dst) (take (sl_len dst) src) (default [] (m !! i)) else default [] (m !! i).
Proof.
  unfold copy_into. case_decide as Hi; [subst; rewrite list_lookup_alter_eq|by rewrite list_lookup_alter_ne].
  destruct (m !! sl_block dst); [done|]. cbn. apply list_eq. intros j. by destruct (list_inserts _ _ (@nil Byte.byte)) eqn:E; [|apply (f_equal length) in E; rewrite length_inserts in E].
Qed.

Lemma copy_lengths m dst src : length (copy_into dst src m) = length m /\ forall i, length (default [] (copy_into dst src m !! i)) = length (default [] (m !! i)).
Proof.
  split; [apply length_alter|]. intros i. rewrite copy_block. case_decide; [apply length_inserts|done].
Qed.

Lemma read_apart m dst src sl : apart dst sl -> read (copy_into dst src m) sl = read m sl.
Proof.
  intros Ha. apply list_eq. intros i. rewrite !read_lookup. case_decide; [|done]. rewrite copy_block. case_decide as Hb; [|done].
  assert (Hlen : (length (take (sl_len dst) src) <= sl_len dst)%nat) by (rewrite length_take; lia).
  destruct Ha as [Ha|[Ha|Ha]]; [done|apply list_lookup_inserts_ge; lia|apply list_lookup_inserts_lt; lia].
Qed.

Lemma read_copied m dst src : length src = sl_len dst -> (sl_off dst + sl_len dst <= length (block_of m dst))%nat -> read (copy_into dst src m) dst = src.
Proof.
  intros Hl Hb. apply list_eq. intros i. rewrite read_lookup. case_decide as Hi.
  - rewrite copy_block, decide_True, take_ge by (done || lia). rewrite list_lookup_inserts by lia. f_equal. lia.
  - symmetry. apply lookup_ge_None. lia.
Qed.

(** ** Allocations *)

Lemma make_block_length n : length (make_block n) = Z.to_nat n.
Proof. apply length_replicate. Qed.

Lemma new_block_length m n : block_len (m ++ [make_block n]) (length m) = Z.max 0 n.
Proof. unfold block_len. rewrite lookup_app_r, Nat.sub_diag by lia. cbn. unfold zlen. rewrite make_block_length. lia. Qed.

(** A slice above the mark of the current block, or in a new block, is apart
    from the live ones. *)
Lemma fresh_apart s sl other : live s other ->
  (sl_block sl = length (snd s) \/ (ar_cur (fst s) = Some (sl_block sl) /\ (Z.to_nat (ar_off (fst s)) <= sl_off sl)%nat)) -> apart sl other.
Proof.
  intros (L1 & L2 & L3) [E|[E1 E2]]; [left; lia|]. destruct (decide (sl_block sl = sl_block other)) as [E|]; [|by left]. right; right. rewrite E in E1. specialize (L3 E1). lia.
Qed.

Definition allocated (n : Z) (s : Arena * memory) (r : option slice) (s' : Arena * memory) : Prop :=
  keeps_slices s s' /\
  match r with
  | Some sl => live s' sl /\ sl_len sl = Z.to_nat n /\ (forall other, live s other -> apart sl other)
  | None => True
  end.

(** A block that is added keeps the slices. *)
Lemma live_grows a a' m b sl : live (a, m) sl -> ar_cur a' = Some (length m) \/ (ar_cur a' = ar_cur a /\ ar_off a' = ar_off a) ->
  live (a', m ++ [b]) sl /\ read (m ++ [b]) sl = read m sl.
Proof.
  intros (L1 & L2 & L3) Hc. cbn [fst snd] in *. pose proof (read_grows m b sl L2) as Eb. split; [|unfold read; by rewrite Eb].
  split_and!; cbn [fst snd]; [by rewrite Eb|rewrite length_app; cbn; lia|].
  intros E. destruct Hc as [Hc|[Hc ->]]; [rewrite Hc in E; injection E as E; lia|]. apply L3. congruence.
Qed.

Lemma Alloc_spec n s : arena_ok s -> let '(r, s') := Alloc n s in allocated n s r s'.
Proof.
  intros Hok. assert (Hrefl : keeps_slices s s) by (by split). destruct s as [a m]. unfold Alloc. case_bool_decide as Hn; [done|].
  pose proof Hok as [B1 B2 B3 B4 B5 B6]. cbn in B1, B2, B3, B4, B5, B6. case_bool_decide as Hlim.
  { split; [|done]. split; [by split|]. intros sl Hl. by split. }
  assert (Hlimit : 0 < HardLimitBytes (ar_opt a) -> usedBytes a + n <= HardLimitBytes (ar_opt a)) by lia.
  assert (Hnew : forall k, Forall (fun i => i < length (m ++ [make_block k]))%nat (ar_blocks a ++ [length m])).
  { intros k. rewrite length_app. cbn. apply Forall_app. split; [eapply Forall_impl; [exact B6|intros; cbn in *; lia]|]. constructor; [lia|constructor]. }
  case_bool_decide as Hbig.
  - split; [split|].
    + split; cbn; try done; try lia. intros i Hi. destruct (B3 i Hi) as (C1 & C2 & C3). unfold block_len in *. rewrite lookup_app_l by done. rewrite length_app. cbn. lia.
    + intros sl Hl. apply (live_grows a); [done|]. by right.
    + split_and!; [|done|]. 
      * split_and!; cbn; [rewrite lookup_app_r, Nat.sub_diag by lia; cbn; rewrite make_block_length; lia|rewrite length_app; cbn; lia|]. intros E. destruct (B3 _ E). lia.
      * intros other Ho. apply (fresh_apart (a, m)); [done|by left].
  - destruct (cur ← ar_cur a; _) as [cur|] eqn:Ec; cbn [bump].
    + destruct (ar_cur a) as [c|] eqn:Ea; [|done]. cbn in Ec. case_bool_decide as Hfit; [done|]. injection Ec as ->. destruct (B3 cur eq_refl) as (C1 & C2 & C3). split; [split|].
      * split; cbn; try done; try lia. intros i [= <-]. lia.
      * intros sl (L1 & L2 & L3). cbn in *. split; [|done]. split_and!; cbn; [done|done|]. intros [= E]. rewrite E in Ea. specialize (L3 Ea). lia.
      * split_and!; [|done|intros other Ho; apply (fresh_apart (a, m)); [done|by right]]. unfold block_len, zlen in *. split_and!; cbn; lia.
    + pose proof (new_block_length m (ao_BlockSize (ar_opt a))) as Hb. split; [split|].
      * split; cbn; try done; try lia. intros i [= <-]. rewrite Hb, length_app. cbn. lia.
      * intros sl Hl. apply (live_grows a); [done|]. by left.
      * split_and!; [|done|intros other Ho; apply (fresh_apart (a, m)); [done|by left]]. unfold block_len, zlen in Hb. split_and!; cbn in *; [lia|rewrite length_app; cbn; lia|lia].
Qed.

(** ** Copies *)

(** A field that holds [src]. *)
Definition stored (s : Arena * memory) (f : option slice) (src : bytes) : Prop :=
  match f with None => src = [] | Some sl => live s sl /\ read (snd s) sl = src end.

Lemma stored_kept s s' f src : keeps_slices s s' -> stored s f src -> stored s' f src.
Proof. intros [_ Hk]. destruct f as [sl|]; [|done]. intros [Hl Hr]. destruct (Hk sl Hl) as [H1 H2]. split; [done|congruence]. Qed.

Lemma copy_kept a m dst src sl : live (a, m) sl -> apart dst sl -> live (a, copy_into dst src m) sl /\ read (copy_into dst src m) sl = read m sl.
Proof.
  intros (L1 & L2 & L3) Ha. destruct (copy_lengths m dst src) as [E1 E2]. split; [|by apply read_apart]. split_and!; cbn in *; [by rewrite E2|by rewrite E1|done].
Qed.

Lemma copy_ok a m dst src : arena_ok (a, m) -> arena_ok (a, copy_into dst src m).
Proof.
  intros [B1 B2 B3 B4 B5 B6]. destruct (copy_lengths m dst src) as [E1 E2]. split; cbn in *; try done; [|by rewrite E1].
  intros i Hi. unfold block_len, zlen in *. rewrite E1, E2. by apply B3.
Qed.

Lemma AllocCopy_spec src s : arena_ok s -> let '(r, s') := AllocCopy src s in keeps_slices s s' /\ match r with Some sl => stored s' (Some sl) src | None => True end.
Proof.
  intros Hok. unfold AllocCopy. case_bool_decide; [by split|]. pose proof (Alloc_spec (zlen src) s Hok) as Ha. destruct (Alloc (zlen src) s) as [[dst|] [a m]]; [|done].
  destruct Ha as ([Hok' Hk] & Hl & Hlen & Hapart). assert (El : length src = sl_len dst) by (rewrite Hlen; unfold zlen; lia). split; [split; [by apply copy_ok|]|].
  - intros sl Hsl. destruct (Hk sl Hsl) as [H1 H2]. destruct (copy_kept a m dst src sl H1 (Hapart sl Hsl)) as [G1 G2]. split; [done|]. cbn in *. congruence.
  - destruct (copy_lengths m dst src) as [E1 E2]. destruct Hl as (L1 & L2 & L3). split; [split_and!; cbn in *; [by rewrite E2|by rewrite E1|done]|]. by apply read_copied.
Qed.

Lemma CopyBytes_spec src s : arena_ok s -> let '(r, s') := CopyBytes src s in keeps_slices s s' /\ stored s' r src.
Proof.
  intros Hok. unfold CopyBytes. case_bool_decide; [by split|]. pose proof (AllocCopy_spec src s Hok) as Ha. destruct (AllocCopy src s) as [[dst|] [a m]]; [done|].
  destruct Ha as [[Hok' Hk] _]. split; [split|].
  - destruct Hok' as [B1 B2 B3 B4 B5 B6]. split; cbn in *; try done.
    + intros i Hi. destruct (B3 i Hi) as (C1 & C2 & C3). unfold block_len in *. rewrite lookup_app_l by done. rewrite length_app. cbn. lia.
    + eapply Forall_impl; [exact B6|]. intros i Hi. cbn in *. rewrite length_app. cbn. lia.
  - intros sl Hsl. destruct (Hk sl Hsl) as [H1 H2]. destruct (live_grows a a m src sl H1) as [G1 G2]; [by right|]. split; [done|]. cbn in *. congruence.
  - assert (Eb : default [] ((m ++ [src]) !! length m) = src) by (by rewrite lookup_app_r, Nat.sub_diag). split.
    + split_and!; cbn [sl_block sl_off sl_len fst snd]; [by rewrite Eb|rewrite length_app; cbn; lia|]. intros E. destruct (ok_cur _ Hok' _ E). cbn in *. lia.
    + unfold read. cbn [sl_block sl_off sl_len snd]. rewrite Eb. cbn. by rewrite firstn_all.
Qed.

Definition holds_entry (s : Arena * memory) (h : heapEntry) (e : Entry) : Prop :=
  stored s (he_Key h) (Key e) /\ stored s (he_Value h) (Value e) /\ he_Tombstone h = Tombstone e /\ he_Seq h = Seq e.

Lemma stored_field s f src : stored s f src -> field (snd s) f = src.
Proof. destruct f; cbn; [by intros [_ ?]|done]. Qed.

Lemma holds_entry_at s h e : holds_entry s h e -> entry_at (snd s) h = e.
Proof. intros (H1 & H2 & H3 & H4). unfold entry_at. rewrite (stored_field _ _ _ H1), (stored_field _ _ _ H2), H3, H4. by destruct e. Qed.

Lemma CopyEntry_spec e s : arena_ok s -> let '(h, s') := CopyEntry e s in keeps_slices s s' /\ holds_entry s' h e.
Proof.
  intros Hok. unfold CopyEntry. pose proof (CopyBytes_spec (Key e) s Hok) as Hk. destruct (CopyBytes (Key e) s) as [k s1]. destruct Hk as [K1 K2].
  pose proof (CopyBytes_spec (Value e) s1 (proj1 K1)) as Hv. destruct (CopyBytes (Value e) s1) as [v s2]. destruct Hv as [V1 V2].
  split; [by eapply keeps_trans|]. split_and!; cbn; [by eapply stored_kept|done|done|done].
Qed.

Lemma Reset_ok s : arena_ok s -> arena_ok (Arena_Reset s).
Proof.
  destruct s as [a m]. intros [B1 B2 B3 B4 B5 B6]. cbn in *. destruct (list_find _ _) as [[j keep]|] eqn:E; [|by split; cbn; try done; lia].
  apply list_find_Some in E as (E1 & E2 & _). rewrite Forall_forall in B6. assert (Hk : (keep < length m)%nat) by (apply B6, list_elem_of_lookup; eauto).
  split; cbn; try done; try lia. - intros i [= <-]. unfold block_len, zlen in *. lia. - by constructor.
Qed.

(** ** The life of an arena *)

Inductive arena_op := OpCopy (e : Entry) | OpReset.

(** The entries copied since the last reset, as they lie in memory and as they
    were. *)
Fixpoint arena_run (ops : list arena_op) (s : Arena * memory) (copies : list (heapEntry * Entry)) : list (heapEntry * Entry) * (Arena * memory) :=
  match ops with
  | [] => (copies, s)
  | OpCopy e :: ops => let '(h, s) := CopyEntry e s in arena_run ops s (copies ++ [(h, e)])
  | OpReset :: ops => arena_run ops (Arena_Reset s) []
  end.

Lemma arena_run_spec ops : forall s copies, arena_ok s -> Forall (fun c => holds_entry s (fst c) (snd c)) copies ->
  let '(copies', s') := arena_run ops s copies in arena_ok s' /\ Forall (fun c => holds_entry s' (fst c) (snd c)) copies'.
Proof.
  induction ops as [|[e|] ops IH]; intros s copies Hok Hc; cbn [arena_run]; [done| |apply IH; [by apply Reset_ok|constructor]].
  pose proof (CopyEntry_spec e s Hok) as He. destruct (CopyEntry e s) as [h s1]. destruct He as [K He]. apply IH; [apply K|].
  apply Forall_app. split; [|by constructor]. eapply Forall_impl; [exact Hc|]. intros [h' e'] (H1 & H2 & H3 & H4). cbn in *.
  split_and!; [by eapply stored_kept|by eapply stored_kept|done|done].
Qed.

Lemma arena_opt ops : forall s copies, ar_opt (fst (snd (arena_run ops s copies))) = ar_opt (fst s).
Proof.
  assert (Hb : forall src s, ar_opt (fst (snd (CopyBytes src s))) = ar_opt (fst s)).
  { intros src [a m]. unfold CopyBytes, AllocCopy, Alloc, bump. repeat case_match; by simplify_eq. }
  induction ops as [|[e|] ops IH]; intros s copies; cbn [arena_run]; [done|..].
  - unfold CopyEntry. pose proof (Hb (Key e) s) as E1. destruct (CopyBytes (Key e) s) as [k s1]. pose proof (Hb (Value e) s1) as E2. destruct (CopyBytes (Value e) s1) as [v s2].
    cbn in *. rewrite IH. congruence.
  - rewrite IH. destruct s as [a m]. cbn. by destruct (list_find _ _) as [[]|].
Qed.

(** C31. Copies in an arena do not disturb each other: over any copies of
    entries and resets, with any block size and limits, every entry copied
    since the last reset reads as it was given, whatever was copied after it,
    also where an allocation was denied or did not fit a block; and the bytes
    in use never exceed a hard limit. *)
Theorem arena_copies_stable opt m ops :
  let '(copies, (a, m')) := arena_run ops (NewArenaWithOptions opt, m) [] in
  Forall (fun c => entry_at m' (fst c) = snd c) copies /\ (0 < HardLimitBytes opt -> usedBytes a <= HardLimitBytes opt).
Proof.
  assert (Hok : arena_ok (NewArenaWithOptions opt, m)).
  { unfold NewArenaWithOptions. split; cbn; try done; try lia; case_bool_decide; cbn; unfold DefaultArenaBlockSize; lia. }
  assert (Ho : HardLimitBytes (ar_opt (NewArenaWithOptions opt)) = HardLimitBytes opt) by (unfold NewArenaWithOptions; cbn; by case_bool_decide).
  pose proof (arena_run_spec ops _ [] Hok ltac:(constructor)) as Hr. pose proof (arena_opt ops (NewArenaWithOptions opt, m) []) as Eo.
  destruct (arena_run ops _ []) as [copies [a m']]. destruct Hr as [Ha Hc]. cbn in Eo. split.
  - eapply Forall_impl; [exact Hc|]. intros [h e] Hh. by apply (holds_entry_at (a, m')).
  - rewrite <- Ho. unfold NewArenaWithOptions in Eo |- *. cbn in Eo |- *. rewrite <- Eo. apply (ok_limit _ Ha).
Qed.

(** A read of a memtable returns the entry as it lies in memory, and copies
    it after the lock was released.  If the memtable is flushed, reset and
    written to in between, the caller gets bytes that were never written for
    the key. *)
Example reader_sees_reused_memory :
  let put k v := mkEntry (bytes_of_string k) (bytes_of_string v) false 1 in
  let '(h, s) := CopyEntry (put "key" "old") (NewArena 64, []) in
  let '(_, s') := CopyEntry (put "axe" "new value") (Arena_Reset s) in
  entry_at (snd s) h = put "key" "old" /\ entry_at (snd s') h = put "axe" "new".
Proof. vm_compute. by split. Qed.
