(* ===== verification/Memtable.v ===== *)
(** * Memtables

    The three memtables (internal/lsm/memtable/table): a hash map with a list
    of keys, a skip list, and skip lists sharded by the hash of the key whose
    shards are merged by a heap.  The interface [MemTable] is the Go interface
    [memtable.Table]; [MemTableLaws] says what it promises, a run of entries
    sorted by key; every implementation is an instance.  Each call runs under
    the table's locks and is one step here.  Sizes are sums of lengths of
    slices that are in memory, below the range of [int]. *)

From Stdlib Require Import ZArith Lia Strings.Byte Strings.String Strings.Ascii.
From stdpp Require Import base list sorting gmap strings.
From S2P Require Import Prelude Heap SkipList.
Local Open Scope Z_scope.

Definition entrySize (e : Entry) : Z := zlen (Key e) + zlen (Value e).

(** ** The interface *)

Class MemTable (T : Type) := {
  mt_Get : T -> bytes -> result (option Entry);
  mt_ApplyOwned : T -> Entry -> result T;
  mt_ApplyBatchOwned : T -> list Entry -> result T;
  mt_Size : T -> Z;
  mt_Drain : T -> result (list Entry * T);
  mt_Range : T -> bytes -> bytes -> result (list Entry);
  mt_Reset : T -> T
}.

(** The size of a run, and applying entries one after the other. *)
Definition run_size (es : list Entry) : Z := fold_right (fun e n => entrySize e + n) 0 es.
Definition upsert_all (batch es : list Entry) : list Entry := fold_left (fun es e => upsert e es) batch es.

Class MemTableLaws (T : Type) `{MemTable T} := {
  mt_rep : T -> list Entry -> Prop;
  law_sorted t es : mt_rep t es -> sorted_run es;
  law_Get t es key : mt_rep t es -> mt_Get t key = Ok (lookup_entry key es);
  law_ApplyOwned t es e : mt_rep t es -> exists t', mt_ApplyOwned t e = Ok t' /\ mt_rep t' (upsert e es);
  law_ApplyBatchOwned t es batch : mt_rep t es -> exists t', mt_ApplyBatchOwned t batch = Ok t' /\ mt_rep t' (upsert_all batch es);
  law_Size t es : mt_rep t es -> mt_Size t = run_size es;
  law_Drain t es : mt_rep t es -> exists t', mt_Drain t = Ok (es, t') /\ mt_rep t' [];
  law_Range t es start stop : mt_rep t es -> mt_Range t start stop = Ok (entries_between start stop es);
  law_Reset t es : mt_rep t es -> mt_rep (mt_Reset t) []
}.

Lemma run_size_upsert e es :
  sorted_run es -> run_size (upsert e es) = run_size es + entrySize e - from_option entrySize 0 (lookup_entry (Key e) es).
Proof.
  induction 1 as [|x es Hs IH Hf]; cbn [upsert lookup_entry run_size fold_right]; [cbn; lia|].
  destruct (bytes_compare (Key e) (Key x)) eqn:E; cbn [run_size fold_right]; fold (run_size es).
  - rewrite bytes_compare_Eq in E. rewrite bool_decide_true by done. cbn. lia.
  - rewrite bytes_compare_Lt in E. rewrite bool_decide_false by (intros H; rewrite H in E; by apply bytes_lt_irrefl in E).
    rewrite lookup_entry_above; [cbn; lia|]. eapply Forall_impl; [exact Hf|]. intros y Hy. unfold key_lt in Hy. bytes_order.
  - rewrite bytes_compare_Gt in E. rewrite bool_decide_false by (intros H; rewrite H in E; by apply bytes_lt_irrefl in E).
    fold (run_size (upsert e es)). rewrite IH. lia.
Qed.

Lemma upsert_all_sorted batch es : sorted_run es -> sorted_run (upsert_all batch es).
Proof. revert es. induction batch as [|e batch IH]; intros es Hs; [done|]. cbn. by apply IH, upsert_sorted. Qed.

(** ** [SkipListTable] *)

Record SkipListTable := mkSkipListTable {
  st_list : SkipList;
  st_seq : Z;
  st_sizeBytes : Z
}.

Definition newSkipListTable : SkipListTable := mkSkipListTable SkipList_New 0 0.

(** The change of the size that an [Upsert] reports. *)
Definition size_delta (e : Entry) (res : bool * option Entry) : Z :=
  let '(inserted, prev) := res in
  if (inserted : bool) then entrySize e
  else match prev with Some p => entrySize e - entrySize p | None => 0 end.

Definition SkipListTable_ApplyOwned (t : SkipListTable) (e : Entry) : result SkipListTable :=
  '(res, l) ← Upsert (st_list t) e;
  Ok (mkSkipListTable l (Z.max (st_seq t) (Seq e)) (st_sizeBytes t + size_delta e res)).

Fixpoint SkipListTable_ApplyBatchOwned (t : SkipListTable) (batch : list Entry) : result SkipListTable :=
  match batch with
  | [] => Ok t
  | e :: batch => t ← SkipListTable_ApplyOwned t e; SkipListTable_ApplyBatchOwned t batch
  end.

Definition SkipListTable_Drain (t : SkipListTable) : result (list Entry * SkipListTable) :=
  if bool_decide (sl_length (st_list t) = 0) then Ok ([], t) else
  out ← SkipList_Iter (st_list t);
  Ok (out, mkSkipListTable SkipList_New (st_seq t) 0).

(** [len(start) > 0 && len(end) > 0 && cmp(start, end) >= 0]. *)
Definition range_empty (start stop : bytes) : bool :=
  bool_decide (start <> [] /\ stop <> [] /\ bytes_compare start stop <> Lt).

Definition SkipListTable_Range (t : SkipListTable) (start stop : bytes) : result (list Entry) :=
  if range_empty start stop then Ok [] else
  es ← SkipList_IterFrom (st_list t) start;
  Ok (collect_until stop es).

#[export] Instance SkipListTable_ops : MemTable SkipListTable := {
  mt_Get t key := SkipList_Get (st_list t) key;
  mt_ApplyOwned := SkipListTable_ApplyOwned;
  mt_ApplyBatchOwned := SkipListTable_ApplyBatchOwned;
  mt_Size := st_sizeBytes;
  mt_Drain := SkipListTable_Drain;
  mt_Range := SkipListTable_Range;
  mt_Reset _ := mkSkipListTable SkipList_New 0 0
}.

(** ** [MapTable] *)

Record MapTable := mkMapTable {
  m_entries : gmap Z (list Entry);
  m_keys : list bytes;
  m_seq : Z;
  m_sizeBytes : Z
}.

Definition newMapTable : MapTable := mkMapTable ∅ [] 0 0.

(** The bucket with the entry of the same key replaced, and that entry. *)
Fixpoint bucket_set (e : Entry) (bucket : list Entry) : option (Entry * list Entry) :=
  match bucket with
  | [] => None
  | x :: bucket =>
      if bool_decide (Key x = Key e) then Some (x, e :: bucket)
      else '(prev, bucket) ← bucket_set e bucket; Some (prev, x :: bucket)
  end.

Definition setEntry (m : MapTable) (e : Entry) : option Entry * MapTable :=
  let hash := fnv64a (Key e) in
  let bucket := default [] (m_entries m !! hash) in
  match bucket_set e bucket with
  | Some (prev, bucket) => (Some prev, mkMapTable (<[hash := bucket]> (m_entries m)) (m_keys m) (m_seq m) (m_sizeBytes m))
  | None =>
      (None, mkMapTable (<[hash := bucket ++ [e]]> (m_entries m)) (m_keys m ++ [Key e]) (m_seq m) (m_sizeBytes m))
  end.

Definition updateEntry (m : MapTable) (e : Entry) : MapTable :=
  let '(prev, m) := setEntry m e in
  let delta := match prev with Some p => entrySize e - entrySize p | None => entrySize e end in
  mkMapTable (m_entries m) (m_keys m) (m_seq m) (m_sizeBytes m + delta).

Definition getByKey (m : MapTable) (key : bytes) : option Entry :=
  lookup_entry key (default [] (m_entries m !! fnv64a key)).

Definition MapTable_ApplyOwned (m : MapTable) (e : Entry) : MapTable :=
  updateEntry (mkMapTable (m_entries m) (m_keys m) (Z.max (m_seq m) (Seq e)) (m_sizeBytes m)) e.

(** [sort.Slice] on distinct keys. *)
Definition sort_keys (keys : list bytes) : list bytes := merge_sort BytesOT.le keys.

Definition MapTable_Drain (m : MapTable) : list Entry * MapTable :=
  if bool_decide (m_entries m = ∅) then ([], m) else
  (omap (getByKey m) (sort_keys (m_keys m)), mkMapTable ∅ [] (m_seq m) 0).

(** The loop over the sorted keys: skip those below [start], stop at [end]. *)
Fixpoint range_keys (m : MapTable) (start stop : bytes) (keys : list bytes) : list Entry :=
  match keys with
  | [] => []
  | k :: keys =>
      if bool_decide (start <> [] /\ bytes_compare k start = Lt) then range_keys m start stop keys
      else if range_ends stop k then []
      else match getByKey m k with
           | Some e => e :: range_keys m start stop keys
           | None => range_keys m start stop keys
           end
  end.

Definition MapTable_Range (m : MapTable) (start stop : bytes) : list Entry :=
  if range_empty start stop then [] else
  if bool_decide (m_keys m = []) then [] else
  let keys := if bool_decide (1 < zlen (m_keys m)) then sort_keys (m_keys m) else m_keys m in
  range_keys m start stop keys.

#[export] Instance MapTable_ops : MemTable MapTable := {
  mt_Get m key := Ok (getByKey m key);
  mt_ApplyOwned m e := Ok (MapTable_ApplyOwned m e);
  mt_ApplyBatchOwned m batch := Ok (fold_left MapTable_ApplyOwned batch m);
  mt_Size := m_sizeBytes;
  mt_Drain m := Ok (MapTable_Drain m);
  mt_Range m start stop := Ok (MapTable_Range m start stop);
  mt_Reset _ := mkMapTable ∅ [] 0 0
}.

(** ** [ShardedSkipListTable] *)

Record shard := mkShard {
  sh_list : SkipList;
  sh_entries : Z;
  sh_bytes : Z
}.

Record ShardedSkipListTable := mkSharded {
  sd_shards : list shard;
  sd_mask : Z;
  sd_seq : Z;
  sd_sizeBytes : Z
}.

(** [for n < v { n <<= 1 }]; 63 rounds reach the sign bit. *)
Fixpoint pow2_loop (fuel : nat) (n v : Z) : result Z :=
  match fuel with
  | O => NoFuel
  | S fuel => if bool_decide (n < v) then pow2_loop fuel (i64 (Z.shiftl n 1)) v else Ok n
  end.
Definition nextPow2 (v : Z) : result Z := if bool_decide (v <= 1) then Ok 1 else pow2_loop 64 1 v.

Definition new_shard : shard := mkShard SkipList_New 0 0.

Definition newShardedSkipListTable (shards : Z) : ShardedSkipListTable :=
  mkSharded (replicate (Z.to_nat shards) new_shard) (u64 (shards - 1)) 0 0.

Definition NewShardedSkipListTableWithShards (shards : Z) : result ShardedSkipListTable :=
  n ← nextPow2 (if bool_decide (shards < 1) then 1 else shards);
  Ok (newShardedSkipListTable n).

(** [runtime.GOMAXPROCS(0)] is [procs]. *)
Definition shardCount (procs concurrency : Z) : result Z :=
  nextPow2 (i64 (procs * (if bool_decide (concurrency < 1) then 1 else concurrency))).

Definition NewShardedSkipListTable (procs concurrency : Z) : result ShardedSkipListTable :=
  n ← shardCount procs concurrency;
  Ok (newShardedSkipListTable n).

Definition shard_index (t : ShardedSkipListTable) (key : bytes) : nat := Z.to_nat (Z.land (fnv64a key) (sd_mask t)).

Definition pick (t : ShardedSkipListTable) (key : bytes) : result shard :=
  match sd_shards t !! shard_index t key with Some s => Ok s | None => Panic end.

(** [bumpSeq]: the compare-and-swap loop without contention. *)
Definition bumpSeq (t : ShardedSkipListTable) (seq : Z) : ShardedSkipListTable :=
  mkSharded (sd_shards t) (sd_mask t) (if bool_decide (seq <= sd_seq t) then sd_seq t else seq) (sd_sizeBytes t).

(** [Upsert] into shard [i], with the accounting of the shard and the table. *)
Definition shard_apply (i : nat) (t : ShardedSkipListTable) (e : Entry) : result ShardedSkipListTable :=
  match sd_shards t !! i with
  | None => Panic
  | Some s =>
      '(res, l) ← Upsert (sh_list s) e;
      let s := mkShard l (sh_entries s + (if fst (res : bool * option Entry) then 1 else 0)) (sh_bytes s + size_delta e res) in
      Ok (mkSharded (<[i := s]> (sd_shards t)) (sd_mask t) (sd_seq t) (sd_sizeBytes t + size_delta e res))
  end.

Definition Sharded_ApplyOwned (t : ShardedSkipListTable) (e : Entry) : result ShardedSkipListTable :=
  let t := bumpSeq t (Seq e) in
  shard_apply (shard_index t (Key e)) t e.

Fixpoint shard_apply_all (i : nat) (t : ShardedSkipListTable) (es : list Entry) : result ShardedSkipListTable :=
  match es with
  | [] => Ok t
  | e :: es => t ← shard_apply i t e; shard_apply_all i t es
  end.

(** The entries of a batch by shard, in order, and the shards in order. *)
Fixpoint apply_shards (sharded : list (list Entry)) (i : nat) (t : ShardedSkipListTable) : result ShardedSkipListTable :=
  match sharded with
  | [] => Ok t
  | es :: sharded => t ← shard_apply_all i t es; apply_shards sharded (S i) t
  end.

(** [sharded[idx] = append(sharded[idx], entry)]. *)
Fixpoint shard_batch (t : ShardedSkipListTable) (batch : list Entry) (sharded : list (list Entry)) : result (list (list Entry)) :=
  match batch with
  | [] => Ok sharded
  | e :: batch =>
      let idx := shard_index t (Key e) in
      match sharded !! idx with
      | None => Panic
      | Some l => shard_batch t batch (<[idx := l ++ [e]]> sharded)
      end
  end.

Definition Sharded_ApplyBatchOwned (t : ShardedSkipListTable) (batch : list Entry) : result ShardedSkipListTable :=
  match batch with
  | [] => Ok t
  | first :: _ =>
      let maxSeq := fold_left (fun m e => Z.max m (Seq e)) batch (Seq first) in
      sharded ← shard_batch t batch (replicate (length (sd_shards t)) []);
      apply_shards sharded 0 (bumpSeq t maxSeq)
  end.

Definition Sharded_Get (t : ShardedSkipListTable) (key : bytes) : result (option Entry) :=
  s ← pick t key;
  SkipList_Get (sh_list s) key.

(** [sliceHeap] orders its cursors by key. *)
Definition slice_less (a b : Entry) : bool := bool_decide (bytes_compare (Key a) (Key b) = Lt).

(** [mergeEntries] of non-empty segments. *)
Definition mergeEntries (segments : list (list Entry)) (total : nat) : list Entry :=
  kmerge slice_less total
    (Init (cursor_less slice_less) (omap (fun es => match es with [] => None | e :: rest => Some (e, rest) end) segments)).

Definition collectShardEntries (s : shard) (start stop : bytes) : result (list Entry) :=
  es ← SkipList_IterFrom (sh_list s) start;
  Ok (collect_until stop es).

(** The non-empty segments of the shards. *)
Fixpoint collect_segments (shards : list shard) (start stop : bytes) : result (list (list Entry)) :=
  match shards with
  | [] => Ok []
  | s :: shards =>
      es ← collectShardEntries s start stop;
      rest ← collect_segments shards start stop;
      Ok (match es with [] => rest | _ => es :: rest end)
  end.

Definition snapshotRange (t : ShardedSkipListTable) (start stop : bytes) : result (list Entry) :=
  segments ← collect_segments (sd_shards t) start stop;
  Ok (match segments with
      | [] => []
      | [es] => es
      | _ => mergeEntries segments (length (concat segments))
      end).

Definition Sharded_Range (t : ShardedSkipListTable) (start stop : bytes) : result (list Entry) :=
  if range_empty start stop then Ok [] else snapshotRange t start stop.

Definition reset_shards (t : ShardedSkipListTable) : list shard := map (fun _ => new_shard) (sd_shards t).

Definition Sharded_Drain (t : ShardedSkipListTable) : result (list Entry * ShardedSkipListTable) :=
  out ← Sharded_Range t [] [];
  Ok (out, mkSharded (reset_shards t) (sd_mask t) (sd_seq t) 0).

#[export] Instance Sharded_ops : MemTable ShardedSkipListTable := {
  mt_Get := Sharded_Get;
  mt_ApplyOwned := Sharded_ApplyOwned;
  mt_ApplyBatchOwned := Sharded_ApplyBatchOwned;
  mt_Size := sd_sizeBytes;
  mt_Drain := Sharded_Drain;
  mt_Range := Sharded_Range;
  mt_Reset t := mkSharded (reset_shards t) (sd_mask t) 0 0
}.

(** ** The factory

    A value of the Go interface [memtable.Table] is one of the three tables. *)

Inductive Table :=
| TableMap (t : MapTable)
| TableSkipList (t : SkipListTable)
| TableSharded (t : ShardedSkipListTable).

#[export] Instance Table_ops : MemTable Table := {
  mt_Get t := match t with TableMap t => mt_Get t | TableSkipList t => mt_Get t | TableSharded t => mt_Get t end;
  mt_ApplyOwned t e :=
    match t with
    | TableMap t => TableMap <$> mt_ApplyOwned t e
    | TableSkipList t => TableSkipList <$> mt_ApplyOwned t e
    | TableSharded t => TableSharded <$> mt_ApplyOwned t e
    end;
  mt_ApplyBatchOwned t es :=
    match t with
    | TableMap t => TableMap <$> mt_ApplyBatchOwned t es
    | TableSkipList t => TableSkipList <$> mt_ApplyBatchOwned t es
    | TableSharded t => TableSharded <$> mt_ApplyBatchOwned t es
    end;
  mt_Size t := match t with TableMap t => mt_Size t | TableSkipList t => mt_Size t | TableSharded t => mt_Size t end;
  mt_Drain t :=
    match t with
    | TableMap t => '(es, t) ← mt_Drain t; Ok (es, TableMap t)
    | TableSkipList t => '(es, t) ← mt_Drain t; Ok (es, TableSkipList t)
    | TableSharded t => '(es, t) ← mt_Drain t; Ok (es, TableSharded t)
    end;
  mt_Range t := match t with TableMap t => mt_Range t | TableSkipList t => mt_Range t | TableSharded t => mt_Range t end;
  mt_Reset t :=
    match t with
    | TableMap t => TableMap (mt_Reset t)
    | TableSkipList t => TableSkipList (mt_Reset t)
    | TableSharded t => TableSharded (mt_Reset t)
    end
}.

(** [strings.ToLower], up to runes that are not ASCII in either case: no
    kind's name has one.  Two runes beyond ASCII have an ASCII lower case,
    U+0130 and U+212A. *)
Fixpoint ToLower (s : bytes) : bytes :=
  match s with
  | Byte.xc4 :: Byte.xb0 :: s => Byte.x69 :: ToLower s
  | Byte.xe2 :: Byte.x84 :: Byte.xaa :: s => Byte.x6b :: ToLower s
  | b :: s =>
      let z := byte_to_Z b in
      (if bool_decide (65 <= z <= 90) then byte_of_Z (z + 32) else b) :: ToLower s
  | [] => []
  end.

Definition KindMap : bytes := bytes_of_string "map".
Definition KindSkipList : bytes := bytes_of_string "skiplist".
Definition KindShardedSkipList : bytes := bytes_of_string "sharded-skiplist".

Inductive FactoryError := ErrUnknownKind (kind : bytes).

(** The factory for a kind, or the error for an unknown one; calling the
    factory is the inner result. *)
Definition FactoryForKind (procs : Z) (kind : bytes) (concurrency shards : Z) : FactoryError + (unit -> result Table) :=
  let lower := ToLower kind in
  if bool_decide (lower = [] \/ lower = bytes_of_string "sharded" \/ lower = KindShardedSkipList) then
    if bool_decide (shards > 0) then inr (fun _ => TableSharded <$> NewShardedSkipListTableWithShards shards)
    else inr (fun _ => TableSharded <$> NewShardedSkipListTable procs concurrency)
  else if bool_decide (lower = KindSkipList) then inr (fun _ => Ok (TableSkipList newSkipListTable))
  else if bool_decide (lower = KindMap) then inr (fun _ => Ok (TableMap newMapTable))
  else inl (ErrUnknownKind kind).

(** ** The skip list table keeps its promises *)

Definition skip_rep (t : SkipListTable) (es : list Entry) : Prop :=
  exists order, shape (st_list t) order /\ contents (st_list t) order = es /\ st_sizeBytes t = run_size es.

Lemma skip_sorted t es : skip_rep t es -> sorted_run es.
Proof. intros (order & Hs & <- & _). apply Hs. Qed.

Lemma size_delta_upsert e es :
  sorted_run es ->
  run_size es + size_delta e (bool_decide (lookup_entry (Key e) es = None), lookup_entry (Key e) es) = run_size (upsert e es).
Proof.
  intros Hs. rewrite run_size_upsert by done. unfold size_delta. destruct (lookup_entry (Key e) es); cbn; lia.
Qed.

Lemma skip_apply t es e : skip_rep t es -> exists t', SkipListTable_ApplyOwned t e = Ok t' /\ skip_rep t' (upsert e es).
Proof.
  intros (order & Hs & <- & Hz). destruct (Upsert_spec _ _ e Hs) as (l & order' & E & Hs' & Hc).
  unfold SkipListTable_ApplyOwned. rewrite E. eexists. split; [reflexivity|]. exists order'. split; [done|]. split; [done|].
  cbn [st_sizeBytes]. rewrite Hz. apply size_delta_upsert, Hs.
Qed.

Lemma skip_batch batch : forall t es,
  skip_rep t es -> exists t', SkipListTable_ApplyBatchOwned t batch = Ok t' /\ skip_rep t' (upsert_all batch es).
Proof.
  induction batch as [|e batch IH]; intros t es Ht; cbn [SkipListTable_ApplyBatchOwned]; [by exists t|].
  destruct (skip_apply t es e Ht) as (t1 & -> & Ht1). cbn [mbind result_bind]. apply (IH t1 _ Ht1).
Qed.

Lemma new_skip_rep seq : skip_rep (mkSkipListTable SkipList_New seq 0) [].
Proof. exists []. split; [apply New_shape|]. by split. Qed.

Lemma range_empty_between start stop es : range_empty start stop = true -> entries_between start stop es = [].
Proof. intros (H1 & H2 & H3)%bool_decide_eq_true. by apply entries_between_empty. Qed.

Lemma skip_range t es start stop : skip_rep t es -> SkipListTable_Range t start stop = Ok (entries_between start stop es).
Proof.
  intros (order & Hs & <- & _). unfold SkipListTable_Range. destruct (range_empty start stop) eqn:E.
  - by rewrite range_empty_between.
  - rewrite (SkipList_IterFrom_spec _ _ start Hs). cbn [mbind result_bind]. by rewrite collect_between by apply Hs.
Qed.

Lemma skip_drain t es : skip_rep t es -> exists t', SkipListTable_Drain t = Ok (es, t') /\ skip_rep t' [].
Proof.
  intros (order & Hs & <- & Hz). unfold SkipListTable_Drain. case_bool_decide as E.
  - rewrite (sh_length _ _ Hs) in E. destruct order; [|rewrite zlen_cons in E; pose proof (zlen_nonneg order); lia].
    exists t. split; [done|]. by exists [].
  - rewrite (SkipList_Iter_spec _ _ Hs). cbn [mbind result_bind]. eexists. split; [reflexivity|]. apply new_skip_rep.
Qed.

#[export] Instance SkipListTable_laws : MemTableLaws SkipListTable.
Proof.
  refine {| mt_rep := skip_rep; law_sorted := skip_sorted; law_ApplyOwned := skip_apply;
            law_ApplyBatchOwned t es batch := skip_batch batch t es; law_Drain := skip_drain; law_Range := skip_range |}.
  - intros t es key (order & Hs & <- & _). by apply SkipList_Get_spec.
  - by intros t es (order & _ & _ & Hz).
  - intros t es _. apply new_skip_rep.
Defined.

(** ** The map table keeps its promises *)

Lemma bucket_set_spec e bucket :
  match bucket_set e bucket with
  | Some (prev, bucket') => lookup_entry (Key e) bucket = Some prev /\
      forall k, lookup_entry k bucket' = if bool_decide (Key e = k) then Some e else lookup_entry k bucket
  | None => lookup_entry (Key e) bucket = None
  end.
Proof.
  induction bucket as [|x bucket IH]; cbn [bucket_set lookup_entry]; [done|]. case_bool_decide as E.
  - split; [done|]. intros k. cbn [lookup_entry]. rewrite E. by case_bool_decide.
  - destruct (bucket_set e bucket) as [[prev b]|]; cbn; [|done]. destruct IH as [IH1 IH2]. split; [done|].
    intros k. rewrite IH2. destruct (decide (Key x = k)) as [H|H]; [|by rewrite (bool_decide_false (Key x = k))].
    rewrite (bool_decide_true (Key x = k)) by done. by rewrite bool_decide_false by congruence.
Qed.

Lemma setEntry_spec m e :
  let '(prev, m') := setEntry m e in
  prev = getByKey m (Key e) /\ (forall k, getByKey m' k = if bool_decide (Key e = k) then Some e else getByKey m k) /\
  m_keys m' = match prev with Some _ => m_keys m | None => m_keys m ++ [Key e] end /\ m_sizeBytes m' = m_sizeBytes m /\
  m_entries m' <> ∅.
Proof.
  unfold setEntry, getByKey. set (h := fnv64a (Key e)). set (bucket := default [] (m_entries m !! h)).
  pose proof (bucket_set_spec e bucket) as Hb. destruct (bucket_set e bucket) as [[prev b]|].
  - destruct Hb as [H1 H2]. split; [by rewrite H1|]. split; [|split; [done|split; [done|apply insert_non_empty]]].
    intros k. cbn [m_entries]. destruct (decide (fnv64a k = h)) as [->|Hne].
    + rewrite lookup_insert_eq. cbn. by rewrite H2.
    + rewrite lookup_insert_ne by done. rewrite bool_decide_false; [done|]. intros <-. done.
  - split; [done|]. split; [|split; [done|split; [done|apply insert_non_empty]]].
    intros k. cbn [m_entries]. destruct (decide (fnv64a k = h)) as [E|Hne].
    + rewrite E, lookup_insert_eq. cbn. fold bucket. rewrite lookup_entry_app. cbn [lookup_entry]. case_bool_decide as Hk.
      * subst k. by rewrite Hb.
      * by destruct (lookup_entry k bucket).
    + rewrite lookup_insert_ne by done. rewrite bool_decide_false; [done|]. intros <-. done.
Qed.

Record map_rep (m : MapTable) (es : list Entry) : Prop := {
  mr_sorted : sorted_run es;
  mr_get : forall k, getByKey m k = lookup_entry k es;
  mr_keys : m_keys m ≡ₚ map Key es;
  mr_size : m_sizeBytes m = run_size es;
  mr_empty : m_entries m = ∅ -> es = []
}.

Lemma upsert_keys e es :
  sorted_run es -> map Key (upsert e es) ≡ₚ (if lookup_entry (Key e) es is Some _ then map Key es else map Key es ++ [Key e]).
Proof.
  induction 1 as [|x es Hs IH Hf]; cbn [upsert lookup_entry map]; [done|].
  destruct (bytes_compare (Key e) (Key x)) eqn:E; cbn [map].
  - rewrite bytes_compare_Eq in E. rewrite bool_decide_true by done. by rewrite E.
  - rewrite bytes_compare_Lt in E. rewrite bool_decide_false by (intros H; rewrite H in E; by apply bytes_lt_irrefl in E).
    rewrite lookup_entry_above by (eapply Forall_impl; [exact Hf|]; intros y Hy; unfold key_lt in Hy; bytes_order).
    by rewrite Permutation_cons_append.
  - rewrite bytes_compare_Gt in E. rewrite bool_decide_false by (intros H; rewrite H in E; by apply bytes_lt_irrefl in E).
    rewrite IH. by destruct (lookup_entry (Key e) es).
Qed.

Lemma map_apply m es e : map_rep m es -> map_rep (MapTable_ApplyOwned m e) (upsert e es).
Proof.
  intros [M1 M2 M3 M4 M5]. unfold MapTable_ApplyOwned, updateEntry. set (m0 := mkMapTable _ _ _ _).
  pose proof (setEntry_spec m0 e) as H. destruct (setEntry m0 e) as [prev m1]. destruct H as (-> & H2 & H3 & H4 & H5).
  change (getByKey m0 (Key e)) with (getByKey m (Key e)) in *. change (m_keys m0) with (m_keys m) in *.
  change (m_sizeBytes m0) with (m_sizeBytes m) in *. rewrite M2 in *. split.
  - by apply upsert_sorted.
  - intros k. change (getByKey _ k) with (getByKey m1 k). rewrite H2, lookup_upsert by done. by rewrite <- M2.
  - cbn [m_keys]. rewrite H3, upsert_keys by done. destruct (lookup_entry (Key e) es); by rewrite M3.
  - cbn [m_sizeBytes]. rewrite H4, M4, run_size_upsert by done. destruct (lookup_entry (Key e) es); cbn; lia.
  - intros E. done.
Qed.

Lemma map_batch batch : forall m es, map_rep m es -> map_rep (fold_left MapTable_ApplyOwned batch m) (upsert_all batch es).
Proof. induction batch as [|e batch IH]; intros m es Hm; [done|]. cbn. by apply IH, map_apply. Qed.

(** Sorting the keys gives the keys of the run in order. *)
Lemma sort_keys_run keys es : sorted_run es -> keys ≡ₚ map Key es -> sort_keys keys = map Key es.
Proof.
  intros Hs P. apply (StronglySorted_unique BytesOT.le).
  - apply StronglySorted_merge_sort; apply _.
  - clear P. induction Hs as [|e es Hs IH Hf]; cbn [map]; constructor; [done|]. rewrite Forall_map.
    eapply Forall_impl; [exact Hf|]. intros x Hx. by apply bytes_lt_le.
  - unfold sort_keys. by rewrite merge_sort_Permutation.
Qed.

Lemma map_get_elem m es e : map_rep m es -> e ∈ es -> getByKey m (Key e) = Some e.
Proof. intros Hm He. rewrite (mr_get _ _ Hm). by apply lookup_entry_elem; [apply Hm| |]. Qed.

Lemma omap_get m es l : map_rep m es -> l ⊆ es -> omap (getByKey m) (map Key l) = l.
Proof.
  intros Hm. induction l as [|e l IH]; intros Hl; cbn [map omap list_omap]; [done|].
  rewrite (map_get_elem m es e Hm) by set_solver. f_equal. apply IH. set_solver.
Qed.

Lemma range_keys_spec m es start stop l :
  map_rep m es -> l ⊆ es -> range_keys m start stop (map Key l) = collect_until stop (entries_from start l).
Proof.
  intros Hm. induction l as [|e l IH]; intros Hl; [done|]. cbn [map range_keys]. unfold entries_from in *. rewrite filter_cons.
  assert (He : getByKey m (Key e) = Some e) by (apply (map_get_elem m es); [done|set_solver]).
  assert (Hl' : l ⊆ es) by set_solver. destruct (decide (start ⪯ Key e)) as [H|H].
  - rewrite bool_decide_false by (intros [_ Hc]; rewrite bytes_compare_Lt in Hc; bytes_order). cbn [collect_until].
    destruct (range_ends stop (Key e)); [done|]. by rewrite He, IH.
  - rewrite bool_decide_true; [by apply IH|]. rewrite bytes_not_le in H. split; [intros ->; pose proof (bytes_le_nil (Key e)); bytes_order|].
    by apply bytes_compare_Lt.
Qed.

Lemma map_range m es start stop : map_rep m es -> MapTable_Range m start stop = entries_between start stop es.
Proof.
  intros Hm. pose proof (mr_keys _ _ Hm) as P. unfold MapTable_Range. destruct (range_empty start stop) eqn:E; [by rewrite range_empty_between|].
  case_bool_decide as E0.
  { rewrite E0 in P. apply Permutation_nil_l in P. symmetry in P. apply map_eq_nil in P as ->. done. }
  assert (Ek : (if bool_decide (1 < zlen (m_keys m)) then sort_keys (m_keys m) else m_keys m) = map Key es).
  { case_bool_decide as E1; [by apply sort_keys_run; [apply Hm|]|].
    destruct (m_keys m) as [|k [|k' l]]; [done| |rewrite !zlen_cons in E1; pose proof (zlen_nonneg l); lia].
    by apply Permutation_singleton_l in P. }
  rewrite Ek, (range_keys_spec m es) by done. apply collect_between, Hm.
Qed.

Lemma new_map_rep seq : map_rep (mkMapTable ∅ [] seq 0) [].
Proof. split; try done. constructor. Qed.

Lemma map_drain m es : map_rep m es -> exists m', Ok (MapTable_Drain m) = Ok (es, m') /\ map_rep m' [].
Proof.
  intros Hm. unfold MapTable_Drain. case_bool_decide as E.
  - pose proof (mr_empty _ _ Hm E) as ->. by exists m.
  - rewrite (sort_keys_run _ es) by apply Hm. rewrite (omap_get m es es Hm) by done. eexists. split; [done|]. apply new_map_rep.
Qed.

#[export] Instance MapTable_laws : MemTableLaws MapTable.
Proof.
  refine {| mt_rep := map_rep; law_sorted m es H := mr_sorted m es H; law_Drain := map_drain |}.
  - intros m es key Hm. cbn. by rewrite (mr_get _ _ Hm).
  - intros m es e Hm. eexists. split; [reflexivity|]. by apply map_apply.
  - intros m es batch Hm. eexists. split; [reflexivity|]. by apply map_batch.
  - intros m es Hm. apply Hm.
  - intros m es start stop Hm. cbn. by rewrite (map_range _ es).
  - intros m es _. apply new_map_rep.
Defined.

(** ** The sharded table keeps its promises *)

Definition index_of_key (mask : Z) (key : bytes) : nat := Z.to_nat (Z.land (fnv64a key) mask).
Definition shard_part (mask : Z) (i : nat) (es : list Entry) : list Entry :=
  filter (fun e => index_of_key mask (Key e) = i) es.
Definition parts_of (mask : Z) (n : nat) (es : list Entry) : list (list Entry) := map (fun i => shard_part mask i es) (seq 0 n).

Lemma part_sorted mask i es : sorted_run es -> sorted_run (shard_part mask i es).
Proof. apply StronglySorted_filter. Qed.

Lemma lookup_part mask i k es :
  lookup_entry k (shard_part mask i es) = if decide (index_of_key mask k = i) then lookup_entry k es else None.
Proof.
  pose proof (lookup_filter_key (fun k => index_of_key mask k = i) k es) as H. rewrite <- H. reflexivity.
Qed.

Lemma part_upsert mask i e es :
  sorted_run es ->
  shard_part mask i (upsert e es)
  = if decide (index_of_key mask (Key e) = i) then upsert e (shard_part mask i es) else shard_part mask i es.
Proof.
  intros Hs. pose proof (part_sorted mask i es Hs) as Hp. apply sorted_run_ext.
  - by apply part_sorted, upsert_sorted.
  - case_decide; [by apply upsert_sorted|done].
  - intros k. rewrite lookup_part, lookup_upsert by done.
    destruct (decide (index_of_key mask (Key e) = i)) as [H|H]; [rewrite lookup_upsert by done|]; rewrite lookup_part; case_bool_decide as E.
    + subst k. by rewrite decide_True.
    + done.
    + subst k. by rewrite !decide_False by done.
    + done.
Qed.

Lemma part_cons mask i e es :
  shard_part mask i (e :: es) = if decide (index_of_key mask (Key e) = i) then e :: shard_part mask i es else shard_part mask i es.
Proof. unfold shard_part. by rewrite filter_cons. Qed.

Lemma part_upsert_all mask i batch : forall es,
  sorted_run es -> shard_part mask i (upsert_all batch es) = upsert_all (shard_part mask i batch) (shard_part mask i es).
Proof.
  induction batch as [|e batch IH]; intros es Hs; [done|]. cbn [upsert_all fold_left]. fold (upsert_all batch (upsert e es)).
  rewrite IH by (by apply upsert_sorted). rewrite part_upsert, part_cons by done.
  by case_decide.
Qed.

Lemma filter_below_split {A} (f : A -> nat) n l :
  filter (fun x => (f x < n)%nat) l ++ filter (fun x => f x = n) l ≡ₚ filter (fun x => (f x < S n)%nat) l.
Proof.
  induction l as [|x l IH]; [done|]. rewrite !filter_cons.
  destruct (decide (f x < n)%nat), (decide (f x = n)), (decide (f x < S n)%nat); try lia; cbn [app].
  - by rewrite IH.
  - by rewrite <- Permutation_middle, IH.
  - done.
Qed.

Lemma parts_perm mask n l : concat (parts_of mask n l) ≡ₚ filter (fun e => (index_of_key mask (Key e) < n)%nat) l.
Proof.
  unfold parts_of. induction n as [|n IH]; [cbn; by rewrite list_filter_none by (intros; lia)|].
  rewrite seq_S, map_app, concat_app, IH. cbn [map concat]. rewrite app_nil_r. apply filter_below_split.
Qed.

Record shard_rep (s : shard) (part : list Entry) : Prop := {
  sp_shape : exists order, shape (sh_list s) order /\ contents (sh_list s) order = part;
  sp_entries : sh_entries s = zlen part;
  sp_bytes : sh_bytes s = run_size part
}.

Lemma shard_rep_sorted s part : shard_rep s part -> sorted_run part.
Proof. intros [(order & Hs & <-) _ _]. apply Hs. Qed.

Definition part_sizes (parts : list (list Entry)) : Z := fold_right (fun p n => run_size p + n) 0 parts.

Lemma part_sizes_insert parts i p q :
  parts !! i = Some p -> part_sizes (<[i := q]> parts) = part_sizes parts + run_size q - run_size p.
Proof.
  revert i. induction parts as [|x parts IH]; intros i H; [done|]. destruct i as [|i].
  - injection H as ->. cbn. lia.
  - change (parts !! i = Some p) in H. change (<[S i := q]> (x :: parts)) with (x :: <[i := q]> parts).
    specialize (IH i H). unfold part_sizes in *. cbn [fold_right]. lia.
Qed.

(** Shards that hold the given parts. *)
Record parts_rep (t : ShardedSkipListTable) (parts : list (list Entry)) : Prop := {
  pr_shards : Forall2 shard_rep (sd_shards t) parts;
  pr_size : sd_sizeBytes t = part_sizes parts
}.

Lemma upsert_length e es :
  sorted_run es -> zlen (upsert e es) = zlen es + (if bool_decide (lookup_entry (Key e) es = None) then 1 else 0).
Proof.
  intros Hs. pose proof (Permutation_length (upsert_keys e es Hs)) as H. rewrite length_map in H.
  destruct (lookup_entry (Key e) es); rewrite ?length_app, length_map in H; unfold zlen; rewrite H; cbn; lia.
Qed.

Lemma shard_apply_spec i t e parts p :
  parts_rep t parts -> parts !! i = Some p ->
  exists t', shard_apply i t e = Ok t' /\ parts_rep t' (<[i := upsert e p]> parts) /\ sd_mask t' = sd_mask t.
Proof.
  intros [Hf Hz] Hp. unfold shard_apply. destruct (Forall2_lookup_r _ _ _ _ _ Hf Hp) as (s & -> & Hs).
  pose proof (shard_rep_sorted s p Hs) as Hsort. destruct Hs as [(order & Hsh & Hc) He Hb].
  destruct (Upsert_spec _ _ e Hsh) as (l & order' & -> & Hs' & Hc'). cbn [mbind result_bind]. rewrite Hc in *.
  eexists. split; [reflexivity|]. split; [|done]. split; cbn [sd_shards sd_sizeBytes].
  - apply Forall2_insert; [done|]. split; cbn [sh_list sh_entries sh_bytes fst].
    + by exists order'.
    + by rewrite He, upsert_length.
    + rewrite Hb. by apply size_delta_upsert.
  - rewrite (part_sizes_insert parts i p) by done. rewrite <- (size_delta_upsert e p) by done. lia.
Qed.

Lemma shard_apply_all_spec i es : forall t parts p,
  parts_rep t parts -> parts !! i = Some p ->
  exists t', shard_apply_all i t es = Ok t' /\ parts_rep t' (<[i := upsert_all es p]> parts) /\ sd_mask t' = sd_mask t.
Proof.
  induction es as [|e es IH]; intros t parts p Ht Hp; cbn [shard_apply_all].
  { exists t. split; [done|]. split; [|done]. by rewrite list_insert_id. }
  destruct (shard_apply_spec i t e parts p Ht Hp) as (t1 & -> & Ht1 & Hm). cbn [mbind result_bind].
  destruct (IH t1 (<[i := upsert e p]> parts) (upsert e p) Ht1) as (t2 & E & Ht2 & Hm2).
  { apply list_lookup_insert_eq. by apply lookup_lt_Some in Hp. }
  exists t2. split; [exact E|]. split; [|congruence]. by rewrite list_insert_insert_eq in Ht2.
Qed.

Lemma apply_shards_spec sharded : forall front back t,
  parts_rep t (front ++ back) -> length sharded = length back ->
  exists t', apply_shards sharded (length front) t = Ok t' /\ parts_rep t' (front ++ zip_with upsert_all sharded back) /\ sd_mask t' = sd_mask t.
Proof.
  induction sharded as [|es sharded IH]; intros front back t Ht Hl; (destruct back as [|p back]; try done); cbn [apply_shards].
  { by exists t. }
  destruct (shard_apply_all_spec (length front) es t (front ++ p :: back) p Ht) as (t1 & -> & Ht1 & Hm1); [by apply list_lookup_middle|].
  cbn [mbind result_bind]. rewrite insert_app_r_alt in Ht1 by lia. rewrite Nat.sub_diag in Ht1. cbn [insert list_insert] in Ht1.
  destruct (IH (front ++ [upsert_all es p]) back t1) as (t2 & E & Ht2 & Hm2).
  - by rewrite <- app_assoc.
  - cbn in Hl. lia.
  - exists t2. rewrite length_app in E. cbn [length] in E. rewrite Nat.add_1_r in E. split; [exact E|]. split; [|congruence].
    by rewrite <- app_assoc in Ht2.
Qed.

Record sharded_rep (t : ShardedSkipListTable) (es : list Entry) : Prop := {
  sr_sorted : sorted_run es;
  sr_index : forall key, (index_of_key (sd_mask t) key < length (sd_shards t))%nat;
  sr_parts : parts_rep t (parts_of (sd_mask t) (length (sd_shards t)) es)
}.

Lemma parts_lookup mask n es i : (i < n)%nat -> parts_of mask n es !! i = Some (shard_part mask i es).
Proof. intros H. unfold parts_of. rewrite list_lookup_fmap, lookup_seq_lt by done. done. Qed.

Lemma shards_length t parts : parts_rep t parts -> length (sd_shards t) = length parts.
Proof. intros [H _]. by apply Forall2_length in H. Qed.

Lemma parts_of_length mask n es : length (parts_of mask n es) = n.
Proof. unfold parts_of. by rewrite length_map, length_seq. Qed.

Lemma parts_of_upsert mask n e es :
  sorted_run es ->
  parts_of mask n (upsert e es)
  = <[index_of_key mask (Key e) := upsert e (shard_part mask (index_of_key mask (Key e)) es)]> (parts_of mask n es).
Proof.
  intros Hs. apply list_eq. intros i. destruct (decide (i < n)%nat) as [Hi|Hi].
  - rewrite parts_lookup, part_upsert by done. case_decide as E.
    + subst i. rewrite list_lookup_insert_eq; [done|]. by rewrite parts_of_length.
    + rewrite list_lookup_insert_ne by done. by rewrite parts_lookup.
  - rewrite !lookup_ge_None_2; [done|rewrite ?length_insert, parts_of_length; lia..].
Qed.

Lemma sharded_apply t es e : sharded_rep t es -> exists t', Sharded_ApplyOwned t e = Ok t' /\ sharded_rep t' (upsert e es).
Proof.
  intros [H1 H2 H3]. unfold Sharded_ApplyOwned. set (t0 := bumpSeq t (Seq e)).
  change (shard_index t0 (Key e)) with (index_of_key (sd_mask t) (Key e)). set (i := index_of_key (sd_mask t) (Key e)).
  assert (H3' : parts_rep t0 (parts_of (sd_mask t) (length (sd_shards t)) es)) by (by destruct H3).
  destruct (shard_apply_spec i t0 e _ (shard_part (sd_mask t) i es) H3') as (t' & E & Ht & Hm); [apply parts_lookup, H2|].
  exists t'. split; [exact E|]. pose proof (shards_length _ _ Ht) as Hl. rewrite length_insert, parts_of_length in Hl.
  change (sd_mask t0) with (sd_mask t) in Hm. split.
  - by apply upsert_sorted.
  - by rewrite Hm, Hl.
  - rewrite Hm, Hl, parts_of_upsert by done. exact Ht.
Qed.

Lemma shard_batch_spec t batch : forall sharded,
  (forall key, (shard_index t key < length sharded)%nat) ->
  exists out, shard_batch t batch sharded = Ok out /\ length out = length sharded /\
    forall i l, sharded !! i = Some l -> out !! i = Some (l ++ shard_part (sd_mask t) i batch).
Proof.
  induction batch as [|e batch IH]; intros sharded Hi; cbn [shard_batch].
  { exists sharded. split; [done|]. split; [done|]. intros i l H. by rewrite app_nil_r. }
  set (idx := shard_index t (Key e)). destruct (lookup_lt_is_Some_2 sharded idx (Hi _)) as [l0 E0]. rewrite E0.
  destruct (IH (<[idx := l0 ++ [e]]> sharded)) as (out & E & Hl & Ho); [intros; rewrite length_insert; apply Hi|].
  rewrite length_insert in Hl. exists out. split; [exact E|]. split; [done|]. intros i l H. rewrite part_cons.
  change (index_of_key (sd_mask t) (Key e)) with idx. destruct (decide (idx = i)) as [<-|Hne].
  - rewrite E0 in H. injection H as <-. rewrite (Ho idx (l0 ++ [e])); [by rewrite <- app_assoc|].
    apply list_lookup_insert_eq. by apply lookup_lt_Some in E0.
  - apply Ho. by rewrite list_lookup_insert_ne.
Qed.

Lemma sharded_batch t es batch :
  sharded_rep t es -> exists t', Sharded_ApplyBatchOwned t batch = Ok t' /\ sharded_rep t' (upsert_all batch es).
Proof.
  intros Ht. unfold Sharded_ApplyBatchOwned. destruct batch as [|first rest] eqn:Eb; [by exists t|]. rewrite <- Eb. clear Eb.
  destruct Ht as [H1 H2 H3]. set (maxSeq := fold_left _ batch _). set (n := length (sd_shards t)) in *.
  destruct (shard_batch_spec t batch (replicate n [])) as (sharded & -> & Hl & Ho).
  { intros key. rewrite length_replicate. apply H2. }
  rewrite length_replicate in Hl. cbn [mbind result_bind].
  destruct (apply_shards_spec sharded [] (parts_of (sd_mask t) n es) (bumpSeq t maxSeq)) as (t' & E & Ht & Hm).
  { by destruct H3. }
  { by rewrite parts_of_length. }
  exists t'. split; [exact E|]. cbn [app] in Ht. change (sd_mask (bumpSeq t maxSeq)) with (sd_mask t) in Hm.
  assert (Ez : zip_with upsert_all sharded (parts_of (sd_mask t) n es) = parts_of (sd_mask t) n (upsert_all batch es)).
  { apply list_eq. intros i. rewrite lookup_zip_with. destruct (decide (i < n)%nat) as [Hi|Hi].
    - rewrite !parts_lookup by done. rewrite (Ho i []) by (by apply lookup_replicate_2). cbn. by rewrite part_upsert_all.
    - rewrite (lookup_ge_None_2 sharded) by lia. cbn. rewrite lookup_ge_None_2; [done|]. rewrite parts_of_length. lia. }
  rewrite Ez in Ht. pose proof (shards_length _ _ Ht) as Hl'. rewrite parts_of_length in Hl'. split.
  - by apply upsert_all_sorted.
  - by rewrite Hm, Hl'.
  - by rewrite Hm, Hl'.
Qed.

Lemma sharded_get t es key : sharded_rep t es -> Sharded_Get t key = Ok (lookup_entry key es).
Proof.
  intros [H1 H2 [Hf _]]. unfold Sharded_Get, pick. change (shard_index t key) with (index_of_key (sd_mask t) key).
  pose proof (H2 key) as Hi. destruct (lookup_lt_is_Some_2 _ _ Hi) as [s Es]. rewrite Es. cbn [mbind result_bind].
  destruct (Forall2_lookup_l _ _ _ _ _ Hf Es) as (p & Ep & [(order & Hs & Hc) _ _]). rewrite parts_lookup in Ep by done.
  injection Ep as <-. rewrite (SkipList_Get_spec _ _ key Hs), Hc, lookup_part. by rewrite decide_True.
Qed.

(** *** Ranges of the sharded table *)

Lemma slice_less_le a b : le slice_less a b <-> Key a ⪯ Key b.
Proof.
  unfold le, slice_less. rewrite bool_decide_eq_false. rewrite bytes_compare_Lt. split; intros H; [bytes_order|].
  intros H2. exfalso. bytes_order.
Qed.

Lemma slice_trans : Transitive (le slice_less).
Proof. intros a b c. rewrite !slice_less_le. intros H1 H2. bytes_order. Qed.

Lemma slice_le a b : slice_less a b = true -> le slice_less a b.
Proof. rewrite slice_less_le. unfold slice_less. rewrite bool_decide_eq_true, bytes_compare_Lt. intros H. bytes_order. Qed.

Lemma sorted_keys_run l : StronglySorted (le slice_less) l -> NoDup (map Key l) -> sorted_run l.
Proof.
  induction 1 as [|e l Hs IH Hf]; intros Hn; [constructor|]. apply NoDup_cons in Hn as [Hn1 Hn2]. constructor; [by apply IH|].
  apply Forall_forall. intros x Hx. rewrite Forall_forall in Hf. specialize (Hf x Hx). rewrite slice_less_le in Hf.
  assert (Key e <> Key x) by (intros E; apply Hn1; rewrite E; by apply list_elem_of_fmap_2). unfold key_lt. bytes_order.
Qed.

Lemma run_sorted_keys l : sorted_run l -> StronglySorted (le slice_less) l.
Proof.
  induction 1 as [|e l Hs IH Hf]; constructor; [done|]. eapply Forall_impl; [exact Hf|]. intros x Hx. rewrite slice_less_le.
  unfold key_lt in Hx. bytes_order.
Qed.

Definition nonempty (segments : list (list Entry)) : list (list Entry) := filter (fun es => es <> []) segments.

Lemma nonempty_concat segments : concat (nonempty segments) = concat segments.
Proof.
  induction segments as [|es segments IH]; [done|]. unfold nonempty. rewrite filter_cons. case_decide as H; cbn [concat].
  - by rewrite <- IH.
  - assert (es = []) as -> by (by destruct es). exact IH.
Qed.

Lemma collect_segments_spec start stop shards parts :
  Forall2 shard_rep shards parts ->
  collect_segments shards start stop = Ok (nonempty (map (entries_between start stop) parts)).
Proof.
  induction 1 as [|s p shards parts Hs _ IH]; [done|]. cbn [collect_segments map]. unfold collectShardEntries.
  pose proof (shard_rep_sorted s p Hs) as Hp. destruct Hs as [(order & Hsh & Hc) _ _].
  rewrite (SkipList_IterFrom_spec _ _ start Hsh), Hc. cbn [mbind result_bind]. rewrite collect_between, IH by done.
  cbn [mbind result_bind]. unfold nonempty. rewrite filter_cons. by destruct (entries_between start stop p).
Qed.

Lemma cursors_concat (segments : list (list Entry)) :
  concat (map cursor_seq (omap (fun es => match es with [] => None | e :: rest => Some (e, rest) end) segments)) = concat segments.
Proof. induction segments as [|[|e es] segments IH]; [done|exact IH|]. cbn. by rewrite <- IH. Qed.

(** Sorted runs without a common key merge to the sorted run of all their
    entries. *)
Lemma merge_segments_spec segments run :
  Forall sorted_run segments -> sorted_run run -> concat segments ≡ₚ run ->
  mergeEntries segments (length (concat segments)) = run.
Proof.
  intros Hs Hr P. unfold mergeEntries. set (cs := omap _ segments).
  destruct (Init_spec _ (cursor_trans _ slice_trans) (cursor_le _ slice_le) cs) as [Hh Pi].
  pose proof (concat_perm _ _ (fmap_Permutation cursor_seq _ _ Pi)) as Pc.
  assert (Ec : concat (map cursor_seq cs) = concat segments) by apply cursors_concat.
  destruct (kmerge_spec slice_less slice_trans slice_le (length (concat segments)) (Init (cursor_less slice_less) cs) Hh) as [H1 H2].
  - rewrite Pi. apply Forall_forall. intros c Hc. subst cs. apply list_elem_of_omap in Hc as ([|e es] & Hin & Ee); [done|].
    injection Ee as <-. apply run_sorted_keys. rewrite Forall_forall in Hs. exact (Hs _ Hin).
  - change (map cursor_seq ?l) with (cursor_seq <$> l). rewrite Pc. change (cursor_seq <$> ?l) with (map cursor_seq l). by rewrite Ec.
  - assert (P' : kmerge slice_less (length (concat segments)) (Init (cursor_less slice_less) cs) ≡ₚ run).
    { rewrite H1, <- P, <- Ec. exact Pc. }
    apply sorted_run_perm; [|done|done]. apply sorted_keys_run; [done|].
    rewrite (Permutation_map Key P'). by apply sorted_run_keys.
Qed.

Lemma between_concat start stop parts :
  concat (map (entries_between start stop) parts) = entries_between start stop (concat parts).
Proof. unfold entries_between. induction parts as [|p parts IH]; [done|]. cbn [map concat]. by rewrite filter_app, IH. Qed.

Lemma sharded_parts_perm t es : sharded_rep t es -> concat (parts_of (sd_mask t) (length (sd_shards t)) es) ≡ₚ es.
Proof. intros [_ Hi _]. rewrite parts_perm. rewrite list_filter_all; [done|]. intros e _. apply Hi. Qed.

Lemma sharded_range t es start stop : sharded_rep t es -> Sharded_Range t start stop = Ok (entries_between start stop es).
Proof.
  intros Ht. pose proof (sharded_parts_perm t es Ht) as P. destruct Ht as [H1 H2 [H3 _]]. unfold Sharded_Range.
  destruct (range_empty start stop) eqn:E; [by rewrite range_empty_between|].
  unfold snapshotRange. rewrite (collect_segments_spec start stop _ _ H3). cbn [mbind result_bind].
  set (parts := parts_of _ _ es) in *. set (segments := nonempty _).
  assert (Pc : concat segments ≡ₚ entries_between start stop es).
  { subst segments. rewrite nonempty_concat, between_concat. by apply filter_Permutation_proper || (unfold entries_between; by rewrite P). }
  assert (Hs : Forall sorted_run segments).
  { apply Forall_forall. intros s [_ (p & -> & Hp)%list_elem_of_fmap]%list_elem_of_filter. apply entries_between_sorted.
    subst parts. unfold parts_of in Hp. apply list_elem_of_fmap in Hp as (i & -> & _). by apply part_sorted. }
  f_equal. rewrite <- (merge_segments_spec segments _ Hs (entries_between_sorted start stop es H1) Pc) at 1.
  destruct segments as [|s [|s2 segs]]; [done| |done]. apply Forall_inv in Hs.
  cbn [concat] in Pc. rewrite app_nil_r in Pc. rewrite (merge_segments_spec [s] s); [done|by constructor|done|]. cbn. by rewrite app_nil_r.
Qed.

Lemma part_sizes_concat parts : part_sizes parts = run_size (concat parts).
Proof.
  induction parts as [|p parts IH]; [done|]. cbn [part_sizes fold_right concat]. fold (part_sizes parts). rewrite IH.
  clear. unfold run_size. induction p as [|e p IH]; cbn [fold_right app]; lia.
Qed.

#[export] Instance run_size_perm : Proper (Permutation ==> eq) run_size.
Proof. intros a b. unfold run_size. induction 1; cbn [fold_right] in *; lia. Qed.

Lemma sharded_reset t es seq : sharded_rep t es -> sharded_rep (mkSharded (reset_shards t) (sd_mask t) seq 0) [].
Proof.
  intros [_ H2 H3]. unfold reset_shards. split; cbn [sd_mask sd_shards].
  - constructor.
  - intros key. rewrite length_map. apply H2.
  - rewrite length_map. assert (E : parts_of (sd_mask t) (length (sd_shards t)) [] = replicate (length (sd_shards t)) []).
    { apply list_eq. intros i. destruct (decide (i < length (sd_shards t))%nat).
      - rewrite parts_lookup by done. by rewrite lookup_replicate_2.
      - rewrite !lookup_ge_None_2; [done|rewrite ?length_replicate, ?parts_of_length; lia..]. }
    rewrite E. split; cbn [sd_shards sd_sizeBytes].
    + clear. induction (sd_shards t) as [|s l IH]; constructor; [|done]. split; [|done..]. exists []. split; [apply New_shape|done].
    + clear. induction (length (sd_shards t)) as [|n IH]; [done|exact IH].
Qed.

#[export] Instance Sharded_laws : MemTableLaws ShardedSkipListTable.
Proof.
  refine {| mt_rep := sharded_rep; law_sorted := sr_sorted; law_Get := sharded_get; law_ApplyOwned := sharded_apply;
            law_ApplyBatchOwned := sharded_batch; law_Range := sharded_range;
            law_Reset t es := sharded_reset t es 0 |}.
  - intros t es Ht. change (sd_sizeBytes t = run_size es). pose proof (sharded_parts_perm t es Ht) as P.
    destruct Ht as [_ _ [_ ->]]. by rewrite part_sizes_concat, P.
  - intros t es Ht. cbn [mt_Drain Sharded_ops]. unfold Sharded_Drain. rewrite (sharded_range t es [] [] Ht), entries_between_all.
    eexists. split; [reflexivity|]. by apply (sharded_reset t es).
Defined.

(** *** Shard counts *)

Lemma pow2_loop_spec fuel : forall k v,
  0 <= k <= 62 -> 2 ^ k < 2 * v -> v <= 2 ^ 62 -> 62 < k + Z.of_nat fuel ->
  exists j, k <= j <= 62 /\ pow2_loop fuel (2 ^ k) v = Ok (2 ^ j) /\ v <= 2 ^ j < 2 * v.
Proof.
  induction fuel as [|fuel IH]; intros k v Hk Hlo Hv Hf; [lia|]. cbn [pow2_loop]. case_bool_decide as E.
  - assert (k < 62). { destruct (decide (k = 62)) as [->|]; [lia|lia]. }
    destruct (IH (k + 1) v) as (j & Hj & Ej & Hr); [lia|rewrite Z.pow_add_r by lia; lia|done|lia|].
    exists j. split; [lia|]. split; [|done]. rewrite <- Ej. f_equal. rewrite Z.shiftl_mul_pow2, Z.pow_add_r by lia.
    rewrite Z.pow_1_r. apply i64_id. pose proof (Z.pow_pos_nonneg 2 k ltac:(lia) ltac:(lia)).
    assert (2 ^ k * 2 = 2 ^ (k + 1)) by (rewrite Z.pow_add_r by lia; lia).
    assert (2 ^ (k + 1) <= 2 ^ 62) by (apply Z.pow_le_mono_r; lia). lia.
  - exists k. split; [lia|]. split; [done|]. lia.
Qed.

Lemma nextPow2_spec v : v <= 2 ^ 62 -> exists k, 0 <= k <= 62 /\ nextPow2 v = Ok (2 ^ k) /\ v <= 2 ^ k /\ (1 < v -> 2 ^ k < 2 * v).
Proof.
  intros Hv. unfold nextPow2. case_bool_decide as E.
  - exists 0. split; [lia|]. split; [done|]. cbn. lia.
  - destruct (pow2_loop_spec 64 0 v) as (j & Hj & Ej & Hr); [lia..|]. exists j. split; [lia|]. split; [exact Ej|]. lia.
Qed.

Lemma new_sharded_rep k : 0 <= k <= 62 -> sharded_rep (newShardedSkipListTable (2 ^ k)) [].
Proof.
  intros Hk. pose proof (Z.pow_pos_nonneg 2 k ltac:(lia) ltac:(lia)) as H1.
  assert (H2 : 2 ^ k <= 2 ^ 62) by (apply Z.pow_le_mono_r; lia).
  assert (Hm : u64 (2 ^ k - 1) = Z.ones k).
  { rewrite u64_id; [rewrite Z.ones_equiv; lia|]. unfold is_u64. lia. }
  unfold newShardedSkipListTable. rewrite Hm. set (n := Z.to_nat (2 ^ k)). assert (Hn : Z.of_nat n = 2 ^ k) by lia. clearbody n. split.
  - constructor.
  - intros key. cbn [sd_mask sd_shards]. unfold index_of_key. rewrite Z.land_ones, length_replicate by lia.
    pose proof (Z.mod_pos_bound (fnv64a key) (2 ^ k)). lia.
  - cbn [sd_mask sd_shards]. rewrite length_replicate. split; cbn [sd_shards sd_sizeBytes].
    + apply Forall2_same_length_lookup_2; [by rewrite length_replicate, parts_of_length|].
      intros i s p Hs Hp. apply lookup_replicate in Hs as [-> Hi]. rewrite parts_lookup in Hp by done. injection Hp as <-.
      split; [|done..]. exists []. split; [apply New_shape|done].
    + rewrite part_sizes_concat, parts_perm. done.
Qed.

(** *** Any table *)

Definition table_rep (t : Table) : list Entry -> Prop :=
  match t with TableMap t => mt_rep t | TableSkipList t => mt_rep t | TableSharded t => mt_rep t end.

Ltac by_step law :=
  destruct law as (t' & E & Ht); cbn [mt_ApplyOwned mt_ApplyBatchOwned mt_Drain Table_ops]; rewrite E;
  (eexists; split; [reflexivity|exact Ht]).

#[export] Instance Table_laws : MemTableLaws Table.
Proof.
  refine {| mt_rep := table_rep |}.
  - intros [t|t|t] es H; exact (law_sorted t es H).
  - intros [t|t|t] es key H; exact (law_Get t es key H).
  - intros [t|t|t] es e H; by_step (law_ApplyOwned t es e H).
  - intros [t|t|t] es e H; by_step (law_ApplyBatchOwned t es e H).
  - intros [t|t|t] es H; exact (law_Size t es H).
  - intros [t|t|t] es H; by_step (law_Drain t es H).
  - intros [t|t|t] es start stop H; exact (law_Range t es start stop H).
  - intros [t|t|t] es H; exact (law_Reset t es H).
Defined.

(** ** Memtables refine a sorted run *)

Inductive mt_op :=
| OpGet (key : bytes)
| OpApply (e : Entry)
| OpApplyBatch (es : list Entry)
| OpSize
| OpDrain
| OpRange (start stop : bytes)
| OpReset.

Inductive mt_answer :=
| AnsEntry (e : option Entry)
| AnsDone
| AnsSize (n : Z)
| AnsEntries (es : list Entry).

Definition mt_step {T} `{MemTable T} (t : T) (op : mt_op) : result (mt_answer * T) :=
  match op with
  | OpGet key => e ← mt_Get t key; Ok (AnsEntry e, t)
  | OpApply e => t' ← mt_ApplyOwned t e; Ok (AnsDone, t')
  | OpApplyBatch es => t' ← mt_ApplyBatchOwned t es; Ok (AnsDone, t')
  | OpSize => Ok (AnsSize (mt_Size t), t)
  | OpDrain => '(es, t') ← mt_Drain t; Ok (AnsEntries es, t')
  | OpRange start stop => es ← mt_Range t start stop; Ok (AnsEntries es, t)
  | OpReset => Ok (AnsDone, mt_Reset t)
  end.

Fixpoint mt_run {T} `{MemTable T} (t : T) (ops : list mt_op) : result (list mt_answer) :=
  match ops with
  | [] => Ok []
  | op :: ops => '(a, t') ← mt_step t op; rest ← mt_run t' ops; Ok (a :: rest)
  end.

(** The specification: a run of entries, sorted by key, one per key. *)
Definition run_step (es : list Entry) (op : mt_op) : mt_answer * list Entry :=
  match op with
  | OpGet key => (AnsEntry (lookup_entry key es), es)
  | OpApply e => (AnsDone, upsert e es)
  | OpApplyBatch batch => (AnsDone, upsert_all batch es)
  | OpSize => (AnsSize (run_size es), es)
  | OpDrain => (AnsEntries es, [])
  | OpRange start stop => (AnsEntries (entries_between start stop es), es)
  | OpReset => (AnsDone, [])
  end.

Fixpoint run_answers (es : list Entry) (ops : list mt_op) : list mt_answer :=
  match ops with
  | [] => []
  | op :: ops => let '(a, es') := run_step es op in a :: run_answers es' ops
  end.

Section Refinement.
Context {T : Type} `{MemTableLaws T}.

Lemma mt_step_refines t es op :
  mt_rep t es -> exists t', mt_step t op = Ok (fst (run_step es op), t') /\ mt_rep t' (snd (run_step es op)).
Proof.
  intros Ht. destruct op as [key|e|batch| | |start stop|]; cbn [mt_step run_step fst snd].
  - rewrite (law_Get t es key Ht). by exists t.
  - destruct (law_ApplyOwned t es e Ht) as (t' & -> & Ht'). by exists t'.
  - destruct (law_ApplyBatchOwned t es batch Ht) as (t' & -> & Ht'). by exists t'.
  - rewrite (law_Size t es Ht). by exists t.
  - destruct (law_Drain t es Ht) as (t' & -> & Ht'). by exists t'.
  - rewrite (law_Range t es start stop Ht). by exists t.
  - exists (mt_Reset t). split; [done|]. by apply (law_Reset t es).
Qed.

Lemma mt_run_refines ops : forall t es, mt_rep t es -> mt_run t ops = Ok (run_answers es ops).
Proof.
  induction ops as [|op ops IH]; intros t es Ht; [done|]. cbn [mt_run run_answers].
  destruct (mt_step_refines t es op Ht) as (t' & -> & Ht'). cbn [mbind result_bind]. rewrite (IH t' _ Ht').
  cbn [mbind result_bind]. by destruct (run_step es op).
Qed.
End Refinement.

(** C34. Every table that the factory builds, whatever its kind, answers every
    sequence of calls (lookups, single and batch writes, sizes, ranges,
    drains and resets) as one run of entries sorted by key does, without a
    panic; the number of shards asked for is at most 2^62. *)
Theorem memtables_refine_sorted_run procs kind concurrency shards factory ops :
  shards <= 2 ^ 62 -> 0 < procs -> procs * Z.max 1 concurrency <= 2 ^ 62 ->
  FactoryForKind procs kind concurrency shards = inr factory ->
  exists t, factory tt = Ok t /\ mt_run t ops = Ok (run_answers [] ops).
Proof.
  intros Hs Hp Hc. unfold FactoryForKind. set (lower := ToLower kind).
  assert (Hsh : forall v, v <= 2 ^ 62 -> exists t, (n ← nextPow2 v; Ok (newShardedSkipListTable n)) = Ok t /\ sharded_rep t []).
  { intros v Hv. destruct (nextPow2_spec v Hv) as (k & Hk & -> & _). eexists. split; [reflexivity|]. by apply new_sharded_rep. }
  assert (Hf : forall (t : result Table) t', t = Ok t' -> table_rep t' [] -> exists t', t = Ok t' /\ mt_run t' ops = Ok (run_answers [] ops)).
  { intros t t' -> Ht'. exists t'. split; [done|]. by apply mt_run_refines. }
  case_bool_decide as E1; [case_bool_decide as E2|case_bool_decide as E2; [|case_bool_decide as E3; [|done]]]; intros [= <-].
  - destruct (Hsh shards Hs) as (t & Et & Ht). apply (Hf _ (TableSharded t)); [|exact Ht]. unfold NewShardedSkipListTableWithShards.
    rewrite bool_decide_false by lia. by rewrite Et.
  - destruct (Hsh (procs * Z.max 1 concurrency) Hc) as (t & Et & Ht). apply (Hf _ (TableSharded t)); [|exact Ht].
    unfold NewShardedSkipListTable, shardCount. replace (if bool_decide (concurrency < 1) then 1 else concurrency) with (Z.max 1 concurrency) by (case_bool_decide; lia).
    rewrite i64_id by nia. by rewrite Et.
  - apply (Hf _ (TableSkipList newSkipListTable)); [done|]. apply new_skip_rep.
  - apply (Hf _ (TableMap newMapTable)); [done|]. apply new_map_rep.
Qed.

Definition demo_entry (k v : string) (seq : Z) : Entry := mkEntry (bytes_of_string k) (bytes_of_string v) false seq.
Definition demo_ops : list mt_op :=
  [OpApply (demo_entry "b" "1" 1); OpApplyBatch [demo_entry "a" "22" 2; demo_entry "c" "3" 3; demo_entry "b" "444" 4];
   OpGet (bytes_of_string "b"); OpRange (bytes_of_string "b") []; OpSize; OpDrain; OpSize].

Lemma memtables_refine_sorted_run_witness :
  FactoryForKind 2 (bytes_of_string "Sharded") 1 3 = inr (fun _ => TableSharded <$> NewShardedSkipListTableWithShards 3) /\
  (exists t, TableSharded <$> NewShardedSkipListTableWithShards 3 = Ok t /\ mt_run t demo_ops = Ok (run_answers [] demo_ops)) /\
  run_answers [] demo_ops =
    [AnsDone; AnsDone; AnsEntry (Some (demo_entry "b" "444" 4)); AnsEntries [demo_entry "b" "444" 4; demo_entry "c" "3" 3];
     AnsSize 9; AnsEntries [demo_entry "a" "22" 2; demo_entry "b" "444" 4; demo_entry "c" "3" 3]; AnsSize 0].
Proof.
  split; [reflexivity|]. split; [|vm_compute; reflexivity].
  apply (memtables_refine_sorted_run 2 (bytes_of_string "Sharded") 1 3 (fun _ => TableSharded <$> NewShardedSkipListTableWithShards 3) demo_ops);
    [lia|lia|lia|reflexivity].
Defined.
