(* ===== verification/Merge.v ===== *)
(** * Iterators and groups

    The interface between the merges and what they read: the Go interfaces
    [entryIterator] (compaction/runner) and [viewIterator] (engine), both
    with [Next], the current entry and [Err], are the class [EntryIterator];
    [yields] says which entries an iterator still delivers and with which
    error it ends.  The merges pop a whole group of items with one key from
    their heap; [pop_group] is that loop. *)

From Stdlib Require Import ZArith Lia.
From stdpp Require Import base list sorting.
From S2P Require Import Prelude Heap.
Local Open Scope Z_scope.

Class EntryIterator (I : Type) := {
  iter_Next : I -> result (bool * I);
  iter_Entry : I -> Entry;
  iter_Err : I -> option error
}.

(** What an iterator still delivers, and the error it ends with. *)
Abbreviation stream := (list Entry * option error)%type.

Fixpoint yields {I} `{EntryIterator I} (it : I) (es : list Entry) (err : option error) : Prop :=
  match es with
  | [] => exists it', iter_Next it = Ok (false, it') /\ iter_Err it' = err
  | e :: es => exists it', iter_Next it = Ok (true, it') /\ iter_Entry it' = e /\ yields it' es err
  end.

(** [sliceIterator] (memtable/table/factory.go): the entries behind the
    position and the current one; the zero entry before the first call. *)
Record sliceIterator := mkSliceIterator { si_rest : list Entry; si_curr : Entry }.

Definition newSliceIterator (entries : list Entry) : sliceIterator := mkSliceIterator entries (mkEntry [] [] false 0).

Definition sliceIterator_Next (it : sliceIterator) : bool * sliceIterator :=
  match si_rest it with
  | [] => (false, it)
  | e :: rest => (true, mkSliceIterator rest e)
  end.

#[export] Instance sliceIterator_ops : EntryIterator sliceIterator := {
  iter_Next it := Ok (sliceIterator_Next it);
  iter_Entry := si_curr;
  iter_Err _ := None
}.

Lemma slice_yields es : yields (newSliceIterator es) es None.
Proof.
  unfold newSliceIterator. generalize (mkEntry [] [] false 0). induction es as [|e es IH]; intros c; cbn [yields].
  - eexists. split; [reflexivity|done].
  - eexists. split; [reflexivity|]. split; [done|]. apply IH.
Qed.

(** ** Groups of one key *)

Section Group.
Context {A : Type} (less : A -> A -> bool) (entry : A -> Entry).

(** [for h.Len() > 0 && bytes.Equal(h[0].entry.Key, key)]: at most
    [h.Len()] rounds. *)
Fixpoint pop_loop (fuel : nat) (key : bytes) (h : list A) : list A * list A :=
  match fuel, h with
  | S fuel, x :: _ =>
      if bool_decide (Key (entry x) = key) then
        match Pop less h with
        | Some (x, h) => let '(group, h) := pop_loop fuel key h in (x :: group, h)
        | None => ([], h)
        end
      else ([], h)
  | _, _ => ([], h)
  end.
Definition pop_group (key : bytes) (h : list A) : list A * list A := pop_loop (length h) key h.

Context (less_trans : Transitive (le less)) (less_le : forall a b, less a b = true -> le less a b).
Context (less_key : forall a b, le less a b -> Key (entry a) ⪯ Key (entry b)).

Lemma pop_loop_spec key fuel : forall h,
  (length h <= fuel)%nat -> heap less h -> Forall (fun x => key ⪯ Key (entry x)) h ->
  let '(group, h') := pop_loop fuel key h in
  h ≡ₚ group ++ h' /\ heap less h' /\ Forall (fun x => Key (entry x) = key) group /\ Forall (fun x => key ≺ Key (entry x)) h'.
Proof.
  induction fuel as [|fuel IH]; intros h Hl Hh Hk; (destruct h as [|x h0]; [done|]); [cbn in Hl; lia|].
  cbn [pop_loop]. destruct (Pop_spec less less_trans less_le (x :: h0) Hh ltac:(done)) as (y & h' & Ep & P & Hh' & Hmin & Hr).
  injection Hr as ->. case_bool_decide as E.
  - rewrite Ep. specialize (IH h'). destruct (pop_loop fuel key h') as [group h2].
    apply Permutation_length in P as Hl'. cbn [length] in Hl', Hl. rewrite P in Hk. apply Forall_cons in Hk as [_ Hk].
    destruct IH as (P2 & H1 & H2 & H3); [lia|done|done|]. split; [by rewrite P, P2|]. split; [done|]. by split; [constructor|].
  - split; [done|]. split; [done|]. split; [constructor|].
    assert (Hx : key ≺ Key (entry y)) by (apply Forall_inv in Hk; bytes_order). rewrite P. constructor; [done|].
    eapply Forall_impl; [exact Hmin|]. intros z Hz%less_key. bytes_order.
Qed.

Lemma pop_group_spec key h :
  heap less h -> Forall (fun x => key ⪯ Key (entry x)) h ->
  let '(group, h') := pop_group key h in
  h ≡ₚ group ++ h' /\ heap less h' /\ Forall (fun x => Key (entry x) = key) group /\ Forall (fun x => key ≺ Key (entry x)) h'.
Proof. by apply pop_loop_spec. Qed.

(** An item popped first and its group. *)
Lemma Pop_group h :
  heap less h -> h <> [] ->
  exists x h1 group h', Pop less h = Some (x, h1) /\ pop_group (Key (entry x)) h1 = (group, h') /\
    h ≡ₚ x :: group ++ h' /\ heap less h' /\ Forall (fun y => Key (entry y) = Key (entry x)) group /\
    Forall (fun y => Key (entry x) ≺ Key (entry y)) h'.
Proof.
  intros Hh Hne. destruct (Pop_spec less less_trans less_le h Hh Hne) as (x & h1 & Ep & P & Hh' & Hmin & _).
  pose proof (pop_group_spec (Key (entry x)) h1 Hh') as Hg. destruct (pop_group (Key (entry x)) h1) as [group h'] eqn:E.
  destruct Hg as (P2 & H1 & H2 & H3); [eapply Forall_impl; [exact Hmin|]; by intros z Hz%less_key|].
  exists x, h1, group, h'. split; [done|]. split; [done|]. split; [by rewrite P, P2|]. done.
Qed.
End Group.
