(* ===== verification/TableIter.v ===== *)
(** * Tables as iterators

    An SSTable's range iterator ([sstable.RangeIterator]) as an instance of
    the iterator interface, and that it delivers the entries of its range:
    what the merges need of a table.  The iterator carries the state of its
    reader, which a single goroutine uses here. *)

From Stdlib Require Import ZArith Lia Strings.String.
From stdpp Require Import base list gmap strings.
From S2P Require Import Prelude Iofs SstFormat SstBlock SstOptions Bloom Cache SstReader SstWriter SstTable SstRange SstFlush SstPublish Merge.
Local Open Scope Z_scope.

Section TableIterator.
Context (snappy_Decode : bytes -> option bytes).

Record TableIterator := mkTableIterator {
  ti_reader : Reader;
  ti_start : bytes;
  ti_stop : bytes;
  ti_state : rstate * RangeIterator
}.

(** [SSTable.Range]. *)
Definition SSTable_Range (t : SSTable) (start stop : bytes) : TableIterator :=
  mkTableIterator (st_reader t) start stop (mkRstate (st_state t) false, newRangeIterator).

(** A round of [Next] that neither returns nor fails leaves a block or a
    partition behind, and each of these takes at least a byte of the file. *)
Definition next_fuel (r : Reader) : nat := S (S (Z.to_nat (r_size r))).

#[export] Instance TableIterator_ops : EntryIterator TableIterator := {
  iter_Next it :=
    let '(res, s) := RangeIterator_Next snappy_Decode (ti_reader it) (ti_start it) (ti_stop it)
                       (next_fuel (ti_reader it)) (ti_state it) in
    more ← res; Ok (more, mkTableIterator (ti_reader it) (ti_start it) (ti_stop it) s);
  iter_Entry it :=
    match it_curr (snd (ti_state it)) with
    | Some v => EntryView_ToEntry v
    | None => mkEntry [] [] false 0
    end;
  iter_Err it := it_err (snd (ti_state it))
}.

Section Table.
Context (r : Reader) (start stop : bytes).
Context (groups : list seg) (parts : list part) (fsegs : list seg).
Context (T : table_rep snappy_Decode (r_pipe r) groups parts fsegs).

Lemma iter_rep_yields rem : forall it rs,
  iter_rep r start groups parts it rem -> reader_ok groups parts fsegs rs ->
  yields (mkTableIterator r start stop (rs, it)) (until stop rem) None.
Proof.
  induction rem as [|e rem IH]; intros it rs Hit Hrs.
  all: destruct (Next_loop_wp snappy_Decode r start stop groups parts fsegs T it rs _ (Z.to_nat (r_size r)) Hit Hrs)
         as (more & [rs' it'] & E & Hrs' & Herr & Hn); cbn [fst snd] in *.
  all: assert (En : iter_Next (mkTableIterator r start stop (rs, it)) = Ok (more, mkTableIterator r start stop (rs', it')))
         by (unfold iter_Next, TableIterator_ops, RangeIterator_Next, next_fuel; cbn [ti_reader ti_start ti_stop ti_state fst];
             by rewrite (proj2 Hrs), E).
  - cbn [until yields]. rewrite En, Hn. by eexists.
  - cbn [until]. destruct (past_end stop (EntryView_of e)); cbn [yields]; rewrite En; [rewrite Hn; by eexists|].
    destruct Hn as (-> & Hc & Hit'). eexists. split; [reflexivity|]. split; [|by apply IH]. cbn. rewrite Hc. by destruct e.
Qed.
End Table.

(** A table that holds a sorted run of entries. *)
Definition table_holds (t : SSTable) (es : list Entry) : Prop :=
  exists groups parts fsegs, table_rep snappy_Decode (r_pipe (st_reader t)) groups parts fsegs /\
    pinv groups parts fsegs (st_state t) /\ seg_entries groups = es /\ run_meta (r_meta (st_reader t)) es /\
    st_Seq t = SeqMax (r_meta (st_reader t)) /\
    (forall key, out_of_range (r_meta (st_reader t)) key = true -> lookup_entry key es = None).

Lemma table_holds_sorted t es : table_holds t es -> sorted_run es.
Proof. intros (g & p & f & T & _ & <- & _). apply T. Qed.

Lemma table_range_yields t es start stop :
  table_holds t es -> yields (SSTable_Range t start stop) (entries_between start stop es) None.
Proof.
  intros (groups & parts & fsegs & T & Hi & <- & _). rewrite <- until_between by apply T.
  eapply iter_rep_yields; [exact T|by eapply new_iter_rep|by split].
Qed.

(** [SSTable.GetView] from the state that the table carries. *)
Definition SSTable_GetView (t : SSTable) (key : bytes) : result (option EntryView) :=
  fst (GetView snappy_Decode (st_reader t) key (mkRstate (st_state t) false)).

Lemma table_get t es key :
  table_holds t es -> SSTable_GetView t key = Ok (EntryView_of <$> lookup_entry key es).
Proof.
  intros (groups & parts & fsegs & T & Hi & <- & _ & _ & Hr). unfold SSTable_GetView.
  destruct (GetView_wp snappy_Decode (st_reader t) groups parts fsegs T Hr key (mkRstate (st_state t) false)) as (v & s & -> & -> & _);
    [by split|]. done.
Qed.

(** [SSTable.GetViewContext] with a context that is not cancelled. *)
Definition SSTable_GetViewContext (t : SSTable) (key : bytes) : result (option EntryView) :=
  fst (GetViewContext snappy_Decode (st_reader t) key (st_state t)).

Lemma table_get_context t es key :
  table_holds t es -> SSTable_GetViewContext t key = Ok (EntryView_of <$> lookup_entry key es).
Proof.
  intros (groups & parts & fsegs & T & Hi & <- & _ & _ & Hr). unfold SSTable_GetViewContext.
  unfold GetViewContext. destruct (out_of_range (r_meta (st_reader t)) key) eqn:E; [by rewrite (Hr key E)|].
  by destruct (Pipeline_Get_runs snappy_Decode _ _ _ _ T key (st_state t) Hi) as (v & ps & -> & _ & ->).
Qed.

Section Flushes.
Context (snappy_Encode : bytes -> bytes).
Context (snappy_roundtrip : forall b, zlen b < 2 ^ 31 -> snappy_Decode (snappy_Encode b) = Some b).
Context (snappy_length : forall b, zlen (snappy_Encode b) <= 32 + zlen b + zlen b / 6).

(** A flush makes a table that holds its entries, sorted. *)
Lemma flush_holds o0 spare es fs :
  Validate (Normalize o0) = Ok tt -> PolicyOverride o0 = None -> flushable o0 es -> fs_faults fs = [] ->
  exists t fs', Flush snappy_Encode snappy_Decode (Normalize o0) spare es fs = (Ok t, fs') /\
    table_holds t (flush_sort es) /\ st_Path t = final_path es fs /\ fs_faults fs' = [].
Proof.
  intros Hv Hp Hf Hfs.
  destruct (Flush_table _ _ snappy_roundtrip snappy_length o0 spare Hv Hp es fs Hf Hfs) as (file & r & ps & groups & parts & fsegs & E & Eg & T & Hi & Hm & Hout).
  eexists _, _. split; [exact E|]. split; [|done]. exists groups, parts, fsegs. done.
Qed.
End Flushes.
End TableIterator.
