(* ===== verification/TableSet.v ===== *)
(** * The table set

    Table metadata (internal/lsm/metadata) and the in-memory registry of the
    tables (internal/lsm/tableset): the tables in read order, their index by
    path, the pins that snapshots hold, and the tables that were removed
    while they were pinned.  A table handle is a parameter.  The main result
    is about pins: a table is handed out for deletion only when no snapshot
    uses it, exactly once, and none is forgotten. *)

From Stdlib Require Import ZArith Lia Strings.String.
From stdpp Require Import base list sorting gmap strings.
From S2P Require Import Prelude.
Local Open Scope Z_scope.

Record TableMeta := mkTableMeta {
  tm_Path : string;
  tm_Level : Z;
  tm_MinKey : bytes;
  tm_MaxKey : bytes;
  tm_SeqMin : Z;
  tm_SeqMax : Z;
  tm_SizeBytes : Z
}.

(** [Copy]: equal on immutable byte strings. *)
Definition TableMeta_Copy (m : TableMeta) : TableMeta :=
  mkTableMeta (tm_Path m) (tm_Level m) ([] ++ tm_MinKey m) ([] ++ tm_MaxKey m) (tm_SeqMin m) (tm_SeqMax m) (tm_SizeBytes m).

Lemma TableMeta_Copy_id m : TableMeta_Copy m = m.
Proof. by destruct m. Qed.

(** The order of [rebuild]: newest first, by path among equals. *)
Definition meta_before (a b : TableMeta) : Prop :=
  tm_SeqMax b < tm_SeqMax a \/ (tm_SeqMax a = tm_SeqMax b /\ String.leb (tm_Path a) (tm_Path b) = true).

#[export] Instance meta_before_dec a b : Decision (meta_before a b).
Proof. unfold meta_before. apply _. Defined.

Lemma string_leb_trans a b c : String.leb a b = true -> String.leb b c = true -> String.leb a c = true.
Proof.
  unfold String.leb. revert b c. induction a as [|x a IH]; intros [|y b] [|z c]; cbn [String.compare]; try done.
  unfold Ascii.compare. destruct (N.compare_spec (Ascii.N_of_ascii x) (Ascii.N_of_ascii y)) as [E1|E1|E1];
    destruct (N.compare_spec (Ascii.N_of_ascii y) (Ascii.N_of_ascii z)) as [E2|E2|E2]; try done;
    destruct (N.compare_spec (Ascii.N_of_ascii x) (Ascii.N_of_ascii z)) as [E3|E3|E3]; try done; try lia.
  apply IH.
Qed.

#[export] Instance meta_before_trans : Transitive meta_before.
Proof.
  intros a b c [E1|[E1 E2]] [E3|[E3 E4]]; unfold meta_before; [left; lia|left; lia|left; lia|].
  right. split; [lia|]. by apply (string_leb_trans _ (tm_Path b)).
Qed.

#[export] Instance meta_before_total : Total meta_before.
Proof.
  intros a b. unfold meta_before. destruct (Z.lt_trichotomy (tm_SeqMax a) (tm_SeqMax b)) as [E|[E|E]]; [by right; left| |by left; left].
  destruct (String.leb_total (tm_Path a) (tm_Path b)) as [E2|E2]; [left|right]; right; split; auto.
Qed.

Section TableSet.
Context {H : Type}.

Record Table := mkTable { Table_Meta : TableMeta; Table_Handle : H }.

Record Edit := mkEdit { Edit_Add : list Table; Edit_RemovePath : list string }.

(** A nil map of pins is [None]. *)
Record Set_ := mkSet {
  set_tables : list Table;
  set_index : gmap string nat;
  set_pinned : option (gmap string Z);
  set_pending : gmap string Table
}.

Definition Table_Path (t : Table) : string := tm_Path (Table_Meta t).
Definition copy_meta (t : Table) : Table := mkTable (TableMeta_Copy (Table_Meta t)) (Table_Handle t).

Definition table_before (a b : Table) : Prop := meta_before (Table_Meta a) (Table_Meta b).

#[export] Instance table_before_dec a b : Decision (table_before a b).
Proof. unfold table_before. apply _. Defined.

(** [for i := range s.tables { s.index[path] = i }] *)
Fixpoint index_from (i : nat) (tables : list Table) (m : gmap string nat) : gmap string nat :=
  match tables with
  | [] => m
  | t :: tables => index_from (S i) tables (<[Table_Path t := i]> m)
  end.

Definition rebuild (s : Set_) : Set_ :=
  let tables := merge_sort table_before (set_tables s) in
  mkSet tables (index_from 0 tables ∅) (set_pinned s) (set_pending s).

Definition NewSet (tables : list Table) : Set_ :=
  let s := mkSet [] ∅ None ∅ in
  match tables with
  | [] => s
  | _ => rebuild (mkSet tables (set_index s) (set_pinned s) (set_pending s))
  end.

Definition Snapshot (s : Set_) : list TableMeta := map (fun t => TableMeta_Copy (Table_Meta t)) (set_tables s).
Definition Tables (s : Set_) : list H := map Table_Handle (set_tables s).
Definition TablesWithMeta (s : Set_) : list Table := map copy_meta (set_tables s).

(** A missing key counts zero. *)
Definition pin_count (m : gmap string Z) (path : string) : Z := default 0 (m !! path).

Definition pin_all (paths : list string) (m : gmap string Z) : gmap string Z :=
  fold_left (fun m path => <[path := pin_count m path + 1]> m) paths m.

Definition SnapshotAndPin (s : Set_) : list Table * Set_ :=
  let pinned := default ∅ (set_pinned s) in
  (map copy_meta (set_tables s),
   mkSet (set_tables s) (set_index s) (Some (pin_all (map Table_Path (set_tables s)) pinned)) (set_pending s)).

(** The loop of [Unpin]: the maps and what is ready for cleanup. *)
Fixpoint unpin_loop (paths : list string) (pinned : gmap string Z) (pending : gmap string Table)
  : list Table * (gmap string Z * gmap string Table) :=
  match paths with
  | [] => ([], (pinned, pending))
  | path :: paths =>
      let count := pin_count pinned path in
      if bool_decide (count <= 1) then
        let pinned := delete path pinned in
        match pending !! path with
        | Some table =>
            let '(ready, ms) := unpin_loop paths pinned (delete path pending) in
            (copy_meta table :: ready, ms)
        | None => unpin_loop paths pinned pending
        end
      else unpin_loop paths (<[path := count - 1]> pinned) pending
  end.

Definition Unpin (s : Set_) (paths : list string) : list Table * Set_ :=
  match paths, set_pinned s with
  | [], _ => ([], s)
  | _, None => ([], s)
  | _, Some pinned =>
      let '(ready, (pinned, pending)) := unpin_loop paths pinned (set_pending s) in
      (ready, mkSet (set_tables s) (set_index s) (Some pinned) pending)
  end.

(** The values of a map in some order. *)
Definition Pending (s : Set_) : list Table := map (fun p => copy_meta (snd p)) (map_to_list (set_pending s)).

Fixpoint Resolve (s : Set_) (metas : list TableMeta) : result (list H) :=
  match metas with
  | [] => Ok []
  | meta :: metas =>
      match set_index s !! tm_Path meta with
      | None => Err (ErrNew ("tableset: missing table " +:+ tm_Path meta))
      | Some idx =>
          match set_tables s !! idx with
          | None => Panic
          | Some t => rest ← Resolve s metas; Ok (Table_Handle t :: rest)
          end
      end
  end.

(** The loop of [Apply] over the tables: those that stay, those removed, and
    those that wait for their pins. *)
Fixpoint apply_loop (remove : list string) (pinned : option (gmap string Z)) (tables : list Table) (pending : gmap string Table)
  : list Table * list Table * gmap string Table :=
  match tables with
  | [] => ([], [], pending)
  | t :: tables =>
      if bool_decide (Table_Path t ∈ remove) then
        if bool_decide (0 < pin_count (default ∅ pinned) (Table_Path t)) then
          apply_loop remove pinned tables (<[Table_Path t := t]> pending)
        else
          let '(kept, removed, pending) := apply_loop remove pinned tables pending in
          (kept, t :: removed, pending)
      else
        let '(kept, removed, pending) := apply_loop remove pinned tables pending in
        (t :: kept, removed, pending)
  end.

Definition Set_Apply (s : Set_) (edit : Edit) : list Table * Set_ :=
  let '(tables, removed, pending) :=
    match Edit_RemovePath edit with
    | [] => (set_tables s, [], set_pending s)
    | remove => apply_loop remove (set_pinned s) (set_tables s) (set_pending s)
    end in
  let tables := tables ++ map copy_meta (Edit_Add edit) in
  (removed, rebuild (mkSet tables (set_index s) (set_pinned s) pending)).

(** ** Facts *)

Lemma copy_meta_id t : copy_meta t = t.
Proof. unfold copy_meta. rewrite TableMeta_Copy_id. by destruct t. Qed.

Lemma map_copy_meta ts : map copy_meta ts = ts.
Proof. induction ts as [|t ts IH]; [done|]. cbn. by rewrite copy_meta_id, IH. Qed.

Lemma index_from_spec tables : forall i m path j,
  NoDup (map Table_Path tables) ->
  index_from i tables m !! path = Some j <->
  ((exists k t, tables !! k = Some t /\ Table_Path t = path /\ j = (i + k)%nat) \/
  ((path ∉ map Table_Path tables) /\ m !! path = Some j)).
Proof.
  induction tables as [|t tables IH]; intros i m path j Hn; cbn [index_from map].
  { split; [intros; right; split; [apply not_elem_of_nil|done]|]. intros [(k & t & E & _)|[_ E]]; [done|done]. }
  apply NoDup_cons in Hn as [Hni Hn]. rewrite (IH (S i) _ path j Hn). rewrite not_elem_of_cons. split.
  - intros [(k & t' & E & Ep & ->)|[Hnp E]]; [left; exists (S k), t'; split; [done|]; split; [done|lia]|].
    destruct (decide (Table_Path t = path)) as [<-|Hne].
    + rewrite lookup_insert_eq in E. injection E as <-. left. exists 0%nat, t. split; [done|]. split; [done|lia].
    + rewrite lookup_insert_ne in E by done. right. by split.
  - intros [([|k] & t' & E & Ep & ->)|[[H1 H2] E]].
    + injection E as ->. subst path. right. split; [done|]. rewrite lookup_insert_eq. f_equal. lia.
    + left. exists k, t'. split; [done|]. split; [done|lia].
    + right. split; [done|]. by rewrite lookup_insert_ne.
Qed.

(** How often snapshots pin a path. *)
Definition occ (path : string) (l : list string) : Z := zlen (filter (fun p => p = path) l).

Lemma occ_cons path p l : occ path (p :: l) = occ path l + (if bool_decide (p = path) then 1 else 0).
Proof. unfold occ. rewrite filter_cons. case_decide; case_bool_decide; try done; rewrite ?zlen_cons; lia. Qed.

Lemma occ_app path a b : occ path (a ++ b) = occ path a + occ path b.
Proof. unfold occ. rewrite filter_app, zlen_app. done. Qed.

Lemma occ_pos path l : 0 < occ path l <-> path ∈ l.
Proof.
  unfold occ, zlen. split.
  - intros Hp. destruct (filter (fun p => p = path) l) as [|x f] eqn:E; [cbn in Hp; lia|].
    assert (Hin : x ∈ filter (fun p => p = path) l) by (rewrite E; by left). apply list_elem_of_filter in Hin as [-> Hin]. done.
  - intros Hin. assert (Hf : path ∈ filter (fun p => p = path) l) by (by apply list_elem_of_filter).
    destruct (filter (fun p => p = path) l); [by apply elem_of_nil in Hf|cbn; lia].
Qed.

Lemma occ_nonneg path l : 0 <= occ path l.
Proof. apply zlen_nonneg. Qed.

Lemma pin_all_spec paths : forall m path, pin_count (pin_all paths m) path = pin_count m path + occ path paths.
Proof.
  unfold pin_all. induction paths as [|p paths IH]; intros m path; cbn [fold_left]; [change (occ path []) with 0; lia|].
  rewrite IH, occ_cons. unfold pin_count at 1. destruct (decide (p = path)) as [->|Hne].
  - rewrite lookup_insert_eq, bool_decide_true by done. cbn. lia.
  - rewrite lookup_insert_ne, bool_decide_false by done. unfold pin_count. lia.
Qed.

Definition values (m : gmap string Table) : list Table := map snd (map_to_list m).

Lemma values_delete m path t : m !! path = Some t -> values m ≡ₚ t :: values (delete path m).
Proof. intros E. unfold values. by rewrite <- (map_to_list_delete m path t E). Qed.

Lemma values_insert m path t : m !! path = None -> values (<[path := t]> m) ≡ₚ t :: values m.
Proof. intros E. unfold values. by rewrite map_to_list_insert. Qed.

Lemma unpin_loop_spec paths : forall pinned pending rest,
  (forall path, pin_count pinned path = occ path (paths ++ rest)) ->
  (forall path t, pending !! path = Some t -> Table_Path t = path /\ path ∈ paths ++ rest) ->
  let '(ready, (pinned', pending')) := unpin_loop paths pinned pending in
  (forall path, pin_count pinned' path = occ path rest) /\
  (forall path t, pending' !! path = Some t -> pending !! path = Some t /\ path ∈ rest) /\
  values pending ≡ₚ ready ++ values pending' /\ Forall (fun t => Table_Path t ∉ rest) ready.
Proof.
  induction paths as [|p paths IH]; intros pinned pending rest Hc Hp; cbn [unpin_loop].
  { split; [done|]. split; [|by split; [|constructor]]. intros path t E. split; [done|]. by apply (Hp path t). }
  assert (Hcp := Hc p). cbn [app] in Hcp. rewrite occ_cons, bool_decide_true in Hcp by done.
  pose proof (occ_nonneg p (paths ++ rest)) as Hnn. case_bool_decide as E.
  - assert (Hout : p ∉ paths ++ rest) by (rewrite <- occ_pos; lia).
    assert (Hc' : forall path, pin_count (delete p pinned) path = occ path (paths ++ rest)).
    { intros path. destruct (decide (p = path)) as [<-|Hne].
      - unfold pin_count. rewrite lookup_delete_eq. cbn. lia.
      - unfold pin_count. rewrite lookup_delete_ne by done. fold (pin_count pinned path). rewrite Hc. cbn [app].
        rewrite occ_cons, bool_decide_false by done. lia. }
    destruct (pending !! p) as [table|] eqn:Ep.
    + specialize (IH (delete p pinned) (delete p pending) rest Hc').
      destruct (unpin_loop paths (delete p pinned) (delete p pending)) as [ready [pinned' pending']].
      destruct IH as (H1 & H2 & H3 & H4).
      { intros path t [Hne Et]%lookup_delete_Some. destruct (Hp path t Et) as [Hpt Hin]. split; [done|].
        apply elem_of_cons in Hin as [->|Hin]; [done|done]. }
      split; [done|]. split; [|split].
      * intros path t Et. destruct (H2 path t Et) as [[_ Et']%lookup_delete_Some Hin]. done.
      * rewrite (values_delete _ _ _ Ep), H3, copy_meta_id. done.
      * constructor; [|done]. rewrite copy_meta_id. rewrite (proj1 (Hp p table Ep)). set_solver.
    + specialize (IH (delete p pinned) pending rest Hc'). destruct (unpin_loop paths (delete p pinned) pending) as [ready [pinned' pending']].
      apply IH. intros path t Et. destruct (Hp path t Et) as [Hpt Hin]. split; [done|].
      apply elem_of_cons in Hin as [->|Hin]; [congruence|done].
  - specialize (IH (<[p := pin_count pinned p - 1]> pinned) pending rest).
    destruct (unpin_loop paths (<[p:=pin_count pinned p - 1]> pinned) pending) as [ready [pinned' pending']]. apply IH.
    + intros path. unfold pin_count at 1. destruct (decide (p = path)) as [<-|Hne].
      * rewrite lookup_insert_eq. cbn [default from_option id]. lia.
      * rewrite lookup_insert_ne by done. fold (pin_count pinned path). rewrite Hc. cbn [app].
        rewrite occ_cons, bool_decide_false by done. lia.
    + intros path t Et. destruct (Hp path t Et) as [Hpt Hin]. split; [done|]. apply elem_of_cons in Hin as [->|Hin]; [|done].
      apply occ_pos. lia.
Qed.

Lemma apply_loop_spec remove pinned tables : forall pending,
  NoDup (map Table_Path tables) -> (forall t, t ∈ tables -> pending !! Table_Path t = None) ->
  let '(kept, removed, pending') := apply_loop remove pinned tables pending in
  kept = filter (fun t => Table_Path t ∉ remove) tables /\
  (forall t, t ∈ removed -> t ∈ tables /\ Table_Path t ∈ remove /\ pin_count (default ∅ pinned) (Table_Path t) <= 0) /\
  (forall path t, pending' !! path = Some t <->
     pending !! path = Some t \/ (t ∈ tables /\ Table_Path t = path /\ path ∈ remove /\ 0 < pin_count (default ∅ pinned) path)) /\
  tables ++ values pending ≡ₚ kept ++ removed ++ values pending'.
Proof.
  induction tables as [|t tables IH]; intros pending Hn Hp; cbn [apply_loop].
  { split; [done|]. split; [by intros ? ?%elem_of_nil|]. split; [|done]. intros path t. split; [by left|].
    intros [?|[?%elem_of_nil _]]; done. }
  cbn [map] in Hn. apply NoDup_cons in Hn as [Hni Hn]. rewrite filter_cons.
  destruct (decide (Table_Path t ∈ remove)) as [Hr|Hr];
    [rewrite bool_decide_true, decide_False by (done || (intros ?; done))|rewrite bool_decide_false, decide_True by done].
  - case_bool_decide as Hc.
    + specialize (IH (<[Table_Path t := t]> pending)). destruct (apply_loop remove pinned tables _) as [[kept removed] pending'].
      destruct IH as (-> & H2 & H3 & H4); [done| |].
      { intros t' Ht'. rewrite lookup_insert_ne; [apply Hp; by right|]. intros E. apply Hni. rewrite E. by apply list_elem_of_fmap_2. }
      split; [done|]. split; [intros t' Ht'; destruct (H2 t' Ht') as (?&?&?); split; [by right|done]|]. split.
      * intros path t'. rewrite H3. destruct (decide (Table_Path t = path)) as [<-|Hne].
        -- rewrite lookup_insert_eq. split.
           ++ intros [[= <-]|(Hin & E & _)]; [right; split; [by left|done]|]. destruct Hni. rewrite <- E. by apply list_elem_of_fmap_2.
           ++ intros [E|(Hin & E & _)]; [rewrite (Hp t ltac:(by left)) in E; done|]. apply elem_of_cons in Hin as [->|Hin]; [by left|].
              destruct Hni. rewrite <- E. by apply list_elem_of_fmap_2.
        -- rewrite lookup_insert_ne by done. rewrite elem_of_cons. naive_solver.
      * rewrite values_insert in H4 by (apply Hp; by left). cbn [app]. rewrite <- H4. apply Permutation_middle.
    + specialize (IH pending). destruct (apply_loop remove pinned tables pending) as [[kept removed] pending'].
      destruct IH as (-> & H2 & H3 & H4); [done|intros; apply Hp; by right|]. split; [done|]. split; [|split].
      * intros t' [->|Ht']%elem_of_cons; [split; [by left|]; split; [done|lia]|]. destruct (H2 t' Ht') as (?&?&?). split; [by right|done].
      * intros path t'. rewrite H3, elem_of_cons. split; [naive_solver|]. intros [?|([->|?] & <- & ? & ?)]; [by left|lia|by right].
      * cbn [app]. rewrite H4. rewrite <- Permutation_middle. done.
  - specialize (IH pending). destruct (apply_loop remove pinned tables pending) as [[kept removed] pending'].
    destruct IH as (-> & H2 & H3 & H4); [done|intros; apply Hp; by right|]. split; [done|]. split; [|split].
    + intros t' Ht'. destruct (H2 t' Ht') as (?&?&?). split; [by right|done].
    + intros path t'. rewrite H3, elem_of_cons. naive_solver.
    + cbn [app]. by rewrite H4.
Qed.

(** ** Snapshots and edits *)

(** The set with the paths that each open snapshot pinned. *)
Inductive ts_op := TsSnapshot | TsClose (i : nat) | TsEdit (e : Edit).

Definition ts_step (st : Set_ * list (list string)) (op : ts_op) : list Table * (Set_ * list (list string)) :=
  let '(s, open) := st in
  match op with
  | TsSnapshot => let '(ts, s) := SnapshotAndPin s in ([], (s, map Table_Path ts :: open))
  | TsClose i =>
      match open !! i with
      | None => ([], st)
      | Some paths => let '(ready, s) := Unpin s paths in (ready, (s, delete i open))
      end
  | TsEdit e => let '(removed, s) := Set_Apply s e in (removed, (s, open))
  end.

(** The tables handed out for deletion, in order. *)
Fixpoint ts_run (st : Set_ * list (list string)) (ops : list ts_op) : list Table * (Set_ * list (list string)) :=
  match ops with
  | [] => ([], st)
  | op :: ops => let '(out, st) := ts_step st op in let '(outs, st) := ts_run st ops in (out ++ outs, st)
  end.

(** Paths in use: those of the tables and of the tables that wait. *)
Definition in_use (s : Set_) : list string := map Table_Path (set_tables s) ++ map Table_Path (values (set_pending s)).

(** An edit adds tables under new paths: a path carries the time at which
    the file was made. *)
Definition edit_fresh (s : Set_) (e : Edit) : Prop :=
  NoDup (map Table_Path (Edit_Add e)) /\ forall path, path ∈ map Table_Path (Edit_Add e) -> path ∉ in_use s.

Definition op_fresh (st : Set_ * list (list string)) (op : ts_op) : Prop :=
  match op with TsEdit e => edit_fresh (fst st) e | _ => True end.

Fixpoint ops_fresh (st : Set_ * list (list string)) (ops : list ts_op) : Prop :=
  match ops with
  | [] => True
  | op :: ops => op_fresh st op /\ ops_fresh (snd (ts_step st op)) ops
  end.

Record ts_inv (st : Set_ * list (list string)) : Prop := {
  ti_nodup : NoDup (map Table_Path (set_tables (fst st)));
  ti_index : forall path j, set_index (fst st) !! path = Some j <-> exists t, set_tables (fst st) !! j = Some t /\ Table_Path t = path;
  ti_sorted : StronglySorted table_before (set_tables (fst st));
  ti_pins : forall path, pin_count (default ∅ (set_pinned (fst st))) path = occ path (concat (snd st));
  ti_pending : forall path t, set_pending (fst st) !! path = Some t ->
    Table_Path t = path /\ path ∈ concat (snd st) /\ path ∉ map Table_Path (set_tables (fst st))
}.

#[export] Instance table_before_trans : Transitive table_before.
Proof. intros a b c. apply meta_before_trans. Qed.
#[export] Instance table_before_total : Total table_before.
Proof. intros a b. apply meta_before_total. Qed.

Lemma rebuild_spec s : NoDup (map Table_Path (set_tables s)) ->
  let s' := rebuild s in
  set_tables s' ≡ₚ set_tables s /\ NoDup (map Table_Path (set_tables s')) /\ StronglySorted table_before (set_tables s') /\
  (forall path j, set_index s' !! path = Some j <-> exists t, set_tables s' !! j = Some t /\ Table_Path t = path) /\
  set_pinned s' = set_pinned s /\ set_pending s' = set_pending s.
Proof.
  intros Hn. cbv zeta. assert (P : set_tables (rebuild s) ≡ₚ set_tables s) by apply merge_sort_Permutation.
  assert (Hn' : NoDup (map Table_Path (set_tables (rebuild s)))) by (by rewrite P).
  split; [done|]. split; [done|]. split; [apply StronglySorted_merge_sort; apply _|]. split; [|done].
  intros path j. change (set_index (rebuild s)) with (index_from 0 (set_tables (rebuild s)) ∅). rewrite index_from_spec by done. split.
  - intros [(k & t & E & Ep & ->)|[_ E]]; [by exists t|]. by rewrite lookup_empty in E.
  - intros (t & E & Ep). left. exists j, t. done.
Qed.

Lemma NewSet_inv tables : NoDup (map Table_Path tables) -> ts_inv (NewSet tables, []) /\ set_tables (NewSet tables) ≡ₚ tables.
Proof.
  intros Hn. destruct tables as [|t tables]; cbn [NewSet].
  { split; [|done]. split; cbn [fst snd set_tables set_index set_pinned set_pending].
    - constructor.
    - intros path j. split; [by rewrite lookup_empty|by intros (t & E & _)].
    - constructor.
    - done.
    - intros path t E. by rewrite lookup_empty in E. }
  set (s := mkSet _ _ _ _). destruct (rebuild_spec s Hn) as (P & H1 & H2 & H3 & H4 & H5). split; [|exact P].
  split; cbn [fst snd]; try done.
Qed.

(** A step hands out only tables that no snapshot uses, loses none and keeps
    the invariant. *)
Definition step_ok (st : Set_ * list (list string)) (added out : list Table) (st' : Set_ * list (list string)) : Prop :=
  ts_inv st' /\ Forall (fun t => Table_Path t ∉ concat (snd st')) out /\
  (set_tables (fst st) ++ values (set_pending (fst st))) ++ added ≡ₚ
  (set_tables (fst st') ++ values (set_pending (fst st'))) ++ out.

Lemma snapshot_step s open :
  ts_inv (s, open) -> let '(ts, s') := SnapshotAndPin s in step_ok (s, open) [] [] (s', map Table_Path ts :: open).
Proof.
  intros [H1 H2 H3 H4 H5]. cbn [fst snd] in *. unfold SnapshotAndPin. rewrite map_copy_meta. split; [|split; [constructor|done]].
  split; cbn [fst snd set_tables set_index set_pinned set_pending]; try done.
  - intros path. cbn [default from_option id concat]. rewrite pin_all_spec, H4, occ_app. lia.
  - intros path t E. destruct (H5 path t E) as (Ha & Hb & Hc). split; [done|]. split; [|done]. cbn [concat]. apply elem_of_app. by right.
Qed.

Lemma close_step s open i paths :
  ts_inv (s, open) -> open !! i = Some paths -> let '(ready, s') := Unpin s paths in step_ok (s, open) [] ready (s', delete i open).
Proof.
  intros [H1 H2 H3 H4 H5] Eo. cbn [fst snd] in *.
  pose proof (concat_perm _ _ (delete_Permutation open i paths Eo)) as Pc. cbn [concat] in Pc.
  assert (Hin : forall path, path ∈ concat open <-> path ∈ paths ++ concat (delete i open)) by (intros; by rewrite Pc).
  assert (Hocc : forall path, pin_count (default ∅ (set_pinned s)) path = occ path (paths ++ concat (delete i open))).
  { intros path. rewrite H4. unfold occ, zlen. by rewrite Pc. }
  unfold Unpin. destruct paths as [|p paths].
  { split; [|split; [constructor|by rewrite !app_nil_r]]. split; cbn [fst snd]; try done.
    intros path t E. destruct (H5 path t E) as (Ha & Hb%Hin & Hc). done. }
  destruct (set_pinned s) as [pinned|] eqn:Ep.
  2:{ exfalso. specialize (Hocc p). cbn in Hocc. rewrite occ_cons, bool_decide_true in Hocc by done.
      pose proof (occ_nonneg p (paths ++ concat (delete i open))). unfold pin_count in Hocc. rewrite lookup_empty in Hocc. cbn in Hocc. lia. }
  pose proof (unpin_loop_spec (p :: paths) pinned (set_pending s) (concat (delete i open)) Hocc) as Hu.
  destruct (unpin_loop (p :: paths) pinned (set_pending s)) as [ready [pinned' pending']]. destruct Hu as (U1 & U2 & U3 & U4).
  { intros path t E. destruct (H5 path t E) as (Ha & Hb%Hin & Hc). done. }
  split; [|split; [done|]].
  - split; cbn [fst snd set_tables set_index set_pinned set_pending]; try done.
    intros path t E. destruct (U2 path t E) as [E' Hr]. destruct (H5 path t E') as (Ha & _ & Hc). done.
  - cbn [fst set_tables set_pending]. rewrite app_nil_r, U3. rewrite <- app_assoc. by rewrite (Permutation_app_comm ready).
Qed.

Lemma edit_step s open e :
  ts_inv (s, open) -> edit_fresh s e -> let '(removed, s') := Set_Apply s e in step_ok (s, open) (Edit_Add e) removed (s', open).
Proof.
  intros [H1 H2 H3 H4 H5] [F1 F2]. cbn [fst snd] in *. unfold Set_Apply. rewrite map_copy_meta.
  set (loop := match Edit_RemovePath e with [] => _ | _ => _ end).
  assert (Hl : let '(kept, removed, pending') := loop in
    kept = filter (fun t => Table_Path t ∉ Edit_RemovePath e) (set_tables s) /\
    (forall t, t ∈ removed -> t ∈ set_tables s /\ pin_count (default ∅ (set_pinned s)) (Table_Path t) <= 0) /\
    (forall path t, pending' !! path = Some t ->
       set_pending s !! path = Some t \/ (t ∈ set_tables s /\ Table_Path t = path /\ path ∈ Edit_RemovePath e /\ 0 < pin_count (default ∅ (set_pinned s)) path)) /\
    set_tables s ++ values (set_pending s) ≡ₚ kept ++ removed ++ values pending').
  { subst loop. destruct (Edit_RemovePath e) as [|p remove].
    - split; [symmetry; apply list_filter_all; intros; apply not_elem_of_nil|]. split; [by intros ? ?%elem_of_nil|]. split; [by left|done].
    - pose proof (apply_loop_spec (p :: remove) (set_pinned s) (set_tables s) (set_pending s) H1) as Ha.
      destruct (apply_loop _ _ _ _) as [[kept removed] pending']. destruct Ha as (A1 & A2 & A3 & A4).
      { intros t Ht. destruct (set_pending s !! Table_Path t) as [t'|] eqn:E; [|done]. destruct (H5 _ _ E) as (_ & _ & Hc).
        destruct Hc. by apply list_elem_of_fmap_2. }
      split; [done|]. split; [intros t Ht; destruct (A2 t Ht) as (? & _ & ?); done|]. split; [|done]. intros path t. by rewrite A3. }
  destruct loop as [[kept removed] pending']. destruct Hl as (-> & L2 & L3 & L4). clear H2 H3.
  set (kept := filter _ _) in *. set (s1 := mkSet _ _ _ _).
  assert (Hsub : forall path, path ∈ map Table_Path kept -> path ∈ map Table_Path (set_tables s)).
  { intros path (t & -> & Ht)%list_elem_of_fmap. apply list_elem_of_fmap_2. by apply list_elem_of_filter in Ht as [_ Ht]. }
  assert (Hn1 : NoDup (map Table_Path (set_tables s1))).
  { cbn [s1 set_tables]. rewrite map_app. apply NoDup_app. split.
    - clear -H1. subst kept. induction (set_tables s) as [|t l IH]; [done|]. apply NoDup_cons in H1 as [Hn H1]. rewrite filter_cons.
      case_decide; [|by apply IH]. cbn. constructor; [|by apply IH]. intros (t' & E & Ht)%list_elem_of_fmap. apply Hn. rewrite E.
      apply list_elem_of_fmap_2. by apply list_elem_of_filter in Ht as [_ Ht].
    - split; [|done]. intros path Hp Hp2. apply (F2 path Hp2). unfold in_use. apply elem_of_app. left. auto. }
  destruct (rebuild_spec s1 Hn1) as (P & R1 & R2 & R3 & R4 & R5). split; [|split].
  - split; cbn [fst snd]; try done. rewrite R5. cbn [s1 set_pending]. intros path t E. rewrite P. cbn [s1 set_tables].
    assert (Hadd : path ∈ in_use s -> path ∉ map Table_Path (Edit_Add e)) by (intros Hu Ha; by apply (F2 path Ha)).
    rewrite map_app. rewrite not_elem_of_app. destruct (L3 path t E) as [E'|(Ht & <- & Hr & Hpin)].
    + destruct (H5 path t E') as (Ha & Hb & Hc). split; [done|]. split; [done|]. split; [auto|]. apply Hadd. unfold in_use.
      apply elem_of_app. right. rewrite <- Ha. apply list_elem_of_fmap_2. unfold values. apply list_elem_of_fmap. exists (path, t).
      split; [done|]. by apply elem_of_map_to_list.
    + split; [done|]. rewrite H4 in Hpin. apply occ_pos in Hpin. split; [done|]. split.
      * intros (t' & E1 & Ht')%list_elem_of_fmap. apply list_elem_of_filter in Ht' as [Hn _]. apply Hn. by rewrite <- E1.
      * apply Hadd. unfold in_use. apply elem_of_app. left. by apply list_elem_of_fmap_2.
  - apply Forall_forall. intros t Ht. destruct (L2 t Ht) as [_ Hp]. cbn [snd]. rewrite H4 in Hp. rewrite <- occ_pos. lia.
  - cbn [fst]. rewrite P, R5. cbn [s1 set_tables set_pending]. rewrite L4.
    rewrite <- !app_assoc. apply Permutation_app_head. etrans; [apply Permutation_app_comm|].
    rewrite (app_assoc (Edit_Add e)). apply Permutation_app_tail, Permutation_app_comm.
Qed.

Lemma apply_loop_kept remove pinned tables : forall pending,
  fst (fst (apply_loop remove pinned tables pending)) = filter (fun t => Table_Path t ∉ remove) tables.
Proof.
  induction tables as [|t tables IH]; intros pending; [done|]. cbn [apply_loop]. rewrite filter_cons.
  destruct (decide (Table_Path t ∈ remove)) as [Hr|Hr];
    [rewrite bool_decide_true, decide_False by (done || (intros ?; done))|rewrite bool_decide_false, decide_True by done].
  - case_bool_decide; [apply IH|]. specialize (IH pending). by destruct (apply_loop _ _ _ _) as [[? ?] ?].
  - specialize (IH pending). destruct (apply_loop _ _ _ _) as [[? ?] ?]. cbn in *. by f_equal.
Qed.

Lemma Set_Apply_tables s e :
  set_tables (snd (Set_Apply s e)) ≡ₚ filter (fun t => Table_Path t ∉ Edit_RemovePath e) (set_tables s) ++ Edit_Add e.
Proof.
  unfold Set_Apply. rewrite map_copy_meta. destruct (Edit_RemovePath e) as [|p remove] eqn:E.
  - cbn [snd]. rewrite list_filter_all by (intros; apply not_elem_of_nil). apply merge_sort_Permutation.
  - pose proof (apply_loop_kept (p :: remove) (set_pinned s) (set_tables s) (set_pending s)) as Hk.
    destruct (apply_loop _ _ _ _) as [[kept removed] pending]. cbn [fst snd] in *. subst kept. apply merge_sort_Permutation.
Qed.

Lemma apply_loop_removed remove pinned tables t : forall pending,
  t ∈ snd (fst (apply_loop remove pinned tables pending)) -> t ∈ tables /\ Table_Path t ∈ remove.
Proof.
  induction tables as [|x tables IH]; intros pending; cbn [apply_loop]; [by intros ?%elem_of_nil|].
  case_bool_decide as Hr; [case_bool_decide|].
  - intros [? ?]%IH. split; [by right|done].
  - specialize (IH pending). destruct (apply_loop _ _ _ _) as [[? ?] ?]. cbn [fst snd] in *. intros [->|Ht]%elem_of_cons; [by split; [left|]|].
    destruct (IH Ht). split; [by right|done].
  - specialize (IH pending). destruct (apply_loop _ _ _ _) as [[? ?] ?]. cbn [fst snd] in *. intros [? ?]%IH. split; [by right|done].
Qed.

Lemma Set_Apply_removed s e t : t ∈ fst (Set_Apply s e) -> t ∈ set_tables s /\ Table_Path t ∈ Edit_RemovePath e.
Proof.
  unfold Set_Apply. destruct (Edit_RemovePath e) as [|p remove]; [by intros ?%elem_of_nil|].
  pose proof (apply_loop_removed (p :: remove) (set_pinned s) (set_tables s) t (set_pending s)) as Hr.
  destruct (apply_loop _ _ _ _) as [[kept removed] pending]. exact Hr.
Qed.

Lemma Set_Apply_in_use s open e p :
  ts_inv (s, open) -> edit_fresh s e -> p ∈ in_use (snd (Set_Apply s e)) -> p ∈ in_use s \/ p ∈ map Table_Path (Edit_Add e).
Proof.
  intros Hi Hf. pose proof (edit_step s open e Hi Hf) as Hs. destruct (Set_Apply s e) as [removed s']. destruct Hs as (_ & _ & P).
  unfold in_use. rewrite <- !map_app. cbn [fst snd] in *. intros (t & -> & Ht)%list_elem_of_fmap.
  assert (Ht' : t ∈ (set_tables s' ++ values (set_pending s')) ++ removed) by (apply elem_of_app; by left).
  rewrite <- P in Ht'. apply elem_of_app in Ht' as [Ht'|Ht']; [left|right]; by apply list_elem_of_fmap_2.
Qed.

Lemma Resolve_spec s open metas :
  ts_inv (s, open) -> (forall m, m ∈ metas -> exists t, t ∈ set_tables s /\ Table_Meta t = m) ->
  exists ts, Resolve s metas = Ok (map Table_Handle ts) /\ map Table_Meta ts = metas /\ forall t, t ∈ ts -> t ∈ set_tables s.
Proof.
  intros Hi. induction metas as [|m metas IH]; intros Hm; [exists []; split; [done|]; split; [done|by intros ? ?%elem_of_nil]|].
  destruct IH as (ts & E & Et & Hin); [intros; apply Hm; by right|]. destruct (Hm m ltac:(by left)) as (t & Ht & <-).
  apply list_elem_of_lookup in Ht as [j Hj]. exists (t :: ts). cbn [Resolve map].
  assert (set_index s !! tm_Path (Table_Meta t) = Some j) as -> by (apply (ti_index _ Hi); by exists t).
  rewrite Hj, E. split; [done|]. split; [by rewrite Et|]. intros t' [->|Ht']%elem_of_cons; [by eapply list_elem_of_lookup_2|auto].
Qed.

Lemma Snapshot_metas s : Snapshot s = map Table_Meta (set_tables s).
Proof. unfold Snapshot. apply map_ext. intros t. apply TableMeta_Copy_id. Qed.

Lemma ts_step_ok st op :
  ts_inv st -> op_fresh st op ->
  let '(out, st') := ts_step st op in
  step_ok st (match op with TsEdit e => Edit_Add e | _ => [] end) out st'.
Proof.
  destruct st as [s open]. intros Hi Hf. destruct op as [|i|e]; cbn [ts_step].
  - pose proof (snapshot_step s open Hi) as Hs. by destruct (SnapshotAndPin s).
  - destruct (open !! i) as [paths|] eqn:E; [|by split; [|split; [constructor|]]].
    pose proof (close_step s open i paths Hi E) as Hs. by destruct (Unpin s paths).
  - pose proof (edit_step s open e Hi Hf) as Hs. by destruct (Set_Apply s e).
Qed.

Definition ops_added (ops : list ts_op) : list Table :=
  concat (map (fun op => match op with TsEdit e => Edit_Add e | _ => [] end) ops).

Lemma ts_run_ok ops : forall st,
  ts_inv st -> ops_fresh st ops ->
  let '(out, st') := ts_run st ops in
  ts_inv st' /\
  (set_tables (fst st) ++ values (set_pending (fst st))) ++ ops_added ops ≡ₚ
  (set_tables (fst st') ++ values (set_pending (fst st'))) ++ out.
Proof.
  induction ops as [|op ops IH]; intros st Hi Hf; cbn [ts_run ops_fresh] in *; [done|].
  destruct Hf as [Hf1 Hf]. pose proof (ts_step_ok st op Hi Hf1) as Hs. destruct (ts_step st op) as [out st1]. cbn [snd] in Hf.
  destruct Hs as (Hi1 & _ & P1). specialize (IH st1 Hi1 Hf). destruct (ts_run st1 ops) as [outs st2]. destruct IH as [Hi2 P2].
  split; [done|]. unfold ops_added in *. cbn [map concat]. rewrite app_assoc, P1.
  rewrite (Permutation_app_comm out outs), (app_assoc _ outs out), <- P2, <- !app_assoc. do 2 apply Permutation_app_head.
  apply Permutation_app_comm.
Qed.
End TableSet.
Arguments Table : clear implicits.
Arguments Edit : clear implicits.
Arguments Set_ : clear implicits.
Arguments ts_op : clear implicits.

(** C35. Pins protect tables and leak none.  Over any sequence of snapshots,
    closes and edits of a table set, in which edits add tables under new
    paths: the set stays in read order with an index that finds every table
    by its path; a table is handed out for deletion only when no open
    snapshot pins it; every table that was ever in the set is in it still,
    or waits for a pinned snapshot, or was handed out, exactly once; and when
    all snapshots are closed none waits. *)
Theorem tableset_pins {H} (tables : list (Table H)) ops op :
  NoDup (map Table_Path tables) -> ops_fresh (NewSet tables, []) ops ->
  let '(out, (s, open)) := ts_run (NewSet tables, []) ops in
  ts_inv (s, open) /\
  tables ++ ops_added ops ≡ₚ (set_tables s ++ values (set_pending s)) ++ out /\
  (open = [] -> set_pending s = ∅) /\
  (op_fresh (s, open) op ->
   let '(out', (_, open')) := ts_step (s, open) op in Forall (fun t => Table_Path t ∉ concat open') out').
Proof.
  intros Hn Hf. destruct (NewSet_inv tables Hn) as [Hi P].
  pose proof (ts_run_ok ops _ Hi Hf) as Hr. destruct (ts_run (NewSet tables, []) ops) as [out [s open]] eqn:E.
  destruct Hr as [Hi' Pr]. split; [done|]. split; [|split].
  - cbn [fst] in Pr. rewrite <- Pr, P. destruct tables; [done|]. cbn. by rewrite app_nil_r.
  - intros ->. apply map_empty. intros path. destruct (set_pending s !! path) as [t|] eqn:Ep; [|done].
    destruct (ti_pending _ Hi' path t Ep) as (_ & Hx%elem_of_nil & _). done.
  - intros Ho. pose proof (ts_step_ok (s, open) op Hi' Ho) as Hs. destruct (ts_step (s, open) op) as [out' [s' open']]. apply Hs.
Qed.

Definition demo_table (path : string) (seq : Z) : Table unit := mkTable (mkTableMeta path 0 [] [] seq seq 0) tt.

Lemma tableset_pins_witness :
  fst (ts_run (NewSet [demo_table "a" 1; demo_table "b" 2], [])
        [TsSnapshot; TsEdit (mkEdit [demo_table "c" 3] ["a"%string; "b"%string]); TsSnapshot; TsClose 1]) = [demo_table "b" 2; demo_table "a" 1] /\
  let '(out, (s, open)) := ts_run (NewSet [demo_table "a" 1; demo_table "b" 2], [])
        [TsSnapshot; TsEdit (mkEdit [demo_table "c" 3] ["a"%string; "b"%string])] in
  ts_inv (s, open) /\
  [demo_table "a" 1; demo_table "b" 2] ++ [demo_table "c" 3] ≡ₚ (set_tables s ++ values (set_pending s)) ++ out /\
  (open = [] -> set_pending s = ∅) /\
  (op_fresh (s, open) (TsClose 0) ->
   let '(out', (_, open')) := ts_step (s, open) (TsClose 0) in Forall (fun t => Table_Path t ∉ concat open') out').
Proof.
  split; [vm_compute; reflexivity|].
  apply (tableset_pins [demo_table "a" 1; demo_table "b" 2] [TsSnapshot; TsEdit (mkEdit [demo_table "c" 3] ["a"%string; "b"%string])] (TsClose 0)).
  - decided.
  - split; [done|]. split; [|done]. split; [decided|]. intros path ->%list_elem_of_singleton. decided.
Defined.
