(* ===== verification/Compaction.v ===== *)
(** * Compaction

    The merge of a compaction run (internal/lsm/compaction/runner), the
    strict levelled planner (strategy) and the grouping of tables by level
    (state.go). *)

From Stdlib Require Import ZArith Lia Strings.String.
From stdpp Require Import base list sorting gmap strings.
From S2P Require Import Prelude Heap Merge TableSet.
Local Open Scope Z_scope.

(** ** The merge *)

Section Runner.
Context {I : Type} `{EntryIterator I}.

Record mergeItem := mkMergeItem { mi_iter : I; mi_entry : Entry }.

(** [mergeHeap.Less]: by key, then the newest first, then tombstones first. *)
Definition mergeHeap_Less (a b : mergeItem) : bool :=
  let ea := mi_entry a in let eb := mi_entry b in
  match bytes_compare (Key ea) (Key eb) with
  | Lt => true
  | Gt => false
  | Eq =>
      if bool_decide (Seq ea <> Seq eb) then bool_decide (Seq eb < Seq ea)
      else if bool_decide (Tombstone ea <> Tombstone eb) then Tombstone ea
      else false
  end.

(** The first entry of every iterator that has one. *)
Fixpoint init_items (iters : list I) : result (list mergeItem) :=
  match iters with
  | [] => Ok []
  | it :: iters =>
      '(more, it) ← iter_Next it;
      if (more : bool) then
        items ← init_items iters;
        Ok (mkMergeItem it (iter_Entry it) :: items)
      else
        match iter_Err it with
        | Some e => Err e
        | None => init_items iters
        end
  end.

(** The newer of two versions of a key. *)
Definition better (best e : Entry) : Entry :=
  if bool_decide (Seq best < Seq e) then e
  else if bool_decide (Seq e = Seq best) && Tombstone e && negb (Tombstone best) then e
  else best.

(** The loop of [advanceIterator]: one entry per round. *)
Fixpoint advanceIterator (fuel : nat) (it : I) (key : bytes) : result (option mergeItem) :=
  match fuel with
  | O => NoFuel
  | S fuel =>
      '(more, it) ← iter_Next it;
      if (more : bool) then
        if bool_decide (Key (iter_Entry it) = key) then advanceIterator fuel it key
        else Ok (Some (mkMergeItem it (iter_Entry it)))
      else
        match iter_Err it with
        | Some e => Err e
        | None => Ok None
        end
  end.

Fixpoint advance_group (fuel : nat) (group : list mergeItem) (key : bytes) (h : list mergeItem) : result (list mergeItem) :=
  match group with
  | [] => Ok h
  | g :: group =>
      next ← advanceIterator fuel (mi_iter g) key;
      advance_group fuel group key (match next with Some item => Push mergeHeap_Less h item | None => h end)
  end.

(** The main loop: a round per key. *)
Fixpoint merge_loop (fuel : nat) (dropTombstones : bool) (h : list mergeItem) : result (list Entry) :=
  match fuel with
  | O => NoFuel
  | S fuel =>
      match Pop mergeHeap_Less h with
      | None => Ok []
      | Some (item, h) =>
          let key := Key (mi_entry item) in
          let '(group, h) := pop_group mergeHeap_Less mi_entry key h in
          let best := fold_left (fun b g => better b (mi_entry g)) group (mi_entry item) in
          h ← advance_group (S fuel) (item :: group) key h;
          out ← merge_loop fuel dropTombstones h;
          Ok (if Tombstone best && dropTombstones then out else best :: out)
      end
  end.

Definition mergeEntries (fuel : nat) (iters : list I) (dropTombstones : bool) : result (list Entry) :=
  h ← init_items iters;
  merge_loop fuel dropTombstones (Init mergeHeap_Less h).

(** *** What the merge computes *)

(** [x] is newer than [e]: a higher sequence number, or a tombstone of the
    same one. *)
Definition newer (x e : Entry) : Prop := Seq e < Seq x \/ (Seq x = Seq e /\ Tombstone x = true /\ Tombstone e = false).

(** A newest version of a key among some entries. *)
Definition is_newest (all : list Entry) (k : bytes) (e : Entry) : Prop :=
  e ∈ all /\ Key e = k /\ forall x, x ∈ all -> Key x = k -> ~ newer x e.

(** A run with the newest version of every key, without the keys whose
    newest version is a tombstone if these are dropped. *)
Record merged (drop : bool) (all out : list Entry) : Prop := {
  mg_sorted : sorted_run out;
  mg_newest : forall e, e ∈ out -> is_newest all (Key e) e /\ (Tombstone e && drop) = false;
  mg_all : forall x, x ∈ all -> (exists e, e ∈ out /\ Key e = Key x) \/ (drop = true /\ exists e, is_newest all (Key x) e /\ Tombstone e = true)
}.

Ltac newer_solver :=
  unfold newer in *;
  repeat match goal with
         | |- context [Tombstone ?e] => destruct (Tombstone e) eqn:?
         | H : context [Tombstone ?e] |- _ => lazymatch type of H with Tombstone e = _ => fail | _ => destruct (Tombstone e) eqn:? end
         end;
  intuition (first [congruence | lia]).

Lemma better_spec b e : (better b e = b \/ better b e = e) /\ ~ newer b (better b e) /\ ~ newer e (better b e).
Proof.
  unfold better. destruct (decide (Seq b < Seq e)) as [E|E]; [rewrite bool_decide_true by done; newer_solver|].
  rewrite (bool_decide_false _ E). case_bool_decide as E2; cbn [andb]; [|newer_solver].
  destruct (Tombstone e) eqn:Te, (Tombstone b) eqn:Tb; cbn [andb negb]; newer_solver.
Qed.

Lemma newer_trans_not a b c : ~ newer a b -> ~ newer b c -> ~ newer a c.
Proof. intros H1 H2 H3. newer_solver. Qed.

Lemma newer_irrefl a : ~ newer a a.
Proof. intros H1. newer_solver. Qed.

Lemma newer_asym a b : newer a b -> ~ newer b a.
Proof. intros H1 H2. newer_solver. Qed.

Lemma best_spec group : forall b,
  let best := fold_left (fun b g => better b (mi_entry g)) group b in
  best ∈ b :: map mi_entry group /\ Forall (fun x => ~ newer x best) (b :: map mi_entry group).
Proof.
  induction group as [|g group IH]; intros b; cbn [fold_left map].
  - split; [by left|]. constructor; [apply newer_irrefl|constructor].
  - destruct (IH (better b (mi_entry g))) as [H1 H2]. destruct (better_spec b (mi_entry g)) as (H3 & H4 & H5).
    apply Forall_cons in H2 as [H2 H2']. split.
    + apply elem_of_cons in H1 as [->|H1]; [destruct H3 as [->| ->]; set_solver|set_solver].
    + constructor; [by eapply newer_trans_not|]. constructor; [by eapply newer_trans_not|done].
Qed.

Lemma Less_le_iff a b :
  le mergeHeap_Less a b <->
  Key (mi_entry a) ≺ Key (mi_entry b) \/ (Key (mi_entry a) = Key (mi_entry b) /\ ~ newer (mi_entry b) (mi_entry a)).
Proof.
  unfold le, mergeHeap_Less. destruct (bytes_compare (Key (mi_entry b)) (Key (mi_entry a))) eqn:E.
  - rewrite bytes_compare_Eq in E. rewrite E. assert (~ Key (mi_entry a) ≺ Key (mi_entry a)) by apply bytes_lt_irrefl.
    transitivity (~ newer (mi_entry b) (mi_entry a)); [|tauto]. case_bool_decide as E1.
    + rewrite bool_decide_eq_false. newer_solver.
    + case_bool_decide; newer_solver.
  - rewrite bytes_compare_Lt in E. split; [done|]. intros [H1|[H1 _]]; exfalso; [bytes_order|].
    rewrite H1 in E. by apply bytes_lt_irrefl in E.
  - rewrite bytes_compare_Gt in E. split; [by left|done].
Qed.

Lemma Less_trans : Transitive (le mergeHeap_Less).
Proof.
  intros a b c. rewrite !Less_le_iff. intros [H1|[H1 H1']] [H2|[H2 H2']].
  - left. bytes_order.
  - left. by rewrite <- H2.
  - left. by rewrite H1.
  - right. split; [congruence|]. by eapply newer_trans_not.
Qed.

Lemma Less_le a b : mergeHeap_Less a b = true -> le mergeHeap_Less a b.
Proof.
  intros E. assert (H1 : ~ le mergeHeap_Less b a) by (unfold le; congruence). rewrite Less_le_iff in H1 |- *.
  destruct (bytes_compare (Key (mi_entry a)) (Key (mi_entry b))) eqn:Ec;
    [rewrite bytes_compare_Eq in Ec|rewrite bytes_compare_Lt in Ec; by left|rewrite bytes_compare_Gt in Ec; tauto].
  right. split; [done|]. intros Hn. apply H1. right. split; [done|]. by apply newer_asym.
Qed.

Lemma Less_key a b : le mergeHeap_Less a b -> Key (mi_entry a) ⪯ Key (mi_entry b).
Proof. rewrite Less_le_iff. intros [H1|[-> _]]; bytes_order. Qed.

Lemma merged_perm drop out a b : a ≡ₚ b -> merged drop a out -> merged drop b out.
Proof.
  intros P [H1 H2 H3]. assert (Hn : forall k e, is_newest a k e -> is_newest b k e).
  { intros k e (Hi & Hk & Hx). split; [by rewrite <- P|]. split; [done|]. intros x. rewrite <- P. apply Hx. }
  split; [done|intros e He; destruct (H2 e He); auto|]. intros x Hx. rewrite <- P in Hx.
  destruct (H3 x Hx) as [?|(? & e & ? & ?)]; [by left|right; eauto].
Qed.

(** *** The loops *)

(** An item stands for its entry and what its iterator still delivers. *)
Definition item_rep (item : mergeItem) (s : stream) : Prop :=
  exists rest, fst s = mi_entry item :: rest /\ yields (mi_iter item) rest (snd s).

Definition entries_of (ss : list stream) : list Entry := concat (map fst ss).

(** What is left of streams after their first entries. *)
Definition tails (ss : list stream) : list stream :=
  omap (fun s => match fst s with _ :: e :: rest => Some (e :: rest, snd s) | _ => None end) ss.

Lemma tails_cons s e rest ss :
  fst s = e :: rest -> tails (s :: ss) = match rest with [] => tails ss | _ => (rest, snd s) :: tails ss end.
Proof. intros E. unfold tails. cbn. rewrite E. by destruct rest. Qed.

Lemma advanceIterator_spec fuel it key rest err :
  yields it rest err -> Forall (fun e => key ≺ Key e) rest ->
  match rest, err with
  | _ :: _, _ => exists item, advanceIterator (S fuel) it key = Ok (Some item) /\ item_rep item (rest, err)
  | [], Some e => advanceIterator (S fuel) it key = Err e
  | [], None => advanceIterator (S fuel) it key = Ok None
  end.
Proof.
  intros Hy Hk. destruct rest as [|e rest]; cbn [yields advanceIterator] in *.
  - destruct Hy as (it' & -> & E). cbn [mbind result_bind]. rewrite E. by destruct err.
  - destruct Hy as (it' & -> & <- & Hy). apply Forall_inv in Hk. eexists. cbn [mbind result_bind].
    rewrite bool_decide_false; [split; [done|]; by exists rest|]. intros E. rewrite E in Hk. by apply bytes_lt_irrefl in Hk.
Qed.

Lemma advance_group_spec fuel key group gg : forall h gs,
  Forall2 item_rep group gg -> Forall (fun s => sorted_run (fst s)) gg ->
  Forall (fun x => Key (mi_entry x) = key) group ->
  heap mergeHeap_Less h -> Forall2 item_rep h gs ->
  (exists h' gs', advance_group (S fuel) group key h = Ok h' /\ heap mergeHeap_Less h' /\ Forall2 item_rep h' gs' /\
     gs' ≡ₚ tails gg ++ gs /\ Forall (fun s => length (fst s) <= 1 -> snd s = None)%nat gg) \/
  (exists e, advance_group (S fuel) group key h = Err e /\ Some e ∈ map snd gg).
Proof.
  intros h gs Hg. revert h gs. induction Hg as [|g s group gg (rest & Es & Hy) Hg IH]; intros h gs Hs Hk Hh Hr; cbn [advance_group].
  { left. exists h, gs. by split_and!. }
  apply Forall_cons in Hs as [Hs1 Hs]. apply Forall_cons in Hk as [Hk1 Hk]. rewrite Es in Hs1.
  apply StronglySorted_inv in Hs1 as [_ Hr1].
  assert (Hlt : Forall (fun e => key ≺ Key e) rest) by (eapply Forall_impl; [exact Hr1|]; intros x Hx; by rewrite <- Hk1).
  pose proof (advanceIterator_spec fuel _ key rest (snd s) Hy Hlt) as Ha.
  destruct rest as [|e1 rest]; [destruct (snd s) as [err|] eqn:Ee|].
  - rewrite Ha. right. exists err. split; [done|]. cbn. rewrite Ee. by left.
  - rewrite Ha. cbn [mbind result_bind]. destruct (IH h gs Hs Hk Hh Hr) as [(h' & gs' & E & H1 & H2 & P & H3)|(e & E & Hin)].
    + left. exists h', gs'. split; [done|]. split; [done|]. split; [done|]. split; [|by constructor].
      by rewrite (tails_cons _ _ _ _ Es).
    + right. exists e. split; [done|]. by right.
  - destruct Ha as (item & -> & Hi). cbn [mbind result_bind].
    destruct (Push_spec mergeHeap_Less Less_trans Less_le h item Hh) as [Hp Pp].
    destruct (Permutation_Forall2 (symmetry Pp) (proj2 (Forall2_cons _ _ _ _ _) (conj Hi Hr))) as (gs1 & P1 & Hr1').
    destruct (IH _ gs1 Hs Hk Hp Hr1') as [(h' & gs' & E & H1 & H2 & P & H3)|(e & E & Hin)].
    + left. exists h', gs'. split; [done|]. split; [done|]. split; [done|]. split.
      * rewrite (tails_cons _ _ _ _ Es), P, <- P1. by rewrite <- Permutation_middle.
      * constructor; [|done]. rewrite Es. cbn. lia.
    + right. exists e. split; [done|]. by right.
Qed.

(** Adding the newest version of the least key to a merge of the rest. *)
Lemma merged_cons drop k best fronts rest all out :
  all ≡ₚ fronts ++ rest -> Forall (fun e => Key e = k) fronts -> Forall (fun e => k ≺ Key e) rest ->
  best ∈ fronts -> Forall (fun x => ~ newer x best) fronts -> merged drop rest out ->
  merged drop all (if Tombstone best && drop then out else best :: out).
Proof.
  intros P Hf Hr Hb Hn [Hs Ho Ha]. rewrite Forall_forall in Hf, Hr, Hn.
  assert (Hin : forall x, x ∈ all <-> x ∈ fronts \/ x ∈ rest) by (intros x; rewrite P; apply elem_of_app).
  assert (Hlt : forall x, x ∈ rest -> Key x <> k) by (intros x Hx E; specialize (Hr x Hx); rewrite E in Hr; by apply bytes_lt_irrefl in Hr).
  assert (Hbest : is_newest all k best).
  { split; [apply Hin; by left|]. split; [by apply Hf|]. intros x [Hx|Hx]%Hin Hk; [by apply Hn|by destruct (Hlt x Hx)]. }
  assert (Hrest : forall k' e, is_newest rest k' e -> is_newest all k' e).
  { intros k' e (H1 & H2 & H3). split; [apply Hin; by right|]. split; [done|]. intros x [Hx|Hx]%Hin Hk; [|by apply H3].
    exfalso. apply (Hlt e H1). by rewrite H2, <- Hk, (Hf x Hx). }
  assert (Hout : forall e, e ∈ out -> is_newest all (Key e) e /\ (Tombstone e && drop) = false).
  { intros e He. destruct (Ho e He) as [H1 H2]. auto. }
  assert (Hrall : forall x (o : list Entry), x ∈ rest -> (forall e, e ∈ out -> e ∈ o) ->
    (exists e, e ∈ o /\ Key e = Key x) \/ (drop = true /\ exists e, is_newest all (Key x) e /\ Tombstone e = true)).
  { intros x o Hx Hsub. destruct (Ha x Hx) as [(e & H1 & H2)|(-> & e & H1 & H2)]; [left; eauto|]. right. eauto. }
  destruct (Tombstone best && drop) eqn:E.
  - split; [done|done|]. intros x [Hx|Hx]%Hin; [|by apply Hrall]. right. apply andb_true_iff in E as [E1 E2].
    split; [done|]. exists best. by rewrite (Hf x Hx).
  - split.
    + constructor; [done|]. apply Forall_forall. intros e He. destruct (Ho e He) as [(H1 & _) _]. unfold key_lt.
      rewrite (Hf best Hb). by apply Hr.
    + intros e [->|He]%elem_of_cons; [|by apply Hout]. by rewrite (Hf best Hb).
    + intros x [Hx|Hx]%Hin; [|apply Hrall; [done|by right]]. left. exists best. split; [by left|]. by rewrite (Hf x Hx), (Hf best Hb).
Qed.

Lemma tails_entries group gg :
  Forall2 item_rep group gg -> entries_of gg ≡ₚ map mi_entry group ++ entries_of (tails gg).
Proof.
  unfold entries_of. induction 1 as [|g s group gg (rest & Es & _) _ IH]; [done|]. cbn [map concat].
  rewrite (tails_cons _ _ _ _ Es), Es. destruct rest as [|e rest]; cbn [app map concat fst]; [by rewrite IH|].
  rewrite IH. constructor. rewrite !app_comm_cons, !app_assoc. apply Permutation_app_tail.
  apply (Permutation_app_comm (e :: rest)).
Qed.

Lemma tails_sorted gg : Forall (fun s => sorted_run (fst s)) gg -> Forall (fun s => sorted_run (fst s)) (tails gg).
Proof.
  intros Hs. apply Forall_forall. intros s (s0 & Hin & E)%list_elem_of_omap. rewrite Forall_forall in Hs. specialize (Hs s0 Hin).
  destruct (fst s0) as [|e [|e' rest]]; try done. injection E as <-. by apply StronglySorted_inv in Hs as [Hs _].
Qed.

Lemma tails_above key group gg :
  Forall2 item_rep group gg -> Forall (fun s => sorted_run (fst s)) gg -> Forall (fun x => Key (mi_entry x) = key) group ->
  Forall (fun e => key ≺ Key e) (entries_of (tails gg)).
Proof.
  unfold entries_of. induction 1 as [|g s group gg (rest & Es & _) _ IH]; intros Hs Hk; [constructor|].
  apply Forall_cons in Hs as [Hs1 Hs]. apply Forall_cons in Hk as [Hk1 Hk]. specialize (IH Hs Hk). rewrite (tails_cons _ _ _ _ Es).
  rewrite Es in Hs1. apply StronglySorted_inv in Hs1 as [_ Hr]. destruct rest as [|e rest]; [done|].
  cbn [map concat fst]. apply Forall_app. split; [|done]. eapply Forall_impl; [exact Hr|]. intros x Hx. by rewrite <- Hk1.
Qed.

Lemma items_above key h gs :
  Forall2 item_rep h gs -> Forall (fun s => sorted_run (fst s)) gs -> Forall (fun x => key ≺ Key (mi_entry x)) h ->
  Forall (fun e => key ≺ Key e) (entries_of gs).
Proof.
  unfold entries_of. induction 1 as [|g s h gs (rest & Es & _) _ IH]; intros Hs Hk; [constructor|].
  apply Forall_cons in Hs as [Hs1 Hs]. apply Forall_cons in Hk as [Hk1 Hk]. cbn [map concat]. apply Forall_app. split; [|by apply IH].
  rewrite Es in *. apply StronglySorted_inv in Hs1 as [_ Hr]. constructor; [done|]. eapply Forall_impl; [exact Hr|].
  intros x Hx. unfold key_lt in Hx. bytes_order.
Qed.

Lemma tails_errors gg :
  Forall (fun s => snd s = None) (tails gg) -> Forall (fun s => length (fst s) <= 1 -> snd s = None)%nat gg ->
  Forall (fun s => snd s = None) gg.
Proof.
  intros H1 H2. apply Forall_forall. intros s Hs. rewrite Forall_forall in H1, H2. destruct (fst s) as [|e [|e' rest]] eqn:Es.
  1,2: apply H2; [done|rewrite Es; cbn; lia].
  apply (H1 (e' :: rest, snd s)). apply list_elem_of_omap. exists s. by rewrite Es.
Qed.

Lemma tails_errors_sub gg x : x ∈ map snd (tails gg) -> x ∈ map snd gg.
Proof.
  intros (s & -> & (s0 & Hin & E)%list_elem_of_omap)%list_elem_of_fmap.
  destruct (fst s0) as [|e [|e' rest]]; try done. injection E as <-. cbn [snd]. by apply list_elem_of_fmap_2.
Qed.

Lemma merge_loop_spec drop fuel : forall h gs,
  heap mergeHeap_Less h -> Forall2 item_rep h gs -> Forall (fun s => sorted_run (fst s)) gs ->
  (length (entries_of gs) < fuel)%nat ->
  (exists out, merge_loop fuel drop h = Ok out /\ merged drop (entries_of gs) out /\ Forall (fun s => snd s = None) gs) \/
  (exists e, merge_loop fuel drop h = Err e /\ Some e ∈ map snd gs).
Proof.
  induction fuel as [|fuel IH]; intros h gs Hh Hr Hs Hf; [lia|]. cbn [merge_loop].
  destruct (decide (h = [])) as [->|Hne].
  { apply Forall2_nil_inv_l in Hr as ->. left. exists []. split; [done|]. split; [|done]. split; [constructor|by intros ? ?%elem_of_nil..]. }
  destruct (Pop_group _ mi_entry Less_trans Less_le Less_key h Hh Hne) as (item & h1 & group & h' & -> & -> & P & Hh' & Hk & Hk').
  destruct (Permutation_Forall2 P Hr) as (gs1 & P1 & Hr1). rewrite app_comm_cons in Hr1.
  apply Forall2_app_inv_l in Hr1 as (gg & gs2 & Hg & Hr2 & ->). set (key := Key (mi_entry item)) in *.
  rewrite P1 in Hs. apply Forall_app in Hs as [Hsg Hs2].
  destruct (advance_group_spec fuel key (item :: group) gg h' gs2 Hg Hsg (Forall_cons_2 _ _ _ eq_refl Hk) Hh' Hr2)
    as [(h2 & gs3 & -> & Hh2 & Hr3 & P3 & Hnone)|(e & -> & Hin)]; cbn [mbind result_bind].
  2:{ right. exists e. split; [done|]. rewrite P1, map_app. apply elem_of_app. by left. }
  assert (Pe : entries_of gs ≡ₚ map mi_entry (item :: group) ++ entries_of gs3).
  { unfold entries_of. rewrite P1, P3, !map_app, !concat_app. fold (entries_of gg). rewrite (tails_entries _ _ Hg). by rewrite <- app_assoc. }
  assert (Hs3 : Forall (fun s => sorted_run (fst s)) gs3) by (rewrite P3; apply Forall_app; split; [by apply tails_sorted|done]).
  destruct (IH h2 gs3 Hh2 Hr3 Hs3) as [(out & -> & Hm & Hn3)|(e & -> & Hin)].
  { rewrite Pe, length_app in Hf. cbn in Hf. lia. }
  - left. eexists. split; [reflexivity|]. rewrite P3 in Hn3. apply Forall_app in Hn3 as [Hn3 Hn2]. split.
    + destruct (best_spec group (mi_entry item)) as [Hb1 Hb2].
      apply (merged_cons drop key _ (map mi_entry (item :: group)) (entries_of gs3) _ _ Pe); [| |done|done|done].
      * apply Forall_map. by constructor.
      * unfold entries_of. rewrite P3, map_app, concat_app. apply Forall_app.
        split; [by apply (tails_above key (item :: group)); [|done|constructor]|by apply (items_above key h')].
    + rewrite P1. apply Forall_app. split; [by apply tails_errors|done].
  - right. exists e. split; [done|]. rewrite P3, map_app in Hin. rewrite P1, map_app. rewrite !elem_of_app in *.
    destruct Hin as [Hin|Hin]; [left; by apply tails_errors_sub|by right].
Qed.

Lemma init_items_spec iters ss :
  Forall2 (fun it s => yields it (fst s) (snd s)) iters ss ->
  (exists h gs, init_items iters = Ok h /\ Forall2 item_rep h gs /\ gs = filter (fun s : stream => fst s <> []) ss /\
     Forall (fun s => fst s = [] -> snd s = None) ss) \/
  (exists e, init_items iters = Err e /\ Some e ∈ map snd ss).
Proof.
  induction 1 as [|it s iters ss Hy _ IH]; cbn [init_items]; [left; by exists [], []|].
  destruct (fst s) as [|e es] eqn:Es; cbn [yields] in Hy.
  - destruct Hy as (it' & -> & E). cbn [mbind result_bind]. rewrite E. destruct (snd s) as [err|] eqn:Ee.
    { right. exists err. split; [done|]. cbn. rewrite Ee. by left. }
    destruct IH as [(h & gs & -> & H1 & -> & H2)|(e & -> & Hin)]; [left|right; exists e; split; [done|]; by right].
    exists h, (filter (fun s : stream => fst s <> []) ss). rewrite filter_cons_False by (rewrite Es; tauto). by split_and!; [..|constructor].
  - destruct Hy as (it' & -> & <- & Hy). cbn [mbind result_bind].
    destruct IH as [(h & gs & -> & H1 & -> & H2)|(e & -> & Hin)]; [left|right; exists e; split; [done|]; by right].
    eexists _, (s :: filter (fun s : stream => fst s <> []) ss). split; [reflexivity|]. rewrite filter_cons_True by (by rewrite Es). split; [|split; [done|]].
    + constructor; [|done]. exists es. by rewrite Es.
    + constructor; [by rewrite Es|done].
Qed.

Lemma nonempty_entries ss : entries_of (filter (fun s : stream => fst s <> []) ss) = entries_of ss.
Proof.
  unfold entries_of. induction ss as [|s ss IH]; [done|]. rewrite filter_cons. case_decide as E; cbn [map concat]; [by rewrite IH|].
  destruct (fst s); [exact IH|naive_solver].
Qed.

Lemma mergeEntries_spec drop fuel iters ss :
  Forall2 (fun it s => yields it (fst s) (snd s)) iters ss -> Forall (fun s => sorted_run (fst s)) ss ->
  (length (entries_of ss) < fuel)%nat ->
  (exists out, mergeEntries fuel iters drop = Ok out /\ merged drop (entries_of ss) out /\ Forall (fun s => snd s = None) ss) \/
  (exists e, mergeEntries fuel iters drop = Err e /\ Some e ∈ map snd ss).
Proof.
  intros Hy Hs Hf. unfold mergeEntries. destruct (init_items_spec iters ss Hy) as [(h & gs & -> & Hr & Eg & Hn)|(e & -> & Hin)].
  2:{ right. by exists e. }
  cbn [mbind result_bind]. destruct (Init_spec mergeHeap_Less Less_trans Less_le h) as [Hh Pi].
  destruct (Permutation_Forall2 (symmetry Pi) Hr) as (gs' & P & Hr').
  assert (Pe : entries_of gs' ≡ₚ entries_of ss) by (unfold entries_of at 1; rewrite <- P, Eg; fold (entries_of (filter (fun s : stream => fst s <> []) ss)); by rewrite nonempty_entries).
  assert (Hsub : forall s, s ∈ gs' -> s ∈ ss) by (intros s; rewrite <- P, Eg, list_elem_of_filter; tauto).
  rewrite Forall_forall in Hs, Hn. destruct (merge_loop_spec drop fuel _ gs' Hh Hr') as [(out & -> & Hm & Ho)|(e & -> & Hin)].
  - apply Forall_forall. auto.
  - by rewrite Pe.
  - left. exists out. split; [done|]. split; [by apply (merged_perm drop out _ _ Pe)|].
    apply Forall_forall. intros s Hin. destruct (decide (fst s = [])) as [E|E]; [by apply Hn|].
    rewrite Forall_forall in Ho. apply Ho. rewrite <- P, Eg. by apply list_elem_of_filter.
  - right. exists e. split; [done|]. apply list_elem_of_fmap in Hin as (s & -> & Hin). apply list_elem_of_fmap_2. auto.
Qed.
End Runner.

(** ** Levels *)

Record Level := mkLevel { Level_ID : Z; Level_Tables : list TableMeta }.

Record Plan := mkCompactionPlan { Plan_Inputs : list TableMeta; Plan_OutputLevel : Z; Plan_Reason : string }.

Definition group_levels (metas : list TableMeta) : gmap Z (list TableMeta) :=
  fold_left (fun m meta => <[tm_Level meta := default [] (m !! tm_Level meta) ++ [meta]]> m) metas ∅.

Definition level_le (a b : Level) : Prop := Level_ID a <= Level_ID b.
#[export] Instance level_le_dec a b : Decision (level_le a b).
Proof. unfold level_le. apply _. Defined.

(** [StateFromMetas]: the map's order does not matter, its keys differ. *)
Definition StateFromMetas (metas : list TableMeta) : list Level :=
  merge_sort level_le (map (fun '(level, tables) => mkLevel level tables) (map_to_list (group_levels metas))).

(** ** The strict levelled planner *)

Record StrictLevelledPlanner := mkPlanner {
  L0FileThreshold : Z;
  LevelBaseBytes : Z;
  LevelMultiplier : Z
}.

Definition levelByID (levels : list Level) (id : Z) : option Level := find (fun l => bool_decide (Level_ID l = id)) levels.

Definition levelSizeBytes (tables : list TableMeta) : Z := fold_left (fun total t => u64 (total + tm_SizeBytes t)) tables 0.

(** [for i := 1; i < level; i++ { target = target * uint64(multiplier) }] *)
Definition levelTargetBytes (base multiplier level : Z) : Z :=
  if bool_decide (base = 0 \/ level <= 0) then 0
  else Nat.iter (Z.to_nat (level - 1)) (fun target => u64 (target * u64 multiplier)) base.

Definition rangesOverlap (aMin aMax bMin bMax : bytes) : bool :=
  if bool_decide (aMin = [] \/ aMax = [] \/ bMin = [] \/ bMax = []) then true
  else if bool_decide (bytes_compare aMax bMin = Lt) then false
  else if bool_decide (bytes_compare bMax aMin = Lt) then false
  else true.

Definition metas_overlap (a b : TableMeta) : bool := rangesOverlap (tm_MinKey a) (tm_MaxKey a) (tm_MinKey b) (tm_MaxKey b).

Definition overlapTables (level : option Level) (inputs : list TableMeta) : list TableMeta :=
  match level with
  | None => []
  | Some level => filter (fun table => existsb (fun i => metas_overlap i table) inputs = true) (Level_Tables level)
  end.

Fixpoint dedupe_loop (seen : gset string) (metas : list TableMeta) : list TableMeta :=
  match metas with
  | [] => []
  | t :: metas =>
      if bool_decide (tm_Path t ∈ seen) then dedupe_loop seen metas
      else t :: dedupe_loop ({[tm_Path t]} ∪ seen) metas
  end.
Definition dedupe (metas : list TableMeta) : list TableMeta := dedupe_loop ∅ metas.

Definition plan_level (levels : list Level) (tables : list TableMeta) (level : Z) (reason : string) : Plan :=
  mkCompactionPlan (dedupe (tables ++ overlapTables (levelByID levels (level + 1)) tables)) (level + 1) reason.

(** [for level := 1; ; level++]: ends at the first level that is missing. *)
Fixpoint plan_sizes (fuel : nat) (p : StrictLevelledPlanner) (multiplier : Z) (levels : list Level) (level : Z) : result (option Plan) :=
  match fuel with
  | O => NoFuel
  | S fuel =>
      match levelByID levels level with
      | None => Ok None
      | Some lvl =>
          let limit := levelTargetBytes (LevelBaseBytes p) multiplier level in
          if bool_decide (limit = 0) then plan_sizes fuel p multiplier levels (level + 1)
          else if bool_decide (limit < levelSizeBytes (Level_Tables lvl)) then
            Ok (Some (plan_level levels (Level_Tables lvl) level "level size exceeded"))
          else plan_sizes fuel p multiplier levels (level + 1)
      end
  end.

Definition Planner_Next (p : StrictLevelledPlanner) (levels : list Level) : result (option Plan) :=
  let full l0 := bool_decide (0 < L0FileThreshold p /\ L0FileThreshold p <= zlen (Level_Tables l0)) in
  match l0 ← levelByID levels 0; if full l0 then Some l0 else None with
  | Some l0 => Ok (Some (plan_level levels (Level_Tables l0) 0 "l0 file threshold exceeded"))
  | None =>
      if bool_decide (LevelBaseBytes p = 0) then Ok None
      else plan_sizes (S (length levels)) p (if bool_decide (LevelMultiplier p <= 0) then 10 else LevelMultiplier p) levels 1
  end.

(** *** Facts *)

(** The tables of a level, in their order. *)
Definition at_level (l : Z) (metas : list TableMeta) : list TableMeta := filter (fun m => tm_Level m = l) metas.

Lemma group_levels_from metas : forall (m : gmap Z (list TableMeta)) (l : Z),
  fold_left (fun m meta => <[tm_Level meta := default [] (m !! tm_Level meta) ++ [meta]]> m) metas m !! l
  = match at_level l metas with [] => m !! l | ts => Some (default [] (m !! l) ++ ts) end.
Proof.
  unfold at_level. induction metas as [|meta metas IH]; intros m l; [done|]. cbn [fold_left]. rewrite IH. clear IH. rewrite filter_cons.
  destruct (decide (tm_Level meta = l)) as [<-|Hne].
  - rewrite lookup_insert_eq. cbn [default from_option id]. destruct (filter _ metas); [done|]. by rewrite <- app_assoc.
  - by rewrite lookup_insert_ne.
Qed.

Lemma group_levels_lookup metas l : group_levels metas !! l = match at_level l metas with [] => None | ts => Some ts end.
Proof. unfold group_levels. rewrite group_levels_from, lookup_empty. by destruct (at_level l metas). Qed.

Lemma levelByID_spec levels id :
  NoDup (map Level_ID levels) ->
  match levelByID levels id with
  | Some l => l ∈ levels /\ Level_ID l = id
  | None => forall l, l ∈ levels -> Level_ID l <> id
  end.
Proof.
  intros _. unfold levelByID. destruct (find _ levels) as [l|] eqn:E.
  - apply find_some in E as [Hin Hid]. apply bool_decide_eq_true in Hid. split; [by apply list_elem_of_In|done].
  - intros l Hin Hid. apply list_elem_of_In in Hin. pose proof (find_none _ _ E l Hin) as Hn. by apply bool_decide_eq_false in Hn.
Qed.

Lemma state_elem metas l :
  l ∈ StateFromMetas metas <-> at_level (Level_ID l) metas <> [] /\ Level_Tables l = at_level (Level_ID l) metas.
Proof.
  unfold StateFromMetas. rewrite merge_sort_Permutation, list_elem_of_fmap. split.
  - intros ([id ts] & -> & Hin). rewrite elem_of_map_to_list, group_levels_lookup in Hin. cbn [Level_ID Level_Tables].
    destruct (at_level id metas); [done|]. by injection Hin as <-.
  - intros [Hne Ht]. exists (Level_ID l, Level_Tables l). split; [by destruct l|].
    rewrite elem_of_map_to_list, group_levels_lookup, Ht. by destruct (at_level (Level_ID l) metas).
Qed.

Lemma state_ids metas : NoDup (map Level_ID (StateFromMetas metas)).
Proof.
  unfold StateFromMetas. rewrite merge_sort_Permutation, map_map.
  replace (map (fun x => Level_ID (let '(level, tables) := x in mkLevel level tables)) (map_to_list (group_levels metas)))
    with (map_to_list (group_levels metas)).*1 by (apply list_fmap_ext; by intros ? [? ?]).
  apply NoDup_fst_map_to_list.
Qed.

Lemma levelByID_state metas id :
  levelByID (StateFromMetas metas) id = match at_level id metas with [] => None | ts => Some (mkLevel id ts) end.
Proof.
  pose proof (levelByID_spec (StateFromMetas metas) id (state_ids metas)) as Hs. destruct (levelByID _ id) as [l|].
  - destruct Hs as [[Hne Ht]%state_elem <-]. rewrite <- Ht in *. destruct l as [i ts]. cbn in *. by destruct ts.
  - destruct (at_level id metas) as [|t ts] eqn:E; [done|]. exfalso. apply (Hs (mkLevel id (t :: ts))); [|done].
    apply state_elem. cbn. by rewrite E.
Qed.

Lemma dedupe_loop_spec metas : forall seen,
  NoDup (map tm_Path (dedupe_loop seen metas)) /\
  (forall m, m ∈ dedupe_loop seen metas -> m ∈ metas /\ tm_Path m ∉ seen) /\
  (forall m, m ∈ metas -> tm_Path m ∉ seen -> exists m', m' ∈ dedupe_loop seen metas /\ tm_Path m' = tm_Path m).
Proof.
  induction metas as [|t metas IH]; intros seen; cbn [dedupe_loop].
  { split; [constructor|]. split; [by intros m ?%elem_of_nil|]. by intros m ?%elem_of_nil. }
  case_bool_decide as E.
  - destruct (IH seen) as (H1 & H2 & H3). split; [done|]. split.
    + intros m Hm. destruct (H2 m Hm). split; [by right|done].
    + intros m [->|Hm]%elem_of_cons Hn; [done|]. auto.
  - destruct (IH ({[tm_Path t]} ∪ seen)) as (H1 & H2 & H3). split; [|split].
    + cbn [map]. constructor; [|done]. intros (m & Em & Hm)%list_elem_of_fmap. destruct (H2 m Hm) as [_ Hs]. set_solver.
    + intros m [->|Hm]%elem_of_cons; [split; [by left|done]|]. destruct (H2 m Hm). split; [by right|set_solver].
    + intros m [->|Hm]%elem_of_cons Hn; [exists t; split; [by left|done]|].
      destruct (decide (tm_Path m = tm_Path t)) as [Et|Et]; [exists t; split; [by left|done]|].
      destruct (H3 m Hm) as (m' & Hm' & Em); [set_solver|]. exists m'. split; [by right|done].
Qed.

Lemma path_unique metas a b : NoDup (map tm_Path metas) -> a ∈ metas -> b ∈ metas -> tm_Path a = tm_Path b -> a = b.
Proof. apply NoDup_map_inj. Qed.

(** Which tables a compaction of a level takes. *)
Definition takes (metas : list TableMeta) (i : Z) (m : TableMeta) : Prop :=
  m ∈ metas /\ (tm_Level m = i \/ (tm_Level m = i + 1 /\ exists m', m' ∈ metas /\ tm_Level m' = i /\ metas_overlap m' m = true)).

Lemma plan_level_spec metas i reason :
  NoDup (map tm_Path metas) ->
  let plan := plan_level (StateFromMetas metas) (at_level i metas) i reason in
  NoDup (map tm_Path (Plan_Inputs plan)) /\ (forall m, m ∈ Plan_Inputs plan <-> takes metas i m).
Proof.
  intros Hn. cbv zeta. unfold plan_level. cbn [Plan_Inputs]. rewrite levelByID_state. unfold dedupe.
  set (inputs := at_level i metas ++ _). assert (Hin : forall m, m ∈ inputs <-> takes metas i m).
  { intros m. subst inputs. unfold takes. rewrite elem_of_app. unfold at_level at 1. rewrite list_elem_of_filter.
    assert (Ho : m ∈ overlapTables (match at_level (i + 1) metas with [] => None | ts => Some (mkLevel (i + 1) ts) end) (at_level i metas) <->
      m ∈ metas /\ tm_Level m = i + 1 /\ exists m', m' ∈ metas /\ tm_Level m' = i /\ metas_overlap m' m = true).
    { assert (Hex : existsb (fun x => metas_overlap x m) (at_level i metas) = true <-> exists m', m' ∈ metas /\ tm_Level m' = i /\ metas_overlap m' m = true).
      { rewrite existsb_exists. unfold at_level. split.
        - intros (x & Hx%list_elem_of_In & Hov). apply list_elem_of_filter in Hx as [Hl Hx]. eauto.
        - intros (x & Hx & Hl & Hov). exists x. split; [|done]. apply list_elem_of_In, list_elem_of_filter. done. }
      rewrite <- Hex. transitivity (m ∈ at_level (i + 1) metas /\ existsb (fun x => metas_overlap x m) (at_level i metas) = true).
      - destruct (at_level (i + 1) metas); cbn [overlapTables Level_Tables]; [rewrite elem_of_nil; tauto|]. rewrite list_elem_of_filter. tauto.
      - unfold at_level at 1. rewrite list_elem_of_filter. tauto. }
    rewrite Ho. tauto. }
  destruct (dedupe_loop_spec inputs ∅) as (H1 & H2 & H3). split; [done|]. intros m. split.
  - intros [Hm _]%H2. by apply Hin.
  - intros Hm. apply Hin in Hm as Hm'. destruct (H3 m Hm' ltac:(set_solver)) as (m' & Hd & E).
    destruct (H2 m' Hd) as [Hi' _]. apply Hin in Hi'. destruct Hm as [Hmm _]. destruct Hi' as [Hmm' _].
    by rewrite (path_unique metas m m' Hn Hmm Hmm' (eq_sym E)).
Qed.

Definition multiplier_of (p : StrictLevelledPlanner) : Z := if bool_decide (LevelMultiplier p <= 0) then 10 else LevelMultiplier p.

(** When a level is due for compaction: the number of files of level 0, the
    size of the others. *)
Definition due (p : StrictLevelledPlanner) (metas : list TableMeta) (i : Z) : Prop :=
  if bool_decide (i = 0) then 0 < L0FileThreshold p /\ L0FileThreshold p <= zlen (at_level 0 metas)
  else let limit := levelTargetBytes (LevelBaseBytes p) (multiplier_of p) i in
       LevelBaseBytes p <> 0 /\ limit <> 0 /\ limit < levelSizeBytes (at_level i metas).

(** Levels without a gap are at most as many as there are levels. *)
Lemma levels_bound metas n :
  (forall j, 1 <= j < 1 + n -> at_level j metas <> []) -> n <= Z.of_nat (length (StateFromMetas metas)).
Proof.
  intros Hj. destruct (decide (n <= 0)) as [|Hn]; [lia|].
  assert (Hs : seqZ 1 n ⊆+ map Level_ID (StateFromMetas metas)).
  { apply NoDup_submseteq; [apply NoDup_seqZ|]. intros j Hin%elem_of_seqZ. specialize (Hj j Hin).
    apply list_elem_of_fmap. exists (mkLevel j (at_level j metas)). split; [done|]. by apply state_elem. }
  apply submseteq_length in Hs. rewrite length_seqZ, length_map in Hs. lia.
Qed.

Lemma plan_sizes_spec p metas fuel : forall level,
  1 <= level -> LevelBaseBytes p <> 0 -> (forall j, 1 <= j < level -> at_level j metas <> [] /\ ~ due p metas j) ->
  Z.of_nat (length (StateFromMetas metas)) < Z.of_nat fuel + level - 1 ->
  exists r, plan_sizes fuel p (multiplier_of p) (StateFromMetas metas) level = Ok r /\
    match r with
    | Some plan => exists i, 1 <= i /\ due p metas i /\ at_level i metas <> [] /\ (forall j, 1 <= j < i -> ~ due p metas j) /\
        plan = plan_level (StateFromMetas metas) (at_level i metas) i "level size exceeded"
    | None => exists n, 1 <= n /\ at_level n metas = [] /\ forall j, 1 <= j < n -> ~ due p metas j
    end.
Proof.
  induction fuel as [|fuel IH]; intros level Hl Hb Hj Hf.
  { pose proof (levels_bound metas (level - 1)) as Hn. exfalso. enough (level - 1 <= Z.of_nat (length (StateFromMetas metas))) by lia.
    apply Hn. intros j Hj'. apply Hj. lia. }
  cbn [plan_sizes]. rewrite levelByID_state. destruct (at_level level metas) as [|t ts] eqn:Ea.
  { eexists. split; [reflexivity|]. exists level. split; [done|]. split; [done|]. intros j Hlt. by apply Hj. }
  cbn [Level_Tables]. rewrite <- Ea.
  assert (Hdue : due p metas level <-> levelTargetBytes (LevelBaseBytes p) (multiplier_of p) level <> 0 /\
    levelTargetBytes (LevelBaseBytes p) (multiplier_of p) level < levelSizeBytes (at_level level metas)).
  { unfold due. rewrite bool_decide_false by lia. tauto. }
  assert (Hnext : ~ due p metas level -> exists r, plan_sizes fuel p (multiplier_of p) (StateFromMetas metas) (level + 1) = Ok r /\
    match r with
    | Some plan => exists i, 1 <= i /\ due p metas i /\ at_level i metas <> [] /\ (forall j, 1 <= j < i -> ~ due p metas j) /\
        plan = plan_level (StateFromMetas metas) (at_level i metas) i "level size exceeded"
    | None => exists n, 1 <= n /\ at_level n metas = [] /\ forall j, 1 <= j < n -> ~ due p metas j
    end).
  { intros Hnd. apply IH; [lia|done| |lia]. intros j Hj'. destruct (decide (j = level)) as [->|]; [by rewrite Ea|]. apply Hj. lia. }
  set (limit := levelTargetBytes _ _ _) in *. case_bool_decide as E1; [apply Hnext; tauto|].
  case_bool_decide as E2; [|apply Hnext; tauto]. eexists. split; [reflexivity|]. exists level. split; [done|]. split; [tauto|].
  rewrite Ea. split; [done|]. split; [|done]. intros j Hlt. by apply Hj.
Qed.

Lemma Planner_Next_spec p metas :
  NoDup (map tm_Path metas) ->
  exists r, Planner_Next p (StateFromMetas metas) = Ok r /\
    match r with
    | Some plan => exists i, 0 <= i /\ Plan_OutputLevel plan = i + 1 /\ due p metas i /\ (forall j, 0 <= j < i -> ~ due p metas j) /\
        Plan_Inputs plan <> [] /\ NoDup (map tm_Path (Plan_Inputs plan)) /\ forall m, m ∈ Plan_Inputs plan <-> takes metas i m
    | None => LevelBaseBytes p = 0 /\ ~ due p metas 0 \/
        exists n, 1 <= n /\ at_level n metas = [] /\ forall j, 0 <= j < n -> ~ due p metas j
    end.
Proof.
  intros Hn. unfold Planner_Next. rewrite levelByID_state.
  assert (Hplan : forall i reason, at_level i metas <> [] ->
    let plan := plan_level (StateFromMetas metas) (at_level i metas) i reason in
    Plan_OutputLevel plan = i + 1 /\ Plan_Inputs plan <> [] /\ NoDup (map tm_Path (Plan_Inputs plan)) /\ forall m, m ∈ Plan_Inputs plan <-> takes metas i m).
  { intros i reason Hne plan. destruct (plan_level_spec metas i reason Hn) as [H1 H2]. split; [done|]. split; [|done].
    destruct (at_level i metas) as [|m ms] eqn:Ea; [done|]. assert (Hm : m ∈ at_level i metas) by (rewrite Ea; by left).
    apply list_elem_of_filter in Hm as [Hl Hm]. assert (Hin : m ∈ Plan_Inputs plan) by (apply H2; split; [done|by left]).
    intros E. rewrite E in Hin. by apply elem_of_nil in Hin. }
  assert (H0 : due p metas 0 <-> 0 < L0FileThreshold p /\ L0FileThreshold p <= zlen (at_level 0 metas)) by (unfold due; by rewrite bool_decide_true).
  set (l0 := (_ ← _; _)).
  assert (Hl0 : due p metas 0 /\ l0 = Some (mkLevel 0 (at_level 0 metas)) \/ ~ due p metas 0 /\ l0 = None).
  { subst l0. rewrite H0. destruct (at_level 0 metas) as [|t ts]; cbn [mbind option_bind Level_Tables].
    - right. split; [change (zlen (@nil TableMeta)) with 0; lia|done].
    - case_bool_decide; [by left|by right]. }
  destruct Hl0 as [[Hd ->]|[Hd ->]].
  - eexists. split; [reflexivity|]. exists 0. cbn [Level_Tables]. split; [lia|].
    destruct (Hplan 0 "l0 file threshold exceeded"%string) as (P1 & P2 & P3 & P4).
    { rewrite H0 in Hd. intros E. rewrite E in Hd. change (zlen (@nil TableMeta)) with 0 in Hd. lia. }
    split; [done|]. split; [done|]. split; [intros; lia|]. done.
  - case_bool_decide as Eb; [eexists; split; [reflexivity|by left]|]. fold (multiplier_of p).
    destruct (plan_sizes_spec p metas (S (length (StateFromMetas metas))) 1) as (r & -> & Hr); [lia|done|intros; lia|lia|].
    exists r. split; [done|]. destruct r as [plan|].
    + destruct Hr as (i & Hi & Hdi & Hne & Hlow & ->). exists i. split; [lia|]. destruct (Hplan i "level size exceeded"%string Hne) as (P1 & P2 & P3 & P4).
      split; [done|]. split; [done|]. split; [|done]. intros j Hj. destruct (decide (j = 0)) as [->|]; [done|]. apply Hlow. lia.
    + destruct Hr as (n & H1 & H2 & H3). right. exists n. split; [done|]. split; [done|]. intros j Hj.
      destruct (decide (j = 0)) as [->|]; [done|]. apply H3. lia.
Qed.


Definition demo_meta (path : string) (level : Z) (lo hi : string) (size : Z) : TableMeta :=
  mkTableMeta path level (bytes_of_string lo) (bytes_of_string hi) 1 2 size.
Definition demo_metas : list TableMeta :=
  [demo_meta "p" 0 "a" "f" 10; demo_meta "q" 1 "e" "k" 40; demo_meta "r" 1 "g" "z" 30; demo_meta "s" 0 "c" "d" 10].

