(* ===== verification/Handle.v ===== *)
(** * Table handles

    What the engine and the compaction rely on of an SSTable: its path and
    newest sequence number, the facts of its meta block ([Info]), point reads
    and range iterators.  [TableHandle] has the operations,
    [TableHandleLaws] their meaning, a sorted run of entries; the SSTables
    are an instance. *)

From Stdlib Require Import ZArith Lia Strings.String.
From stdpp Require Import base list gmap strings.
From S2P Require Import Prelude Iofs SstFormat SstBlock SstOptions Bloom Cache SstReader SstWriter SstTable SstRange SstFlush SstPublish Merge TableIter TableSet.
Local Open Scope Z_scope.

Record Info := mkInfo {
  Info_MinKey : bytes;
  Info_MaxKey : bytes;
  Info_SeqMin : Z;
  Info_SeqMax : Z;
  Info_SizeBytes : Z;
  Info_EntryCount : Z
}.

Class TableHandle (H : Type) := {
  h_iterator : Type;
  h_iterator_ops :: EntryIterator h_iterator;
  h_Path : H -> string;
  h_Seq : H -> Z;
  h_Info : H -> Info;
  h_GetView : H -> bytes -> result (option EntryView);
  h_GetViewContext : H -> bytes -> result (option EntryView);
  h_Range : H -> bytes -> bytes -> h_iterator
}.

(** The facts about a run that [Info] reports. *)
Record info_of (i : Info) (es : list Entry) : Prop := {
  io_min : exists first, head es = Some first /\ Info_MinKey i = Key first;
  io_max : exists final, last es = Some final /\ Info_MaxKey i = Key final;
  io_low : (forall e, e ∈ es -> Info_SeqMin i <= Seq e) /\ exists e, e ∈ es /\ Seq e = Info_SeqMin i;
  io_high : (forall e, e ∈ es -> Seq e <= Info_SeqMax i) /\ exists e, e ∈ es /\ Seq e = Info_SeqMax i
}.

Class TableHandleLaws (H : Type) `{TableHandle H} := {
  h_holds : H -> list Entry -> Prop;
  law_run t es : h_holds t es -> sorted_run es;
  law_info t es : h_holds t es -> info_of (h_Info t) es /\ h_Seq t = Info_SeqMax (h_Info t);
  law_GetView t es key : h_holds t es -> h_GetView t key = Ok (EntryView_of <$> lookup_entry key es);
  law_GetViewContext t es key : h_holds t es -> h_GetViewContext t key = Ok (EntryView_of <$> lookup_entry key es);
  law_Scan t es start stop : h_holds t es -> yields (h_Range t start stop) (entries_between start stop es) None
}.

(** ** SSTables *)

(** [SSTable.Info] of a table with a reader. *)
Definition SSTable_Info (t : SSTable) : Info :=
  let m := r_meta (st_reader t) in
  mkInfo (MinKey m) (MaxKey m) (SeqMin m) (SeqMax m) (u64 (r_size (st_reader t))) (EntryCount m).

Section SSTables.
Context (snappy_Decode : bytes -> option bytes).

Definition SSTable_handle : TableHandle SSTable := {|
  h_iterator := TableIterator;
  h_iterator_ops := TableIterator_ops snappy_Decode;
  h_Path := st_Path;
  h_Seq := st_Seq;
  h_Info := SSTable_Info;
  h_GetView := SSTable_GetView snappy_Decode;
  h_GetViewContext := SSTable_GetViewContext snappy_Decode;
  h_Range := SSTable_Range
|}.

#[local] Existing Instance SSTable_handle.

Lemma run_meta_info t es : run_meta (r_meta (st_reader t)) es -> info_of (SSTable_Info t) es.
Proof. intros [H1 H2 H3 H4]. by split. Qed.

Definition SSTable_handle_laws : TableHandleLaws SSTable.
Proof.
  refine {| h_holds := table_holds snappy_Decode; law_run := table_holds_sorted snappy_Decode;
            law_GetView t es key := table_get snappy_Decode t es key;
            law_GetViewContext t es key := table_get_context snappy_Decode t es key;
            law_Scan t es start stop := table_range_yields snappy_Decode t es start stop |}.
  intros t es (groups & parts & fsegs & _ & _ & _ & Hm & Hs & _). split; [by apply run_meta_info|exact Hs].
Defined.
End SSTables.

(** ** Metadata *)

Section Metadata.
Context {H : Type} `{TableHandleLaws H}.

(** [TableMetaFromSSTable]: a zero sequence number stands for none. *)
Definition TableMetaFromSSTable (t : H) (level : Z) : TableMeta :=
  let info := h_Info t in
  mkTableMeta (h_Path t) level (Info_MinKey info) (Info_MaxKey info)
    (if bool_decide (Info_SeqMin info = 0) then h_Seq t else Info_SeqMin info)
    (if bool_decide (Info_SeqMax info = 0) then h_Seq t else Info_SeqMax info)
    (Info_SizeBytes info).

Lemma meta_SeqMax t es level : h_holds t es -> tm_SeqMax (TableMetaFromSSTable t level) = Info_SeqMax (h_Info t).
Proof. intros [_ E]%law_info. cbn. rewrite E. by case_bool_decide. Qed.
End Metadata.

(** ** Runs in memory *)

(** A handle that keeps its path and its run: an instance for examples. *)
Definition run_handle : Type := string * list Entry.

Fixpoint seq_min (es : list Entry) : Z :=
  match es with [] => 0 | [e] => Seq e | e :: es => Z.min (Seq e) (seq_min es) end.
Fixpoint seq_max (es : list Entry) : Z :=
  match es with [] => 0 | [e] => Seq e | e :: es => Z.max (Seq e) (seq_max es) end.

Definition run_info (es : list Entry) : Info :=
  mkInfo (from_option Key [] (head es)) (from_option Key [] (last es)) (seq_min es) (seq_max es) (zlen es) (zlen es).

#[export] Instance run_handle_ops : TableHandle run_handle := {|
  h_iterator := sliceIterator;
  h_Path := fst;
  h_Seq t := seq_max (snd t);
  h_Info t := run_info (snd t);
  h_GetView t key := Ok (EntryView_of <$> lookup_entry key (snd t));
  h_GetViewContext t key := Ok (EntryView_of <$> lookup_entry key (snd t));
  h_Range t start stop := newSliceIterator (entries_between start stop (snd t))
|}.

Lemma seq_min_spec es : es <> [] -> (forall e, e ∈ es -> seq_min es <= Seq e) /\ exists e, e ∈ es /\ Seq e = seq_min es.
Proof.
  induction es as [|e [|x es] IH]; intros Hne; [done| |].
  - split; [by intros y ->%list_elem_of_singleton|]. exists e. split; [by left|done].
  - destruct IH as [H1 (m & Hm & Em)]; [done|]. change (seq_min (e :: x :: es)) with (Z.min (Seq e) (seq_min (x :: es))). split.
    + intros y [->|Hy]%elem_of_cons; [lia|]. specialize (H1 y Hy). lia.
    + destruct (Z.min_spec (Seq e) (seq_min (x :: es))) as [[_ ->]|[_ ->]]; [exists e; by split; [left|]|exists m; by split; [right|]].
Qed.

Lemma seq_max_spec es : es <> [] -> (forall e, e ∈ es -> Seq e <= seq_max es) /\ exists e, e ∈ es /\ Seq e = seq_max es.
Proof.
  induction es as [|e [|x es] IH]; intros Hne; [done| |].
  - split; [by intros y ->%list_elem_of_singleton|]. exists e. split; [by left|done].
  - destruct IH as [H1 (m & Hm & Em)]; [done|]. change (seq_max (e :: x :: es)) with (Z.max (Seq e) (seq_max (x :: es))). split.
    + intros y [->|Hy]%elem_of_cons; [lia|]. specialize (H1 y Hy). lia.
    + destruct (Z.max_spec (Seq e) (seq_max (x :: es))) as [[_ ->]|[_ ->]]; [exists m; by split; [right|]|exists e; by split; [left|]].
Qed.

#[export] Instance run_handle_laws : TableHandleLaws run_handle.
Proof.
  refine {| h_holds t es := snd t = es /\ sorted_run es /\ es <> [] |}; intros t es; cbn.
  - tauto.
  - intros (<- & Hs & Hne). split; [|done]. split; cbn [run_info Info_MinKey Info_MaxKey Info_SeqMin Info_SeqMax].
    + destruct (snd t) as [|e es]; [done|]. by exists e.
    + destruct (last (snd t)) as [l|] eqn:E; [by exists l|]. by apply last_None in E.
    + by apply seq_min_spec.
    + by apply seq_max_spec.
  - by intros key (<- & _).
  - by intros key (<- & _).
  - intros start stop (<- & _). apply slice_yields.
Defined.
