(* ===== verification/Manifest.v ===== *)
(** * Manifests

    The durable list of tables and the WAL checkpoint
    (internal/lsm/manifest): the log store with its checkpoint file and log,
    and the locked store that the engine puts around it.  [encoding/json] is
    a parameter: two encoders and their decoders. *)

From Stdlib Require Import ZArith Lia Strings.Byte Strings.String.
From stdpp Require Import base countable list gmap strings list.
From S2P Require Import Prelude Iofs.
Local Open Scope Z_scope.

Record ManifestEntry := mkManifestEntry {
  me_Path : string;
  me_Level : Z;
  me_MinKey : bytes;
  me_MaxKey : bytes;
  me_SeqMin : Z;
  me_SeqMax : Z;
  me_SizeBytes : Z
}.

Record Manifest := mkManifest { WALSeq : Z; Manifest_Tables : list ManifestEntry }.

(** [Manifest{}]. *)
Definition no_manifest : Manifest := mkManifest 0 [].

Record logRecord := mkLogRecord { lr_Type : string; lr_Manifest : Manifest }.

(** The store in memory. *)
Record LogStore := mkLogStore { ls_loaded : bool; ls_state : Manifest; ls_updateCnt : Z }.

Definition NewLogStore_state : LogStore := mkLogStore false no_manifest 0.

Definition err_checkpoint_read := ErrNew "manifest checkpoint read".
Definition err_checkpoint_write := ErrNew "manifest checkpoint write".
Definition err_checkpoint_rename := ErrNew "manifest checkpoint rename".
Definition err_log_open := ErrNew "manifest log open".
Definition err_log_append := ErrNew "manifest log append".
Definition err_log_close := ErrNew "manifest log close".
Definition err_log_truncate := ErrNew "manifest log truncate".

(** [os.WriteFile]. *)
Definition fs_WriteFile (name : string) (data : bytes) (e : error) : SE FS unit :=
  _ ← fs_create name e;
  _ ← file_write name data e;
  fs_may_fail e.

(** [ReadBytes('\n')] up to the end: lines with their newline, and what
    follows the last one. *)
Fixpoint split_lines (line data : bytes) : list bytes :=
  match data with
  | [] => if bool_decide (line = []) then [] else [line]
  | b :: data => if bool_decide (b = x0a) then (line ++ [b]) :: split_lines [] data else split_lines (line ++ [b]) data
  end.

Definition trimLine (line : bytes) : bytes :=
  match last line with
  | Some b => if bool_decide (b = x0a) then take (length line - 1) line else line
  | None => line
  end.

Section LogStore.
Context (marshalIndent : Manifest -> bytes) (unmarshal : bytes -> option Manifest).
Context (marshalRecord : logRecord -> bytes) (unmarshalRecord : bytes -> option logRecord).
Context (LogPath CheckpointPath : string) (CheckpointEveryN : Z).

Definition on_fs {A} (m : SE FS A) : SE (LogStore * FS) A := fun s =>
  let '(r, fs) := m (snd s) in (r, (fst s, fs)).
Definition set_store (f : LogStore -> LogStore) : SE (LogStore * FS) unit := fun s => (Ok tt, (f (fst s), snd s)).

Definition get_store : SE (LogStore * FS) LogStore := fun s => (Ok (fst s), s).

Definition checkpointTmp : string := CheckpointPath +:+ ".tmp".

Definition writeCheckpointLocked : SE (LogStore * FS) unit :=
  s ← get_store;
  on_fs (_ ← fs_WriteFile checkpointTmp (marshalIndent (ls_state s)) err_checkpoint_write;
         fs_rename_file checkpointTmp CheckpointPath err_checkpoint_rename).

(** [Truncate(LogPath, 0)]; a missing log is fine. *)
Definition truncateLogLocked : SE (LogStore * FS) unit :=
  on_fs (fun fs =>
    match fs_dir fs !! LogPath with
    | None => (Ok tt, fs)
    | Some _ => (_ ← fs_may_fail err_log_truncate; modify (fun fs => with_dir (<[LogPath := []]> (fs_dir fs)) fs)) fs
    end).

Definition appendLocked (rec : logRecord) : SE (LogStore * FS) unit :=
  on_fs (_ ← fs_may_fail err_log_open;
         _ ← file_write LogPath (marshalRecord rec ++ [x0a]) err_log_append;
         fs_may_fail err_log_close).

(** The records of the log up to one that cannot be parsed. *)
Fixpoint read_records (lines : list bytes) (out : Manifest) : Manifest :=
  match lines with
  | [] => out
  | line :: lines =>
      match unmarshalRecord (trimLine line) with
      | None => out
      | Some rec => read_records lines (if bool_decide (lr_Type rec = "snapshot"%string) then lr_Manifest rec else out)
      end
  end.

Definition readLogLocked (state : Manifest) : SE (LogStore * FS) Manifest :=
  on_fs (fs ← get;
         match fs_dir fs !! LogPath with
         | None => mret state
         | Some log =>
             _ ← fs_may_fail err_log_open;
             let out := read_records (split_lines [] log) state in
             _ ← fs_may_fail err_log_close;
             mret out
         end).

(** A checkpoint that cannot be parsed counts as none. *)
Definition parse_checkpoint (data : bytes) : Manifest :=
  if bool_decide (data = []) then no_manifest else default no_manifest (unmarshal data).

Definition read_checkpoint : SE FS Manifest :=
  fs ← get;
  match fs_dir fs !! CheckpointPath with
  | None => mret no_manifest
  | Some data => _ ← fs_may_fail err_checkpoint_read; mret (parse_checkpoint data)
  end.

Definition loadLocked : SE (LogStore * FS) unit :=
  s ← get_store;
  if ls_loaded s then mret tt else
  state ← on_fs read_checkpoint;
  logState ← readLogLocked state;
  set_store (fun s => mkLogStore true logState (ls_updateCnt s)).

Definition LogStore_Load : SE (LogStore * FS) Manifest :=
  _ ← loadLocked;
  s ← get_store;
  mret (ls_state s).

Definition LogStore_Save (m : Manifest) : SE (LogStore * FS) unit :=
  _ ← set_store (fun _ => mkLogStore true m 0);
  _ ← writeCheckpointLocked;
  truncateLogLocked.

Definition LogStore_Update (fn : Manifest -> Manifest) : SE (LogStore * FS) unit :=
  _ ← loadLocked;
  _ ← set_store (fun s => mkLogStore (ls_loaded s) (fn (ls_state s)) (ls_updateCnt s));
  s ← get_store;
  _ ← appendLocked (mkLogRecord "snapshot" (ls_state s));
  _ ← set_store (fun s => mkLogStore (ls_loaded s) (ls_state s) (ls_updateCnt s + 1));
  s ← get_store;
  if bool_decide (CheckpointEveryN <= ls_updateCnt s) then
    _ ← writeCheckpointLocked;
    _ ← truncateLogLocked;
    set_store (fun s => mkLogStore (ls_loaded s) (ls_state s) 0)
  else mret tt.

(** [LockedStore]: a load and a save of the store it wraps. *)
Definition LockedStore_Update (fn : Manifest -> Manifest) : SE (LogStore * FS) unit :=
  m ← LogStore_Load;
  LogStore_Save (fn m).

(** ** A single file *)

(** [FileManifestStore]: a manifest that cannot be parsed is an error. *)
Definition FileStore_Load (path : string) : SE FS Manifest :=
  fs ← get;
  match fs_dir fs !! path with
  | None => mret no_manifest
  | Some data =>
      _ ← fs_may_fail (ErrNew "read manifest");
      match unmarshal data with
      | None => throw (ErrNew "unmarshal manifest")
      | Some m => mret m
      end
  end.

Definition FileStore_Save (path : string) (m : Manifest) : SE FS unit :=
  let tmp := path +:+ ".tmp" in
  _ ← fs_WriteFile tmp (marshalIndent m) (ErrNew "write manifest tmp");
  fs_rename_file tmp path (ErrNew "rename manifest").

(** ** What a directory stores *)

Definition checkpoint_of (d : Dir) : Manifest := from_option parse_checkpoint no_manifest (d !! CheckpointPath).
Definition log_over (d : Dir) (state : Manifest) : Manifest :=
  from_option (fun log => read_records (split_lines [] log) state) state (d !! LogPath).

(** The manifest that a new store loads. *)
Definition stored (d : Dir) : Manifest := log_over d (checkpoint_of d).

Lemma read_checkpoint_cases fs : exists fs', fs_dir fs' = fs_dir fs /\
  (read_checkpoint fs = (Ok (checkpoint_of (fs_dir fs)), fs') \/ exists e, fs_faults fs <> [] /\ read_checkpoint fs = (Err e, fs')).
Proof.
  unfold read_checkpoint, checkpoint_of. rewrite SE_get_bind. destruct (fs_dir fs !! CheckpointPath) as [data|]; [|exists fs; by split; [|left]].
  unfold mbind, SE_bind. destruct (fs_may_fail_cases err_checkpoint_read fs) as (fs1 & D1 & [E|E]); rewrite E; exists fs1; (split; [done|]); [by left|].
  right. eexists. split; [|done]. intros Hf. by rewrite (fs_may_fail_ok _ _ Hf) in E.
Qed.

Lemma readLog_cases state s fs : exists fs', fs_dir fs' = fs_dir fs /\
  (readLogLocked state (s, fs) = (Ok (log_over (fs_dir fs) state), (s, fs')) \/
   exists e, readLogLocked state (s, fs) = (Err e, (s, fs'))).
Proof.
  unfold readLogLocked, on_fs, log_over. cbn [fst snd]. rewrite SE_get_bind.
  destruct (fs_dir fs !! LogPath) as [log|]; [|exists fs; split; [done|by left]]. unfold mbind, SE_bind.
  destruct (fs_may_fail_cases err_log_open fs) as (fs1 & D1 & [-> | ->]); [|exists fs1; split; [done|right; by eexists]].
  destruct (fs_may_fail_cases err_log_close fs1) as (fs2 & D2 & [-> | ->]); exists fs2; (split; [congruence|]); [by left|right; by eexists].
Qed.

(** ** Saving *)

Context (roundtrip : forall m, unmarshal (marshalIndent m) = Some m) (marshal_nonempty : forall m, marshalIndent m <> []).
Context (paths_differ : LogPath <> CheckpointPath) (tmp_differs : LogPath <> checkpointTmp).

(** A log without records: the engine's store never appends to it. *)
Definition log_clean (d : Dir) : Prop := d !! LogPath = None \/ d !! LogPath = Some [].

Lemma stored_clean d : log_clean d -> stored d = checkpoint_of d.
Proof. intros [E|E]; unfold stored, log_over; by rewrite E. Qed.

Lemma tmp_ne_checkpoint : checkpointTmp <> CheckpointPath.
Proof.
  unfold checkpointTmp. intros E. apply (f_equal String.length) in E. revert E. clear.
  induction CheckpointPath as [|c s IH]; cbn; [done|]. intros [= E]. auto.
Qed.

(** Directories that agree except on the temporary file. *)
Definition same_but_tmp (d d' : Dir) : Prop := forall name, name <> checkpointTmp -> d' !! name = d !! name.

Lemma same_but_tmp_stored d d' : same_but_tmp d d' -> stored d' = stored d /\ (log_clean d -> log_clean d').
Proof.
  intros H. pose proof tmp_ne_checkpoint. unfold stored, log_over, checkpoint_of, log_clean.
  rewrite (H CheckpointPath), (H LogPath) by congruence. done.
Qed.

(** Writing the temporary file and renaming it: done, or failed with nothing
    else touched. *)
Lemma writeCheckpoint_cases s fs :
  let '(r, (s', fs')) := writeCheckpointLocked (s, fs) in
  s' = s /\
  ((r = Ok tt /\ forall name, name <> checkpointTmp ->
      fs_dir fs' !! name = if bool_decide (name = CheckpointPath) then Some (marshalIndent (ls_state s)) else fs_dir fs !! name) \/
   (exists e, r = Err e) /\ same_but_tmp (fs_dir fs) (fs_dir fs')).
Proof.
  pose proof tmp_ne_checkpoint as Hne. unfold writeCheckpointLocked, get_store, on_fs, fs_WriteFile. unfold mbind, SE_bind. cbn [fst snd].
  set (data := marshalIndent (ls_state s)). clearbody data.
  destruct (fs_create_cases checkpointTmp err_checkpoint_write fs) as (fs1 & [[-> D1]|[-> D1]]).
  2:{ split; [done|]. right. split; [by eexists|]. intros name _. by rewrite D1. }
  destruct (file_write_cases checkpointTmp data err_checkpoint_write fs1) as (fs2 & [[-> D2]|(part & -> & D2 & _)]).
  2:{ split; [done|]. right. split; [by eexists|]. intros name Hn. by rewrite D2, D1, !lookup_insert_ne. }
  assert (D2' : fs_dir fs2 = <[checkpointTmp := data]> (fs_dir fs)) by (rewrite D2, D1, lookup_insert_eq, insert_insert_eq; done).
  assert (S2 : same_but_tmp (fs_dir fs) (fs_dir fs2)) by (intros name Hn; by rewrite D2', lookup_insert_ne). clear D1 D2 fs1.
  destruct (fs_may_fail_cases err_checkpoint_write fs2) as (fs3 & D3 & [-> | ->]).
  2:{ split; [done|]. right. split; [by eexists|]. by rewrite D3. }
  destruct (fs_rename_file_cases checkpointTmp CheckpointPath err_checkpoint_rename fs3) as (fs4 & [[-> D4]|[-> D4]]).
  2:{ split; [done|]. right. split; [by eexists|]. by rewrite D4, D3. }
  split; [done|]. left. split; [done|]. intros name Hn. rewrite D4, D3, D2'. unfold fs_rename. rewrite lookup_insert_eq.
  destruct (decide (name = CheckpointPath)) as [->|Hc]; [rewrite bool_decide_true by done; by rewrite lookup_insert_eq|].
  rewrite bool_decide_false, lookup_insert_ne, lookup_delete_ne, lookup_insert_ne by congruence. done.
Qed.

Lemma truncate_cases s fs :
  let '(r, (s', fs')) := truncateLogLocked (s, fs) in
  s' = s /\ (r = Ok tt \/ exists e, r = Err e) /\
  (log_clean (fs_dir fs) -> log_clean (fs_dir fs') /\ forall name, name <> LogPath -> fs_dir fs' !! name = fs_dir fs !! name).
Proof.
  unfold truncateLogLocked, on_fs. cbn [fst snd]. destruct (fs_dir fs !! LogPath) as [log|] eqn:El; [|split; [done|]; split; [by left|done]].
  unfold mbind, SE_bind. destruct (fs_may_fail_cases err_log_truncate fs) as (fs1 & D1 & [-> | ->]).
  - split; [done|]. split; [by left|]. intros _. cbn. rewrite D1. split; [right; by rewrite lookup_insert_eq|].
    intros name Hn. by rewrite lookup_insert_ne.
  - split; [done|]. split; [right; by eexists|]. by rewrite D1.
Qed.

Lemma Save_atomic m s fs :
  log_clean (fs_dir fs) ->
  let '(r, (s', fs')) := LogStore_Save m (s, fs) in
  s' = mkLogStore true m 0 /\ log_clean (fs_dir fs') /\
  ((r = Ok tt /\ stored (fs_dir fs') = m) \/
   ((exists e, r = Err e) /\ (stored (fs_dir fs') = stored (fs_dir fs) \/ stored (fs_dir fs') = m))).
Proof.
  intros Hc. unfold LogStore_Save, set_store. unfold mbind, SE_bind. cbn [fst snd].
  pose proof (writeCheckpoint_cases (mkLogStore true m 0) fs) as Hw.
  destruct (writeCheckpointLocked (mkLogStore true m 0, fs)) as [r [s1 fs1]]. destruct Hw as (-> & [[-> Hd]|[[e ->] Hd]]).
  2:{ destruct (same_but_tmp_stored _ _ Hd) as [E Hc']. split; [done|]. split; [by apply Hc'|]. right. split; [by eexists|]. by left. }
  assert (Hc1 : log_clean (fs_dir fs1)).
  { unfold log_clean. rewrite (Hd LogPath) by done. by rewrite bool_decide_false. }
  pose proof (truncate_cases (mkLogStore true m 0) fs1) as Ht. destruct (truncateLogLocked (mkLogStore true m 0, fs1)) as [r [s2 fs2]].
  destruct Ht as (-> & Hr & Hd2). destruct (Hd2 Hc1) as [Hc2 Hd2'].
  assert (Hs : stored (fs_dir fs2) = m).
  { rewrite stored_clean by done. unfold checkpoint_of. rewrite Hd2' by congruence.
    rewrite (Hd CheckpointPath) by (apply not_eq_sym, tmp_ne_checkpoint). rewrite bool_decide_true by done. cbn [from_option ls_state].
    unfold parse_checkpoint. rewrite bool_decide_false by done. by rewrite roundtrip. }
  split; [done|]. split; [done|]. destruct Hr as [-> |He]; [by left|right; split; [done|by right]].
Qed.

(** ** Updates *)

(** What [Load] returns. *)
Definition current (s : LogStore) (d : Dir) : Manifest := if ls_loaded s then ls_state s else stored d.

Lemma load_cases s fs : exists fs', fs_dir fs' = fs_dir fs /\
  ((exists s', LogStore_Load (s, fs) = (Ok (current s (fs_dir fs)), (s', fs')) /\ ls_loaded s' = true /\ ls_state s' = current s (fs_dir fs)) \/
   (exists e, LogStore_Load (s, fs) = (Err e, (s, fs')))).
Proof.
  unfold LogStore_Load, loadLocked, current, get_store, mret, SE_ret, set_store. unfold mbind, SE_bind. cbn [fst snd].
  destruct (ls_loaded s) eqn:El; [exists fs; split; [done|]; left; by exists s|]. unfold on_fs. cbn [fst snd].
  destruct (read_checkpoint_cases fs) as (fs1 & D1 & [-> |(e & _ & ->)]).
  2:{ exists fs1. split; [done|right]. by exists e. }
  destruct (readLog_cases (checkpoint_of (fs_dir fs)) s fs1) as (fs2 & D2 & [-> |(e & ->)]); exists fs2; rewrite D1 in *; (split; [done|]);
    [|right; by exists e]. left. eexists. split; [reflexivity|]. done.
Qed.

(** One update: acknowledged and stored, or failed and stored or not. *)
Lemma locked_update_cases fn s fs :
  log_clean (fs_dir fs) ->
  let '(r, (s', fs')) := LockedStore_Update fn (s, fs) in
  let m := current s (fs_dir fs) in
  log_clean (fs_dir fs') /\
  ((r = Ok tt /\ stored (fs_dir fs') = fn m /\ current s' (fs_dir fs') = fn m) \/
   (exists e, r = Err e) /\ (stored (fs_dir fs') = stored (fs_dir fs) /\ current s' (fs_dir fs') = m \/
                             (stored (fs_dir fs') = stored (fs_dir fs) \/ stored (fs_dir fs') = fn m) /\ current s' (fs_dir fs') = fn m)).
Proof.
  intros Hc. unfold LockedStore_Update. unfold mbind, SE_bind.
  destruct (load_cases s fs) as (fs1 & D1 & [(s1 & -> & L1 & L2)|(e & ->)]).
  2:{ cbv zeta. rewrite D1. split; [done|]. right. split; [by eexists|]. by left. }
  rewrite <- D1 in Hc. pose proof (Save_atomic (fn (current s (fs_dir fs))) s1 fs1 Hc) as Hs.
  destruct (LogStore_Save (fn (current s (fs_dir fs))) (s1, fs1)) as [r [s2 fs2]]. destruct Hs as (-> & Hc2 & Hr). cbv zeta. split; [done|].
  rewrite D1 in Hr. destruct Hr as [[-> Hst]|[He Hst]]; [left; done|]. right. split; [done|]. by right.
Qed.

(** A sequence of updates and which of them returned without an error. *)
Fixpoint updates (fns : list (Manifest -> Manifest)) (s : LogStore * FS) : list bool * (LogStore * FS) :=
  match fns with
  | [] => ([], s)
  | fn :: fns =>
      let '(r, s) := LockedStore_Update fn s in
      let '(acks, s) := updates fns s in
      ((if r is Ok _ then true else false) :: acks, s)
  end.

(** The selected updates, in order. *)
Fixpoint selected (fns : list (Manifest -> Manifest)) (sel : list bool) (m : Manifest) : Manifest :=
  match fns, sel with
  | fn :: fns, b :: sel => selected fns sel (if (b : bool) then fn m else m)
  | _, _ => m
  end.

(** [sel] selects every acknowledged update. *)
Definition covers (acks sel : list bool) : Prop := Forall2 (fun a b => a = true -> b = true) acks sel.

Definition none_of (acks : list bool) : list bool := map (fun _ => false) acks.

Lemma selected_none fns acks m : selected fns (none_of acks) m = m.
Proof. revert acks. induction fns as [|fn fns IH]; intros [|a acks]; cbn; [done..|]. apply IH. Qed.

Lemma covers_none acks : Forall (fun a => a = false) acks -> covers acks (none_of acks).
Proof. unfold covers. induction 1 as [|a acks -> _ IH]; constructor; [done|exact IH]. Qed.

Lemma updates_spec fns : forall s fs,
  log_clean (fs_dir fs) ->
  let '(acks, (s', fs')) := updates fns (s, fs) in
  (exists sel, covers acks sel /\ stored (fs_dir fs') = selected fns sel (current s (fs_dir fs))) \/
  (Forall (fun a => a = false) acks /\ stored (fs_dir fs') = stored (fs_dir fs)).
Proof.
  induction fns as [|fn fns IH]; intros s fs Hc; cbn [updates].
  { right. split; [constructor|done]. }
  pose proof (locked_update_cases fn s fs Hc) as Hu. destruct (LockedStore_Update fn (s, fs)) as [r [s1 fs1]]. cbv zeta in Hu.
  destruct Hu as [Hc1 Hu]. specialize (IH s1 fs1 Hc1). destruct (updates fns (s1, fs1)) as [acks [s2 fs2]].
  set (c := current s (fs_dir fs)) in *.
  assert (Hlast : forall ack, Forall (fun a => a = false) acks -> stored (fs_dir fs2) = fn c ->
    exists sel, covers (ack :: acks) sel /\ stored (fs_dir fs2) = selected (fn :: fns) sel c).
  { intros ack Hn E. exists (true :: none_of acks). split; [constructor; [done|by apply covers_none]|]. cbn [selected]. by rewrite selected_none. }
  destruct Hu as [(-> & H1 & H2)|([e ->] & [[H1 H2]|[H1 H2]])].
  - left. destruct IH as [(sel & Hcov & Hst)|[Hn Hst]]; [|apply Hlast; congruence].
    exists (true :: sel). split; [by constructor|]. cbn [selected]. by rewrite Hst, H2.
  - destruct IH as [(sel & Hcov & Hst)|[Hn Hst]]; [left|right; split; [by constructor|congruence]].
    exists (false :: sel). split; [by constructor|]. cbn [selected]. by rewrite Hst, H2.
  - destruct IH as [(sel & Hcov & Hst)|[Hn Hst]]; [left|destruct H1 as [H1|H1]; [right; split; [by constructor|congruence]|left; apply Hlast; congruence]].
    exists (true :: sel). split; [by constructor|]. cbn [selected]. by rewrite Hst, H2.
Qed.

End LogStore.

(** C37. Manifest updates are atomic.  Through the locked store that the engine
    uses, whatever calls of the file system fail: the manifest that the next
    start loads is the first one changed by some of the updates in their
    order, each as a whole, and among them is every update that returned
    without an error.  The JSON codec decodes what it encodes, to something
    that is not empty. *)
Theorem manifest_updates_atomic marshalIndent unmarshal unmarshalRecord LogPath CheckpointPath fns fs :
  (forall m, unmarshal (marshalIndent m) = Some m) -> (forall m, marshalIndent m <> []) ->
  LogPath <> CheckpointPath -> LogPath <> checkpointTmp CheckpointPath -> log_clean LogPath (fs_dir fs) ->
  let m := stored unmarshal unmarshalRecord LogPath CheckpointPath (fs_dir fs) in
  let '(acks, (_, fs')) := updates marshalIndent unmarshal unmarshalRecord LogPath CheckpointPath fns (NewLogStore_state, fs) in
  exists sel, covers acks sel /\ stored unmarshal unmarshalRecord LogPath CheckpointPath (fs_dir fs') = selected fns sel m.
Proof.
  intros Hr Hn H1 H2 Hc m. pose proof (updates_spec marshalIndent unmarshal unmarshalRecord LogPath CheckpointPath Hr Hn H1 H2 fns NewLogStore_state fs Hc) as Hu.
  destruct (updates _ _ _ _ _ fns (NewLogStore_state, fs)) as [acks [s' fs']]. destruct Hu as [Hu|[Hnone E]]; [exact Hu|].
  exists (none_of acks). split; [by apply covers_none|]. by rewrite selected_none.
Qed.

(** ** A codec *)

#[export] Instance ManifestEntry_eq_dec : EqDecision ManifestEntry.
Proof. solve_decision. Defined.
#[export] Instance Manifest_eq_dec : EqDecision Manifest.
Proof. solve_decision. Defined.

#[export] Instance ManifestEntry_countable : Countable ManifestEntry.
Proof.
  apply (inj_countable' (fun e => (me_Path e, me_Level e, (map byte_to_Z (me_MinKey e), map byte_to_Z (me_MaxKey e)), (me_SeqMin e, me_SeqMax e, me_SizeBytes e)))
    (fun '(p, l, (a, b), (c, d, s)) => mkManifestEntry p l (map byte_of_Z a) (map byte_of_Z b) c d s)).
  intros [p l a b c d s]. cbn. by rewrite !map_map, !(map_ext _ _ byte_of_to_Z), !map_id.
Defined.
#[export] Instance Manifest_countable : Countable Manifest.
Proof. apply (inj_countable' (fun m => (WALSeq m, Manifest_Tables m)) (fun '(w, t) => mkManifest w t)). by intros []. Defined.

(** Binary digits between braces stand for JSON. *)
Fixpoint digits_of (p : positive) : bytes :=
  match p with xH => [x7d] | xO p => x30 :: digits_of p | xI p => x31 :: digits_of p end.
Fixpoint of_digits (b : bytes) : option positive :=
  match b with
  | [x7d] => Some xH
  | x30 :: b => xO <$> of_digits b
  | x31 :: b => xI <$> of_digits b
  | _ => None
  end.

Lemma of_digits_of p : of_digits (digits_of p) = Some p.
Proof. induction p as [p IH|p IH|]; cbn; [by rewrite IH..|done]. Qed.

Definition demo_marshal (m : Manifest) : bytes := digits_of (encode m).
Definition demo_unmarshal (b : bytes) : option Manifest := p ← of_digits b; decode p.

Lemma demo_roundtrip m : demo_unmarshal (demo_marshal m) = Some m.
Proof. unfold demo_unmarshal, demo_marshal. rewrite of_digits_of. cbn. apply decode_encode. Qed.

Lemma manifest_updates_atomic_witness :
  let bump m := mkManifest (WALSeq m + 1) (Manifest_Tables m) in
  let fs := mkFS ∅ [None; None; None; None; Some 0] 0 in
  let m := stored demo_unmarshal (fun _ => None) "manifest.log" "manifest.json" (fs_dir fs) in
  let '(acks, (_, fs')) := updates demo_marshal demo_unmarshal (fun _ => None) "manifest.log" "manifest.json" [bump; bump] (NewLogStore_state, fs) in
  acks = [true; false] /\
  exists sel, covers acks sel /\ stored demo_unmarshal (fun _ => None) "manifest.log" "manifest.json" (fs_dir fs') = selected [bump; bump] sel m.
Proof.
  set (bump := fun m => mkManifest (WALSeq m + 1) (Manifest_Tables m)). set (fs := mkFS ∅ [None; None; None; None; Some 0] 0).
  pose proof (manifest_updates_atomic demo_marshal demo_unmarshal (fun _ => None) "manifest.log" "manifest.json" [bump; bump] fs) as H.
  cbv zeta in *. destruct (updates demo_marshal _ _ _ _ [bump; bump] (NewLogStore_state, fs)) as [acks [s' fs']] eqn:E.
  split; [|apply H; [apply demo_roundtrip|intros m; unfold demo_marshal; by destruct (encode m)|done|done|by left]].
  apply (f_equal fst) in E. rewrite <- (f_equal id E : fst _ = acks). vm_compute. reflexivity.
Defined.

(** ** Two orders of events in the log store itself *)

Definition demo_marshalRecord (r : logRecord) : bytes := digits_of (encode (lr_Type r, lr_Manifest r)).
Definition demo_unmarshalRecord (b : bytes) : option logRecord :=
  p ← of_digits b; '(t, m) ← decode (A := string * Manifest) p; Some (mkLogRecord t m).

Section Demo.
Local Abbreviation update := (LogStore_Update demo_marshal demo_unmarshal demo_marshalRecord demo_unmarshalRecord "manifest.log" "manifest.json" 128).
Local Abbreviation save := (LogStore_Save demo_marshal "manifest.log" "manifest.json").
Local Abbreviation load := (stored demo_unmarshal demo_unmarshalRecord "manifest.log" "manifest.json").

Definition with_wal_seq (n : Z) (m : Manifest) : Manifest := mkManifest n (Manifest_Tables m).

(** An append that fails after some bytes leaves a part of a line, the next
    append continues that line, and a reader stops there: the second update
    returned without an error and is not stored. *)
Theorem short_append_loses_update :
  let '(r1, s1) := update (with_wal_seq 1) (NewLogStore_state, mkFS ∅ [None; Some 3] 0) in
  let '(r2, s2) := update (with_wal_seq 2) s1 in
  r1 = Err err_log_append /\ r2 = Ok tt /\ load (fs_dir (snd s2)) = no_manifest.
Proof. vm_compute. auto. Qed.

(** A save that fails between the checkpoint and the truncation of the log
    leaves both, and the older log wins on the next load. *)
Theorem save_keeps_older_log :
  let '(r1, s1) := update (with_wal_seq 1) (NewLogStore_state, mkFS ∅ [] 0) in
  let '(r2, s2) := save (mkManifest 2 []) (fst s1, mkFS (fs_dir (snd s1)) [None; None; None; None; Some 0] 0) in
  r1 = Ok tt /\ r2 = Err err_log_truncate /\ WALSeq (load (fs_dir (snd s2))) = 1.
Proof. vm_compute. auto. Qed.
End Demo.
