(* ===== verification/CompactionRun.v ===== *)
(** * Compaction runs and table edits

    A compaction run over table handles (compaction/runner), the edits of
    the table set and the manifest that flushes and compactions make
    (internal/lsm/tableedit), and one step of the compaction coordinator
    (compaction/controller, compaction/runtime).  The state of the storage
    (file system, manifest store) is a parameter with its operations. *)

From Stdlib Require Import ZArith Lia Strings.String.
From stdpp Require Import base list sorting gmap strings.
From S2P Require Import Prelude Heap Merge TableIter TableSet Handle Compaction Manifest.
Local Open Scope Z_scope.

Definition err_inputs_required := ErrNew "compaction runner: input tables required".

(** ** Edits of the manifest *)

Definition manifestEntryFromMeta (m : TableMeta) : ManifestEntry :=
  mkManifestEntry (tm_Path m) (tm_Level m) (tm_MinKey m) (tm_MaxKey m) (tm_SeqMin m) (tm_SeqMax m) (tm_SizeBytes m).

Definition entry_before (a b : ManifestEntry) : Prop :=
  me_SeqMax b < me_SeqMax a \/ (me_SeqMax a = me_SeqMax b /\ String.leb (me_Path a) (me_Path b) = true).
#[export] Instance entry_before_dec a b : Decision (entry_before a b).
Proof. unfold entry_before. apply _. Defined.

(** The added entries by path: a later one replaces an earlier one. *)
Definition add_map (add : list ManifestEntry) : gmap string ManifestEntry :=
  fold_left (fun m e => <[me_Path e := e]> m) add ∅.

Definition mergeManifestTables (existing add : list ManifestEntry) (remove : list string) : list ManifestEntry :=
  let addMap := add_map add in
  merge_sort entry_before
    (filter (fun e => me_Path e ∉ remove /\ (addMap !! me_Path e) = None) existing ++ map snd (map_to_list addMap)).

(** The storage under the tables: the flusher, the manifest store and the
    removal of files. *)
Class Storage (H M : Type) := {
  flusher_Flush : list Entry -> SE M H;
  manifest_Update : (Manifest -> Manifest) -> SE M unit;
  removeFile : string -> SE M unit
}.

Section Storage.
Context {H M : Type} `{TableHandle H} `{Storage H M}.

(** [removeFile] of every table; a failure is only logged. *)
Fixpoint remove_tables (tables : list (Table H)) : SE M unit :=
  match tables with
  | [] => mret tt
  | t :: tables => _ ← (catch (removeFile (Table_Path t)) : SE M _); remove_tables tables
  end.

(** [tableedit.Service.Apply]: the table set first, then the manifest; files
    go only after the manifest. *)
Definition Service_Apply (add : list (Table H)) (remove : list TableMeta) (walSeq : Z) : SE (Set_ H * M) unit := fun s =>
  let removePaths := map tm_Path remove in
  let '(removedTables, tables) := Set_Apply (fst s) (mkEdit add removePaths) in
  let addEntries := map (fun t => manifestEntryFromMeta (Table_Meta t)) add in
  let mutator m :=
    mkManifest (if bool_decide (0 < walSeq) then walSeq else WALSeq m) (mergeManifestTables (Manifest_Tables m) addEntries removePaths) in
  let '(r, m) := (_ ← manifest_Update mutator; remove_tables removedTables) (snd s) in
  (r, (tables, m)).

(** The edit of [onFlush]: a failure is only logged. *)
Definition flush_apply (t : H) : SE (Set_ H * M) unit :=
  _ ← catch (Service_Apply [mkTable (TableMetaFromSSTable t 0) t] [] (h_Seq t));
  mret tt.

(** ** A run *)

Record Result := mkResult { Result_Output : list H; Result_Obsolete : list TableMeta; Result_OutputLevel : Z }.

Definition seq_desc (a b : H) : Prop := h_Seq b <= h_Seq a.
#[local] Instance seq_desc_dec a b : Decision (seq_desc a b).
Proof. unfold seq_desc. apply _. Defined.

(** [SimpleRunner.Run]. *)
Definition Run (dropTombstones : bool) (fuel : nat) (p : Plan) (inputs : list H) : SE M Result :=
  if bool_decide (Plan_Inputs p = []) then mret (mkResult [] [] 0) else
  if bool_decide (length inputs = 0%nat) then throw err_inputs_required else
  let inputs := merge_sort seq_desc inputs in
  entries ← lift (mergeEntries fuel (map (fun t => h_Range t [] []) inputs) dropTombstones);
  if bool_decide (length entries = 0%nat) then mret (mkResult [] (Plan_Inputs p) (Plan_OutputLevel p)) else
  out ← flusher_Flush entries;
  mret (mkResult [out] (Plan_Inputs p) (Plan_OutputLevel p)).

(** [applyFromEditor]. *)
Definition apply_result (result : Result) : SE (Set_ H * M) unit :=
  Service_Apply (map (fun t => mkTable (TableMetaFromSSTable t (Result_OutputLevel result)) t) (Result_Output result))
    (Result_Obsolete result) 0.

Definition on_storage {A} (m : SE M A) : SE (Set_ H * M) A := fun s => let '(r, x) := m (snd s) in (r, (fst s, x)).

(** [Coordinator.Step] from the layout of the table set, up to applying the
    result: flushes and snapshots may come in between. *)
Definition Step_run (planner : StrictLevelledPlanner) (dropTombstones : bool) (fuel : nat) : SE (Set_ H * M) (option Result) :=
  s ← get;
  plan ← lift (Planner_Next planner (StateFromMetas (Snapshot (fst s))));
  match plan with
  | None => mret None
  | Some plan =>
      inputs ← lift (Resolve (fst s) (Plan_Inputs plan));
      result ← on_storage (Run dropTombstones fuel plan inputs);
      mret (Some result)
  end.

Definition Step (planner : StrictLevelledPlanner) (dropTombstones : bool) (fuel : nat) : SE (Set_ H * M) bool :=
  result ← Step_run planner dropTombstones fuel;
  match result with
  | None => mret false
  | Some result => _ ← apply_result result; mret true
  end.
End Storage.
Arguments Result : clear implicits.
