(* ===== verification/LsmTree.v ===== *)
(** * The tree of tables

    Flushes and compactions over the table set, and reads through it: the
    loop over the tables of [readService.Get] and [GetContext]
    (pkg/lsm/engine) against the tables that [onFlush] and the compaction
    coordinator install.  The invariant [tree] orders the sequence numbers
    of the levels; the main result is that, whatever flushes, compactions
    and snapshots happen and in whatever order they interleave, a read
    returns the newest version ever flushed, as long as flushes come in the
    order of their sequence numbers and compactions keep tombstones.  That
    dropping them is not safe is shown by an example. *)

From Stdlib Require Import ZArith Lia Strings.String.
From stdpp Require Import base list sorting gmap strings.
From S2P Require Import Prelude Heap Merge TableIter TableSet Handle Compaction Manifest CompactionRun.
Local Open Scope Z_scope.

(** ** Reads *)

Section Reads.
Context {H : Type} `{TableHandle H}.

(** The loop over the tables of a read, by the read of one table: in [Get]
    it is [GetView], which reports an error as not found, in [GetContext] it
    is [GetViewContext], whose error ends the loop. *)
Fixpoint first_found (read : H -> bytes -> result (option EntryView)) (ts : list H) (key : bytes) : result (option EntryView) :=
  match ts with
  | [] => Ok None
  | t :: ts =>
      view ← read t key;
      match view with Some v => Ok (Some v) | None => first_found read ts key end
  end.
Definition tables_Get := first_found h_GetView.
Definition tables_GetContext := first_found h_GetViewContext.
End Reads.

(** ** The invariant *)

Section Tree.
Context {H : Type} `{TableHandleLaws H}.

(** The run of every table, by its path. *)
Abbreviation ghost := (gmap string (list Entry)).

Definition run (G : ghost) (t : Table H) : list Entry := default [] (G !! Table_Path t).
Definition level (t : Table H) : Z := tm_Level (Table_Meta t).

(** Every version in one table is older than every version in another. *)
Definition older (G : ghost) (a b : Table H) : Prop := forall x y, x ∈ run G a -> y ∈ run G b -> Seq x < Seq y.
Definition disjoint_keys (G : ghost) (a b : Table H) : Prop := forall x y, x ∈ run G a -> y ∈ run G b -> Key x <> Key y.

Record table_ok (G : ghost) (t : Table H) : Prop := {
  tk_run : G !! Table_Path t = Some (run G t);
  tk_holds : h_holds (Table_Handle t) (run G t);
  tk_meta : Table_Meta t = TableMetaFromSSTable (Table_Handle t) (level t);
  tk_level : 0 <= level t
}.

Record tree (G : ghost) (ts : list (Table H)) : Prop := {
  tr_ok t : t ∈ ts -> table_ok G t;
  tr_levels a b : a ∈ ts -> b ∈ ts -> level a < level b -> older G b a;
  tr_top a b : a ∈ ts -> b ∈ ts -> Table_Path a <> Table_Path b -> level a = 0 -> level b = 0 -> older G a b \/ older G b a;
  tr_deep a b : a ∈ ts -> b ∈ ts -> Table_Path a <> Table_Path b -> level a = level b -> 0 < level a -> disjoint_keys G a b
}.

(** The tables stand for the entries flushed so far: they hold no others and
    a version at least as new of each. *)
Record stands_for (G : ghost) (ts : list (Table H)) (hist : list Entry) : Prop := {
  sf_from t x : t ∈ ts -> x ∈ run G t -> x ∈ hist;
  sf_newest x : x ∈ hist -> exists t e, t ∈ ts /\ e ∈ run G t /\ Key e = Key x /\ Seq x <= Seq e
}.

Lemma table_seq G t : table_ok G t ->
  (forall e, e ∈ run G t -> Seq e <= tm_SeqMax (Table_Meta t)) /\ exists e, e ∈ run G t /\ Seq e = tm_SeqMax (Table_Meta t).
Proof.
  intros [_ Hh Hm _]. rewrite Hm, (meta_SeqMax _ _ _ Hh). by destruct (law_info _ _ Hh) as [[_ _ _ Hs] _].
Qed.

Lemma older_SeqMax G a b : table_ok G a -> table_ok G b -> older G a b -> tm_SeqMax (Table_Meta a) < tm_SeqMax (Table_Meta b).
Proof.
  intros (_ & x & Hx & <-)%table_seq (_ & y & Hy & <-)%table_seq Ho. by apply Ho.
Qed.

(** In read order the first table with a key has its newest version. *)
Lemma read_order G ts a b x y :
  tree G ts -> a ∈ ts -> b ∈ ts -> Table_Path a <> Table_Path b -> table_before a b ->
  x ∈ run G a -> y ∈ run G b -> Key x = Key y -> Seq y < Seq x.
Proof.
  intros [T1 T2 T3 T4] Ha Hb Hne Hbef Hx Hy Hk.
  assert (Hno : ~ older G a b).
  { intros Ho%older_SeqMax; [|by auto..]. destruct Hbef as [?|[? _]]; lia. }
  destruct (Z.lt_trichotomy (level a) (level b)) as [Hl|[Hl|Hl]].
  - by apply (T2 a b).
  - destruct (decide (level a = 0)) as [E|E].
    + destruct (T3 a b Ha Hb Hne E ltac:(lia)) as [Ho|Ho]; [done|by apply Ho].
    + destruct (T4 a b Ha Hb Hne Hl ltac:(pose proof (tk_level G a (T1 a Ha)); lia) x y Hx Hy Hk).
  - destruct Hno. by apply (T2 b a).
Qed.

(** The newest version of a key in some tables, as a read finds it. *)
Definition found (G : ghost) (ts : list (Table H)) (key : bytes) (r : option Entry) : Prop :=
  match r with
  | Some e => Key e = key /\ (exists t, t ∈ ts /\ e ∈ run G t) /\
      forall t x, t ∈ ts -> x ∈ run G t -> Key x = key -> x = e \/ Seq x < Seq e
  | None => forall t x, t ∈ ts -> x ∈ run G t -> Key x <> key
  end.

Lemma tree_sub G ts ts' : tree G ts -> (forall t, t ∈ ts' -> t ∈ ts) -> tree G ts'.
Proof. intros [T1 T2 T3 T4] Hs. split; eauto. Qed.

Lemma run_keys G t x y : table_ok G t -> x ∈ run G t -> y ∈ run G t -> Key x = Key y -> x = y.
Proof.
  intros Ho Hx Hy E. pose proof (law_run _ _ (tk_holds _ _ Ho)) as Hs.
  assert (Some x = Some y) as [= ->]; [|done].
  by rewrite <- (lookup_entry_elem (Key x) _ x Hs Hx eq_refl), <- (lookup_entry_elem (Key x) _ y Hs Hy (eq_sym E)).
Qed.

(** A read of one table that finds what the table holds. *)
Definition reads_runs (key : bytes) (read : H -> bytes -> result (option EntryView)) : Prop :=
  forall t es, h_holds t es -> read t key = Ok (EntryView_of <$> lookup_entry key es).

Lemma first_found_spec G key :
  forall ts, tree G ts -> NoDup (map Table_Path ts) -> StronglySorted table_before ts ->
  exists r, found G ts key r /\ forall read, reads_runs key read -> first_found read (map Table_Handle ts) key = Ok (EntryView_of <$> r).
Proof.
  induction ts as [|t ts IH]; intros T Hn Hs; [exists None; split; [|done]; by intros ? ? ?%elem_of_nil|].
  cbn [map first_found]. assert (Ht : table_ok G t) by (apply (tr_ok _ _ T); by left).
  cbn [map] in Hn. apply NoDup_cons in Hn as [Hni Hn]. apply StronglySorted_inv in Hs as [Hs Hb].
  destruct (lookup_entry key (run G t)) as [e|] eqn:El.
  - exists (Some e). split; [|intros read Hread; by rewrite (Hread _ _ (tk_holds _ _ Ht)), El].
    apply lookup_entry_Some in El as [Hin <-]. split; [done|]. split; [exists t; by split; [left|]|].
    intros t' x [->|Ht']%elem_of_cons Hx Hk; [left; by eapply run_keys|]. right. rewrite Forall_forall in Hb.
    apply (read_order G (t :: ts) t t'); auto; [by left|by right|]. intros E. apply Hni. rewrite E. by apply list_elem_of_fmap_2.
  - destruct IH as (r & Hr & Hread); [by apply (tree_sub G (t :: ts)); [|by right]|done|done|]. exists r.
    split; [|intros read Hrd; rewrite (Hrd _ _ (tk_holds _ _ Ht)), El; by apply Hread].
    apply lookup_entry_None in El. rewrite Forall_forall in El. destruct r as [e|]; cbn [found] in *.
    + destruct Hr as (Hk & (t' & Ht' & He) & Hr). split; [done|]. split; [exists t'; by split; [right|]|].
      intros t2 x [->|Ht2]%elem_of_cons Hx Hk2; [by destruct (El x Hx)|]. by apply (Hr t2).
    + intros t2 x [->|Ht2]%elem_of_cons Hx; [by apply El|by apply (Hr t2)].
Qed.

(** ** Edits of the tree *)

Lemma run_eq G G' t : G' !! Table_Path t = G !! Table_Path t -> run G' t = run G t.
Proof. unfold run. by intros ->. Qed.

Definition agree (G G' : ghost) (ts : list (Table H)) : Prop := forall t, t ∈ ts -> G' !! Table_Path t = G !! Table_Path t.

Lemma agree_insert G ts path es : path ∉ map Table_Path ts -> agree G (<[path := es]> G) ts.
Proof.
  intros Hp t Ht. rewrite lookup_insert_ne; [done|]. intros ->. apply Hp. by apply list_elem_of_fmap_2.
Qed.

Lemma tree_agree G G' ts : agree G G' ts -> tree G ts -> tree G' ts.
Proof.
  intros Ha [T1 T2 T3 T4]. assert (Hr : forall t, t ∈ ts -> run G' t = run G t) by (intros t Ht; by apply run_eq, Ha).
  split; unfold older, disjoint_keys.
  - intros t Ht. destruct (T1 t Ht) as [? ? ? ?]. split; rewrite ?Hr by done; try done. by rewrite Ha.
  - intros a b Hx Hy. rewrite !Hr by done. by apply T2.
  - intros a b Hx Hy. rewrite !Hr by done. by apply T3.
  - intros a b Hx Hy. rewrite !Hr by done. by apply T4.
Qed.

Lemma stands_agree G G' ts hist : agree G G' ts -> stands_for G ts hist -> stands_for G' ts hist.
Proof.
  intros Ha [S1 S2]. assert (Hr : forall t, t ∈ ts -> run G' t = run G t) by (intros t Ht; by apply run_eq, Ha).
  split.
  - intros t x Ht. rewrite Hr by done. by apply S1.
  - intros x Hx. destruct (S2 x Hx) as (t & e & Ht & He & Hk). exists t, e. by rewrite Hr.
Qed.

(** A table flushed with versions newer than all that the tables hold. *)
Lemma tree_flush G ts t hist :
  tree G ts -> stands_for G ts hist -> table_ok G t -> level t = 0 ->
  (forall x y, x ∈ hist -> y ∈ run G t -> Seq x < Seq y) ->
  tree G (t :: ts) /\ stands_for G (t :: ts) (run G t ++ hist).
Proof.
  intros [T1 T2 T3 T4] [S1 S2] Ht Hl Hnew.
  assert (Hold : forall a, a ∈ ts -> older G a t) by (intros a Ha x y Hx; eauto).
  split; [split|split].
  - intros a [->|Ha]%elem_of_cons; auto.
  - intros a b [->|Ha]%elem_of_cons [->|Hb]%elem_of_cons Hlt; [lia|by apply Hold| |by apply T2].
    pose proof (tk_level _ _ (T1 a Ha)). lia.
  - intros a b [->|Ha]%elem_of_cons [->|Hb]%elem_of_cons Hne La Lb; auto; done.
  - intros a b [->|Ha]%elem_of_cons [->|Hb]%elem_of_cons Hne La Lb; auto; lia.
  - intros a x [->|Ha]%elem_of_cons Hx; apply elem_of_app; eauto.
  - intros x [Hx|Hx]%elem_of_app.
    + exists t, x. split; [by left|]. split; [done|]. split; [done|lia].
    + destruct (S2 x Hx) as (a & e & Ha & He). exists a, e. by split; [right|].
Qed.

(** ** Compactions in flight *)

Definition taken (res : Result H) (t : Table H) : Prop := Table_Path t ∈ map tm_Path (Result_Obsolete res).
#[export] Instance taken_dec res t : Decision (taken res t).
Proof. unfold taken. apply _. Defined.

(** What holds of a result between its plan and its installation; tables
    flushed in between may be in level 0. *)
Record flight (G : ghost) (ts : list (Table H)) (res : Result H) (i : Z) : Prop := {
  fl_level : 0 <= i /\ Result_OutputLevel res = i + 1;
  fl_obsolete p : p ∈ map tm_Path (Result_Obsolete res) -> p ∈ map Table_Path ts;
  fl_taken t : t ∈ ts -> taken res t -> level t = i \/ level t = i + 1;
  fl_rest t : t ∈ ts -> level t = i -> ~ taken res t -> forall c, c ∈ ts -> taken res c -> older G c t;
  fl_next t : t ∈ ts -> level t = i + 1 -> ~ taken res t -> forall c, c ∈ ts -> taken res c -> disjoint_keys G c t;
  fl_out : exists out es, Result_Output res = [out] /\ h_holds out es /\ G !! h_Path out = Some es /\
    (h_Path out ∉ map Table_Path ts) /\
    (forall e, e ∈ es -> exists c, c ∈ ts /\ taken res c /\ e ∈ run G c) /\
    (forall c x, c ∈ ts -> taken res c -> x ∈ run G c -> exists e, e ∈ es /\ Key e = Key x /\ Seq x <= Seq e)
}.

Lemma flight_perm G ts ts' res i : ts ≡ₚ ts' -> flight G ts res i -> flight G ts' res i.
Proof.
  intros P [F1 F2 F3 F4 F5 F6]. assert (Hm : map Table_Path ts ≡ₚ map Table_Path ts') by (by rewrite P).
  assert (Hi : forall t, t ∈ ts' <-> t ∈ ts) by (intros t; by rewrite P).
  split; [done|intros p Hp; rewrite <- Hm; auto|intros t; rewrite Hi; auto|..].
  - intros t Ht%Hi Hl Hn c Hc%Hi. by apply F4.
  - intros t Ht%Hi Hl Hn c Hc%Hi. by apply F5.
  - destruct F6 as (out & es & A1 & A2 & A3 & A4 & A5 & A6). exists out, es. split; [done|]. split; [done|]. split; [done|].
    split; [by rewrite <- Hm|]. split; [|intros c x Hc%Hi; by apply A6]. intros e He. destruct (A5 e He) as (c & Hc%Hi & Ht). by exists c.
Qed.

Lemma flight_agree G G' ts res i :
  agree G G' ts -> (forall out, out ∈ Result_Output res -> G' !! h_Path out = G !! h_Path out) ->
  flight G ts res i -> flight G' ts res i.
Proof.
  intros Ha Ho [F1 F2 F3 F4 F5 F6]. assert (Hr : forall t, t ∈ ts -> run G' t = run G t) by (intros t Ht; by apply run_eq, Ha).
  split; unfold older, disjoint_keys; try done.
  - intros t Ht Hl Hn c Hc. rewrite !Hr by done. by apply F4.
  - intros t Ht Hl Hn c Hc. rewrite !Hr by done. by apply F5.
  - destruct F6 as (out & es & A1 & A2 & A3 & A4 & A5 & A6). exists out, es. split; [done|]. split; [done|].
    split; [rewrite Ho; [done|rewrite A1; by left]|]. split; [done|]. split.
    + intros e He. destruct (A5 e He) as (c & Hc & Ht & Hx). exists c. by rewrite Hr.
    + intros c x Hc. rewrite Hr by done. by apply A6.
Qed.

Lemma flight_flush G ts res i t :
  flight G ts res i -> level t = 0 -> (Table_Path t ∉ map Table_Path ts) -> (forall out, out ∈ Result_Output res -> h_Path out <> Table_Path t) ->
  (forall c, c ∈ ts -> older G c t) -> flight G (t :: ts) res i.
Proof.
  intros [[F0 F1] F2 F3 F4 F5 F6] Hl Hp Ho Hold.
  assert (Hnt : forall c, c ∈ t :: ts -> taken res c -> c ∈ ts).
  { intros c [->|Hc]%elem_of_cons Ht; [|done]. by destruct Hp; apply F2. }
  split; [done| | | | |].
  - intros p Hpp. right. by apply F2.
  - intros c Hc Ht. apply F3; [by apply Hnt|done].
  - intros a Ha La Na c Hc Tc. specialize (Hnt c Hc Tc). apply elem_of_cons in Ha as [->|Ha]; [by apply Hold|by apply F4].
  - intros a Ha La Na c Hc Tc. specialize (Hnt c Hc Tc). apply elem_of_cons in Ha as [->|Ha]; [lia|by apply F5].
  - destruct F6 as (out & es & A1 & A2 & A3 & A4 & A5 & A6). exists out, es. split; [done|]. split; [done|]. split; [done|].
    split; [cbn [map]; rewrite not_elem_of_cons; split; [apply Ho; rewrite A1; by left|done]|]. split.
    + intros e He. destruct (A5 e He) as (c & Hc & Ht). exists c. by split; [right|].
    + intros c x Hc Tc. by apply A6; [apply Hnt|].
Qed.

Lemma stands_perm G ts ts' hist : ts ≡ₚ ts' -> stands_for G ts hist -> stands_for G ts' hist.
Proof. 
  intros P [S1 S2]. assert (Hi : forall t, t ∈ ts' <-> t ∈ ts) by (intros t; by rewrite P). split.
  - intros t x Ht%Hi. by apply S1.
  - intros x Hx. destruct (S2 x Hx) as (t & e & Ht%Hi & He). by exists t, e.
Qed.

Lemma tree_perm G ts ts' : ts ≡ₚ ts' -> tree G ts -> tree G ts'.
Proof. intros P T. apply (tree_sub G ts); [done|]. intros t. by rewrite P. Qed.

(** The tables that a result leaves in place, and those it brings. *)
Definition kept (res : Result H) (ts : list (Table H)) : list (Table H) := filter (fun t => Table_Path t ∉ map tm_Path (Result_Obsolete res)) ts.
Definition brought (res : Result H) : list (Table H) :=
  map (fun t => mkTable (TableMetaFromSSTable t (Result_OutputLevel res)) t) (Result_Output res).

Lemma tree_install G ts res i hist :
  tree G ts -> stands_for G ts hist -> flight G ts res i ->
  tree G (brought res ++ kept res ts) /\ stands_for G (brought res ++ kept res ts) hist.
Proof.
  intros T [S1 S2] [[Hi El] _ F2 F3 F4 (out & es & Eo & Hh & Hg & Hp & Hfrom & Hto)]. unfold brought. rewrite Eo, El. cbn [map app].
  set (o := mkTable _ out). assert (Hr : run G o = es) by (unfold run; cbn; by rewrite Hg).
  assert (Ho : table_ok G o) by (split; cbn; rewrite ?Hr; [done|done|done|unfold level; cbn; lia]).
  assert (Hk : forall t, t ∈ kept res ts -> t ∈ ts /\ ~ taken res t) by (intros t Ht; apply list_elem_of_filter in Ht; tauto).
  assert (Hlow : forall t, t ∈ kept res ts -> level t < i + 1 -> older G o t).
  { intros t [Ht Hnt]%Hk Hl x y Hx Hy. rewrite Hr in Hx. destruct (Hfrom x Hx) as (c & Hc & Htc & Hxc).
    destruct (decide (level t = i)) as [E|E]; [by apply (F3 t Ht E Hnt c Hc Htc)|].
    apply (tr_levels _ _ T t c); auto. destruct (F2 c Hc Htc); lia. }
  assert (Hhigh : forall t, t ∈ kept res ts -> i + 1 < level t -> older G t o).
  { intros t [Ht Hnt]%Hk Hl x y Hx Hy. rewrite Hr in Hy. destruct (Hfrom y Hy) as (c & Hc & Htc & Hyc).
    apply (tr_levels _ _ T c t); auto. destruct (F2 c Hc Htc); lia. }
  assert (Hdis : forall t x y, t ∈ kept res ts -> level t = i + 1 -> x ∈ run G o -> y ∈ run G t -> Key x <> Key y).
  { intros t x y [Ht Hnt]%Hk Hl Hx Hy. rewrite Hr in Hx. destruct (Hfrom x Hx) as (c & Hc & Htc & Hxc).
    by apply (F4 t Ht Hl Hnt c Hc Htc). }
  destruct (tree_sub G ts (kept res ts) T) as [K1 K2 K3 K4]; [intros t Ht; by apply Hk|].
  change (level o) with (i + 1) in *. split; [split|split].
  - intros t [->|Ht]%elem_of_cons; auto.
  - intros a b [->|Ha]%elem_of_cons [->|Hb]%elem_of_cons Hl; change (level o) with (i + 1) in *; auto; lia.
  - intros a b [->|Ha]%elem_of_cons [->|Hb]%elem_of_cons Hne La Lb; change (level o) with (i + 1) in *; auto; lia.
  - intros a b [->|Ha]%elem_of_cons [->|Hb]%elem_of_cons Hne La Lb; change (level o) with (i + 1) in *; [done| | |by auto].
    + intros x y. apply Hdis; [done|lia].
    + intros x y Hx Hy E. by apply (Hdis a y x).
  - intros t x [->|Ht]%elem_of_cons Hx; [|apply Hk in Ht as [Ht _]; eauto]. rewrite Hr in Hx. destruct (Hfrom x Hx) as (c & Hc & _ & Hxc). eauto.
  - intros x Hx. destruct (S2 x Hx) as (t & e & Ht & He & Ek & Es). destruct (decide (taken res t)) as [Htk|Htk].
    + destruct (Hto t e Ht Htk He) as (e' & He' & Ek' & Es'). exists o, e'. rewrite Hr. split; [by left|]. split; [done|]. split; [congruence|lia].
    + exists t, e. split; [right; by apply list_elem_of_filter|]. done.
Qed.
End Tree.

(** ** Flushes and compactions *)

(** What the tree relies on of the storage: a flush makes a table that holds
    the run under a name that was never used before, or fails.  A name
    carries the time at which the file was made. *)
Class StorageLaws (H M : Type) `{TableHandleLaws H} `{Storage H M} := {
  names : M -> gset string;
  fits : Entry -> Prop;
  law_Flush es m : sorted_run es -> es <> [] -> Forall fits es ->
    wpe (flusher_Flush es) (fun t m' => h_holds t es /\ (h_Path t ∉ names m) /\ {[h_Path t]} ∪ names m ⊆ names m')
      (fun m' => names m ⊆ names m') m;
  law_Update fn m : wpe (manifest_Update fn) (fun _ m' => names m ⊆ names m') (fun m' => names m ⊆ names m') m;
  law_Remove path m : wpe (removeFile path) (fun _ m' => names m ⊆ names m') (fun m' => names m ⊆ names m') m
}.

Section Ops.
Context {H M : Type} `{SL : StorageLaws H M}.
Context (planner : StrictLevelledPlanner) (dropTombstones : bool) (fuel : nat).

(** The table set, the paths that open snapshots pin, the storage, and the
    result of the compaction that is running. *)
Record lsm := mkLsm {
  lsm_set : Set_ H;
  lsm_open : list (list string);
  lsm_store : M;
  lsm_flight : option (Result H)
}.

(** What goroutines do to the tables: the flush of a memtable, the two halves
    of a compaction step (there is one compaction goroutine), snapshots and
    their release with the removal of the files nobody needs any more. *)
Inductive lsm_op := LsmFlush (es : list Entry) | LsmPlan | LsmInstall | LsmSnapshot | LsmClose (i : nat).

(** The outcome of an operation: what it flushed. *)
Definition lsm_step (st : lsm) (op : lsm_op) : result (list Entry) * lsm :=
  let '(mkLsm set open store res) := st in
  match op with
  | LsmFlush es =>
      let '(r, (set, store)) := (t ← on_storage (flusher_Flush es); _ ← flush_apply t; mret es) (set, store) in
      (r, mkLsm set open store res)
  | LsmPlan =>
      match res with
      | Some _ => (Ok [], st)
      | None =>
          let '(r, (set, store)) := Step_run planner dropTombstones fuel (set, store) in
          ((fun _ => []) <$> r, mkLsm set open store (match r with Ok res => res | _ => None end))
      end
  | LsmInstall =>
      match res with
      | None => (Ok [], st)
      | Some res =>
          let '(r, (set, store)) := apply_result res (set, store) in
          ((fun _ => []) <$> r, mkLsm set open store None)
      end
  | LsmSnapshot => let '(_, (set, open)) := ts_step (set, open) TsSnapshot in (Ok [], mkLsm set open store res)
  | LsmClose i =>
      let '(ready, (set, open)) := ts_step (set, open) (TsClose i) in
      let '(r, store) := remove_tables ready store in
      ((fun _ => []) <$> r, mkLsm set open store res)
  end.

Definition flushed_by (r : result (list Entry)) : list Entry := match r with Ok es => es | _ => [] end.

(** A run with its history: the entries flushed so far. *)
Fixpoint lsm_run (hist : list Entry) (st : lsm) (ops : list lsm_op) : list (result (list Entry)) * list Entry * lsm :=
  match ops with
  | [] => ([], hist, st)
  | op :: ops =>
      let '(r, st) := lsm_step st op in
      let '(rs, hist, st) := lsm_run (flushed_by r ++ hist) st ops in
      (r :: rs, hist, st)
  end.

(** Flushes in the order of their sequence numbers. *)
Definition op_in_order (hist : list Entry) (op : lsm_op) : Prop :=
  match op with
  | LsmFlush es => sorted_run es /\ es <> [] /\ Forall fits es /\ Forall (fun x => Forall (fun y => Seq x < Seq y) es) hist
  | _ => True
  end.
Fixpoint ops_in_order (hist : list Entry) (st : lsm) (ops : list lsm_op) : Prop :=
  match ops with
  | [] => True
  | op :: ops => op_in_order hist op /\ let '(r, st) := lsm_step st op in ops_in_order (flushed_by r ++ hist) st ops
  end.

#[export] Instance ops_in_order_dec `{!forall e, Decision (fits e)} ops : forall hist st, Decision (ops_in_order hist st ops).
Proof.
  induction ops as [|op ops IH]; intros hist st; cbn [ops_in_order]; [apply _|].
  destruct (lsm_step st op) as [r st']. apply and_dec; [|apply IH]. destruct op; cbn [op_in_order]; unfold sorted_run; apply _.
Defined.

Definition new_lsm (store : M) : lsm := mkLsm (NewSet []) [] store None.

(** ** The invariant of the operations *)

Definition total (G : gmap string (list Entry)) (ts : list (Table H)) : nat := length (concat (map (run G) ts)).

Lemma total_perm G ts ts' : ts ≡ₚ ts' -> total G ts = total G ts'.
Proof. intros P. unfold total. by rewrite (concat_perm _ _ (fmap_Permutation (run G) _ _ P)). Qed.

Lemma total_app G a b : total G (a ++ b) = (total G a + total G b)%nat.
Proof. unfold total. by rewrite map_app, concat_app, length_app. Qed.

Lemma total_agree G G' ts : agree G G' ts -> total G' ts = total G ts.
Proof.
  intros Ha. unfold total. do 2 f_equal. apply list_fmap_ext. intros i x Hx. apply run_eq, Ha. by eapply list_elem_of_lookup_2.
Qed.

Definition names_used (set : Set_ H) (store : M) (res : option (Result H)) : Prop :=
  (forall p, p ∈ in_use set -> p ∈ names store) /\
  (forall r, res = Some r -> Forall (fun t => h_Path t ∈ names store /\ (h_Path t ∉ in_use set)) (Result_Output r)).

Record lsm_inv (G : gmap string (list Entry)) (hist : list Entry) (st : lsm) : Prop := {
  li_set : ts_inv (lsm_set st, lsm_open st);
  li_tree : tree G (set_tables (lsm_set st));
  li_hist : stands_for G (set_tables (lsm_set st)) hist;
  li_size : (total G (set_tables (lsm_set st)) <= length hist)%nat;
  li_fits : Forall fits hist;
  li_unique x y : x ∈ hist -> y ∈ hist -> Key x = Key y -> Seq x = Seq y -> x = y;
  li_names : names_used (lsm_set st) (lsm_store st) (lsm_flight st);
  li_flight res : lsm_flight st = Some res -> exists i, flight G (set_tables (lsm_set st)) res i
}.

Lemma remove_tables_spec ts : forall m,
  wpe (remove_tables ts) (fun _ m' => names m ⊆ names m') (fun m' => names m ⊆ names m') m.
Proof.
  induction ts as [|t ts IH]; intros m; cbn [remove_tables]; [by apply wpe_ret|]. apply wpe_bind, wpe_catch.
  eapply wpe_mono; [apply law_Remove| |]; cbv beta.
  - intros _ m1 Hm. eapply wpe_mono; [apply IH| |]; cbv beta; intros; set_solver.
  - intros m1 Hm e. eapply wpe_mono; [apply IH| |]; cbv beta; intros; set_solver.
Qed.

(** An edit of the tables, whether or not the manifest could be updated. *)
Definition edited (set : Set_ H) (open : list (list string)) (store : M) (add : list (Table H)) (remove : list string) (s : Set_ H * M) : Prop :=
  ts_inv (fst s, open) /\ set_tables (fst s) ≡ₚ filter (fun t => Table_Path t ∉ remove) (set_tables set) ++ add /\
  (forall p, p ∈ in_use (fst s) -> p ∈ in_use set \/ p ∈ map Table_Path add) /\ names store ⊆ names (snd s).

Lemma Service_Apply_spec add remove walSeq set open store :
  ts_inv (set, open) -> edit_fresh set (mkEdit add (map tm_Path remove)) ->
  let post := edited set open store add (map tm_Path remove) in
  wpe (Service_Apply add remove walSeq) (fun _ => post) post (set, store).
Proof.
  intros Hi Hf. cbv zeta. unfold wpe, Service_Apply. cbn [fst snd]. set (e := mkEdit add (map tm_Path remove)) in *.
  pose proof (edit_step set open e Hi Hf) as Hs. pose proof (Set_Apply_tables set e) as Ht.
  pose proof (fun p => Set_Apply_in_use set open e p Hi Hf) as Hu.
  destruct (Set_Apply set e) as [removed set']. cbn [snd] in *. destruct Hs as (Hi' & _ & _).
  set (rest := mbind _ _).
  assert (Hr : wpe rest (fun _ m' => names store ⊆ names m') (fun m' => names store ⊆ names m') store).
  { apply wpe_bind. eapply wpe_mono; [apply law_Update| |done]; cbv beta. intros _ m1 Hm.
    eapply wpe_mono; [apply remove_tables_spec| |]; cbv beta; intros; set_solver. }
  unfold wpe in Hr. destruct (rest store) as [[u|err| |] m']; try done; by split.
Qed.

Lemma flush_apply_spec t set open store :
  ts_inv (set, open) -> h_Path t ∉ in_use set ->
  wpe (flush_apply t) (fun _ => edited set open store [mkTable (TableMetaFromSSTable t 0) t] []) (fun _ => False) (set, store).
Proof.
  intros Hi Hp. unfold flush_apply. apply wpe_bind, wpe_catch.
  eapply wpe_mono; [apply (Service_Apply_spec _ [] _ set open store Hi)| |]; cbv beta; [|intros _ s Hs; exact Hs|intros s Hs e; exact Hs].
  split; cbn [map Edit_Add].
  - apply NoDup_singleton.
  - by intros p ->%list_elem_of_singleton.
Qed.

Lemma wpe_on_storage {A} (m : SE M A) (Q : A -> Set_ H * M -> Prop) E set store :
  wpe m (fun a x => Q a (set, x)) (fun x => E (set, x)) store -> wpe (on_storage m) Q E (set, store).
Proof. unfold wpe, on_storage. cbn [fst snd]. by destruct (m store) as [[a| | |] x]. Qed.

Definition step_inv (hist : list Entry) (out : result (list Entry) * lsm) : Prop :=
  match fst out with
  | Ok es => exists G, lsm_inv G (es ++ hist) (snd out)
  | Err _ => exists G, lsm_inv G hist (snd out)
  | _ => False
  end.

Lemma tables_in_use (set : Set_ H) t : t ∈ set_tables set -> Table_Path t ∈ in_use set.
Proof. intros Ht. apply elem_of_app. left. by apply list_elem_of_fmap_2. Qed.

Lemma names_keep G hist set open store store' res :
  lsm_inv G hist (mkLsm set open store res) -> names store ⊆ names store' -> lsm_inv G hist (mkLsm set open store' res).
Proof.
  intros [I1 I2 I3 I4 I5 I6 [N1 N2] I8] Hs. split; try done. split; [intros p Hp; by apply Hs, N1|]. intros r Hr.
  eapply Forall_impl; [by apply N2|]. intros t [Ht Hu]. split; [by apply Hs|done].
Qed.

(** A table flushed in order. *)
Lemma inv_flush G hist set open store res t es set' store' store'' :
  lsm_inv G hist (mkLsm set open store res) -> op_in_order hist (LsmFlush es) ->
  h_holds t es -> (h_Path t ∉ names store) -> {[h_Path t]} ∪ names store ⊆ names store' ->
  edited set open store' [mkTable (TableMetaFromSSTable t 0) t] [] (set', store'') ->
  exists G', lsm_inv G' (es ++ hist) (mkLsm set' open store'' res).
Proof.
  intros [I1 I2 I3 I4 I5 I6 [N1 N2] I8] (Hs & Hne & Hfit & Hnew0) Hh Hfr Hn (E1 & E2 & E3 & E4). cbn [lsm_set lsm_open lsm_store lsm_flight fst snd] in *.
  assert (Hnew : forall x y, x ∈ hist -> y ∈ es -> Seq x < Seq y).
  { intros x y Hx Hy. rewrite Forall_forall in Hnew0. specialize (Hnew0 x Hx). rewrite Forall_forall in Hnew0. by apply Hnew0. }
  set (T := mkTable _ t) in *. set (G' := <[h_Path t := es]> G). rewrite list_filter_all in E2 by (intros; apply not_elem_of_nil).
  assert (Hp : Table_Path T ∉ map Table_Path (set_tables set)).
  { intros Hin. apply Hfr, N1. apply elem_of_app. by left. }
  assert (P : T :: set_tables set ≡ₚ set_tables set') by (rewrite E2; by rewrite (Permutation_app_comm _ [T])).
  assert (Ha : agree G G' (set_tables set)) by (by apply agree_insert).
  assert (Hr : run G' T = es) by (unfold run, G'; cbn; by rewrite lookup_insert_eq).
  assert (Ht : table_ok G' T) by (split; rewrite ?Hr; cbn; [by unfold G'; rewrite lookup_insert_eq|done|done|done]).
  destruct (tree_flush G' (set_tables set) T hist) as [T1 T2]; [by apply (tree_agree G)|by apply (stands_agree G)|done|done|by rewrite Hr|].
  exists G'. split; cbn [lsm_set lsm_open lsm_store lsm_flight].
  - done.
  - by eapply tree_perm.
  - rewrite Hr in T2. by eapply stands_perm.
  - rewrite <- (total_perm _ _ _ P). change (T :: set_tables set) with ([T] ++ set_tables set). rewrite (total_app _ [T] (set_tables set)), (total_agree G G' (set_tables set)) by done. unfold total at 1. cbn [map concat].
    rewrite Hr, app_nil_r, length_app. lia.
  - by apply Forall_app.
  - intros x y [Hx|Hx]%elem_of_app [Hy|Hy]%elem_of_app Hk Hq; [|specialize (Hnew y x Hy Hx); lia|specialize (Hnew x y Hx Hy); lia|by apply I6].
    rewrite <- Hr in Hx, Hy. by eapply run_keys.
  - split.
    + intros p [Hu|Hu]%E3; [apply E4, Hn, elem_of_union_r, N1, Hu|]. apply list_elem_of_singleton in Hu as ->. apply E4, Hn. set_solver.
    + intros r Hre. eapply Forall_impl; [by apply N2|]. intros o [Ho Hu]. split; [apply E4, Hn; set_solver|].
      intros [Hu'|Hu']%E3; [done|]. apply list_elem_of_singleton in Hu'. cbn in Hu'. congruence.
  - intros r Hre. destruct (I8 r Hre) as [i Hf]. exists i. eapply flight_perm; [exact P|]. pose proof (N2 r Hre) as Ho. rewrite Forall_forall in Ho.
    assert (Hd : forall out, out ∈ Result_Output r -> h_Path out <> h_Path t) by (intros o [Hi _]%Ho E; apply Hfr; by rewrite <- E).
    apply flight_flush; [|done|done|done|].
    + eapply flight_agree; [exact Ha| |done]. intros o Hi. unfold G'. rewrite lookup_insert_ne by (intros E; by apply (Hd o)). done.
    + intros c Hc x y Hx Hy. rewrite Hr in Hy. apply Hnew; [|done]. apply (sf_from _ _ _ I3 c); [done|]. by rewrite (run_eq G G' c (Ha c Hc)) in Hx.
Qed.

Lemma flush_step_ok G hist st es :
  lsm_inv G hist st -> op_in_order hist (LsmFlush es) -> step_inv hist (lsm_step st (LsmFlush es)).
Proof.
  destruct st as [set open store res]. intros Hi Ho. cbn [lsm_step]. set (m := mbind _ _).
  assert (Hw : wpe m (fun a s => a = es /\ exists G', lsm_inv G' (es ++ hist) (mkLsm (fst s) open (snd s) res))
    (fun s => lsm_inv G hist (mkLsm (fst s) open (snd s) res)) (set, store)).
  { apply wpe_bind, wpe_on_storage. pose proof Ho as (Hs & Hne & Hfit & _).
    eapply wpe_mono; [by apply law_Flush| |]; cbv beta; [|intros s Hn; by eapply names_keep].
    intros t store' (Hh & Hfr & Hn). apply wpe_bind. eapply wpe_mono; [apply (flush_apply_spec t set open store')| |done].
    - apply Hi.
    - intros Hu. by apply Hfr, (li_names _ _ _ Hi).
    - intros _ [set' store''] He. apply wpe_ret. split; [done|]. by eapply inv_flush. }
  unfold wpe in Hw. destruct (m (set, store)) as [[a|e| |] [set' store']]; try done.
  - destruct Hw as [-> (G' & Hw)]. by exists G'.
  - by exists G.
Qed.

Lemma total_install G ts res i :
  flight G ts res i -> (total G (brought res ++ kept res ts) <= total G ts)%nat.
Proof.
  intros [_ _ _ _ _ (out & es & Eo & Hh & Hg & _ & Hfrom & _)]. rewrite total_app.
  rewrite <- (total_perm G _ ts (filter_split (fun t => Table_Path t ∉ map tm_Path (Result_Obsolete res)) ts)).
  fold (kept res ts). rewrite total_app. enough (total G (brought res) <= total G (filter (fun t => ~ (Table_Path t ∉ map tm_Path (Result_Obsolete res))) ts))%nat by lia.
  unfold brought. rewrite Eo. unfold total. cbn [map concat]. rewrite app_nil_r. set (o := mkTable _ out).
  assert (run G o = es) as -> by (unfold run; cbn; by rewrite Hg).
  apply submseteq_length, NoDup_submseteq; [by eapply NoDup_fmap_1, sorted_run_keys, law_run|].
  intros e He. destruct (Hfrom e He) as (c & Hc & Ht & Hx). apply list_elem_of_In, in_concat. exists (run G c).
  split; [|by apply list_elem_of_In]. apply in_map, list_elem_of_In, list_elem_of_filter. split; [by intros Hn|done].
Qed.

Lemma inv_install G hist set open store res set' store' :
  lsm_inv G hist (mkLsm set open store (Some res)) ->
  edited set open store (brought res) (map tm_Path (Result_Obsolete res)) (set', store') ->
  lsm_inv G hist (mkLsm set' open store' None).
Proof.
  intros [I1 I2 I3 I4 I5 I6 [N1 N2] I8] (E1 & E2 & E3 & E4). cbn [lsm_set lsm_open lsm_store lsm_flight fst snd] in *.
  destruct (I8 res eq_refl) as [i Hf]. rewrite Permutation_app_comm in E2. fold (kept res (set_tables set)) in E2. symmetry in E2.
  destruct (tree_install G _ res i hist I2 I3 Hf) as [T1 T2]. split; cbn [lsm_set lsm_open lsm_store lsm_flight]; try done.
  - by eapply tree_perm.
  - by eapply stands_perm.
  - rewrite <- (total_perm _ _ _ E2). etrans; [apply (total_install G _ res i Hf)|done].
  - split; [|done]. intros p [Hp|Hp]%E3; [by apply E4, N1|]. unfold brought in Hp. rewrite map_map in Hp.
    apply list_elem_of_fmap in Hp as (t & -> & Ht). pose proof (N2 res eq_refl) as Hn. rewrite Forall_forall in Hn. by apply E4, Hn.
Qed.

Lemma install_step_ok G hist st :
  lsm_inv G hist st -> step_inv hist (lsm_step st LsmInstall).
Proof.
  destruct st as [set open store [res|]]; intros Hi; cbn [lsm_step]; [|by exists G].
  assert (Hw : let post s := lsm_inv G hist (mkLsm (fst s) open (snd s) None) in wpe (apply_result res) (fun _ => post) post (set, store)).
  { assert (Hf : edit_fresh set (mkEdit (brought res) (map tm_Path (Result_Obsolete res)))).
    { destruct (li_flight _ _ _ Hi res eq_refl) as [i [_ _ _ _ _ (out & es & Eo & _)]].
      pose proof (proj2 (li_names _ _ _ Hi) res eq_refl) as Hn. cbn in Hn. unfold brought. rewrite Eo in *. apply Forall_inv in Hn as [_ Hn].
      split; cbn [map Edit_Add]; [apply NoDup_singleton|]. by intros p ->%list_elem_of_singleton. }
    eapply wpe_mono; [apply (Service_Apply_spec (brought res) (Result_Obsolete res) 0 set open store (li_set _ _ _ Hi) Hf)| |]; cbv beta;
      [intros _ [set' store']|intros [set' store']]; by apply inv_install. }
  cbv zeta in Hw. unfold wpe in Hw. destruct (apply_result res (set, store)) as [[a|e| |] [set' store']]; try done; by exists G.
Qed.

(** ** Runs of a plan *)

(** What a client wants to know of a flush of a run, from a given storage. *)
Definition flush_gives (store : M) (Q : list Entry -> H -> M -> Prop) (E : M -> Prop) : Prop :=
  forall es, sorted_run es -> es <> [] -> Forall fits es -> wpe (flusher_Flush es) (Q es) E store.

Lemma Run_spec G plan cs store Q F :
  dropTombstones = false -> Plan_Inputs plan <> [] -> cs <> [] -> (forall c, c ∈ cs -> table_ok G c) ->
  (forall c e, c ∈ cs -> e ∈ run G c -> fits e) -> (total G cs < fuel)%nat -> flush_gives store Q F ->
  wpe (Run dropTombstones fuel plan (map Table_Handle cs))
    (fun res store' => exists out es, res = mkResult [out] (Plan_Inputs plan) (Plan_OutputLevel plan) /\ Q es out store' /\
       (forall e, e ∈ es -> exists c, c ∈ cs /\ e ∈ run G c) /\
       (forall c x, c ∈ cs -> x ∈ run G c -> exists e, e ∈ es /\ Key e = Key x /\ Seq x <= Seq e))
    F store.
Proof.
  intros Hd Hp Hc Hok Hfit Hfuel HQ. unfold Run. rewrite Hd, (bool_decide_false _ Hp), bool_decide_false by (rewrite length_map; by destruct cs).
  set (sorted := merge_sort _ _). assert (P : map Table_Handle cs ≡ₚ sorted) by (symmetry; apply merge_sort_Permutation). clearbody sorted.
  apply symmetry, Permutation_map_inv in P as (cs' & -> & P). rewrite map_map.
  set (ss := map (fun c => (run G c, None : option error)) cs').
  assert (Hy : Forall2 (fun it s => yields it (fst s) (snd s)) (map (fun c => h_Range (Table_Handle c) [] []) cs') ss).
  { apply Forall2_fmap, Forall_Forall2_diag, Forall_forall. intros c Hi. cbn [fst snd]. rewrite <- P in Hi.
    rewrite <- (entries_between_all (run G c)). apply law_Scan, tk_holds, Hok, Hi. }
  assert (Hs : Forall (fun s : stream => sorted_run (fst s)) ss).
  { apply Forall_fmap, Forall_forall. intros c Hi. rewrite <- P in Hi. eapply law_run, tk_holds, Hok, Hi. }
  assert (Et : entries_of ss = concat (map (run G) cs')) by (unfold entries_of, ss; by rewrite map_map).
  assert (Hin : forall e, e ∈ entries_of ss <-> exists c, c ∈ cs /\ e ∈ run G c).
  { intros e. rewrite Et, list_elem_of_In, in_concat. setoid_rewrite in_map_iff. setoid_rewrite <- list_elem_of_In. setoid_rewrite P. naive_solver. }
  destruct (mergeEntries_spec false fuel _ ss Hy Hs) as [(out & -> & [M1 M2 M3] & _)|(e & _ & He)].
  - rewrite Et. fold (total G cs'). by rewrite <- (total_perm _ _ _ P).
  - apply wpe_bind, wpe_lift. left. exists out. split; [done|].
    assert (Hto : forall c x, c ∈ cs -> x ∈ run G c -> exists e, e ∈ out /\ Key e = Key x /\ Seq x <= Seq e).
    { intros c x Hci Hx. assert (Hxi : x ∈ entries_of ss) by (apply Hin; eauto). destruct (M3 x Hxi) as [(e & He & Hk)|[? _]]; [|done].
      exists e. split; [done|]. split; [done|]. destruct (M2 e He) as [(_ & _ & Hn) _]. specialize (Hn x Hxi (eq_sym Hk)). unfold newer in Hn. lia. }
    assert (Hne : out <> []).
    { destruct cs as [|c cs]; [done|]. destruct (table_seq G c (Hok c ltac:(by left))) as [_ (x & Hx & _)].
      destruct (Hto c x ltac:(by left) Hx) as (e & He & _). intros ->. by apply elem_of_nil in He. }
    rewrite bool_decide_false by (by destruct out). apply wpe_bind.
    assert (Hfr : forall e, e ∈ out -> exists c, c ∈ cs /\ e ∈ run G c) by (intros e He; apply Hin; by destruct (M2 e He) as [(Hi & _) _]).
    eapply wpe_mono; [apply HQ; [done|done|]| |]; cbv beta.
    + apply Forall_forall. intros e He. destruct (Hfr e He) as (c & Hci & Hx). eauto.
    + intros t store' Hq. apply wpe_ret. exists t, out. done.
    + done.
  - exfalso. apply list_elem_of_fmap in He as (s & E & Hi). apply list_elem_of_fmap in Hi as (c & -> & _). done.
Qed.

Lemma run_bounds G t e : table_ok G t -> e ∈ run G t -> tm_MinKey (Table_Meta t) ⪯ Key e /\ Key e ⪯ tm_MaxKey (Table_Meta t).
Proof.
  intros [_ Hh Hm _] He. rewrite Hm. cbn [TableMetaFromSSTable tm_MinKey tm_MaxKey]. pose proof (law_run _ _ Hh) as Hs.
  destruct (law_info _ _ Hh) as [[(f & Ef & ->) (l & El & ->) _ _] _].
  destruct (run G t) as [|x es]; [done|]. injection Ef as ->. apply StronglySorted_inv in Hs as [Hs Hx]. rewrite Forall_forall in Hx. split.
  - apply elem_of_cons in He as [->|He]; [bytes_order|]. specialize (Hx e He). unfold key_lt in Hx. bytes_order.
  - apply last_Some in El as [es' El]. rewrite El in He. apply elem_of_app in He as [He|He]; [|apply list_elem_of_singleton in He as ->; bytes_order].
    assert (Hss : sorted_run (es' ++ [l])) by (rewrite <- El; constructor; [done|by apply Forall_forall]).
    apply StronglySorted_app_1_elem_of with (x1 := e) (x2 := l) in Hss; [|done|by left]. unfold key_lt in Hss. bytes_order.
Qed.

Lemma no_overlap_disjoint G a b :
  table_ok G a -> table_ok G b -> metas_overlap (Table_Meta a) (Table_Meta b) = false -> disjoint_keys G a b.
Proof.
  intros Ha Hb Ho x y Hx Hy E. destruct (run_bounds G a x Ha Hx) as [A1 A2]. destruct (run_bounds G b y Hb Hy) as [B1 B2]. rewrite E in *.
  unfold metas_overlap, rangesOverlap in Ho. case_bool_decide; [done|]. case_bool_decide as C1; [rewrite bytes_compare_Lt in C1; bytes_order|].
  case_bool_decide as C2; [rewrite bytes_compare_Lt in C2; bytes_order|done].
Qed.

Lemma cs_total G (set : Set_ H) open cs :
  ts_inv (set, open) -> NoDup (map tm_Path (map Table_Meta cs)) -> (forall c, c ∈ cs -> c ∈ set_tables set) ->
  (total G cs <= total G (set_tables set))%nat.
Proof.
  intros Hi Hn Hc. assert (Hs : cs ⊆+ set_tables set).
  { apply NoDup_submseteq; [|done]. rewrite map_map in Hn. by eapply NoDup_fmap_1. }
  apply submseteq_Permutation in Hs as [k P]. rewrite (total_perm _ _ _ P), total_app. lia.
Qed.

(** The result of a compaction run, with the plan and the tables behind it. *)
Record planned (G : gmap string (list Entry)) (set : Set_ H) (res : Result H) (cs : list (Table H)) (i : Z) (out : H) (es : list Entry) : Prop := {
  pl_level : 0 <= i /\ Result_OutputLevel res = i + 1;
  pl_output : Result_Output res = [out];
  pl_takes m : m ∈ Result_Obsolete res <-> takes (Snapshot set) i m;
  pl_metas : map Table_Meta cs = Result_Obsolete res;
  pl_tables c : c ∈ cs -> c ∈ set_tables set;
  pl_some : cs <> [];
  pl_from e : e ∈ es -> exists c, c ∈ cs /\ e ∈ run G c;
  pl_to c x : c ∈ cs -> x ∈ run G c -> exists e, e ∈ es /\ Key e = Key x /\ Seq x <= Seq e
}.

(** The result of a plan, when it comes back from the run. *)
Lemma inv_planned G hist set open store res cs i out es store' :
  lsm_inv G hist (mkLsm set open store None) -> planned G set res cs i out es ->
  h_holds out es -> (h_Path out ∉ names store) -> {[h_Path out]} ∪ names store ⊆ names store' ->
  exists G', lsm_inv G' hist (mkLsm set open store' (Some res)).
Proof.
  destruct res as [outs obs lvl]. intros [I1 I2 I3 I4 I5 I6 [N1 N2] I8] [[Hi El] Eo Hin Em Hcs _ Hfrom Hto] Hh Hfr Hn.
  cbn [lsm_set lsm_open lsm_store lsm_flight fst snd Result_Output Result_Obsolete Result_OutputLevel] in *. subst outs.
  set (res := mkResult _ _ _). set (ts := set_tables set) in *.
  assert (Hp : h_Path out ∉ map Table_Path ts) by (intros Hu; apply Hfr, N1, elem_of_app; by left).
  set (G' := <[h_Path out := es]> G). assert (Ha : agree G G' ts) by (by apply agree_insert).
  assert (Hr : forall t, t ∈ ts -> run G' t = run G t) by (intros t Ht; by apply run_eq, Ha).
  assert (Huniq : forall a b, a ∈ ts -> b ∈ ts -> Table_Path a = Table_Path b -> a = b).
  { intros a b Hx Hy. apply (NoDup_map_inj Table_Path ts a b (ti_nodup _ I1)); done. }
  assert (Htk : forall t, t ∈ ts -> taken res t <-> t ∈ cs).
  { intros t Ht. unfold taken. cbn [res Result_Obsolete]. rewrite <- Em, map_map. split; [|apply (list_elem_of_fmap_2 Table_Path)].
    intros (c & E & Hc)%list_elem_of_fmap. by rewrite (Huniq t c Ht (Hcs c Hc) E). }
  assert (Htm : forall t, t ∈ ts -> t ∈ cs <-> takes (Snapshot set) i (Table_Meta t)).
  { intros t Ht. rewrite <- Hin, <- Em. split; [apply list_elem_of_fmap_2|]. intros (c & E & Hc)%list_elem_of_fmap.
    rewrite (Huniq t c Ht (Hcs c Hc)); [done|]. unfold Table_Path. by rewrite E. }
  assert (Hok : forall t, t ∈ ts -> table_ok G' t) by (intros t Ht; by apply (tr_ok G' ts (tree_agree G G' ts Ha I2))).
  exists G'. split; cbn [lsm_set lsm_open lsm_store lsm_flight]; try done.
  - by apply (tree_agree G).
  - by apply (stands_agree G).
  - by rewrite (total_agree G G').
  - split; [intros p Hu; apply Hn, elem_of_union_r, N1, Hu|]. intros r [= <-]. constructor; [|constructor]. split; [apply Hn; set_solver|auto].
  - intros r [= <-]. exists i. split; cbn [res Result_Obsolete Result_Output Result_OutputLevel].
    + by rewrite El.
    + intros p. rewrite <- Em, map_map. intros (c & -> & Hc)%list_elem_of_fmap. apply (list_elem_of_fmap_2 Table_Path). auto.
    + intros t Ht Hk%Htk%Htm; [|done..]. destruct Hk as [_ [?|[? _]]]; auto.
    + intros t Ht Hl Hnt. destruct Hnt. apply Htk, Htm; [done..|]. split; [|by left]. rewrite Snapshot_metas. by apply list_elem_of_fmap_2.
    + intros t Ht Hl Hnt c Hc Hk%Htk; [|done]. rewrite Htk, Htm in Hnt by done. pose proof Hk as [_ Hlc]%Htm; [|done].
      destruct (metas_overlap (Table_Meta c) (Table_Meta t)) eqn:Eo; [|apply no_overlap_disjoint; auto].
      destruct Hlc as [Hlc|[Hlc _]].
      * destruct Hnt. split; [rewrite Snapshot_metas; by apply list_elem_of_fmap_2|]. right. split; [done|].
        exists (Table_Meta c). split; [rewrite Snapshot_metas; by apply list_elem_of_fmap_2|]. done.
      * apply (tr_deep G' ts (tree_agree G G' ts Ha I2)); auto; unfold level in *; [|lia|lia]. intros E.
        apply Hnt. rewrite <- Htm, <- (Huniq c t) by done. done.
    + exists out, es. split; [done|]. split; [done|]. split; [by unfold G'; rewrite lookup_insert_eq|]. split; [done|]. split.
      * intros e He. destruct (Hfrom e He) as (c & Hc & Hx). exists c. split; [auto|]. split; [apply Htk; auto|]. rewrite Hr; auto.
      * intros c x Hc Hk%Htk Hx; [|done]. rewrite Hr in Hx by done. by apply (Hto c).
Qed.

Lemma Step_run_spec G hist set open store Q E :
  dropTombstones = false -> (length hist < fuel)%nat -> lsm_inv G hist (mkLsm set open store None) -> flush_gives store Q E ->
  wpe (Step_run planner dropTombstones fuel)
    (fun r s => fst s = set /\
       match r with
       | None => snd s = store
       | Some res => exists cs i out es, planned G set res cs i out es /\ Q es out (snd s)
       end)
    (fun s => fst s = set /\ E (snd s)) (set, store).
Proof.
  intros Hd Hf Hi HQ. unfold Step_run. apply wpe_get. cbn [fst]. apply wpe_bind, wpe_lift. left.
  destruct (Planner_Next_spec planner (Snapshot set)) as (r & -> & Hr).
  { rewrite Snapshot_metas, map_map. apply (ti_nodup _ (li_set _ _ _ Hi)). }
  exists r. split; [done|]. destruct r as [plan|]; [|done]. destruct Hr as (i & H0i & El & _ & _ & Hne & Hnd & Hin).
  destruct (Resolve_spec set open (Plan_Inputs plan) (li_set _ _ _ Hi)) as (cs & Er & Em & Hcs).
  { intros m [Hm _]%Hin. rewrite Snapshot_metas in Hm. apply list_elem_of_fmap in Hm as (t & -> & Ht). by exists t. }
  assert (Hcn : cs <> []) by (intros ->; by destruct (Plan_Inputs plan)).
  apply wpe_bind, wpe_lift. left. exists (map Table_Handle cs). split; [done|]. apply wpe_bind, wpe_on_storage.
  eapply wpe_mono; [apply (Run_spec G plan cs store Q E Hd Hne Hcn)| |]; cbv beta.
  - intros c Hc. by apply (li_tree _ _ _ Hi), Hcs.
  - intros c e Hc He. pose proof (li_fits _ _ _ Hi) as Hfit. rewrite Forall_forall in Hfit.
    apply Hfit, (sf_from _ _ _ (li_hist _ _ _ Hi) c); [by apply Hcs|done].
  - pose proof (cs_total G set open cs (li_set _ _ _ Hi)) as Ht. rewrite Em in Ht. pose proof (li_size _ _ _ Hi) as Hs. cbn [lsm_set] in Hs.
    specialize (Ht Hnd Hcs). lia.
  - done.
  - intros res store' (out & es & -> & Hq & Hfrom & Hto). apply wpe_ret. split; [done|]. exists cs, i, out, es. by split.
  - done.
Qed.

Lemma plan_step_ok G hist st :
  dropTombstones = false -> (length hist < fuel)%nat -> lsm_inv G hist st -> step_inv hist (lsm_step st LsmPlan).
Proof.
  intros Hd Hf Hi. destruct st as [set open store [res|]]; cbn [lsm_step]; [by exists G|].
  pose proof (Step_run_spec G hist set open store _ _ Hd Hf Hi (fun es => law_Flush es store)) as Hw.
  unfold wpe in Hw. destruct (Step_run planner dropTombstones fuel (set, store)) as [[a|e| |] [set' store']]; try done; cbn [fst snd] in Hw; destruct Hw as [-> Hw].
  - destruct a as [res|]; [|subst store'; by exists G]. destruct Hw as (cs & i & out & es & Hpl & Hh & Hfr & Hn).
    destruct (inv_planned _ _ _ _ _ _ _ _ _ _ _ Hi Hpl Hh Hfr Hn) as [G' ?]. by exists G'.
  - exists G. by eapply names_keep.
Qed.

Lemma pins_step_ok G hist st op :
  op = LsmSnapshot \/ (exists i, op = LsmClose i) -> lsm_inv G hist st -> step_inv hist (lsm_step st op).
Proof.
  destruct st as [set open store res]. intros Hop [I1 I2 I3 I4 I5 I6 [N1 N2] I8]. cbn [lsm_set lsm_open lsm_store lsm_flight] in *.
  assert (Hts : exists top : ts_op H, op = LsmSnapshot /\ top = TsSnapshot \/ exists i, op = LsmClose i /\ top = TsClose i) by naive_solver.
  destruct Hts as [top Hts]. assert (Hfr : op_fresh (set, open) top) by naive_solver.
  pose proof (ts_step_ok (set, open) top I1 Hfr) as Hs.
  assert (E : lsm_step (mkLsm set open store res) op = let '(ready, (set, open)) := ts_step (set, open) top in
    let '(r, store) := remove_tables ready store in ((fun _ => []) <$> r, mkLsm set open store res)) by (destruct Hts as [[-> ->]|(i & -> & ->)]; done).
  assert (Et : set_tables (fst (snd (ts_step (set, open) top))) = set_tables set).
  { destruct Hts as [[_ ->]|(i & _ & ->)]; cbn [ts_step]; [done|]. destruct (open !! i) as [paths|]; [|done].
    unfold Unpin. destruct paths; [done|]. destruct (set_pinned set); [|done]. by destruct (unpin_loop _ _ _) as [? [? ?]]. }
  rewrite E. destruct (ts_step (set, open) top) as [o [set' open']]. cbn [fst snd] in *. destruct Hs as (Hi' & _ & P). cbn [fst] in P.
  assert (Hu : forall p, p ∈ in_use set' -> p ∈ in_use set).
  { intros p. unfold in_use. rewrite <- !map_app. intros (t & -> & Ht)%list_elem_of_fmap. apply list_elem_of_fmap_2.
    assert (Ht' : t ∈ (set_tables set' ++ values (set_pending set')) ++ o) by (apply elem_of_app; by left). rewrite <- P in Ht'.
    destruct Hts as [[_ ->]|(i & _ & ->)]; by rewrite app_nil_r in Ht'. }
  pose proof (remove_tables_spec o store) as Hrm. unfold wpe in Hrm.
  assert (Hinv : forall store', names store ⊆ names store' -> lsm_inv G hist (mkLsm set' open' store' res)).
  { intros store' Hn. apply (names_keep _ _ _ _ store); [|done]. split; cbn [lsm_set lsm_open lsm_store lsm_flight]; rewrite ?Et; try done.
    split; [auto|]. intros r Hr. eapply Forall_impl; [by apply N2|]. intros t [? Hnu]. split; auto. }
  destruct (remove_tables o store) as [[u|e| |] store']; try done; exists G; by apply Hinv.
Qed.

Lemma lsm_step_ok G hist st op :
  dropTombstones = false -> (length hist < fuel)%nat -> lsm_inv G hist st -> op_in_order hist op -> step_inv hist (lsm_step st op).
Proof.
  intros Hd Hf Hi Ho. destruct op as [es| | | |i].
  - by eapply flush_step_ok.
  - by eapply plan_step_ok.
  - by eapply install_step_ok.
  - eapply pins_step_ok; [by left|done].
  - eapply pins_step_ok; [by right; exists i|done].
Qed.

Lemma lsm_run_hist ops : forall hist st, (length hist <= length (snd (fst (lsm_run hist st ops))))%nat.
Proof.
  induction ops as [|op ops IH]; intros hist st; [done|]. cbn [lsm_run]. destruct (lsm_step st op) as [r st1].
  specialize (IH (flushed_by r ++ hist) st1). destruct (lsm_run _ st1 ops) as [[rs hist'] st2]. cbn [fst snd] in *.
  rewrite length_app in IH. lia.
Qed.

Lemma lsm_run_ok ops : dropTombstones = false -> forall G hist st,
  lsm_inv G hist st -> ops_in_order hist st ops ->
  let '(rs, hist', st') := lsm_run hist st ops in
  (length hist' < fuel)%nat -> Forall returned rs /\ exists G', lsm_inv G' hist' st'.
Proof.
  intros Hd. induction ops as [|op ops IH]; intros G hist st Hi Ho; cbn [lsm_run ops_in_order] in *; [by eauto|].
  destruct Ho as [Ho1 Ho]. pose proof (lsm_step_ok G hist st op Hd) as Hs. pose proof (lsm_run_hist (op :: ops) hist st) as Hl. cbn [lsm_run] in Hl.
  destruct (lsm_step st op) as [r st1]. specialize (IH) with (hist := flushed_by r ++ hist) (st := st1).
  destruct (lsm_run (flushed_by r ++ hist) st1 ops) as [[rs hist'] st2]. cbn [fst snd] in Hl. intros Hf.
  assert (Hr : returned r /\ exists G1, lsm_inv G1 (flushed_by r ++ hist) st1).
  { specialize (Hs ltac:(lia) Hi Ho1). unfold step_inv in Hs. cbn [fst snd] in Hs. by destruct r. }
  destruct Hr as [Hr [G1 Hi1]]. destruct (IH G1 Hi1 Ho Hf) as [H3 H4]. split; [by constructor|done].
Qed.

Lemma new_lsm_inv store : lsm_inv ∅ [] (new_lsm store).
Proof.
  destruct (NewSet_inv (H := H) [] ltac:(constructor)) as [Hi _].
  split; try done; cbn.
  - split; by intros ? ?%elem_of_nil || by intros ? ? ?%elem_of_nil.
  - split; by intros ? ?%elem_of_nil || by intros ? ? ?%elem_of_nil.
  - by intros x y Hx%elem_of_nil.
  - split; [|done]. intros p Hp. unfold in_use in Hp. cbn in Hp. unfold values in Hp. rewrite map_to_list_empty in Hp. by apply elem_of_nil in Hp.
Qed.

(** What a read returns, against the entries flushed so far. *)
Definition reads_newest (hist : list Entry) (key : bytes) (r : option EntryView) : Prop :=
  match r with
  | Some v => exists e, v = EntryView_of e /\ is_newest hist key e
  | None => forall e, e ∈ hist -> Key e <> key
  end.

Lemma inv_reads G hist st key :
  lsm_inv G hist st ->
  exists r, reads_newest hist key r /\ forall read, reads_runs key read -> first_found read (Tables (lsm_set st)) key = Ok r.
Proof.
  intros [I1 I2 [S1 S2] I4 I5 I6 _ _].
  destruct (first_found_spec G key (set_tables (lsm_set st)) I2 (ti_nodup _ I1) (ti_sorted _ I1)) as (r & Hr & E).
  exists (EntryView_of <$> r). split; [|done]. destruct r as [e|]; cbn [found reads_newest fmap option_fmap option_map] in *.
  - destruct Hr as (Hk & (t & Ht & He) & Hn). exists e. split; [done|]. split; [by apply (S1 t)|]. split; [done|].
    intros x Hx Hkx Hnew. destruct (S2 x Hx) as (t' & e' & Ht' & He' & Hk' & Hs).
    assert (Hle : e' = e \/ Seq e' < Seq e) by (apply (Hn t'); [done..|congruence]).
    assert (Hxe : Seq x <= Seq e) by (destruct Hle as [->|]; lia). destruct Hnew as [?|(Es & Tx & Te)]; [lia|].
    rewrite (I6 x e Hx (S1 t e Ht He)) in Tx by congruence. congruence.
  - intros x Hx Hk. destruct (S2 x Hx) as (t & e & Ht & He & Ek & _). apply (Hr t e Ht He). congruence.
Qed.
End Ops.
Arguments lsm : clear implicits.


(** ** Examples *)

(** A storage that only counts its files, and names them by their number. *)
Definition name_of (n : nat) : string := Nat.iter n (String.append "t") EmptyString.

Lemma name_of_length n : String.length (name_of n) = n.
Proof. induction n as [|n IH]; [done|]. change (S (String.length (name_of n)) = S n). by rewrite IH. Qed.

#[export] Instance run_storage : Storage run_handle nat := {|
  flusher_Flush es := fun n => (Ok (name_of n, es), S n);
  manifest_Update _ := mret tt;
  removeFile _ := mret tt
|}.

#[export] Instance run_storage_laws : StorageLaws run_handle nat.
Proof.
  assert (Hin : forall n p, p ∈ list_to_set (C := gset string) (map name_of (seq 0 n)) <-> exists k, p = name_of k /\ (k < n)%nat).
  { intros n p. rewrite elem_of_list_to_set, list_elem_of_fmap. setoid_rewrite elem_of_seq. naive_solver lia. }
  refine {| names n := list_to_set (map name_of (seq 0 n)); fits _ := True |}.
  - intros es n Hs Hne _. split; [done|]. split.
    + intros (k & E & Hk)%Hin. apply (f_equal String.length) in E. cbn in E. rewrite !name_of_length in E. lia.
    + intros p [->%elem_of_singleton|(k & -> & Hk)%Hin]%elem_of_union; apply Hin; [by exists n; split; [|lia]|exists k; split; [done|lia]].
  - intros fn n. by apply wpe_ret.
  - intros path n. by apply wpe_ret.
Defined.

Definition put (k v : string) (seq : Z) : Entry := mkEntry (bytes_of_string k) (bytes_of_string v) false seq.
Definition del (k : string) (seq : Z) : Entry := mkEntry (bytes_of_string k) [] true seq.

Definition eager_planner : StrictLevelledPlanner := mkPlanner 1 1 10.

Definition demo_ops : list lsm_op :=
  [LsmFlush [put "a" "1" 1; put "b" "2" 2]; LsmPlan; LsmInstall; LsmFlush [del "a" 3]; LsmSnapshot; LsmPlan; LsmFlush [put "b" "5" 5; put "c" "4" 4];
   LsmInstall; LsmClose 0].

Definition demo_read (drop : bool) (ops : list lsm_op) (k : string) : result (option EntryView) :=
  tables_Get (Tables (lsm_set (snd (lsm_run (H := run_handle) eager_planner drop 20 [] (new_lsm 0%nat) ops)))) (bytes_of_string k).


(** Dropping tombstones is not safe: the compaction of a level drops them
    while an older version of the key is in a deeper level.  Here a key is
    written and reaches level 2, is deleted, and the compaction of level 0
    brings it back. *)
Definition delete_ops : list lsm_op :=
  [LsmFlush [put "a" "1" 1; put "b" "2" 2]; LsmPlan; LsmInstall; LsmPlan; LsmInstall; LsmFlush [del "a" 3]].

Theorem dropped_tombstone_resurrects :
  demo_read true delete_ops "a" = Ok (Some (EntryView_of (del "a" 3))) /\
  demo_read true (delete_ops ++ [LsmPlan; LsmInstall]) "a" = Ok (Some (EntryView_of (put "a" "1" 1))) /\
  demo_read false (delete_ops ++ [LsmPlan; LsmInstall]) "a" = Ok (Some (EntryView_of (del "a" 3))).
Proof. vm_compute. repeat split. Qed.
