(* ===== verification/CompactionService.v ===== *)
(** * The compaction service

    The goroutines around the compaction coordinator: the event bus
    ([pkg/lsm/bus]), the service with its trigger
    ([compaction/controller/service.go]), the scheduler
    ([controller/scheduler.go]), the wiring of the runtime ([runtime]) and of
    [New] in the engine.  The steps of the flush dispatcher, of the goroutine
    that listens for flushes and of the service interleave; the main result
    is that the service comes to rest, and rests only when the planner finds
    nothing to do. *)

From Stdlib Require Import ZArith Lia.
From stdpp Require Import base list sorting gmap strings.
From S2P Require Import Prelude Heap Merge TableIter TableSet Handle Compaction Manifest CompactionRun LsmTree.
Local Open Scope Z_scope.

(** ** The event bus (bus.go) *)

Inductive EventType := EventWalAppended | EventFlushScheduled | EventFlushCompleted | EventBackpressureOn | EventBackpressureOff.
#[export] Instance event_type_eq_dec : EqDecision EventType.
Proof. solve_decision. Defined.

(** An event; what it carries beside its number is not looked at. *)
Record Event := mkBusEvent { Event_Type : EventType; Event_Sequence : Z }.

(** The channels with the type of event each one was made for; a channel is
    known by its position. *)
Record Bus := mkBus { bus_subs : list (EventType * list Event); bufSz : Z }.

Definition NewBus (bufSz : Z) : Bus := mkBus [] bufSz.

(** The new channel; [make] panics on a negative size. *)
Definition Subscribe (t : EventType) (b : Bus) : result (nat * Bus) :=
  if bool_decide (bufSz b < 0) then Panic else Ok (length (bus_subs b), mkBus (bus_subs b ++ [(t, [])]) (bufSz b)).

(** A send that would block is dropped. *)
Definition offer (size : Z) (ev : Event) (ch : list Event) : list Event := if bool_decide (zlen ch < size) then ch ++ [ev] else ch.
Definition Publish (ev : Event) (b : Bus) : Bus :=
  mkBus (map (fun '(t, ch) => (t, if bool_decide (t = Event_Type ev) then offer (bufSz b) ev ch else ch)) (bus_subs b)) (bufSz b).

(** A receive from the channel [i], if it holds an event. *)
Definition receive (i : nat) (b : Bus) : option (Event * Bus) :=
  match bus_subs b !! i with
  | Some (t, ev :: ch) => Some (ev, mkBus (<[i := (t, ch)]> (bus_subs b)) (bufSz b))
  | _ => None
  end.

(** ** The service and its trigger *)

(** [Service]: the trigger is a channel of one place. *)
Record Service := mkService { svc_trigger : bool }.
Definition NewService : Service := mkService false.
Definition Trigger (s : Service) : Service := mkService true.

(** [FlushTriggerPolicy], and a round of [Scheduler.Run] on an event. *)
Definition ShouldTrigger (event : Event) : bool := bool_decide (Event_Type event = EventFlushCompleted).
Definition Scheduler_event (event : Event) (s : Service) : Service := if ShouldTrigger event then Trigger s else s.

Section Loop.
Context {H M : Type} `{TableHandle H} `{Storage H M}.
Context (planner : StrictLevelledPlanner) (dropTombstones : bool) (fuel : nat).

(** The inner loop of [Service.Run], which [OnError] or a step without a plan
    ends. *)
Fixpoint run_steps (rounds : nat) : SE (Set_ H * M) (option error) :=
  match rounds with
  | O => lift NoFuel
  | S rounds => fun s =>
      match Step planner dropTombstones fuel s with
      | (Ok true, s) => run_steps rounds s
      | (Ok false, s) => (Ok None, s)
      | (Err e, s) => (Ok (Some e), s)
      | (Panic, s) => (Panic, s)
      | (NoFuel, s) => (NoFuel, s)
      end
  end.
End Loop.

(** [NewRuntime]: there is a service only for a positive threshold. *)
Definition NewRuntime (planner : StrictLevelledPlanner) : option Service :=
  if bool_decide (L0FileThreshold planner <= 0) then None else Some NewService.

(** ** How often a plan follows a plan *)

Section Rounds.
Context (p : StrictLevelledPlanner).
Implicit Types metas : list TableMeta.

Lemma plan_sizes_reaches m metas plan fuel : forall level, plan_sizes fuel p m (StateFromMetas metas) level = Ok (Some plan) ->
  exists i, level <= i /\ Plan_OutputLevel plan = i + 1 /\ forall j, level <= j <= i -> at_level j metas <> [].
Proof.
  induction fuel as [|fuel IH]; intros level E; [done|]. cbn [plan_sizes] in E. rewrite levelByID_state in E.
  assert (Hnext : at_level level metas <> [] -> plan_sizes fuel p m (StateFromMetas metas) (level + 1) = Ok (Some plan) ->
    exists i, level <= i /\ Plan_OutputLevel plan = i + 1 /\ forall j, level <= j <= i -> at_level j metas <> []).
  { intros Hne E'. destruct (IH _ E') as (i & H1 & H2 & H3). exists i. split_and!; [lia|done|]. intros j Hj.
    destruct (decide (j = level)) as [->|]; [done|]. apply H3. lia. }
  destruct (at_level level metas) as [|t ts] eqn:Ea; [done|]. case_bool_decide; [by apply Hnext|]. case_bool_decide; [|by apply Hnext].
  injection E as <-. exists level. split_and!; [lia|done|]. intros j Hj. replace j with level by lia. by rewrite Ea.
Qed.

(** The planner passes no empty level. *)
Lemma Planner_Next_reaches metas plan : NoDup (map tm_Path metas) -> Planner_Next p (StateFromMetas metas) = Ok (Some plan) ->
  exists i, 0 <= i /\ Plan_OutputLevel plan = i + 1 /\ due p metas i /\ (forall j, 0 <= j < i -> ~ due p metas j) /\ forall j, 1 <= j <= i -> at_level j metas <> [].
Proof.
  intros Hn E. destruct (Planner_Next_spec p metas Hn) as (r & E' & Hr). rewrite E in E'. injection E' as <-.
  destruct Hr as (i & H0 & H1 & H2 & H3 & _). exists i. split_and!; [done..|]. unfold Planner_Next in E.
  destruct (_ ← levelByID _ 0; _) as [l0|]; [injection E as <-; cbn in H1; intros j Hj; lia|]. case_bool_decide; [done|].
  apply plan_sizes_reaches in E as (i' & _ & E1 & E2). replace i with i' by lia. exact E2.
Qed.

Lemma levelSizeBytes_perm a b : a ≡ₚ b -> levelSizeBytes a = levelSizeBytes b.
Proof.
  unfold levelSizeBytes. generalize 0 as acc. intros acc P. revert acc. induction P as [|t l k _ IH|x y l|l k r _ IH1 _ IH2]; intros acc; cbn [fold_left]; [done|apply IH| |by rewrite IH1].
  f_equal. unfold u64. rewrite !Zplus_mod_idemp_l. f_equal. lia.
Qed.

Lemma due_perm i a b : at_level i a ≡ₚ at_level i b -> due p a i -> due p b i.
Proof.
  intros P. unfold due. case_bool_decide as Ei.
  - subst i. unfold zlen. by rewrite (Permutation_length P).
  - by rewrite (levelSizeBytes_perm _ _ P).
Qed.

(** How many plans can follow one another while nothing is flushed. *)
Definition rounds_left metas : nat :=
  match Planner_Next p (StateFromMetas metas) with
  | Ok (Some plan) => if bool_decide (Plan_OutputLevel plan = 1) then 2 else 1
  | _ => 0
  end.

Lemma rounds_bound metas : (rounds_left metas <= 2)%nat.
Proof. unfold rounds_left. destruct (Planner_Next _ _) as [[plan|]| | |]; try lia. case_bool_decide; lia. Qed.

(** A compaction of level [i] empties it: what is planned next is a deeper
    level only behind level 0. *)
Lemma rounds_decrease metas after plan i :
  NoDup (map tm_Path metas) -> NoDup (map tm_Path after) -> Planner_Next p (StateFromMetas metas) = Ok (Some plan) -> Plan_OutputLevel plan = i + 1 ->
  (forall j, 0 <= j < i -> at_level j after ≡ₚ at_level j metas) -> at_level i after = [] ->
  (rounds_left after < rounds_left metas)%nat.
Proof.
  intros Hn Hn' E El Hlow Hi. unfold rounds_left at 2. rewrite E. destruct (Planner_Next_reaches metas plan Hn E) as (i' & H0 & H1 & H2 & H3 & H4).
  assert (i' = i) as -> by lia.
  unfold rounds_left. destruct (Planner_Next p (StateFromMetas after)) as [[plan'|]| | |] eqn:E'; [|case_bool_decide; lia..].
  destruct (Planner_Next_reaches after plan' Hn' E') as (k & K0 & K1 & K2 & K3 & K4).
  destruct (decide (k = i)) as [->|Hki].
  { destruct (decide (i = 0)) as [->|]; [|by destruct (K4 i); [lia|]]. unfold due, zlen in K2. rewrite bool_decide_true, Hi in K2 by done. cbn in K2. lia. }
  destruct (decide (k < i)) as [Hlt|Hge].
  - destruct (H3 k); [lia|]. eapply due_perm; [|exact K2]. apply Hlow. lia.
  - destruct (decide (i = 0)) as [->|Hi0]; [rewrite !bool_decide_decide, decide_False, decide_True by lia; lia|]. destruct (K4 i); [lia|done].
Qed.
End Rounds.

(** ** The goroutines together *)

Lemma filter_forget {A} (P Q : A -> Prop) `{!forall x, Decision (P x), !forall x, Decision (Q x)} (l : list A) :
  (forall x, x ∈ l -> P x -> Q x) -> filter P (filter Q l) = filter P l.
Proof.
  induction l as [|x l IH]; intros HPQ; [done|]. assert (IH' : filter P (filter Q l) = filter P l) by (apply IH; intros y Hy; apply HPQ; by right).
  rewrite !filter_cons. destruct (decide (P x)) as [HP|HP].
  - rewrite decide_True by (apply HPQ; [by left|done]). by rewrite filter_cons, decide_True, IH' by done.
  - destruct (decide (Q x)); [rewrite filter_cons, decide_False by done|]; done.
Qed.

Section System.
Context {H M : Type} `{SL : StorageLaws H M}.
Context (planner : StrictLevelledPlanner) (fuel : nat).

(** The tables, the bus, the channel of the listener of [New], the service,
    whether it is in its inner loop, whether that was left by an error, and
    whether a flush was completed before the listener had subscribed. *)
Record sys := mkSys {
  y_tree : lsm H M;
  y_bus : Bus;
  y_sub : option nat;
  y_svc : Service;
  y_working : bool;
  y_failed : bool;
  y_missed : bool
}.
Implicit Types s : sys.

Abbreviation step st op := (lsm_step planner false fuel st op).

(** The state after [New] has triggered the service; the listener may still
    have to subscribe. *)
Definition started (st : lsm H M) (size : Z) : sys := mkSys st (NewBus size) None (Trigger NewService) false false false.

(** A round of the flush dispatcher: what was flushed, and the events of it. *)
Definition flush_round (es : list Entry) s : list Entry * sys :=
  let '(r, t) := step (y_tree s) (LsmFlush es) in
  match r with
  | Ok flushed =>
      let seq := foldr (fun e m => Z.max (Seq e) m) 0 es in
      let bus := Publish (mkBusEvent EventBackpressureOff 0) (Publish (mkBusEvent EventFlushCompleted seq) (y_bus s)) in
      (flushed, mkSys t bus (y_sub s) (y_svc s) (y_working s) (y_failed s) (y_missed s || bool_decide (y_sub s = None)))
  | _ => ([], mkSys t (y_bus s) (y_sub s) (y_svc s) (y_working s) (y_failed s) (y_missed s))
  end.

(** The two halves of [Coordinator.Step] in the loop of the service. *)
Definition plan_half s : sys :=
  let '(r, t) := step (y_tree s) LsmPlan in
  match r with
  | Ok _ => mkSys t (y_bus s) (y_sub s) (y_svc s) (bool_decide (lsm_flight t <> None)) (y_failed s) (y_missed s)
  | _ => mkSys t (y_bus s) (y_sub s) (y_svc s) false true (y_missed s)
  end.
Definition install_half s : sys :=
  let '(r, t) := step (y_tree s) LsmInstall in
  match r with
  | Ok _ => mkSys t (y_bus s) (y_sub s) (y_svc s) true (y_failed s) (y_missed s)
  | _ => mkSys t (y_bus s) (y_sub s) (y_svc s) false true (y_missed s)
  end.

(** The steps of the listener and of the service. *)
Inductive internal : sys -> sys -> Prop :=
| Deliver s i ev bus : y_sub s = Some i -> receive i (y_bus s) = Some (ev, bus) ->
    internal s (mkSys (y_tree s) bus (y_sub s) (Trigger (y_svc s)) (y_working s) (y_failed s) (y_missed s))
| Wake s : y_working s = false -> svc_trigger (y_svc s) = true ->
    internal s (mkSys (y_tree s) (y_bus s) (y_sub s) NewService true false (y_missed s))
| PlanHalf s : y_working s = true -> lsm_flight (y_tree s) = None -> internal s (plan_half s)
| InstallHalf s : y_working s = true -> lsm_flight (y_tree s) <> None -> internal s (install_half s).

(** What the goroutines reach together, with everything flushed so far. *)
Inductive reached : list Entry -> sys -> Prop :=
| Started G hist st size : lsm_inv G hist st -> lsm_flight st = None -> 0 < size -> reached hist (started st size)
| Internal hist s s' : reached hist s -> internal s s' -> reached hist s'
| Flushed hist s es : reached hist s -> op_in_order hist (LsmFlush es) -> reached (fst (flush_round es s) ++ hist) (snd (flush_round es s))
| Subscribed hist s i bus : reached hist s -> y_sub s = None -> Subscribe EventFlushCompleted (y_bus s) = Ok (i, bus) ->
    reached hist (mkSys (y_tree s) bus (Some i) (y_svc s) (y_working s) (y_failed s) (y_missed s))
| Pinned hist s op : reached hist s -> op = LsmSnapshot \/ (exists i, op = LsmClose i) ->
    reached hist (mkSys (snd (step (y_tree s) op)) (y_bus s) (y_sub s) (y_svc s) (y_working s) (y_failed s) (y_missed s)).

Definition metas_of (st : lsm H M) : list TableMeta := TableSet.Snapshot (lsm_set st).
Definition events_of s : list Event :=
  match y_sub s with Some i => match bus_subs (y_bus s) !! i with Some (_, ch) => ch | None => [] end | None => [] end.

Record sys_ok (hist : list Entry) s : Prop := mkSysOk {
  so_tree : exists G, lsm_inv G hist (y_tree s);
  so_buffer : 0 < bufSz (y_bus s);
  so_idle : y_working s = false -> lsm_flight (y_tree s) = None;
  so_sub i : y_sub s = Some i -> exists ch, bus_subs (y_bus s) !! i = Some (EventFlushCompleted, ch);
  so_covered : y_missed s = true \/ y_failed s = true \/ svc_trigger (y_svc s) = true \/ y_working s = true \/ events_of s <> [] \/
    Planner_Next planner (StateFromMetas (metas_of (y_tree s))) = Ok None
}.

(** *** A plan and its installation *)

Lemma metas_after (set set' : Set_ H) (rm : list string) add : set_tables set' ≡ₚ filter (fun t => Table_Path t ∉ rm) (set_tables set) ++ add ->
  TableSet.Snapshot set' ≡ₚ filter (fun m => tm_Path m ∉ rm) (TableSet.Snapshot set) ++ map Table_Meta add.
Proof.
  intros P. rewrite !Snapshot_metas. rewrite (fmap_Permutation Table_Meta _ _ P), fmap_app. apply Permutation_app; [|done].
  clear P. induction (set_tables set) as [|t ts IH]; [done|]. cbn [map]. rewrite !filter_cons. unfold Table_Path at 1.
  destruct (decide (tm_Path (Table_Meta t) ∉ rm)); [|done]. cbn. by rewrite IH.
Qed.

(** The levels after the installation of the result of a plan, if nothing was
    flushed in between. *)
Lemma planned_levels G (set set' : Set_ H) res cs i out es j : planned G set res cs i out es ->
  set_tables set' ≡ₚ filter (fun t => Table_Path t ∉ map tm_Path (Result_Obsolete res)) (set_tables set) ++ brought res -> NoDup (map tm_Path (TableSet.Snapshot set)) ->
  j <= i -> at_level j (TableSet.Snapshot set') ≡ₚ if decide (j = i) then [] else at_level j (TableSet.Snapshot set).
Proof.
  intros [[Hi El] Eo Hin Em Hcs _ _ _] P Hn Hj. unfold at_level. rewrite (filter_Permutation _ _ _ (metas_after _ _ _ _ P)), filter_app.
  assert (Hb : filter (fun m => tm_Level m = j) (map Table_Meta (brought res)) = []).
  { apply list_filter_none. unfold brought. rewrite Eo, El. cbn. intros m ->%list_elem_of_singleton. cbn. lia. }
  rewrite Hb, app_nil_r. assert (Hrm : forall m, m ∈ TableSet.Snapshot set -> tm_Path m ∈ map tm_Path (Result_Obsolete res) <-> takes (TableSet.Snapshot set) i m).
  { intros m Hm. rewrite <- Hin. split; [|apply list_elem_of_fmap_2]. intros (m' & E & Hm')%list_elem_of_fmap. pose proof Hm' as [Hs _]%Hin. by rewrite (path_unique _ m m' Hn Hm Hs E). }
  case_decide as Eji.
  - subst j. rewrite list_filter_none; [done|]. intros m [Hm Hs]%list_elem_of_filter El'. apply Hm, Hrm; [done|]. split; [done|by left].
  - rewrite filter_forget; [done|]. intros m Hm Hl Ho%Hrm; [|done]. destruct Ho as [_ [?|[? _]]]; lia.
Qed.

Lemma Step_run_plan (s s' : Set_ H * M) r : NoDup (map tm_Path (TableSet.Snapshot (fst s))) -> Step_run planner false fuel s = (Ok r, s') ->
  match r with
  | None => Planner_Next planner (StateFromMetas (TableSet.Snapshot (fst s))) = Ok None
  | Some res => exists plan, Planner_Next planner (StateFromMetas (TableSet.Snapshot (fst s))) = Ok (Some plan) /\ Result_OutputLevel res = Plan_OutputLevel plan
  end.
Proof.
  intros Hn. destruct (Planner_Next_spec planner _ Hn) as (q & Eq & Hq). unfold Step_run, mbind, SE_bind, get, lift. rewrite Eq.
  destruct q as [plan|]; [|by intros [= <- _]]. destruct Hq as (i & _ & _ & _ & _ & Hne & _). destruct (Resolve _ _) as [inputs| | |]; [|done..].
  unfold on_storage. destruct (Run false fuel plan inputs (snd s)) as [[res| | |] m] eqn:Er; [|done..]. intros [= <- _]. exists plan. split; [done|].
  revert Er. unfold Run. rewrite (bool_decide_false _ Hne). case_bool_decide; [done|]. unfold mbind, SE_bind, lift. destruct (mergeEntries _ _ _) as [entries| | |]; [|done..].
  case_bool_decide; [by intros [= <- _]|]. destruct (flusher_Flush entries (snd s)) as [[out| | |] m']; [|done..]. by intros [= <- _].
Qed.

Lemma inv_paths G hist (st : lsm H M) : lsm_inv G hist st -> NoDup (map tm_Path (metas_of st)).
Proof. intros Hi. unfold metas_of. rewrite Snapshot_metas, map_map. apply (ti_nodup _ (li_set _ _ _ Hi)). Qed.

(** What a flight brings when it is installed. *)
Lemma install_tables G hist set open store res : lsm_inv G hist (mkLsm set open store (Some res)) ->
  set_tables (lsm_set (snd (step (mkLsm set open store (Some res)) LsmInstall))) ≡ₚ
  filter (fun t => Table_Path t ∉ map tm_Path (Result_Obsolete res)) (set_tables set) ++ brought res.
Proof.
  intros Hi. cbn [lsm_step]. assert (Hf : edit_fresh set (mkEdit (brought res) (map tm_Path (Result_Obsolete res)))).
  { destruct (li_flight _ _ _ Hi res eq_refl) as [i [_ _ _ _ _ (out & es & Eo & _)]].
    pose proof (proj2 (li_names _ _ _ Hi) res eq_refl) as Hn. cbn in Hn. unfold brought. rewrite Eo in *. apply Forall_inv in Hn as [_ Hn].
    split; cbn [map Edit_Add]; [apply NoDup_singleton|]. by intros p ->%list_elem_of_singleton. }
  pose proof (Service_Apply_spec (brought res) (Result_Obsolete res) 0 set open store (li_set _ _ _ Hi) Hf) as Hw. cbv zeta in Hw. unfold wpe in Hw.
  fold (brought res) in Hw. unfold apply_result. fold (brought res). destruct (Service_Apply _ _ _ _) as [[a|e| |] [set' store']]; try done; apply Hw.
Qed.

Lemma plan_rounds G hist st : lsm_inv G hist st -> lsm_flight st = None -> (length hist < fuel)%nat ->
  let '(r, t) := step st LsmPlan in
  metas_of t = metas_of st /\
  match r with
  | Ok _ => match lsm_flight t with
            | None => Planner_Next planner (StateFromMetas (metas_of st)) = Ok None
            | Some _ => (rounds_left planner (metas_of (snd (step t LsmInstall))) < rounds_left planner (metas_of st))%nat
            end
  | Err _ => lsm_flight t = None
  | _ => False
  end.
Proof.
  intros Hi Ef Hf. pose proof (inv_paths _ _ _ Hi) as Hn. destruct st as [set open store fl]. cbn in Ef. subst fl. unfold metas_of in *. cbn [lsm_step lsm_set] in *.
  pose proof (Step_run_spec planner false fuel G hist set open store _ _ eq_refl Hf Hi (fun es => law_Flush es store)) as Hw. unfold wpe in Hw.
  destruct (Step_run planner false fuel (set, store)) as [r [set' store']] eqn:Er. destruct r as [res|e| |]; try done; cbn [fst snd lsm_set lsm_flight] in *; destruct Hw as [-> Hw]; [|done].
  pose proof (Step_run_plan (set, store) (set, store') res Hn Er) as Hp. split; [done|]. destruct res as [res|]; [|done].
  destruct Hp as (plan & Ep & El). destruct Hw as (cs & i & out & es & Hpl & Hh & Hfr & Hnm).
  destruct (inv_planned _ _ _ _ _ _ _ _ _ _ _ Hi Hpl Hh Hfr Hnm) as [G' Hi'].
  pose proof (install_tables _ _ _ _ _ _ Hi') as P. pose proof (install_step_ok planner false fuel _ _ _ Hi') as Hok.
  assert (Hn' : NoDup (map tm_Path (metas_of (snd (step (mkLsm set open store' (Some res)) LsmInstall))))).
  { unfold step_inv in Hok. destruct (step _ LsmInstall) as [[a|e| |] t]; try done; destruct Hok as [G1 Hi1]; by eapply inv_paths. }
  set (after := snd (step _ _)) in *. clearbody after. destruct (pl_level _ _ _ _ _ _ _ Hpl) as [_ Eo].
  apply (rounds_decrease planner _ _ plan i Hn Hn' Ep); [congruence| |].
  - intros j Hj. rewrite (planned_levels _ _ _ _ _ _ _ _ j Hpl P Hn) by lia. by rewrite decide_False by lia.
  - pose proof (planned_levels _ _ _ _ _ _ _ _ i Hpl P Hn ltac:(lia)) as Q. rewrite decide_True in Q by done. by apply Permutation_nil_r.
Qed.

(** *** The invariant *)

Lemma step_tree G hist (st : lsm H M) op : lsm_inv G hist st -> (length hist < fuel)%nat -> op_in_order hist op ->
  exists G', lsm_inv G' (flushed_by (fst (step st op)) ++ hist) (snd (step st op)).
Proof.
  intros Hi Hf Ho. pose proof (lsm_step_ok planner false fuel G hist st op eq_refl Hf Hi Ho) as Hs. unfold step_inv in Hs.
  by destruct (step st op) as [[es|e| |] t].
Qed.

Lemma quiet_ops (st : lsm H M) op : match op with LsmFlush _ => False | _ => True end -> flushed_by (fst (step st op)) = [].
Proof.
  destruct st as [set open store fl], op; intros Hop; cbn [lsm_step]; try done.
  - destruct fl; [done|]. by destruct (Step_run _ _ _ _) as [[| | |] []].
  - destruct fl; [|done]. by destruct (apply_result _ _) as [[| | |] []].
  - destruct (ts_step _ _) as [ready [? ?]]. by destruct (remove_tables _ _) as [[| | |] ?].
Qed.

Lemma publish_lookup ev b i : bus_subs (Publish ev b) !! i = (fun '(t, ch) => (t, if bool_decide (t = Event_Type ev) then offer (bufSz b) ev ch else ch)) <$> (bus_subs b !! i).
Proof. apply list_lookup_fmap. Qed.

(** A flush leaves an event in the channel of the listener, also when the
    event itself is dropped. *)
Lemma publish_flush b i ch seq : 0 < bufSz b -> bus_subs b !! i = Some (EventFlushCompleted, ch) ->
  exists ch', ch' <> [] /\ bus_subs (Publish (mkBusEvent EventBackpressureOff 0) (Publish (mkBusEvent EventFlushCompleted seq) b)) !! i = Some (EventFlushCompleted, ch').
Proof.
  intros Hb Hi. rewrite !publish_lookup, Hi. cbn [fmap option_fmap option_map Event_Type].
  rewrite (bool_decide_false (EventFlushCompleted = EventBackpressureOff)), (bool_decide_true (EventFlushCompleted = EventFlushCompleted)) by done.
  eexists. split; [|reflexivity]. unfold offer. case_bool_decide as Hl.
  - intros E. by apply app_nil in E as [_ ?].
  - intros ->. cbn in Hl. unfold zlen in Hl. cbn in Hl. lia.
Qed.

(** How many steps the listener and the service can take. *)
Definition loop_work s : nat :=
  if y_working s then
    match lsm_flight (y_tree s) with
    | None => 1 + 2 * rounds_left planner (metas_of (y_tree s))
    | Some _ => 2 + 2 * rounds_left planner (metas_of (snd (step (y_tree s) LsmInstall)))
    end
  else 0.
Definition work s : nat := 8 * length (events_of s) + (if svc_trigger (y_svc s) then 7 else 0) + loop_work s.

Lemma loop_bound s : (loop_work s <= 6)%nat.
Proof.
  unfold loop_work. pose proof (rounds_bound planner (metas_of (y_tree s))). pose proof (rounds_bound planner (metas_of (snd (step (y_tree s) LsmInstall)))).
  destruct (y_working s); [|lia]. destruct (lsm_flight _); lia.
Qed.

Lemma deliver_ok hist s i ev bus : sys_ok hist s -> y_sub s = Some i -> receive i (y_bus s) = Some (ev, bus) ->
  let s' := mkSys (y_tree s) bus (y_sub s) (Trigger (y_svc s)) (y_working s) (y_failed s) (y_missed s) in sys_ok hist s' /\ (work s' < work s)%nat.
Proof.
  intros [S1 S2 S3 S4 S5] Es Er. destruct (S4 i Es) as [ch Ech]. unfold receive in Er. rewrite Ech in Er. destruct ch as [|e ch]; [done|]. injection Er as <- <-.
  assert (Hlt : (i < length (bus_subs (y_bus s)))%nat) by (by eapply lookup_lt_Some). split.
  - split; cbn; try done; [|tauto]. intros i' Ei. rewrite Es in Ei. injection Ei as <-. rewrite list_lookup_insert_eq by done. by eexists.
  - unfold work, events_of, loop_work. cbn [y_sub y_bus y_svc y_working y_tree bus_subs svc_trigger Trigger]. rewrite Es, Ech, list_lookup_insert_eq by done. cbn [length]. destruct (svc_trigger _); lia.
Qed.

Lemma internal_ok hist s s' : sys_ok hist s -> (length hist < fuel)%nat -> internal s s' -> sys_ok hist s' /\ (work s' < work s)%nat.
Proof.
  intros Hok Hf Hst. destruct Hst as [s i ev bus Es Er|s Ew Et|s Ew Ef|s Ew Ef]; [by eapply deliver_ok|..]; pose proof Hok as [[G S1] S2 S3 S4 S5].
  - split; [split; cbn; try done; [by exists G|tauto]|]. pose proof (loop_bound (mkSys (y_tree s) (y_bus s) (y_sub s) NewService true false (y_missed s))).
    unfold work at 1 2. cbn [y_svc svc_trigger NewService]. rewrite Et. unfold events_of in *. cbn [y_sub y_bus] in *. lia.
  - pose proof (plan_rounds G hist (y_tree s) S1 Ef Hf) as Hp. pose proof (step_tree G hist (y_tree s) LsmPlan S1 Hf I) as Ht. rewrite quiet_ops in Ht by done.
    unfold plan_half, work, loop_work, events_of. rewrite Ew, Ef. destruct (step (y_tree s) LsmPlan) as [r t]. destruct Hp as [Em Hr]. cbn [fst snd app] in Ht.
    destruct r as [es|e| |]; try done; cbn [y_working y_tree y_svc y_sub y_bus].
    + destruct (lsm_flight t) as [res|] eqn:Efl; cbn [bool_decide]; [rewrite bool_decide_true by done|rewrite bool_decide_false by (intros Hx; by apply Hx)].
      * split; [split; cbn; try done; tauto|]. lia.
      * split; [split; cbn; try done; rewrite Em; tauto|]. lia.
    + split; [split; cbn; try done; tauto|]. lia.
  - pose proof (step_tree G hist (y_tree s) LsmInstall S1 Hf I) as Ht. rewrite quiet_ops in Ht by done.
    assert (Hfl : lsm_flight (snd (step (y_tree s) LsmInstall)) = None).
    { destruct (y_tree s) as [set open store [res|]]; [|done]. cbn [lsm_step]. by destruct (apply_result _ _) as [? [? ?]]. }
    unfold install_half, work, loop_work, events_of. rewrite Ew. destruct (lsm_flight (y_tree s)) as [res|]; [|done]. destruct (step (y_tree s) LsmInstall) as [r t]. cbn [fst snd app] in *.
    destruct r as [es|e| |]; cbn [y_working y_tree y_svc y_sub y_bus]; rewrite ?Hfl; (split; [split; cbn; try done; tauto|lia]).
Qed.

Lemma pins_keep (st : lsm H M) op : op = LsmSnapshot \/ (exists i, op = LsmClose i) ->
  metas_of (snd (step st op)) = metas_of st /\ lsm_flight (snd (step st op)) = lsm_flight st.
Proof.
  destruct st as [set open store fl]. unfold metas_of. rewrite !Snapshot_metas. intros [->|[i ->]]; cbn [lsm_step ts_step]; [done|].
  destruct (open !! i) as [paths|]; [|done]. unfold Unpin. destruct paths; [by destruct (remove_tables _ _)|]. destruct (set_pinned set); [|by destruct (remove_tables _ _)].
  destruct (unpin_loop _ _ _) as [? [? ?]]. by destruct (remove_tables _ _).
Qed.

Lemma flush_keeps_flight (st : lsm H M) es : lsm_flight (snd (step st (LsmFlush es))) = lsm_flight st.
Proof.
  destruct st as [set open store fl]. cbn [lsm_step].
  match goal with |- context [let '(_, _) := ?m (set, store) in _] => by destruct (m (set, store)) as [? [? ?]] end.
Qed.

Lemma flush_ok hist s es : sys_ok hist s -> (length hist < fuel)%nat -> op_in_order hist (LsmFlush es) -> sys_ok (fst (flush_round es s) ++ hist) (snd (flush_round es s)).
Proof.
  intros [[G S1] S2 S3 S4 S5] Hf Ho. pose proof (step_tree G hist (y_tree s) (LsmFlush es) S1 Hf Ho) as Ht. pose proof (flush_keeps_flight (y_tree s) es) as Hfl.
  pose proof (lsm_step_ok planner false fuel G hist (y_tree s) (LsmFlush es) eq_refl Hf S1 Ho) as Hok. unfold flush_round. unfold step_inv in Hok.
  destruct (step (y_tree s) (LsmFlush es)) as [[fl|e| |] t] eqn:Est; try done; cbn [fst snd flushed_by app] in *.
  - split; cbn [y_tree y_bus y_sub y_svc y_working y_failed y_missed bufSz Publish]; [done|done|by rewrite Hfl| |].
    + intros i Ei. destruct (S4 i Ei) as [ch Ech]. destruct (publish_flush _ _ _ (foldr (fun e m => Z.max (Seq e) m) 0 es) S2 Ech) as (ch' & _ & E'). by exists ch'.
    + unfold events_of. cbn [y_sub y_bus]. destruct (y_sub s) as [i|]; [|left; by rewrite orb_true_r].
      destruct (S4 i eq_refl) as [ch Ech]. destruct (publish_flush _ _ _ (foldr (fun e m => Z.max (Seq e) m) 0 es) S2 Ech) as (ch' & Hne & ->). tauto.
  - split; cbn [y_tree y_bus y_sub y_svc y_working y_failed y_missed]; [done|done|by rewrite Hfl|done|].
    assert (Em : metas_of t = metas_of (y_tree s)); [|rewrite Em; exact S5]. clear - Est. destruct (y_tree s) as [set open store res]. cbn [lsm_step] in Est. unfold mbind, SE_bind, on_storage in Est.
    revert Est. cbn [fst snd]. destruct (flusher_Flush es store) as [[x|e'| |] m]; [|by intros; simplify_eq/=..].
    unfold flush_apply, mbind, SE_bind, catch. by destruct (Service_Apply _ _ _ _) as [[| | |] [? ?]].
Qed.

Lemma reached_ok hist s : reached hist s -> (length hist < fuel)%nat -> sys_ok hist s.
Proof.
  induction 1 as [G hist st size Hi Hfl Hs|hist s s' _ IH Hst|hist s es _ IH Ho|hist s i bus _ IH Es Eb|hist s op _ IH Hop]; intros Hf.
  - split; cbn; try done; [by exists G|tauto].
  - by apply (internal_ok hist s s' (IH Hf) Hf).
  - rewrite length_app in Hf. apply flush_ok; [apply IH|..]; by lia || done.
  - destruct (IH Hf) as [S1 S2 S3 _ S5]. unfold Subscribe in Eb. case_bool_decide; [done|]. injection Eb as <- <-. unfold events_of in S5. rewrite Es in S5.
    split; cbn; try done; [|tauto]. intros i' [= <-]. exists []. rewrite lookup_app_r by done. by rewrite Nat.sub_diag.
  - destruct (IH Hf) as [[G S1] S2 S3 S4 S5]. destruct (pins_keep (y_tree s) op Hop) as [Em Efl]. assert (Ho : op_in_order hist op) by (by destruct Hop as [->|[? ->]]).
    pose proof (step_tree G hist (y_tree s) op S1 Hf Ho) as Ht. rewrite quiet_ops in Ht by (by destruct Hop as [->|[? ->]]). split; cbn; rewrite ?Em, ?Efl; done.
Qed.

(** The service in its loop can take a step, and so can an idle one that is
    triggered. *)
Lemma stuck_idle hist s : sys_ok hist s -> (forall s', ~ internal s s') -> y_working s = false /\ svc_trigger (y_svc s) = false /\ events_of s = [].
Proof.
  intros [_ _ _ S4 _] Hno. destruct (y_working s) eqn:Ew.
  { destruct (lsm_flight (y_tree s)) as [res|] eqn:Ef; exfalso; eapply Hno; [apply InstallHalf|apply PlanHalf]; rewrite ?Ef; done. }
  destruct (svc_trigger (y_svc s)) eqn:Et; [exfalso; eapply Hno; by apply Wake|]. split_and!; [done..|]. unfold events_of.
  destruct (y_sub s) as [i|] eqn:Es; [|done]. destruct (S4 i eq_refl) as [[|ev ch] Ech]; rewrite Ech; [done|].
  exfalso. eapply Hno. eapply (Deliver s i); [done|]. unfold receive. by rewrite Ech.
Qed.

Lemma steps_work hist n : forall s s', sys_ok hist s -> (length hist < fuel)%nat -> nsteps internal n s s' -> (n <= work s)%nat /\ sys_ok hist s'.
Proof.
  induction n as [|n IH]; intros s s' Hok Hf Hn; inversion Hn as [|? ? s1 ? H1' H2']; subst; [split; [lia|done]|].
  destruct (internal_ok hist s s1 Hok Hf H1') as [Hok1 Hw]. destruct (IH s1 s' Hok1 Hf H2'). split; [lia|done].
Qed.

(** The inner loop of the service alone. *)
Lemma run_steps_end hist n : forall G set open store, lsm_inv G hist (mkLsm set open store None) -> (length hist < fuel)%nat ->
  (rounds_left planner (TableSet.Snapshot set) < n)%nat -> exists r x, run_steps planner false fuel n (set, store) = (Ok r, x).
Proof.
  induction n as [|n IH]; intros G set open store Hi Hf Hn; [lia|]. cbn [run_steps]. unfold Step, mbind, SE_bind.
  pose proof (plan_rounds G hist _ Hi eq_refl Hf) as Hp. pose proof (step_tree G hist _ LsmPlan Hi Hf I) as Ht. rewrite quiet_ops in Ht by done. cbn [lsm_step] in Hp, Ht.
  destruct (Step_run planner false fuel (set, store)) as [[res|e| |] [set1 store1]]; cbn in Hp; destruct Hp as [Em Hp]; try done; [|by eexists _, _].
  destruct res as [res|]; [|by eexists _, _]. cbn [fst snd app fmap] in Ht, Hp. destruct Ht as [G1 Hi1].
  pose proof (step_tree G1 hist _ LsmInstall Hi1 Hf I) as Ht. rewrite quiet_ops in Ht by done.
  pose proof (install_step_ok planner false fuel G1 hist _ Hi1) as Hok. unfold step_inv in Hok. cbn [lsm_step] in Ht, Hok, Hp.
  destruct (apply_result res (set1, store1)) as [[a|e| |] [set2 store2]]; cbn in Hok; try done; [|by eexists _, _]. destruct Ht as [G2 Hi2].
  apply (IH G2 set2 open store2 Hi2 Hf). unfold metas_of in Hp. cbn in Hp. lia.
Qed.

End System.

(** ** Examples *)

Module Toy.
Abbreviation sys := (sys (H := run_handle) (M := nat)).
Abbreviation internal := (internal (H := run_handle) (M := nat) eager_planner 20).
Abbreviation reached := (reached (H := run_handle) (M := nat) eager_planner 20).

Definition fresh : sys := started (new_lsm 0%nat) 16.
Definition listening : sys := mkSys (y_tree fresh) (mkBus [(EventFlushCompleted, [])] 16) (Some 0%nat) (y_svc fresh) false false false.
Definition one : list Entry := [put "a" "1" 1].
Definition flushed : sys := snd (flush_round eager_planner 20 one listening).

Lemma fresh_reached : reached [] fresh.
Proof. apply (Started _ _ ∅); [apply new_lsm_inv|done|done]. Qed.

Lemma one_in_order : op_in_order (H := run_handle) (M := nat) [] (LsmFlush one).
Proof. split_and!; [repeat constructor|done|repeat constructor|constructor]. Qed.

Lemma flush_one s : reached [] s -> fst (flush_round eager_planner 20 one s) = one -> reached one (snd (flush_round eager_planner 20 one s)).
Proof. intros Hr E. rewrite <- E at 1. rewrite <- (app_nil_r (fst _)). by apply Flushed, one_in_order. Qed.

Lemma flushed_reached : reached one flushed.
Proof.
  apply flush_one; [|vm_compute; reflexivity]. apply (Subscribed eager_planner 20 [] fresh 0%nat); [apply fresh_reached|done|done].
Qed.
End Toy.


(** A flush that is completed before the listener has subscribed triggers
    nothing: the service rests with a compaction due. *)
Lemma late_subscription_misses :
  exists hist s, Toy.reached hist s /\ y_sub s <> None /\ (forall s', ~ Toy.internal s s') /\ y_failed s = false /\
    Planner_Next eager_planner (StateFromMetas (metas_of (y_tree s))) <> Ok None.
Proof.
  set (s1 := mkSys (y_tree Toy.fresh) (y_bus Toy.fresh) None NewService true false false). set (s2 := plan_half eager_planner 20 s1).
  set (s3 := snd (flush_round eager_planner 20 Toy.one s2)). set (s4 := mkSys (y_tree s3) (mkBus [(EventFlushCompleted, [])] 16) (Some 0%nat) (y_svc s3) (y_working s3) (y_failed s3) (y_missed s3)).
  exists Toy.one, s4. split_and!.
  - apply (Subscribed eager_planner 20 Toy.one s3 0%nat); [|done|done]. apply Toy.flush_one; [|vm_compute; reflexivity].
    eapply Internal; [|by apply PlanHalf]. eapply Internal; [apply Toy.fresh_reached|by apply Wake].
  - done.
  - intros s' Hs. inversion Hs as [? i ev bus Es Er|? Ew Et|? Ew Ef|? Ew Ef]; subst; [injection Es as <-; by vm_compute in Er|..]; by vm_compute in Ew || by vm_compute in Et.
  - done.
  - vm_compute. discriminate.
Qed.

(** A level above its target is not compacted while a level before it is
    empty. *)
Lemma empty_level_hides_full_one :
  let metas := [demo_meta "t" 2 "a" "z" 1000] in let p := mkPlanner 4 1 1 in due p metas 2 /\ Planner_Next p (StateFromMetas metas) = Ok None.
Proof. split; [vm_compute; split_and!; congruence|vm_compute; reflexivity]. Qed.
