(* ===== verification/ViewMerge.v ===== *)
(** * Range scans over several sources

    The iterators of pkg/lsm/engine/view_iterator.go: the wrappers around
    memtable and table iterators, and the merge of several of them into one
    in which, for every key, the source that comes first in the list (the
    newest) decides, and deleted keys are hidden.  An [EntryView] is an
    entry here.  The main result: the merge delivers exactly the overlay of
    its sources, or a correct beginning of it and the error of a source. *)

From Stdlib Require Import ZArith Lia Strings.String.
From stdpp Require Import base sets sorting strings list.
From S2P Require Import Prelude Heap Merge.
Local Open Scope nat_scope.

Definition no_entry : Entry := mkEntry [] [] false 0%Z.

(** ** Wrappers *)

(** [memtableViewIter]: it reports no error. *)
Record memtableViewIter (J : Type) := mkMemView { mv_iter : J; mv_cur : Entry }.
Arguments mkMemView {J}. Arguments mv_iter {J}. Arguments mv_cur {J}.

#[export] Instance memtableViewIter_ops {J} `{EntryIterator J} : EntryIterator (memtableViewIter J) := {
  iter_Next it :=
    '(more, inner) ← iter_Next (mv_iter it);
    Ok (more, mkMemView inner (if (more : bool) then iter_Entry inner else mv_cur it));
  iter_Entry := mv_cur;
  iter_Err _ := None
}.

(** [sstableViewIter] *)
Record sstableViewIter (J : Type) := mkTableView { sv_iter : J; sv_cur : Entry }.
Arguments mkTableView {J}. Arguments sv_iter {J}. Arguments sv_cur {J}.

#[export] Instance sstableViewIter_ops {J} `{EntryIterator J} : EntryIterator (sstableViewIter J) := {
  iter_Next it :=
    '(more, inner) ← iter_Next (sv_iter it);
    Ok (more, mkTableView inner (if (more : bool) then iter_Entry inner else sv_cur it));
  iter_Entry := sv_cur;
  iter_Err it := iter_Err (sv_iter it)
}.

(** The two kinds of sources of a scan. *)
Inductive sourceIter (J K : Type) := MemSource (it : memtableViewIter J) | TableSource (it : sstableViewIter K).
Arguments MemSource {J K}. Arguments TableSource {J K}.

#[export] Instance sourceIter_ops {J K} `{EntryIterator J, EntryIterator K} : EntryIterator (sourceIter J K) := {
  iter_Next it :=
    match it with
    | MemSource it => '(more, it) ← iter_Next it; Ok (more, MemSource it)
    | TableSource it => '(more, it) ← iter_Next it; Ok (more, TableSource it)
    end;
  iter_Entry it := match it with MemSource it => iter_Entry it | TableSource it => iter_Entry it end;
  iter_Err it := match it with MemSource it => iter_Err it | TableSource it => iter_Err it end
}.

(** [viewToEntryIterator] *)
Record viewToEntryIterator (J : Type) := mkToEntry { te_iter : J; te_cur : Entry }.
Arguments mkToEntry {J}. Arguments te_iter {J}. Arguments te_cur {J}.

#[export] Instance viewToEntryIterator_ops {J} `{EntryIterator J} : EntryIterator (viewToEntryIterator J) := {
  iter_Next it :=
    '(more, inner) ← iter_Next (te_iter it);
    Ok (more, mkToEntry inner (if (more : bool) then iter_Entry inner else te_cur it));
  iter_Entry := te_cur;
  iter_Err it := iter_Err (te_iter it)
}.

(** ** The merge *)

Section ViewMerge.
Context {I : Type} `{EntryIterator I}.
(** Rounds of the loop of one [Next]. *)
Context (fuel0 : nat).

Record viewMergeItem := mkItem { vi_idx : nat; vi_iter : I; vi_entry : Entry }.

Definition viewMergeHeap_Less (a b : viewMergeItem) : bool :=
  match bytes_compare (Key (vi_entry a)) (Key (vi_entry b)) with
  | Lt => true
  | Gt => false
  | Eq => bool_decide (vi_idx a < vi_idx b)
  end.

Record viewMergeIterator := mkViewMerge {
  vm_h : list viewMergeItem;
  vm_cur : Entry;
  vm_err : option error;
  vm_lastKey : bytes;
  vm_pending : list viewMergeItem
}.

Definition isDuplicate (it : viewMergeIterator) (key : bytes) : bool :=
  bool_decide (vm_lastKey it <> []) && bool_decide (vm_lastKey it = key).

(** The loop of [advancePending]: the heap, and the error that ended it. *)
Fixpoint advance_loop (pending : list viewMergeItem) (h : list viewMergeItem) : result (option error * list viewMergeItem) :=
  match pending with
  | [] => Ok (None, h)
  | cur :: pending =>
      '(more, inner) ← iter_Next (vi_iter cur);
      if (more : bool) then advance_loop pending (Push viewMergeHeap_Less h (mkItem (vi_idx cur) inner (iter_Entry inner)))
      else
        match iter_Err inner with
        | Some e => Ok (Some e, h)
        | None => advance_loop pending h
        end
  end.

Definition advancePending (it : viewMergeIterator) : result (bool * viewMergeIterator) :=
  match vm_pending it with
  | [] => Ok (true, it)
  | pending =>
      '(err, h) ← advance_loop pending (vm_h it);
      match err with
      | Some e => Ok (false, mkViewMerge h (vm_cur it) (Some e) (vm_lastKey it) pending)
      | None => Ok (true, mkViewMerge h (vm_cur it) (vm_err it) (vm_lastKey it) [])
      end
  end.

(** The loop of [Next]: a round per key. *)
Fixpoint next_loop (fuel : nat) (it : viewMergeIterator) : result (bool * viewMergeIterator) :=
  match fuel with
  | O => NoFuel
  | S fuel =>
      match Pop viewMergeHeap_Less (vm_h it) with
      | None => Ok (false, it)
      | Some (item, h) =>
          let key := Key (vi_entry item) in
          let '(group, h) := pop_group viewMergeHeap_Less vi_entry key h in
          let best := fold_left (fun best next => if bool_decide (vi_idx next < vi_idx best) then next else best) group item in
          let items := item :: group in
          if isDuplicate it key then
            '(ok, it) ← advancePending (mkViewMerge h (vm_cur it) (vm_err it) (vm_lastKey it) items);
            if (ok : bool) then next_loop fuel it else Ok (false, it)
          else if Tombstone (vi_entry best) then
            '(ok, it) ← advancePending (mkViewMerge h (vm_cur it) (vm_err it) key items);
            if (ok : bool) then next_loop fuel it else Ok (false, it)
          else Ok (true, mkViewMerge h (vi_entry best) (vm_err it) key items)
      end
  end.

Definition viewMergeIterator_Next (it : viewMergeIterator) : result (bool * viewMergeIterator) :=
  match vm_err it with
  | Some _ => Ok (false, it)
  | None =>
      '(ok, it) ← advancePending it;
      if (ok : bool) then next_loop fuel0 it else Ok (false, it)
  end.

(** What [newViewMergeIterator] returns: an iterator without entries and
    perhaps an error ([viewErrorIterator]), or a merge. *)
Inductive scanIter := ErrorIter (err : option error) | MergeIter (it : viewMergeIterator).

#[export] Instance scanIter_ops : EntryIterator scanIter := {
  iter_Next it :=
    match it with
    | ErrorIter _ => Ok (false, it)
    | MergeIter m => '(more, m) ← viewMergeIterator_Next m; Ok (more, MergeIter m)
    end;
  iter_Entry it := match it with ErrorIter _ => no_entry | MergeIter m => vm_cur m end;
  iter_Err it := match it with ErrorIter err => err | MergeIter m => vm_err m end
}.

Fixpoint init_views (idx : nat) (iters : list I) : result (option error * list viewMergeItem) :=
  match iters with
  | [] => Ok (None, [])
  | it :: iters =>
      '(more, it) ← iter_Next it;
      if (more : bool) then
        '(err, items) ← init_views (S idx) iters;
        Ok (err, mkItem idx it (iter_Entry it) :: items)
      else
        match iter_Err it with
        | Some e => Ok (Some e, [])
        | None => init_views (S idx) iters
        end
  end.

Definition newViewMergeIterator (iters : list I) : result scanIter :=
  if bool_decide (length iters = 0) then Ok (ErrorIter None) else
  '(err, h) ← init_views 0 iters;
  match err with
  | Some e => Ok (ErrorIter (Some e))
  | None =>
      if bool_decide (length h = 0) then Ok (ErrorIter None)
      else Ok (MergeIter (mkViewMerge (Init viewMergeHeap_Less h) no_entry None [] []))
  end.

(** ** The overlay *)

(** A version of a key with the index of its source. *)
Abbreviation tagged := (nat * Entry)%type.

(** The version that decides about a key: no source before it has the key. *)
Definition front (all : list tagged) (k : bytes) (v : tagged) : Prop :=
  v ∈ all /\ Key (snd v) = k /\ forall x, x ∈ all -> Key (snd x) = k -> fst v <= fst x.

(** The keys that are not deleted with their versions; of a beginning only
    what is up to its last key is covered. *)
Record overlay (beginning : bool) (all : list tagged) (out : list Entry) : Prop := {
  ov_sorted : sorted_run out;
  ov_front : forall e, e ∈ out -> Tombstone e = false /\ exists i, front all (Key e) (i, e);
  ov_all : forall x, x ∈ all -> (beginning = false \/ exists e, e ∈ out /\ Key (snd x) ⪯ Key e) ->
    (exists e, e ∈ out /\ Key e = Key (snd x)) \/ exists v, front all (Key (snd x)) v /\ Tombstone (snd v) = true
}.

Lemma overlay_perm p a b out : a ≡ₚ b -> overlay p a out -> overlay p b out.
Proof.
  intros P [H1 H2 H3]. assert (Hf : forall k v, front a k v -> front b k v).
  { intros k v (Hi & Hk & Hx). split; [by rewrite <- P|]. split; [done|]. intros x. rewrite <- P. apply Hx. }
  split; [done|intros e He; destruct (H2 e He) as [? [i ?]]; eauto|]. intros x Hx Hu. rewrite <- P in Hx.
  destruct (H3 x Hx Hu) as [?|(v & ? & ?)]; [by left|right; eauto].
Qed.

Lemma overlay_nil p : overlay p [] [].
Proof. split; [constructor|by intros ? ?%elem_of_nil..]. Qed.

Lemma overlay_beginning all : overlay true all [].
Proof. split; [constructor|by intros ? ?%elem_of_nil|]. intros x _ [?|(e & ?%elem_of_nil & _)]; done. Qed.

(** Adding the least key. *)
Lemma overlay_cons p k best fronts rest all out :
  all ≡ₚ fronts ++ rest -> Forall (fun x => Key (snd x) = k) fronts -> Forall (fun x => k ≺ Key (snd x)) rest ->
  best ∈ fronts -> Forall (fun x => fst best <= fst x) fronts -> overlay p rest out ->
  overlay p all (if Tombstone (snd best) then out else snd best :: out).
Proof.
  intros P Hf Hr Hb Hn [Hs Ho Ha]. rewrite Forall_forall in Hf, Hr, Hn.
  assert (Hin : forall x, x ∈ all <-> x ∈ fronts \/ x ∈ rest) by (intros x; rewrite P; apply elem_of_app).
  assert (Hlt : forall x, x ∈ rest -> Key (snd x) <> k) by (intros x Hx E; specialize (Hr x Hx); rewrite E in Hr; by apply bytes_lt_irrefl in Hr).
  assert (Hbest : front all k best).
  { split; [apply Hin; by left|]. split; [by apply Hf|]. intros x [Hx|Hx]%Hin Hk; [by apply Hn|by destruct (Hlt x Hx)]. }
  assert (Hrest : forall k' v, front rest k' v -> front all k' v).
  { intros k' v (H1 & H2 & H3). split; [apply Hin; by right|]. split; [done|]. intros x [Hx|Hx]%Hin Hk; [|by apply H3].
    exfalso. apply (Hlt v H1). by rewrite H2, <- Hk, (Hf x Hx). }
  assert (Hout : forall e, e ∈ out -> Tombstone e = false /\ exists i, front all (Key e) (i, e)).
  { intros e He. destruct (Ho e He) as [H1 [i H2]]. eauto. }
  assert (Habove : forall e, e ∈ out -> k ≺ Key e) by (intros e He; destruct (Ho e He) as [_ [i (Hi & _)]]; by apply (Hr (i, e))).
  assert (Hrall : forall x (o : list Entry), x ∈ rest -> (forall e, e ∈ out -> e ∈ o) -> (p = false \/ exists e, e ∈ out /\ Key (snd x) ⪯ Key e) ->
    (exists e, e ∈ o /\ Key e = Key (snd x)) \/ exists v, front all (Key (snd x)) v /\ Tombstone (snd v) = true).
  { intros x o Hx Hsub Hu. destruct (Ha x Hx Hu) as [(e & H1 & H2)|(v & H1 & H2)]; [left|right]; eauto. }
  destruct (Tombstone (snd best)) eqn:E.
  - split; [done|done|]. intros x [Hx|Hx]%Hin Hu; [|by apply Hrall]. right. exists best. by rewrite (Hf x Hx).
  - split.
    + constructor; [done|]. apply Forall_forall. intros e He. unfold key_lt. rewrite (Hf best Hb). auto.
    + intros e [->|He]%elem_of_cons; [|by apply Hout]. split; [done|]. exists (fst best). rewrite (Hf best Hb). by destruct best.
    + intros x [Hx|Hx]%Hin Hu; [left; exists (snd best); split; [by left|]; by rewrite (Hf x Hx), (Hf best Hb)|].
      apply Hrall; [done|by right|]. destruct Hu as [?|(e & [->|He]%elem_of_cons & Hle)]; [by left| |right; eauto].
      exfalso. specialize (Hr x Hx). rewrite (Hf best Hb) in Hle. bytes_order.
Qed.

(** ** Order *)

Lemma View_le_iff a b :
  le viewMergeHeap_Less a b <->
  Key (vi_entry a) ≺ Key (vi_entry b) \/ (Key (vi_entry a) = Key (vi_entry b) /\ vi_idx a <= vi_idx b).
Proof.
  unfold le, viewMergeHeap_Less. destruct (bytes_compare (Key (vi_entry b)) (Key (vi_entry a))) eqn:E.
  - rewrite bytes_compare_Eq in E. rewrite E, bool_decide_eq_false. assert (~ Key (vi_entry a) ≺ Key (vi_entry a)) by apply bytes_lt_irrefl.
    split; [intros; right; split; [done|lia]|]. intros [?|[_ ?]]; [done|lia].
  - rewrite bytes_compare_Lt in E. split; [done|]. intros [H1|[H1 _]]; exfalso; [bytes_order|].
    rewrite H1 in E. by apply bytes_lt_irrefl in E.
  - rewrite bytes_compare_Gt in E. split; [by left|done].
Qed.

Lemma View_trans : Transitive (le viewMergeHeap_Less).
Proof.
  intros a b c. rewrite !View_le_iff. intros [H1|[H1 H1']] [H2|[H2 H2']].
  - left. bytes_order.
  - left. by rewrite <- H2.
  - left. by rewrite H1.
  - right. split; [congruence|lia].
Qed.

Lemma View_le a b : viewMergeHeap_Less a b = true -> le viewMergeHeap_Less a b.
Proof.
  unfold viewMergeHeap_Less. rewrite View_le_iff. destruct (bytes_compare (Key (vi_entry a)) (Key (vi_entry b))) eqn:E; [|intros _|done].
  - rewrite bytes_compare_Eq in E. rewrite bool_decide_eq_true. intros. right. split; [done|lia].
  - rewrite bytes_compare_Lt in E. by left.
Qed.

Lemma View_key a b : le viewMergeHeap_Less a b -> Key (vi_entry a) ⪯ Key (vi_entry b).
Proof. rewrite View_le_iff. intros [H1|[-> _]]; bytes_order. Qed.

Lemma view_best group : forall b,
  let best := fold_left (fun best next => if bool_decide (vi_idx next < vi_idx best) then next else best) group b in
  best ∈ b :: group /\ Forall (fun x => vi_idx best <= vi_idx x) (b :: group).
Proof.
  induction group as [|g group IH]; intros b; cbn [fold_left].
  - split; [by left|]. constructor; [done|constructor].
  - case_bool_decide as E.
    + destruct (IH g) as [H1 H2]. apply Forall_cons in H2 as [H2 H2']. split; [by right|]. constructor; [lia|]. by constructor.
    + destruct (IH b) as [H1 H2]. apply Forall_cons in H2 as [H2 H2']. split; [set_solver|]. constructor; [lia|]. constructor; [lia|done].
Qed.

(** ** Sources *)

(** The index of a source with what it still delivers. *)
Abbreviation source := (nat * stream)%type.
Definition src_entries (s : source) : list Entry := fst (snd s).
Definition src_err (s : source) : option error := snd (snd s).

Definition tags (ss : list source) : list tagged := concat (map (fun s => map (pair (fst s)) (src_entries s)) ss).

Definition heap_rep (x : viewMergeItem) (s : source) : Prop :=
  vi_idx x = fst s /\ exists rest, src_entries s = vi_entry x :: rest /\ yields (vi_iter x) rest (src_err s).
Definition pend_rep (x : viewMergeItem) (s : source) : Prop :=
  vi_idx x = fst s /\ yields (vi_iter x) (src_entries s) (src_err s).

(** A source after its first entry. *)
Definition popped (s : source) : source := (fst s, (tail (src_entries s), src_err s)).

Lemma popped_entries s e rest : src_entries s = e :: rest -> src_entries (popped s) = rest.
Proof. unfold popped, src_entries. cbn. by intros ->. Qed.

Lemma heap_popped x s : heap_rep x s -> pend_rep x (popped s).
Proof. intros (Hi & rest & E & Hy). split; [done|]. by rewrite (popped_entries _ _ _ E). Qed.

Lemma tags_perm ss ss' : ss ≡ₚ ss' -> tags ss ≡ₚ tags ss'.
Proof. intros P. unfold tags. by apply concat_perm, fmap_Permutation. Qed.

Lemma tags_app a b : tags (a ++ b) = tags a ++ tags b.
Proof. unfold tags. by rewrite map_app, concat_app. Qed.

Lemma tags_nonempty ss : tags (filter (fun s => src_entries s <> []) ss) = tags ss.
Proof.
  unfold tags. induction ss as [|s ss IH]; [done|]. rewrite filter_cons. case_decide as E; cbn [map concat]; [by rewrite IH|].
  destruct (src_entries s); [exact IH|naive_solver].
Qed.

Lemma elem_of_tags x ss : x ∈ tags ss <-> exists s, s ∈ ss /\ fst x = fst s /\ snd x ∈ src_entries s.
Proof.
  unfold tags. rewrite list_elem_of_In, in_concat. split.
  - intros (l & (s & <- & Hs)%in_map_iff & Hx). apply list_elem_of_In in Hs, Hx. apply list_elem_of_fmap in Hx as (e & -> & He). by exists s.
  - intros (s & Hs & Ei & He). eexists. split; [apply in_map_iff; exists s; split; [reflexivity|by apply list_elem_of_In]|].
    apply list_elem_of_In, list_elem_of_fmap. exists (snd x). split; [|done]. destruct x. cbn in *. by subst.
Qed.

Lemma popped_tags group gg :
  Forall2 heap_rep group gg -> tags gg ≡ₚ map (fun x => (vi_idx x, vi_entry x)) group ++ tags (map popped gg).
Proof.
  unfold tags. induction 1 as [|x s group gg (Ei & rest & E & _) _ IH]; [done|]. cbn [map concat app]. rewrite IH.
  rewrite E, (popped_entries _ _ _ E). cbn [map app fst popped]. rewrite Ei. constructor.
  rewrite !app_assoc. apply Permutation_app_tail. apply Permutation_app_comm.
Qed.

Definition sorted_sources (ss : list source) : Prop := Forall (fun s => sorted_run (src_entries s)) ss.

Lemma popped_sorted ss : sorted_sources ss -> sorted_sources (map popped ss).
Proof.
  intros Hs. apply Forall_fmap. eapply Forall_impl; [exact Hs|]. intros s Hx. unfold popped, src_entries in *. cbn.
  destruct (fst (snd s)); [done|]. by apply StronglySorted_inv in Hx as [Hx _].
Qed.

Lemma popped_above key group gg :
  Forall2 heap_rep group gg -> sorted_sources gg -> Forall (fun x => Key (vi_entry x) = key) group ->
  Forall (fun x => key ≺ Key (snd x)) (tags (map popped gg)).
Proof.
  intros Hg Hs Hk. apply Forall_forall. intros x (s & Hin & _ & Hx)%elem_of_tags. apply list_elem_of_fmap in Hin as (s0 & -> & Hin).
  apply list_elem_of_lookup in Hin as [i Hi]. destruct (Forall2_lookup_r _ _ _ _ _ Hg Hi) as (it & Hit & _ & rest & E & _).
  unfold sorted_sources in Hs. rewrite Forall_lookup in Hk. rewrite Forall_lookup in Hs. specialize (Hk i it Hit). specialize (Hs i s0 Hi). cbv beta in Hk, Hs. rewrite E in Hs.
  apply StronglySorted_inv in Hs as [_ Hr]. rewrite Forall_forall in Hr. rewrite (popped_entries _ _ _ E) in Hx.
  rewrite <- Hk. by apply Hr.
Qed.

Lemma heap_above key h hs :
  Forall2 heap_rep h hs -> sorted_sources hs -> Forall (fun x => key ≺ Key (vi_entry x)) h ->
  Forall (fun x => key ≺ Key (snd x)) (tags hs).
Proof.
  intros Hg Hs Hk. apply Forall_forall. intros x (s0 & Hin & _ & Hx)%elem_of_tags.
  apply list_elem_of_lookup in Hin as [i Hi]. destruct (Forall2_lookup_r _ _ _ _ _ Hg Hi) as (it & Hit & _ & rest & E & _).
  unfold sorted_sources in Hs. rewrite Forall_lookup in Hk. rewrite Forall_lookup in Hs. specialize (Hk i it Hit). specialize (Hs i s0 Hi). cbv beta in Hk, Hs. rewrite E in Hs, Hx.
  apply StronglySorted_inv in Hs as [_ Hr]. rewrite Forall_forall in Hr. apply elem_of_cons in Hx as [->|Hx]; [done|].
  specialize (Hr _ Hx). unfold key_lt in Hr. bytes_order.
Qed.

(** ** The loops *)

Definition fails (ss : list source) (e : error) : Prop := Some e ∈ map src_err ss.
Definition no_errors (ss : list source) : Prop := Forall (fun s => src_err s = None) ss.

Lemma no_errors_map ss : no_errors ss <-> Forall (fun x => x = None) (map src_err ss).
Proof. unfold no_errors. symmetry. apply Forall_fmap. Qed.

Lemma advance_loop_spec pending ps : forall h hs,
  Forall2 pend_rep pending ps -> heap viewMergeHeap_Less h -> Forall2 heap_rep h hs ->
  (exists h' hs', advance_loop pending h = Ok (None, h') /\ heap viewMergeHeap_Less h' /\ Forall2 heap_rep h' hs' /\
     hs' ≡ₚ filter (fun s => src_entries s <> []) ps ++ hs /\ Forall (fun s => src_entries s = [] -> src_err s = None) ps) \/
  (exists e h', advance_loop pending h = Ok (Some e, h') /\ fails ps e).
Proof.
  intros h hs Hp. revert h hs. induction Hp as [|x s pending ps [Ei Hy] Hp IH]; intros h hs Hh Hr; cbn [advance_loop].
  { left. exists h, hs. by split_and!. }
  assert (Hcons : forall e, fails ps e -> fails (s :: ps) e) by (intros e He; by right).
  destruct (src_entries s) as [|e es] eqn:Es; cbn [yields] in Hy.
  - destruct Hy as (it' & -> & E). cbn [mbind result_bind]. rewrite E. destruct (src_err s) as [err|] eqn:Ee.
    { right. exists err, h. split; [done|]. unfold fails. cbn [map]. rewrite Ee. by left. }
    destruct (IH h hs Hh Hr) as [(h' & hs' & -> & H1 & H2 & H3 & H4)|(e & h' & -> & Hin)]; [left|right; eauto].
    exists h', hs'. rewrite filter_cons_False by (rewrite Es; tauto). by split_and!; [..|constructor].
  - destruct Hy as (it' & -> & <- & Hy). cbn [mbind result_bind]. set (item := mkItem _ _ _).
    assert (Hi : heap_rep item s) by (split; [done|]; exists es; by rewrite Es).
    destruct (Push_spec _ View_trans View_le h item Hh) as [Hh1 Pp].
    destruct (Permutation_Forall2 (symmetry Pp) (proj2 (Forall2_cons _ _ _ _ _) (conj Hi Hr))) as (hs1 & P1 & Hr1).
    destruct (IH _ hs1 Hh1 Hr1) as [(h' & hs' & -> & H1 & H2 & H3 & H4)|(e & h' & -> & Hin)]; [left|right; eauto].
    exists h', hs'. rewrite filter_cons_True by (by rewrite Es). split; [done|]. split; [done|]. split; [done|].
    split; [rewrite H3, <- P1; by rewrite <- Permutation_middle|]. constructor; [by rewrite Es|done].
Qed.

(** The state between two calls: the sources on the heap and those to be
    advanced; what is left is above the last key. *)
Record merging (it : viewMergeIterator) (hs ps : list source) : Prop := {
  mg_heap : heap viewMergeHeap_Less (vm_h it);
  mg_items : Forall2 heap_rep (vm_h it) hs;
  mg_pending : Forall2 pend_rep (vm_pending it) ps;
  mg_err : vm_err it = None;
  mg_sorted : sorted_sources (hs ++ ps);
  mg_above : Forall (fun x => vm_lastKey it = [] \/ vm_lastKey it ≺ Key (snd x)) (tags (hs ++ ps))
}.

Lemma fails_perm ss ss' e : ss ≡ₚ ss' -> fails ss e -> fails ss' e.
Proof. intros P. unfold fails. by rewrite P. Qed.

Lemma filter_errors ps hs :
  Forall (fun s => src_entries s = [] -> src_err s = None) ps -> no_errors (filter (fun s => src_entries s <> []) ps ++ hs) -> no_errors (hs ++ ps).
Proof.
  unfold no_errors. intros H1 [H2 H3]%Forall_app. apply Forall_app. split; [done|]. rewrite Forall_forall in *. intros s Hs.
  destruct (decide (src_entries s = [])) as [E|E]; [by apply H1|]. apply H2. by apply list_elem_of_filter.
Qed.

Lemma filter_fails ps hs e : fails (filter (fun s => src_entries s <> []) ps ++ hs) e -> fails (hs ++ ps) e.
Proof.
  unfold fails. rewrite !map_app, !elem_of_app. intros [(s & -> & Hs)%list_elem_of_fmap|?]; [right|by left].
  apply list_elem_of_filter in Hs as [_ Hs]. by apply list_elem_of_fmap_2.
Qed.

Lemma advancePending_spec it hs ps :
  merging it hs ps ->
  (exists it' hs', advancePending it = Ok (true, it') /\ merging it' hs' [] /\ vm_lastKey it' = vm_lastKey it /\
     tags hs' ≡ₚ tags (hs ++ ps) /\ (forall e, fails hs' e -> fails (hs ++ ps) e) /\ (no_errors hs' -> no_errors (hs ++ ps))) \/
  (exists e it', advancePending it = Ok (false, it') /\ vm_err it' = Some e /\ fails (hs ++ ps) e).
Proof.
  intros [M1 M2 M3 M4 M5 M6]. unfold advancePending. destruct (vm_pending it) as [|x pending] eqn:Ep.
  { apply Forall2_nil_inv_l in M3 as ->. rewrite app_nil_r in *. left. exists it, hs. split; [done|]. split; [|done].
    split; rewrite ?app_nil_r, ?Ep; try done. }
  destruct (advance_loop_spec _ _ _ _ M3 M1 M2) as [(h' & hs' & -> & H1 & H2 & H3 & H4)|(e & h' & -> & Hin)]; cbn [mbind result_bind].
  2:{ right. eexists e, _. split; [reflexivity|]. split; [done|]. unfold fails in *. rewrite map_app. apply elem_of_app. by right. }
  assert (Pt : tags hs' ≡ₚ tags (hs ++ ps)) by (rewrite (tags_perm _ _ H3), !tags_app, tags_nonempty; apply Permutation_app_comm).
  left. eexists _, hs'. split; [reflexivity|]. split; [|split; [done|split; [done|split]]].
  - split; cbn [vm_h vm_pending vm_err vm_lastKey]; rewrite ?app_nil_r; try done; [|by rewrite Pt].
    unfold sorted_sources in *. rewrite H3. apply Forall_app in M5 as [M5 M5']. apply Forall_app. split; [|done].
    rewrite Forall_forall in *. intros s [_ Hs]%list_elem_of_filter. auto.
  - intros e He%(fails_perm _ _ _ H3). by apply filter_fails.
  - intros Hn. unfold no_errors in Hn. rewrite H3 in Hn. by apply filter_errors.
Qed.

(** What the iterator has left, after what it delivered. *)
Definition rest_ok (all : list tagged) (ss : list source) (out : list Entry) (err : option error) : Prop :=
  overlay (bool_decide (err <> None)) all out /\ match err with None => no_errors ss | Some e => fails ss e end.

Lemma next_loop_spec fuel : forall it hs,
  merging it hs [] -> length (tags hs) < fuel ->
  (exists it', next_loop fuel it = Ok (false, it') /\ rest_ok (tags hs) hs [] (vm_err it')) \/
  (exists it' hs' ps', next_loop fuel it = Ok (true, it') /\ merging it' hs' ps' /\ length (tags (hs' ++ ps')) < length (tags hs) /\
     forall out err, rest_ok (tags (hs' ++ ps')) (hs' ++ ps') out err -> rest_ok (tags hs) hs (vm_cur it' :: out) err).
Proof.
  induction fuel as [|fuel IH]; intros it hs M Hf; [lia|]. pose proof M as [M1 M2 M3 M4 M5 M6]. rewrite app_nil_r in *.
  cbn [next_loop]. destruct (decide (vm_h it = [])) as [Eh|Hne].
  { rewrite Eh in *. apply Forall2_nil_inv_l in M2 as ->. left. exists it. split; [done|]. rewrite M4. split; [apply overlay_nil|constructor]. }
  destruct (Pop_group _ vi_entry View_trans View_le View_key _ M1 Hne) as (item & h1 & group & h' & -> & -> & P & Hh' & Hk & Hk').
  destruct (Permutation_Forall2 P M2) as (gs1 & P1 & Hr1). rewrite app_comm_cons in Hr1.
  apply Forall2_app_inv_l in Hr1 as (gg & hs2 & Hg & Hr2 & ->). set (key := Key (vi_entry item)) in *. set (items := item :: group) in *.
  destruct (view_best group item) as [Hb1 Hb2]. set (best := fold_left _ group item) in *.
  unfold sorted_sources in M5. rewrite P1 in M5. apply Forall_app in M5 as [Hsg Hs2].
  assert (Hki : Forall (fun x => Key (vi_entry x) = key) items) by (by constructor).
  assert (Hkb : Key (vi_entry best) = key) by (rewrite Forall_forall in Hki; by apply Hki).
  assert (Pt : tags hs ≡ₚ map (fun x => (vi_idx x, vi_entry x)) items ++ tags (hs2 ++ map popped gg)).
  { rewrite (tags_perm _ _ P1), tags_app, (popped_tags _ _ Hg), tags_app, <- app_assoc. by rewrite (Permutation_app_comm (tags hs2)). }
  assert (Habove : Forall (fun x => key ≺ Key (snd x)) (tags (hs2 ++ map popped gg))).
  { rewrite tags_app. apply Forall_app. split; [by apply (heap_above key h')|by apply (popped_above key items)]. }
  assert (Hdup : isDuplicate it key = false).
  { unfold isDuplicate. apply andb_false_iff. destruct (decide (vm_lastKey it = [])) as [->|E]; [by left|right]. apply bool_decide_eq_false.
    intros El. rewrite Forall_forall in M6. destruct (M6 (vi_idx best, vi_entry best)) as [?|Hlt]; [|done|].
    - rewrite Pt. apply elem_of_app. left. apply list_elem_of_fmap. by exists best.
    - cbn in Hlt. rewrite Hkb, El in Hlt. by apply bytes_lt_irrefl in Hlt. }
  rewrite Hdup. set (it1 := fun cur => mkViewMerge h' cur (vm_err it) key items).
  assert (Hm : forall cur, merging (it1 cur) hs2 (map popped gg)).
  { intros cur. split; cbn [it1 vm_h vm_pending vm_err vm_lastKey]; try done.
    - apply Forall2_fmap_r. eapply Forall2_impl; [exact Hg|]. apply heap_popped.
    - apply Forall_app. split; [done|by apply popped_sorted].
    - eapply Forall_impl; [exact Habove|]. by right. }
  assert (Hlen : length (tags (hs2 ++ map popped gg)) < length (tags hs)) by (rewrite Pt, length_app, length_map; cbn; lia).
  assert (Hgo : forall out err ss, (forall e, fails ss e -> fails (hs2 ++ map popped gg) e) -> (no_errors ss -> no_errors (hs2 ++ map popped gg)) ->
    rest_ok (tags (hs2 ++ map popped gg)) ss out err ->
    rest_ok (tags hs) hs (if Tombstone (vi_entry best) then out else vi_entry best :: out) err).
  { intros out err ss Hfs Hns [Ho He]. split.
    - apply (overlay_cons _ key (vi_idx best, vi_entry best) (map (fun x => (vi_idx x, vi_entry x)) items) (tags (hs2 ++ map popped gg))); try done.
      + by apply Forall_fmap.
      + apply list_elem_of_fmap. by exists best.
      + by apply Forall_fmap.
    - assert (Pe : map src_err hs ≡ₚ map src_err (hs2 ++ map popped gg)).
      { rewrite P1, !map_app, map_map. cbn [popped src_err snd]. apply Permutation_app_comm. }
      destruct err as [e|]; [unfold fails; rewrite Pe; by apply Hfs|]. apply no_errors_map. rewrite Pe. by apply no_errors_map, Hns. }
  change (mkViewMerge h' (vm_cur it) (vm_err it) key items) with (it1 (vm_cur it)).
  change (mkViewMerge h' (vi_entry best) (vm_err it) key items) with (it1 (vi_entry best)).
  destruct (Tombstone (vi_entry best)).
  - destruct (advancePending_spec _ _ _ (Hm (vm_cur it))) as [(it' & hs' & -> & Hm' & _ & Pt' & F1 & F2)|(e & it' & -> & Ee & Hin)]; cbn [mbind result_bind].
    + assert (Hrest : forall out err, rest_ok (tags hs') hs' out err -> rest_ok (tags hs) hs out err).
      { intros out err [Ho He]. apply (Hgo out err hs' F1 F2). split; [by apply (overlay_perm _ (tags hs'))|done]. }
      destruct (IH it' hs' Hm') as [(it2 & E & Hr)|(it2 & hs3 & ps3 & E & Hm3 & Hl & Hr)]; [rewrite Pt'; lia| |].
      * left. exists it2. split; [done|]. by apply Hrest.
      * right. exists it2, hs3, ps3. split; [done|]. split; [done|]. split; [rewrite Pt' in Hl; lia|]. intros out err Ho. by apply Hrest, Hr.
    + left. exists it'. split; [done|]. rewrite Ee. apply (Hgo [] (Some e) (hs2 ++ map popped gg)); [done..|].
      split; [rewrite bool_decide_true by done; apply overlay_beginning|done].
  - right. exists (it1 (vi_entry best)), hs2, (map popped gg). split; [done|]. split; [apply Hm|]. split; [done|].
    intros out err Ho. by apply (Hgo out err (hs2 ++ map popped gg)).
Qed.

Lemma Next_spec it hs ps :
  merging it hs ps -> length (tags (hs ++ ps)) < fuel0 ->
  (exists it', viewMergeIterator_Next it = Ok (false, it') /\ rest_ok (tags (hs ++ ps)) (hs ++ ps) [] (vm_err it')) \/
  (exists it' hs' ps', viewMergeIterator_Next it = Ok (true, it') /\ merging it' hs' ps' /\ length (tags (hs' ++ ps')) < length (tags (hs ++ ps)) /\
     forall out err, rest_ok (tags (hs' ++ ps')) (hs' ++ ps') out err -> rest_ok (tags (hs ++ ps)) (hs ++ ps) (vm_cur it' :: out) err).
Proof.
  intros M Hf. unfold viewMergeIterator_Next. rewrite (mg_err _ _ _ M).
  destruct (advancePending_spec it hs ps M) as [(it' & hs' & -> & Hm' & _ & Pt' & F1 & F2)|(e & it' & -> & Ee & Hin)]; cbn [mbind result_bind].
  - assert (Hrest : forall out err, rest_ok (tags hs') hs' out err -> rest_ok (tags (hs ++ ps)) (hs ++ ps) out err).
    { intros out err [Ho He]. split; [by apply (overlay_perm _ (tags hs'))|]. destruct err; auto. }
    destruct (next_loop_spec fuel0 it' hs' Hm') as [(it2 & E & Hr)|(it2 & hs3 & ps3 & E & Hm3 & Hl & Hr)]; [by rewrite Pt'| |].
    + left. exists it2. split; [done|]. by apply Hrest.
    + right. exists it2, hs3, ps3. split; [done|]. split; [done|]. split; [by rewrite Pt' in Hl|]. intros out err Ho. by apply Hrest, Hr.
  - left. exists it'. split; [done|]. rewrite Ee. split; [rewrite bool_decide_true by done; apply overlay_beginning|done].
Qed.

Lemma merging_yields n : forall it hs ps,
  merging it hs ps -> length (tags (hs ++ ps)) <= n -> n < fuel0 ->
  exists out err, yields (MergeIter it) out err /\ rest_ok (tags (hs ++ ps)) (hs ++ ps) out err.
Proof.
  induction n as [n IH] using lt_wf_ind. intros it hs ps M Hl Hf.
  destruct (Next_spec it hs ps M ltac:(lia)) as [(it' & E & Hr)|(it' & hs' & ps' & E & M' & Hlt & Hr)].
  - exists [], (vm_err it'). split; [|done]. exists (MergeIter it'). split; [|done]. cbn. by rewrite E.
  - destruct (IH (length (tags (hs' ++ ps'))) ltac:(lia) it' hs' ps' M' ltac:(lia) ltac:(lia)) as (out & err & Hy & Ho).
    exists (vm_cur it' :: out), err. split; [|by apply Hr]. exists (MergeIter it'). cbn. by rewrite E.
Qed.

(** The sources by their position. *)
Definition numbered (idx : nat) (ss : list stream) : list source := zip (seq idx (length ss)) ss.

Lemma init_views_spec iters ss : forall idx,
  Forall2 (fun it s => yields it (fst s) (snd s)) iters ss ->
  (exists h hs, init_views idx iters = Ok (None, h) /\ Forall2 heap_rep h hs /\
     hs = filter (fun s => src_entries s <> []) (numbered idx ss) /\ Forall (fun s => src_entries s = [] -> src_err s = None) (numbered idx ss)) \/
  (exists e h, init_views idx iters = Ok (Some e, h) /\ fails (numbered idx ss) e).
Proof.
  intros idx Hy. revert idx. induction Hy as [|it s iters ss Hy _ IH]; intros idx; cbn [init_views]; [left; by exists [], []|].
  change (numbered idx (s :: ss)) with ((idx, s) :: numbered (S idx) ss).
  assert (Hcons : forall e, fails (numbered (S idx) ss) e -> fails ((idx, s) :: numbered (S idx) ss) e) by (intros e He; by right).
  destruct (fst s) as [|e es] eqn:Es; cbn [yields] in Hy.
  - destruct Hy as (it' & -> & E). cbn [mbind result_bind]. rewrite E. destruct (snd s) as [err|] eqn:Ee.
    { right. exists err, []. split; [done|]. unfold fails, src_err. cbn [map snd]. rewrite Ee. by left. }
    destruct (IH (S idx)) as [(h & hs & -> & H1 & -> & H2)|(e & h & -> & Hin)]; [left|right; eauto].
    eexists h, _. rewrite filter_cons_False by (unfold src_entries; cbn; rewrite Es; tauto). by split_and!; [..|constructor].
  - destruct Hy as (it' & -> & <- & Hy). cbn [mbind result_bind].
    destruct (IH (S idx)) as [(h & hs & -> & H1 & -> & H2)|(e & h & -> & Hin)]; [left|right; eauto]; cbn [mbind result_bind].
    eexists _, _. split; [reflexivity|]. rewrite filter_cons_True by (unfold src_entries; cbn; by rewrite Es).
    split; [|split; [reflexivity|constructor; [unfold src_entries; cbn; by rewrite Es|done]]].
    constructor; [|done]. split; [done|]. exists es. unfold src_entries, src_err. cbn. by rewrite Es.
Qed.

Lemma merge_yields iters ss :
  Forall2 (fun it s => yields it (fst s) (snd s)) iters ss -> Forall (fun s => sorted_run (fst s)) ss ->
  length (tags (numbered 0 ss)) < fuel0 ->
  exists it out err, newViewMergeIterator iters = Ok it /\ yields it out err /\ rest_ok (tags (numbered 0 ss)) (numbered 0 ss) out err.
Proof.
  intros Hy Hs Hf. unfold newViewMergeIterator. case_bool_decide as El.
  { destruct iters; [|done]. apply Forall2_nil_inv_l in Hy as ->. eexists _, [], None. split; [reflexivity|].
    split; [by exists (ErrorIter None)|]. split; [apply overlay_nil|constructor]. }
  destruct (init_views_spec iters ss 0 Hy) as [(h & hs & -> & Hr & Eh & Hn)|(e & h & -> & Hin)]; cbn [mbind result_bind].
  2:{ eexists _, [], (Some e). split; [reflexivity|]. split; [by exists (ErrorIter (Some e))|].
      split; [rewrite bool_decide_true by done; apply overlay_beginning|done]. }
  assert (Et : tags hs = tags (numbered 0 ss)) by (rewrite Eh; apply tags_nonempty).
  assert (Hne : no_errors hs -> no_errors (numbered 0 ss)).
  { intros He. apply (filter_errors (numbered 0 ss) []); [done|]. rewrite Eh in He. by rewrite app_nil_r. }
  assert (Hfl : forall e, fails hs e -> fails (numbered 0 ss) e).
  { intros e He. apply (filter_fails (numbered 0 ss) []). rewrite Eh in He. by rewrite app_nil_r. }
  case_bool_decide as E0.
  { destruct h; [|done]. apply Forall2_nil_inv_l in Hr as ->. eexists _, [], None. split; [reflexivity|].
    split; [by exists (ErrorIter None)|]. split; [rewrite <- Et; apply overlay_nil|]. apply Hne. constructor. }
  destruct (Init_spec _ View_trans View_le h) as [Hh Pi]. destruct (Permutation_Forall2 (symmetry Pi) Hr) as (hs' & P & Hr').
  assert (Hss : sorted_sources (numbered 0 ss)).
  { apply Forall_forall. intros [i s] Hin%elem_of_zip_r. rewrite Forall_forall in Hs. by apply Hs. }
  assert (M : merging (mkViewMerge (Init viewMergeHeap_Less h) no_entry None [] []) hs' []).
  { split; cbn [vm_h vm_pending vm_err vm_lastKey]; rewrite ?app_nil_r; try done.
    - unfold sorted_sources in *. rewrite <- P, Eh. rewrite Forall_forall in *. intros s [_ Hi]%list_elem_of_filter. auto.
    - apply Forall_forall. by left. }
  assert (Pt : tags hs' ≡ₚ tags (numbered 0 ss)) by (by rewrite <- Et, (tags_perm _ _ P)).
  destruct (merging_yields (length (tags hs')) _ hs' [] M) as (out & err & Hyo & [Ho He]); [by rewrite app_nil_r|by rewrite Pt|].
  rewrite app_nil_r in *. eexists _, out, err. split; [reflexivity|]. split; [done|]. split; [by apply (overlay_perm _ (tags hs'))|].
  destruct err as [e|]; [by apply Hfl, (fails_perm _ _ _ (symmetry P))|]. apply Hne. unfold no_errors in *. by rewrite P.
Qed.
End ViewMerge.
Arguments viewMergeIterator : clear implicits.
Arguments viewMergeItem : clear implicits.
Arguments scanIter : clear implicits.

(** ** What a scan shows *)

(** The version of a key in the first run that has the key, and what is
    visible of it. *)
Fixpoint first_version (runs : list (list Entry)) (k : bytes) : option Entry :=
  match runs with
  | [] => None
  | r :: runs => match lookup_entry k r with Some e => Some e | None => first_version runs k end
  end.
Definition visible (runs : list (list Entry)) (k : bytes) : option Entry :=
  match first_version runs k with
  | Some e => if Tombstone e then None else Some e
  | None => None
  end.

Lemma first_version_front ss k : forall idx,
  Forall (fun s => sorted_run (fst s)) ss ->
  match first_version (map fst ss) k with
  | Some e => exists i, idx <= i /\ front (tags (numbered idx ss)) k (i, e) /\ forall v, front (tags (numbered idx ss)) k v -> v = (i, e)
  | None => forall x, x ∈ tags (numbered idx ss) -> Key (snd x) <> k
  end.
Proof.
  induction ss as [|s ss IH]; intros idx Hs; cbn [map first_version]; [by intros x ?%elem_of_nil|].
  change (numbered idx (s :: ss)) with ((idx, s) :: numbered (S idx) ss). apply Forall_cons in Hs as [Hs1 Hs]. specialize (IH (S idx) Hs).
  assert (Hin : forall x, x ∈ tags ((idx, s) :: numbered (S idx) ss) <-> (fst x = idx /\ snd x ∈ fst s) \/ x ∈ tags (numbered (S idx) ss)).
  { intros x. rewrite !elem_of_tags. setoid_rewrite elem_of_cons. unfold src_entries. naive_solver. }
  assert (Hge : forall x, x ∈ tags (numbered (S idx) ss) -> S idx <= fst x).
  { intros x (s' & Hs' & -> & _)%elem_of_tags. destruct s' as [i s']. apply elem_of_zip_l, elem_of_seq in Hs'. cbn. lia. }
  destruct (lookup_entry k (fst s)) as [e|] eqn:El.
  - apply lookup_entry_Some in El as [He Hk]. exists idx. split; [done|]. split.
    + split; [apply Hin; by left|]. split; [done|]. intros x [[-> _]|Hx]%Hin _; [done|]. specialize (Hge x Hx). cbn. lia.
    + intros [i v] ([[Ei Hv]|Hv]%Hin & Hkv & Hmin); cbn in *.
      * subst i. f_equal. apply (NoDup_map_inj Key (fst s)); [by apply sorted_run_keys|done|done|]. congruence.
      * specialize (Hmin (idx, e)). specialize (Hge _ Hv). cbn in *. exfalso. enough (i <= idx) by lia. apply Hmin; [apply Hin; by left|done].
  - apply lookup_entry_None in El. rewrite Forall_forall in El.
    destruct (first_version (map fst ss) k) as [e|].
    + destruct IH as (i & Hi & Hf & Hu). exists i. split; [lia|].
      assert (Hiff : forall v, front (tags ((idx, s) :: numbered (S idx) ss)) k v <-> front (tags (numbered (S idx) ss)) k v).
      { intros v. unfold front. setoid_rewrite Hin. split.
        - intros ([[_ Hv]|Hv] & Hk & Hm); [by destruct (El _ Hv)|]. auto.
        - intros (Hv & Hk & Hm). split; [by right|]. split; [done|]. intros x [[_ Hx]|Hx] Hkx; [by destruct (El _ Hx)|auto]. }
      split; [by apply Hiff|]. intros v Hv%Hiff. auto.
    + intros x [[_ Hx]|Hx]%Hin; [by apply El|auto].
Qed.

Lemma overlay_lookup p ss out k :
  Forall (fun s => sorted_run (fst s)) ss -> overlay p (tags (numbered 0 ss)) out -> (p = false \/ exists e, e ∈ out /\ k ⪯ Key e) ->
  lookup_entry k out = visible (map fst ss) k.
Proof.
  intros Hs [O1 O2 O3] Hp. unfold visible. pose proof (first_version_front ss k 0 Hs) as Hf.
  destruct (lookup_entry k out) as [e|] eqn:El.
  - apply lookup_entry_Some in El as [He <-]. destruct (O2 e He) as [Ht [i Hfr]]. destruct (first_version (map fst ss) (Key e)) as [e'|].
    + destruct Hf as (j & _ & _ & Hu). specialize (Hu _ Hfr) as [= <- <-]. by rewrite Ht.
    + destruct Hfr as (Hi & Hk & _). by destruct (Hf _ Hi).
  - apply lookup_entry_None in El. rewrite Forall_forall in El. destruct (first_version (map fst ss) k) as [e'|]; [|done].
    destruct Hf as (j & _ & Hfr & Hu). destruct (Tombstone e') eqn:Et; [done|]. exfalso. pose proof Hfr as (Hi & Hk & _).
    destruct (O3 _ Hi) as [(e & He & Hke)|(v & Hv & Htv)]; cbn [snd] in *; rewrite Hk in *; [done|by destruct (El e He)|].
    specialize (Hu v Hv) as ->. cbn in Htv. congruence.
Qed.

(** ** Wrapped sources *)

Lemma mem_yields {J} `{EntryIterator J} es : forall (it : J) err cur, yields it es err -> yields (mkMemView it cur) es None.
Proof.
  induction es as [|e es IH]; intros it err cur; cbn [yields].
  - intros (it' & E & _). eexists. cbn. rewrite E. by split.
  - intros (it' & E & <- & Hy). eexists. cbn. rewrite E. split; [reflexivity|]. split; [done|]. by eapply IH.
Qed.

Lemma table_yields {J} `{EntryIterator J} es err : forall (it : J) cur, yields it es err -> yields (mkTableView it cur) es err.
Proof.
  induction es as [|e es IH]; intros it cur; cbn [yields].
  - intros (it' & E & He). eexists. cbn. rewrite E. by split.
  - intros (it' & E & <- & Hy). eexists. cbn. rewrite E. split; [reflexivity|]. split; [done|]. by apply IH.
Qed.

Lemma to_entry_yields {J} `{EntryIterator J} es err : forall (it : J) cur, yields it es err -> yields (mkToEntry it cur) es err.
Proof.
  induction es as [|e es IH]; intros it cur; cbn [yields].
  - intros (it' & E & He). eexists. cbn. rewrite E. by split.
  - intros (it' & E & <- & Hy). eexists. cbn. rewrite E. split; [reflexivity|]. split; [done|]. by apply IH.
Qed.

Section Scan.
Context {J K : Type} `{EntryIterator J, EntryIterator K}.

Lemma mem_source_yields es err : forall m : memtableViewIter J, yields m es err -> yields (MemSource m : sourceIter J K) es err.
Proof.
  assert (E : forall m : memtableViewIter J, iter_Next (MemSource m : sourceIter J K) = '(more, it) ← iter_Next m; Ok (more, MemSource it)) by done.
  induction es as [|e es IH]; intros m; cbn [yields]; rewrite E.
  - intros (it' & -> & He). by eexists.
  - intros (it' & -> & <- & Hy). eexists. split; [reflexivity|]. split; [done|]. by apply IH.
Qed.

Lemma table_source_yields es err : forall t : sstableViewIter K, yields t es err -> yields (TableSource t : sourceIter J K) es err.
Proof.
  assert (E : forall t : sstableViewIter K, iter_Next (TableSource t : sourceIter J K) = '(more, it) ← iter_Next t; Ok (more, TableSource it)) by done.
  induction es as [|e es IH]; intros t; cbn [yields]; rewrite E.
  - intros (it' & -> & He). by eexists.
  - intros (it' & -> & <- & Hy). eexists. split; [reflexivity|]. split; [done|]. by apply IH.
Qed.

(** [Snapshot.Range] on the range iterators of its memtables and tables. *)
Definition Range_merge (mems : list J) (tables : list K) : result (viewToEntryIterator (scanIter (sourceIter J K))) :=
  if bool_decide (length mems = 0 /\ length tables = 0) then Ok (mkToEntry (ErrorIter None) no_entry) else
  it ← newViewMergeIterator (map (fun m => MemSource (mkMemView m no_entry)) mems ++ map (fun t => TableSource (mkTableView t no_entry)) tables);
  Ok (mkToEntry it no_entry).

(** What the scan delivers, with enough rounds for every call of [Next]. *)
Definition scan_yields (fuel : nat) : viewToEntryIterator (scanIter (sourceIter J K)) -> list Entry -> option error -> Prop :=
  @yields _ (@viewToEntryIterator_ops _ (scanIter_ops fuel)).

Lemma tags_length ss : forall idx, length (tags (numbered idx ss)) = length (concat (map fst ss)).
Proof.
  induction ss as [|s ss IH]; intros idx; [done|]. change (numbered idx (s :: ss)) with ((idx, s) :: numbered (S idx) ss).
  unfold tags in *. cbn [map concat]. rewrite !length_app, IH, length_map. done.
Qed.

Lemma numbered_errs ss : forall idx, map src_err (numbered idx ss) = map snd ss.
Proof.
  induction ss as [|s ss IH]; intros idx; [done|]. change (numbered idx (s :: ss)) with ((idx, s) :: numbered (S idx) ss).
  cbn [map]. by rewrite IH.
Qed.

(** C39. A range scan shows the newest visible versions.  Let the sources be
    memtable iterators and table iterators, newest first, that deliver
    sorted runs, the tables perhaps ending in an error.  The scan delivers
    keys in ascending order.  If it ends without an error, no source failed
    and it shows, for every key, the version of the first source that has
    the key, unless this is a tombstone, and no other key.  If it ends with
    an error, a source ended with it, and the scan is right about every key
    up to the last one it delivered. *)
Theorem range_scan_overlays fuel (mems : list J) (tables : list K) mem_runs table_streams :
  Forall2 (fun it es => yields it es None) mems mem_runs ->
  Forall2 (fun it s => yields it (fst s) (snd s)) tables table_streams ->
  Forall sorted_run mem_runs -> Forall (fun s => sorted_run (fst s)) table_streams ->
  let runs := mem_runs ++ map fst table_streams in
  length (concat runs) < fuel ->
  exists it out err, Range_merge mems tables = Ok it /\
    scan_yields fuel it out err /\ sorted_run out /\
    match err with
    | None => Forall (fun s => snd s = None) table_streams /\ forall k, lookup_entry k out = visible runs k
    | Some e => Some e ∈ map snd table_streams /\ forall k, (exists x, x ∈ out /\ k ⪯ Key x) -> lookup_entry k out = visible runs k
    end.
Proof.
  intros Hm Ht Hsm Hst runs Hf. set (ss := map (fun es => (es, None : option error)) mem_runs ++ table_streams).
  assert (Er : map fst ss = runs) by (subst ss runs; rewrite map_app, map_map; cbn; by rewrite map_id).
  assert (Hss : Forall (fun s => sorted_run (fst s)) ss) by (apply Forall_app; split; [by apply Forall_fmap|done]).
  assert (Hx : map snd ss = map (fun _ => None) mem_runs ++ map snd table_streams) by (subst ss; by rewrite map_app, map_map).
  unfold Range_merge. case_bool_decide as E0.
  { destruct E0 as [E1 E2]. destruct mems, tables; try done. apply Forall2_nil_inv_l in Hm as ->. apply Forall2_nil_inv_l in Ht as ->.
    eexists _, [], None. split; [reflexivity|]. split; [by eexists|]. split; [constructor|]. split; [constructor|done]. }
  destruct (merge_yields fuel (map (fun m => MemSource (mkMemView m no_entry)) mems ++ map (fun t => TableSource (mkTableView t no_entry)) tables) ss)
    as (it & out & err & -> & Hy & Ho & He).
  - apply Forall2_app.
    + apply Forall2_fmap. eapply Forall2_impl; [exact Hm|]. intros m es Hy. eapply mem_source_yields, mem_yields. exact Hy.
    + apply Forall2_fmap_l. eapply Forall2_impl; [exact Ht|]. intros t s Hy. by apply table_source_yields, table_yields.
  - done.
  - rewrite tags_length, Er. done.
  - cbn [mbind result_bind]. eexists _, out, err. split; [reflexivity|]. split; [by apply to_entry_yields|]. split; [apply Ho|].
    rewrite <- Er. destruct err as [e|].
    + rewrite bool_decide_true in Ho by done. unfold fails in He. rewrite numbered_errs, Hx in He. split.
      * apply elem_of_app in He as [He|He]; [|done]. apply list_elem_of_fmap in He as (? & ? & _). done.
      * intros k Hk. apply (overlay_lookup true); auto.
    + rewrite bool_decide_false in Ho by (intros Hn; by apply Hn). apply no_errors_map in He. rewrite numbered_errs, Hx in He.
      apply Forall_app in He as [_ He]. split; [by apply Forall_fmap in He|]. intros k. apply (overlay_lookup false); auto.
Qed.
End Scan.

Lemma range_scan_overlays_witness :
  let e k v t n := mkEntry (bytes_of_string k) (bytes_of_string v) t n in
  let m := [e "a" "1" false 7; e "b" "" true 8]%string%Z in
  let t1 := [e "b" "2" false 3; e "c" "3" false 4]%string%Z in
  let t2 := [e "a" "0" false 1]%string%Z in
  (visible [m; t1; t2] (bytes_of_string "a") = Some (e "a" "1" false 7) /\ visible [m; t1; t2] (bytes_of_string "b") = None)%string%Z /\
  exists it out err', Range_merge [newSliceIterator m] [newSliceIterator t1; newSliceIterator t2] = Ok it /\
    scan_yields 10 it out err' /\ sorted_run out /\
    match err' with
    | None => Forall (fun s => snd s = None) [(t1, None); (t2, None : option error)] /\ forall k, lookup_entry k out = visible [m; t1; t2] k
    | Some x => Some x ∈ map snd [(t1, None); (t2, None : option error)] /\
        forall k, (exists y, y ∈ out /\ k ⪯ Key y) -> lookup_entry k out = visible [m; t1; t2] k
    end.
Proof.
  intros e m t1 t2. split; [vm_compute; by split|].
  apply (range_scan_overlays 10 [newSliceIterator m] [newSliceIterator t1; newSliceIterator t2] [m] [(t1, None); (t2, None)]).
  - repeat constructor; apply slice_yields.
  - repeat constructor; apply slice_yields.
  - decided.
  - decided.
  - vm_compute. lia.
Defined.
