(* ===== verification/Engine.v ===== *)
(** * The engine

    The local engine of pkg/lsm/engine with the local commit log
    (internal/lsm/commitlog/local.go) and the flush dispatcher
    (internal/lsm/dispatch): writes, freezing of memtables, the flush queue,
    flushes, point reads and snapshots.  Memtables have identities: they are
    pooled and recycled, and snapshots share them with the engine.  Tables
    and compactions are those of [LsmTree]; the memtable, the write-ahead
    log and the storage are interfaces. *)

From Stdlib Require Import ZArith Lia Strings.String.
From stdpp Require Import base sorting gmap strings list.
From S2P Require Import Prelude Heap Merge Memtable TableIter TableSet Handle Compaction Manifest CompactionRun LsmTree ViewMerge.
Local Open Scope Z_scope.

(** ** The local commit log *)

Record DataMutation := mkDataMutation { dm_Kind : string; dm_Key : bytes; dm_Value : bytes }.
Record Commit := mkCommit { Commit_Index : Z; Commit_Term : Z }.
Record DataCommittedEntry := mkDataCommitted { dc_Commit : Commit; dc_Mutation : DataMutation; dc_Seq : Z }.
Record localConsensus := mkLocal { lc_index : Z; lc_term : Z }.

Definition newLocalConsensus : localConsensus := mkLocal 0 1.

Definition nextCommit (c : localConsensus) : Commit * localConsensus :=
  let index := u64 (lc_index c + 1) in (mkCommit index (lc_term c), mkLocal index (lc_term c)).

Definition CommitData (c : localConsensus) (m : DataMutation) : DataCommittedEntry * localConsensus :=
  let '(commit, c) := nextCommit c in (mkDataCommitted commit m (Commit_Index commit), c).

Definition ObserveCommittedIndex (c : localConsensus) (index : Z) : localConsensus :=
  if bool_decide (lc_index c < index) then mkLocal index (lc_term c) else c.

(** ** Interfaces *)

(** The write-ahead log: the check of an entry and its append. *)
Class WriteAheadLog (W : Type) := {
  wal_ValidateEntry : W -> Entry -> result unit;
  wal_AppendOwned : Entry -> SE W unit
}.

Section Engine.
Context {T H M W : Type} `{MemTable T} `{TableHandle H} `{Storage H M} `{WriteAheadLog W}.
(** The base factory, the limit of a memtable, the capacity of the flush
    queue, whether the control plane accepts writes of a key, and the
    compaction settings. *)
Context (baseFactory : T) (mtLimit FlushQueueSize : Z) (allowWrite : bytes -> result unit).
Context (planner : StrictLevelledPlanner) (dropTombstones : bool) (fuel : nat).

(** Memtables are named by numbers; [l_heap] has their contents, [l_pool]
    the recycled ones.  [l_queue] is the dispatcher's channel, [l_waiting]
    the goroutines in [enqueueBlocking], [l_running] whether the dispatcher
    still runs. *)
Record LSM := mkLSM {
  l_heap : gmap nat T;
  l_pool : list nat;
  l_mem : nat;
  l_immutables : list nat;
  l_flushQueue : list nat;
  l_pinned : gmap nat Z;
  l_queue : list (list Entry);
  l_waiting : list (list Entry);
  l_flushBlocked : bool;
  l_running : bool;
  l_log : localConsensus;
  l_seq : Z;
  l_wal : W;
  l_tree : lsm H M
}.

Definition with_heap f s := mkLSM (f (l_heap s)) (l_pool s) (l_mem s) (l_immutables s) (l_flushQueue s) (l_pinned s) (l_queue s) (l_waiting s) (l_flushBlocked s) (l_running s) (l_log s) (l_seq s) (l_wal s) (l_tree s).
Definition with_pool f s := mkLSM (l_heap s) (f (l_pool s)) (l_mem s) (l_immutables s) (l_flushQueue s) (l_pinned s) (l_queue s) (l_waiting s) (l_flushBlocked s) (l_running s) (l_log s) (l_seq s) (l_wal s) (l_tree s).
Definition with_mem m s := mkLSM (l_heap s) (l_pool s) m (l_immutables s) (l_flushQueue s) (l_pinned s) (l_queue s) (l_waiting s) (l_flushBlocked s) (l_running s) (l_log s) (l_seq s) (l_wal s) (l_tree s).
Definition with_immutables f s := mkLSM (l_heap s) (l_pool s) (l_mem s) (f (l_immutables s)) (l_flushQueue s) (l_pinned s) (l_queue s) (l_waiting s) (l_flushBlocked s) (l_running s) (l_log s) (l_seq s) (l_wal s) (l_tree s).
Definition with_flushQueue f s := mkLSM (l_heap s) (l_pool s) (l_mem s) (l_immutables s) (f (l_flushQueue s)) (l_pinned s) (l_queue s) (l_waiting s) (l_flushBlocked s) (l_running s) (l_log s) (l_seq s) (l_wal s) (l_tree s).
Definition with_pinned f s := mkLSM (l_heap s) (l_pool s) (l_mem s) (l_immutables s) (l_flushQueue s) (f (l_pinned s)) (l_queue s) (l_waiting s) (l_flushBlocked s) (l_running s) (l_log s) (l_seq s) (l_wal s) (l_tree s).
Definition with_queue f s := mkLSM (l_heap s) (l_pool s) (l_mem s) (l_immutables s) (l_flushQueue s) (l_pinned s) (f (l_queue s)) (l_waiting s) (l_flushBlocked s) (l_running s) (l_log s) (l_seq s) (l_wal s) (l_tree s).
Definition with_waiting f s := mkLSM (l_heap s) (l_pool s) (l_mem s) (l_immutables s) (l_flushQueue s) (l_pinned s) (l_queue s) (f (l_waiting s)) (l_flushBlocked s) (l_running s) (l_log s) (l_seq s) (l_wal s) (l_tree s).
Definition with_flushBlocked b s := mkLSM (l_heap s) (l_pool s) (l_mem s) (l_immutables s) (l_flushQueue s) (l_pinned s) (l_queue s) (l_waiting s) b (l_running s) (l_log s) (l_seq s) (l_wal s) (l_tree s).
Definition with_running b s := mkLSM (l_heap s) (l_pool s) (l_mem s) (l_immutables s) (l_flushQueue s) (l_pinned s) (l_queue s) (l_waiting s) (l_flushBlocked s) b (l_log s) (l_seq s) (l_wal s) (l_tree s).
Definition with_log c s := mkLSM (l_heap s) (l_pool s) (l_mem s) (l_immutables s) (l_flushQueue s) (l_pinned s) (l_queue s) (l_waiting s) (l_flushBlocked s) (l_running s) c (l_seq s) (l_wal s) (l_tree s).
Definition with_seq n s := mkLSM (l_heap s) (l_pool s) (l_mem s) (l_immutables s) (l_flushQueue s) (l_pinned s) (l_queue s) (l_waiting s) (l_flushBlocked s) (l_running s) (l_log s) n (l_wal s) (l_tree s).
Definition with_wal w s := mkLSM (l_heap s) (l_pool s) (l_mem s) (l_immutables s) (l_flushQueue s) (l_pinned s) (l_queue s) (l_waiting s) (l_flushBlocked s) (l_running s) (l_log s) (l_seq s) w (l_tree s).
Definition with_tree t s := mkLSM (l_heap s) (l_pool s) (l_mem s) (l_immutables s) (l_flushQueue s) (l_pinned s) (l_queue s) (l_waiting s) (l_flushBlocked s) (l_running s) (l_log s) (l_seq s) (l_wal s) t.

(** A memtable by its name. *)
Definition deref (id : nat) : SE LSM T := fun s =>
  match l_heap s !! id with
  | Some t => (Ok t, s)
  | None => (Panic, s)
  end.
Definition store_table (id : nat) (t : T) : SE LSM unit := modify (with_heap <[id := t]>).

(** ** Memtables (memtable.go) *)

(** [mtFactory]: the pool may hand out a recycled memtable ([reuse]) or make
    a new one. *)
Definition mtFactory (reuse : bool) : SE LSM nat :=
  s ← get;
  match l_pool s with
  | id :: pool =>
      if reuse then _ ← modify (with_pool (fun _ => pool)); mret id
      else
        let id := fresh (dom (l_heap s)) in
        _ ← store_table id baseFactory; mret id
  | [] =>
      let id := fresh (dom (l_heap s)) in
      _ ← store_table id baseFactory; mret id
  end.

Definition pinMemtableLocked (id : nat) : SE LSM unit :=
  modify (with_pinned (fun m => <[id := default 0 (m !! id) + 1]> m)).

Definition unpinMemtableLocked (id : nat) : SE LSM bool :=
  s ← get;
  let count := default 0 (l_pinned s !! id) in
  if bool_decide (count <= 1) then _ ← modify (with_pinned (delete id)); mret true
  else _ ← modify (with_pinned <[id := count - 1]>); mret false.

Definition freezeMemtableLocked (pinned reuse : bool) : SE LSM nat :=
  s ← get;
  let frozen := l_mem s in
  id ← mtFactory reuse;
  _ ← modify (with_mem id);
  _ ← modify (with_immutables (fun l => l ++ [frozen]));
  _ ← (if pinned then pinMemtableLocked frozen else mret tt);
  mret frozen.

Definition freezeMemtableIfCurrent (current : nat) (reuse : bool) : SE LSM (option nat) :=
  s ← get;
  if bool_decide (l_mem s <> current) then mret None
  else frozen ← freezeMemtableLocked false reuse; mret (Some frozen).

Definition recycleMemtable (id : nat) : SE LSM unit :=
  s ← get;
  if bool_decide (is_Some (l_pinned s !! id)) then mret tt
  else
    t ← deref id;
    _ ← store_table id (mt_Reset t);
    modify (with_pool (fun pool => id :: pool)).

(** Removes the first occurrence. *)
Fixpoint remove_first (id : nat) (l : list nat) : list nat :=
  match l with
  | [] => []
  | x :: l => if bool_decide (x = id) then l else x :: remove_first id l
  end.

Definition removeImmutableLocked (id : nat) : SE LSM unit := modify (with_immutables (remove_first id)).
Definition removeFlushQueueLocked (id : nat) : SE LSM unit := modify (with_flushQueue (remove_first id)).
Definition removeImmutable (id : nat) : SE LSM unit := _ ← removeImmutableLocked id; removeFlushQueueLocked id.

Definition popFlushedTable : SE LSM (option nat) :=
  s ← get;
  match l_flushQueue s with
  | [] => mret None
  | flushed :: rest =>
      _ ← modify (with_flushQueue (fun _ => rest));
      _ ← removeImmutableLocked flushed;
      mret (Some flushed)
  end.

(** ** Flushes (flush_service.go, dispatcher.go) *)

Definition CanEnqueue (s : LSM) : bool := bool_decide (zlen (l_queue s) < FlushQueueSize).

(** [Enqueue]: without room it fails at once. *)
Definition Dispatcher_Enqueue (entries : list Entry) : SE LSM bool :=
  s ← get;
  if CanEnqueue s then _ ← modify (with_queue (fun q => q ++ [entries])); mret true
  else mret false.

Definition enqueue (id : nat) : SE LSM unit :=
  t ← deref id;
  entries ← lift (mt_Range t [] []);
  match entries with
  | [] => _ ← removeImmutable id; recycleMemtable id
  | _ =>
      _ ← modify (with_flushQueue (fun q => q ++ [id]));
      sent ← Dispatcher_Enqueue entries;
      if (sent : bool) then mret tt
      else
        _ ← modify (with_flushBlocked true);
        modify (with_waiting (fun w => w ++ [entries]))
  end.

(** A goroutine in [enqueueBlocking] gets its entries into the queue. *)
Definition enqueueBlocking (i : nat) : SE LSM unit :=
  s ← get;
  match l_waiting s !! i with
  | None => mret tt
  | Some entries =>
      if CanEnqueue s then
        _ ← modify (with_waiting (delete i));
        _ ← modify (with_queue (fun q => q ++ [entries]));
        modify (with_flushBlocked false)
      else mret tt
  end.

Definition tree_step (op : lsm_op) : SE LSM (list Entry) := fun s =>
  let '(r, tree) := lsm_step planner dropTombstones fuel (l_tree s) op in (r, with_tree tree s).

(** One round of [Dispatcher.Run]: the flush of the entries at the head of
    the queue, and [onFlush]; an error ends the dispatcher. *)
Definition Dispatcher_round : SE LSM unit :=
  s ← get;
  match l_queue s with
  | entries :: rest =>
      if l_running s then
        _ ← modify (with_queue (fun _ => rest));
        err ← catch (tree_step (LsmFlush entries));
        match err with
        | Some _ => modify (with_running false)
        | None =>
            flushed ← popFlushedTable;
            match flushed with Some id => recycleMemtable id | None => mret tt end
        end
      else mret tt
  | [] => mret tt
  end.

(** ** Writes (write_service.go) *)

Definition shouldThrottleWriteForMem (t : T) (delta : Z) (s : LSM) : bool :=
  if bool_decide (mtLimit <= 0) then false
  else if l_flushBlocked s then true
  else if bool_decide (mt_Size t + delta < mtLimit) then false
  else negb (CanEnqueue s).

Definition acquireMemForWrite (delta : Z) : SE LSM nat :=
  s ← get;
  t ← deref (l_mem s);
  if shouldThrottleWriteForMem t delta s then throw ErrBackpressure else mret (l_mem s).

Definition observeCommittedSeq (seq : Z) : SE LSM unit :=
  modify (fun s => if bool_decide (seq = 0) then s else if bool_decide (seq <= l_seq s) then s else with_seq seq s).

Definition triggerFlush (current : nat) (reuse : bool) : SE LSM unit :=
  frozen ← freezeMemtableIfCurrent current reuse;
  match frozen with Some id => enqueue id | None => mret tt end.

Definition on_wal {A} (m : SE W A) : SE LSM A := fun s => let '(r, w) := m (l_wal s) in (r, with_wal w s).

(** [appendPutToLocalStore] and [appendDeleteToLocalStore]. *)
Definition appendToLocalStore (entry : Entry) (reuse : bool) : SE LSM Z :=
  mem ← acquireMemForWrite (zlen (Key entry) + zlen (Value entry));
  _ ← on_wal (wal_AppendOwned entry);
  _ ← observeCommittedSeq (Seq entry);
  t ← deref mem;
  t ← lift (mt_ApplyOwned t entry);
  _ ← store_table mem t;
  _ ← (if bool_decide (mtLimit <= mt_Size t) then triggerFlush mem reuse else mret tt);
  mret (Seq entry).

Definition applyCommittedData (entry : DataCommittedEntry) (reuse : bool) : SE LSM Z :=
  if bool_decide (Commit_Index (dc_Commit entry) = 0 \/ Commit_Term (dc_Commit entry) = 0 \/ dc_Seq entry = 0) then throw ErrBackpressure
  else
    let m := dc_Mutation entry in
    if bool_decide (dm_Kind m = "put"%string) then appendToLocalStore (mkEntry (dm_Key m) (dm_Value m) false (dc_Seq entry)) reuse
    else if bool_decide (dm_Kind m = "delete"%string) then appendToLocalStore (mkEntry (dm_Key m) [] true (dc_Seq entry)) reuse
    else throw ErrBackpressure.

(** [commitPut] and [commitDelete] with the local commit log, which accepts
    every mutation. *)
Definition commit_mutation (m : DataMutation) (tombstone reuse : bool) : SE LSM Z :=
  s ← get;
  _ ← lift (wal_ValidateEntry (l_wal s) (mkEntry (dm_Key m) (dm_Value m) tombstone 0));
  let '(entry, log) := CommitData (l_log s) m in
  _ ← modify (with_log log);
  applyCommittedData entry reuse.

Definition LSM_Put (key value : bytes) (reuse : bool) : SE LSM Z :=
  if bool_decide (key = []) then throw ErrWALEmptyKey else
  if bool_decide (value = []) then throw ErrWALEmptyValue else
  _ ← lift (allowWrite key);
  commit_mutation (mkDataMutation "put" key value) false reuse.

Definition LSM_Delete (key : bytes) (reuse : bool) : SE LSM Z :=
  if bool_decide (key = []) then throw ErrWALEmptyKey else
  _ ← lift (allowWrite key);
  commit_mutation (mkDataMutation "delete" key []) true reuse.

(** ** Reads (read_service.go, read.go) *)

(** [memSnapshot]: the active memtable and the immutable ones, newest first. *)
Definition memSnapshot (s : LSM) : nat * list nat := (l_mem s, rev (l_immutables s)).

Fixpoint mems_Get (ids : list nat) (key : bytes) : SE LSM (option Entry) :=
  match ids with
  | [] => mret None
  | id :: ids =>
      t ← deref id;
      e ← lift (mt_Get t key);
      match e with Some e => mret (Some e) | None => mems_Get ids key end
  end.

(** The entry and whether it is live: [copyEntry(e), !e.Tombstone]. *)
Definition answer_of (e : option Entry) : option Entry * bool :=
  match e with Some e => (Some e, negb (Tombstone e)) | None => (None, false) end.

Definition LSM_Get_with (read : list H -> bytes -> result (option EntryView)) (key : bytes) : SE LSM (option Entry * bool) :=
  s ← get;
  let '(mem, immutables) := memSnapshot s in
  e ← mems_Get (mem :: immutables) key;
  match e with
  | Some e => mret (answer_of (Some e))
  | None =>
      view ← lift (read (Tables (lsm_set (l_tree s))) key);
      mret (answer_of (EntryView_ToEntry <$> view))
  end.
Definition LSM_Get := LSM_Get_with tables_Get.
Definition LSM_GetContext := LSM_Get_with tables_GetContext.

(** ** Snapshots (snapshot.go) *)

Record Snapshot := mkSnapshot {
  sn_mems : list nat;
  sn_tables : list (TableSet.Table H);
  sn_pinned : nat;
  sn_closed : bool
}.

Definition LSM_Snapshot (reuse : bool) : SE LSM Snapshot :=
  frozen ← freezeMemtableLocked true reuse;
  s ← get;
  let mems := rev (l_immutables s) in
  let tables := TablesWithMeta (lsm_set (l_tree s)) in
  _ ← tree_step LsmSnapshot;
  mret (mkSnapshot mems tables frozen false).

Definition releasePinned (id : nat) : SE LSM unit :=
  shouldFlush ← unpinMemtableLocked id;
  if (shouldFlush : bool) then enqueue id else mret tt.

(** [Snapshot.Close] of an open snapshot; [i] is its position among the open
    ones, for its pins. *)
Definition Snapshot_Close (sn : Snapshot) (i : nat) : SE LSM Snapshot :=
  if sn_closed sn then mret sn else
  _ ← releasePinned (sn_pinned sn);
  _ ← tree_step (LsmClose i);
  mret (mkSnapshot (sn_mems sn) (sn_tables sn) (sn_pinned sn) true).

Definition Snapshot_Get (sn : Snapshot) (key : bytes) : SE LSM (option Entry * bool) :=
  e ← mems_Get (sn_mems sn) key;
  match e with
  | Some e => mret (answer_of (Some e))
  | None =>
      view ← lift (tables_Get (map Table_Handle (sn_tables sn)) key);
      mret (answer_of (EntryView_ToEntry <$> view))
  end.

Fixpoint mem_iters (ids : list nat) (start stop : bytes) : SE LSM (list sliceIterator) :=
  match ids with
  | [] => mret []
  | id :: ids =>
      t ← deref id;
      es ← lift (mt_Range t start stop);
      its ← mem_iters ids start stop;
      mret (newSliceIterator es :: its)
  end.

Definition Snapshot_Range (sn : Snapshot) (start stop : bytes) : SE LSM (viewToEntryIterator (scanIter (sourceIter sliceIterator h_iterator))) :=
  mems ← mem_iters (sn_mems sn) start stop;
  lift (Range_merge mems (map (fun t => h_Range (Table_Handle t) start stop) (sn_tables sn))).

Definition new_engine (wal : W) (store : M) : LSM :=
  mkLSM {[0%nat := baseFactory]} [] 0 [] [] ∅ [] [] false true newLocalConsensus 0 wal (new_lsm store).
End Engine.

(** ** Examples *)

#[export] Instance list_wal : WriteAheadLog (list Entry) := {
  wal_ValidateEntry _ _ := Ok tt;
  wal_AppendOwned e := modify (fun w => w ++ [e])
}.

Section Demo.
Context (limit : Z).

Abbreviation engine := (LSM (T := MapTable) (H := run_handle) (M := nat) (W := list Entry)).

Definition demo_put (k v : string) : SE engine Z :=
  LSM_Put newMapTable limit 4 (fun _ => Ok tt) (bytes_of_string k) (bytes_of_string v) true.
Definition demo_round : SE engine unit := Dispatcher_round eager_planner false 20.
Definition demo_snapshot : SE engine Snapshot := LSM_Snapshot newMapTable eager_planner false 20 true.
Definition demo_engine : engine := new_engine newMapTable [] 0%nat.
End Demo.

(** A snapshot keeps only the memtable that it froze: one that was waiting
    for its flush is emptied and reused after the flush, and the table is not
    in the snapshot.  A key written and acknowledged before the snapshot is
    gone from it. *)
Theorem snapshot_loses_queued_memtable :
  let m :=
    _ ← demo_put 1 "a" "1";
    sn ← demo_snapshot;
    before ← Snapshot_Get sn (bytes_of_string "a");
    _ ← demo_round;
    after ← Snapshot_Get sn (bytes_of_string "a");
    now ← LSM_Get (bytes_of_string "a");
    mret (before, after, now) in
  let e := put "a" "1" 1 in
  fst (m demo_engine) = Ok ((Some e, true), (None, false), (Some e, true)).
Proof. vm_compute. reflexivity. Qed.

(** While a snapshot pins a memtable, reads of the engine look into it before
    the tables, although a newer memtable was flushed: an overwritten value
    comes back. *)
Theorem pinned_memtable_hides_newer_flush :
  let m :=
    _ ← demo_put 30 "a" "old";
    _ ← demo_snapshot;
    _ ← demo_put 30 "a" "a much longer value than the limit";
    before ← LSM_Get (bytes_of_string "a");
    _ ← demo_round;
    after ← LSM_Get (bytes_of_string "a");
    mret (before, after) in
  fst (m demo_engine) = Ok ((Some (put "a" "a much longer value than the limit" 2), true), (Some (put "a" "old" 1), true)).
Proof. vm_compute. reflexivity. Qed.
