(* ===== verification/EngineSpec.v ===== *)
(** * The engine refines a map

    Over any sequence of writes, flushes, compactions and pinned reads
    without snapshots, point reads of the engine return the last
    acknowledged write of the key.  The proof carries an invariant through
    every operation: the flushed versions, the immutable memtables in the
    order of the flush queue and the active memtable have ascending sequence
    numbers, and together hold a version of every key at least as new as any
    acknowledged one. *)

From Stdlib Require Import ZArith Lia Strings.String.
From stdpp Require Import base sorting gmap strings list.
From S2P Require Import Prelude Heap Merge Memtable TableIter TableSet Handle Compaction Manifest CompactionRun LsmTree ViewMerge Engine.
Local Open Scope Z_scope.

(** What the engine relies on of the log: its calls return. *)
Class WriteAheadLogLaws (W : Type) `{WriteAheadLog W} := {
  law_ValidateEntry w e : wal_ValidateEntry w e = Ok tt \/ exists err, wal_ValidateEntry w e = Err err;
  law_AppendOwned e w : wpe (wal_AppendOwned e) (fun _ _ => True) (fun _ => True) w
}.

Section Spec.
Context {T H M W : Type} `{MemTableLaws T} `{SL : StorageLaws H M} `{WL : WriteAheadLogLaws W}.
Context (baseFactory : T) (mtLimit FlushQueueSize : Z) (allowWrite : bytes -> result unit).
Context (planner : StrictLevelledPlanner) (fuel : nat).

(** What else a client wants to know of the tables with their history, and
    of the log with the acknowledged writes. *)
Context (TP : list Entry -> lsm H M -> Prop) (LP : W -> list Entry -> Prop).

Abbreviation engine := (LSM (T := T) (H := H) (M := M) (W := W)).

(** What goroutines do: clients write and read (a read with a context pins
    the tables for its duration), the dispatcher flushes, a blocked enqueue
    goes on, the compaction plans and installs. *)
Inductive eng_op :=
  | EPut (key value : bytes) (reuse : bool)
  | EDelete (key : bytes) (reuse : bool)
  | ERound
  | EBlocking (i : nat)
  | EPlan
  | EInstall
  | EPin
  | EUnpin (i : nat).

(** An operation returns the write it acknowledges. *)
Definition eng_step (op : eng_op) : SE engine (list Entry) :=
  match op with
  | EPut key value reuse =>
      seq ← LSM_Put baseFactory mtLimit FlushQueueSize allowWrite key value reuse; mret [mkEntry key value false seq]
  | EDelete key reuse => seq ← LSM_Delete baseFactory mtLimit FlushQueueSize allowWrite key reuse; mret [mkEntry key [] true seq]
  | ERound => _ ← Dispatcher_round planner false fuel; mret []
  | EBlocking i => _ ← enqueueBlocking FlushQueueSize i; mret []
  | EPlan => tree_step planner false fuel LsmPlan
  | EInstall => tree_step planner false fuel LsmInstall
  | EPin => tree_step planner false fuel LsmSnapshot
  | EUnpin i => tree_step planner false fuel (LsmClose i)
  end.

(** The outcomes, the acknowledged writes (the last one first) and the
    state. *)
Fixpoint eng_run (acked : list Entry) (s : engine) (ops : list eng_op) : list (result (list Entry)) * list Entry * engine :=
  match ops with
  | [] => ([], acked, s)
  | op :: ops =>
      let '(r, s) := eng_step op s in
      let '(rs, acked, s) := eng_run (flushed_by r ++ acked) s ops in
      (r :: rs, acked, s)
  end.

(** ** The invariant *)

Definition before (a b : list Entry) : Prop := forall x y, x ∈ a -> y ∈ b -> Seq x < Seq y.

(** A memtable of the heap with its run. *)
Definition mem_is (s : engine) (id : nat) (es : list Entry) : Prop := exists t, l_heap s !! id = Some t /\ mt_rep t es.

(** A write is in the era of one of several runs, from the oldest to the
    newest: the run has its key, at least as new, and older runs have only
    older versions. *)
Definition has_version (es : list Entry) (x : Entry) : Prop := exists e, e ∈ es /\ Key e = Key x /\ Seq x <= Seq e.
Definition newer_than (es : list Entry) (x : Entry) : Prop := forall y, y ∈ es -> Seq y < Seq x.
Fixpoint era (runs : list (list Entry)) (x : Entry) : Prop :=
  match runs with
  | [] => False
  | es :: runs => has_version es x \/ (newer_than es x /\ era runs x)
  end.

Record eng_inv (G : gmap string (list Entry)) (hist acked mrun : list Entry) (iruns : list (list Entry)) (s : engine) : Prop := {
  ei_mem : mem_is s (l_mem s) mrun;
  ei_immutables : Forall2 (fun id es => mem_is s id es /\ es <> []) (l_immutables s) iruns;
  ei_pool : Forall (fun id => mem_is s id []) (l_pool s);
  ei_nodup : NoDup (l_mem s :: l_immutables s ++ l_pool s);
  ei_pinned : l_pinned s = ∅;
  ei_flushQueue : l_flushQueue s = l_immutables s;
  ei_queue : l_running s = true -> l_queue s ++ l_waiting s = iruns;
  ei_waiting : l_running s = true -> l_waiting s = [] \/ (length (l_waiting s) = 1%nat /\ l_flushBlocked s = true);
  ei_tree : lsm_inv G hist (l_tree s);
  ei_order : StronglySorted before (hist :: iruns ++ [mrun]);
  ei_from x : x ∈ mrun ++ concat iruns ++ hist -> x ∈ acked;
  ei_era x : x ∈ acked -> era (hist :: iruns ++ [mrun]) x;
  ei_acked : StronglySorted (fun x y => Seq y < Seq x) acked;
  ei_fits : Forall fits acked;
  ei_hist : NoDup hist;
  ei_positive x : x ∈ acked -> 0 < Seq x;
  ei_extra : TP hist (l_tree s);
  ei_wal : LP (l_wal s) (rev acked)
}.

(** The commit log has given the sequence numbers out. *)
Definition log_ok (acked : list Entry) (c : localConsensus) : Prop :=
  (forall x, x ∈ acked -> Seq x <= lc_index c) /\ 0 <= lc_index c /\ lc_term c = 1.

Lemma era_version runs x : era runs x -> exists es e, es ∈ runs /\ e ∈ es /\ Key e = Key x /\ Seq x <= Seq e.
Proof.
  induction runs as [|es runs IH]; cbn [era]; [done|]. intros [(e & ?)|[_ Hx]]; [exists es, e; by split; [left|]|].
  destruct (IH Hx) as (es' & e & ? & ?). exists es', e. by split; [right|].
Qed.

Lemma era_app runs more x : era runs x -> era (runs ++ more) x.
Proof. induction runs as [|es runs IH]; cbn [era app]; [done|]. intros [?|[? ?]]; [by left|right; auto]. Qed.

Lemma era_new runs es x : Forall (fun r => newer_than r x) runs -> has_version es x -> era (runs ++ [es]) x.
Proof. induction 1 as [|r runs Hr _ IH]; intros Hx; cbn [era app]; [by left|]. right. auto. Qed.

Lemma era_last runs es es' x : (has_version es x -> has_version es' x) -> era (runs ++ [es]) x -> era (runs ++ [es']) x.
Proof.
  intros Hv. induction runs as [|r runs IH]; cbn [era app]; [intros [?|[_ []]]; left; auto|]. intros [?|[? ?]]; [by left|right; auto].
Qed.

Lemma ei_newest G hist acked mrun iruns s x :
  eng_inv G hist acked mrun iruns s -> x ∈ acked -> exists e, e ∈ mrun ++ concat iruns ++ hist /\ Key e = Key x /\ Seq x <= Seq e.
Proof.
  intros I Hx. destruct (era_version _ _ (ei_era _ _ _ _ _ _ I x Hx)) as (es & e & Hes & He & Hk). exists e. split; [|done].
  rewrite !elem_of_app. apply elem_of_cons in Hes as [->|Hes]; [auto|]. apply elem_of_app in Hes as [Hes|Hes].
  - right. left. apply list_elem_of_In, in_concat. exists es. by rewrite <- !list_elem_of_In.
  - apply list_elem_of_singleton in Hes as ->. by left.
Qed.

(** ** Reads *)

Lemma acked_lookup acked key e :
  StronglySorted (fun x y => Seq y < Seq x) acked -> e ∈ acked -> Key e = key ->
  (forall x, x ∈ acked -> Key x = key -> Seq x <= Seq e) -> lookup_entry key acked = Some e.
Proof.
  induction 1 as [|x acked Hs IH Hx]; intros He Hk Hm; [by apply elem_of_nil in He|]. cbn [lookup_entry].
  apply elem_of_cons in He as [->|He]; [by rewrite bool_decide_true|]. case_bool_decide as E.
  - exfalso. rewrite Forall_forall in Hx. specialize (Hx e He). specialize (Hm x ltac:(by left) E). lia.
  - apply IH; [done|done|]. intros y Hy. apply Hm. by right.
Qed.

(** The memtables of a read, newest first. *)
Lemma mems_Get_spec s ids runs key :
  Forall2 (mem_is s) ids runs -> mems_Get ids key s = (Ok (first_version runs key), s).
Proof.
  induction 1 as [|id es ids runs (t & Et & Hr) _ IH]; cbn [mems_Get first_version]; [done|].
  unfold mbind, SE_bind, deref at 1. rewrite Et. unfold lift at 1. rewrite (law_Get _ _ key Hr).
  by destruct (lookup_entry key es).
Qed.

(** The first of several runs with a key, from the newest to the oldest, has
    its newest version. *)
Lemma first_version_newest runs key e :
  StronglySorted (fun a b => before b a) runs -> Forall sorted_run runs -> first_version runs key = Some e ->
  e ∈ concat runs /\ Key e = key /\ forall x, x ∈ concat runs -> Key x = key -> Seq x <= Seq e.
Proof.
  induction 1 as [|r runs Hs IH Hr]; intros Hsr; cbn [first_version concat]; [done|]. apply Forall_cons in Hsr as [Hr1 Hsr].
  destruct (lookup_entry key r) as [e'|] eqn:El.
  - intros [= ->]. apply lookup_entry_Some in El as [He Hk]. split; [apply elem_of_app; by left|]. split; [done|].
    intros x [Hx|Hx]%elem_of_app Hkx.
    + assert (x = e) as ->; [|done]. apply (NoDup_map_inj Key r); [by apply sorted_run_keys|done|done|congruence].
    + apply list_elem_of_In, in_concat in Hx as (r' & Hr'%list_elem_of_In & Hx%list_elem_of_In). rewrite Forall_forall in Hr.
      specialize (Hr r' Hr' x e Hx He). lia.
  - intros E. destruct (IH Hsr E) as (He & Hk & Hm). split; [apply elem_of_app; by right|]. split; [done|].
    intros x [Hx|Hx]%elem_of_app Hkx; [|auto]. apply lookup_entry_None in El. rewrite Forall_forall in El. by destruct (El x Hx).
Qed.

Lemma first_version_none runs key : first_version runs key = None -> forall x, x ∈ concat runs -> Key x <> key.
Proof.
  induction runs as [|r runs IH]; cbn [first_version concat]; [by intros _ x ?%elem_of_nil|].
  destruct (lookup_entry key r) as [e'|] eqn:El; [done|]. intros E x [Hx|Hx]%elem_of_app; [|by apply IH].
  apply lookup_entry_None in El. rewrite Forall_forall in El. by apply El.
Qed.

Lemma before_rev runs : StronglySorted before runs -> StronglySorted (fun a b => before b a) (rev runs).
Proof.
  induction 1 as [|r runs Hs IH Hr]; cbn [rev]; [constructor|]. apply StronglySorted_app. split; [|split; [done|repeat constructor]].
  intros a b Ha ->%list_elem_of_singleton. rewrite Forall_forall in Hr. apply Hr. apply list_elem_of_In, in_rev, list_elem_of_In, Ha.
Qed.

Lemma inv_runs G hist acked mrun iruns s :
  eng_inv G hist acked mrun iruns s ->
  Forall2 (mem_is s) (l_mem s :: rev (l_immutables s)) (mrun :: rev iruns) /\ Forall sorted_run (mrun :: rev iruns) /\
  StronglySorted (fun a b => before b a) (mrun :: rev iruns) /\
  (forall x, x ∈ concat (mrun :: rev iruns) <-> x ∈ mrun ++ concat iruns) /\
  before hist (concat (mrun :: rev iruns)).
Proof.
  intros I.
  assert (F : Forall2 (mem_is s) (l_mem s :: rev (l_immutables s)) (mrun :: rev iruns)).
  { constructor; [apply I|]. rewrite !rev_alt. apply Forall2_reverse. eapply Forall2_impl; [apply (ei_immutables _ _ _ _ _ _ I)|]. by intros id es [? _]. }
  split; [done|]. split.
  { apply Forall_forall. intros r [i Hi]%list_elem_of_lookup. destruct (Forall2_lookup_r _ _ _ _ _ F Hi) as (id & _ & t & _ & Hr). by eapply law_sorted. }
  pose proof (ei_order _ _ _ _ _ _ I) as Ho. apply StronglySorted_inv in Ho as [Ho Hh].
  assert (Hc : forall x, x ∈ concat (mrun :: rev iruns) <-> x ∈ mrun ++ concat iruns).
  { intros x. cbn [concat]. rewrite !elem_of_app. assert (P : concat (rev iruns) ≡ₚ concat iruns) by (apply concat_perm; symmetry; apply Permutation_rev). by rewrite P. }
  split; [pose proof (before_rev _ Ho) as Hb; by rewrite rev_app_distr in Hb|]. split; [done|].
  intros x y Hx Hy. apply Hc, elem_of_app in Hy. rewrite Forall_forall in Hh. destruct Hy as [Hy|Hy].
  - apply (Hh mrun); [apply elem_of_app; right; by left|done|done].
  - apply list_elem_of_In, in_concat in Hy as (r & Hr%list_elem_of_In & Hy%list_elem_of_In). apply (Hh r); [apply elem_of_app; by left|done|done].
Qed.

Lemma Get_with_spec read G hist acked mrun iruns s key :
  (forall r, (forall rd, reads_runs key rd -> first_found rd (Tables (lsm_set (l_tree s))) key = Ok r) -> read (Tables (lsm_set (l_tree s))) key = Ok r) ->
  eng_inv G hist acked mrun iruns s -> LSM_Get_with read key s = (Ok (answer_of (lookup_entry key acked)), s).
Proof.
  intros Hread I. destruct (inv_runs _ _ _ _ _ _ I) as (F & Hs & Ho & Hc & Hh). unfold LSM_Get_with. rewrite SE_get_bind.
  cbn [memSnapshot]. rewrite (SE_bind_Ok _ _ _ _ _ (mems_Get_spec s _ _ key F)).
  destruct (first_version (mrun :: rev iruns) key) as [e|] eqn:Ev.
  - destruct (first_version_newest _ _ _ Ho Hs Ev) as (He & Hk & Hm). unfold mret, SE_ret. do 3 f_equal. symmetry.
    apply acked_lookup; [apply I|apply (ei_from _ _ _ _ _ _ I); rewrite app_assoc; apply elem_of_app; left; by apply Hc|done|].
    intros x Hx Hkx. destruct (ei_newest _ _ _ _ _ _ x I Hx) as (e' & He' & Hk' & Hle). rewrite app_assoc in He'. apply elem_of_app in He' as [He'|He'].
    + apply Hc in He'. specialize (Hm e' He'). rewrite Hk', Hkx in Hm. specialize (Hm eq_refl). lia.
    + specialize (Hh e' e He' He). lia.
  - pose proof (first_version_none _ _ Ev) as Hnone.
    destruct (inv_reads G hist (l_tree s) key (ei_tree _ _ _ _ _ _ I)) as (r & Hr & Hall). rewrite (Hread r Hall).
    unfold mbind, SE_bind, lift, mret, SE_ret. do 3 f_equal. symmetry.
    assert (Hin : forall x, x ∈ acked -> Key x = key -> exists e, e ∈ hist /\ Key e = key /\ Seq x <= Seq e).
    { intros x Hx Hkx. destruct (ei_newest _ _ _ _ _ _ x I Hx) as (e' & He' & Hk' & Hle). rewrite app_assoc in He'.
      apply elem_of_app in He' as [He'|He']; [apply Hc in He'; destruct (Hnone e' He'); congruence|]. exists e'. split; [done|]. split; [congruence|done]. }
    destruct r as [v|]; cbn [reads_newest fmap option_fmap option_map] in *.
    + destruct Hr as (e & -> & He & Hk & Hm). assert (EntryView_ToEntry (EntryView_of e) = e) as -> by (by destruct e).
      apply acked_lookup; [apply I|apply (ei_from _ _ _ _ _ _ I); rewrite !elem_of_app; auto|done|].
      intros x Hx Hkx. destruct (Hin x Hx Hkx) as (e' & He' & Hk' & Hle). specialize (Hm e' He' Hk'). unfold newer in Hm. lia.
    + apply lookup_entry_None, Forall_forall. intros x Hx Hkx. destruct (Hin x Hx Hkx) as (e' & He' & Hk' & _). by destruct (Hr e' He').
Qed.

Lemma Forall2_impl_in {A B} (P Q : A -> B -> Prop) l k :
  Forall2 P l k -> (forall x y, x ∈ l -> P x y -> Q x y) -> Forall2 Q l k.
Proof.
  induction 1 as [|x y l k Hp _ IH]; intros HQ; constructor; [apply HQ; [by left|done]|]. apply IH. intros. apply HQ; [by right|done].
Qed.

(** ** Freezing *)

Context (Hbase : mt_rep baseFactory []) (Hlimit : 0 < mtLimit).

(** The memtables that are in use or in the pool. *)
Definition known (s : engine) : list nat := l_mem s :: l_immutables s ++ l_pool s.

Lemma inv_known G hist acked mrun iruns s id :
  eng_inv G hist acked mrun iruns s -> id ∈ known s -> exists es, mem_is s id es.
Proof.
  intros I [->|[Hi|Hi]%elem_of_app]%elem_of_cons.
  - exists mrun. apply I.
  - apply list_elem_of_lookup in Hi as [i Hi]. destruct (Forall2_lookup_l _ _ _ _ _ (ei_immutables _ _ _ _ _ _ I) Hi) as (es & _ & Hm & _). by exists es.
  - exists []. pose proof (ei_pool _ _ _ _ _ _ I) as Hp. rewrite Forall_forall in Hp. by apply Hp.
Qed.

(** A memtable from the factory is empty and was not in use. *)
Lemma mtFactory_spec G hist acked mrun iruns s reuse :
  eng_inv G hist acked mrun iruns s ->
  exists id h pool, mtFactory baseFactory reuse s = (Ok id, with_pool (fun _ => pool) (with_heap (fun _ => h) s)) /\
    (exists t, h !! id = Some t /\ mt_rep t []) /\ NoDup (id :: l_mem s :: l_immutables s ++ pool) /\
    (forall i, i ∈ l_mem s :: l_immutables s ++ pool -> h !! i = l_heap s !! i) /\ (forall i, i ∈ pool -> i ∈ l_pool s).
Proof.
  intros I. pose proof (ei_nodup _ _ _ _ _ _ I) as Hn.
  assert (Hnew : exists id h pool,
    (let id := fresh (dom (l_heap s)) in _ ← store_table id baseFactory; mret id) s = (Ok id, with_pool (fun _ => pool) (with_heap (fun _ => h) s)) /\
    (exists t, h !! id = Some t /\ mt_rep t []) /\ NoDup (id :: l_mem s :: l_immutables s ++ pool) /\
    (forall i, i ∈ l_mem s :: l_immutables s ++ pool -> h !! i = l_heap s !! i) /\ (forall i, i ∈ pool -> i ∈ l_pool s)).
  { set (id := fresh (dom (l_heap s))). assert (Hid : forall i, i ∈ known s -> i <> id).
    { intros i Hi ->. destruct (inv_known _ _ _ _ _ _ _ I Hi) as (es & t & Et & _). apply (is_fresh (dom (l_heap s))). fold id.
      apply elem_of_dom. by exists t. }
    exists id, (<[id := baseFactory]> (l_heap s)), (l_pool s). split; [by destruct s|]. split; [exists baseFactory; by rewrite lookup_insert_eq|].
    split; [constructor; [|done]; intros Hi; by apply (Hid id)|]. split; [|done]. intros i Hi. rewrite lookup_insert_ne; [done|]. intros E. by apply (Hid i). }
  unfold mtFactory. rewrite SE_get_bind. destruct (l_pool s) as [|id pool] eqn:Ep; [exact Hnew|]. destruct reuse; [|exact Hnew].
  exists id, (l_heap s), pool. split; [by destruct s|]. pose proof (ei_pool _ _ _ _ _ _ I) as Hp. rewrite Ep in Hp. apply Forall_cons in Hp as [Hp _].
  split; [exact Hp|]. split; [|split; [done|intros i Hi; by right]].
  assert (P : id :: l_mem s :: l_immutables s ++ pool ≡ₚ l_mem s :: l_immutables s ++ id :: pool).
  { rewrite <- Permutation_middle. apply perm_swap. }
  by rewrite P.
Qed.

Lemma mem_is_ext s s' id es : l_heap s' !! id = l_heap s !! id -> mem_is s id es -> mem_is s' id es.
Proof. intros E (t & Et & Hr). exists t. by rewrite E. Qed.

Lemma triggerFlush_spec G hist acked mrun iruns s reuse :
  eng_inv G hist acked mrun iruns s -> mrun <> [] -> (l_running s = true -> l_waiting s = []) ->
  exists s', triggerFlush baseFactory FlushQueueSize (l_mem s) reuse s = (Ok tt, s') /\ eng_inv G hist acked [] (iruns ++ [mrun]) s' /\ l_log s' = l_log s.
Proof.
  intros I Hne Hw. destruct (mtFactory_spec _ _ _ _ _ _ reuse I) as (id & h & pool & Ef & (t0 & Et0 & Hr0) & Hn & Hh & Hp).
  destruct (ei_mem _ _ _ _ _ _ I) as (t & Et & Hr).
  assert (Ht : h !! l_mem s = Some t) by (rewrite Hh; [done|by left]).
  set (blocked := negb (bool_decide (zlen (l_queue s) < FlushQueueSize))).
  exists (mkLSM h pool id (l_immutables s ++ [l_mem s]) (l_flushQueue s ++ [l_mem s]) (l_pinned s)
    (if blocked then l_queue s else l_queue s ++ [mrun]) (if blocked then l_waiting s ++ [mrun] else l_waiting s)
    (if blocked then true else l_flushBlocked s) (l_running s) (l_log s) (l_seq s) (l_wal s) (l_tree s)).
  split.
  - unfold triggerFlush, freezeMemtableIfCurrent, freezeMemtableLocked. unfold mbind, SE_bind, get. rewrite bool_decide_false by tauto.
    rewrite Ef. cbn [modify]. unfold modify, mret, SE_ret. cbn [with_mem with_immutables with_pool with_heap l_mem l_immutables l_heap].
    unfold enqueue, mbind, SE_bind, deref. cbn [with_mem with_immutables with_pool with_heap l_mem l_immutables l_heap]. rewrite Ht.
    unfold lift. rewrite (law_Range _ _ [] [] Hr), entries_between_all. destruct mrun as [|e mrun]; [done|].
    unfold modify, Dispatcher_Enqueue, CanEnqueue, mbind, SE_bind, get. subst blocked.
    cbn [with_flushQueue with_mem with_immutables with_pool with_heap l_queue].
    by case_bool_decide.
  - split; [|done]. destruct I as [I1 I2 I3 I4 I5 I6 I7 I8 I9 I10 I13 I14 I15 I16 I17 I18 I19 I20].
    split; cbn [l_heap l_pool l_mem l_immutables l_flushQueue l_pinned l_queue l_waiting l_flushBlocked l_running l_log l_tree].
    + by exists t0.
    + apply Forall2_app; [|constructor; [split; [by exists t|done]|constructor]]. eapply Forall2_impl_in; [exact I2|]. cbv beta.
      intros i es Hi [Hm Hes]. split; [|done]. eapply mem_is_ext; [|exact Hm]. cbn. apply Hh. right. apply elem_of_app. by left.
    + apply Forall_forall. intros i Hi. rewrite Forall_forall in I3. eapply mem_is_ext; [|apply I3, Hp, Hi]. cbn. apply Hh. right. apply elem_of_app. by right.
    + rewrite <- app_assoc. cbn [app]. by rewrite <- (Permutation_middle (l_immutables s) pool (l_mem s)).
    + done.
    + by rewrite I6.
    + intros Hrun. rewrite <- (I7 Hrun), (Hw Hrun). destruct blocked; by rewrite ?app_nil_r.
    + intros Hrun. rewrite (Hw Hrun). destruct blocked; [by right|by left].
    + done.
    + change (StronglySorted before ((hist :: iruns ++ [mrun]) ++ [[]])). apply StronglySorted_app. split; [|split; [done|repeat constructor]].
      by intros x y _ ->%list_elem_of_singleton u v _ ?%elem_of_nil.
    + intros x Hx. apply I13. rewrite concat_app in Hx. cbn [concat] in Hx. rewrite app_nil_r in Hx. rewrite !elem_of_app, elem_of_nil in Hx. rewrite !elem_of_app. tauto.
    + intros x Hx. change (era ((hist :: iruns ++ [mrun]) ++ [[]]) x). apply era_app. auto.
    + done.
    + done.
    + done.
    + done.
    + done.
    + done.
Qed.

(** ** Writes *)

Context (HL : forall e w es, LP w es -> wpe (wal_AppendOwned e) (fun _ w' => LP w' (es ++ [e])) (fun w' => LP w' es) w).

Lemma inv_wal G hist acked mrun iruns s w :
  eng_inv G hist acked mrun iruns s -> LP w (rev acked) -> eng_inv G hist acked mrun iruns (with_wal w s).
Proof. intros [] Hw. by split. Qed.

Lemma inv_seq G hist acked mrun iruns s n : eng_inv G hist acked mrun iruns s -> eng_inv G hist acked mrun iruns (with_seq n s).
Proof. by intros []. Qed.

Lemma inv_log G hist acked mrun iruns s c : eng_inv G hist acked mrun iruns s -> eng_inv G hist acked mrun iruns (with_log c s).
Proof. by intros []. Qed.

Lemma inv_apply G hist acked mrun iruns s w e t :
  eng_inv G hist acked mrun iruns s -> mt_rep t (upsert e mrun) -> (forall x, x ∈ acked -> Seq x < Seq e) -> 0 < Seq e -> fits e ->
  LP w (rev (e :: acked)) -> eng_inv G hist (e :: acked) (upsert e mrun) iruns (with_heap <[l_mem s := t]> (with_wal w s)).
Proof.
  intros [I1 I2 I3 I4 I5 I6 I7 I8 I9 I10 I13 I14 I15 I16 I17 I18 I19 I20] Hr Hnew Hpos Hfit Hw.
  pose proof I4 as [Hnm _]%NoDup_cons. rewrite not_elem_of_app in Hnm.
  split; cbn [with_heap with_wal l_wal l_heap l_pool l_mem l_immutables l_flushQueue l_pinned l_queue l_waiting l_flushBlocked l_running l_log l_tree]; try done.
  - exists t. cbn. by rewrite lookup_insert_eq.
  - eapply Forall2_impl_in; [exact I2|]. cbv beta. intros i es Hi [Hm Hes]. split; [|done]. eapply mem_is_ext; [|exact Hm]. cbn.
    apply lookup_insert_ne. intros <-. tauto.
  - apply Forall_forall. intros i Hi. rewrite Forall_forall in I3. eapply mem_is_ext; [|by apply I3]. cbn. apply lookup_insert_ne. intros <-. tauto.
  - change (StronglySorted before ((hist :: iruns) ++ [upsert e mrun])). change (StronglySorted before ((hist :: iruns) ++ [mrun])) in I10.
    apply StronglySorted_app in I10 as (H10 & H11 & _). apply StronglySorted_app. split; [|split; [done|repeat constructor]].
    intros a b Ha ->%list_elem_of_singleton x y Hx Hy. apply upsert_elem in Hy as [->|Hy]; [|by apply (H10 a mrun); [|left| |]].
    apply Hnew, I13. apply elem_of_cons in Ha as [->|Ha]; rewrite !elem_of_app; [auto|]. right. left.
    apply list_elem_of_In, in_concat. exists a. split; by apply list_elem_of_In.
  - intros x [Hx|Hx]%elem_of_app; [apply upsert_elem in Hx as [->|Hx]; [by left|]|]; right; apply I13; rewrite elem_of_app; auto.
  - change (forall x, x ∈ e :: acked -> era ((hist :: iruns) ++ [upsert e mrun]) x). intros x [->|Hx]%elem_of_cons.
    + apply era_new; [|exists e; split; [apply upsert_self|]; split; [done|lia]]. apply Forall_forall. intros r Hrr y Hy. apply Hnew, I13.
      apply elem_of_cons in Hrr as [->|Hrr]; rewrite !elem_of_app; [auto|]. right. left. apply list_elem_of_In, in_concat. exists r. by rewrite <- !list_elem_of_In.
    + apply (era_last _ mrun); [|by apply I14]. intros (e' & He' & Hk & Hs). destruct (decide (Key x = Key e)) as [E|E].
      * exists e. split; [apply upsert_self|]. specialize (Hnew x Hx). split; [done|lia].
      * exists e'. split; [|done]. apply upsert_keep; [done|congruence].
  - constructor; [done|]. apply Forall_forall. auto.
  - by constructor.
  - intros x [->|Hx]%elem_of_cons; auto.
Qed.

Lemma append_spec G hist acked mrun iruns s e reuse :
  eng_inv G hist acked mrun iruns s -> (forall x, x ∈ acked -> Seq x < Seq e) -> 0 < Seq e -> fits e ->
  wpe (appendToLocalStore baseFactory mtLimit FlushQueueSize e reuse)
    (fun seq s' => seq = Seq e /\ l_log s' = l_log s /\ exists mrun' iruns', eng_inv G hist (e :: acked) mrun' iruns' s')
    (fun s' => eng_inv G hist acked mrun iruns s' /\ l_log s' = l_log s) s.
Proof.
  intros I Hnew Hpos Hfit. pose proof (ei_mem _ _ _ _ _ _ I) as (t & Et & Hr). unfold appendToLocalStore, acquireMemForWrite.
  apply wpe_bind, wpe_get, wpe_bind. unfold wpe at 1, deref. rewrite Et.
  destruct (shouldThrottleWriteForMem mtLimit FlushQueueSize t _ s) eqn:Eth; [by split|]. apply wpe_ret.
  assert (Hb : l_flushBlocked s = false).
  { unfold shouldThrottleWriteForMem in Eth. rewrite bool_decide_false in Eth by lia. by destruct (l_flushBlocked s). }
  apply wpe_bind. unfold wpe at 1, on_wal. pose proof (HL e (l_wal s) (rev acked) (ei_wal _ _ _ _ _ _ I)) as Hw. unfold wpe in Hw.
  destruct (wal_AppendOwned e (l_wal s)) as [[u|err| |] w]; try done; [|split; [by apply inv_wal|done]].
  set (s1 := with_wal w s) in *.
  apply wpe_bind. unfold observeCommittedSeq. apply wpe_modify. set (s2 := if bool_decide (Seq e = 0) then _ else _).
  assert (E2 : exists n, s2 = with_seq n s1) by (subst s2; repeat case_bool_decide; try (by exists (l_seq s1)); by exists (Seq e)).
  clearbody s2. destruct E2 as [n ->]. apply (inv_seq _ _ _ _ _ _ n) in I.
  apply wpe_bind. unfold wpe at 1, deref. change (l_heap (with_seq n s1)) with (l_heap s). rewrite Et.
  destruct (law_ApplyOwned t mrun e Hr) as (t' & Ea & Hr'). apply wpe_bind, wpe_lift. left. exists t'. split; [done|].
  apply wpe_bind. unfold store_table. apply wpe_modify. apply wpe_bind.
  assert (I' : eng_inv G hist (e :: acked) (upsert e mrun) iruns (with_heap <[l_mem s := t']> (with_seq n s1))) by (by apply (inv_apply _ _ _ _ _ _ w e t' I)).
  case_bool_decide as Elim; [|apply wpe_ret, wpe_ret; eauto].
  destruct (triggerFlush_spec _ _ _ _ _ _ reuse I') as (s' & Et' & I2 & El).
  - intros E. pose proof (upsert_self e mrun) as Hin. rewrite E in Hin. by apply elem_of_nil in Hin.
  - intros Hrun. destruct (ei_waiting _ _ _ _ _ _ I Hrun) as [Hw0|[_ Hfb]]; [done|]. cbn in Hfb. congruence.
  - unfold wpe at 1. change (l_mem s) with (l_mem (with_heap <[l_mem s := t']> (with_seq n s1))) at 1. rewrite Et'. apply wpe_ret. eauto.
Qed.

Context (Hallow : forall k, allowWrite k = Ok tt \/ exists err, allowWrite k = Err err).
Context (Hfits : forall (w : W) k v t n, wal_ValidateEntry w (mkEntry k v t 0) = Ok tt -> fits (mkEntry k v t n)).

Lemma commit_spec G hist acked mrun iruns s m tomb reuse :
  eng_inv G hist acked mrun iruns s -> log_ok acked (l_log s) -> lc_index (l_log s) + 1 < 2 ^ 64 ->
  (dm_Kind m = "put"%string /\ tomb = false \/ dm_Kind m = "delete"%string /\ dm_Value m = [] /\ tomb = true) ->
  wpe (commit_mutation baseFactory mtLimit FlushQueueSize m tomb reuse)
    (fun seq s' => exists mrun' iruns', eng_inv G hist (mkEntry (dm_Key m) (dm_Value m) tomb seq :: acked) mrun' iruns' s' /\
       log_ok (mkEntry (dm_Key m) (dm_Value m) tomb seq :: acked) (l_log s') /\ lc_index (l_log s') <= lc_index (l_log s) + 1)
    (fun s' => eng_inv G hist acked mrun iruns s' /\ log_ok acked (l_log s') /\ lc_index (l_log s') <= lc_index (l_log s) + 1) s.
Proof.
  intros I Hlog Hmax Hk. pose proof Hlog as (Hidx & H0i & Hterm). unfold commit_mutation. apply wpe_get, wpe_bind, wpe_lift.
  destruct (law_ValidateEntry (l_wal s) (mkEntry (dm_Key m) (dm_Value m) tomb 0)) as [Ev|[err Ev]]; rewrite Ev;
    [left; exists tt; split; [done|]|right; exists err; split; [done|]; split; [done|]; split; [done|lia]].
  unfold CommitData, nextCommit.
  rewrite (u64_id (lc_index (l_log s) + 1)) by (unfold is_u64; lia). set (n := lc_index (l_log s) + 1).
  apply wpe_bind, wpe_modify. unfold applyCommittedData. cbn [dc_Commit dc_Mutation dc_Seq Commit_Index Commit_Term].
  rewrite bool_decide_false by (rewrite Hterm; lia).
  assert (I' : eng_inv G hist acked mrun iruns (with_log (mkLocal n (lc_term (l_log s))) s)) by (by apply inv_log).
  set (e := mkEntry (dm_Key m) (dm_Value m) tomb n).
  assert (Hlog' : log_ok acked (mkLocal n (lc_term (l_log s))) /\ log_ok (e :: acked) (mkLocal n (lc_term (l_log s)))).
  { split; (split; cbn; [|split; [lia|done]]); intros x; rewrite ?elem_of_cons; [|intros [->|Hx]; cbn; [lia|revert Hx]]; intros Hx; specialize (Hidx x Hx); lia. }
  assert (Ha : wpe (appendToLocalStore baseFactory mtLimit FlushQueueSize e reuse)
    (fun seq s' => exists mrun' iruns', eng_inv G hist (mkEntry (dm_Key m) (dm_Value m) tomb seq :: acked) mrun' iruns' s' /\
       log_ok (mkEntry (dm_Key m) (dm_Value m) tomb seq :: acked) (l_log s') /\ lc_index (l_log s') <= n)
    (fun s' => eng_inv G hist acked mrun iruns s' /\ log_ok acked (l_log s') /\ lc_index (l_log s') <= n) (with_log (mkLocal n (lc_term (l_log s))) s)).
  { eapply wpe_mono; [apply (append_spec _ _ _ _ _ _ e reuse I')| |]; cbv beta.
    - intros x Hx. pose proof (Hidx x Hx). cbn. lia.
    - cbn. lia.
    - eapply Hfits, Ev.
    - intros seq s' (-> & El & mrun' & iruns' & Hi). exists mrun', iruns'. rewrite El. split; [exact Hi|]. split; [apply Hlog'|done].
    - intros s' [Hi El]. rewrite El. split; [done|]. split; [apply Hlog'|done]. }
  destruct Hk as [[-> ->]|(-> & Hv & ->)].
  - rewrite bool_decide_true by done. exact Ha.
  - rewrite bool_decide_false by done. rewrite bool_decide_true by done. subst e. by rewrite Hv in *.
Qed.

(** ** Flushes *)

Definition positive (op : lsm_op) : Prop := match op with LsmFlush es => forall x, x ∈ es -> 0 < Seq x | _ => True end.

Context (HP : forall G hist st op, lsm_inv G hist st -> TP hist st -> (length hist < fuel)%nat -> op_in_order hist op -> positive op ->
  let '(r, st') := lsm_step planner false fuel st op in
  match r with Ok es => TP (es ++ hist) st' | Err _ => TP hist st' | _ => True end).

Lemma inv_tree_step G hist (s : engine) op :
  lsm_inv G hist (l_tree s) -> TP hist (l_tree s) -> (length hist < fuel)%nat -> op_in_order hist op -> positive op ->
  wpe (tree_step planner false fuel op) (fun es s' => exists G' tree', lsm_inv G' (es ++ hist) tree' /\ TP (es ++ hist) tree' /\ s' = with_tree tree' s)
    (fun s' => exists G' tree', lsm_inv G' hist tree' /\ TP hist tree' /\ s' = with_tree tree' s) s.
Proof.
  intros I Hp Hf Ho Hpos. unfold wpe, tree_step. pose proof (lsm_step_ok planner false fuel G hist (l_tree s) op eq_refl Hf I Ho) as Hs.
  pose proof (HP G hist (l_tree s) op I Hp Hf Ho Hpos) as Hp'.
  destruct (lsm_step planner false fuel (l_tree s) op) as [[es|e| |] tree']; cbn in Hs; try done; destruct Hs as [G' Hs]; eauto 6.
Qed.

Lemma inv_hist_length G hist acked mrun iruns s : eng_inv G hist acked mrun iruns s -> (length hist <= length acked)%nat.
Proof.
  intros I. apply submseteq_length, NoDup_submseteq; [apply I|]. intros x Hx. apply (ei_from _ _ _ _ _ _ I). rewrite !elem_of_app. auto.
Qed.

Lemma inv_tree G G' hist acked mrun iruns s tree' :
  eng_inv G hist acked mrun iruns s -> lsm_inv G' hist tree' -> TP hist tree' -> eng_inv G' hist acked mrun iruns (with_tree tree' s).
Proof. intros [] Ht Hp. by split. Qed.

Lemma tree_step_nil op (s s' : engine) es :
  match op with LsmFlush _ => False | _ => True end -> tree_step planner false fuel op s = (Ok es, s') -> es = [].
Proof.
  intros Ho. unfold tree_step, lsm_step. destruct (l_tree s) as [set open store res]. destruct op as [| | | |i]; [done|..].
  - destruct res; [by intros [= <- _]|]. destruct (Step_run _ _ _ _) as [[?| | |] [? ?]]; cbn; by intros [=].
  - destruct res; [|by intros [= <- _]]. destruct (apply_result _ _) as [[?| | |] [? ?]]; cbn; by intros [=].
  - destruct (ts_step _ _) as [? [? ?]]. by intros [=].
  - destruct (ts_step _ _) as [? [? ?]]. destruct (remove_tables _ _) as [[?| | |] ?]; cbn; by intros [=].
Qed.

Lemma tree_step_spec G hist acked mrun iruns s op :
  eng_inv G hist acked mrun iruns s -> (length acked < fuel)%nat -> (match op with LsmFlush _ => False | _ => True end) ->
  wpe (tree_step planner false fuel op) (fun es s' => es = [] /\ l_log s' = l_log s /\ exists G', eng_inv G' hist acked mrun iruns s')
    (fun s' => l_log s' = l_log s /\ exists G', eng_inv G' hist acked mrun iruns s') s.
Proof.
  intros I Hf Ho. pose proof (fun es s' => tree_step_nil op s s' es Ho) as Hes.
  pose proof (inv_hist_length _ _ _ _ _ _ I) as Hl.
  pose proof (inv_tree_step _ _ _ op (ei_tree _ _ _ _ _ _ I) (ei_extra _ _ _ _ _ _ I) ltac:(lia) ltac:(by destruct op) ltac:(by destruct op)) as Hw. unfold wpe in *.
  destruct (tree_step planner false fuel op s) as [[es|e| |] s'] eqn:E; try done.
  - rewrite (Hes es s' eq_refl) in *. destruct Hw as (G' & tree' & Ht & Hp & ->). split; [done|]. split; [done|]. exists G'. by eapply inv_tree.
  - destruct Hw as (G' & tree' & Ht & Hp & ->). split; [done|]. exists G'. by eapply inv_tree.
Qed.

Lemma flush_returns es (s s' : engine) a : tree_step planner false fuel (LsmFlush es) s = (Ok a, s') -> a = es.
Proof.
  unfold tree_step, lsm_step. destruct (l_tree s) as [set open store res].
  unfold mbind, SE_bind, on_storage. destruct (flusher_Flush es _) as [[t| | |] m]; cbn; try done.
  destruct (flush_apply t _) as [[u| | |] [? ?]]; cbn; try done. by intros [=].
Qed.

(** The head of the queue becomes a table and its memtable is recycled. *)
Lemma inv_flushed G G' hist acked mrun iruns s tree' es rest id ids t :
  eng_inv G hist acked mrun iruns s -> l_running s = true -> l_queue s = es :: rest -> l_immutables s = id :: ids ->
  l_heap s !! id = Some t -> mt_rep t es -> lsm_inv G' (es ++ hist) tree' -> TP (es ++ hist) tree' ->
  exists iruns', eng_inv G' (es ++ hist) acked mrun iruns'
    (mkLSM (<[id := mt_Reset t]> (l_heap s)) (id :: l_pool s) (l_mem s) ids ids (l_pinned s) rest (l_waiting s) (l_flushBlocked s) (l_running s)
       (l_log s) (l_seq s) (l_wal s) tree').
Proof.
  intros [I1 I2 I3 I4 I5 I6 I7 I8 I9 I10 I13 I14 I15 I16 I17 I18 I19 I20] Hrun Eq Ei Et Hr Ht Hp.
  specialize (I7 Hrun). rewrite Eq in I7. exists (rest ++ l_waiting s). subst iruns. cbn [app] in *. rewrite Ei in *.
  apply Forall2_cons in I2 as [_ I2].
  assert (Hnd : NoDup (id :: l_mem s :: ids ++ l_pool s)).
  { cbn [app] in I4. by rewrite perm_swap in I4. }
  apply NoDup_cons in Hnd as [Hid Hnd].
  assert (Hheap : forall i, i ∈ l_mem s :: ids ++ l_pool s -> <[id := mt_Reset t]> (l_heap s) !! i = l_heap s !! i).
  { intros i Hi. apply lookup_insert_ne. by intros <-. }
  split; cbn [l_heap l_pool l_mem l_immutables l_flushQueue l_pinned l_queue l_waiting l_flushBlocked l_running l_log l_tree]; try done.
  - eapply mem_is_ext; [|exact I1]. apply Hheap. by left.
  - eapply Forall2_impl_in; [exact I2|]. cbv beta. intros i r Hi [Hm Hne]. split; [|done]. eapply mem_is_ext; [|exact Hm]. apply Hheap. right. apply elem_of_app. by left.
  - constructor; [exists (mt_Reset t); cbn; rewrite lookup_insert_eq; split; [done|by eapply law_Reset]|].
    apply Forall_forall. intros i Hi. rewrite Forall_forall in I3. eapply mem_is_ext; [|by apply I3]. apply Hheap. right. apply elem_of_app. by right.
  - rewrite <- Permutation_middle. rewrite perm_swap. by constructor.
  - apply StronglySorted_inv in I10 as [I10 Hh]. apply StronglySorted_inv in I10 as [I10 He]. constructor; [done|].
    apply Forall_cons in Hh as [_ Hh]. rewrite Forall_forall in Hh, He. apply Forall_forall. intros r Hrr x y [Hx|Hx]%elem_of_app; [by apply He|by apply Hh].
  - intros x Hx. apply I13. rewrite !elem_of_app in Hx. cbn [concat]. rewrite !elem_of_app. tauto.
  - intros x Hx. cbn [era]. destruct (I14 x Hx) as [(e & He & Hk)|[Hn [(e & He & Hk)|[Hn2 Hx2]]]]; [left|left|right].
    + exists e. split; [apply elem_of_app; by right|done].
    + exists e. split; [apply elem_of_app; by left|done].
    + split; [|done]. intros y [Hy|Hy]%elem_of_app; auto.
  - apply NoDup_app. split; [by eapply NoDup_fmap_1, sorted_run_keys, law_sorted|]. split; [|done]. intros x Hx Hx'.
    apply StronglySorted_inv in I10 as [_ I10]. apply Forall_inv in I10. specialize (I10 x x Hx' Hx). lia.
Qed.

Lemma round_spec G hist acked mrun iruns s :
  eng_inv G hist acked mrun iruns s -> (length acked < fuel)%nat ->
  wpe (Dispatcher_round planner false fuel)
    (fun _ s' => l_log s' = l_log s /\ exists G' hist' iruns', eng_inv G' hist' acked mrun iruns' s') (fun _ => False) s.
Proof.
  intros I Hf. assert (Hid : l_log s = l_log s /\ exists G' hist' iruns', eng_inv G' hist' acked mrun iruns' s) by eauto 6.
  unfold Dispatcher_round. apply wpe_get. destruct (l_queue s) as [|es rest] eqn:Eq; [exact Hid|].
  destruct (l_running s) eqn:Er; [|exact Hid]. apply wpe_bind, wpe_modify. set (s1 := with_queue (fun _ => rest) s).
  pose proof (ei_queue _ _ _ _ _ _ I Er) as Eir. rewrite Eq in Eir. cbn [app] in Eir.
  pose proof (ei_immutables _ _ _ _ _ _ I) as Him. rewrite <- Eir in Him. apply Forall2_cons_inv_r in Him as (id & ids & [(t & Et & Hr) Hne] & _ & Ei).
  pose proof (inv_hist_length _ _ _ _ _ _ I) as Hl. apply wpe_bind, wpe_catch.
  assert (Ho : op_in_order hist (LsmFlush es)).
  { split; [by eapply law_sorted|]. split; [done|]. split.
    - apply Forall_forall. intros x Hx. pose proof (ei_fits _ _ _ _ _ _ I) as Hfit. rewrite Forall_forall in Hfit. apply Hfit, (ei_from _ _ _ _ _ _ I).
      rewrite <- Eir. cbn [concat]. rewrite !elem_of_app. auto.
    - pose proof (ei_order _ _ _ _ _ _ I) as Hor. rewrite <- Eir in Hor. apply StronglySorted_inv in Hor as [_ Hor]. apply Forall_inv in Hor.
      apply Forall_forall. intros x Hx. apply Forall_forall. intros y Hy. by apply Hor. }
  assert (Hpo : positive (LsmFlush es)).
  { intros x Hx. apply (ei_positive _ _ _ _ _ _ I), (ei_from _ _ _ _ _ _ I). rewrite <- Eir. cbn [concat]. rewrite !elem_of_app. auto. }
  pose proof (inv_tree_step G hist s1 (LsmFlush es) (ei_tree _ _ _ _ _ _ I) (ei_extra _ _ _ _ _ _ I) ltac:(lia) Ho Hpo) as Hw. unfold wpe at 1. unfold wpe in Hw.
  destruct (tree_step planner false fuel (LsmFlush es) s1) as [[a|err| |] s2] eqn:Es; try done.
  - rewrite (flush_returns _ _ _ _ Es) in Hw. destruct Hw as (G' & tree' & Ht & Hp & ->).
    destruct (inv_flushed _ G' _ _ _ _ _ tree' es rest id ids t I Er Eq Ei Et Hr Ht Hp) as [iruns' I'].
    assert (Efq : l_flushQueue s = id :: ids) by (by rewrite (ei_flushQueue _ _ _ _ _ _ I)).
    apply wpe_bind. unfold popFlushedTable. apply wpe_get. cbn [s1 with_tree with_queue l_flushQueue]. rewrite Efq.
    apply wpe_bind, wpe_modify, wpe_bind. unfold removeImmutableLocked. apply wpe_modify, wpe_ret. unfold recycleMemtable. apply wpe_get.
    cbn [s1 with_tree with_queue with_flushQueue with_immutables l_pinned]. rewrite (ei_pinned _ _ _ _ _ _ I), bool_decide_false by (rewrite lookup_empty; by intros [? ?]).
    apply wpe_bind. unfold wpe at 1, deref. cbn [s1 with_tree with_queue with_flushQueue with_immutables l_heap]. rewrite Et.
    apply wpe_bind. unfold store_table. apply wpe_modify, wpe_modify. split; [done|]. exists G', (es ++ hist), iruns'.
    unfold s1, with_pool, with_heap, with_tree, with_queue, with_flushQueue, with_immutables.
    cbn [l_heap l_pool l_mem l_immutables l_flushQueue l_pinned l_queue l_waiting l_flushBlocked l_running l_log l_seq l_wal l_tree].
    rewrite Ei. cbn [remove_first]. rewrite bool_decide_true by done. exact I'.
  - intros e. apply wpe_modify. split; [by destruct Hw as (? & ? & _ & _ & ->)|]. destruct Hw as (G' & tree' & Ht & Hp & ->). exists G', hist, iruns.
    destruct I. by split.
Qed.

Lemma blocking_spec G hist acked mrun iruns s i :
  eng_inv G hist acked mrun iruns s ->
  wpe (enqueueBlocking FlushQueueSize i) (fun _ s' => l_log s' = l_log s /\ eng_inv G hist acked mrun iruns s') (fun _ => False) s.
Proof.
  intros I. unfold enqueueBlocking. apply wpe_get. destruct (l_waiting s !! i) as [es|] eqn:Ew; [|by apply wpe_ret].
  destruct (CanEnqueue FlushQueueSize s); [|by apply wpe_ret]. apply wpe_bind, wpe_modify, wpe_bind, wpe_modify, wpe_modify. split; [done|].
  assert (Hw : l_running s = true -> l_waiting s = [es] /\ delete i (l_waiting s) = []).
  { intros Hrun. destruct (ei_waiting _ _ _ _ _ _ I Hrun) as [E|[E _]]; [by rewrite E in Ew|].
    destruct (l_waiting s) as [|w [|? ?]]; try done. destruct i; [|done]. by injection Ew as ->. }
  destruct I. split; try done; cbn.
  - intros Hrun. destruct (Hw Hrun) as [E1 E2]. rewrite E2, app_nil_r. rewrite <- (ei_queue0 Hrun), E1. done.
  - intros Hrun. left. by apply Hw.
Qed.

(** ** All operations *)

Definition some_inv (acked : list Entry) (s : engine) : Prop := log_ok acked (l_log s) /\ exists G hist mrun iruns, eng_inv G hist acked mrun iruns s.

Lemma step_spec acked s op :
  some_inv acked s -> lc_index (l_log s) + 1 < 2 ^ 64 -> (length acked < fuel)%nat ->
  wpe (eng_step op) (fun es s' => some_inv (es ++ acked) s' /\ lc_index (l_log s') <= lc_index (l_log s) + 1)
    (fun s' => some_inv acked s' /\ lc_index (l_log s') <= lc_index (l_log s) + 1) s.
Proof.
  intros [Hlog (G & hist & mrun & iruns & I)] Hmax Hf.
  assert (Hsame : forall s' : engine, l_log s' = l_log s -> (exists G hist mrun iruns, eng_inv G hist acked mrun iruns s') ->
    some_inv acked s' /\ lc_index (l_log s') <= lc_index (l_log s) + 1) by (intros s' El Hi; unfold some_inv; rewrite El; split; [done|lia]).
  assert (Hid : some_inv acked s /\ lc_index (l_log s) <= lc_index (l_log s) + 1) by eauto 6.
  assert (Hc : forall key m tomb reuse, dm_Key m = key ->
    (dm_Kind m = "put"%string /\ tomb = false \/ dm_Kind m = "delete"%string /\ dm_Value m = [] /\ tomb = true) ->
    wpe (_ ← lift (allowWrite key); commit_mutation baseFactory mtLimit FlushQueueSize m tomb reuse)
      (fun seq s' => wpe (mret [mkEntry key (dm_Value m) tomb seq]) (fun es s' => some_inv (es ++ acked) s' /\ lc_index (l_log s') <= lc_index (l_log s) + 1)
         (fun _ => False) s')
      (fun s' => some_inv acked s' /\ lc_index (l_log s') <= lc_index (l_log s) + 1) s).
  { intros key m tomb reuse <- Hk. apply wpe_bind, wpe_lift. destruct (Hallow (dm_Key m)) as [->|[err ->]]; [left; exists tt; split; [done|]|right; eauto].
    eapply wpe_mono; [by eapply commit_spec| |]; cbv beta.
    - intros seq s' (mrun' & iruns' & Hi & Hl & Hle). apply wpe_ret. split; [split; [done|eauto 6]|done].
    - intros s' (Hi & Hl & Hle). split; [split; [done|eauto 6]|done]. }
  assert (Ht : forall op, match op with LsmFlush _ => False | _ => True end ->
    wpe (tree_step planner false fuel op) (fun es s' => some_inv (es ++ acked) s' /\ lc_index (l_log s') <= lc_index (l_log s) + 1)
      (fun s' => some_inv acked s' /\ lc_index (l_log s') <= lc_index (l_log s) + 1) s).
  { intros top Hto. eapply wpe_mono; [by eapply tree_step_spec|cbv beta..].
    - intros es s' (-> & El & G' & Hi). apply Hsame; [done|eauto 6].
    - intros s' (El & G' & Hi). apply Hsame; [done|eauto 6]. }
  destruct op as [key value reuse|key reuse| |i| | | |i]; cbn [eng_step]; try (by apply Ht).
  - apply wpe_bind. unfold LSM_Put. case_bool_decide; [exact Hid|]. case_bool_decide; [exact Hid|].
    eapply wpe_mono; [apply (Hc key (mkDataMutation "put" key value) false reuse eq_refl); by left|cbv beta|done]. intros seq s' Hw. eapply wpe_mono; [exact Hw|done|done].
  - apply wpe_bind. unfold LSM_Delete. case_bool_decide; [exact Hid|].
    eapply wpe_mono; [apply (Hc key (mkDataMutation "delete" key []) true reuse eq_refl); by right|cbv beta|done]. intros seq s' Hw. eapply wpe_mono; [exact Hw|done|done].
  - apply wpe_bind. eapply wpe_mono; [by eapply round_spec|cbv beta|done]. intros _ s' (El & G' & hist' & iruns' & Hi). apply wpe_ret, Hsame; [done|eauto 6].
  - apply wpe_bind. eapply wpe_mono; [by eapply blocking_spec|cbv beta|done]. intros _ s' (El & Hi). apply wpe_ret, Hsame; [done|eauto 6].
Qed.

Lemma step_acks op s : (length (flushed_by (fst (eng_step op s))) <= 1)%nat.
Proof.
  assert (Hone : forall {A} (m : SE engine A) (f : A -> list Entry), (forall a, length (f a) <= 1)%nat -> (length (flushed_by (fst ((a ← m; mret (f a)) s))) <= 1)%nat).
  { intros A m f Hl. unfold mbind, SE_bind. destruct (m s) as [[a| | |] s1]; cbn; auto with lia. }
  assert (Ht : forall op, match op with LsmFlush _ => False | _ => True end -> (length (flushed_by (fst (tree_step planner false fuel op s))) <= 1)%nat).
  { intros top Hto. destruct (tree_step planner false fuel top s) as [[es| | |] s1] eqn:E; cbn; [|lia..]. by rewrite (tree_step_nil _ _ _ _ Hto E), Nat.le_0_l || (rewrite (tree_step_nil _ _ _ _ Hto E); cbn; lia). }
  destruct op; cbn [eng_step]; try (by apply Ht); apply Hone; cbn; intros; lia.
Qed.

Lemma run_acked_le ops : forall acked s, (length (snd (fst (eng_run acked s ops))) <= length acked + length ops)%nat.
Proof.
  induction ops as [|op ops IH]; intros acked s; cbn [eng_run length]; [cbn; lia|]. pose proof (step_acks op s) as Hs.
  destruct (eng_step op s) as [r s1]. specialize (IH (flushed_by r ++ acked) s1). destruct (eng_run _ s1 ops) as [[rs acked'] s2].
  cbn [fst snd] in *. rewrite length_app in IH. lia.
Qed.

Lemma run_acked ops : forall acked s, (length acked <= length (snd (fst (eng_run acked s ops))))%nat.
Proof.
  induction ops as [|op ops IH]; intros acked s; [done|]. cbn [eng_run]. destruct (eng_step op s) as [r s1].
  specialize (IH (flushed_by r ++ acked) s1). destruct (eng_run _ s1 ops) as [[rs acked'] s2]. cbn [fst snd] in *.
  rewrite length_app in IH. lia.
Qed.

Lemma run_spec ops : forall acked s,
  some_inv acked s -> lc_index (l_log s) + Z.of_nat (length ops) < 2 ^ 64 ->
  let '(rs, acked', s') := eng_run acked s ops in
  (length acked' < fuel)%nat -> Forall returned rs /\ some_inv acked' s'.
Proof.
  induction ops as [|op ops IH]; intros acked s Hi Hmax; cbn [eng_run]; [done|].
  pose proof (run_acked (op :: ops) acked s) as Hl. cbn [eng_run length] in *. pose proof (step_spec acked s op Hi ltac:(lia)) as Hs.
  destruct (eng_step op s) as [r s1] eqn:Es. specialize (IH (flushed_by r ++ acked) s1).
  destruct (eng_run (flushed_by r ++ acked) s1 ops) as [[rs acked'] s2]. cbn [fst snd] in Hl. intros Hf. specialize (Hs ltac:(lia)).
  unfold wpe in Hs. rewrite Es in Hs. destruct r as [es|e| |]; try done; destruct Hs as [Hi1 Hle]; cbn [flushed_by] in *;
    (destruct IH as [H6 H7]; [done|lia|done|]); (split; [by constructor|done]).
Qed.

Lemma new_engine_inv wal store : TP [] (new_lsm store) -> LP wal [] -> some_inv [] (new_engine baseFactory wal store).
Proof.
  intros Hp Hw. split; [split; [by intros x ?%elem_of_nil|done]|]. exists ∅, [], [], []. split; cbn [new_engine l_wal l_heap l_pool l_mem l_immutables l_flushQueue l_pinned l_queue l_waiting l_flushBlocked l_running l_log l_tree]; try done.
  - exists baseFactory. split; [apply lookup_singleton_eq|done].
  - apply NoDup_singleton.
  - by left.
  - apply new_lsm_inv.
  - repeat constructor. by intros x y ?%elem_of_nil.
  - by intros x ?%elem_of_nil.
  - constructor.
  - constructor.
  - by intros x ?%elem_of_nil.
Qed.
End Spec.


#[export] Instance list_wal_laws : WriteAheadLogLaws (list Entry).
Proof. split; [by left|by intros e w]. Defined.

Definition demo_eng_ops : list eng_op :=
  let k := bytes_of_string in
  [EPut (k "a") (k "1") false; EPut (k "b") (k "2") true; ERound; EDelete (k "a") true; EPlan; ERound; EPin; EInstall; EPut (k "b") (k "3") true;
   ERound; EUnpin 0; EPlan; EInstall].

