(* ===== verification/Bootstrap.v ===== *)
(** * The start of an engine

    What [New] (pkg/lsm/engine/new.go) does to bring an engine up from its
    files: [LoadManifestTables] (internal/lsm/bootstrap/manifest.go) finds
    the tables, from the manifest or by a scan of the directory, and
    [replayWAL] (engine/replay.go) brings the entries of the log above the
    manifest's checkpoint back into memtables through [ReplayWAL]
    (bootstrap/replay.go), with synchronous flushes of full ones. *)

From Stdlib Require Import ZArith Lia Strings.String.
From stdpp Require Import base sorting gmap strings list.
From S2P Require Import Prelude Heap Merge Memtable TableIter TableSet Handle Compaction Manifest CompactionRun LsmTree ViewMerge Engine.
Local Open Scope Z_scope.

(** ** Interfaces *)

(** The manifest store, the loader of a table and the list of the table
    files of the directory. *)
Class BootStorage (H M : Type) := {
  manifest_Load : SE M Manifest;
  manifest_Save : Manifest -> SE M unit;
  load_table : string -> SE M H;
  list_tables : SE M (list string)
}.

(** [ReplayViews] of the log: the entries it delivers, its error, and the log
    after repairs.  An error of the callback ends it. *)
Class ReplayLog (W : Type) := {
  wal_ReplayViews : W -> list Entry * option error * W
}.

Definition isCorruptionErr (e : error) : bool :=
  match e with
  | ErrSSTableBadMagic | ErrSSTableBadFooter | ErrSSTableBadBlock | ErrSSTableBadMeta | ErrSSTableBadIndex
  | ErrSSTableUnknownCompression => true
  | _ => false
  end.

(** ** Tables *)

Section Tables.
Context {H M : Type} `{TableHandle H} `{BootStorage H M}.
(** [shouldDropCorrupt] of the options. *)
Context (dropCorrupt : bool).

(** The call with its error as a value. *)
Definition attempt {A} (m : SE M A) : SE M (A + error) := fun s =>
  match m s with
  | (Ok a, s) => (Ok (inl a), s)
  | (Err e, s) => (Ok (inr e), s)
  | (Panic, s) => (Panic, s)
  | (NoFuel, s) => (NoFuel, s)
  end.

(** What the manifest says of a table; the file fills in what is missing. *)
Definition manifest_meta (e : ManifestEntry) (info : Info) : TableMeta :=
  mkTableMeta (me_Path e) (me_Level e)
    (match me_MinKey e with [] => Info_MinKey info | k => k end)
    (match me_MaxKey e with [] => Info_MaxKey info | k => k end)
    (if bool_decide (me_SeqMin e = 0) then Info_SeqMin info else me_SeqMin e)
    (if bool_decide (me_SeqMax e = 0) then Info_SeqMax info else me_SeqMax e)
    (if bool_decide (me_SizeBytes e = 0) then Info_SizeBytes info else me_SizeBytes e).

(** [loadTablesFromManifest].  Handles opened before a failure are closed;
    closing changes no file. *)
Fixpoint loadTablesFromManifest (entries : list ManifestEntry) : SE M (list (Table H)) :=
  match entries with
  | [] => mret []
  | e :: entries =>
      r ← attempt (load_table (me_Path e));
      match r with
      | inl t =>
          ts ← loadTablesFromManifest entries;
          mret (mkTable (manifest_meta e (h_Info t)) t :: ts)
      | inr err => if dropCorrupt && isCorruptionErr err then loadTablesFromManifest entries else throw err
      end
  end.

(** [scanSSTablePaths]: every table in level 0, and the newest sequence
    number. *)
Fixpoint scan_loop (paths : list string) (maxSeq : Z) : SE M (Z * list (Table H)) :=
  match paths with
  | [] => mret (maxSeq, [])
  | path :: paths =>
      r ← attempt (load_table path);
      match r with
      | inl t =>
          let meta := TableMetaFromSSTable t 0 in
          '(maxSeq, ts) ← scan_loop paths (if bool_decide (maxSeq < tm_SeqMax meta) then tm_SeqMax meta else maxSeq);
          mret (maxSeq, mkTable meta t :: ts)
      | inr err => if dropCorrupt && isCorruptionErr err then scan_loop paths maxSeq else throw err
      end
  end.

Definition scanSSTablePaths (paths : list string) : SE M (Manifest * list (Table H)) :=
  '(maxSeq, ts) ← scan_loop paths 0;
  mret (mkManifest maxSeq (map (fun t => manifestEntryFromMeta (Table_Meta t)) ts), ts).

Definition no_manifest : Manifest := mkManifest 0 [].

(** [LoadManifestTables] after a manifest without usable tables: the tables
    of the directory become the manifest.  [err] is what went wrong with the
    manifest. *)
Definition fallback_scan (m : Manifest) (err : option error) : SE M (Manifest * list (Table H)) :=
  listed ← attempt list_tables;
  match listed with
  | inr listErr => throw (default listErr err)
  | inl [] => mret (match err with Some _ => no_manifest | None => m end, [])
  | inl paths =>
      scanned ← attempt (scanSSTablePaths paths);
      match scanned with
      | inr scanErr => if dropCorrupt && isCorruptionErr scanErr then mret (m, []) else throw scanErr
      | inl (rebuilt, []) =>
          match err with
          | Some e => if dropCorrupt && isCorruptionErr e then mret (m, []) else throw e
          | None => mret (m, [])
          end
      | inl (rebuilt, tables) => _ ← manifest_Save rebuilt; mret (rebuilt, tables)
      end
  end.

Definition LoadManifestTables : SE M (Manifest * list (Table H)) :=
  loaded ← attempt manifest_Load;
  match loaded with
  | inr err => fallback_scan no_manifest (Some err)
  | inl m =>
      match Manifest_Tables m with
      | [] => fallback_scan m None
      | _ =>
          tables ← attempt (loadTablesFromManifest (Manifest_Tables m));
          match tables with
          | inl tables => mret (m, tables)
          | inr loadErr => fallback_scan m (if dropCorrupt && isCorruptionErr loadErr then None else Some loadErr)
          end
      end
  end.
End Tables.

(** ** Replay *)

Definition defaultReplayBatchSize : Z := 256.

Section ReplayWAL.
Context {S : Type} (Apply : list Entry -> SE S unit) (BumpSeq : Z -> SE S unit).

Fixpoint bump_all (batch : list Entry) : SE S unit :=
  match batch with
  | [] => mret tt
  | e :: batch => _ ← BumpSeq (Seq e); bump_all batch
  end.

Definition flushBatch (batch : list Entry) : SE S unit :=
  match batch with
  | [] => mret tt
  | _ => _ ← Apply batch; bump_all batch
  end.

(** The callback over the delivered entries; a batch that could not be
    applied is still there afterwards. *)
Fixpoint replay_entries (batchSize checkpoint : Z) (views : list Entry) (batch : list Entry) : SE S (list Entry * option error) :=
  match views with
  | [] => mret (batch, None)
  | view :: views =>
      if bool_decide (Seq view <= checkpoint) then replay_entries batchSize checkpoint views batch
      else
        let batch := batch ++ [view] in
        if bool_decide (batchSize <= zlen batch) then
          err ← catch (flushBatch batch);
          match err with
          | None => replay_entries batchSize checkpoint views []
          | Some e => mret (batch, Some e)
          end
        else replay_entries batchSize checkpoint views batch
  end.

(** [ReplayWAL] over what the log delivers and its error. *)
Definition ReplayWAL (BatchSize Checkpoint : Z) (views : list Entry) (replayErr : option error) : SE S unit :=
  let batchSize := if bool_decide (BatchSize <= 0) then defaultReplayBatchSize else BatchSize in
  '(batch, err) ← replay_entries batchSize Checkpoint views [];
  _ ← flushBatch batch;
  match (match err with Some e => Some e | None => replayErr end) with
  | Some e => throw e
  | None => mret tt
  end.
End ReplayWAL.

Section Start.
Context {T H M W : Type} `{MemTable T} `{TableHandle H} `{Storage H M} `{BootStorage H M} `{WriteAheadLog W} `{ReplayLog W}.
Context (baseFactory : T) (mtLimit : Z) (replayBatchSize : Z) (autoRepair missingIgnore dropCorrupt : bool).

Abbreviation engine := (LSM (T := T) (H := H) (M := M) (W := W)).

Definition on_tables {A} (m : SE (Set_ H * M) A) : SE engine A := fun s =>
  let '(mkLsm set open store res) := l_tree s in
  let '(r, (set, store)) := m (set, store) in (r, with_tree (mkLsm set open store res) s).

(** The flush of [flushMemtableForReplay] and its edit of the tables. *)
Definition flush_now (entries : list Entry) : SE (Set_ H * M) unit :=
  t ← on_storage (flusher_Flush entries);
  Service_Apply [mkTable (TableMetaFromSSTable t 0) t] [] (h_Seq t).

Definition flushMemtableForReplay (id : nat) : SE engine unit :=
  t ← deref id;
  entries ← lift (mt_Range t [] []);
  match entries with
  | [] => _ ← removeImmutable id; recycleMemtable id
  | _ =>
      _ ← on_tables (flush_now entries);
      _ ← removeImmutable id;
      recycleMemtable id
  end.

(** A call on the engine, in a state that also has the variable [mem] of
    [replayWAL]. *)
Definition on_engine {A} (m : SE engine A) : SE (engine * nat) A := fun s => let '(r, x) := m (fst s) in (r, (x, snd s)).

(** The callback [Apply] of [replayWAL]. *)
Definition replay_apply (reuse : bool) (entries : list Entry) : SE (engine * nat) unit :=
  s ← get;
  let mem := snd s in
  t ← on_engine (deref mem);
  t ← lift (mt_ApplyBatchOwned t entries);
  _ ← on_engine (store_table mem t);
  if bool_decide (0 < mtLimit /\ mtLimit <= mt_Size t) then
    frozen ← on_engine (freezeMemtableIfCurrent baseFactory mem reuse);
    match frozen with
    | None => mret tt
    | Some id =>
        _ ← on_engine (flushMemtableForReplay id);
        modify (fun s => (fst s, l_mem (fst s)))
    end
  else mret tt.

Definition replayWAL (reuse : bool) (checkpoint : Z) : SE engine unit := fun s =>
  let '(views, replayErr, wal) := wal_ReplayViews (l_wal s) in
  let s := with_wal wal s in
  match ReplayWAL (replay_apply reuse) (fun seq => on_engine (observeCommittedSeq seq)) replayBatchSize checkpoint views replayErr (s, l_mem s) with
  | (Err ErrWALMissingSegment, (s, _)) => ((if missingIgnore then Ok tt else Err ErrWALMissingSegment), s)
  | (Err ErrWALCorruptSegment, (s, _)) => ((if autoRepair then Ok tt else Err ErrWALCorruptSegment), s)
  | (r, (s, _)) => (r, s)
  end.

(** [recoverCommittedData]: an entry of the commit log that the write-ahead
    log does not have. *)
Definition recoverCommittedData (committed : DataCommittedEntry) (reuse : bool) : SE engine unit :=
  let m := dc_Mutation committed in
  if bool_decide (dc_Seq committed = 0 \/ Commit_Index (dc_Commit committed) = 0 \/ Commit_Term (dc_Commit committed) = 0)
  then throw (ErrNew "invalid recovered committed entry")
  else if bool_decide (dm_Kind m <> "put"%string /\ dm_Kind m <> "delete"%string) then throw (ErrNew "invalid recovered data mutation")
  else
    s ← get;
    let mem := l_mem s in
    let entry := mkEntry (dm_Key m) (dm_Value m) (bool_decide (dm_Kind m = "delete"%string)) (dc_Seq committed) in
    _ ← on_wal (wal_AppendOwned entry);
    t ← deref mem;
    t ← lift (mt_ApplyOwned t entry);
    _ ← store_table mem t;
    _ ← observeCommittedSeq (Seq entry);
    if bool_decide (0 < mtLimit /\ mtLimit <= mt_Size t) then
      frozen ← freezeMemtableIfCurrent baseFactory mem reuse;
      match frozen with Some id => flushMemtableForReplay id | None => mret tt end
    else mret tt.

(** The recovery part of [New], with the local commit log. *)
Definition New (reuse : bool) (wal : W) (store : M) : result unit * engine :=
  (loaded ← on_tables (on_storage (LoadManifestTables dropCorrupt));
   let '(m, tables) := loaded in
   _ ← (match tables with
        | [] => mret tt
        | _ => modify (fun s => with_tree (mkLsm (NewSet tables) (lsm_open (l_tree s)) (lsm_store (l_tree s)) (lsm_flight (l_tree s))) s)
        end);
   _ ← modify (with_seq (WALSeq m));
   _ ← replayWAL reuse (WALSeq m);
   modify (fun s => with_log (ObserveCommittedIndex (l_log s) (l_seq s)) s))
  (new_engine baseFactory wal store).
End Start.
