(* ===== verification/Durable.v ===== *)
(** * The tables on disk

    What the files (the manifest, the tables) keep of the tables in memory:
    every step of the tree of tables leaves a manifest and files from which
    [LoadManifestTables] (internal/lsm/bootstrap/manifest.go) finds the same
    tables again, also when a crash comes between the first table and its
    manifest. *)

From Stdlib Require Import ZArith Lia Strings.String.
From stdpp Require Import base sorting gmap strings list.
From S2P Require Import Prelude Heap Merge Memtable TableIter TableSet Handle Compaction Manifest CompactionRun LsmTree ViewMerge Engine EngineSpec Bootstrap.
Local Open Scope Z_scope.

(** ** Storage that keeps what it is given *)

(** The manifest that a reload finds, and the table that each file holds.
    Updates of the manifest succeed; a flush may fail, but leaves the other
    files alone. *)
Class DurableStorage (H M : Type) `{StorageLaws H M} := {
  stored : M -> Manifest;
  opened : M -> string -> option H;
  dlaw_Flush es m : sorted_run es -> es <> [] -> Forall fits es ->
    wpe (flusher_Flush es)
      (fun t m' => stored m' = stored m /\ opened m' (h_Path t) = Some t /\ forall p, p <> h_Path t -> opened m' p = opened m p)
      (fun m' => stored m' = stored m /\ forall p, opened m' p = opened m p) m;
  dlaw_Update fn m : wpe (manifest_Update fn) (fun _ m' => stored m' = fn (stored m) /\ forall p, opened m' p = opened m p) (fun _ => False) m;
  dlaw_Remove path m :
    let post m' := stored m' = stored m /\ forall p, opened m' p = opened m p \/ (p = path /\ opened m' p = None) in
    wpe (removeFile path) (fun _ => post) post m
}.

Section Durable.
Context {H M : Type} `{DS : DurableStorage H M}.
Context (planner : StrictLevelledPlanner) (fuel : nat).

Definition entry_of (t : Table H) : ManifestEntry := manifestEntryFromMeta (Table_Meta t).

Lemma add_map_perm l : forall m : gmap string ManifestEntry,
  NoDup (map me_Path l) -> (forall e, e ∈ l -> m !! me_Path e = None) ->
  map snd (map_to_list (fold_left (fun m e => <[me_Path e := e]> m) l m)) ≡ₚ l ++ map snd (map_to_list m).
Proof.
  induction l as [|e l IH]; intros m Hn Hm; [done|]. cbn [fold_left map] in *. apply NoDup_cons in Hn as [Hni Hn].
  rewrite IH; [|done|].
  - assert (P : map_to_list (<[me_Path e := e]> m) ≡ₚ (me_Path e, e) :: map_to_list m) by (apply map_to_list_insert, Hm; by left).
    rewrite (fmap_Permutation snd _ _ P). cbn. by rewrite <- Permutation_middle.
  - intros e' He'. rewrite lookup_insert_ne; [apply Hm; by right|]. intros E. apply Hni. rewrite E. by apply list_elem_of_fmap_2.
Qed.

Lemma mergeManifest_perm existing (ts add : list (Table H)) remove :
  existing ≡ₚ map entry_of ts -> NoDup (map Table_Path add) -> (forall p, p ∈ map Table_Path add -> p ∉ map Table_Path ts) ->
  mergeManifestTables existing (map (fun t => manifestEntryFromMeta (Table_Meta t)) add) remove
  ≡ₚ map entry_of (filter (fun t => Table_Path t ∉ remove) ts ++ add).
Proof.
  intros P Hn Hfr. unfold mergeManifestTables. fold entry_of. change (fun t => manifestEntryFromMeta (Table_Meta t)) with entry_of.
  rewrite merge_sort_Permutation, map_app.
  assert (Hadd : map snd (map_to_list (add_map (map entry_of add))) ≡ₚ map entry_of add).
  { unfold add_map. rewrite add_map_perm; [by rewrite map_to_list_empty, app_nil_r|by rewrite map_map|by intros; rewrite lookup_empty]. }
  rewrite Hadd. apply Permutation_app_tail. rewrite P. clear existing P.
  assert (Hlk : forall t, t ∈ ts -> add_map (map entry_of add) !! Table_Path t = None).
  { intros t Ht. destruct (add_map (map entry_of add) !! Table_Path t) as [e|] eqn:E; [|done]. exfalso.
    assert (Hpath : forall l (m : gmap string ManifestEntry), (forall p x, m !! p = Some x -> me_Path x = p) ->
      forall p x, fold_left (fun m e => <[me_Path e := e]> m) l m !! p = Some x -> me_Path x = p).
    { induction l as [|y l IHl]; intros m Hm; [done|]. cbn [fold_left]. apply IHl. intros p x. destruct (decide (me_Path y = p)) as [<-|Hne];
        [rewrite lookup_insert_eq; by intros [= ->]|rewrite lookup_insert_ne by done; apply Hm]. }
    assert (Hin : e ∈ map snd (map_to_list (add_map (map entry_of add)))).
    { apply list_elem_of_fmap. exists (Table_Path t, e). split; [done|]. by apply elem_of_map_to_list. }
    rewrite Hadd in Hin. apply list_elem_of_fmap in Hin as (a & -> & Ha). apply Hpath in E; [|by intros ? ?; rewrite lookup_empty].
    apply (Hfr (Table_Path a)); [by apply list_elem_of_fmap_2|]. change (Table_Path a) with (me_Path (entry_of a)). rewrite E. by apply list_elem_of_fmap_2. }
  clear Hadd Hfr. induction ts as [|t ts IH]; [done|]. cbn [map]. rewrite !filter_cons.
  assert (Hl : add_map (map entry_of add) !! me_Path (entry_of t) = None) by (apply Hlk; by left).
  change (me_Path (entry_of t)) with (Table_Path t) in *.
  destruct (decide (Table_Path t ∉ remove)) as [Hr|Hr].
  - rewrite decide_True by (by split). cbn [map]. constructor. apply IH. intros. apply Hlk. by right.
  - rewrite decide_False by tauto. apply IH. intros. apply Hlk. by right.
Qed.

(** ** Edits *)

Lemma remove_tables_only ts : forall m,
  wpe (remove_tables ts) (fun _ m' => stored m' = stored m /\ forall p, opened m' p = opened m p \/ (p ∈ map Table_Path ts /\ opened m' p = None))
    (fun _ => False) m.
Proof.
  induction ts as [|t ts IH]; intros m; cbn [remove_tables]; [apply wpe_ret; split; [done|by left]|].
  assert (Hrest : forall m1, stored m1 = stored m /\ (forall p, opened m1 p = opened m p \/ (p = Table_Path t /\ opened m1 p = None)) ->
    wpe (remove_tables ts) (fun _ m' => stored m' = stored m /\ forall p, opened m' p = opened m p \/ (p ∈ map Table_Path (t :: ts) /\ opened m' p = None))
      (fun _ => False) m1).
  { intros m1 [E1 E2]. eapply wpe_mono; [apply IH| |done]; cbv beta. intros _ m2 [F1 F2]. split; [congruence|].
    intros p. cbn [map]. rewrite elem_of_cons. destruct (F2 p) as [E3|[? ?]]; [|tauto]. destruct (E2 p) as [E4|[E4 E5]]; [left; congruence|right]. rewrite E3. tauto. }
  apply wpe_bind, wpe_catch. eapply wpe_mono; [apply dlaw_Remove| |]; cbv beta; auto.
Qed.

Lemma remove_tables_keeps ts m :
  wpe (remove_tables ts) (fun _ m' => stored m' = stored m /\ forall p, p ∉ map Table_Path ts -> opened m' p = opened m p) (fun _ => False) m.
Proof.
  eapply wpe_mono; [apply remove_tables_only|cbv beta|done]. intros _ m' [? Hp]. split; [done|]. intros p Hn. by destruct (Hp p) as [?|[? _]].
Qed.

(** The files have the tables of the set. *)
Definition on_disk (set : Set_ H) (store : M) : Prop :=
  Manifest_Tables (stored store) ≡ₚ map entry_of (set_tables set) /\
  forall t, t ∈ set_tables set -> opened store (Table_Path t) = Some (Table_Handle t).

Lemma Service_Apply_on_disk add remove walSeq set open store :
  ts_inv (set, open) -> edit_fresh set (mkEdit add (map tm_Path remove)) -> on_disk set store ->
  (forall t, t ∈ add -> opened store (Table_Path t) = Some (Table_Handle t)) ->
  wpe (Service_Apply add remove walSeq)
    (fun _ s => on_disk (fst s) (snd s) /\ WALSeq (stored (snd s)) = (if bool_decide (0 < walSeq) then walSeq else WALSeq (stored store)) /\
       forall p, p ∉ in_use set -> opened (snd s) p = opened store p) (fun _ => False) (set, store).
Proof.
  intros Hi [Hnd Hfr] [Hm Hf] Ha. unfold wpe, Service_Apply. cbn [fst snd]. set (e := mkEdit add (map tm_Path remove)) in *.
  pose proof (Set_Apply_tables set e) as Ht. pose proof (Set_Apply_removed set e) as Hrm. cbn [Edit_RemovePath Edit_Add] in *.
  destruct (Set_Apply set e) as [removed set']. cbn [fst snd] in *. set (rest := mbind _ _).
  assert (Hr : wpe rest (fun _ m' => on_disk set' m' /\ WALSeq (stored m') = (if bool_decide (0 < walSeq) then walSeq else WALSeq (stored store)) /\
       forall p, p ∉ in_use set -> opened m' p = opened store p) (fun _ => False) store).
  { apply wpe_bind. eapply wpe_mono; [apply dlaw_Update| |done]; cbv beta. intros _ m1 [Es Eo].
    eapply wpe_mono; [apply remove_tables_keeps| |done]; cbv beta. intros _ m2 [Es2 Eo2]. unfold on_disk. rewrite Es2, Es. split; [split|split; [done|]].
    - etrans; [apply (mergeManifest_perm _ (set_tables set))|by rewrite Ht]; [done|done|]. intros p Hp Hin. apply (Hfr p Hp). apply elem_of_app. by left.
    - intros t Hin. rewrite Ht in Hin. apply elem_of_app in Hin as [[Hn Hin]%list_elem_of_filter|Hin]; rewrite Eo2, Eo; auto.
      + intros (x & E & Hx)%list_elem_of_fmap. apply Hn. rewrite E. by apply Hrm.
      + intros (x & E & Hx)%list_elem_of_fmap. apply (Hfr (Table_Path t)); [by apply list_elem_of_fmap_2|]. rewrite E. apply tables_in_use. by apply Hrm.
    - intros p Hp. rewrite Eo2, Eo; [done|]. intros (x & -> & Hx)%list_elem_of_fmap. apply Hp, tables_in_use. by apply Hrm. }
  unfold wpe in Hr. by destruct (rest store) as [[u|err| |] m'].
Qed.

(** ** The tree on disk *)

(** The files have the tables and the result in flight, and the manifest the
    newest flushed sequence number. *)
Record durable (hist : list Entry) (st : lsm H M) : Prop := {
  du_tables : on_disk (lsm_set st) (lsm_store st);
  du_flight res o : lsm_flight st = Some res -> o ∈ Result_Output res -> opened (lsm_store st) (h_Path o) = Some o;
  du_seq x : x ∈ hist -> Seq x <= WALSeq (stored (lsm_store st));
  du_newest : hist <> [] -> exists x, x ∈ hist /\ Seq x = WALSeq (stored (lsm_store st));
  du_empty : hist = [] -> WALSeq (stored (lsm_store st)) = 0 /\ forall p, opened (lsm_store st) p = None
}.

Lemma hist_seq t es : h_holds t es -> (forall x, x ∈ es -> 0 < Seq x) ->
  0 < h_Seq t /\ (forall x, x ∈ es -> Seq x <= h_Seq t) /\ exists x, x ∈ es /\ Seq x = h_Seq t.
Proof.
  intros Hh Hpos. destruct (law_info _ _ Hh) as [[_ _ _ [Hle (e & He & Es)]] ->]. split; [rewrite <- Es; auto|]. split; [done|by exists e].
Qed.

(** Tables and results in flight have names that were used. *)
Lemma set_names G hist st t : lsm_inv G hist st -> t ∈ set_tables (lsm_set st) -> Table_Path t ∈ names (lsm_store st).
Proof. intros I Ht. by apply (li_names _ _ _ I), tables_in_use. Qed.

Lemma flight_names G hist st res o :
  lsm_inv G hist st -> lsm_flight st = Some res -> o ∈ Result_Output res -> h_Path o ∈ names (lsm_store st) /\ h_Path o ∉ in_use (lsm_set st).
Proof. intros I E Ho. pose proof (proj2 (li_names _ _ _ I) res E) as Hn. rewrite Forall_forall in Hn. by apply Hn. Qed.

Lemma flush_durable G hist st es :
  lsm_inv G hist st -> durable hist st -> op_in_order hist (LsmFlush es) -> positive (LsmFlush es) ->
  let '(r, st') := lsm_step planner false fuel st (LsmFlush es) in
  match r with Ok es => durable (es ++ hist) st' | Err _ => durable hist st' | _ => True end.
Proof.
  destruct st as [set open store res]. intros I [[Dm Df] D2 D3 D4 D5] (Hs & Hne & Hfit & Hnew) Hpos. cbn [lsm_step]. set (m := mbind _ _).
  pose proof (fun t => set_names _ _ _ t I) as Hsn. pose proof (fun r o => flight_names _ _ _ r o I) as Hfn. cbn [lsm_set lsm_open lsm_store lsm_flight] in *.
  assert (Hw : wpe m (fun a s => a = es /\ durable (es ++ hist) (mkLsm (fst s) open (snd s) res)) (fun s => durable hist (mkLsm (fst s) open (snd s) res)) (set, store)).
  { apply wpe_bind, wpe_on_storage. eapply wpe_mono; [apply wpe_and; [by apply law_Flush|by apply dlaw_Flush]| |]; cbv beta.
    - intros t store' [(Hh & Hfr & Hn) (Es & Et & Eo)]. destruct (hist_seq t es Hh Hpos) as (Hp & Hle & x & Hx & Ex).
      assert (Hopen : forall p, p ∈ names store -> opened store' p = opened store p) by (intros p Hpn; apply Eo; by intros ->).
      apply wpe_bind. unfold flush_apply. apply wpe_bind, wpe_catch.
      eapply wpe_mono; [apply (Service_Apply_on_disk _ [] (h_Seq t) set open store')| |done]; cbv beta.
      + apply I.
      + split; [apply NoDup_singleton|]. intros p ->%list_elem_of_singleton Hu. by apply Hfr, (li_names _ _ _ I).
      + unfold on_disk. rewrite Es. split; [done|]. intros t' Ht'. rewrite Hopen by auto. auto.
      + by intros t' ->%list_elem_of_singleton.
      + intros _ [set' store''] (Hd & Ew & Eo'). cbn [fst snd] in *. rewrite bool_decide_true in Ew by done. apply wpe_ret. split; [done|].
        split; cbn [fst snd lsm_set lsm_open lsm_store lsm_flight]; rewrite ?Ew.
        * done.
        * intros r o Er Ho. destruct (Hfn r o Er Ho) as [H1' H2']. rewrite Eo', Hopen by done. eauto.
        * intros y [Hy|Hy]%elem_of_app; [by apply Hle|]. rewrite Forall_forall in Hnew. specialize (Hnew y Hy). rewrite Forall_forall in Hnew. specialize (Hnew x Hx). lia.
        * intros _. exists x. split; [apply elem_of_app; by left|done].
        * intros E. apply app_eq_nil in E as [-> _]. done.
    - intros store' [_ [Es Eo]]. split; cbn [fst snd lsm_set lsm_open lsm_store lsm_flight]; unfold on_disk; rewrite ?Es; auto.
      + split; [done|]. intros. rewrite Eo. auto.
      + intros. rewrite Eo. eauto.
      + intros E. destruct (D5 E) as [? Hn]. split; [done|]. intros p. by rewrite Eo. }
  unfold wpe in Hw. destruct (m (set, store)) as [[a|e| |] [set' store']]; try done. by destruct Hw as [-> Hw].
Qed.

Lemma install_durable G hist st :
  lsm_inv G hist st -> durable hist st ->
  let '(r, st') := lsm_step planner false fuel st LsmInstall in
  match r with Ok es => durable (es ++ hist) st' | Err _ => durable hist st' | _ => True end.
Proof.
  destruct st as [set open store [res|]]; intros I D; cbn [lsm_step]; [|done]. pose proof D as [Dd D2 D3 D4 D5]. cbn [lsm_set lsm_open lsm_store lsm_flight] in *.
  assert (Hw : wpe (apply_result res) (fun _ s => durable hist (mkLsm (fst s) open (snd s) None)) (fun _ => False) (set, store)).
  { destruct (li_flight _ _ _ I res eq_refl) as [i [_ _ _ _ _ (out & es & Eo & _)]].
    destruct (flight_names _ _ _ res out I eq_refl ltac:(rewrite Eo; by left)) as [_ Hn]. cbn [lsm_set] in Hn.
    unfold apply_result. rewrite Eo. cbn [map].
    eapply wpe_mono; [apply (Service_Apply_on_disk _ (Result_Obsolete res) 0 set open store)| |done]; cbv beta.
    - apply I.
    - split; [apply NoDup_singleton|]. by intros p ->%list_elem_of_singleton.
    - done.
    - intros t ->%list_elem_of_singleton. apply (D2 res); [done|]. rewrite Eo. by left.
    - intros _ [set' store'] (Hd & Ew & Eo'). cbn [fst snd] in *. rewrite bool_decide_false in Ew by done.
      split; cbn [fst snd lsm_set lsm_open lsm_store lsm_flight]; rewrite ?Ew; try done. intros E. destruct (D5 E) as [_ Hno].
      specialize (D2 res out eq_refl). rewrite Hno, Eo in D2. discriminate D2. by left. }
  unfold wpe in Hw. by destruct (apply_result res (set, store)) as [[a|e| |] [set' store']].
Qed.

Lemma plan_durable G hist st :
  lsm_inv G hist st -> durable hist st -> (length hist < fuel)%nat ->
  let '(r, st') := lsm_step planner false fuel st LsmPlan in
  match r with Ok es => durable (es ++ hist) st' | Err _ => durable hist st' | _ => True end.
Proof.
  destruct st as [set open store [res|]]; intros I D Hf; cbn [lsm_step]; [done|]. pose proof D as [[Dm Df] D2 D3 D4 D5].
  pose proof (fun t => set_names _ _ _ t I) as Hsn. cbn [lsm_set lsm_open lsm_store lsm_flight] in *.
  pose proof (Step_run_spec planner false fuel G hist set open store _ _ eq_refl Hf I
    (fun es H1 H2 H3 => wpe_and _ _ _ _ _ _ (law_Flush es store H1 H2 H3) (dlaw_Flush es store H1 H2 H3))) as Hw.
  unfold wpe in Hw. destruct (Step_run planner false fuel (set, store)) as [[a|e| |] [set' store']]; try done; cbn [fst snd] in Hw; destruct Hw as [-> Hw].
  - cbn [fmap result_fmap app]. destruct a as [res|]; [|by subst store']. destruct Hw as (cs & i & out & es & [_ Eo _ _ Hcs Hsome _ _] & (_ & Hfr & _) & (Es & Et & Eop)).
    split; cbn [lsm_set lsm_open lsm_store lsm_flight]; unfold on_disk; rewrite ?Es; try done.
    + split; [done|]. intros t Ht. rewrite Eop; [auto|]. intros E. apply Hfr. rewrite <- E. auto.
    + intros r o [= <-]. rewrite Eo. by intros ->%list_elem_of_singleton.
    + intros E. exfalso. destruct cs as [|c cs]; [done|]. specialize (Hcs c ltac:(by left)).
      destruct (table_seq G c (tr_ok _ _ (li_tree _ _ _ I) c Hcs)) as [_ (x & Hx & _)].
      pose proof (sf_from _ _ _ (li_hist _ _ _ I) c x Hcs Hx) as Hin. rewrite E in Hin. by apply elem_of_nil in Hin.
  - destruct Hw as [_ [Es Eo]]. split; cbn [lsm_set lsm_open lsm_store lsm_flight]; unfold on_disk; rewrite ?Es; try done.
    + split; [done|]. intros t Ht. rewrite Eo. auto.
    + intros E. destruct (D5 E) as [? Hn]. split; [done|]. intros p. by rewrite Eo.
Qed.

Lemma pins_durable G hist st op :
  op = LsmSnapshot \/ (exists i, op = LsmClose i) -> lsm_inv G hist st -> durable hist st ->
  let '(r, st') := lsm_step planner false fuel st op in
  match r with Ok es => durable (es ++ hist) st' | Err _ => durable hist st' | _ => True end.
Proof.
  destruct st as [set open store res]. intros Hop I [[Dm Df] D2 D3 D4 D5]. pose proof (fun r o => flight_names _ _ _ r o I) as Hfn.
  cbn [lsm_set lsm_open lsm_store lsm_flight] in *. destruct Hop as [->|[i ->]]; cbn [lsm_step]; [by split|].
  pose proof (ts_step_ok (set, open) (TsClose i) (li_set _ _ _ I) Logic.I) as Hs.
  assert (Et : set_tables (fst (snd (ts_step (set, open) (TsClose i)))) = set_tables set).
  { cbn [ts_step]. destruct (open !! i) as [paths|]; [|done]. unfold Unpin. destruct paths; [done|]. destruct (set_pinned set); [|done].
    by destruct (unpin_loop _ _ _) as [? [? ?]]. }
  destruct (ts_step (set, open) (TsClose i)) as [ready [set' open']]. cbn [fst snd] in *. destruct Hs as (_ & _ & P). cbn [fst snd] in P.
  assert (Hrd : forall p, p ∈ map Table_Path ready -> p ∈ in_use set /\ p ∉ map Table_Path (set_tables set)).
  { rewrite app_nil_r, Et, <- app_assoc in P. apply Permutation_app_inv_l in P. intros p (t & -> & Ht)%list_elem_of_fmap.
    assert (Hin : t ∈ values (set_pending set)) by (rewrite P; apply elem_of_app; by right).
    split; [apply elem_of_app; right; by apply list_elem_of_fmap_2|]. apply list_elem_of_fmap in Hin as ((q & t') & -> & Hin).
    apply elem_of_map_to_list in Hin. cbn [fst snd] in *.
    by destruct (ti_pending _ (li_set _ _ _ I) _ _ Hin) as (<- & _ & ?). }
  pose proof (remove_tables_only ready store) as Hrm. unfold wpe in Hrm.
  destruct (remove_tables ready store) as [[u|e| |] store']; try done. destruct Hrm as [Es Eo0]. cbn [fmap result_fmap app].
  assert (Eo : forall p, p ∉ map Table_Path ready -> opened store' p = opened store p) by (intros p Hn; by destruct (Eo0 p) as [?|[? _]]).
  split; cbn [lsm_set lsm_open lsm_store lsm_flight]; unfold on_disk; rewrite ?Es, ?Et; try done.
  - split; [done|]. intros t Ht. rewrite Eo; [auto|]. intros [_ Hn]%Hrd. by apply Hn, list_elem_of_fmap_2.
  - intros r o Er Ho. rewrite Eo; [eauto|]. intros [Hu _]%Hrd. by destruct (Hfn r o Er Ho).
  - intros E. destruct (D5 E) as [? Hn]. split; [done|]. intros p. destruct (Eo0 p) as [->|[_ ?]]; done.
Qed.

Lemma durable_step G hist st op :
  lsm_inv G hist st -> durable hist st -> (length hist < fuel)%nat -> op_in_order hist op -> positive op ->
  let '(r, st') := lsm_step planner false fuel st op in
  match r with Ok es => durable (es ++ hist) st' | Err _ => durable hist st' | _ => True end.
Proof.
  intros I D Hf Ho Hp. destruct op as [es| | | |i].
  - by eapply flush_durable.
  - by eapply plan_durable.
  - by eapply install_durable.
  - eapply pins_durable; [by left|done|done].
  - eapply pins_durable; [by right; exists i|done|done].
Qed.
End Durable.

(** ** Loading the tables *)

Definition same_files {H M} `{DurableStorage H M} (m m' : M) : Prop :=
  stored m' = stored m /\ (forall p, opened m' p = opened m p) /\ names m ⊆ names m'.

(** Reading does not change files; files have used names; a flush reports no
    error of the write-ahead log. *)
Class BootLaws (H M : Type) `{DurableStorage H M} `{BootStorage H M} := {
  blaw_names m p : is_Some (opened m p) -> p ∈ names m;
  blaw_errors es m e m' : flusher_Flush es m = (Err e, m') -> e <> ErrWALMissingSegment /\ e <> ErrWALCorruptSegment;
  blaw_Load m : wpe manifest_Load (fun x m' => x = stored m /\ same_files m m') (fun _ => False) m;
  blaw_Save x m : wpe (manifest_Save x) (fun _ m' => stored m' = x /\ (forall p, opened m' p = opened m p) /\ names m ⊆ names m') (fun _ => False) m;
  blaw_Table p t m : opened m p = Some t -> wpe (load_table p) (fun t' m' => t' = t /\ same_files m m') (fun _ => False) m;
  blaw_List m : wpe list_tables (fun ps m' => NoDup ps /\ (forall p, p ∈ ps <-> is_Some (opened m p)) /\ same_files m m') (fun _ => False) m
}.

Lemma wpe_attempt {M A} (m : SE M A) (Q : A + error -> M -> Prop) E s : wpe m (fun a s => Q (inl a) s) (fun _ => False) s -> wpe (attempt m) Q E s.
Proof. unfold wpe, attempt. by destruct (m s) as [[a| | |] s1]. Qed.

Section Load.
Context {H M : Type} `{BL : BootLaws H M}.
Context (dropCorrupt : bool).

Lemma same_files_refl m : same_files m m.
Proof. done. Qed.

Lemma same_files_trans m1 m2 m3 : same_files m1 m2 -> same_files m2 m3 -> same_files m1 m3.
Proof. intros (A1 & A2 & A3) (B1 & B2 & B3). split; [congruence|]. split; [intros p; by rewrite B2|set_solver]. Qed.

(** The metadata of an installed table survives the manifest. *)
Lemma manifest_meta_id G (t : Table H) : table_ok G t -> manifest_meta (entry_of t) (h_Info (Table_Handle t)) = Table_Meta t.
Proof.
  intros [_ _ Hm _]. unfold entry_of. rewrite Hm. unfold manifest_meta, manifestEntryFromMeta, TableMetaFromSSTable.
  cbn [me_Path me_Level me_MinKey me_MaxKey me_SeqMin me_SeqMax me_SizeBytes tm_Path tm_Level tm_MinKey tm_MaxKey tm_SeqMin tm_SeqMax tm_SizeBytes].
  f_equal; try (by repeat case_match); repeat case_bool_decide; congruence.
Qed.

Lemma load_spec G ts : forall m,
  (forall t, t ∈ ts -> table_ok G t /\ opened m (Table_Path t) = Some (Table_Handle t)) ->
  wpe (loadTablesFromManifest dropCorrupt (map entry_of ts)) (fun r m' => r = ts /\ same_files m m') (fun _ => False) m.
Proof.
  induction ts as [|t ts IH]; intros m Ht; cbn [map loadTablesFromManifest]; [by apply wpe_ret|].
  destruct (Ht t ltac:(by left)) as [Hok Ho]. apply wpe_bind, wpe_attempt. eapply wpe_mono; [apply blaw_Table, Ho|cbv beta|done].
  intros t' m1 [-> S1]. apply wpe_bind. eapply wpe_mono; [apply IH|cbv beta|done].
  - intros x Hx. split; [apply Ht; by right|]. destruct S1 as (_ & -> & _). apply Ht. by right.
  - intros r m2 [-> S2]. apply wpe_ret. split; [|by eapply same_files_trans]. rewrite (manifest_meta_id G) by done. by destruct t.
Qed.

(** ** What a restart finds *)

(** The tables on disk with the acknowledged writes: those it does not have
    are newer than all that it has. *)
Record tidy (G : gmap string (list Entry)) (hist acked : list Entry) (st : lsm H M) : Prop := {
  td_inv : lsm_inv G hist st;
  td_durable : durable hist st;
  td_nodup : NoDup hist;
  td_from x : x ∈ hist -> x ∈ acked;
  td_cover x : x ∈ acked -> has_version hist x \/ newer_than hist x
}.

(** The first table was written, but the manifest does not have it yet. *)
Definition orphan (acked : list Entry) (m : M) : Prop :=
  exists t es, h_holds t es /\ Forall fits es /\ Manifest_Tables (stored m) = [] /\
    (forall p, opened m p = if bool_decide (p = h_Path t) then Some t else None) /\
    (forall x, x ∈ es -> x ∈ acked /\ 0 < Seq x) /\ (forall x, x ∈ acked -> has_version es x \/ newer_than es x).

Definition startable (acked : list Entry) (m : M) : Prop := (exists G hist st, tidy G hist acked st /\ lsm_store st = m) \/ orphan acked m.

Lemma lsm_inv_restart G hist st ts m :
  lsm_inv G hist st -> ts ≡ₚ set_tables (lsm_set st) -> names (lsm_store st) ⊆ names m -> lsm_inv G hist (mkLsm (NewSet ts) [] m None).
Proof.
  intros [I1 I2 I3 I4 I5 I6 [N1 N2] I8] P Hn.
  destruct (NewSet_inv ts) as [Hi Hp]; [by rewrite P; apply (ti_nodup _ I1)|].
  assert (P' : set_tables (lsm_set st) ≡ₚ set_tables (NewSet ts)) by (by rewrite Hp).
  split; cbn [lsm_set lsm_open lsm_store lsm_flight]; try done.
  - by eapply tree_perm.
  - by eapply stands_perm.
  - by rewrite <- (total_perm _ _ _ P').
  - split; [|done]. intros p [Hu|Hu]%elem_of_app; [apply Hn, N1, elem_of_app; left; by rewrite P'|].
    exfalso. assert (E : set_pending (NewSet ts) = ∅) by (by destruct ts). rewrite E in Hu. unfold values in Hu.
    rewrite map_to_list_empty in Hu. by apply elem_of_nil in Hu.
Qed.

Lemma durable_restart hist st ts m :
  durable hist st -> ts ≡ₚ set_tables (lsm_set st) -> NoDup (map Table_Path ts) -> same_files (lsm_store st) m -> durable hist (mkLsm (NewSet ts) [] m None).
Proof.
  intros [[Dm Df] D2 D3 D4 D5] P Hn (Es & Eo & _). destruct (NewSet_inv ts Hn) as [_ Hp].
  split; cbn [lsm_set lsm_open lsm_store lsm_flight]; unfold on_disk; rewrite ?Es; try done.
  - rewrite Hp, P. split; [done|]. intros t Ht. rewrite Hp, P in Ht. rewrite Eo. auto.
  - intros E. destruct (D5 E) as [? Hno]. split; [done|]. intros p. by rewrite Eo.
Qed.

Lemma no_tables G hist st : lsm_inv G hist st -> hist = [] -> set_tables (lsm_set st) = [].
Proof.
  intros I E. destruct (set_tables (lsm_set st)) as [|t ts] eqn:Et; [done|]. exfalso.
  assert (Hin : t ∈ set_tables (lsm_set st)) by (rewrite Et; by left).
  destruct (table_seq G t (tr_ok _ _ (li_tree _ _ _ I) t Hin)) as [_ (x & Hx & _)].
  pose proof (sf_from _ _ _ (li_hist _ _ _ I) t x Hin Hx) as Hx'. rewrite E in Hx'. by apply elem_of_nil in Hx'.
Qed.

Definition loaded (acked : list Entry) (r : Manifest * list (Table H)) (m : M) : Prop :=
  WALSeq (fst r) = WALSeq (stored m) /\ exists G hist, tidy G hist acked (mkLsm (NewSet (snd r)) [] m None).

Lemma Load_tidy G hist acked st :
  tidy G hist acked st -> wpe (LoadManifestTables dropCorrupt) (loaded acked) (fun _ => False) (lsm_store st).
Proof.
  intros [I D Hn Hfrom Hcov]. pose proof (du_tables _ _ D) as [Dm Df]. unfold LoadManifestTables.
  apply wpe_bind, wpe_attempt. eapply wpe_mono; [apply blaw_Load|cbv beta|done]. intros mf m1 [-> S1].
  assert (Hts : forall ts m, ts ≡ₚ set_tables (lsm_set st) -> same_files (lsm_store st) m -> tidy G hist acked (mkLsm (NewSet ts) [] m None)).
  { intros ts m P S. split; try done; [eapply lsm_inv_restart; [done|done|apply S]|]. eapply durable_restart; [done|done| |done].
    rewrite P. apply (ti_nodup _ (li_set _ _ _ I)). }
  apply Permutation_map_inv in Dm as (ts & Em & P). rewrite Em. destruct ts as [|t ts]; cbn [map].
  - apply Permutation_nil_r in P. unfold fallback_scan. apply wpe_bind, wpe_attempt.
    eapply wpe_mono; [apply blaw_List|cbv beta|done]. intros ps m2 (_ & Hps & S2). assert (S : same_files (lsm_store st) m2) by (by eapply same_files_trans).
    assert (hist = []) as ->.
    { destruct hist as [|x h]; [done|]. destruct (sf_newest _ _ _ (li_hist _ _ _ I) x ltac:(by left)) as (t & _ & Ht & _). rewrite P in Ht. by apply elem_of_nil in Ht. }
    destruct (du_empty _ _ D eq_refl) as [Hw Hno]. destruct ps as [|p ps].
    + apply wpe_ret. split; [by destruct S as [-> _]|]. exists G, []. apply Hts; [by rewrite P|done].
    + exfalso. assert (Hp : is_Some (opened m1 p)) by (apply Hps; by left). destruct S1 as (_ & S1 & _). rewrite S1, Hno in Hp. by destruct Hp.
  - apply wpe_bind, wpe_attempt. change (entry_of t :: map entry_of ts) with (map entry_of (t :: ts)).
    eapply wpe_mono; [apply (load_spec G)|cbv beta|done].
    + intros x Hx. rewrite <- P in Hx. split; [by apply (li_tree _ _ _ I)|]. destruct S1 as (_ & -> & _). auto.
    + intros r m2 [-> S2]. apply wpe_ret. assert (S : same_files (lsm_store st) m2) by (by eapply same_files_trans).
      split; [by destruct S as [-> _]|]. exists G, hist. apply Hts; [by rewrite P|done].
Qed.

Lemma lsm_inv_empty G m : lsm_inv G [] (new_lsm m).
Proof.
  destruct (new_lsm_inv m) as [I1 I2 I3 I4 I5 I6 I7 I8]. split; try done.
  - apply (tree_agree ∅); [|done]. by intros t ?%elem_of_nil.
  - apply (stands_agree ∅); [|done]. by intros t ?%elem_of_nil.
Qed.

(** A first table alone. *)
Lemma first_table_inv t es m :
  h_holds t es -> Forall fits es -> h_Path t ∈ names m ->
  lsm_inv {[h_Path t := es]} es (mkLsm (NewSet [mkTable (TableMetaFromSSTable t 0) t]) [] m None).
Proof.
  intros Hh Hfit Hp. set (T := mkTable _ t). set (G := {[h_Path t := es]}).
  destruct (NewSet_inv [T]) as [Hi P]; [apply NoDup_singleton|].
  assert (Hr : run G T = es) by (unfold run, G; cbn; by rewrite lookup_singleton_eq).
  assert (Ht : table_ok G T) by (split; rewrite ?Hr; cbn; [by unfold G; rewrite lookup_singleton_eq|done|done|done]).
  destruct (tree_flush G [] T []) as [T1 T2]; [apply (li_tree _ _ _ (lsm_inv_empty G m))|apply (li_hist _ _ _ (lsm_inv_empty G m))|done|done|by intros x y ?%elem_of_nil|].
  rewrite Hr, app_nil_r in T2. symmetry in P. split; cbn [lsm_set lsm_open lsm_store lsm_flight]; try done.
  - rewrite <- (total_perm _ _ _ P). unfold total. cbn [map concat]. by rewrite Hr, app_nil_r.
  - intros x y Hx Hy Hk _. rewrite <- Hr in Hx, Hy. by eapply run_keys.
  - split; [|done]. intros p [Hu|Hu]%elem_of_app.
    + rewrite <- P in Hu. by apply list_elem_of_singleton in Hu as ->.
    + unfold values in Hu. cbn in Hu. rewrite map_to_list_empty in Hu. by apply elem_of_nil in Hu.
Qed.

Lemma NoDup_only {A} (l : list A) x : NoDup l -> (forall y, y ∈ l <-> y = x) -> l = [x].
Proof.
  intros Hn Hl. apply Permutation_singleton_r. apply NoDup_Permutation; [done|apply NoDup_singleton|].
  intros y. by rewrite Hl, list_elem_of_singleton.
Qed.

Lemma Load_orphan acked m : orphan acked m -> wpe (LoadManifestTables dropCorrupt) (loaded acked) (fun _ => False) m.
Proof.
  intros (t & es & Hh & Hfit & Em & Ho & Hes & Hcov). unfold LoadManifestTables.
  apply wpe_bind, wpe_attempt. eapply wpe_mono; [apply blaw_Load|cbv beta|done]. intros mf m1 [-> S1]. rewrite Em.
  unfold fallback_scan. apply wpe_bind, wpe_attempt. eapply wpe_mono; [apply blaw_List|cbv beta|done]. intros ps m2 (Hnd & Hps & S2).
  assert (S : same_files m m2) by (by eapply same_files_trans).
  assert (ps = [h_Path t]) as ->.
  { apply NoDup_only; [done|]. intros p. rewrite Hps. destruct S1 as (_ & -> & _). rewrite Ho. case_bool_decide; [done|]. split; [by intros [? ?]|done]. }
  apply wpe_bind, wpe_attempt. unfold scanSSTablePaths. apply wpe_bind. cbn [scan_loop]. apply wpe_bind, wpe_attempt.
  assert (Ht : opened m2 (h_Path t) = Some t) by (destruct S as (_ & -> & _); by rewrite Ho, bool_decide_true).
  eapply wpe_mono; [apply blaw_Table, Ht|cbv beta|done]. intros t' m3 [-> S3]. apply wpe_bind, wpe_ret, wpe_ret, wpe_ret.
  destruct (hist_seq t es Hh) as (Hpos & Hle & x & Hx & Ex); [intros y Hy; by apply Hes|].
  rewrite (meta_SeqMax t es 0 Hh). destruct (law_info _ _ Hh) as [_ <-]. rewrite bool_decide_true by done.
  apply wpe_bind. eapply wpe_mono; [apply blaw_Save|cbv beta|done]. intros _ m4 (Es & Eo & Hn). apply wpe_ret. split; [by rewrite Es|].
  assert (Ho4 : opened m4 (h_Path t) = Some t) by (destruct S3 as (_ & S3 & _); by rewrite Eo, S3).
  exists {[h_Path t := es]}, es. split.
  - apply first_table_inv; [done|done|]. apply blaw_names. by exists t.
  - destruct (NewSet_inv [mkTable (TableMetaFromSSTable t 0) t]) as [_ P]; [apply NoDup_singleton|].
    split; cbn [fst snd lsm_set lsm_open lsm_store lsm_flight]; unfold on_disk; rewrite ?Es; try done.
    + split; [by rewrite P|]. intros t' Ht'. rewrite P in Ht'. by apply list_elem_of_singleton in Ht' as ->.
    + intros _. by exists x.
    + intros ->. by apply elem_of_nil in Hx.
  - eapply NoDup_fmap_1, sorted_run_keys, law_run, Hh.
  - intros y Hy. by apply Hes.
  - done.
Qed.

Lemma Load_spec acked m : startable acked m -> wpe (LoadManifestTables dropCorrupt) (loaded acked) (fun _ => False) m.
Proof. intros [(G & hist & st & Ht & <-)|Ho]; [by eapply Load_tidy|by apply Load_orphan]. Qed.
End Load.
