(* ===== verification/Recovery.v ===== *)
(** * Recovery after a crash

    An engine can stop at any point between operations, or between the write
    of a table and its entry in the manifest; [New] starts another one from
    the files.  The main result: whatever operations, crashes and starts
    there were, a running engine returns the last acknowledged write of a
    key, and a start fails only if a flush of its replay fails. *)

From Stdlib Require Import ZArith Lia Strings.String.
From stdpp Require Import base sorting gmap strings list.
From S2P Require Import Prelude Heap Merge Memtable TableIter TableSet Handle Compaction Manifest CompactionRun LsmTree ViewMerge Engine EngineSpec Bootstrap Durable.
Local Open Scope Z_scope.

(** A log that keeps what it is given: an append that fails leaves it as it
    was, and a replay delivers all entries in order. *)
Class DurableLog (W : Type) `{WriteAheadLogLaws W} `{ReplayLog W} := {
  log_is : W -> list Entry -> Prop;
  llaw_Append e w es : log_is w es -> wpe (wal_AppendOwned e) (fun _ w' => log_is w' (es ++ [e])) (fun w' => log_is w' es) w;
  llaw_Replay w es : log_is w es -> exists w', wal_ReplayViews w = (es, None, w') /\ log_is w' es
}.

Lemma elem_of_rev {A} (x : A) l : x ∈ rev l <-> x ∈ l.
Proof. rewrite !list_elem_of_In. symmetry. apply in_rev. Qed.

Section Replay.
Context {T H M W : Type} `{MemTableLaws T} `{BL : BootLaws H M} `{DL : DurableLog W}.
Context (baseFactory : T) (mtLimit replayBatchSize : Z) (autoRepair missingIgnore dropCorrupt : bool).
Context (Hbase : mt_rep baseFactory []).

Abbreviation engine := (LSM (T := T) (H := H) (M := M) (W := W)).
Abbreviation inv := (eng_inv (T := T) (H := H) (M := M) (W := W) durable (fun _ _ => True)).

(** ** Batches *)

Lemma inv_swap G hist acked mrun iruns (s : engine) t :
  inv G hist acked mrun iruns s -> mt_rep t mrun -> inv G hist acked mrun iruns (with_heap <[l_mem s := t]> s).
Proof.
  intros [I1 I2 I3 I4 I5 I6 I7 I8 I9 I10 I13 I14 I15 I16 I17 I18 I19 I20] Hr. pose proof I4 as [Hnm _]%NoDup_cons. rewrite not_elem_of_app in Hnm.
  split; try done.
  - exists t. cbn. by rewrite lookup_insert_eq.
  - eapply Forall2_impl_in; [exact I2|]. cbv beta. intros i es Hi [Hm Hes]. split; [|done]. eapply mem_is_ext; [|exact Hm]. cbn.
    apply lookup_insert_ne. intros <-. tauto.
  - apply Forall_forall. intros i Hi. cbn in Hi. rewrite Forall_forall in I3. eapply mem_is_ext; [|by apply I3]. cbn. apply lookup_insert_ne. intros <-. tauto.
Qed.

(** Entries in the order of their sequence numbers, above the writes so far. *)
Definition ascending (batch acked : list Entry) : Prop := StronglySorted (fun x y => Seq y < Seq x) (rev batch ++ acked).

Lemma inv_batch batch : forall G hist acked mrun iruns (s : engine) t,
  inv G hist acked mrun iruns s -> ascending batch acked -> (forall x, x ∈ batch -> 0 < Seq x /\ fits x) -> mt_rep t (upsert_all batch mrun) ->
  inv G hist (rev batch ++ acked) (upsert_all batch mrun) iruns (with_heap <[l_mem s := t]> s).
Proof.
  induction batch as [|e batch IH]; intros G hist acked mrun iruns s t I Ha Hb Ht; [by apply inv_swap|].
  unfold ascending in Ha. cbn [rev upsert_all fold_left] in *. rewrite <- app_assoc in *. cbn [app] in *. change (fold_left _ batch ?r) with (upsert_all batch r) in *.
  destruct (ei_mem _ _ _ _ _ _ _ _ I) as (t0 & Et0 & Hr0). destruct (law_ApplyOwned t0 mrun e Hr0) as (t1 & _ & Hr1).
  destruct (Hb e ltac:(by left)) as [Hpos Hfit].
  assert (I1 : inv G hist (e :: acked) (upsert e mrun) iruns (with_heap <[l_mem s := t1]> (with_wal (l_wal s) s))).
  { apply inv_apply; try done. apply StronglySorted_app in Ha as (_ & _ & Ha). apply StronglySorted_inv in Ha as [_ Ha]. rewrite Forall_forall in Ha. done. }
  assert (I2 := IH _ _ _ _ _ _ t I1 Ha (fun x Hx => Hb x (list_elem_of_further _ _ _ Hx)) Ht).
  destruct s. cbn in *. unfold with_heap, with_wal in I2. cbn in I2. by rewrite insert_insert_eq in I2.
Qed.

(** ** Flushes of the replay *)

(** What a replay leaves alone. *)
Definition same_rest (s s' : engine) : Prop := l_wal s' = l_wal s /\ l_seq s' = l_seq s /\ l_running s' = l_running s /\ l_log s' = l_log s.

Lemma Service_Apply_returns add remove walSeq (x : Set_ H * M) : exists u x', Service_Apply add remove walSeq x = (Ok u, x').
Proof.
  unfold Service_Apply. destruct (Set_Apply _ _) as [removed set']. set (rest := mbind _ _).
  assert (Hr : wpe rest (fun _ _ => True) (fun _ => False) (snd x)).
  { apply wpe_bind. eapply wpe_mono; [apply dlaw_Update| |done]; cbv beta. intros _ m1 _.
    eapply wpe_mono; [apply remove_tables_keeps| |done]; cbv beta. done. }
  unfold wpe in Hr. destruct (rest (snd x)) as [[u|err| |] m']; try done. eauto.
Qed.

(** A flush whose storage fails. *)
Definition flush_fails (e : error) : Prop := exists es (m m' : M), flusher_Flush es m = (Err e, m').

Lemma flush_now_spec G hist st es :
  lsm_inv G hist st -> durable hist st -> op_in_order hist (LsmFlush es) -> positive (LsmFlush es) ->
  wpx (flush_now es)
    (fun _ x => let st' := mkLsm (fst x) (lsm_open st) (snd x) (lsm_flight st) in (exists G', lsm_inv G' (es ++ hist) st') /\ durable (es ++ hist) st')
    (fun e x => flush_fails e /\ let st' := mkLsm (fst x) (lsm_open st) (snd x) (lsm_flight st) in (exists G', lsm_inv G' hist st') /\ durable hist st')
    (lsm_set st, lsm_store st).
Proof.
  intros I D Ho Hp. pose proof (flush_step_ok (mkPlanner 0 0 0) false 0 G hist st es I Ho) as Hs1. pose proof (flush_durable (mkPlanner 0 0 0) 0 G hist st es I D Ho Hp) as Hs2.
  destruct st as [set open store res]. cbn [lsm_step lsm_set lsm_open lsm_store lsm_flight] in *. unfold wpx, flush_now, flush_apply in *.
  unfold mbind, SE_bind, on_storage, mret, SE_ret, catch in *. cbn [fst snd] in *. destruct (flusher_Flush es store) as [[t|e| |] m1] eqn:Ef; try done.
  - destruct (Service_Apply_returns [mkTable (TableMetaFromSSTable t 0) t] [] (h_Seq t) (set, m1)) as ([] & [set' m2] & E).
    rewrite E in *. by split.
  - split; [by exists es, store, m1|]. by split.
Qed.

(** The frozen memtable became a table; a fresh one is active. *)
Lemma inv_replayed G G' hist acked mrun (s : engine) t id t0 h pool tree' :
  inv G hist acked mrun [] s -> mt_rep t mrun -> h !! id = Some t0 -> mt_rep t0 [] -> NoDup (id :: l_mem s :: l_immutables s ++ pool) ->
  (forall i, i ∈ l_mem s :: l_immutables s ++ pool -> h !! i = l_heap s !! i) -> (forall i, i ∈ pool -> i ∈ l_pool s) ->
  lsm_inv G' (mrun ++ hist) tree' -> durable (mrun ++ hist) tree' ->
  inv G' (mrun ++ hist) acked [] []
    (mkLSM (<[l_mem s := mt_Reset t]> h) (l_mem s :: pool) id [] [] (l_pinned s) (l_queue s) (l_waiting s) (l_flushBlocked s) (l_running s) (l_log s)
       (l_seq s) (l_wal s) tree').
Proof.
  intros [I1 I2 I3 I4 I5 I6 I7 I8 I9 I10 I13 I14 I15 I16 I17 I18 I19 I20] Hr Hid Hr0 Hn Hh Hp Ht Hd.
  apply Forall2_nil_inv_r in I2. rewrite I2 in *. cbn [app] in *. apply NoDup_cons in Hn as [Hni Hn]. apply not_elem_of_cons in Hni as [Hne Hni].
  apply NoDup_cons in Hn as [Hnm Hn].
  split; cbn [l_heap l_pool l_mem l_immutables l_flushQueue l_pinned l_queue l_waiting l_flushBlocked l_running l_log l_tree l_wal]; try done.
  - exists t0. cbn. by rewrite lookup_insert_ne.
  - constructor; [exists (mt_Reset t); cbn; rewrite lookup_insert_eq; split; [done|by eapply law_Reset]|].
    apply Forall_forall. intros i Hi. rewrite Forall_forall in I3. eapply mem_is_ext; [|by apply I3, Hp]. cbn.
    rewrite lookup_insert_ne by (intros E; by rewrite E in Hnm). apply Hh. by right.
  - apply NoDup_cons. split; [by apply not_elem_of_cons|by apply NoDup_cons].
  - repeat constructor. by intros x y _ ?%elem_of_nil.
  - intros x Hx. left. destruct (I14 x Hx) as [(e & He & Hk)|[_ [(e & He & Hk)|[_ []]]]]; exists e; rewrite elem_of_app; auto.
  - cbn [app] in I10. apply NoDup_app. split; [by eapply NoDup_fmap_1, sorted_run_keys, law_sorted|]. split; [|done]. intros x Hx Hx'.
    apply StronglySorted_inv in I10 as [_ I10]. apply Forall_inv in I10. specialize (I10 x x Hx' Hx). lia.
Qed.

Lemma wpx_on_tables {A} (m : SE (Set_ H * M) A) (Q : A -> engine -> Prop) E s :
  wpx m (fun a x => Q a (with_tree (mkLsm (fst x) (lsm_open (l_tree s)) (snd x) (lsm_flight (l_tree s))) s))
    (fun e x => E e (with_tree (mkLsm (fst x) (lsm_open (l_tree s)) (snd x) (lsm_flight (l_tree s))) s)) (lsm_set (l_tree s), lsm_store (l_tree s)) ->
  wpx (on_tables m) Q E s.
Proof. unfold wpx, on_tables. destruct (l_tree s) as [set open store res]. cbn. by destruct (m (set, store)) as [[a|e| |] [x y]]. Qed.

(** What is left when a flush of the replay failed: the files are in order,
    and [mem] is not the active memtable any more. *)
Definition stuck (acked : list Entry) (s : engine) (mem : nat) : Prop :=
  l_mem s <> mem /\ (exists t es, l_heap s !! mem = Some t /\ mt_rep t es) /\ exists G hist, tidy G hist acked (l_tree s).

Lemma wpx_on_engine {A} (m : SE engine A) (Q : A -> engine * nat -> Prop) E x :
  wpx m (fun a s => Q a (s, snd x)) (fun e s => E e (s, snd x)) (fst x) -> wpx (on_engine m) Q E x.
Proof. unfold wpx, on_engine. destruct x as [s mem]. cbn. by destruct (m s) as [[a|e| |] s']. Qed.

Lemma replay_flush_spec G hist acked mrun (s : engine) reuse :
  inv G hist acked mrun [] s -> mrun <> [] ->
  wpx (frozen ← on_engine (freezeMemtableIfCurrent baseFactory (l_mem s) reuse);
       match frozen with
       | None => mret tt
       | Some id => _ ← on_engine (flushMemtableForReplay id); modify (fun s => (fst s, l_mem (fst s)))
       end)
    (fun _ x => snd x = l_mem (fst x) /\ same_rest s (fst x) /\ exists G', inv G' (mrun ++ hist) acked [] [] (fst x))
    (fun e x => flush_fails e /\ same_rest s (fst x) /\ stuck acked (fst x) (snd x)) (s, l_mem s).
Proof.
  intros I Hne. destruct (mtFactory_spec baseFactory _ _ Hbase _ _ _ _ _ _ reuse I) as (id & h & pool & Ef & (t0 & Et0 & Hr0) & Hn & Hh & Hp).
  destruct (ei_mem _ _ _ _ _ _ _ _ I) as (t & Et & Hr).
  assert (Ei : l_immutables s = []) by (pose proof (ei_immutables _ _ _ _ _ _ _ _ I) as Hi; by apply Forall2_nil_inv_r in Hi).
  assert (Eq : l_flushQueue s = []) by (by rewrite (ei_flushQueue _ _ _ _ _ _ _ _ I)).
  assert (Ht : h !! l_mem s = Some t) by (rewrite Hh; [done|by left]).
  assert (Hidm : id <> l_mem s) by (apply NoDup_cons in Hn as [Hni _]; intros ->; apply Hni; by left).
  set (s1 := mkLSM h pool id [l_mem s] [] (l_pinned s) (l_queue s) (l_waiting s) (l_flushBlocked s) (l_running s) (l_log s) (l_seq s) (l_wal s) (l_tree s)).
  apply wpx_bind, wpx_on_engine. cbn [fst snd]. unfold wpx at 1, freezeMemtableIfCurrent, freezeMemtableLocked. unfold mbind, SE_bind, get. rewrite bool_decide_false by tauto. rewrite Ef.
  unfold modify, mret, SE_ret, with_mem, with_immutables, with_pool, with_heap.
  cbn [l_heap l_pool l_mem l_immutables l_flushQueue l_pinned l_queue l_waiting l_flushBlocked l_running l_log l_seq l_wal l_tree]. rewrite Ei, Eq. cbn [app].
  fold s1. apply wpx_bind, wpx_on_engine. cbn [fst snd]. unfold flushMemtableForReplay. apply wpx_bind. unfold wpx at 1, deref. cbn [s1 l_heap]. rewrite Ht.
  apply wpx_bind. unfold wpx at 1, lift. rewrite (law_Range _ _ [] [] Hr), entries_between_all. destruct mrun as [|e0 mrun0] eqn:Em; [done|]. rewrite <- Em in *. clear Hne.
  assert (Ho : op_in_order hist (LsmFlush mrun)).
  { split; [by eapply law_sorted|]. split; [by rewrite Em|]. split.
    - apply Forall_forall. intros x Hx. pose proof (ei_fits _ _ _ _ _ _ _ _ I) as Hfit. rewrite Forall_forall in Hfit. apply Hfit, (ei_from _ _ _ _ _ _ _ _ I). rewrite !elem_of_app. auto.
    - pose proof (ei_order _ _ _ _ _ _ _ _ I) as Hor. apply StronglySorted_inv in Hor as [_ Hor]. cbn [app] in Hor. apply Forall_inv in Hor.
      apply Forall_forall. intros x Hx. apply Forall_forall. intros y Hy. by apply Hor. }
  assert (Hpos : positive (LsmFlush mrun)).
  { intros x Hx. apply (ei_positive _ _ _ _ _ _ _ _ I), (ei_from _ _ _ _ _ _ _ _ I). rewrite !elem_of_app. auto. }
  apply wpx_bind, wpx_on_tables. cbn [s1 l_tree].
  eapply wpx_mono; [apply (flush_now_spec G hist (l_tree s) mrun (ei_tree _ _ _ _ _ _ _ _ I) (ei_extra _ _ _ _ _ _ _ _ I) Ho Hpos)| |]; cbv beta zeta.
  - intros _ x [[G' Hl] Hd]. apply wpx_safe, wpe_bind. unfold removeImmutable, removeImmutableLocked, removeFlushQueueLocked.
    apply wpe_bind, wpe_modify, wpe_modify. unfold recycleMemtable. apply wpe_get.
    cbn [s1 with_tree with_flushQueue with_immutables l_pinned]. rewrite (ei_pinned _ _ _ _ _ _ _ _ I), bool_decide_false by (rewrite lookup_empty; by intros [? ?]).
    apply wpe_bind. unfold wpe at 1, deref. cbn [s1 with_tree with_flushQueue with_immutables l_heap]. rewrite Ht.
    apply wpe_bind. unfold store_table. apply wpe_modify, wpe_modify. unfold wpx, modify. cbn [fst snd]. split; [done|]. split; [done|]. exists G'.
    unfold s1, with_pool, with_heap, with_tree, with_flushQueue, with_immutables.
    cbn [l_heap l_pool l_mem l_immutables l_flushQueue l_pinned l_queue l_waiting l_flushBlocked l_running l_log l_seq l_wal l_tree remove_first].
    rewrite bool_decide_true by done. by eapply inv_replayed.
  - intros e x (Hff & [G' Hl] & Hd). split; [done|]. split; [done|]. split; [done|]. split; [by exists t, mrun|].
    exists G', hist. split; try done; [apply I|..].
    + intros y Hy. apply (ei_from _ _ _ _ _ _ _ _ I). rewrite !elem_of_app. auto.
    + intros y Hy. destruct (ei_era _ _ _ _ _ _ _ _ I y Hy) as [?|[? _]]; auto.
Qed.

(** ** The replay *)

(** The replay has brought some of the writes back, and the sequence number
    with them. *)
Record replaying (acked : list Entry) (x : engine * nat) : Prop := {
  rp_mem : snd x = l_mem (fst x);
  rp_inv : exists G hist mrun, inv G hist acked mrun [] (fst x);
  rp_log : l_log (fst x) = newLocalConsensus;
  rp_seq e : e ∈ acked -> Seq e <= l_seq (fst x);
  rp_last : 0 <= l_seq (fst x) /\ (l_seq (fst x) = 0 \/ exists e, e ∈ acked /\ Seq e = l_seq (fst x))
}.

Lemma upsert_all_some batch : forall es, batch <> [] -> upsert_all batch es <> [].
Proof.
  assert (Hne : forall b es, es <> [] -> upsert_all b es <> []).
  { induction b as [|x b IH]; intros es Hes; [done|]. cbn [upsert_all fold_left]. apply IH. intros E. pose proof (upsert_self x es) as Hin. rewrite E in Hin. by apply elem_of_nil in Hin. }
  intros es. destruct batch as [|x b]; [done|]. intros _. cbn [upsert_all fold_left]. apply Hne. intros E. pose proof (upsert_self x es) as Hin. rewrite E in Hin. by apply elem_of_nil in Hin.
Qed.

Lemma replay_apply_spec G hist acked mrun (s : engine) batch reuse :
  inv G hist acked mrun [] s -> batch <> [] -> ascending batch acked -> (forall x, x ∈ batch -> 0 < Seq x /\ fits x) ->
  wpx (replay_apply baseFactory mtLimit reuse batch)
    (fun _ x => snd x = l_mem (fst x) /\ same_rest s (fst x) /\ exists G' hist' mrun', inv G' hist' (rev batch ++ acked) mrun' [] (fst x))
    (fun e x => flush_fails e /\ same_rest s (fst x) /\ stuck (rev batch ++ acked) (fst x) (snd x)) (s, l_mem s).
Proof.
  intros I Hne Ha Hb. destruct (ei_mem _ _ _ _ _ _ _ _ I) as (t & Et & Hr). destruct (law_ApplyBatchOwned t mrun batch Hr) as (t' & Ea & Hr').
  assert (I' := inv_batch batch G hist acked mrun [] s t' I Ha Hb Hr'). set (s1 := with_heap <[l_mem s := t']> s) in *.
  unfold replay_apply. apply wpx_get. cbn [snd].
  apply wpx_bind, wpx_on_engine. cbn [fst snd]. unfold wpx at 1, deref. rewrite Et. apply wpx_bind. unfold wpx at 1, lift. rewrite Ea.
  apply wpx_bind, wpx_on_engine. cbn [fst snd]. unfold wpx at 1, store_table, modify. fold s1.
  case_bool_decide; [|apply wpx_ret; split; [done|]; split; [done|by exists G, hist, (upsert_all batch mrun)]]. change (l_mem s) with (l_mem s1).
  eapply wpx_mono; [apply (replay_flush_spec _ _ _ _ s1 reuse I')|..]; cbv beta; [by apply upsert_all_some| |done].
  intros _ x (E & Hs & G' & Hi). split; [done|]. split; [done|]. eauto.
Qed.

Abbreviation bump := (fun seq => on_engine (T := T) (H := H) (M := M) (W := W) (observeCommittedSeq seq)).

Lemma bump_spec batch : forall (s : engine) mem, (forall x, x ∈ batch -> 0 < Seq x) ->
  wpe (bump_all bump batch)
    (fun _ x => exists n, x = (with_seq n s, mem) /\ l_seq s <= n /\ (forall e, e ∈ batch -> Seq e <= n) /\ (n = l_seq s \/ exists e, e ∈ batch /\ Seq e = n))
    (fun _ => False) (s, mem).
Proof.
  induction batch as [|b batch IH]; intros s mem Hpos; cbn [bump_all].
  - apply wpe_ret. exists (l_seq s). split; [by destruct s|]. split; [done|]. split; [by intros e ?%elem_of_nil|by left].
  - apply wpe_bind. unfold wpe at 1, on_engine, observeCommittedSeq, modify. cbn [fst snd]. specialize (Hpos b ltac:(by left)) as Hb.
    rewrite bool_decide_false by lia. assert (Hpos' : forall x, x ∈ batch -> 0 < Seq x) by (intros; apply Hpos; by right).
    case_bool_decide as Hle; (eapply wpe_mono; [apply IH, Hpos'| |done]); cbv beta; intros _ x (n & -> & H1' & H2' & H3'); exists n; (split; [by destruct s|]).
    + split; [done|]. split; [intros e [->|He]%elem_of_cons; [lia|auto]|]. destruct H3' as [?|(e & ? & ?)]; [by left|right; exists e; by split; [right|]].
    + cbn [with_seq l_seq] in *. split; [lia|]. split; [intros e [->|He]%elem_of_cons; [lia|auto]|]. right.
      destruct H3' as [->|(e & ? & ?)]; [exists b; by split; [left|]|exists e; by split; [right|]].
Qed.

(** After a failed flush: the writes of [acked] are in the log, and the files
    are in order. *)
Definition failed (acked : list Entry) (w : W) (x : engine * nat) : Prop := stuck acked (fst x) (snd x) /\ l_wal (fst x) = w.

Lemma cover_more hist acked newer :
  (forall x, x ∈ hist -> x ∈ acked) -> StronglySorted (fun x y => Seq y < Seq x) (newer ++ acked) ->
  (forall x, x ∈ acked -> has_version hist x \/ newer_than hist x) -> forall x, x ∈ newer ++ acked -> has_version hist x \/ newer_than hist x.
Proof.
  intros Hf Hs Hc x [Hx|Hx]%elem_of_app; [|auto]. right. intros y Hy. apply StronglySorted_app in Hs as (Hs & _ & _). apply Hs; auto.
Qed.

Lemma stuck_more acked newer (s : engine) mem :
  StronglySorted (fun x y => Seq y < Seq x) (newer ++ acked) -> stuck acked s mem -> stuck (newer ++ acked) s mem.
Proof.
  intros Hs (H1' & H2' & G & hist & [T1 T2 T3 T4 T5]). split; [done|]. split; [done|]. exists G, hist. split; try done.
  - intros x Hx. apply elem_of_app. right. auto.
  - by apply (cover_more hist acked).
Qed.

Lemma flushBatch_spec newer acked batch w x reuse :
  replaying acked x -> l_wal (fst x) = w -> StronglySorted (fun x y => Seq y < Seq x) (newer ++ rev batch ++ acked) ->
  (forall e, e ∈ batch -> 0 < Seq e /\ fits e) ->
  wpx (flushBatch (replay_apply baseFactory mtLimit reuse) bump batch)
    (fun _ x' => replaying (rev batch ++ acked) x' /\ l_wal (fst x') = w)
    (fun e x' => flush_fails e /\ failed (newer ++ rev batch ++ acked) w x') x.
Proof.
  intros Hr Ew Hs Hb. destruct batch as [|b batch]; [by apply wpx_ret|]. destruct Hr as [Em (G & hist & mrun & I) Hlog Hseq Hlast].
  destruct x as [s mem]. cbn [fst snd] in *. subst mem. unfold flushBatch. set (bb := b :: batch) in *. apply wpx_bind.
  assert (Hs' : ascending bb acked) by (by apply StronglySorted_app in Hs as (_ & _ & Hs)).
  eapply wpx_mono; [by apply (replay_apply_spec G hist acked mrun s bb reuse I)| |]; cbv beta.
  - intros _ [s1 mem1] (E1 & (W1 & W2 & W3 & W4) & G' & hist' & mrun' & I'). cbn [fst snd] in *. apply wpx_safe.
    eapply wpe_mono; [apply bump_spec; intros e He; by apply Hb| |done]; cbv beta. intros _ x' (n & -> & Hle & Hall & Hn). cbn [fst snd].
    rewrite W2 in *. split; [|by cbn; rewrite W1]. split; cbn [fst snd with_seq l_seq l_mem l_log].
    + done.
    + exists G', hist', mrun'. by apply inv_seq.
    + congruence.
    + intros e [He|He]%elem_of_app; [by apply Hall, elem_of_rev|]. specialize (Hseq e He). lia.
    + split; [lia|]. destruct Hn as [->|(e & He & En)]; [destruct (proj2 Hlast) as [?|(e & He & Ee)]; [by left|right; exists e; rewrite elem_of_app; auto]|].
      right. exists e. split; [|done]. apply elem_of_app. left. by apply elem_of_rev.
  - intros e [s1 mem1] (Hff & (W1 & _) & Hst). cbn [fst snd] in *. split; [done|]. split; [by apply stuck_more|cbn; by rewrite W1].
Qed.

(** Once stuck, applying the batch again changes nothing on disk. *)
Lemma flushBatch_stuck acked batch w x reuse :
  failed acked w x -> (forall e, e ∈ batch -> 0 < Seq e) ->
  wpe (flushBatch (replay_apply baseFactory mtLimit reuse) bump batch) (fun _ x' => failed acked w x') (fun _ => False) x.
Proof.
  intros Hf Hb. destruct batch as [|b batch]; [by apply wpe_ret|]. destruct Hf as [(Hne & (t & es & Et & Hr) & Ht) Ew]. destruct x as [s mem]. cbn [fst snd] in *.
  unfold flushBatch. set (bb := b :: batch) in *. apply wpe_bind. destruct (law_ApplyBatchOwned t es bb Hr) as (t' & Ea & Hr').
  assert (Hap : replay_apply baseFactory mtLimit reuse bb (s, mem) = (Ok tt, (with_heap <[mem := t']> s, mem))).
  { unfold replay_apply, mbind, SE_bind, get, on_engine, deref, lift, store_table, modify. cbn [fst snd]. rewrite Et, Ea. cbn [fst snd].
    case_bool_decide; [|done]. unfold freezeMemtableIfCurrent, mbind, SE_bind, get. cbn [with_heap l_mem fst snd]. by rewrite bool_decide_true. }
  unfold wpe at 1. rewrite Hap. eapply wpe_mono; [by apply bump_spec| |done]; cbv beta. intros _ x' (n & -> & _).
  split; [|done]. split; [done|]. split; [|done]. exists t', (upsert_all bb es). cbn. by rewrite lookup_insert_eq.
Qed.

Lemma replay_skip batchSize checkpoint old views batch reuse :
  (forall e, e ∈ old -> Seq e <= checkpoint) ->
  replay_entries (replay_apply baseFactory mtLimit reuse) bump batchSize checkpoint (old ++ views) batch =
  replay_entries (replay_apply baseFactory mtLimit reuse) bump batchSize checkpoint views batch.
Proof.
  induction old as [|e old IH]; intros Ho; [done|]. cbn [app replay_entries]. rewrite bool_decide_true by (apply Ho; by left).
  apply IH. intros. apply Ho. by right.
Qed.

(** The outcome of the callbacks over the entries: what is applied and what
    is left in the batch, or a failed flush. *)
Definition replayed (full : list Entry) (w : W) (r : list Entry * option error) (x : engine * nat) : Prop :=
  (forall e, e ∈ fst r -> 0 < Seq e /\ fits e) /\
  match snd r with
  | None => exists acked, replaying acked x /\ l_wal (fst x) = w /\ full = rev (fst r) ++ acked
  | Some e => flush_fails e /\ failed full w x
  end.

Lemma replay_entries_spec full w batchSize checkpoint reuse todo : forall acked batch x,
  StronglySorted (fun x y => Seq y < Seq x) full -> full = rev (batch ++ todo) ++ acked ->
  (forall e, e ∈ batch ++ todo -> 0 < Seq e /\ fits e) -> (forall e, e ∈ todo -> checkpoint < Seq e) ->
  replaying acked x -> l_wal (fst x) = w ->
  wpx (replay_entries (replay_apply baseFactory mtLimit reuse) bump batchSize checkpoint todo batch) (replayed full w) (fun _ _ => False) x.
Proof.
  induction todo as [|v todo IH]; intros acked batch x Hs Ef Hp Hc Hr Ew; cbn [replay_entries].
  - apply wpx_ret. rewrite app_nil_r in *. split; [done|]. by exists acked.
  - rewrite bool_decide_false by (specialize (Hc v ltac:(by left)); lia).
    assert (Ef' : full = rev ((batch ++ [v]) ++ todo) ++ acked) by (by rewrite <- app_assoc).
    assert (Hp' : forall e, e ∈ (batch ++ [v]) ++ todo -> 0 < Seq e /\ fits e) by (by rewrite <- app_assoc).
    assert (Hc' : forall e, e ∈ todo -> checkpoint < Seq e) by (intros; apply Hc; by right).
    assert (Hb : forall e, e ∈ batch ++ [v] -> 0 < Seq e /\ fits e) by (intros; apply Hp', elem_of_app; by left).
    case_bool_decide; [|by apply (IH acked)]. rewrite rev_app_distr, <- app_assoc in Ef'. apply wpx_bind, wpx_catch.
    eapply wpx_mono; [by apply (flushBatch_spec (rev todo) acked (batch ++ [v]) w); rewrite <- ?Ef'| |]; cbv beta.
    + intros _ x' [Hr' Ew']. apply (IH (rev (batch ++ [v]) ++ acked)); try done. intros e He. apply Hp', elem_of_app. by right.
    + intros e x' [Hff Hfl]. apply wpx_ret. rewrite <- Ef' in Hfl. by split.
Qed.

Lemma ReplayWAL_spec fresh base w checkpoint reuse x :
  StronglySorted (fun x y => Seq y < Seq x) (fresh ++ base) -> (forall e, e ∈ base -> Seq e <= checkpoint) -> (forall e, e ∈ fresh -> checkpoint < Seq e) ->
  (forall e, e ∈ fresh -> 0 < Seq e /\ fits e) -> replaying base x -> l_wal (fst x) = w ->
  wpx (ReplayWAL (replay_apply baseFactory mtLimit reuse) bump replayBatchSize checkpoint (rev (fresh ++ base)) None)
    (fun _ x' => replaying (fresh ++ base) x' /\ l_wal (fst x') = w) (fun e x' => flush_fails e /\ failed (fresh ++ base) w x') x.
Proof.
  intros Hs Hb Hf Hp Hr Ew. unfold ReplayWAL. rewrite rev_app_distr, replay_skip by (intros e He; by apply Hb, elem_of_rev). apply wpx_bind.
  eapply wpx_mono; [apply (replay_entries_spec (fresh ++ base) w _ _ reuse (rev fresh) base []); try done|cbv beta|done].
  - cbn [app]. by rewrite rev_involutive.
  - intros e He. by apply Hp, elem_of_rev.
  - intros e He. by apply Hf, elem_of_rev.
  - intros [batch [e|]] x' [Hbp Hrest]; cbn [fst snd] in *.
    + destruct Hrest as [Hff Hfl]. apply wpx_bind, wpx_safe. eapply wpe_mono; [apply (flushBatch_stuck _ _ _ _ _ Hfl); intros; by apply Hbp| |done]; cbv beta.
      by intros _ x'' Hfl'.
    + destruct Hrest as (acked & Hr' & Ew' & Ef). apply wpx_bind. rewrite Ef in *.
      eapply wpx_mono; [by apply (flushBatch_spec [] acked batch w)|cbv beta|done]. by intros _ x'' Hr''.
Qed.

(** ** The start *)

(** What a start needs of the files and the log. *)
Record recoverable (n : Z) (acked : list Entry) (w : W) (m : M) : Prop := {
  rc_sorted : StronglySorted (fun x y => Seq y < Seq x) acked;
  rc_fits : Forall fits acked;
  rc_positive x : x ∈ acked -> 0 < Seq x <= n;
  rc_log : log_is w (rev acked);
  rc_files : startable acked m
}.

Lemma descending_split (c : Z) l : StronglySorted (fun x y => Seq y < Seq x) l -> l = filter (fun x => c < Seq x) l ++ filter (fun x => Seq x <= c) l.
Proof.
  induction 1 as [|x l Hs IH Hx]; [done|]. rewrite !filter_cons. destruct (decide (c < Seq x)) as [Hc|Hc].
  - rewrite decide_False by lia. cbn [app]. by f_equal.
  - rewrite decide_True by lia. rewrite Forall_forall in Hx.
    assert (E : filter (fun y => c < Seq y) l = []).
    { apply list_filter_none. intros y Hy. specialize (Hx y Hy). lia. }
    rewrite E in *. cbn [app] in *. by f_equal.
Qed.

(** The engine before the replay: the tables and an empty memtable stand for
    the writes up to the checkpoint. *)
Lemma loaded_inv n acked w m0 G hist ts m c :
  recoverable n acked w m0 -> tidy G hist acked (mkLsm (NewSet ts) [] m None) -> c = WALSeq (stored m) ->
  replaying (filter (fun x => Seq x <= c) acked)
    (with_seq c (with_tree (mkLsm (NewSet ts) [] m None) (new_engine baseFactory w m0)), 0%nat).
Proof.
  intros [R1 R2 R3 R4 R5] [T1 T2 T3 T4 T5] ->. set (c := WALSeq (stored m)). pose proof T2 as [_ _ D3 D4 D5]. cbn [lsm_store] in *. fold c in D3, D4, D5.
  assert (Hin : forall x, x ∈ filter (fun x => Seq x <= c) acked <-> Seq x <= c /\ x ∈ acked) by (intros; by rewrite list_elem_of_filter).
  assert (Hc : c = 0 \/ exists e, e ∈ hist /\ Seq e = c) by (destruct hist; [left; by apply D5|right; by apply D4]).
  split; cbn [fst snd with_seq with_tree new_engine l_mem l_running l_seq].
  - done.
  - exists G, hist, []. split; cbn [with_seq with_tree new_engine l_wal l_heap l_pool l_mem l_immutables l_flushQueue l_pinned l_queue l_waiting l_flushBlocked l_running l_log l_tree]; try done.
    + exists baseFactory. split; [apply lookup_singleton_eq|done].
    + apply NoDup_singleton.
    + by left.
    + repeat constructor. by intros x y _ ?%elem_of_nil.
    + intros x Hx. apply Hin. split; [by apply D3|by apply T4].
    + intros x [Hle Hx]%Hin. left. destruct (T5 x Hx) as [?|Hn]; [done|]. exfalso. destruct Hc as [E|(e & He & Ee)].
      * specialize (R3 x Hx). lia.
      * specialize (Hn e He). lia.
    + clear -R1. induction R1 as [|x l _ IH Hx]; [constructor|]. rewrite filter_cons. case_decide; [|done]. constructor; [done|].
      apply Forall_forall. intros y [_ Hy]%list_elem_of_filter. rewrite Forall_forall in Hx. auto.
    + apply Forall_forall. intros x [_ Hx]%Hin. rewrite Forall_forall in R2. auto.
    + intros x [_ Hx]%Hin. apply R3, Hx.
  - done.
  - intros e [He _]%Hin. done.
  - destruct Hc as [->|(e & He & <-)]; [split; [done|by left]|]. assert (Hp := R3 e (T4 e He)). split; [lia|]. right. exists e.
    split; [|done]. apply Hin. split; [|auto]. by apply D3.
Qed.

Lemma replayWAL_spec n acked w m0 (s : engine) reuse c :
  recoverable n acked w m0 -> replaying (filter (fun x => Seq x <= c) acked) (s, l_mem s) -> l_wal s = w ->
  wpx (replayWAL baseFactory mtLimit replayBatchSize autoRepair missingIgnore reuse c)
    (fun _ s' => exists mem, replaying acked (s', mem) /\ log_is (l_wal s') (rev acked))
    (fun e s' => flush_fails e /\ recoverable n acked (l_wal s') (lsm_store (l_tree s'))) s.
Proof.
  intros R Hr Ew. pose proof R as [R1 R2 R3 R4 R5]. destruct (llaw_Replay w _ R4) as (w' & Er & Hl). unfold wpx, replayWAL. rewrite Ew, Er.
  pose proof (ReplayWAL_spec (filter (fun x => c < Seq x) acked) (filter (fun x => Seq x <= c) acked) w' c reuse (with_wal w' s, l_mem s)) as Hw.
  rewrite <- descending_split in Hw by done. unfold wpx in Hw. change (l_mem (with_wal w' s)) with (l_mem s).
  destruct (ReplayWAL _ _ _ _ _ _ _) as [r [s' mem]].
  assert (Hw' : match r with Ok _ => replaying acked (s', mem) /\ l_wal s' = w' | Err e => flush_fails e /\ failed acked w' (s', mem) | _ => False end).
  { apply Hw; clear Hw.
    - done.
    - by intros e [? _]%list_elem_of_filter.
    - by intros e [? _]%list_elem_of_filter.
    - intros e [_ He]%list_elem_of_filter. rewrite Forall_forall in R2. split; [by apply R3|auto].
    - destruct Hr as [E1 (G & hist & mrun & I) E3 E4 E5]. split; try done. exists G, hist, mrun. by apply inv_wal.
    - done. }
  clear Hw. destruct r as [u|e| |]; try done.
  - destruct Hw' as [Hrp <-]. by exists mem.
  - destruct Hw' as [Hff [(_ & _ & G & hist & Ht) E]]. cbn [fst] in *.
    assert (Hrec : recoverable n acked (l_wal s') (lsm_store (l_tree s'))) by (split; try done; [by rewrite E|left; by exists G, hist, (l_tree s')]).
    pose proof Hff as (es & m1 & m2 & Ef). destruct (blaw_errors _ _ _ _ Ef) as [Hn1 Hn2]. by destruct e.
Qed.

(** An engine that has its writes back, before the dispatcher runs: the last
    one has the sequence number of the engine. *)
Record recovering (acked : list Entry) (s : engine) : Prop := {
  rv_inv : exists G hist mrun, eng_inv durable log_is G hist acked mrun [] s;
  rv_seq e : e ∈ acked -> Seq e <= l_seq s;
  rv_last : 0 <= l_seq s /\ (l_seq s = 0 \/ exists e, e ∈ acked /\ Seq e = l_seq s)
}.

Lemma New_recovers n acked w m reuse :
  recoverable n acked w m ->
  let '(r, s) := New baseFactory mtLimit replayBatchSize autoRepair missingIgnore dropCorrupt reuse w m in
  match r with
  | Ok _ => recovering acked s /\ l_log s = mkLocal (l_seq s) 1
  | Err e => flush_fails e /\ recoverable n acked (l_wal s) (lsm_store (l_tree s))
  | _ => False
  end.
Proof.
  intros R. unfold New. set (prog := mbind _ _).
  assert (Hw : wpx prog (fun _ s => recovering acked s /\ l_log s = mkLocal (l_seq s) 1)
    (fun e s => flush_fails e /\ recoverable n acked (l_wal s) (lsm_store (l_tree s))) (new_engine baseFactory w m)).
  { apply wpx_bind, wpx_on_tables, wpx_safe, wpe_on_storage. eapply wpe_mono; [apply (Load_spec dropCorrupt acked), (rc_files _ _ _ _ R)|cbv beta|done].
    intros [mf ts] m' (Ec & G & hist & Ht). cbn [fst snd] in *. apply wpx_bind.
    set (s1 := with_tree (mkLsm (NewSet ts) [] m' None) (new_engine baseFactory w m)).
    enough (Hrest : wpx (_ ← modify (with_seq (WALSeq mf)); _ ← replayWAL baseFactory mtLimit replayBatchSize autoRepair missingIgnore reuse (WALSeq mf);
        modify (fun s => with_log (ObserveCommittedIndex (l_log s) (l_seq s)) s))
      (fun _ s => recovering acked s /\ l_log s = mkLocal (l_seq s) 1) (fun e s => flush_fails e /\ recoverable n acked (l_wal s) (lsm_store (l_tree s))) s1)
      by (destruct ts; exact Hrest).
    apply wpx_bind. unfold wpx at 1, modify. apply wpx_bind.
    eapply wpx_mono; [apply (replayWAL_spec n acked w m _ reuse (WALSeq mf) R); [by eapply loaded_inv|done]|cbv beta|done].
    intros _ s2 (mem & [_ (G' & hist' & mrun & I) Hlog Hseq [H0' Hlast]] & Hl). cbn [fst snd] in *.
    unfold wpx, modify. cbn [with_log l_log l_seq]. rewrite Hlog. unfold ObserveCommittedIndex. cbn [newLocalConsensus lc_index lc_term].
    split; [split; [exists G', hist', mrun; by destruct I|done|done]|].
    case_bool_decide; [done|]. by assert (l_seq s2 = 0) as -> by lia. }
  unfold wpx in Hw. by destruct (prog _) as [[u|e| |] s].
Qed.

Lemma New_spec n acked w m reuse :
  recoverable n acked w m -> 0 <= n ->
  let '(r, s) := New baseFactory mtLimit replayBatchSize autoRepair missingIgnore dropCorrupt reuse w m in
  match r with
  | Ok _ => some_inv durable log_is acked s /\ lc_index (l_log s) <= n
  | Err e => flush_fails e /\ recoverable n acked (l_wal s) (lsm_store (l_tree s))
  | _ => False
  end.
Proof.
  intros R Hn. pose proof (New_recovers n acked w m reuse R) as Hr. destruct (New _ _ _ _ _ _ _ w m) as [[u|e| |] s]; try done.
  destruct Hr as [[(G & hist & mrun & I) Hseq [H0' Hlast]] Hlog]. split; [|rewrite Hlog; cbn [lc_index]].
  - split; [unfold log_ok; by rewrite Hlog|by exists G, hist, mrun, []].
  - destruct Hlast as [->|(e & He & <-)]; [done|by apply (rc_positive _ _ _ _ R)].
Qed.

(** An entry of the commit log behind the recovered writes. *)
Lemma freeze_flush_spec G hist acked mrun (s : engine) reuse :
  inv G hist acked mrun [] s -> mrun <> [] ->
  wpx (frozen ← freezeMemtableIfCurrent baseFactory (l_mem s) reuse; match frozen with Some id => flushMemtableForReplay id | None => mret tt end)
    (fun _ s' => same_rest s s' /\ exists G', inv G' (mrun ++ hist) acked [] [] s') (fun e s' => same_rest s s' /\ exists mem, stuck acked s' mem) s.
Proof.
  intros I Hne. pose proof (replay_flush_spec G hist acked mrun s reuse I Hne) as Hr. unfold wpx in Hr |- *. unfold mbind, SE_bind, on_engine in *. cbn [fst snd] in *.
  destruct (freezeMemtableIfCurrent baseFactory (l_mem s) reuse s) as [[[id|]|e| |] s1]; cbn [fst snd] in *; [|by destruct Hr as (_ & ? & ?)|by destruct Hr as (_ & ? & ?); eauto|done|done].
  destruct (flushMemtableForReplay id s1) as [[u|e| |] s2]; cbn in Hr; [by destruct Hr as (_ & ? & ?)|by destruct Hr as (_ & ? & ?); eauto|done|done].
Qed.

(** The entry of the engine for a committed mutation. *)
Definition entry_of (c : DataCommittedEntry) : Entry :=
  let m := dc_Mutation c in
  mkEntry (dm_Key m) (dm_Value m) (bool_decide (dm_Kind m = "delete"%string)) (dc_Seq c).

Lemma recovering_files n acked s : recovering acked s -> (forall x, x ∈ acked -> Seq x <= n) -> recoverable n acked (l_wal s) (lsm_store (l_tree s)).
Proof.
  intros [(G & hist & mrun & I) _ _] Hn. split; try apply I; [intros x Hx; split; [by apply (ei_positive _ _ _ _ _ _ _ _ I)|auto]|].
  left. exists G, hist, (l_tree s). split; [|done]. split; try apply I.
  - intros x Hx. apply (ei_from _ _ _ _ _ _ _ _ I). rewrite !elem_of_app. auto.
  - intros x Hx. destruct (ei_era _ _ _ _ _ _ _ _ I x Hx) as [?|[? _]]; auto.
Qed.

Lemma recoverCommittedData_spec n acked (s : engine) c reuse :
  recovering acked s -> (forall x, x ∈ acked -> Seq x < dc_Seq c) -> fits (entry_of c) -> 0 < dc_Seq c <= n ->
  wpx (recoverCommittedData baseFactory mtLimit c reuse) (fun _ s' => recovering (entry_of c :: acked) s')
    (fun _ s' => recoverable n acked (l_wal s') (lsm_store (l_tree s')) \/ recoverable n (entry_of c :: acked) (l_wal s') (lsm_store (l_tree s'))) s.
Proof.
  intros R Hnew Hfit Hn. assert (Hbase0 : recoverable n acked (l_wal s) (lsm_store (l_tree s))) by (apply recovering_files; [done|intros x Hx; specialize (Hnew x Hx); lia]).
  unfold recoverCommittedData. case_bool_decide; [by left|]. case_bool_decide; [by left|]. fold (entry_of c). set (e := entry_of c) in *. apply wpx_get. cbv zeta.
  destruct R as [(G & hist & mrun & I) Hseq [H0' Hlast]]. destruct (ei_mem _ _ _ _ _ _ _ _ I) as (t & Et & Hr).
  apply wpx_bind. unfold wpx at 1, on_wal. pose proof (llaw_Append e (l_wal s) (rev acked) (ei_wal _ _ _ _ _ _ _ _ I)) as Hw. unfold wpe in Hw.
  destruct (wal_AppendOwned e (l_wal s)) as [[u|err| |] w]; try done.
  2:{ left. destruct Hbase0 as [R1 R2 R3 R4 R5]. by split. }
  apply wpx_bind. unfold wpx at 1, deref. cbn [with_wal l_heap]. rewrite Et. apply wpx_bind. destruct (law_ApplyOwned t mrun e Hr) as (t' & Ea & Hr').
  unfold wpx at 1, lift. rewrite Ea. apply wpx_bind. unfold wpx at 1, store_table, modify. apply wpx_bind. unfold wpx at 1, observeCommittedSeq, modify.
  change (Seq e) with (dc_Seq c). rewrite (bool_decide_false (dc_Seq c = 0)) by lia. cbn [with_heap with_wal l_seq].
  rewrite (bool_decide_false (dc_Seq c <= _)) by (destruct Hlast as [->|(x & Hx & <-)]; [lia|specialize (Hnew x Hx); lia]).
  set (s1 := with_seq (dc_Seq c) (with_heap <[l_mem s := t']> (with_wal w s))).
  assert (I1 : eng_inv durable log_is G hist (e :: acked) (upsert e mrun) [] s1) by (apply inv_seq, inv_apply; [done..|cbn; lia|done|done]).
  assert (Hafter : forall s2 G' hist' mrun', inv G' hist' (e :: acked) mrun' [] s2 -> same_rest s1 s2 -> recovering (e :: acked) s2).
  { intros s2 G' hist' mrun' I2 (E1 & E2 & _). split; [exists G', hist', mrun'; destruct I2; split; try done; by rewrite E1|rewrite E2; intros x [->|Hx]%elem_of_cons; [done|specialize (Hnew x Hx); cbn; lia]|].
    rewrite E2. cbn. split; [lia|]. right. exists e. by split; [left|]. }
  assert (I1' : inv G hist (e :: acked) (upsert e mrun) [] s1) by (destruct I1; by split).
  case_bool_decide; [|apply wpx_ret; by apply (Hafter s1 G hist (upsert e mrun))]. change (l_mem s) with (l_mem s1).
  eapply wpx_mono; [apply (freeze_flush_spec _ _ _ _ s1 reuse I1')|..].
  - intros E. pose proof (upsert_self e mrun) as Hin. rewrite E in Hin. by apply elem_of_nil in Hin.
  - intros _ s2 [Hs (G' & I2)]. by eapply Hafter.
  - intros err s2 [(E1 & _) (mem & _ & _ & G' & hist' & Ht)]. right. destruct Hbase0 as [R1 R2 R3 R4 R5]. split; [by apply I1|by apply I1| |rewrite E1; apply I1|left; by exists G', hist', (l_tree s2)].
    intros x [->|Hx]%elem_of_cons; [cbn; lia|auto].
Qed.
End Replay.

(** ** Nodes *)

Section Nodes.
Context {T H M W : Type} `{MemTableLaws T} `{BL : BootLaws H M} `{DL : DurableLog W}.
Context (baseFactory : T) (mtLimit FlushQueueSize : Z) (allowWrite : bytes -> result unit) (planner : StrictLevelledPlanner) (fuel : nat).
Context (replayBatchSize : Z) (autoRepair missingIgnore dropCorrupt : bool).

Abbreviation engine := (LSM (T := T) (H := H) (M := M) (W := W)).

(** A running engine, or the log and the files that one left. *)
Inductive node := Up (s : engine) | Down (w : W) (m : M).

(** An operation of the engine, a crash (possibly after the dispatcher has
    written a table and before the manifest has it), and a start. *)
Inductive node_op := NodeOp (op : eng_op) | Crash (flushing : bool) | Start (reuse : bool).

Definition crash_store (s : engine) (flushing : bool) : M :=
  match l_queue s with
  | es :: _ => if flushing && l_running s then snd (flusher_Flush es (lsm_store (l_tree s))) else lsm_store (l_tree s)
  | [] => lsm_store (l_tree s)
  end.

Definition node_step (nd : node) (op : node_op) : result (list Entry) * node :=
  match nd, op with
  | Up s, NodeOp op => let '(r, s) := eng_step baseFactory mtLimit FlushQueueSize allowWrite planner fuel op s in (r, Up s)
  | Up s, Crash flushing => (Ok [], Down (l_wal s) (crash_store s flushing))
  | Down w m, Start reuse =>
      let '(r, s) := New baseFactory mtLimit replayBatchSize autoRepair missingIgnore dropCorrupt reuse w m in
      ((fun _ => []) <$> r, match r with Ok _ => Up s | _ => Down (l_wal s) (lsm_store (l_tree s)) end)
  | _, _ => (Ok [], nd)
  end.

Fixpoint node_run (acked : list Entry) (nd : node) (ops : list node_op) : list (result (list Entry)) * list Entry * node :=
  match ops with
  | [] => ([], acked, nd)
  | op :: ops =>
      let '(r, nd) := node_step nd op in
      let '(rs, acked, nd) := node_run (flushed_by r ++ acked) nd ops in
      (r :: rs, acked, nd)
  end.

(** A start fails only if a flush does. *)
Definition outcome_ok (op : node_op) (r : result (list Entry)) : Prop :=
  match r with Ok _ => True | Err e => match op with Start _ => flush_fails (M := M) e | _ => True end | _ => False end.

(** ** Crashes *)

Lemma era_cover G hist acked mrun iruns (s : engine) TP LP :
  eng_inv TP LP G hist acked mrun iruns s -> TP = durable -> tidy G hist acked (l_tree s).
Proof.
  intros I ->. split; try apply I.
  - intros x Hx. apply (ei_from _ _ _ _ _ _ _ _ I). rewrite !elem_of_app. auto.
  - intros x Hx. destruct (ei_era _ _ _ _ _ _ _ _ I x Hx) as [?|[? _]]; auto.
Qed.

Lemma tidy_store G hist acked st m :
  tidy G hist acked st -> stored m = stored (lsm_store st) -> (forall p, p ∈ names (lsm_store st) -> opened m p = opened (lsm_store st) p) ->
  names (lsm_store st) ⊆ names m -> hist <> [] \/ (forall p, opened m p = opened (lsm_store st) p) ->
  tidy G hist acked (mkLsm (lsm_set st) (lsm_open st) m (lsm_flight st)).
Proof.
  destruct st as [set open store res]. intros [I D T3 T4 T5] Es Eo Hn Hne. cbn [lsm_set lsm_open lsm_store lsm_flight] in *.
  pose proof (fun t => set_names _ _ _ t I) as Hsn. pose proof (fun r o => flight_names _ _ _ r o I) as Hfn. destruct D as [[Dm Df] D2 D3 D4 D5].
  cbn [lsm_set lsm_open lsm_store lsm_flight] in *. split; try done; [by eapply names_keep|].
  split; cbn [lsm_set lsm_open lsm_store lsm_flight]; unfold on_disk; rewrite ?Es; try done.
  - split; [done|]. intros t Ht. rewrite Eo; auto.
  - intros r o Er Ho. rewrite Eo; [eauto|]. by apply (Hfn r).
  - intros E. destruct (D5 E) as [? Hno]. split; [done|]. destruct Hne as [?|Hne]; [done|]. intros p. by rewrite Hne.
Qed.

Lemma crash_spec acked (s : engine) flushing :
  some_inv durable log_is acked s -> recoverable (lc_index (l_log s)) acked (l_wal s) (crash_store s flushing).
Proof.
  intros [[Hidx _] (G & hist & mrun & iruns & I)]. pose proof (era_cover _ _ _ _ _ _ _ _ I eq_refl) as Ht.
  split; [apply I|apply I|intros x Hx; split; [by apply (ei_positive _ _ _ _ _ _ _ _ I)|auto]|apply I|].
  assert (Hsame : startable acked (lsm_store (l_tree s))) by (left; by exists G, hist, (l_tree s)).
  unfold crash_store. destruct (l_queue s) as [|es rest] eqn:Eq; [done|]. destruct flushing; [|done]. destruct (l_running s) eqn:Er; [|done]. cbn [andb].
  pose proof (ei_queue _ _ _ _ _ _ _ _ I Er) as Eir. rewrite Eq in Eir. cbn [app] in Eir.
  assert (Hes : forall x, x ∈ es -> x ∈ acked) by (intros x Hx; apply (ei_from _ _ _ _ _ _ _ _ I); rewrite <- Eir; cbn [concat]; rewrite !elem_of_app; auto).
  pose proof (ei_immutables _ _ _ _ _ _ _ _ I) as Him. rewrite <- Eir in Him. apply Forall2_cons_inv_r in Him as (id & ids & [(t0 & _ & Hr0) Hne] & _ & _).
  assert (Hfit : Forall fits es) by (apply Forall_forall; intros x Hx; pose proof (ei_fits _ _ _ _ _ _ _ _ I) as Hfit; rewrite Forall_forall in Hfit; auto).
  pose proof (wpe_and _ _ _ _ _ _ (law_Flush es (lsm_store (l_tree s)) (law_sorted _ _ Hr0) Hne Hfit) (dlaw_Flush es _ (law_sorted _ _ Hr0) Hne Hfit)) as Hw.
  unfold wpe in Hw. destruct (flusher_Flush es (lsm_store (l_tree s))) as [[t|e| |] m']; try done; cbn [snd].
  - destruct Hw as [(Hh & Hfr & Hn) (Es & Et & Eo)]. destruct hist as [|h0 hist].
    + right. exists t, es. split; [done|]. split; [done|]. pose proof (td_durable _ _ _ _ Ht) as [[Dm _] _ _ _ D5].
      split; [|split; [|split]].
      * rewrite Es. rewrite (no_tables _ _ _ (td_inv _ _ _ _ Ht) eq_refl) in Dm. by apply Permutation_nil_r in Dm.
      * intros p. case_bool_decide as E; [by rewrite E|]. rewrite Eo by done. by apply D5.
      * intros x Hx. split; [auto|]. by apply (ei_positive _ _ _ _ _ _ _ _ I), Hes.
      * intros x Hx. pose proof (ei_era _ _ _ _ _ _ _ _ I x Hx) as He. rewrite <- Eir in He. cbn [app era] in He.
        destruct He as [(y & Hy & _)|[_ [?|[? _]]]]; [by apply elem_of_nil in Hy|by left|by right].
    + left. exists G, (h0 :: hist), (mkLsm (lsm_set (l_tree s)) (lsm_open (l_tree s)) m' (lsm_flight (l_tree s))). split; [|done].
      apply tidy_store; [done|done| |set_solver|by left]. intros p Hp. apply Eo. by intros ->.
  - destruct Hw as [Hn [Es Eo]]. left. exists G, hist, (mkLsm (lsm_set (l_tree s)) (lsm_open (l_tree s)) m' (lsm_flight (l_tree s))). split; [|done].
    apply tidy_store; auto.
Qed.

(** ** Runs *)

Definition node_inv (n : Z) (acked : list Entry) (nd : node) : Prop :=
  match nd with
  | Up s => some_inv durable log_is acked s /\ lc_index (l_log s) <= n
  | Down w m => recoverable n acked w m
  end.

Context (Hbase : mt_rep baseFactory []) (Hlimit : 0 < mtLimit).
Context (Hallow : forall k, allowWrite k = Ok tt \/ exists err, allowWrite k = Err err).
Context (Hfits : forall (w : W) k v t n, wal_ValidateEntry w (mkEntry k v t 0) = Ok tt -> fits (mkEntry k v t n)).

Lemma recoverable_mono n n' acked w m : recoverable n acked w m -> n <= n' -> recoverable n' acked w m.
Proof. intros [R1 R2 R3 R4 R5] Hn. split; try done. intros x Hx. specialize (R3 x Hx). lia. Qed.

Lemma node_step_ok n acked nd op :
  node_inv n acked nd -> 0 <= n -> n + 1 < 2 ^ 64 -> (length acked < fuel)%nat ->
  let '(r, nd') := node_step nd op in outcome_ok op r /\ node_inv (n + 1) (flushed_by r ++ acked) nd' /\ (length (flushed_by r) <= 1)%nat.
Proof.
  intros Hi Hn Hmax Hf. assert (Hid : node_inv (n + 1) acked nd).
  { destruct nd as [s|w m]; cbn in *; [destruct Hi; split; [done|lia]|]. eapply recoverable_mono; [done|lia]. }
  destruct nd as [s|w m], op as [op|flushing|reuse]; cbn [node_step]; try (split; [done|]; split; [exact Hid|cbn; lia]).
  - destruct Hi as [Hi Hle].
    pose proof (step_spec baseFactory mtLimit FlushQueueSize allowWrite planner fuel durable log_is Hbase Hlimit llaw_Append Hallow Hfits
      (durable_step planner fuel) acked s op Hi ltac:(lia) Hf) as Hs.
    pose proof (step_acks baseFactory mtLimit FlushQueueSize allowWrite planner fuel op s) as Ha. unfold wpe in Hs.
    destruct (eng_step _ _ _ _ _ _ op s) as [[es|e| |] s']; try done; destruct Hs as [Hs1 Hs2]; (split; [done|]); (split; [|done]); split; try done; lia.
  - destruct Hi as [Hi Hle]. split; [done|]. split; [|cbn; lia]. eapply recoverable_mono; [by apply crash_spec|lia].
  - pose proof (New_spec baseFactory mtLimit replayBatchSize autoRepair missingIgnore dropCorrupt Hbase n acked w m reuse Hi Hn) as Hs.
    destruct (New _ _ _ _ _ _ _ w m) as [[u|e| |] s']; try done; cbn [fmap result_fmap flushed_by app length].
    + destruct Hs as [Hs1 Hs2]. split; [done|]. split; [|lia]. split; [done|lia].
    + destruct Hs as [Hs1 Hs2]. split; [done|]. split; [|lia]. eapply recoverable_mono; [done|lia].
Qed.

Lemma node_run_ok ops : forall n acked nd,
  node_inv n acked nd -> 0 <= n -> n + Z.of_nat (length ops) < 2 ^ 64 -> (length acked + length ops < fuel)%nat ->
  let '(rs, acked', nd') := node_run acked nd ops in Forall2 outcome_ok ops rs /\ exists n', node_inv n' acked' nd'.
Proof.
  induction ops as [|op ops IH]; intros n acked nd Hi Hn Hmax Hf; cbn [node_run length] in *; [eauto|].
  pose proof (node_step_ok n acked nd op Hi Hn ltac:(lia) ltac:(lia)) as Hs. destruct (node_step nd op) as [r nd1]. destruct Hs as (Ho & Hi1 & Hl).
  specialize (IH (n + 1) (flushed_by r ++ acked) nd1 Hi1 ltac:(lia) ltac:(lia)). rewrite length_app in IH. specialize (IH ltac:(lia)).
  destruct (node_run (flushed_by r ++ acked) nd1 ops) as [[rs acked'] nd2]. destruct IH as [H1' H2']. split; [by constructor|done].
Qed.

Lemma empty_recoverable wal store :
  log_is wal [] -> stored store = mkManifest 0 [] -> (forall p, opened store p = None) -> recoverable 0 [] wal store.
Proof.
  intros Hw Es Eo. split; [constructor|constructor|by intros x ?%elem_of_nil|done|]. left. exists ∅, [], (new_lsm store). split; [|done].
  split; [apply new_lsm_inv| |constructor|done|by intros x ?%elem_of_nil].
  split; cbn [new_lsm lsm_set lsm_open lsm_store lsm_flight]; unfold on_disk; rewrite ?Es; try done.
  - split; [done|]. by intros t ?%elem_of_nil.
  - by intros x ?%elem_of_nil.
Qed.
End Nodes.


(** ** Examples *)

(** Files in memory: the manifest, the tables, the names ever used, and which
    of the next flushes fail. *)
Record files := mkFiles { f_manifest : Manifest; f_tables : gmap string (list Entry); f_used : gset string; f_faults : list bool }.

Definition f_names (m : files) : gset string := dom (f_tables m) ∪ f_used m.
Definition err_disk_full := ErrNew "disk full".

#[export] Instance files_storage : Storage run_handle files := {|
  flusher_Flush es := fun m =>
    let path := fresh (f_names m) in
    match f_faults m with
    | true :: faults => (Err err_disk_full, mkFiles (f_manifest m) (f_tables m) (f_used m) faults)
    | _ => (Ok (path, es), mkFiles (f_manifest m) (<[path := es]> (f_tables m)) ({[path]} ∪ f_used m) (tail (f_faults m)))
    end;
  manifest_Update fn := modify (fun m => mkFiles (fn (f_manifest m)) (f_tables m) (f_used m) (f_faults m));
  removeFile path := modify (fun m => mkFiles (f_manifest m) (delete path (f_tables m)) ({[path]} ∪ f_used m) (f_faults m))
|}.

#[export] Instance files_laws : StorageLaws run_handle files.
Proof.
  refine {| names := f_names; fits _ := True |}.
  - intros es m Hs Hne _. unfold wpe, flusher_Flush, files_storage, f_names.
    assert (Hok : h_holds (fresh (f_names m), es) es) by done.
    destruct (f_faults m) as [|[] faults]; cbn [f_tables f_used]; try done; (split; [done|]);
      (split; [apply is_fresh|cbn [h_Path run_handle_ops fst]; unfold f_names; rewrite dom_insert_L; set_solver]).
  - intros fn m. by apply wpe_modify.
  - intros path m. apply wpe_modify. unfold f_names. cbn [f_tables f_used]. rewrite dom_delete_L. intros p Hp.
    destruct (decide (p = path)); set_solver.
Defined.

Definition f_open (m : files) (p : string) : option run_handle := pair p <$> f_tables m !! p.

#[export] Instance files_durable : DurableStorage run_handle files.
Proof.
  refine {| stored := f_manifest; opened := f_open |}.
  - intros es m Hs Hne _. unfold wpe, flusher_Flush, files_storage, f_open.
    destruct (f_faults m) as [|[] faults]; cbn [f_tables f_manifest h_Path run_handle_ops fst]; try done; (split; [done|]);
      (split; [by rewrite lookup_insert_eq|intros p Hp; by rewrite lookup_insert_ne]).
  - intros fn m. by apply wpe_modify.
  - intros path m. apply wpe_modify. split; [done|]. intros p. unfold f_open. cbn [f_tables].
    destruct (decide (p = path)) as [->|Hp]; [right; by rewrite lookup_delete_eq|left; by rewrite lookup_delete_ne].
Defined.

#[export] Instance files_boot : BootStorage run_handle files := {|
  manifest_Load := m ← get; mret (f_manifest m);
  manifest_Save x := modify (fun m => mkFiles x (f_tables m) (f_used m) (f_faults m));
  load_table p := m ← get; match f_open m p with Some t => mret t | None => throw ErrSSTableBadFooter end;
  list_tables := m ← get; mret (map fst (map_to_list (f_tables m)))
|}.

#[export] Instance files_boot_laws : BootLaws run_handle files.
Proof.
  split.
  - intros m p [t Ht]. cbn in Ht. unfold f_open in Ht. destruct (f_tables m !! p) eqn:E; [|done]. apply elem_of_union_l. by apply elem_of_dom.
  - intros es m e m'. unfold flusher_Flush, files_storage. destruct (f_faults m) as [|[] faults]; [done| |done]. by intros [= <- _].
  - intros m. done.
  - intros x m. by apply wpe_modify.
  - intros p t m Ho. cbn in Ho. unfold load_table, files_boot. apply wpe_get. rewrite Ho. by apply wpe_ret.
  - intros m. unfold list_tables, files_boot. apply wpe_get, wpe_ret. split; [apply NoDup_fst_map_to_list|]. split; [|done].
    intros p. cbn. unfold f_open. rewrite list_elem_of_fmap. split.
    + intros ([q es] & -> & Hq%elem_of_map_to_list). cbn. rewrite Hq. by eexists.
    + destruct (f_tables m !! p) as [es|] eqn:E; [|by intros [? ?]]. intros _. exists (p, es). split; [done|]. by apply elem_of_map_to_list.
Defined.

#[export] Instance list_replay : ReplayLog (list Entry) := {| wal_ReplayViews w := (w, None, w) |}.
#[export] Instance list_durable : DurableLog (list Entry).
Proof. refine {| log_is w es := w = es |}; [by intros e w es ->|intros w es ->; by eexists]. Defined.

Definition no_files (faults : list bool) : files := mkFiles no_manifest ∅ ∅ faults.

(** A flush that is cut off before the manifest, a flush of the recovery that
    fails, and a compaction. *)
Definition demo_node_ops : list node_op :=
  let k := bytes_of_string in
  [Start false; NodeOp (EPut (k "a") (k "1") false); Crash true; Start true; NodeOp (EPut (k "b") (k "2") true); NodeOp (EDelete (k "a") true); Crash false;
   Start false; Start false; NodeOp EPlan; NodeOp (EPut (k "b") (k "3") true); NodeOp EInstall; NodeOp ERound; Crash false; Start false].

Definition demo_node (limit : Z) (faults : list bool) (ops : list node_op) :=
  node_run (H := run_handle) newMapTable limit 4 (fun _ => Ok tt) eager_planner 40 1 false false false [] (Down [] (no_files faults)) ops.


Abbreviation demo_engine := (LSM (T := MapTable) (H := run_handle) (M := files) (W := list Entry)).

Definition put_files (limit : Z) (k v : string) : SE demo_engine Z :=
  LSM_Put newMapTable limit 4 (fun _ => Ok tt) (bytes_of_string k) (bytes_of_string v) true.

Section Losses.
Context `(S : Storage run_handle files).

Definition round_files : SE demo_engine unit := Dispatcher_round eager_planner false 20.

(** A read of the running engine, and of the one that starts from its files. *)
Definition read_again (limit : Z) (k : string) (s : demo_engine) : result (option Entry * bool) * result (option Entry * bool) :=
  let restarted := snd (New newMapTable limit 1 false false false false (l_wal s) (lsm_store (l_tree s))) in
  (fst (LSM_Get (bytes_of_string k) s), fst (LSM_Get (bytes_of_string k) restarted)).
End Losses.

(** A snapshot pins its memtable, but the flush of a newer one moves the
    checkpoint of the manifest past it: after a crash the replay skips the
    acknowledged write of the pinned memtable. *)
Theorem pinned_memtable_lost_in_crash :
  let m :=
    _ ← put_files 30 "a" "kept by a snapshot";
    _ ← LSM_Snapshot newMapTable eager_planner false 20 true;
    _ ← put_files 30 "b" "longer than the limit of a memtable";
    round_files files_storage in
  read_again files_storage 30 "a" (snd (m (new_engine newMapTable [] (no_files [])))) =
  (Ok (Some (put "a" "kept by a snapshot" 1), true), Ok (None, false)).
Proof. vm_compute. reflexivity. Qed.

(** Files whose manifest updates fail when the next fault says so. *)
Definition flaky_storage : Storage run_handle files := {|
  flusher_Flush := flusher_Flush;
  manifest_Update fn := fun m =>
    match f_faults m with
    | true :: faults => (Err err_disk_full, mkFiles (f_manifest m) (f_tables m) (f_used m) faults)
    | _ => (Ok tt, mkFiles (fn (f_manifest m)) (f_tables m) (f_used m) (tail (f_faults m)))
    end;
  removeFile := removeFile
|}.

(** A flush whose manifest update fails is only logged, and its memtable is
    dropped; the next flush moves the checkpoint past it.  After a restart
    its writes are in no table and are not replayed. *)
Theorem failed_manifest_update_loses_table :
  let m :=
    _ ← put_files 1 "a" "1";
    _ ← round_files flaky_storage;
    _ ← put_files 1 "b" "2";
    round_files flaky_storage in
  read_again flaky_storage 1 "a" (snd (m (new_engine newMapTable [] (no_files [false; true; false; false])))) =
  (Ok (Some (put "a" "1" 1), true), Ok (None, false)).
Proof. vm_compute. reflexivity. Qed.
