(* ===== verification/GoStrings.v ===== *)
(** * Strings of Go

    What the control plane uses of the package [strings]: [TrimSpace], which
    removes the UTF-8 encodings of Unicode white space from both ends, and
    the verb [%x] of a byte string. *)

From Stdlib Require Import ZArith Lia Strings.Ascii Strings.String Strings.Byte.
From stdpp Require Import base list strings pretty.
From S2P Require Import Prelude.
Local Open Scope nat_scope.

(** ** [TrimSpace] *)

(** The runes of [unicode.IsSpace] in UTF-8.  An encoding is at an end of a
    string exactly if the rune decoded there is that rune, because no
    encoding is a part of another one. *)
Definition space_runes : list (list nat) :=
  [[9]; [10]; [11]; [12]; [13]; [32]; [194; 133]; [194; 160]; [225; 154; 128];
   [226; 128; 128]; [226; 128; 129]; [226; 128; 130]; [226; 128; 131]; [226; 128; 132]; [226; 128; 133]; [226; 128; 134]; [226; 128; 135];
   [226; 128; 136]; [226; 128; 137]; [226; 128; 138]; [226; 128; 168]; [226; 128; 169]; [226; 128; 175]; [226; 129; 159]; [227; 128; 128]].

Definition spaces : list (list ascii) := map (map ascii_of_nat) space_runes.

Fixpoint strip (p s : list ascii) : option (list ascii) :=
  match p, s with
  | [], _ => Some s
  | a :: p, b :: s => if bool_decide (a = b) then strip p s else None
  | _ :: _, [] => None
  end.

Fixpoint strip_any (ps : list (list ascii)) (s : list ascii) : option (list ascii) :=
  match ps with
  | [] => None
  | p :: ps => match strip p s with Some rest => Some rest | None => strip_any ps s end
  end.

(** A round takes at least one character. *)
Fixpoint trim_from (fuel : nat) (ps : list (list ascii)) (s : list ascii) : list ascii :=
  match fuel with
  | O => s
  | S fuel => match strip_any ps s with Some rest => trim_from fuel ps rest | None => s end
  end.

Definition trim_left (ps : list (list ascii)) (s : list ascii) : list ascii := trim_from (length s) ps s.

Definition trim_chars (s : list ascii) : list ascii := rev (trim_left (map (@rev ascii) spaces) (rev (trim_left spaces s))).

Definition TrimSpace (s : string) : string := string_of_list_ascii (trim_chars (list_ascii_of_string s)).

Lemma strip_Some p : forall s rest, strip p s = Some rest <-> s = p ++ rest.
Proof.
  induction p as [|a p IH]; intros s rest; cbn [strip app]; [split; congruence|]. destruct s as [|b s]; [split; [done|discriminate]|].
  case_bool_decide as E; [subst b; rewrite IH; split; congruence|]. split; [done|congruence].
Qed.

Lemma strip_any_Some ps s rest : strip_any ps s = Some rest -> exists p, p ∈ ps /\ s = p ++ rest.
Proof.
  induction ps as [|p ps IH]; cbn [strip_any]; [done|]. destruct (strip p s) as [r|] eqn:E.
  - intros [= ->]. exists p. split; [by left|]. by apply strip_Some.
  - intros (q & Hq & Es)%IH. exists q. by split; [right|].
Qed.

Lemma strip_any_None ps s : strip_any ps s = None <-> forall p rest, p ∈ ps -> s <> p ++ rest.
Proof.
  induction ps as [|p ps IH]; cbn [strip_any]; [split; [by intros _ p rest ?%elem_of_nil|done]|]. destruct (strip p s) as [r|] eqn:E.
  - split; [done|]. intros Hn. destruct (Hn p r ltac:(by left)). by apply strip_Some.
  - rewrite IH. split; intros Hn q rest; [|intros Hq; apply Hn; by right]. intros [->|Hq]%elem_of_cons; [|by apply Hn].
    intros Es. by rewrite (proj2 (strip_Some p s rest) Es) in E.
Qed.

Section Trim.
Context (ps : list (list ascii)) (Hps : Forall (fun p => p <> []) ps).

Lemma trim_from_spec fuel : forall s, length s <= fuel ->
  exists ws, Forall (.∈ ps) ws /\ s = concat ws ++ trim_from fuel ps s /\ strip_any ps (trim_from fuel ps s) = None.
Proof.
  induction fuel as [|fuel IH]; intros s Hl; cbn [trim_from].
  - destruct s; [|cbn in Hl; lia]. exists []. split_and!; [done..|]. apply strip_any_None. intros p rest Hp E. symmetry in E. apply app_eq_nil in E as [-> _].
    rewrite Forall_forall in Hps. by apply (Hps []).
  - destruct (strip_any ps s) as [rest|] eqn:E; [|by exists []]. apply strip_any_Some in E as (p & Hp & ->).
    assert (Hne : p <> []) by (rewrite Forall_forall in Hps; auto). rewrite length_app in Hl.
    destruct (IH rest) as (ws & Hw & Ew & En); [destruct p; [done|cbn in Hl; lia]|]. exists (p :: ws). split_and!; [by constructor| |done].
    cbn [concat]. by rewrite <- app_assoc, <- Ew.
Qed.

Lemma trim_left_spec s : exists ws, Forall (.∈ ps) ws /\ s = concat ws ++ trim_left ps s /\ strip_any ps (trim_left ps s) = None.
Proof. by apply trim_from_spec. Qed.

Lemma trim_left_id s : strip_any ps s = None -> trim_left ps s = s.
Proof. unfold trim_left. destruct (length s); [done|]. cbn [trim_from]. by intros ->. Qed.
End Trim.

Lemma spaces_some : Forall (fun p => p <> []) spaces /\ Forall (fun p => p <> []) (map (@rev ascii) spaces).
Proof. split; decided. Qed.

(** No white space at either end. *)
Definition no_space_ends (s : list ascii) : Prop := strip_any spaces s = None /\ strip_any (map (@rev ascii) spaces) (rev s) = None.

Lemma trim_chars_id s : no_space_ends s -> trim_chars s = s.
Proof. intros [H1 H2]. unfold trim_chars. rewrite (trim_left_id spaces s H1), (trim_left_id _ _ H2). apply rev_involutive. Qed.

Lemma trim_chars_spec s : no_space_ends (trim_chars s).
Proof.
  unfold trim_chars. set (l := trim_left spaces s). destruct (trim_left_spec spaces (proj1 spaces_some) s) as (w & _ & _ & Hl). fold l in Hl.
  destruct (trim_left_spec _ (proj2 spaces_some) (rev l)) as (vs & _ & Ev & Hr). set (r := trim_left _ (rev l)) in *. split; [|by rewrite rev_involutive].
  apply strip_any_None. intros p rest Hp E. rewrite strip_any_None in Hl. apply (Hl p (rest ++ rev (concat vs)) Hp).
  rewrite <- (rev_involutive l), Ev, rev_app_distr, E. by rewrite <- app_assoc.
Qed.

Lemma TrimSpace_idem s : TrimSpace (TrimSpace s) = TrimSpace s.
Proof. unfold TrimSpace. rewrite list_ascii_of_string_of_list_ascii. by rewrite (trim_chars_id _ (trim_chars_spec _)). Qed.

Definition trimmed (s : string) : Prop := TrimSpace s = s.

Lemma trimmed_ends s : trimmed s <-> no_space_ends (list_ascii_of_string s).
Proof.
  unfold trimmed, TrimSpace. split.
  - intros E. rewrite <- E, list_ascii_of_string_of_list_ascii. apply trim_chars_spec.
  - intros E. by rewrite trim_chars_id, string_of_list_ascii_of_string.
Qed.

(** ** Strings that need no trimming *)

Definition printable (c : ascii) : Prop := 33 <= nat_of_ascii c < 127.

Lemma spaces_bytes p : p ∈ spaces -> exists c q, p = map ascii_of_nat (c :: q) /\ (c < 33 \/ 127 < c <= 255) /\ Forall (fun c => 127 < c <= 255) q.
Proof.
  assert (Hall : Forall (fun p => exists c q, p = c :: q /\ (c < 33 \/ 127 < c <= 255) /\ Forall (fun c => 127 < c <= 255) q) space_runes).
  { unfold space_runes. repeat (constructor; [do 2 eexists; split_and!; [done|lia|repeat constructor; lia]|]). constructor. }
  intros Hp. unfold spaces in Hp. apply list_elem_of_fmap in Hp as (r & -> & Hr). rewrite Forall_forall in Hall.
  destruct (Hall r Hr) as (c & q & -> & Hc & Hq). by exists c, q.
Qed.

Lemma printable_ascii c : c < 256 -> printable (ascii_of_nat c) -> 33 <= c < 127.
Proof. unfold printable. intros Hc. by rewrite nat_ascii_embedding. Qed.

Lemma printable_not_space c s : printable c -> strip_any spaces (c :: s) = None /\ strip_any (map (@rev ascii) spaces) (c :: s) = None.
Proof.
  intros Hc. split; apply strip_any_None; intros p rest Hp E.
  - apply spaces_bytes in Hp as (x & q & -> & Hx & _). injection E as -> _. apply printable_ascii in Hc; lia.
  - apply list_elem_of_fmap in Hp as (r & -> & (x & q & -> & Hx & Hq)%spaces_bytes). cbn [map rev] in E.
    destruct (rev (map ascii_of_nat q)) as [|y ys] eqn:Eq; injection E as -> _; [apply printable_ascii in Hc; lia|].
    assert (Hy : In y (rev (map ascii_of_nat q))) by (rewrite Eq; by left). rewrite <- in_rev, in_map_iff in Hy. destruct Hy as (z & <- & Hz).
    rewrite Forall_forall in Hq. assert (127 < z <= 255) by (apply Hq; by apply list_elem_of_In). apply printable_ascii in Hc; lia.
Qed.

(** Trimming keeps a string that starts with a printable character. *)
Lemma TrimSpace_printable c s : printable c -> TrimSpace (String c s) <> EmptyString.
Proof.
  intros Hc. unfold TrimSpace, trim_chars. cbn [list_ascii_of_string]. set (l := c :: list_ascii_of_string s).
  rewrite (trim_left_id spaces l (proj1 (printable_not_space c _ Hc))).
  destruct (trim_left_spec _ (proj2 spaces_some) (rev l)) as (ws & Hws & E & _). set (r := trim_left _ (rev l)) in *.
  destruct r as [|x r'] eqn:Er; [exfalso|cbn [rev]; destruct (rev r'); done].
  rewrite app_nil_r in E. apply (f_equal (@rev ascii)) in E. rewrite rev_involutive in E.
  destruct ws as [|w ws' _] using rev_ind; [done|]. rewrite concat_app, rev_app_distr in E. cbn [concat] in E. rewrite app_nil_r in E.
  apply Forall_app in Hws as [_ Hw]. inversion Hw as [|? ? Hin _]; subst. apply list_elem_of_fmap in Hin as (p & -> & Hp). rewrite rev_involutive in E.
  destruct (printable_not_space c (list_ascii_of_string s) Hc) as [Hn _]. rewrite strip_any_None in Hn. exact (Hn p _ Hp E).
Qed.

Lemma list_ascii_of_string_app s t : list_ascii_of_string (s +:+ t) = list_ascii_of_string s ++ list_ascii_of_string t.
Proof. induction s as [|c s IH]; [done|]. exact (f_equal (cons c) IH). Qed.

(** A printable suffix keeps a trimmed string trimmed. *)
Lemma trimmed_app s t : trimmed s -> s <> EmptyString -> Forall printable (list_ascii_of_string t) -> trimmed (s +:+ t).
Proof.
  rewrite !trimmed_ends. intros [Hl Hr] Hs Ht. rewrite list_ascii_of_string_app. set (t' := list_ascii_of_string t) in *.
  destruct s as [|c s]; [done|]. cbn [list_ascii_of_string] in *. set (s' := list_ascii_of_string s) in *.
  destruct t' as [|a t''] eqn:Et; [by rewrite app_nil_r|]. split.
  - apply strip_any_None. intros p rest Hp E. rewrite strip_any_None in Hl. apply app_eq_inv in E as [(k & E & _)|(k & E & E')]; [by apply (Hl p k Hp)|].
    destruct k as [|b k]; [apply (Hl p [] Hp); by rewrite E, !app_nil_r|]. injection E' as <- _. apply Forall_cons in Ht as [Ha _].
    apply spaces_bytes in Hp as (x & q & Ep & Hx & Hq). rewrite Ep in E. injection E as _ E. assert (Hin : In a (map ascii_of_nat q)) by (rewrite E; apply in_or_app; right; by left).
    apply in_map_iff in Hin as (z & <- & Hz). rewrite Forall_forall in Hq. assert (127 < z <= 255) by (apply Hq; by apply list_elem_of_In).
    apply printable_ascii in Ha; lia.
  - rewrite rev_app_distr. cbn [rev]. destruct (rev t'' ++ [a]) as [|b r] eqn:Er; [by destruct (rev t'')|]. cbn [app].
    refine (proj2 (printable_not_space b _ _)). rewrite Forall_forall in Ht. apply Ht. apply list_elem_of_In. apply in_rev. cbn [rev]. rewrite Er. by left.
Qed.

Lemma parse_digits_printable s : forall acc n, parse_digits s acc = Some n -> Forall printable (list_ascii_of_string s).
Proof.
  induction s as [|c s IH]; intros acc n; cbn [parse_digits list_ascii_of_string]; [constructor|].
  destruct (digit_of c) as [d|] eqn:E; [|done]. cbn [mbind option_bind]. intros H. constructor; [|by eapply IH].
  unfold digit_of in E. case_bool_decide as Hd; [|done]. unfold printable, nat_of_ascii. lia.
Qed.

Lemma pretty_printable n : (0 <= n)%Z -> Forall printable (list_ascii_of_string (pretty n)).
Proof. intros Hn. rewrite pretty_Z_nonneg by done. eapply parse_digits_printable. apply (proj1 (parse_digits_pretty_N (Z.to_N n))). Qed.

(** ** [%x]: two lower-case digits a byte *)

Definition hex_digit (n : Z) : ascii := ascii_of_nat (Z.to_nat (if (n <? 10)%Z then 48 + n else 87 + n)%Z).
Fixpoint hex (bs : bytes) : string :=
  match bs with
  | [] => EmptyString
  | b :: bs => String (hex_digit (byte_to_Z b / 16)) (String (hex_digit (byte_to_Z b mod 16)) (hex bs))
  end.

(** ** [strings.Trim] and [strings.Split] with one character, [strings.TrimSuffix] *)

Fixpoint drop_char (c : ascii) (s : list ascii) : list ascii :=
  match s with x :: s' => if bool_decide (x = c) then drop_char c s' else s | [] => [] end.
Definition TrimChar (c : ascii) (s : string) : string :=
  string_of_list_ascii (rev (drop_char c (rev (drop_char c (list_ascii_of_string s))))).

(** The parts between the separators; [part] is the current one, reversed. *)
Fixpoint split_from (c : ascii) (part s : list ascii) : list (list ascii) :=
  match s with
  | [] => [rev part]
  | x :: s => if bool_decide (x = c) then rev part :: split_from c [] s else split_from c (x :: part) s
  end.
Definition SplitChar (c : ascii) (s : string) : list string := map string_of_list_ascii (split_from c [] (list_ascii_of_string s)).

Definition TrimSuffixChar (c : ascii) (s : string) : string :=
  match rev (list_ascii_of_string s) with x :: r => if bool_decide (x = c) then string_of_list_ascii (rev r) else s | [] => s end.

(** Parts without the separator are found again. *)
Lemma split_from_part c part s : ~ In c s -> split_from c part s = [rev part ++ s].
Proof.
  revert part. induction s as [|x s IH]; intros part Hn; cbn [split_from]; [by rewrite app_nil_r|].
  rewrite bool_decide_false by (intros ->; apply Hn; by left). rewrite IH by (intros Hi; apply Hn; by right). cbn. by rewrite <- app_assoc.
Qed.

Lemma split_from_app c part s r : ~ In c s -> split_from c part (s ++ c :: r) = (rev part ++ s) :: split_from c [] r.
Proof.
  revert part. induction s as [|x s IH]; intros part Hn; cbn [split_from app].
  - rewrite bool_decide_true by done. by rewrite app_nil_r.
  - rewrite bool_decide_false by (intros ->; apply Hn; by left). rewrite IH by (intros Hi; apply Hn; by right). cbn. by rewrite <- app_assoc.
Qed.

(** ** [strconv.ParseUint] in base 10 with 64 bits *)

Definition ParseUint (s : string) : option Z := n ← parse_unsigned s; if bool_decide (n < 2 ^ 64)%Z then Some n else None.
