(* ===== verification/ControlPlane.v ===== *)
(** * The control plane ([pkg/lsm/engine/control_plane.go], [control_payload.go])

    The shards of the key space, their leaders and replicas, the committed
    control operations (transfer of a leader, split of a shard, drain of the
    node), and the state file that makes them durable.

    The replicas of a shard are a slice of an array, because a split gives
    both halves the slice of the shard it divides: a write through one half
    is then seen through the other. *)

From Stdlib Require Import ZArith Lia Strings.Byte.
From stdpp Require Import base list strings pretty gmap.
From S2P Require Import Prelude Iofs Manifest Engine GoStrings.
Local Open Scope Z_scope.

(** ** Data *)

Record ReplicaStatus := mkReplica { NodeID : string; Role : string; Healthy : bool }.
Record RaftOptions := mkRaft { Replicas : Z; ElectionTimeout : Z; HeartbeatInterval : Z; Peers : list string }.

(** [R] is how the replicas are held: a slice in the control plane, their
    values in a snapshot. *)
Record ShardStatus (R : Type) := mkShard {
  WriteLeader : option string;
  ss_ID : string;
  StartKey : bytes;
  EndKey : bytes;
  Leader : string;
  ss_Replicas : R
}.
Arguments mkShard {R} _ _ _ _ _ _.
Arguments WriteLeader {R} _.
Arguments ss_ID {R} _.
Arguments StartKey {R} _.
Arguments EndKey {R} _.
Arguments Leader {R} _.
Arguments ss_Replicas {R} _.

Record ShardConfig := mkShardConfig { sc_ID : string; sc_StartKey : bytes; sc_EndKey : bytes; sc_Replicas : list string; sc_Leader : string }.
Record ControlWriteOptions := mkWriteOptions { OperationID : string; ExpectedRevision : option Z }.
Record appliedOperationState := mkAppliedOp { ao_ID : string; Fingerprint : string; ao_Revision : Z }.
Record shardRoute := mkRoute { route_id : string; route_start : bytes; route_end : bytes }.

Record controlPlaneState := mkControlState {
  st_CommitLogAppliedIndex : Z;
  Version : Z;
  st_NodeID : string;
  st_ClusterID : string;
  st_StorageMode : string;
  st_Raft : RaftOptions;
  Draining : bool;
  Revision : Z;
  Order : list string;
  Shards : list (ShardStatus (list ReplicaStatus));
  AppliedOps : list appliedOperationState
}.

Record ControlMutation := mkControlMutation {
  cm_ExpectedRevision : option Z;
  cm_OperationID : string;
  cm_Kind : string;
  ShardID : string;
  Target : string;
  Split : bytes;
  cm_NodeID : string
}.
Record ControlCommittedEntry := mkControlCommitted { cc_Commit : Commit; cc_Mutation : ControlMutation }.

Definition maxAppliedControlOps : nat := 256.

(** ** Slices of replicas *)

(** Arrays by number, each as long as its capacity.  Array 0 is empty, for
    the slice [nil]. *)
Record rslice := mkRslice { sl_array : nat; sl_len : nat }.
Abbreviation heap := (list (list ReplicaStatus)).
Definition empty_heap : heap := [[]].
Definition zero_replica : ReplicaStatus := mkReplica "" "" false.
Definition nil_slice : rslice := mkRslice 0 0.

Definition slice_values (h : heap) (s : rslice) : list ReplicaStatus := take (sl_len s) (default [] (h !! sl_array s)).

(** [make] with the capacity of its elements, or a literal. *)
Definition slice_make (vs : list ReplicaStatus) (h : heap) : rslice * heap := (mkRslice (length h) (length vs), h ++ [vs]).

Section Slices.
(** The capacity the runtime chooses for the array of an [append] that needs
    a new one, from the old capacity and the length needed. *)
Context (growslice : nat -> nat -> nat).

Definition new_array (oldcap : nat) (vs : list ReplicaStatus) (h : heap) : rslice * heap :=
  (mkRslice (length h) (length vs), h ++ [vs ++ replicate (growslice oldcap (length vs) - length vs) zero_replica]).

(** [append([]ReplicaStatus(nil), vs...)] *)
Definition slice_copy (vs : list ReplicaStatus) (h : heap) : rslice * heap :=
  match vs with [] => (nil_slice, h) | _ => new_array 0 vs h end.

(** [append(s, r)]: in place while the capacity lasts. *)
Definition slice_append (s : rslice) (r : ReplicaStatus) (h : heap) : rslice * heap :=
  let a := default [] (h !! sl_array s) in
  if bool_decide (sl_len s < length a)%nat then (mkRslice (sl_array s) (S (sl_len s)), <[sl_array s := <[sl_len s := r]> a]> h)
  else new_array (length a) (take (sl_len s) a ++ [r]) h.
End Slices.

Definition with_role (leader : string) (r : ReplicaStatus) : ReplicaStatus :=
  mkReplica (NodeID r) (if bool_decide (NodeID r = leader) then "leader" else "follower") (Healthy r).

(** [for i := range s { s[i].Role = ... }] *)
Definition set_roles (leader : string) (s : rslice) (h : heap) : heap :=
  match h !! sl_array s with
  | Some a => <[sl_array s := map (with_role leader) (take (sl_len s) a) ++ drop (sl_len s) a]> h
  | None => h
  end.

Definition hasReplica (replicas : list ReplicaStatus) (nodeID : string) : bool := existsb (fun r => bool_decide (NodeID r = nodeID)) replicas.

Definition keyInRange (key start stop : bytes) : bool :=
  if bool_decide (start <> [] /\ bytes_compare key start = Lt) then false
  else if bool_decide (stop <> [] /\ bytes_compare key stop <> Lt) then false
  else true.

(** ** Routes *)

(** [prev] is the id and the end of the range before, [None] for the first. *)
Fixpoint build_routes {R} (shards : gmap string (ShardStatus R)) (ids : list string) (seen : gset string) (prev : option (string * bytes)) :
    result (list shardRoute) :=
  match ids with
  | [] => Ok []
  | id :: ids =>
      let id := TrimSpace id in
      if bool_decide (id = "") then Err (ErrNew "shard order contains empty id")
      else if bool_decide (id ∈ seen) then Err (ErrNew "shard order contains duplicate shard")
      else match shards !! id with
      | None => Err (ErrNew "state order references unknown shard")
      | Some shard =>
          let start := StartKey shard in
          let stop := EndKey shard in
          if bool_decide (stop <> [] /\ bytes_compare start stop <> Lt) then Err (ErrNew "invalid shard range")
          else
            _ ← match prev with
                | None => Ok tt
                | Some (_, prevEnd) =>
                    if bool_decide (prevEnd = []) then Err (ErrNew "open-ended shard must be last")
                    else if bool_decide (start = []) then Err (ErrNew "shard has empty start key after first shard")
                    else if bool_decide (bytes_compare start prevEnd = Lt) then Err (ErrNew "overlapping shard ranges")
                    else Ok tt
                end;
            rest ← build_routes shards ids ({[id]} ∪ seen) (Some (id, stop));
            mret (mkRoute id start stop :: rest)
      end
  end.

Definition buildShardRoutes {R} (order : list string) (shards : gmap string (ShardStatus R)) : result (list shardRoute) :=
  if bool_decide (order = []) then Err (ErrNew "shard order is required")
  else if bool_decide (size shards = 0%nat) then Err (ErrNew "at least one shard is required")
  else if bool_decide (length order <> size shards) then Err (ErrNew "shard order count does not match shard map count")
  else build_routes shards order ∅ None.

(** ** Validation of a state file *)

Fixpoint validate_shards {R} (l : list (ShardStatus R)) (shards : gmap string (ShardStatus R)) : result (gmap string (ShardStatus R)) :=
  match l with
  | [] => Ok shards
  | shard :: l =>
      if bool_decide (TrimSpace (ss_ID shard) = "") then Err (ErrNew "state has shard with empty id")
      else if bool_decide (is_Some (shards !! ss_ID shard)) then Err (ErrNew "state has duplicate shard id")
      else validate_shards l (<[ss_ID shard := shard]> shards)
  end.

Fixpoint validate_ops (ops : list appliedOperationState) (seenOps : gset string) : result unit :=
  match ops with
  | [] => Ok tt
  | op :: ops =>
      let opID := TrimSpace (ao_ID op) in
      if bool_decide (opID = "") then Err (ErrNew "state has applied operation with empty id")
      else if bool_decide (opID ∈ seenOps) then Err (ErrNew "state has duplicate applied operation id")
      else if bool_decide (TrimSpace (Fingerprint op) = "") then Err (ErrNew "state has applied operation without fingerprint")
      else validate_ops ops ({[opID]} ∪ seenOps)
  end.

Definition validateControlPlaneState (state : controlPlaneState) : result unit :=
  if bool_decide (Order state = []) then Err (ErrNew "state order is required")
  else if bool_decide (Shards state = []) then Err (ErrNew "state contains no shards")
  else
    shards ← validate_shards (Shards state) ∅;
    _ ← buildShardRoutes (Order state) shards;
    if bool_decide (maxAppliedControlOps < length (AppliedOps state))%nat then Err (ErrNew "state contains too many applied operations")
    else validate_ops (AppliedOps state) ∅.

(** ** The control plane *)

Record controlPlane := mkControlPlane {
  commitErr : option error;
  commitLogAppliedIndex : Z;
  nodeID : string;
  clusterID : string;
  storageMode : string;
  raft : RaftOptions;
  draining : bool;
  revision : Z;
  order : list string;
  shards : gmap string (ShardStatus rslice);
  routes : list shardRoute;
  appliedOps : gmap string appliedOperationState;
  appliedOrder : list string;
  arrays : heap
}.

Definition set_commitErr (e : option error) (c : controlPlane) : controlPlane :=
  mkControlPlane e (commitLogAppliedIndex c) (nodeID c) (clusterID c) (storageMode c) (raft c) (draining c) (revision c) (order c) (shards c)
    (routes c) (appliedOps c) (appliedOrder c) (arrays c).
Definition set_appliedIndex (i : Z) (c : controlPlane) : controlPlane :=
  mkControlPlane (commitErr c) i (nodeID c) (clusterID c) (storageMode c) (raft c) (draining c) (revision c) (order c) (shards c)
    (routes c) (appliedOps c) (appliedOrder c) (arrays c).
Definition set_draining (c : controlPlane) : controlPlane :=
  mkControlPlane (commitErr c) (commitLogAppliedIndex c) (nodeID c) (clusterID c) (storageMode c) (raft c) true (revision c) (order c) (shards c)
    (routes c) (appliedOps c) (appliedOrder c) (arrays c).
Definition set_shards (m : gmap string (ShardStatus rslice)) (h : heap) (c : controlPlane) : controlPlane :=
  mkControlPlane (commitErr c) (commitLogAppliedIndex c) (nodeID c) (clusterID c) (storageMode c) (raft c) (draining c) (revision c) (order c) m
    (routes c) (appliedOps c) (appliedOrder c) h.
Definition set_order (o : list string) (c : controlPlane) : controlPlane :=
  mkControlPlane (commitErr c) (commitLogAppliedIndex c) (nodeID c) (clusterID c) (storageMode c) (raft c) (draining c) (revision c) o (shards c)
    (routes c) (appliedOps c) (appliedOrder c) (arrays c).
Definition set_routes (rs : list shardRoute) (c : controlPlane) : controlPlane :=
  mkControlPlane (commitErr c) (commitLogAppliedIndex c) (nodeID c) (clusterID c) (storageMode c) (raft c) (draining c) (revision c) (order c)
    (shards c) rs (appliedOps c) (appliedOrder c) (arrays c).
Definition set_ops (rev : Z) (ops : gmap string appliedOperationState) (ids : list string) (c : controlPlane) : controlPlane :=
  mkControlPlane (commitErr c) (commitLogAppliedIndex c) (nodeID c) (clusterID c) (storageMode c) (raft c) (draining c) rev (order c)
    (shards c) (routes c) ops ids (arrays c).

(** The zero value a missing key of the map gives. *)
Definition zero_shard : ShardStatus rslice := mkShard None "" [] [] "" nil_slice.
Definition shard_at (c : controlPlane) (id : string) : ShardStatus rslice := default zero_shard (shards c !! id).

(** A shard with the values of its replicas. *)
Definition shard_values (h : heap) (s : ShardStatus rslice) : ShardStatus (list ReplicaStatus) :=
  mkShard (WriteLeader s) (ss_ID s) (StartKey s) (EndKey s) (Leader s) (slice_values h (ss_Replicas s)).

Definition rebuildRoutesLocked : SE controlPlane unit :=
  c ← get;
  rs ← lift (buildShardRoutes (order c) (shards c));
  modify (set_routes rs).

Definition shardForKeyLocked (c : controlPlane) (key : bytes) : option (ShardStatus rslice) :=
  if bool_decide (routes c = []) then None
  else
    let idx := sort_Search (length (routes c)) (fun i =>
      match routes c !! i with
      | Some r => bool_decide (route_end r = [] \/ bytes_compare key (route_end r) = Lt)
      | None => false
      end) in
    match routes c !! idx with
    | None => None
    | Some route =>
        if bool_decide (route_start route <> [] /\ bytes_compare key (route_start route) = Lt) then None
        else shards c !! route_id route
    end.

Definition shardIDForKey (c : controlPlane) (key : bytes) : option string := ss_ID <$> shardForKeyLocked c key.

(** [for i := 2; ; i++]: one of the first [size shards + 1] candidates is free. *)
Fixpoint unique_from (fuel : nat) (shards : gmap string (ShardStatus rslice)) (base : string) (i : Z) : result string :=
  match fuel with
  | O => NoFuel
  | S fuel =>
      let candidate := base +:+ "-" +:+ pretty i in
      if bool_decide (shards !! candidate = None) then Ok candidate else unique_from fuel shards base (i + 1)
  end.

Definition uniqueShardID (shards : gmap string (ShardStatus rslice)) (base : string) : result string :=
  if bool_decide (shards !! base = None) then Ok base else unique_from (S (size shards)) shards base 2.

(** ** Snapshots of the state *)

Definition appliedOpsSnapshotLocked (c : controlPlane) : list appliedOperationState := omap (fun opID => appliedOps c !! opID) (appliedOrder c).

Definition snapshotStateLocked (c : controlPlane) : controlPlaneState :=
  mkControlState (commitLogAppliedIndex c) 1 (nodeID c) (clusterID c) (storageMode c) (raft c) (draining c) (revision c) (order c)
    (map (fun id => shard_values (arrays c) (shard_at c id)) (order c)) (appliedOpsSnapshotLocked c).

Section ApplyState.
Context (growslice : nat -> nat -> nat).

(** Each shard of the state with a copy of its replicas. *)
Definition install_shard (acc : gmap string (ShardStatus rslice) * heap) (shard : ShardStatus (list ReplicaStatus)) :
    gmap string (ShardStatus rslice) * heap :=
  let '(s, h) := slice_copy growslice (ss_Replicas shard) (snd acc) in
  (<[ss_ID shard := mkShard (WriteLeader shard) (ss_ID shard) (StartKey shard) (EndKey shard) (Leader shard) s]> (fst acc), h).

Definition install_op (acc : gmap string appliedOperationState * list string) (op : appliedOperationState) :
    gmap string appliedOperationState * list string :=
  let opID := TrimSpace (ao_ID op) in
  (<[opID := mkAppliedOp opID (Fingerprint op) (ao_Revision op)]> (fst acc), snd acc ++ [opID]).

Definition applyState (state : controlPlaneState) : SE controlPlane unit :=
  c ← get;
  let '(m, h) := fold_left install_shard (Shards state) (∅, arrays c) in
  let '(ops, ids) := fold_left install_op (AppliedOps state) (∅, []) in
  _ ← put (mkControlPlane (commitErr c) (st_CommitLogAppliedIndex state) (nodeID c) (clusterID c) (storageMode c) (raft c)
             (Draining state) (Revision state) (Order state) m (routes c) ops ids h);
  rebuildRoutesLocked.
End ApplyState.

(** ** Committed mutations *)

Section Payload.
Context (growslice : nat -> nat -> nat).

Definition applyTransferLeaderPayloadLocked (mutation : ControlMutation) : SE controlPlane unit :=
  c ← get;
  match shards c !! ShardID mutation with
  | None => throw ErrShardNotFound
  | Some shard =>
      let '(s, h) :=
        if hasReplica (slice_values (arrays c) (ss_Replicas shard)) (Target mutation) then (ss_Replicas shard, arrays c)
        else slice_append growslice (ss_Replicas shard) (mkReplica (Target mutation) "follower" true) (arrays c) in
      let h := set_roles (Target mutation) s h in
      modify (set_shards (<[ShardID mutation := mkShard (WriteLeader shard) (ss_ID shard) (StartKey shard) (EndKey shard) (Target mutation) s]>
                            (shards c)) h)
  end.

Definition applySplitPayloadLocked (mutation : ControlMutation) : SE controlPlane unit :=
  c ← get;
  match shards c !! ShardID mutation with
  | None => throw ErrShardNotFound
  | Some shard =>
      if negb (keyInRange (Split mutation) (StartKey shard) (EndKey shard)) then throw (ErrNew "split key outside shard range")
      else if bool_decide ((StartKey shard <> [] /\ Split mutation = StartKey shard) \/ (EndKey shard <> [] /\ Split mutation = EndKey shard))
      then throw (ErrNew "split key must be inside range")
      else
        leftID ← lift (uniqueShardID (shards c) (ShardID mutation +:+ "-a"));
        rightID ← lift (uniqueShardID (shards c) (ShardID mutation +:+ "-b"));
        let left := mkShard (WriteLeader shard) leftID (StartKey shard) (Split mutation) (Leader shard) (ss_Replicas shard) in
        let right := mkShard (WriteLeader shard) rightID (Split mutation) (EndKey shard) (Leader shard) (ss_Replicas shard) in
        _ ← modify (set_shards (<[rightID := right]> (<[leftID := left]> (delete (ShardID mutation) (shards c)))) (arrays c));
        _ ← modify (set_order (flat_map (fun id => if bool_decide (id = ShardID mutation) then [leftID; rightID] else [id]) (order c)));
        rebuildRoutesLocked
  end.

(** The replica that takes over a shard of the node. *)
Definition drain_target (nodeID : string) (replicas : list ReplicaStatus) : string :=
  from_option (fun p => NodeID (snd p)) "" (list_find (fun r => NodeID r <> nodeID /\ Healthy r = true) replicas).

Fixpoint drain_targets (c : controlPlane) (nodeID : string) (ids : list string) (targets : gmap string string) : result (gmap string string) :=
  match ids with
  | [] => Ok targets
  | id :: ids =>
      let shard := shard_at c id in
      if bool_decide (Leader shard <> nodeID) then drain_targets c nodeID ids targets
      else
        let target := drain_target nodeID (slice_values (arrays c) (ss_Replicas shard)) in
        if bool_decide (target = "") then Err (ErrNew "cannot drain: shard has no alternate healthy replica")
        else drain_targets c nodeID ids (<[id := target]> targets)
  end.

Definition drain_shard (targets : gmap string string) (c : controlPlane) (id : string) : controlPlane :=
  match targets !! id with
  | None => c
  | Some target =>
      let shard := shard_at c id in
      set_shards (<[id := mkShard (WriteLeader shard) (ss_ID shard) (StartKey shard) (EndKey shard) target (ss_Replicas shard)]> (shards c))
        (set_roles target (ss_Replicas shard) (arrays c)) c
  end.

Definition applyDrainPayloadLocked (mutation : ControlMutation) : SE controlPlane unit :=
  c ← get;
  targets ← lift (drain_targets c (cm_NodeID mutation) (order c) ∅);
  _ ← put (fold_left (drain_shard targets) (order c) c);
  if bool_decide (cm_NodeID mutation = nodeID c) then modify set_draining else mret tt.

Definition applyControlPayloadLocked (m : ControlMutation) : SE controlPlane unit :=
  if bool_decide (cm_Kind m = "transfer-leader") then applyTransferLeaderPayloadLocked m
  else if bool_decide (cm_Kind m = "split") then applySplitPayloadLocked m
  else if bool_decide (cm_Kind m = "prepare-drain") then applyDrainPayloadLocked m
  else throw (ErrNew "unknown committed control mutation").
End Payload.

(** ** Operation ids *)

(** Whether the operation was applied before. *)
Definition checkOperationPreconditionsLocked (c : controlPlane) (opts : ControlWriteOptions) (fingerprint : string) : result bool :=
  let opID := TrimSpace (OperationID opts) in
  match (if bool_decide (opID = "") then None else appliedOps c !! opID) with
  | Some applied => if bool_decide (Fingerprint applied <> fingerprint) then Err ErrControlOperationConflict else Ok true
  | None =>
      match ExpectedRevision opts with
      | Some rev => if bool_decide (rev <> revision c) then Err ErrControlRevisionConflict else Ok false
      | None => Ok false
      end
  end.

Definition noteOperationAppliedLocked (opts : ControlWriteOptions) (fingerprint : string) (c : controlPlane) : controlPlane :=
  let rev := u64 (revision c + 1) in
  let opID := TrimSpace (OperationID opts) in
  if bool_decide (opID = "") then set_ops rev (appliedOps c) (appliedOrder c) c
  else
    let ids := if bool_decide (appliedOps c !! opID = None) then appliedOrder c ++ [opID] else appliedOrder c in
    let ops := <[opID := mkAppliedOp opID fingerprint rev]> (appliedOps c) in
    if bool_decide (length ids <= maxAppliedControlOps)%nat then set_ops rev ops ids c
    else
      let overflow := (length ids - maxAppliedControlOps)%nat in
      set_ops rev (fold_left (fun m oldID => delete oldID m) (take overflow ids) ops) (drop overflow ids) c.

Definition transferLeaderFingerprint (shardID target : string) : string := "transfer:" +:+ shardID +:+ ":" +:+ target.
Definition splitFingerprint (shardID : string) (splitKey : bytes) : string := "split:" +:+ shardID +:+ ":" +:+ hex splitKey.
Definition prepareDrainFingerprint (nodeID : string) : string := "drain:" +:+ nodeID.

(** ** The commit log behind the control plane *)

Record CommitLogRuntimeStatus := mkRuntimeStatus {
  DeliveryFailures : Z;
  LeaderNodeID : string;
  Mode : string;
  rt_Index : Z;
  rt_Term : Z;
  rt_Leader : bool;
  rt_Replicas : Z
}.

(** The interface [CommitLogConsensus], as far as the control plane uses it;
    [builtin] says whether the value is a [*builtinCommitLogConsensus]. *)
Class Consensus (K : Type) := {
  CommitControl : ControlMutation -> K -> result ControlCommittedEntry * K;
  builtin : K -> bool;
  Provider : K -> string;
  RuntimeStatus : K -> CommitLogRuntimeStatus
}.

Definition CommitLogProviderLocal : string := "local".
Definition CommitLogProviderEtcdRaft : string := "etcd-raft".

Definition local_CommitControl (m : ControlMutation) (c : localConsensus) : result ControlCommittedEntry * localConsensus :=
  let '(commit, c) := nextCommit c in (Ok (mkControlCommitted commit m), c).

Definition local_consensus : Consensus localConsensus := {|
  CommitControl := local_CommitControl;
  builtin := fun _ => true;
  Provider := fun _ => CommitLogProviderLocal;
  RuntimeStatus := fun c => mkRuntimeStatus 0 "" "local" (lc_index c) (lc_term c) true 1
|}.
#[export] Existing Instance local_consensus.

Definition isPreProposalRejection (e : error) : bool := bool_decide (e = commitLogNotLeader).

(** The result of a committed mutation that is not an error of the node: it
    was applied, it had been applied before ([errControlNoop]), or it was
    rejected and the rejection is durable ([persistedControlRejection]). *)
Inductive applied := Applied | Noop | Rejected (cause : error).

(** [defer]: [fin] runs however [m] ends. *)
Definition defer {S A} (m : SE S A) (fin : SE S unit) : SE S A := fun s => let '(r, s) := m s in (r, snd (fin s)).

Definition err_io : error := ErrNew "control state: file system".

Definition sync_close : SE FS unit :=
  syncErr ← catch (fs_may_fail err_io);
  closeErr ← catch (fs_may_fail err_io);
  match syncErr, closeErr with
  | Some e, _ => throw e
  | None, Some e => throw e
  | None, None => mret tt
  end.

(** [for { Open(dir); Sync; Close; dir = parent }] over a directory with [n]
    ancestors. *)
Fixpoint sync_dirs (n : nat) : SE FS unit :=
  _ ← fs_may_fail err_io;
  _ ← sync_close;
  match n with O => mret tt | S n => sync_dirs n end.

(** [ReadFile]; [None] for a file that does not exist. *)
Definition fs_ReadFile (name : string) : SE FS (option bytes) :=
  _ ← fs_may_fail err_io;
  fs ← get;
  mret (fs_dir fs !! name).

Record node (K : Type) := mkNode { cp : controlPlane; disk : FS; consensus : K }.
Arguments mkNode {K} _ _ _.
Arguments cp {K} _.
Arguments disk {K} _.
Arguments consensus {K} _.

Section Node.
Context {K : Type} `{Consensus K} (growslice : nat -> nat -> nat).
(** The JSON encoding of the state, the path of its file, and the number of
    ancestors of the directory it is in. *)
Context (marshalIndent : controlPlaneState -> bytes) (unmarshal : bytes -> result controlPlaneState).
Context (statePath : string) (ancestors : nat).

Definition on_cp {A} (m : SE controlPlane A) : SE (node K) A := fun s =>
  let '(r, c) := m (cp s) in (r, mkNode c (disk s) (consensus s)).
Definition on_disk {A} (m : SE FS A) : SE (node K) A := fun s =>
  let '(r, fs) := m (disk s) in (r, mkNode (cp s) fs (consensus s)).

Definition tmpPath : string := statePath +:+ ".tmp".

Definition write_state (data : bytes) : SE FS unit :=
  _ ← fs_may_fail err_io;
  _ ← fs_WriteFile tmpPath data err_io;
  _ ← fs_may_fail err_io;
  _ ← sync_close;
  renamed ← catch (fs_rename_file tmpPath statePath err_io);
  match renamed with
  | Some e => _ ← catch (fs_remove tmpPath err_io); throw e
  | None =>
      _ ← fs_may_fail err_io;
      sync_dirs ancestors
  end.

Definition saveLocked : SE (node K) unit :=
  if bool_decide (statePath = "") then mret tt
  else
    s ← get;
    on_disk (write_state (marshalIndent (snapshotStateLocked (cp s)))).

Definition saveLockedWithRollback (previous : controlPlaneState) : SE (node K) unit :=
  saved ← catch saveLocked;
  match saved with
  | None => mret tt
  | Some err =>
      restored ← catch (on_cp (applyState growslice previous));
      match restored with
      | Some restoreErr => throw (ErrNew "save control state; rollback control state")
      | None => throw err
      end
  end.

Definition loadState : SE (node K) (option controlPlaneState) :=
  if bool_decide (statePath = "") then mret None
  else
    data ← on_disk (fs_ReadFile statePath);
    match data with
    | None => mret None
    | Some data =>
        state ← lift (unmarshal data);
        let state := if bool_decide (Version state = 0)
          then mkControlState (st_CommitLogAppliedIndex state) 1 (st_NodeID state) (st_ClusterID state) (st_StorageMode state) (st_Raft state)
                 (Draining state) (Revision state) (Order state) (Shards state) (AppliedOps state)
          else state in
        _ ← lift (validateControlPlaneState state);
        mret (Some state)
    end.

(** *** Start of a node *)

Definition config_replicas (nodeID : string) (cfg : ShardConfig) : string * list string :=
  let replicas := match sc_Replicas cfg with [] => [nodeID] | l => l end in
  let leader := TrimSpace (sc_Leader cfg) in
  let leader := if bool_decide (leader = "") then default "" (head replicas) else leader in
  (leader, if bool_decide (leader ∈ replicas) then replicas else replicas ++ [leader]).

Fixpoint bootstrap_shards (cfgs : list ShardConfig) : SE controlPlane unit :=
  match cfgs with
  | [] => mret tt
  | cfg :: cfgs =>
      c ← get;
      let id := TrimSpace (sc_ID cfg) in
      if bool_decide (id = "") then throw (ErrNew "shard id is required")
      else if bool_decide (is_Some (shards c !! id)) then throw (ErrNew "duplicate shard id")
      else
        let '(leader, replicas) := config_replicas (nodeID c) cfg in
        let '(s, h) := slice_make (map (fun r => with_role leader (mkReplica r "" true)) replicas) (arrays c) in
        _ ← modify (set_order (order c ++ [id]));
        _ ← modify (set_shards (<[id := mkShard None id (sc_StartKey cfg) (sc_EndKey cfg) leader s]> (shards c)) h);
        bootstrap_shards cfgs
  end.

Definition bootstrap (shardMap : list ShardConfig) : SE controlPlane unit :=
  _ ← match shardMap with
      | [] =>
          c ← get;
          let '(s, h) := slice_make [mkReplica (nodeID c) "leader" true] (arrays c) in
          _ ← modify (set_order ["default"]);
          modify (set_shards (<["default" := mkShard None "default" [] [] (nodeID c) s]> (shards c)) h)
      | _ => _ ← modify (set_order []); bootstrap_shards shardMap
      end;
  rebuildRoutesLocked.

Definition loadOrBootstrap (shardMap : list ShardConfig) : SE (node K) unit :=
  state ← loadState;
  match state with
  | Some state =>
      s ← get;
      if bool_decide (st_NodeID state <> nodeID (cp s) \/ st_ClusterID state <> clusterID (cp s)) then throw (ErrNew "control state identity mismatch")
      else on_cp (applyState growslice state)
  | None =>
      _ ← on_cp (bootstrap shardMap);
      saveLocked
  end.

Record ControlOptions := mkControlOptions {
  opt_NodeID : string; opt_ClusterID : string; opt_StorageMode : string; opt_Raft : option RaftOptions; opt_ShardMap : list ShardConfig
}.

Definition or_default (s d : string) : string := if bool_decide (s = "") then d else s.

Definition new_state (opts : ControlOptions) : result controlPlane :=
  let mode := or_default (TrimSpace (opt_StorageMode opts)) "local" in
  if bool_decide (mode <> "local" /\ mode <> "pvc") then Err (ErrNew "unknown storage mode")
  else
    let raft := default (mkRaft 3 0 0 []) (opt_Raft opts) in
    let raft := if bool_decide (Replicas raft <= 0) then mkRaft 3 (ElectionTimeout raft) (HeartbeatInterval raft) (Peers raft) else raft in
    Ok (mkControlPlane None 0 (or_default (TrimSpace (opt_NodeID opts)) "node-0") (or_default (TrimSpace (opt_ClusterID opts)) "cluster-local")
          mode raft false 0 [] ∅ [] ∅ [] empty_heap).

(** A new control plane over the files of [fs]; the commit log is what
    [newCommitLogConsensus] returned. *)
Definition newControlPlane (opts : ControlOptions) (consensus : result K) (fs : FS) : result unit * option (node K) * FS :=
  match new_state opts, consensus with
  | Ok c, Ok k =>
      let '(r, s) := loadOrBootstrap (opt_ShardMap opts) (mkNode c fs k) in
      (r, match r with Ok _ => Some s | _ => None end, disk s)
  | Ok _, e => (_ ← e; Ok tt, None, fs)
  | e, _ => (_ ← e; Ok tt, None, fs)
  end.

(** *** Reads *)

Definition raftWriteLeader (s : node K) : string * bool :=
  if negb (builtin (consensus s)) || bool_decide (Provider (consensus s) <> CommitLogProviderEtcdRaft) then ("", false)
  else (LeaderNodeID (RuntimeStatus (consensus s)), bool_decide (1 < rt_Replicas (RuntimeStatus (consensus s)))).

Definition allowWrite (s : node K) (key : bytes) : result unit :=
  let '(leader, raftRouting) := raftWriteLeader s in
  if draining (cp s) then Err ErrBackpressure
  else match shardForKeyLocked (cp s) key with
  | None => Err ErrShardNotFound
  | Some shard =>
      if (raftRouting : bool) then if bool_decide (leader <> nodeID (cp s)) then Err commitLogNotLeader else Ok tt
      else if bool_decide (Leader shard <> nodeID (cp s)) then Err commitLogNotLeader else Ok tt
  end.

Definition shardsSnapshot (s : node K) : list (ShardStatus (list ReplicaStatus)) :=
  let '(leader, raftRouting) := raftWriteLeader s in
  map (fun id =>
    let shard := shard_values (arrays (cp s)) (shard_at (cp s) id) in
    if (raftRouting : bool) then mkShard (Some leader) (ss_ID shard) (StartKey shard) (EndKey shard) (Leader shard) (ss_Replicas shard) else shard)
    (order (cp s)).

Record ClusterStatus := mkClusterStatus {
  cl_NodeID : string; cl_ClusterID : string; cl_StorageMode : string; ShardCount : Z; cl_Draining : bool; cl_Revision : Z;
  CommitLog : string; CommitLogRuntime : CommitLogRuntimeStatus; cl_Raft : RaftOptions
}.

Definition status (s : node K) : ClusterStatus :=
  mkClusterStatus (nodeID (cp s)) (clusterID (cp s)) (storageMode (cp s)) (zlen (order (cp s))) (draining (cp s)) (revision (cp s))
    (Provider (consensus s)) (RuntimeStatus (consensus s)) (raft (cp s)).

(** *** Writes *)

Definition bump_index (index : Z) (c : controlPlane) : controlPlane :=
  if bool_decide (commitLogAppliedIndex c < index) then set_appliedIndex index c else c.

Definition applyCommittedControlMutation (entry : ControlCommittedEntry) (opts : ControlWriteOptions) (fingerprint : string)
    (mutate : ControlMutation -> SE controlPlane unit) : SE (node K) applied :=
  let index := Commit_Index (cc_Commit entry) in
  if bool_decide (index = 0 \/ Commit_Term (cc_Commit entry) = 0) then throw (ErrNew "invalid committed control entry")
  else
    s ← get;
    let previous := snapshotStateLocked (cp s) in
    match checkOperationPreconditionsLocked (cp s) opts fingerprint with
    | Ok true =>
        if bool_decide (commitLogAppliedIndex (cp s) < index) then
          _ ← on_cp (modify (set_appliedIndex index));
          _ ← saveLockedWithRollback previous;
          mret Noop
        else mret Noop
    | Ok false =>
        mutated ← catch (on_cp (mutate (cc_Mutation entry)));
        match mutated with
        | Some err =>
            _ ← on_cp (applyState growslice previous);
            _ ← on_cp (modify (bump_index index));
            _ ← saveLockedWithRollback previous;
            mret (Rejected err)
        | None =>
            _ ← on_cp (modify (noteOperationAppliedLocked opts fingerprint));
            _ ← on_cp (modify (bump_index index));
            _ ← saveLockedWithRollback previous;
            mret Applied
        end
    | Err err =>
        _ ← on_cp (modify (bump_index index));
        _ ← saveLockedWithRollback previous;
        mret (Rejected err)
    | Panic => lift Panic
    | NoFuel => lift NoFuel
    end.

(** The fingerprint of a committed mutation. *)
Definition mutation_fingerprint (m : ControlMutation) : result string :=
  if bool_decide (cm_Kind m = "transfer-leader") then Ok (transferLeaderFingerprint (ShardID m) (Target m))
  else if bool_decide (cm_Kind m = "split") then Ok (splitFingerprint (ShardID m) (Split m))
  else if bool_decide (cm_Kind m = "prepare-drain") then Ok (prepareDrainFingerprint (cm_NodeID m))
  else Err (ErrNew "unknown committed control mutation").

(** [errControlNoop] becomes success here. *)
Definition applyCommittedControlFromLog (entry : ControlCommittedEntry) : SE (node K) applied :=
  let m := cc_Mutation entry in
  fingerprint ← lift (mutation_fingerprint m);
  r ← applyCommittedControlMutation entry (mkWriteOptions (cm_OperationID m) (cm_ExpectedRevision m)) fingerprint (applyControlPayloadLocked growslice);
  mret (match r with Noop => Applied | r => r end).

Definition recoverCommittedControl (entry : ControlCommittedEntry) : SE (node K) applied :=
  s ← get;
  if bool_decide (Commit_Index (cc_Commit entry) <= commitLogAppliedIndex (cp s)) then mret Applied
  else applyCommittedControlFromLog entry.

(** What the engine attaches to the control plane: entries come back through
    the committed log, a check before a proposal, and the admission of a
    proposal, which returns how to finish it. *)
Record hooks := mkHooks {
  applyFromLog : option (ControlCommittedEntry -> SE (node K) applied);
  beforeProposal : option (SE (node K) unit);
  admitProposal : option (SE (node K) (SE (node K) unit))
}.
Definition no_hooks : hooks := mkHooks None None None.

Context (hk : hooks).

Definition fail_commit (e : error) : SE (node K) unit := on_cp (modify (set_commitErr (Some e))).

(** The result of a committed mutation as the caller sees it. *)
Definition settle (etcd : bool) (m : SE (node K) applied) : SE (node K) unit := fun s =>
  match m s with
  | (Ok Applied, s) | (Ok Noop, s) => (Ok tt, s)
  | (Ok (Rejected cause), s) => (Err cause, s)
  | (Err err, s) => (_ ← (if etcd then fail_commit err else mret tt); throw err) s
  | (Panic, s) => (Panic, s)
  | (NoFuel, s) => (NoFuel, s)
  end.

Definition propose (mutation : ControlMutation) (opts : ControlWriteOptions) (fingerprint : string)
    (mutate : ControlMutation -> SE controlPlane unit) : SE (node K) unit :=
  _ ← default (mret tt) (beforeProposal hk);
  s ← get;
  done ← lift (checkOperationPreconditionsLocked (cp s) opts fingerprint);
  if (done : bool) then mret tt
  else
    let mutation := mkControlMutation (ExpectedRevision opts) (TrimSpace (OperationID opts)) (cm_Kind mutation) (ShardID mutation)
      (Target mutation) (Split mutation) (cm_NodeID mutation) in
    let '(committed, k) := CommitControl mutation (consensus s) in
    _ ← put (mkNode (cp s) (disk s) k);
    let etcd := bool_decide (Provider k = CommitLogProviderEtcdRaft) in
    match committed with
    | Err err =>
        _ ← (if etcd && negb (isPreProposalRejection err) then fail_commit err else mret tt);
        throw err
    | Ok entry =>
        let m := match applyFromLog hk with
          | Some apply => apply entry
          | None => applyCommittedControlMutation entry opts fingerprint mutate
          end in
        settle etcd m
    | Panic => lift Panic
    | NoFuel => lift NoFuel
    end.

Definition applyControlMutation (mutation : ControlMutation) (opts : ControlWriteOptions) (fingerprint : string)
    (mutate : ControlMutation -> SE controlPlane unit) : SE (node K) unit :=
  s ← get;
  match commitErr (cp s) with
  | Some err => throw err
  | None =>
      match admitProposal hk with
      | Some adm => finish ← adm; defer (propose mutation opts fingerprint mutate) finish
      | None => propose mutation opts fingerprint mutate
      end
  end.

Definition mismatch {A} : SE controlPlane A := throw (ErrNew "committed control mutation mismatch").

Definition transferLeaderWithOptions (shardID target : string) (opts : ControlWriteOptions) : SE (node K) unit :=
  let shardID := TrimSpace shardID in
  let target := TrimSpace target in
  if bool_decide (shardID = "" \/ target = "") then throw ErrShardNotFound
  else applyControlMutation (mkControlMutation None "" "transfer-leader" shardID target [] "") opts (transferLeaderFingerprint shardID target)
    (fun m => if bool_decide (cm_Kind m <> "transfer-leader" \/ ShardID m <> shardID \/ Target m <> target) then mismatch
              else applyTransferLeaderPayloadLocked growslice m).

Definition triggerSplitWithOptions (shardID : string) (splitKey : bytes) (opts : ControlWriteOptions) : SE (node K) unit :=
  let shardID := TrimSpace shardID in
  if bool_decide (shardID = "") then throw ErrShardNotFound
  else applyControlMutation (mkControlMutation None "" "split" shardID "" splitKey "") opts (splitFingerprint shardID splitKey)
    (fun m => if bool_decide (cm_Kind m <> "split" \/ ShardID m <> shardID \/ Split m <> splitKey) then mismatch
              else applySplitPayloadLocked m).

Definition triggerRebalanceWithOptions (shardID target : string) (opts : ControlWriteOptions) : SE (node K) unit :=
  transferLeaderWithOptions shardID target opts.

Definition prepareDrainWithOptions (nodeID : string) (opts : ControlWriteOptions) : SE (node K) unit :=
  s ← get;
  let self := ControlPlane.nodeID (cp s) in
  let nodeID := or_default (TrimSpace nodeID) self in
  if bool_decide (nodeID <> self) then throw (ErrNew "drain supported only for local node")
  else applyControlMutation (mkControlMutation None "" "prepare-drain" "" "" [] nodeID) opts (prepareDrainFingerprint nodeID)
    (fun m => if bool_decide (cm_Kind m <> "prepare-drain" \/ cm_NodeID m <> nodeID) then mismatch else applyDrainPayloadLocked m).

(** The requests of a client. *)
Inductive request :=
| TransferLeader (shardID target : string) (opts : ControlWriteOptions)
| TriggerSplit (shardID : string) (splitKey : bytes) (opts : ControlWriteOptions)
| TriggerRebalance (shardID target : string) (opts : ControlWriteOptions)
| PrepareDrain (nodeID : string) (opts : ControlWriteOptions).

Definition serve (r : request) : SE (node K) unit :=
  match r with
  | TransferLeader shardID target opts => transferLeaderWithOptions shardID target opts
  | TriggerSplit shardID splitKey opts => triggerSplitWithOptions shardID splitKey opts
  | TriggerRebalance shardID target opts => triggerRebalanceWithOptions shardID target opts
  | PrepareDrain nodeID opts => prepareDrainWithOptions nodeID opts
  end.
End Node.
