(* ===== verification/ControlSpec.v ===== *)
(** * Correctness of the control plane

    The invariant of the control plane (its routes are those of its shards,
    in order and without overlap), the routing of keys by binary search,
    snapshots of the state and their installation, and the committed
    mutations as steps of a list of ranges and leaders. *)

From Stdlib Require Import ZArith Lia Strings.Byte.
From stdpp Require Import base list strings pretty gmap.
From S2P Require Import Prelude Iofs Manifest Engine GoStrings ControlPlane.
Local Open Scope Z_scope.
Local Open Scope lsm_scope.

(** ** Routes *)

Section Routes.
Context {R : Type}.
Implicit Types m : gmap string (ShardStatus R).

Definition ranges m : gmap string (bytes * bytes) := (fun s => (StartKey s, EndKey s)) <$> m.

(** The ranges of [rs] follow one another, the first one after [prev]. *)
Fixpoint chain (prev : option bytes) (rs : list shardRoute) : Prop :=
  match rs with
  | [] => True
  | r :: rs =>
      (route_end r = [] \/ route_start r ≺ route_end r) /\
      match prev with None => True | Some e => e <> [] /\ route_start r <> [] /\ e ⪯ route_start r end /\
      chain (Some (route_end r)) rs
  end.

Lemma build_routes_returns m ids : forall seen prev, returned (build_routes m ids seen prev).
Proof.
  induction ids as [|id ids IH]; intros seen prev; cbn [build_routes]; [done|]. repeat case_bool_decide; try done.
  destruct (m !! TrimSpace id) as [shard|]; [|done]. specialize (IH ({[TrimSpace id]} ∪ seen) (Some (TrimSpace id, EndKey shard))).
  case_bool_decide; [done|]. destruct prev as [[? ?]|]; repeat case_bool_decide; try done; cbn [mbind result_bind]; by destruct (build_routes _ _ _ _).
Qed.

Lemma buildShardRoutes_returns m ids : returned (buildShardRoutes ids m).
Proof. unfold buildShardRoutes. repeat case_bool_decide; try done. apply build_routes_returns. Qed.

Lemma compare_not_Lt a b : bytes_compare a b <> Lt <-> b ⪯ a.
Proof. unfold BytesOT.le. rewrite (BytesOT.compare_antisym a b). destruct (bytes_compare a b); cbn; split; congruence. Qed.

Lemma build_routes_ok m ids : forall seen prev rs, build_routes m ids seen prev = Ok rs ->
  map route_id rs = map TrimSpace ids /\ NoDup (map route_id rs) /\ Forall (fun r => route_id r <> "" /\ route_id r ∉ seen) rs /\
  Forall (fun r => ranges m !! route_id r = Some (route_start r, route_end r)) rs /\ chain (snd <$> prev) rs.
Proof.
  induction ids as [|id ids IH]; intros seen prev rs; cbn [build_routes]; [intros [= <-]; by split_and!; try constructor|].
  case_bool_decide as Hne; [done|]. case_bool_decide as Hseen; [done|]. destruct (m !! TrimSpace id) as [shard|] eqn:Em; [|done].
  case_bool_decide as Hr; [done|]. destruct prev as [[pid pend]|].
  1: case_bool_decide as H1; [done|]; case_bool_decide as H2; [done|]; case_bool_decide as H3; [done|].
  all: cbn [mbind result_bind]; destruct (build_routes m ids _ _) as [rest| | |] eqn:Eb; try done; intros [= <-].
  all: apply IH in Eb as (E1 & E2 & E3 & E4 & E5); cbn [map fmap option_fmap option_map snd chain route_id route_start route_end]; rewrite E1.
  all: assert (Hnd : NoDup (TrimSpace id :: map TrimSpace ids)) by
    (constructor; [|by rewrite <- E1]; rewrite <- E1; intros (r & Er & Hin)%list_elem_of_fmap; rewrite Forall_forall in E3;
     destruct (E3 r Hin) as [_ Hn]; rewrite <- Er in Hn; set_solver).
  all: assert (Hrange : EndKey shard = [] \/ StartKey shard ≺ EndKey shard) by
    (destruct (decide (EndKey shard = [])) as [?|Hn]; [by left|right]; apply bytes_compare_Lt;
     destruct (decide (bytes_compare (StartKey shard) (EndKey shard) = Lt)); [done|by destruct Hr]).
  all: split_and!; try done.
  all: try (constructor; [by split|]; eapply Forall_impl; [exact E3|]; intros r [? ?]; split; [done|set_solver]).
  all: try (constructor; [cbn; unfold ranges; by rewrite lookup_fmap, Em|done]).
  by apply compare_not_Lt.
Qed.

Lemma build_routes_ext {R'} m (m' : gmap string (ShardStatus R')) ids : forall seen prev,
  ranges m = (fun s => (StartKey s, EndKey s)) <$> m' -> build_routes m ids seen prev = build_routes m' ids seen prev.
Proof.
  induction ids as [|id ids IH]; intros seen prev E; cbn [build_routes]; [done|]. case_bool_decide; [done|]. case_bool_decide; [done|].
  assert (Ei : (fun s => (StartKey s, EndKey s)) <$> (m !! TrimSpace id) = (fun s => (StartKey s, EndKey s)) <$> (m' !! TrimSpace id))
    by (rewrite <- !lookup_fmap; unfold ranges in E; by rewrite E).
  destruct (m !! TrimSpace id) as [s|], (m' !! TrimSpace id) as [s'|]; cbn in Ei; try done. injection Ei as -> ->.
  case_bool_decide; [done|]. destruct prev as [[? ?]|]; repeat case_bool_decide; try done; cbn [mbind result_bind]; by rewrite IH.
Qed.

(** Routes depend on the ranges of the shards only. *)
Lemma buildShardRoutes_ext {R'} ids m (m' : gmap string (ShardStatus R')) :
  ranges m = (fun s => (StartKey s, EndKey s)) <$> m' -> buildShardRoutes ids m = buildShardRoutes ids m'.
Proof.
  intros E. unfold buildShardRoutes. assert (Es : size m = size m') by (unfold ranges in E; by rewrite <- (map_size_fmap (fun s => (StartKey s, EndKey s)) m), E, map_size_fmap).
  rewrite Es, (build_routes_ext m m') by done. done.
Qed.

Lemma buildShardRoutes_spec ids m rs : buildShardRoutes ids m = Ok rs -> Forall trimmed ids ->
  ids <> [] /\ map route_id rs = ids /\ NoDup ids /\ Forall (.≠ "") ids /\ (forall id, id ∈ ids <-> is_Some (m !! id)) /\
  Forall (fun r => ranges m !! route_id r = Some (route_start r, route_end r)) rs /\ chain None rs.
Proof.
  unfold buildShardRoutes. case_bool_decide as H1; [done|]. case_bool_decide as H2; [done|]. case_bool_decide as H3; [done|].
  intros (E1 & E2 & E3 & E4 & E5)%build_routes_ok Ht. assert (Em : map TrimSpace ids = ids).
  { clear -Ht. induction Ht as [|id ids Hid _ IH]; [done|]. cbn. by rewrite Hid, IH. }
  rewrite Em in E1. rewrite E1 in E2. split_and!; try done.
  - rewrite <- E1. apply Forall_fmap. eapply Forall_impl; [exact E3|]. naive_solver.
  - assert (Hsub : forall id, id ∈ ids -> is_Some (m !! id)).
    { intros id Hid. rewrite <- E1 in Hid. apply list_elem_of_fmap in Hid as (r & -> & Hr). rewrite Forall_forall in E4. specialize (E4 r Hr).
      unfold ranges in E4. rewrite lookup_fmap in E4. destruct (m !! route_id r); [by eexists|done]. }
    assert (Hdom : (list_to_set ids : gset string) = dom m).
    { apply set_subseteq_size_eq; [intros id Hid%elem_of_list_to_set; by apply elem_of_dom, Hsub|]. rewrite size_dom, size_list_to_set by done. lia. }
    intros id. rewrite <- elem_of_dom, <- Hdom. by rewrite elem_of_list_to_set.
Qed.
End Routes.

(** ** Routing a key *)

Lemma chain_after rs : forall prev i r e, chain (Some prev) rs -> rs !! i = Some r -> prev = e -> e <> [] /\ route_start r <> [] /\ e ⪯ route_start r.
Proof.
  induction rs as [|x rs IH]; intros prev i r e; [done|]. cbn [chain]. intros (Hx & (H1 & H2 & H3) & Hc) Hi <-. destruct i as [|i]; [by injection Hi as ->|].
  destruct (IH _ i r (route_end x) Hc Hi eq_refl) as (H4 & H5 & H6). destruct Hx as [?|Hx]; [done|]. split_and!; [done..|]. bytes_order.
Qed.

Lemma chain_lt rs : forall prev i j r r', chain prev rs -> (i < j)%nat -> rs !! i = Some r -> rs !! j = Some r' ->
  route_end r <> [] /\ route_start r' <> [] /\ route_end r ⪯ route_start r'.
Proof.
  induction rs as [|x rs IH]; intros prev i j r r'; [done|]. cbn [chain]. intros (_ & _ & Hc) Hij Hi Hj. destruct j as [|j]; [lia|].
  destruct i as [|i]; [injection Hi as <-; by eapply chain_after|]. eapply (IH _ i j); [exact Hc|lia|done|done].
Qed.

Lemma chain_range rs : forall prev i r, chain prev rs -> rs !! i = Some r -> route_end r = [] \/ route_start r ≺ route_end r.
Proof.
  induction rs as [|x rs IH]; intros prev i r; [done|]. cbn [chain]. intros (Hx & _ & Hc) Hi.
  destruct i as [|i]; [by injection Hi as <-|]. by eapply IH.
Qed.

Lemma keyInRange_true key start stop :
  keyInRange key start stop = true <-> (start = [] \/ start ⪯ key) /\ (stop = [] \/ key ≺ stop).
Proof.
  unfold keyInRange. case_bool_decide as H1; [|case_bool_decide as H2].
  - split; [done|]. intros [[?|?] _]; [tauto|]. destruct H1 as [_ H1]. rewrite bytes_compare_Lt in H1. exfalso. bytes_order.
  - split; [done|]. intros [_ [?|H]]; [tauto|]. apply bytes_compare_Lt in H. tauto.
  - split; [intros _|done]. split.
    + destruct (decide (start = [])); [by left|right]. apply compare_not_Lt. tauto.
    + destruct (decide (stop = [])) as [|Hn]; [by left|right]. apply bytes_compare_Lt. destruct (decide (bytes_compare key stop = Lt)); tauto.
Qed.

Definition ends_after (key : bytes) (rs : list shardRoute) (i : nat) : bool :=
  match rs !! i with Some r => bool_decide (route_end r = [] \/ bytes_compare key (route_end r) = Lt) | None => false end.

Lemma ends_after_true key rs i : ends_after key rs i = true <-> exists r, rs !! i = Some r /\ (route_end r = [] \/ key ≺ route_end r).
Proof.
  unfold ends_after. destruct (rs !! i) as [r|]; [|naive_solver]. rewrite bool_decide_eq_true. setoid_rewrite bytes_compare_Lt. naive_solver.
Qed.

Lemma ends_after_mono key rs a b : chain None rs -> (a <= b < length rs)%nat -> ends_after key rs a = true -> ends_after key rs b = true.
Proof.
  intros Hc Hab. rewrite !ends_after_true. intros (r & Ha & Hr). destruct (decide (a = b)) as [->|Hne]; [by exists r|].
  destruct (lookup_lt_is_Some_2 rs b ltac:(lia)) as [r' Hb]. exists r'. split; [done|].
  destruct (chain_lt rs None a b r r' Hc ltac:(lia) Ha Hb) as (H1 & H2 & H3). destruct (chain_range rs None b r' Hc Hb) as [?|H4]; [by left|right].
  destruct Hr as [?|Hr]; [done|]. bytes_order.
Qed.

(** The binary search finds the route whose range holds the key. *)
Lemma search_route key rs i r : chain None rs -> rs !! i = Some r ->
  keyInRange key (route_start r) (route_end r) = true <->
  i = sort_Search (length rs) (ends_after key rs) /\ (route_start r = [] \/ route_start r ⪯ key).
Proof.
  intros Hc Hi. destruct (sort_Search_spec (length rs) (ends_after key rs)) as (Hle & Hlo & Hhi); [intros a b; by apply ends_after_mono|].
  set (n := sort_Search _ _) in *. cbv zeta in *. pose proof (lookup_lt_Some _ _ _ Hi) as Hlt. rewrite keyInRange_true. split.
  - intros [Hs He]. split; [|done]. assert (Ht : ends_after key rs i = true) by (apply ends_after_true; by exists r).
    destruct (decide (i < n)%nat) as [H|H]; [by rewrite Hlo in Ht|]. destruct (decide (n = i)) as [|Hne]; [done|exfalso].
    assert (Hn : ends_after key rs n = true) by (apply Hhi; lia). apply ends_after_true in Hn as (r0 & Hr0 & H0).
    destruct (chain_lt rs None n i r0 r Hc ltac:(lia) Hr0 Hi) as (H1 & H2 & H3). destruct H0 as [?|H0]; [done|]. destruct Hs as [?|Hs]; [done|]. bytes_order.
  - intros [-> Hs]. split; [done|]. assert (Hn : ends_after key rs n = true) by (apply Hhi; lia).
    apply ends_after_true in Hn as (r0 & Hr0 & H0). rewrite Hi in Hr0. by injection Hr0 as <-.
Qed.

(** ** The invariant *)

Definition slice_ok (h : heap) (s : rslice) : Prop := exists a, h !! sl_array s = Some a /\ (sl_len s <= length a)%nat.

Record ops_wf (ops : gmap string appliedOperationState) (ids : list string) : Prop := mkOpsWf {
  ow_nodup : NoDup ids;
  ow_bound : (length ids <= maxAppliedControlOps)%nat;
  ow_dom : forall id, id ∈ ids <-> is_Some (ops !! id);
  ow_op : forall id op, ops !! id = Some op -> ao_ID op = id /\ trimmed id /\ id <> "" /\ TrimSpace (Fingerprint op) <> ""
}.

Record cp_wf (c : controlPlane) : Prop := mkCpWf {
  wf_routes : buildShardRoutes (order c) (shards c) = Ok (routes c);
  wf_trimmed : Forall trimmed (order c);
  wf_ids : forall id s, shards c !! id = Some s -> ss_ID s = id;
  wf_slices : forall id s, shards c !! id = Some s -> slice_ok (arrays c) (ss_Replicas s);
  wf_heap : arrays c !! 0%nat = Some [];
  wf_ops : ops_wf (appliedOps c) (appliedOrder c)
}.

Section Invariant.
Context (c : controlPlane) (Hwf : cp_wf c).

Lemma wf_spec : order c <> [] /\ map route_id (routes c) = order c /\ NoDup (order c) /\ Forall (.≠ "") (order c) /\
  (forall id, id ∈ order c <-> is_Some (shards c !! id)) /\
  Forall (fun r => ranges (shards c) !! route_id r = Some (route_start r, route_end r)) (routes c) /\ chain None (routes c).
Proof. apply buildShardRoutes_spec; apply Hwf. Qed.

Lemma shard_route id s : shards c !! id = Some s -> exists i, routes c !! i = Some (mkRoute id (StartKey s) (EndKey s)).
Proof.
  intros Es. destruct wf_spec as (_ & Em & _ & _ & Hdom & Hr & _). assert (Hin : id ∈ order c) by (apply Hdom; by eexists).
  rewrite <- Em in Hin. apply list_elem_of_fmap in Hin as (r & -> & Hin). apply list_elem_of_lookup in Hin as [i Hi]. exists i. rewrite Hi. f_equal.
  rewrite Forall_lookup in Hr. specialize (Hr i r Hi). unfold ranges in Hr. rewrite lookup_fmap, Es in Hr. injection Hr as H1 H2. destruct r. cbn in *. congruence.
Qed.

Lemma route_shard i r : routes c !! i = Some r -> exists s, shards c !! route_id r = Some s /\ route_start r = StartKey s /\ route_end r = EndKey s.
Proof.
  intros Hi. destruct wf_spec as (_ & _ & _ & _ & _ & Hr & _). rewrite Forall_lookup in Hr. specialize (Hr i r Hi). unfold ranges in Hr.
  rewrite lookup_fmap in Hr. destruct (shards c !! route_id r) as [s|]; [|done]. injection Hr as H1 H2. by exists s.
Qed.

Lemma shardForKey_spec key s : shardForKeyLocked c key = Some s <->
  exists id, shards c !! id = Some s /\ keyInRange key (StartKey s) (EndKey s) = true.
Proof.
  destruct wf_spec as (Hne & Em & _ & _ & _ & _ & Hc). unfold shardForKeyLocked.
  rewrite bool_decide_false by (intros E; rewrite E in Em; by destruct (order c)).
  fold (ends_after key (routes c)). set (n := sort_Search _ _). split.
  - destruct (routes c !! n) as [r|] eqn:En; [|done]. case_bool_decide as Hs; [done|]. intros Es. exists (route_id r). split; [done|].
    destruct (route_shard n r En) as (s' & Es' & H1 & H2). rewrite Es in Es'. injection Es' as <-. rewrite <- H1, <- H2.
    apply (search_route key (routes c) n r Hc En). split; [done|]. destruct (decide (route_start r = [])); [by left|right]. apply compare_not_Lt. tauto.
  - intros (id & Es & Hk). destruct (shard_route id s Es) as (i & Hi). pose proof (search_route key (routes c) i _ Hc Hi) as Hsr. cbn in Hsr.
    destruct (proj1 Hsr Hk) as [Ei Hs]. fold n in Ei. rewrite Ei in Hi. rewrite Hi. cbn. rewrite bool_decide_false; [done|]. intros [Hn HL]. destruct Hs as [?|Hs]; [done|].
    rewrite bytes_compare_Lt in HL. bytes_order.
Qed.
End Invariant.

(** ** Slices *)

(** A later heap: the slices of an earlier one stay within their arrays. *)
Record heap_le (h h' : heap) : Prop := mkHeapLe {
  hl_slices : forall s, slice_ok h s -> slice_ok h' s;
  hl_nil : h !! 0%nat = Some [] -> h' !! 0%nat = Some []
}.

#[export] Instance heap_le_preorder : PreOrder heap_le.
Proof. split; [split; auto|]. intros h1 h2 h3 [H1 H2] [H3 H4]. split; auto. Qed.

Lemma heap_le_app h x : heap_le h (h ++ x).
Proof.
  split; [|intros Hn; by apply lookup_app_l_Some]. intros s (a & Ha & Hl). exists a. by rewrite (lookup_app_l_Some _ _ _ _ Ha).
Qed.

Lemma heap_le_insert h i a b : h !! i = Some a -> length b = length a -> heap_le h (<[i := b]> h).
Proof.
  intros Hi Hl. split.
  - intros s (x & Hx & Hs). destruct (decide (sl_array s = i)) as [<-|Hne]; [|exists x; by rewrite list_lookup_insert_ne].
    exists b. rewrite list_lookup_insert_eq by (by eapply lookup_lt_Some). rewrite Hi in Hx. injection Hx as ->. by rewrite Hl.
  - intros H0. destruct (decide (i = 0%nat)) as [->|Hne]; [|by rewrite list_lookup_insert_ne]. rewrite H0 in Hi. injection Hi as <-.
    rewrite list_lookup_insert_eq by (by eapply lookup_lt_Some). by destruct b.
Qed.

Lemma slice_values_app h x s : slice_ok h s -> slice_values (h ++ x) s = slice_values h s.
Proof. intros (a & Ha & _). unfold slice_values. by rewrite (lookup_app_l_Some _ _ _ _ Ha), Ha. Qed.

Lemma slice_make_spec vs h : let '(s, h') := slice_make vs h in heap_le h h' /\ slice_ok h' s /\ slice_values h' s = vs.
Proof.
  unfold slice_make, slice_ok, slice_values. cbn. rewrite list_lookup_middle by done. split_and!; [apply heap_le_app|by exists vs|]. by rewrite take_ge.
Qed.

Lemma new_array_spec grow oldcap vs h : let '(s, h') := new_array grow oldcap vs h in
  heap_le h h' /\ slice_ok h' s /\ slice_values h' s = vs /\ (forall s', slice_ok h s' -> slice_values h' s' = slice_values h s').
Proof.
  unfold new_array. split_and!; [apply heap_le_app| | |intros s' Hs'; by apply slice_values_app]; unfold slice_ok, slice_values; cbn; rewrite list_lookup_middle by done.
  - eexists. split; [done|]. rewrite length_app. lia.
  - cbn. by rewrite take_app_length.
Qed.

Lemma slice_copy_spec grow vs h : h !! 0%nat = Some [] -> let '(s, h') := slice_copy grow vs h in
  heap_le h h' /\ slice_ok h' s /\ slice_values h' s = vs /\ (forall s', slice_ok h s' -> slice_values h' s' = slice_values h s').
Proof.
  intros H0. unfold slice_copy. destruct vs as [|v vs]; [|apply new_array_spec]. split_and!; [done| |by unfold slice_values; cbn; rewrite H0|done].
  exists []. by split.
Qed.

Lemma set_roles_spec leader s h : slice_ok h s ->
  heap_le h (set_roles leader s h) /\ slice_values (set_roles leader s h) s = map (with_role leader) (slice_values h s).
Proof.
  intros (a & Ha & Hl). unfold set_roles, slice_values. rewrite Ha. split.
  - apply (heap_le_insert h _ a); [done|]. rewrite length_app, length_map, length_take, length_drop. lia.
  - rewrite list_lookup_insert_eq by (by eapply lookup_lt_Some). cbn. rewrite take_app_le by (rewrite length_map, length_take; lia).
    rewrite take_ge; [done|]. rewrite length_map, length_take. lia.
Qed.

Lemma slice_append_spec grow s r h : slice_ok h s -> let '(s', h') := slice_append grow s r h in
  heap_le h h' /\ slice_ok h' s' /\ slice_values h' s' = slice_values h s ++ [r].
Proof.
  intros (a & Ha & Hl). unfold slice_append. rewrite Ha. change (default [] (Some a)) with a. case_bool_decide as Hc.
  - split_and!.
    + apply (heap_le_insert h _ a); [done|]. apply length_insert.
    + exists (<[sl_len s := r]> a). cbn. rewrite list_lookup_insert_eq by (by eapply lookup_lt_Some). rewrite length_insert. split; [done|]. cbn. lia.
    + unfold slice_values. cbn. rewrite Ha, list_lookup_insert_eq by (by eapply lookup_lt_Some). cbn.
      rewrite (take_S_r _ _ r) by (by apply list_lookup_insert_eq). by rewrite take_insert_ge.
  - pose proof (new_array_spec grow (length a) (take (sl_len s) a ++ [r]) h) as Hn. destruct (new_array _ _ _ _) as [s' h'].
    destruct Hn as (H1 & H2 & H3 & _). split_and!; [done..|]. rewrite H3. unfold slice_values. by rewrite Ha.
Qed.

(** ** Snapshots and their installation *)

Section Restore.
Context (grow : nat -> nat -> nat).

Lemma install_shards_spec l : forall m h, h !! 0%nat = Some [] -> NoDup (map ss_ID l) ->
  let '(m', h') := fold_left (install_shard grow) l (m, h) in
  heap_le h h' /\ (forall s, slice_ok h s -> slice_values h' s = slice_values h s) /\
  (forall id, id ∉ map ss_ID l -> m' !! id = m !! id) /\
  (forall sh, sh ∈ l -> exists s, m' !! ss_ID sh = Some s /\ slice_ok h' (ss_Replicas s) /\ shard_values h' s = sh).
Proof.
  induction l as [|x l IH]; intros m h H0 Hnd; cbn [fold_left map] in *; [split_and!; [done..|by intros sh ?%elem_of_nil]|].
  apply NoDup_cons in Hnd as [Hx Hnd]. unfold install_shard at 2. cbn [fst snd]. pose proof (slice_copy_spec grow (ss_Replicas x) h H0) as Hc.
  destruct (slice_copy _ _ _) as [s1 h1]. destruct Hc as (Hle & Hs1 & Hv1 & Hkeep).
  specialize (IH (<[ss_ID x := mkShard (WriteLeader x) (ss_ID x) (StartKey x) (EndKey x) (Leader x) s1]> m) h1 (hl_nil _ _ Hle H0) Hnd).
  destruct (fold_left _ _ _) as [m' h']. destruct IH as (Hle' & Hkeep' & Hout & Hin). split_and!.
  - by etrans.
  - intros s Hs. rewrite Hkeep' by (by apply Hle). by apply Hkeep.
  - intros id Hid. apply not_elem_of_cons in Hid as [Hne Hid]. rewrite Hout by done. by rewrite lookup_insert_ne.
  - intros sh [->|Hsh]%elem_of_cons; [|by apply Hin]. eexists. rewrite Hout, lookup_insert_eq by done. split_and!; [done|by apply Hle'|].
    unfold shard_values. cbn. rewrite Hkeep', Hv1 by done. by destruct x.
Qed.

Lemma install_ops_spec ops : forall m ids, Forall (fun op => trimmed (ao_ID op)) ops -> NoDup (map ao_ID ops) ->
  let '(m', ids') := fold_left install_op ops (m, ids) in
  ids' = ids ++ map ao_ID ops /\ (forall id, id ∉ map ao_ID ops -> m' !! id = m !! id) /\ (forall op, op ∈ ops -> m' !! ao_ID op = Some op).
Proof.
  induction ops as [|x ops IH]; intros m ids Ht Hnd; cbn [fold_left map] in *; [by rewrite app_nil_r; split_and!; [..|by intros op ?%elem_of_nil]|].
  apply Forall_cons in Ht as [Hx Ht]. apply NoDup_cons in Hnd as [Hni Hnd]. unfold install_op at 2. cbn [fst snd]. rewrite Hx.
  specialize (IH (<[ao_ID x := mkAppliedOp (ao_ID x) (Fingerprint x) (ao_Revision x)]> m) (ids ++ [ao_ID x]) Ht Hnd).
  destruct (fold_left _ _ _) as [m' ids']. destruct IH as (-> & Hout & Hin). split_and!.
  - by rewrite <- app_assoc.
  - intros id Hid. apply not_elem_of_cons in Hid as [Hne Hid]. rewrite Hout by done. by rewrite lookup_insert_ne.
  - intros op [->|Hop]%elem_of_cons; [|by apply Hin]. rewrite Hout, lookup_insert_eq by done. by destruct x.
Qed.

(** What a snapshot does not hold. *)
Definition same_node (c c' : controlPlane) : Prop :=
  nodeID c' = nodeID c /\ clusterID c' = clusterID c /\ storageMode c' = storageMode c /\ raft c' = raft c.

#[export] Instance same_node_preorder : PreOrder same_node.
Proof. split; [by intros c|]. intros c1 c2 c3 (A1 & A2 & A3 & A4) (B1 & B2 & B3 & B4). repeat split; congruence. Qed.

Lemma shard_at_wf c id : cp_wf c -> id ∈ order c -> shards c !! id = Some (shard_at c id).
Proof.
  intros Hwf Hid. destruct (wf_spec c Hwf) as (_ & _ & _ & _ & Hdom & _). apply Hdom in Hid as [s Hs]. unfold shard_at. by rewrite Hs.
Qed.

Lemma snapshot_ids c : cp_wf c -> map ss_ID (Shards (snapshotStateLocked c)) = order c.
Proof.
  intros Hwf. cbn. rewrite map_map. rewrite <- (map_id (order c)) at 2. apply map_ext_in. intros id Hid. apply list_elem_of_In in Hid. cbn.
  by rewrite (wf_ids c Hwf _ _ (shard_at_wf c id Hwf Hid)).
Qed.

Lemma snapshot_ops (ops : gmap string appliedOperationState) (ids : list string) : (forall id, id ∈ ids -> exists op, ops !! id = Some op /\ ao_ID op = id) ->
  map ao_ID (omap (fun id => ops !! id) ids) = ids.
Proof.
  induction ids as [|id ids IH]; intros H; [done|]. cbn. destruct (H id ltac:(by left)) as (op & -> & Hid). cbn. rewrite Hid, IH; [done|].
  intros id' Hin. apply H. by right.
Qed.

Lemma snapshot_op_ids c : cp_wf c -> map ao_ID (appliedOpsSnapshotLocked c) = appliedOrder c.
Proof.
  intros Hwf. apply snapshot_ops. intros id Hid. destruct (wf_ops c Hwf) as [_ _ Hdom Hop]. apply Hdom in Hid as [op E]. exists op. split; [done|]. by apply (Hop id).
Qed.

Lemma snapshot_op_elem c op : cp_wf c -> op ∈ appliedOpsSnapshotLocked c -> appliedOps c !! ao_ID op = Some op /\ trimmed (ao_ID op) /\ TrimSpace (Fingerprint op) <> "".
Proof.
  intros Hwf. unfold appliedOpsSnapshotLocked. rewrite list_elem_of_omap. intros (id & _ & E). destruct (ow_op _ _ (wf_ops c Hwf) id op E) as (-> & H1 & _ & H2). done.
Qed.

Lemma install_ops_snapshot c : cp_wf c -> fold_left install_op (appliedOpsSnapshotLocked c) (∅, []) = (appliedOps c, appliedOrder c).
Proof.
  intros Hwf. pose proof (install_ops_spec (appliedOpsSnapshotLocked c) ∅ []) as Ho. rewrite (snapshot_op_ids c Hwf) in Ho.
  destruct (fold_left install_op _ _) as [ops ids].
  destruct Ho as (-> & Hout & Hin); [apply Forall_forall; intros op Hop; by apply (snapshot_op_elem c op Hwf)|apply (wf_ops c Hwf)|].
  f_equal. apply map_eq. intros id. destruct (appliedOps c !! id) as [op|] eqn:E.
  - destruct (ow_op _ _ (wf_ops c Hwf) id op E) as (Hid & _). rewrite <- Hid. apply Hin. unfold appliedOpsSnapshotLocked. rewrite list_elem_of_omap.
    exists id. split; [|done]. apply (ow_dom _ _ (wf_ops c Hwf)). by eexists.
  - rewrite Hout; [done|]. intros [op Hop]%(ow_dom _ _ (wf_ops c Hwf)). congruence.
Qed.

Lemma install_shards_snapshot c h0 : cp_wf c -> h0 !! 0%nat = Some [] -> exists m h,
  fold_left (install_shard grow) (Shards (snapshotStateLocked c)) (∅, h0) = (m, h) /\ heap_le h0 h /\ buildShardRoutes (order c) m = Ok (routes c) /\
  (forall id s, m !! id = Some s -> id ∈ order c) /\
  (forall id, id ∈ order c -> exists s, m !! id = Some s /\ slice_ok h (ss_Replicas s) /\ shard_values h s = shard_values (arrays c) (shard_at c id)).
Proof.
  intros Hwf H0. pose proof (install_shards_spec (Shards (snapshotStateLocked c)) ∅ h0 H0) as Hs. rewrite snapshot_ids in Hs by done.
  pose proof (wf_spec c Hwf) as (_ & _ & Hnd & _ & Hdom & _ & _). specialize (Hs Hnd).
  destruct (fold_left (install_shard grow) _ _) as [m h]. destruct Hs as (Hle & _ & Hout & Hin). exists m, h. split; [done|]. split; [done|].
  assert (Hat : forall id, id ∈ order c -> exists s, m !! id = Some s /\ slice_ok h (ss_Replicas s) /\ shard_values h s = shard_values (arrays c) (shard_at c id)).
  { intros id Hid. destruct (Hin (shard_values (arrays c) (shard_at c id))) as (s & Es & H1 & H2); [cbn; apply list_elem_of_fmap; by exists id|].
    cbn in Es. rewrite (wf_ids c Hwf _ _ (shard_at_wf c id Hwf Hid)) in Es. by exists s. }
  split_and!; [| |done].
  - rewrite <- (wf_routes c Hwf). apply buildShardRoutes_ext. unfold ranges. apply map_eq. intros id. rewrite !lookup_fmap.
    destruct (decide (id ∈ order c)) as [Hid|Hn].
    + destruct (Hat id Hid) as (s & -> & _ & Ev). rewrite (shard_at_wf c id Hwf Hid). cbn. unfold shard_values in Ev. by injection Ev as _ _ -> ->.
    + rewrite Hout, lookup_empty by done. destruct (shards c !! id) as [s|] eqn:Es; [|done]. destruct Hn. apply Hdom. by eexists.
  - intros id s Es. destruct (decide (id ∈ order c)) as [|Hn]; [done|]. by rewrite Hout in Es.
Qed.

(** Installing the snapshot of a well-formed control plane gives it back, in
    whatever state the node is. *)
Lemma restore_spec c c1 : cp_wf c -> same_node c c1 -> arrays c1 !! 0%nat = Some [] -> exists c2,
  applyState grow (snapshotStateLocked c) c1 = (Ok tt, c2) /\ cp_wf c2 /\ snapshotStateLocked c2 = snapshotStateLocked c /\
  appliedOps c2 = appliedOps c /\ commitErr c2 = commitErr c1.
Proof.
  intros Hwf (E1 & E2 & E3 & E4) H0. unfold applyState. rewrite SE_get_bind.
  destruct (install_shards_snapshot c (arrays c1) Hwf H0) as (m & h & -> & Hle & Hr & Hm & Hat).
  change (AppliedOps (snapshotStateLocked c)) with (appliedOpsSnapshotLocked c). rewrite (install_ops_snapshot c Hwf).
  unfold rebuildRoutesLocked, mbind, SE_bind, put, get, lift, modify. cbn [order shards snapshotStateLocked Order]. rewrite Hr. eexists. split; [done|]. split_and!.
  - constructor; cbn; [done|apply Hwf| | |by apply (hl_nil _ _ Hle)|apply Hwf].
    + intros id s Es. destruct (Hat id (Hm id s Es)) as (s' & Es' & _ & Ev). rewrite Es in Es'. injection Es' as <-. unfold shard_values in Ev. injection Ev as _ -> _ _ _ _.
      by rewrite (wf_ids c Hwf _ _ (shard_at_wf c id Hwf (Hm id s Es))).
    + intros id s Es. destruct (Hat id (Hm id s Es)) as (s' & Es' & Hok & _). rewrite Es in Es'. by injection Es' as <-.
  - unfold snapshotStateLocked, appliedOpsSnapshotLocked. cbn. rewrite E1, E2, E3, E4. f_equal. apply map_ext_in. intros id Hid%list_elem_of_In.
    unfold shard_at at 1. cbn. destruct (Hat id Hid) as (s & Es & _ & Ev). by rewrite Es.
  - done.
  - done.
Qed.
End Restore.

(** ** A snapshot is a valid state file *)

Lemma validate_shards_ok {R} (l : list (ShardStatus R)) : forall m, NoDup (map ss_ID l) -> Forall (fun sh => TrimSpace (ss_ID sh) <> "") l ->
  (forall sh, sh ∈ l -> m !! ss_ID sh = None) -> exists m', validate_shards l m = Ok m' /\
  (forall id, id ∉ map ss_ID l -> m' !! id = m !! id) /\ (forall sh, sh ∈ l -> m' !! ss_ID sh = Some sh).
Proof.
  induction l as [|x l IH]; intros m Hnd Ht Hm; cbn [validate_shards map] in *; [exists m; split_and!; [done..|by intros sh ?%elem_of_nil]|].
  apply NoDup_cons in Hnd as [Hx Hnd]. apply Forall_cons in Ht as [Htx Ht]. rewrite bool_decide_false by done.
  rewrite (Hm x) by (by left). rewrite bool_decide_false by (by intros [? ?]).
  destruct (IH (<[ss_ID x := x]> m) Hnd Ht) as (m' & E & Hout & Hin).
  { intros sh Hsh. rewrite lookup_insert_ne; [apply Hm; by right|]. intros E. destruct Hx. rewrite E. by apply list_elem_of_fmap_2. }
  exists m'. split_and!; [done| |].
  - intros id [Hne Hid]%not_elem_of_cons. rewrite Hout by done. by rewrite lookup_insert_ne.
  - intros sh [->|Hsh]%elem_of_cons; [|by apply Hin]. by rewrite Hout, lookup_insert_eq.
Qed.

Lemma validate_ops_ok ops : forall seen, NoDup (map ao_ID ops) ->
  Forall (fun op => trimmed (ao_ID op) /\ ao_ID op <> "" /\ TrimSpace (Fingerprint op) <> "" /\ ao_ID op ∉ seen) ops -> validate_ops ops seen = Ok tt.
Proof.
  induction ops as [|x ops IH]; intros seen Hnd Hf; cbn [validate_ops map] in *; [done|]. apply NoDup_cons in Hnd as [Hx Hnd].
  apply Forall_cons in Hf as [(H1 & H2 & H3 & H4) Hf]. rewrite H1. rewrite !bool_decide_false by done. apply IH; [done|].
  rewrite Forall_forall in Hf |- *. intros op Hop. destruct (Hf op Hop) as (H5 & H6 & H7 & H8). split_and!; [done..|].
  assert (ao_ID op <> ao_ID x) by (intros E; apply Hx; rewrite <- E; by apply list_elem_of_fmap_2). set_solver.
Qed.

Lemma snapshot_valid c : cp_wf c -> validateControlPlaneState (snapshotStateLocked c) = Ok tt.
Proof.
  intros Hwf. pose proof (wf_spec c Hwf) as (Hne & _ & Hnd & Hids & Hdom & _ & _). unfold validateControlPlaneState.
  rewrite bool_decide_false by done. rewrite bool_decide_false by (cbn; by destruct (order c)).
  destruct (validate_shards_ok (Shards (snapshotStateLocked c)) ∅) as (m & -> & Hout & Hin).
  { by rewrite snapshot_ids. }
  { apply Forall_forall. intros sh Hsh. assert (Hi : ss_ID sh ∈ order c) by (rewrite <- (snapshot_ids c Hwf); by apply list_elem_of_fmap_2).
    pose proof (wf_trimmed c Hwf) as Ht. rewrite Forall_forall in Ht, Hids. rewrite (Ht _ Hi). by apply Hids. }
  { intros. apply lookup_empty. }
  rewrite snapshot_ids in Hout by done. cbn [mbind result_bind].
  assert (E : buildShardRoutes (Order (snapshotStateLocked c)) m = Ok (routes c)).
  { rewrite <- (wf_routes c Hwf). apply buildShardRoutes_ext. unfold ranges. apply map_eq. intros id. rewrite !lookup_fmap.
    destruct (decide (id ∈ order c)) as [Hid|Hn].
    - pose proof (Hin (shard_values (arrays c) (shard_at c id)) ltac:(cbn; apply list_elem_of_fmap; by exists id)) as Es. cbn in Es.
      rewrite (wf_ids c Hwf _ _ (shard_at_wf c id Hwf Hid)) in Es. by rewrite Es, (shard_at_wf c id Hwf Hid).
    - rewrite Hout, lookup_empty by done. destruct (shards c !! id) as [s|] eqn:Es; [|done]. destruct Hn. apply Hdom. by eexists. }
  rewrite E. cbn [mbind result_bind]. change (AppliedOps (snapshotStateLocked c)) with (appliedOpsSnapshotLocked c).
  rewrite bool_decide_false.
  2:{ rewrite <- (length_map ao_ID), (snapshot_op_ids c Hwf). pose proof (ow_bound _ _ (wf_ops c Hwf)). lia. }
  apply validate_ops_ok; [rewrite (snapshot_op_ids c Hwf); apply (wf_ops c Hwf)|]. apply Forall_forall. intros op Hop.
  destruct (snapshot_op_elem c op Hwf Hop) as (Hl & H1 & H2). split_and!; [done| |done|set_solver]. by apply (ow_op _ _ (wf_ops c Hwf) _ _ Hl).
Qed.

(** ** Fresh shard ids *)

Definition candidate (base : string) (i : Z) : string := base +:+ "-" +:+ pretty i.

Lemma string_app_inj (a b c : string) : a +:+ b = a +:+ c -> b = c.
Proof. induction a as [|x a IH]; [done|]. cbn. intros E. apply IH. by injection E. Qed.

Lemma str_app_assoc (a b c : string) : a +:+ (b +:+ c) = (a +:+ b) +:+ c.
Proof. induction a as [|x a IH]; [done|]. exact (f_equal (String x) IH). Qed.

Lemma candidate_inj base i j : candidate base i = candidate base j -> i = j.
Proof. intros E. apply (inj pretty). by do 2 apply string_app_inj in E. Qed.

Lemma unique_from_cases m base fuel : forall i, (exists j, unique_from fuel m base i = Ok (candidate base j) /\ i <= j /\ m !! candidate base j = None) \/
  (forall k, i <= k < i + Z.of_nat fuel -> is_Some (m !! candidate base k)).
Proof.
  induction fuel as [|fuel IH]; intros i; cbn [unique_from]; [right; lia|]. fold (candidate base i). case_bool_decide as E; [left; by exists i|].
  destruct (IH (i + 1)) as [(j & H1 & H2 & H3)|H]; [left; exists j; split_and!; [done|lia|done]|right]. intros k Hk.
  destruct (decide (k = i)) as [->|]; [|apply H; lia]. by destruct (m !! candidate base i).
Qed.

(** The loop of [uniqueShardID] ends with an id that is not in use. *)
Lemma uniqueShardID_spec m base : exists id, uniqueShardID m base = Ok id /\ m !! id = None /\ (id = base \/ exists j, 2 <= j /\ id = candidate base j).
Proof.
  unfold uniqueShardID. case_bool_decide as Hb; [exists base; auto|].
  destruct (unique_from_cases m base (S (size m)) 2) as [(j & -> & Hj & Hn)|Hall]; [exists (candidate base j); split_and!; [done..|right; by exists j]|exfalso].
  set (l := map (fun k => candidate base (2 + Z.of_nat k)) (seq 0 (S (size m)))).
  assert (Hl : NoDup l) by (apply NoDup_fmap_2; [intros a b E%candidate_inj; lia|apply NoDup_seq]).
  assert (Hs : (list_to_set l : gset string) ⊆ dom m).
  { intros id Hid%elem_of_list_to_set. apply list_elem_of_fmap in Hid as (k & -> & Hk%elem_of_seq). apply elem_of_dom, Hall. lia. }
  apply subseteq_size in Hs. rewrite size_list_to_set, size_dom in Hs by done. unfold l in Hs. rewrite length_map, length_seq in Hs. lia.
Qed.

Lemma trimmed_unique id base : trimmed base -> base <> "" -> (id = base \/ exists j, 2 <= j /\ id = candidate base j) -> trimmed id.
Proof.
  intros Ht Hne [->|(j & Hj & ->)]; [done|]. unfold candidate. apply trimmed_app; [done..|]. rewrite list_ascii_of_string_app.
  apply Forall_app. split; [repeat constructor; unfold printable; cbn; lia|]. apply pretty_printable. lia.
Qed.

(** ** What a control plane is: ranges of keys and their leaders *)

Record arange := mkArange { ar_id : string; ar_start : bytes; ar_end : bytes; ar_leader : string }.

Definition arange_of (s : ShardStatus rslice) : arange := mkArange (ss_ID s) (StartKey s) (EndKey s) (Leader s).
Definition aview (c : controlPlane) : list arange := map (fun id => arange_of (shard_at c id)) (order c).
Definition with_leader (l : string) (a : arange) : arange := mkArange (ar_id a) (ar_start a) (ar_end a) l.

(** One applied mutation. *)
Inductive mutation_step : ControlMutation -> list arange -> list arange -> Prop :=
| step_transfer m l a r : cm_Kind m = "transfer-leader" -> ar_id a = ShardID m ->
    mutation_step m (l ++ a :: r) (l ++ with_leader (Target m) a :: r)
| step_split m l a r left right : cm_Kind m = "split" -> ar_id a = ShardID m ->
    left <> right -> left ∉ map ar_id (l ++ a :: r) -> right ∉ map ar_id (l ++ a :: r) ->
    ar_start a ≺ Split m -> (ar_end a = [] \/ Split m ≺ ar_end a) ->
    mutation_step m (l ++ a :: r)
      (l ++ mkArange left (ar_start a) (Split m) (ar_leader a) :: mkArange right (Split m) (ar_end a) (ar_leader a) :: r)
| step_drain m as1 as2 : cm_Kind m = "prepare-drain" ->
    Forall2 (fun a b => exists t, b = with_leader t a /\ (if decide (ar_leader a = cm_NodeID m) then t <> cm_NodeID m else t = ar_leader a)) as1 as2 ->
    mutation_step m as1 as2.

(** What no mutation changes. *)
Record kept (c c' : controlPlane) : Prop := mkKept {
  kept_node : same_node c c';
  kept_err : commitErr c' = commitErr c;
  kept_index : commitLogAppliedIndex c' = commitLogAppliedIndex c;
  kept_rev : revision c' = revision c;
  kept_ops : appliedOps c' = appliedOps c;
  kept_opids : appliedOrder c' = appliedOrder c;
  kept_nil : arrays c !! 0%nat = Some [] -> arrays c' !! 0%nat = Some []
}.

#[export] Instance kept_preorder : PreOrder kept.
Proof.
  split; [by intros c; split|]. intros c1 c2 c3 [(A1 & A2 & A3 & A4) ? ? ? ? ? ?] [(B1 & B2 & B3 & B4) ? ? ? ? ? ?].
  split; [split_and!|..]; try congruence; auto.
Qed.

(** A shard replaced by one of the same id and range. *)
Definition same_range (s s' : ShardStatus rslice) : Prop := ss_ID s' = ss_ID s /\ StartKey s' = StartKey s /\ EndKey s' = EndKey s.

Lemma kept_shards m h c : heap_le (arrays c) h -> kept c (set_shards m h c).
Proof. intros Hle. split; try done. apply (hl_nil _ _ Hle). Qed.

Lemma wf_update c id s s' h : cp_wf c -> shards c !! id = Some s -> same_range s s' -> heap_le (arrays c) h -> slice_ok h (ss_Replicas s') ->
  cp_wf (set_shards (<[id := s']> (shards c)) h c).
Proof.
  intros Hwf Es (E1 & E2 & E3) Hle Hok. constructor; cbn; [|apply Hwf| | |apply (hl_nil _ _ Hle), Hwf|apply Hwf].
  - rewrite <- (wf_routes c Hwf). apply buildShardRoutes_ext. unfold ranges. rewrite fmap_insert, insert_id; [done|]. rewrite lookup_fmap, Es. cbn. by rewrite E2, E3.
  - intros id' x. destruct (decide (id' = id)) as [->|Hne]; [rewrite lookup_insert_eq; intros [= <-]; rewrite E1; by apply (wf_ids c Hwf)|].
    rewrite lookup_insert_ne by done. apply (wf_ids c Hwf).
  - intros id' x. destruct (decide (id' = id)) as [->|Hne]; [rewrite lookup_insert_eq; by intros [= <-]|].
    rewrite lookup_insert_ne by done. intros Hx. apply Hle. by apply (wf_slices c Hwf id').
Qed.

Lemma aview_split c id s : cp_wf c -> shards c !! id = Some s -> exists l r, order c = l ++ id :: r /\ id ∉ l /\ id ∉ r.
Proof.
  intros Hwf Es. destruct (wf_spec c Hwf) as (_ & _ & Hnd & _ & Hdom & _). assert (Hid : id ∈ order c) by (apply Hdom; by eexists).
  apply list_elem_of_split in Hid as (l & r & E). exists l, r. rewrite E in Hnd. apply NoDup_app in Hnd as (_ & Hlr & Hr). apply NoDup_cons in Hr as [Hr _].
  split_and!; [done| |done]. intros Hl. destruct (Hlr id Hl). by left.
Qed.

Lemma aview_insert_out m h c id s' ids : id ∉ ids ->
  map (fun i => arange_of (shard_at (set_shards (<[id := s']> m) h c) i)) ids = map (fun i => arange_of (shard_at (set_shards m h c) i)) ids.
Proof.
  intros Hid. apply map_ext_in. intros i Hi%list_elem_of_In. unfold shard_at. cbn. rewrite lookup_insert_ne; [done|]. by intros ->.
Qed.

(** Two adjacent shards: the first has a non-empty range before the second. *)
Lemma adjacent_shards c l x y r sx sy : cp_wf c -> order c = l ++ x :: y :: r -> shards c !! x = Some sx -> shards c !! y = Some sy ->
  StartKey sx ≺ EndKey sx /\ (EndKey sy = [] \/ StartKey sy ≺ EndKey sy).
Proof.
  intros Hwf Eo Ex Ey. destruct (wf_spec c Hwf) as (_ & Em & _ & _ & _ & _ & Hc). rewrite Eo in Em.
  assert (Hat : forall i id s, (l ++ x :: y :: r) !! i = Some id -> shards c !! id = Some s -> exists rt, routes c !! i = Some rt /\ route_start rt = StartKey s /\ route_end rt = EndKey s).
  { intros i id s Hi Es. rewrite <- Em, list_lookup_fmap in Hi. destruct (routes c !! i) as [rt|] eqn:E; [|done]. injection Hi as <-. exists rt.
    destruct (route_shard c Hwf i rt E) as (s' & Es' & H1 & H2). rewrite Es in Es'. by injection Es' as <-. }
  destruct (Hat (length l) x sx) as (rx & Hx & X1 & X2); [by apply list_lookup_middle|done|].
  destruct (Hat (S (length l)) y sy) as (ry & Hy & Y1 & Y2); [rewrite lookup_app_r by lia; by replace (S (length l) - length l)%nat with 1%nat by lia|done|].
  destruct (chain_lt _ _ _ _ _ _ Hc (Nat.lt_succ_diag_r _) Hx Hy) as (H1 & _). rewrite <- X1, <- X2, <- Y1, <- Y2. split.
  - by destruct (chain_range _ _ _ _ Hc Hx).
  - by apply (chain_range _ _ _ _ Hc Hy).
Qed.

Lemma flat_map_out {A} `{EqDecision A} (id : A) new ids : id ∉ ids -> flat_map (fun i => if bool_decide (i = id) then new else [i]) ids = ids.
Proof.
  induction ids as [|i ids IH]; [done|]. intros [Hne Hid]%not_elem_of_cons. cbn. rewrite bool_decide_false by done. cbn. by rewrite IH.
Qed.

Section Payloads.
Context (grow : nat -> nat -> nat).

(** What a payload does to a well-formed control plane. *)
Definition payload_spec (m : ControlMutation) (apply : SE controlPlane unit) (c : controlPlane) : Prop :=
  wpx apply (fun _ c' => cp_wf c' /\ kept c c' /\ mutation_step m (aview c) (aview c') /\
                         draining c' = draining c || bool_decide (cm_Kind m = "prepare-drain" /\ cm_NodeID m = nodeID c))
    (fun _ c' => kept c c') c.

Lemma transfer_spec m c : cp_wf c -> cm_Kind m = "transfer-leader" -> payload_spec m (applyTransferLeaderPayloadLocked grow m) c.
Proof.
  intros Hwf Hk. unfold applyTransferLeaderPayloadLocked, payload_spec. apply wpx_get. destruct (shards c !! ShardID m) as [shard|] eqn:Es; [|by cbn].
  pose proof (wf_slices c Hwf _ _ Es) as Hok.
  assert (Hs : exists s h, (if hasReplica (slice_values (arrays c) (ss_Replicas shard)) (Target m) then (ss_Replicas shard, arrays c)
      else slice_append grow (ss_Replicas shard) (mkReplica (Target m) "follower" true) (arrays c)) = (s, h) /\ heap_le (arrays c) h /\ slice_ok h s).
  { destruct (hasReplica _ _); [by exists (ss_Replicas shard), (arrays c)|]. pose proof (slice_append_spec grow (ss_Replicas shard) (mkReplica (Target m) "follower" true) (arrays c) Hok) as Ha.
    destruct (slice_append _ _ _ _) as [s h]. exists s, h. naive_solver. }
  destruct Hs as (s & h & -> & Hle & Hs). destruct (set_roles_spec (Target m) s h Hs) as [Hle' _]. set (h' := set_roles (Target m) s h) in *.
  assert (Hle2 : heap_le (arrays c) h') by (by etrans). split_and!.
  - apply (wf_update c _ shard); [done|done|by split_and!|done|by apply (hl_slices _ _ Hle')].
  - by apply kept_shards.
  - destruct (aview_split c _ _ Hwf Es) as (l & r & Eo & Hl & Hr). unfold aview. cbn [order set_shards]. rewrite Eo, !map_app. cbn [map].
    rewrite !aview_insert_out by done. unfold shard_at at 2 5. cbn [shards set_shards]. rewrite lookup_insert_eq, Es.
    apply step_transfer; [done|]. cbn. by apply (wf_ids c Hwf).
  - rewrite bool_decide_false by (rewrite Hk; by intros [? _]). cbn. by rewrite orb_false_r.
Qed.

Lemma suffix_ne (id : string) x y j k : id +:+ "-a" = x -> id +:+ "-b" = y -> (j = x \/ exists n, 2 <= n /\ j = candidate x n) ->
  (k = y \/ exists n, 2 <= n /\ k = candidate y n) -> j <> k.
Proof.
  intros <- <- Hj Hk E. assert (Hx : exists t, j = id +:+ ("-a" +:+ t)).
  { destruct Hj as [->|(n & _ & ->)]; [exists ""; done|]. exists ("-" +:+ pretty n). unfold candidate. by rewrite <- str_app_assoc. }
  assert (Hy : exists t, k = id +:+ ("-b" +:+ t)).
  { destruct Hk as [->|(n & _ & ->)]; [exists ""; done|]. exists ("-" +:+ pretty n). unfold candidate. by rewrite <- str_app_assoc. }
  destruct Hx as (t & ->), Hy as (u & ->). by apply string_app_inj in E.
Qed.

Lemma split_wf c id shard leftID rightID key rs : cp_wf c -> shards c !! id = Some shard ->
  shards c !! leftID = None -> shards c !! rightID = None -> leftID <> rightID -> trimmed leftID -> trimmed rightID ->
  let left := mkShard (WriteLeader shard) leftID (StartKey shard) key (Leader shard) (ss_Replicas shard) in
  let right := mkShard (WriteLeader shard) rightID key (EndKey shard) (Leader shard) (ss_Replicas shard) in
  let m := <[rightID := right]> (<[leftID := left]> (delete id (shards c))) in
  let o := flat_map (fun i => if bool_decide (i = id) then [leftID; rightID] else [i]) (order c) in
  buildShardRoutes o m = Ok rs -> cp_wf (set_routes rs (set_order o (set_shards m (arrays c) c))).
Proof.
  intros Hwf Es HL HR Hne HtL HtR left right m o Hb. constructor; cbn; [done| | | |apply Hwf|apply Hwf].
  - apply Forall_forall. intros i Hi%list_elem_of_In. unfold o in Hi. apply in_flat_map in Hi as (x & Hx & Hi). case_bool_decide.
    + destruct Hi as [<-|[<-|[]]]; done.
    + destruct Hi as [<-|[]]. pose proof (wf_trimmed c Hwf) as Ht. rewrite Forall_forall in Ht. apply Ht. by apply list_elem_of_In.
  - intros i s. unfold m. rewrite !lookup_insert_Some, lookup_delete_Some. intros [[<- <-]|[_ [[<- <-]|(_ & _ & Hs)]]]; [done..|by apply (wf_ids c Hwf)].
  - intros i s. unfold m. rewrite !lookup_insert_Some, lookup_delete_Some.
    intros [[_ <-]|[_ [[_ <-]|(_ & _ & Hs)]]]; [exact (wf_slices c Hwf id shard Es)..|by apply (wf_slices c Hwf i)].
Qed.

Lemma split_step m c shard leftID rightID rs : cp_wf c -> cm_Kind m = "split" -> shards c !! ShardID m = Some shard ->
  shards c !! leftID = None -> shards c !! rightID = None -> leftID <> rightID ->
  let left := mkShard (WriteLeader shard) leftID (StartKey shard) (Split m) (Leader shard) (ss_Replicas shard) in
  let right := mkShard (WriteLeader shard) rightID (Split m) (EndKey shard) (Leader shard) (ss_Replicas shard) in
  let sh := <[rightID := right]> (<[leftID := left]> (delete (ShardID m) (shards c))) in
  let o := flat_map (fun i => if bool_decide (i = ShardID m) then [leftID; rightID] else [i]) (order c) in
  let c' := set_routes rs (set_order o (set_shards sh (arrays c) c)) in
  cp_wf c' -> mutation_step m (aview c) (aview c').
Proof.
  intros Hwf Hk Es HL HR Hne left right sh o c' Hw. destruct (aview_split c _ _ Hwf Es) as (l & r & Eo & Hl & Hr).
  destruct (wf_spec c Hwf) as (_ & _ & _ & _ & Hdom & _).
  assert (Eo' : order c' = l ++ leftID :: rightID :: r).
  { cbn. unfold o. rewrite Eo, flat_map_app. cbn. rewrite bool_decide_true, !flat_map_out by done. done. }
  assert (ErR : shards c' !! rightID = Some right) by apply lookup_insert_eq.
  assert (ErL : shards c' !! leftID = Some left) by (cbn; unfold sh; rewrite lookup_insert_ne by done; apply lookup_insert_eq).
  destruct (adjacent_shards c' _ _ _ _ _ _ Hw Eo' ErL ErR) as [H1 H2].
  assert (Hout : forall ids, (forall i, i ∈ ids -> i ∈ order c /\ i <> ShardID m) -> map (fun i => arange_of (shard_at c' i)) ids = map (fun i => arange_of (shard_at c i)) ids).
  { intros ids Hin. apply map_ext_in. intros i Hi%list_elem_of_In. destruct (Hin i Hi) as [[s Hs]%Hdom Hm]. unfold shard_at. cbn. unfold sh.
    rewrite !lookup_insert_ne, lookup_delete_ne by congruence. done. }
  assert (Hnot : forall i, shards c !! i = None -> i ∉ map ar_id (aview c)).
  { intros i Hi (a & -> & (x & -> & Hx)%list_elem_of_fmap)%list_elem_of_fmap. cbn in Hi. pose proof (shard_at_wf c x Hwf Hx) as Ex.
    rewrite (wf_ids c Hwf _ _ Ex) in Hi. congruence. }
  assert (Ev : aview c = map (fun i => arange_of (shard_at c i)) l ++ arange_of shard :: map (fun i => arange_of (shard_at c i)) r).
  { unfold aview. rewrite Eo, map_app. cbn [map]. unfold shard_at at 2. by rewrite Es. }
  unfold aview at 2. rewrite Eo', map_app. cbn [map]. rewrite !Hout by (intros i Hi; rewrite Eo; split; [set_solver|by intros ->]).
  unfold shard_at at 2 3. rewrite ErL, ErR. pose proof (Hnot _ HL) as NL. pose proof (Hnot _ HR) as NR. rewrite Ev in *.
  exact (step_split m _ (arange_of shard) _ leftID rightID Hk (wf_ids c Hwf _ _ Es) Hne NL NR H1 H2).
Qed.

Lemma split_spec m c : cp_wf c -> cm_Kind m = "split" -> payload_spec m (applySplitPayloadLocked m) c.
Proof.
  intros Hwf Hk. unfold applySplitPayloadLocked, payload_spec. apply wpx_get. destruct (shards c !! ShardID m) as [shard|] eqn:Es; [|by cbn].
  destruct (negb _); [by cbn|]. case_bool_decide; [by cbn|].
  destruct (wf_spec c Hwf) as (_ & _ & _ & Hids & Hdom & _).
  assert (Hid : ShardID m ∈ order c) by (apply Hdom; by eexists).
  pose proof (wf_trimmed c Hwf) as Ht. rewrite Forall_forall in Ht, Hids. specialize (Ht _ Hid). specialize (Hids _ Hid).
  assert (Hbase : forall x, x = "-a" \/ x = "-b" -> trimmed (ShardID m +:+ x) /\ ShardID m +:+ x <> "").
  { intros x Hx. split; [|by destruct (ShardID m)]. apply trimmed_app; [done..|]. destruct Hx as [-> | ->]; repeat constructor; unfold printable; cbn; lia. }
  destruct (uniqueShardID_spec (shards c) (ShardID m +:+ "-a")) as (leftID & EL & HL & CL). rewrite EL.
  destruct (uniqueShardID_spec (shards c) (ShardID m +:+ "-b")) as (rightID & ER & HR & CR). rewrite ER.
  pose proof (suffix_ne (ShardID m) _ _ leftID rightID eq_refl eq_refl CL CR) as Hne.
  destruct (Hbase "-a" ltac:(by left)) as [A1 A2]. destruct (Hbase "-b" ltac:(by right)) as [B1 B2].
  pose proof (trimmed_unique _ _ A1 A2 CL) as HtL. pose proof (trimmed_unique _ _ B1 B2 CR) as HtR.
  pose proof (fun rs => split_wf c (ShardID m) shard leftID rightID (Split m) rs Hwf Es HL HR Hne HtL HtR) as Hw. cbv zeta in Hw.
  unfold rebuildRoutesLocked, mbind, SE_bind, lift, modify, get, wpx. cbn [order shards set_shards set_order].
  match goal with |- context [buildShardRoutes ?o ?m] => pose proof (buildShardRoutes_returns m o) as Hret; destruct (buildShardRoutes o m) as [rs|e| |] eqn:Eb end;
    [|by split|done|done].
  specialize (Hw rs eq_refl). split; [done|]. split; [by split|]. split; [by apply split_step|].
  by rewrite bool_decide_false, orb_false_r by (rewrite Hk; by intros [? _]).
Qed.

(** *** Drain *)

Lemma drain_target_ne node rs : drain_target node rs <> "" -> drain_target node rs <> node.
Proof.
  unfold drain_target. destruct (list_find _ rs) as [[i r]|] eqn:E; [|done]. cbn. intros _. by apply list_find_Some in E as (_ & [? _] & _).
Qed.

Lemma drain_targets_spec c node ids : NoDup ids -> forall targets,
  match drain_targets c node ids targets with
  | Ok t => (forall id, id ∉ ids -> t !! id = targets !! id) /\
            (forall id, id ∈ ids -> if decide (Leader (shard_at c id) = node) then exists x, t !! id = Some x /\ x <> node else t !! id = targets !! id)
  | Err _ => True
  | _ => False
  end.
Proof.
  induction 1 as [|x ids Hx Hnd IH]; intros targets; cbn [drain_targets]; [split; [done|by intros id ?%elem_of_nil]|].
  case_bool_decide as Hl; [|case_bool_decide as Ht; [done|]].
  - specialize (IH targets). destruct (drain_targets _ _ _ _); try done. destruct IH as [Hout Hin]. split; [intros id [_ ?]%not_elem_of_cons; by apply Hout|].
    intros id [->|Hid]%elem_of_cons; [|by apply Hin]. rewrite decide_False by done. by apply Hout.
  - match goal with |- context [<[x := ?v]> targets] => specialize (IH (<[x := v]> targets)); set (t := v) in * end.
    destruct (drain_targets _ _ _ _); try done. destruct IH as [Hout Hin]. split.
    + intros id [Hne Hid]%not_elem_of_cons. rewrite Hout by done. by rewrite lookup_insert_ne.
    + intros id [->|Hid]%elem_of_cons.
      * rewrite decide_True by done. exists t. split; [rewrite Hout by done; apply lookup_insert_eq|by apply drain_target_ne].
      * specialize (Hin id Hid). destruct (decide _); [done|]. rewrite Hin. rewrite lookup_insert_ne; [done|]. by intros ->.
Qed.

Definition drained (targets : gmap string string) (id : string) (a : arange) : arange :=
  match targets !! id with Some t => with_leader t a | None => a end.

Lemma drain_shard_spec targets c x : cp_wf c -> x ∈ order c -> let c' := drain_shard targets c x in
  cp_wf c' /\ kept c c' /\ order c' = order c /\ draining c' = draining c /\
  (forall id, arange_of (shard_at c' id) = if decide (id = x) then drained targets id (arange_of (shard_at c id)) else arange_of (shard_at c id)).
Proof.
  intros Hwf Hx. cbv zeta. unfold drain_shard, drained. destruct (targets !! x) as [t|] eqn:Et.
  - pose proof (shard_at_wf c x Hwf Hx) as Es. set (sh := shard_at c x) in *. pose proof (wf_slices c Hwf _ _ Es) as Hok.
    destruct (set_roles_spec t _ _ Hok) as [Hle _]. split_and!; [|apply kept_shards; exact Hle|done|done|].
    + apply (wf_update c x sh); [done|done|by split_and!|done|]. by apply (hl_slices _ _ Hle).
    + intros id. destruct (decide (id = x)) as [->|Hne].
      * rewrite Et. unfold shard_at at 1. cbn. rewrite lookup_insert_eq. done.
      * unfold shard_at. cbn. by rewrite lookup_insert_ne.
  - split_and!; try done. intros id. destruct (decide (id = x)) as [->|]; [by rewrite Et|done].
Qed.

Lemma drain_fold targets ids : forall c, cp_wf c -> (forall id, id ∈ ids -> id ∈ order c) -> let c' := fold_left (drain_shard targets) ids c in
  cp_wf c' /\ kept c c' /\ order c' = order c /\ draining c' = draining c /\
  (forall id, arange_of (shard_at c' id) = if decide (id ∈ ids) then drained targets id (arange_of (shard_at c id)) else arange_of (shard_at c id)).
Proof.
  induction ids as [|x ids IH]; intros c Hwf Hin; cbn [fold_left]; [by split_and!|].
  destruct (drain_shard_spec targets c x Hwf (Hin x ltac:(by left))) as (H1 & H2 & H3 & H4 & H5). set (c1 := drain_shard targets c x) in *.
  destruct (IH c1 H1) as (I1 & I2 & I3 & I4 & I5); [intros id Hid; rewrite H3; apply Hin; by right|].
  split_and!; [done|by etrans|congruence|congruence|]. intros id. rewrite I5, H5.
  destruct (decide (id = x)) as [->|Hne].
  - rewrite (decide_True (P := x ∈ x :: ids)) by (by left). destruct (decide (x ∈ ids)); [|done]. unfold drained. by destruct (targets !! x).
  - destruct (decide (id ∈ ids)) as [Hid|Hid]; [by rewrite decide_True by (by right)|]. rewrite decide_False; [done|]. by intros [?|?]%elem_of_cons.
Qed.

Lemma drain_spec m c : cp_wf c -> cm_Kind m = "prepare-drain" -> payload_spec m (applyDrainPayloadLocked m) c.
Proof.
  intros Hwf Hk. unfold applyDrainPayloadLocked, payload_spec. apply wpx_get. destruct (wf_spec c Hwf) as (_ & _ & Hnd & _).
  pose proof (drain_targets_spec c (cm_NodeID m) (order c) Hnd ∅) as Ht. unfold wpx, mbind, SE_bind, lift, put. destruct (drain_targets _ _ _ _) as [t|e| |]; [|by cbn|done|done].
  destruct Ht as [_ Ht]. destruct (drain_fold t (order c) c Hwf) as (H1 & H2 & H3 & H4 & H5); [done|]. set (c' := fold_left _ _ c) in *.
  assert (Hstep : mutation_step m (aview c) (aview c')).
  { apply step_drain; [done|]. unfold aview. rewrite H3. rewrite Forall2_fmap. apply Forall_Forall2_diag, Forall_forall. intros id Hid.
    rewrite H5, decide_True by done. unfold drained. specialize (Ht id Hid). cbn [ar_leader arange_of]. destruct (decide _) as [E|E].
    - destruct Ht as (x & -> & Hx). by exists x.
    - rewrite Ht, lookup_empty. exists (Leader (shard_at c id)). by split. }
  case_bool_decide as Hn; cbn.
  - split_and!; [|by destruct H2; split|done|rewrite bool_decide_true by done; by rewrite orb_true_r]. destruct H1. by constructor.
  - split_and!; [done..|]. rewrite bool_decide_false by tauto. by rewrite orb_false_r.
Qed.

(** Every committed mutation keeps the control plane well-formed and is one
    step of the ranges. *)
Lemma payload_ok m c : cp_wf c -> payload_spec m (applyControlPayloadLocked grow m) c.
Proof.
  intros Hwf. unfold applyControlPayloadLocked. case_bool_decide; [by apply transfer_spec|]. case_bool_decide; [by apply split_spec|].
  case_bool_decide; [by apply drain_spec|]. by cbn.
Qed.
End Payloads.

(** ** Applied operations *)

Lemma fold_delete_lookup {A} (l : list string) : forall (m : gmap string A) id,
  fold_left (fun m oldID => delete oldID m) l m !! id = if decide (id ∈ l) then None else m !! id.
Proof.
  induction l as [|x l IH]; intros m id; cbn [fold_left]; [done|]. rewrite IH. destruct (decide (id = x)) as [->|Hne].
  - rewrite (decide_True (P := x ∈ x :: l)) by (by left). destruct (decide (x ∈ l)); [done|apply lookup_delete_eq].
  - rewrite lookup_delete_ne by done. destruct (decide (id ∈ l)) as [H|H]; [by rewrite decide_True by (by right)|].
    rewrite decide_False; [done|]. by intros [?|?]%elem_of_cons.
Qed.

(** Forgetting the oldest operations keeps the list and the map together. *)
Lemma ops_wf_drop ops ids k : NoDup ids -> (forall id, id ∈ ids <-> is_Some (ops !! id)) -> (length ids - k <= maxAppliedControlOps)%nat ->
  (forall id op, ops !! id = Some op -> ao_ID op = id /\ trimmed id /\ id <> "" /\ TrimSpace (Fingerprint op) <> "") ->
  ops_wf (fold_left (fun m oldID => delete oldID m) (take k ids) ops) (drop k ids).
Proof.
  intros Hnd Hdom Hk Hop. pose proof Hnd as Hnd'. rewrite <- (take_drop k ids) in Hnd'. apply NoDup_app in Hnd' as (_ & Hdis & Hd). constructor; [done| | |].
  - by rewrite length_drop.
  - intros id. rewrite fold_delete_lookup. destruct (decide (id ∈ take k ids)) as [Ht|Ht].
    + split; [intros H; by destruct (Hdis id Ht)|by intros [? ?]].
    + rewrite <- Hdom. rewrite <- (take_drop k ids) at 2. rewrite elem_of_app. tauto.
  - intros id op. rewrite fold_delete_lookup. destruct (decide _); [done|]. apply Hop.
Qed.

Lemma note_wf opts fp c : cp_wf c -> TrimSpace fp <> "" -> cp_wf (noteOperationAppliedLocked opts fp c).
Proof.
  intros Hwf Hfp. destruct (wf_ops c Hwf) as [Hnd Hb Hdom Hop]. unfold noteOperationAppliedLocked. case_bool_decide as Hid; [by destruct Hwf; constructor|].
  set (opID := TrimSpace (OperationID opts)) in *. set (ids := if bool_decide (appliedOps c !! opID = None) then _ else _). set (ops := <[opID := _]> (appliedOps c)).
  assert (Hops : forall id op, ops !! id = Some op -> ao_ID op = id /\ trimmed id /\ id <> "" /\ TrimSpace (Fingerprint op) <> "").
  { intros id op. unfold ops. rewrite lookup_insert_Some. intros [[<- <-]|[_ Ho]]; [|by apply Hop]. split_and!; [done|apply TrimSpace_idem|done|done]. }
  assert (Hids : NoDup ids /\ (forall id, id ∈ ids <-> is_Some (ops !! id)) /\ (length ids <= S maxAppliedControlOps)%nat).
  { unfold ids, ops. case_bool_decide as Hn.
    - split_and!; [| |rewrite length_app; cbn; lia].
      + apply NoDup_app. split_and!; [done| |apply NoDup_singleton]. intros id Hi ->%list_elem_of_singleton. apply Hdom in Hi as [? ?]. congruence.
      + intros id. rewrite elem_of_app, list_elem_of_singleton, Hdom, lookup_insert_is_Some. destruct (decide (opID = id)); naive_solver.
    - split_and!; [done| |lia]. intros id. rewrite Hdom, lookup_insert_is_Some. destruct (decide (opID = id)) as [<-|]; [|naive_solver].
      split; [by left|]. intros _. by destruct (appliedOps c !! opID). }
  destruct Hids as (H1 & H2 & H3). case_bool_decide as Hl.
  - destruct Hwf as [W1 W2 W3 W4 W5 W6]. by constructor.
  - pose proof (ops_wf_drop ops ids (length ids - maxAppliedControlOps) H1 H2 ltac:(lia) Hops) as Ho. destruct Hwf as [W1 W2 W3 W4 W5 W6]. by constructor.
Qed.

(** The state without the index of the commit log. *)
Definition core (c : controlPlane) : controlPlaneState := snapshotStateLocked (set_appliedIndex 0 c).

Lemma wf_index i c : cp_wf (set_appliedIndex i c) <-> cp_wf c.
Proof. split; intros [W1 W2 W3 W4 W5 W6]; by constructor. Qed.

Lemma core_index i c : core (set_appliedIndex i c) = core c.
Proof. done. Qed.

Lemma core_snapshot c c' : snapshotStateLocked c' = snapshotStateLocked c -> core c' = core c.
Proof. unfold core, snapshotStateLocked, appliedOpsSnapshotLocked. cbn. intros [= _ E1 E2 E3 E4 E5 E6 E7 E8 E9]. unfold shard_at in *. cbn in *. f_equal; done. Qed.

Lemma bump_index_cases i c : exists j, bump_index i c = set_appliedIndex j c.
Proof. unfold bump_index. case_bool_decide; [by exists i|]. exists (commitLogAppliedIndex c). by destruct c. Qed.
