(* ===== verification/ControlNode.v ===== *)
(** * The control plane of a node: requests, files and restarts

    The requests of clients on a control plane with its state file and its
    commit log: what a request that succeeds or fails leaves behind under
    any failures of the file system, and what a restart finds. *)

From Stdlib Require Import ZArith Lia Strings.Byte.
From stdpp Require Import base list strings pretty gmap.
From S2P Require Import Prelude Iofs Manifest Engine GoStrings ControlPlane ControlSpec.
Local Open Scope Z_scope.
Local Open Scope lsm_scope.

(** ** The state file *)

Section Save.
Context (statePath : string) (ancestors : nat).

Lemma wpx_may_fail e (Q : unit -> FS -> Prop) (E : error -> FS -> Prop) fs :
  (forall fs', fs_dir fs' = fs_dir fs -> Q tt fs' /\ E e fs') -> wpx (fs_may_fail e) Q E fs.
Proof. intros H. unfold wpx. destruct (fs_may_fail_cases e fs) as (fs' & D & [-> | ->]); by apply H. Qed.

(** Calls that leave the files alone. *)
Definition dir_kept (m : SE FS unit) : Prop := forall fs, wpx m (fun _ fs' => fs_dir fs' = fs_dir fs) (fun _ fs' => fs_dir fs' = fs_dir fs) fs.

Lemma dir_kept_bind m m' : dir_kept m -> dir_kept m' -> dir_kept (_ ← m; m').
Proof.
  intros H H' fs. apply wpx_bind. eapply wpx_mono; [apply H| |done]. intros [] fs1 D1. eapply wpx_mono; [apply H'|..]; intros ? fs2 D2; congruence.
Qed.

Lemma dir_kept_may_fail e : dir_kept (fs_may_fail e).
Proof. intros fs. apply wpx_may_fail. auto. Qed.

Lemma dir_kept_sync_close : dir_kept sync_close.
Proof.
  intros fs. unfold sync_close. apply wpx_bind, wpx_catch. apply wpx_may_fail. intros fs1 D1.
  split; apply wpx_bind, wpx_catch, wpx_may_fail; intros fs2 D2; split; cbn; congruence.
Qed.

Lemma dir_kept_sync_dirs n : dir_kept (sync_dirs n).
Proof.
  induction n as [|n IH]; cbn [sync_dirs]; repeat apply dir_kept_bind; auto using dir_kept_may_fail, dir_kept_sync_close. intros fs. by apply wpx_ret.
Qed.

Lemma tmpPath_ne : tmpPath statePath <> statePath.
Proof.
  unfold tmpPath. intros E. assert (Hl : forall s t : string, String.length (s +:+ t) = (String.length s + String.length t)%nat).
  { induction s as [|c s IH]; intros t; [done|]. exact (f_equal S (IH t)). }
  apply (f_equal String.length) in E. rewrite Hl in E. cbn in E. lia.
Qed.

Lemma WriteFile_spec name data e fs : wpx (fs_WriteFile name data e)
  (fun _ fs' => fs_dir fs' = <[name := data]> (fs_dir fs)) (fun _ fs' => forall n, n <> name -> fs_dir fs' !! n = fs_dir fs !! n) fs.
Proof.
  unfold fs_WriteFile, wpx, mbind, SE_bind. destruct (fs_create_cases name e fs) as (fs1 & [[-> D1]|[-> D1]]); [|intros; by rewrite D1].
  destruct (file_write_cases name data e fs1) as (fs2 & [[-> D2]|(part & -> & D2 & _)]); [|intros n Hn; by rewrite D2, D1, !lookup_insert_ne].
  assert (D : fs_dir fs2 = <[name := data]> (fs_dir fs)) by (rewrite D2, D1, lookup_insert_eq, insert_insert_eq; done).
  destruct (fs_may_fail_cases e fs2) as (fs3 & D3 & [-> | ->]); [by rewrite D3|]. intros n Hn. by rewrite D3, D, lookup_insert_ne.
Qed.

(** The state file is replaced as a whole: whatever calls fail, it holds what
    it held before or the new contents, and the new contents on success. *)
Lemma write_state_spec data fs : wpx (write_state statePath ancestors data)
  (fun _ fs' => fs_dir fs' !! statePath = Some data)
  (fun _ fs' => fs_dir fs' !! statePath = fs_dir fs !! statePath \/ fs_dir fs' !! statePath = Some data) fs.
Proof.
  pose proof tmpPath_ne as Hne. unfold write_state. apply wpx_bind, wpx_may_fail. intros fs1 D1. split; [|left; by rewrite D1].
  apply wpx_bind. eapply wpx_mono; [apply WriteFile_spec| |intros ? fs2 D2; left; by rewrite D2, D1]. intros ? fs2 D2.
  apply wpx_bind, wpx_may_fail. intros fs3 D3. split; [|left; by rewrite D3, D2, lookup_insert_ne, D1].
  apply wpx_bind. eapply wpx_mono; [apply dir_kept_sync_close| |intros ? fs4 D4; left; by rewrite D4, D3, D2, lookup_insert_ne, D1]. intros ? fs4 D4.
  apply wpx_bind, wpx_catch. unfold wpx at 1. destruct (fs_rename_file_cases (tmpPath statePath) statePath err_io fs4) as (fs5 & [[-> D5]|[-> D5]]).
  - assert (D : fs_dir fs5 !! statePath = Some data) by (rewrite D5, D4, D3, D2; unfold fs_rename; by rewrite !lookup_insert_eq).
    eapply wpx_mono; [apply (dir_kept_bind (fs_may_fail err_io) (sync_dirs ancestors)); [apply dir_kept_may_fail|apply dir_kept_sync_dirs]|..]; cbn.
    + intros ? fs6 D6. by rewrite D6.
    + intros ? fs6 D6. right. by rewrite D6.
  - assert (D : fs_dir fs5 !! statePath = fs_dir fs !! statePath) by (by rewrite D5, D4, D3, D2, lookup_insert_ne, D1).
    apply wpx_bind, wpx_catch. unfold fs_remove. apply wpx_bind, wpx_may_fail. intros fs6 D6. split; cbn; left; [by rewrite lookup_delete_ne, D6|by rewrite D6].
Qed.
End Save.

Lemma wpx_and {S A} (m : SE S A) (Q R : A -> S -> Prop) (E F : error -> S -> Prop) s :
  wpx m Q E s -> wpx m R F s -> wpx m (fun a s => Q a s /\ R a s) (fun e s => E e s /\ F e s) s.
Proof. unfold wpx. by destruct (m s) as [[a| | |] s1]. Qed.

Lemma wpx_assoc {S A B C} (m : SE S A) (f : A -> SE S B) (g : B -> SE S C) (Q : C -> S -> Prop) E s :
  wpx (b ← (a ← m; f a); g b) Q E s -> wpx (a ← m; b ← f a; g b) Q E s.
Proof. unfold wpx, mbind, SE_bind. by destruct (m s) as [[a| | |] s1]. Qed.

Section Node.
Context {K : Type} `{Consensus K} (grow : nat -> nat -> nat).
Context (marshalIndent : controlPlaneState -> bytes).
Context (statePath : string) (Hpath : statePath <> "") (ancestors : nat).
Implicit Types s : node K.

Definition file s : option bytes := fs_dir (disk s) !! statePath.
Definition saved s : Prop := file s = Some (marshalIndent (snapshotStateLocked (cp s))).

Abbreviation saveLocked := (saveLocked (K := K) marshalIndent statePath ancestors).
Abbreviation saveLockedWithRollback := (saveLockedWithRollback (K := K) grow marshalIndent statePath ancestors).

Lemma wpx_on_disk {A} (m : SE FS A) (Q : A -> node K -> Prop) E s :
  wpx m (fun a fs => Q a (mkNode (cp s) fs (consensus s))) (fun e fs => E e (mkNode (cp s) fs (consensus s))) (disk s) -> wpx (on_disk m) Q E s.
Proof. unfold wpx, on_disk. by destruct (m (disk s)) as [[a|e| |] fs]. Qed.

Lemma wpx_on_cp {A} (m : SE controlPlane A) (Q : A -> node K -> Prop) E s :
  wpx m (fun a c => Q a (mkNode c (disk s) (consensus s))) (fun e c => E e (mkNode c (disk s) (consensus s))) (cp s) -> wpx (on_cp m) Q E s.
Proof. unfold wpx, on_cp. by destruct (m (cp s)) as [[a|e| |] c]. Qed.

Lemma saveLocked_spec s : wpx saveLocked (fun _ s' => cp s' = cp s /\ consensus s' = consensus s /\ saved s')
  (fun _ s' => cp s' = cp s /\ consensus s' = consensus s /\ (file s' = file s \/ saved s')) s.
Proof.
  unfold ControlPlane.saveLocked. rewrite bool_decide_false by done. apply wpx_get, wpx_on_disk.
  eapply wpx_mono; [apply write_state_spec| |]; cbn; intros ? fs Hf; split_and!; done.
Qed.

(** What a failed step leaves: the state of [c0], and the file it had or the
    one it tried to write. *)
Definition rolled_back (c0 : controlPlane) (attempt : controlPlaneState) (s s' : node K) : Prop :=
  cp_wf (cp s') /\ snapshotStateLocked (cp s') = snapshotStateLocked c0 /\ appliedOps (cp s') = appliedOps c0 /\ commitErr (cp s') = commitErr (cp s) /\
  consensus s' = consensus s /\ (file s' = file s \/ file s' = Some (marshalIndent attempt)).

Lemma saveLockedWithRollback_spec c0 s : cp_wf c0 -> same_node c0 (cp s) -> arrays (cp s) !! 0%nat = Some [] ->
  wpx (saveLockedWithRollback (snapshotStateLocked c0)) (fun _ s' => cp s' = cp s /\ consensus s' = consensus s /\ saved s')
    (fun _ s' => rolled_back c0 (snapshotStateLocked (cp s)) s s') s.
Proof.
  intros Hwf Hid H0. unfold ControlPlane.saveLockedWithRollback. apply wpx_bind, wpx_catch. eapply wpx_mono; [apply saveLocked_spec| |].
  - intros ? s' Hs. by apply wpx_ret.
  - intros e s' (E1 & E2 & Hf). destruct (restore_spec grow c0 (cp s') Hwf) as (c2 & Er & H1 & H2 & H3 & H4); [by rewrite E1|by rewrite E1|].
    apply wpx_bind, wpx_catch, wpx_on_cp. unfold wpx at 1. rewrite Er. cbn. split_and!; [done..|cbn; by rewrite H4, E1|done|].
    destruct Hf as [Hf|Hf]; [by left|right]. unfold saved in Hf. by rewrite E1 in Hf.
Qed.

Abbreviation applyCommittedControlMutation := (applyCommittedControlMutation (K := K) grow marshalIndent statePath ancestors).

Lemma note_cases opts fp c : exists ops ids, noteOperationAppliedLocked opts fp c = set_ops (u64 (revision c + 1)) ops ids c.
Proof. unfold noteOperationAppliedLocked. repeat case_bool_decide; by do 2 eexists. Qed.

(** [c] is the state of [c0], or one mutation ahead of it. *)
Definition ahead (c0 c : controlPlane) : Prop :=
  core c = core c0 \/ exists m, mutation_step m (aview c0) (aview c) /\ revision c = u64 (revision c0 + 1).

(** The file is the one before or that of a state not more than a mutation
    ahead. *)
Definition file_step s s' : Prop :=
  file s' = file s \/ exists c, cp_wf c /\ same_node (cp s) c /\ ahead (cp s) c /\ file s' = Some (marshalIndent (snapshotStateLocked c)).

(** A step that changed nothing but the index of the commit log. *)
Definition unchanged s s' : Prop :=
  cp_wf (cp s') /\ core (cp s') = core (cp s) /\ appliedOps (cp s') = appliedOps (cp s) /\ commitErr (cp s') = commitErr (cp s) /\ file_step s s'.

(** A mutation that was applied and saved. *)
Definition mutated (m : ControlMutation) (opts : ControlWriteOptions) (fp : string) s s' : Prop :=
  cp_wf (cp s') /\ same_node (cp s) (cp s') /\ mutation_step m (aview (cp s)) (aview (cp s')) /\ revision (cp s') = u64 (revision (cp s) + 1) /\
  draining (cp s') = draining (cp s) || bool_decide (cm_Kind m = "prepare-drain" /\ cm_NodeID m = nodeID (cp s)) /\
  appliedOps (cp s') = appliedOps (noteOperationAppliedLocked opts fp (cp s)) /\
  appliedOrder (cp s') = appliedOrder (noteOperationAppliedLocked opts fp (cp s)) /\
  commitErr (cp s') = commitErr (cp s) /\ saved s'.

Lemma same_node_core c c' : core c' = core c -> same_node c c'.
Proof. unfold core, snapshotStateLocked. cbn. intros [= E1 E2 E3 E4 _ _ _ _ _]. by split_and!. Qed.

Lemma rolled_back_unchanged ca s1 s s' : cp_wf (cp s) -> rolled_back (cp s) (snapshotStateLocked ca) s1 s' -> cp_wf ca -> same_node (cp s) ca -> ahead (cp s) ca ->
  commitErr (cp s1) = commitErr (cp s) -> file s1 = file s -> unchanged s s'.
Proof.
  intros Hwf (H1 & H2 & H3 & H4 & _ & H6) Hca Hn Ha E1 E2. split_and!; [done|by apply core_snapshot|done|congruence|].
  destruct H6 as [H6|H6]; [left; congruence|right; by exists ca].
Qed.

(** Saving after a step that changed the index only. *)
Lemma save_index_spec s1 s j : cp_wf (cp s) -> cp_wf (cp s1) -> core (cp s1) = core (cp s) -> appliedOps (cp s1) = appliedOps (cp s) ->
  commitErr (cp s1) = commitErr (cp s) -> file s1 = file s ->
  wpx (_ ← on_cp (modify (set_appliedIndex j)); saveLockedWithRollback (snapshotStateLocked (cp s)))
    (fun _ s' => unchanged s s' /\ saved s') (fun _ s' => unchanged s s') s1.
Proof.
  intros Hwf Hwf1 Ec Eo Ee Ef. apply wpx_bind, wpx_on_cp. cbn. set (c1 := set_appliedIndex j (cp s1)).
  assert (Hc1 : cp_wf c1) by (by apply wf_index). assert (Hn : same_node (cp s) c1) by (by apply same_node_core).
  eapply wpx_mono; [apply (saveLockedWithRollback_spec (cp s)); [done|done|apply (wf_heap c1 Hc1)]|..].
  - intros ? s' (E1 & _ & Hs). split; [|done]. cbn in E1. unfold unchanged. rewrite E1. split_and!; [done|by rewrite <- Ec|done|done|].
    right. exists c1. split_and!; [done|done|by left|]. unfold saved in Hs. by rewrite E1 in Hs.
  - intros ? s' Hr. apply (rolled_back_unchanged c1 (mkNode c1 (disk s1) (consensus s1)) s s'); try done. by left.
Qed.

Lemma bump_modify i c : modify (bump_index i) c = modify (set_appliedIndex (commitLogAppliedIndex (bump_index i c))) c.
Proof. unfold modify. f_equal. unfold bump_index. case_bool_decide; [done|]. by destruct c. Qed.

Lemma bump_save_spec s1 s i : cp_wf (cp s) -> cp_wf (cp s1) -> core (cp s1) = core (cp s) -> appliedOps (cp s1) = appliedOps (cp s) ->
  commitErr (cp s1) = commitErr (cp s) -> file s1 = file s ->
  wpx (_ ← on_cp (modify (bump_index i)); saveLockedWithRollback (snapshotStateLocked (cp s)))
    (fun _ s' => unchanged s s' /\ saved s') (fun _ s' => unchanged s s') s1.
Proof.
  intros Hwf Hwf1 Ec Eo Ee Ef. pose proof (save_index_spec s1 s (commitLogAppliedIndex (bump_index i (cp s1))) Hwf Hwf1 Ec Eo Ee Ef) as Hs.
  unfold wpx, mbind, SE_bind, on_cp in Hs |- *. by rewrite <- bump_modify in Hs.
Qed.

Lemma check_returns c opts fp : returned (checkOperationPreconditionsLocked c opts fp).
Proof. unfold checkOperationPreconditionsLocked. destruct (if bool_decide _ then _ else _); [by case_bool_decide|]. destruct (ExpectedRevision opts); [by case_bool_decide|done]. Qed.

Lemma note_ops c c' opts fp : kept c c' -> appliedOps (noteOperationAppliedLocked opts fp c') = appliedOps (noteOperationAppliedLocked opts fp c) /\
  appliedOrder (noteOperationAppliedLocked opts fp c') = appliedOrder (noteOperationAppliedLocked opts fp c).
Proof. intros [_ _ _ E1 E2 E3 _]. unfold noteOperationAppliedLocked. rewrite E1, E2, E3. by repeat case_bool_decide. Qed.

(** The end of a mutation: note the operation, the index, save. *)
Lemma finish_spec m opts fp i s c1 : cp_wf (cp s) -> TrimSpace fp <> "" -> cp_wf c1 -> kept (cp s) c1 -> mutation_step m (aview (cp s)) (aview c1) ->
  draining c1 = draining (cp s) || bool_decide (cm_Kind m = "prepare-drain" /\ cm_NodeID m = nodeID (cp s)) ->
  wpx (_ ← on_cp (modify (noteOperationAppliedLocked opts fp)); _ ← on_cp (modify (bump_index i)); saveLockedWithRollback (snapshotStateLocked (cp s)))
    (fun _ s' => mutated m opts fp s s') (fun _ s' => unchanged s s') (mkNode c1 (disk s) (consensus s)).
Proof.
  intros Hwf Hfp Hwf1 Hk Hstep Hd. apply wpx_bind, wpx_on_cp. cbn. apply wpx_bind, wpx_on_cp. cbn.
  pose proof (note_wf opts fp c1 Hwf1 Hfp) as Hwf2. destruct (note_ops _ _ opts fp Hk) as [Hops Hids].
  destruct (note_cases opts fp c1) as (ops & ids & En). rewrite En in Hwf2, Hops, Hids |- *. destruct (bump_index_cases i (set_ops (u64 (revision c1 + 1)) ops ids c1)) as [j ->].
  set (c2 := set_appliedIndex _ _). assert (Hwf3 : cp_wf c2) by (by apply wf_index). assert (Hn : same_node (cp s) c2) by apply Hk.
  eapply wpx_mono; [apply (saveLockedWithRollback_spec (cp s)); [done|done|apply (wf_heap c2 Hwf3)]|..].
  - intros ? s' (E1 & _ & Hs). cbn in E1. unfold mutated. rewrite E1. split_and!; [done|done|exact Hstep| |done|done|done|apply Hk|done].
    cbn. by rewrite (kept_rev _ _ Hk).
  - intros ? s' Hr. apply (rolled_back_unchanged c2 (mkNode c2 (disk s) (consensus s)) s s'); try done; [|apply Hk].
    right. exists m. split; [exact Hstep|]. cbn. by rewrite (kept_rev _ _ Hk).
Qed.

Lemma committed_spec (P : Prop) entry opts fp mutate s : cp_wf (cp s) -> TrimSpace fp <> "" ->
  wpx (mutate (cc_Mutation entry)) (fun _ _ => P) (fun _ _ => True) (cp s) -> payload_spec (cc_Mutation entry) (mutate (cc_Mutation entry)) (cp s) ->
  wpx (applyCommittedControlMutation entry opts fp mutate)
    (fun r s' => match r with
       | Applied => P /\ checkOperationPreconditionsLocked (cp s) opts fp = Ok false /\ mutated (cc_Mutation entry) opts fp s s'
       | Noop => checkOperationPreconditionsLocked (cp s) opts fp = Ok true /\ unchanged s s'
       | Rejected _ => unchanged s s' /\ saved s'
       end)
    (fun _ s' => unchanged s s') s.
Proof.
  intros Hwf Hfp HP Hm. assert (Hsame : unchanged s s) by (split_and!; [done..|by left]). unfold ControlPlane.applyCommittedControlMutation.
  case_bool_decide; [done|]. apply wpx_get. pose proof (check_returns (cp s) opts fp) as Hret.
  destruct (checkOperationPreconditionsLocked (cp s) opts fp) as [[]|e| |]; [| | |done|done].
  - case_bool_decide; [|by apply wpx_ret]. apply wpx_assoc, wpx_bind. eapply wpx_mono; [by apply (save_index_spec s s)|..]; [|done].
    intros ? s' [Hu _]. by apply wpx_ret.
  - apply wpx_bind, wpx_catch, wpx_on_cp. eapply wpx_mono; [exact (wpx_and _ _ _ _ _ _ HP Hm)|..]; cbn.
    + intros ? c1 (Hp & H1 & H2 & H3 & H4). do 2 apply wpx_assoc. apply wpx_bind. eapply wpx_mono.
      { unfold wpx, mbind, SE_bind. apply (finish_spec (cc_Mutation entry) opts fp (Commit_Index (cc_Commit entry)) s c1); done. }
      { intros ? s' Hs'. by apply wpx_ret. }
      done.
    + intros e c1 [_ Hk]. destruct (restore_spec grow (cp s) c1 Hwf (kept_node _ _ Hk)) as (c2 & Er & R1 & R2 & R3 & R4); [by apply Hk, Hwf|].
      apply wpx_bind, wpx_on_cp. unfold wpx at 1. cbn. rewrite Er. apply wpx_assoc, wpx_bind. eapply wpx_mono.
      { apply (bump_save_spec (mkNode c2 (disk s) (consensus s)) s); try done; [by apply core_snapshot|]. cbn. rewrite R4. apply Hk. }
      { intros ? s' Hs'. by apply wpx_ret. }
      done.
  - apply wpx_assoc, wpx_bind. eapply wpx_mono; [by apply (bump_save_spec s s)|..]; [|done]. intros ? s' Hs'. by apply wpx_ret.
Qed.

(** ** Requests *)

(** Calls of the engine that do not touch the node. *)
Definition quiet {A} (m : SE (node K) A) : Prop := forall s, returned (fst (m s)) /\ snd (m s) = s.

Record hooks_ok (hk : hooks (K := K)) : Prop := mkHooksOk {
  ho_apply : applyFromLog hk = None;
  ho_before : forall m, beforeProposal hk = Some m -> quiet m;
  ho_admit : forall m, admitProposal hk = Some m -> quiet m /\ forall s fin s', m s = (Ok fin, s') -> quiet fin
}.

Context (hk : hooks (K := K)) (Hhk : hooks_ok hk) (Hcommit : forall m (k : K), returned (fst (CommitControl m k))).

Abbreviation propose := (propose grow marshalIndent statePath ancestors hk).
Abbreviation applyControlMutation := (applyControlMutation grow marshalIndent statePath ancestors hk).
Abbreviation serve := (serve grow marshalIndent statePath ancestors hk).

(** A request that changed nothing a client sees. *)
Definition idle s s' : Prop :=
  cp_wf (cp s') /\ core (cp s') = core (cp s) /\ appliedOps (cp s') = appliedOps (cp s) /\ file_step s s'.

Definition applied_before (opts : ControlWriteOptions) (fp : string) s : Prop := checkOperationPreconditionsLocked (cp s) opts fp = Ok true.

(** What a request that succeeded did: one mutation it asks for, or nothing
    because its operation was applied before. *)
Definition served (P : ControlMutation -> Prop) (opts : ControlWriteOptions) (fp : string) s s' : Prop :=
  commitErr (cp s') = None /\ ((exists m, P m /\ checkOperationPreconditionsLocked (cp s) opts fp = Ok false /\ mutated m opts fp s s') \/ (applied_before opts fp s /\ idle s s')).

Lemma unchanged_idle s s' : unchanged s s' -> idle s s'.
Proof. intros (H1 & H2 & H3 & _ & H4). by split_and!. Qed.

Lemma idle_refl s : cp_wf (cp s) -> idle s s.
Proof. intros Hwf. split_and!; [done..|by left]. Qed.

Lemma wpx_quiet {A} (m : SE (node K) A) (Q : A -> node K -> Prop) (E : error -> node K -> Prop) s :
  quiet m -> (forall a, m s = (Ok a, s) -> Q a s) -> (forall e, E e s) -> wpx m Q E s.
Proof. intros Hq HQ HE. specialize (Hq s) as [Hr Es]. unfold wpx. destruct (m s) as [[a|e| |] s1]; cbn in *; subst; try done. by apply HQ. Qed.

Lemma wpx_fail_commit (b : bool) err (Q : unit -> node K -> Prop) s s' :
  idle s s' -> wpx (_ ← (if b then fail_commit err else mret tt); throw err) Q (fun _ s' => idle s s') s'.
Proof. intros (H1 & H2 & H3 & H4). destruct b; cbn; split_and!; try done. by destruct H1; constructor. Qed.

Lemma wpx_settle etcd m (Q : unit -> node K -> Prop) (E : error -> node K -> Prop) s :
  wpx m (fun r s' => match r with Applied | Noop => Q tt s' | Rejected e => E e s' end)
    (fun e s' => wpx (_ ← (if (etcd : bool) then fail_commit e else mret tt); throw e) Q E s') s -> wpx (settle etcd m) Q E s.
Proof. unfold wpx, settle. by destruct (m s) as [[[]|e| |] s']. Qed.

Lemma propose_spec (P : ControlMutation -> Prop) mutation opts fp mutate s : cp_wf (cp s) -> commitErr (cp s) = None -> TrimSpace fp <> "" ->
  (forall m, wpx (mutate m) (fun _ _ => P m) (fun _ _ => True) (cp s) /\ payload_spec m (mutate m) (cp s)) ->
  wpx (propose mutation opts fp mutate) (fun _ s' => served P opts fp s s') (fun _ s' => idle s s') s.
Proof.
  intros Hwf Herr Hfp Hm. pose proof (idle_refl s Hwf) as Hidle. unfold ControlPlane.propose. apply wpx_bind, wpx_quiet; [|intros _ _|done].
  { destruct (beforeProposal hk) as [m|] eqn:E; [by apply (ho_before hk Hhk)|done]. }
  apply wpx_get, wpx_bind. pose proof (check_returns (cp s) opts fp) as Hret. unfold wpx at 1, lift.
  destruct (checkOperationPreconditionsLocked (cp s) opts fp) as [[]|e| |] eqn:Ec; try done.
  { apply wpx_ret. split; [done|]. right. by split. }
  match goal with |- context [CommitControl ?m ?k] => pose proof (Hcommit m k) as Hc; destruct (CommitControl m k) as [committed k'] end. cbn [fst] in Hc.
  apply wpx_bind. unfold wpx at 1, put. set (s1 := mkNode (cp s) (disk s) k'). destruct committed as [entry|err| |]; [|by apply wpx_fail_commit|done|done].
  rewrite (ho_apply hk Hhk). apply wpx_settle. destruct (Hm (cc_Mutation entry)) as [HP Hpay].
  eapply wpx_mono; [by apply (committed_spec (P (cc_Mutation entry)) entry opts fp mutate s1)|..].
  - intros [| |e] s'; [intros (Hp & Hch & Hmut)|intros [Hb Hu]|intros [Hu _]; by apply unchanged_idle].
    + split; [destruct Hmut as (_ & _ & _ & _ & _ & _ & _ & E & _); by rewrite E|]. left. by exists (cc_Mutation entry).
    + split; [destruct Hu as (_ & _ & _ & E & _); by rewrite E|]. right. split; [exact Hb|by apply unchanged_idle].
  - intros e s' Hu%unchanged_idle. by apply wpx_fail_commit.
Qed.

Lemma applyControlMutation_spec (P : ControlMutation -> Prop) mutation opts fp mutate s : cp_wf (cp s) -> TrimSpace fp <> "" ->
  (forall m, wpx (mutate m) (fun _ _ => P m) (fun _ _ => True) (cp s) /\ payload_spec m (mutate m) (cp s)) ->
  wpx (applyControlMutation mutation opts fp mutate) (fun _ s' => served P opts fp s s') (fun _ s' => idle s s') s.
Proof.
  intros Hwf Hfp Hm. pose proof (idle_refl s Hwf) as Hidle. unfold ControlPlane.applyControlMutation. apply wpx_get.
  destruct (commitErr (cp s)) as [err|] eqn:Ee; [done|]. pose proof (propose_spec P mutation opts fp mutate s Hwf Ee Hfp Hm) as Hp.
  destruct (admitProposal hk) as [adm|] eqn:Ea; [|exact Hp]. destruct (ho_admit hk Hhk _ Ea) as [Hq Hfin].
  apply wpx_bind, wpx_quiet; [done|intros fin Er|done]. specialize (Hfin _ _ _ Er). unfold wpx, defer in Hp |- *.
  destruct (propose mutation opts fp mutate s) as [[[]|e| |] s']; try done; by rewrite (proj2 (Hfin s')).
Qed.

(** The mutation, the options and the fingerprint of a request to [self]. *)
Definition asks (self : string) (r : request) (m : ControlMutation) : Prop :=
  match r with
  | TransferLeader shardID target _ | TriggerRebalance shardID target _ =>
      cm_Kind m = "transfer-leader" /\ ShardID m = TrimSpace shardID /\ Target m = TrimSpace target
  | TriggerSplit shardID splitKey _ => cm_Kind m = "split" /\ ShardID m = TrimSpace shardID /\ Split m = splitKey
  | PrepareDrain _ _ => cm_Kind m = "prepare-drain" /\ cm_NodeID m = self
  end.

Definition options (r : request) : ControlWriteOptions :=
  match r with TransferLeader _ _ o | TriggerSplit _ _ o | TriggerRebalance _ _ o | PrepareDrain _ o => o end.

Definition fingerprint (self : string) (r : request) : string :=
  match r with
  | TransferLeader shardID target _ | TriggerRebalance shardID target _ => transferLeaderFingerprint (TrimSpace shardID) (TrimSpace target)
  | TriggerSplit shardID splitKey _ => splitFingerprint (TrimSpace shardID) splitKey
  | PrepareDrain _ _ => prepareDrainFingerprint self
  end.

Lemma fingerprint_ok self r : TrimSpace (fingerprint self r) <> "".
Proof. destruct r; cbn; apply TrimSpace_printable; unfold printable; decided. Qed.

Lemma guarded_payload (P : ControlMutation -> Prop) (b : bool) m apply c : (b = false -> P m /\ payload_spec m apply c) ->
  wpx (if b then mismatch else apply) (fun _ _ => P m) (fun _ _ => True) c /\ payload_spec m (if b then mismatch else apply) c.
Proof.
  intros Hb. destruct b; [by split; cbn|]. destruct (Hb eq_refl) as [HP Hm]. split; [|done]. eapply wpx_mono; [exact Hm|..]; done.
Qed.

Lemma transfer_served shardID target opts s : cp_wf (cp s) ->
  wpx (transferLeaderWithOptions grow marshalIndent statePath ancestors hk shardID target opts)
    (fun _ s' => served (asks (nodeID (cp s)) (TransferLeader shardID target opts)) opts (fingerprint (nodeID (cp s)) (TransferLeader shardID target opts)) s s')
    (fun _ s' => idle s s') s.
Proof.
  intros Hwf. unfold transferLeaderWithOptions. case_bool_decide; [by apply idle_refl|].
  apply applyControlMutation_spec; [done|apply (fingerprint_ok "" (TransferLeader shardID target opts))|]. intros m. apply guarded_payload.
  intros Hb%bool_decide_eq_false. assert (Ha : asks (nodeID (cp s)) (TransferLeader shardID target opts) m) by (split_and!; apply dec_stable; tauto).
  split; [done|]. by apply transfer_spec, Ha.
Qed.

Lemma serve_spec r s : cp_wf (cp s) ->
  wpx (serve r) (fun _ s' => served (asks (nodeID (cp s)) r) (options r) (fingerprint (nodeID (cp s)) r) s s') (fun _ s' => idle s s') s.
Proof.
  intros Hwf. pose proof (idle_refl s Hwf) as Hidle. destruct r as [shardID target opts|shardID splitKey opts|shardID target opts|node opts]; cbn [ControlPlane.serve].
  - by apply transfer_served.
  - unfold triggerSplitWithOptions. case_bool_decide; [done|]. apply applyControlMutation_spec; [done|apply (fingerprint_ok "" (TriggerSplit shardID splitKey opts))|].
    intros m. apply guarded_payload. intros Hb%bool_decide_eq_false.
    assert (Ha : asks (nodeID (cp s)) (TriggerSplit shardID splitKey opts) m) by (split_and!; apply dec_stable; tauto). split; [done|]. by apply split_spec, Ha.
  - unfold triggerRebalanceWithOptions. by apply transfer_served.
  - unfold prepareDrainWithOptions. apply wpx_get. case_bool_decide as Hn; [done|]. rewrite Hn.
    apply applyControlMutation_spec; [done|apply (fingerprint_ok (nodeID (cp s)) (PrepareDrain node opts))|].
    intros m. apply guarded_payload. intros Hb%bool_decide_eq_false.
    assert (Ha : asks (nodeID (cp s)) (PrepareDrain node opts) m) by (split_and!; apply dec_stable; tauto). split; [done|]. by apply drain_spec, Ha.
Qed.

(** ** Histories *)

Fixpoint serve_all (reqs : list request) s : list (result unit) * node K :=
  match reqs with
  | [] => ([], s)
  | r :: reqs => let '(x, s) := serve r s in let '(xs, s) := serve_all reqs s in (x :: xs, s)
  end.

(** What the requests of a history did to the revision and the ranges: a
    request that failed nothing, a request that succeeded one mutation it
    asks for, or nothing if its operation had been applied. *)
Inductive history (self : string) : list request -> list (result unit) -> Z * list arange -> Z * list arange -> Prop :=
| history_nil a : history self [] [] a a
| history_failed r e reqs rs a b : history self reqs rs a b -> history self (r :: reqs) (Err e :: rs) a b
| history_replayed r reqs rs a b : TrimSpace (OperationID (options r)) <> "" -> history self reqs rs a b -> history self (r :: reqs) (Ok tt :: rs) a b
| history_applied r m reqs rs rev l l' b : asks self r m -> mutation_step m l l' -> history self reqs rs (u64 (rev + 1), l') b ->
    history self (r :: reqs) (Ok tt :: rs) (rev, l) b.

Definition ranges_of s : Z * list arange := (revision (cp s), aview (cp s)).

Lemma aview_core c c' : core c' = core c -> aview c' = aview c /\ revision c' = revision c.
Proof.
  intros E. split; [|exact (f_equal Revision E)]. apply (f_equal Shards) in E. cbn in E. unfold shard_at in E. cbn in E.
  apply (f_equal (map (fun sh => mkArange (ss_ID sh) (StartKey sh) (EndKey sh) (Leader sh)))) in E. rewrite !map_map in E. exact E.
Qed.

(** The file is that of the state, or of one mutation more. *)
Definition near s : Prop :=
  exists c, cp_wf c /\ same_node (cp s) c /\ ahead (cp s) c /\ file s = Some (marshalIndent (snapshotStateLocked c)).

Lemma near_idle s s' : near s -> idle s s' -> near s'.
Proof.
  intros (c & H1 & (N1 & N2 & N3 & N4) & H3 & H4) (_ & I2 & _ & I4). destruct (same_node_core _ _ I2) as (M1 & M2 & M3 & M4). destruct (aview_core _ _ I2) as [Ea Er].
  assert (Hah : forall x, ahead (cp s) x -> ahead (cp s') x) by (intros x [Hx|Hx]; [left; congruence|right; by rewrite Ea, Er]).
  assert (Hnode : forall x, same_node (cp s) x -> same_node (cp s') x) by (intros x (X1 & X2 & X3 & X4); split_and!; congruence).
  destruct I4 as [I4|(x & X1 & X2 & X3 & X4)]; [exists c|exists x]; split_and!; auto; [by apply Hnode; split_and!|congruence].
Qed.

Lemma near_saved s : cp_wf (cp s) -> saved s -> near s.
Proof. intros Hwf Hs. exists (cp s). split_and!; [done|by split_and!|by left|done]. Qed.

Lemma applied_before_id opts fp s : applied_before opts fp s -> TrimSpace (OperationID opts) <> "".
Proof. unfold applied_before, checkOperationPreconditionsLocked. case_bool_decide as E; [|done]. destruct (ExpectedRevision opts); [by case_bool_decide|done]. Qed.

Lemma serve_all_spec reqs : forall s, cp_wf (cp s) -> near s -> let '(rs, s') := serve_all reqs s in
  cp_wf (cp s') /\ near s' /\ same_node (cp s) (cp s') /\ history (nodeID (cp s)) reqs rs (ranges_of s) (ranges_of s').
Proof.
  induction reqs as [|r reqs IH]; intros s Hwf Hnear; cbn [serve_all]; [split_and!; try done; constructor|].
  pose proof (serve_spec r s Hwf) as Hs. unfold wpx in Hs. destruct (serve r s) as [[[]|e| |] s1]; try done.
  - destruct Hs as [_ [(m & Ha & _ & (W & N & Hst & Hrev & _ & _ & _ & _ & Hsv))|[Hb Hi]]].
    + specialize (IH s1 W (near_saved s1 W Hsv)). destruct (serve_all reqs s1) as [rs s']. destruct IH as (I1 & I2 & I3 & I4).
      split_and!; [done|done|..]; [by apply (transitivity N I3)|].
      apply (history_applied _ _ m _ _ _ _ (aview (cp s1))); [done..|]. rewrite <- Hrev. by rewrite <- (proj1 N).
    + pose proof (near_idle _ _ Hnear Hi) as Hn1. destruct Hi as (W & C & _). pose proof (same_node_core _ _ C) as N. destruct (aview_core _ _ C) as [Ea Er].
      specialize (IH s1 W Hn1). destruct (serve_all reqs s1) as [rs s']. destruct IH as (I1 & I2 & I3 & I4).
      split_and!; [done|done|..]; [by apply (transitivity N I3)|].
      apply history_replayed; [by eapply applied_before_id|]. unfold ranges_of at 1. rewrite <- Ea, <- Er, <- (proj1 N). done.
  - pose proof (near_idle _ _ Hnear Hs) as Hn1. destruct Hs as (W & C & _). pose proof (same_node_core _ _ C) as N. destruct (aview_core _ _ C) as [Ea Er].
    specialize (IH s1 W Hn1). destruct (serve_all reqs s1) as [rs s']. destruct IH as (I1 & I2 & I3 & I4).
    split_and!; [done|done|..]; [by apply (transitivity N I3)|].
    apply history_failed. unfold ranges_of at 1. rewrite <- Ea, <- Er, <- (proj1 N). done.
Qed.

(** ** Start *)

Record boot_ok (c : controlPlane) : Prop := mkBootOk {
  bo_trimmed : Forall trimmed (order c);
  bo_ids : forall id sh, shards c !! id = Some sh -> ss_ID sh = id;
  bo_slices : forall id sh, shards c !! id = Some sh -> slice_ok (arrays c) (ss_Replicas sh);
  bo_heap : arrays c !! 0%nat = Some [];
  bo_ops : appliedOps c = ∅ /\ appliedOrder c = [] /\ commitErr c = None
}.

Lemma boot_insert c id start stop leader vs : boot_ok c -> trimmed id -> let '(sl, h) := slice_make vs (arrays c) in
  boot_ok (set_shards (<[id := mkShard None id start stop leader sl]> (shards c)) h (set_order (order c ++ [id]) c)).
Proof.
  intros [B1 B2 B3 B4 B5] Ht. pose proof (slice_make_spec vs (arrays c)) as Hs. destruct (slice_make vs (arrays c)) as [sl h]. destruct Hs as (Hle & Hok & _).
  constructor; cbn; [apply Forall_app; split; [done|by constructor]| | |by apply Hle|done].
  - intros id' sh. rewrite lookup_insert_Some. intros [[<- <-]|[_ Hs]]; [done|by apply B2].
  - intros id' sh. rewrite lookup_insert_Some. intros [[<- <-]|[_ Hs]]; [done|]. apply Hle. by apply (B3 id').
Qed.

Lemma bootstrap_shards_spec cfgs : forall c, boot_ok c -> wpx (bootstrap_shards cfgs) (fun _ c' => boot_ok c' /\ same_node c c') (fun _ _ => True) c.
Proof.
  induction cfgs as [|cfg cfgs IH]; intros c Hc; cbn [bootstrap_shards]; [by apply wpx_ret|]. apply wpx_get.
  case_bool_decide; [done|]. case_bool_decide; [done|]. destruct (config_replicas (nodeID c) cfg) as [leader replicas].
  match goal with |- context [slice_make ?v _] => pose proof (boot_insert c (TrimSpace (sc_ID cfg)) (sc_StartKey cfg) (sc_EndKey cfg) leader v Hc (TrimSpace_idem _)) as Hb; destruct (slice_make v (arrays c)) as [sl h] end.
  apply wpx_bind. cbn. eapply wpx_mono; [by apply IH|done|done].
Qed.

Lemma boot_wf c : boot_ok c -> wpx rebuildRoutesLocked (fun _ c' => cp_wf c' /\ commitErr c' = None /\ same_node c c') (fun _ _ => True) c.
Proof.
  intros [B1 B2 B3 B4 (B5 & B6 & B7)]. unfold rebuildRoutesLocked. apply wpx_get, wpx_bind. unfold wpx at 1, lift.
  pose proof (buildShardRoutes_returns (shards c) (order c)) as Hr. destruct (buildShardRoutes (order c) (shards c)) as [rs| | |] eqn:E; try done.
  split; [|by split_and!]. constructor; cbn; try done. rewrite B5, B6. constructor; [constructor|cbn; unfold maxAppliedControlOps; lia| |by intros id op].
  intros id. rewrite lookup_empty. split; [by intros ?%elem_of_nil|by intros [? ?]].
Qed.

Lemma bootstrap_spec cfgs c : boot_ok c -> order c = [] -> wpx (bootstrap cfgs) (fun _ c' => cp_wf c' /\ commitErr c' = None /\ same_node c c') (fun _ _ => True) c.
Proof.
  intros Hc Ho. unfold bootstrap. apply wpx_bind. destruct cfgs as [|cfg cfgs].
  - apply wpx_get. pose proof (boot_insert c "default" [] [] (nodeID c) [mkReplica (nodeID c) "leader" true] Hc eq_refl) as Hb. rewrite Ho in Hb.
    destruct (slice_make _ (arrays c)) as [sl h]. apply wpx_bind. cbn. eapply wpx_mono; [by apply boot_wf|done|done].
  - apply wpx_bind. cbn [wpx modify]. eapply wpx_mono; [apply bootstrap_shards_spec| |done].
    2:{ intros ? c' [Hb N]. eapply wpx_mono; [by apply boot_wf| |done]. intros ? c2 (W & E & M). split_and!; [done..|]. by apply (transitivity N M). }
    destruct Hc as [B1 B2 B3 B4 B5]. by constructor.
Qed.

Lemma new_state_ok opts c : new_state opts = Ok c -> boot_ok c /\ order c = [].
Proof. unfold new_state. case_bool_decide; [done|]. intros [= <-]. split; [|done]. by constructor. Qed.

Context (unmarshal : bytes -> result controlPlaneState).
Abbreviation newControlPlane := (newControlPlane (K := K) grow marshalIndent unmarshal statePath ancestors).

(** A node that starts without a state file is well-formed and has saved its
    state. *)
Lemma newControlPlane_boot opts k fs s fs' : newControlPlane opts (Ok k) fs = (Ok tt, Some s, fs') -> fs_dir fs !! statePath = None ->
  cp_wf (cp s) /\ commitErr (cp s) = None /\ saved s /\ exists c0, new_state opts = Ok c0 /\ same_node c0 (cp s).
Proof.
  unfold ControlPlane.newControlPlane. destruct (new_state opts) as [c| | |] eqn:En; try done. apply new_state_ok in En as [Hb Ho]. intros Hrun Hfile.
  assert (Hw : wpx (loadOrBootstrap grow marshalIndent unmarshal statePath ancestors (opt_ShardMap opts))
                 (fun _ s => cp_wf (cp s) /\ commitErr (cp s) = None /\ saved s /\ same_node c (cp s)) (fun _ _ => True) (mkNode c fs k)).
  { unfold loadOrBootstrap. apply wpx_bind. unfold loadState. rewrite bool_decide_false by done. apply wpx_bind, wpx_on_disk. unfold fs_ReadFile.
    apply wpx_bind, wpx_may_fail. intros fs1 D1. split; [|done]. apply wpx_get, wpx_ret. rewrite D1. cbn [disk]. rewrite Hfile. apply wpx_ret.
    apply wpx_bind, wpx_on_cp. eapply wpx_mono; [by apply bootstrap_spec| |done]. intros ? c' (Hwf & He & Hsame). eapply wpx_mono; [apply saveLocked_spec| |done].
    intros ? s' (E1 & _ & Hs). cbn in E1. rewrite E1. by split_and!. }
  unfold wpx in Hw. destruct (loadOrBootstrap _ _ _ _ _ _ _) as [r s1]. destruct r as [[]| | |]; try done. injection Hrun as <- _. naive_solver.
Qed.

(** A restart over the file of a well-formed state brings the state back. *)
Lemma newControlPlane_restart opts k fs c c0 : new_state opts = Ok c0 -> same_node c c0 -> cp_wf c -> fs_faults fs = [] ->
  fs_dir fs !! statePath = Some (marshalIndent (snapshotStateLocked c)) ->
  unmarshal (marshalIndent (snapshotStateLocked c)) = Ok (snapshotStateLocked c) -> exists s,
  newControlPlane opts (Ok k) fs = (Ok tt, Some s, disk s) /\ cp_wf (cp s) /\ snapshotStateLocked (cp s) = snapshotStateLocked c.
Proof.
  intros En Hn Hwf Hff Hf Hcodec. unfold ControlPlane.newControlPlane. rewrite En. apply new_state_ok in En as [Hb _].
  unfold loadOrBootstrap, loadState. rewrite bool_decide_false by done. unfold fs_ReadFile, on_disk, mbind, SE_bind, get. cbn [disk].
  rewrite (fs_may_fail_ok err_io fs Hff). cbn [mret SE_ret]. rewrite Hf. unfold lift. cbn [mret SE_ret]. rewrite Hcodec. cbn [Version snapshotStateLocked].
  rewrite bool_decide_false by done. fold (snapshotStateLocked c). rewrite (snapshot_valid c Hwf). cbn [mret SE_ret cp].
  destruct Hn as (N1 & N2 & N3 & N4). rewrite bool_decide_false by (cbn; rewrite N1, N2; tauto).
  destruct (restore_spec grow c c0 Hwf) as (c2 & Er & H1 & H2 & _); [by split_and!|apply Hb|]. unfold on_cp. cbn [cp]. rewrite Er. by eexists.
Qed.
End Node.
