(* ===== verification/ControlClaims.v ===== *)
(** * What the control plane guarantees

    The theorems on requests, routing, operation ids and restarts, with the
    runs that show what the aliasing of replicas and the ambiguity of
    fingerprints lead to. *)

From Stdlib Require Import ZArith Lia Strings.Byte.
From stdpp Require Import base list strings pretty countable gmap.
From S2P Require Import Prelude Iofs Manifest Engine GoStrings ControlPlane ControlSpec ControlNode.
Local Open Scope Z_scope.
Local Open Scope lsm_scope.

(** ** A codec for examples *)

#[local] Instance replica_eq_dec : EqDecision ReplicaStatus.
Proof. solve_decision. Defined.
#[local] Instance replica_countable : Countable ReplicaStatus :=
  inj_countable' (fun r => (NodeID r, Role r, Healthy r)) (fun '(a, b, c) => mkReplica a b c) ltac:(by intros []).
#[local] Instance raft_eq_dec : EqDecision RaftOptions.
Proof. solve_decision. Defined.
#[local] Instance raft_countable : Countable RaftOptions :=
  inj_countable' (fun r => (Replicas r, ElectionTimeout r, HeartbeatInterval r, Peers r)) (fun '(a, b, c, d) => mkRaft a b c d) ltac:(by intros []).
#[local] Instance shard_eq_dec : EqDecision (ShardStatus (list ReplicaStatus)).
Proof. solve_decision. Defined.
#[local] Instance shard_countable : Countable (ShardStatus (list ReplicaStatus)) :=
  inj_countable' (fun s => (WriteLeader s, ss_ID s, StartKey s, EndKey s, Leader s, ss_Replicas s)) (fun '(a, b, c, d, e, f) => mkShard a b c d e f) ltac:(by intros []).
#[local] Instance op_eq_dec : EqDecision appliedOperationState.
Proof. solve_decision. Defined.
#[local] Instance op_countable : Countable appliedOperationState :=
  inj_countable' (fun r => (ao_ID r, Fingerprint r, ao_Revision r)) (fun '(a, b, c) => mkAppliedOp a b c) ltac:(by intros []).
#[local] Instance state_eq_dec : EqDecision controlPlaneState.
Proof. solve_decision. Defined.
#[local] Instance state_countable : Countable controlPlaneState :=
  inj_countable' (fun s => (st_CommitLogAppliedIndex s, Version s, st_NodeID s, st_ClusterID s, st_StorageMode s, st_Raft s, Draining s, Revision s, Order s, Shards s, AppliedOps s))
    (fun '(a, b, c, d, e, f, g, h, i, j, k) => mkControlState a b c d e f g h i j k) ltac:(by intros []).

Definition demo_marshal : controlPlaneState -> bytes := count_marshal.
Definition demo_unmarshal : bytes -> result controlPlaneState := count_unmarshal.

Lemma demo_codec st : demo_unmarshal (demo_marshal st) = Ok st.
Proof. apply count_codec. Qed.

(** ** The ranges and the routing of a well-formed control plane *)

Lemma aview_elem c a : cp_wf c -> a ∈ aview c <-> exists sh, shards c !! ar_id a = Some sh /\ a = arange_of sh.
Proof.
  intros Hwf. destruct (wf_spec c Hwf) as (_ & _ & _ & _ & Hdom & _). unfold aview. rewrite list_elem_of_fmap. split.
  - intros (id & -> & Hid). pose proof (shard_at_wf c id Hwf Hid) as Es. exists (shard_at c id). cbn. by rewrite (wf_ids c Hwf _ _ Es).
  - intros (sh & Es & Ea). exists (ar_id a). split; [unfold shard_at; by rewrite Es|]. apply Hdom. by eexists.
Qed.

Lemma routing_aview c key id : cp_wf c ->
  shardIDForKey c key = Some id <-> exists a, a ∈ aview c /\ ar_id a = id /\ keyInRange key (ar_start a) (ar_end a) = true.
Proof.
  intros Hwf. unfold shardIDForKey. rewrite fmap_Some. setoid_rewrite (shardForKey_spec c Hwf). split.
  - intros (sh & (id' & Es & Hk) & ->). pose proof (wf_ids c Hwf _ _ Es) as Ei. exists (arange_of sh). split; [|done]. apply (aview_elem c _ Hwf).
    exists sh. split; [|done]. cbn. by rewrite Ei.
  - intros (a & Ha & Ei & Hk). apply (aview_elem c a Hwf) in Ha as (sh & Es & ->). exists sh. rewrite <- Ei. split; [by eexists|done].
Qed.

Lemma ids_unique c a b : cp_wf c -> a ∈ aview c -> b ∈ aview c -> ar_id a = ar_id b -> a = b.
Proof. intros Hwf Ha Hb E. apply (aview_elem c _ Hwf) in Ha as (x & Ex & ->), Hb as (y & Ey & ->). cbn in *. congruence. Qed.

(** A node that started without a state file. *)
Definition started {K} `{Consensus K} grow marshal unmarshal path anc opts (k : K) fs (s : node K) : Prop :=
  path <> "" /\ fs_dir fs !! path = None /\ exists fs', newControlPlane grow marshal unmarshal path anc opts (Ok k) fs = (Ok tt, Some s, fs').

Section Claims.
Context {K : Type} `{Consensus K} (grow : nat -> nat -> nat) (marshal : controlPlaneState -> bytes) (unmarshal : bytes -> result controlPlaneState).
Context (path : string) (anc : nat) (hk : hooks (K := K)).

(** What the engine and the commit log promise the control plane: the calls
    of the engine do not touch it, and committing returns. *)
Definition environment_ok : Prop := hooks_ok hk /\ forall m (k : K), returned (fst (CommitControl m k)).


(** C12. Acknowledged changes survive a restart: after any requests under any
    failures of the file system, the state file holds the state of the node or
    that of one unacknowledged mutation more, and, if the JSON codec gives it
    back, a node started over the file with the same options has that state. *)
Theorem control_state_survives_restart opts (k k' : K) fs s reqs now : started grow marshal unmarshal path anc opts k fs s -> environment_ok ->
  let '(rs, s') := serve_all grow marshal path anc hk reqs s in
  exists c, ahead (cp s') c /\ validateControlPlaneState (snapshotStateLocked c) = Ok tt /\
    file path s' = Some (marshal (snapshotStateLocked c)) /\
    (unmarshal (marshal (snapshotStateLocked c)) = Ok (snapshotStateLocked c) -> exists s2,
       newControlPlane grow marshal unmarshal path anc opts (Ok k') (mkFS (fs_dir (disk s')) [] now) = (Ok tt, Some s2, disk s2) /\
       snapshotStateLocked (cp s2) = snapshotStateLocked c).
Proof.
  intros (Hp & Hf & fs' & Hn) (Hhk & Hc). destruct (newControlPlane_boot grow marshal path Hp anc unmarshal opts k fs s fs' Hn Hf) as (Hwf & _ & Hs & c0 & E0 & N0).
  pose proof (serve_all_spec grow marshal path Hp anc hk Hhk Hc reqs s Hwf (near_saved _ _ s Hwf Hs)) as Hr.
  destruct (serve_all _ _ _ _ _ reqs s) as [rs s']. destruct Hr as (_ & (c & C1 & C2 & C3 & C4) & N & _). exists c. split_and!; [done|by apply snapshot_valid|done|].
  intros Hcodec. destruct (newControlPlane_restart grow marshal path Hp anc unmarshal opts k' (mkFS (fs_dir (disk s')) [] now) c c0 E0) as (s2 & R1 & _ & R2);
    [|done|done|done|done|by exists s2].
  destruct (transitivity N0 (transitivity N C2)) as (? & ? & ? & ?). by repeat split.
Qed.

(** A node after any requests since its start. *)
Definition running (s : node K) : Prop :=
  environment_ok /\ exists opts (k : K) fs s0 reqs rs, started grow marshal unmarshal path anc opts k fs s0 /\ serve_all grow marshal path anc hk reqs s0 = (rs, s).

Lemma running_wf s : running s -> path <> "" /\ cp_wf (cp s).
Proof.
  intros ([Hhk Hc] & opts & k & fs & s0 & reqs & rs & (Hp & Hf & fs' & Hn) & Hr). split; [done|].
  destruct (newControlPlane_boot grow marshal path Hp anc unmarshal opts k fs s0 fs' Hn Hf) as (Hwf & _ & Hs & _).
  pose proof (serve_all_spec grow marshal path Hp anc hk Hhk Hc reqs s0 Hwf (near_saved _ _ s0 Hwf Hs)) as Hx. rewrite Hr in Hx. apply Hx.
Qed.

(** Routing by binary search is routing by ranges: at any time a key goes
    to a shard exactly if the range of the shard holds the key, and so to at
    most one shard. *)
Theorem routing_by_ranges s key id : running s ->
  shardIDForKey (cp s) key = Some id <-> exists sh, shards (cp s) !! id = Some sh /\ keyInRange key (StartKey sh) (EndKey sh) = true.
Proof.
  intros [_ Hwf]%running_wf. rewrite (routing_aview _ _ _ Hwf). split.
  - intros (a & Ha & <- & Hk). apply (aview_elem _ a Hwf) in Ha as (sh & Es & Ea). exists sh. rewrite Ea in Hk. by split.
  - intros (sh & Es & Hk). exists (arange_of sh). pose proof (wf_ids _ Hwf _ _ Es) as Ei. split_and!; [|done|done].
    apply (aview_elem _ _ Hwf). exists sh. cbn. by rewrite Ei.
Qed.

Lemma mutated_of_serve r s s' : running s -> TrimSpace (OperationID (options r)) = "" -> serve grow marshal path anc hk r s = (Ok tt, s') ->
  cp_wf (cp s) /\ exists m, asks (nodeID (cp s)) r m /\ mutated marshal path m (options r) (fingerprint (nodeID (cp s)) r) s s'.
Proof.
  intros Hrun Hid E. destruct (running_wf s Hrun) as [Hp Hwf]. destruct Hrun as ((Hhk & Hc) & _). split; [done|].
  pose proof (serve_spec grow marshal path Hp anc hk Hhk Hc r s Hwf) as Hs. unfold wpx in Hs. rewrite E in Hs.
  destruct Hs as [_ [(m & H1 & _ & H2)|[Hb _]]]; [by exists m|]. by apply applied_before_id in Hb.
Qed.

(** C27. A split divides the keys of its shard and no others: the keys below
    the split key go to the left half and the others to the right half, which
    have new ids. *)
Theorem split_divides_keys s id splitKey opts s' : running s -> TrimSpace (OperationID opts) = "" ->
  serve grow marshal path anc hk (TriggerSplit id splitKey opts) s = (Ok tt, s') ->
  exists left right, left <> right /\ forall key, shardIDForKey (cp s') key =
    if decide (shardIDForKey (cp s) key = Some (TrimSpace id)) then Some (if decide (key ≺ splitKey) then left else right)
    else shardIDForKey (cp s) key.
Proof.
  intros Hrun Hid E. destruct (mutated_of_serve (TriggerSplit id splitKey opts) s s' Hrun Hid E) as (Hwf & m & (Hkind & Hsid & Hkey) & (Hwf' & _ & Hstep & _)).
  inversion Hstep as [? ? ? ? Hk|? l a r left right _ Ha Hlr Hl Hr Hst Hen E1 Ev Ev'|? ? ? Hk]; [congruence| |congruence]. rewrite Hkey in *.
  assert (Hav : a ∈ aview (cp s)) by (rewrite <- Ev; set_solver). rewrite Hsid in Ha.
  exists left, right. split; [done|]. intros key. destruct (decide (shardIDForKey (cp s) key = Some (TrimSpace id))) as [Hin|Hout].
  - apply (routing_aview _ _ _ Hwf) in Hin as (b & Hb & Ei & Hk). assert (b = a) as -> by (eapply ids_unique; [exact Hwf|done|done|congruence]).
    apply keyInRange_true in Hk as [Hk1 Hk2]. apply (routing_aview _ _ _ Hwf'). rewrite <- Ev'. destruct (decide (key ≺ splitKey)) as [Hlt|Hge].
    + eexists (mkArange left _ _ _). split_and!; [apply elem_of_app; right; by left|done|]. apply keyInRange_true. cbn. auto.
    + eexists (mkArange right _ _ _). split_and!; [apply elem_of_app; right; right; by left|done|]. apply keyInRange_true. cbn. split; [right; bytes_order|done].
  - apply option_eq. intros x. rewrite (routing_aview _ _ _ Hwf), (routing_aview _ _ _ Hwf'), <- Ev, <- Ev'.
    assert (Hno : keyInRange key (ar_start a) (ar_end a) <> true) by (intros Hk; apply Hout, (routing_aview _ _ _ Hwf); by exists a).
    rewrite keyInRange_true in Hno. split; intros (b & Hb & Hx & Hk); exists b; (split; [|done]).
    + apply elem_of_app in Hb as [Hb|[->|[->|Hb]%elem_of_cons]%elem_of_cons]; [apply elem_of_app; by left|exfalso..|apply elem_of_app; right; by right].
      all: apply keyInRange_true in Hk as [Hk1 Hk2]; cbn in *; pose proof (bytes_le_nil (ar_start a)) as Hnil; apply Hno; split; try done.
      * destruct Hen as [?|Hen]; [by left|right]. destruct Hk2 as [->|Hk2]; bytes_order.
      * right. destruct Hk1 as [->|Hk1]; bytes_order.
    + apply elem_of_app in Hb as [Hb|[->|Hb]%elem_of_cons]; [apply elem_of_app; by left|exfalso; by apply Hno, keyInRange_true|apply elem_of_app; right; do 2 right; done].
Qed.

(** A drain that succeeds leaves the node without leadership and without
    writes: no shard has it as leader, the other shards keep their leaders,
    and every write is refused. *)
Theorem drain_gives_up_leadership s node opts s' : running s -> TrimSpace (OperationID opts) = "" ->
  serve grow marshal path anc hk (PrepareDrain node opts) s = (Ok tt, s') ->
  (forall id sh', shards (cp s') !! id = Some sh' -> Leader sh' <> nodeID (cp s) /\
     exists sh, shards (cp s) !! id = Some sh /\ (Leader sh <> nodeID (cp s) -> Leader sh' = Leader sh)) /\
  forall key, allowWrite s' key = Err ErrBackpressure.
Proof.
  intros Hrun Hid E. destruct (mutated_of_serve (PrepareDrain node opts) s s' Hrun Hid E) as (Hwf & m & (Hkind & Hn) & (Hwf' & _ & Hstep & _ & Hd & _)).
  split.
  - intros id sh' Es'. inversion Hstep as [? ? ? ? Hk|? ? ? ? ? ? Hk|? as1 as2 _ Hf Ea Eb]; [congruence..|].
    assert (Hin : arange_of sh' ∈ aview (cp s')) by (apply (aview_elem _ _ Hwf'); exists sh'; cbn; by rewrite (wf_ids _ Hwf' _ _ Es')).
    apply list_elem_of_lookup in Hin as [i Hi]. destruct (Forall2_lookup_r _ _ _ _ _ Hf Hi) as (a & Hai & t & Et & Ht).
    apply list_elem_of_lookup_2, (aview_elem _ _ Hwf) in Hai as (sh & Es & ->). unfold arange_of, with_leader in Et. injection Et as Ei _ _ El. cbn in Es, Ht.
    rewrite <- Ei, (wf_ids _ Hwf' _ _ Es') in Es. rewrite El. rewrite Hn in Ht. destruct (decide (Leader sh = nodeID (cp s))) as [|Hne].
    + split; [done|]. by exists sh.
    + rewrite Ht. split; [done|]. by exists sh.
  - intros key. rewrite bool_decide_true in Hd by done. rewrite orb_true_r in Hd. unfold allowWrite. destruct (raftWriteLeader s'). by rewrite Hd.
Qed.

(** *** Operation ids *)

(** The operation is among the last [n + 1] applied ones. *)
Definition recent (opID fp : string) (n : nat) (c : controlPlane) : Prop :=
  exists pre post op, appliedOrder c = pre ++ opID :: post /\ (length post <= n)%nat /\ appliedOps c !! opID = Some op /\ Fingerprint op = fp.

Lemma check_recent opts fp n c : TrimSpace (OperationID opts) <> "" -> recent (TrimSpace (OperationID opts)) fp n c ->
  checkOperationPreconditionsLocked c opts fp = Ok true.
Proof.
  intros Hid (pre & post & op & _ & _ & Ho & Hf). unfold checkOperationPreconditionsLocked. rewrite bool_decide_false by done. rewrite Ho.
  by rewrite bool_decide_false by (intros Hx; by apply Hx).
Qed.

Lemma note_recent opts fp c : cp_wf c -> TrimSpace (OperationID opts) <> "" -> appliedOps c !! TrimSpace (OperationID opts) = None ->
  recent (TrimSpace (OperationID opts)) fp 0 (noteOperationAppliedLocked opts fp c).
Proof.
  intros Hwf Hid Hn. pose proof (ow_bound _ _ (wf_ops c Hwf)) as Hb. unfold noteOperationAppliedLocked. rewrite bool_decide_false by done. rewrite (bool_decide_true (_ !! _ = None)) by done.
  set (opID := TrimSpace (OperationID opts)) in *. case_bool_decide as Hl; unfold recent; cbn.
  - exists (appliedOrder c), [], (mkAppliedOp opID fp (u64 (revision c + 1))). split_and!; [done|cbn; lia|apply lookup_insert_eq|done].
  - rewrite length_app in *. cbn in *. set (k := (length (appliedOrder c) + 1 - maxAppliedControlOps)%nat).
    assert (Hk : (k <= length (appliedOrder c))%nat) by (unfold k, maxAppliedControlOps in *; lia).
    exists (drop k (appliedOrder c)), [], (mkAppliedOp opID fp (u64 (revision c + 1))). split_and!; [by rewrite drop_app_le|cbn; lia| |done].
    rewrite fold_delete_lookup, take_app_le by done. rewrite decide_False; [apply lookup_insert_eq|].
    intros Hin. apply elem_of_take in Hin as (i & Hi & _). apply list_elem_of_lookup_2, (ow_dom _ _ (wf_ops c Hwf)) in Hi as [? ?]. congruence.
Qed.

Lemma note_keeps_recent opID fp n opts fp' c : cp_wf c -> (n < 255)%nat -> recent opID fp n c ->
  checkOperationPreconditionsLocked c opts fp' = Ok false -> recent opID fp (S n) (noteOperationAppliedLocked opts fp' c).
Proof.
  intros Hwf Hn (pre & post & op & Eo & Hl & Ho & Hf) Hc. pose proof (ow_bound _ _ (wf_ops c Hwf)) as Hb. pose proof (ow_nodup _ _ (wf_ops c Hwf)) as Hnd.
  unfold noteOperationAppliedLocked, checkOperationPreconditionsLocked in *. case_bool_decide as Hid; [exists pre, post, op; cbn; split_and!; [done|lia|done|done]|].
  set (new := TrimSpace (OperationID opts)) in *. destruct (appliedOps c !! new) as [x|] eqn:Ex; [by destruct (bool_decide _)|]. rewrite (bool_decide_true (None = None)) by done.
  assert (Hne : opID <> new) by congruence. case_bool_decide as Hlen; unfold recent; cbn.
  - exists pre, (post ++ [new]), op. rewrite Eo, <- app_assoc, length_app. cbn. split_and!; [done|lia|by rewrite lookup_insert_ne|done].
  - rewrite length_app in *. cbn in *. set (k := (length (appliedOrder c) + 1 - maxAppliedControlOps)%nat).
    assert (HL : length (appliedOrder c) = (length pre + S (length post))%nat) by (by rewrite Eo, length_app).
    assert (Hk : (k <= length pre)%nat) by (unfold k, maxAppliedControlOps in *; lia).
    rewrite Eo in *. exists (drop k pre), (post ++ [new]), op. rewrite length_app. cbn. split_and!; [|lia| |done].
    + rewrite <- app_assoc, drop_app_le by done. done.
    + rewrite fold_delete_lookup, <- app_assoc, take_app_le by done. rewrite decide_False; [by rewrite lookup_insert_ne|].
      intros Hin%elem_of_take. destruct Hin as (i & Hi & _). apply NoDup_app in Hnd as (_ & Hnd & _). apply (Hnd opID); [by eapply list_elem_of_lookup_2|by left].
Qed.

Lemma appliedOrder_core c c' : cp_wf c -> cp_wf c' -> core c' = core c -> appliedOrder c' = appliedOrder c.
Proof.
  intros H1 H2 E. apply (f_equal AppliedOps) in E. rewrite <- (snapshot_op_ids c H1), <- (snapshot_op_ids c' H2). exact (f_equal (map ao_ID) E).
Qed.

Lemma serve_all_recent opID fp : path <> "" -> environment_ok -> forall reqs s n, cp_wf (cp s) -> recent opID fp n (cp s) -> (n + length reqs <= 255)%nat ->
  let '(rs, s') := serve_all grow marshal path anc hk reqs s in
  cp_wf (cp s') /\ recent opID fp (n + length reqs) (cp s') /\ same_node (cp s) (cp s').
Proof.
  intros Hp (Hhk & Hc) reqs. induction reqs as [|r reqs IH]; intros s n Hwf Hr Hn; cbn [serve_all length] in *; [by rewrite Nat.add_0_r|].
  pose proof (serve_spec grow marshal path Hp anc hk Hhk Hc r s Hwf) as Hs. unfold wpx in Hs.
  assert (Hone : match serve grow marshal path anc hk r s with (Ok _, s1) | (Err _, s1) => cp_wf (cp s1) /\ recent opID fp (S n) (cp s1) /\ same_node (cp s) (cp s1) | _ => False end).
  { assert (Hidle : forall s1, idle marshal path s s1 -> cp_wf (cp s1) /\ recent opID fp (S n) (cp s1) /\ same_node (cp s) (cp s1)).
    { intros s1 (W & C & O & _). split_and!; [done| |by apply same_node_core]. destruct Hr as (pre & post & op & R1 & R2 & R3 & R4).
      exists pre, post, op. rewrite (appliedOrder_core _ _ Hwf W C), O. split_and!; [done|lia|done|done]. }
    destruct (serve grow marshal path anc hk r s) as [[[]|e| |] s1]; try done; [|by apply Hidle].
    destruct Hs as [_ [(m & _ & Hch & (W & N & _ & _ & _ & O1 & O2 & _))|[_ Hi]]]; [|by apply Hidle]. split_and!; [done| |done].
    destruct (note_keeps_recent opID fp n (options r) _ (cp s) Hwf ltac:(lia) Hr Hch) as (pre & post & op & R1 & R2 & R3 & R4).
    exists pre, post, op. by rewrite O1, O2. }
  destruct (serve grow marshal path anc hk r s) as [[[]|e| |] s1]; try done; destruct Hone as (W & R & N).
  all: specialize (IH s1 (S n) W R ltac:(lia)); destruct (serve_all _ _ _ _ _ reqs s1) as [rs s']; destruct IH as (I1 & I2 & I3).
  all: split_and!; [done|by rewrite Nat.add_succ_r|by apply (transitivity N I3)].
Qed.

Lemma serve_replayed r s s0 s1 : hk = no_hooks -> serve grow marshal path anc hk r s0 = (Ok tt, s1) -> nodeID (cp s) = nodeID (cp s0) -> commitErr (cp s) = None ->
  checkOperationPreconditionsLocked (cp s) (options r) (fingerprint (nodeID (cp s)) r) = Ok true -> serve grow marshal path anc hk r s = (Ok tt, s).
Proof.
  intros -> E En Ee Hc. assert (Hp : forall m opts fp mutate, checkOperationPreconditionsLocked (cp s) opts fp = Ok true ->
    applyControlMutation grow marshal path anc no_hooks m opts fp mutate s = (Ok tt, s)).
  { intros m opts fp mutate Hch. unfold applyControlMutation, propose. rewrite SE_get_bind, Ee. cbn [admitProposal no_hooks].
    unfold mbind, SE_bind, get, lift. cbn. by rewrite Hch. }
  destruct r as [a b o|a b o|a b o|a o]; cbn [serve] in *; unfold triggerRebalanceWithOptions, transferLeaderWithOptions, triggerSplitWithOptions, prepareDrainWithOptions in *.
  1-3: case_bool_decide; [done|by apply Hp].
  rewrite SE_get_bind in E |- *. rewrite En. case_bool_decide as Hn; [done|]. apply Hp. cbn in Hc. rewrite En in Hc. by rewrite Hn.
Qed.

(** C26. A retried operation is applied once: a request with an operation id
    that succeeded, sent again after up to 255 other requests, succeeds
    without any effect. *)
Theorem operations_apply_once r s s1 reqs rs s2 : running s -> hk = no_hooks ->
  TrimSpace (OperationID (options r)) <> "" -> appliedOps (cp s) !! TrimSpace (OperationID (options r)) = None ->
  serve grow marshal path anc hk r s = (Ok tt, s1) -> (length reqs <= 255)%nat ->
  serve_all grow marshal path anc hk reqs s1 = (rs, s2) -> commitErr (cp s2) = None ->
  serve grow marshal path anc hk r s2 = (Ok tt, s2).
Proof.
  intros Hrun Hh Hid Hnew E Hl Er Hce. destruct (running_wf s Hrun) as [Hp Hwf]. destruct Hrun as ((Hhk & Hc) & _).
  pose proof (serve_spec grow marshal path Hp anc hk Hhk Hc r s Hwf) as Hs. unfold wpx in Hs. rewrite E in Hs.
  destruct Hs as [_ [(m & _ & _ & (W & N & _ & _ & _ & O1 & O2 & _))|[Hb _]]].
  2:{ exfalso. unfold applied_before, checkOperationPreconditionsLocked in Hb. rewrite bool_decide_false, Hnew in Hb by done.
      destruct (ExpectedRevision (options r)); [by destruct (bool_decide _)|done]. }
  assert (Hr0 : recent (TrimSpace (OperationID (options r))) (fingerprint (nodeID (cp s)) r) 0 (cp s1)).
  { destruct (note_recent (options r) (fingerprint (nodeID (cp s)) r) (cp s) Hwf Hid Hnew) as (pre & post & op & R). exists pre, post, op. by rewrite O1, O2. }
  pose proof (serve_all_recent _ _ Hp (conj Hhk Hc) reqs s1 0 W Hr0 Hl) as Hx. rewrite Er in Hx. destruct Hx as (_ & Hrec & N2).
  pose proof (transitivity N N2) as (En & _). apply (serve_replayed r s2 s s1); [done..|]. rewrite En. by eapply check_recent.
Qed.
End Claims.

(** ** Examples *)

Definition demo_grow (oldcap n : nat) : nat := if bool_decide (2 * oldcap < n)%nat then n else (2 * oldcap)%nat.
Definition demo_path : string := "control_state.json".
Definition demo_opts : ControlOptions := mkControlOptions "n1" "c1" "" None [mkShardConfig "s" [] [] ["n1"; "n2"] "n1"].
Definition demo_fs : FS := mkFS ∅ [] 0.

Abbreviation demo_new := (newControlPlane (K := localConsensus) demo_grow demo_marshal demo_unmarshal demo_path 1 demo_opts (Ok newLocalConsensus)).
Abbreviation demo_serve := (serve (K := localConsensus) demo_grow demo_marshal demo_path 1 no_hooks).
Abbreviation demo_serve_all := (serve_all (K := localConsensus) demo_grow demo_marshal demo_path 1 no_hooks).

Definition the_node (o : option (node localConsensus)) : node localConsensus :=
  default (mkNode (mkControlPlane None 0 "" "" "" (mkRaft 0 0 0 []) false 0 [] ∅ [] ∅ [] empty_heap) demo_fs newLocalConsensus) o.
Definition demo_start : node localConsensus := the_node (snd (fst (demo_new demo_fs))).

Definition no_opts : ControlWriteOptions := mkWriteOptions "" None.
Definition with_id (id : string) : ControlWriteOptions := mkWriteOptions id None.

Lemma local_environment : environment_ok (K := localConsensus) no_hooks.
Proof. split; [by split|]. intros m k. unfold CommitControl, local_consensus, local_CommitControl. by destruct (nextCommit k). Qed.

Lemma demo_started : started demo_grow demo_marshal demo_unmarshal demo_path 1 demo_opts newLocalConsensus demo_fs demo_start.
Proof. split_and!; [done|done|]. eexists (snd (demo_new demo_fs)). vm_compute. reflexivity. Qed.

Lemma demo_running reqs : running demo_grow demo_marshal demo_unmarshal demo_path 1 no_hooks (snd (demo_serve_all reqs demo_start)).
Proof.
  split; [apply local_environment|]. exists demo_opts, newLocalConsensus, demo_fs, demo_start, reqs. exists (fst (demo_serve_all reqs demo_start)).
  split; [apply demo_started|]. by destruct (demo_serve_all reqs demo_start).
Qed.

Definition split_at_m : request := TriggerSplit "s" (bytes_of_string "m") no_opts.
Definition demo_reqs : list request := [split_at_m; TransferLeader "s-a" "n3" (with_id "op1"); TriggerSplit "s-b" [] no_opts].


Lemma control_state_survives_restart_witness :
  let '(rs, s') := demo_serve_all demo_reqs demo_start in
  exists c s2, ahead (cp s') c /\ demo_new (mkFS (fs_dir (disk s')) [] 0) = (Ok tt, Some s2, disk s2) /\ snapshotStateLocked (cp s2) = snapshotStateLocked c.
Proof.
  pose proof (control_state_survives_restart demo_grow demo_marshal demo_unmarshal demo_path 1 no_hooks demo_opts newLocalConsensus newLocalConsensus demo_fs demo_start demo_reqs 0
    demo_started local_environment) as Hx.
  destruct (demo_serve_all demo_reqs demo_start) as [rs s']. destruct Hx as (c & H1 & _ & _ & H2). destruct (H2 (demo_codec _)) as (s2 & H3 & H4).
  exists c, s2. split; [exact H1|]. split; [exact H3|exact H4].
Defined.

Lemma routing_by_ranges_witness :
  let s := snd (demo_serve_all [split_at_m] demo_start) in
  shardIDForKey (cp s) (bytes_of_string "a") = Some "s-a" /\
  exists sh, shards (cp s) !! "s-a" = Some sh /\ keyInRange (bytes_of_string "a") (StartKey sh) (EndKey sh) = true.
Proof.
  assert (E : shardIDForKey (cp (snd (demo_serve_all [split_at_m] demo_start))) (bytes_of_string "a") = Some "s-a") by (vm_compute; reflexivity).
  split; [exact E|]. exact (proj1 (routing_by_ranges _ _ _ _ _ _ _ (bytes_of_string "a") "s-a" (demo_running [split_at_m])) E).
Defined.

Lemma split_divides_keys_witness : exists left right, left <> right /\
  forall key, shardIDForKey (cp (snd (demo_serve split_at_m (snd (demo_serve_all [] demo_start))))) key =
    if decide (shardIDForKey (cp (snd (demo_serve_all [] demo_start))) key = Some (TrimSpace "s"))
    then Some (if decide (key ≺ bytes_of_string "m") then left else right) else shardIDForKey (cp (snd (demo_serve_all [] demo_start))) key.
Proof.
  apply (split_divides_keys demo_grow demo_marshal demo_unmarshal demo_path 1 no_hooks _ "s" (bytes_of_string "m") no_opts); [apply demo_running|reflexivity|].
  assert (E : fst (demo_serve split_at_m (snd (demo_serve_all [] demo_start))) = Ok tt) by (vm_compute; reflexivity). revert E. unfold split_at_m.
  destruct (demo_serve _ _) as [r s']. cbn [fst snd]. intros ->. reflexivity.
Defined.

Lemma drain_gives_up_leadership_witness :
  allowWrite (snd (demo_serve (PrepareDrain "" no_opts) (snd (demo_serve_all [] demo_start)))) (bytes_of_string "a") = Err ErrBackpressure.
Proof.
  apply (drain_gives_up_leadership demo_grow demo_marshal demo_unmarshal demo_path 1 no_hooks (snd (demo_serve_all [] demo_start)) "" no_opts); [apply demo_running|reflexivity|].
  assert (E : fst (demo_serve (PrepareDrain "" no_opts) (snd (demo_serve_all [] demo_start))) = Ok tt) by (vm_compute; reflexivity). revert E.
  destruct (demo_serve _ _) as [r s']. cbn [fst snd]. intros ->. reflexivity.
Defined.

Definition once_request : request := TransferLeader "s" "n3" (with_id "op1").

Lemma operations_apply_once_witness :
  let s1 := snd (demo_serve once_request (snd (demo_serve_all [] demo_start))) in
  let s2 := snd (demo_serve_all [split_at_m] s1) in
  order (cp s2) = ["s-a"; "s-b"] /\ demo_serve once_request s2 = (Ok tt, s2).
Proof.
  cbv zeta. split; [vm_compute; reflexivity|]. set (s1 := snd (demo_serve once_request (snd (demo_serve_all [] demo_start)))).
  apply (operations_apply_once demo_grow demo_marshal demo_unmarshal demo_path 1 no_hooks once_request (snd (demo_serve_all [] demo_start)) s1 [split_at_m]
           (fst (demo_serve_all [split_at_m] s1)) (snd (demo_serve_all [split_at_m] s1))).
  - apply demo_running.
  - reflexivity.
  - cbv. discriminate.
  - vm_compute. reflexivity.
  - assert (E : fst (demo_serve once_request (snd (demo_serve_all [] demo_start))) = Ok tt) by (vm_compute; reflexivity). revert E. unfold s1.
    destruct (demo_serve _ _) as [r s']. cbn [fst snd]. intros ->. reflexivity.
  - cbn. lia.
  - by destruct (demo_serve_all [split_at_m] s1).
  - vm_compute. reflexivity.
Defined.

(** ** What the code does beside this *)

Definition roles (s : node localConsensus) : list (string * string * list (string * string)) :=
  map (fun sh => (ss_ID sh, Leader sh, map (fun r => (NodeID r, Role r)) (ss_Replicas sh))) (Shards (snapshotStateLocked (cp s))).

Definition restarted (s : node localConsensus) : node localConsensus := the_node (snd (fst (demo_new (mkFS (fs_dir (disk s)) [] 0)))).

(** The halves of a split share the array of their replicas, so a transfer of
    one half changes the roles of the other: [s-b] keeps the leader [n1] while
    its replicas say [n2].  A node that restarts between the two requests has
    separate arrays and ends in another state. *)
Theorem split_halves_share_replicas :
  let s1 := snd (demo_serve split_at_m demo_start) in
  let transfer := TransferLeader "s-a" "n2" no_opts in
  roles (snd (demo_serve transfer s1)) =
    [("s-a", "n2", [("n1", "follower"); ("n2", "leader")]); ("s-b", "n1", [("n1", "follower"); ("n2", "leader")])] /\
  roles (snd (demo_serve transfer (restarted s1))) =
    [("s-a", "n2", [("n1", "follower"); ("n2", "leader")]); ("s-b", "n1", [("n1", "leader"); ("n2", "follower")])].
Proof. vm_compute. split; reflexivity. Qed.

(** With spare capacity in the shared array a replica added to one half
    overwrites the one added to the other: [s-a] is led by a node that is not
    among its replicas. *)
Theorem split_halves_overwrite_replicas :
  roles (snd (demo_serve_all [TransferLeader "s" "n3" no_opts; split_at_m; TransferLeader "s-a" "n4" no_opts; TransferLeader "s-b" "n5" no_opts] demo_start)) =
    [("s-a", "n4", [("n1", "follower"); ("n2", "follower"); ("n3", "follower"); ("n5", "leader")]);
     ("s-b", "n5", [("n1", "follower"); ("n2", "follower"); ("n3", "follower"); ("n5", "leader")])].
Proof. vm_compute. reflexivity. Qed.

(** Fingerprints join their parts with a colon, which ids may contain: a
    second operation under the same id, on another shard and another target,
    is taken for a retry of the first instead of a conflict. *)
Theorem fingerprints_are_ambiguous :
  let opts := mkControlOptions "n1" "c1" "" None [mkShardConfig "a" [] (bytes_of_string "m") [] ""; mkShardConfig "a:b" (bytes_of_string "m") [] [] ""] in
  let s0 := the_node (snd (fst (newControlPlane demo_grow demo_marshal demo_unmarshal demo_path 1 opts (Ok newLocalConsensus) demo_fs))) in
  let '(rs, s) := demo_serve_all [TransferLeader "a:b" "c" (with_id "op1"); TransferLeader "a" "b:c" (with_id "op1")] s0 in
  rs = [Ok tt; Ok tt] /\ map (fun sh => (ss_ID sh, Leader sh)) (Shards (snapshotStateLocked (cp s))) = [("a", "n1"); ("a:b", "c")].
Proof. vm_compute. split; reflexivity. Qed.

(** A request whose save fails after the rename (here in the synchronization
    of a directory) reports failure and is rolled back in memory, but is in
    the state file: it is back after a restart. *)
Theorem failed_request_returns_after_restart :
  let faults := replicate 10 None ++ [Some 0] in
  let s0 := mkNode (cp demo_start) (mkFS (fs_dir (disk demo_start)) faults 0) (consensus demo_start) in
  let '(r, s) := demo_serve (TransferLeader "s" "n2" no_opts) s0 in
  r = Err err_io /\ revision (cp s) = 0 /\ map ar_leader (aview (cp s)) = ["n1"] /\
  revision (cp (restarted s)) = 1 /\ map ar_leader (aview (cp (restarted s))) = ["n2"].
Proof. vm_compute. repeat split; reflexivity. Qed.

(** A state file whose order has spaces around an id is accepted, since the
    routes trim the ids, but the order keeps them: the next save writes a
    shard without an id, and the file no longer loads. *)
Theorem untrimmed_order_breaks_state_file :
  let shard := mkShard None "s" [] [] "n1" [mkReplica "n1" "leader" true] in
  let st := mkControlState 0 1 "n1" "c1" "local" (mkRaft 3 0 0 []) false 0 [" s "] [shard] [] in
  let s0 := the_node (snd (fst (demo_new (mkFS {[demo_path := demo_marshal st]} [] 0)))) in
  let '(r, s) := demo_serve (TransferLeader "s" "n2" no_opts) s0 in
  validateControlPlaneState st = Ok tt /\ r = Ok tt /\
  fst (fst (demo_new (mkFS (fs_dir (disk s)) [] 0))) = Err (ErrNew "state has shard with empty id").
Proof. vm_compute. repeat split; reflexivity. Qed.
