(* ===== verification/RaftLog.v ===== *)
(** * The replicated commit log ([internal/lsm/commitlog/etcdraft.go], [raft_storage.go])

    The adapter between the commit log interface and the raft library: the
    log and the hard state on disk, the loop that handles what the library
    is ready to do, proposals and the waiters they wake, and the messages of
    peers.  The library itself (a raft node with its memory storage) is a
    parameter, given by the calls the adapter makes. *)

From Stdlib Require Import ZArith Lia Strings.Byte.
From stdpp Require Import base list strings pretty gmap.
From S2P Require Import Prelude Iofs Engine GoStrings ControlPlane.
Local Open Scope Z_scope.

(** ** Data *)

Record HardState := mkHardState { hs_Term : Z; hs_Vote : Z; hs_Commit : Z }.
Inductive EntryType := EntryNormal | EntryConfChange | EntryConfChangeV2 | EntryOther.
Record RaftEntry := mkRaftEntry { re_Term : Z; re_Index : Z; re_Type : EntryType; re_Data : bytes }.
Record PeerMessage := mkPeerMessage { pm_From : Z; pm_To : Z; Payload : bytes }.

Record Ready (Msg : Type) := mkReady {
  rd_HardState : HardState;
  rd_Entries : list RaftEntry;
  rd_Messages : list Msg;
  rd_CommittedEntries : list RaftEntry
}.
Arguments mkReady {Msg} _ _ _ _.
Arguments rd_HardState {Msg} _.
Arguments rd_Entries {Msg} _.
Arguments rd_Messages {Msg} _.
Arguments rd_CommittedEntries {Msg} _.

Record raftDiskState := mkRaftDisk { rds_HardState : HardState; rds_Entries : list RaftEntry }.

Record raftCommitProposal := mkProposal {
  Proposer : Z;
  RequestID : string;
  rp_ID : Z;
  rp_Kind : string;
  rp_Control : option ControlMutation;
  rp_Data : option DataMutation
}.

Record raftCommittedProposal := mkCommittedProposal {
  rcp_ID : Z;
  rcp_Kind : string;
  rcp_Control : option ControlCommittedEntry;
  rcp_Data : option DataCommittedEntry
}.

(** A waiter; [pp_ready] says whether its channel is closed. *)
Record pendingRaftProposal := mkPending {
  pp_payload : bytes;
  pp_ready : bool;
  pp_done : bool;
  pp_control : option ControlCommittedEntry;
  pp_data : option DataCommittedEntry
}.

(** What a call of the transport reports. *)
Inductive send_error := DeliveryError (Peers : list Z) | SendError (e : error).

(** The raft library: a node with its memory storage, and messages. *)
Class RaftLib (N Msg : Type) := {
  IsEmptyHardState : HardState -> bool;
  NewMemoryStorage : N;
  mem_SetHardState : HardState -> N -> result unit * N;
  mem_Append : list RaftEntry -> N -> result unit * N;
  mem_InitialState : N -> result HardState;
  NewRawNode : Z -> N -> result N;
  raw_Bootstrap : list Z -> N -> result unit * N;
  HasReady : N -> bool;
  raw_Ready : N -> Ready Msg * N;
  raw_Advance : Ready Msg -> N -> N;
  raw_Step : Msg -> N -> result unit * N;
  raw_Propose : bytes -> N -> result unit * N;
  raw_Tick : N -> N;
  raw_Campaign : N -> result unit * N;
  raw_Lead : N -> Z;
  raw_ApplyConfChange : EntryType -> bytes -> N -> result unit * N;
  raw_ReportUnreachable : Z -> N -> N;
  Msg_From : Msg -> Z;
  Msg_To : Msg -> Z;
  Msg_Marshal : Msg -> result bytes;
  Msg_Unmarshal : bytes -> result Msg
}.

(** ** Names and ids *)

Definition StableNodeID (nodeID : string) : Z :=
  let id := fnv64a (bytes_of_string nodeID) in if bool_decide (id = 0) then 1 else id.

(** The distinct names that are not blank, in order. *)
Fixpoint peer_names (peers : list string) (seen : gset string) : list string :=
  match peers with
  | [] => []
  | raw :: peers =>
      let peer := TrimSpace raw in
      if bool_decide (peer = "") then peer_names peers seen
      else if bool_decide (peer ∈ seen) then peer_names peers seen
      else peer :: peer_names peers ({[peer]} ∪ seen)
  end.

Fixpoint peer_ids (names : list string) (seenIDs : gmap Z string) : result (list Z) :=
  match names with
  | [] => Ok []
  | peer :: names =>
      let id := StableNodeID peer in
      match seenIDs !! id with
      | Some other => if bool_decide (other <> peer) then Err (ErrNew "raft peer id collision")
                      else rest ← peer_ids names (<[id := peer]> seenIDs); mret (id :: rest)
      | None => rest ← peer_ids names (<[id := peer]> seenIDs); mret (id :: rest)
      end
  end.

Definition resolveRaftPeerIDs (nodeName : string) (peers : list string) : result (list Z) :=
  if bool_decide (peers = []) then Ok [StableNodeID nodeName]
  else
    let names := peer_names peers ∅ in
    if bool_decide (names = []) then Err (ErrNew "raft peers must contain at least one node")
    else if bool_decide (nodeName ∈ names) then peer_ids names ∅
    else Err (ErrNew "raft peers must include local node").

(** ** The stored log *)

(** [cloneRaftEntries] copies the values. *)
Definition appendRaftEntries (existing incoming : list RaftEntry) : list RaftEntry :=
  match incoming with
  | [] => existing
  | first :: _ =>
      let cut := match list_find (fun e => re_Index first <= re_Index e) existing with Some (i, _) => i | None => length existing end in
      take cut existing ++ incoming
  end.

Definition err_raft_io : error := ErrNew "raft state: file system".

(** [syncDir]: the error of [Close] is ignored. *)
Definition raft_syncDir : SE FS unit := _ ← fs_may_fail err_raft_io; fs_may_fail err_raft_io.

Fixpoint sync_ancestors (n : nat) : SE FS unit :=
  _ ← raft_syncDir;
  match n with O => mret tt | S n => sync_ancestors n end.

(** [abs] and [MkdirAll], then every directory up to the root. *)
Definition ensureDurableRaftDir (ancestors : nat) : SE FS unit :=
  _ ← fs_may_fail err_raft_io;
  _ ← fs_may_fail err_raft_io;
  sync_ancestors ancestors.

Definition writeSyncedFile (name : string) (data : bytes) : SE FS unit :=
  _ ← fs_create name err_raft_io;
  _ ← file_write name data err_raft_io;
  _ ← fs_may_fail err_raft_io;
  fs_may_fail err_raft_io.

Definition replace_file (path : string) (ancestors : nat) (data : bytes) : SE FS unit :=
  _ ← ensureDurableRaftDir ancestors;
  let tmp := path +:+ ".tmp" in
  _ ← writeSyncedFile tmp data;
  renamed ← catch (fs_rename_file tmp path err_raft_io);
  match renamed with
  | Some e => _ ← catch (fs_remove tmp err_raft_io); throw e
  | None => raft_syncDir
  end.

(** ** The consensus object *)

Record etcdRaft (N : Type) := mkEtcdRaft {
  er_nodeID : Z;
  peerNames : gmap Z string;
  rawNode : N;
  log_entries : list RaftEntry;
  proposalSeq : Z;
  pending : gset Z;
  waiters : gmap Z pendingRaftProposal;
  committed : list raftCommittedProposal;
  er_index : Z;
  er_term : Z;
  er_replicas : Z;
  deliveryFailures : Z;
  terminalErr : option error;
  er_disk : FS
}.
Arguments mkEtcdRaft {N} _ _ _ _ _ _ _ _ _ _ _ _ _ _.
Arguments er_nodeID {N} _.
Arguments peerNames {N} _.
Arguments rawNode {N} _.
Arguments log_entries {N} _.
Arguments proposalSeq {N} _.
Arguments pending {N} _.
Arguments waiters {N} _.
Arguments committed {N} _.
Arguments er_index {N} _.
Arguments er_term {N} _.
Arguments er_replicas {N} _.
Arguments deliveryFailures {N} _.
Arguments terminalErr {N} _.
Arguments er_disk {N} _.

Section Updates.
Context {N : Type}.
Implicit Types c : etcdRaft N.

Definition set_raw (n : N) c : etcdRaft N :=
  mkEtcdRaft (er_nodeID c) (peerNames c) n (log_entries c) (proposalSeq c) (pending c) (waiters c) (committed c) (er_index c) (er_term c)
    (er_replicas c) (deliveryFailures c) (terminalErr c) (er_disk c).
Definition set_log (es : list RaftEntry) c : etcdRaft N :=
  mkEtcdRaft (er_nodeID c) (peerNames c) (rawNode c) es (proposalSeq c) (pending c) (waiters c) (committed c) (er_index c) (er_term c)
    (er_replicas c) (deliveryFailures c) (terminalErr c) (er_disk c).
Definition set_waiters (seq : Z) (p : gset Z) (w : gmap Z pendingRaftProposal) c : etcdRaft N :=
  mkEtcdRaft (er_nodeID c) (peerNames c) (rawNode c) (log_entries c) seq p w (committed c) (er_index c) (er_term c)
    (er_replicas c) (deliveryFailures c) (terminalErr c) (er_disk c).
Definition set_committed (l : list raftCommittedProposal) c : etcdRaft N :=
  mkEtcdRaft (er_nodeID c) (peerNames c) (rawNode c) (log_entries c) (proposalSeq c) (pending c) (waiters c) l (er_index c) (er_term c)
    (er_replicas c) (deliveryFailures c) (terminalErr c) (er_disk c).
Definition set_position (index term : Z) c : etcdRaft N :=
  mkEtcdRaft (er_nodeID c) (peerNames c) (rawNode c) (log_entries c) (proposalSeq c) (pending c) (waiters c) (committed c) index term
    (er_replicas c) (deliveryFailures c) (terminalErr c) (er_disk c).
Definition set_failures (f : Z) c : etcdRaft N :=
  mkEtcdRaft (er_nodeID c) (peerNames c) (rawNode c) (log_entries c) (proposalSeq c) (pending c) (waiters c) (committed c) (er_index c) (er_term c)
    (er_replicas c) f (terminalErr c) (er_disk c).
Definition set_terminal (e : option error) (w : gmap Z pendingRaftProposal) c : etcdRaft N :=
  mkEtcdRaft (er_nodeID c) (peerNames c) (rawNode c) (log_entries c) (proposalSeq c) (pending c) w (committed c) (er_index c) (er_term c)
    (er_replicas c) (deliveryFailures c) e (er_disk c).
Definition set_disk (fs : FS) c : etcdRaft N :=
  mkEtcdRaft (er_nodeID c) (peerNames c) (rawNode c) (log_entries c) (proposalSeq c) (pending c) (waiters c) (committed c) (er_index c) (er_term c)
    (er_replicas c) (deliveryFailures c) (terminalErr c) fs.
End Updates.

(** ** Operations *)

Section Raft.
Context {N Msg : Type} `{RaftLib N Msg}.
(** JSON of proposals and of the stored state, the path of the state file and
    the number of ancestors of its directory. *)
Context (marshalProposal : raftCommitProposal -> bytes) (unmarshalProposal : bytes -> result raftCommitProposal).
Context (marshalDisk : raftDiskState -> bytes) (unmarshalDisk : bytes -> result raftDiskState).
Context (path : string) (ancestors : nat).

(** The object is shared by the calls in progress; a call that sends messages
    or waits releases its lock, and what other calls do meanwhile happens in
    the same place: [Send] and [wait] change the object. *)
Context (hasTransport : bool) (Send : list PeerMessage -> etcdRaft N -> option send_error * etcdRaft N).
Context (wait : Z -> etcdRaft N -> etcdRaft N).

(** A call: the shared object, and whether its context is done, at each time
    it looks; a context that is over stays so. *)
Abbreviation call A := (SE (etcdRaft N * list bool) A).

Definition shared : call (etcdRaft N) := fun s => (Ok (fst s), s).
Definition update (f : etcdRaft N -> etcdRaft N) : call unit := fun s => (Ok tt, (f (fst s), snd s)).
Definition ctx_done : call bool := fun s =>
  match snd s with [] => (Ok true, s) | b :: rest => (Ok b, (fst s, if (b : bool) then [] else rest)) end.
Definition raw (f : N -> result unit * N) : call unit := fun s =>
  let '(r, n) := f (rawNode (fst s)) in (r, (set_raw n (fst s), snd s)).
Definition on_files (m : SE FS unit) : call unit := fun s =>
  let '(r, fs) := m (er_disk (fst s)) in (r, (set_disk fs (fst s), snd s)).

(** A loop that looks at the context in every round. *)
Definition with_looks {A} (f : nat -> call A) : call A := fun s => f (S (S (length (snd s)))) s.

Definition err_ctx : error := ErrNew "context is done".

(** [raftPersistentStorage] *)

Definition storage_SetHardState (hs : HardState) : call unit := raw (mem_SetHardState hs).

Definition storage_Append (entries : list RaftEntry) : call unit :=
  if bool_decide (entries = []) then mret tt
  else
    _ ← raw (mem_Append entries);
    update (fun c => set_log (appendRaftEntries (log_entries c) entries) c).

Definition Persist : call unit :=
  c ← shared;
  hs ← lift (mem_InitialState (rawNode c));
  on_files (replace_file path ancestors (marshalDisk (mkRaftDisk hs (log_entries c)))).

(** ** Committed entries *)

Definition committedEntry (p : raftCommitProposal) (commit : Commit) : result raftCommittedProposal :=
  if bool_decide (rp_Kind p = "control") then
    match rp_Control p with
    | None => Err (ErrNew "raft control proposal missing mutation")
    | Some m => Ok (mkCommittedProposal (rp_ID p) (rp_Kind p) (Some (mkControlCommitted commit m)) None)
    end
  else if bool_decide (rp_Kind p = "data") then
    match rp_Data p with
    | None => Err (ErrNew "raft data proposal missing mutation")
    | Some m => Ok (mkCommittedProposal (rp_ID p) (rp_Kind p) None (Some (mkDataCommitted commit m (Commit_Index commit))))
    end
  else Err (ErrNew "unknown raft proposal kind").

(** [close(ready)] of a waiter; closing a closed channel panics. *)
Definition close_ready (w : pendingRaftProposal) : result pendingRaftProposal :=
  if pp_ready w then Panic else Ok (mkPending (pp_payload w) true (pp_done w) (pp_control w) (pp_data w)).

(** Wake the waiter of a committed proposal, if it is its own. *)
Definition wake (proposal : raftCommitProposal) (data : bytes) (entry : raftCommittedProposal) : call unit :=
  c ← shared;
  let id := rp_ID proposal in
  match (if bool_decide (id ∈ pending c) then waiters c !! id else None) with
  | Some w =>
      if bool_decide (pp_payload w = data) then
        w ← lift (close_ready (mkPending (pp_payload w) (pp_ready w) true (rcp_Control entry) (rcp_Data entry)));
        update (set_waiters (proposalSeq c) (pending c ∖ {[id]}) (<[id := w]> (waiters c)))
      else mret tt
  | None => mret tt
  end.

Definition applyCommittedEntryLocked (entry : RaftEntry) : call unit :=
  _ ← update (fun c => set_position (if bool_decide (0 < re_Index entry) then re_Index entry else er_index c)
                         (if bool_decide (0 < re_Term entry) then re_Term entry else er_term c) c);
  match re_Type entry with
  | EntryNormal =>
      if bool_decide (re_Data entry = []) then mret tt
      else
        proposal ← lift (unmarshalProposal (re_Data entry));
        done ← lift (committedEntry proposal (mkCommit (re_Index entry) (re_Term entry)));
        _ ← update (fun c => set_committed (committed c ++ [done]) c);
        wake proposal (re_Data entry) done
  | EntryConfChange => raw (raw_ApplyConfChange EntryConfChange (re_Data entry))
  | EntryConfChangeV2 => raw (raw_ApplyConfChange EntryConfChangeV2 (re_Data entry))
  | EntryOther => mret tt
  end.

Fixpoint apply_entries (entries : list RaftEntry) : call unit :=
  match entries with
  | [] => mret tt
  | e :: entries => _ ← applyCommittedEntryLocked e; apply_entries entries
  end.

(** ** Messages *)

Fixpoint encodeRaftPeerMessages (messages : list Msg) : result (list PeerMessage) :=
  match messages with
  | [] => Ok []
  | msg :: messages =>
      payload ← Msg_Marshal msg;
      rest ← encodeRaftPeerMessages messages;
      mret (mkPeerMessage (Msg_From msg) (Msg_To msg) payload :: rest)
  end.

Fixpoint decodeRaftPeerMessages (messages : list PeerMessage) : result (list Msg) :=
  match messages with
  | [] => Ok []
  | msg :: messages =>
      if bool_decide (Payload msg = []) then Err (ErrNew "raft peer message payload is empty")
      else
        m ← Msg_Unmarshal (Payload msg);
        if bool_decide (pm_From msg <> 0 /\ Msg_From m <> pm_From msg) then Err (ErrNew "raft peer message from mismatch")
        else if bool_decide (pm_To msg <> 0 /\ Msg_To m <> pm_To msg) then Err (ErrNew "raft peer message to mismatch")
        else rest ← decodeRaftPeerMessages messages; mret (m :: rest)
  end.

(** Messages to the node itself are stepped; the others, with a receiver, are
    sent. *)
Fixpoint route_messages (messages : list Msg) : call (list Msg) :=
  match messages with
  | [] => mret []
  | msg :: messages =>
      c ← shared;
      if bool_decide (Msg_To msg <> er_nodeID c) then
        rest ← route_messages messages;
        mret (if bool_decide (Msg_To msg <> 0) then msg :: rest else rest)
      else
        _ ← raw (raw_Step msg);
        route_messages messages
  end.

Fixpoint report_unreachable (peers : list Z) : call unit :=
  match peers with
  | [] => mret tt
  | peer :: peers =>
      _ ← update (fun c => set_failures (u64 (deliveryFailures c + 1)) (set_raw (raw_ReportUnreachable peer (rawNode c)) c));
      report_unreachable peers
  end.

(** [transport.Send] without the lock, and what its error means. *)
Definition deliver (encoded : list PeerMessage) : call unit :=
  sent ← (fun s => let '(r, c) := Send encoded (fst s) in (Ok r, (c, snd s)));
  c ← shared;
  match terminalErr c with
  | Some e => throw e
  | None =>
      match sent with
      | None => mret tt
      | Some (DeliveryError Peers) =>
          if bool_decide (Peers = []) then throw (ErrNew "raft transport send")
          else if forallb (fun peer => existsb (fun m => bool_decide (pm_To m = peer)) encoded) Peers then report_unreachable Peers
          else throw (ErrNew "invalid failed raft destination")
      | Some (SendError e) => throw e
      end
  end.

(** ** Handling what the node is ready to do *)

(** The log and the hard state go to disk before the messages are built. *)
Definition prepare_ready (rd : Ready Msg) : call (list PeerMessage) :=
  _ ← (if IsEmptyHardState (rd_HardState rd) then mret tt else storage_SetHardState (rd_HardState rd));
  _ ← storage_Append (rd_Entries rd);
  _ ← Persist;
  outbound ← route_messages (rd_Messages rd);
  if bool_decide (outbound = []) then mret []
  else if negb hasTransport then throw (ErrNew "raft transport is not configured for peer messages")
  else lift (encodeRaftPeerMessages outbound).

(** The part before [rawNode.Advance]. *)
Definition handle_ready (rd : Ready Msg) : call (list PeerMessage) :=
  encoded ← prepare_ready rd;
  _ ← apply_entries (rd_CommittedEntries rd);
  mret encoded.

(** Close the channels of the waiters that are not done. *)
Definition close_pending (ids : gset Z) (w : gmap Z pendingRaftProposal) : result (gmap Z pendingRaftProposal) :=
  set_fold (fun id acc =>
    w ← acc;
    match w !! id with
    | Some p => if pp_done p then mret w else p ← close_ready p; mret (<[id := p]> w)
    | None => mret w
    end) (Ok w) ids.

Definition fail_terminal (e : error) : call unit :=
  c ← shared;
  match terminalErr c with
  | Some _ => mret tt
  | None => w ← lift (close_pending (pending c) (waiters c)); update (set_terminal (Some e) w)
  end.

Definition advanceOneReadyLocked : call unit :=
  c ← shared;
  match terminalErr c with
  | Some e => throw e
  | None =>
      let '(rd, n) := raw_Ready (rawNode c) in
      _ ← update (set_raw n);
      encoded ← (fun s =>
        match handle_ready rd s with
        | (Err e, s) => (_ ← fail_terminal e; throw e) s
        | r => r
        end);
      _ ← update (fun c => set_raw (raw_Advance rd (rawNode c)) c);
      if bool_decide (encoded = []) then mret tt else deliver encoded
  end.

Definition etcdRaftAdvanceMaxStep : nat := 2048.

Fixpoint advance_loop (steps : nat) : call unit :=
  c ← shared;
  if HasReady (rawNode c) then
    match terminalErr c with
    | Some e => throw e
    | None =>
        over ← ctx_done;
        if (over : bool) then throw err_ctx
        else match steps with
        | O => throw (ErrNew "raft did not reach stable state")
        | S steps => _ ← advanceOneReadyLocked; advance_loop steps
        end
    end
  else match terminalErr c with Some e => throw e | None => mret tt end.

Definition advanceUntilStableLocked : call unit := advance_loop etcdRaftAdvanceMaxStep.

(** ** Proposals *)

Definition forget (id : Z) : call unit := update (fun c => set_waiters (proposalSeq c) (pending c ∖ {[id]}) (waiters c) c).

(** The loop of [commitMutation] on the waiter [id].  Every round looks at the
    context, and a context that is over ends the loop, so the looks that are
    left bound the rounds. *)
Fixpoint commit_loop (fuel : nat) (id : Z) : call pendingRaftProposal :=
  match fuel with
  | O => lift NoFuel
  | S fuel =>
      c ← shared;
      match waiters c !! id with
      | None => lift Panic
      | Some w =>
          if pp_done w then mret w
          else match terminalErr c with
          | Some e => _ ← forget id; throw e
          | None =>
              over ← ctx_done;
              if (over : bool) then _ ← forget id; throw (ErrNew "raft apply timeout")
              else
                stable ← catch advanceUntilStableLocked;
                match stable with
                | Some e => _ ← forget id; throw e
                | None =>
                    c ← shared;
                    _ ← (if default false (pp_done <$> waiters c !! id) then mret tt else update (wait id));
                    commit_loop fuel id
                end
          end
      end
  end.

(** [nonce] is what [rand.Read] gave. *)
Definition commitMutation (nonce : result bytes) (kind : string) (control : option ControlMutation) (data : option DataMutation) :
    call pendingRaftProposal :=
  c ← shared;
  match terminalErr c with
  | Some e => throw e
  | None =>
      over ← ctx_done;
      if (over : bool) then throw err_ctx
      else if bool_decide (raw_Lead (rawNode c) <> er_nodeID c) then throw ErrNotLeader
      else
        let id := u64 (proposalSeq c + 1) in
        _ ← update (set_waiters id (pending c) (waiters c));
        nonce ← lift nonce;
        let payload := marshalProposal (mkProposal (er_nodeID c) (hex nonce) id kind control data) in
        _ ← update (fun c => set_waiters id ({[id]} ∪ pending c) (<[id := mkPending payload false false None None]> (waiters c)) c);
        proposed ← catch (raw (raw_Propose payload));
        match proposed with
        | Some e => _ ← forget id; throw e
        | None => with_looks (fun fuel => commit_loop fuel id)
        end
  end.

Definition raft_CommitControl (nonce : result bytes) (mutation : ControlMutation) : call ControlCommittedEntry :=
  w ← commitMutation nonce "control" (Some mutation) None;
  match pp_control w with None => throw (ErrNew "raft committed non-control entry") | Some e => mret e end.

Definition raft_CommitData (nonce : result bytes) (mutation : DataMutation) : call DataCommittedEntry :=
  w ← commitMutation nonce "data" None (Some mutation);
  match pp_data w with None => throw (ErrNew "raft committed non-data entry") | Some e => mret e end.

(** ** Peers and the clock *)

Fixpoint step_messages (messages : list Msg) : call unit :=
  match messages with
  | [] => mret tt
  | msg :: messages =>
      c ← shared;
      if bool_decide (Msg_To msg <> 0 /\ Msg_To msg <> er_nodeID c) then step_messages messages
      else
        _ ← raw (raw_Step msg);
        _ ← advanceUntilStableLocked;
        step_messages messages
  end.

Definition HandlePeerMessages (messages : list PeerMessage) : call unit :=
  c ← shared;
  match terminalErr c with
  | Some e => throw e
  | None =>
      if bool_decide (messages = []) then mret tt
      else decoded ← lift (decodeRaftPeerMessages messages); step_messages decoded
  end.

Definition raft_Tick : call unit :=
  c ← shared;
  match terminalErr c with
  | Some e => throw e
  | None =>
      over ← ctx_done;
      if (over : bool) then throw err_ctx
      else _ ← update (fun c => set_raw (raw_Tick (rawNode c)) c); advanceUntilStableLocked
  end.

Fixpoint leader_loop (fuel : nat) : call unit :=
  match fuel with
  | O => lift NoFuel
  | S fuel =>
      c ← shared;
      if bool_decide (raw_Lead (rawNode c) = er_nodeID c) then mret tt
      else
        over ← ctx_done;
        if (over : bool) then throw (ErrNew "raft leader election timeout")
        else
          _ ← advanceUntilStableLocked;
          _ ← update (fun c => set_raw (raw_Tick (rawNode c)) c);
          leader_loop fuel
  end.

Definition ensureLeaderLocked : call unit :=
  c ← shared;
  if bool_decide (raw_Lead (rawNode c) = er_nodeID c) then mret tt
  else
    _ ← raw raw_Campaign;
    with_looks leader_loop.

(** ** Reads *)

Record RecoveredEntry := mkRecovered { rec_Control : option ControlCommittedEntry; rec_Data : option DataCommittedEntry }.

Definition after_index (index : Z) (c : raftCommittedProposal) : bool :=
  negb (match rcp_Control c with Some e => bool_decide (Commit_Index (cc_Commit e) <= index) | None => false end ||
        match rcp_Data c with Some e => bool_decide (Commit_Index (dc_Commit e) <= index) | None => false end).

Definition CommittedEntriesAfter (c : etcdRaft N) (index : Z) : list RecoveredEntry :=
  map (fun x => mkRecovered (rcp_Control x) (rcp_Data x)) (filter (fun x => after_index index x = true) (committed c)).

Definition RecoveredEntries (c : etcdRaft N) : list RecoveredEntry := CommittedEntriesAfter c 0.

Definition raft_RuntimeStatus (c : etcdRaft N) : CommitLogRuntimeStatus :=
  let replicas := if bool_decide (er_replicas c <= 0) then 1 else er_replicas c in
  let mode := if bool_decide (1 < replicas) then "raft_transport_foundation" else "raft_single_node" in
  let lead := raw_Lead (rawNode c) in
  mkRuntimeStatus (deliveryFailures c) (default "" (peerNames c !! lead)) mode (er_index c) (er_term c)
    (bool_decide (lead <> 0 /\ lead = er_nodeID c)) replicas.

(** ** Start *)

Definition newRaftPersistentStorage : SE FS (N * list RaftEntry * bool) :=
  data ← fs_ReadFile path;
  match data with
  | None => mret (NewMemoryStorage, [], false)
  | Some data =>
      state ← lift (unmarshalDisk data);
      let '(r, n) := if IsEmptyHardState (rds_HardState state) then (Ok tt, NewMemoryStorage) else mem_SetHardState (rds_HardState state) NewMemoryStorage in
      _ ← lift r;
      let '(r, n) := match rds_Entries state with [] => (Ok tt, n) | es => mem_Append es n end in
      _ ← lift r;
      mret (n, rds_Entries state, true)
  end.

Record raftConfig := mkRaftConfig { cfg_DataDir : string; cfg_NodeID : string; cfg_Peers : list string }.

Definition newEtcdRaftConsensus (cfg : raftConfig) (fs : FS) (ctx : list bool) : result (etcdRaft N) :=
  let nodeName := or_default (TrimSpace (cfg_NodeID cfg)) "node-0" in
  let nodeID := StableNodeID nodeName in
  if bool_decide (TrimSpace (cfg_DataDir cfg) = "") then Err (ErrNew "raft data dir is required")
  else
    peerIDs ← resolveRaftPeerIDs nodeName (cfg_Peers cfg);
    if bool_decide (1 < zlen peerIDs) && negb hasTransport then Err (ErrNew "raft transport is required when raft peers > 1")
    else
      let '(loaded, fs) := newRaftPersistentStorage fs in
      '(mem, entries, loadedLog) ← loaded;
      n ← NewRawNode nodeID mem;
      let '(r, n) := if (loadedLog : bool) then (Ok tt, n) else raw_Bootstrap peerIDs n in
      _ ← r;
      hs ← mem_InitialState n;
      let names := fold_left (fun m name => <[StableNodeID (TrimSpace name) := TrimSpace name]> m) (cfg_Peers cfg) {[nodeID := nodeName]} in
      let c := mkEtcdRaft nodeID names n entries 0 ∅ ∅ [] (hs_Commit hs) (hs_Term hs) (zlen peerIDs) 0 None fs in
      let '(r, (c, _)) := (_ ← advanceUntilStableLocked; if bool_decide (zlen peerIDs = 1) then ensureLeaderLocked else mret tt) (c, ctx) in
      _ ← r;
      mret c.
End Raft.
