(* ===== verification/RaftSpec.v ===== *)
(** * Correctness of the replicated commit log

    The stored log after an append, and the calls of the consensus object
    under any interleaving at the points where they release their lock: no
    channel is closed twice, committed entries stay in order, the stored log
    is on disk before a message is sent, and a proposal is only answered with
    its own mutation. *)

From Stdlib Require Import ZArith Lia Sorting.Sorted Strings.Byte.
From stdpp Require Import base list strings pretty gmap sorting.
From S2P Require Import Prelude Iofs Engine GoStrings ControlPlane RaftLog.
Local Open Scope Z_scope.

(** ** The stored log *)

Definition indexed (l : list RaftEntry) (i : Z) : option RaftEntry := snd <$> list_find (fun e => re_Index e = i) l.

(** The entries of a log have consecutive indices from [first]. *)
Definition numbered (first : Z) (l : list RaftEntry) : Prop := forall k e, l !! k = Some e -> re_Index e = first + Z.of_nat k.

Lemma numbered_indexed first l i : numbered first l -> indexed l i = if bool_decide (first <= i) then l !! Z.to_nat (i - first) else None.
Proof.
  intros Hn. unfold indexed. destruct (list_find _ l) as [[k e]|] eqn:E; cbn.
  - apply list_find_Some in E as (Hk & He & _). specialize (Hn _ _ Hk). rewrite bool_decide_true by lia. replace (Z.to_nat (i - first)) with k by lia. done.
  - apply list_find_None in E. case_bool_decide; [|done]. destruct (l !! Z.to_nat (i - first)) as [e|] eqn:Hk; [|done].
    rewrite Forall_lookup in E. destruct (E _ _ Hk). rewrite (Hn _ _ Hk). lia.
Qed.

Lemma appendRaftEntries_cut first existing e incoming : numbered first existing -> first <= re_Index e -> re_Index e <= first + zlen existing ->
  appendRaftEntries existing (e :: incoming) = take (Z.to_nat (re_Index e - first)) existing ++ e :: incoming.
Proof.
  intros Hn H1 H2. unfold appendRaftEntries. f_equal. destruct (list_find _ existing) as [[k x]|] eqn:E.
  - apply list_find_Some in E as (Hk & Hx & Hlt). rewrite (Hn _ _ Hk) in Hx. f_equal.
    destruct (decide (k = Z.to_nat (re_Index e - first))) as [|Hne]; [done|exfalso].
    destruct (lookup_lt_is_Some_2 existing (Z.to_nat (re_Index e - first))) as [y Hy]; [apply lookup_lt_Some in Hk; lia|].
    apply (Hlt _ _ Hy); [lia|]. rewrite (Hn _ _ Hy). lia.
  - apply list_find_None in E. rewrite Forall_lookup in E. unfold zlen in H2. destruct (decide (first + zlen existing = re_Index e)) as [Heq|Hne].
    + unfold zlen in Heq. replace (Z.to_nat (re_Index e - first)) with (length existing) by lia. done.
    + unfold zlen in Hne. destruct (lookup_lt_is_Some_2 existing (Z.to_nat (re_Index e - first))) as [y Hy]; [lia|].
      destruct (E _ _ Hy). rewrite (Hn _ _ Hy). lia.
Qed.

(** The stored log after an append is the log of raft: entries below the
    first incoming index stay, those from it on are replaced by the incoming
    ones, also where the new log is shorter; indices stay consecutive. *)
Theorem stored_log_appends first existing e incoming : numbered first existing -> numbered (re_Index e) (e :: incoming) ->
  first <= re_Index e -> re_Index e <= first + zlen existing ->
  numbered first (appendRaftEntries existing (e :: incoming)) /\
  forall i, indexed (appendRaftEntries existing (e :: incoming)) i = if bool_decide (i < re_Index e) then indexed existing i else indexed (e :: incoming) i.
Proof.
  intros Hn Hn' H1 H2. rewrite (appendRaftEntries_cut first) by done. unfold zlen in H2. set (k := Z.to_nat (re_Index e - first)).
  assert (Hk : length (take k existing) = k) by (rewrite length_take; unfold k; lia).
  assert (Hnum : numbered first (take k existing ++ e :: incoming)).
  { intros j x. rewrite lookup_app. destruct (take k existing !! j) as [y|] eqn:Ey.
    - intros [= <-]. apply lookup_take_Some in Ey as [Ey _]. by apply Hn.
    - intros Hx. apply lookup_ge_None in Ey. rewrite Hk in *. rewrite (Hn' _ _ Hx). unfold k in *. lia. }
  split; [done|]. intros i. rewrite (numbered_indexed first _ _ Hnum), (numbered_indexed first _ _ Hn), (numbered_indexed _ _ _ Hn').
  destruct (decide (i < re_Index e)) as [Hi|Hi].
  - rewrite (bool_decide_true (i < _)) by done. case_bool_decide; [|done]. rewrite lookup_app_l by (rewrite Hk; unfold k; lia).
    apply lookup_take_lt. unfold k. lia.
  - rewrite (bool_decide_false (i < _)) by done. rewrite !bool_decide_true by lia. rewrite lookup_app_r by (rewrite Hk; unfold k; lia).
    rewrite Hk. f_equal. unfold k. lia.
Qed.

(** ** The consensus object *)

Definition entry_index (x : raftCommittedProposal) : Z :=
  match rcp_Control x with
  | Some e => Commit_Index (cc_Commit e)
  | None => match rcp_Data x with Some e => Commit_Index (dc_Commit e) | None => 0 end
  end.

(** A committed entry comes from a proposal, and has an index. *)
Definition entry_ok (x : raftCommittedProposal) : Prop := 0 < entry_index x /\ exists p commit, committedEntry p commit = Ok x.

Definition index_lt (a b : raftCommittedProposal) : Prop := entry_index a < entry_index b.

Section Raft.
Context {N Msg : Type} `{RaftLib N Msg}.
Context (marshalProposal : raftCommitProposal -> bytes) (unmarshalProposal : bytes -> result raftCommitProposal).
Context (marshalDisk : raftDiskState -> bytes).
Context (path : string) (ancestors : nat).
Context (hasTransport : bool) (Send : list PeerMessage -> etcdRaft N -> option send_error * etcdRaft N) (wait : Z -> etcdRaft N -> etcdRaft N).
Implicit Types c : etcdRaft N.

(** What the raft library promises: its calls return, a batch of committed
    entries follows the ones applied before in the order of their indices,
    and [Advance] counts the batch as applied.  [applied] is the library's
    record of what was applied. *)
Record RaftLaws (applied : N -> Z) : Prop := mkRaftLaws {
  law_SetHardState : forall hs n, returned (fst (mem_SetHardState hs n)) /\ applied (snd (mem_SetHardState hs n)) = applied n;
  law_Append : forall es n, returned (fst (mem_Append es n)) /\ applied (snd (mem_Append es n)) = applied n;
  law_InitialState : forall n, returned (mem_InitialState n);
  law_Ready : forall n, let '(rd, n') := raw_Ready n in applied n' = applied n /\ 0 <= applied n /\
    StronglySorted (fun a b => re_Index a < re_Index b) (rd_CommittedEntries rd) /\ Forall (fun e => applied n < re_Index e) (rd_CommittedEntries rd);
  law_Advance : forall rd n, applied n <= applied (raw_Advance rd n) /\ Forall (fun e => re_Index e <= applied (raw_Advance rd n)) (rd_CommittedEntries rd);
  law_Step : forall m n, returned (fst (raw_Step m n)) /\ applied (snd (raw_Step m n)) = applied n;
  law_Propose : forall d n, returned (fst (raw_Propose d n)) /\ applied (snd (raw_Propose d n)) = applied n;
  law_Tick : forall n, applied (raw_Tick n) = applied n;
  law_Campaign : forall n, returned (fst (raw_Campaign n)) /\ applied (snd (raw_Campaign n)) = applied n;
  law_ConfChange : forall t d n, returned (fst (raw_ApplyConfChange t d n)) /\ applied (snd (raw_ApplyConfChange t d n)) = applied n;
  law_Unreachable : forall p n, applied (raw_ReportUnreachable p n) = applied n;
  law_Marshal : forall m, returned (Msg_Marshal m);
  law_Unmarshal : forall b, returned (Msg_Unmarshal b)
}.

Context (applied : N -> Z) (Hlaws : RaftLaws applied).
Context (Hdecode : forall b, returned (unmarshalProposal b)).

(** A waiter was answered with a committed proposal of its own payload. *)
Definition answered (l : list raftCommittedProposal) (w : pendingRaftProposal) : Prop :=
  exists p commit x, unmarshalProposal (pp_payload w) = Ok p /\ committedEntry p commit = Ok x /\ x ∈ l /\ pp_control w = rcp_Control x /\ pp_data w = rcp_Data x.

Record waiters_ok c : Prop := mkWaitersOk {
  wo_pending : forall id, id ∈ pending c -> exists w, waiters c !! id = Some w /\ pp_done w = false /\ (terminalErr c = None -> pp_ready w = false);
  wo_done : forall id w, waiters c !! id = Some w -> pp_done w = true -> answered (committed c) w;
  wo_ids : forall id w, waiters c !! id = Some w -> 0 < id <= proposalSeq c
}.

(** The committed entries are in the order of their indices, up to [bound]. *)
Definition in_order (bound : Z) c : Prop :=
  StronglySorted index_lt (committed c) /\ Forall entry_ok (committed c) /\
  (terminalErr c = None -> Forall (fun x => entry_index x <= bound) (committed c)).

Definition raft_ok c : Prop := waiters_ok c /\ in_order (applied (rawNode c)) c.

(** What every call keeps of the object, whatever happens between. *)
Record grown c c' : Prop := mkGrown {
  gr_node : er_nodeID c' = er_nodeID c;
  gr_committed : committed c `prefix_of` committed c';
  gr_waiters : forall id w, waiters c !! id = Some w -> exists w', waiters c' !! id = Some w' /\ pp_payload w' = pp_payload w /\ (pp_done w = true -> w' = w);
  gr_terminal : forall e, terminalErr c = Some e -> terminalErr c' = Some e;
  gr_seq : proposalSeq c <= proposalSeq c'
}.

#[local] Instance grown_preorder : PreOrder grown.
Proof.
  split; [intros c; split; [done|done|intros id w Hw; by exists w|done|done]|]. intros c1 c2 c3 [A0 A1 A2 A3 A4] [B0 B1 B2 B3 B4]. split.
  - congruence.
  - by etrans.
  - intros id w Hw. destruct (A2 id w Hw) as (w' & Hw' & P1 & D1). destruct (B2 id w' Hw') as (w2 & Hw2 & P2 & D2). exists w2. split_and!; [done|congruence|].
    intros Hd. specialize (D1 Hd). subst w'. by apply D2.
  - auto.
  - lia.
Qed.

(** The log is on disk as it is in memory. *)
Definition synced c : Prop :=
  exists hs, fs_dir (er_disk c) !! path = Some (marshalDisk (mkRaftDisk hs (log_entries c))).

(** What happens while a call has released its lock: other calls, which keep
    the invariant.  A message is only handed to the transport when the log is
    on disk. *)
Record env_ok : Prop := mkEnvOk {
  env_Send : forall msgs c, raft_ok c -> synced c -> raft_ok (snd (Send msgs c)) /\ grown c (snd (Send msgs c));
  env_wait : forall id c, raft_ok c -> raft_ok (wait id c) /\ grown c (wait id c)
}.

Context (Henv : env_ok).

(** A call that keeps the invariant. *)
Definition keeps {A} (m : SE (etcdRaft N * list bool) A) : Prop := forall s, raft_ok (fst s) ->
  wpx m (fun _ s' => raft_ok (fst s') /\ grown (fst s) (fst s') /\ (length (snd s') <= length (snd s))%nat)
    (fun _ s' => raft_ok (fst s') /\ grown (fst s) (fst s') /\ (length (snd s') <= length (snd s))%nat) s.

Lemma keeps_bind {A B} (m : SE (etcdRaft N * list bool) A) (f : A -> SE (etcdRaft N * list bool) B) : keeps m -> (forall a, keeps (f a)) -> keeps (a ← m; f a).
Proof.
  intros Hm Hf s Hs. apply wpx_bind. eapply wpx_mono; [by apply Hm| |done]. intros a s1 (H1 & H2 & H3).
  eapply wpx_mono; [by apply Hf|..]; intros ? s2 (I1 & I2 & I3); (split_and!; [done|by etrans|lia]).
Qed.

Lemma keeps_ret {A} (a : A) : keeps (mret a).
Proof. intros s Hs. by apply wpx_ret. Qed.

Lemma keeps_throw {A} e : keeps (throw (A := A) e).
Proof. intros s Hs. by split_and!. Qed.

Lemma keeps_shared {A} (f : etcdRaft N -> SE (etcdRaft N * list bool) A) : (forall c, keeps (f c)) -> keeps (c ← shared; f c).
Proof. intros Hf s Hs. apply wpx_bind. cbn. by apply Hf. Qed.

Lemma keeps_lift {A} (r : result A) : returned r -> keeps (lift r).
Proof. intros Hr s Hs. unfold wpx, lift. by destruct r. Qed.

Lemma keeps_ctx : keeps ctx_done.
Proof. intros [c ctx] Hs. unfold wpx, ctx_done. cbn. destruct ctx as [|[] ctx]; cbn; split_and!; try done; lia. Qed.

(** An update of the raw node that keeps what was applied. *)
Lemma raft_ok_raw c n : raft_ok c -> applied n = applied (rawNode c) -> raft_ok (set_raw n c) /\ grown c (set_raw n c).
Proof.
  intros [[W1 W2 W3] (O1 & O2 & O3)] E. split; [split; [by split|]|].
  - split_and!; [done|done|]. cbn. by rewrite E.
  - split; [done|done|intros id w Hw; by exists w|done|done].
Qed.

Lemma keeps_raw f : (forall n, returned (fst (f n)) /\ applied (snd (f n)) = applied n) -> keeps (raw f).
Proof.
  intros Hf [c ctx] Hs. unfold wpx, raw. cbn in *. destruct (Hf (rawNode c)) as [Hr Ha]. destruct (f (rawNode c)) as [r n]. cbn in *.
  destruct (raft_ok_raw c n Hs Ha) as [H1 H2]. by destruct r.
Qed.

(** *** Inside a batch *)

(** While a batch of the node is handled: [c0] is the object before, [a] what
    the node counts as applied, [b] the last index applied so far, and the
    log is on disk once [sync] holds. *)
Record mid (sync : Prop) c0 (a b : Z) c : Prop := mkMid {
  md_waiters : waiters_ok c;
  md_terminal : terminalErr c = None;
  md_order : in_order b c;
  md_grown : grown c0 c;
  md_applied : applied (rawNode c) = a;
  md_sync : sync -> synced c
}.

Definition midst {A} sync c0 a b (m : SE (etcdRaft N * list bool) A) : Prop := forall s, mid sync c0 a b (fst s) ->
  wpx m (fun _ s' => mid sync c0 a b (fst s') /\ snd s' = snd s) (fun _ s' => mid sync c0 a b (fst s') /\ snd s' = snd s) s.

Lemma mid_bind {A B} sync c0 a b (m : SE (etcdRaft N * list bool) A) (f : A -> SE (etcdRaft N * list bool) B) :
  midst sync c0 a b m -> (forall x, midst sync c0 a b (f x)) -> midst sync c0 a b (x ← m; f x).
Proof.
  intros Hm Hf s Hs. apply wpx_bind. eapply wpx_mono; [by apply Hm| |done]. intros x s1 [H1 H2].
  eapply wpx_mono; [by apply Hf|..]; intros ? s2 [I1 I2]; (split; [done|congruence]).
Qed.

Lemma mid_ret {A} sync c0 a b (x : A) : midst sync c0 a b (mret x).
Proof. intros s Hs. by apply wpx_ret. Qed.

Lemma mid_lift {A} sync c0 a b (r : result A) : returned r -> midst sync c0 a b (lift r).
Proof. intros Hr s Hs. unfold wpx, lift. by destruct r. Qed.

Lemma mid_set_raw sync c0 a b n c : mid sync c0 a b c -> applied n = a -> mid sync c0 a b (set_raw n c).
Proof. intros [[W1 W2 W3] H2 H3 [G0 G1 G2 G3 G4] H5 H6] E. split; [by split|done|done|by split|done|done]. Qed.

Lemma mid_raw sync c0 a b f : (forall n, returned (fst (f n)) /\ applied (snd (f n)) = applied n) -> midst sync c0 a b (raw f).
Proof.
  intros Hf [c ctx] Hs. unfold wpx, raw. cbn in *. destruct (Hf (rawNode c)) as [Hr Ha]. destruct (f (rawNode c)) as [r n]. cbn in *.
  assert (Hm : mid sync c0 a b (set_raw n c)) by (apply mid_set_raw; [done|]; rewrite Ha; apply Hs). by destruct r.
Qed.

Lemma committedEntry_index p commit x : committedEntry p commit = Ok x -> entry_index x = Commit_Index commit.
Proof.
  unfold committedEntry. case_bool_decide; [destruct (rp_Control p); [|done]; by intros [= <-]|].
  case_bool_decide; [|done]. destruct (rp_Data p); [|done]. by intros [= <-].
Qed.

Lemma committedEntry_returns p commit : returned (committedEntry p commit).
Proof. unfold committedEntry. case_bool_decide; [by destruct (rp_Control p)|]. case_bool_decide; [by destruct (rp_Data p)|done]. Qed.

(** A waiter is woken at most once, with an entry of its own payload. *)
Lemma wake_spec sync c0 a b proposal data commit x s : mid sync c0 a b (fst s) -> unmarshalProposal data = Ok proposal ->
  committedEntry proposal commit = Ok x -> x ∈ committed (fst s) ->
  wpx (wake proposal data x) (fun _ s' => mid sync c0 a b (fst s') /\ snd s' = snd s) (fun _ _ => False) s.
Proof.
  intros Hs Hu Hc Hx. destruct s as [c ctx]. cbn in Hs, Hx. unfold wake. apply wpx_bind. cbn [shared wpx fst snd].
  destruct (bool_decide_reflect (rp_ID proposal ∈ pending c)) as [Hp|Hp]; [|by apply wpx_ret].
  destruct Hs as [[W1 W2 W3] H2 H3 [G0 G1 G2 G3 G4] H5 H6]. destruct (W1 _ Hp) as (w & Ew & Hd & Hr). rewrite Ew. specialize (Hr H2).
  case_bool_decide as Hpay; [|by apply wpx_ret]. unfold close_ready. cbn [pp_ready]. rewrite Hr. cbn. split; [|done].
  set (w' := mkPending _ _ _ _ _). split; [split|done|done|split|done|done]; cbn.
  - intros id [Hid Hne%not_elem_of_singleton]%elem_of_difference. rewrite lookup_insert_ne by done. by apply W1.
  - intros id v. rewrite lookup_insert_Some. intros [[<- <-]|[_ Hv]]; [|by apply (W2 id)]. intros _. exists proposal, commit, x. subst data. by split_and!.
  - intros id v. rewrite lookup_insert_Some. intros [[<- <-]|[_ Hv]]; [exact (W3 _ _ Ew)|exact (W3 _ _ Hv)].
  - done.
  - done.
  - intros id v Hv. destruct (G2 id v Hv) as (v' & Hv' & P & D). destruct (decide (id = rp_ID proposal)) as [->|Hne]; [|exists v'; by rewrite lookup_insert_ne].
    exists w'. rewrite lookup_insert_eq. rewrite Ew in Hv'. injection Hv' as <-. split_and!; [done|by rewrite <- P|]. intros Hdone. specialize (D Hdone). congruence.
  - done.
  - done.
Qed.

Lemma apply_entry_spec sync c0 a b e s : 0 <= b -> b < re_Index e -> mid sync c0 a b (fst s) ->
  wpx (applyCommittedEntryLocked unmarshalProposal e) (fun _ s' => mid sync c0 a (re_Index e) (fst s') /\ snd s' = snd s)
    (fun _ s' => mid sync c0 a (re_Index e) (fst s') /\ snd s' = snd s) s.
Proof.
  intros Hb Hlt Hs. destruct s as [c ctx]. unfold applyCommittedEntryLocked. apply wpx_bind. cbn [update wpx fst snd].
  set (c1 := set_position _ _ c). assert (H1 : mid sync c0 a (re_Index e) c1).
  { destruct Hs as [[W1 W2 W3] H2 (O1 & O2 & O3) [G0 G1 G2 G3 G4] H5 H6]. split; [by split|done| |by split|done|done]. split_and!; [done|done|].
    intros Ht. eapply Forall_impl; [by apply O3|]. cbn. lia. }
  destruct (re_Type e); [|by apply (mid_raw sync c0 a _ _ (law_ConfChange _ Hlaws _ _) (c1, ctx))..|by apply (mid_ret sync c0 a _ tt (c1, ctx))].
  case_bool_decide as Hd; [by apply (mid_ret sync c0 a _ tt (c1, ctx))|]. apply wpx_bind. pose proof (Hdecode (re_Data e)) as Hr. unfold wpx at 1, lift.
  destruct (unmarshalProposal (re_Data e)) as [p|err| |] eqn:Eu; [|by split|done|done]. apply wpx_bind.
  pose proof (committedEntry_returns p (mkCommit (re_Index e) (re_Term e))) as Hr2. unfold wpx at 1, lift.
  destruct (committedEntry p (mkCommit (re_Index e) (re_Term e))) as [x|err| |] eqn:Ec; [|by split|done|done]. apply wpx_bind. cbn [update wpx fst snd].
  set (c2 := set_committed _ c1). pose proof (committedEntry_index _ _ _ Ec) as Ei. cbn in Ei.
  assert (H2 : mid sync c0 a (re_Index e) c2).
  { destruct Hs as [[W1 W2 W3] T (O1 & O2 & O3) [G0 G1 G2 G3 G4] H5 H6]. specialize (O3 T). split; [split|done| |split|done|done]; cbn; try done.
    - intros id w Hw Hdone. destruct (W2 id w Hw Hdone) as (q & cm & y & Q1 & Q2 & Q3 & Q4). exists q, cm, y. split_and!; try done; [|naive_solver..]. set_solver.
    - split_and!; cbn.
      + apply StronglySorted_app_2; [|done|repeat constructor]. intros y z Hy ->%list_elem_of_singleton. unfold index_lt. rewrite Forall_forall in O3. specialize (O3 y Hy). lia.
      + apply Forall_app. split; [done|]. constructor; [split; [lia|by do 2 eexists]|constructor].
      + intros _. apply Forall_app. split; [eapply Forall_impl; [exact O3|cbn; lia]|]. constructor; [lia|constructor].
    - by apply prefix_app_r. }
  eapply wpx_mono; [apply (wake_spec sync c0 a (re_Index e) p (re_Data e) _ x (c2, ctx) H2 Eu Ec); cbn; set_solver|done|done].
Qed.

(** [b] or the index of one of the entries. *)
Definition last_of (b : Z) (es : list RaftEntry) (b' : Z) : Prop := b' = b \/ exists e, e ∈ es /\ b' = re_Index e.

Lemma apply_entries_spec sync c0 a es : forall b s, 0 <= b -> StronglySorted (fun x y => re_Index x < re_Index y) es -> Forall (fun e => b < re_Index e) es ->
  mid sync c0 a b (fst s) ->
  wpx (apply_entries unmarshalProposal es) (fun _ s' => (exists b', last_of b es b' /\ mid sync c0 a b' (fst s')) /\ snd s' = snd s)
    (fun _ s' => (exists b', mid sync c0 a b' (fst s')) /\ snd s' = snd s) s.
Proof.
  induction es as [|e es IH]; intros b s Hb Hsort Hall Hs; cbn [apply_entries]; [apply wpx_ret; split; [exists b; split; [by left|done]|done]|].
  apply StronglySorted_inv in Hsort as [Hsort Hlt]. apply Forall_cons in Hall as [He Hall].
  apply wpx_bind. eapply wpx_mono; [by apply (apply_entry_spec sync c0 a b)| |intros ? s1 [H1 H2]; split; [by eexists|done]].
  intros ? s1 [H1 H2]. eapply wpx_mono; [apply (IH (re_Index e)); [lia|done|done|done]| |].
  - intros ? s2 [(b' & Hb' & I1) I2]. split; [|congruence]. exists b'. split; [|done]. right.
    destruct Hb' as [->|(x & Hx & ->)]; [exists e; split; [by left|done]|exists x; split; [by right|done]].
  - intros ? s2 [I1 I2]. split; [done|congruence].
Qed.

Lemma mid_route sync c0 a b msgs : midst sync c0 a b (route_messages msgs).
Proof.
  induction msgs as [|m msgs IH]; cbn [route_messages]; [apply mid_ret|]. intros [c ctx] Hs. apply wpx_bind. cbn [shared wpx fst snd]. case_bool_decide.
  - apply (mid_bind sync c0 a b _ _ IH (fun rest => mid_ret sync c0 a b _) (c, ctx) Hs).
  - apply (mid_bind sync c0 a b _ _ (mid_raw sync c0 a b _ (law_Step _ Hlaws m)) (fun _ => IH) (c, ctx) Hs).
Qed.

Lemma encode_returns msgs : returned (encodeRaftPeerMessages msgs).
Proof.
  induction msgs as [|m msgs IH]; cbn [encodeRaftPeerMessages]; [done|]. pose proof (law_Marshal _ Hlaws m). destruct (Msg_Marshal m); try done. cbn.
  by destruct (encodeRaftPeerMessages msgs).
Qed.

Lemma decode_returns msgs : returned (decodeRaftPeerMessages msgs).
Proof.
  induction msgs as [|m msgs IH]; cbn [decodeRaftPeerMessages]; [done|]. case_bool_decide; [done|]. pose proof (law_Unmarshal _ Hlaws (Payload m)).
  destruct (Msg_Unmarshal (Payload m)); try done. cbn. repeat case_bool_decide; try done. by destruct (decodeRaftPeerMessages msgs).
Qed.

Lemma mid_weaken (sync : Prop) c0 a b c : mid sync c0 a b c -> forall (P : Prop), (P -> synced c) -> mid P c0 a b c.
Proof. intros [H1 H2 H3 H4 H5 H6] P HP. by split. Qed.

Lemma mid_log c0 a b es c : mid False c0 a b c -> mid False c0 a b (set_log es c).
Proof. intros [[W1 W2 W3] H2 H3 [G0 G1 G2 G3 G4] H5 H6]. split; [by split|done|done|by split|done|done]. Qed.

Lemma mid_Append c0 a b es : midst False c0 a b (storage_Append es).
Proof.
  unfold storage_Append. case_bool_decide; [apply mid_ret|]. apply mid_bind; [apply mid_raw, (law_Append _ Hlaws)|]. intros _ [c ctx] Hs. cbn. split; [by apply mid_log|done].
Qed.

(** Replacing the state file. *)
Lemma sync_ancestors_kept n : forall fs, wpx (sync_ancestors n) (fun _ fs' => fs_dir fs' = fs_dir fs) (fun _ fs' => fs_dir fs' = fs_dir fs) fs.
Proof.
  induction n as [|n IH]; intros fs; cbn [sync_ancestors]; unfold raft_syncDir, wpx, mbind, SE_bind.
  all: destruct (fs_may_fail_cases err_raft_io fs) as (f1 & D1 & [-> | ->]); [|exact D1].
  all: destruct (fs_may_fail_cases err_raft_io f1) as (f2 & D2 & [-> | ->]); [|congruence].
  - cbn. congruence.
  - specialize (IH f2). unfold wpx in IH. destruct (sync_ancestors n f2) as [[]]; try done; congruence.
Qed.

Lemma tmp_name_ne (p : string) : p +:+ ".tmp" <> p.
Proof.
  intros E. assert (Hl : forall s t : string, String.length (s +:+ t) = (String.length s + String.length t)%nat).
  { induction s as [|x s IH]; intros t; [done|]. exact (f_equal S (IH t)). }
  apply (f_equal String.length) in E. rewrite Hl in E. cbn in E. lia.
Qed.

Lemma replace_file_spec data fs : wpx (replace_file path ancestors data) (fun _ fs' => fs_dir fs' !! path = Some data) (fun _ _ => True) fs.
Proof.
  pose proof (tmp_name_ne path) as Hne. unfold replace_file. apply wpx_bind. unfold ensureDurableRaftDir. unfold wpx at 1, mbind, SE_bind.
  destruct (fs_may_fail_cases err_raft_io fs) as (f1 & D1 & [-> | ->]); [|done]. destruct (fs_may_fail_cases err_raft_io f1) as (f2 & D2 & [-> | ->]); [|done].
  pose proof (sync_ancestors_kept ancestors f2) as Ha. unfold wpx in Ha. destruct (sync_ancestors ancestors f2) as [[[]| | |] f3]; try done.
  unfold writeSyncedFile, wpx, mbind, SE_bind. destruct (fs_create_cases (path +:+ ".tmp") err_raft_io f3) as (f4 & [[-> D4]|[-> D4]]); [|done].
  destruct (file_write_cases (path +:+ ".tmp") data err_raft_io f4) as (f5 & [[-> D5]|(part & -> & _)]); [|done].
  destruct (fs_may_fail_cases err_raft_io f5) as (f6 & D6 & [-> | ->]); [|done]. destruct (fs_may_fail_cases err_raft_io f6) as (f7 & D7 & [-> | ->]); [|done].
  assert (D : fs_dir f7 !! (path +:+ ".tmp") = Some data) by (rewrite D7, D6, D5, D4, !lookup_insert_eq; done).
  unfold catch. destruct (fs_rename_file_cases (path +:+ ".tmp") path err_raft_io f7) as (f8 & [[-> D8]|[-> D8]]).
  - assert (E : fs_dir f8 !! path = Some data) by (rewrite D8; unfold fs_rename; rewrite D; apply lookup_insert_eq). unfold raft_syncDir, mbind, SE_bind.
    destruct (fs_may_fail_cases err_raft_io f8) as (f9 & D9 & [-> | ->]); [|done]. destruct (fs_may_fail_cases err_raft_io f9) as (f10 & D10 & [-> | ->]); [|done].
    by rewrite D10, D9.
  - unfold fs_remove, mbind, SE_bind. by destruct (fs_may_fail_cases err_raft_io f8) as (f9 & D9 & [-> | ->]).
Qed.

Lemma mid_Persist c0 a b s : mid False c0 a b (fst s) ->
  wpx (Persist marshalDisk path ancestors) (fun _ s' => mid True c0 a b (fst s') /\ snd s' = snd s) (fun _ s' => mid False c0 a b (fst s') /\ snd s' = snd s) s.
Proof.
  destruct s as [c ctx]. intros Hs. unfold Persist. apply wpx_bind. cbn [shared wpx fst snd]. apply wpx_bind. pose proof (law_InitialState _ Hlaws (rawNode c)) as Hr.
  unfold wpx at 1, lift. destruct (mem_InitialState (rawNode c)) as [hs| | |]; try done. unfold wpx, on_files. cbn [fst snd].
  pose proof (replace_file_spec (marshalDisk (mkRaftDisk hs (log_entries c))) (er_disk c)) as Hf. unfold wpx in Hf.
  destruct (replace_file _ _ _ _) as [[[]|e| |] fs]; try done; (split; [|done]); destruct Hs as [[W1 W2 W3] H2 H3 [G0 G1 G2 G3 G4] H5 H6]; cbn.
  - split; [by split|done|done|by split|done|]. intros _. by exists hs.
  - split; [by split|done|done|by split|done|done].
Qed.

Lemma prepare_ready_spec rd c0 a s : mid False c0 a a (fst s) ->
  wpx (prepare_ready marshalDisk path ancestors hasTransport rd) (fun _ s' => mid True c0 a a (fst s') /\ snd s' = snd s)
    (fun _ s' => mid False c0 a a (fst s') /\ snd s' = snd s) s.
Proof.
  intros H0. assert (Hset : midst False c0 a a (if IsEmptyHardState (rd_HardState rd) then mret tt else storage_SetHardState (rd_HardState rd))).
  { destruct (IsEmptyHardState _); [apply mid_ret|apply mid_raw, (law_SetHardState _ Hlaws)]. }
  unfold prepare_ready. apply wpx_bind. eapply wpx_mono; [by apply Hset| |done].
  intros ? s1 [H1 E1]. apply wpx_bind. eapply wpx_mono; [by apply mid_Append| |intros ? s2 [H2 E2]; split; [done|congruence]].
  intros ? s2 [H2 E2]. apply wpx_bind. eapply wpx_mono; [by apply mid_Persist| |intros ? s3 [H3 E3]; split; [done|congruence]].
  intros ? s3 [H3 E3]. assert (Hrest : midst True c0 a a (outbound ← route_messages (rd_Messages rd);
      if bool_decide (outbound = []) then mret [] else if negb hasTransport then throw (ErrNew "raft transport is not configured for peer messages")
      else lift (encodeRaftPeerMessages outbound))).
  { apply mid_bind; [apply mid_route|]. intros out. case_bool_decide; [apply mid_ret|]. destruct (negb hasTransport); [intros s' Hs'; by split|apply mid_lift, encode_returns]. }
  eapply wpx_mono; [by apply Hrest|..]; intros ? s4 [H4 E4]; (split; [|congruence]); [done|by eapply mid_weaken].
Qed.

Lemma handle_ready_spec rd s : raft_ok (fst s) -> terminalErr (fst s) = None ->
  let a := applied (rawNode (fst s)) in
  0 <= a -> StronglySorted (fun x y => re_Index x < re_Index y) (rd_CommittedEntries rd) -> Forall (fun e => a < re_Index e) (rd_CommittedEntries rd) ->
  wpx (handle_ready unmarshalProposal marshalDisk path ancestors hasTransport rd)
    (fun _ s' => (exists b, last_of a (rd_CommittedEntries rd) b /\ mid True (fst s) a b (fst s')) /\ snd s' = snd s)
    (fun _ s' => (exists b, mid False (fst s) a b (fst s')) /\ snd s' = snd s) s.
Proof.
  intros [Hw Ho] Ht a Ha Hsort Hall. assert (H0 : mid False (fst s) a a (fst s)) by (by split). unfold handle_ready. apply wpx_bind.
  eapply wpx_mono; [by apply (prepare_ready_spec rd (fst s) a s)| |intros ? s1 [H1 E1]; split; [by eexists|done]].
  intros enc s1 [H1 E1]. apply wpx_bind. eapply wpx_mono; [by apply (apply_entries_spec True (fst s) a _ a s1)|..].
  - intros ? s2 [H2 E2]. apply wpx_ret. split; [done|congruence].
  - intros ? s2 [(b & H2) E2]. split; [|congruence]. exists b. by eapply mid_weaken.
Qed.

(** *** Failing *)

Definition closed (w : pendingRaftProposal) : pendingRaftProposal := mkPending (pp_payload w) true (pp_done w) (pp_control w) (pp_data w).

(** All channels are open when they are closed at the end. *)
Lemma close_pending_spec ids w : (forall id, id ∈ ids -> exists p, w !! id = Some p /\ pp_done p = false /\ pp_ready p = false) -> exists w',
  close_pending ids w = Ok w' /\ (forall id, id ∉ ids -> w' !! id = w !! id) /\ (forall id p, id ∈ ids -> w !! id = Some p -> w' !! id = Some (closed p)).
Proof.
  intros Hall. unfold close_pending. set (f := fun (id : Z) (acc : result _) => _).
  apply (set_fold_ind_L (fun acc X => X ⊆ ids -> exists w', acc = Ok w' /\ (forall id, id ∉ X -> w' !! id = w !! id) /\
    (forall id p, id ∈ X -> w !! id = Some p -> w' !! id = Some (closed p))) f (Ok w)); [|..|done].
  - intros _. exists w. split_and!; [done|done|set_solver].
  - intros id X acc Hid IH HX. destruct IH as (w1 & -> & H1 & H2); [set_solver|]. destruct (Hall id ltac:(set_solver)) as (p & Ep & Hd & Hr).
    unfold f. cbn. rewrite (H1 id Hid), Ep, Hd. unfold close_ready. rewrite Hr. cbn. eexists. split; [done|]. split.
    + intros i Hi. rewrite lookup_insert_ne by set_solver. apply H1. set_solver.
    + intros i q Hi Hq. destruct (decide (i = id)) as [->|Hne]; [|rewrite lookup_insert_ne by done; apply H2; [set_solver|done]].
      rewrite Ep in Hq. injection Hq as <-. by rewrite lookup_insert_eq.
Qed.

Lemma fail_terminal_spec e c0 a b s : mid False c0 a b (fst s) ->
  wpx (fail_terminal e) (fun _ s' => raft_ok (fst s') /\ grown c0 (fst s') /\ snd s' = snd s) (fun _ _ => False) s.
Proof.
  destruct s as [c ctx]. intros [[W1 W2 W3] Ht (O1 & O2 & O3) [G0 G1 G2 G3 G4] _ _]. cbn in *. unfold fail_terminal. apply wpx_bind. cbn [shared wpx fst snd].
  rewrite Ht. destruct (close_pending_spec (pending c) (waiters c)) as (w' & -> & H1 & H2).
  { intros id Hid. destruct (W1 id Hid) as (w & Ew & Hd & Hr). exists w. auto. }
  assert (Hback : forall id v, w' !! id = Some v -> exists u, waiters c !! id = Some u /\ (v = u \/ v = closed u)).
  { intros id v Hv. destruct (decide (id ∈ pending c)) as [Hp|Hp]; [|rewrite (H1 id Hp) in Hv; exists v; auto].
    destruct (W1 id Hp) as (u & Eu & _). exists u. rewrite (H2 id u Hp Eu) in Hv. injection Hv as <-. auto. }
  apply wpx_bind. cbn. split_and!; [split; [split|]|split|done]; cbn; try done.
  - intros id Hid. destruct (W1 id Hid) as (w & Ew & Hd & _). exists (closed w). by rewrite (H2 id w Hid Ew).
  - intros id v Hv Hdone. destruct (Hback id v Hv) as (u & Eu & [->| ->]); [by apply (W2 id)|]. by apply (W2 id u Eu).
  - intros id v Hv. destruct (Hback id v Hv) as (u & Eu & _). by apply (W3 id u).
  - intros id v Hv. destruct (G2 id v Hv) as (u & Eu & P & D). destruct (decide (id ∈ pending c)) as [Hp|Hp]; [|exists u; by rewrite H1].
    exists (closed u). rewrite (H2 id u Hp Eu). split_and!; [done|done|]. intros Hd. specialize (D Hd). subst u. destruct (W1 id Hp) as (u & Eu' & Hd' & _). congruence.
  - intros e0 He0%G3. congruence.
Qed.

(** *** The calls *)

Lemma keeps_unreachable peers : keeps (report_unreachable peers).
Proof.
  induction peers as [|p peers IH]; cbn [report_unreachable]; [apply keeps_ret|]. apply keeps_bind; [|done]. intros [c ctx] Hs. cbn. cbn in Hs.
  pose proof (raft_ok_raw c (raw_ReportUnreachable p (rawNode c)) Hs (law_Unreachable _ Hlaws p _)) as [[[W1 W2 W3] O] [G0 G1 G2 G3 G4]].
  split_and!; [|by split|lia]. split; [by split|done].
Qed.

Lemma deliver_spec enc s : raft_ok (fst s) -> synced (fst s) ->
  wpx (deliver Send enc) (fun _ s' => raft_ok (fst s') /\ grown (fst s) (fst s') /\ (length (snd s') <= length (snd s))%nat)
    (fun _ s' => raft_ok (fst s') /\ grown (fst s) (fst s') /\ (length (snd s') <= length (snd s))%nat) s.
Proof.
  destruct s as [c ctx]. cbn [fst snd]. intros Hok Hsy. unfold deliver. apply wpx_bind. destruct (env_Send Henv enc c Hok Hsy) as [H1 H2].
  unfold wpx at 1. cbn. destruct (Send enc c) as [r c1]. cbn in H1, H2. apply wpx_bind. cbn [shared wpx fst snd].
  destruct (terminalErr c1) as [e|]; [by split_and!|].
  destruct r as [[Peers|e]|]; [|by split_and!|by apply wpx_ret]. case_bool_decide; [by split_and!|]. destruct (forallb _ _); [|by split_and!].
  eapply wpx_mono; [by apply (keeps_unreachable Peers (c1, ctx))|..]; intros ? s2 (I1 & I2 & I3); (split_and!; [done|by etrans|done]).
Qed.

Lemma keeps_advance : keeps (advanceOneReadyLocked unmarshalProposal marshalDisk path ancestors hasTransport Send).
Proof.
  intros [c ctx] Hok. cbn in Hok. unfold advanceOneReadyLocked. apply wpx_bind. cbn [shared wpx fst snd]. destruct (terminalErr c) as [e|] eqn:Ht; [by split_and!|].
  pose proof (law_Ready _ Hlaws (rawNode c)) as Hr. destruct (raw_Ready (rawNode c)) as [rd n]. destruct Hr as (Ea & Ha & Hsort & Hall).
  apply wpx_bind. cbn [update wpx fst snd]. destruct (raft_ok_raw c n Hok Ea) as [Hok1 Hg1]. set (c1 := set_raw n c) in *.
  assert (Ea1 : applied (rawNode c1) = applied (rawNode c)) by exact Ea.
  pose proof (handle_ready_spec rd (c1, ctx) Hok1 Ht) as Hh. cbn [fst snd] in Hh. rewrite Ea1 in Hh. specialize (Hh Ha Hsort Hall).
  apply wpx_bind. unfold wpx at 1. unfold wpx in Hh. destruct (handle_ready _ _ _ _ _ rd (c1, ctx)) as [[enc|e| |] s2]; try done.
  - destruct Hh as [(b & Hb & Hm) E2]. apply wpx_bind. cbn [update wpx]. set (c3 := set_raw _ (fst s2)).
    assert (Hok3 : raft_ok c3 /\ grown c1 c3 /\ synced c3).
    { destruct Hm as [[W1 W2 W3] H2 (O1 & O2 & O3) [G0 G1 G2 G3 G4] H5 H6]. split_and!; [split; [by split|]|by split|by apply H6].
      split_and!; [done|done|]. intros Hn. eapply Forall_impl; [by apply O3|]. cbn. intros x Hx. destruct (law_Advance _ Hlaws rd (rawNode (fst s2))) as [L1 L2].
      destruct Hb as [->|(en & Hin & ->)]; [lia|]. rewrite Forall_forall in L2. specialize (L2 en Hin). lia. }
    destruct Hok3 as (K1 & K2 & K3). case_bool_decide.
    + apply wpx_ret. cbn. rewrite E2. split_and!; [done|by etrans|done].
    + eapply wpx_mono; [by apply (deliver_spec enc (c3, snd s2))|..]; cbn; rewrite E2; intros ? s4 (I1 & I2 & I3); (split_and!; [done|by do 2 (etrans; [done|])|done]).
  - destruct Hh as [(b & Hm) E2]. apply wpx_bind. eapply wpx_mono; [by apply (fail_terminal_spec e c1 (applied (rawNode c)) b s2)| |done].
    intros ? s3 (I1 & I2 & I3). cbn. rewrite I3, E2. split_and!; [done|by etrans|done].
Qed.

Abbreviation advanceUntilStable := (advanceUntilStableLocked unmarshalProposal marshalDisk path ancestors hasTransport Send).

Lemma keeps_advance_loop n : keeps (advance_loop unmarshalProposal marshalDisk path ancestors hasTransport Send n).
Proof.
  induction n as [|n IH]; cbn [advance_loop]; apply keeps_shared; intros c.
  all: destruct (HasReady (rawNode c)); [|destruct (terminalErr c); [apply keeps_throw|apply keeps_ret]].
  all: destruct (terminalErr c); [apply keeps_throw|]; apply keeps_bind; [apply keeps_ctx|]; intros []; [apply keeps_throw|].
  - apply keeps_throw.
  - by apply keeps_bind; [apply keeps_advance|].
Qed.

Lemma keeps_stable : keeps advanceUntilStable.
Proof. apply keeps_advance_loop. Qed.

(** *** Proposals *)

Lemma grown_forget id c : raft_ok c -> raft_ok (set_waiters (proposalSeq c) (pending c ∖ {[id]}) (waiters c) c) /\
  grown c (set_waiters (proposalSeq c) (pending c ∖ {[id]}) (waiters c) c).
Proof.
  intros [[W1 W2 W3] O]. split; [split; [split|done]|split]; cbn; try done.
  - intros i Hi. apply W1. set_solver.
  - intros i w Hw. by exists w.
Qed.

Lemma keeps_forget id : keeps (forget id).
Proof. intros [c ctx] Hok. cbn. destruct (grown_forget id c Hok). by split_and!. Qed.

Abbreviation commit_loop := (commit_loop unmarshalProposal marshalDisk path ancestors hasTransport Send wait).

(** The loop ends while there are looks at the context left, and ends well
    only if the waiter is done. *)
Lemma commit_loop_spec fuel id payload : forall s w, raft_ok (fst s) -> (length (snd s) < fuel)%nat ->
  waiters (fst s) !! id = Some w -> pp_payload w = payload ->
  wpx (commit_loop fuel id)
    (fun w' s' => raft_ok (fst s') /\ grown (fst s) (fst s') /\ waiters (fst s') !! id = Some w' /\ pp_done w' = true /\ pp_payload w' = payload)
    (fun _ s' => raft_ok (fst s') /\ grown (fst s) (fst s')) s.
Proof.
  induction fuel as [|fuel IH]; intros [c ctx] w Hok Hf Hw Hp; cbn [fst snd] in *; [lia|]. cbn [RaftLog.commit_loop]. apply wpx_bind. cbn [shared wpx fst snd].
  rewrite Hw. destruct (pp_done w) eqn:Hd; [apply wpx_ret; by split_and!|].
  assert (Hforget : forall e s1, raft_ok (fst s1) -> grown c (fst s1) ->
    wpx (_ ← forget id; throw e) (fun w' s' => raft_ok (fst s') /\ grown c (fst s') /\ waiters (fst s') !! id = Some w' /\ pp_done w' = true /\ pp_payload w' = payload)
      (fun _ s' => raft_ok (fst s') /\ grown c (fst s')) s1).
  { intros e [c1 ctx1] H1 H2. apply wpx_bind. cbn. destruct (grown_forget id c1 H1) as [I1 I2]. split; [done|by etrans]. }
  destruct (terminalErr c) as [e|]; [by apply Hforget|]. apply wpx_bind. destruct ctx as [|[] ctx]; [by apply (Hforget (ErrNew "raft apply timeout") (c, []))|by apply (Hforget (ErrNew "raft apply timeout") (c, []))|].
  cbn [ctx_done wpx fst snd]. apply wpx_bind, wpx_catch. eapply wpx_mono; [by apply (keeps_stable (c, ctx))|..]; cbn [fst snd] in *.
  2:{ intros e s1 (H1 & H2 & _). by apply Hforget. }
  intros ? [c1 ctx1] (H1 & H2 & H3). cbn [fst snd] in *. apply wpx_bind. cbn [shared wpx fst snd]. destruct (gr_waiters _ _ H2 id w Hw) as (w1 & Hw1 & P1 & _).
  rewrite Hw1. cbn. apply wpx_bind. destruct (pp_done w1).
  - apply wpx_ret. eapply wpx_mono; [apply (IH (c1, ctx1) w1); cbn; [done|cbn in Hf; lia|done|congruence]|..]; cbn.
    + intros w' s' (I1 & I2 & I3). split_and!; [done|by etrans|naive_solver..].
    + intros ? s' (I1 & I2). split; [done|by etrans].
  - destruct (env_wait Henv id c1 H1) as [K1 K2]. cbn. destruct (gr_waiters _ _ K2 id w1 Hw1) as (w2 & Hw2 & P2 & _).
    eapply wpx_mono; [apply (IH (wait id c1, ctx1) w2); cbn; [done|cbn in Hf; lia|done|congruence]|..]; cbn.
    + intros w' s' (I1 & I2 & I3). split_and!; [done|by do 2 (etrans; [done|])|naive_solver..].
    + intros ? s' (I1 & I2). split; [done|by do 2 (etrans; [done|])].
Qed.

(** JSON gives the mutation back, as it does where its strings are UTF-8. *)
Definition survives kind control data : Prop := forall proposer request id,
  let p := mkProposal proposer request id kind control data in unmarshalProposal (marshalProposal p) = Ok p.

Abbreviation commitMutation := (commitMutation marshalProposal unmarshalProposal marshalDisk path ancestors hasTransport Send wait).

(** A new waiter. *)
Lemma raft_ok_new c id payload : raft_ok c -> terminalErr c = None -> proposalSeq c < id ->
  let c' := set_waiters id ({[id]} ∪ pending c) (<[id := mkPending payload false false None None]> (waiters c)) c in 0 < id -> raft_ok c' /\ grown c c'.
Proof.
  intros [[W1 W2 W3] O] Ht Hid c' Hpos. split; [split; [split|done]|split]; cbn; try done; [| | | |lia].
  - intros i Hi. destruct (decide (i = id)) as [->|Hne]; [rewrite lookup_insert_eq; by eexists|]. rewrite lookup_insert_ne by done. apply W1. set_solver.
  - intros i w. rewrite lookup_insert_Some. intros [[<- <-]|[_ Hw]]; [done|by apply (W2 i)].
  - intros i w. rewrite lookup_insert_Some. intros [[<- <-]|[_ Hw]]; [lia|]. specialize (W3 i w Hw). lia.
  - intros i w Hw. exists w. rewrite lookup_insert_ne; [done|]. intros <-. specialize (W3 _ _ Hw). lia.
Qed.

Lemma commitMutation_spec nonce kind control data s : raft_ok (fst s) -> returned nonce -> survives kind control data -> 0 <= proposalSeq (fst s) < 2 ^ 64 - 1 ->
  wpx (commitMutation nonce kind control data)
    (fun w s' => raft_ok (fst s') /\ grown (fst s) (fst s') /\
       exists p commit x, rp_Kind p = kind /\ rp_Control p = control /\ rp_Data p = data /\ committedEntry p commit = Ok x /\ x ∈ committed (fst s') /\
         pp_control w = rcp_Control x /\ pp_data w = rcp_Data x)
    (fun _ s' => raft_ok (fst s') /\ grown (fst s) (fst s')) s.
Proof.
  destruct s as [c ctx]. cbn [fst snd]. intros Hok Hn Hcodec Hseq. unfold RaftLog.commitMutation. apply wpx_bind. cbn [shared wpx fst snd].
  destruct (terminalErr c) as [e|] eqn:Ht; [done|]. apply wpx_bind. destruct ctx as [|[] ctx]; [done|done|]. cbn [ctx_done wpx fst snd].
  case_bool_decide; [done|]. assert (Eid : u64 (proposalSeq c + 1) = proposalSeq c + 1) by (unfold u64; rewrite Z.mod_small; lia). rewrite Eid.
  set (id := proposalSeq c + 1) in *. apply wpx_bind. cbn [update wpx fst snd]. set (c1 := set_waiters id (pending c) (waiters c) c).
  assert (H1 : raft_ok c1 /\ grown c c1).
  { destruct Hok as [[W1 W2 W3] O]. split; [split; [split|done]|split]; cbn; try done; [|intros i w Hw; by exists w|lia]. intros i w Hw. specialize (W3 i w Hw). lia. }
  destruct H1 as [Hok1 Hg1]. apply wpx_bind. unfold wpx at 1, lift. destruct nonce as [nonce|e| |]; [|by split|done|done].
  set (payload := marshalProposal _). apply wpx_bind. cbn [update wpx fst snd]. set (c2 := set_waiters id _ _ c1).
  destruct (raft_ok_new c id payload Hok Ht ltac:(lia) ltac:(lia)) as [Hok2 Hg2]. change (set_waiters id _ _ c) with c2 in Hok2, Hg2.
  apply wpx_bind, wpx_catch. eapply wpx_mono; [by apply (keeps_raw _ (law_Propose _ Hlaws payload) (c2, ctx))|..]; cbn [fst snd].
  2:{ intros e s3 (H1 & H2 & _). apply wpx_bind. destruct s3 as [c3 ctx3]. cbn in *. destruct (grown_forget id c3 H1) as [I1 I2]. split; [done|by do 2 (etrans; [done|])]. }
  intros ? [c3 ctx3] (H1 & H2 & _). cbn [fst snd] in *. unfold with_looks.
  destruct (gr_waiters _ _ H2 id (mkPending payload false false None None)) as (w3 & Hw3 & P3 & _); [apply lookup_insert_eq|].
  pose proof (commit_loop_spec (S (S (length ctx3))) id payload (c3, ctx3) w3 H1 ltac:(cbn; lia) Hw3 P3) as Hl. eapply wpx_mono; [exact Hl|..]; cbn.
  - intros w [c4 ctx4] (I1 & I2 & I3 & I4 & I5). split_and!; [done|by do 2 (etrans; [done|])|].
    destruct (wo_done _ (proj1 I1) id w I3 I4) as (p & commit & x & Q1 & Q2 & Q3 & Q4 & Q5). rewrite I5 in Q1. unfold payload in Q1. rewrite Hcodec in Q1. injection Q1 as <-.
    do 3 eexists. split_and!; [| | |exact Q2|exact Q3|exact Q4|exact Q5]; done.
  - intros ? s' (I1 & I2). split; [done|by do 2 (etrans; [done|])].
Qed.

(** *** Sequences of calls *)

Inductive raft_call :=
| CallControl (nonce : result bytes) (m : ControlMutation)
| CallData (nonce : result bytes) (m : DataMutation)
| CallPeers (messages : list PeerMessage)
| CallTick.

Inductive answer := AControl (e : ControlCommittedEntry) | AData (e : DataCommittedEntry) | ADone.

Definition run_call (k : raft_call) : SE (etcdRaft N * list bool) answer :=
  match k with
  | CallControl nonce m => e ← raft_CommitControl marshalProposal unmarshalProposal marshalDisk path ancestors hasTransport Send wait nonce m; mret (AControl e)
  | CallData nonce m => e ← raft_CommitData marshalProposal unmarshalProposal marshalDisk path ancestors hasTransport Send wait nonce m; mret (AData e)
  | CallPeers messages => _ ← HandlePeerMessages unmarshalProposal marshalDisk path ancestors hasTransport Send messages; mret ADone
  | CallTick => _ ← raft_Tick unmarshalProposal marshalDisk path ancestors hasTransport Send; mret ADone
  end.

(** An answer with a mutation is for the mutation of the call, at a position
    of the committed log [l]. *)
Definition answer_ok (l : list raftCommittedProposal) (k : raft_call) (r : result answer) : Prop :=
  match r, k with
  | Ok (AControl e), CallControl _ m => cc_Mutation e = m /\ exists x, x ∈ l /\ rcp_Control x = Some e
  | Ok (AData e), CallData _ m => dc_Mutation e = m /\ dc_Seq e = Commit_Index (dc_Commit e) /\ exists x, x ∈ l /\ rcp_Data x = Some e
  | Ok ADone, (CallPeers _ | CallTick) => True
  | Err _, _ => True
  | _, _ => False
  end.

Definition call_ok (k : raft_call) : Prop :=
  match k with
  | CallControl nonce m => returned nonce /\ survives "control" (Some m) None
  | CallData nonce m => returned nonce /\ survives "data" None (Some m)
  | _ => True
  end.

Lemma keeps_step msgs : keeps (step_messages unmarshalProposal marshalDisk path ancestors hasTransport Send msgs).
Proof.
  induction msgs as [|m msgs IH]; cbn [step_messages]; [apply keeps_ret|]. apply keeps_shared. intros c. case_bool_decide; [done|].
  apply keeps_bind; [apply keeps_raw, (law_Step _ Hlaws)|]. intros _. by apply keeps_bind; [apply keeps_stable|].
Qed.

Lemma keeps_tick : keeps (update (fun c => set_raw (raw_Tick (rawNode c)) c)).
Proof. intros [c ctx] Hok. cbn. destruct (raft_ok_raw c (raw_Tick (rawNode c)) Hok (law_Tick _ Hlaws _)). by split_and!. Qed.

Lemma run_call_spec k s : raft_ok (fst s) -> call_ok k -> 0 <= proposalSeq (fst s) < 2 ^ 64 - 1 ->
  wpx (run_call k) (fun a s' => raft_ok (fst s') /\ grown (fst s) (fst s') /\ answer_ok (committed (fst s')) k (Ok a)) (fun _ s' => raft_ok (fst s') /\ grown (fst s) (fst s')) s.
Proof.
  intros Hok Hn Hs. destruct k as [nonce m|nonce m|msgs|]; cbn [run_call call_ok] in *; [destruct Hn as [Hn Hc]..| |].
  - apply wpx_bind. unfold raft_CommitControl. apply wpx_bind. eapply wpx_mono; [by apply (commitMutation_spec nonce "control" (Some m) None s)| |done].
    intros w s' (H1 & H2 & p & commit & x & P1 & P2 & P3 & P4 & P5 & P6 & P7). unfold committedEntry in P4. rewrite P1, P2 in P4. cbn in P4. injection P4 as <-.
    rewrite P6. cbn. split_and!; [done|done|done|]. eexists. split; [exact P5|done].
  - apply wpx_bind. unfold raft_CommitData. apply wpx_bind. eapply wpx_mono; [by apply (commitMutation_spec nonce "data" None (Some m) s)| |done].
    intros w s' (H1 & H2 & p & commit & x & P1 & P2 & P3 & P4 & P5 & P6 & P7). unfold committedEntry in P4. rewrite P1, P3 in P4. cbn in P4. injection P4 as <-.
    rewrite P7. cbn. split_and!; [done|done|done|done|]. eexists. split; [exact P5|done].
  - apply wpx_bind. eapply wpx_mono; [apply (fun H : keeps (HandlePeerMessages unmarshalProposal marshalDisk path ancestors hasTransport Send msgs) => H s Hok)|..].
    + unfold HandlePeerMessages. apply keeps_shared. intros c. destruct (terminalErr c); [apply keeps_throw|]. case_bool_decide; [apply keeps_ret|].
      apply keeps_bind; [apply keeps_lift, decode_returns|apply keeps_step].
    + intros ? s' (H1 & H2 & _). by apply wpx_ret.
    + intros ? s' (H1 & H2 & _). done.
  - apply wpx_bind. eapply wpx_mono; [apply (fun H : keeps (raft_Tick unmarshalProposal marshalDisk path ancestors hasTransport Send) => H s Hok)|..].
    + unfold raft_Tick. apply keeps_shared. intros c. destruct (terminalErr c); [apply keeps_throw|]. apply keeps_bind; [apply keeps_ctx|]. intros []; [apply keeps_throw|].
      apply keeps_bind; [apply keeps_tick|]. intros _. apply keeps_stable.
    + intros ? s' (H1 & H2 & _). by apply wpx_ret.
    + intros ? s' (H1 & H2 & _). done.
Qed.

(** Calls with their contexts, one after the other; the counter of proposals
    does not reach the end of its 64 bits. *)
Inductive calls : etcdRaft N -> list (raft_call * list bool) -> list (result answer) -> etcdRaft N -> Prop :=
| calls_nil c : calls c [] [] c
| calls_cons k ctx r c c1 ctx1 ks rs c' : proposalSeq c < 2 ^ 64 - 1 -> call_ok k -> run_call k (c, ctx) = (r, (c1, ctx1)) -> calls c1 ks rs c' ->
    calls c ((k, ctx) :: ks) (r :: rs) c'.

Lemma answer_ok_prefix l l' k r : l `prefix_of` l' -> answer_ok l k r -> answer_ok l' k r.
Proof.
  intros [t ->]. destruct r as [[e|e|]|e| |]; cbn; try done; destruct k; try done; intros (E & Hx); (split; [done|]); [|destruct Hx as [Hs Hx]; split; [done|]].
  all: destruct Hx as (x & Hx & Er); exists x; split; [set_solver|done].
Qed.

Lemma calls_spec c ks rs c' : calls c ks rs c' -> raft_ok c -> 0 <= proposalSeq c ->
  raft_ok c' /\ grown c c' /\ Forall2 (fun k r => answer_ok (committed c') (fst k) r) ks rs.
Proof.
  induction 1 as [c|k ctx r c c1 ctx1 ks rs c' Hlt Hn E Hc IH]; intros Hok Hs; [by split_and!|].
  pose proof (run_call_spec k (c, ctx) Hok Hn (conj Hs Hlt)) as Hr. unfold wpx in Hr. rewrite E in Hr.
  assert (Hone : raft_ok c1 /\ grown c c1 /\ answer_ok (committed c1) k r) by (destruct r as [a|e| |]; cbn in Hr; [done|by destruct Hr|done|done]).
  destruct Hone as (H1 & H2 & H3). destruct (IH H1) as (I1 & I2 & I3); [pose proof (gr_seq _ _ H2); lia|].
  split_and!; [done|by etrans|]. constructor; [|done]. eapply answer_ok_prefix; [apply I2|done].
Qed.

(** *** Start *)

Lemma keeps_leader_loop fuel : forall s, raft_ok (fst s) -> (length (snd s) < fuel)%nat ->
  wpx (leader_loop unmarshalProposal marshalDisk path ancestors hasTransport Send fuel)
    (fun _ s' => raft_ok (fst s') /\ grown (fst s) (fst s')) (fun _ s' => raft_ok (fst s') /\ grown (fst s) (fst s')) s.
Proof.
  induction fuel as [|fuel IH]; intros [c ctx] Hok Hf; cbn [fst snd] in *; [lia|]. cbn [leader_loop]. apply wpx_bind. cbn [shared wpx fst snd].
  case_bool_decide; [by apply wpx_ret|]. apply wpx_bind. destruct ctx as [|[] ctx]; [done|done|]. cbn [ctx_done wpx fst snd].
  apply wpx_bind. eapply wpx_mono; [by apply (keeps_stable (c, ctx))| |intros ? s1 (H1 & H2 & _); done]. intros ? [c1 ctx1] (H1 & H2 & H3).
  apply wpx_bind. eapply wpx_mono; [by apply (keeps_tick (c1, ctx1))| |intros ? s2 (I1 & I2 & _); split; [done|by etrans]]. intros ? [c2 ctx2] (I1 & I2 & I3).
  cbn in *. eapply wpx_mono; [apply (IH (c2, ctx2)); cbn; [done|lia]|..]; cbn; intros ? s3 (J1 & J2); (split; [done|by do 2 (etrans; [done|])]).
Qed.

Context (unmarshalDisk : bytes -> result raftDiskState).

Lemma newEtcdRaft_ok cfg fs ctx c :
  newEtcdRaftConsensus unmarshalProposal marshalDisk unmarshalDisk path ancestors hasTransport Send cfg fs ctx = Ok c -> raft_ok c /\ 0 <= proposalSeq c.
Proof.
  unfold newEtcdRaftConsensus. case_bool_decide; [done|]. destruct (resolveRaftPeerIDs _ _) as [ids| | |]; cbn [mbind result_bind]; try done.
  destruct (_ && _); [done|]. destruct (newRaftPersistentStorage _ _ fs) as [loaded fs1]. destruct loaded as [[[mem es] b]| | |]; cbn [mbind result_bind]; try done.
  destruct (NewRawNode _ mem) as [n| | |]; cbn [mbind result_bind]; try done. destruct (if b then _ else _) as [r n1]. destruct r as [[]| | |]; cbn [mbind result_bind]; try done.
  destruct (mem_InitialState n1) as [hs| | |]; cbn [mbind result_bind]; try done. set (c0 := mkEtcdRaft _ _ _ _ _ _ _ _ _ _ _ _ _ _).
  assert (Hok0 : raft_ok c0) by (split; [split; cbn; [set_solver|done|done]|split_and!; [constructor|constructor|intros _; constructor]]).
  match goal with |- context [let '(_, _) := ?m (c0, ctx) in _] => set (start := m) end.
  assert (Hw : wpx start (fun _ s' => raft_ok (fst s') /\ grown c0 (fst s')) (fun _ _ => True) (c0, ctx)).
  { unfold start. apply wpx_bind. eapply wpx_mono; [by apply (keeps_stable (c0, ctx))| |done]. intros ? s1 (H1 & H2 & _). cbn in H2. case_bool_decide; [|by apply wpx_ret].
    unfold ensureLeaderLocked. apply wpx_bind. cbn [shared wpx]. case_bool_decide; [by apply wpx_ret|]. apply wpx_bind.
    eapply wpx_mono; [by apply (keeps_raw _ (law_Campaign _ Hlaws) s1)| |done]. intros ? s2 (I1 & I2 & _). unfold with_looks.
    eapply wpx_mono; [apply (keeps_leader_loop (S (S (length (snd s2)))) s2 I1); lia| |done]. intros ? s3 (J1 & J2). split; [done|by do 2 (etrans; [done|])]. }
  unfold wpx in Hw. destruct (start (c0, ctx)) as [[[]| | |] [c1 ctx1]]; cbn; try done. intros [= <-]. destruct Hw as [H1 H2]. split; [done|apply (gr_seq _ _ H2)].
Qed.

(** C13. A proposal is answered with its own mutation only: over any calls on a
    started commit log, with any other calls in the places where they release
    the lock, no call panics or runs forever; a call that is answered gets the
    mutation it proposed, at a position of the committed log; the committed
    log only grows, by increasing indices.  The transport is only assumed to
    behave when it is called with the log on disk, so no message leaves
    before. *)
Theorem raft_answers_own_mutation cfg fs ctx c ks rs c' :
  newEtcdRaftConsensus unmarshalProposal marshalDisk unmarshalDisk path ancestors hasTransport Send cfg fs ctx = Ok c -> calls c ks rs c' ->
  Forall2 (fun k r => answer_ok (committed c') (fst k) r) ks rs /\ committed c `prefix_of` committed c' /\ StronglySorted index_lt (committed c').
Proof.
  intros Hnew Hc. destruct (newEtcdRaft_ok _ _ _ _ Hnew) as [Hok Hs]. destruct (calls_spec _ _ _ _ Hc Hok Hs) as (H1 & H2 & H3).
  split_and!; [done|apply H2|apply H1].
Qed.
End Raft.

(** ** Examples *)

Lemma stored_log_appends_witness :
  let e i t := mkRaftEntry t i EntryNormal [] in
  indexed (appendRaftEntries [e 5 1; e 6 1; e 7 1] [e 6 2]) 6 = Some (e 6 2) /\ indexed (appendRaftEntries [e 5 1; e 6 1; e 7 1] [e 6 2]) 7 = None.
Proof.
  intros e. destruct (stored_log_appends 5 [e 5 1; e 6 1; e 7 1] (e 6 2) []) as [_ H].
  - intros k x Hk. do 3 (destruct k as [|k]; [injection Hk as <-; reflexivity|]). discriminate Hk.
  - intros k x Hk. destruct k as [|k]; [injection Hk as <-; reflexivity|]. discriminate Hk.
  - vm_compute. discriminate.
  - vm_compute. discriminate.
  - split; [exact (H 6)|exact (H 7)].
Defined.

(** A raft library of one node: it leads once it campaigned, and what is
    proposed is committed at once. *)
Module Solo.
Record node := mkNode { id : Z; lead : Z; done : nat; queue : list bytes }.

Fixpoint entries (i : nat) (q : list bytes) : list RaftEntry :=
  match q with [] => [] | d :: q => mkRaftEntry 1 (Z.of_nat (S i)) EntryNormal d :: entries (S i) q end.

Definition solo_lib : RaftLib node unit := {|
  IsEmptyHardState hs := bool_decide (hs_Term hs = 0 /\ hs_Vote hs = 0 /\ hs_Commit hs = 0);
  NewMemoryStorage := mkNode 0 0 0 [];
  mem_SetHardState _ n := (Ok tt, n);
  mem_Append _ n := (Ok tt, n);
  mem_InitialState _ := Ok (mkHardState 0 0 0);
  NewRawNode i n := Ok (mkNode i (lead n) (done n) (queue n));
  raw_Bootstrap _ n := (Ok tt, n);
  HasReady n := bool_decide (queue n <> []);
  raw_Ready n := (mkReady (mkHardState 0 0 0) (entries (done n) (queue n)) [] (entries (done n) (queue n)), n);
  raw_Advance rd n := mkNode (id n) (lead n) (foldr (fun e a => Nat.max (Z.to_nat (re_Index e)) a) (done n) (rd_CommittedEntries rd)) [];
  raw_Step _ n := (Ok tt, n);
  raw_Propose d n := (Ok tt, mkNode (id n) (lead n) (done n) (queue n ++ [d]));
  raw_Tick n := n;
  raw_Campaign n := (Ok tt, mkNode (id n) (id n) (done n) (queue n));
  raw_Lead := lead;
  raw_ApplyConfChange _ _ n := (Ok tt, n);
  raw_ReportUnreachable _ n := n;
  Msg_From _ := 0;
  Msg_To _ := 0;
  Msg_Marshal _ := Ok [];
  Msg_Unmarshal _ := Ok tt
|}.
#[export] Existing Instance solo_lib.

Lemma entries_after q : forall i, Forall (fun e => Z.of_nat i < re_Index e) (entries i q) /\ StronglySorted (fun a b => re_Index a < re_Index b) (entries i q).
Proof.
  induction q as [|d q IH]; intros i; cbn [entries]; [by split; constructor|]. destruct (IH (S i)) as [H1 H2]. split; constructor; cbn [re_Index]; [lia| |done|].
  - eapply Forall_impl; [exact H1|]. intros e. cbn. lia.
  - done.
Qed.

Lemma solo_laws : RaftLaws (fun n => Z.of_nat (done n)).
Proof.
  split; try (by intros; cbn).
  - intros n. cbn. destruct (entries_after (queue n) (done n)). split_and!; [done|lia|done|done].
  - intros rd n. cbn. set (l := rd_CommittedEntries rd). induction l as [|e l [IH1 IH2]]; cbn; [split; [done|constructor]|]. split; [lia|].
    constructor; [lia|]. eapply Forall_impl; [exact IH2|]. intros x Hx. cbn in *. lia.
Qed.

#[local] Instance control_mutation_eq_dec : EqDecision ControlMutation.
Proof. solve_decision. Defined.
#[local] Instance control_mutation_countable : Countable ControlMutation :=
  inj_countable' (fun m => (cm_ExpectedRevision m, cm_OperationID m, cm_Kind m, ShardID m, Target m, Split m, cm_NodeID m))
    (fun '(a, b, c, d, e, f, g) => mkControlMutation a b c d e f g) ltac:(by intros []).
#[local] Instance data_mutation_eq_dec : EqDecision DataMutation.
Proof. solve_decision. Defined.
#[local] Instance data_mutation_countable : Countable DataMutation :=
  inj_countable' (fun m => (dm_Kind m, dm_Key m, dm_Value m)) (fun '(a, b, c) => mkDataMutation a b c) ltac:(by intros []).
#[local] Instance proposal_eq_dec : EqDecision raftCommitProposal.
Proof. solve_decision. Defined.
#[local] Instance proposal_countable : Countable raftCommitProposal :=
  inj_countable' (fun p => (Proposer p, RequestID p, rp_ID p, rp_Kind p, rp_Control p, rp_Data p)) (fun '(a, b, c, d, e, f) => mkProposal a b c d e f) ltac:(by intros []).

Definition encode_proposal : raftCommitProposal -> bytes := count_marshal.
Definition decode_proposal : bytes -> result raftCommitProposal := count_unmarshal.
Definition no_disk (_ : raftDiskState) : bytes := [].
Definition load_disk (_ : bytes) : result raftDiskState := Ok (mkRaftDisk (mkHardState 0 0 0) []).
Definition no_send (_ : list PeerMessage) (c : etcdRaft node) : option send_error * etcdRaft node := (None, c).
Definition no_wait (_ : Z) (c : etcdRaft node) : etcdRaft node := c.

Definition start : result (etcdRaft node) :=
  newEtcdRaftConsensus decode_proposal no_disk load_disk "raft.json" 1 false no_send (mkRaftConfig "data" "n1" []) (mkFS ∅ [] 0) [false; false; false; false].

Definition put_x : DataMutation := mkDataMutation "put" (bytes_of_string "k") (bytes_of_string "v").

Definition solo_run : SE (etcdRaft node * list bool) answer :=
  run_call encode_proposal decode_proposal no_disk "raft.json" 1 false no_send no_wait (CallData (Ok [Byte.x2a]) put_x).

Lemma decode_returned b : returned (decode_proposal b).
Proof. unfold decode_proposal, count_unmarshal. by destruct (decode _). Qed.

Lemma solo_env : env_ok decode_proposal no_disk "raft.json" no_send no_wait (fun n => Z.of_nat (done n)).
Proof. split; intros; cbn; (split; [done|apply grown_preorder]). Qed.

Definition started : etcdRaft node := match start with Ok c => c | _ => mkEtcdRaft 0 ∅ (mkNode 0 0 0 []) [] 0 ∅ ∅ [] 0 0 0 0 None (mkFS ∅ [] 0) end.

Lemma start_started : start = Ok started.
Proof. vm_compute. reflexivity. Qed.
End Solo.

Lemma raft_answers_own_mutation_witness :
  exists e c' ctx, Solo.solo_run (Solo.started, [false; false; false]) = (Ok (AData e), (c', ctx)) /\ dc_Mutation e = Solo.put_x /\ exists x, x ∈ committed c' /\ rcp_Data x = Some e.
Proof.
  destruct (Solo.solo_run (Solo.started, [false; false; false])) as [r [c' ctx]] eqn:E.
  assert (exists e, r = Ok (AData e)) as [e ->] by (revert E; vm_compute; intros E; injection E as <- _ _; by eexists).
  exists e, c', ctx. split; [done|].
  destruct (raft_answers_own_mutation Solo.encode_proposal Solo.decode_proposal Solo.no_disk "raft.json" 1 false Solo.no_send Solo.no_wait (fun n => Z.of_nat (Solo.done n))
    Solo.solo_laws Solo.decode_returned Solo.solo_env Solo.load_disk (mkRaftConfig "data" "n1" []) (mkFS ∅ [] 0) [false; false; false; false] Solo.started
    [(CallData (Ok [Byte.x2a]) Solo.put_x, [false; false; false])] [Ok (AData e)] c') as (H & _ & _).
  - exact Solo.start_started.
  - eapply calls_cons; [by vm_compute| |exact E|constructor]. split; [done|]. intros proposer request id. apply count_codec.
  - inversion H as [|? ? ? ? Ha _]; subst. destruct Ha as (H1 & _ & H2). by split.
Defined.
