(* ===== verification/Cdc.v ===== *)
(** * Change events ([pkg/lsm/engine/cdc.go])

    The streams of change events of a node, one for each shard: every stream
    keeps its last events, and readers take pages of it by offset.  A reader
    that follows [NextOffset] gets every event of an ordered stream that was
    not dropped, and [DroppedBefore] never misses a dropped one. *)

From Stdlib Require Import ZArith Lia Sorting.Sorted.
From stdpp Require Import base list strings gmap sorting.
From S2P Require Import Prelude Engine GoStrings ControlPlane.
Local Open Scope Z_scope.

Definition defaultCDCReadLimit : Z := 100.
Definition maxCDCReadLimit : Z := 1000.
Definition defaultCDCMaxEventsPerShard : Z := 4096.

Record CDCEvent := mkEvent {
  Offset : Z;
  ev_ShardID : string;
  Operation : string;
  ev_Key : bytes;
  ev_Value : bytes;
  ev_Tombstone : bool;
  CommittedAt : Z
}.

Record CDCReadResult := mkReadResult {
  rr_ShardID : string;
  FromOffset : Z;
  NextOffset : Z;
  OldestOffset : Z;
  DroppedBefore : bool;
  Events : list CDCEvent
}.

Record cdcStreamStore := mkStreams { capacity : Z; streams : gmap string (list CDCEvent) }.

Definition newCDCStreamStore (capacity : Z) : cdcStreamStore :=
  mkStreams (if bool_decide (capacity <= 0) then defaultCDCMaxEventsPerShard else capacity) ∅.

Definition cdc_append (event : CDCEvent) (s : cdcStreamStore) : cdcStreamStore :=
  let shard := TrimSpace (ev_ShardID event) in
  let event := mkEvent (Offset event) shard (Operation event) (ev_Key event) (ev_Value event) (ev_Tombstone event) (CommittedAt event) in
  if bool_decide (shard = "" \/ Offset event = 0) then s
  else
    let stream := default [] (streams s !! shard) ++ [event] in
    let stream := if bool_decide (capacity s < zlen stream) then drop (Z.to_nat (zlen stream - capacity s)) stream else stream in
    mkStreams (capacity s) (<[shard := stream]> (streams s)).

Definition normalizeCDCReadLimit (limit : Z) : Z :=
  if bool_decide (limit <= 0) then defaultCDCReadLimit
  else if bool_decide (maxCDCReadLimit < limit) then maxCDCReadLimit else limit.

Definition emptyCDCReadResult (shardID : string) (offset limit : Z) : CDCReadResult :=
  mkReadResult (TrimSpace shardID) offset offset 0 false [].

(** The loop over the events: what is returned, and the next offset. *)
Fixpoint page (events : list CDCEvent) (offset limit : Z) (out : list CDCEvent) (next : Z) : list CDCEvent * Z :=
  match events with
  | [] => (out, next)
  | event :: events =>
      if bool_decide (Offset event <= offset) then page events offset limit out next
      else
        let out := out ++ [event] in
        if bool_decide (limit <= zlen out) then (out, Offset event) else page events offset limit out (Offset event)
  end.

Definition cdc_read (s : cdcStreamStore) (shardID : string) (offset limit : Z) : result CDCReadResult :=
  let shardID := TrimSpace shardID in
  if bool_decide (shardID = "") then Err (ErrNew "cdc shard id required")
  else
    let limit := normalizeCDCReadLimit limit in
    match streams s !! shardID with
    | None => Err ErrShardNotFound
    | Some copied =>
        match copied with
        | [] => Ok (emptyCDCReadResult shardID offset limit)
        | first :: _ =>
            let oldest := Offset first in
            let dropped := bool_decide (0 < oldest /\ u64 (offset + 1) < oldest) in
            let '(events, next) := page copied offset limit [] offset in
            Ok (mkReadResult shardID offset next oldest dropped events)
        end
    end.

(** [recordCDCEvent], with the time [now]. *)
Definition recordCDCEvent (c : controlPlane) (op : string) (key value : bytes) (seq : Z) (tombstone : bool) (now : Z) (s : cdcStreamStore) : cdcStreamStore :=
  if bool_decide (seq = 0) then s
  else
    let shard := match shardIDForKey c key with
      | Some routed => if bool_decide (TrimSpace routed = "") then "default" else routed
      | None => "default"
      end in
    cdc_append (mkEvent seq shard op key value tombstone now) s.

Definition ReadCDCEvents {K} `{Consensus K} (n : node K) (s : cdcStreamStore) (shardID : string) (offset limit : Z) : result CDCReadResult :=
  let shardID := TrimSpace shardID in
  let ids := map ss_ID (shardsSnapshot n) in
  let shardID := match ids with [id] => if bool_decide (shardID = "") then id else shardID | _ => shardID end in
  let known := bool_decide (shardID ∈ ids) in
  if negb (bool_decide (shardID = "")) && negb known then Err ErrShardNotFound
  else match cdc_read s shardID offset limit with
  | Err e => if known && bool_decide (e = ErrShardNotFound) then Ok (emptyCDCReadResult shardID offset limit) else Err e
  | r => r
  end.

(** ** Pages of a stream *)

Definition ascending (l : list CDCEvent) : Prop := StronglySorted (fun a b => Offset a < Offset b) l.
Definition later (offset : Z) (l : list CDCEvent) : list CDCEvent := filter (fun e => offset < Offset e) l.

(** A reader that follows [NextOffset] until a page is empty. *)
Fixpoint follow (fuel : nat) (s : cdcStreamStore) (shardID : string) (offset limit : Z) : result (list CDCEvent) :=
  match fuel with
  | O => NoFuel
  | S fuel =>
      r ← cdc_read s shardID offset limit;
      match Events r with
      | [] => mret []
      | es => rest ← follow fuel s shardID (NextOffset r) limit; mret (es ++ rest)
      end
  end.

Lemma page_spec limit offset events : forall out next, 0 < limit -> zlen out < limit ->
  page events offset limit out next =
  let new := take (Z.to_nat (limit - zlen out)) (later offset events) in (out ++ new, default next (Offset <$> last new)).
Proof.
  unfold later. induction events as [|e es IH]; intros out next Hl Ho; cbn [page].
  - rewrite filter_nil, take_nil. cbn. by rewrite app_nil_r.
  - rewrite filter_cons. case_bool_decide as Hle.
    + rewrite decide_False by lia. by apply IH.
    + rewrite decide_True by lia. unfold zlen in *. rewrite length_app. cbn [length]. replace (Z.to_nat (limit - Z.of_nat (length out))) with (S (Z.to_nat (limit - Z.of_nat (length out + 1)))) by lia.
      cbn [take]. case_bool_decide as Hfull.
      * replace (Z.to_nat (limit - Z.of_nat (length out + 1))) with 0%nat by lia. by rewrite take_0.
      * rewrite IH by (rewrite ?length_app; cbn [length]; lia). cbn zeta. rewrite length_app, <- app_assoc. cbn [length app].
        f_equal. rewrite last_cons. by destruct (last (take _ _)).
Qed.

Lemma normalize_positive limit : 0 < normalizeCDCReadLimit limit <= maxCDCReadLimit.
Proof. unfold normalizeCDCReadLimit, defaultCDCReadLimit, maxCDCReadLimit. repeat case_bool_decide; lia. Qed.

Lemma later_idemp a b l : a <= b -> later b (later a l) = later b l.
Proof. intros Hab. unfold later. rewrite list_filter_filter. apply list_filter_iff. intros e. lia. Qed.

Lemma ascending_later offset l : ascending l -> ascending (later offset l).
Proof.
  induction 1 as [|e l Hs IH Hf]; unfold later in *; [constructor|]. rewrite filter_cons. case_decide; [|done]. constructor; [done|].
  rewrite Forall_forall in *. intros x [_ Hx]%list_elem_of_filter. by apply Hf.
Qed.

Lemma later_below offset l : Forall (fun e => Offset e <= offset) l -> later offset l = [].
Proof. induction 1 as [|e l He _ IH]; [done|]. unfold later in *. rewrite filter_cons, decide_False by lia. done. Qed.

Lemma later_all offset l : Forall (fun e => offset < Offset e) l -> later offset l = l.
Proof. induction 1 as [|e l He _ IH]; [done|]. unfold later in *. rewrite filter_cons, decide_True by lia. by f_equal. Qed.

Lemma later_app offset l k : later offset (l ++ k) = later offset l ++ later offset k.
Proof. apply filter_app. Qed.

Lemma ascending_split a e d : ascending (a ++ e :: d) -> later (Offset e) (a ++ e :: d) = d.
Proof.
  intros H. unfold ascending in H. apply StronglySorted_app in H as (H1 & _ & H2). apply StronglySorted_inv in H2 as [_ H2].
  rewrite later_app, (later_below _ a), (later_app _ [e] d : later _ (e :: d) = _); [|rewrite Forall_forall; intros x Hx; specialize (H1 x e Hx ltac:(by left)); lia].
  rewrite (later_below _ [e]) by (repeat constructor; lia). by rewrite later_all.
Qed.

(** What is behind a page of an ordered stream. *)
Lemma later_next offset l k e : ascending l -> last (take k (later offset l)) = Some e ->
  later (Offset e) l = drop k (later offset l) /\ offset < Offset e.
Proof.
  intros Hl He. apply last_Some in He as [a Ea]. pose proof (ascending_later offset l Hl) as Hs. pose proof (take_drop k (later offset l)) as E.
  rewrite Ea, <- app_assoc in E. cbn in E. assert (Ho : offset < Offset e).
  { assert (He : e ∈ later offset l) by (rewrite <- E; set_solver). by apply list_elem_of_filter in He as [? _]. }
  split; [|done]. rewrite <- (later_idemp offset) by lia. rewrite <- E at 1. apply ascending_split. by rewrite E.
Qed.

Lemma cdc_read_stream s shard offset limit l : TrimSpace shard <> "" -> streams s !! TrimSpace shard = Some l ->
  exists r, cdc_read s shard offset limit = Ok r /\ Events r = take (Z.to_nat (normalizeCDCReadLimit limit)) (later offset l) /\
    NextOffset r = default offset (Offset <$> last (Events r)) /\
    DroppedBefore r = match l with [] => false | e :: _ => bool_decide (0 < Offset e /\ u64 (offset + 1) < Offset e) end.
Proof.
  intros Hs Hl. unfold cdc_read. rewrite bool_decide_false by done. rewrite Hl. pose proof (normalize_positive limit).
  destruct l as [|e l]; [eexists; split; [done|]; cbn; by rewrite take_nil|]. rewrite page_spec by (unfold zlen; cbn [length]; lia). eexists. split; [done|]. cbn [Events NextOffset DroppedBefore app].
  unfold zlen. cbn [length]. rewrite Z.sub_0_r. done.
Qed.

Lemma follow_spec fuel s shard limit l : forall offset, TrimSpace shard <> "" -> streams s !! TrimSpace shard = Some l -> ascending l ->
  (length (later offset l) < fuel)%nat -> follow fuel s shard offset limit = Ok (later offset l).
Proof.
  induction fuel as [|fuel IH]; intros offset Hs Hl Ha Hf; [lia|]. cbn [follow]. destruct (cdc_read_stream s shard offset limit l Hs Hl) as (r & Er & Ev & En & _).
  rewrite Er. cbn. pose proof (normalize_positive limit) as Hn. set (k := Z.to_nat (normalizeCDCReadLimit limit)) in *. assert (Hk : (0 < k)%nat) by lia. clearbody k.
  destruct (Events r) as [|e0 es] eqn:E0.
  - destruct (later offset l) as [|x xs]; [done|]. by destruct k; [lia|].
  - destruct (last (e0 :: es)) as [e|] eqn:Ee; [|by apply last_None in Ee]. cbn in En. rewrite En. rewrite Ev in Ee. destruct (later_next offset l k e Ha Ee) as [Hd Ho].
    assert (Hlen : length (later offset l) = (length (e0 :: es) + length (drop k (later offset l)))%nat) by (rewrite Ev, <- length_app, take_drop; done).
    rewrite IH by (try done; rewrite Hd; cbn [length] in Hlen; lia). cbn. f_equal. change (e0 :: es ++ later (Offset e) l) with ((e0 :: es) ++ later (Offset e) l).
    by rewrite Ev, Hd, take_drop.
Qed.

(** ** A stream keeps the last events *)

(** An event as it is stored, and the events of a shard. *)
Definition stored_event (e : CDCEvent) : CDCEvent :=
  mkEvent (Offset e) (TrimSpace (ev_ShardID e)) (Operation e) (ev_Key e) (ev_Value e) (ev_Tombstone e) (CommittedAt e).
Definition sent_to (shard : string) (es : list CDCEvent) : list CDCEvent :=
  stored_event <$> filter (fun e => TrimSpace (ev_ShardID e) = shard /\ Offset e <> 0) es.

Definition cdc_appends (es : list CDCEvent) (s : cdcStreamStore) : cdcStreamStore := fold_left (fun s e => cdc_append e s) es s.

Lemma cdc_append_stream shard l e s : shard <> "" -> 0 < capacity s ->
  default [] (streams s !! shard) = drop (length l - Z.to_nat (capacity s)) l ->
  let s' := cdc_append e s in let l' := l ++ sent_to shard [e] in
  capacity s' = capacity s /\ default [] (streams s' !! shard) = drop (length l' - Z.to_nat (capacity s)) l'.
Proof.
  intros Hs Hc Hl. unfold cdc_append, sent_to. cbn zeta. fold (stored_event e). change (Offset (stored_event e)) with (Offset e). rewrite filter_cons, filter_nil.
  case_bool_decide as Hskip; [rewrite decide_False by naive_solver; cbn; by rewrite app_nil_r|]. split; [done|]. cbn [streams].
  destruct (decide (TrimSpace (ev_ShardID e) = shard)) as [E|E].
  - rewrite decide_True by naive_solver. rewrite E, lookup_insert_eq. cbn [default fmap list_fmap]. change (default [] (Some ?x)) with x. rewrite Hl.
    assert (Hcz : capacity s = Z.of_nat (Z.to_nat (capacity s))) by lia. set (c := Z.to_nat (capacity s)) in *. clearbody c. unfold zlen, id. rewrite !length_app, length_drop. cbn [length]. case_bool_decide as Hover.
    + rewrite drop_app_le by (rewrite length_drop; lia). rewrite drop_drop, drop_app_le by lia. f_equal. f_equal. lia.
    + rewrite drop_app_le by lia. f_equal. f_equal. lia.
  - rewrite decide_False by naive_solver. rewrite lookup_insert_ne by done. cbn. by rewrite app_nil_r.
Qed.

Lemma cdc_appends_stream shard es : forall l s, shard <> "" -> 0 < capacity s ->
  default [] (streams s !! shard) = drop (length l - Z.to_nat (capacity s)) l ->
  let l' := l ++ sent_to shard es in default [] (streams (cdc_appends es s) !! shard) = drop (length l' - Z.to_nat (capacity s)) l'.
Proof.
  induction es as [|e es IH]; intros l s Hs Hc Hl; cbn; [by rewrite app_nil_r|]. destruct (cdc_append_stream shard l e s Hs Hc Hl) as [E1 E2].
  specialize (IH (l ++ sent_to shard [e]) (cdc_append e s) Hs ltac:(rewrite E1; done)). rewrite E1 in IH. specialize (IH E2). cbn zeta in IH.
  replace ((l ++ sent_to shard [e]) ++ sent_to shard es) with (l ++ sent_to shard (e :: es)) in IH; [exact IH|].
  rewrite <- app_assoc. f_equal. unfold sent_to. rewrite <- fmap_app. f_equal. by rewrite <- filter_app.
Qed.

Lemma cdc_appends_capacity es : forall s, capacity (cdc_appends es s) = capacity s.
Proof. induction es as [|e es IH]; intros s; cbn; [done|]. rewrite IH. unfold cdc_append. by case_bool_decide. Qed.

(** C40. No silent loss: when the events of a shard are recorded in the order
    of their offsets, a reader that starts at any offset and follows
    [NextOffset] gets each retained event behind it exactly once and in
    order, in pages of at most 1000, and reaches an empty page; and unless
    its first page said [DroppedBefore], it gets every event that was ever
    recorded behind the offset, although the stream keeps only the last
    ones. *)
Theorem cdc_pages_deliver cap es shard offset limit fuel :
  let s := cdc_appends es (newCDCStreamStore cap) in let sent := sent_to (TrimSpace shard) es in
  TrimSpace shard <> "" -> sent <> [] -> ascending sent -> 0 <= offset < 2 ^ 64 -> (length sent < fuel)%nat ->
  exists r got, cdc_read s shard offset limit = Ok r /\ zlen (Events r) <= maxCDCReadLimit /\ follow fuel s shard offset limit = Ok got /\
    got = later offset (drop (length sent - Z.to_nat (capacity s)) sent) /\ (DroppedBefore r = false -> got = later offset sent).
Proof.
  intros s sent Hs Hne Ha Ho Hf. set (c := capacity (newCDCStreamStore cap)).
  assert (Hc : 0 < c) by (unfold c, newCDCStreamStore, defaultCDCMaxEventsPerShard; cbn; case_bool_decide; lia).
  assert (Hst : default [] (streams s !! TrimSpace shard) = drop (length sent - Z.to_nat c) sent) by (by apply (cdc_appends_stream (TrimSpace shard) es [] (newCDCStreamStore cap))).
  assert (Hcs : capacity s = c) by apply cdc_appends_capacity. clearbody c. set (kept := drop (length sent - Z.to_nat c) sent) in *. assert (Hkept : kept <> []).
  { intros E. apply (f_equal length) in E. unfold kept in E. rewrite length_drop in E. destruct sent; [done|]. cbn [length] in E. lia. }
  destruct (streams s !! TrimSpace shard) as [l|] eqn:El; [|done]. change (l = kept) in Hst. subst l. rewrite Hcs. fold kept.
  assert (Hak : ascending kept).
  { unfold ascending in *. rewrite <- (take_drop (length sent - Z.to_nat c) sent) in Ha. by apply StronglySorted_app in Ha as (_ & _ & ?). }
  destruct (cdc_read_stream s shard offset limit kept Hs El) as (r & Er & Ev & _ & Ed). exists r, (later offset kept).
  assert (Hlen : (length (later offset kept) <= length sent)%nat) by (etrans; [apply length_filter|]; unfold kept; rewrite length_drop; lia).
  split_and!; [done| |apply follow_spec; try done; lia|done|].
  - rewrite Ev. unfold zlen. rewrite length_take. pose proof (normalize_positive limit). lia.
  - intros Hd. rewrite Hd in Ed. rewrite <- (take_drop (length sent - Z.to_nat c) sent) at 1. fold kept. rewrite later_app, (later_below offset (take _ _)); [done|].
    destruct kept as [|e0 kept'] eqn:Ek; [done|]. symmetry in Ed. apply bool_decide_eq_false in Ed.
    assert (Hpos : 0 < Offset e0 -> Offset e0 <= offset + 1).
    { intros Hp. pose proof (Z.mod_le (offset + 1) (2 ^ 64) ltac:(lia) ltac:(lia)) as Hm. unfold u64 in Ed. lia. }
    unfold ascending in Ha. rewrite <- (take_drop (length sent - Z.to_nat c) sent) in Ha. fold kept in Ha. rewrite Ek in Ha. apply StronglySorted_app in Ha as (Ha & _ & _).
    rewrite Forall_forall. intros x Hx. specialize (Ha x e0 Hx ltac:(by left)). cbn in Ha. destruct (decide (0 < Offset e0)); [specialize (Hpos ltac:(done))|]; lia.
Qed.

Lemma cdc_pages_deliver_witness :
  let ev n := mkEvent n "s" "put" [] [] false 0 in let s := cdc_appends [ev 3; ev 5; ev 6] (newCDCStreamStore 2) in
  follow 4 s "s" 4 1 = Ok [ev 5; ev 6] /\ exists r, cdc_read s "s" 4 1 = Ok r /\ DroppedBefore r = false.
Proof.
  intros ev s. destruct (cdc_pages_deliver 2 [ev 3; ev 5; ev 6] "s" 4 1 4) as (r & got & H1 & H2 & H3 & H4 & H5).
  - discriminate.
  - discriminate.
  - repeat constructor.
  - done.
  - vm_compute. lia.
  - split; [rewrite H4 in H3; exact H3|]. exists r. split; [exact H1|]. vm_compute in H1. by injection H1 as <-.
Defined.

(** Nothing was dropped, and the first page says so all the same: offsets are
    numbers of the whole commit log. *)
Lemma dropped_before_overcautious :
  let ev n := mkEvent n "s" "put" [] [] false 0 in
  exists r, cdc_read (cdc_appends [ev 5] (newCDCStreamStore 0)) "s" 0 1 = Ok r /\ Events r = [ev 5] /\ DroppedBefore r = true.
Proof. eexists. split; [vm_compute; reflexivity|done]. Qed.

(** Writers of a node with the local commit log: the number of a write is
    taken under [commitMu], and its event is recorded after [commitMu] is
    released, so an event waits while later ones are recorded. *)
Record writers := mkWriters { next_seq : Z; waiting : list Z; recorded : cdcStreamStore }.

Inductive writers_step (shard : string) : writers -> writers -> Prop :=
| WriterCommits w : writers_step shard w (mkWriters (next_seq w + 1) (waiting w ++ [next_seq w]) (recorded w))
| WriterRecords w before seq behind : waiting w = before ++ seq :: behind ->
    writers_step shard w (mkWriters (next_seq w) (before ++ behind) (cdc_append (mkEvent seq shard "put" [] [] false 0) (recorded w))).

(** Two writers at once: the event 2 is recorded behind the event 3, and a
    reader that follows [NextOffset] never gets it, with no sign of it. *)
Lemma late_event_lost :
  exists w, rtc (writers_step "s") (mkWriters 1 [] (newCDCStreamStore 0)) w /\ waiting w = [] /\
    (map Offset <$> follow 3 (recorded w) "s" 0 1) = Ok [1; 3] /\ Forall (fun offset => (DroppedBefore <$> cdc_read (recorded w) "s" offset 1) = Ok false) [0; 1; 3].
Proof.
  eexists. split.
  - eapply rtc_l; [apply WriterCommits|]. eapply rtc_l; [by apply (WriterRecords _ _ [] 1 [])|]. do 2 (eapply rtc_l; [apply WriterCommits|]).
    eapply rtc_l; [by apply (WriterRecords _ _ [2] 3 [])|]. eapply rtc_l; [by apply (WriterRecords _ _ [] 2 [])|]. constructor.
  - split; [done|]. split; [vm_compute; reflexivity|]. repeat (apply Forall_cons_2; [vm_compute; reflexivity|]). constructor.
Qed.
