(* ===== verification/Replica.v ===== *)
(** * A node with the replicated commit log ([commitlog_apply.go],
      [commitlog_ingress.go], [commitlog_tick.go], [write_service.go],
      [commitlog.go])

    The raft commit log, the control plane, the storage engine and the change
    events of one node: committed entries are applied to the engine and to
    the control plane in the order of the log, by whichever call drains it,
    and a proposal is answered when its entry was applied.  The state of the
    control plane is that of [ControlPlane], with the other parts of the node
    in the place of its commit log. *)

From Stdlib Require Import ZArith Lia.
From stdpp Require Import base list strings gmap.
From S2P Require Import Prelude Iofs SstFormat Memtable TableSet Compaction Handle Manifest CompactionRun LsmTree Engine Bootstrap GoStrings ControlPlane RaftLog Cdc.
Local Open Scope Z_scope.

Record committedApply := mkApply { cursor : Z; failure : option error; stopped : bool; results : gmap Z error }.

(** The parts of a node behind its control plane. *)
Record parts (N E : Type) := mkParts {
  n_raft : etcdRaft N;
  n_apply : committedApply;
  n_engine : E;
  n_cdc : cdcStreamStore;
  n_commitErr : option error;
  n_closing : bool;
  n_peerClosing : bool
}.
Arguments mkParts {N E} _ _ _ _ _ _ _.
Arguments n_raft {N E} _.
Arguments n_apply {N E} _.
Arguments n_engine {N E} _.
Arguments n_cdc {N E} _.
Arguments n_commitErr {N E} _.
Arguments n_closing {N E} _.
Arguments n_peerClosing {N E} _.

Section Updates.
Context {N E : Type}.
Implicit Types p : parts N E.

Definition with_raft c p : parts N E := mkParts c (n_apply p) (n_engine p) (n_cdc p) (n_commitErr p) (n_closing p) (n_peerClosing p).
Definition with_apply a p : parts N E := mkParts (n_raft p) a (n_engine p) (n_cdc p) (n_commitErr p) (n_closing p) (n_peerClosing p).
Definition with_engine (e : E) p : parts N E := mkParts (n_raft p) (n_apply p) e (n_cdc p) (n_commitErr p) (n_closing p) (n_peerClosing p).
Definition with_cdc s p : parts N E := mkParts (n_raft p) (n_apply p) (n_engine p) s (n_commitErr p) (n_closing p) (n_peerClosing p).
Definition with_commitErr e p : parts N E := mkParts (n_raft p) (n_apply p) (n_engine p) (n_cdc p) e (n_closing p) (n_peerClosing p).
Definition with_closing b p : parts N E := mkParts (n_raft p) (n_apply p) (n_engine p) (n_cdc p) (n_commitErr p) b (n_peerClosing p).
Definition with_peerClosing b p : parts N E := mkParts (n_raft p) (n_apply p) (n_engine p) (n_cdc p) (n_commitErr p) (n_closing p) b.
End Updates.

(** [translateCommitLogError] *)
Definition translateCommitLogError (e : error) : error := if bool_decide (e = ErrNotLeader) then commitLogNotLeader else e.
Definition translated {A} (r : result A) : result A := match r with Err e => Err (translateCommitLogError e) | r => r end.

Section Replica.
Context {T H M W : Type} `{MemTable T} `{TableHandle H} `{Storage H M} `{WriteAheadLog W}.
Context (baseFactory : T) (mtLimit FlushQueueSize : Z).
Context {N Msg : Type} `{RaftLib N Msg}.
Context (marshalProposal : raftCommitProposal -> bytes) (unmarshalProposal : bytes -> result raftCommitProposal).
Context (marshalDisk : raftDiskState -> bytes) (raftPath : string) (raftAncestors : nat).
Context (hasTransport : bool) (Send : list PeerMessage -> etcdRaft N -> option send_error * etcdRaft N) (wait : Z -> etcdRaft N -> etcdRaft N).
Context (growslice : nat -> nat -> nat) (marshalIndent : controlPlaneState -> bytes) (statePath : string) (ancestors : nat).
(** Whether the pool of memtables hands out a used one, and the time, when
    the entry of an index is applied. *)
Context (pool : Z -> bool) (clock : Z -> Z).

Abbreviation engine := (LSM (T := T) (H := H) (M := M) (W := W)).
Abbreviation replica := (node (parts N engine)).

Definition modify_parts (f : parts N engine -> parts N engine) : SE replica unit := modify (fun s => mkNode (cp s) (disk s) (f (consensus s))).

Definition on_engine {A} (m : SE engine A) : SE replica A := fun s =>
  let '(r, e) := m (n_engine (consensus s)) in (r, mkNode (cp s) (disk s) (with_engine e (consensus s))).

(** A call of the raft commit log, with the looks its context has. *)
Definition on_raft {A} (m : SE (etcdRaft N * list bool) A) (looks : list bool) : SE replica A := fun s =>
  let '(r, (c, _)) := m (n_raft (consensus s), looks) in (r, mkNode (cp s) (disk s) (with_raft c (consensus s))).

(** [builtinCommitLogConsensus] over raft, for the control plane; [nonce] and
    [looks] are those of the call. *)
Definition raft_consensus (nonce : result bytes) (looks : list bool) : Consensus (parts N engine) := {|
  CommitControl := fun m p =>
    let '(r, (c, _)) := raft_CommitControl marshalProposal unmarshalProposal marshalDisk raftPath raftAncestors hasTransport Send wait nonce m (n_raft p, looks) in
    (translated r, with_raft c p);
  builtin := fun _ => true;
  Provider := fun _ => CommitLogProviderEtcdRaft;
  RuntimeStatus := fun p => raft_RuntimeStatus (n_raft p)
|}.
#[local] Existing Instance raft_consensus | 10.

(** ** Application of committed entries (commitlog_apply.go) *)

Definition isClosing (p : parts N engine) : bool := n_closing p.

(** The effect of one committed entry: its index, and its error, which may be
    a durable rejection. *)
Inductive effect := Done (index : Z) | Reject (index : Z) (cause : error) | Failed (e : error).

Definition apply_entry (item : RecoveredEntry) : SE replica effect :=
  match rec_Data item, rec_Control item with
  | Some entry, None =>
      let index := Commit_Index (dc_Commit entry) in
      err ← catch (on_engine (applyCommittedData baseFactory mtLimit FlushQueueSize entry (pool index)));
      match err with
      | Some e => mret (Failed e)
      | None =>
          s ← get;
          let m := dc_Mutation entry in
          _ ← modify_parts (fun p => with_cdc (recordCDCEvent (cp s) (dm_Kind m) (dm_Key m) (dm_Value m) (dc_Seq entry) (bool_decide (dm_Kind m = "delete")) (clock index) (n_cdc p)) p);
          mret (Done index)
      end
  | None, Some entry =>
      let index := Commit_Index (cc_Commit entry) in
      fun s => match applyCommittedControlFromLog growslice marshalIndent statePath ancestors entry s with
        | (Ok (Rejected cause), s) => (Ok (Reject index cause), s)
        | (Ok _, s) => (Ok (Done index), s)
        | (Err e, s) => (Ok (Failed e), s)
        | (Panic, s) => (Panic, s)
        | (NoFuel, s) => (NoFuel, s)
        end
  | _, _ => mret (Failed (ErrNew "invalid committed entry"))
  end.

Definition advance (index : Z) (rejected : option error) (a : committedApply) : committedApply :=
  mkApply index (failure a) (stopped a) (match rejected with Some e => <[index := e]> (results a) | None => results a end).

Fixpoint drain_entries (items : list RecoveredEntry) : SE replica unit :=
  match items with
  | [] => mret tt
  | item :: items =>
      r ← apply_entry item;
      match r with
      | Done index => _ ← modify_parts (fun p => with_apply (advance index None (n_apply p)) p); drain_entries items
      | Reject index e => _ ← modify_parts (fun p => with_apply (advance index (Some e) (n_apply p)) p); drain_entries items
      | Failed e =>
          _ ← modify_parts (fun p => let a := n_apply p in with_apply (mkApply (cursor a) (Some e) (stopped a) (results a)) p);
          throw e
      end
  end.

Definition drain (target : Z) : SE replica applied :=
  s ← get;
  let a := n_apply (consensus s) in
  if stopped a || isClosing (consensus s) then throw ErrClosed
  else match failure a with
  | Some e => throw e
  | None =>
      _ ← drain_entries (CommittedEntriesAfter (n_raft (consensus s)) (cursor a));
      s ← get;
      let a := n_apply (consensus s) in
      if bool_decide (cursor a < target) then throw (ErrNew "committed entry not available")
      else mret (match results a !! target with Some e => Rejected e | None => Applied end)
  end.

(** [drain] where only its error matters. *)
Definition drain_err (target : Z) : SE replica unit :=
  r ← drain target;
  match r with Rejected e => throw e | _ => mret tt end.

Definition apply_status : SE replica unit :=
  s ← get;
  let a := n_apply (consensus s) in
  if stopped a || isClosing (consensus s) then throw ErrClosed
  else match failure a with Some e => throw e | None => mret tt end.

Definition quiesce : SE replica unit :=
  modify_parts (fun p => let a := n_apply p in with_apply (mkApply (cursor a) (failure a) true (results a)) p).

(** The cursor behind the history that recovery has applied. *)
Fixpoint last_cursor (items : list RecoveredEntry) (cursor : Z) : Z :=
  match items with
  | [] => cursor
  | item :: items =>
      let cursor := match rec_Data item with Some e => Commit_Index (dc_Commit e) | None => cursor end in
      last_cursor items (match rec_Control item with Some e => Commit_Index (cc_Commit e) | None => cursor end)
  end.

Definition initCommittedApply : SE replica unit :=
  modify_parts (fun p => with_apply (mkApply (last_cursor (CommittedEntriesAfter (n_raft p) 0) 0) None false ∅) p).

(** ** Recovery (commitlog.go) *)

Fixpoint recover_entries (items : list RecoveredEntry) : SE replica unit :=
  match items with
  | [] => mret tt
  | item :: items =>
      s ← get;
      _ ← match rec_Data item with
          | Some entry =>
              if bool_decide (l_seq (n_engine (consensus s)) < dc_Seq entry) then on_engine (recoverCommittedData baseFactory mtLimit entry (pool (dc_Seq entry)))
              else mret tt
          | None => mret tt
          end;
      _ ← match rec_Control item with
          | Some entry => _ ← recoverCommittedControl growslice marshalIndent statePath ancestors entry; mret tt
          | None => mret tt
          end;
      recover_entries items
  end.

Definition recoverEngine : SE replica unit :=
  s ← get;
  recover_entries (RecoveredEntries (n_raft (consensus s))).

(** The part of [New] behind the raft commit log and the control plane: the
    engine starts from its files, and takes what it misses from the log. *)
Context `{BootStorage H M} `{ReplayLog W} (replayBatchSize : Z) (autoRepair missingIgnore dropCorrupt : bool).

Definition replica_New (reuse : bool) (wal : W) (store : M) (c : etcdRaft N) (control : controlPlane) (fs : FS) : result unit * replica :=
  let '(r, e) := New baseFactory mtLimit replayBatchSize autoRepair missingIgnore dropCorrupt reuse wal store in
  let s := mkNode control fs (mkParts c (mkApply 0 None false ∅) e (newCDCStreamStore 0) None false false) in
  match r with
  | Ok _ => (_ ← recoverEngine; initCommittedApply) s
  | r => (r, s)
  end.

(** ** Proposals and messages *)

Definition beginCommitLogOperation : SE replica unit :=
  s ← get;
  if n_peerClosing (consensus s) || isClosing (consensus s) then throw ErrClosed else mret tt.

Definition latchCommitError (e : option error) : SE replica unit := modify_parts (with_commitErr e).

(** [applyProposedData], and the error of it. *)
Definition applyProposedData (entry : DataCommittedEntry) : SE replica unit := drain_err (Commit_Index (dc_Commit entry)).

(** The application of a committed mutation, with the latch of its error. *)
Definition settle_data (entry : DataCommittedEntry) : SE replica Z :=
  err ← catch (applyProposedData entry);
  _ ← latchCommitError err;
  match err with Some e => throw e | None => mret (dc_Seq entry) end.

(** The proposal of a mutation, and its application. *)
Definition propose_data (nonce : result bytes) (looks : list bool) (m : DataMutation) : SE replica Z := fun s =>
  match on_raft (raft_CommitData marshalProposal unmarshalProposal marshalDisk raftPath raftAncestors hasTransport Send wait nonce m) looks s with
  | (Ok entry, s) => settle_data entry s
  | (Err e, s) =>
      let e := translateCommitLogError e in
      (_ ← (if isPreProposalRejection e then mret tt else latchCommitError (Some e)); throw e) s
  | (Panic, s) => (Panic, s)
  | (NoFuel, s) => (NoFuel, s)
  end.

(** [commitPut] and [commitDelete] *)
Definition commit_data (nonce : result bytes) (looks : list bool) (m : DataMutation) (tombstone : bool) : SE replica Z :=
  s ← get;
  _ ← lift (wal_ValidateEntry (l_wal (n_engine (consensus s))) (mkEntry (dm_Key m) (dm_Value m) tombstone 0));
  _ ← beginCommitLogOperation;
  match n_commitErr (consensus s) with
  | Some e => throw e
  | None => _ ← apply_status; propose_data nonce looks m
  end.

Definition replica_Put (nonce : result bytes) (looks : list bool) (key value : bytes) : SE replica Z :=
  s ← get;
  if isClosing (consensus s) then throw ErrClosed
  else if bool_decide (key = []) then throw ErrWALEmptyKey
  else if bool_decide (value = []) then throw ErrWALEmptyValue
  else
    _ ← lift (allowWrite (H := raft_consensus nonce looks) s key);
    commit_data nonce looks (mkDataMutation "put" key value) false.

Definition replica_Delete (nonce : result bytes) (looks : list bool) (key : bytes) : SE replica Z :=
  s ← get;
  if isClosing (consensus s) then throw ErrClosed
  else if bool_decide (key = []) then throw ErrWALEmptyKey
  else
    _ ← lift (allowWrite (H := raft_consensus nonce looks) s key);
    commit_data nonce looks (mkDataMutation "delete" key []) true.

(** A call of the commit log and then a drain, whose error comes first. *)
Definition then_drain (m : SE replica unit) : SE replica unit :=
  err ← catch m;
  _ ← drain_err 0;
  match err with Some e => throw e | None => mret tt end.

Definition replica_HandlePeerMessages (looks : list bool) (messages : list PeerMessage) : SE replica unit :=
  if bool_decide (messages = []) then mret tt
  else
    _ ← beginCommitLogOperation;
    then_drain (on_raft (HandlePeerMessages unmarshalProposal marshalDisk raftPath raftAncestors hasTransport Send messages) looks).

Definition tickCommitLog (looks : list bool) : SE replica unit :=
  _ ← beginCommitLogOperation;
  then_drain (on_raft (raft_Tick unmarshalProposal marshalDisk raftPath raftAncestors hasTransport Send) looks).

(** The control plane of the node applies its own proposals by a drain. *)
Definition replica_hooks : hooks (K := parts N engine) :=
  mkHooks (Some (fun entry => drain (Commit_Index (cc_Commit entry)))) (Some apply_status) (Some (_ ← beginCommitLogOperation; mret (mret tt))).

Definition replica_serve (nonce : result bytes) (looks : list bool) (r : request) : SE replica unit :=
  serve (H := raft_consensus nonce looks) growslice marshalIndent statePath ancestors replica_hooks r.

(** The part of [Close] before the last flush. *)
Definition close_admission : SE replica unit :=
  _ ← modify_parts (with_closing true);
  _ ← modify_parts (with_peerClosing true);
  quiesce.
End Replica.
