(* ===== verification/ReplicaSpec.v ===== *)
(** * Correctness of a replicated node

    What a node with the raft commit log holds is a prefix of the committed
    log: whichever calls propose, drain, flush and compact, in any order and
    with crashes and restarts between, reads answer from the data entries up
    to the cursor, nodes with the same log and cursor answer alike, an
    acknowledged write is in that prefix, and the change events are its last
    entries in order. *)

From Stdlib Require Import ZArith Lia Sorting.Sorted.
From stdpp Require Import base list strings gmap sorting.
From S2P Require Import Prelude Iofs SstFormat Memtable TableSet Compaction Handle Manifest CompactionRun LsmTree ViewMerge Engine EngineSpec Bootstrap Durable Recovery.
From S2P Require Import GoStrings ControlPlane ControlSpec ControlNode RaftLog RaftSpec Cdc Replica.
Local Open Scope Z_scope.

(** ** The committed log *)

Definition log_data (l : list raftCommittedProposal) : list Entry := omap (fun x => entry_of <$> rcp_Data x) l.

(** The entries up to an index. *)
Definition upto (k : Z) (l : list raftCommittedProposal) : list raftCommittedProposal := filter (fun x => entry_index x <= k) l.

Lemma log_data_app l k : log_data (l ++ k) = log_data l ++ log_data k.
Proof. apply omap_app. Qed.

Lemma data_entry x d : rcp_Data x = Some d -> log_data [x] = [entry_of d].
Proof. intros E. unfold log_data. cbn. by rewrite E. Qed.

(** A committed entry has a data or a control mutation, at its index. *)
Lemma entry_cases x : entry_ok x ->
  (exists d, rcp_Data x = Some d /\ rcp_Control x = None /\ Commit_Index (dc_Commit d) = entry_index x /\ dc_Seq d = entry_index x) \/
  (exists e, rcp_Control x = Some e /\ rcp_Data x = None /\ Commit_Index (cc_Commit e) = entry_index x).
Proof.
  intros [Hp (p & commit & E)]. unfold committedEntry in E. case_bool_decide; [destruct (rp_Control p); [|done]; injection E as <-; right; by eexists|].
  case_bool_decide; [|done]. destruct (rp_Data p); [|done]. injection E as <-. left. by eexists.
Qed.

Definition recovered (x : raftCommittedProposal) : RecoveredEntry := mkRecovered (rcp_Control x) (rcp_Data x).

Lemma after_index_spec k x : entry_ok x -> after_index k x = true <-> k < entry_index x.
Proof.
  intros Hx. unfold after_index. destruct (entry_cases x Hx) as [(d & E1 & E2 & <- & _)|(e & E1 & E2 & <-)]; rewrite E1, E2; cbn; rewrite ?orb_false_r;
    case_bool_decide; cbn; split; intros; first [done|lia].
Qed.

Lemma source_entries_after {N} (c : etcdRaft N) k : Forall entry_ok (committed c) ->
  CommittedEntriesAfter c k = map recovered (filter (fun x => k < entry_index x) (committed c)).
Proof.
  intros Hok. unfold CommittedEntriesAfter. f_equal. induction Hok as [|x l Hx _ IH]; [done|]. rewrite !filter_cons, IH.
  destruct (decide (k < entry_index x)) as [Hk|Hk]; [by rewrite decide_True by (by apply after_index_spec)|rewrite decide_False; [done|]].
  by rewrite after_index_spec.
Qed.

(** A sorted log splits at any index, and at any prefix. *)
Lemma log_split k a b : Forall (fun x => entry_index x <= k) a -> Forall (fun x => k < entry_index x) b ->
  upto k (a ++ b) = a /\ filter (fun x => k < entry_index x) (a ++ b) = b.
Proof.
  intros Ha Hb. unfold upto. rewrite !filter_app. split.
  - rewrite (list_filter_all _ a), (list_filter_none _ b), app_nil_r; [done|..]; intros x Hx; [rewrite Forall_forall in Hb; specialize (Hb x Hx); lia|].
    rewrite Forall_forall in Ha. by apply Ha.
  - rewrite (list_filter_none _ a), (list_filter_all _ b); [done|..]; intros x Hx; [rewrite Forall_forall in Hb; by apply Hb|].
    rewrite Forall_forall in Ha. specialize (Ha x Hx). lia.
Qed.

(** What proposers check of a mutation before they propose it. *)
Definition mut_ok {H M} `{StorageLaws H M} (x : raftCommittedProposal) : Prop :=
  forall d, rcp_Data x = Some d -> fits (entry_of d) /\ (dm_Kind (dc_Mutation d) = "delete"%string -> dm_Value (dc_Mutation d) = []).

(** What the change events show of a data entry. *)
Definition shown (d : DataCommittedEntry) : Z * string * bytes * bytes := (dc_Seq d, dm_Kind (dc_Mutation d), dm_Key (dc_Mutation d), dm_Value (dc_Mutation d)).
Definition log_events (l : list raftCommittedProposal) : list (Z * string * bytes * bytes) := omap (fun x => shown <$> rcp_Data x) l.
Definition event_shows (e : CDCEvent) : Z * string * bytes * bytes := (Offset e, Operation e, ev_Key e, ev_Value e).

(** ** Control entries *)

Section Control.
Context {K : Type} (grow : nat -> nat -> nat) (marshalIndent : controlPlaneState -> bytes) (statePath : string) (ancestors : nat).

Definition keeps_rest {A} (m : SE (node K) A) : Prop := forall s, consensus (snd (m s)) = consensus s.

Lemma rest_bind {A B} (m : SE (node K) A) (f : A -> SE (node K) B) : keeps_rest m -> (forall a, keeps_rest (f a)) -> keeps_rest (a ← m; f a).
Proof. intros Hm Hf s. specialize (Hm s). unfold mbind, SE_bind. destruct (m s) as [[a|e| |] s1]; cbn in *; [rewrite Hf|..]; done. Qed.
Lemma rest_catch {A} (m : SE (node K) A) : keeps_rest m -> keeps_rest (catch m).
Proof. intros Hm s. specialize (Hm s). unfold catch. by destruct (m s) as [[a|e| |] s1]. Qed.
Lemma rest_cp {A} (m : SE controlPlane A) : keeps_rest (on_cp m).
Proof. intros s. unfold on_cp. by destruct (m (cp s)). Qed.
Lemma rest_disk {A} (m : SE FS A) : keeps_rest (on_disk m).
Proof. intros s. unfold on_disk. by destruct (m (disk s)). Qed.

Lemma rest_save : keeps_rest (saveLocked marshalIndent statePath ancestors).
Proof. unfold saveLocked. case_bool_decide; [done|]. apply rest_bind; [done|]. intros s. apply rest_disk. Qed.
Lemma rest_rollback previous : keeps_rest (saveLockedWithRollback grow marshalIndent statePath ancestors previous).
Proof.
  apply rest_bind; [apply rest_catch, rest_save|]. intros [e|]; [|done]. apply rest_bind; [apply rest_catch, rest_cp|]. by intros [e'|].
Qed.

Lemma rest_control entry : keeps_rest (applyCommittedControlFromLog grow marshalIndent statePath ancestors entry).
Proof.
  unfold applyCommittedControlFromLog. apply rest_bind; [done|]. intros fp. apply rest_bind; [|done]. unfold applyCommittedControlMutation. case_bool_decide; [done|].
  apply rest_bind; [done|]. intros s. destruct (checkOperationPreconditionsLocked _ _ _) as [[]|e| |].
  - case_bool_decide; [|done]. apply rest_bind; [apply rest_cp|]. intros _. by apply rest_bind; [apply rest_rollback|].
  - apply rest_bind; [apply rest_catch, rest_cp|]. intros [e|]; repeat (apply rest_bind; [first [apply rest_cp|apply rest_rollback]|intros _]); done.
  - repeat (apply rest_bind; [first [apply rest_cp|apply rest_rollback]|intros _]); done.
  - done.
  - done.
Qed.

Context (Hpath : statePath <> "").

Lemma control_spec entry s : cp_wf (cp s) ->
  wpx (applyCommittedControlFromLog (K := K) grow marshalIndent statePath ancestors entry) (fun _ s' => cp_wf (cp s') /\ consensus s' = consensus s)
    (fun _ s' => cp_wf (cp s') /\ consensus s' = consensus s) s.
Proof.
  intros Hwf. assert (H : wpx (applyCommittedControlFromLog (K := K) grow marshalIndent statePath ancestors entry) (fun _ s' => cp_wf (cp s')) (fun _ s' => cp_wf (cp s')) s).
  - unfold applyCommittedControlFromLog. apply wpx_bind. set (m := cc_Mutation entry). unfold wpx at 1, lift.
    assert (Hfp : match mutation_fingerprint m with Ok fp => TrimSpace fp <> "" | Err _ => True | _ => False end)
      by (unfold mutation_fingerprint; repeat case_bool_decide; try done; apply TrimSpace_printable; unfold printable; decided).
    destruct (mutation_fingerprint m) as [fp|e| |]; [|done..]. apply wpx_bind.
    eapply wpx_mono; [apply (committed_spec grow marshalIndent statePath Hpath ancestors True entry _ fp (applyControlPayloadLocked grow) s Hwf Hfp)|..].
    + eapply wpx_mono; [apply (payload_ok grow m _ Hwf)|done..].
    + by apply payload_ok.
    + intros r s' Hr. apply wpx_ret. destruct r as [| |e]; [apply Hr|apply Hr|apply Hr].
    + intros e s' Hr. apply Hr.
  - pose proof (rest_control entry s) as Hk. unfold wpx in *. by destruct (applyCommittedControlFromLog _ _ _ _ _ s) as [[a|e| |] s'].
Qed.
End Control.

Lemma bind_two {S A B C D} (m1 : SE S A) (m2 : SE S B) (r : SE S D) (r1 : SE S C) (r2 : SE S D) :
  (forall s, r s = (_ ← r1; r2) s) -> forall s, (_ ← m1; _ ← m2; r) s = (_ ← (_ ← m1; _ ← m2; r1); r2) s.
Proof.
  intros E s. unfold mbind, SE_bind in *. destruct (m1 s) as [[a|e| |] s1]; try done. destruct (m2 s1) as [[b|e| |] s2]; try done.
Qed.

(** ** Nodes *)

Section Replica.
Context {T H M W : Type} `{MemTableLaws T} `{BL : BootLaws H M} `{DL : DurableLog W}.
Context (baseFactory : T) (mtLimit FlushQueueSize : Z) (Hbase : mt_rep baseFactory []) (Hlimit : 0 < mtLimit).
Context (planner : StrictLevelledPlanner) (fuel : nat) (replayBatchSize : Z) (autoRepair missingIgnore dropCorrupt : bool).
Context {N Msg : Type} `{RL : RaftLib N Msg}.
Context (unmarshalProposal : bytes -> result raftCommitProposal) (applied : N -> Z).
Context (growslice : nat -> nat -> nat) (marshalIndent : controlPlaneState -> bytes) (statePath : string) (Hpath : statePath <> "") (ancestors : nat).
Context (pool : Z -> bool) (clock : Z -> Z).

Abbreviation engine := (LSM (T := T) (H := H) (M := M) (W := W)).
Abbreviation replica := (node (parts N engine)).
Abbreviation raft_ok := (raft_ok unmarshalProposal applied).
Abbreviation grown := (grown (N := N)).
Abbreviation apply_entry := (apply_entry (N := N) baseFactory mtLimit FlushQueueSize growslice marshalIndent statePath ancestors pool clock).
Abbreviation drain_entries := (drain_entries (N := N) baseFactory mtLimit FlushQueueSize growslice marshalIndent statePath ancestors pool clock).
Abbreviation drain := (drain (N := N) baseFactory mtLimit FlushQueueSize growslice marshalIndent statePath ancestors pool clock).
Implicit Types s : replica.

Definition raft_of s : etcdRaft N := n_raft (consensus s).
Definition cursor_of s : Z := cursor (n_apply (consensus s)).
Definition engine_of s : engine := n_engine (consensus s).
Definition cdc_of s : cdcStreamStore := n_cdc (consensus s).

(** The engine holds the writes [acked]. *)
Definition holds (acked : list Entry) (e : engine) : Prop := exists G hist mrun iruns, eng_inv durable log_is G hist acked mrun iruns e.

(** The node has the effects of the entries [done], and no others. *)
Record effects (done : list raftCommittedProposal) s : Prop := mkEffects {
  ef_engine : holds (rev (log_data done)) (engine_of s);
  ef_wf : cp_wf (cp s);
  ef_cdc : exists before events, cdc_of s = cdc_appends events (newCDCStreamStore 0) /\ log_events done = before ++ map event_shows events
}.

Record applied_to (done rest : list raftCommittedProposal) s : Prop := mkAppliedTo {
  at_log : committed (raft_of s) = done ++ rest;
  at_done : Forall (fun x => entry_index x <= cursor_of s) done;
  at_rest : Forall (fun x => cursor_of s < entry_index x) rest;
  at_cursor : cursor_of s = 0 \/ exists x, x ∈ done /\ entry_index x = cursor_of s;
  at_effects : effects done s
}.

Record running s : Prop := mkRunning {
  ru_raft : raft_ok (raft_of s);
  ru_muts : Forall (mut_ok (H := H) (M := M)) (committed (raft_of s));
  ru_applied : exists done rest, applied_to done rest s
}.

Lemma log_seqs done : Forall entry_ok done -> forall e, e ∈ log_data done -> exists x, x ∈ done /\ Seq e = entry_index x.
Proof.
  intros Hok e He. apply list_elem_of_omap in He as (x & Hx & E). exists x. split; [done|]. rewrite Forall_forall in Hok.
  destruct (entry_cases x (Hok x Hx)) as [(d & E1 & _ & _ & E2)|(c & _ & E1 & _)]; rewrite E1 in E; [|done]. injection E as <-. exact E2.
Qed.

(** *** One entry *)

Lemma applied_data_spec acked (e : engine) d reuse :
  holds acked e -> (forall x, x ∈ acked -> Seq x < dc_Seq d) -> 0 < dc_Seq d -> fits (entry_of d) ->
  (dm_Kind (dc_Mutation d) = "delete"%string -> dm_Value (dc_Mutation d) = []) ->
  wpx (applyCommittedData baseFactory mtLimit FlushQueueSize d reuse) (fun _ e' => holds (entry_of d :: acked) e') (fun _ e' => holds acked e') e.
Proof.
  intros (G & hist & mrun & iruns & I) Hnew Hpos Hfit Hdel. assert (Hh : holds acked e) by (by exists G, hist, mrun, iruns). unfold applyCommittedData. case_bool_decide; [done|].
  assert (Happ : wpx (appendToLocalStore baseFactory mtLimit FlushQueueSize (entry_of d) reuse) (fun _ e' => holds (entry_of d :: acked) e') (fun _ e' => holds acked e') e).
  { pose proof (append_spec baseFactory mtLimit FlushQueueSize durable log_is Hbase Hlimit llaw_Append G hist acked mrun iruns e (entry_of d) reuse I Hnew Hpos Hfit) as Ha.
    unfold wpe, wpx in *. destruct (appendToLocalStore _ _ _ _ _ e) as [[a|err| |] e']; try done.
    - destruct Ha as (_ & _ & mrun' & iruns' & I'). by exists G, hist, mrun', iruns'.
    - destruct Ha as [I' _]. by exists G, hist, mrun, iruns. }
  assert (Ee : entry_of d = mkEntry (dm_Key (dc_Mutation d)) (dm_Value (dc_Mutation d)) (bool_decide (dm_Kind (dc_Mutation d) = "delete"%string)) (dc_Seq d)) by done.
  rewrite Ee in Happ at 1. destruct (decide (dm_Kind (dc_Mutation d) = "put"%string)) as [Ek|Ek]; [rewrite bool_decide_true by done; by rewrite Ek in Happ|].
  rewrite bool_decide_false by done. destruct (decide (dm_Kind (dc_Mutation d) = "delete"%string)) as [Ed|Ed]; [|by rewrite bool_decide_false].
  rewrite (bool_decide_true _ Ed), (Hdel Ed) in Happ. by rewrite bool_decide_true.
Qed.

Definition same_log s s' : Prop := raft_of s' = raft_of s /\ n_apply (consensus s') = n_apply (consensus s).

Lemma committed_entry_spec done x s : effects done s -> Forall entry_ok (done ++ [x]) -> mut_ok (H := H) (M := M) x -> Forall (fun y => entry_index y < entry_index x) done ->
  wpx (apply_entry (recovered x))
    (fun r s' => same_log s s' /\ match r with Done i | Reject i _ => i = entry_index x /\ effects (done ++ [x]) s' | Failed _ => effects done s' end) (fun _ _ => False) s.
Proof.
  intros E Hok Hmut Hlt. apply Forall_app in Hok as [Hok [Hx _]%Forall_cons]. destruct E as [E1 E2 (before & events & E3 & E4)].
  unfold Replica.apply_entry, recovered. cbn [rec_Data rec_Control].
  destruct (entry_cases x Hx) as [(d & Ed & Ec & Ei & Es)|(c & Ec & Ed & Ei)]; rewrite Ed, Ec.
  - destruct (Hmut d Ed) as [Hfit Hdel]. apply wpx_bind, wpx_catch. unfold wpx at 1, on_engine.
    pose proof (applied_data_spec (rev (log_data done)) (engine_of s) d (pool (Commit_Index (dc_Commit d))) E1) as Ha. unfold engine_of in Ha. unfold wpx in Ha.
    destruct (applyCommittedData _ _ _ d _ _) as [r e].
    assert (Hr : match r with Ok _ => holds (entry_of d :: rev (log_data done)) e | Err _ => holds (rev (log_data done)) e | _ => False end).
    { apply Ha; clear Ha; [|rewrite Es; apply Hx|done|done]. intros y Hy. apply (proj1 (elem_of_rev _ _)) in Hy. destruct (log_seqs done Hok y Hy) as (z & Hz & ->). rewrite Forall_forall in Hlt. rewrite Es. by apply Hlt. }
    destruct r as [u|err| |]; [|cbn; by split; [|split; [..|by exists before, events]]|done|done]. apply wpx_get, wpx_bind. unfold wpx at 1, modify_parts, modify. cbn [cp disk consensus]. apply wpx_ret.
    split; [done|]. split; [done|]. split; cbn [cp].
    + unfold engine_of. cbn [consensus with_cdc with_engine n_engine]. by rewrite log_data_app, rev_app_distr, (data_entry x d Ed).
    + done.
    + exists before. unfold cdc_of. cbn [consensus with_cdc with_engine n_cdc]. unfold recordCDCEvent. rewrite bool_decide_false by (rewrite Es; destruct Hx; lia). fold (cdc_of s). rewrite E3.
      set (ev := mkEvent _ _ _ _ _ _ _). exists (events ++ [ev]). split; [unfold cdc_appends; by rewrite fold_left_app|].
      unfold log_events. rewrite omap_app, map_app, app_assoc. fold (log_events done). rewrite E4. f_equal. cbn. by rewrite Ed.
  - pose proof (control_spec growslice marshalIndent statePath ancestors Hpath c s E2) as Hc. unfold wpx in *.
    destruct (applyCommittedControlFromLog _ _ _ _ c s) as [[r|e| |] s']; try done; destruct Hc as [Hw Hk].
    + assert (Hef : effects (done ++ [x]) s').
      { split; [unfold engine_of; rewrite Hk, log_data_app|done|]. 
        - unfold log_data at 2. cbn. rewrite Ed. by rewrite app_nil_r.
        - exists before, events. unfold cdc_of. rewrite Hk. split; [done|]. unfold log_events. rewrite omap_app. cbn. rewrite Ed. by rewrite app_nil_r. }
      assert (Hs : same_log s s') by (unfold same_log, raft_of; by rewrite Hk). by destruct r.
    + split; [unfold same_log, raft_of; by rewrite Hk|]. split; [unfold engine_of; by rewrite Hk|done|]. exists before, events. unfold cdc_of. by rewrite Hk.
Qed.

(** *** Drains *)

Definition log_ok s : Prop := StronglySorted index_lt (committed (raft_of s)) /\ Forall entry_ok (committed (raft_of s)) /\ Forall (mut_ok (H := H) (M := M)) (committed (raft_of s)).

Lemma sorted_middle done x rest : StronglySorted index_lt (done ++ x :: rest) ->
  Forall (fun y => entry_index y < entry_index x) done /\ Forall (fun y => entry_index x < entry_index y) rest.
Proof.
  intros Hs. apply StronglySorted_app in Hs as (Hl & _ & Hr). apply StronglySorted_inv in Hr as [_ Hr]. split; [|done].
  apply Forall_forall. intros y Hy. apply (Hl y x Hy). by left.
Qed.

Lemma drain_entries_spec rest : forall front s, applied_to front rest s -> log_ok s ->
  wpx (drain_entries (map recovered rest))
    (fun _ s' => raft_of s' = raft_of s /\ exists done' rest', applied_to done' rest' s') (fun _ s' => raft_of s' = raft_of s /\ exists done' rest', applied_to done' rest' s') s.
Proof.
  induction rest as [|x rest IH]; intros front s Ha Hlog; cbn [map Replica.drain_entries]; [apply wpx_ret; split; [done|by exists front, []]|].
  destruct Ha as [A1 A2 A3 A5 A4]. pose proof Hlog as (L1 & L2 & L3). rewrite A1 in L1, L2, L3. destruct (sorted_middle _ _ _ L1) as [Hlt Hgt].
  assert (Hok : Forall entry_ok (front ++ [x])) by (rewrite Forall_app in L2 |- *; destruct L2 as [? [? _]%Forall_cons]; split; [done|by constructor]).
  assert (Hmut : mut_ok (H := H) (M := M) x) by (apply Forall_app in L3 as [_ [? _]%Forall_cons]; done).
  apply wpx_bind. eapply wpx_mono; [apply (committed_entry_spec front x s A4 Hok Hmut Hlt)| |done]. intros r s1 [[Sr Sa] Hr].
  assert (Hnext : forall a, cursor a = entry_index x -> effects (front ++ [x]) s1 ->
    let s2 := mkNode (cp s1) (disk s1) (with_apply a (consensus s1)) in applied_to (front ++ [x]) rest s2 /\ log_ok s2 /\ raft_of s2 = raft_of s).
  { intros a Ea Hef s2. assert (Er : raft_of s2 = raft_of s) by exact Sr. split_and!; [|unfold log_ok; by rewrite Er|done]. split.
    - rewrite Er, A1. by rewrite <- app_assoc.
    - unfold cursor_of. cbn. rewrite Ea. apply Forall_app. split; [eapply Forall_impl; [exact Hlt|cbn; lia]|constructor; [lia|constructor]].
    - unfold cursor_of. cbn. rewrite Ea. exact Hgt.
    - right. exists x. unfold cursor_of. cbn. rewrite Ea. split; [set_solver|done].
    - by destruct Hef. }
  destruct r as [i|i e|e]; [destruct Hr as [-> Hef]..|].
  - apply wpx_bind. unfold wpx at 1, modify_parts, modify. destruct (Hnext (advance (entry_index x) None (n_apply (consensus s1))) eq_refl Hef) as (I1 & I2 & I3).
    eapply wpx_mono; [apply (IH _ _ I1 I2)|..]; intros ? s' [E1 E2]; (split; [by rewrite E1|done]).
  - apply wpx_bind. unfold wpx at 1, modify_parts, modify. destruct (Hnext (advance (entry_index x) (Some e) (n_apply (consensus s1))) eq_refl Hef) as (I1 & I2 & I3).
    eapply wpx_mono; [apply (IH _ _ I1 I2)|..]; intros ? s' [E1 E2]; (split; [by rewrite E1|done]).
  - apply wpx_bind. unfold wpx at 1, modify_parts, modify. cbn. split; [exact Sr|]. exists front, (x :: rest). split.
    + unfold raft_of. cbn. fold (raft_of s1). by rewrite Sr.
    + unfold cursor_of in *. cbn. by rewrite Sa.
    + unfold cursor_of in *. cbn. by rewrite Sa.
    + unfold cursor_of in *. cbn. by rewrite Sa.
    + by destruct Hr.
Qed.

Lemma running_log s : running s -> log_ok s.
Proof. intros [[_ (O1 & O2 & _)] Hm _]. done. Qed.

Lemma running_next s s' : running s -> raft_of s' = raft_of s -> (exists front rest, applied_to front rest s') -> running s'.
Proof. intros [R1 R2 _] E Ha. split; [by rewrite E|by rewrite E|done]. Qed.

Lemma committed_drain_spec target s : running s ->
  wpx (drain target) (fun _ s' => running s' /\ raft_of s' = raft_of s /\ target <= cursor_of s') (fun _ s' => running s' /\ raft_of s' = raft_of s) s.
Proof.
  intros Hr. pose proof Hr as [_ _ (front & rest & Ha)]. unfold Replica.drain. apply wpx_get. destruct (_ || _); [done|]. destruct (failure _); [done|].
  pose proof (running_log s Hr) as Hl. rewrite source_entries_after by apply Hl. fold (raft_of s) (cursor_of s). rewrite (at_log _ _ _ Ha).
  rewrite (proj2 (log_split _ _ _ (at_done _ _ _ Ha) (at_rest _ _ _ Ha))). apply wpx_bind.
  eapply wpx_mono; [apply (drain_entries_spec rest front s Ha Hl)|..].
  - intros ? s1 [E Ha1]. apply wpx_get. pose proof (running_next s s1 Hr E Ha1) as Hr1. case_bool_decide; [by cbn|]. apply wpx_ret. split_and!; [done|done|]. unfold cursor_of. lia.
  - intros ? s1 [E Ha1]. split; [by apply (running_next s)|done].
Qed.

(** *** Recovery *)

Abbreviation recover_entries := (recover_entries (N := N) baseFactory mtLimit growslice marshalIndent statePath ancestors pool).

Lemma recover_entries_app l k : forall s, recover_entries (l ++ k) s = (_ ← recover_entries l; recover_entries k) s.
Proof. induction l as [|x l IH]; intros s; [done|]. cbn [app Replica.recover_entries]. exact (bind_two _ _ _ _ _ IH s). Qed.

Lemma recover_control_spec e s : cp_wf (cp s) ->
  wpx (_ ← recoverCommittedControl growslice marshalIndent statePath ancestors e; mret tt) (fun _ s' => cp_wf (cp s') /\ consensus s' = consensus s)
    (fun _ s' => cp_wf (cp s') /\ consensus s' = consensus s) s.
Proof.
  intros Hwf. apply wpx_bind. unfold recoverCommittedControl. apply wpx_get. case_bool_decide; [by apply wpx_ret|].
  by apply (control_spec growslice marshalIndent statePath ancestors Hpath e s).
Qed.

(** Entries the engine has: only control entries may be applied. *)
Lemma recover_known l : forall s, Forall entry_ok l -> cp_wf (cp s) -> (forall e, e ∈ log_data l -> Seq e <= l_seq (engine_of s)) ->
  wpx (recover_entries (map recovered l)) (fun _ s' => cp_wf (cp s') /\ consensus s' = consensus s) (fun _ s' => cp_wf (cp s') /\ consensus s' = consensus s) s.
Proof.
  induction l as [|x l IH]; intros s Hok Hwf Hseq; cbn [map Replica.recover_entries]; [by apply wpx_ret|]. apply Forall_cons in Hok as [Hx Hok]. apply wpx_get.
  assert (Hrest : forall s1, cp_wf (cp s1) -> consensus s1 = consensus s -> wpx (recover_entries (map recovered l))
    (fun _ s' => cp_wf (cp s') /\ consensus s' = consensus s) (fun _ s' => cp_wf (cp s') /\ consensus s' = consensus s) s1).
  { intros s1 Hw1 E1. rewrite <- E1. apply IH; [done|done|]. intros e He. unfold engine_of. rewrite E1. apply Hseq. change (x :: l) with ([x] ++ l). rewrite log_data_app. set_solver. }
  change (rec_Data (recovered x)) with (rcp_Data x). change (rec_Control (recovered x)) with (rcp_Control x).
  destruct (entry_cases x Hx) as [(d & Ed & Ec & _ & Es)|(c & Ec & Ed & _)]; rewrite Ed, Ec.
  - rewrite bool_decide_false; [apply wpx_bind, wpx_ret, wpx_bind, wpx_ret; by apply Hrest|].
    fold (engine_of s). specialize (Hseq (entry_of d)). rewrite (log_data_app [x] l : log_data (x :: l) = _), (data_entry x d Ed) in Hseq. specialize (Hseq ltac:(set_solver)). cbn in Hseq. lia.
  - apply wpx_bind, wpx_ret, wpx_bind. eapply wpx_mono; [by apply recover_control_spec| |done]. intros ? s1 [Hw1 E1]. by apply Hrest.
Qed.

(** What a start of the node leaves on failure. *)
Definition left_behind (n : Z) (log : list raftCommittedProposal) s : Prop :=
  exists front, front `prefix_of` log /\ recoverable n (rev (log_data front)) (l_wal (engine_of s)) (lsm_store (l_tree (engine_of s))).

Definition same_parts s s' : Prop := raft_of s' = raft_of s /\ cdc_of s' = cdc_of s.

Lemma recovering_left n front b s : recovering (rev (log_data front)) (engine_of s) -> Forall entry_ok front -> Forall (fun x => entry_index x <= n) front ->
  left_behind n (front ++ b) s.
Proof.
  intros Hr Hok Hn. exists front. split; [by apply prefix_app_r|]. apply recovering_files; [done|]. intros e He. apply (proj1 (elem_of_rev _ _)) in He.
  destruct (log_seqs front Hok e He) as (x & Hx & ->). rewrite Forall_forall in Hn. by apply Hn.
Qed.

(** Entries the engine misses. *)
Lemma recover_new n b : forall a s, recovering (rev (log_data a)) (engine_of s) -> cp_wf (cp s) -> StronglySorted index_lt (a ++ b) -> Forall entry_ok (a ++ b) ->
  Forall (mut_ok (H := H) (M := M)) b -> Forall (fun x => entry_index x <= n) (a ++ b) ->
  wpx (recover_entries (map recovered b)) (fun _ s' => recovering (rev (log_data (a ++ b))) (engine_of s') /\ cp_wf (cp s') /\ same_parts s s')
    (fun _ s' => left_behind n (a ++ b) s') s.
Proof.
  induction b as [|x b IH]; intros a s Hr Hwf Hs Hok Hm Hn; cbn [map Replica.recover_entries]; [apply wpx_ret; rewrite app_nil_r; by split_and!|].
  apply Forall_cons in Hm as [Hx Hm]. destruct (sorted_middle _ _ _ Hs) as [Hlt _].
  assert (Hoka : Forall entry_ok a /\ entry_ok x) by (apply Forall_app in Hok as [? [? _]%Forall_cons]; done). destruct Hoka as [Hoka Hokx].
  assert (Hna : Forall (fun x => entry_index x <= n) a /\ entry_index x <= n) by (apply Forall_app in Hn as [? [? _]%Forall_cons]; done). destruct Hna as [Hna Hnx].
  assert (Hrest : forall s1, recovering (rev (log_data (a ++ [x]))) (engine_of s1) -> cp_wf (cp s1) -> same_parts s s1 -> wpx (recover_entries (map recovered b))
    (fun _ s' => recovering (rev (log_data (a ++ x :: b))) (engine_of s') /\ cp_wf (cp s') /\ same_parts s s') (fun _ s' => left_behind n (a ++ x :: b) s') s1).
  { intros s1 R1 W1 [P1 P2]. rewrite (app_assoc a [x] b : a ++ x :: b = _) in *. eapply wpx_mono; [by apply (IH (a ++ [x]) s1)| |done].
    intros ? s2 (R2 & W2 & P3 & P4). unfold same_parts. rewrite <- P1, <- P2. by split_and!. }
  apply wpx_get. change (rec_Data (recovered x)) with (rcp_Data x). change (rec_Control (recovered x)) with (rcp_Control x).
  destruct (entry_cases x Hokx) as [(d & Ed & Ec & _ & Es)|(c & Ec & Ed & _)]; rewrite Ed, Ec.
  - assert (Hnew : forall e, e ∈ rev (log_data a) -> Seq e < dc_Seq d).
    { intros e He. apply (proj1 (elem_of_rev _ _)) in He. destruct (log_seqs a Hoka e He) as (y & Hy & ->). rewrite Forall_forall in Hlt. rewrite Es. by apply Hlt. }
    rewrite bool_decide_true by (fold (engine_of s); destruct (rv_last _ _ Hr) as [? [->|(e & He & <-)]]; [rewrite Es; apply Hokx|by apply Hnew]).
    apply wpx_bind. unfold wpx at 1, on_engine. fold (engine_of s). destruct (Hx d Ed) as [Hfit _].
    pose proof (recoverCommittedData_spec baseFactory mtLimit Hbase n (rev (log_data a)) (engine_of s) d (pool (dc_Seq d)) Hr Hnew Hfit ltac:(rewrite Es; split; [apply Hokx|done])) as Hd.
    unfold wpx in Hd. destruct (recoverCommittedData _ _ d _ _) as [[u|e| |] e1]; try done.
    + apply wpx_bind, wpx_ret, Hrest; [|done|done]. unfold engine_of. cbn. by rewrite log_data_app, rev_app_distr, (data_entry x d Ed).
    + unfold left_behind, engine_of. cbn. destruct Hd as [Hd|Hd]; [exists a; split; [by apply prefix_app_r|done]|]. exists (a ++ [x]).
      split; [rewrite (app_assoc a [x] b : a ++ x :: b = _); by apply prefix_app_r|]. by rewrite log_data_app, rev_app_distr, (data_entry x d Ed).
  - apply wpx_bind, wpx_ret, wpx_bind. eapply wpx_mono; [by apply recover_control_spec|..].
    + intros ? s1 [W1 E1]. apply Hrest; [|done|by unfold same_parts, raft_of, cdc_of; rewrite E1]. unfold engine_of. rewrite E1, log_data_app. unfold log_data at 2. cbn. rewrite Ed. by rewrite app_nil_r.
    + intros ? s1 [_ E1]. apply recovering_left; [unfold engine_of; by rewrite E1|done|done].
Qed.

Lemma recover_all n front rest s : recovering (rev (log_data front)) (engine_of s) -> cp_wf (cp s) -> StronglySorted index_lt (front ++ rest) -> Forall entry_ok (front ++ rest) ->
  Forall (mut_ok (H := H) (M := M)) rest -> Forall (fun x => entry_index x <= n) (front ++ rest) ->
  wpx (recover_entries (map recovered (front ++ rest))) (fun _ s' => recovering (rev (log_data (front ++ rest))) (engine_of s') /\ cp_wf (cp s') /\ same_parts s s')
    (fun _ s' => left_behind n (front ++ rest) s') s.
Proof.
  intros Hr Hwf Hs Hok Hm Hn. rewrite map_app. pose proof (recover_entries_app (map recovered front) (map recovered rest) s) as E. unfold wpx. rewrite E.
  change (wpx (_ ← recover_entries (map recovered front); recover_entries (map recovered rest))
    (fun _ s' => recovering (rev (log_data (front ++ rest))) (engine_of s') /\ cp_wf (cp s') /\ same_parts s s') (fun _ s' => left_behind n (front ++ rest) s') s).
  pose proof Hok as [Hokf _]%Forall_app. pose proof Hn as [Hnf _]%Forall_app. apply wpx_bind. eapply wpx_mono; [apply (recover_known front s Hokf Hwf)|..].
  - intros e He. apply (rv_seq _ _ Hr). by apply elem_of_rev.
  - intros ? s1 [W1 E1]. eapply wpx_mono; [apply (recover_new n rest front s1); try done; unfold engine_of; by rewrite E1| |done].
    intros ? s2 (R2 & W2 & P1 & P2). unfold raft_of, cdc_of in P1, P2. rewrite E1 in P1, P2. by split_and!.
  - intros ? s1 [_ E1]. apply recovering_left; [unfold engine_of; by rewrite E1|done|done].
Qed.

Lemma last_cursor_le l : forall k, Forall entry_ok l -> StronglySorted index_lt l -> Forall (fun x => k < entry_index x) l -> k <= last_cursor (map recovered l) k.
Proof.
  induction l as [|x l IH]; intros k Hok Hs Hk; cbn [map last_cursor]; [done|]. apply Forall_cons in Hok as [Hx Hok], Hk as [Hkx Hk]. apply StronglySorted_inv in Hs as [Hs Hlt].
  change (rec_Data (recovered x)) with (rcp_Data x). change (rec_Control (recovered x)) with (rcp_Control x).
  destruct (entry_cases x Hx) as [(d & E1 & E2 & E3 & _)|(c & E1 & E2 & E3)]; rewrite E1, ?E2, E3; (etrans; [|apply (IH (entry_index x)); done]; lia).
Qed.

Lemma last_cursor_covers l : forall k, Forall entry_ok l -> StronglySorted index_lt l -> Forall (fun x => entry_index x <= last_cursor (map recovered l) k) l.
Proof.
  induction l as [|x l IH]; intros k Hok Hs; [constructor|]. apply Forall_cons in Hok as [Hx Hok]. apply StronglySorted_inv in Hs as [Hs Hlt].
  assert (E : last_cursor (map recovered (x :: l)) k = last_cursor (map recovered l) (entry_index x)).
  { cbn [map last_cursor]. change (rec_Data (recovered x)) with (rcp_Data x). change (rec_Control (recovered x)) with (rcp_Control x).
    by destruct (entry_cases x Hx) as [(d & E1 & E2 & E3 & _)|(c & E1 & E2 & E3)]; rewrite E1, ?E2, E3. }
  rewrite E. constructor; [by apply last_cursor_le|by apply IH].
Qed.

Lemma last_cursor_at l : forall k, Forall entry_ok l -> last_cursor (map recovered l) k = k \/ exists x, x ∈ l /\ entry_index x = last_cursor (map recovered l) k.
Proof.
  induction l as [|x l IH]; intros k Hok; cbn [map last_cursor]; [by left|]. apply Forall_cons in Hok as [Hx Hok].
  change (rec_Data (recovered x)) with (rcp_Data x). change (rec_Control (recovered x)) with (rcp_Control x). right.
  destruct (entry_cases x Hx) as [(d & E1 & E2 & E3 & _)|(c & E1 & E2 & E3)]; rewrite E1, ?E2, E3;
    (destruct (IH (entry_index x) Hok) as [E|(y & Hy & E)]; [exists x; split; [by left|by rewrite E]|exists y; split; [by right|done]]).
Qed.

Lemma index_bound (l : list raftCommittedProposal) n : exists n', n <= n' /\ Forall (fun x => entry_index x <= n') l.
Proof.
  induction l as [|x l (n' & Hn & IH)]; [by exists n|]. exists (Z.max n' (entry_index x)). split; [lia|]. constructor; [lia|]. eapply Forall_impl; [exact IH|]. cbn. lia.
Qed.

Abbreviation replica_New := (replica_New (N := N) baseFactory mtLimit growslice marshalIndent statePath ancestors pool replayBatchSize autoRepair missingIgnore dropCorrupt).

Lemma replica_New_spec n front w m c control fs reuse :
  recoverable n (rev (log_data front)) w m -> raft_ok c -> Forall (mut_ok (H := H) (M := M)) (committed c) -> front `prefix_of` committed c -> cp_wf control ->
  let '(r, s) := replica_New reuse w m c control fs in
  match r with Ok _ => raft_of s = c /\ running s | Err _ => exists n', left_behind n' (committed c) s | _ => False end.
Proof.
  intros R Hc Hm [rest Ec] Hwf. destruct (index_bound (committed c) n) as (n' & Hn & Hall). pose proof Hc as [_ (O1 & O2 & _)].
  pose proof (recoverable_mono n n' _ w m R Hn) as R'. clear R. unfold Replica.replica_New.
  pose proof (New_recovers baseFactory mtLimit replayBatchSize autoRepair missingIgnore dropCorrupt Hbase n' _ w m reuse R') as Hnew.
  destruct (New _ _ _ _ _ _ _ w m) as [[u|err| |] e]; [|exists n', front; split; [by exists rest|apply Hnew]|done|done].
  destruct Hnew as [Hrec _]. set (s0 := mkNode control fs _). match goal with |- context [let '(_, _) := ?m s0 in _] => set (start := m) end.
  assert (Hw : wpx start
    (fun _ s => raft_of s = c /\ running s) (fun _ s => left_behind n' (committed c) s) s0).
  { unfold start. apply wpx_bind. unfold recoverEngine. apply wpx_get. change (n_raft (consensus s0)) with c. unfold RecoveredEntries. rewrite source_entries_after by done.
    rewrite (list_filter_all _ (committed c)) by (intros x Hx; rewrite Forall_forall in O2; apply O2, Hx). rewrite Ec in *.
    eapply wpx_mono; [apply (recover_all n' front rest s0); try done; [by apply Forall_app in Hm as [_ ?]]| |done].
    intros ? s1 (R1 & W1 & P1 & P2). unfold initCommittedApply, modify_parts, wpx, modify. change (raft_of s1 = c) in P1. split; [exact P1|].
    set (s2 := mkNode _ _ _). assert (Er : raft_of s2 = c) by exact P1. split; [by rewrite Er|by rewrite Er, Ec|]. exists (front ++ rest), [].
    assert (Ecur : cursor_of s2 = last_cursor (map recovered (front ++ rest)) 0).
    { unfold cursor_of. cbn. fold (raft_of s1). rewrite P1, source_entries_after by (by rewrite Ec). rewrite Ec. by rewrite (list_filter_all _ (front ++ rest)) by (intros x Hx; rewrite Forall_forall in O2; apply O2, Hx). }
    split; [by rewrite Er, Ec, app_nil_r|rewrite Ecur; by apply last_cursor_covers|constructor|rewrite Ecur; by apply last_cursor_at|]. split; [|done|exists (log_events (front ++ rest)), []; by rewrite app_nil_r].
    destruct (rv_inv _ _ R1) as (G & hist & mrun & I). by exists G, hist, mrun, []. }
  unfold wpx in Hw. destruct (start s0) as [[u'|err| |] s1]; [done|by exists n'|done|done].
Qed.

(** *** Steps *)

(** A node that runs, or the files it left: its write-ahead log, its tables,
    and the raft commit log as it was. *)
Inductive rnode := RUp s | RDown (wal : W) (store : M) (c : etcdRaft N).

(** What the engine does besides writes. *)
Definition background (op : eng_op) : Prop := match op with EPut _ _ _ | EDelete _ _ => False | _ => True end.
Abbreviation eng_step := (eng_step (H := H) (M := M) (W := W) baseFactory mtLimit FlushQueueSize (fun _ => Ok tt) planner fuel).

Definition set_parts (p : parts N engine) s : replica := mkNode (cp s) (disk s) p.

(** A step of a node: any progress of its commit log, a drain by whichever
    call, background work of the engine, the latches of errors and of the
    shutdown, a crash (possibly in a flush), and a start, where raft gives
    back the entries it had committed. *)
Inductive rstep : rnode -> rnode -> Prop :=
| StepRaft s c : raft_ok c -> grown (raft_of s) c -> Forall (mut_ok (H := H) (M := M)) (committed c) -> rstep (RUp s) (RUp (set_parts (with_raft c (consensus s)) s))
| StepDrain target s : rstep (RUp s) (RUp (snd (drain target s)))
| StepEngine op s : background op -> (length (committed (raft_of s)) < fuel)%nat -> rstep (RUp s) (RUp (set_parts (with_engine (snd (eng_step op (engine_of s))) (consensus s)) s))
| StepLatch e s : rstep (RUp s) (RUp (set_parts (with_commitErr e (consensus s)) s))
| StepControlLatch e s : rstep (RUp s) (RUp (mkNode (set_commitErr e (cp s)) (disk s) (consensus s)))
| StepClosing b b' s : rstep (RUp s) (RUp (set_parts (with_closing b (with_peerClosing b' (consensus s))) s))
| StepQuiesce s : rstep (RUp s) (RUp (snd (quiesce s)))
| StepCrash flushing s : rstep (RUp s) (RDown (l_wal (engine_of s)) (crash_store (engine_of s) flushing) (raft_of s))
| StepStart reuse w m c0 c control fs s : raft_ok c -> Forall (mut_ok (H := H) (M := M)) (committed c) -> committed c0 `prefix_of` committed c -> cp_wf control ->
    replica_New reuse w m c control fs = (Ok tt, s) -> rstep (RDown w m c0) (RUp s)
| StepStartFails reuse w m c0 c control fs s e : raft_ok c -> Forall (mut_ok (H := H) (M := M)) (committed c) -> committed c0 `prefix_of` committed c -> cp_wf control ->
    replica_New reuse w m c control fs = (Err e, s) -> rstep (RDown w m c0) (RDown (l_wal (engine_of s)) (lsm_store (l_tree (engine_of s))) c).

Definition rnode_ok (nd : rnode) : Prop :=
  match nd with
  | RUp s => running s
  | RDown w m c => exists n front, front `prefix_of` committed c /\ recoverable n (rev (log_data front)) w m
  end.

Lemma applied_grows front rest s c : applied_to front rest s -> grown (raft_of s) c -> raft_ok c ->
  exists rest', applied_to front rest' (set_parts (with_raft c (consensus s)) s).
Proof.
  intros [A1 A2 A3 A5 A4] Hg Hc. destruct (gr_committed _ _ Hg) as [more Em]. rewrite A1, <- app_assoc in Em. exists (rest ++ more). split; try done; [|by destruct A4].
  pose proof Hc as [_ (O1 & O2 & _)]. rewrite Em in O1, O2. change (cursor_of (set_parts _ s)) with (cursor_of s). destruct A5 as [->|(x & Hx & <-)].
  - apply Forall_app in O2 as [_ O2]. eapply Forall_impl; [exact O2|]. by intros y [? _].
  - apply StronglySorted_app in O1 as (O1 & _ & _). apply Forall_forall. intros y Hy. by apply (O1 x y).
Qed.

Lemma background_spec op acked (e : engine) : background op -> holds acked e -> (length acked < fuel)%nat -> holds acked (snd (eng_step op e)).
Proof.
  intros Hop (G & hist & mrun & iruns & I) Hf. assert (Htree : forall o, match o with LsmFlush _ => False | _ => True end -> holds acked (snd (tree_step planner false fuel o e))).
  { intros o Ho. pose proof (tree_step_spec planner fuel durable log_is (durable_step planner fuel) G hist acked mrun iruns e o I Hf Ho) as Ht. unfold wpe in Ht.
    destruct (tree_step planner false fuel o e) as [[es|err| |] e']; try done; [destruct Ht as (_ & _ & G' & I')|destruct Ht as (_ & G' & I')]; by exists G', hist, mrun, iruns. }
  destruct op; try done; cbn [EngineSpec.eng_step]; try (by apply Htree).
  - pose proof (round_spec planner fuel durable log_is (durable_step planner fuel) G hist acked mrun iruns e I Hf) as Hr. unfold wpe in Hr. unfold mbind, SE_bind.
    destruct (Dispatcher_round planner false fuel e) as [[u|err| |] e']; try done. destruct Hr as (_ & G' & hist' & iruns' & I'). by exists G', hist', mrun, iruns'.
  - pose proof (blocking_spec FlushQueueSize durable log_is G hist acked mrun iruns e i I) as Hr. unfold wpe in Hr. unfold mbind, SE_bind.
    destruct (enqueueBlocking FlushQueueSize i e) as [[u|err| |] e']; try done. destruct Hr as (_ & I'). by exists G, hist, mrun, iruns.
Qed.

Lemma log_data_length l : (length (log_data l) <= length l)%nat.
Proof. unfold log_data. induction l as [|x l IH]; cbn; [lia|]. destruct (rcp_Data x); cbn; lia. Qed.

(** Steps that leave the commit log, the cursor, the engine and the events. *)
Lemma running_same s s' : running s -> raft_of s' = raft_of s -> cursor_of s' = cursor_of s -> engine_of s' = engine_of s -> cdc_of s' = cdc_of s -> cp_wf (cp s') -> running s'.
Proof.
  intros [R1 R2 (front & rest & [A1 A2 A3 A5 [E1 E2 E3]])] Hr Hk He Hd Hw. split; [by rewrite Hr|by rewrite Hr|]. exists front, rest.
  split; rewrite ?Hr, ?Hk; try done. split; rewrite ?He, ?Hd; done.
Qed.

Lemma replica_wf s : running s -> cp_wf (cp s).
Proof. by intros [_ _ (front & rest & [_ _ _ _ []])]. Qed.

Lemma set_commitErr_wf e c : cp_wf c -> cp_wf (set_commitErr e c).
Proof. intros []. by split. Qed.

Lemma crash_ok s flushing : running s -> exists n, recoverable n (rev (log_data (upto (cursor_of s) (committed (raft_of s))))) (l_wal (engine_of s)) (crash_store (engine_of s) flushing).
Proof.
  intros [[_ (_ & O2 & _)] _ (front & rest & [A1 A2 A3 _ [(G & hist & mrun & iruns & I) _ _]])]. rewrite A1 in O2 |- *. apply Forall_app in O2 as [O2 _].
  rewrite (proj1 (log_split _ _ _ A2 A3)). destruct (index_bound front 0) as (n & Hn & Hall).
  pose proof (crash_spec (rev (log_data front)) (with_log (mkLocal n 1) (engine_of s)) flushing) as Hc. exists n. apply Hc. clear Hc. split.
  - split_and!; [|done|done]. intros e He. apply (proj1 (elem_of_rev _ _)) in He. destruct (log_seqs front O2 e He) as (x & Hx & ->). rewrite Forall_forall in Hall. by apply Hall.
  - exists G, hist, mrun, iruns. by apply inv_log.
Qed.

Lemma rstep_ok nd nd' : rnode_ok nd -> rstep nd nd' -> rnode_ok nd'.
Proof.
  intros Hok Hs. destruct Hs as [s c Hc Hg Hm|target s|op s Hop Hf|e s|e s|b b' s|s|flushing s|reuse w m c0 c control fs s Hc Hm Hp Hw E|reuse w m c0 c control fs s e Hc Hm Hp Hw E]; cbn in *.
  - destruct Hok as [R1 R2 (front & rest & Ha)]. split; [done|done|]. exists front. by apply applied_grows with rest.
  - pose proof (committed_drain_spec target s Hok) as Hd. unfold wpx in Hd. destruct (drain target s) as [[a|e| |] s']; by destruct Hd.
  - pose proof Hok as [R1 R2 (front & rest & [A1 A2 A3 A5 [E1 E2 E3]])]. split; [done|done|]. exists front, rest. split; try done. split; try done.
    apply background_spec; [done|done|]. rewrite length_rev. rewrite A1, length_app in Hf. pose proof (log_data_length front). lia.
  - apply (running_same s); try done. exact (replica_wf s Hok).
  - apply (running_same s); try done. exact (set_commitErr_wf _ _ (replica_wf s Hok)).
  - apply (running_same s); try done. exact (replica_wf s Hok).
  - apply (running_same s); try done. exact (replica_wf s Hok).
  - destruct (crash_ok s flushing Hok) as (n & Hr). exists n, (upto (cursor_of s) (committed (raft_of s))). split; [|done].
    destruct Hok as [_ _ (front & rest & [A1 A2 A3 _ _])]. rewrite A1, (proj1 (log_split _ _ _ A2 A3)). by apply prefix_app_r.
  - destruct Hok as (n & front & Hf & Hr). pose proof (replica_New_spec n front w m c control fs reuse Hr Hc Hm ltac:(by etrans) Hw) as Hn. rewrite E in Hn. apply Hn.
  - destruct Hok as (n & front & Hf & Hr). pose proof (replica_New_spec n front w m c control fs reuse Hr Hc Hm ltac:(by etrans) Hw) as Hn. rewrite E in Hn.
    destruct Hn as (n' & front' & Hp' & Hr'). by exists n', front'.
Qed.

(** What a running node shows of its log. *)
Lemma running_reads s key : running s ->
  let l := rev (log_data (upto (cursor_of s) (committed (raft_of s)))) in
  LSM_Get key (engine_of s) = (Ok (answer_of (lookup_entry key l)), engine_of s) /\ LSM_GetContext key (engine_of s) = (Ok (answer_of (lookup_entry key l)), engine_of s).
Proof.
  intros [_ _ (front & rest & [A1 A2 A3 _ [(G & hist & mrun & iruns & I) _ _]])]. rewrite A1, (proj1 (log_split _ _ _ A2 A3)). cbv zeta.
  split; eapply Get_with_spec; try exact I; intros r Hall; apply Hall; intros t es; [apply law_GetView|apply law_GetViewContext].
Qed.

Lemma running_shows s : running s -> let l := upto (cursor_of s) (committed (raft_of s)) in
  l `prefix_of` committed (raft_of s) /\ exists before events, cdc_of s = cdc_appends events (newCDCStreamStore 0) /\ log_events l = before ++ map event_shows events.
Proof.
  intros [_ _ (front & rest & [A1 A2 A3 _ [_ _ E3]])]. rewrite A1, (proj1 (log_split _ _ _ A2 A3)). split; [by apply prefix_app_r|done].
Qed.

Lemma steps_ok nd nd' : rnode_ok nd -> rtc rstep nd nd' -> rnode_ok nd'.
Proof. intros Hok Hs. induction Hs as [|a b c Hs _ IH]; [done|]. apply IH. by eapply rstep_ok. Qed.

Lemma empty_ok wal store c : log_is wal [] -> stored store = mkManifest 0 [] -> (forall p, opened store p = None) -> rnode_ok (RDown wal store c).
Proof. intros Hw Es Eo. exists 0, []. split; [apply prefix_nil|]. by apply empty_recoverable. Qed.
End Replica.

(** ** Configurations *)

(** The settings of a node, and the choices the model leaves to it. *)
Record setup (T : Type) := mkSetup {
  su_factory : T;
  su_limit : Z;
  su_queue : Z;
  su_planner : StrictLevelledPlanner;
  su_fuel : nat;
  su_batch : Z;
  su_repair : bool;
  su_ignore : bool;
  su_drop : bool;
  su_grow : nat -> nat -> nat;
  su_marshal : controlPlaneState -> bytes;
  su_path : string;
  su_ancestors : nat;
  su_pool : Z -> bool;
  su_clock : Z -> Z
}.
Arguments mkSetup {T} _ _ _ _ _ _ _ _ _ _ _ _ _ _ _.
Arguments su_factory {T} _.
Arguments su_limit {T} _.
Arguments su_queue {T} _.
Arguments su_planner {T} _.
Arguments su_fuel {T} _.
Arguments su_batch {T} _.
Arguments su_repair {T} _.
Arguments su_ignore {T} _.
Arguments su_drop {T} _.
Arguments su_grow {T} _.
Arguments su_marshal {T} _.
Arguments su_path {T} _.
Arguments su_ancestors {T} _.
Arguments su_pool {T} _.
Arguments su_clock {T} _.

Definition setup_ok {T} `{MemTableLaws T} (u : setup T) : Prop := mt_rep (su_factory u) [] /\ 0 < su_limit u /\ su_path u <> "".

(** A node with the settings [u] comes from empty files to [nd]. *)
Definition reachable {T H M W N Msg} `{MemTableLaws T} `{BootLaws H M} `{DurableLog W} `{RaftLib N Msg}
    (unmarshal : bytes -> result raftCommitProposal) (applied : N -> Z) (u : setup T) (nd : rnode (T := T) (H := H) (M := M) (W := W) (N := N)) : Prop :=
  exists wal store c, log_is wal [] /\ stored store = mkManifest 0 [] /\ (forall p, opened store p = None) /\
    rtc (rstep (su_factory u) (su_limit u) (su_queue u) (su_planner u) (su_fuel u) (su_batch u) (su_repair u) (su_ignore u) (su_drop u) unmarshal applied
      (su_grow u) (su_marshal u) (su_path u) (su_ancestors u) (su_pool u) (su_clock u)) (RDown wal store c) nd.
