(* ===== verification/ReplicaClaims.v ===== *)
(** * Replicated nodes: reads, agreement and acknowledged writes

    The theorems of a replicated node with its settings, the calls of a node
    as steps of it, and an example with a raft library of one node. *)

From Stdlib Require Import ZArith Lia Sorting.Sorted Strings.Byte.
From stdpp Require Import base list strings gmap sorting.
From S2P Require Import Prelude Iofs SstFormat Memtable TableSet Compaction Handle Manifest CompactionRun LsmTree ViewMerge Engine EngineSpec Bootstrap Durable Recovery.
From S2P Require Import GoStrings ControlPlane ControlSpec ControlNode ControlClaims RaftLog RaftSpec Cdc Replica ReplicaSpec.
Local Open Scope Z_scope.

(** The entries a node has applied. *)
Abbreviation applied_log s := (upto (cursor_of s) (committed (raft_of s))).

Section Claims.
Context {T H M W : Type} `{MemTableLaws T} `{BL : BootLaws H M} `{DL : DurableLog W} {N Msg : Type} `{RL : RaftLib N Msg}.
Context (unmarshal : bytes -> result raftCommitProposal) (applied : N -> Z).
Abbreviation reachable := (reachable (H := H) (M := M) (W := W) unmarshal applied).

Lemma reachable_running u s : setup_ok u -> reachable u (RUp s) -> running (H := H) (M := M) (W := W) unmarshal applied s.
Proof.
  intros (U1 & U2 & U3) (wal & store & c & Hw & Es & Eo & Hs). refine (steps_ok _ _ _ U1 U2 _ _ _ _ _ _ _ _ _ _ _ U3 _ _ _ _ _ _ Hs). by apply empty_ok.
Qed.


(** The cursor is in the log of a node, so a longer log has the same entries
    below it. *)
Lemma same_applied s1 s2 : running (H := H) (M := M) (W := W) unmarshal applied s1 -> running (H := H) (M := M) (W := W) unmarshal applied s2 ->
  committed (raft_of s1) `prefix_of` committed (raft_of s2) -> cursor_of s1 = cursor_of s2 -> applied_log s1 = applied_log s2.
Proof.
  intros [_ _ (f1 & r1 & [A1 A2 A3 A5 _])] [[_ (O1 & O2 & _)] _ _] [more Em] Ek. rewrite <- Ek, Em. unfold upto. rewrite filter_app.
  rewrite (list_filter_none _ more), app_nil_r; [done|]. intros y Hy. rewrite Em in O1, O2. apply StronglySorted_app in O1 as (O1 & _ & _).
  destruct A5 as [->|(x & Hx & <-)]; [apply Forall_app in O2 as [_ O2]; rewrite Forall_forall in O2; destruct (O2 y Hy); lia|].
  assert (Hlt : index_lt x y) by (apply O1; [rewrite A1; set_solver|done]). unfold index_lt in Hlt. lia.
Qed.

End Claims.

(** ** Calls *)

Lemma wpx_ret_inv {S A B} (m : SE S A) (g : A -> B) Q E s : wpx (a ← m; mret (g a)) Q E s -> wpx m (fun a s' => Q (g a) s') E s.
Proof. unfold wpx, mbind, SE_bind. by destruct (m s) as [[a|e| |] s1]. Qed.

Section Calls.
Context {T H M W : Type} `{MemTableLaws T} `{BL : BootLaws H M} `{DL : DurableLog W} {N Msg : Type} `{RL : RaftLib N Msg}.
Context (marshalProposal : raftCommitProposal -> bytes) (unmarshal : bytes -> result raftCommitProposal) (applied : N -> Z).
Context (marshalDisk : raftDiskState -> bytes) (raftPath : string) (raftAncestors : nat).
Context (hasTransport : bool) (Send : list PeerMessage -> etcdRaft N -> option send_error * etcdRaft N) (wait : Z -> etcdRaft N -> etcdRaft N).
Context (Hlaws : RaftLaws applied) (Hdecode : forall b, returned (unmarshal b)) (Henv : env_ok unmarshal marshalDisk raftPath Send wait applied).
Context (u : setup T) (Hu : setup_ok u).

Abbreviation engine := (LSM (T := T) (H := H) (M := M) (W := W)).
Abbreviation replica := (node (parts N engine)).
Implicit Types s : replica.

Abbreviation drain := (drain (N := N) (su_factory u) (su_limit u) (su_queue u) (su_grow u) (su_marshal u) (su_path u) (su_ancestors u) (su_pool u) (su_clock u)).
Abbreviation running := (running (H := H) (M := M) (W := W) unmarshal applied).
Abbreviation rstep := (rstep (H := H) (M := M) (W := W) (su_factory u) (su_limit u) (su_queue u) (su_planner u) (su_fuel u) (su_batch u) (su_repair u) (su_ignore u) (su_drop u) unmarshal applied
      (su_grow u) (su_marshal u) (su_path u) (su_ancestors u) (su_pool u) (su_clock u)).
Abbreviation muts_ok s := (Forall (mut_ok (H := H) (M := M)) (committed (raft_of s))).

(** *** Drains leave the commit log alone *)

Definition leaves_raft {A} (m : SE replica A) : Prop := forall s, raft_of (snd (m s)) = raft_of s.

Lemma leaves_bind {A B} (m : SE replica A) (f : A -> SE replica B) : leaves_raft m -> (forall a, leaves_raft (f a)) -> leaves_raft (a ← m; f a).
Proof. intros Hm Hf s. specialize (Hm s). unfold mbind, SE_bind. destruct (m s) as [[a|e| |] s1]; cbn in *; [rewrite Hf|..]; done. Qed.
Lemma leaves_catch {A} (m : SE replica A) : leaves_raft m -> leaves_raft (catch m).
Proof. intros Hm s. specialize (Hm s). unfold catch. by destruct (m s) as [[a|e| |] s1]. Qed.
Lemma leaves_engine {A} (m : SE engine A) : leaves_raft (Replica.on_engine m).
Proof. intros s. unfold Replica.on_engine. by destruct (m _). Qed.
Lemma leaves_parts f : (forall p, n_raft (f p) = n_raft p) -> leaves_raft (modify_parts f).
Proof. intros Hf s. unfold raft_of, modify_parts, modify. cbn. apply Hf. Qed.
Lemma leaves_ret {A} (r : result A) : leaves_raft (fun s => (r, s)).
Proof. done. Qed.

Lemma leaves_apply item : leaves_raft (apply_entry (N := N) (su_factory u) (su_limit u) (su_queue u) (su_grow u) (su_marshal u) (su_path u) (su_ancestors u) (su_pool u) (su_clock u) item).
Proof.
  unfold apply_entry. destruct (rec_Data item) as [d|], (rec_Control item) as [c|]; try apply leaves_ret.
  - apply leaves_bind; [apply leaves_catch, leaves_engine|]. intros [e|]; [apply leaves_ret|]. apply leaves_bind; [done|]. intros s.
    apply leaves_bind; [by apply leaves_parts|done].
  - intros s. pose proof (rest_control (K := parts N engine) (su_grow u) (su_marshal u) (su_path u) (su_ancestors u) c s) as Hk. unfold raft_of in *.
    destruct (applyCommittedControlFromLog _ _ _ _ c s) as [[[| |e]|e| |] s1]; cbn in *; by rewrite Hk.
Qed.

Lemma leaves_drain target : leaves_raft (drain target).
Proof.
  unfold Replica.drain. apply leaves_bind; [done|]. intros s. destruct (_ || _); [done|]. destruct (failure _); [done|]. apply leaves_bind; [|intros _; apply leaves_bind; [done|]; intros s'; by case_bool_decide].
  generalize (CommittedEntriesAfter (n_raft (consensus s)) (cursor (n_apply (consensus s)))) as items. induction items as [|item items IH]; cbn [drain_entries]; [apply leaves_ret|].
  apply leaves_bind; [apply leaves_apply|]. intros [i|i e|e]; (apply leaves_bind; [by apply leaves_parts|]); by intros _.
Qed.

(** *** Calls are steps *)

Lemma steps_drain s target : rtc rstep (RUp s) (RUp (snd (drain target s))).
Proof. apply rtc_once. constructor. Qed.
Lemma steps_latch s e : rtc rstep (RUp s) (RUp (snd (latchCommitError e s))).
Proof. apply rtc_once, StepLatch. Qed.

(** The call returns, and what it does are steps, provided the entries that
    others put into the log fit. *)
Definition good {A} (m : SE replica A) s : Prop := muts_ok (snd (m s)) -> returned (fst (m s)) /\ rtc rstep (RUp s) (RUp (snd (m s))).

Lemma steps_running s s' : running s -> rtc rstep (RUp s) (RUp s') -> running s'.
Proof. destruct Hu as (U1 & U2 & U3). intros Hr Hs. exact (steps_ok _ _ _ U1 U2 _ _ _ _ _ _ _ _ _ _ _ U3 _ _ _ (RUp s) (RUp s') Hr Hs). Qed.

(** First a part that may change the commit log, then parts that do not. *)
Lemma good_bind {A B} (m : SE replica A) (f : A -> SE replica B) s : running s -> good m s -> (forall a, leaves_raft (f a)) ->
  (forall a s1, m s = (Ok a, s1) -> running s1 -> good (f a) s1) -> good (a ← m; f a) s.
Proof.
  intros Hr Hm Hl Hf. unfold good in *. unfold mbind, SE_bind. destruct (m s) as [[a|e| |] s1] eqn:E; cbn in *; try done. intros Hmuts.
  rewrite (Hl a s1) in Hmuts. destruct (Hm Hmuts) as [_ H1']. pose proof (steps_running s s1 Hr H1') as Hr1.
  destruct (Hf a s1 eq_refl Hr1) as [H2' H3']; [by rewrite (Hl a s1)|]. split; [done|by etrans].
Qed.

Lemma good_catch {A} (m : SE replica A) s : good m s -> good (catch m) s.
Proof. unfold good, catch. by destruct (m s) as [[a|e| |] s1]. Qed.

Lemma good_quiet {A} (r : result A) s : returned r -> good (fun s => (r, s)) s.
Proof. intros Hr Hm. by split. Qed.

Lemma drain_good target s : running s -> good (drain target) s.
Proof.
  intros Hr _. split; [|apply steps_drain]. destruct Hu as (U1 & U2 & U3).
  pose proof (committed_drain_spec (su_factory u) (su_limit u) (su_queue u) U1 U2 unmarshal applied (su_grow u) (su_marshal u) (su_path u) U3 (su_ancestors u) (su_pool u) (su_clock u) target s Hr) as Hd.
  unfold wpx in Hd. by destruct (drain target s) as [[a|e| |] s1].
Qed.

Abbreviation drain_err := (drain_err (N := N) (su_factory u) (su_limit u) (su_queue u) (su_grow u) (su_marshal u) (su_path u) (su_ancestors u) (su_pool u) (su_clock u)).

Lemma leaves_drain_err target : leaves_raft (drain_err target).
Proof. apply leaves_bind; [apply leaves_drain|]. by intros []. Qed.

Lemma drain_err_good target s : running s -> good (drain_err target) s.
Proof. intros Hr. apply good_bind; [done|by apply drain_good|by intros []|]. intros [| |e] s1 _ _; by apply good_quiet. Qed.

Lemma drain_err_reaches target s s' : running s -> drain_err target s = (Ok tt, s') -> target <= cursor_of s'.
Proof.
  intros Hr. destruct Hu as (U1 & U2 & U3).
  pose proof (committed_drain_spec (su_factory u) (su_limit u) (su_queue u) U1 U2 unmarshal applied (su_grow u) (su_marshal u) (su_path u) U3 (su_ancestors u) (su_pool u) (su_clock u) target s Hr) as Hd.
  unfold wpx in Hd. unfold Replica.drain_err, mbind, SE_bind. destruct (drain target s) as [[[| |e]|e| |] s1]; try done; cbn; intros [= <-]; apply Hd.
Qed.

Lemma raft_good {A} (m : SE (etcdRaft N * list bool) A) looks s :
  wpx m (fun _ x => raft_ok unmarshal applied (fst x) /\ grown (raft_of s) (fst x)) (fun _ x => raft_ok unmarshal applied (fst x) /\ grown (raft_of s) (fst x)) (raft_of s, looks) ->
  good (on_raft m looks) s.
Proof.
  intros Hm. unfold good, on_raft. fold (raft_of s). unfold wpx in Hm. destruct (m (raft_of s, looks)) as [[a|e| |] [c l]]; try done; cbn in *; destruct Hm as [Hc Hg];
    intros Hmuts; (split; [done|]); apply rtc_once; by apply (StepRaft _ _ _ _ _ _ _ _ _ _ _ _ _ _ _ _ _ s c).
Qed.

(** *** Messages and ticks *)

Lemma then_drain_good (m : SE replica unit) s : running s -> good m s -> good (then_drain (su_factory u) (su_limit u) (su_queue u) (su_grow u) (su_marshal u) (su_path u) (su_ancestors u) (su_pool u) (su_clock u) m) s.
Proof.
  intros Hr Hm. apply good_bind; [done|by apply good_catch| |].
  - intros a. apply leaves_bind; [apply leaves_drain_err|]. by intros _; destruct a.
  - intros a s1 _ Hr1. apply good_bind; [done|by apply drain_err_good|by intros _; destruct a|]. intros _ s2 _ _. destruct a; by apply good_quiet.
Qed.

Lemma begin_cases {A} (m : SE replica A) s : (_ ← beginCommitLogOperation; m) s = m s \/ (_ ← beginCommitLogOperation; m) s = (Err ErrClosed, s).
Proof. unfold beginCommitLogOperation, mbind, SE_bind, get. cbn. destruct (_ || _); [by right|by left]. Qed.

Lemma good_begin {A} (m : SE replica A) s : good m s -> good (_ ← beginCommitLogOperation; m) s.
Proof. intros Hm. unfold good. destruct (begin_cases m s) as [->| ->]; [exact Hm|]. by split. Qed.

Definition seq_ok s : Prop := 0 <= proposalSeq (raft_of s) < 2 ^ 64 - 1.
Abbreviation run_call := (run_call marshalProposal unmarshal marshalDisk raftPath raftAncestors hasTransport Send wait).

Lemma run_call_good k looks s : running s -> call_ok marshalProposal unmarshal k -> seq_ok s ->
  wpx (run_call k) (fun a x => (raft_ok unmarshal applied (fst x) /\ grown (raft_of s) (fst x)) /\ answer_ok (committed (fst x)) k (Ok a))
    (fun _ x => raft_ok unmarshal applied (fst x) /\ grown (raft_of s) (fst x)) (raft_of s, looks).
Proof.
  intros [Hr _ _] Hk Hs. eapply wpx_mono; [apply (run_call_spec marshalProposal unmarshal marshalDisk raftPath raftAncestors hasTransport Send wait applied Hlaws Hdecode Henv k (raft_of s, looks) Hr Hk Hs)|..]; [|done].
  by intros a x (H1' & H2' & H3').
Qed.

Lemma HandlePeerMessages_good looks messages s : running s -> seq_ok s ->
  good (replica_HandlePeerMessages (su_factory u) (su_limit u) (su_queue u) unmarshal marshalDisk raftPath raftAncestors hasTransport Send
    (su_grow u) (su_marshal u) (su_path u) (su_ancestors u) (su_pool u) (su_clock u) looks messages) s.
Proof.
  intros Hr Hs. unfold replica_HandlePeerMessages. case_bool_decide; [by apply good_quiet|]. apply good_begin, then_drain_good; [done|]. apply raft_good.
  pose proof (run_call_good (CallPeers messages) looks s Hr I Hs) as Hc%wpx_ret_inv. eapply wpx_mono; [exact Hc|..]; [|done]. by intros a x [? _].
Qed.

Lemma tick_good looks s : running s -> seq_ok s ->
  good (tickCommitLog (su_factory u) (su_limit u) (su_queue u) unmarshal marshalDisk raftPath raftAncestors hasTransport Send
    (su_grow u) (su_marshal u) (su_path u) (su_ancestors u) (su_pool u) (su_clock u) looks) s.
Proof.
  intros Hr Hs. apply good_begin, then_drain_good; [done|]. apply raft_good.
  pose proof (run_call_good CallTick looks s Hr I Hs) as Hc%wpx_ret_inv. eapply wpx_mono; [exact Hc|..]; [|done]. by intros a x [? _].
Qed.

(** *** Writes *)

Abbreviation propose_data := (propose_data (su_factory u) (su_limit u) (su_queue u) marshalProposal unmarshal marshalDisk raftPath raftAncestors hasTransport Send wait
    (su_grow u) (su_marshal u) (su_path u) (su_ancestors u) (su_pool u) (su_clock u)).

(** A mutation that was committed and applied, at a position of the log. *)
Definition logged (m : DataMutation) (seq : Z) s : Prop := exists x d, x ∈ applied_log s /\ rcp_Data x = Some d /\ dc_Mutation d = m /\ dc_Seq d = seq.

Lemma settle_data_eq d s1 rd s2 : drain_err (Commit_Index (dc_Commit d)) s1 = (rd, s2) ->
  settle_data (su_factory u) (su_limit u) (su_queue u) (su_grow u) (su_marshal u) (su_path u) (su_ancestors u) (su_pool u) (su_clock u) d s1 =
  match rd with
  | Ok _ => (Ok (dc_Seq d), set_parts (with_commitErr None (consensus s2)) s2)
  | Err e => (Err e, set_parts (with_commitErr (Some e) (consensus s2)) s2)
  | Panic => (Panic, s2)
  | NoFuel => (NoFuel, s2)
  end.
Proof. intros Ed. unfold settle_data, applyProposedData. unfold mbind, SE_bind, catch. rewrite Ed. by destruct rd as [[]|e| |]. Qed.

Lemma propose_good nonce looks m s : running s -> returned nonce -> survives marshalProposal unmarshal "data" None (Some m) -> seq_ok s ->
  good (propose_data nonce looks m) s /\ forall seq, muts_ok (snd (propose_data nonce looks m s)) -> fst (propose_data nonce looks m s) = Ok seq -> logged m seq (snd (propose_data nonce looks m s)).
Proof.
  intros Hr Hn Hm Hs. pose proof (run_call_good (CallData nonce m) looks s Hr (conj Hn Hm) Hs) as Hc%wpx_ret_inv.
  pose proof (raft_good (raft_CommitData marshalProposal unmarshal marshalDisk raftPath raftAncestors hasTransport Send wait nonce m) looks s) as Hg.
  specialize (Hg ltac:(eapply wpx_mono; [exact Hc|by intros a x [? _]|done])). unfold good in Hg |- *. unfold Replica.propose_data.
  assert (Ha : match on_raft (raft_CommitData marshalProposal unmarshal marshalDisk raftPath raftAncestors hasTransport Send wait nonce m) looks s with
    | (Ok d, s1) => dc_Mutation d = m /\ dc_Seq d = Commit_Index (dc_Commit d) /\ exists x, x ∈ committed (raft_of s1) /\ rcp_Data x = Some d
    | (Err _, _) => True | _ => False end).
  { unfold on_raft. fold (raft_of s). unfold wpx in Hc. destruct (raft_CommitData _ _ _ _ _ _ _ _ _ _ (raft_of s, looks)) as [[d|e| |] [c l]]; try done. apply Hc. }
  destruct (on_raft _ looks s) as [[d|e| |] s1] eqn:E1; [| |done|done]; cbn [fst snd] in *.
  2:{ set (fin := _ ← _; _). assert (Ef : exists s2, fin s1 = (Err (translateCommitLogError e), s2) /\ raft_of s2 = raft_of s1 /\ rtc rstep (RUp s1) (RUp s2)).
      { unfold fin. destruct (isPreProposalRejection _); [by exists s1|]. eexists. split; [done|]. split; [done|]. apply rtc_once. by apply StepLatch. }
      destruct Ef as (s2 & -> & Er & Hst). cbn [fst snd]. split; [|done]. intros Hmuts. rewrite Er in Hmuts. destruct (Hg Hmuts) as [_ H1']. split; [done|by etrans]. }
  destruct Ha as (Em & Es & x & Hx & Ex). set (k := Commit_Index (dc_Commit d)) in *.
  pose proof (leaves_drain_err k s1) as Hl. destruct (drain_err k s1) as [rd s2] eqn:Ed. cbn [snd] in Hl.
  assert (Hdone : muts_ok s2 -> returned rd /\ rtc rstep (RUp s) (RUp s2) /\ (rd = Ok tt -> logged m (dc_Seq d) s2)).
  { intros Hmuts. destruct (Hg ltac:(by rewrite <- Hl)) as [_ Hs1]. pose proof (steps_running s s1 Hr Hs1) as Hr1. pose proof (drain_err_good k s1 Hr1) as Hgd. unfold good in Hgd.
    rewrite Ed in Hgd. destruct (Hgd Hmuts) as [Hret Hs2]. split_and!; [done|by etrans|]. intros ->. pose proof (drain_err_reaches k s1 s2 Hr1 Ed) as Hk.
    exists x, d. split_and!; [|done|done|done]. rewrite Hl. unfold upto. apply list_elem_of_filter. split; [|done]. unfold entry_index. rewrite Ex.
    pose proof Hr1 as [[_ (_ & O2 & _)] _ _]. rewrite Forall_forall in O2. destruct (entry_cases x (O2 x Hx)) as [(d' & Ed' & -> & _)|(e & _ & Ed' & _)]; rewrite Ex in Ed'; [done|done]. }
  rewrite (settle_data_eq d s1 rd s2 Ed). destruct rd as [[]|e| |]; cbn [fst snd].
  - split; [|intros seq Hmuts [= <-]; destruct (Hdone Hmuts) as (_ & _ & Hlog); exact (Hlog eq_refl)].
    intros Hmuts. destruct (Hdone Hmuts) as (_ & Hst & _). split; [done|]. etrans; [exact Hst|]. apply rtc_once, StepLatch.
  - split; [|done]. intros Hmuts. destruct (Hdone Hmuts) as (_ & Hst & _). split; [done|]. etrans; [exact Hst|]. apply rtc_once, StepLatch.
  - split; [|done]. intros Hmuts. by destruct (Hdone Hmuts).
  - split; [|done]. intros Hmuts. by destruct (Hdone Hmuts).
Qed.

Lemma good_lift {A B} (r : result A) (f : A -> SE replica B) s : returned r -> (forall a, good (f a) s) -> good (a ← lift r; f a) s.
Proof. intros Hr Hf. unfold good, mbind, SE_bind, lift. destruct r as [a|e| |]; [apply Hf|by split|done|done]. Qed.

Abbreviation commit_data := (commit_data (su_factory u) (su_limit u) (su_queue u) marshalProposal unmarshal marshalDisk raftPath raftAncestors hasTransport Send wait
    (su_grow u) (su_marshal u) (su_path u) (su_ancestors u) (su_pool u) (su_clock u)).

(** A data mutation is refused, or proposed. *)
Lemma commit_data_cases nonce looks m tomb s :
  (exists e, commit_data nonce looks m tomb s = (Err e, s)) \/ commit_data nonce looks m tomb s = propose_data nonce looks m s.
Proof.
  unfold Replica.commit_data, mbind, SE_bind, get, lift. destruct (law_ValidateEntry (l_wal (n_engine (consensus s))) (mkEntry (dm_Key m) (dm_Value m) tomb 0)) as [->|[e ->]]; [|left; by eexists].
  unfold beginCommitLogOperation, mbind, SE_bind, get. destruct (_ || _); [left; by eexists|]. cbn. destruct (n_commitErr (consensus s)); [left; by eexists|].
  unfold apply_status, mbind, SE_bind, get. destruct (_ || _); [left; by eexists|]. destruct (failure _); [left; by eexists|by right].
Qed.

Lemma allowWrite_returns nonce looks s key :
  returned (allowWrite (H := raft_consensus (H := H) (M := M) (W := W) marshalProposal unmarshal marshalDisk raftPath raftAncestors hasTransport Send wait nonce looks) s key).
Proof. unfold allowWrite. destruct (raftWriteLeader s) as [l []]; destruct (draining (cp s)); try done; destruct (shardForKeyLocked (cp s) key); try done; by case_bool_decide. Qed.

(** A write of a client. *)
Inductive write := WPut (key value : bytes) | WDelete (key : bytes).
Definition mutation_of (w : write) : DataMutation := match w with WPut key value => mkDataMutation "put" key value | WDelete key => mkDataMutation "delete" key [] end.
Definition do_write (nonce : result bytes) (looks : list bool) (w : write) : SE replica Z :=
  match w with
  | WPut key value => replica_Put (su_factory u) (su_limit u) (su_queue u) marshalProposal unmarshal marshalDisk raftPath raftAncestors hasTransport Send wait
      (su_grow u) (su_marshal u) (su_path u) (su_ancestors u) (su_pool u) (su_clock u) nonce looks key value
  | WDelete key => replica_Delete (su_factory u) (su_limit u) (su_queue u) marshalProposal unmarshal marshalDisk raftPath raftAncestors hasTransport Send wait
      (su_grow u) (su_marshal u) (su_path u) (su_ancestors u) (su_pool u) (su_clock u) nonce looks key
  end.

Lemma do_write_cases nonce looks w s : (exists e, do_write nonce looks w s = (Err e, s)) \/ do_write nonce looks w s = propose_data nonce looks (mutation_of w) s.
Proof.
  destruct w as [key value|key]; cbn [do_write].
  - pose proof (allowWrite_returns nonce looks s key) as Ha. unfold replica_Put, mbind, SE_bind, get, lift. destruct (isClosing (consensus s)); [left; by eexists|].
    case_bool_decide; [left; by eexists|]. case_bool_decide; [left; by eexists|]. destruct (allowWrite s key) as [[]|e| |]; [apply commit_data_cases|left; by eexists|done|done].
  - pose proof (allowWrite_returns nonce looks s key) as Ha. unfold replica_Delete, mbind, SE_bind, get, lift. destruct (isClosing (consensus s)); [left; by eexists|].
    case_bool_decide; [left; by eexists|]. destruct (allowWrite s key) as [[]|e| |]; [apply commit_data_cases|left; by eexists|done|done].
Qed.

Lemma do_write_good nonce looks w s : running s -> returned nonce -> survives marshalProposal unmarshal "data" None (Some (mutation_of w)) -> seq_ok s ->
  good (do_write nonce looks w) s /\ forall seq, muts_ok (snd (do_write nonce looks w s)) -> fst (do_write nonce looks w s) = Ok seq -> logged (mutation_of w) seq (snd (do_write nonce looks w s)).
Proof.
  intros Hr Hn Hm Hs. destruct (do_write_cases nonce looks w s) as [[e E]|E]; unfold good; rewrite E; [by split|]. by apply propose_good.
Qed.

(** *** Requests to the control plane *)

Definition request_mutation (self : string) (r : request) : ControlMutation :=
  let revision := ExpectedRevision (options r) in let id := TrimSpace (OperationID (options r)) in
  match r with
  | TransferLeader shardID target _ | TriggerRebalance shardID target _ => mkControlMutation revision id "transfer-leader" (TrimSpace shardID) (TrimSpace target) [] ""
  | TriggerSplit shardID splitKey _ => mkControlMutation revision id "split" (TrimSpace shardID) "" splitKey ""
  | PrepareDrain _ _ => mkControlMutation revision id "prepare-drain" "" "" [] self
  end.

Abbreviation replica_serve := (replica_serve (su_factory u) (su_limit u) (su_queue u) marshalProposal unmarshal marshalDisk raftPath raftAncestors hasTransport Send wait
    (su_grow u) (su_marshal u) (su_path u) (su_ancestors u) (su_pool u) (su_clock u)).
Abbreviation hooks := (replica_hooks (N := N) (su_factory u) (su_limit u) (su_queue u) (su_grow u) (su_marshal u) (su_path u) (su_ancestors u) (su_pool u) (su_clock u)).

Lemma leaves_settle (etcd : bool) (m : SE replica ControlPlane.applied) : leaves_raft m -> leaves_raft (settle etcd m).
Proof. intros Hl s0. specialize (Hl s0). unfold settle. destruct (m s0) as [[[| |e]|e| |] s1]; try done. by destruct etcd. Qed.

Lemma settle_good (etcd : bool) (m : SE replica ControlPlane.applied) s : good m s -> good (settle etcd m) s.
Proof.
  intros Hm. unfold good, settle in *. destruct (m s) as [[[| |e]|e| |] s1]; cbn in *; try done.
  destruct etcd; cbn; intros Hmuts; destruct (Hm Hmuts) as [_ Hst]; (split; [done|]); [|done]. etrans; [exact Hst|]. apply rtc_once, StepControlLatch.
Qed.

Lemma good_quiet_bind {A B} (m : SE replica A) (f : A -> SE replica B) s r : m s = (r, s) -> returned r -> (forall a, r = Ok a -> good (f a) s) -> good (a ← m; f a) s.
Proof. intros E Hr Hf. unfold good, mbind, SE_bind. rewrite E. destruct r as [a|e| |]; [by apply Hf|by split|done|done]. Qed.

Lemma apply_status_quiet s : exists r, apply_status s = (r, s) /\ returned r.
Proof. unfold apply_status, mbind, SE_bind, get. destruct (_ || _); [by eexists|]. destruct (failure _); by eexists. Qed.

(** What follows the answer [r] of the commit log. *)
Definition answered_with (r : result ControlCommittedEntry) : SE replica unit :=
  match r with
  | Err err => _ ← (if true && negb (isPreProposalRejection err) then fail_commit err else mret tt); throw err
  | Ok entry => settle true (drain (Commit_Index (cc_Commit entry)))
  | Panic => lift Panic
  | NoFuel => lift NoFuel
  end.

Lemma leaves_answered r : leaves_raft (answered_with r).
Proof. destruct r as [entry|e| |]; [apply leaves_settle, leaves_drain|cbn|done|done]. by destruct (negb _). Qed.

Lemma answered_good r s1 : running s1 -> returned r -> good (answered_with r) s1.
Proof.
  intros Hr1 Hret. destruct r as [entry|e| |]; [by apply settle_good, drain_good|cbn|done|done].
  destruct (negb (isPreProposalRejection e)); [|by apply good_quiet]. intros _. split; [done|]. apply rtc_once. by apply StepControlLatch.
Qed.

Lemma propose_control_good nonce looks mutation opts fp mutate s : running s -> returned nonce -> seq_ok s ->
  survives marshalProposal unmarshal "control" (Some (mkControlMutation (ExpectedRevision opts) (TrimSpace (OperationID opts)) (cm_Kind mutation) (ShardID mutation)
      (Target mutation) (Split mutation) (cm_NodeID mutation))) None ->
  good (propose (H := raft_consensus (H := H) (M := M) (W := W) marshalProposal unmarshal marshalDisk raftPath raftAncestors hasTransport Send wait nonce looks)
    (su_grow u) (su_marshal u) (su_path u) (su_ancestors u) hooks mutation opts fp mutate) s.
Proof.
  intros Hr Hn Hs Hm. unfold propose. set (m' := mkControlMutation _ _ _ _ _ _ _) in *. pose proof (run_call_good (CallControl nonce m') looks s Hr (conj Hn Hm) Hs) as Hc%wpx_ret_inv.
  cbn [beforeProposal applyFromLog replica_hooks]. change (default (mret tt) (Some ?x)) with x. destruct (apply_status_quiet s) as (r0 & E0 & Hr0).
  apply (good_quiet_bind _ _ s r0 E0 Hr0). intros _ _. apply (good_quiet_bind get _ s (Ok s)); [done|done|]. intros ? [= <-].
  apply (good_quiet_bind _ _ s _ eq_refl (check_returns (cp s) opts fp)). intros [] _; [by apply good_quiet|].
  cbn [CommitControl raft_consensus Provider]. fold (raft_of s). rewrite bool_decide_true by done. unfold wpx in Hc.
  destruct (raft_CommitControl _ _ _ _ _ _ _ _ _ m' (raft_of s, looks)) as [r [c l]]. set (s1 := mkNode (cp s) (disk s) (with_raft c (consensus s))).
  assert (Hst : raft_ok unmarshal applied c /\ grown (raft_of s) c /\ returned (translated r)) by (destruct r; [by destruct Hc as [[? ?] ?]|by destruct Hc|done|done]).
  destruct Hst as (Hok & Hg & Hret).
  assert (Hm1 : muts_ok s1 -> rtc rstep (RUp s) (RUp s1)) by (intros; apply rtc_once; by apply (StepRaft _ _ _ _ _ _ _ _ _ _ _ _ _ _ _ _ _ s c)).
  change (muts_ok (snd (answered_with (translated r) s1)) -> returned (fst (answered_with (translated r) s1)) /\ rtc rstep (RUp s) (RUp (snd (answered_with (translated r) s1)))).
  intros Hmuts. rewrite (leaves_answered (translated r) s1) in Hmuts. pose proof (steps_running s s1 Hr (Hm1 Hmuts)) as Hr1.
  destruct (answered_good (translated r) s1 Hr1 Hret) as [H1' H2']; [by rewrite (leaves_answered (translated r) s1)|]. split; [done|]. etrans; [by apply Hm1|done].
Qed.

Lemma serve_good nonce looks r s : running s -> returned nonce -> seq_ok s ->
  survives marshalProposal unmarshal "control" (Some (request_mutation (nodeID (cp s)) r)) None -> good (replica_serve nonce looks r) s.
Proof.
  intros Hr Hn Hs Hm.
  assert (Happ : forall mutation opts fp mutate, survives marshalProposal unmarshal "control" (Some (mkControlMutation (ExpectedRevision opts) (TrimSpace (OperationID opts)) (cm_Kind mutation) (ShardID mutation)
      (Target mutation) (Split mutation) (cm_NodeID mutation))) None ->
    good (applyControlMutation (H := raft_consensus (H := H) (M := M) (W := W) marshalProposal unmarshal marshalDisk raftPath raftAncestors hasTransport Send wait nonce looks)
      (su_grow u) (su_marshal u) (su_path u) (su_ancestors u) hooks mutation opts fp mutate) s).
  { intros mutation opts fp mutate Hsv. pose proof (propose_control_good nonce looks mutation opts fp mutate s Hr Hn Hs Hsv) as Hp. unfold good, applyControlMutation in *. unfold mbind at 1 3 5, SE_bind, get.
    set (P := propose _ _ _ _ _ mutation opts fp mutate) in *. clearbody P. destruct (commitErr (cp s)); [by split|]. cbn [admitProposal replica_hooks].
    unfold beginCommitLogOperation, mbind, SE_bind, get. destruct (_ || _); [by split|]. cbn. unfold defer. by destruct (P s) as [r' s1]. }
  destruct r as [shardID target opts|shardID splitKey opts|shardID target opts|node opts]; cbn in Hm; unfold Replica.replica_serve; cbn [serve].
  - unfold transferLeaderWithOptions. case_bool_decide; [by apply good_quiet|]. by apply Happ.
  - unfold triggerSplitWithOptions. case_bool_decide; [by apply good_quiet|]. by apply Happ.
  - unfold triggerRebalanceWithOptions, transferLeaderWithOptions. case_bool_decide; [by apply good_quiet|]. by apply Happ.
  - unfold prepareDrainWithOptions. apply (good_quiet_bind get _ s (Ok s)); [done|done|]. intros ? [= <-]. case_bool_decide as E; [by apply good_quiet|]. apply Happ. cbn.
    destruct (decide (or_default (TrimSpace node) (nodeID (cp s)) = nodeID (cp s))) as [->|]; done.
Qed.

(** *** All calls *)

Inductive rcall :=
| CWrite (nonce : result bytes) (looks : list bool) (w : write)
| CPeers (looks : list bool) (messages : list PeerMessage)
| CTickLog (looks : list bool)
| CServe (nonce : result bytes) (looks : list bool) (r : request)
| CClose.

Definition run_rcall (k : rcall) : SE replica (option Z) :=
  match k with
  | CWrite nonce looks w => seq ← do_write nonce looks w; mret (Some seq)
  | CPeers looks messages => _ ← replica_HandlePeerMessages (su_factory u) (su_limit u) (su_queue u) unmarshal marshalDisk raftPath raftAncestors hasTransport Send
      (su_grow u) (su_marshal u) (su_path u) (su_ancestors u) (su_pool u) (su_clock u) looks messages; mret None
  | CTickLog looks => _ ← tickCommitLog (su_factory u) (su_limit u) (su_queue u) unmarshal marshalDisk raftPath raftAncestors hasTransport Send
      (su_grow u) (su_marshal u) (su_path u) (su_ancestors u) (su_pool u) (su_clock u) looks; mret None
  | CServe nonce looks r => _ ← replica_serve nonce looks r; mret None
  | CClose => _ ← close_admission; mret None
  end.

(** The nonce can be read or not, and JSON gives the mutation back. *)
Definition rcall_ok (k : rcall) s : Prop :=
  match k with
  | CWrite nonce _ w => returned nonce /\ survives marshalProposal unmarshal "data" None (Some (mutation_of w))
  | CServe nonce _ r => returned nonce /\ survives marshalProposal unmarshal "control" (Some (request_mutation (nodeID (cp s)) r)) None
  | _ => True
  end.

Lemma good_map {A B} (m : SE replica A) (g : A -> B) s : good m s -> good (a ← m; mret (g a)) s.
Proof. unfold good, mbind, SE_bind. by destruct (m s) as [[a|e| |] s1]. Qed.

(** C4. The calls of a node keep it in order, and an acknowledged write is in
    the log: on a reachable node, a write, messages of peers, a tick, a
    request to the control plane or the shutdown returns a result or an error
    and leads to a reachable node; a write that is answered with a sequence
    number was committed and applied at that position of the log, and (with
    [replica_reads_log]) stays there through every later crash. *)
Theorem acknowledged_writes_are_logged k s : reachable (H := H) (M := M) (W := W) unmarshal applied u (RUp s) -> rcall_ok k s -> seq_ok s ->
  let '(r, s') := run_rcall k s in muts_ok s' ->
  returned r /\ reachable (H := H) (M := M) (W := W) unmarshal applied u (RUp s') /\
  forall nonce looks w seq, k = CWrite nonce looks w -> r = Ok (Some seq) -> logged (mutation_of w) seq s'.
Proof.
  intros Hreach Hk Hs. pose proof (reachable_running unmarshal applied u s Hu Hreach) as Hr.
  assert (Hg : good (run_rcall k) s).
  { destruct k as [nonce looks w|looks messages|looks|nonce looks r|]; cbn [run_rcall rcall_ok] in *; [destruct Hk; apply good_map; by apply do_write_good|apply good_map; by apply HandlePeerMessages_good|apply good_map; by apply tick_good|destruct Hk; apply good_map; by apply serve_good|].
    intros _. split; [done|]. eapply rtc_l; [apply (StepClosing _ _ _ _ _ _ _ _ _ _ _ _ _ _ _ _ _ true true s)|]. apply rtc_once. apply StepQuiesce. }
  destruct (run_rcall k s) as [r s'] eqn:E. unfold good in Hg. rewrite E in Hg. cbn [fst snd] in Hg. intros Hmuts. destruct (Hg Hmuts) as [Hret Hst]. split_and!; [done|..].
  - destruct Hreach as (wal & store & c & Hw & Es & Eo & Hsteps). exists wal, store, c. split_and!; [done..|]. by etrans.
  - intros nonce looks w seq -> ->. destruct Hk as [Hn Hm]. destruct (do_write_good nonce looks w s Hr Hn Hm Hs) as [_ Hl]. cbn in E. unfold mbind, SE_bind in E.
    destruct (do_write nonce looks w s) as [[q|e| |] s1]; try done. injection E as <- <-. by apply (Hl q).
Qed.
End Calls.

(** ** Examples *)

Module Single.
#[local] Existing Instance Solo.solo_lib.
Abbreviation replica := (node (parts Solo.node (LSM (T := MapTable) (H := run_handle) (M := files) (W := list Entry)))).
Abbreviation applied_of := (fun n => Z.of_nat (Solo.done n)).

Definition settings (limit : Z) : setup MapTable :=
  mkSetup newMapTable limit 4 eager_planner 40 1 false false false demo_grow demo_marshal demo_path 1 (fun _ => false) (fun _ => 0).

Lemma settings_ok limit : 0 < limit -> setup_ok (settings limit).
Proof. intros Hl. split_and!; [apply new_map_rep|done|done]. Qed.

(** A node that starts from nothing, and a write on it. *)
Definition first (limit : Z) : result unit * replica :=
  replica_New (H := run_handle) newMapTable limit demo_grow demo_marshal demo_path 1 (fun _ => false) 1 false false false false [] (no_files []) Solo.started (cp demo_start) demo_fs.

Definition looks : list bool := [false; false; false].
Definition put_ab : write := WPut (bytes_of_string "a") (bytes_of_string "b").
Definition writing (limit : Z) (w : write) : SE replica Z :=
  do_write Solo.encode_proposal Solo.decode_proposal Solo.no_disk "raft.json" 1 false Solo.no_send Solo.no_wait (settings limit) (Ok [Byte.x2a]) looks w.

Lemma started_ok : raft_ok Solo.decode_proposal applied_of Solo.started /\ proposalSeq Solo.started = 0.
Proof.
  split; [|vm_compute; reflexivity].
  apply (newEtcdRaft_ok Solo.encode_proposal Solo.decode_proposal Solo.no_disk "raft.json" 1 false Solo.no_send Solo.no_wait applied_of Solo.solo_laws Solo.decode_returned Solo.solo_env Solo.load_disk
    (mkRaftConfig "data" "n1" []) (mkFS ∅ [] 0) [false; false; false; false]). exact Solo.start_started.
Qed.

Lemma control_ok : cp_wf (cp demo_start).
Proof.
  destruct demo_started as (Hp & Hf & fs' & Hn). by destruct (newControlPlane_boot demo_grow demo_marshal demo_path Hp 1 demo_unmarshal demo_opts newLocalConsensus demo_fs demo_start fs' Hn Hf).
Qed.

Lemma first_reachable limit : fst (first limit) = Ok tt -> reachable (H := run_handle) (M := files) (W := list Entry) Solo.decode_proposal applied_of (settings limit) (RUp (snd (first limit))).
Proof.
  intros E. exists [], (no_files []), Solo.started. split_and!; [done|done|done|]. apply rtc_once. destruct started_ok as [Hok _].
  eapply (StepStart _ _ _ _ _ _ _ _ _ _ _ _ _ _ _ _ _ false [] (no_files []) Solo.started Solo.started (cp demo_start) demo_fs); [done| |done|apply control_ok|].
  - assert (committed Solo.started = []) as -> by (vm_compute; reflexivity). constructor.
  - revert E. unfold first. by destruct (replica_New _ _ _ _ _ _ _ _ _ _ _ _ _ _ _ _ _) as [[[]|e| |] s]; cbn; intros [=].
Qed.

Definition after (limit : Z) : replica := snd (writing limit put_ab (snd (first limit))).

Lemma put_survives : survives Solo.encode_proposal Solo.decode_proposal "data" None (Some (mutation_of put_ab)).
Proof. intros proposer request id. apply count_codec. Qed.

Lemma first_seq limit : proposalSeq (raft_of (snd (first limit))) = 0 -> seq_ok (snd (first limit)).
Proof. intros E. unfold seq_ok. rewrite E. lia. Qed.

Lemma puts_ok (l : list raftCommittedProposal) : forallb (fun x => match rcp_Data x with Some d => negb (bool_decide (dm_Kind (dc_Mutation d) = "delete"%string)) | None => true end) l = true ->
  Forall (mut_ok (H := run_handle) (M := files)) l.
Proof.
  intros Hl. apply Forall_forall. intros x Hx d Hd. rewrite forallb_forall in Hl. specialize (Hl x (proj1 (list_elem_of_In _ _) Hx)). cbn in Hl. rewrite Hd in Hl.
  split; [done|]. intros Ek. rewrite bool_decide_true in Hl by done. done.
Qed.

Lemma after_reachable limit : 0 < limit -> fst (first limit) = Ok tt -> proposalSeq (raft_of (snd (first limit))) = 0 ->
  Forall (mut_ok (H := run_handle) (M := files)) (committed (raft_of (after limit))) ->
  reachable (H := run_handle) (M := files) (W := list Entry) Solo.decode_proposal applied_of (settings limit) (RUp (after limit)).
Proof.
  intros Hl E Hs Hm. pose proof (first_reachable limit E) as Hf. pose proof (reachable_running _ _ _ _ (settings_ok limit Hl) Hf) as Hr.
  destruct (do_write_good Solo.encode_proposal Solo.decode_proposal applied_of Solo.no_disk "raft.json" 1 false Solo.no_send Solo.no_wait Solo.solo_laws Solo.decode_returned Solo.solo_env
    (settings limit) (settings_ok limit Hl) (Ok [Byte.x2a]) looks put_ab (snd (first limit)) Hr I put_survives (first_seq limit Hs)) as [Hg _].
  destruct (Hg Hm) as [_ Hst]. destruct Hf as (wal & store & c & Hw & Es & Eo & Hsteps). exists wal, store, c. split_and!; [done..|]. by etrans.
Qed.
End Single.



Lemma acknowledged_writes_are_logged_witness :
  fst (Single.writing 1 Single.put_ab (snd (Single.first 1))) = Ok 1 /\ logged (mutation_of Single.put_ab) 1 (Single.after 1).
Proof.
  assert (E : fst (Single.writing 1 Single.put_ab (snd (Single.first 1))) = Ok 1) by (vm_compute; reflexivity). split; [exact E|].
  pose proof (acknowledged_writes_are_logged (RL := Solo.solo_lib) Solo.encode_proposal Solo.decode_proposal Single.applied_of Solo.no_disk "raft.json" 1 false Solo.no_send Solo.no_wait Solo.solo_laws Solo.decode_returned Solo.solo_env
    (Single.settings 1) (Single.settings_ok 1 eq_refl) (CWrite (Ok [Byte.x2a]) Single.looks Single.put_ab) (snd (Single.first 1)) (Single.first_reachable 1 ltac:(vm_compute; reflexivity)) (conj I Single.put_survives)
    (Single.first_seq 1 ltac:(vm_compute; reflexivity))) as Hx.
  cbn [run_rcall] in Hx. unfold Single.writing, Single.after, Single.writing in *. unfold mbind, SE_bind in Hx.
  assert (Hm : Forall (mut_ok (H := run_handle) (M := files)) (committed (raft_of (Single.after 1)))) by (apply Single.puts_ok; vm_compute; reflexivity). unfold Single.after, Single.writing in Hm.
  destruct (do_write _ _ _ _ _ _ _ _ _ _ _ _ _) as [[q|e| |] s1]; cbn in E, Hm |- *; try discriminate E. injection E as ->.
  destruct (Hx Hm) as (_ & _ & Hl). by apply (Hl _ _ _ _ eq_refl eq_refl).
Defined.
