(* ===== verification/Base64.v ===== *)
(** * Base64 ([encoding/base64], as the server and the gateway use it)

    The standard alphabet with padding.  Decoding skips line breaks, and
    outside of the strict mode ignores the bits of the last character that
    carry nothing. *)

From Stdlib Require Import ZArith Lia Strings.Ascii Strings.String.
From stdpp Require Import base list strings.
From S2P Require Import Prelude.
Local Open Scope Z_scope.

Definition alphabet : list ascii := list_ascii_of_string "ABCDEFGHIJKLMNOPQRSTUVWXYZabcdefghijklmnopqrstuvwxyz0123456789+/".

(** The character of six bits, and the six bits of a character. *)
Definition char_of (z : Z) : ascii := nth (Z.to_nat z) alphabet "A"%char.
Fixpoint position (c : ascii) (l : list ascii) (i : Z) : option Z :=
  match l with [] => None | x :: l => if bool_decide (x = c) then Some i else position c l (i + 1) end.
Definition sextet (c : ascii) : option Z := position c alphabet 0.

(** Three bytes as four characters. *)
Definition group (a b c : Z) : list Z := [a / 4; (a mod 4) * 16 + b / 16; (b mod 16) * 4 + c / 64; c mod 64].

Fixpoint encode_chars (bs : bytes) : list ascii :=
  match bs with
  | [] => []
  | [a] => map char_of (take 2 (group (byte_to_Z a) 0 0)) ++ ["="; "="]%char
  | [a; b] => map char_of (take 3 (group (byte_to_Z a) (byte_to_Z b) 0)) ++ ["="]%char
  | a :: b :: c :: bs => map char_of (group (byte_to_Z a) (byte_to_Z b) (byte_to_Z c)) ++ encode_chars bs
  end.

Definition EncodeToString (bs : bytes) : string := string_of_list_ascii (encode_chars bs).

(** Four sextets as three bytes. *)
Definition ungroup (w x y z : Z) : bytes :=
  [byte_of_Z (w * 4 + x / 16); byte_of_Z ((x mod 16) * 16 + y / 4); byte_of_Z ((y mod 4) * 64 + z)].

Definition ErrBase64 : error := ErrNew "illegal base64 data".

(** The groups of an input without line breaks; padding ends it. *)
Fixpoint decode_chars (strict : bool) (cs : list ascii) : result bytes :=
  match cs with
  | [] => Ok []
  | c0 :: c1 :: c2 :: c3 :: rest =>
      match sextet c0, sextet c1, sextet c2, sextet c3 with
      | Some w, Some x, Some y, Some z => bs ← decode_chars strict rest; mret (ungroup w x y z ++ bs)
      | Some w, Some x, Some y, None =>
          if bool_decide (c3 = "="%char /\ rest = []) && negb (strict && bool_decide (y mod 4 <> 0)) then Ok (take 2 (ungroup w x y 0)) else Err ErrBase64
      | Some w, Some x, None, None =>
          if bool_decide (c2 = "="%char /\ c3 = "="%char /\ rest = []) && negb (strict && bool_decide (x mod 16 <> 0)) then Ok (take 1 (ungroup w x 0 0)) else Err ErrBase64
      | _, _, _, _ => Err ErrBase64
      end
  | _ => Err ErrBase64
  end.

Definition is_break (c : ascii) : bool := bool_decide (c = "010"%char \/ c = "013"%char).
Definition decode_string (strict : bool) (s : string) : result bytes :=
  decode_chars strict (filter (fun c => is_break c = false) (list_ascii_of_string s)).
Definition DecodeString : string -> result bytes := decode_string false.
Definition Strict_DecodeString : string -> result bytes := decode_string true.

(** ** Round trips *)

Lemma sextet_char z : 0 <= z < 64 -> sextet (char_of z) = Some z.
Proof.
  intros Hz. assert (H : forallb (fun n => bool_decide (sextet (char_of (Z.of_nat n)) = Some (Z.of_nat n))) (seq 0 64) = true) by (vm_compute; reflexivity).
  rewrite forallb_forall in H. specialize (H (Z.to_nat z)). rewrite Z2Nat.id in H by lia. apply (bool_decide_eq_true_1 _), H, list_elem_of_In, elem_of_seq. lia.
Qed.

Lemma char_sextet c z : sextet c = Some z -> char_of z = c /\ 0 <= z < 64.
Proof.
  assert (H : forall l i, position c l i = Some z -> i <= z < i + zlen l /\ nth (Z.to_nat (z - i)) l "A"%char = c).
  { induction l as [|x l IH]; intros i; cbn [position]; [done|]. rewrite zlen_cons. pose proof (zlen_nonneg l). case_bool_decide as E.
    - intros [= <-]. rewrite Z.sub_diag. split; [lia|done].
    - intros [Hr Hn]%IH. split; [lia|]. replace (Z.to_nat (z - i)) with (S (Z.to_nat (z - (i + 1)))) by lia. done. }
  intros [Hr Hn]%H. rewrite Z.sub_0_r in Hn. change (zlen alphabet) with 64 in Hr. split; [done|lia].
Qed.

Lemma group_range a b c : 0 <= a < 256 -> 0 <= b < 256 -> 0 <= c < 256 -> Forall (fun z => 0 <= z < 64) (group a b c).
Proof. intros Ha Hb Hc. unfold group. repeat constructor; Z.div_mod_to_equations; lia. Qed.

Lemma ungroup_group a b c : 0 <= a < 256 -> 0 <= b < 256 -> 0 <= c < 256 ->
  ungroup (a / 4) ((a mod 4) * 16 + b / 16) ((b mod 16) * 4 + c / 64) (c mod 64) = [byte_of_Z a; byte_of_Z b; byte_of_Z c].
Proof.
  intros Ha Hb Hc. unfold ungroup. assert (E1 : a / 4 * 4 + ((a mod 4) * 16 + b / 16) / 16 = a) by (Z.div_mod_to_equations; lia).
  assert (E2 : (((a mod 4) * 16 + b / 16) mod 16) * 16 + ((b mod 16) * 4 + c / 64) / 4 = b) by (Z.div_mod_to_equations; lia).
  assert (E3 : (((b mod 16) * 4 + c / 64) mod 4) * 64 + c mod 64 = c) by (Z.div_mod_to_equations; lia). by rewrite E1, E2, E3.
Qed.

Lemma char_no_break z : is_break (char_of z) = false.
Proof.
  unfold char_of. destruct (nth_in_or_default (Z.to_nat z) alphabet "A"%char) as [Hin| ->]; [|done].
  assert (H : forallb (fun c => negb (is_break c)) alphabet = true) by (vm_compute; reflexivity).
  rewrite forallb_forall in H. apply negb_true_iff, (H _ Hin).
Qed.

Lemma list_ind3 {A} (P : list A -> Prop) :
  P [] -> (forall a, P [a]) -> (forall a b, P [a; b]) -> (forall a b c l, P l -> P (a :: b :: c :: l)) -> forall l, P l.
Proof.
  intros H0 H1 H2 H3 l. assert (Hn : forall n l, (length l <= n)%nat -> P l); [|by apply (Hn (length l))].
  induction n as [|n IH]; intros [|a [|b [|c k]]] Hl; cbn in Hl; auto; [lia..|]. apply H3, IH. lia.
Qed.

Lemma encode_no_break bs : filter (fun c => is_break c = false) (encode_chars bs) = encode_chars bs.
Proof.
  apply list_filter_all. induction bs as [|a|a b|a b c bs IH] using list_ind3; intros x Hx; cbn [encode_chars] in Hx;
    repeat (apply elem_of_app in Hx as [Hx|Hx]); try (by apply elem_of_nil in Hx); try (by apply IH);
    try (apply list_elem_of_fmap in Hx as (z & -> & _); apply char_no_break); repeat (apply elem_of_cons in Hx as [->|Hx]; [done|]); by apply elem_of_nil in Hx.
Qed.

Lemma decode_encode strict bs : decode_chars strict (encode_chars bs) = Ok bs.
Proof.
  pose proof byte_to_Z_range as Hr.
  induction bs as [|a|a b|a b c bs IH] using list_ind3; [done|..]; cbn [encode_chars].
  - specialize (Hr a). pose proof (group_range (byte_to_Z a) 0 0 Hr ltac:(lia) ltac:(lia)) as Hg. unfold group in *. cbn [take map app decode_chars].
    rewrite !Forall_cons in Hg. destruct Hg as (G0 & G1 & _). rewrite !sextet_char by done. change (sextet "="%char) with (@None Z). cbv iota.
    rewrite bool_decide_true by done. rewrite (bool_decide_false (_ mod 16 <> 0)) by (intros Hn; apply Hn; Z.div_mod_to_equations; lia). rewrite andb_false_r. cbn [negb andb].
    unfold ungroup. cbn [take]. rewrite <- (byte_of_to_Z a) at 3. do 3 f_equal. Z.div_mod_to_equations; lia.
  - pose proof (Hr a) as Ha. pose proof (Hr b) as Hb. pose proof (group_range _ _ 0 Ha Hb ltac:(lia)) as Hg. pose proof (ungroup_group _ _ 0 Ha Hb ltac:(lia)) as Hu.
    unfold group in *. cbn [take map app decode_chars]. rewrite !Forall_cons in Hg. destruct Hg as (G0 & G1 & G2 & _). rewrite !sextet_char by done.
    change (sextet "="%char) with (@None Z). cbv iota. rewrite bool_decide_true by done.
    rewrite (bool_decide_false (_ mod 4 <> 0)) by (intros Hn; apply Hn; Z.div_mod_to_equations; lia). rewrite andb_false_r. cbn [negb andb].
    change (0 mod 64) with 0 in Hu. rewrite Hu. cbn [take]. by rewrite !byte_of_to_Z.
  - pose proof (Hr a) as Ha. pose proof (Hr b) as Hb. pose proof (Hr c) as Hc. pose proof (group_range _ _ _ Ha Hb Hc) as Hg. pose proof (ungroup_group _ _ _ Ha Hb Hc) as Hu.
    unfold group in *. cbn [map app decode_chars]. rewrite !Forall_cons in Hg. destruct Hg as (G0 & G1 & G2 & G3 & _). rewrite !sextet_char by done.
    by rewrite Hu, !byte_of_to_Z, IH.
Qed.

Lemma base64_roundtrip strict bs : decode_string strict (EncodeToString bs) = Ok bs.
Proof. unfold decode_string, EncodeToString. rewrite list_ascii_of_string_of_list_ascii, encode_no_break. apply decode_encode. Qed.

Lemma regroup w x y z : 0 <= w < 64 -> 0 <= x < 64 -> 0 <= y < 64 -> 0 <= z < 64 ->
  group (w * 4 + x / 16) ((x mod 16) * 16 + y / 4) ((y mod 4) * 64 + z) = [w; x; y; z].
Proof.
  intros Hw Hx Hy Hz. unfold group. assert (E1 : (w * 4 + x / 16) / 4 = w) by (Z.div_mod_to_equations; lia).
  assert (E2 : ((w * 4 + x / 16) mod 4) * 16 + (x mod 16 * 16 + y / 4) / 16 = x) by (Z.div_mod_to_equations; lia).
  assert (E3 : ((x mod 16 * 16 + y / 4) mod 16) * 4 + (y mod 4 * 64 + z) / 64 = y) by (Z.div_mod_to_equations; lia).
  assert (E4 : (y mod 4 * 64 + z) mod 64 = z) by (Z.div_mod_to_equations; lia). by rewrite E1, E2, E3, E4.
Qed.

(** The strict mode accepts only what the encoder writes, up to line breaks. *)
Lemma strict_canonical cs : forall bs, decode_chars true cs = Ok bs -> encode_chars bs = cs.
Proof.
  assert (Hn : forall n cs bs, (length cs <= n)%nat -> decode_chars true cs = Ok bs -> encode_chars bs = cs); [|intros bs; by apply (Hn (length cs))].
  assert (Hz : forall w x y z, 0 <= w < 64 -> 0 <= x < 64 -> 0 <= y < 64 -> 0 <= z < 64 ->
    map byte_to_Z (ungroup w x y z) = [w * 4 + x / 16; (x mod 16) * 16 + y / 4; (y mod 4) * 64 + z]).
  { intros w x y z Hw Hx Hy Hz. unfold ungroup. cbn [map]. rewrite !byte_to_of_Z. repeat f_equal; apply Z.mod_small; Z.div_mod_to_equations; lia. }
  induction n as [|n IH]; intros [|c0 [|c1 [|c2 [|c3 rest]]]] bs Hl; cbn in Hl; try lia; cbn [decode_chars]; try done; try (by intros [= <-]).
  destruct (sextet c0) as [w|] eqn:E0; [|done]. destruct (sextet c1) as [x|] eqn:E1; [|done]. apply char_sextet in E0 as [C0 R0], E1 as [C1 R1].
  destruct (sextet c2) as [y|] eqn:E2; destruct (sextet c3) as [z|] eqn:E3; [apply char_sextet in E2 as [C2 R2], E3 as [C3 R3]|apply char_sextet in E2 as [C2 R2]|done|].
  - destruct (decode_chars true rest) as [bs'| | |] eqn:Er; try done. intros [= <-]. apply IH in Er; [|lia]. cbn [encode_chars ungroup app]. pose proof (Hz w x y z R0 R1 R2 R3) as Hm. injection Hm as -> -> ->.
    rewrite Er, (regroup w x y z) by done. subst. done.
  - case_bool_decide as Ec; [|done]. case_bool_decide as Ey; [done|]. intros [= <-]. destruct Ec as [-> ->]. pose proof (Hz w x y 0 R0 R1 R2 ltac:(lia)) as Hm. injection Hm as Ha Hb Hc.
    cbn [encode_chars ungroup take]. rewrite Ha, Hb. pose proof (regroup w x y 0 R0 R1 R2 ltac:(lia)) as Hg. rewrite Ey, Z.mul_0_l, Z.add_0_l in Hg. rewrite Hg. subst. done.
  - case_bool_decide as Ec; [|done]. case_bool_decide as Ex; [done|]. intros [= <-]. destruct Ec as (-> & -> & ->). pose proof (Hz w x 0 0 R0 R1 ltac:(lia) ltac:(lia)) as Hm. injection Hm as Ha _.
    cbn [encode_chars ungroup take]. rewrite Ha. pose proof (regroup w x 0 0 R0 R1 ltac:(lia) ltac:(lia)) as Hg. rewrite Ex in Hg. cbn in Hg. change (group (w * 4 + x / 16) 0 0) with (group (w * 4 + x / 16) (0 * 16 + 0 / 4) (0 mod 4 * 64 + 0)). rewrite Hg. subst. done.
Qed.
