(* ===== verification/Server.v ===== *)
(** * The server ([pkg/lsm/server/server.go], [read.go])

    The handlers of the HTTP interface over a provider (the engine), the
    table of write requests with its eviction, and the writes that run in
    the background.  A JSON document is the value it encodes, and a body is
    what a decoder finds in it.  The text of an error is the error.  There is
    always a provider; what the package [net/http] does before a handler is
    called, and the page of statistics, are left out. *)

From Stdlib Require Import ZArith Lia Strings.Ascii.
From stdpp Require Import base list strings pretty gmap.
From S2P Require Import Prelude Base64 Engine GoStrings ControlPlane RaftLog Cdc.
Local Open Scope Z_scope.

(** ** Write requests (write_api.go) *)

Definition WriteConsistencyAccepted : string := "accepted".
Definition WriteConsistencyLocalCommitted : string := "local_committed".
Definition WriteRequestPending : string := "pending".
Definition WriteRequestCommitted : string := "committed".
Definition WriteRequestRejected : string := "rejected".

Record WriteRequestStatus := mkStatus {
  RequestID : string;
  wr_Operation : string;
  wr_Consistency : string;
  State : string;
  wr_Error : option error;
  CreatedAt : Z;
  UpdatedAt : Z
}.
Definition zero_status : WriteRequestStatus := mkStatus "" "" "" "" None 0 0.

Record writeRequestStore := mkRequests {
  rq_max : Z;
  rq_seq : Z;
  rq_order : list string;
  statusMap : gmap string WriteRequestStatus
}.

Definition defaultWriteRequestCapacity : Z := 4096.

Definition newWriteRequestStore (max : Z) : writeRequestStore :=
  mkRequests (if bool_decide (max <= 0) then defaultWriteRequestCapacity else max) 0 [] ∅.

(** The loop of [compactLocked]: the ids that stay, and the map. *)
Fixpoint compact_loop (order : list string) (drop : Z) (m : gmap string WriteRequestStatus) : list string * gmap string WriteRequestStatus :=
  match order with
  | [] => ([], m)
  | requestID :: order =>
      match m !! requestID with
      | None => compact_loop order drop m
      | Some status =>
          if bool_decide (0 < drop /\ State status <> WriteRequestPending) then compact_loop order (drop - 1) (delete requestID m)
          else let '(kept, m) := compact_loop order drop m in (requestID :: kept, m)
      end
  end.

Definition compactLocked (s : writeRequestStore) : writeRequestStore :=
  if bool_decide (zlen (rq_order s) <= rq_max s) then s
  else let '(kept, m) := compact_loop (rq_order s) (zlen (rq_order s) - rq_max s) (statusMap s) in mkRequests (rq_max s) (rq_seq s) kept m.

Definition request_id (n : Z) : string := "wr-" +:+ pretty n.

(** [New] takes its number before it takes the lock. *)
Definition requests_reserve (s : writeRequestStore) : string * writeRequestStore :=
  let seq := u64 (rq_seq s + 1) in (request_id seq, mkRequests (rq_max s) seq (rq_order s) (statusMap s)).

Definition requests_enter (requestID operation consistency : string) (now : Z) (s : writeRequestStore) : WriteRequestStatus * writeRequestStore :=
  let status := mkStatus requestID operation consistency WriteRequestPending None now now in
  (status, compactLocked (mkRequests (rq_max s) (rq_seq s) (rq_order s ++ [requestID]) (<[requestID := status]> (statusMap s)))).

Definition requests_New (operation consistency : string) (now : Z) (s : writeRequestStore) : WriteRequestStatus * writeRequestStore :=
  let '(requestID, s) := requests_reserve s in requests_enter requestID operation consistency now s.

(** [Commit] and [Reject]. *)
Definition requests_settle (state : string) (err : option error) (requestID : string) (now : Z) (s : writeRequestStore) : WriteRequestStatus * writeRequestStore :=
  let status := default zero_status (statusMap s !! requestID) in
  let status := mkStatus (RequestID status) (wr_Operation status) (wr_Consistency status) state err (CreatedAt status) now in
  (status, mkRequests (rq_max s) (rq_seq s) (rq_order s) (<[requestID := status]> (statusMap s))).
Definition requests_Commit : string -> Z -> writeRequestStore -> WriteRequestStatus * writeRequestStore := requests_settle WriteRequestCommitted None.
Definition requests_Reject (requestID : string) (err : error) : Z -> writeRequestStore -> WriteRequestStatus * writeRequestStore :=
  requests_settle WriteRequestRejected (Some err) requestID.
Definition requests_Get (requestID : string) (s : writeRequestStore) : option WriteRequestStatus := statusMap s !! requestID.

(** ** The provider *)

Inductive kv_write := KvPut (key value : bytes) | KvDelete (key : bytes).
Definition kv_op (w : kv_write) : string := match w with KvPut _ _ => "put" | KvDelete _ => "delete" end.
Definition kv_key (w : kv_write) : bytes := match w with KvPut key _ => key | KvDelete key => key end.

Abbreviation shard_status := (ShardStatus (list ReplicaStatus)).

(** The control interface, with or without write options. *)
Record ControlProvider (P : Type) := mkControlProvider {
  ctl_status : P -> ClusterStatus;
  ctl_shards : P -> list shard_status;
  ctl_withOptions : bool;
  ctl_request : request -> SE P unit
}.
Arguments ctl_status {P} _ _.
Arguments ctl_shards {P} _ _.
Arguments ctl_withOptions {P} _.
Arguments ctl_request {P} _ _.

(** The interfaces that a provider has. *)
Record StatsProvider (P : Type) := mkProvider {
  pv_health : P -> bool * string;
  pv_control : option (ControlProvider P);
  pv_writer : option (kv_write -> SE P unit);
  pv_reader : option (bytes -> SE P (option Entry * bool));
  pv_cdc : option (string -> Z -> Z -> P -> result CDCReadResult);
  pv_raft : option (list PeerMessage -> SE P unit)
}.
Arguments pv_health {P} _ _.
Arguments pv_control {P} _.
Arguments pv_writer {P} _.
Arguments pv_reader {P} _.
Arguments pv_cdc {P} _.
Arguments pv_raft {P} _.

(** ** Responses *)

Record writeRouteHint := mkHint { hint_Revision : Z; hint_ShardID : string; hint_Leader : string }.
Record writeErrorResponse := mkWriteError {
  SafeToRetry : bool;
  we_Error : error;
  we_Code : string;
  Retryable : bool;
  Route : option writeRouteHint
}.
Record routingShard := mkRoutingShard { rs_ID : string; StartKeyBase64 : string; EndKeyBase64 : string; rs_Leader : string }.
Record routingResponse := mkRouting { rt_Revision : Z; rt_Shards : list routingShard }.
Record cdcEventResponse := mkCdcEvent {
  ce_Offset : Z; ce_Operation : string; ce_KeyBase64 : string; ce_ValueBase64 : string; ce_Tombstone : bool; ce_CommittedAt : Z
}.
Record cdcReadResponse := mkCdcRead {
  cr_ShardID : string; cr_FromOffset : Z; cr_NextOffset : Z; cr_OldestOffset : Z; cr_DroppedBefore : bool; cr_Events : list cdcEventResponse
}.
Record readResponse := mkRead { rd_KeyBase64 : string; rd_ValueBase64 : string; Found : bool; Sequence : Z; rd_Consistency : string }.

Inductive body :=
| BText (msg : string)
| BError (e : error)
| BFlag (name : string)
| BHealth (ready : bool) (reason : string)
| BCluster (status : ClusterStatus)
| BShards (shards : list shard_status)
| BRoutes (r : routingResponse)
| BCdc (r : cdcReadResponse)
| BRead (r : readResponse)
| BStatus (s : WriteRequestStatus)
| BWriteError (e : writeErrorResponse).

Record response := mkResponse { StatusCode : Z; Body : body }.

Definition NotFound : response := mkResponse 404 (BText "404 page not found").
Definition MethodNotAllowed : response := mkResponse 405 (BText "method not allowed").
Definition bad_request (msg : string) : response := mkResponse 400 (BText msg).

(** [errors.Is]: the rejection of the built-in commit log unwraps. *)
Definition errors_Is (e target : error) : bool := bool_decide (e = target \/ (e = commitLogNotLeader /\ target = ErrNotLeader)).

Definition writeErrorHTTPStatus (err : error) : Z :=
  if errors_Is err ErrNotLeader then 409
  else if errors_Is err ErrShardNotFound then 404
  else if errors_Is err ErrBackpressure then 429
  else if errors_Is err ErrClosed then 503
  else 400.

Definition writeErrorCode (err : error) : string :=
  if errors_Is err ErrNotLeader then "not_leader"
  else if errors_Is err ErrShardNotFound then "shard_not_found"
  else if errors_Is err ErrBackpressure then "backpressure"
  else if errors_Is err ErrClosed then "closed"
  else "bad_request".

Definition isRetryableWriteError (err : error) : bool := errors_Is err ErrNotLeader || errors_Is err ErrShardNotFound || errors_Is err ErrBackpressure.

Definition writeActionResult (err : option error) : response :=
  match err with
  | None => mkResponse 200 (BFlag "ok")
  | Some err =>
      mkResponse (if errors_Is err ErrShardNotFound then 404
                  else if errors_Is err ErrControlWriteOptionsUnsupported then 400
                  else if errors_Is err ErrControlRevisionConflict || errors_Is err ErrControlOperationConflict then 409
                  else 400) (BError err)
  end.

(** ** Paths and options *)

Definition path_parts (path : string) : list string := SplitChar "/" (TrimChar "/" path).

(** [shardActionPath] and [nodeActionPath]. *)
Definition action_path (kind path : string) : option (string * string) :=
  match path_parts path with
  | [p0; p1; p2; p3] => if bool_decide (p0 = "cluster" /\ p1 = kind /\ p2 <> "" /\ p3 <> "") then Some (p2, p3) else None
  | _ => None
  end.
Definition shardActionPath : string -> option (string * string) := action_path "shards".
Definition nodeActionPath : string -> option (string * string) := action_path "nodes".

Definition writeStatusPath (path : string) : option string :=
  match path_parts path with
  | [p0; p1; p2] => if bool_decide (p0 = "kv" /\ p1 = "write-status" /\ p2 <> "") then Some p2 else None
  | _ => None
  end.

Definition normalizeWriteConsistency (mode defaultConsistency : string) : result string :=
  let trimmed := TrimSpace mode in
  if bool_decide (trimmed = "") then Ok (if bool_decide (defaultConsistency = "") then WriteConsistencyAccepted else defaultConsistency)
  else if bool_decide (trimmed = WriteConsistencyAccepted) then Ok WriteConsistencyAccepted
  else if bool_decide (trimmed = WriteConsistencyLocalCommitted) then Ok WriteConsistencyLocalCommitted
  else Err (ErrNew "invalid consistency").

Definition resolveHandlerOptions (consistency : string) (maxWriteRequests : Z) : string * Z :=
  (if bool_decide (consistency <> WriteConsistencyLocalCommitted /\ consistency <> WriteConsistencyAccepted) then WriteConsistencyAccepted else consistency,
   if bool_decide (maxWriteRequests <= 0) then defaultWriteRequestCapacity else maxWriteRequests).

(** What a JSON decoder finds next in a body. *)
Inductive decoded (A : Type) := EndOfBody | BadValue (msg : string) | Decoded (a : A).
Arguments EndOfBody {A}.
Arguments BadValue {A} _.
Arguments Decoded {A} _.

(** An empty body leaves the request as it is; behind the first value there
    may be nothing. *)
Definition decodeJSONBody {A} (zero : A) (b : decoded A * decoded unit) : A + response :=
  match b with
  | (EndOfBody, _) => inl zero
  | (BadValue msg, _) => inr (bad_request msg)
  | (Decoded a, EndOfBody) => inl a
  | (Decoded _, BadValue msg) => inr (bad_request msg)
  | (Decoded _, Decoded _) => inr (bad_request "request body must contain a single JSON value")
  end.

(** ** Routes *)

Definition effectiveWriteLeader (shard : shard_status) : string := default (Leader shard) (WriteLeader shard).

Fixpoint findRouteShardByKey (shards : list shard_status) (key : bytes) : option shard_status :=
  match shards with
  | [] => None
  | shard :: shards => if keyInRange key (StartKey shard) (EndKey shard) then Some shard else findRouteShardByKey shards key
  end.

(** ** Handlers *)

(** The state behind a handler: the provider's, and the table of requests. *)
Record server (P : Type) := mkServer { srv_provider : P; srv_requests : writeRequestStore }.
Arguments mkServer {P} _ _.
Arguments srv_provider {P} _.
Arguments srv_requests {P} _.

Abbreviation query := (gmap string (list string)).
Definition query_Get (q : query) (name : string) : string := match q !! name with Some (v :: _) => v | _ => "" end.

(** The bodies of requests *)
Record targetRequest := mkTarget { Target : string; tr_options : ControlWriteOptions }.
Record splitRequest := mkSplitRequest { SplitKeyBase64 : string; sr_options : ControlWriteOptions }.
Record putRequest := mkPut { pr_KeyBase64 : string; pr_ValueBase64 : string; pr_Consistency : string }.
Record deleteRequest := mkDelete { dr_KeyBase64 : string; dr_Consistency : string }.

Definition no_options : ControlWriteOptions := mkWriteOptions "" None.
Definition hasControlWriteOptions (o : ControlWriteOptions) : bool :=
  bool_decide (TrimSpace (OperationID o) <> "") || bool_decide (ExpectedRevision o <> None).
Definition request_options (r : request) : ControlWriteOptions :=
  match r with TransferLeader _ _ o => o | TriggerSplit _ _ o => o | TriggerRebalance _ _ o => o | PrepareDrain _ o => o end.

Definition without_options (r : request) : request :=
  match r with
  | TransferLeader shardID target _ => TransferLeader shardID target no_options
  | TriggerSplit shardID splitKey _ => TriggerSplit shardID splitKey no_options
  | TriggerRebalance shardID target _ => TriggerRebalance shardID target no_options
  | PrepareDrain nodeID _ => PrepareDrain nodeID no_options
  end.

Section Handlers.
Context {P : Type} (h : StatsProvider P) (writeConsistencyDefault : string).
Abbreviation handler A := (SE (server P) A).

(** A call of the provider; its error is a value. *)
Definition attempt {A} (m : SE P A) : handler (error + A) := fun s =>
  match m (srv_provider s) with
  | (Ok a, p) => (Ok (inr a), mkServer p (srv_requests s))
  | (Err e, p) => (Ok (inl e), mkServer p (srv_requests s))
  | (Panic, p) => (Panic, mkServer p (srv_requests s))
  | (NoFuel, p) => (NoFuel, mkServer p (srv_requests s))
  end.

Definition on_requests {A} (f : writeRequestStore -> A * writeRequestStore) : handler A := fun s =>
  let '(a, r) := f (srv_requests s) in (Ok a, mkServer (srv_provider s) r).

Definition handleHealth : handler response :=
  s ← get;
  let '(ready, reason) := pv_health h (srv_provider s) in
  mret (mkResponse (if (ready : bool) then 200 else 503) (BHealth ready reason)).

Definition handleClusterStatus (method : string) : handler response :=
  s ← get;
  if bool_decide (method <> "GET") then mret MethodNotAllowed
  else match pv_control h with
  | None => mret NotFound
  | Some control => mret (mkResponse 200 (BCluster (ctl_status control (srv_provider s))))
  end.

Definition handleShards (method : string) : handler response :=
  s ← get;
  if bool_decide (method <> "GET") then mret MethodNotAllowed
  else match pv_control h with
  | None => mret NotFound
  | Some control => mret (mkResponse 200 (BShards (ctl_shards control (srv_provider s))))
  end.

Definition routing_shard (shard : shard_status) : routingShard :=
  mkRoutingShard (ss_ID shard) (EncodeToString (StartKey shard)) (EncodeToString (EndKey shard)) (effectiveWriteLeader shard).

Definition handleRoutes (method : string) : handler response :=
  s ← get;
  if bool_decide (method <> "GET") then mret MethodNotAllowed
  else match pv_control h with
  | None => mret NotFound
  | Some control =>
      mret (mkResponse 200 (BRoutes (mkRouting (cl_Revision (ctl_status control (srv_provider s))) (map routing_shard (ctl_shards control (srv_provider s))))))
  end.

Definition cdc_event_response (e : CDCEvent) : cdcEventResponse :=
  mkCdcEvent (Offset e) (Operation e) (EncodeToString (ev_Key e)) (EncodeToString (ev_Value e)) (ev_Tombstone e) (CommittedAt e).

(** A number in a query; nothing stands for zero. *)
Definition query_number (parse : string -> option Z) (raw : string) : option Z :=
  let raw := TrimSpace raw in if bool_decide (raw = "") then Some 0 else parse raw.

Definition handleCDCEvents (method : string) (q : query) : handler response :=
  s ← get;
  if bool_decide (method <> "GET") then mret MethodNotAllowed
  else match pv_cdc h with
  | None => mret NotFound
  | Some ReadCDCEvents =>
      let asked := TrimSpace (query_Get q "shard") in
      let shardID :=
        match pv_control h with
        | Some control =>
            match ctl_shards control (srv_provider s) with [shard] => if bool_decide (asked = "") then ss_ID shard else asked | _ => asked end
        | None => asked
        end in
      if bool_decide (shardID = "") then mret (bad_request "missing shard query parameter")
      else match query_number ParseUint (query_Get q "offset") with
      | None => mret (bad_request "invalid offset")
      | Some offset =>
          match query_number Atoi (query_Get q "limit") with
          | None => mret (bad_request "invalid limit")
          | Some limit =>
              r ← attempt (fun p => (ReadCDCEvents shardID offset limit p, p));
              match r with
              | inl err => mret (mkResponse (if errors_Is err ErrShardNotFound then 404 else 400) (BError err))
              | inr r =>
                  mret (mkResponse 200 (BCdc (mkCdcRead (rr_ShardID r) (FromOffset r) (NextOffset r) (OldestOffset r) (DroppedBefore r)
                                                (map cdc_event_response (Events r)))))
              end
          end
      end
  end.

Definition handleRaftPeerMessages (method : string) (b : decoded (list PeerMessage) * decoded unit) : handler response :=
  match pv_raft h with
  | None => mret NotFound
  | Some HandlePeerMessages =>
      if bool_decide (method <> "POST") then mret MethodNotAllowed
      else match decodeJSONBody [] b with
      | inr bad => mret bad
      | inl messages =>
          r ← attempt (HandlePeerMessages messages);
          mret (match r with inl err => mkResponse 502 (BError err) | inr _ => mkResponse 202 (BFlag "accepted") end)
      end
  end.

(** ** Control requests *)

(** [transferLeader], [rebalance], [split] and [drain]: a provider without
    write options is asked only when there are none. *)
Definition control_action (control : ControlProvider P) (r : request) : handler response :=
  if ctl_withOptions control then
    res ← attempt (ctl_request control r);
    mret (writeActionResult (match res with inl err => Some err | inr _ => None end))
  else if hasControlWriteOptions (request_options r) then mret (writeActionResult (Some ErrControlWriteOptionsUnsupported))
  else
    res ← attempt (ctl_request control (without_options r));
    mret (writeActionResult (match res with inl err => Some err | inr _ => None end)).

(** The body is given as it decodes to either request. *)
Definition handleShardAction (method path : string) (target : decoded targetRequest * decoded unit) (split : decoded splitRequest * decoded unit) : handler response :=
  match pv_control h with
  | None => mret NotFound
  | Some control =>
      if bool_decide (method <> "POST") then mret MethodNotAllowed
      else match shardActionPath path with
      | None => mret NotFound
      | Some (shardID, action) =>
          if bool_decide (action = "transfer-leader") then
            match decodeJSONBody (mkTarget "" no_options) target with
            | inr bad => mret bad
            | inl req => control_action control (TransferLeader shardID (Target req) (tr_options req))
            end
          else if bool_decide (action = "rebalance") then
            match decodeJSONBody (mkTarget "" no_options) target with
            | inr bad => mret bad
            | inl req => control_action control (TriggerRebalance shardID (Target req) (tr_options req))
            end
          else if bool_decide (action = "split") then
            match decodeJSONBody (mkSplitRequest "" no_options) split with
            | inr bad => mret bad
            | inl req =>
                match DecodeString (SplitKeyBase64 req) with
                | Ok splitKey => control_action control (TriggerSplit shardID splitKey (sr_options req))
                | _ => mret (bad_request "invalid split_key_base64")
                end
            end
          else mret NotFound
      end
  end.

Definition handleNodeAction (method path : string) (b : decoded ControlWriteOptions * decoded unit) : handler response :=
  match pv_control h with
  | None => mret NotFound
  | Some control =>
      if bool_decide (method <> "POST") then mret MethodNotAllowed
      else match nodeActionPath path with
      | None => mret NotFound
      | Some (nodeID, action) =>
          if bool_decide (action <> "drain") then mret NotFound
          else match decodeJSONBody no_options b with
          | inr bad => mret bad
          | inl opts => control_action control (PrepareDrain nodeID opts)
          end
      end
  end.

(** ** Writes *)

Definition routeHintForKey (p : P) (key : bytes) : option writeRouteHint :=
  control ← pv_control h;
  Some (match findRouteShardByKey (ctl_shards control p) key with
        | None => mkHint (cl_Revision (ctl_status control p)) "" ""
        | Some shard => mkHint (cl_Revision (ctl_status control p)) (ss_ID shard) (effectiveWriteLeader shard)
        end).

Definition writeWriteError (p : P) (key : bytes) (err : error) : response :=
  mkResponse (writeErrorHTTPStatus err)
    (BWriteError (mkWriteError (isPreProposalRejection err) err (writeErrorCode err) (isRetryableWriteError err)
                    (if isRetryableWriteError err then routeHintForKey p key else None))).

(** The write of a request, and the entry of its outcome. *)
Definition settle_write (requestID : string) (outcome : error + unit) (now : Z) : handler WriteRequestStatus :=
  on_requests (match outcome with inl err => requests_Reject requestID err now | inr _ => requests_Commit requestID now end).

Definition executeAccepted (apply : kv_write -> SE P unit) (requestID : string) (w : kv_write) (now : Z) : handler unit :=
  r ← attempt (apply w);
  _ ← settle_write requestID r now;
  mret tt.

(** [now1] and [now2] are the times of the two entries.  An accepted write is
    left to a goroutine: the response comes with what that has to do. *)
Definition executeWrite (apply : kv_write -> SE P unit) (consistency : string) (w : kv_write) (now1 now2 : Z) : handler (response * list (string * kv_write)) :=
  status ← on_requests (requests_New (kv_op w) consistency now1);
  if bool_decide (consistency = WriteConsistencyAccepted) then mret (mkResponse 202 (BStatus status), [(RequestID status, w)])
  else
    r ← attempt (apply w);
    final ← settle_write (RequestID status) r now2;
    s ← get;
    match r with
    | inl err => mret (writeWriteError (srv_provider s) (kv_key w) err, [])
    | inr _ => mret (mkResponse 200 (BStatus final), [])
    end.

Definition handlePut (method : string) (b : decoded putRequest * decoded unit) (now1 now2 : Z) : handler (response * list (string * kv_write)) :=
  match pv_writer h with
  | None => mret (NotFound, [])
  | Some apply =>
      if bool_decide (method <> "POST") then mret (MethodNotAllowed, [])
      else match decodeJSONBody (mkPut "" "" "") b with
      | inr bad => mret (bad, [])
      | inl req =>
          match DecodeString (pr_KeyBase64 req), DecodeString (pr_ValueBase64 req), normalizeWriteConsistency (pr_Consistency req) writeConsistencyDefault with
          | Ok key, Ok value, Ok consistency => executeWrite apply consistency (KvPut key value) now1 now2
          | Ok _, Ok _, Err err => mret (mkResponse 400 (BError err), [])
          | Ok _, Ok _, _ => lift NoFuel
          | Ok _, _, _ => mret (bad_request "invalid value_base64", [])
          | _, _, _ => mret (bad_request "invalid key_base64", [])
          end
      end
  end.

Definition handleDelete (method : string) (b : decoded deleteRequest * decoded unit) (now1 now2 : Z) : handler (response * list (string * kv_write)) :=
  match pv_writer h with
  | None => mret (NotFound, [])
  | Some apply =>
      if bool_decide (method <> "POST") then mret (MethodNotAllowed, [])
      else match decodeJSONBody (mkDelete "" "") b with
      | inr bad => mret (bad, [])
      | inl req =>
          match DecodeString (dr_KeyBase64 req), normalizeWriteConsistency (dr_Consistency req) writeConsistencyDefault with
          | Ok key, Ok consistency => executeWrite apply consistency (KvDelete key) now1 now2
          | Ok _, Err err => mret (mkResponse 400 (BError err), [])
          | Ok _, _ => lift NoFuel
          | _, _ => mret (bad_request "invalid key_base64", [])
          end
      end
  end.

Definition handleWriteStatus (method path : string) : handler response :=
  s ← get;
  if bool_decide (pv_writer h = None) then mret NotFound
  else if bool_decide (method <> "GET") then mret MethodNotAllowed
  else match writeStatusPath path with
  | None => mret NotFound
  | Some requestID =>
      match requests_Get requestID (srv_requests s) with
      | None => mret NotFound
      | Some status => mret (mkResponse 200 (BStatus status))
      end
  end.

(** ** Reads (read.go) *)

(** [q] is what [url.ParseQuery] gave. *)
Definition handleGet (method : string) (q : option query) : handler response :=
  match pv_reader h with
  | None => mret NotFound
  | Some GetContext =>
      if bool_decide (method <> "GET") then mret MethodNotAllowed
      else match q with
      | None => mret (bad_request "invalid query")
      | Some q =>
          if negb (bool_decide (map_Forall (fun name values => name = "key_base64" /\ length values = 1%nat) q)) then
            mret (bad_request "expected one key_base64 parameter")
          else match Strict_DecodeString (query_Get q "key_base64") with
          | Ok (b :: rest) =>
              let key := b :: rest in
              r ← attempt (GetContext key);
              match r with
              | inl err =>
                  mret (mkResponse (if bool_decide (err = err_ctx) then 408 else if errors_Is err ErrClosed then 503 else 500) (BText "read failed"))
              | inr (entry, found) =>
                  let entry := default (mkEntry [] [] false 0) entry in
                  if (found : bool) then mret (mkResponse 200 (BRead (mkRead (EncodeToString key) (EncodeToString (Value entry)) true (Seq entry) "local_applied")))
                  else mret (mkResponse 404 (BRead (mkRead (EncodeToString key) "" false 0 "local_applied")))
              end
          | _ => mret (bad_request "key_base64 must encode a nonempty key")
          end
      end
  end.
End Handlers.

(** ** Requests in progress

    The calls of the handlers for writes and the goroutines that they start,
    step by step: between two steps others may run.  A request takes a number,
    enters the table, is applied by the provider, and its outcome is entered.
    The last three fields are history. *)

Inductive phase := Reserved | Entered | Applied (outcome : error + unit).
Record task := mkTask { tk_id : string; tk_write : kv_write; tk_consistency : string; tk_phase : phase }.

Record tracked (P : Type) := mkTracked {
  td_server : server P;
  td_tasks : list task;
  td_settled : list task;
  td_started : Z;
  td_peak : Z
}.
Arguments mkTracked {P} _ _ _ _ _.
Arguments td_server {P} _.
Arguments td_tasks {P} _.
Arguments td_settled {P} _.
Arguments td_started {P} _.
Arguments td_peak {P} _.

Section Tracking.
Context {P : Type} (apply : kv_write -> SE P unit).

Definition with_phase (f : phase) (t : task) : task := mkTask (tk_id t) (tk_write t) (tk_consistency t) f.

Inductive tracked_step : tracked P -> tracked P -> Prop :=
| step_reserve p s tasks settled n peak w consistency :
    tracked_step (mkTracked (mkServer p s) tasks settled n peak)
      (mkTracked (mkServer p (snd (requests_reserve s))) (tasks ++ [mkTask (fst (requests_reserve s)) w consistency Reserved]) settled (n + 1)
         (Z.max peak (zlen tasks + 1)))
| step_enter p s before t after settled n peak now : tk_phase t = Reserved ->
    tracked_step (mkTracked (mkServer p s) (before ++ t :: after) settled n peak)
      (mkTracked (mkServer p (snd (requests_enter (tk_id t) (kv_op (tk_write t)) (tk_consistency t) now s))) (before ++ with_phase Entered t :: after) settled n peak)
| step_apply sv sv' before t after settled n peak r : tk_phase t = Entered -> attempt (apply (tk_write t)) sv = (Ok r, sv') ->
    tracked_step (mkTracked sv (before ++ t :: after) settled n peak) (mkTracked sv' (before ++ with_phase (Applied r) t :: after) settled n peak)
| step_settle sv before t after settled n peak r now : tk_phase t = Applied r ->
    tracked_step (mkTracked sv (before ++ t :: after) settled n peak)
      (mkTracked (snd (settle_write (tk_id t) r now sv)) (before ++ after) (settled ++ [t]) n peak)
| step_provider p p' s tasks settled n peak :
    tracked_step (mkTracked (mkServer p s) tasks settled n peak) (mkTracked (mkServer p' s) tasks settled n peak).

Definition tracked_start (p : P) (max : Z) : tracked P := mkTracked (mkServer p (newWriteRequestStore max)) [] [] 0 0.

(** What the status of a request in progress, and of a settled one, says. *)
Definition describes (t : task) (st : WriteRequestStatus) : Prop :=
  RequestID st = tk_id t /\ wr_Operation st = kv_op (tk_write t) /\ wr_Consistency st = tk_consistency t.
Definition shows_pending (t : task) (st : WriteRequestStatus) : Prop := describes t st /\ State st = WriteRequestPending /\ wr_Error st = None.
Definition shows_outcome (t : task) (st : WriteRequestStatus) : Prop :=
  describes t st /\
  match tk_phase t with
  | Applied (inr _) => State st = WriteRequestCommitted /\ wr_Error st = None
  | Applied (inl err) => State st = WriteRequestRejected /\ wr_Error st = Some err
  | _ => False
  end.
End Tracking.
