(* ===== verification/ServerSpec.v ===== *)
(** * The server: request tables

    The eviction of settled requests, the invariant of the table over every
    interleaving of requests, and what the status endpoint answers. *)

From Stdlib Require Import ZArith Lia Strings.Ascii Strings.String.
From stdpp Require Import base list strings pretty gmap relations.
From S2P Require Import Prelude Base64 Engine GoStrings ControlPlane RaftLog Cdc Server.
Local Open Scope Z_scope.

(** ** Eviction *)

Lemma list_elem_of_sublist {A} (x : A) k l : x ∈ k -> k `sublist_of` l -> x ∈ l.
Proof. intros Hx Hs. apply sublist_submseteq in Hs. by eapply elem_of_submseteq. Qed.

Definition pending_in (m : gmap string WriteRequestStatus) (id : string) : Prop := exists st, m !! id = Some st /\ State st = WriteRequestPending.

(** Only settled requests of the order are dropped. *)
Lemma compact_loop_lookup order drop m id : NoDup order ->
  let m' := snd (compact_loop order drop m) in
  m' !! id = m !! id \/ (m' !! id = None /\ id ∈ order /\ ~ pending_in m id).
Proof.
  revert drop m. induction order as [|r order IH]; intros drop m Hd; cbn [compact_loop]; [by left|].
  apply NoDup_cons in Hd as [Hr Hd]. destruct (m !! r) as [st|] eqn:Er.
  - case_bool_decide as Hdrop.
    + destruct (decide (r = id)) as [->|Hne].
      * right. specialize (IH (drop - 1) (delete id m) Hd). cbn in IH |- *. rewrite lookup_delete_eq in IH. destruct IH as [->|(-> & Hin & _)]; [|done].
        split_and!; [done|set_solver|]. intros (st' & E & Hp). destruct Hdrop as [_ Hs]. congruence.
      * specialize (IH (drop - 1) (delete r m) Hd). cbn in IH |- *. unfold pending_in in *. rewrite lookup_delete_ne in IH by done.
        destruct IH as [->|(-> & ? & ?)]; [by left|right; set_solver].
    + specialize (IH drop m Hd). cbn in IH |- *. destruct (compact_loop order drop m) as [kept m'] eqn:Ec. cbn in *.
      destruct IH as [->|(-> & ? & ?)]; [by left|right; set_solver].
  - specialize (IH drop m Hd). cbn in IH |- *. destruct IH as [->|(-> & ? & ?)]; [by left|right; set_solver].
Qed.

(** The ids that stay are those still in the map, in their order. *)
Lemma compact_loop_kept order drop m : NoDup order ->
  let '(kept, m') := compact_loop order drop m in
  kept `sublist_of` order /\ (forall id, id ∈ order -> id ∈ kept <-> is_Some (m' !! id)).
Proof.
  revert drop m. induction order as [|r order IH]; intros drop m Hd; cbn [compact_loop]; [set_solver|].
  apply NoDup_cons in Hd as [Hr Hd]. destruct (m !! r) as [st|] eqn:Er.
  - case_bool_decide as Hdrop.
    + pose proof (compact_loop_lookup order (drop - 1) (delete r m) r Hd) as Hl. specialize (IH (drop - 1) (delete r m) Hd).
      destruct (compact_loop order (drop - 1) (delete r m)) as [kept m'] eqn:Ec. cbn in Hl. rewrite lookup_delete_eq in Hl. destruct IH as [Hs Hk].
      split; [by apply sublist_cons|]. intros id [->|Hid]%elem_of_cons; [|by apply Hk].
      destruct Hl as [Hl|(_ & Hl & _)]; [|done]. rewrite Hl. split; [intros Hin|by intros [? ?]]. by destruct (Hr (list_elem_of_sublist _ _ _ Hin Hs)).
    + pose proof (compact_loop_lookup order drop m r Hd) as Hl. specialize (IH drop m Hd). destruct (compact_loop order drop m) as [kept m'] eqn:Ec. cbn in Hl.
      destruct IH as [Hs Hk]. split; [by apply sublist_skip|]. intros id [->|Hid]%elem_of_cons.
      * destruct Hl as [Hl|(_ & Hl & _)]; [|done]. rewrite Hl, Er. split; [eauto|set_solver].
      * rewrite <- (Hk id Hid). rewrite elem_of_cons. split; [intros [->|?]; done|by right].
  - pose proof (compact_loop_lookup order drop m r Hd) as Hl. specialize (IH drop m Hd). destruct (compact_loop order drop m) as [kept m'] eqn:Ec. cbn in Hl.
    destruct IH as [Hs Hk]. split; [by apply sublist_cons|]. intros id [->|Hid]%elem_of_cons; [|by apply Hk].
    assert (Hn : m' !! r = None) by (destruct Hl as [Hl|(? & _)]; congruence). rewrite Hn. split; [intros Hin; by destruct (Hr (list_elem_of_sublist _ _ _ Hin Hs))|by intros [? ?]].
Qed.

(** What had to go is gone, or all that is left is pending. *)
Lemma compact_loop_drops order drop m : NoDup order -> 0 <= drop ->
  let '(kept, m') := compact_loop order drop m in
  zlen kept <= zlen order - drop \/ Forall (pending_in m) kept.
Proof.
  revert drop m. induction order as [|r order IH]; intros drop m Hd H0; cbn [compact_loop].
  { right. constructor. }
  apply NoDup_cons in Hd as [Hr Hd]. rewrite zlen_cons. destruct (m !! r) as [st|] eqn:Er.
  - case_bool_decide as Hdrop.
    + pose proof (compact_loop_kept order (drop - 1) (delete r m) Hd) as Hk. specialize (IH (drop - 1) (delete r m) Hd ltac:(lia)).
      destruct (compact_loop order (drop - 1) (delete r m)) as [kept m'] eqn:Ec. destruct IH as [IH|IH]; [left; lia|right].
      eapply Forall_impl; [exact IH|]. intros id (st' & E & Hp). exists st'. split; [|done]. by apply lookup_delete_Some in E as [_ E].
    + specialize (IH drop m Hd H0). destruct (compact_loop order drop m) as [kept m'] eqn:Ec. rewrite zlen_cons. destruct IH as [IH|IH]; [left; lia|].
      destruct (decide (State st = WriteRequestPending)) as [Hp|Hp]; [right; constructor; [by exists st|done]|].
      assert (drop = 0) as -> by (destruct (decide (0 < drop)); [exfalso; by apply Hdrop|lia]). left.
      pose proof (compact_loop_kept order 0 m Hd) as Hk. rewrite Ec in Hk. destruct Hk as [Hk _]. apply sublist_length in Hk. unfold zlen in *. lia.
  - specialize (IH drop m Hd H0). destruct (compact_loop order drop m) as [kept m'] eqn:Ec. destruct IH as [IH|IH]; [left; lia|by right].
Qed.

(** ** The table *)

(** The order lists the requests of the map, each once. *)
Definition table_ok (s : writeRequestStore) : Prop := NoDup (rq_order s) /\ forall id, id ∈ rq_order s <-> is_Some (statusMap s !! id).

Lemma table_size s : table_ok s -> Z.of_nat (size (statusMap s)) = zlen (rq_order s).
Proof.
  intros [Hd Hk]. unfold zlen. rewrite <- (size_list_to_set (C := gset string)) by done. rewrite <- size_dom. do 2 f_equal.
  apply leibniz_equiv. intros id. by rewrite elem_of_dom, elem_of_list_to_set, Hk.
Qed.

Lemma compactLocked_ok s : table_ok s -> table_ok (compactLocked s).
Proof.
  intros [Hd Hk]. unfold compactLocked. case_bool_decide; [done|].
  pose proof (compact_loop_kept (rq_order s) (zlen (rq_order s) - rq_max s) (statusMap s) Hd) as Hc.
  pose proof (fun id => compact_loop_lookup (rq_order s) (zlen (rq_order s) - rq_max s) (statusMap s) id Hd) as Hl.
  destruct (compact_loop _ _ _) as [kept m'] eqn:E. cbn in Hl. destruct Hc as [Hs Hc]. split; cbn.
  - by eapply sublist_NoDup.
  - intros id. split.
    + intros Hin. by apply Hc; [apply (list_elem_of_sublist _ _ _ Hin Hs)|].
    + intros Hm. apply Hc; [|done]. apply Hk. destruct (Hl id) as [<-|[Hn _]]; [done|]. rewrite Hn in Hm. by destruct Hm.
Qed.

Lemma compactLocked_lookup s id : table_ok s ->
  statusMap (compactLocked s) !! id = statusMap s !! id \/
  (statusMap (compactLocked s) !! id = None /\ ~ pending_in (statusMap s) id /\ rq_max s < zlen (rq_order s)).
Proof.
  intros [Hd _]. unfold compactLocked. case_bool_decide as Hm; [by left|].
  pose proof (compact_loop_lookup (rq_order s) (zlen (rq_order s) - rq_max s) (statusMap s) id Hd) as Hl.
  destruct (compact_loop _ _ _) as [kept m']. cbn in *. destruct Hl as [?|(? & _ & ?)]; [by left|right]. split_and!; [done|done|lia].
Qed.

Lemma compactLocked_size s : table_ok s ->
  let s' := compactLocked s in zlen (rq_order s') <= rq_max s \/ Forall (pending_in (statusMap s')) (rq_order s').
Proof.
  intros Hok. pose proof (compactLocked_ok s Hok) as Hok'. pose proof (fun id => compactLocked_lookup s id Hok) as Hl. destruct Hok as [Hd Hk]. revert Hok' Hl.
  unfold compactLocked. case_bool_decide as Hm; [by left|].
  pose proof (compact_loop_drops (rq_order s) (zlen (rq_order s) - rq_max s) (statusMap s) Hd ltac:(lia)) as Hc.
  destruct (compact_loop _ _ _) as [kept m'] eqn:E. cbn. intros [_ Hk'] Hl. destruct Hc as [Hc|Hc]; [left; lia|right].
  apply Forall_forall. intros id Hid. rewrite Forall_forall in Hc. destruct (Hc id Hid) as (st & Est & Hp). exists st. split; [|done].
  destruct (Hl id) as [->|(Hn & _)]; [done|]. apply Hk' in Hid. cbn in Hid. rewrite Hn in Hid. by destruct Hid.
Qed.

Lemma compactLocked_max s : rq_max (compactLocked s) = rq_max s /\ rq_seq (compactLocked s) = rq_seq s.
Proof. unfold compactLocked. case_bool_decide; [done|]. by destruct (compact_loop _ _ _). Qed.

(** ** The invariant *)

Definition names (tasks : list task) : list string := map tk_id tasks.

Record tracking (max : Z) (s : writeRequestStore) (tasks settled : list task) (n peak : Z) : Prop := mkTracking {
  tg_table : table_ok s;
  tg_max : rq_max s = max;
  tg_seq : rq_seq s = n;
  tg_count : n = zlen tasks + zlen settled;
  tg_distinct : NoDup (names (tasks ++ settled));
  tg_named : Forall (fun t => exists k, 1 <= k <= n /\ tk_id t = request_id k) (tasks ++ settled);
  tg_shown id st : statusMap s !! id = Some st ->
    (exists t, t ∈ tasks /\ tk_phase t <> Reserved /\ id = tk_id t /\ shows_pending t st) \/ (exists t, t ∈ settled /\ id = tk_id t /\ shows_outcome t st);
  tg_here t : t ∈ tasks -> tk_phase t <> Reserved -> is_Some (statusMap s !! tk_id t);
  tg_peak : zlen tasks <= peak;
  tg_size : zlen (rq_order s) <= Z.max max peak;
  tg_all t : n <= max -> t ∈ settled -> is_Some (statusMap s !! tk_id t)
}.

Lemma request_id_inj a b : request_id a = request_id b -> a = b.
Proof. unfold request_id. intros E. apply (inj (String.append "wr-")) in E. by apply (inj pretty) in E. Qed.

Lemma names_perm l k : l ≡ₚ k -> names l ≡ₚ names k.
Proof. apply fmap_Permutation. Qed.

Lemma tracking_perm max s tasks tasks' settled n peak : tasks ≡ₚ tasks' -> tracking max s tasks settled n peak -> tracking max s tasks' settled n peak.
Proof.
  intros Hp [A1 A2 A3 A4 A5 A6 A7 A8 A9 A10 A11]. assert (El : zlen tasks = zlen tasks') by (unfold zlen; by rewrite Hp).
  split; try done.
  - by rewrite <- El.
  - by rewrite <- (names_perm (tasks ++ settled)); [|rewrite Hp].
  - by rewrite <- Hp.
  - intros id st E. destruct (A7 id st E) as [(t & Ht & ?)|?]; [left; exists t; by rewrite <- Hp|by right].
  - intros t Ht. apply A8. by rewrite Hp.
  - by rewrite <- El.
Qed.

(** Two requests do not share a name. *)
Lemma same_name max s tasks settled n peak t1 t2 : tracking max s tasks settled n peak -> t1 ∈ tasks ++ settled -> t2 ∈ tasks ++ settled -> tk_id t1 = tk_id t2 -> t1 = t2.
Proof.
  intros HT H1 H2 E. pose proof (tg_distinct _ _ _ _ _ _ HT) as Hd. apply list_elem_of_lookup in H1 as [i Hi], H2 as [j Hj].
  assert (i = j) as ->; [|congruence].
  apply (NoDup_lookup _ _ _ (tk_id t1) Hd); unfold names; rewrite list_lookup_fmap; [by rewrite Hi|by rewrite Hj, E].
Qed.

(** The table lists requests that were made. *)
Lemma table_names max s tasks settled n peak id : tracking max s tasks settled n peak -> id ∈ rq_order s -> id ∈ names (tasks ++ settled).
Proof.
  intros HT Hid. destruct (tg_table _ _ _ _ _ _ HT) as [_ Hk]. apply Hk in Hid as [st Hst]. unfold names. apply list_elem_of_fmap.
  destruct (tg_shown _ _ _ _ _ _ HT id st Hst) as [(t & Ht & _ & -> & _)|(t & Ht & -> & _)]; exists t; split; [done|set_solver|done|set_solver].
Qed.

Lemma tracking_start max : 0 < max -> tracking max (newWriteRequestStore max) [] [] 0 0.
Proof.
  intros Hm. unfold newWriteRequestStore. rewrite bool_decide_false by lia.
  split; cbn; try done; try lia; try (constructor; fail); try set_solver.
  - split; [constructor|]. intros id. cbn. rewrite lookup_empty. split; [set_solver|by intros [? ?]].
  - rewrite zlen_nil. lia.
Qed.

Lemma track_reserve max s tasks settled n peak w c : n + 1 < 2 ^ 64 -> tracking max s tasks settled n peak ->
  tracking max (snd (requests_reserve s)) (mkTask (fst (requests_reserve s)) w c Reserved :: tasks) settled (n + 1) (Z.max peak (zlen tasks + 1)).
Proof.
  intros Hn [A1 A2 A3 A4 A5 A6 A7 A8 A9 A10 A11]. pose proof (zlen_nonneg tasks). pose proof (zlen_nonneg settled).
  assert (Eu : u64 (rq_seq s + 1) = n + 1) by (rewrite A3; apply Z.mod_small; lia). unfold requests_reserve. rewrite Eu. cbn [fst snd].
  split; cbn [rq_max rq_seq rq_order statusMap]; try done.
  - rewrite zlen_cons. lia.
  - cbn [app names map]. apply NoDup_cons. split; [|done]. cbn. intros (t & E & Ht)%list_elem_of_fmap.
    rewrite Forall_forall in A6. destruct (A6 t Ht) as (k & Hk & Ek). rewrite Ek in E. apply request_id_inj in E. lia.
  - cbn [app]. constructor; [exists (n + 1); cbn; split; [lia|done]|]. eapply Forall_impl; [exact A6|]. intros t (k & Hk & Ek). exists k. split; [lia|done].
  - intros id st E. destruct (A7 id st E) as [(t & Ht & ?)|?]; [left; exists t; split; [set_solver|done]|by right].
  - intros t [->|Ht]%elem_of_cons Hp; [done|by apply A8].
  - rewrite zlen_cons. lia.
  - lia.
  - intros t Hm Ht. apply A11; [lia|done].
Qed.

(** A change of the phase of a task that keeps what is shown. *)
Lemma track_apply max s t r tasks settled n peak : tk_phase t = Entered -> tracking max s (t :: tasks) settled n peak ->
  tracking max s (with_phase (Applied r) t :: tasks) settled n peak.
Proof.
  intros Hp [A1 A2 A3 A4 A5 A6 A7 A8 A9 A10 A11]. split; try done.
  - cbn [app] in *. by inversion_clear A6; constructor.
  - intros id st E. destruct (A7 id st E) as [(t' & [->|Ht]%elem_of_cons & Hp' & -> & Hs)|?]; [| |by right]; left.
    + exists (with_phase (Applied r) t). split_and!; [set_solver|done|done|exact Hs].
    + exists t'. split_and!; [set_solver|done|done|exact Hs].
  - intros t' [->|Ht]%elem_of_cons Hp'; [|apply A8; [set_solver|done]]. apply (A8 t); [set_solver|by rewrite Hp].
Qed.

Lemma reserved_absent max s t tasks settled n peak : tk_phase t = Reserved -> tracking max s (t :: tasks) settled n peak -> statusMap s !! tk_id t = None.
Proof.
  intros Hp HT. destruct (statusMap s !! tk_id t) as [st|] eqn:E; [exfalso|done].
  destruct (tg_shown _ _ _ _ _ _ HT _ _ E) as [(t' & Ht & Hp' & En & _)|(t' & Ht & En & _ & Ho)].
  - by rewrite (same_name _ _ _ _ _ _ t t' HT) in Hp by set_solver.
  - rewrite <- (same_name _ _ _ _ _ _ t t' HT) in Ho by set_solver. by rewrite Hp in Ho.
Qed.

Lemma outcome_settled t st : shows_outcome t st -> State st <> WriteRequestPending.
Proof. intros [_ Ho] E. rewrite E in Ho. destruct (tk_phase t) as [| |[]]; [done|done|by destruct Ho|by destruct Ho]. Qed.

(** A request in progress is not a settled one. *)
Lemma tasks_apart max s tasks settled n peak t t' : tracking max s tasks settled n peak -> t ∈ tasks -> t' ∈ settled -> tk_id t <> tk_id t'.
Proof.
  intros HT Ht Ht' E. pose proof (tg_distinct _ _ _ _ _ _ HT) as Hd. unfold names in Hd. rewrite map_app in Hd. apply NoDup_app in Hd as (_ & Hd & _).
  apply (Hd (tk_id t)); apply list_elem_of_fmap; eauto.
Qed.

(** A request in progress is in the table as pending. *)
Lemma task_pending max s tasks settled n peak t : tracking max s tasks settled n peak -> t ∈ tasks -> tk_phase t <> Reserved ->
  exists st, statusMap s !! tk_id t = Some st /\ shows_pending t st.
Proof.
  intros HT Ht Hp. destruct (tg_here _ _ _ _ _ _ HT t Ht Hp) as [st Est]. exists st. split; [done|].
  destruct (tg_shown _ _ _ _ _ _ HT _ _ Est) as [(t2 & Ht2 & _ & En & Hs)|(t2 & Ht2 & En & _)].
  - by rewrite (same_name _ _ _ _ _ _ t t2 HT) by set_solver.
  - by destruct (tasks_apart _ _ _ _ _ _ t t2 HT Ht Ht2).
Qed.

(** The table with the new request, before the eviction. *)
Lemma enter_before max s t tasks settled n peak st : tk_phase t = Reserved -> shows_pending t st -> tracking max s (t :: tasks) settled n peak ->
  let s' := mkRequests (rq_max s) (rq_seq s) (rq_order s ++ [tk_id t]) (<[tk_id t := st]> (statusMap s)) in
  table_ok s' /\ zlen (rq_order s') <= n /\
  (forall id st', statusMap s' !! id = Some st' ->
    (exists t', t' ∈ with_phase Entered t :: tasks /\ tk_phase t' <> Reserved /\ id = tk_id t' /\ shows_pending t' st') \/ (exists t', t' ∈ settled /\ id = tk_id t' /\ shows_outcome t' st')).
Proof.
  intros Hp Hst HT. pose proof (reserved_absent _ _ _ _ _ _ _ Hp HT) as Hn. destruct (tg_table _ _ _ _ _ _ HT) as [Hd Hk]. cbn [rq_order statusMap].
  assert (Hd' : NoDup (rq_order s ++ [tk_id t])).
  { apply NoDup_app. split_and!; [done| |apply NoDup_singleton]. intros id Hid ->%list_elem_of_singleton. apply Hk in Hid. rewrite Hn in Hid. by destruct Hid. }
  split_and!.
  - split; [done|]. intros id. cbn. rewrite elem_of_app, list_elem_of_singleton, Hk, lookup_insert_is_Some'. naive_solver.
  - rewrite (tg_count _ _ _ _ _ _ HT), <- zlen_app. assert (Hsub : rq_order s ++ [tk_id t] ⊆+ names ((t :: tasks) ++ settled)).
    { apply NoDup_submseteq; [done|]. intros id [Hid| ->%list_elem_of_singleton]%elem_of_app; [by apply (table_names _ _ _ _ _ _ _ HT)|]. cbn. set_solver. }
    apply submseteq_length in Hsub. unfold names in Hsub. rewrite length_map in Hsub. unfold zlen. lia.
  - intros id st' [[<- <-]|[Hne E]]%lookup_insert_Some.
    + left. exists (with_phase Entered t). split_and!; [set_solver|done|done|exact Hst].
    + destruct (tg_shown _ _ _ _ _ _ HT id st' E) as [(t' & [->|Ht]%elem_of_cons & ? & -> & ?)|?]; [done| |by right].
      left. exists t'. split_and!; [set_solver|done|done|done].
Qed.

Lemma track_enter max s t tasks settled n peak now : tk_phase t = Reserved -> tracking max s (t :: tasks) settled n peak ->
  tracking max (snd (requests_enter (tk_id t) (kv_op (tk_write t)) (tk_consistency t) now s)) (with_phase Entered t :: tasks) settled n peak.
Proof.
  intros Hp HT. pose proof (reserved_absent _ _ _ _ _ _ _ Hp HT) as Hnone. pose proof (fun t' => task_pending _ _ _ _ _ _ t' HT) as Hpend.
  unfold requests_enter. cbn [snd]. set (st := mkStatus _ _ _ _ _ _ _).
  destruct (enter_before _ _ _ _ _ _ _ st Hp ltac:(done) HT) as (Hok & Hlen & Hshown). destruct HT as [A1 A2 A3 A4 A5 A6 A7 A8 A9 A10 A11].
  set (s' := mkRequests _ _ _ _) in *. pose proof (compactLocked_ok s' Hok) as Hok'. destruct (compactLocked_max s') as [Em Es].
  pose proof (fun id => compactLocked_lookup s' id Hok) as Hl.
  assert (Hkeep : forall id st', statusMap (compactLocked s') !! id = Some st' -> statusMap s' !! id = Some st').
  { intros id st' E. destruct (Hl id) as [<-|(En & _)]; congruence. }
  split; [done|by rewrite Em|by rewrite Es|by rewrite zlen_cons in *|done| | | |by rewrite zlen_cons in *| |].
  - cbn [app] in *. by inversion_clear A6; constructor.
  - intros id st' E. by apply Hshown, Hkeep.
  - intros t' Ht Hp'. assert (Hin : pending_in (statusMap s') (tk_id t')).
    { apply elem_of_cons in Ht as [->|Ht]; [exists st; split; [cbn; apply lookup_insert_eq|done]|].
      destruct (Hpend t' ltac:(set_solver) Hp') as (st' & Est & Hs). exists st'. split; [cbn; rewrite lookup_insert_ne; [done|congruence]|apply Hs]. }
    destruct (Hl (tk_id t')) as [->|(_ & Hnp & _)]; [|done]. destruct Hin as (? & -> & _). eauto.
  - destruct (compactLocked_size s' Hok) as [Hz|Hz]; [cbn in Hz; lia|]. 
    enough (zlen (rq_order (compactLocked s')) <= zlen (with_phase Entered t :: tasks)) by (rewrite zlen_cons in *; lia).
    assert (Hsub : rq_order (compactLocked s') ⊆+ names (with_phase Entered t :: tasks)).
    { apply NoDup_submseteq; [apply Hok'|]. intros id Hid. rewrite Forall_forall in Hz. destruct (Hz id Hid) as (st' & E & Hpe). unfold names. apply list_elem_of_fmap.
      destruct (Hshown id st' (Hkeep _ _ E)) as [(t' & ? & _ & -> & _)|(t' & _ & _ & Ho)]; [by exists t'|].
      by destruct (outcome_settled _ _ Ho). }
    apply submseteq_length in Hsub. unfold names in Hsub. rewrite length_map in Hsub. unfold zlen. lia.
  - intros t' Hn Ht'. destruct (Hl (tk_id t')) as [->|(_ & _ & Hbig)]; [|cbn in Hbig, Hlen; lia].
    cbn. apply lookup_insert_is_Some'. right. by apply A11.
Qed.

Lemma track_settle max s t r tasks settled n peak now : tk_phase t = Applied r -> tracking max s (t :: tasks) settled n peak ->
  tracking max (snd (match r with inl err => requests_Reject (tk_id t) err now s | inr _ => requests_Commit (tk_id t) now s end)) tasks (settled ++ [t]) n peak.
Proof.
  intros Hp HT. destruct (task_pending _ _ _ _ _ _ t HT) as (st & Est & Hst); [set_solver|by rewrite Hp|]. pose proof (tg_distinct _ _ _ _ _ _ HT) as Hd.
  set (st' := mkStatus (RequestID st) (wr_Operation st) (wr_Consistency st) (if r is inl _ then WriteRequestRejected else WriteRequestCommitted)
                (match r with inl err => Some err | inr _ => None end) (CreatedAt st) now).
  assert (Ho : shows_outcome t st') by (split; [apply Hst|rewrite Hp; by destruct r]).
  replace (snd _) with (mkRequests (rq_max s) (rq_seq s) (rq_order s) (<[tk_id t := st']> (statusMap s)))
    by (unfold requests_Reject, requests_Commit, requests_settle; destruct r; cbn; by rewrite Est).
  assert (Hperm : t :: tasks ++ settled ≡ₚ tasks ++ settled ++ [t]) by (rewrite app_assoc; apply Permutation_cons_append).
  assert (Hne : forall t', t' ∈ tasks -> tk_id t <> tk_id t').
  { intros t' Ht' E. apply NoDup_cons in Hd as [Hd _]. apply Hd. rewrite E. apply list_elem_of_fmap. exists t'. set_solver. }
  destruct HT as [A1 A2 A3 A4 A5 A6 A7 A8 A9 A10 A11]. split; cbn [rq_max rq_seq rq_order statusMap]; try done.
  - split; [apply A1|]. intros id. cbn. rewrite (proj2 A1 id), lookup_insert_is_Some'. split; [by right|intros [<-|?]; [rewrite Est; eauto|done]].
  - rewrite zlen_app, zlen_cons, zlen_nil in *. lia.
  - by rewrite <- (names_perm _ _ Hperm).
  - by rewrite <- Hperm.
  - intros id st2 [[<- <-]|[Hn E]]%lookup_insert_Some; [right; exists t; split_and!; [set_solver|done|done]|].
    destruct (A7 id st2 E) as [(t2 & [->|Ht2]%elem_of_cons & H2)|(t2 & Ht2 & H2)]; [naive_solver|left; eauto|right; exists t2; set_solver].
  - intros t' Ht' Hp'. rewrite lookup_insert_ne by auto. apply A8; [set_solver|done].
  - rewrite zlen_cons in *. lia.
  - intros t' Hn [Ht'| ->%list_elem_of_singleton]%elem_of_app; apply lookup_insert_is_Some'; [right; auto|by left].
Qed.

(** ** Steps *)

Section Steps.
Context {P : Type} (apply : kv_write -> SE P unit) (max : Z).
Abbreviation step := (tracked_step apply).
Definition well_tracked (s : tracked P) : Prop := tracking max (srv_requests (td_server s)) (td_tasks s) (td_settled s) (td_started s) (td_peak s).

Lemma attempt_requests {A} (m : SE P A) sv r sv' : attempt m sv = (r, sv') -> srv_requests sv' = srv_requests sv.
Proof. unfold attempt. destruct (m (srv_provider sv)) as [[]]; by intros [= _ <-]. Qed.

Lemma settle_write_requests id r now (sv : server P) :
  srv_requests (snd (settle_write id r now sv)) = snd (match r with inl err => requests_Reject id err now (srv_requests sv) | inr _ => requests_Commit id now (srv_requests sv) end).
Proof. unfold settle_write, on_requests. by destruct r. Qed.

Lemma started_grows s s' : step s s' -> td_started s <= td_started s'.
Proof. destruct 1; cbn; lia. Qed.

Lemma step_tracked s s' : step s s' -> td_started s' < 2 ^ 64 -> well_tracked s -> well_tracked s'.
Proof.
  unfold well_tracked. destruct 1; cbn [td_server td_tasks td_settled td_started td_peak srv_requests] in *; intros Hn HT.
  - eapply tracking_perm; [|by apply track_reserve]. apply Permutation_cons_append.
  - eapply tracking_perm; [apply Permutation_middle|]. apply track_enter; [done|]. by eapply tracking_perm; [symmetry; apply Permutation_middle|].
  - match goal with E : attempt _ _ = _ |- _ => rewrite (attempt_requests _ _ _ _ E) end.
    eapply tracking_perm; [apply Permutation_middle|]. apply track_apply; [done|]. by eapply tracking_perm; [symmetry; apply Permutation_middle|].
  - rewrite settle_write_requests. apply track_settle; [done|]. by eapply tracking_perm; [symmetry; apply Permutation_middle|].
  - done.
Qed.

Lemma steps_tracked s s' : rtc step s s' -> td_started s' < 2 ^ 64 -> well_tracked s -> well_tracked s'.
Proof.
  induction 1 as [|s1 s2 s3 H12 H23 IH]; [done|]. intros Hn HT. apply IH; [done|]. eapply step_tracked; [exact H12| |done].
  assert (Hle : td_started s2 <= td_started s3) by (clear -H23; induction H23 as [|? ? ? Hs]; [lia|apply started_grows in Hs; lia]). lia.
Qed.

(** A call of a write handler is the steps of its request, and answers with
    the status in the table. *)
Lemma executeWrite_steps (h : StatsProvider P) consistency w now1 now2 sv resp todo sv' tasks settled n peak :
  executeWrite h apply consistency w now1 now2 sv = (Ok (resp, todo), sv') ->
  exists t settled' peak',
    rtc step (mkTracked sv tasks settled n peak)
      (mkTracked sv' (tasks ++ map (fun x => mkTask (fst x) (snd x) consistency Entered) todo) settled' (n + 1) peak') /\
    tk_write t = w /\ tk_consistency t = consistency /\
    match tk_phase t with
    | Applied (inl err) => todo = [] /\ settled' = settled ++ [t] /\ resp = writeWriteError h (srv_provider sv') (kv_key w) err
    | Applied (inr _) => todo = [] /\ settled' = settled ++ [t] /\ exists st, resp = mkResponse 200 (BStatus st) /\ requests_Get (tk_id t) (srv_requests sv') = Some st
    | _ => consistency = WriteConsistencyAccepted /\ todo = [(tk_id t, w)] /\ settled' = settled /\ exists st, resp = mkResponse 202 (BStatus st) /\ shows_pending t st
    end.
Proof.
  destruct sv as [p s]. set (id := fst (requests_reserve s)).
  assert (H1 : rtc step (mkTracked (mkServer p s) tasks settled n peak)
    (mkTracked (mkServer p (snd (requests_New (kv_op w) consistency now1 s))) (tasks ++ [mkTask id w consistency Entered]) settled (n + 1) (Z.max peak (zlen tasks + 1)))).
  { eapply rtc_l; [apply (step_reserve _ _ _ _ _ _ _ w consistency)|]. eapply rtc_l; [|apply rtc_refl].
    by apply (step_enter _ _ _ tasks (mkTask id w consistency Reserved) [] _ _ _ now1). }
  unfold executeWrite, on_requests, mbind, SE_bind. cbn [srv_requests srv_provider].
  change (requests_New (kv_op w) consistency now1 s) with (mkStatus id (kv_op w) consistency WriteRequestPending None now1 now1, snd (requests_New (kv_op w) consistency now1 s)) at 1.
  case_bool_decide as Hc.
  - intros [= <- <- <-]. exists (mkTask id w consistency Entered), settled, (Z.max peak (zlen tasks + 1)). split_and!; [exact H1|done|done|]. cbn. split_and!; [done|done|done|]. eexists. split; [done|by split_and!].
  - cbn [RequestID]. destruct (attempt (apply w) _) as [[r| | |] sv1] eqn:Ea; try done.
    intros E. set (t := mkTask id w consistency (Applied r)).
    assert (E' : sv' = snd (settle_write id r now2 sv1)) by (unfold settle_write, on_requests in *; destruct r; cbn in E; by injection E).
    exists t, (settled ++ [t]), (Z.max peak (zlen tasks + 1)).
    assert (Ht : todo = []) by (unfold settle_write, on_requests in *; destruct r; cbn in E; by injection E). subst todo. split_and!; [|done|done|].
    + etrans; [exact H1|]. eapply rtc_l; [by apply (step_apply _ _ sv1 tasks (mkTask id w consistency Entered) [] _ _ _ r)|].
      eapply rtc_l; [by apply (step_settle _ _ tasks t [] _ _ _ r now2)|]. cbn. rewrite E'. apply rtc_refl.
    + destruct r; unfold settle_write, on_requests in *; cbn in E |- *; injection E as <- <-; [done|]. split_and!; [done|done|].
      eexists. split; [done|]. cbn. apply lookup_insert_eq.
Qed.
End Steps.

(** ** The path of a status *)

Lemma parse_digits_chars s acc n : parse_digits s acc = Some n -> Forall (fun c => is_Some (digit_of c)) (list_ascii_of_string s).
Proof.
  revert acc. induction s as [|c s IH]; intros acc; cbn; [constructor|]. destruct (digit_of c) as [d|] eqn:E; cbn; [|done].
  intros Hs. constructor; [by eexists|by eapply IH].
Qed.

Lemma no_slash s : Forall (fun c => is_Some (digit_of c)) s -> ~ In "/"%char s.
Proof. intros Hs Hin. rewrite Forall_forall in Hs. apply list_elem_of_In in Hin. apply Hs in Hin. vm_compute in Hin. by destruct Hin. Qed.

Lemma drop_char_not c x s : x <> c -> drop_char c (x :: s) = x :: s.
Proof. intros Hn. cbn. by rewrite bool_decide_false. Qed.

Lemma status_path_of n : 0 <= n -> writeStatusPath ("/kv/write-status/" +:+ request_id n) = Some (request_id n).
Proof.
  intros Hn. unfold request_id. rewrite pretty_Z_nonneg by done. destruct (parse_digits_pretty_N (Z.to_N n)) as [E Hne].
  apply parse_digits_chars, no_slash in E. revert E Hne. generalize (pretty (Z.to_N n)). intros d Hd Hne.
  set (l := list_ascii_of_string d) in *.
  assert (Hl : exists x r, rev l = x :: r /\ x <> "/"%char).
  { destruct (rev l) as [|x r] eqn:Er.
    - exfalso. apply Hne. rewrite <- (string_of_list_ascii_of_string d). fold l. by rewrite <- (rev_involutive l), Er.
    - exists x, r. split; [done|]. intros ->. apply Hd. rewrite in_rev, Er. by left. }
  destruct Hl as (x & r & Er & Hx). unfold writeStatusPath, path_parts, SplitChar, TrimChar. rewrite list_ascii_of_string_of_list_ascii.
  rewrite !list_ascii_of_string_app. fold l.
  change (drop_char "/" (list_ascii_of_string "/kv/write-status/" ++ list_ascii_of_string "wr-" ++ l)) with (list_ascii_of_string "kv/write-status/wr-" ++ l).
  rewrite rev_app_distr, Er, <- app_comm_cons, drop_char_not by done. rewrite app_comm_cons, <- Er, <- rev_app_distr, rev_involutive.
  change (list_ascii_of_string "kv/write-status/wr-" ++ l)
    with (list_ascii_of_string "kv" ++ "/"%char :: list_ascii_of_string "write-status" ++ "/"%char :: list_ascii_of_string "wr-" ++ l).
  rewrite split_from_app by (cbn; intuition discriminate). rewrite split_from_app by (cbn; intuition discriminate).
  rewrite split_from_part by (rewrite in_app_iff; intros [Hi|Hi]; [cbn in Hi; intuition discriminate|done]).
  cbn [rev app map]. rewrite bool_decide_true by done. unfold l. by rewrite <- list_ascii_of_string_app, string_of_list_ascii_of_string.
Qed.

(** ** What the status endpoint answers *)

Section Claims.
Context {P : Type} (h : StatsProvider P) (apply : kv_write -> SE P unit).

Lemma handleWriteStatus_spec path sv : pv_writer h = Some apply ->
  handleWriteStatus h "GET" path sv =
  (Ok (match writeStatusPath path ≫= (fun id => requests_Get id (srv_requests sv)) with Some st => mkResponse 200 (BStatus st) | None => NotFound end), sv).
Proof.
  intros Hw. unfold handleWriteStatus, mbind, SE_bind, get. rewrite (bool_decide_false (pv_writer h = None)) by (by rewrite Hw). cbn.
  destruct (writeStatusPath path) as [id|]; cbn; [|done]. by destruct (requests_Get id _).
Qed.

(** C16. The status of a write request is true, over any interleaving of
    requests and of the goroutines that apply accepted writes: a request that
    is not settled is answered as pending with its operation, however many
    came after it; a settled one is answered with its own outcome, or, once
    more requests than the capacity were made, not at all; every answer is
    the status of a request that was made; and the table has at most as many
    entries as its capacity or as there ever were requests at once. *)
Theorem write_status_tracks p max s : pv_writer h = Some apply -> 0 < max -> rtc (tracked_step apply) (tracked_start p max) s -> td_started s < 2 ^ 64 ->
  let ask path := handleWriteStatus h "GET" path (td_server s) in
  let found st := (Ok (mkResponse 200 (BStatus st)), td_server s) in
  (forall t, t ∈ td_tasks s -> tk_phase t <> Reserved -> exists st, ask ("/kv/write-status/" +:+ tk_id t) = found st /\ shows_pending t st) /\
  (forall t, t ∈ td_settled s ->
    (exists st, ask ("/kv/write-status/" +:+ tk_id t) = found st /\ shows_outcome t st) \/
    (ask ("/kv/write-status/" +:+ tk_id t) = (Ok NotFound, td_server s) /\ max < td_started s)) /\
  (forall path, ask path = (Ok NotFound, td_server s) \/ exists t st, t ∈ td_tasks s ++ td_settled s /\ describes t st /\ ask path = found st) /\
  Z.of_nat (size (statusMap (srv_requests (td_server s)))) <= Z.max max (td_peak s).
Proof.
  intros Hw Hm Hs Hn ask found. assert (HT : well_tracked max s) by (eapply steps_tracked; [exact Hs|done|by apply tracking_start]). red in HT.
  assert (Hask : forall t, t ∈ td_tasks s ++ td_settled s -> ask ("/kv/write-status/" +:+ tk_id t) =
    (Ok (match statusMap (srv_requests (td_server s)) !! tk_id t with Some st => mkResponse 200 (BStatus st) | None => NotFound end), td_server s)).
  { intros t Ht. pose proof (tg_named _ _ _ _ _ _ HT) as Hnm. rewrite Forall_forall in Hnm. destruct (Hnm t Ht) as (k & Hk & Ek).
    unfold ask. rewrite (handleWriteStatus_spec _ _ Hw), Ek, status_path_of by lia. done. }
  split_and!.
  - intros t Ht Hp. destruct (task_pending _ _ _ _ _ _ t HT Ht Hp) as (st & E & Hst). exists st. rewrite Hask, E by set_solver. done.
  - intros t Ht. rewrite Hask by set_solver. destruct (statusMap _ !! tk_id t) as [st|] eqn:E.
    + left. exists st. split; [done|]. destruct (tg_shown _ _ _ _ _ _ HT _ _ E) as [(t2 & Ht2 & Hp2 & En & _)|(t2 & Ht2 & En & Ho)].
      * by destruct (tasks_apart _ _ _ _ _ _ t2 t HT Ht2 Ht).
      * by rewrite (same_name _ _ _ _ _ _ t t2 HT) by set_solver.
    + right. split; [done|]. destruct (decide (max < td_started s)); [done|]. destruct (tg_all _ _ _ _ _ _ HT t); [lia|done|congruence].
  - intros path. unfold ask. rewrite (handleWriteStatus_spec _ _ Hw). destruct (writeStatusPath path ≫= _) as [st|] eqn:E; [right|by left].
    apply bind_Some in E as (id & _ & E). unfold requests_Get in E.
    destruct (tg_shown _ _ _ _ _ _ HT _ _ E) as [(t & Ht & _ & _ & Hd & _)|(t & Ht & _ & Hd & _)]; exists t, st; split_and!; try done; set_solver.
  - etrans; [|apply (tg_size _ _ _ _ _ _ HT)]. by rewrite (table_size _ (tg_table _ _ _ _ _ _ HT)).
Qed.
End Claims.

(** ** An example: a table of one request *)

(** A provider that keeps what it is given, and rejects the key "x". *)
Definition demo_apply (w : kv_write) : SE (list kv_write) unit :=
  if bool_decide (kv_key w = bytes_of_string "x") then throw ErrBackpressure else modify (fun p => p ++ [w]).
Definition demo_provider : StatsProvider (list kv_write) := mkProvider _ (fun _ => (true, "")) None (Some demo_apply) None None None.

Definition demo_write (k : string) : kv_write := KvPut (bytes_of_string k) (bytes_of_string "v").
Definition demo_task (n : Z) (k : string) (f : phase) : task := mkTask (request_id n) (demo_write k) WriteConsistencyAccepted f.
Definition demo_enter (n : Z) (k : string) (s : writeRequestStore) : writeRequestStore :=
  snd (requests_enter (request_id n) "put" WriteConsistencyAccepted n (snd (requests_reserve s))).

(** Two requests; the second is rejected and settled, the first still runs;
    a third one comes. *)
Definition demo_two : writeRequestStore := demo_enter 2 "x" (demo_enter 1 "a" (newWriteRequestStore 1)).
Definition demo_rejected : writeRequestStore := snd (requests_Reject (request_id 2) ErrBackpressure 5 demo_two).
Definition demo_three : tracked (list kv_write) :=
  mkTracked (mkServer [] (demo_enter 3 "b" demo_rejected)) [demo_task 1 "a" Entered; demo_task 3 "b" Entered] [demo_task 2 "x" (Applied (inl ErrBackpressure))] 3 2.

Lemma demo_steps : rtc (tracked_step demo_apply) (tracked_start [] 1) demo_three.
Proof.
  assert (H2 : rtc (tracked_step demo_apply) (tracked_start [] 1) (mkTracked (mkServer [] demo_two) [demo_task 1 "a" Entered; demo_task 2 "x" Entered] [] 2 2)).
  { eapply rtc_l; [apply (step_reserve _ _ _ _ _ _ _ (demo_write "a") WriteConsistencyAccepted)|].
    eapply rtc_l; [by apply (step_enter _ _ _ [] (demo_task 1 "a" Reserved) [] _ _ _ 1)|].
    eapply rtc_l; [apply (step_reserve _ _ _ _ _ _ _ (demo_write "x") WriteConsistencyAccepted)|].
    eapply rtc_l; [by apply (step_enter _ _ _ [demo_task 1 "a" Entered] (demo_task 2 "x" Reserved) [] _ _ _ 2)|]. apply rtc_refl. }
  etrans; [exact H2|].
  eapply rtc_l; [by apply (step_apply _ _ (mkServer [] demo_two) [demo_task 1 "a" Entered] (demo_task 2 "x" Entered) [] _ _ _ (inl ErrBackpressure))|].
  eapply rtc_l; [by apply (step_settle _ _ [demo_task 1 "a" Entered] (demo_task 2 "x" (Applied (inl ErrBackpressure))) [] _ _ _ (inl ErrBackpressure) 5)|].
  eapply rtc_l; [apply (step_reserve _ _ _ _ _ _ _ (demo_write "b") WriteConsistencyAccepted)|].
  eapply rtc_l; [by apply (step_enter _ _ _ [demo_task 1 "a" Entered] (demo_task 3 "b" Reserved) [] _ _ _ 3)|]. apply rtc_refl.
Qed.

(** The settled request is gone, the two in progress are there. *)
Example demo_evicts : rq_order (srv_requests (td_server demo_three)) = ["wr-1"; "wr-3"].
Proof. vm_compute. reflexivity. Qed.

Lemma write_status_tracks_witness :
  (exists st, handleWriteStatus demo_provider "GET" "/kv/write-status/wr-1" (td_server demo_three) = (Ok (mkResponse 200 (BStatus st)), td_server demo_three) /\
     shows_pending (demo_task 1 "a" Entered) st) /\
  Z.of_nat (size (statusMap (srv_requests (td_server demo_three)))) <= 2.
Proof.
  destruct (write_status_tracks demo_provider demo_apply [] 1 demo_three) as (H1 & _ & _ & H4); [done|lia|exact demo_steps|cbn; lia|].
  split; [|exact H4]. apply (H1 (demo_task 1 "a" Entered)); [cbn; set_solver|done].
Defined.
