(* ===== verification/Gateway.v ===== *)
(** * The gateway ([pkg/lsm/server/router.go])

    A client that sends writes to the leader of the shard of their key.  It
    caches a routing table, looks for a new one at the bootstrap address and
    then at the nodes, and repeats a write once, if the first attempt is known
    not to have been submitted.  The network is a parameter. *)

From Stdlib Require Import ZArith Lia Strings.Ascii Strings.String.
From stdpp Require Import base list strings gmap sorting.
From S2P Require Import Prelude Base64 Engine GoStrings ControlPlane RaftLog Cdc Server.
Local Open Scope Z_scope.

(** ** Data *)

Record cachedRouteShard := mkCached { cs_id : string; cs_start : bytes; cs_end : bytes; cs_leader : string }.
Record cachedRoutes := mkCachedRoutes { ch_revision : Z; ch_shards : list cachedRouteShard }.

(** [NodeEndpoints] in the order the map is ranged over. *)
Record GatewayOptions := mkGatewayOptions {
  RequestTimeout : Z;
  RouteProbeTimeout : Z;
  BootstrapURL : string;
  opt_NodeEndpoints : list (string * string);
  hasHTTPClient : bool
}.

Record Gateway := mkGateway {
  routeProbeTimeout : Z;
  clientTimeout : option Z;
  dialRetry : bool;
  bootstrapURL : string;
  nodeEndpoints : gmap string string;
  gw_routes : cachedRoutes
}.

Definition set_gw_routes (t : cachedRoutes) (g : Gateway) : Gateway :=
  mkGateway (routeProbeTimeout g) (clientTimeout g) (dialRetry g) (bootstrapURL g) (nodeEndpoints g) t.

(** The errors of a write. *)
Inductive write_error :=
| unsubmittedWriteError (leader : string) (cause : error)
| WriteRequestError (attemptedLeader : string) (Status : Z) (Response : writeErrorResponse)
| OtherError (e : error).

(** ** A new gateway *)

Definition trim_endpoint (s : string) : string := TrimSuffixChar "/" (TrimSpace s).

Fixpoint gateway_endpoints (l : list (string * string)) (endpoints : gmap string string) : result (gmap string string) :=
  match l with
  | [] => Ok endpoints
  | (nodeID, endpoint) :: l =>
      if bool_decide (TrimSpace nodeID = "" \/ trim_endpoint endpoint = "") then Err (ErrNew "invalid node endpoint mapping")
      else gateway_endpoints l (<[TrimSpace nodeID := trim_endpoint endpoint]> endpoints)
  end.

Definition Second : Z := 1000000000.
Definition Millisecond : Z := 1000000.

Definition NewGateway (opts : GatewayOptions) : result Gateway :=
  let bootstrap := trim_endpoint (BootstrapURL opts) in
  if bool_decide (bootstrap = "") then Err (ErrNew "bootstrap url required")
  else if bool_decide (opt_NodeEndpoints opts = []) then Err (ErrNew "node endpoints required")
  else
    endpoints ← gateway_endpoints (opt_NodeEndpoints opts) ∅;
    if bool_decide (RequestTimeout opts < 0) then Err (ErrNew "request timeout must be positive")
    else if hasHTTPClient opts && bool_decide (RequestTimeout opts <> 0) then Err (ErrNew "request timeout cannot be combined with HTTPClient")
    else
      let requestTimeout := if bool_decide (RequestTimeout opts = 0) then 3 * Second else RequestTimeout opts in
      if bool_decide (RouteProbeTimeout opts < 0) then Err (ErrNew "route probe timeout must be positive")
      else
        Ok (mkGateway (if bool_decide (RouteProbeTimeout opts = 0) then 500 * Millisecond else RouteProbeTimeout opts)
              (if hasHTTPClient opts then None else Some requestTimeout) (negb (hasHTTPClient opts)) bootstrap endpoints (mkCachedRoutes 0 [])).

(** ** The network *)

(** A response: its code, and its body as each type it may be decoded to. *)
Record reply := mkReply {
  rp_code : Z;
  rp_status : result WriteRequestStatus;
  rp_error : result writeErrorResponse;
  rp_routes : result routingResponse
}.

(** An error of the HTTP client; [de_dial] says that it is one of dialling. *)
Record do_error := mkDoError { de_dial : bool; de_err : error }.

Inductive payload := PutPayload (r : putRequest) | DeletePayload (r : deleteRequest).

(** The requests a gateway makes: whether an address makes a URL, the context
    of the call, and the HTTP client. *)
Class Network (X : Type) := {
  valid_url : string -> bool;
  ctx_Err : X -> option error;
  post_write : string -> payload -> X -> (do_error + reply) * X;
  get_routes : string -> X -> (do_error + reply) * X
}.

Section Gateway.
Context {X : Type} `{Network X}.

(** A call: the gateway and the network, an error or a value. *)
Definition GW (A : Type) : Type := Gateway * X -> (write_error + A) * (Gateway * X).
#[global] Instance GW_ret : MRet GW := fun A a s => (inr a, s).
#[global] Instance GW_bind : MBind GW := fun A B f m s => match m s with (inr a, s) => f a s | (inl e, s) => (inl e, s) end.
Definition fail {A} (e : write_error) : GW A := fun s => (inl e, s).
Definition gateway : GW Gateway := fun s => (inr (fst s), s).
Definition context_err : GW (option error) := fun s => (inr (ctx_Err (snd s)), s).
Definition network {A} (f : X -> A * X) : GW A := fun s => let '(a, x) := f (snd s) in (inr a, (fst s, x)).
Definition try {A} (m : GW A) : GW (write_error + A) := fun s => let '(r, s) := m s in (inr r, s).

(** ** Routes *)

Fixpoint lookup_shards (shards : list cachedRouteShard) (key : bytes) : option string :=
  match shards with
  | [] => None
  | shard :: shards =>
      if keyInRange key (cs_start shard) (cs_end shard) then if bool_decide (cs_leader shard = "") then None else Some (cs_leader shard)
      else lookup_shards shards key
  end.
Definition lookupLeader (g : Gateway) (key : bytes) : option string := lookup_shards (ch_shards (gw_routes g)) key.

Fixpoint decode_shards (shards : list routingShard) : result (list cachedRouteShard) :=
  match shards with
  | [] => Ok []
  | shard :: shards =>
      match DecodeString (StartKeyBase64 shard), DecodeString (EndKeyBase64 shard) with
      | Ok start, Ok stop => rest ← decode_shards shards; mret (mkCached (rs_ID shard) start stop (rs_Leader shard) :: rest)
      | Ok _, _ => Err (ErrNew "decode end key for shard")
      | _, _ => Err (ErrNew "decode start key for shard")
      end
  end.

(** The table in a response. *)
Definition decode_routes (resp : reply) : result cachedRoutes :=
  if bool_decide (rp_code resp <> 200) then Err (ErrNew "route refresh status")
  else
    table ← rp_routes resp;
    shards ← decode_shards (rt_Shards table);
    mret (mkCachedRoutes (rt_Revision table) shards).

Definition fetchRoutes (endpoint : string) : GW (option cachedRoutes) :=
  if negb (valid_url (endpoint +:+ "/cluster/routes")) then mret None
  else
    resp ← network (get_routes endpoint);
    mret (match resp with inr resp => match decode_routes resp with Ok table => Some table | _ => None end | inl _ => None end).

(** A shard of the table that a write of the key could be sent to. *)
Definition usable (g : Gateway) (key : bytes) (excluded : string) (table : cachedRoutes) : bool :=
  existsb (fun shard =>
    keyInRange key (cs_start shard) (cs_end shard) && bool_decide (cs_leader shard <> "") && bool_decide (cs_leader shard <> excluded) &&
    bool_decide (default "" (nodeEndpoints g !! cs_leader shard) <> "")) (ch_shards table).

Definition string_before (a b : string) : Prop := BytesOT.le (bytes_of_string a) (bytes_of_string b).
#[global] Instance string_before_dec a b : Decision (string_before a b).
Proof. unfold string_before. apply _. Defined.

Definition candidates (g : Gateway) : list string :=
  bootstrapURL g :: map (fun node => default "" (nodeEndpoints g !! node)) (merge_sort string_before (map fst (map_to_list (nodeEndpoints g)))).

Fixpoint refresh_loop (l : list string) (seen : gset string) (key : bytes) (excluded : string) (requireKey : bool) : GW unit :=
  match l with
  | [] => fail (OtherError (ErrNew "route discovery exhausted"))
  | endpoint :: l =>
      if bool_decide (endpoint ∈ seen) then refresh_loop l seen key excluded requireKey
      else
        over ← context_err;
        match over with
        | Some e => fail (OtherError e)
        | None =>
            g ← gateway;
            table ← fetchRoutes endpoint;
            match table with
            | Some table =>
                if requireKey && negb (usable g key excluded table) then refresh_loop l ({[endpoint]} ∪ seen) key excluded requireKey
                else fun s => (inr tt, (set_gw_routes table (fst s), snd s))
            | None => refresh_loop l ({[endpoint]} ∪ seen) key excluded requireKey
            end
        end
  end.

Definition refreshRoutesForKey (key : bytes) (excluded : string) (requireKey : bool) : GW unit :=
  g ← gateway;
  refresh_loop (candidates g) ∅ key excluded requireKey.
Definition refreshRoutes : GW unit := refreshRoutesForKey [] "" false.

Definition leaderForKey (key : bytes) : GW string :=
  g ← gateway;
  match lookupLeader g key with
  | Some leader => mret leader
  | None =>
      _ ← refreshRoutesForKey key "" true;
      g ← gateway;
      match lookupLeader g key with
      | Some leader => mret leader
      | None => fail (OtherError (ErrNew "route not found for key"))
      end
  end.

(** ** Writes *)

Definition write_payload (w : kv_write) (consistency : string) : payload :=
  match w with
  | KvPut key value => PutPayload (mkPut (EncodeToString key) (EncodeToString value) consistency)
  | KvDelete key => DeletePayload (mkDelete (EncodeToString key) consistency)
  end.
Definition write_path (w : kv_write) : string := match w with KvPut _ _ => "/kv/put" | KvDelete _ => "/kv/delete" end.

Definition write_reply (leader : string) (resp : reply) : write_error + WriteRequestStatus :=
  if bool_decide (rp_code resp = 200 \/ rp_code resp = 202) then
    match rp_status resp with Ok out => inr out | Err e => inl (OtherError e) | _ => inl (OtherError EOF) end
  else
    inl (WriteRequestError leader (rp_code resp)
           (match rp_error resp with Ok e => e | _ => mkWriteError false (ErrNew "write request failed with status") "unknown" false None end)).

Definition writeOnce (w : kv_write) (consistency : string) : GW WriteRequestStatus :=
  leader ← leaderForKey (kv_key w);
  g ← gateway;
  match nodeEndpoints g !! leader with
  | None => fail (OtherError (ErrNew "node endpoint missing for leader"))
  | Some endpoint =>
      if negb (valid_url (endpoint +:+ write_path w)) then fail (OtherError (ErrNew "parse url"))
      else
        resp ← network (post_write endpoint (write_payload w consistency));
        over ← context_err;
        match resp with
        | inl e =>
            if dialRetry g && de_dial e && bool_decide (over = None) then fail (unsubmittedWriteError leader (de_err e))
            else fail (OtherError (de_err e))
        | inr resp => fun s => (write_reply leader resp, s)
        end
  end.

Definition retry_excluding (e : write_error) : option string :=
  match e with
  | unsubmittedWriteError leader _ => Some leader
  | WriteRequestError leader _ resp => if Retryable resp && SafeToRetry resp then Some leader else None
  | OtherError _ => None
  end.

Definition writeWithRetry (w : kv_write) (consistency : string) : GW WriteRequestStatus :=
  r ← try (writeOnce w consistency);
  match r with
  | inr status => mret status
  | inl err =>
      match retry_excluding err with
      | None => fail err
      | Some excluded =>
          refreshed ← try (refreshRoutesForKey (kv_key w) excluded true);
          match refreshed with
          | inl _ => fail err
          | inr _ => writeOnce w consistency
          end
      end
  end.

Definition Gateway_Put (key value : bytes) (consistency : string) : GW WriteRequestStatus := writeWithRetry (KvPut key value) consistency.
Definition Gateway_Delete (key : bytes) (consistency : string) : GW WriteRequestStatus := writeWithRetry (KvDelete key) consistency.
End Gateway.
