(* ===== verification/GatewaySpec.v ===== *)
(** * The gateway: at most one submission, routes and discovery

    The promise of the network to the gateway, a cluster of servers that keeps
    it, and the theorems on writes, routes and the search for a leader. *)

From Stdlib Require Import ZArith Lia Strings.Ascii Strings.String.
From stdpp Require Import base list strings pretty gmap sorting.
From S2P Require Import Prelude Iofs Base64 Engine GoStrings ControlPlane ControlSpec ControlNode ControlClaims RaftLog Cdc Server ServerSpec Gateway.
Local Open Scope Z_scope.

Create HintDb reads.

(** ** What the network promises *)

Definition accepted_code (resp : reply) : Prop := rp_code resp = 200 \/ rp_code resp = 202.

(** A response that certifies that the write was not submitted. *)
Definition certified (resp : reply) : Prop := exists e, rp_error resp = Ok e /\ Retryable e = true /\ SafeToRetry e = true.

(** [submitted] counts the writes that reached a commit log or will;
    [owned] says that the client of the gateway is its own, whose dialling
    errors can be trusted. *)
Class NetworkLaws (X : Type) `{Network X} (submitted : X -> Z) (owned : bool) : Prop := {
  routes_submit_nothing endpoint x : submitted (snd (get_routes endpoint x)) = submitted x;
  write_submits_once endpoint p x : submitted x <= submitted (snd (post_write endpoint p x)) <= submitted x + 1;
  dial_submits_nothing endpoint p x e : owned = true -> fst (post_write endpoint p x) = inl e -> de_dial e = true ->
    submitted (snd (post_write endpoint p x)) = submitted x;
  accepted_is_submitted endpoint p x resp : fst (post_write endpoint p x) = inr resp -> accepted_code resp ->
    submitted (snd (post_write endpoint p x)) = submitted x + 1;
  certified_is_not endpoint p x resp : fst (post_write endpoint p x) = inr resp -> ~ accepted_code resp -> certified resp ->
    submitted (snd (post_write endpoint p x)) = submitted x
}.

Section AtMostOnce.
Context {X : Type} `{Network X} (submitted : X -> Z) (owned : bool) `{!NetworkLaws X submitted owned}.

(** The settings of a gateway do not change, nothing is submitted, and an
    error is no reason to repeat a write. *)
Definition same_settings (g g' : Gateway) : Prop := g' = set_gw_routes (gw_routes g') g.
Definition reads_only {A} (m : GW A) : Prop := forall s,
  let '(r, s') := m s in
  same_settings (fst s) (fst s') /\ submitted (snd s') = submitted (snd s) /\ match r with inl e => retry_excluding e = None | inr _ => True end.

Lemma settings_refl g : same_settings g g.
Proof. by destruct g. Qed.

Lemma settings_trans g1 g2 g3 : same_settings g1 g2 -> same_settings g2 g3 -> same_settings g1 g3.
Proof. unfold same_settings. intros E1 E2. rewrite E2, E1. done. Qed.

Lemma reads_ret {A} (a : A) : reads_only (mret a).
Proof. intros s. by split_and!; [apply settings_refl|..]. Qed.
Lemma reads_fail {A} e : reads_only (A := A) (fail (OtherError e)).
Proof. intros s. by split_and!; [apply settings_refl|..]. Qed.
Lemma reads_gateway : reads_only gateway.
Proof. intros s. by split_and!; [apply settings_refl|..]. Qed.
Lemma reads_context : reads_only context_err.
Proof. intros s. by split_and!; [apply settings_refl|..]. Qed.

Lemma reads_bind {A B} (m : GW A) (f : A -> GW B) : reads_only m -> (forall a, reads_only (f a)) -> reads_only (a ← m; f a).
Proof.
  intros Hm Hf s. specialize (Hm s). unfold mbind, GW_bind. destruct (m s) as [[e|a] s1]; [done|]. specialize (Hf a s1).
  destruct (f a s1) as [r s2], Hf as (H1 & H2 & H3), Hm as (G1 & G2 & _). split_and!; [by eapply settings_trans|lia|done].
Qed.

#[local] Hint Resolve reads_ret reads_fail reads_gateway reads_context reads_bind : reads.

Lemma reads_fetch endpoint : reads_only (fetchRoutes endpoint).
Proof.
  unfold fetchRoutes. destruct (negb _); [auto with reads|]. apply reads_bind; [|auto with reads].
  intros s. unfold network. pose proof (routes_submit_nothing endpoint (snd s)) as E. destruct (get_routes endpoint (snd s)). cbn in *. by split_and!; [apply settings_refl|..].
Qed.

Lemma reads_loop l seen key excluded b : reads_only (refresh_loop l seen key excluded b).
Proof.
  revert seen. induction l as [|endpoint l IH]; intros seen; cbn [refresh_loop]; [auto with reads|]. case_bool_decide; [done|].
  apply reads_bind; [auto with reads|]. intros [e|]; [auto with reads|]. apply reads_bind; [auto with reads|]. intros g.
  apply reads_bind; [apply reads_fetch|]. intros [table|]; [|done]. destruct (_ && _); [done|]. intros s. cbn. by split_and!; [destruct (fst s)|..].
Qed.

Lemma reads_refresh key excluded b : reads_only (refreshRoutesForKey key excluded b).
Proof. apply reads_bind; [auto with reads|]. intros g. apply reads_loop. Qed.

Lemma reads_leader key : reads_only (leaderForKey key).
Proof.
  apply reads_bind; [auto with reads|]. intros g. destruct (lookupLeader g key); [auto with reads|]. apply reads_bind; [apply reads_refresh|]. intros _.
  apply reads_bind; [auto with reads|]. intros g'. destruct (lookupLeader g' key); auto with reads.
Qed.

(** The outcome of one attempt. *)
Definition submits (n n' : Z) (r : write_error + WriteRequestStatus) : Prop :=
  match r with
  | inr _ => n' = n + 1
  | inl e => n <= n' <= n + 1 /\ (retry_excluding e <> None -> n' = n)
  end.

Lemma write_reply_submits leader endpoint p x resp : fst (post_write endpoint p x) = inr resp ->
  submits (submitted x) (submitted (snd (post_write endpoint p x))) (write_reply leader resp).
Proof.
  intros E. pose proof (write_submits_once endpoint p x) as Hle. unfold write_reply. case_bool_decide as Hc.
  - pose proof (accepted_is_submitted endpoint p x resp E Hc). destruct (rp_status resp); cbn; [done|split; [lia|done]..].
  - cbn. split; [lia|]. intros Hr. apply (certified_is_not endpoint p x resp E Hc). destruct (rp_error resp) as [e| | |] eqn:Ee; [|done..].
    exists e. destruct (Retryable e) eqn:E1, (SafeToRetry e) eqn:E2; cbn in Hr; rewrite ?E1, ?E2 in Hr; done.
Qed.

Lemma writeOnce_submits w c s : (dialRetry (fst s) = true -> owned = true) ->
  let '(r, s') := writeOnce w c s in same_settings (fst s) (fst s') /\ submits (submitted (snd s)) (submitted (snd s')) r.
Proof.
  intros Ho. unfold writeOnce. pose proof (reads_leader (kv_key w) s) as Hl. unfold mbind, GW_bind. revert Ho Hl.
  destruct (leaderForKey (kv_key w) s) as [[e|leader] [g x]] eqn:El; cbn [snd fst]; intros Ho (Hg & Hx & He).
  { split; [done|]. cbn. rewrite He. split; [lia|done]. }
  assert (Ho' : dialRetry g = true -> owned = true) by (rewrite Hg; exact Ho).
  unfold gateway. cbn [fst snd]. destruct (nodeEndpoints g !! leader) as [endpoint|]; [|cbn; split; [done|split; [lia|done]]].
  destruct (negb _); [cbn; split; [done|split; [lia|done]]|]. unfold network. cbn [fst snd].
  pose proof (write_reply_submits leader endpoint (write_payload w c) x) as Hr. pose proof (write_submits_once endpoint (write_payload w c) x) as Hle.
  pose proof (dial_submits_nothing endpoint (write_payload w c) x) as Hd.
  destruct (post_write endpoint (write_payload w c) x) as [[e|resp] x'] eqn:Ep; cbn [fst snd] in *.
  - unfold context_err. cbn [fst snd]. destruct (dialRetry g) eqn:Edr, (de_dial e) eqn:Edd; cbn [andb]; try case_bool_decide; cbn; (split; [done|]); (split; [lia|done]) || idtac.
    split; [lia|]. intros _. rewrite (Hd e); auto.
  - split; [done|]. rewrite <- Hx. by apply Hr.
Qed.

(** C15. A write through the gateway is submitted at most once, whatever the
    network does and however the routes change: a call that returns a status
    has submitted the write exactly once, over its two attempts; a call that
    fails has submitted it at most once, and not at all if its error is one
    that allows to try again.  With an HTTP client of the caller this needs no
    trust in its dialling errors. *)
Theorem gateway_at_most_once w consistency g x : (dialRetry g = true -> owned = true) ->
  let '(r, (g', x')) := writeWithRetry w consistency (g, x) in submits (submitted x) (submitted x') r.
Proof.
  intros Ho. unfold writeWithRetry, try, mbind, GW_bind. pose proof (writeOnce_submits w consistency (g, x) Ho) as H1.
  destruct (writeOnce w consistency (g, x)) as [[err|st] [g1 x1]]; cbn [fst snd] in *; [|by destruct H1].
  destruct H1 as [Hg Hs]. cbn in Hs. destruct (retry_excluding err) as [excluded|] eqn:Ee; [|cbn; by rewrite Ee].
  destruct Hs as [_ Hs]. specialize (Hs ltac:(done)). pose proof (reads_refresh (kv_key w) excluded true (g1, x1)) as H2.
  destruct (refreshRoutesForKey _ _ _ _) as [[e2|[]] [g2 x2]]; cbn [fst snd] in *; destruct H2 as (Hg2 & Hx2 & _).
  - cbn. split; [lia|]. lia.
  - assert (Ho2 : dialRetry g2 = true -> owned = true) by (rewrite Hg2, Hg; exact Ho).
    pose proof (writeOnce_submits w consistency (g2, x2) Ho2) as H3. destruct (writeOnce w consistency (g2, x2)) as [r [g3 x3]]. cbn [fst snd] in H3.
    destruct H3 as [_ H3]. by rewrite Hx2, Hs in H3.
Qed.
End AtMostOnce.

(** A shard that a stale table misplaces is answered as retryable, but not as
    safe to retry, and the gateway gives up. *)
Example shard_miss_not_retried {P} (h : StatsProvider P) p key leader code : exists e, Body (writeWriteError h p key ErrShardNotFound) = BWriteError e /\
  Retryable e = true /\ retry_excluding (WriteRequestError leader code e) = None.
Proof. eexists. split; [reflexivity|]. by split. Qed.

(** ** A cluster of servers

    The gateway talks to servers at addresses, and an accepted write counts
    from the time its goroutine is started. *)

(** What a provider promises of the writes: a write it returns from is in its
    log, and one that it rejects as not the leader is not. *)
Class CertifiedWriter (P : Type) (apply : kv_write -> SE P unit) (count : P -> Z) : Prop := {
  writer_Ok w p p' : apply w p = (Ok tt, p') -> count p' = count p + 1;
  writer_once w p : count p <= count (snd (apply w p)) <= count p + 1;
  writer_rejects w p p' : apply w p = (Err commitLogNotLeader, p') -> count p' = count p
}.

Record cluster (P : Type) := mkCluster { cl_nodes : gmap string (server P); cl_running : list (string * kv_write) }.
Arguments mkCluster {P} _ _.
Arguments cl_nodes {P} _.
Arguments cl_running {P} _.

(** The body of a response as the client reads it. *)
Definition reply_of (resp : response) : reply :=
  mkReply (StatusCode resp)
    (match Body resp with BStatus st => Ok st | _ => Err (ErrNew "json") end)
    (match Body resp with BWriteError e => Ok e | _ => Err (ErrNew "json") end)
    (match Body resp with BRoutes r => Ok r | _ => Err (ErrNew "json") end).

Section Cluster.
Context {P : Type} (h : StatsProvider P) (apply : kv_write -> SE P unit) (Hw : pv_writer h = Some apply) (mode : string) (now : Z).

Definition serve_payload (p : payload) : SE (server P) (response * list (string * kv_write)) :=
  match p with
  | PutPayload r => handlePut h mode "POST" (Decoded r, EndOfBody) now now
  | DeletePayload r => handleDelete h mode "POST" (Decoded r, EndOfBody) now now
  end.

(** A handler that panics closes the connection. *)
Definition cluster_write (endpoint : string) (p : payload) (x : cluster P) : (do_error + reply) * cluster P :=
  match cl_nodes x !! endpoint with
  | None => (inl (mkDoError true (ErrNew "dial tcp")), x)
  | Some sv =>
      match serve_payload p sv with
      | (Ok (resp, todo), sv') => (inr (reply_of resp), mkCluster (<[endpoint := sv']> (cl_nodes x)) (cl_running x ++ todo))
      | (_, sv') => (inl (mkDoError false EOF), mkCluster (<[endpoint := sv']> (cl_nodes x)) (cl_running x))
      end
  end.

Definition cluster_routes (endpoint : string) (x : cluster P) : (do_error + reply) * cluster P :=
  match cl_nodes x !! endpoint with
  | None => (inl (mkDoError true (ErrNew "dial tcp")), x)
  | Some sv =>
      match handleRoutes h "GET" sv with
      | (Ok resp, _) => (inr (reply_of resp), x)
      | _ => (inl (mkDoError false EOF), x)
      end
  end.

#[global] Instance cluster_network : Network (cluster P) := {|
  valid_url := fun _ => true; ctx_Err := fun _ => None; post_write := cluster_write; get_routes := cluster_routes
|}.

Context (count : P -> Z) `{!CertifiedWriter P apply count}.

Definition cluster_submitted (x : cluster P) : Z :=
  map_fold (fun _ sv n => count (srv_provider sv) + n) 0 (cl_nodes x) + zlen (cl_running x).

Lemma cluster_insert x endpoint sv sv' todo : cl_nodes x !! endpoint = Some sv ->
  cluster_submitted (mkCluster (<[endpoint := sv']> (cl_nodes x)) (cl_running x ++ todo)) =
  cluster_submitted x + (count (srv_provider sv') - count (srv_provider sv)) + zlen todo.
Proof.
  intros E. unfold cluster_submitted. cbn [cl_nodes cl_running]. rewrite zlen_app, <- insert_delete_eq.
  rewrite <- (insert_id (cl_nodes x) endpoint sv E) at 2. rewrite <- (insert_delete_eq (cl_nodes x) endpoint sv).
  rewrite !map_fold_insert_L by (try apply lookup_delete_eq; intros; lia). lia.
Qed.

(** What a call of a write handler adds. *)
Definition counts_once (m : SE (server P) (response * list (string * kv_write))) : Prop := forall sv,
  match m sv with
  | (Ok (resp, todo), sv') =>
      let n := count (srv_provider sv') - count (srv_provider sv) + zlen todo in
      0 <= n <= 1 /\ (accepted_code (reply_of resp) -> n = 1) /\ (certified (reply_of resp) -> n = 0)
  | (_, sv') => 0 <= count (srv_provider sv') - count (srv_provider sv) <= 1
  end.

Lemma attempt_counts w sv :
  let '(r, sv') := attempt (apply w) sv in
  let n := count (srv_provider sv') - count (srv_provider sv) in
  0 <= n <= 1 /\ match r with Ok (inr _) => n = 1 | Ok (inl e) => e = commitLogNotLeader -> n = 0 | _ => True end.
Proof.
  unfold attempt. pose proof (writer_once (apply := apply) w (srv_provider sv)) as H1. pose proof (writer_Ok (apply := apply) w (srv_provider sv)) as H2.
  pose proof (writer_rejects (apply := apply) w (srv_provider sv)) as H3.
  destruct (apply w (srv_provider sv)) as [[[]|e| |] p]; cbn in *; (split; [lia|]); [by rewrite (H2 p); [lia|]| |done..].
  intros ->. rewrite (H3 p); [lia|done].
Qed.

Lemma write_error_code err : writeErrorHTTPStatus err <> 200 /\ writeErrorHTTPStatus err <> 202.
Proof. unfold writeErrorHTTPStatus. by repeat destruct (errors_Is _ _). Qed.

Lemma settle_write_provider id r n (sv : server P) : exists st, fst (settle_write id r n sv) = Ok st /\ srv_provider (snd (settle_write id r n sv)) = srv_provider sv.
Proof. unfold settle_write, on_requests. destruct r; eexists; done. Qed.

(** A write counts once, by the provider or as a goroutine. *)
Lemma executeWrite_counts consistency w : counts_once (executeWrite h apply consistency w now now).
Proof.
  intros sv. unfold executeWrite, mbind, SE_bind. destruct (on_requests (requests_New (kv_op w) consistency now) sv) as [[st| | |] sv1] eqn:E1;
    unfold on_requests in E1; destruct (requests_New _ _ _ _) as [st1 rq1]; try done. injection E1 as <- <-.
  case_bool_decide.
  { cbn. change (zlen [(RequestID st1, w)]) with 1. split; [lia|]. split; [lia|]. by intros (e & E & _). }
  pose proof (attempt_counts w (mkServer (srv_provider sv) rq1)) as Ha. destruct (attempt _ _) as [[r| | |] sv2]; cbn [srv_provider] in Ha; destruct Ha as [Ha Hr]; try done.
  destruct (settle_write_provider (RequestID st1) r now sv2) as (st & Es & Ep). destruct (settle_write _ _ _ _) as [rs sv3]. cbn in Es, Ep. subst rs. cbn.
  destruct r as [err|u]; cbn; rewrite Ep; change (zlen []) with 0; (split; [lia|]).
  - destruct (write_error_code err) as [N1 N2]. split; [intros [E|E]; cbn in E; [by destruct (N1 E)|by destruct (N2 E)]|]. intros (e & [= <-] & _ & Hsafe). cbn in Hsafe. unfold isPreProposalRejection in Hsafe.
    apply bool_decide_eq_true in Hsafe. rewrite (Hr Hsafe). done.
  - split; [lia|]. by intros (e & ? & _).
Qed.

Lemma bad_counts resp : ~ accepted_code (reply_of resp) -> ~ certified (reply_of resp) -> counts_once (mret (resp, [])).
Proof. intros H1 H2 sv. cbn. change (zlen []) with 0. split; [lia|]. done. Qed.

Lemma serve_counts p : counts_once (serve_payload p).
Proof.
  assert (Hbad : forall code e, code = 400 -> ~ accepted_code (reply_of (mkResponse code e))) by (intros code e -> [?|?]; done).
  destruct p as [r|r]; cbn; [unfold handlePut|unfold handleDelete]; rewrite Hw, bool_decide_false by (by intros ?); cbn [decodeJSONBody].
  - destruct (DecodeString (pr_KeyBase64 r)); [destruct (DecodeString (pr_ValueBase64 r)); [destruct (normalizeWriteConsistency _ _)|..]|..];
      try apply executeWrite_counts; try (apply bad_counts; [by apply Hbad|by intros (? & ? & _)]); intros sv; cbn; lia.
  - destruct (DecodeString (dr_KeyBase64 r)); [destruct (normalizeWriteConsistency _ _)|..];
      try apply executeWrite_counts; try (apply bad_counts; [by apply Hbad|by intros (? & ? & _)]); intros sv; cbn; lia.
Qed.

Lemma cluster_write_counts endpoint p x :
  let '(r, x') := cluster_write endpoint p x in
  let n := cluster_submitted x' - cluster_submitted x in
  0 <= n <= 1 /\
  match r with
  | inl e => de_dial e = true -> n = 0
  | inr resp => (accepted_code resp -> n = 1) /\ (certified resp -> n = 0)
  end.
Proof.
  unfold cluster_write. destruct (cl_nodes x !! endpoint) as [sv|] eqn:E; [|split; [lia|cbn; lia]].
  pose proof (serve_counts p sv) as Hs. destruct (serve_payload p sv) as [[[resp todo]| | |] sv'].
  { rewrite (cluster_insert x endpoint sv sv' todo E). destruct Hs as (H1 & H2 & H3). split; [lia|]. split; intros Hc; [specialize (H2 Hc)|specialize (H3 Hc)]; lia. }
  all: pose proof (cluster_insert x endpoint sv sv' [] E) as Ei; rewrite app_nil_r, zlen_nil in Ei; rewrite Ei; (split; [lia|done]).
Qed.

(** The cluster keeps the promise of the network. *)
#[global] Instance cluster_laws : NetworkLaws (cluster P) cluster_submitted true.
Proof.
  split.
  - intros endpoint x. cbn. unfold cluster_routes. destruct (cl_nodes x !! endpoint) as [sv|]; [|done]. by destruct (handleRoutes h "GET" sv) as [[]].
  - intros endpoint p x. pose proof (cluster_write_counts endpoint p x) as Hc. cbn [post_write cluster_network]. destruct (cluster_write endpoint p x). cbn [snd]. destruct Hc as [Hc _]. lia.
  - intros endpoint p x e _. pose proof (cluster_write_counts endpoint p x) as Hc. cbn [post_write cluster_network]. destruct (cluster_write endpoint p x) as [r x']. cbn [fst snd]. intros ->. intros Hd.
    destruct Hc as [_ Hc]. specialize (Hc Hd). lia.
  - intros endpoint p x resp. pose proof (cluster_write_counts endpoint p x) as Hc. cbn [post_write cluster_network]. destruct (cluster_write endpoint p x) as [r x']. cbn [fst snd]. intros -> Ha.
    destruct Hc as (_ & Hc & _). specialize (Hc Ha). lia.
  - intros endpoint p x resp. pose proof (cluster_write_counts endpoint p x) as Hc. cbn [post_write cluster_network]. destruct (cluster_write endpoint p x) as [r x']. cbn [fst snd]. intros -> _ Ha.
    destruct Hc as (_ & _ & Hc). specialize (Hc Ha). lia.
Qed.
End Cluster.

(** ** Routes of a node *)

(** The control interface that a node gives a server. *)
Definition node_control {K} `{Consensus K} (grow : nat -> nat -> nat) (marshal : controlPlaneState -> bytes) (path : string) (anc : nat) (hk : hooks (K := K)) :
    ControlProvider (node K) :=
  mkControlProvider _ status shardsSnapshot true (serve grow marshal path anc hk).

(** A shard as the gateway caches it. *)
Definition cached_of (shard : shard_status) : cachedRouteShard := mkCached (ss_ID shard) (StartKey shard) (EndKey shard) (effectiveWriteLeader shard).

Lemma decode_routing l : decode_shards (map routing_shard l) = Ok (map cached_of l).
Proof.
  induction l as [|shard l IH]; [done|]. cbn [map decode_shards routing_shard StartKeyBase64 EndKeyBase64]. unfold DecodeString.
  rewrite !base64_roundtrip, IH. done.
Qed.

(** The first shard of a list that holds the key, as a search. *)
Lemma lookup_cached l key :
  lookup_shards (map cached_of l) key =
  (shard ← findRouteShardByKey l key; if bool_decide (effectiveWriteLeader shard = "") then None else Some (effectiveWriteLeader shard)).
Proof. induction l as [|shard l IH]; [done|]. cbn. by destruct (keyInRange key _ _). Qed.

Section Routes.
Context {K : Type} `{Consensus K}.

(** Outside of raft routing, no shard carries a write leader of its own. *)
Definition no_write_leader (s : node K) : Prop :=
  snd (raftWriteLeader s) = false -> forall id sh, shards (cp s) !! id = Some sh -> WriteLeader sh = None.

(** The leader that admission looks at. *)
Definition admitted_leader (s : node K) (sh : ShardStatus rslice) : string := if snd (raftWriteLeader s) then fst (raftWriteLeader s) else Leader sh.

Lemma find_snapshot s key : cp_wf (cp s) -> no_write_leader s ->
  effectiveWriteLeader <$> findRouteShardByKey (shardsSnapshot s) key = admitted_leader s <$> shardForKeyLocked (cp s) key.
Proof.
  intros Hwf Hn. pose proof (fun sh => shardForKey_spec (cp s) Hwf key sh) as Hs. destruct (wf_spec (cp s) Hwf) as (_ & _ & _ & _ & Hdom & _).
  set (view := fun id => let shard := shard_values (arrays (cp s)) (shard_at (cp s) id) in
    if snd (raftWriteLeader s) then mkShard (Some (fst (raftWriteLeader s))) (ss_ID shard) (StartKey shard) (EndKey shard) (Leader shard) (ss_Replicas shard) else shard).
  assert (Ev : shardsSnapshot s = map view (order (cp s))) by (unfold shardsSnapshot, view; by destruct (raftWriteLeader s)). rewrite Ev.
  assert (Ek : forall id, StartKey (view id) = StartKey (shard_at (cp s) id) /\ EndKey (view id) = EndKey (shard_at (cp s) id)) by (intros id; unfold view; by destruct (snd _)).
  assert (Hin : forall id, id ∈ order (cp s) -> keyInRange key (StartKey (view id)) (EndKey (view id)) = true ->
    effectiveWriteLeader (view id) = admitted_leader s (shard_at (cp s) id) /\ shardForKeyLocked (cp s) key = Some (shard_at (cp s) id)).
  { intros id Hid Hk. destruct (Ek id) as [E1 E2]. rewrite E1, E2 in Hk. pose proof (shard_at_wf (cp s) id Hwf Hid) as Ea. split; [|apply Hs; eauto].
    unfold view, admitted_leader, effectiveWriteLeader. destruct (snd (raftWriteLeader s)) eqn:Er; [done|]. cbn. by rewrite (Hn Er _ _ Ea). }
  assert (Hno : (forall id, id ∈ order (cp s) -> keyInRange key (StartKey (view id)) (EndKey (view id)) = false) -> shardForKeyLocked (cp s) key = None).
  { intros Hall. destruct (shardForKeyLocked (cp s) key) as [sh|] eqn:E; [|done]. exfalso. destruct (proj1 (Hs sh) eq_refl) as (id & Ei & Hk). assert (Hid : id ∈ order (cp s)) by (apply Hdom; eauto).
    destruct (Ek id) as [E1 E2]. specialize (Hall id Hid). unfold shard_at in E1, E2. rewrite Ei in E1, E2. rewrite E1, E2 in Hall. cbn in Hall. congruence. }
  clear Ev Hs Hdom. revert Hin Hno. generalize (order (cp s)). intros l Hin Hno. induction l as [|id l IH]; cbn [map findRouteShardByKey].
  - by rewrite Hno by set_solver.
  - destruct (keyInRange key (StartKey (view id)) (EndKey (view id))) eqn:Ei.
    + destruct (Hin id ltac:(set_solver) Ei) as [E1 E2]. rewrite E2. cbn. by rewrite E1.
    + apply IH; [intros id' Hid'; apply Hin; set_solver|]. intros Hall. apply Hno. intros id' [->|Hid']%elem_of_cons; [done|by apply Hall].
Qed.

(** Admission by a node that sees the same shard and raft leader. *)
Lemma allowWrite_spec s s2 key : shardForKeyLocked (cp s2) key = shardForKeyLocked (cp s) key -> raftWriteLeader s2 = raftWriteLeader s ->
  allowWrite s2 key =
  if draining (cp s2) then Err ErrBackpressure
  else match admitted_leader s <$> shardForKeyLocked (cp s) key with
  | None => Err ErrShardNotFound
  | Some leader => if bool_decide (leader = nodeID (cp s2)) then Ok tt else Err commitLogNotLeader
  end.
Proof.
  intros E1 E2. unfold allowWrite, admitted_leader. rewrite E1, E2. destruct (raftWriteLeader s) as [leader routing]. destruct (draining (cp s2)); [done|].
  destruct (shardForKeyLocked (cp s) key) as [sh|]; [|done]. destruct routing; cbn; repeat case_bool_decide; naive_solver.
Qed.
End Routes.

Section RoutesClaim.
Context {K : Type} `{Consensus K} (grow : nat -> nat -> nat) (marshal : controlPlaneState -> bytes) (unmarshal : bytes -> result controlPlaneState).
Context (path : string) (anc : nat) (hk : hooks (K := K)).

End RoutesClaim.

(** ** The search for a leader *)

Section Discovery.
Context {X : Type} `{Network X} (x : X).

(** The table that an address offers. *)
Definition offered (endpoint : string) : option cachedRoutes :=
  if negb (valid_url (endpoint +:+ "/cluster/routes")) then None
  else match fst (get_routes endpoint x) with inr resp => match decode_routes resp with Ok table => Some table | _ => None end | inl _ => None end.

(** While the gateway searches, the network stays as it is and the context of
    the call is not over. *)
Definition still : Prop := ctx_Err x = None /\ forall endpoint, snd (get_routes endpoint x) = x.

Definition usable_at (g : Gateway) (key : bytes) (excluded : string) (endpoint : string) : option cachedRoutes :=
  table ← offered endpoint; if usable g key excluded table then Some table else None.

Fixpoint first_usable (g : Gateway) (key : bytes) (excluded : string) (l : list string) : option cachedRoutes :=
  match l with
  | [] => None
  | endpoint :: l => match usable_at g key excluded endpoint with Some table => Some table | None => first_usable g key excluded l end
  end.

Lemma fetch_still endpoint g : still -> fetchRoutes endpoint (g, x) = (inr (offered endpoint), (g, x)).
Proof.
  intros [_ Hs]. unfold fetchRoutes, offered. destruct (negb _); [done|]. specialize (Hs endpoint). unfold mbind, GW_bind, network. cbn.
  destruct (get_routes endpoint x) as [[e|resp] x']; cbn in *; subst; [done|]. by destruct (decode_routes resp).
Qed.

(** Addresses that were tried before need not be tried again. *)
Lemma refresh_loop_still l seen g key excluded : still -> (forall endpoint, endpoint ∈ seen -> usable_at g key excluded endpoint = None) ->
  refresh_loop l seen key excluded true (g, x) =
  match first_usable g key excluded l with
  | Some table => (inr tt, (set_gw_routes table g, x))
  | None => (inl (OtherError (ErrNew "route discovery exhausted")), (g, x))
  end.
Proof.
  intros Hst. revert seen. induction l as [|endpoint l IH]; intros seen Hseen; cbn [refresh_loop first_usable]; [done|]. case_bool_decide as Hin.
  - rewrite (Hseen endpoint Hin). by apply IH.
  - unfold mbind, GW_bind, context_err, gateway. cbn [fst snd]. destruct Hst as [Hc Hr]. rewrite Hc, (fetch_still endpoint g (conj Hc Hr)). cbn [andb].
    unfold usable_at at 1. assert (Hnext : usable_at g key excluded endpoint = None -> forall e, e ∈ ({[endpoint]} ∪ seen : gset string) -> usable_at g key excluded e = None).
    { intros Hn e [->%elem_of_singleton|He]%elem_of_union; [done|by apply Hseen]. }
    destruct (offered endpoint) as [table|] eqn:Eo; cbn [mbind option_bind].
    + cbn [fst]. destruct (usable g key excluded table) eqn:Eu; cbn [negb]; [done|]. apply IH, Hnext. unfold usable_at. rewrite Eo. cbn. by rewrite Eu.
    + apply IH, Hnext. unfold usable_at. by rewrite Eo.
Qed.

Lemma first_usable_spec g key excluded l : first_usable g key excluded l = None <-> forall endpoint, endpoint ∈ l -> usable_at g key excluded endpoint = None.
Proof.
  induction l as [|e l IH]; cbn [first_usable]; [split; [intros _ endpoint Hin; by apply not_elem_of_nil in Hin|done]|].
  destruct (usable_at g key excluded e) as [table|] eqn:E.
  - split; [done|]. intros Hall. specialize (Hall e ltac:(set_solver)). congruence.
  - rewrite IH. split; [intros Hall endpoint [->|Hin]%elem_of_cons; auto|intros Hall endpoint Hin; apply Hall; set_solver].
Qed.

Lemma first_usable_from g key excluded l table : first_usable g key excluded l = Some table -> exists endpoint, endpoint ∈ l /\ offered endpoint = Some table /\ usable g key excluded table = true.
Proof.
  induction l as [|e l IH]; cbn [first_usable]; [done|]. destruct (usable_at g key excluded e) as [t|] eqn:E.
  - intros [= ->]. exists e. unfold usable_at in E. destruct (offered e) as [t|] eqn:Eo; [|done]. cbn in E. destruct (usable g key excluded t) eqn:Eu; [|done]. injection E as ->. set_solver.
  - intros Hf. destruct (IH Hf) as (endpoint & ? & ? & ?). exists endpoint. set_solver.
Qed.

(** At most one shard of a table holds the key. *)
Definition one_shard (key : bytes) (table : cachedRoutes) : Prop :=
  (length (filter (fun s => keyInRange key (cs_start s) (cs_end s) = true) (ch_shards table)) <= 1)%nat.

Lemma usable_lookup g key excluded table : one_shard key table -> usable g key excluded table = true ->
  exists leader endpoint, lookup_shards (ch_shards table) key = Some leader /\ leader <> excluded /\ nodeEndpoints g !! leader = Some endpoint /\ endpoint <> "".
Proof.
  unfold one_shard, usable. destruct table as [rev l]. cbn [ch_shards]. induction l as [|sh l IH]; cbn [existsb lookup_shards]; [done|]. intros Hone. rewrite filter_cons in Hone.
  destruct (keyInRange key (cs_start sh) (cs_end sh)) eqn:Ek; cbn [andb orb].
  - rewrite decide_True in Hone by done. cbn in Hone. assert (Hnil : filter (fun s => keyInRange key (cs_start s) (cs_end s) = true) l = []) by (destruct (filter _ l); [done|cbn in Hone; lia]).
    intros [Hu|Hu]%orb_true_iff.
    + rewrite !andb_true_iff, !bool_decide_eq_true in Hu. destruct Hu as [[H1 H2] H3]. rewrite bool_decide_false by done. destruct (nodeEndpoints g !! cs_leader sh) as [endpoint|] eqn:En; [|done].
      exists (cs_leader sh), endpoint. by split_and!.
    + exfalso. apply existsb_exists in Hu as (s & Hs%list_elem_of_In & Hu). rewrite !andb_true_iff in Hu. destruct Hu as [[[Hk _] _] _].
      assert (Hx : s ∈ filter (fun s => keyInRange key (cs_start s) (cs_end s) = true) l) by (by apply list_elem_of_filter). rewrite Hnil in Hx. by apply not_elem_of_nil in Hx.
  - rewrite decide_False in Hone by done. by apply IH.
Qed.

End Discovery.

(** ** Examples *)

(** Two nodes "a" and "b" with one shard, led by "b"; the gateway believes
    that "a" leads it. *)
Record demo_node := mkDemoNode { dn_name : string; dn_log : list kv_write }.
Definition demo_put (w : kv_write) : SE demo_node unit :=
  n ← get;
  if bool_decide (dn_name n = "b") then put (mkDemoNode (dn_name n) (dn_log n ++ [w])) else throw commitLogNotLeader.
Definition demo_status : ClusterStatus := mkClusterStatus "" "" "" 1 false 7 "" (mkRuntimeStatus 0 "" "" 0 0 false 0) (mkRaft 0 0 0 []).
Definition demo_control : ControlProvider demo_node :=
  mkControlProvider _ (fun _ => demo_status) (fun _ => [mkShard None "s" [] [] "b" []]) false (fun _ => throw ErrControlWriteOptionsUnsupported).
Definition demo_server : StatsProvider demo_node := mkProvider _ (fun _ => (true, "")) (Some demo_control) (Some demo_put) None None None.

Lemma demo_certified : CertifiedWriter demo_node demo_put (fun n => zlen (dn_log n)).
Proof.
  split; intros w [name log]; unfold demo_put, mbind, SE_bind, get, throw, put; cbn; case_bool_decide; cbn; rewrite ?zlen_app; change (zlen [w]) with 1; try lia.
  all: intros p' E; try discriminate E; injection E as <-; cbn; rewrite ?zlen_app; change (zlen [w]) with 1; lia.
Qed.

Definition demo_cluster : cluster demo_node :=
  mkCluster (<["http://a" := mkServer (mkDemoNode "a" []) (newWriteRequestStore 8)]> {["http://b" := mkServer (mkDemoNode "b" []) (newWriteRequestStore 8)]}) [].
Definition demo_gateway : Gateway :=
  mkGateway (500 * Millisecond) (Some (3 * Second)) true "http://a" (<["a" := "http://a"]> {["b" := "http://b"]}) (mkCachedRoutes 3 [mkCached "s" [] [] "a"]).
Definition demo_kv : kv_write := KvPut (bytes_of_string "k") (bytes_of_string "v").

Definition demo_call : (write_error + WriteRequestStatus) * (Gateway * cluster demo_node) :=
  writeWithRetry (H := cluster_network demo_server WriteConsistencyAccepted 0) demo_kv WriteConsistencyLocalCommitted (demo_gateway, demo_cluster).

(** The write is rejected by "a", repeated at "b", and counted once. *)
Lemma gateway_at_most_once_witness :
  (exists st, fst demo_call = inr st) /\
  submits 0 (cluster_submitted (fun n => zlen (dn_log n)) (snd (snd demo_call))) (fst demo_call).
Proof.
  split; [eexists; vm_compute; reflexivity|].
  pose proof (gateway_at_most_once (H := cluster_network demo_server WriteConsistencyAccepted 0) (cluster_submitted (fun n => zlen (dn_log n))) true
    (NetworkLaws0 := cluster_laws demo_server demo_put eq_refl WriteConsistencyAccepted 0 (fun n => zlen (dn_log n)) (CertifiedWriter0 := demo_certified))
    demo_kv WriteConsistencyLocalCommitted demo_gateway demo_cluster (fun _ => eq_refl)) as Hx.
  unfold demo_call. destruct (writeWithRetry _ _ _) as [r [g x]]. exact Hx.
Defined.

Definition demo_split : node localConsensus := snd (demo_serve_all [split_at_m] demo_start).
Definition split_server : StatsProvider (node localConsensus) :=
  mkProvider _ (fun _ => (true, "")) (Some (node_control demo_grow demo_marshal demo_path 1 no_hooks)) None None None None.


