(* ===== verification/RaftTransport.v ===== *)
(** * Delivery of raft messages over HTTP ([pkg/lsm/server/raft_transport.go])

    The transport groups messages by their receiver and posts each group by a
    goroutine of its own; it reports the receivers that failed.  The network
    is a parameter. *)

From Stdlib Require Import ZArith Lia Strings.Ascii Strings.String.
From stdpp Require Import base list strings gmap.
From S2P Require Import Prelude GoStrings ControlPlane RaftLog RaftSpec Gateway.
Local Open Scope Z_scope.

Definition RaftPeerMessagesPath : string := "/cluster/raft/messages".

(** [valid_endpoint]: [url.Parse] finds the scheme http or https, a host, no
    query and no fragment.  The map is in the order it is ranged over. *)
Fixpoint peer_urls (valid_endpoint : string -> bool) (urls : list (Z * string)) (peerURLs : gmap Z string) : result (gmap Z string) :=
  match urls with
  | [] => Ok peerURLs
  | (id, rawURL) :: urls =>
      let endpoint := trim_endpoint rawURL in
      if bool_decide (id = 0 \/ endpoint = "") then Err (ErrNew "invalid raft peer url mapping")
      else if negb (valid_endpoint endpoint) then Err (ErrNew "invalid raft peer endpoint")
      else peer_urls valid_endpoint urls (<[id := endpoint]> peerURLs)
  end.
Definition NewRaftHTTPTransport (valid_endpoint : string -> bool) (urls : list (Z * string)) : result (gmap Z string) :=
  if bool_decide (urls = []) then Err (ErrNew "raft peer urls required") else peer_urls valid_endpoint urls ∅.

Fixpoint group_messages (peerURLs : gmap Z string) (messages : list PeerMessage) (grouped : gmap Z (list PeerMessage)) : result (gmap Z (list PeerMessage)) :=
  match messages with
  | [] => Ok grouped
  | message :: messages =>
      if bool_decide (pm_To message = 0) then Err (ErrNew "raft peer message missing target")
      else if bool_decide (peerURLs !! pm_To message = None) then Err (ErrNew "raft peer url not configured for node id")
      else group_messages peerURLs messages (<[pm_To message := default [] (grouped !! pm_To message) ++ [message]]> grouped)
  end.

Section Transport.
(** [post] is [client.Do] with the messages of one receiver: the code of the
    response, or an error. *)
Context {W : Type} (post : string -> list PeerMessage -> W -> option Z * W) (valid_url : string -> bool) (peerURLs : gmap Z string).

Definition sendToPeer (peerID : Z) (messages : list PeerMessage) (w : W) : bool * W :=
  let url := default "" (peerURLs !! peerID) +:+ RaftPeerMessagesPath in
  if negb (valid_url url) then (false, w)
  else match post url messages w with
  | (None, w) => (false, w)
  | (Some code, w) => (negb (bool_decide (code < 200) || bool_decide (300 <= code)), w)
  end.

(** The goroutines in the order they finish, and the receivers that failed. *)
Fixpoint post_groups (order : list Z) (grouped : gmap Z (list PeerMessage)) (w : W) : list Z * W :=
  match order with
  | [] => ([], w)
  | id :: order =>
      let '(ok, w) := sendToPeer id (default [] (grouped !! id)) w in
      let '(failed, w) := post_groups order grouped w in
      (if (ok : bool) then failed else id :: failed, w)
  end.

(** [schedule] says in which order the goroutines finish. *)
Definition transport_Send (schedule : list Z -> list Z) (messages : list PeerMessage) (w : W) : option send_error * W :=
  if bool_decide (messages = []) then (None, w)
  else match group_messages peerURLs messages ∅ with
  | Ok grouped =>
      let '(failed, w) := post_groups (schedule (elements (dom grouped))) grouped w in
      (if bool_decide (failed = []) then None else Some (DeliveryError failed), w)
  | Err e => (Some (SendError e), w)
  | _ => (None, w)
  end.
End Transport.

(** ** Groups *)

Definition to_peer (id : Z) (messages : list PeerMessage) : list PeerMessage := filter (fun m => pm_To m = id) messages.

Lemma group_messages_spec urls messages : forall grouped out, group_messages urls messages grouped = Ok out ->
  (forall id, default [] (out !! id) = default [] (grouped !! id) ++ to_peer id messages) /\ (forall id, is_Some (out !! id) <-> is_Some (grouped !! id) \/ to_peer id messages <> []) /\
  Forall (fun m => pm_To m <> 0 /\ is_Some (urls !! pm_To m)) messages.
Proof.
  induction messages as [|m messages IH]; intros grouped out; cbn [group_messages].
  { intros [= <-]. split_and!; [intros id; cbn; by rewrite app_nil_r|intros id; cbn; naive_solver|constructor]. }
  case_bool_decide; [done|]. case_bool_decide as Hu; [done|]. intros E. destruct (IH _ _ E) as (I1 & I2 & I3). unfold to_peer in *.
  assert (Hsome : is_Some (urls !! pm_To m)) by (destruct (urls !! pm_To m); [eauto|done]).
  split_and!; [| |by constructor].
  - intros id. rewrite I1, filter_cons. destruct (decide (pm_To m = id)) as [<-|Hne].
    + rewrite lookup_insert_eq. cbn. by rewrite <- app_assoc.
    + by rewrite lookup_insert_ne.
  - intros id. rewrite I2, filter_cons, lookup_insert_is_Some'. case_decide; naive_solver.
Qed.

Lemma group_messages_fails urls messages grouped e : group_messages urls messages grouped = Err e -> exists m, m ∈ messages /\ (pm_To m = 0 \/ urls !! pm_To m = None).
Proof.
  revert grouped. induction messages as [|m messages IH]; intros grouped; cbn [group_messages]; [done|]. case_bool_decide; [exists m; set_solver|]. case_bool_decide; [exists m; set_solver|].
  intros E. destruct (IH _ E) as (m' & ? & ?). exists m'. set_solver.
Qed.

Lemma group_messages_returns urls messages grouped : returned (group_messages urls messages grouped).
Proof. revert grouped. induction messages as [|m messages IH]; intros grouped; cbn [group_messages]; [done|]. by repeat case_bool_decide. Qed.

(** ** What is delivered *)

Lemma append_inv_tail (u v t : string) : u +:+ t = v +:+ t -> u = v.
Proof.
  intros E. apply (f_equal list_ascii_of_string) in E. rewrite !list_ascii_of_string_app in E. apply app_inv_tail in E.
  by rewrite <- (string_of_list_ascii_of_string u), E, string_of_list_ascii_of_string.
Qed.

Section Delivery.
Context {W : Type} (post : string -> list PeerMessage -> W -> option Z * W) (valid_url : string -> bool) (peerURLs : gmap Z string).
(** The messages that the server at an address has taken. *)
Context (received : W -> string -> list PeerMessage).

(** A post reaches its address only, as a whole or not at all, and does if the
    response is a success. *)
Definition post_ok : Prop := forall url batch w,
  let '(code, w') := post url batch w in
  (forall other, other <> url -> received w' other = received w other) /\
  (received w' url = received w url ++ batch \/ (received w' url = received w url /\ forall c, code = Some c -> ~ 200 <= c < 300)).
Context (Hpost : post_ok).

Definition address (id : Z) : string := default "" (peerURLs !! id) +:+ RaftPeerMessagesPath.
Definition distinct_addresses : Prop := forall a b u, peerURLs !! a = Some u -> peerURLs !! b = Some u -> a = b.

Lemma sendToPeer_spec id batch w :
  let '(ok, w') := sendToPeer post valid_url peerURLs id batch w in
  (forall other, other <> address id -> received w' other = received w other) /\
  (received w' (address id) = received w (address id) ++ batch \/ (received w' (address id) = received w (address id) /\ ok = false)).
Proof.
  unfold sendToPeer. fold (address id). destruct (valid_url (address id)); cbn [negb]; [|split; [done|by right]].
  pose proof (Hpost (address id) batch w) as Hp. destruct (post (address id) batch w) as [[code|] w']; destruct Hp as [H1 [H2|[H2 H3]]]; (split; [done|]); try (by left); right; [|done].
  split; [done|]. specialize (H3 code eq_refl). repeat case_bool_decide; cbn; [done..|]. lia.
Qed.

Lemma address_inj a b : distinct_addresses -> is_Some (peerURLs !! a) -> is_Some (peerURLs !! b) -> address a = address b -> a = b.
Proof.
  intros Hd [u Hu] [v Hv]. unfold address. rewrite Hu, Hv. cbn. intros E. apply (Hd a b u Hu).
  by rewrite (append_inv_tail u v _ E).
Qed.

Lemma post_groups_spec order grouped : distinct_addresses -> NoDup order -> Forall (fun id => is_Some (peerURLs !! id)) order -> forall w,
  let '(failed, w') := post_groups post valid_url peerURLs order grouped w in
  failed `sublist_of` order /\
  (forall id, is_Some (peerURLs !! id) -> id ∉ order -> received w' (address id) = received w (address id)) /\
  (forall id, id ∈ order -> received w' (address id) = received w (address id) ++ default [] (grouped !! id) \/ (id ∈ failed /\ received w' (address id) = received w (address id))).
Proof.
  intros Hd. induction order as [|id order IH]; intros Hn Hu w; cbn [post_groups].
  { split_and!; [done|done|]. intros id Hid. by apply not_elem_of_nil in Hid. }
  apply NoDup_cons in Hn as [Hin Hn]. apply Forall_cons in Hu as [Hid Hu].
  pose proof (sendToPeer_spec id (default [] (grouped !! id)) w) as Hs. destruct (sendToPeer post valid_url peerURLs id _ w) as [ok w1]. destruct Hs as [S1 S2].
  specialize (IH Hn Hu w1). destruct (post_groups post valid_url peerURLs order grouped w1) as [failed w2]. destruct IH as (I1 & I2 & I3).
  rewrite Forall_forall in Hu.
  assert (Hother : forall i, is_Some (peerURLs !! i) -> i <> id -> received w1 (address i) = received w (address i)) by (intros i Hi Hne; apply S1; intros E; apply Hne; by apply address_inj).
  split_and!.
  - destruct ok; [by apply sublist_cons|by apply sublist_skip].
  - intros i Hi [Hne Hni]%not_elem_of_cons. rewrite I2 by done. by apply Hother.
  - intros i [->|Hi]%elem_of_cons.
    + rewrite I2 by done. destruct S2 as [S2|[S2 ->]]; [by left|right; split; [left|done]].
    + rewrite <- (Hother i) by (auto || (intros ->; done)). destruct (I3 i Hi) as [I4|[I4 I5]]; [by left|right; split; [|done]]. destruct ok; [done|by right].
Qed.

(** The groups, posted in any order. *)
Lemma posted_groups schedule messages grouped w : (forall l, schedule l ≡ₚ l) -> distinct_addresses -> group_messages peerURLs messages ∅ = Ok grouped ->
  let '(failed, w') := post_groups post valid_url peerURLs (schedule (elements (dom grouped))) grouped w in
  NoDup failed /\ Forall (fun id => exists m, m ∈ messages /\ pm_To m = id) failed /\
  forall id, is_Some (peerURLs !! id) ->
    received w' (address id) = received w (address id) ++ to_peer id messages \/ (id ∈ failed /\ received w' (address id) = received w (address id)).
Proof.
  intros Hsch Hd Eg. destruct (group_messages_spec _ _ _ _ Eg) as (G1 & G2 & G3). rewrite Forall_forall in G3.
  assert (Hto : forall id, id ∈ schedule (elements (dom grouped)) <-> to_peer id messages <> []).
  { intros id. rewrite (Hsch _), elem_of_elements, elem_of_dom, G2, lookup_empty. split; [intros [[? ?]|?]; done|by right]. }
  assert (Hm : forall id, to_peer id messages <> [] -> exists m, m ∈ messages /\ pm_To m = id).
  { intros id Hne. unfold to_peer in Hne. destruct (filter _ messages) as [|m l] eqn:Ef; [done|]. exists m. assert (Hin : m ∈ filter (fun m => pm_To m = id) messages) by (rewrite Ef; left).
    by apply list_elem_of_filter in Hin as [? ?]. }
  assert (Hnd : NoDup (schedule (elements (dom grouped)))) by (rewrite (Hsch _); apply NoDup_elements).
  pose proof (post_groups_spec (schedule (elements (dom grouped))) grouped Hd Hnd) as Hp.
  specialize (Hp ltac:(apply Forall_forall; intros id Hid; apply Hto, Hm in Hid as (m & Hmm & <-); by apply G3) w).
  destruct (post_groups _ _ _ _ _ w) as [failed w']. destruct Hp as (P1 & P2 & P3). split_and!.
  - by eapply sublist_NoDup.
  - apply Forall_forall. intros id Hid. apply Hm, Hto. apply sublist_submseteq in P1. by eapply elem_of_submseteq.
  - intros id Hid. specialize (G1 id). rewrite lookup_empty in G1. cbn in G1. destruct (decide (id ∈ schedule (elements (dom grouped)))) as [Hin|Hin]; [rewrite <- G1; by apply P3|].
    left. rewrite P2 by done. destruct (to_peer id messages) eqn:Et; [by rewrite app_nil_r|]. exfalso. apply Hin, Hto. by rewrite Et.
Qed.

End Delivery.

(** ** An example: three nodes, one of them down *)

Definition demo_urls : gmap Z string := <[1 := "http://a"]> (<[2 := "http://b"]> {[3 := "http://c"]}).
Definition demo_post (url : string) (batch : list PeerMessage) (w : gmap string (list PeerMessage)) : option Z * gmap string (list PeerMessage) :=
  if bool_decide (url = "http://b/cluster/raft/messages") then (None, w) else (Some 202, <[url := default [] (w !! url) ++ batch]> w).
Definition demo_received (w : gmap string (list PeerMessage)) (url : string) : list PeerMessage := default [] (w !! url).
Definition demo_batch : list PeerMessage := [mkPeerMessage 1 2 []; mkPeerMessage 1 3 []; mkPeerMessage 1 2 []].

Lemma demo_post_ok : post_ok demo_post demo_received.
Proof.
  intros url batch w. unfold demo_post, demo_received. case_bool_decide; [split; [done|by right]|].
  split; [intros other Hne; by rewrite lookup_insert_ne|left; by rewrite lookup_insert_eq].
Qed.

Lemma demo_distinct : distinct_addresses demo_urls.
Proof. intros a b u. unfold demo_urls. rewrite !lookup_insert_Some, !lookup_singleton_Some. naive_solver. Qed.

