(* ===== verification/Rejection.v ===== *)
(** * Rejections before proposal

    A node says of a write that it was rejected before it was proposed
    ([IsWriteRejectedBeforeProposal]) by one error value, which no other part
    of the node returns.  So nothing has changed when it is returned. *)

From Stdlib Require Import ZArith Lia.
From stdpp Require Import base list strings gmap.
From S2P Require Import Prelude Iofs SstFormat Memtable TableSet Compaction Handle Manifest CompactionRun LsmTree ViewMerge Engine EngineSpec Bootstrap Durable Recovery.
From S2P Require Import GoStrings ControlPlane ControlSpec ControlNode ControlClaims RaftLog RaftSpec Cdc Replica ReplicaSpec ReplicaClaims Base64 Server.
Local Open Scope Z_scope.

Create HintDb foreign.

(** ** Errors other than the two *)

Definition foreign (e : error) : Prop := e <> ErrNotLeader /\ e <> commitLogNotLeader.
Definition foreign_opt (o : option error) : Prop := forall e, o = Some e -> foreign e.
Definition foreign_result {A} (r : result A) : Prop := forall e, r = Err e -> foreign e.

(** A call that keeps [I] and fails with other errors only. *)
Definition stays {S A} (I : S -> Prop) (m : SE S A) (Q : A -> Prop) : Prop := forall s, I s ->
  I (snd (m s)) /\ match fst (m s) with Ok a => Q a | Err e => foreign e | _ => True end.

Section Rules.
Context {S : Type} (I : S -> Prop).

Lemma stays_ret {A} (a : A) (Q : A -> Prop) : Q a -> stays I (mret a) Q.
Proof. intros Ha s Hs. by split. Qed.
Lemma stays_throw {A} e (Q : A -> Prop) : foreign e -> stays I (throw e) Q.
Proof. intros He s Hs. by split. Qed.
Lemma stays_get : stays I get I.
Proof. intros s Hs. by split. Qed.
Lemma stays_modify f : (forall s, I s -> I (f s)) -> stays I (modify f) (fun _ => True).
Proof. intros Hf s Hs. split; [by apply Hf|done]. Qed.
Lemma stays_put s' : I s' -> stays I (Prelude.put s') (fun _ => True).
Proof. intros Hf s Hs. by split. Qed.
Lemma stays_lift {A} (r : result A) : foreign_result r -> stays I (lift r) (fun a => r = Ok a).
Proof. intros Hr s Hs. split; [done|]. cbn. destruct r; [done|by apply Hr|done..]. Qed.

Lemma stays_weaken {A} (m : SE S A) (Q R : A -> Prop) : stays I m Q -> (forall a, Q a -> R a) -> stays I m R.
Proof. intros Hm HQ s Hs. destruct (Hm s Hs) as [H1 H2]. split; [done|]. destruct (fst (m s)); auto. Qed.

Lemma stays_bind {A B} (m : SE S A) (f : A -> SE S B) Q (R : B -> Prop) : stays I m Q -> (forall a, Q a -> stays I (f a) R) -> stays I (a ← m; f a) R.
Proof.
  intros Hm Hf s Hs. destruct (Hm s Hs) as [H1 H2]. unfold mbind, SE_bind. destruct (m s) as [[a|e| |] s1]; cbn in *; try done. by apply (Hf a H2 s1).
Qed.

Lemma stays_catch {A} (m : SE S A) Q : stays I m Q -> stays I (catch m) foreign_opt.
Proof.
  intros Hm s Hs. destruct (Hm s Hs) as [H1 H2]. unfold catch. destruct (m s) as [[a|e| |] s1]; cbn in *; (split; [done|]); try done. by intros e' [= <-].
Qed.

(** A call on a part of the state. *)
Lemma stays_on {S' A} (J : S' -> Prop) (m : SE S' A) (part : S -> S') (back : S' -> S -> S) (n : SE S A) Q :
  (forall s, n s = (fst (m (part s)), back (snd (m (part s))) s)) -> (forall s, I s -> J (part s)) -> (forall p s, I s -> J p -> I (back p s)) ->
  stays J m Q -> stays I n Q.
Proof. intros En Hp Hb Hm s Hs. rewrite En. destruct (Hm (part s) (Hp s Hs)) as [H1 H2]. split; [by apply Hb|exact H2]. Qed.
End Rules.

Lemma foreign_new msg : foreign (ErrNew msg).
Proof. by split. Qed.
Lemma foreign_ok {A} (a : A) : foreign_result (Ok a).
Proof. by intros e. Qed.
Lemma foreign_err {A} e : foreign e -> foreign_result (A := A) (Err e).
Proof. by intros He e' [= <-]. Qed.
Lemma foreign_panic {A} : foreign_result (A := A) Panic.
Proof. by intros e. Qed.
Lemma foreign_nofuel {A} : foreign_result (A := A) NoFuel.
Proof. by intros e. Qed.
Lemma foreign_bind {A B} (r : result A) (f : A -> result B) : foreign_result r -> (forall a, foreign_result (f a)) -> foreign_result (a ← r; f a).
Proof. intros Hr Hf. destruct r as [a|e| |]; [apply Hf|intros e' [= <-]; by apply Hr|done..]. Qed.

#[export] Hint Resolve foreign_new foreign_ok foreign_err foreign_panic foreign_nofuel foreign_bind : foreign.
#[export] Hint Extern 1 (foreign _) => (split; discriminate) : foreign.

(** Follows the structure of a call whose invariant is trivial. *)
Abbreviation quiet_errors m := (stays (fun _ => True) m (fun _ => True)).

Ltac stays_by lem := first [apply lem | eapply stays_weaken; [apply lem|]].
Ltac stays_step :=
  match goal with
  | |- stays _ (mret _) ?Q => is_evar Q; apply (stays_ret _ _ (fun _ => True))
  | |- stays _ (mbind _ _) ?Q => is_evar Q; apply (stays_weaken _ _ (fun _ => True)); [|intros ? HT; exact HT]
  | |- stays _ (if _ then _ else _) ?Q => is_evar Q; apply (stays_weaken _ _ (fun _ => True)); [|intros ? HT; exact HT]
  | |- stays _ (match _ with _ => _ end) ?Q => is_evar Q; apply (stays_weaken _ _ (fun _ => True)); [|intros ? HT; exact HT]
  | |- stays _ (mret _) _ => apply stays_ret
  | |- stays _ (throw _) _ => apply stays_throw; auto with foreign
  | |- stays _ get _ => stays_by stays_get
  | |- stays _ (modify _) _ => stays_by stays_modify
  | |- stays _ (Prelude.put _) _ => stays_by stays_put
  | |- stays _ (lift _) _ => stays_by stays_lift; auto with foreign
  | |- stays _ (catch _) _ => eapply stays_catch
  | |- stays _ (mbind _ _) _ => eapply stays_bind; [|intros ? ?]
  | |- stays _ (if ?b then _ else _) _ => destruct b
  | |- stays _ (match ?x with _ => _ end) _ => destruct x
  | |- _ => progress eauto with foreign
  end.
Ltac stays_auto := repeat (stays_step; cbn beta).

(** ** File systems *)

Lemma may_fail_stays e : foreign e -> quiet_errors (fs_may_fail e).
Proof. intros He s _. unfold fs_may_fail. by destruct (fs_pop s) as [[]]. Qed.
#[export] Hint Resolve may_fail_stays : foreign.

Lemma create_stays name e : foreign e -> quiet_errors (fs_create name e).
Proof. intros He. unfold fs_create. stays_auto. Qed.

Lemma write_stays name data e : foreign e -> quiet_errors (file_write name data e).
Proof. intros He s _. unfold file_write. by destruct (fs_write name data s) as [[n []] fs]. Qed.
#[export] Hint Resolve create_stays write_stays : foreign.
Lemma WriteFile_stays name data e : foreign e -> quiet_errors (fs_WriteFile name data e).
Proof. intros He. unfold fs_WriteFile. stays_auto. Qed.
Lemma rename_stays old new e : foreign e -> quiet_errors (fs_rename_file old new e).
Proof. intros He. unfold fs_rename_file. stays_auto. Qed.
Lemma remove_stays name e : foreign e -> quiet_errors (fs_remove name e).
Proof. intros He. unfold fs_remove. stays_auto. Qed.
#[export] Hint Resolve WriteFile_stays rename_stays remove_stays : foreign.

(** ** The control plane *)

Lemma build_routes_foreign {R} (m : gmap string (ShardStatus R)) ids seen prev : foreign_result (build_routes m ids seen prev).
Proof.
  revert seen prev. induction ids as [|id ids IH]; intros seen prev; cbn [build_routes]; [auto with foreign|].
  repeat case_bool_decide; auto with foreign. destruct (m !! _); auto with foreign. case_bool_decide; auto with foreign.
  apply foreign_bind; [|auto with foreign]. destruct prev as [[? ?]|]; auto with foreign. repeat case_bool_decide; auto with foreign.
Qed.

Lemma buildShardRoutes_foreign {R} ids (m : gmap string (ShardStatus R)) : foreign_result (buildShardRoutes ids m).
Proof. unfold buildShardRoutes. repeat case_bool_decide; auto with foreign. apply build_routes_foreign. Qed.

Lemma unique_from_foreign fuel m base i : foreign_result (unique_from fuel m base i).
Proof. revert i. induction fuel as [|fuel IH]; intros i; cbn; [auto with foreign|]. case_bool_decide; auto with foreign. Qed.

Lemma uniqueShardID_foreign m base : foreign_result (uniqueShardID m base).
Proof. unfold uniqueShardID. case_bool_decide; auto with foreign. apply unique_from_foreign. Qed.

Lemma drain_targets_foreign c nodeID ids targets : foreign_result (drain_targets c nodeID ids targets).
Proof. revert targets. induction ids as [|id ids IH]; intros targets; cbn; [auto with foreign|]. repeat case_bool_decide; auto with foreign. Qed.

#[export] Hint Resolve buildShardRoutes_foreign uniqueShardID_foreign drain_targets_foreign : foreign.

Lemma rebuild_stays : quiet_errors rebuildRoutesLocked.
Proof. unfold rebuildRoutesLocked. stays_auto. Qed.
#[export] Hint Resolve rebuild_stays : foreign.

Lemma applyState_stays grow state : quiet_errors (applyState grow state).
Proof. unfold applyState. stays_step; [stays_auto|]. destruct (fold_left _ _ _) as [m h]. destruct (fold_left _ _ _) as [ops ids]. stays_auto. Qed.

Lemma payload_stays grow m : quiet_errors (applyControlPayloadLocked grow m).
Proof.
  unfold applyControlPayloadLocked, applyTransferLeaderPayloadLocked, applySplitPayloadLocked, applyDrainPayloadLocked.
  repeat case_bool_decide; stays_auto.
Qed.
#[export] Hint Resolve applyState_stays payload_stays : foreign.

Lemma check_foreign c opts fp : foreign_result (checkOperationPreconditionsLocked c opts fp).
Proof. unfold checkOperationPreconditionsLocked. repeat case_match; auto with foreign. Qed.
#[export] Hint Resolve check_foreign : foreign.

Section Control.
Context {K : Type} `{Consensus K} (P : K -> Prop) (grow : nat -> nat -> nat) (marshal : controlPlaneState -> bytes) (path : string) (anc : nat).
Abbreviation keeps_K m Q := (stays (fun s : node K => P (consensus s)) m Q).

Lemma on_cp_stays {A} (m : SE controlPlane A) Q : stays (fun _ => True) m Q -> keeps_K (on_cp m) Q.
Proof.
  apply (stays_on _ _ m cp (fun c s => mkNode c (disk s) (consensus s))); [|done|done]. intros s. unfold on_cp. by destruct (m (cp s)).
Qed.

Lemma on_disk_stays {A} (m : SE FS A) Q : stays (fun _ => True) m Q -> keeps_K (on_disk m) Q.
Proof.
  apply (stays_on _ _ m disk (fun fs s => mkNode (cp s) fs (consensus s))); [|done|done]. intros s. unfold on_disk. by destruct (m (disk s)).
Qed.

Lemma sync_close_stays : quiet_errors sync_close.
Proof. unfold sync_close. stays_auto. Qed.

Lemma sync_dirs_stays n : quiet_errors (sync_dirs n).
Proof. pose proof sync_close_stays. induction n as [|n IH]; cbn [sync_dirs]; stays_auto. Qed.

Lemma write_state_stays data : quiet_errors (write_state path anc data).
Proof. pose proof sync_close_stays. pose proof (sync_dirs_stays anc). unfold write_state. stays_auto. Qed.

Lemma saveLocked_stays : keeps_K (saveLocked marshal path anc) (fun _ => True).
Proof. unfold saveLocked. case_bool_decide; [by apply stays_ret|]. eapply stays_bind; [apply stays_get|]. intros s _. apply on_disk_stays, write_state_stays. Qed.

Lemma saveLockedWithRollback_stays previous : keeps_K (saveLockedWithRollback grow marshal path anc previous) (fun _ => True).
Proof.
  unfold saveLockedWithRollback. eapply stays_bind; [eapply stays_catch, saveLocked_stays|]. intros [err|] He; [|by apply stays_ret].
  eapply stays_bind; [eapply stays_catch, on_cp_stays, applyState_stays|]. intros [e|] _; apply stays_throw; [auto with foreign|by apply He].
Qed.

Definition rejects_foreign (r : ControlPlane.applied) : Prop := forall e, r = Rejected e -> foreign e.

Lemma committed_control_stays entry opts fp : keeps_K (applyCommittedControlMutation grow marshal path anc entry opts fp (applyControlPayloadLocked grow)) rejects_foreign.
Proof.
  pose proof saveLockedWithRollback_stays as Hsave.
  assert (Hmod : forall f, keeps_K (on_cp (modify f)) (fun _ => True)) by (intros f; by apply on_cp_stays, stays_modify).
  unfold applyCommittedControlMutation. case_bool_decide; [apply stays_throw; auto with foreign|]. eapply stays_bind; [apply stays_get|]. intros s _.
  destruct (checkOperationPreconditionsLocked (cp s) opts fp) as [[]|err| |] eqn:Ec.
  - case_bool_decide; [|by apply stays_ret]. eapply stays_bind; [apply Hmod|intros _ _]. eapply stays_bind; [apply Hsave|intros _ _]. by apply stays_ret.
  - eapply stays_bind; [eapply stays_catch, on_cp_stays, payload_stays|]. intros [err|] He.
    + eapply stays_bind; [apply on_cp_stays, applyState_stays|intros _ _]. eapply stays_bind; [apply Hmod|intros _ _]. eapply stays_bind; [apply Hsave|intros _ _].
      apply stays_ret. intros e [= <-]. by apply He.
    + eapply stays_bind; [apply Hmod|intros _ _]. eapply stays_bind; [apply Hmod|intros _ _]. eapply stays_bind; [apply Hsave|intros _ _]. by apply stays_ret.
  - eapply stays_bind; [apply Hmod|intros _ _]. eapply stays_bind; [apply Hsave|intros _ _]. apply stays_ret. intros e [= <-]. by apply (check_foreign _ _ _ _ Ec).
  - eapply stays_weaken; [by apply stays_lift|done].
  - eapply stays_weaken; [by apply stays_lift|done].
Qed.

Lemma from_log_stays entry : keeps_K (applyCommittedControlFromLog grow marshal path anc entry) rejects_foreign.
Proof.
  unfold applyCommittedControlFromLog. eapply stays_bind; [apply stays_lift; unfold mutation_fingerprint; repeat case_bool_decide; auto with foreign|]. intros fp _.
  eapply stays_bind; [apply committed_control_stays|]. intros [] Hr; apply stays_ret; done.
Qed.
End Control.

(** ** The engine *)

Section Engine.
Context {T H M W : Type} `{MemTable T} `{TableHandle H} `{Storage H M} `{WriteAheadLog W}.
Context (baseFactory : T) (mtLimit FlushQueueSize : Z).
Abbreviation engine := (LSM (T := T) (H := H) (M := M) (W := W)).

(** The log and the memtables have errors of their own. *)
Record own_errors : Prop := mkOwnErrors {
  own_AppendOwned : forall e (w : W), foreign_result (fst (wal_AppendOwned e w));
  own_ApplyOwned : forall (t : T) e, foreign_result (mt_ApplyOwned t e);
  own_Range : forall (t : T) start stop, foreign_result (mt_Range t start stop)
}.
Context (Hown : own_errors).

Lemma deref_stays id : stays (fun _ : engine => True) (deref id) (fun _ => True).
Proof. intros s _. unfold deref. by destruct (l_heap s !! id). Qed.
Lemma on_wal_stays e : stays (fun _ : engine => True) (on_wal (wal_AppendOwned e)) (fun _ => True).
Proof.
  intros s _. unfold on_wal. pose proof (own_AppendOwned Hown e (l_wal s)) as Hw. destruct (wal_AppendOwned e (l_wal s)) as [[] w]; cbn in *; (split; [done|]); auto.
Qed.
Hint Resolve deref_stays on_wal_stays : foreign.
Hint Resolve own_ApplyOwned own_Range : foreign.

Lemma enqueue_stays id : stays (fun _ : engine => True) (enqueue FlushQueueSize id) (fun _ => True).
Proof.
  unfold enqueue, removeImmutable, removeImmutableLocked, removeFlushQueueLocked, recycleMemtable, store_table, Dispatcher_Enqueue. stays_auto.
Qed.

Lemma triggerFlush_stays current reuse : stays (fun _ : engine => True) (triggerFlush baseFactory FlushQueueSize current reuse) (fun _ => True).
Proof.
  pose proof enqueue_stays. unfold triggerFlush, freezeMemtableIfCurrent, freezeMemtableLocked, mtFactory, store_table, pinMemtableLocked. stays_auto.
Qed.

Lemma applyCommittedData_stays entry reuse : stays (fun _ : engine => True) (applyCommittedData baseFactory mtLimit FlushQueueSize entry reuse) (fun _ => True).
Proof.
  pose proof triggerFlush_stays. unfold applyCommittedData, appendToLocalStore, acquireMemForWrite, observeCommittedSeq, store_table. stays_auto.
Qed.
End Engine.

(** ** The commit log *)

Section Raft.
Context {N Msg : Type} `{RaftLib N Msg}.
Context (marshalProposal : raftCommitProposal -> bytes) (unmarshalProposal : bytes -> result raftCommitProposal).
Context (marshalDisk : raftDiskState -> bytes) (path : string) (ancestors : nat).
Context (hasTransport : bool) (Send : list PeerMessage -> etcdRaft N -> option send_error * etcdRaft N) (wait : Z -> etcdRaft N -> etcdRaft N).

Definition clean (c : etcdRaft N) : Prop := foreign_opt (terminalErr c).

(** The raft library, the JSON codec and the transport have errors of their
    own, and other calls of the commit log latch none of the two. *)
Record raft_errors : Prop := mkRaftErrors {
  own_SetHardState : forall hs (n : N), foreign_result (fst (mem_SetHardState hs n));
  own_Append : forall es (n : N), foreign_result (fst (mem_Append es n));
  own_InitialState : forall n : N, foreign_result (mem_InitialState n);
  own_Step : forall (m : Msg) (n : N), foreign_result (fst (raw_Step m n));
  own_Propose : forall b (n : N), foreign_result (fst (raw_Propose b n));
  own_ApplyConfChange : forall t b (n : N), foreign_result (fst (raw_ApplyConfChange t b n));
  own_Marshal : forall m : Msg, foreign_result (Msg_Marshal m);
  own_unmarshal : forall b, foreign_result (unmarshalProposal b);
  own_Send : forall msgs c, (forall e, fst (Send msgs c) = Some (SendError e) -> foreign e) /\ (clean c -> clean (snd (Send msgs c)));
  own_wait : forall id c, clean c -> clean (wait id c)
}.
Context (Hlib : raft_errors).

Abbreviation call_stays m Q := (stays (fun s : etcdRaft N * list bool => clean (fst s)) m Q).

Lemma shared_stays : call_stays shared clean.
Proof. intros s Hs. by split. Qed.
Lemma update_stays f : (forall c, clean c -> clean (f c)) -> call_stays (update f) (fun _ => True).
Proof. intros Hf s Hs. split; [by apply Hf|done]. Qed.
Lemma ctx_stays : call_stays ctx_done (fun _ => True).
Proof. intros [c [|b l]] Hs; by split. Qed.
Lemma raw_stays f : (forall n, foreign_result (fst (f n))) -> call_stays (raw f) (fun _ => True).
Proof. intros Hf s Hs. unfold raw. specialize (Hf (rawNode (fst s))). destruct (f (rawNode (fst s))) as [[] n]; cbn in *; (split; [done|]); auto. Qed.
Lemma on_files_stays m : quiet_errors m -> call_stays (on_files m) (fun _ => True).
Proof.
  apply (stays_on _ _ m (fun s => er_disk (fst s)) (fun fs s => (set_disk fs (fst s), snd s))); [|done|done]. intros s. unfold on_files. by destruct (m _).
Qed.
Hint Resolve shared_stays ctx_stays : foreign.
Hint Resolve own_SetHardState own_Append own_InitialState own_Step own_Propose own_ApplyConfChange own_Marshal own_unmarshal : foreign.
Hint Extern 2 (stays _ (update _) _) => (apply update_stays; intros ? ?; assumption) : foreign.
Hint Extern 2 (stays _ (raw _) _) => (apply raw_stays; auto with foreign) : foreign.

Lemma replace_file_stays data : quiet_errors (replace_file path ancestors data).
Proof.
  assert (Hs : quiet_errors raft_syncDir) by (unfold raft_syncDir; stays_auto).
  assert (Ha : forall n, quiet_errors (sync_ancestors n)) by (induction n; cbn [sync_ancestors]; stays_auto).
  unfold replace_file, ensureDurableRaftDir, writeSyncedFile. stays_auto.
Qed.

Lemma Persist_stays : call_stays (Persist marshalDisk path ancestors) (fun _ => True).
Proof. unfold Persist. stays_auto. apply on_files_stays, replace_file_stays. Qed.

Lemma route_stays msgs : call_stays (route_messages msgs) (fun _ => True).
Proof. induction msgs as [|m msgs IH]; cbn [route_messages]; stays_auto. Qed.

Lemma encode_foreign msgs : foreign_result (encodeRaftPeerMessages (Msg := Msg) msgs).
Proof. induction msgs as [|m msgs IH]; cbn [encodeRaftPeerMessages]; auto with foreign. Qed.

Lemma committedEntry_foreign p k : foreign_result (committedEntry p k).
Proof. unfold committedEntry. repeat case_bool_decide; auto with foreign; [destruct (rp_Control p)|destruct (rp_Data p)]; auto with foreign. Qed.

Lemma close_ready_foreign w : foreign_result (close_ready w).
Proof. unfold close_ready. destruct (pp_ready w); auto with foreign. Qed.
Hint Resolve encode_foreign committedEntry_foreign close_ready_foreign Persist_stays route_stays : foreign.

Lemma prepare_stays rd : call_stays (prepare_ready marshalDisk path ancestors hasTransport rd) (fun _ => True).
Proof. unfold prepare_ready, storage_SetHardState, storage_Append. stays_auto. Qed.

Lemma apply_entries_stays es : call_stays (RaftLog.apply_entries unmarshalProposal es) (fun _ => True).
Proof. induction es as [|e es IH]; cbn [RaftLog.apply_entries]; [by apply stays_ret|]. unfold applyCommittedEntryLocked, wake. stays_auto. Qed.

Lemma close_pending_foreign ids w : foreign_result (close_pending ids w).
Proof.
  unfold close_pending. apply (set_fold_ind_L (fun r _ => foreign_result r)); [auto with foreign|]. intros id X r _ Hr.
  apply foreign_bind; [done|]. intros m. destruct (m !! id) as [p|]; auto with foreign. destruct (pp_done p); auto with foreign.
Qed.

Lemma fail_terminal_stays e : foreign e -> call_stays (fail_terminal e) (fun _ => True).
Proof.
  intros He. unfold fail_terminal. eapply stays_bind; [apply shared_stays|]. intros c Hc. destruct (terminalErr c); [by apply stays_ret|].
  eapply stays_bind; [apply stays_lift, close_pending_foreign|]. intros w _. apply update_stays. intros c' _ e' [= <-]. done.
Qed.

Lemma report_stays peers : call_stays (report_unreachable peers) (fun _ => True).
Proof. induction peers as [|p peers IH]; cbn [report_unreachable]; stays_auto. Qed.

Lemma deliver_stays encoded : call_stays (deliver Send encoded) (fun _ => True).
Proof.
  unfold deliver. eapply (stays_bind _ _ _ (fun r => forall e, r = Some (SendError e) -> foreign e)).
  { intros s Hs. destruct (own_Send Hlib encoded (fst s)) as [H1 H2]. destruct (Send encoded (fst s)) as [r c]. cbn in *. split; auto. }
  intros sent Hsent. eapply stays_bind; [apply shared_stays|]. intros c Hc. destruct (terminalErr c) as [e|] eqn:Et; [apply stays_throw; by apply Hc|].
  destruct sent as [[peers|e]|]; [|apply stays_throw; by apply Hsent|by apply stays_ret]. case_bool_decide; [stays_auto|].
  destruct (forallb _ _); [apply report_stays|stays_auto].
Qed.

Lemma advanceOne_stays : call_stays (advanceOneReadyLocked unmarshalProposal marshalDisk path ancestors hasTransport Send) (fun _ => True).
Proof.
  unfold advanceOneReadyLocked. eapply stays_bind; [apply shared_stays|]. intros c Hc. destruct (terminalErr c) as [e|] eqn:Et; [apply stays_throw; by apply Hc|].
  destruct (raw_Ready (rawNode c)) as [rd n]. eapply stays_bind; [eauto with foreign|]. intros _ _.
  eapply (stays_bind _ _ _ (fun _ => True)); [|intros encoded _; eapply stays_bind; [eauto with foreign|]; intros _ _; case_bool_decide; [by apply stays_ret|apply deliver_stays]].
  intros s Hs. assert (Hh : call_stays (handle_ready unmarshalProposal marshalDisk path ancestors hasTransport rd) (fun _ => True)).
  { unfold handle_ready. eapply stays_bind; [apply prepare_stays|]. intros enc _. eapply stays_bind; [apply apply_entries_stays|]. intros _ _. by apply stays_ret. }
  destruct (Hh s Hs) as [H1 H2]. destruct (handle_ready _ _ _ _ _ _ s) as [[a|e| |] s1]; cbn [fst snd] in *; try done.
  assert (Hf : call_stays (_ ← fail_terminal e; throw (A := list PeerMessage) e) (fun _ => True)) by (eapply stays_bind; [by apply fail_terminal_stays|intros _ _; by apply stays_throw]).
  by apply Hf.
Qed.

Lemma advance_stays : call_stays (advanceUntilStableLocked unmarshalProposal marshalDisk path ancestors hasTransport Send) (fun _ => True).
Proof.
  unfold advanceUntilStableLocked. generalize etcdRaftAdvanceMaxStep. intros steps. induction steps as [|steps IH]; cbn [RaftLog.advance_loop];
    (eapply stays_bind; [apply shared_stays|]); intros c Hc; (destruct (HasReady (rawNode c)); destruct (terminalErr c) as [e|] eqn:Et; try (apply stays_throw; by apply Hc)); try (by apply stays_ret);
    (eapply stays_bind; [apply ctx_stays|]); intros [] _; try (apply stays_throw; auto with foreign; fail).
  eapply stays_bind; [apply advanceOne_stays|]. by intros _ _.
Qed.

Lemma forget_stays id : call_stays (forget id) (fun _ => True).
Proof. unfold forget. eauto with foreign. Qed.

Lemma commit_loop_stays fuel id :
  call_stays (commit_loop unmarshalProposal marshalDisk path ancestors hasTransport Send wait fuel id) (fun _ => True).
Proof.
  assert (Hgive : forall e, foreign e -> call_stays (_ ← forget id; throw (A := pendingRaftProposal) e) (fun _ => True)).
  { intros e He. eapply stays_bind; [apply forget_stays|]. intros _ _. by apply stays_throw. }
  induction fuel as [|fuel IH]; cbn [commit_loop]; [eapply stays_weaken; [by apply stays_lift|done]|].
  eapply stays_bind; [apply shared_stays|]. intros c Hc. destruct (waiters c !! id) as [w|]; [|eapply stays_weaken; [by apply stays_lift|done]].
  destruct (pp_done w); [by apply stays_ret|]. destruct (terminalErr c) as [e|] eqn:Et; [apply Hgive; by apply Hc|].
  eapply stays_bind; [apply ctx_stays|]. intros [] _; [apply Hgive; auto with foreign|].
  eapply stays_bind; [eapply stays_catch, advance_stays|]. intros [e|] He; [apply Hgive; by apply He|].
  eapply stays_bind; [apply shared_stays|]. intros c2 _. eapply (stays_bind _ _ _ (fun _ => True)); [|by intros _ _].
  destruct (default false _); [by apply stays_ret|]. apply update_stays. intros c3. apply (own_wait Hlib).
Qed.

(** The only error of the two that a proposal fails with comes from the guard
    before it. *)
Lemma commitMutation_rejects nonce kind control data s e s' : foreign_result nonce -> clean (fst s) ->
  commitMutation marshalProposal unmarshalProposal marshalDisk path ancestors hasTransport Send wait nonce kind control data s = (Err e, s') ->
  foreign e \/ (e = ErrNotLeader /\ fst s' = fst s).
Proof.
  intros Hn Hs. unfold commitMutation. unfold mbind at 1. unfold SE_bind at 1. unfold shared at 1. cbn [fst snd].
  destruct (terminalErr (fst s)) as [t|] eqn:Et; [intros [= <- <-]; left; by apply Hs|].
  unfold mbind at 1. unfold SE_bind at 1. destruct (ctx_stays s Hs) as [Hc _]. assert (Ec : fst (snd (ctx_done s)) = fst s) by (destruct s as [c [|b l]]; done).
  destruct (ctx_done s) as [[over|?| |] s1] eqn:Ed; cbn [fst snd] in *; try (destruct s as [c [|? ?]]; discriminate).
  destruct over; [intros [= <- <-]; left; auto with foreign|]. case_bool_decide; [intros [= <- <-]; by right|].
  match goal with |- ?m s1 = _ -> _ => assert (Hm : call_stays m (fun _ => True)) end.
  { eapply stays_bind; [eauto with foreign|]. intros _ _. eapply stays_bind; [by apply stays_lift|]. intros b _. eapply stays_bind; [eauto with foreign|]. intros _ _.
    eapply stays_bind; [eapply stays_catch, raw_stays; auto with foreign|]. intros [e1|] He.
    - eapply stays_bind; [apply forget_stays|]. intros _ _. apply stays_throw. by apply He.
    - intros s2 Hs2. by apply commit_loop_stays. }
  intros E. destruct (Hm s1 Hc) as [_ Hf]. rewrite E in Hf. by left.
Qed.

Lemma CommitData_rejects nonce m s e s' : foreign_result nonce -> clean (fst s) ->
  raft_CommitData marshalProposal unmarshalProposal marshalDisk path ancestors hasTransport Send wait nonce m s = (Err e, s') ->
  foreign e \/ (e = ErrNotLeader /\ fst s' = fst s).
Proof.
  intros Hn Hs. unfold raft_CommitData. unfold mbind, SE_bind. pose proof (fun e s' => commitMutation_rejects nonce "data" None (Some m) s e s' Hn Hs) as Hc.
  destruct (commitMutation _ _ _ _ _ _ _ _ _ _ _ _ s) as [[w|e1| |] s1]; try done.
  - destruct (pp_data w); [done|]. intros [= <- _]. left. auto with foreign.
  - intros [= <- <-]. by apply Hc.
Qed.
End Raft.

(** ** Drains and writes of a node *)

Section Node.
Context {T H M W : Type} `{MemTableLaws T} `{BL : BootLaws H M} `{DL : DurableLog W} {N Msg : Type} `{RL : RaftLib N Msg}.
Context (marshalProposal : raftCommitProposal -> bytes) (unmarshal : bytes -> result raftCommitProposal) (marshalDisk : raftDiskState -> bytes).
Context (raftPath : string) (raftAncestors : nat) (hasTransport : bool).
Context (Send : list PeerMessage -> etcdRaft N -> option send_error * etcdRaft N) (wait : Z -> etcdRaft N -> etcdRaft N).
Context (u : setup T).
Context (Hraft : raft_errors unmarshal Send wait) (Hown : own_errors (T := T) (W := W)).

Abbreviation engine := (LSM (T := T) (H := H) (M := M) (W := W)).
Abbreviation replica := (node (parts N engine)).

(** The node holds none of the two errors. *)
Definition holds_foreign (p : parts N engine) : Prop := foreign_opt (failure (n_apply p)) /\ forall i e, results (n_apply p) !! i = Some e -> foreign e.
Abbreviation node_stays m Q := (stays (fun s : replica => holds_foreign (consensus s)) m Q).

Definition effect_foreign (r : effect) : Prop := match r with Done _ => True | Reject _ e => foreign e | Failed e => foreign e end.

Lemma modify_parts_stays f : (forall p, holds_foreign p -> holds_foreign (f p)) -> node_stays (modify_parts f) (fun _ => True).
Proof. intros Hf. apply stays_modify. intros s Hs. by apply Hf. Qed.

Lemma on_engine_stays {A} (m : SE engine A) Q : stays (fun _ => True) m Q -> node_stays (on_engine m) Q.
Proof.
  apply (stays_on _ _ m (fun s => n_engine (consensus s)) (fun e s => mkNode (cp s) (disk s) (with_engine e (consensus s)))); [|done|done].
  intros s. unfold on_engine. by destruct (m _).
Qed.

Lemma apply_entry_stays item :
  node_stays (apply_entry (su_factory u) (su_limit u) (su_queue u) (su_grow u) (su_marshal u) (su_path u) (su_ancestors u) (su_pool u) (su_clock u) item) effect_foreign.
Proof.
  unfold apply_entry. destruct (rec_Data item) as [d|], (rec_Control item) as [k|]; try (apply stays_ret; cbn; auto with foreign).
  - eapply stays_bind; [eapply stays_catch, on_engine_stays, applyCommittedData_stays; exact Hown|]. intros [e|] He; [apply stays_ret; by apply He|].
    eapply stays_bind; [apply stays_get|]. intros s _. eapply stays_bind; [by apply modify_parts_stays|]. intros _ _. by apply stays_ret.
  - intros s Hs. destruct (from_log_stays holds_foreign (su_grow u) (su_marshal u) (su_path u) (su_ancestors u) k s Hs) as [G1 G2].
    destruct (applyCommittedControlFromLog _ _ _ _ k s) as [[[| |cause]|e| |] s1]; cbn in *; (split; [done|]); try done. by apply G2.
Qed.

Lemma drain_stays target :
  node_stays (drain (su_factory u) (su_limit u) (su_queue u) (su_grow u) (su_marshal u) (su_path u) (su_ancestors u) (su_pool u) (su_clock u) target) rejects_foreign.
Proof.
  unfold drain. eapply stays_bind; [apply stays_get|]. intros s [Hf _]. destruct (_ || _); [apply stays_throw; auto with foreign|].
  destruct (failure (n_apply (consensus s))) as [e|] eqn:Ef; [apply stays_throw; by apply Hf|].
  eapply (stays_bind _ _ _ (fun _ => True)).
  - generalize (CommittedEntriesAfter (n_raft (consensus s)) (cursor (n_apply (consensus s)))). intros items.
    induction items as [|item items IH]; cbn [drain_entries]; [by apply stays_ret|]. eapply stays_bind; [apply apply_entry_stays|].
    intros [index|index cause|e] He; cbn in He.
    + eapply stays_bind; [by apply modify_parts_stays|]. by intros _ _.
    + eapply stays_bind; [apply modify_parts_stays|by intros _ _]. intros p [G1 G2]. split; [done|]. cbn. intros i e [[<- <-]|[_ E]]%lookup_insert_Some; [done|by apply (G2 i)].
    + eapply stays_bind; [apply modify_parts_stays|intros _ _; by apply stays_throw]. intros p [G1 G2]. split; [by intros e' [= <-]|done].
  - intros _ _. eapply stays_bind; [apply stays_get|]. intros s1 [_ Hr]. case_bool_decide; [apply stays_throw; auto with foreign|]. apply stays_ret.
    intros e. destruct (results (n_apply (consensus s1)) !! target) as [e1|] eqn:E; [|done]. intros [= <-]. by apply (Hr target).
Qed.

Lemma drain_err_stays target :
  node_stays (drain_err (su_factory u) (su_limit u) (su_queue u) (su_grow u) (su_marshal u) (su_path u) (su_ancestors u) (su_pool u) (su_clock u) target) (fun _ => True).
Proof.
  unfold drain_err. eapply stays_bind; [apply drain_stays|]. intros [| |e] Hr; [by apply stays_ret..|]. apply stays_throw. by apply Hr.
Qed.

(** What a node returns for a write that is not committed by it. *)
Lemma propose_rejects nonce looks m s s' : foreign_result nonce -> clean (n_raft (consensus s)) -> holds_foreign (consensus s) ->
  propose_data (su_factory u) (su_limit u) (su_queue u) marshalProposal unmarshal marshalDisk raftPath raftAncestors hasTransport Send wait
    (su_grow u) (su_marshal u) (su_path u) (su_ancestors u) (su_pool u) (su_clock u) nonce looks m s = (Err commitLogNotLeader, s') -> s' = s.
Proof.
  intros Hn Hc Hh. unfold propose_data, on_raft.
  pose proof (fun e x => CommitData_rejects marshalProposal unmarshal marshalDisk raftPath raftAncestors hasTransport Send wait Hraft nonce m (n_raft (consensus s), looks) e x Hn Hc) as Hr.
  destruct (raft_CommitData _ _ _ _ _ _ _ _ _ _ _) as [[d|e| |] [c l]]; try done.
  - set (s1 := mkNode _ _ _). assert (Hs1 : holds_foreign (consensus s1)) by done. destruct (drain_err_stays (Commit_Index (dc_Commit d)) s1 Hs1) as [_ Hd].
    unfold settle_data, applyProposedData, catch, mbind, SE_bind. destruct (drain_err _ _ _ _ _ _ _ _ _ _ s1) as [[[]|e| |] s2]; cbn; try done.
    intros [= -> _]. by destruct Hd as [_ []].
  - unfold mbind, SE_bind, throw. destruct (Hr e (c, l) eq_refl) as [[G1 G2]|[-> Ec]].
    + unfold translateCommitLogError. rewrite bool_decide_false by done. destruct (isPreProposalRejection e); cbn; congruence.
    + cbn in Ec. cbn. intros [= <-]. rewrite Ec. destruct s as [c0 fs [r a en cd ce cl pc]]. done.
Qed.

(** The errors that a reachable node holds. *)
Lemma step_holds_foreign (applied : N -> Z) nd nd' :
  rstep (su_factory u) (su_limit u) (su_queue u) (su_planner u) (su_fuel u) (su_batch u) (su_repair u) (su_ignore u) (su_drop u) unmarshal applied
    (su_grow u) (su_marshal u) (su_path u) (su_ancestors u) (su_pool u) (su_clock u) nd nd' ->
  match nd with RUp s => holds_foreign (consensus s) | _ => True end -> match nd' with RUp s => holds_foreign (consensus s) | _ => True end.
Proof.
  destruct 1 as [| target s | | | | | | | reuse w m c0 c control fs s _ _ _ _ E |]; intros Hh; try done; [by apply drain_stays|].
  unfold replica_New in E. destruct (New _ _ _ _ _ _ _ _ _) as [r e]. destruct r; try done. unfold mbind, SE_bind in E.
  destruct (recoverEngine _ _ _ _ _ _ _ _) as [[[]|x| |] s1]; try done. unfold initCommittedApply, modify_parts, modify in E. injection E as <-.
  by split; intros ?.
Qed.

Lemma reachable_holds_foreign (applied : N -> Z) s : reachable (H := H) (M := M) (W := W) unmarshal applied u (RUp s) -> holds_foreign (consensus s).
Proof.
  intros (wal & store & c & _ & _ & _ & Hs). apply (rtc_ind_r (fun nd => match nd with RUp s => holds_foreign (consensus s) | _ => True end) (RDown wal store c)) in Hs; [done|done|].
  intros nd nd' _ Hst. by apply (step_holds_foreign applied).
Qed.

Lemma do_write_rejects (applied : N -> Z) nonce looks w s s' : reachable (H := H) (M := M) (W := W) unmarshal applied u (RUp s) -> clean (raft_of s) -> foreign_result nonce ->
  do_write marshalProposal unmarshal marshalDisk raftPath raftAncestors hasTransport Send wait u nonce looks w s = (Err commitLogNotLeader, s') -> s' = s.
Proof.
  intros Hr Hc Hn E. destruct (do_write_cases marshalProposal unmarshal marshalDisk raftPath raftAncestors hasTransport Send wait u nonce looks w s) as [[e E1]|E1]; rewrite E1 in E; [congruence|].
  by apply (propose_rejects _ _ _ _ _ Hn Hc (reachable_holds_foreign applied s Hr)) in E.
Qed.

(** The writes that a node offers to its server. *)
Definition write_of (w : kv_write) : write := match w with KvPut key value => WPut key value | KvDelete key => WDelete key end.
Definition node_writer (nonce : result bytes) (looks : list bool) (w : kv_write) : SE replica unit :=
  _ ← do_write marshalProposal unmarshal marshalDisk raftPath raftAncestors hasTransport Send wait u nonce looks (write_of w); mret tt.
End Node.

(** ** Write errors of a server *)

(** A request of a client to write. *)
Inductive write_call := CallPut (b : decoded putRequest * decoded unit) | CallDelete (b : decoded deleteRequest * decoded unit).
Definition run_write_call {P} (h : StatsProvider P) (mode method : string) (now1 now2 : Z) (k : write_call) : SE (server P) (response * list (string * kv_write)) :=
  match k with
  | CallPut b => handlePut h mode method b now1 now2
  | CallDelete b => handleDelete h mode method b now1 now2
  end.

(** What a call answered with a write error did to the provider. *)
Lemma executeWrite_error {P} (h : StatsProvider P) apply consistency w now1 now2 sv resp todo sv' we :
  executeWrite h apply consistency w now1 now2 sv = (Ok (resp, todo), sv') -> Body resp = BWriteError we ->
  todo = [] /\ exists err, apply w (srv_provider sv) = (Err err, srv_provider sv') /\ SafeToRetry we = isPreProposalRejection err.
Proof.
  unfold executeWrite, mbind, SE_bind, on_requests. destruct (requests_New _ _ _ _) as [st rq]. case_bool_decide; [by intros [= <- <- <-]|].
  unfold attempt. cbn [srv_provider]. destruct (apply w (srv_provider sv)) as [[[]|err| |] p]; cbn; try done; unfold settle_write, on_requests; cbn; intros [= <- <- <-]; [done|].
  intros [= <-]. split; [done|]. by exists err.
Qed.

Lemma write_call_error {P} (h : StatsProvider P) apply mode method now1 now2 k sv resp todo sv' we : pv_writer h = Some apply ->
  run_write_call h mode method now1 now2 k sv = (Ok (resp, todo), sv') -> Body resp = BWriteError we ->
  todo = [] /\ exists w err, apply w (srv_provider sv) = (Err err, srv_provider sv') /\ SafeToRetry we = isPreProposalRejection err.
Proof.
  intros Hw E Hb. assert (Hx : (exists c w, executeWrite h apply c w now1 now2 sv = (Ok (resp, todo), sv')) \/ (forall we, Body resp <> BWriteError we)).
  { destruct k as [[a b]|[a b]]; cbn in E; [unfold handlePut in E|unfold handleDelete in E]; rewrite Hw in E; (case_bool_decide; [right; by injection E as <- <- <-|]);
      (destruct (decodeJSONBody _ _) as [req|bad] eqn:Ed; [|right; injection E as <- <- <-; unfold decodeJSONBody in Ed; repeat case_match; by simplify_eq]);
      repeat case_match; first [by left; eauto | right; by injection E as <- <- <- | done]. }
  destruct Hx as [(c & w & Ex)|Hx]; [|by destruct (Hx we)]. destruct (executeWrite_error _ _ _ _ _ _ _ _ _ _ _ Ex Hb) as (Ht & err & Ea & Es). split; [done|]. by exists w, err.
Qed.

Section Claim.
Context {T H M W : Type} `{MemTableLaws T} `{BL : BootLaws H M} `{DL : DurableLog W} {N Msg : Type} `{RL : RaftLib N Msg}.
Context (marshalProposal : raftCommitProposal -> bytes) (unmarshal : bytes -> result raftCommitProposal) (marshalDisk : raftDiskState -> bytes).
Context (raftPath : string) (raftAncestors : nat) (hasTransport : bool).
Context (Send : list PeerMessage -> etcdRaft N -> option send_error * etcdRaft N) (wait : Z -> etcdRaft N -> etcdRaft N) (applied : N -> Z) (u : setup T).

(** C14. An answer that says a write is safe to retry is right: on any
    reachable replicated node, if the server answers a put or a delete with
    [safe_to_retry], the node is as it was before the request (its raft log
    and proposals, its engine, its control plane and its files), and no
    goroutine is left to write. *)
Theorem safe_to_retry_changes_nothing (h : StatsProvider (node (parts N (LSM (T := T) (H := H) (M := M) (W := W))))) nonce looks mode method now1 now2 k sv resp todo sv' we :
  raft_errors unmarshal Send wait -> own_errors (T := T) (W := W) -> foreign_result nonce ->
  pv_writer h = Some (node_writer marshalProposal unmarshal marshalDisk raftPath raftAncestors hasTransport Send wait u nonce looks) ->
  reachable (H := H) (M := M) (W := W) unmarshal applied u (RUp (srv_provider sv)) -> clean (raft_of (srv_provider sv)) ->
  run_write_call h mode method now1 now2 k sv = (Ok (resp, todo), sv') -> Body resp = BWriteError we -> SafeToRetry we = true ->
  srv_provider sv' = srv_provider sv /\ todo = [].
Proof.
  intros Hraft Hown Hn Hw Hr Hc E Hb Hs. destruct (write_call_error h _ mode method now1 now2 k sv resp todo sv' we Hw E Hb) as (Ht & w & err & Ea & Es).
  split; [|done]. rewrite Hs in Es. symmetry in Es. apply bool_decide_eq_true in Es. subst err. unfold node_writer, mbind, SE_bind in Ea.
  destruct (do_write _ _ _ _ _ _ _ _ _ _ _ _ (srv_provider sv)) as [[q|e| |] s1] eqn:Ed; try done. injection Ea as -> ->.
  by apply (do_write_rejects marshalProposal unmarshal marshalDisk raftPath raftAncestors hasTransport Send wait u Hraft Hown applied nonce looks (write_of w)).
Qed.
End Claim.

(** ** An example: a node that is not the leader of its shard *)

Module Follower.
#[local] Existing Instance Solo.solo_lib.

Definition control : controlPlane := cp (snd (demo_serve_all [once_request] demo_start)).

Lemma follower_control_ok : cp_wf control.
Proof. exact (proj2 (running_wf _ _ _ _ _ _ _ (demo_running [once_request]))). Qed.

Definition first : result unit * Single.replica :=
  replica_New (H := run_handle) newMapTable 1 demo_grow demo_marshal demo_path 1 (fun _ => false) 1 false false false false [] (no_files []) Solo.started control demo_fs.

Lemma follower_reachable : fst first = Ok tt ->
  reachable (H := run_handle) (M := files) (W := list Entry) Solo.decode_proposal Single.applied_of (Single.settings 1) (RUp (snd first)).
Proof.
  intros E. exists [], (no_files []), Solo.started. split_and!; [done|done|done|]. apply rtc_once. destruct Single.started_ok as [Hok _].
  eapply (StepStart _ _ _ _ _ _ _ _ _ _ _ _ _ _ _ _ _ false [] (no_files []) Solo.started Solo.started control demo_fs); [done| |done|apply follower_control_ok|].
  - assert (committed Solo.started = []) as -> by (vm_compute; reflexivity). constructor.
  - revert E. unfold first. by destruct (replica_New _ _ _ _ _ _ _ _ _ _ _ _ _ _ _ _ _) as [[[]|e| |] s]; cbn; intros [=].
Qed.

Lemma solo_errors : raft_errors Solo.decode_proposal Solo.no_send Solo.no_wait.
Proof.
  split; try (intros; cbn; apply foreign_ok); try done.
  intros b. unfold Solo.decode_proposal, count_unmarshal. repeat case_match; auto with foreign.
Qed.

Lemma engine_errors : own_errors (T := MapTable) (W := list Entry).
Proof. split; intros; cbn; auto with foreign. Qed.

Definition provider : StatsProvider Single.replica :=
  mkProvider _ (fun _ => (true, "")) None
    (Some (node_writer Solo.encode_proposal Solo.decode_proposal Solo.no_disk "raft.json" 1 false Solo.no_send Solo.no_wait (Single.settings 1) (Ok [Byte.x2a]) Single.looks)) None None None.

Definition serving : server Single.replica := mkServer (snd first) (newWriteRequestStore 8).
Definition put_call : write_call := CallPut (Decoded (mkPut (EncodeToString (bytes_of_string "a")) (EncodeToString (bytes_of_string "b")) WriteConsistencyLocalCommitted), EndOfBody).
Definition answer : result (response * list (string * kv_write)) * server Single.replica := run_write_call provider WriteConsistencyAccepted "POST" 1 2 put_call serving.
Definition refusal : writeErrorResponse := mkWriteError true commitLogNotLeader "not_leader" true None.
End Follower.

Lemma safe_to_retry_changes_nothing_witness :
  fst Follower.answer = Ok (mkResponse 409 (BWriteError Follower.refusal), []) /\ srv_provider (snd Follower.answer) = snd Follower.first.
Proof.
  assert (E : fst Follower.answer = Ok (mkResponse 409 (BWriteError Follower.refusal), [])) by (vm_compute; reflexivity). split; [exact E|].
  destruct (safe_to_retry_changes_nothing (RL := Solo.solo_lib) Solo.encode_proposal Solo.decode_proposal Solo.no_disk "raft.json" 1 false Solo.no_send Solo.no_wait Single.applied_of (Single.settings 1)
    Follower.provider (Ok [Byte.x2a]) Single.looks WriteConsistencyAccepted "POST" 1 2 Follower.put_call Follower.serving (mkResponse 409 (BWriteError Follower.refusal)) [] (snd Follower.answer)
    Follower.refusal Follower.solo_errors Follower.engine_errors (foreign_ok _) eq_refl (Follower.follower_reachable ltac:(vm_compute; reflexivity))) as [Hx _]; [|..|exact Hx].
  - assert (Et : terminalErr (raft_of (snd Follower.first)) = None) by (vm_compute; reflexivity). intros e. cbn. unfold clean. rewrite Et. discriminate.
  - rewrite <- E. unfold Follower.answer. by destruct (run_write_call _ _ _ _ _ _ _).
  - reflexivity.
  - reflexivity.
Defined.
